(* ===== verification/_CoqProject ===== *)
-Q . S2P
Prelude.v
Sds.v
Util.v
VectorClock.v
LamportClock.v
Dict.v
DictRep.v
SipHash.v
DictMap.v
DictScan.v
DictIter.v
Ziplist.v
ZiplistRep.v
ZiplistCascade.v
ZiplistInsert.v
ZiplistDelete.v
ZiplistList.v
Hash.v
HashRep.v
Double.v
DoubleAdd.v
Rounding.v
LongDouble.v
ScoreText.v
HashCommands.v
HashSpec.v
HashReplica.v
Entries.v
Skiplist.v
SkiplistRep.v
Zset.v
ZsetRep.v
Zzl.v
ZzlRep.v
ZzlSpec.v
Server.v
Container.v
Rwf.v
Rwfset.v
RwfsetRep.v
Rwfzset.v
RwfzsetRep.v
TagSet.v
Oset.v
OsetRep.v
Ozset.v
OzsetRep.v
RemoveWin.v
Causal.v
RemoveWinRep.v
Rset.v
Rzset.v
RzsetRep.v
ListBasics.v
Leid.v
ListChain.v
Rlist.v
Rwflist.v
RwflistRep.v
RwflistInv.v
P2p.v
RlistRep.v
RlistInv.v
Replicas.v
Framework.v
Network.v
Defects.v
RwfsetNet.v
RwfsetSys.v
RwfzsetNet.v
OsetNet.v
OsetSys.v
OzsetNet.v
RzsetNet.v
RwflistNet.v
RlistNet.v
