(* ===== verification/Prelude.v ===== *)
(** * CRDT-Redis: a verification of the replicated data types

    CRDT-Redis is a Redis 6.0.5 (src/redis-6.0.5/src) whose servers accept
    writes on replicated sets, priority queues and lists and broadcast them to
    each other.  This library translates the code of these types into Rocq
    functions and proves what the types compute and where replicas agree.

    ** The program

    - A command has a _prepare_ phase, run at the server a client talks to,
      and an _effect_ phase, run there and at every peer (macros of CRDT.h and
      RWFramework.h).  The prepare phase checks the arguments and appends
      metadata (a clock, tags, an identifier) to the message; the message is
      broadcast to the peers (server.c [call], p2p.c); a message that arrives
      on a peer link runs the effect phase only.
    - Metadata of elements are C structs that the fields of a hash point to;
      what clients read of sets and queues is a sorted set (t_zset.c), of a
      list the chain of its elements.
    - Eight types are built on this: sets and priority queues of the
      Remove-Win framework (t_rwfset.c, t_rwfzset.c), add-win (t_oset.c,
      t_ozset.c) and remove-win (t_rset.c, t_rzset.c), and two lists
      (t_rlist.c, t_rwflist.c with list_basics.c).  The command table binds
      the names of the remove-win set to the functions of t_rwfset.c.

    - Below them are the containers of Redis: hash tables that grow and shrink
      step by step (dict.c, keyed with siphash.c), ziplists, which are lists of
      strings in one block of bytes (ziplist.c), hashes over both (t_hash.c) and
      sorted sets over ziplists and skip lists (t_zset.c).

    ** Files

    Numbers and strings: [Sds] number scanning and printing, string comparison;
    [Util] the conversions between integers and text as they write their buffers
    (util.c, sds.c); [Double], [DoubleAdd] C doubles, their conversion and their
    rounding sums; [Rounding] which decimal fractions round to a double;
    [LongDouble] long doubles ([string2ld], [ld2string]); [ScoreText] the text of
    a score ([d2string]); [VectorClock], [LamportClock] the clocks and their wire
    formats.

    Dictionaries: [Dict] the tables with their entries on a heap (dict.c),
    [DictRep] what they represent, [SipHash] the hash functions and the types of
    dictionaries of server.c, [DictMap] that dictionaries implement finite maps,
    [DictScan] the scan with a cursor, [DictIter] the iterators.

    Ziplists: [Ziplist] the functions of ziplist.c on the bytes of the block,
    [ZiplistRep] entries and blocks, [ZiplistCascade], [ZiplistInsert],
    [ZiplistDelete] what the changing functions do, [ZiplistList] that ziplists
    implement lists of strings.

    Hashes: [Hash] the objects of t_hash.c, [HashRep] that they are finite maps,
    [HashCommands] the commands, [HashSpec] their specification and refinement,
    [HashReplica] the propagation to a replica.

    Sorted sets: [Entries] sorted pairs; [Skiplist] the skip list with its
    nodes on a heap, [SkiplistRep] that it represents a sorted list; [Zset] the
    API of t_zset.c over skip lists and over the list of pairs that a ziplist
    stands for, [ZsetRep] that it implements finite maps; [Zzl] the API over the
    bytes of a ziplist, [ZzlRep] which pairs these are, [ZzlSpec] that the API
    over bytes implements finite maps too.  The commands of the CRDT types use
    [Zset].

    The server: [Server] the state ([world]: keyspace, heap, replication
    parameters, calling client), the command monad [M] (a command can finish,
    [return], or fault with the kind of undefined behaviour or failed
    assertion), the macros of CRDT.h and the metadata tables; [Container] a
    container in the keyspace as a pair of maps, with the frame of every
    shared operation; [P2p] the heap cells of all types, the command table,
    [processCommand] and [call], and a network of servers with first-in
    first-out links; [Replicas] the class [Replicated], which says what a type
    owes (its messages, its invariant, that an effect phase keeps it), and
    what follows for a server that processes a history; [Network] the same for
    a network of servers; [Framework] facts of the whole command table.

    The types; for each, the file with its name is the translation, [..Rep]
    proves what the effect phases compute, [..Net] states what clients read
    from replicas, [..Sys] composes prepare phases, links and effect phases:
    - [Rwf] the Remove-Win framework, [Rwfset], [RwfsetRep], [RwfsetNet],
      [RwfsetSys], [Rwfzset], [RwfzsetRep], [RwfzsetNet];
    - [TagSet] lists of tagged entries, [Oset], [OsetRep], [OsetNet],
      [OsetSys], [Ozset], [OzsetRep], [OzsetNet];
    - [RemoveWin] the code that t_rset.c and t_rzset.c share, [Causal] its
      queue of unready commands, [RemoveWinRep], [Rset], [Rzset], [RzsetRep],
      [RzsetNet];
    - [ListBasics] and [Leid] the identifiers of list elements and their
      order, [ListChain] the chain on the heap; [Rlist], [RlistRep],
      [RlistInv], [RlistNet]; [Rwflist], [RwflistRep], [RwflistInv],
      [RwflistNet].  The [..Inv] files hold the invariant of a replica.

    [Defects] and parts of the files above show runs on which the code does
    not do what it means to.

    ** What is proved

    - Systems of servers ([rwfset_system], [oset_system]): whatever clients
      do at whichever servers and however messages interleave, no command
      faults, and servers with no message on its way answer alike.
    - What a replica answers ([..._scores], [..._members], [..._reply]): the
      replies to read commands as a function of the operations received, for
      any order of arrival that the type is made for, conditions on the order
      being part of the statement.
    - Convergence ([..._convergence]): replicas that have received the same
      operations in different orders give the same replies; [rzset_complete]:
      the queue of unready commands loses nothing and ends empty.
    - Lists: the chain of a list is in the order of the identifiers and goes
      through every element ([rwflist_chain]).
    - Containers: dictionaries refine finite maps whatever the state of their
      rehashing, rehashing ends, a scan and an iteration are complete; ziplists
      refine lists of strings on the level of bytes, merging appends; hashes
      and all their commands refine a map from keys to maps, and replicas of
      them agree; sorted sets refine finite maps in both encodings, as bytes
      and as skip lists, and through conversion.
    - Numbers: integers survive [ll2string], doubles survive [d2string]
      ([score_roundtrip]).
    - Clocks and identifiers: comparison on every pair of clocks, join, causal
      readiness, round trips of the wire formats, the order and the construction
      of identifiers.
    - Every command: requests on peer links are not broadcast and not answered,
      writers refuse wrong types before doing anything, the array of replicated
      arguments is never overrun; keys keep their types ([net_run_later]).
    - Defects: each a lemma about a concrete run or about all messages of a
      kind.

    ** Conventions

    A C [int] is a [Z] with [wrap32] where it can overflow; [u32] and [u64] are
    the unsigned types.  Two integers are not wrapped: the ranks of a skip list,
    which are [unsigned int] and matter from 2^32 nodes on, and the number of
    steps given to [dictRehash], which the server calls with 1 and 100.  Doubles
    are the binary64 values of [SpecFloat] with round to nearest.  Pointers are
    addresses in the heap of a [world] or of a dictionary, offsets into the
    block of a ziplist, or addresses carried by the entries of a C list; a
    dangling or null pointer, a read outside an array or a block, a read of an
    unset variable and a failed assertion are faults, never defaults.  What the
    allocator and the stack hold before they are written is a parameter ([junk],
    [stack_buf], [stack_chars]), and so are the seed of the hash function and the
    random levels of skip-list nodes, a list of numbers.  A string that the code
    compares with [strcmp] ends at its first zero byte ([c_str]).

    Loops that are not structural have fuel: one more than the size of the
    heap for a walk along a chain, one more than the length of the queue for
    the loop over unready commands, one more than the length of the longer
    identifier for [constructLeid], the number of buckets or entries for the
    loops of a dictionary, the length of the block for those of a ziplist; the
    theorems show that it does not run out where the data is well formed.

    Bounds in the statements are those of the code: a ziplist has a 32-bit
    length, so what it stores stays below 4 GiB (beyond, see
    [ziplist_push_overflow]); members of a sorted set are shorter than 2^31
    bytes, since their lengths are subtracted as [int]; dictionaries have
    fewer than 2^58 entries and are given sizes up to 2^60, above which the size
    of a table in bytes wraps (see [dictExpand_wraps]).  Scores in replies of the CRDT types are compared up to
    [dkey], that is up to doubles that C finds equal.

    ** Not modelled

    Of the command table, only the CRDT commands ([redisCommandTable]) and those
    on hashes but HSCAN ([hash_table]) are modelled: a client that deletes a
    replicated key with DEL or FLUSHALL, or sets up connections with REPLICATE
    and REPLTEST, is outside of the theorems.  Links exist and are reliable here,
    which is what TCP gives while both ends are up; a connection that a peer
    opens with REPLICATE does not have the flag CLIENT_REPLICA_MESSAGE, which
    only REPLTEST sets ([link_silent] covers both).  Upstream Redis that the
    types do not call is left out: its other data types and commands,
    persistence, primary-replica replication but for the propagation of hash
    commands, cluster, scripting, modules, expiry, eviction, access control,
    output buffers and the event loop.  The doubly linked lists of adlist.c
    appear by their contents, and so do the dictionaries and ziplists inside the
    objects of the CRDT types.  The benchmark client is not part of the
    server. *)

From Stdlib Require Export ZArith Lia.
From stdpp Require Export base tactics numbers list gmap strings.

#[global] Set Default Proof Using "Type*".

(** Scope of the development's notations. *)
Declare Scope crdt_scope.
Delimit Scope crdt_scope with crdt.

(** ** C integers

    A C [int] is a [Z]; operations that can leave the 32-bit range go
    through [wrap32] (two's complement). *)
Definition INT_MIN : Z := (-2147483648)%Z.
Definition INT_MAX : Z := 2147483647%Z.

Definition wrap32 (z : Z) : Z := ((z + 2147483648) mod 4294967296 - 2147483648)%Z.

Definition int32 (z : Z) : Prop := (INT_MIN ≤ z ≤ INT_MAX)%Z.

#[global] Instance int32_dec z : Decision (int32 z).
Proof. unfold int32; apply _. Defined.

Lemma wrap32_id z : int32 z → wrap32 z = z.
Proof. unfold int32, INT_MIN, INT_MAX, wrap32; intros ?. rewrite Z.mod_small; lia. Qed.

Lemma wrap32_range z : int32 (wrap32 z).
Proof.
  unfold int32, INT_MIN, INT_MAX, wrap32.
  pose proof (Z.mod_pos_bound (z + 2147483648) 4294967296). lia.
Qed.

(** The wrapped difference of two [int]s vanishes only on equal operands,
    even when the subtraction itself overflows. *)
Lemma wrap32_sub_0 x y : int32 x → int32 y → wrap32 (x - y) = 0%Z ↔ x = y.
Proof.
  unfold int32, INT_MIN, INT_MAX, wrap32; intros Hx Hy; split.
  - intros H. pose proof (Z.div_mod (x - y + 2147483648) 4294967296). lia.
  - intros ->. rewrite Z.sub_diag. reflexivity.
Qed.

(** ** Tactics *)

(** Case analysis on every boolean comparison of [Z] or [nat] in sight. *)
Ltac cases_Z :=
  repeat match goal with
    | |- context [(?a =? ?b)%Z] => destruct (Z.eqb_spec a b)
    | |- context [(?a <? ?b)%Z] => destruct (Z.ltb_spec a b)
    | |- context [(?a <=? ?b)%Z] => destruct (Z.leb_spec a b)
    | |- context [(?a >? ?b)%Z] => rewrite (Z.gtb_ltb a b)
    | H : context [(?a =? ?b)%Z] |- _ => destruct (Z.eqb_spec a b)
    | H : context [(?a <? ?b)%Z] |- _ => destruct (Z.ltb_spec a b)
    | H : context [(?a <=? ?b)%Z] |- _ => destruct (Z.leb_spec a b)
    | H : context [(?a >? ?b)%Z] |- _ => rewrite (Z.gtb_ltb a b) in H
    end.

(** ** Lists *)

Lemma filter_none {A} (P : A → Prop) `{!∀ x, Decision (P x)} (l : list A) :
  (∀ x, x ∈ l → ¬ P x) → filter P l = [].
Proof.
  induction l as [|x l IH]; intros Hn; [done|].
  rewrite filter_cons_False by (apply Hn; set_solver). apply IH. set_solver.
Qed.

Lemma elem_of_snoc {A} (x y : A) l : x ∈ l ++ [y] ↔ x ∈ l ∨ x = y.
Proof. by rewrite elem_of_app, list_elem_of_singleton. Qed.

Lemma filter_all {A} (P : A → Prop) `{!∀ x, Decision (P x)} (l : list A) :
  (∀ x, x ∈ l → P x) → filter P l = l.
Proof.
  induction l as [|x l IH]; intros Hl; [done|]. rewrite filter_cons, decide_True by (apply Hl; by left).
  f_equal. apply IH. intros y Hy. apply Hl. by right.
Qed.

Lemma filter_iff_in {A} (P Q : A → Prop) `{!∀ x, Decision (P x), !∀ x, Decision (Q x)} (l : list A) :
  (∀ x, x ∈ l → P x ↔ Q x) → filter P l = filter Q l.
Proof.
  induction l as [|x l IH]; intros Hl; [done|]. rewrite !filter_cons.
  rewrite IH by (intros; apply Hl; by right). apply decide_ext, Hl. by left.
Qed.

Lemma NoDup_fmap_filter {A B} (f : A → B) (P : A → Prop) `{!∀ x, Decision (P x)} (l : list A) :
  NoDup (f <$> l) → NoDup (f <$> filter P l).
Proof.
  induction l as [|x l IH]; [done|]. rewrite fmap_cons, NoDup_cons, filter_cons. intros [Hx Hl].
  case_decide; [|by apply IH]. rewrite fmap_cons, NoDup_cons. split; [|by apply IH].
  intros (y & Heq & [_ Hy]%list_elem_of_filter)%list_elem_of_fmap. apply Hx. rewrite Heq.
  by apply list_elem_of_fmap_2.
Qed.

Lemma NoDup_fmap_inj {A B} (f : A → B) (l : list A) x y :
  NoDup (f <$> l) → x ∈ l → y ∈ l → f x = f y → x = y.
Proof.
  induction l as [|z l IH]; [by intros _ ?%elem_of_nil|]. rewrite fmap_cons, NoDup_cons, !elem_of_cons.
  intros [Hz Hl] [->|Hx] [->|Hy] Heq; [done|destruct Hz..|by apply IH].
  - rewrite Heq. by apply list_elem_of_fmap_2.
  - rewrite <- Heq. by apply list_elem_of_fmap_2.
Qed.

(** Where a split of a list falls with respect to one of its elements. *)
Lemma split_at {A} (l1 l2 k1 k2 : list A) (m : A) :
  l1 ++ m :: l2 = k1 ++ k2 →
  (∃ c, l1 = k1 ++ c ∧ k2 = c ++ m :: l2) ∨ (∃ c, k1 = l1 ++ m :: c ∧ l2 = c ++ k2).
Proof.
  intros H. apply app_eq_inv in H as [(c & -> & ->)|(c & -> & H)]; [left; eauto|].
  destruct c as [|b c]; simpl in *; simplify_eq; [left; exists []; by rewrite !app_nil_r|right; eauto].
Qed.

Lemma split_middle {A} (l1 l2 k1 k2 : list A) (m r : A) :
  l1 ++ m :: l2 = k1 ++ r :: k2 →
  (∃ c, l1 = k1 ++ r :: c ∧ k2 = c ++ m :: l2) ∨ (k1 = l1 ∧ r = m ∧ k2 = l2) ∨
  (∃ c, k1 = l1 ++ m :: c ∧ l2 = c ++ r :: k2).
Proof.
  intros H. apply split_at in H as [(c & -> & H)|(c & -> & ->)]; [|eauto].
  destruct c as [|b c]; simpl in H; simplify_eq; [rewrite ?app_nil_r; auto|left; eauto].
Qed.

(** A fold whose steps commute does not depend on the order. *)
Lemma foldl_perm {A B} (f : B → A → B) (b : B) (l1 l2 : list A) :
  (∀ a1 a2 b, a1 ∈ l1 → a2 ∈ l1 → f (f b a1) a2 = f (f b a2) a1) →
  l1 ≡ₚ l2 → foldl f b l1 = foldl f b l2.
Proof.
  intros Hc Hp. revert b Hc. induction Hp as [|x l1 l2 Hp IH|x y l|l1 l2 l3 H1 IH1 H2 IH2]; intros b Hc.
  - done.
  - simpl. apply IH. set_solver.
  - simpl. rewrite Hc by set_solver. done.
  - rewrite IH1 by done. apply IH2. intros. apply Hc; by rewrite H1.
Qed.

Create HintDb crdt.
#[export] Hint Resolve wrap32_id wrap32_range : crdt.
