(* ===== verification/Sds.v ===== *)
(** * Strings: number printing and scanning

    The sds strings that carry CRDT metadata between replicas are written
    with [sdscatprintf("%d")] and read back with [atoi], [sscanf("%d")] and
    [string2ll] (src/util.c).  [fmt_d] is the printer, [strtol]/[atoi]/[scan_d]
    model what the C library scanners do on such strings, [string2ll] is
    translated from util.c, [sdscmp] and [sdstolower] from sds.c. *)

From Stdlib Require Import Ascii.
From stdpp Require Import pretty.
From S2P Require Import Prelude.

Abbreviation sds := string.

(** ** Character classes *)

Definition code (a : ascii) : Z := Z.of_N (N_of_ascii a).

Definition isdigit (a : ascii) : bool := (48 <=? code a)%Z && (code a <=? 57)%Z.

Definition isspace (a : ascii) : bool :=
  (code a =? 32)%Z || ((9 <=? code a)%Z && (code a <=? 13)%Z).

Definition digit_val (a : ascii) : Z := (code a - 48)%Z.

Definition tolower (a : ascii) : ascii :=
  if (65 <=? code a)%Z && (code a <=? 90)%Z
  then ascii_of_N (N_of_ascii a + 32) else a.

(** sds.c [sdstolower]: lower-cases every byte. *)
Fixpoint sdstolower (s : sds) : sds :=
  match s with
  | EmptyString => EmptyString
  | String a s' => String (tolower a) (sdstolower s')
  end.

(** [memcmp] of the common prefix, then the lengths (sds.c [sdscmp]). *)
Fixpoint sdscmp (s1 s2 : sds) : Z :=
  match s1, s2 with
  | EmptyString, EmptyString => 0
  | EmptyString, String _ _ => -1
  | String _ _, EmptyString => 1
  | String a s1', String b s2' =>
      if (code a =? code b)%Z then sdscmp s1' s2' else (code a - code b)%Z
  end.

(** The characters before the first zero byte, those that [strcmp] compares. *)
Fixpoint c_str (s : sds) : sds :=
  match s with
  | EmptyString => EmptyString
  | String a s' => if (code a =? 0)%Z then EmptyString else String a (c_str s')
  end.

(** [strcmp(s, lit) == 0] with a literal. *)
Definition strcmp_eq (s lit : sds) : bool := String.eqb (c_str s) lit.

(** The bytes of an sds. *)
Fixpoint sds_bytes (s : sds) : list Z :=
  match s with
  | EmptyString => []
  | String a s' => code a :: sds_bytes s'
  end.

Lemma code_inj a b : code a = code b → a = b.
Proof. unfold code. intros Hab. rewrite <- (ascii_N_embedding a), <- (ascii_N_embedding b). f_equal. lia. Qed.

Lemma code_range a : (0 ≤ code a < 256)%Z.
Proof. destruct a as [[] [] [] [] [] [] [] []]; vm_compute; split; congruence. Qed.

Lemma sds_bytes_inj s t : sds_bytes s = sds_bytes t → s = t.
Proof. revert t. induction s as [|a s IH]; intros [|b t]; simpl; try done. intros [= Ha%code_inj Hs%IH]. by subst. Qed.

(** The string of some bytes. *)
Fixpoint bytes_sds (bs : list Z) : sds :=
  match bs with
  | [] => EmptyString
  | b :: bs => String (ascii_of_N (Z.to_N b)) (bytes_sds bs)
  end.

Lemma bytes_sds_bytes s : bytes_sds (sds_bytes s) = s.
Proof. induction s as [|a s IH]; [done|]. simpl. unfold code. by rewrite N2Z.id, ascii_N_embedding, IH. Qed.

(** ** Printing: the ["%d"] conversion *)

Definition fmt_d (z : Z) : sds := pretty z.

(** ** Scanning: [strtol], [atoi], [sscanf "%d"] *)

Definition head_digit (s : sds) : bool :=
  match s with String a _ => isdigit a | EmptyString => false end.

Fixpoint skip_space (s : sds) : sds :=
  match s with
  | String a s' => if isspace a then skip_space s' else s
  | EmptyString => s
  end.

Fixpoint scan_digits (acc : Z) (s : sds) : Z * sds :=
  match s with
  | String a s' =>
      if isdigit a then scan_digits (acc * 10 + digit_val a) s' else (acc, s)
  | EmptyString => (acc, s)
  end.

(** Optional white space, optional sign, then decimal digits: [None] when
    there is no digit to convert. *)
Definition scan_num (s : sds) : option (Z * sds) :=
  let s := skip_space s in
  match s with
  | String a r =>
      if (code a =? 45)%Z then
        if head_digit r then Some (let '(v, r') := scan_digits 0 r in ((- v)%Z, r')) else None
      else if (code a =? 43)%Z then
        if head_digit r then Some (scan_digits 0 r) else None
      else if isdigit a then Some (scan_digits 0 s) else None
  | EmptyString => None
  end.

(** 64-bit saturation of [strtol], then truncation to [int]. *)
Definition LLONG_MIN : Z := (-9223372036854775808)%Z.
Definition LLONG_MAX : Z := 9223372036854775807%Z.
Definition ULLONG_MAX : Z := 18446744073709551615%Z.

Definition int64 (z : Z) : Prop := (LLONG_MIN ≤ z ≤ LLONG_MAX)%Z.

Definition clamp64 (z : Z) : Z := Z.max LLONG_MIN (Z.min LLONG_MAX z).

Definition atoi (s : sds) : Z :=
  match scan_num s with Some (v, _) => wrap32 (clamp64 v) | None => 0 end.

(** One ["%d"] directive of [sscanf]. *)
Definition scan_d (s : sds) : option (Z * sds) :=
  match scan_num s with Some (v, r) => Some (wrap32 (clamp64 v), r) | None => None end.

(** A literal character of a [sscanf] format. *)
Definition scan_lit (a : ascii) (s : sds) : option sds :=
  match s with
  | String b r => if (code a =? code b)%Z then Some r else None
  | EmptyString => None
  end.

(** [while (!stop( *p )) p++;] over a NUL-terminated string: [None] when the
    loop runs past the terminator. *)
Fixpoint skip_until (stop : ascii → bool) (s : sds) : option sds :=
  match s with
  | String a s' => if stop a then Some s else skip_until stop s'
  | EmptyString => None
  end.

(** ** Strict conversion of util.c: [string2ll] *)

(** The digit loop, with the overflow test the code makes at each step;
    [None] on overflow, otherwise the value and the unread suffix. *)
Fixpoint string2ll_loop (v : Z) (s : sds) : option (Z * sds) :=
  match s with
  | String a s' =>
      if isdigit a then
        if (v >? ULLONG_MAX / 10)%Z then None
        else if (v * 10 >? ULLONG_MAX - digit_val a)%Z then None
        else string2ll_loop (v * 10 + digit_val a) s'
      else Some (v, s)
  | EmptyString => Some (v, s)
  end.

(** First digit 1-9, then the loop, which must use every byte. *)
Definition string2ll_digits (p : sds) : option Z :=
  match p with
  | EmptyString => None
  | String a r =>
      if (49 <=? code a)%Z && (code a <=? 57)%Z then
        match string2ll_loop (digit_val a) r with
        | Some (v, EmptyString) => Some v
        | _ => None
        end
      else None
  end.

Definition string2ll (s : sds) : option Z :=
  if String.eqb s "" then None
  else if String.eqb s "0" then Some 0%Z
  else
    let '(negative, p) :=
      match s with
      | String a r => if (code a =? 45)%Z then (true, r) else (false, s)
      | EmptyString => (false, s)
      end in
    match string2ll_digits p with
    | None => None
    | Some v =>
        if negative then if (v >? - LLONG_MIN)%Z then None else Some (- v)%Z
        else if (v >? LLONG_MAX)%Z then None else Some v
    end.

(** ** Lemmas: printing then scanning *)

Lemma pretty_N_char_digit x : (x < 10)%N →
  isdigit (pretty_N_char x) = true ∧ digit_val (pretty_N_char x) = Z.of_N x.
Proof.
  intros Hx.
  assert (x = 0 ∨ x = 1 ∨ x = 2 ∨ x = 3 ∨ x = 4 ∨ x = 5 ∨ x = 6 ∨ x = 7 ∨ x = 8
    ∨ x = 9)%N as Hc by lia.
  repeat destruct Hc as [->|Hc]; try (by vm_compute). subst; by vm_compute.
Qed.

Lemma sds_app_cons a (s1 s2 : sds) : String a s1 +:+ s2 = String a (s1 +:+ s2).
Proof. reflexivity. Qed.

Lemma sds_app_assoc (s1 s2 s3 : sds) : s1 +:+ (s2 +:+ s3) = (s1 +:+ s2) +:+ s3.
Proof. induction s1 as [|a s1 IH]; [done|]. by rewrite !sds_app_cons, IH. Qed.

Lemma pretty_N_go_app x s : pretty_N_go x s = pretty_N_go x "" +:+ s.
Proof.
  revert s. induction (N.lt_wf_0 x) as [x _ IH]; intros s.
  destruct (decide (x = 0)%N) as [->|]; [done|].
  rewrite (pretty_N_go_step x s), (pretty_N_go_step x "") by lia.
  assert (x / 10 < x)%N as Hlt by (apply N.div_lt; lia).
  rewrite (IH _ Hlt), (IH _ Hlt (String _ "")).
  by rewrite <- sds_app_assoc.
Qed.

(** The printer's digits are read back by [scan_digits]. *)
Lemma scan_digits_go x s : scan_digits 0 (pretty_N_go x s) = scan_digits (Z.of_N x) s.
Proof.
  revert s. induction (N.lt_wf_0 x) as [x _ IH]; intros s.
  destruct (decide (x = 0)%N) as [->|]; [done|].
  rewrite pretty_N_go_step by lia. rewrite IH by (apply N.div_lt; lia). simpl.
  pose proof (N.mod_lt x 10).
  destruct (pretty_N_char_digit (x mod 10)) as [-> ->]; [lia|].
  f_equal. pose proof (N.div_mod x 10). lia.
Qed.

Lemma pretty_N_go_head x s :
  (0 < x)%N → ∃ a r, pretty_N_go x s = String a r ∧ isdigit a = true
    ∧ (49 ≤ code a)%Z.
Proof.
  revert s. induction (N.lt_wf_0 x) as [x _ IH]; intros s Hx.
  rewrite pretty_N_go_step by lia.
  destruct (decide (x / 10 = 0)%N) as [Hz|Hz].
  - rewrite Hz, pretty_N_go_0.
    pose proof (N.mod_lt x 10). pose proof (N.div_mod x 10).
    destruct (pretty_N_char_digit (x mod 10)) as [Hd Hv]; [lia|].
    eexists _, _. split_and!; [done..|]. unfold digit_val in Hv. lia.
  - apply IH; [by apply N.div_lt|]. by apply N.neq_0_lt_0.
Qed.

Lemma isdigit_not_space a : isdigit a = true → isspace a = false.
Proof. unfold isdigit, isspace; intros; cases_Z; naive_solver lia. Qed.

Lemma isdigit_not_sign a : isdigit a = true → (code a =? 45)%Z = false ∧ (code a =? 43)%Z = false.
Proof. unfold isdigit; intros; cases_Z; naive_solver lia. Qed.

Lemma scan_digits_nodigit v s : head_digit s = false → scan_digits v s = (v, s).
Proof. destruct s as [|a s]; simpl; [done|]. by intros ->. Qed.

Lemma scan_num_digit a r :
  isdigit a = true → scan_num (String a r) = Some (scan_digits 0 (String a r)).
Proof.
  intros Hd. unfold scan_num. simpl skip_space.
  rewrite isdigit_not_space by done.
  destruct (isdigit_not_sign a) as [-> ->]; [done|]. by rewrite Hd.
Qed.

Lemma scan_num_minus r :
  head_digit r = true →
  scan_num (String "-" r) = Some (let '(v, r') := scan_digits 0 r in ((- v)%Z, r')).
Proof.
  intros Hd. unfold scan_num. simpl skip_space.
  change (isspace "-") with false. cbv iota beta.
  change (code "-" =? 45)%Z with true. by rewrite Hd.
Qed.

#[export] Instance fmt_d_inj : Inj (=) (=) fmt_d.
Proof. apply _. Qed.

Lemma fmt_d_pos p : fmt_d (Z.pos p) = pretty_N_go (N.pos p) "".
Proof. reflexivity. Qed.

Lemma fmt_d_neg p : fmt_d (Z.neg p) = String "-" (pretty_N_go (N.pos p) "").
Proof. reflexivity. Qed.

(** Reading a printed integer back yields that integer and stops where the
    printed text ends. *)
Lemma scan_num_fmt z s :
  head_digit s = false → scan_num (fmt_d z +:+ s) = Some (z, s).
Proof.
  intros Hs. destruct z as [|p|p]; rewrite ?fmt_d_pos, ?fmt_d_neg.
  - change (fmt_d 0) with "0". rewrite sds_app_cons, scan_num_digit by done. simpl.
    change (isdigit "0") with true. cbv iota.
    by rewrite scan_digits_nodigit.
  - destruct (pretty_N_go_head (N.pos p) s) as (a & r & Heq & Hd & ?); [lia|].
    rewrite <- pretty_N_go_app, Heq, scan_num_digit, <- Heq, scan_digits_go by done.
    by rewrite scan_digits_nodigit.
  - rewrite sds_app_cons, <- pretty_N_go_app.
    destruct (pretty_N_go_head (N.pos p) s) as (a & r & Heq & Hd & ?); [lia|].
    rewrite scan_num_minus by (by rewrite Heq).
    by rewrite scan_digits_go, scan_digits_nodigit.
Qed.

Lemma clamp64_int32 z : int32 z → clamp64 z = z.
Proof. unfold int32, clamp64, INT_MIN, INT_MAX, LLONG_MIN, LLONG_MAX. lia. Qed.

Lemma atoi_fmt z s : int32 z → head_digit s = false → atoi (fmt_d z +:+ s) = z.
Proof.
  intros. unfold atoi. rewrite scan_num_fmt by done.
  by rewrite clamp64_int32, wrap32_id.
Qed.

Lemma scan_d_fmt z s :
  int32 z → head_digit s = false → scan_d (fmt_d z +:+ s) = Some (z, s).
Proof.
  intros. unfold scan_d. rewrite scan_num_fmt by done.
  by rewrite clamp64_int32, wrap32_id.
Qed.

Lemma sds_app_nil (s : sds) : s +:+ "" = s.
Proof. induction s as [|a s IH]; [done|]. by rewrite sds_app_cons, IH. Qed.

Lemma atoi_fmt_end z : int32 z → atoi (fmt_d z) = z.
Proof. intros. rewrite <- (sds_app_nil (fmt_d z)). by apply atoi_fmt. Qed.

(** Printed numbers contain only digits and the minus sign, so a scan for a
    separator walks over them. *)
Fixpoint all_chars (P : ascii → bool) (s : sds) : bool :=
  match s with String a s' => P a && all_chars P s' | EmptyString => true end.

Definition num_char (a : ascii) : bool := isdigit a || (code a =? 45)%Z.

Lemma all_chars_app P s1 s2 : all_chars P (s1 +:+ s2) = all_chars P s1 && all_chars P s2.
Proof. induction s1 as [|a s1 IH]; [done|]. rewrite sds_app_cons; simpl. by rewrite IH, andb_assoc. Qed.

Lemma pretty_N_go_chars x s :
  all_chars num_char s = true → all_chars num_char (pretty_N_go x s) = true.
Proof.
  revert s. induction (N.lt_wf_0 x) as [x _ IH]; intros s Hs.
  destruct (decide (x = 0)%N) as [->|]; [done|].
  rewrite pretty_N_go_step by lia. apply IH; [apply N.div_lt; lia|]. simpl.
  pose proof (N.mod_lt x 10). unfold num_char at 1.
  by destruct (pretty_N_char_digit (x mod 10)) as [-> _]; [lia|].
Qed.

Lemma fmt_d_chars z : all_chars num_char (fmt_d z) = true.
Proof.
  destruct z as [|p|p]; rewrite ?fmt_d_pos, ?fmt_d_neg; [done|by apply pretty_N_go_chars|].
  simpl. by apply pretty_N_go_chars.
Qed.

Lemma skip_until_over stop s a r :
  (∀ c, num_char c = true → stop c = false) → stop a = true →
  all_chars num_char s = true → skip_until stop (s +:+ String a r) = Some (String a r).
Proof.
  intros Hstop Ha. induction s as [|b s IH].
  - intros _. change ("" +:+ String a r) with (String a r). simpl. by rewrite Ha.
  - rewrite sds_app_cons; simpl. intros [Hb Hs]%andb_true_iff. rewrite (Hstop b Hb). by apply IH.
Qed.

Lemma skip_until_fmt stop z a r :
  (∀ c, num_char c = true → stop c = false) → stop a = true →
  skip_until stop (fmt_d z +:+ String a r) = Some (String a r).
Proof. intros. apply skip_until_over; [done..|]. apply fmt_d_chars. Qed.

(** ** [string2ll] accepts exactly the canonical decimal strings *)

Lemma isdigit_val a :
  isdigit a = true → (0 ≤ digit_val a < 10)%Z ∧ pretty_N_char (Z.to_N (digit_val a)) = a.
Proof.
  unfold isdigit, digit_val, code; intros Ha.
  assert (48 ≤ Z.of_N (N_of_ascii a) ≤ 57)%Z as Hr by (revert Ha; cases_Z; naive_solver lia).
  split; [lia|]. rewrite <- (ascii_N_embedding a) at 2.
  assert (∃ n, (n < 10)%N ∧ N_of_ascii a = (48 + n)%N) as (n & Hn & ->)
    by (exists (N_of_ascii a - 48)%N; lia).
  replace (Z.to_N _) with n by lia.
  assert (n = 0 ∨ n = 1 ∨ n = 2 ∨ n = 3 ∨ n = 4 ∨ n = 5 ∨ n = 6 ∨ n = 7 ∨ n = 8
    ∨ n = 9)%N as Hc by lia.
  repeat destruct Hc as [->|Hc]; try (by vm_compute). subst; by vm_compute.
Qed.

Lemma digit_snoc (v : Z) (a : ascii) r :
  isdigit a = true → (0 < v)%Z →
  pretty_N_go (Z.to_N (v * 10 + digit_val a)) r = pretty_N_go (Z.to_N v) (String a r).
Proof.
  intros Ha Hv. destruct (isdigit_val a Ha) as [Hd Hc].
  rewrite pretty_N_go_step by lia.
  assert (Z.to_N (v * 10 + digit_val a) = Z.to_N (digit_val a) + Z.to_N v * 10)%N as -> by lia.
  rewrite N.div_add, N.Div0.mod_add, N.div_small, N.mod_small, Hc by lia. done.
Qed.

Lemma string2ll_loop_sound v r w rest :
  (0 < v)%Z → string2ll_loop v r = Some (w, rest) →
  (0 < w)%Z ∧ pretty_N_go (Z.to_N w) rest = pretty_N_go (Z.to_N v) r.
Proof.
  revert v. induction r as [|a r IH]; intros v Hv; simpl; [by intros [= <- <-]|].
  destruct (isdigit a) eqn:Ha; [|by intros [= <- <-]].
  do 2 (case_match; [done|]). intros Hw.
  destruct (isdigit_val a Ha) as [? _].
  destruct (IH (v * 10 + digit_val a)%Z) as [? Heq]; [lia|done|].
  by rewrite Heq, digit_snoc.
Qed.

Lemma div_mod_10 x :
  ∃ q m, (x / 10 = q ∧ x mod 10 = m ∧ x = 10 * q + m ∧ m < 10)%N.
Proof.
  exists (x / 10)%N, (x mod 10)%N. split_and!; [done..| |].
  - by apply N.div_mod.
  - by apply N.mod_lt.
Qed.

Lemma string2ll_loop_complete x s :
  (0 < x)%N → (Z.of_N x ≤ ULLONG_MAX)%Z →
  ∃ a r, pretty_N_go x s = String a r ∧ isdigit a = true ∧ (49 ≤ code a)%Z
    ∧ string2ll_loop (digit_val a) r = string2ll_loop (Z.of_N x) s.
Proof.
  revert s. induction (N.lt_wf_0 x) as [x _ IH]; intros s Hx Hmax.
  rewrite pretty_N_go_step by lia.
  destruct (div_mod_10 x) as (q & m & -> & -> & Hqm & Hm).
  destruct (pretty_N_char_digit m Hm) as [Hd Hv].
  destruct (decide (q = 0)%N) as [->|Hz].
  - rewrite pretty_N_go_0. eexists _, _. split_and!; [done..| |].
    + unfold digit_val in Hv. lia.
    + f_equal. lia.
  - destruct (IH q) with (s := String (pretty_N_char m) s)
      as (a & r & Heq & Ha & Hc & Hl); [lia..|].
    exists a, r. split_and!; [done..|]. rewrite Hl. simpl. rewrite Hd, Hv.
    change (ULLONG_MAX / 10)%Z with 1844674407370955161%Z.
    unfold ULLONG_MAX in *. cases_Z; try lia.
    f_equal. lia.
Qed.

Lemma code_minus r a : (code a =? 45)%Z = true → String a r = String "-" r.
Proof.
  unfold code. intros H%Z.eqb_eq. f_equal.
  rewrite <- (ascii_N_embedding a). by replace (N_of_ascii a) with 45%N by lia.
Qed.

Lemma string2ll_digits_spec p v :
  string2ll_digits p = Some v →
  (0 < v)%Z ∧ p = pretty_N_go (Z.to_N v) "".
Proof.
  destruct p as [|a r]; simpl; [done|]. destruct (_ && _) eqn:Hd; [|done].
  assert (isdigit a = true ∧ (0 < digit_val a)%Z) as [Ha Hv].
  { revert Hd. unfold isdigit, digit_val. cases_Z; naive_solver lia. }
  destruct (string2ll_loop _ r) as [[w [|??]]|] eqn:Hl; intros [= <-].
  apply string2ll_loop_sound in Hl as [? Heq]; [|done]. split; [done|].
  rewrite Heq. destruct (isdigit_val a Ha) as [? Hc].
  rewrite pretty_N_go_step by lia.
  by rewrite N.div_small, N.mod_small, Hc by lia.
Qed.

Lemma string2ll_digits_fmt p :
  (Z.pos p ≤ ULLONG_MAX)%Z → string2ll_digits (pretty_N_go (N.pos p) "") = Some (Z.pos p).
Proof.
  intros Hp.
  destruct (string2ll_loop_complete (N.pos p) "") as (a & r & -> & Ha & Hc & Hl); [lia|done|].
  simpl. unfold isdigit in Ha. apply andb_true_iff in Ha as [_ ->].
  assert ((49 <=? code a)%Z = true) as -> by (by apply Z.leb_le).
  simpl. by rewrite Hl.
Qed.

(** The strictness its comment promises: [string2ll] succeeds exactly on the
    strings ["%d"] prints for a 64-bit integer, and returns that integer. *)
Lemma string2ll_spec s z : string2ll s = Some z ↔ int64 z ∧ s = fmt_d z.
Proof.
  unfold int64, string2ll. split.
  - destruct (String.eqb_spec s "") as [->|Hne]; [done|].
    destruct (String.eqb_spec s "0") as [->|H0]; [intros [= <-]; by vm_compute|].
    destruct s as [|a r]; [done|].
    destruct (code a =? 45)%Z eqn:Hm; [rewrite (code_minus r a Hm)|];
      (destruct (string2ll_digits _) as [v|] eqn:Hd; [|done]);
      apply string2ll_digits_spec in Hd as [? ->]; destruct v as [|v|v]; try lia;
      unfold LLONG_MIN, LLONG_MAX in *; cases_Z; intros [= <-]; (split; [lia|done]).
  - intros [Hz ->]. unfold LLONG_MIN, LLONG_MAX in Hz.
    destruct (String.eqb_spec (fmt_d z) "") as [He|_].
    { pose proof (scan_num_fmt z "" eq_refl) as Hn. by rewrite He in Hn. }
    destruct (String.eqb_spec (fmt_d z) "0") as [He|H0].
    { change "0" with (fmt_d 0) in He. by apply (inj pretty) in He as ->. }
    destruct z as [|p|p]; [done| |].
    + rewrite fmt_d_pos.
      destruct (pretty_N_go_head (N.pos p) "") as (a & r & Heq & Ha & _); [lia|].
      rewrite Heq. destruct (isdigit_not_sign a Ha) as [-> _]. rewrite <- Heq.
      rewrite string2ll_digits_fmt by (unfold ULLONG_MAX; lia).
      unfold LLONG_MAX. cases_Z; [lia|done].
    + rewrite fmt_d_neg. change (code "-" =? 45)%Z with true. cbv iota zeta.
      rewrite string2ll_digits_fmt by (unfold ULLONG_MAX; lia).
      unfold LLONG_MIN. cases_Z; [lia|done].
Qed.

Lemma pretty_N_length k x acc : (0 < x < 10 ^ N.of_nat k)%N → (String.length (pretty_N_go x acc) ≤ k + String.length acc)%nat.
Proof.
  revert x acc. induction k as [|k IH]; intros x acc Hx; [simpl in Hx; lia|].
  rewrite pretty_N_go_step by lia. destruct (decide (x `div` 10 = 0)%N) as [E|E].
  - rewrite E, pretty_N_go_0. simpl. lia.
  - etrans; [apply IH|simpl; lia]. rewrite Nat2N.inj_succ, N.pow_succ_r' in Hx.
    split; [by apply N.neq_0_lt_0|]. apply N.Div0.div_lt_upper_bound; lia.
Qed.

Lemma fmt_d_length z : int64 z → (0 < String.length (fmt_d z) < 32)%nat.
Proof.
  intros Hz. split.
  { destruct (fmt_d z) eqn:E; [|simpl; lia]. assert (string2ll "" = Some z) by (apply string2ll_spec; done). done. }
  destruct z as [|p|p]; [vm_compute; lia|rewrite fmt_d_pos|rewrite fmt_d_neg; simpl].
  all: pose proof (pretty_N_length 20 (N.pos p) "") as H; simpl String.length in H;
    unfold int64, LLONG_MIN, LLONG_MAX in Hz; simpl in *; lia.
Qed.

(** ** The order of [sdscmp] *)

Lemma sdscmp_eq s1 s2 : sdscmp s1 s2 = 0%Z ↔ s1 = s2.
Proof.
  revert s2. induction s1 as [|a s1 IH]; intros [|b s2]; simpl; try done.
  destruct (Z.eqb_spec (code a) (code b)) as [Hab|Hab].
  - apply code_inj in Hab as ->. rewrite IH. naive_solver.
  - split; [lia|]. intros [= ->]. done.
Qed.

Lemma sdscmp_refl s : sdscmp s s = 0%Z.
Proof. by apply sdscmp_eq. Qed.

Lemma sdscmp_antisym s1 s2 : (0 < sdscmp s1 s2)%Z ↔ (sdscmp s2 s1 < 0)%Z.
Proof.
  revert s2. induction s1 as [|a s1 IH]; intros [|b s2]; simpl; try lia.
  rewrite (Z.eqb_sym (code b)). destruct (Z.eqb_spec (code a) (code b)); [apply IH|lia].
Qed.

Lemma sdscmp_trans s1 s2 s3 : (sdscmp s1 s2 < 0)%Z → (sdscmp s2 s3 < 0)%Z → (sdscmp s1 s3 < 0)%Z.
Proof.
  revert s2 s3. induction s1 as [|a s1 IH]; intros [|b s2] [|c s3]; simpl; try done; try lia.
  destruct (Z.eqb_spec (code a) (code b)), (Z.eqb_spec (code b) (code c)), (Z.eqb_spec (code a) (code c));
    try lia. by apply IH.
Qed.
