(* ===== verification/Util.v ===== *)
(** * Numbers as strings (src/util.c, src/sds.c)

    [digits10], [sdigits10] and [ll2string] (util.c), which print two digits at
    a time from the right into a buffer, and [sdsll2str] (sds.c), which prints
    the digits in reverse and then turns them round.  Both print what [fmt_d]
    (printf's %lld) prints.  A buffer is a list of characters; an access outside
    it is [None]. *)

From stdpp Require Import pretty.
From Stdlib Require Import Ascii.
From S2P Require Import Prelude.
From S2P Require Import Sds.

#[local] Open Scope Z_scope.

(** ** Definitions *)

(** The recursion divides by 10^12: two levels are enough for 64 bits. *)
Fixpoint digits10_fuel (fuel : nat) (v : Z) : option Z :=
  match fuel with
  | O => None
  | S fuel' =>
      if v <? 10 then Some 1
      else if v <? 100 then Some 2
      else if v <? 1000 then Some 3
      else if v <? 1000000000000 then
        if v <? 100000000 then
          if v <? 1000000 then
            if v <? 10000 then Some 4 else Some (5 + (if 100000 <=? v then 1 else 0))
          else Some (7 + (if 10000000 <=? v then 1 else 0))
        else if v <? 10000000000 then Some (9 + (if 1000000000 <=? v then 1 else 0))
        else Some (11 + (if 100000000000 <=? v then 1 else 0))
      else n ← digits10_fuel fuel' (v / 1000000000000); Some (12 + n)
  end.

Definition digits10 (v : Z) : option Z := digits10_fuel 2 v.

Definition sdigits10 (v : Z) : option Z :=
  if v <? 0 then
    let uv := if negb (v =? LLONG_MIN) then - v else LLONG_MAX + 1 in
    n ← digits10 uv; Some (n + 1)
  else digits10 v.

(** [dst[i] = c]. *)
Definition put (dst : list ascii) (i : Z) (c : ascii) : option (list ascii) :=
  if (0 <=? i) && (i <? Z.of_nat (length dst)) then Some (<[Z.to_nat i := c]> dst) else None.

Definition digit (v : Z) : ascii := ascii_of_N (Z.to_N (48 + v)).

Definition digits : sds :=
  ("0001020304050607080910111213141516171819" ++
   "2021222324252627282930313233343536373839" ++
   "4041424344454647484950515253545556575859" ++
   "6061626364656667686970717273747576777879" ++
   "8081828384858687888990919293949596979899")%string.

Definition digit_at (i : Z) : option ascii := if i <? 0 then None else String.get (Z.to_nat i) digits.

(** The two digits of a number below 100 at [next - 1] and [next]. *)
Definition put_pair (dst : list ascii) (next i : Z) : option (list ascii) :=
  c ← digit_at (i + 1);
  dst ← put dst next c;
  c ← digit_at i;
  put dst (next - 1) c.

Fixpoint ll2string_loop (fuel : nat) (dst : list ascii) (value next : Z) : option (list ascii * Z * Z) :=
  match fuel with
  | O => None
  | S fuel' =>
      if 100 <=? value then
        let i := value mod 100 * 2 in
        dst ← put_pair dst next i;
        ll2string_loop fuel' dst (value / 100) (next - 2)
      else Some (dst, value, next)
  end.

(** [ll2string]: the buffer and the length, 0 when the buffer is too short. *)
Definition ll2string (dst : list ascii) (svalue : Z) : option (list ascii * Z) :=
  let dstlen := Z.of_nat (length dst) in
  let '(value, negative) :=
    if svalue <? 0 then (if negb (svalue =? LLONG_MIN) then - svalue else LLONG_MAX + 1, 1) else (svalue, 0) in
  n ← digits10 value;
  let length := n + negative in
  if dstlen <=? length then Some (dst, 0)
  else
    dst ← put dst length (ascii_of_N 0);
    '(dst, value, next) ← ll2string_loop 11 dst value (length - 1);
    dst ← (if value <? 10 then put dst next (digit value)
           else put_pair dst next (value * 2));
    dst ← (if negative =? 1 then put dst 0 "-"%char else Some dst);
    Some (dst, length).

(** The first loop of [sdsll2str]: the digits from the right. *)
Fixpoint sdsll2str_loop (fuel : nat) (s : list ascii) (p v : Z) : option (list ascii * Z) :=
  match fuel with
  | O => None
  | S fuel' =>
      s ← put s p (digit (v mod 10));
      if v / 10 =? 0 then Some (s, p + 1) else sdsll2str_loop fuel' s (p + 1) (v / 10)
  end.

(** The second: the characters from [i] to [p] in reverse. *)
Fixpoint reverse_loop (fuel : nat) (s : list ascii) (i p : Z) : option (list ascii) :=
  if negb (i <? p) then Some s
  else
    match fuel with
    | O => None
    | S fuel' =>
        aux ← s !! Z.to_nat i;
        c ← s !! Z.to_nat p;
        s ← put s i c;
        s ← put s p aux;
        reverse_loop fuel' s (i + 1) (p - 1)
    end.

(** [sdsll2str]: the buffer and the length.  The negation of LLONG_MIN wraps
    round to 2^63 as unsigned. *)
Definition sdsll2str (s : list ascii) (value : Z) : option (list ascii * Z) :=
  let v := if value <? 0 then - value else value in
  '(s, p) ← sdsll2str_loop 20 s 0 v;
  '(s, p) ← (if value <? 0 then s ← put s p "-"%char; Some (s, p + 1) else Some (s, p));
  let l := p in
  s ← put s p (ascii_of_N 0);
  s ← reverse_loop (length s) s 0 (p - 1);
  Some (s, l).

Fixpoint sds_of (l : list ascii) : sds :=
  match l with
  | [] => EmptyString
  | c :: l => String c (sds_of l)
  end.

Definition SDS_LLSTR_SIZE : nat := 21.

(** [sdsfromlonglong], with an arbitrary buffer on the stack. *)
Definition sdsfromlonglong (buf : list ascii) (value : Z) : option sds :=
  '(s, len) ← sdsll2str buf value; Some (sds_of (take (Z.to_nat len) s)).

(** ** Decimal digits *)

Fixpoint chars (s : sds) : list ascii :=
  match s with
  | EmptyString => []
  | String c s => c :: chars s
  end.

Lemma sds_of_chars s : sds_of (chars s) = s.
Proof. induction s as [|c s IH]; [done|]. simpl. by rewrite IH. Qed.

Lemma length_chars s : length (chars s) = String.length s.
Proof. induction s; simpl; congruence. Qed.

Definition decimal (x : Z) : list ascii := chars (fmt_d x).

Lemma pretty_go_split x s : chars (pretty_N_go x s) = chars (pretty_N_go x "") ++ chars s.
Proof.
  revert s. induction (N.lt_wf_0 x) as [x _ IH]. intros s. destruct (decide (x = 0%N)) as [->|Hx]; [by rewrite !pretty_N_go_0|].
  rewrite !(pretty_N_go_step x) by lia. assert (x `div` 10 < x)%N as Hlt by (apply N.div_lt; lia).
  rewrite (IH _ Hlt (String _ s)), (IH _ Hlt (String _ "")). simpl. by rewrite <- app_assoc.
Qed.

Lemma digit_char v : 0 ≤ v < 10 → pretty_N_char (Z.to_N v) = digit v.
Proof.
  intros Hv. assert (v = 0 ∨ v = 1 ∨ v = 2 ∨ v = 3 ∨ v = 4 ∨ v = 5 ∨ v = 6 ∨ v = 7 ∨ v = 8 ∨ v = 9) as H by lia.
  by repeat destruct H as [->|H]; [..|subst v].
Qed.

Lemma fmt_d_go x : 0 < x → fmt_d x = pretty_N_go (Z.to_N x) "".
Proof. destruct x; [lia| |lia]. intros _. apply fmt_d_pos. Qed.

Lemma decimal_small x : 0 ≤ x < 10 → decimal x = [digit x].
Proof.
  intros Hx. unfold decimal. destruct (decide (x = 0)) as [->|Hne]; [done|].
  rewrite fmt_d_go, pretty_N_go_step by lia. rewrite pretty_go_split.
  change 10%N with (Z.to_N 10). rewrite <- (Z2N.inj_div x 10), <- (Z2N.inj_mod x 10), Z.div_small, Z.mod_small by lia. change (Z.to_N 0) with 0%N.
  rewrite pretty_N_go_0, digit_char by lia. done.
Qed.

Lemma decimal_step x : 10 ≤ x → decimal x = decimal (x / 10) ++ [digit (x mod 10)].
Proof.
  intros Hx. unfold decimal. pose proof (Z.mod_pos_bound x 10). assert (0 < x / 10) by (apply Z.div_str_pos; lia).
  rewrite (fmt_d_go x), (fmt_d_go (x / 10)), pretty_N_go_step by lia. rewrite pretty_go_split.
  change 10%N with (Z.to_N 10). rewrite <- (Z2N.inj_div x 10), <- (Z2N.inj_mod x 10) by lia. simpl. by rewrite digit_char by lia.
Qed.

Lemma decimal_neg x : x < 0 → decimal x = "-"%char :: decimal (- x).
Proof. destruct x as [|p|p]; [lia|lia|]. intros _. unfold decimal. rewrite fmt_d_neg. done. Qed.

Lemma decimal_length k x : 10 ^ Z.of_nat k ≤ x < 10 ^ Z.of_nat (S k) → length (decimal x) = S k.
Proof.
  revert x. induction k as [|k IH]; intros x Hx.
  - change (1 ≤ x < 10) in Hx. by rewrite decimal_small by lia.
  - assert (0 < 10 ^ Z.of_nat k) by lia. rewrite !Nat2Z.inj_succ, !Z.pow_succ_r in Hx by lia.
    rewrite decimal_step, length_app, IH; [simpl; lia| |lia]. rewrite Nat2Z.inj_succ, Z.pow_succ_r by lia.
    split; [apply Z.div_le_lower_bound|apply Z.div_lt_upper_bound]; lia.
Qed.

Lemma decimal_pos x : (1 ≤ length (decimal x))%nat.
Proof.
  destruct (decide (x < 0)); [rewrite decimal_neg by done; simpl; lia|]. destruct (decide (x < 10)); [by rewrite decimal_small by lia|].
  rewrite decimal_step, length_app by lia. simpl. lia.
Qed.

(** The number of digits of one level of [digits10]. *)
Lemma decimal_range x k : 0 < x → 1 ≤ k → 10 ^ (k - 1) ≤ x < 10 ^ k → Z.of_nat (length (decimal x)) = k.
Proof.
  intros Hx Hk Hr. rewrite (decimal_length (Z.to_nat (k - 1))); [lia|]. rewrite Nat2Z.inj_succ, Z2Nat.id by lia.
  by replace (Z.succ (k - 1)) with k by lia.
Qed.

Lemma decimal_div x : 10 ^ 12 ≤ x → length (decimal x) = (length (decimal (x / 10 ^ 12)) + 12)%nat.
Proof.
  assert (∀ k y, 10 ^ Z.of_nat k ≤ y → length (decimal y) = (length (decimal (y / 10 ^ Z.of_nat k)) + k)%nat) as H.
  { induction k as [|k IH]; intros y Hy; [rewrite Z.div_1_r; lia|]. rewrite Nat2Z.inj_succ, Z.pow_succ_r in * by lia.
    assert (0 < 10 ^ Z.of_nat k) by lia. rewrite decimal_step, length_app, IH; [|apply Z.div_le_lower_bound; lia|lia].
    rewrite Z.div_div by lia. simpl. lia. }
  intros Hx. by apply (H 12%nat).
Qed.

Lemma digits10_spec v : 0 ≤ v < 10 ^ 24 → digits10 v = Some (Z.of_nat (length (decimal v))).
Proof.
  assert (∀ fuel v, 0 ≤ v < 10 ^ 12 → digits10_fuel (S fuel) v = Some (Z.of_nat (length (decimal v)))) as Hone.
  { intros fuel x Hx. cbn [digits10_fuel].
    assert (∀ k, 0 < x → 1 ≤ k → 10 ^ (k - 1) ≤ x < 10 ^ k → Some k = Some (Z.of_nat (length (decimal x)))) as H
      by (intros k ? ? ?; f_equal; symmetry; by apply decimal_range).
    destruct (Z.ltb_spec x 10); [by rewrite decimal_small by lia|]. rewrite (proj2 (Z.ltb_lt x 1000000000000)) by lia.
    repeat match goal with |- context [?a <? ?b] => destruct (Z.ltb_spec a b) | |- context [?a <=? ?b] => destruct (Z.leb_spec a b) end;
      apply H; lia. }
  intros Hv. unfold digits10. destruct (decide (v < 10 ^ 12)) as [Hlt|Hge]; [apply Hone; lia|].
  assert (∀ fuel, digits10_fuel (S fuel) v = (n ← digits10_fuel fuel (v / 10 ^ 12); Some (12 + n))) as Hrec.
  { intros fuel. cbn [digits10_fuel]. by rewrite !(proj2 (Z.ltb_ge v _)) by lia. }
  rewrite Hrec, (Hone 0%nat). 2: { split; [apply Z.div_pos; lia|apply Z.div_lt_upper_bound; lia]. }
  simpl. rewrite (decimal_div v) by lia. f_equal. lia.
Qed.

(** ** Writing to the buffer *)

Lemma put_mid A c B i x : i = Z.of_nat (length A) → put (A ++ c :: B) i x = Some (A ++ x :: B).
Proof.
  intros ->. unfold put. rewrite length_app. simpl length. rewrite (proj2 (Z.leb_le _ _)), (proj2 (Z.ltb_lt _ _)) by lia. simpl.
  rewrite Nat2Z.id, insert_app_r_alt, Nat.sub_diag by lia. done.
Qed.

Lemma digit_at_spec v : 0 ≤ v < 100 → digit_at (v * 2) = Some (digit (v / 10)) ∧ digit_at (v * 2 + 1) = Some (digit (v mod 10)).
Proof.
  intros Hv. assert (forallb (λ i, let v := Z.of_nat i in bool_decide (digit_at (v * 2) = Some (digit (v / 10))) &&
    bool_decide (digit_at (v * 2 + 1) = Some (digit (v mod 10)))) (seq 0 100) = true) as H by (vm_compute; reflexivity).
  rewrite forallb_forall in H. specialize (H (Z.to_nat v)). rewrite Z2Nat.id in H by lia.
  assert (In (Z.to_nat v) (seq 0 100)) as Hin by (apply in_seq; lia). specialize (H Hin). cbv zeta in H.
  apply andb_prop in H as [H1%bool_decide_eq_true H2%bool_decide_eq_true]. done.
Qed.

Lemma put_pair_spec J a b R v next : 0 ≤ v < 100 → next = Z.of_nat (length J) + 1 →
  put_pair (J ++ a :: b :: R) next (v * 2) = Some (J ++ digit (v / 10) :: digit (v mod 10) :: R).
Proof.
  intros Hv ->. destruct (digit_at_spec v Hv) as [H0 H1]. unfold put_pair. rewrite H1. cbn [mbind option_bind].
  rewrite (cons_middle a), app_assoc, put_mid by (rewrite length_app; simpl; lia). cbn [mbind option_bind]. rewrite H0. cbn [mbind option_bind].
  rewrite <- app_assoc. simpl. apply put_mid. lia.
Qed.

Lemma snoc_inv {A} (l : list A) : (0 < length l)%nat → ∃ l' x, l = l' ++ [x].
Proof. intros Hl. destruct (exists_last (l := l)) as (l' & x & ->); [by destruct l; [simpl in Hl; lia|]|]. by exists l', x. Qed.

Lemma snoc2_inv {A} (l : list A) : (1 < length l)%nat → ∃ l' x y, l = l' ++ [x; y].
Proof.
  intros Hl. destruct (snoc_inv l) as (l1 & y & ->); [lia|]. rewrite length_app in Hl. simpl in Hl.
  destruct (snoc_inv l1) as (l2 & x & ->); [lia|]. exists l2, x, y. by rewrite <- app_assoc.
Qed.

Lemma decimal_pair x : 100 ≤ x → decimal x = decimal (x / 100) ++ [digit (x mod 100 / 10); digit (x mod 100 mod 10)].
Proof.
  intros Hx. assert (10 ≤ x / 10) by (apply Z.div_le_lower_bound; lia). rewrite decimal_step, (decimal_step (x / 10)) by lia.
  assert (x / 10 mod 10 = x mod 100 / 10) as -> by (Z.to_euclidean_division_equations; lia).
  assert (x mod 10 = x mod 100 mod 10) as -> by (Z.to_euclidean_division_equations; lia).
  by rewrite Z.div_div, <- app_assoc by lia.
Qed.

Lemma ll2string_loop_spec fuel J acc R value neg :
  0 ≤ value < 100 ^ Z.of_nat fuel → 0 ≤ neg → Z.of_nat (length J) = Z.of_nat (length (decimal value)) + neg →
  ∃ J' acc' value', ll2string_loop (S fuel) (J ++ acc ++ R) value (Z.of_nat (length J) - 1) =
      Some (J' ++ acc' ++ R, value', Z.of_nat (length J') - 1) ∧
    0 ≤ value' < 100 ∧ decimal value ++ acc = decimal value' ++ acc' ∧ Z.of_nat (length J') = Z.of_nat (length (decimal value')) + neg.
Proof.
  revert J acc value. induction fuel as [|fuel IH]; intros J acc value Hv Hneg Hlen.
  { exists J, acc, value. simpl in Hv. cbn [ll2string_loop]. rewrite (proj2 (Z.leb_gt _ _)) by lia. split_and!; try done; lia. }
  remember (S fuel) as f. cbn [ll2string_loop]. destruct (Z.leb_spec 100 value) as [Hge|Hlt]; [|exists J, acc, value; split_and!; done || lia].
  rewrite (decimal_pair value Hge), length_app in Hlen. simpl length in Hlen. pose proof (Z.mod_pos_bound value 100).
  destruct (snoc2_inv J) as (J1 & a & b & ->); [lia|]. rewrite length_app in *. simpl length in *.
  rewrite <- app_assoc. simpl app. rewrite put_pair_spec by lia. cbn [mbind option_bind].
  set (acc1 := [digit (value mod 100 / 10); digit (value mod 100 mod 10)]).
  change (digit _ :: digit _ :: acc ++ R) with ((acc1 ++ acc) ++ R).
  replace (Z.of_nat (length J1 + 2) - 1 - 2) with (Z.of_nat (length J1) - 1) by lia. subst f.
  destruct (IH J1 (acc1 ++ acc) (value / 100)) as (J' & acc' & v' & -> & Hv' & Heq & Hlen').
  - rewrite Nat2Z.inj_succ, Z.pow_succ_r in Hv by lia. split; [apply Z.div_pos; lia|apply Z.div_lt_upper_bound; lia].
  - done.
  - lia.
  - exists J', acc', v'. split_and!; try done; [lia|lia|]. rewrite (decimal_pair value Hge), <- app_assoc. exact Heq.
Qed.

(** Absolute value and sign as both functions compute them. *)
Lemma split_sign z : int64 z →
  (if z <? 0 then (if negb (z =? LLONG_MIN) then - z else LLONG_MAX + 1, 1) else (z, 0)) = (Z.abs z, if z <? 0 then 1 else 0) ∧
  0 ≤ Z.abs z < 10 ^ 20 ∧ decimal z = (if z <? 0 then ["-"%char] else []) ++ decimal (Z.abs z).
Proof.
  unfold int64, LLONG_MIN, LLONG_MAX. intros Hz. destruct (Z.ltb_spec z 0) as [Hneg|Hpos].
  - split_and!; [|lia|lia|by rewrite decimal_neg, Z.abs_neq by lia].
    destruct (Z.eqb_spec z (-9223372036854775808)) as [->|]; [done|]. simpl. f_equal. lia.
  - split_and!; [by rewrite Z.abs_eq by lia|lia|lia|by rewrite Z.abs_eq by lia].
Qed.

(** The last one or two digits. *)
Lemma last_digits J acc R value neg :
  0 ≤ value < 100 → 0 ≤ neg → Z.of_nat (length J) = Z.of_nat (length (decimal value)) + neg →
  ∃ S, (if value <? 10 then put (J ++ acc ++ R) (Z.of_nat (length J) - 1) (digit value)
        else put_pair (J ++ acc ++ R) (Z.of_nat (length J) - 1) (value * 2)) = Some (S ++ (decimal value ++ acc) ++ R) ∧
    Z.of_nat (length S) = neg.
Proof.
  intros Hv Hneg Hlen. destruct (Z.ltb_spec value 10) as [Hlt|Hge].
  - rewrite decimal_small in * by lia. simpl in Hlen. destruct (snoc_inv J) as (S & c & ->); [lia|]. rewrite length_app in *. simpl in *.
    exists S. split; [|lia]. rewrite <- app_assoc. simpl. apply put_mid. lia.
  - assert (0 ≤ value / 10 < 10) by (split; [apply Z.div_pos; lia|apply Z.div_lt_upper_bound; lia]).
    rewrite decimal_step, decimal_small in * by lia. simpl in Hlen.
    destruct (snoc2_inv J) as (S & c & c' & ->); [lia|]. rewrite length_app in *. simpl in *.
    exists S. split; [|lia]. rewrite <- app_assoc. simpl. apply put_pair_spec; lia.
Qed.

Lemma ll2string_fits A c rest (z : Z) :
  int64 z → length A = length (decimal z) →
  ll2string (A ++ c :: rest) z = Some (decimal z ++ ascii_of_N 0 :: rest, Z.of_nat (length (decimal z))).
Proof.
  intros Hz HA. destruct (split_sign z Hz) as (Hs & Hv & Hd). set (value := Z.abs z) in *.
  assert (Z.of_nat (length (decimal z)) = Z.of_nat (length (decimal value)) + (if z <? 0 then 1 else 0)) as Hn.
  { rewrite Hd, length_app. destruct (z <? 0); simpl; lia. }
  unfold ll2string. rewrite Hs, digits10_spec by lia. cbn [mbind option_bind]. rewrite <- Hn.
  rewrite (proj2 (Z.leb_gt _ _)) by (rewrite length_app; simpl; lia). rewrite put_mid by lia. cbn [mbind option_bind].
  replace (Z.of_nat (length (decimal z)) - 1) with (Z.of_nat (length A) - 1) by lia.
  destruct (ll2string_loop_spec 10 A [] (ascii_of_N 0 :: rest) value (if z <? 0 then 1 else 0)) as (J & acc & v' & Hl & Hv' & Heq & HJ);
    [by change (100 ^ Z.of_nat 10) with (10 ^ 20)|by destruct (z <? 0)|lia|].
  rewrite app_nil_l in Hl. rewrite Hl. cbn [mbind option_bind].
  destruct (last_digits J acc (ascii_of_N 0 :: rest) v' (if z <? 0 then 1 else 0)) as (S & Hst & HS); [done|by destruct (z <? 0)|done|].
  rewrite Hst. cbn [mbind option_bind]. rewrite <- Heq, app_nil_r. rewrite Hd. destruct (z <? 0); simpl.
  - destruct S as [|x [|]]; [done| |simpl in HS; lia]. 
    change ([x] ++ decimal value ++ zero :: rest) with ([] ++ x :: (decimal value ++ zero :: rest)). by rewrite put_mid.
  - destruct S; [|simpl in HS; lia]. done.
Qed.

Lemma sdigits10_spec z : int64 z → sdigits10 z = Some (Z.of_nat (String.length (fmt_d z))).
Proof.
  intros Hz. destruct (split_sign z Hz) as (Hs & Hv & Hd). rewrite <- length_chars. fold (decimal z).
  unfold sdigits10. rewrite Hd, length_app. destruct (Z.ltb_spec z 0) as [Hneg|Hpos]; simpl.
  - injection Hs as ->. rewrite digits10_spec by lia. simpl. f_equal. lia.
  - rewrite <- (Z.abs_eq z) at 1 by lia. by rewrite digits10_spec by lia.
Qed.

(** The printer in a buffer that is long enough. *)
Lemma ll2string_prints dst z : int64 z → (String.length (fmt_d z) < length dst)%nat →
  ∃ rest, ll2string dst z = Some (chars (fmt_d z) ++ ascii_of_N 0 :: rest, Z.of_nat (String.length (fmt_d z))) ∧
    (String.length (fmt_d z) + 1 + length rest = length dst)%nat.
Proof.
  intros Hz Hlt. set (n := String.length (fmt_d z)) in *. assert (n = length (decimal z)) as Hn by (unfold decimal; by rewrite length_chars).
  destruct (drop n dst) as [|c rest] eqn:E; apply (f_equal length) in E as E'; rewrite length_drop in E'; simpl in E'; [lia|].
  exists rest. split; [|lia]. rewrite <- (take_drop n dst), E, Hn. apply ll2string_fits; [done|]. rewrite length_take. lia.
Qed.

(** C26: [ll2string] is exact.  On every 64-bit integer it writes the decimal
    digits, with a minus sign for a negative one and a zero byte after them, and
    returns their number; it writes nothing and returns 0 when the buffer
    cannot hold them, and never writes outside the buffer.  The string it leaves
    is read back by [string2ll]. *)
Theorem ll2string_exact (dst : list ascii) (z : Z) :
  int64 z →
  let n := String.length (fmt_d z) in
  (if (n <? length dst)%nat then
     ∃ rest, ll2string dst z = Some (chars (fmt_d z) ++ ascii_of_N 0 :: rest, Z.of_nat n) ∧ (n + 1 + length rest = length dst)%nat
   else ll2string dst z = Some (dst, 0)) ∧ string2ll (fmt_d z) = Some z ∧ sdigits10 z = Some (Z.of_nat n).
Proof.
  intros Hz n. destruct (split_sign z Hz) as (Hs & Hv & Hd).
  assert (n = length (decimal z)) as Hn by (unfold decimal; by rewrite length_chars). split_and!.
  - destruct (Nat.ltb_spec n (length dst)) as [Hlt|Hge].
    + by apply ll2string_prints.
    + unfold ll2string. rewrite Hs, digits10_spec by lia. cbn [mbind option_bind].
      rewrite (proj2 (Z.leb_le _ _)); [done|]. rewrite Hn, Hd, length_app in Hge. destruct (z <? 0); simpl in *; lia.
  - by apply string2ll_spec.
  - by apply sdigits10_spec.
Qed.

Lemma ll2string_exact_witness :
  ∃ rest, ll2string (replicate 32 "x"%char) LLONG_MIN = Some (chars "-9223372036854775808" ++ ascii_of_N 0 :: rest, 20) ∧ (20 + 1 + length rest = 32)%nat.
Proof. apply (ll2string_exact (replicate 32 "x"%char) LLONG_MIN). by vm_compute. Defined.

(** ** The printer of sds.c *)

Lemma sdsll2str_loop_spec fuel P X v :
  0 ≤ v → (length (decimal v) ≤ fuel)%nat → (length (decimal v) ≤ length X)%nat →
  sdsll2str_loop fuel (P ++ X) (Z.of_nat (length P)) v =
  Some (P ++ reverse (decimal v) ++ drop (length (decimal v)) X, Z.of_nat (length P + length (decimal v))).
Proof.
  revert P X v. induction fuel as [|fuel IH]; intros P X v Hv Hf HX; [pose proof (decimal_pos v); lia|].
  cbn [sdsll2str_loop]. pose proof (decimal_pos v). destruct X as [|c X]; [simpl in HX; lia|].
  rewrite put_mid by done. cbn [mbind option_bind]. destruct (decide (v < 10)) as [Hlt|Hge].
  - rewrite Z.div_small, Z.mod_small, decimal_small by lia. simpl. do 2 f_equal. lia.
  - assert (0 < v / 10) by (apply Z.div_str_pos; lia). rewrite (proj2 (Z.eqb_neq _ _)) by lia.
    rewrite decimal_step, length_app in * by lia. simpl length in *.
    rewrite (cons_middle (digit _)), app_assoc. replace (Z.of_nat (length P) + 1) with (Z.of_nat (length (P ++ [digit (v mod 10)]))) by (rewrite length_app; simpl; lia).
    rewrite IH by lia. rewrite reverse_snoc, <- app_assoc. f_equal. apply pair_equal_spec. split; [by rewrite Nat.add_1_r|].
    rewrite length_app. simpl. lia.
Qed.

Lemma reverse_loop_spec fuel A M B i p :
  (length M ≤ fuel)%nat → i = Z.of_nat (length A) → p = Z.of_nat (length A + length M) - 1 →
  reverse_loop fuel (A ++ M ++ B) i p = Some (A ++ reverse M ++ B).
Proof.
  revert A M B i p. induction fuel as [|fuel IH]; intros A M B i p Hf -> ->.
  { destruct M; [|simpl in Hf; lia]. cbn [reverse_loop]. by rewrite (proj2 (Z.ltb_ge _ _)) by (simpl; lia). }
  cbn [reverse_loop]. destruct M as [|x M]; [by rewrite (proj2 (Z.ltb_ge _ _)) by (simpl; lia)|].
  destruct (decide (M = [])) as [->|Hne]; [by rewrite (proj2 (Z.ltb_ge _ _)) by (simpl; lia)|].
  destruct (exists_last Hne) as (M' & y & ->). simpl length in *. rewrite length_app in *. simpl length in *.
  rewrite (proj2 (Z.ltb_lt _ _)) by lia. simpl negb. cbv iota. rewrite Nat2Z.id.
  replace (Z.to_nat _) with (length A + S (length M'))%nat by lia.
  assert (A ++ (x :: M' ++ [y]) ++ B = A ++ x :: M' ++ y :: B) as -> by (simpl; by rewrite <- app_assoc).
  rewrite (list_lookup_middle A (M' ++ y :: B) x (length A)) by done. cbn [mbind option_bind].
  rewrite (app_comm_cons M'), (app_assoc A), (list_lookup_middle (A ++ x :: M') B y) by (rewrite length_app; simpl; lia). cbn [mbind option_bind].
  rewrite <- app_assoc, <- app_comm_cons, put_mid by done. cbn [mbind option_bind].
  rewrite (app_comm_cons M'), (app_assoc A), put_mid by (rewrite length_app; simpl; lia). cbn [mbind option_bind].
  rewrite <- app_assoc. simpl app. rewrite (cons_middle y), (app_assoc A).
  rewrite IH; [|lia|rewrite length_app; simpl; lia|rewrite length_app; simpl; lia].
  rewrite reverse_cons, reverse_app, <- !app_assoc. done.
Qed.

Lemma decimal_le k x : 0 ≤ x < 10 ^ Z.of_nat (S k) → (length (decimal x) ≤ S k)%nat.
Proof.
  revert x. induction k as [|k IH]; intros x Hx; (destruct (decide (x < 10)) as [Hlt|Hge]; [rewrite decimal_small by lia; simpl; lia|]).
  - simpl in Hx. lia.
  - rewrite Nat2Z.inj_succ, Z.pow_succ_r in Hx by lia. rewrite decimal_step, length_app by lia. simpl.
    assert (length (decimal (x / 10)) ≤ S k)%nat; [|lia]. apply IH. split; [apply Z.div_pos; lia|apply Z.div_lt_upper_bound; lia].
Qed.

Lemma sdsll2str_spec buf z : int64 z → (SDS_LLSTR_SIZE ≤ length buf)%nat →
  ∃ rest, sdsll2str buf z = Some (decimal z ++ ascii_of_N 0 :: rest, Z.of_nat (length (decimal z))).
Proof.
  intros Hz Hbuf. destruct (split_sign z Hz) as (_ & Hv & Hd). unfold SDS_LLSTR_SIZE in Hbuf.
  unfold int64, LLONG_MIN, LLONG_MAX in Hz. assert (length (decimal (Z.abs z)) ≤ 19)%nat as Hlen by (apply (decimal_le 18); lia).
  set (n := length (decimal (Z.abs z))) in *. unfold sdsll2str.
  replace (if z <? 0 then - z else z) with (Z.abs z) by (destruct (Z.ltb_spec z 0); lia).
  pose proof (sdsll2str_loop_spec 20 [] buf (Z.abs z)) as Hloop. simpl app in Hloop. change (Z.of_nat (length [])) with 0 in Hloop.
  rewrite Hloop by (fold n; lia). clear Hloop.
  cbn [mbind option_bind]. fold n. simpl length.
  assert (∃ c d rest, drop n buf = c :: d :: rest) as (c & d & rest & ->).
  { pose proof (length_drop buf n) as Hd'. destruct (drop n buf) as [|c [|d rest]]; simpl in Hd'; [lia|lia|]. by exists c, d, rest. }
  assert (length (reverse (decimal (Z.abs z))) = n) as Hrev by (by rewrite length_reverse).
  destruct (Z.ltb_spec z 0) as [Hneg|Hpos].
  - exists rest. rewrite put_mid by (rewrite Hrev; lia). cbn [mbind option_bind].
    rewrite (cons_middle "-"%char), app_assoc, put_mid by (rewrite length_app, Hrev; simpl; lia). cbn [mbind option_bind].
    pose proof (reverse_loop_spec (length ((reverse (decimal (Z.abs z)) ++ ["-"%char]) ++ ascii_of_N 0 :: rest)) []
      (reverse (decimal (Z.abs z)) ++ ["-"%char]) (ascii_of_N 0 :: rest) 0 (Z.of_nat (0 + n) + 1 - 1)) as H.
    rewrite app_nil_l in H. rewrite H; [|rewrite !length_app; lia|done|rewrite length_app, Hrev; simpl; lia]. cbn [mbind option_bind].
    rewrite reverse_snoc, reverse_involutive, Hd. do 2 f_equal. rewrite length_app. fold n. simpl. lia.
  - exists (d :: rest). cbn [mbind option_bind]. rewrite put_mid by (rewrite Hrev; lia). cbn [mbind option_bind].
    pose proof (reverse_loop_spec (length (reverse (decimal (Z.abs z)) ++ ascii_of_N 0 :: d :: rest)) []
      (reverse (decimal (Z.abs z))) (ascii_of_N 0 :: d :: rest) 0 (Z.of_nat (0 + n) - 1)) as H.
    rewrite app_nil_l in H. rewrite H; [|rewrite !length_app; lia|done|rewrite Hrev; simpl; lia]. cbn [mbind option_bind].
    by rewrite reverse_involutive, Hd.
Qed.

(** [sdsfromlonglong] is the string of %lld. *)
Lemma sdsfromlonglong_spec buf z : int64 z → (SDS_LLSTR_SIZE ≤ length buf)%nat → sdsfromlonglong buf z = Some (fmt_d z).
Proof.
  intros Hz Hbuf. destruct (sdsll2str_spec buf z Hz Hbuf) as (rest & Hs). unfold sdsfromlonglong. rewrite Hs. cbn [mbind option_bind].
  rewrite Nat2Z.id, take_app_length. unfold decimal. by rewrite sds_of_chars.
Qed.
