(* ===== verification/VectorClock.v ===== *)
(** * Vector clocks (src/vector_clock.h, src/vector_clock.c)

    [vc] is the C struct: an array of [int], its size (here the length of the
    list) and the index of the owning server.  Reads and writes outside the
    array, and scans past the end of a string, are [None]. *)

From Stdlib Require Import Ascii.
From S2P Require Import Prelude.
From S2P Require Import Sds.

(** ** Data *)

Record vc := mkVc { vector : list Z; vid : Z }.

#[global] Instance vc_eq_dec : EqDecision vc.
Proof. solve_decision. Defined.

Lemma vc_eta c : c = mkVc (vector c) (vid c).
Proof. by destruct c. Qed.

Definition vsize (c : vc) : Z := Z.of_nat (length (vector c)).

Definition VC_LESS : Z := -2.
Definition VC_C_LESS : Z := -1.
Definition VC_CMP_ERR : Z := 0.
Definition VC_C_GREATER : Z := 1.
Definition VC_GREATER : Z := 2.

Definition CONCURRENT (x : Z) : bool := (x =? VC_C_LESS)%Z || (x =? VC_C_GREATER)%Z.

(** C array access [a[i]]. *)
Definition aget (l : list Z) (i : Z) : option Z :=
  if (i <? 0)%Z then None else l !! Z.to_nat i.

(** ** Operations *)

Definition _vc_new (size id : Z) : vc := mkVc (replicate (Z.to_nat size) 0%Z) id.

Definition vc_dup (c : vc) : vc := mkVc (vector c) (vid c).

(** The element loop of [vc_equal]. *)
Fixpoint vc_equal_loop (l1 l2 : list Z) : bool :=
  match l1, l2 with
  | x :: l1', y :: l2' => if (x =? y)%Z then vc_equal_loop l1' l2' else false
  | _, _ => true
  end.

Definition vc_equal (c1 c2 : vc) : bool :=
  if (vsize c1 =? vsize c2)%Z then vc_equal_loop (vector c1) (vector c2) else false.

(** The loop of [vc_causally_ready]: [false] when some component other than
    [o] is ahead of [current]. *)
Fixpoint vc_ready_loop (i o : Z) (current next : list Z) : bool :=
  match current, next with
  | x :: current', y :: next' =>
      if (i =? o)%Z then vc_ready_loop (i + 1) o current' next'
      else if (y >? x)%Z then false
      else vc_ready_loop (i + 1) o current' next'
  | _, _ => true
  end.

Definition vc_causally_ready (current next : vc) : option bool :=
  if (vsize current =? vsize next)%Z then
    let o := vid next in
    if vc_ready_loop 0 o (vector current) (vector next) then
      match aget (vector next) o, aget (vector current) o with
      | Some y, Some x => Some (y =? wrap32 (x + 1))%Z
      | _, _ => None
      end
    else Some false
  else None.

(** [for (; i < size && c1[i] == c2[i]; ++i);]: the suffixes from the first
    difference on. *)
Fixpoint vc_skip_equal (l1 l2 : list Z) : list Z * list Z :=
  match l1, l2 with
  | x :: l1', y :: l2' => if (x =? y)%Z then vc_skip_equal l1' l2' else (l1, l2)
  | _, _ => (l1, l2)
  end.

(** The scan after the first difference: the first component ordered the
    other way decides by server id, unless the ids are equal, in which case
    the scan goes on; [dflt] when it ends. *)
Fixpoint vc_cmp_rest (flip : Z → Z → bool) (id1 id2 dflt : Z) (l1 l2 : list Z) : Z :=
  match l1, l2 with
  | x :: l1', y :: l2' =>
      if flip x y then
        if (id1 >? id2)%Z then VC_C_GREATER
        else if (id1 <? id2)%Z then VC_C_LESS
        else vc_cmp_rest flip id1 id2 dflt l1' l2'
      else vc_cmp_rest flip id1 id2 dflt l1' l2'
  | _, _ => dflt
  end.

Definition vc_cmp (c1 c2 : vc) : Z :=
  if (vsize c1 =? vsize c2)%Z then
    match vc_skip_equal (vector c1) (vector c2) with
    | (x :: l1, y :: l2) =>
        if (x >? y)%Z then vc_cmp_rest Z.ltb (vid c1) (vid c2) VC_GREATER l1 l2
        else if (x <? y)%Z then vc_cmp_rest Z.gtb (vid c1) (vid c2) VC_LESS l1 l2
        else VC_CMP_ERR
    | _ =>
        if (vid c1 =? vid c2)%Z then VC_CMP_ERR
        else if (vid c1 >? vid c2)%Z then VC_C_GREATER
        else VC_C_LESS
    end
  else VC_CMP_ERR.

Fixpoint vc_update_loop (tar m : list Z) : list Z :=
  match tar, m with
  | x :: tar', y :: m' => (if (y >? x)%Z then y else x) :: vc_update_loop tar' m'
  | _, _ => tar
  end.

Definition vc_update (tar m : vc) : vc :=
  if (vsize tar =? vsize m)%Z
  then mkVc (vc_update_loop (vector tar) (vector m)) (vid tar) else tar.

(** [c->id = id; c->vector[id]++]. *)
Definition _vc_inc (c : vc) (id : Z) : option vc :=
  match aget (vector c) id with
  | Some x => Some (mkVc (<[Z.to_nat id := wrap32 (x + 1)]> (vector c)) id)
  | None => None
  end.

(** ** Wire format *)

Fixpoint vec_to_sds (l : list Z) : option sds :=
  match l with
  | [] => None
  | [x] => Some (fmt_d x)
  | x :: l' => match vec_to_sds l' with
               | Some s => Some (fmt_d x +:+ String "," s)
               | None => None
               end
  end.

(** ["%d,...,%d|%d"]; an empty clock reads [vector[0]] out of bounds. *)
Definition vcToSds (c : vc) : option sds :=
  match vec_to_sds (vector c) with
  | Some s => Some (s +:+ String "|" (fmt_d (vid c)))
  | None => None
  end.

Definition vc_int_buf_size : nat := 100.

Definition vc_sep (a : ascii) : bool := (code a =? 44)%Z || (code a =? 124)%Z.

(** The parsing loop of [sdsToVC].  [n] is the number of slots of
    [vc_int_buf] still free: writing past them is [None], as is a string
    with no [|]. *)
Fixpoint sdsToVC_loop (n : nat) (p : sds) : option (list Z * sds) :=
  match n with
  | O => None
  | S n' =>
      let x := atoi p in
      match skip_until vc_sep p with
      | Some (String a p') =>
          if (code a =? 124)%Z then Some ([x], p')
          else match sdsToVC_loop n' p' with
               | Some (l, r) => Some (x :: l, r)
               | None => None
               end
      | _ => None
      end
  end.

Definition sdsToVC (s : sds) : option vc :=
  match sdsToVC_loop vc_int_buf_size s with
  | Some (l, p) => Some (mkVc l (atoi p))
  | None => None
  end.

(** The next clock in sds form; the argument is restored afterwards. *)
Definition vc_now (c : vc) : option sds :=
  match _vc_inc c (vid c) with
  | Some c' => vcToSds c'
  | None => None
  end.

(** ** The causal order *)

(** Pointwise order; it implies equal sizes. *)
Definition vle (c1 c2 : vc) : Prop := Forall2 Z.le (vector c1) (vector c2).
Definition vlt (c1 c2 : vc) : Prop := vle c1 c2 ∧ vector c1 ≠ vector c2.

Notation "c1 ≤ᵥ c2" := (vle c1 c2) (at level 70, no associativity) : crdt_scope.
Notation "c1 <ᵥ c2" := (vlt c1 c2) (at level 70, no associativity) : crdt_scope.
#[local] Open Scope crdt_scope.

#[global] Instance vle_dec c1 c2 : Decision (c1 ≤ᵥ c2).
Proof. unfold vle; apply _. Defined.
#[global] Instance vlt_dec c1 c2 : Decision (c1 <ᵥ c2).
Proof. unfold vlt; apply _. Defined.

#[global] Instance Zle_list_trans : Transitive (Forall2 Z.le).
Proof. apply _. Qed.

Lemma Zle_list_antisym l1 l2 : Forall2 Z.le l1 l2 → Forall2 Z.le l2 l1 → l1 = l2.
Proof.
  induction 1 as [|x y l1 l2 Hxy _ IH]; intros H; inversion H; simplify_eq; [done|].
  f_equal; [lia|auto].
Qed.

Lemma vle_refl c : c ≤ᵥ c.
Proof. unfold vle. reflexivity. Qed.

Lemma vle_trans c1 c2 c3 : c1 ≤ᵥ c2 → c2 ≤ᵥ c3 → c1 ≤ᵥ c3.
Proof. unfold vle. apply transitivity. Qed.

Lemma vle_size c1 c2 : c1 ≤ᵥ c2 → vsize c1 = vsize c2.
Proof. intros H%Forall2_length. unfold vsize. lia. Qed.

Lemma vlt_trans c1 c2 c3 : c1 <ᵥ c2 → c2 <ᵥ c3 → c1 <ᵥ c3.
Proof.
  intros [H1 Hne] [H2 _]. split; [by eapply vle_trans|]. intros Heq.
  apply Hne, Zle_list_antisym; [done|]. unfold vle in *. by rewrite Heq.
Qed.

Lemma vlt_irrefl c : ¬ c <ᵥ c.
Proof. by intros [_ []]. Qed.

Lemma vlt_le_trans c1 c2 c3 : c1 <ᵥ c2 → c2 ≤ᵥ c3 → c1 <ᵥ c3.
Proof.
  intros [H1 Hne] H2. split; [by eapply vle_trans|]. intros Heq.
  apply Hne, Zle_list_antisym; [done|]. unfold vle in *. by rewrite Heq.
Qed.

Lemma vle_lt_trans c1 c2 c3 : c1 ≤ᵥ c2 → c2 <ᵥ c3 → c1 <ᵥ c3.
Proof.
  intros H1 [H2 Hne]. split; [by eapply vle_trans|]. intros Heq.
  apply Hne, Zle_list_antisym; [done|]. unfold vle in *. by rewrite <- Heq.
Qed.

Lemma vle_lookup c1 c2 i x y :
  c1 ≤ᵥ c2 → vector c1 !! i = Some x → vector c2 !! i = Some y → (x ≤ y)%Z.
Proof. intros H ??. by eapply (Forall2_lookup_lr Z.le). Qed.

Lemma vle_of_lookup c1 c2 :
  vsize c1 = vsize c2 →
  (∀ i x y, vector c1 !! i = Some x → vector c2 !! i = Some y → (x ≤ y)%Z) → c1 ≤ᵥ c2.
Proof.
  unfold vsize, vle. intros Hs H. apply Forall2_same_length_lookup_2; [lia|].
  intros i x y ??. by eapply H.
Qed.

(** ** [vc_equal] *)

Lemma vc_equal_loop_spec l1 l2 :
  length l1 = length l2 → vc_equal_loop l1 l2 = true ↔ l1 = l2.
Proof.
  revert l2. induction l1 as [|x l1 IH]; intros [|y l2]; simpl; intros; try done.
  cases_Z; [subst; rewrite IH by lia; naive_solver|naive_solver].
Qed.

Lemma vc_equal_spec c1 c2 : vc_equal c1 c2 = true ↔ vector c1 = vector c2.
Proof.
  unfold vc_equal, vsize. destruct (Z.eqb_spec (Z.of_nat (length (vector c1))) (Z.of_nat (length (vector c2)))) as [Hs|Hs].
  - rewrite vc_equal_loop_spec by lia. done.
  - split; [done|]. intros Heq. by rewrite Heq in Hs.
Qed.

Lemma vc_equal_refl c : vc_equal c c = true.
Proof. by apply vc_equal_spec. Qed.

(** ** [vc_cmp] *)

(** What the five-valued comparison means: the causal order where the clocks
    are ordered, the order of the server ids otherwise. *)
Definition id_cmp (c1 c2 : vc) : Z :=
  if (vid c1 =? vid c2)%Z then VC_CMP_ERR
  else if (vid c1 >? vid c2)%Z then VC_C_GREATER else VC_C_LESS.

Definition vc_cmp_ref (c1 c2 : vc) : Z :=
  if decide (vector c1 = vector c2) then id_cmp c1 c2
  else if decide (c1 ≤ᵥ c2) then VC_LESS
  else if decide (c2 ≤ᵥ c1) then VC_GREATER
  else id_cmp c1 c2.

Lemma vc_skip_equal_spec l1 l2 :
  length l1 = length l2 →
  (l1 = l2 ∧ vc_skip_equal l1 l2 = ([], [])) ∨
  ∃ l x y r1 r2, l1 = l ++ x :: r1 ∧ l2 = l ++ y :: r2 ∧ x ≠ y ∧ length r1 = length r2
    ∧ vc_skip_equal l1 l2 = (x :: r1, y :: r2).
Proof.
  revert l2. induction l1 as [|x l1 IH]; intros [|y l2]; simpl; intros ?; try done.
  { by left. }
  destruct (Z.eqb_spec x y) as [->|].
  - destruct (IH l2) as [[-> ->]|(l & x' & y' & r1 & r2 & -> & -> & ? & ? & ->)]; [lia|by left|].
    right. by exists (y :: l), x', y', r1, r2.
  - right. exists [], x, y, l1, l2. split_and!; auto with lia.
Qed.

Lemma vc_cmp_rest_spec flip id1 id2 dflt l1 l2 :
  length l1 = length l2 →
  vc_cmp_rest flip id1 id2 dflt l1 l2 =
  if (id1 =? id2)%Z then dflt
  else if decide (Forall2 (λ x y, flip x y = false) l1 l2) then dflt
  else if (id1 >? id2)%Z then VC_C_GREATER else VC_C_LESS.
Proof.
  revert l2. induction l1 as [|x l1 IH]; intros [|y l2] Hl; try done; cbn [vc_cmp_rest].
  { rewrite decide_True by constructor. by case_match. }
  destruct (flip x y) eqn:Hf.
  - rewrite (decide_False (P := Forall2 _ (x :: l1) (y :: l2)))
      by (inversion 1; simplify_eq; congruence).
    rewrite IH by (simpl in Hl; lia). cases_Z; try done; lia.
  - rewrite IH by (simpl in Hl; lia). case_match; [done|].
    apply decide_ext. split; [by constructor|by inversion 1].
Qed.

Lemma Zle_app_cons l1 l2 l x y r1 r2 :
  l1 = l ++ x :: r1 → l2 = l ++ y :: r2 →
  Forall2 Z.le l1 l2 ↔ (x ≤ y)%Z ∧ Forall2 Z.le r1 r2.
Proof.
  intros -> ->. split.
  - intros H. apply Forall2_app_inv in H as [_ H]; [|done]. by inversion H.
  - intros [??]. apply Forall2_app; [reflexivity|by constructor].
Qed.

Lemma Forall2_ltb_le l1 l2 : Forall2 (λ x y, (x <? y)%Z = false) l1 l2 ↔ Forall2 Z.le l2 l1.
Proof.
  rewrite <- (Forall2_flip Z.le l2 l1). unfold flip.
  split; intros H; (eapply Forall2_impl; [exact H|]); intros x y; simpl; rewrite Z.ltb_ge; lia.
Qed.

Lemma Forall2_gtb_le l1 l2 : Forall2 (λ x y, (x >? y)%Z = false) l1 l2 ↔ Forall2 Z.le l1 l2.
Proof.
  split; intros H; (eapply Forall2_impl; [exact H|]); intros x y; simpl;
    rewrite Z.gtb_ltb, Z.ltb_ge; lia.
Qed.

(** On clocks of one size whose owners differ, or that are ordered, [vc_cmp]
    is the reference comparison. *)
Lemma vc_cmp_ref_spec c1 c2 :
  vsize c1 = vsize c2 → vid c1 ≠ vid c2 ∨ c1 ≤ᵥ c2 ∨ c2 ≤ᵥ c1 →
  vc_cmp c1 c2 = vc_cmp_ref c1 c2.
Proof.
  intros Hs Hc. unfold vc_cmp, vc_cmp_ref, id_cmp, vle in *. rewrite (proj2 (Z.eqb_eq _ _) Hs).
  unfold vsize in Hs.
  destruct (vc_skip_equal_spec (vector c1) (vector c2))
    as [[Heq ->]|(l & x & y & r1 & r2 & H1 & H2 & Hxy & Hr & ->)]; [lia| |].
  - by rewrite decide_True.
  - rewrite decide_False by (rewrite H1, H2; intros ?; simplify_eq).
    pose proof (Zle_app_cons _ _ _ _ _ _ _ H1 H2) as H12.
    pose proof (Zle_app_cons _ _ _ _ _ _ _ H2 H1) as H21.
    rewrite H12, H21 in Hc. rewrite (decide_ext _ _ _ _ H12), (decide_ext _ _ _ _ H21).
    rewrite !vc_cmp_rest_spec by done.
    rewrite (decide_ext _ _ _ _ (Forall2_ltb_le r1 r2)),
      (decide_ext _ _ _ _ (Forall2_gtb_le r1 r2)).
    repeat case_decide; cases_Z; try done; naive_solver lia.
Qed.

(** Swapping the arguments negates the answer, in every case. *)
Lemma vc_cmp_swap c1 c2 : vc_cmp c2 c1 = (- vc_cmp c1 c2)%Z.
Proof.
  unfold vc_cmp. rewrite (Z.eqb_sym (vsize c2)).
  destruct (Z.eqb_spec (vsize c1) (vsize c2)) as [Hs|]; [|done]. unfold vsize in Hs.
  assert (∀ l1 l2, vc_skip_equal l2 l1 = (λ p, (p.2, p.1)) (vc_skip_equal l1 l2)) as ->.
  { induction l1 as [|x l1 IH]; intros [|y l2]; simpl; try done.
    rewrite Z.eqb_sym. case_match; [apply IH|done]. }
  destruct (vc_skip_equal_spec (vector c1) (vector c2))
    as [[_ ->]|(l & x & y & r1 & r2 & _ & _ & Hxy & Hr & ->)]; [lia| |]; simpl.
  - cases_Z; try done; lia.
  - rewrite !vc_cmp_rest_spec by done.
    rewrite (decide_ext _ _ _ _ (Forall2_ltb_le r1 r2)), (decide_ext _ _ _ _ (Forall2_ltb_le r2 r1)),
      (decide_ext _ _ _ _ (Forall2_gtb_le r1 r2)), (decide_ext _ _ _ _ (Forall2_gtb_le r2 r1)).
    repeat case_decide; cases_Z; try done; lia.
Qed.

Lemma vc_cmp_of_lt c1 c2 : c1 <ᵥ c2 → vc_cmp c1 c2 = VC_LESS.
Proof.
  intros [Hle Hne]. rewrite vc_cmp_ref_spec by (auto using vle_size).
  unfold vc_cmp_ref. by rewrite decide_False, decide_True.
Qed.

(** [VC_LESS] is the strict causal order. *)
Lemma vc_cmp_less c1 c2 :
  vsize c1 = vsize c2 → vid c1 ≠ vid c2 ∨ c1 ≤ᵥ c2 ∨ c2 ≤ᵥ c1 →
  vc_cmp c1 c2 = VC_LESS ↔ c1 <ᵥ c2.
Proof.
  intros Hs Hc. split; [|apply vc_cmp_of_lt].
  rewrite vc_cmp_ref_spec by done. unfold vc_cmp_ref, id_cmp.
  repeat case_decide; cases_Z; try done.
Qed.

(** ** [vc_update] is the join of the causal order *)

Lemma length_vc_update_loop l m : length (vc_update_loop l m) = length l.
Proof. revert m. induction l as [|x l IH]; intros [|y m]; simpl; auto. Qed.

Lemma vsize_vc_update c m : vsize (vc_update c m) = vsize c.
Proof.
  unfold vc_update. case_match; [|done]. unfold vsize. simpl.
  by rewrite length_vc_update_loop.
Qed.

Lemma vc_update_ne c m : vsize c ≠ vsize m → vc_update c m = c.
Proof. intros H. unfold vc_update. by rewrite (proj2 (Z.eqb_neq _ _) H). Qed.

Lemma vid_vc_update c m : vid (vc_update c m) = vid c.
Proof. unfold vc_update. by case_match. Qed.

Lemma vc_update_loop_max l m :
  length l = length m → vc_update_loop l m = zip_with Z.max l m.
Proof.
  revert m. induction l as [|x l IH]; intros [|y m]; simpl; intros; try done.
  rewrite IH by lia. f_equal. cases_Z; lia.
Qed.

Lemma vector_vc_update c m :
  vsize c = vsize m → vector (vc_update c m) = zip_with Z.max (vector c) (vector m).
Proof.
  intros Hs. unfold vc_update. rewrite (proj2 (Z.eqb_eq _ _) Hs). simpl.
  apply vc_update_loop_max. unfold vsize in Hs. lia.
Qed.

Lemma vc_update_lookup c m i x y :
  vsize c = vsize m → vector c !! i = Some x → vector m !! i = Some y →
  vector (vc_update c m) !! i = Some (Z.max x y).
Proof. intros Hs Hx Hy. rewrite vector_vc_update by done. by rewrite lookup_zip_with, Hx, Hy. Qed.

Lemma vc_lookup_size c1 c2 i x :
  vsize c1 = vsize c2 → vector c1 !! i = Some x → ∃ y, vector c2 !! i = Some y.
Proof.
  intros Hs Hx%lookup_lt_Some. unfold vsize in Hs. apply lookup_lt_is_Some. lia.
Qed.

Lemma vc_update_l c m : vsize c = vsize m → c ≤ᵥ vc_update c m.
Proof.
  intros Hs. apply vle_of_lookup; [by rewrite vsize_vc_update|]. intros i x z Hx Hz.
  destruct (vc_lookup_size c m i x) as [y Hy]; [done..|].
  rewrite (vc_update_lookup c m i x y) in Hz by done. simplify_eq. lia.
Qed.

Lemma vc_update_r c m : vsize c = vsize m → m ≤ᵥ vc_update c m.
Proof.
  intros Hs. apply vle_of_lookup; [by rewrite vsize_vc_update|]. intros i y z Hy Hz.
  destruct (vc_lookup_size m c i y) as [x Hx]; [done..|].
  rewrite (vc_update_lookup c m i x y) in Hz by done. simplify_eq. lia.
Qed.

Lemma vc_update_lub c m u : c ≤ᵥ u → m ≤ᵥ u → vc_update c m ≤ᵥ u.
Proof.
  intros Hc Hm. pose proof (vle_size _ _ Hc) as Hs1. pose proof (vle_size _ _ Hm) as Hs2.
  apply vle_of_lookup; [by rewrite vsize_vc_update|]. intros i z w Hz Hw.
  destruct (vc_lookup_size u c i w) as [x Hx]; [done..|].
  destruct (vc_lookup_size u m i w) as [y Hy]; [done..|].
  rewrite (vc_update_lookup c m i x y) in Hz by congruence. simplify_eq.
  pose proof (vle_lookup _ _ _ _ _ Hc Hx Hw). pose proof (vle_lookup _ _ _ _ _ Hm Hy Hw). lia.
Qed.

Lemma vc_update_absorb c m : m ≤ᵥ c → vector (vc_update c m) = vector c.
Proof.
  intros H. apply Zle_list_antisym.
  - apply (vc_update_lub c m c); [apply vle_refl|done].
  - apply (vc_update_l c m). symmetry. by apply vle_size.
Qed.

(** Joining does not depend on the order, whatever the sizes. *)
Lemma vc_update_comm c m1 m2 : vc_update (vc_update c m1) m2 = vc_update (vc_update c m2) m1.
Proof.
  destruct (decide (vsize c = vsize m1)) as [H1|H1], (decide (vsize c = vsize m2)) as [H2|H2].
  - rewrite (vc_eta (vc_update (vc_update c m1) m2)), (vc_eta (vc_update (vc_update c m2) m1)).
    rewrite !vid_vc_update. f_equal. apply list_eq. intros i.
    rewrite !vector_vc_update by (rewrite ?vsize_vc_update; done).
    rewrite !lookup_zip_with.
    destruct (vector c !! i), (vector m1 !! i), (vector m2 !! i); simpl; try done. f_equal. lia.
  - by rewrite !(vc_update_ne _ m2) by (rewrite ?vsize_vc_update; done).
  - by rewrite !(vc_update_ne _ m1) by (rewrite ?vsize_vc_update; done).
  - by rewrite !(vc_update_ne _ m1), !(vc_update_ne _ m2) by (rewrite ?vsize_vc_update; done).
Qed.

Lemma vc_update_absorb_eq c m : m ≤ᵥ c → vc_update c m = c.
Proof.
  intros H. rewrite (vc_eta (vc_update c m)), vid_vc_update, vc_update_absorb by done.
  by destruct c.
Qed.

Lemma vc_update_grow c m : c ≤ᵥ m → vector (vc_update c m) = vector m.
Proof.
  intros H. apply Zle_list_antisym.
  - apply (vc_update_lub c m m); [done|apply vle_refl].
  - apply (vc_update_r c m). by apply vle_size.
Qed.

(** ** [vc_causally_ready] *)

Lemma vc_ready_loop_spec i o l1 l2 :
  length l1 = length l2 →
  vc_ready_loop i o l1 l2 = true ↔
  ∀ k x y, (i + Z.of_nat k ≠ o)%Z → l1 !! k = Some x → l2 !! k = Some y → (y ≤ x)%Z.
Proof.
  revert i l2. induction l1 as [|a l1 IH]; intros i [|b l2]; simpl; intros Hl; try done.
  assert (vc_ready_loop (i + 1) o l1 l2 = true ↔
    ∀ k x y, (i + Z.of_nat (S k) ≠ o)%Z → (a :: l1) !! S k = Some x → (b :: l2) !! S k = Some y → (y ≤ x)%Z)
    as Htl.
  { rewrite IH by lia. split; intros H k x y Hk; apply (H k x y); lia. }
  destruct (Z.eqb_spec i o); [|rewrite Z.gtb_ltb; destruct (Z.ltb_spec a b) as [Hab|Hab]].
  - rewrite Htl. split.
    + intros H [|k] x y Hk; [lia|by apply H].
    + intros H k x y Hk. by apply H.
  - split; [done|]. intros H. specialize (H 0 a b). simpl in H.
    assert (b ≤ a)%Z by (apply H; [lia|done|done]). lia.
  - rewrite Htl. split.
    + intros H [|k] x y Hk; [|by apply H]. simpl. intros [= ->] [= ->]. lia.
    + intros H k x y Hk. by apply H.
Qed.

(** The delivery condition: [next] is the next operation of its server after
    what [current] has seen, and everything else it depends on was seen. *)
Definition causally_next (current next : vc) : Prop :=
  vsize current = vsize next ∧ (0 ≤ vid next < vsize next)%Z ∧
  ∀ k x y, vector current !! k = Some x → vector next !! k = Some y →
    if decide (Z.of_nat k = vid next) then y = (x + 1)%Z else (y ≤ x)%Z.

Lemma aget_lookup l i : (0 ≤ i)%Z → aget l i = l !! Z.to_nat i.
Proof. intros. unfold aget. by rewrite (proj2 (Z.ltb_ge _ _)). Qed.

Lemma aget_range (l : list Z) i : (0 ≤ i < Z.of_nat (length l))%Z → ∃ x, aget l i = Some x ∧ l !! Z.to_nat i = Some x.
Proof.
  intros. rewrite aget_lookup by lia.
  destruct (lookup_lt_is_Some_2 l (Z.to_nat i)) as [x Hx]; [lia|eauto].
Qed.

Definition int32_clock (c : vc) : Prop := Forall (λ x, (INT_MIN ≤ x < INT_MAX)%Z) (vector c).

Lemma vc_causally_ready_spec current next :
  vsize current = vsize next → (0 ≤ vid next < vsize next)%Z → int32_clock current →
  ∃ b, vc_causally_ready current next = Some b ∧ (b = true ↔ causally_next current next).
Proof.
  intros Hs Hid Hr. unfold vc_causally_ready. rewrite (proj2 (Z.eqb_eq _ _) Hs).
  assert (length (vector current) = length (vector next)) as Hl by (unfold vsize in Hs; lia).
  destruct (aget_range (vector next) (vid next)) as (y & -> & Hy); [done|].
  destruct (aget_range (vector current) (vid next)) as (x & -> & Hx); [unfold vsize in Hs, Hid; lia|].
  assert (wrap32 (x + 1) = x + 1)%Z as ->.
  { apply wrap32_id. eapply Forall_lookup_1 in Hr; [|done]. simpl in Hr.
    unfold int32, INT_MIN, INT_MAX in *. lia. }
  pose proof (vc_ready_loop_spec 0 (vid next) _ _ Hl) as Hspec.
  destruct (vc_ready_loop _ _ _ _).
  - eexists. split; [done|]. rewrite Z.eqb_eq. destruct Hspec as [Hspec _].
    split.
    + intros ->. split_and!; [done|lia|lia|]. intros k x' y' Hx' Hy'. case_decide as Hk.
      * subst. rewrite <- Hk, Nat2Z.id in *. by simplify_eq.
      * by apply (Hspec eq_refl k).
    + intros (_ & _ & H). specialize (H _ _ _ Hx Hy). rewrite decide_True in H by lia. done.
  - eexists. split; [done|]. split; [done|]. intros (_ & _ & H).
    destruct Hspec as [_ Hspec]. apply Hspec. intros k x' y' Hk Hx' Hy'.
    specialize (H k x' y' Hx' Hy'). by rewrite decide_False in H by lia.
Qed.

(** ** Bounds *)

(** Every component is a count of at most [b]. *)
Definition vbounded (b : Z) (c : vc) : Prop := Forall (λ x, (0 ≤ x ≤ b)%Z) (vector c).

#[global] Instance vbounded_dec b c : Decision (vbounded b c).
Proof. unfold vbounded. apply _. Defined.

Lemma vbounded_mono b b' c : (b ≤ b')%Z → vbounded b c → vbounded b' c.
Proof. intros Hb Hc. eapply Forall_impl; [exact Hc|]. simpl. lia. Qed.

Lemma vbounded_vc_update b c m : vbounded b c → vbounded b m → vbounded b (vc_update c m).
Proof.
  intros Hc Hm. destruct (decide (vsize c = vsize m)) as [Hs|Hs]; [|by rewrite vc_update_ne].
  unfold vbounded. rewrite vector_vc_update by done. apply Forall_lookup. intros i x Hx.
  apply lookup_zip_with_Some in Hx as (a & d & -> & Ha & Hd).
  pose proof (Forall_lookup_1 _ _ _ _ Hc Ha). pose proof (Forall_lookup_1 _ _ _ _ Hm Hd). simpl in *. lia.
Qed.

Lemma vbounded_int32 b c : (b < INT_MAX)%Z → vbounded b c → int32_clock c.
Proof. intros Hb Hc. eapply Forall_impl; [exact Hc|]. simpl. unfold INT_MIN, INT_MAX in *. lia. Qed.

Lemma vbounded_vc_new b n i : (0 ≤ b)%Z → vbounded b (_vc_new n i).
Proof. intros Hb. unfold vbounded, _vc_new. simpl. apply Forall_replicate. lia. Qed.

Lemma vsize_vc_new n i : (0 ≤ n)%Z → vsize (_vc_new n i) = n.
Proof. intros. unfold vsize, _vc_new. simpl. rewrite length_replicate. lia. Qed.

Lemma int32_vc_new n i : int32_clock (_vc_new n i).
Proof. unfold int32_clock, _vc_new. simpl. apply Forall_replicate. unfold INT_MIN, INT_MAX. lia. Qed.

(** ** Wire format round trip *)

(** What a clock needs to survive the wire: at least one component, no more
    than [vc_int_buf] holds, and [int] values. *)
Definition vc_wire_ok (c : vc) : Prop :=
  1 ≤ length (vector c) ≤ vc_int_buf_size ∧ Forall int32 (vector c) ∧ int32 (vid c).

#[global] Instance vc_wire_ok_dec c : Decision (vc_wire_ok c).
Proof. unfold vc_wire_ok; apply _. Defined.

Lemma vc_sep_num a : num_char a = true → vc_sep a = false.
Proof. unfold num_char, isdigit, vc_sep. intros; cases_Z; naive_solver lia. Qed.

Lemma sdsToVC_loop_vec n l s r :
  length l ≤ n → Forall int32 l → vec_to_sds l = Some s →
  sdsToVC_loop n (s +:+ String "|" r) = Some (l, r).
Proof.
  revert n s. induction l as [|x l IH]; intros n s Hn Hl Hs; [done|].
  destruct n as [|n]; [simpl in Hn; lia|]. apply Forall_cons in Hl as [Hx Hl].
  destruct l as [|y l].
  - simpl in Hs. injection Hs as <-. cbn [sdsToVC_loop].
    rewrite atoi_fmt, skip_until_fmt by (done || apply vc_sep_num). done.
  - change (match vec_to_sds (y :: l) with
            | Some s => Some (fmt_d x +:+ String "," s) | None => None end = Some s) in Hs.
    destruct (vec_to_sds (y :: l)) as [s'|] eqn:Hs'; [|done]. injection Hs as <-.
    rewrite <- sds_app_assoc, sds_app_cons. cbn [sdsToVC_loop].
    rewrite atoi_fmt, skip_until_fmt by (done || apply vc_sep_num).
    change (code ",") with 44%Z. cbv beta iota.
    change (44 =? 124)%Z with false. cbv beta iota.
    rewrite IH with (s := s'); [done|simpl in *; lia|done|done].
Qed.

Lemma vec_to_sds_some l : l ≠ [] → ∃ s, vec_to_sds l = Some s.
Proof.
  induction l as [|x [|y l] IH]; intros; [done|by eexists|].
  destruct IH as [s Hs]; [done|]. exists (fmt_d x +:+ String "," s).
  change (match vec_to_sds (y :: l) with
          | Some s => Some (fmt_d x +:+ String "," s) | None => None end
    = Some (fmt_d x +:+ String "," s)). by rewrite Hs.
Qed.

Lemma vcToSds_roundtrip c :
  vc_wire_ok c → ∃ s, vcToSds c = Some s ∧ sdsToVC s = Some c.
Proof.
  intros (Hn & Hl & Hid). unfold vcToSds.
  destruct (vec_to_sds_some (vector c)) as [s Hs]; [by destruct (vector c); simpl in *; try lia|].
  rewrite Hs. eexists; split; [done|]. unfold sdsToVC.
  rewrite (sdsToVC_loop_vec _ (vector c)) by (done || lia).
  rewrite atoi_fmt_end by done. by destruct c.
Qed.

(** [_vc_inc] within the bounds of [int]. *)
Lemma vc_inc_spec c id :
  (0 ≤ id < vsize c)%Z → int32_clock c →
  ∃ x, vector c !! Z.to_nat id = Some x ∧
    _vc_inc c id = Some (mkVc (<[Z.to_nat id := (x + 1)%Z]> (vector c)) id).
Proof.
  intros Hid Hr. destruct (aget_range (vector c) id) as (x & Hg & Hx); [done|].
  exists x. split; [done|]. unfold _vc_inc. rewrite Hg, wrap32_id; [done|].
  eapply Forall_lookup_1 in Hr; [|done]. simpl in Hr. unfold int32, INT_MIN, INT_MAX in *. lia.
Qed.

Lemma vc_inc_next c id c' :
  (0 ≤ id < vsize c)%Z → int32_clock c → _vc_inc c id = Some c' →
  causally_next c c' ∧ c <ᵥ c'.
Proof.
  intros Hid Hr Hc'. destruct (vc_inc_spec c id Hid Hr) as (x & Hx & Hinc).
  rewrite Hinc in Hc'. injection Hc' as <-.
  set (c' := mkVc (<[Z.to_nat id := (x + 1)%Z]> (vector c)) id).
  assert (vsize c = vsize c') as Hs by (unfold vsize, c'; simpl; by rewrite length_insert).
  assert (∀ k a b, vector c !! k = Some a → vector c' !! k = Some b →
    if decide (Z.of_nat k = id) then b = (a + 1)%Z else b = a) as Hk.
  { intros k a b Ha Hb. unfold c' in Hb. simpl in Hb. case_decide as Hd.
    - subst id. rewrite Nat2Z.id in *. rewrite list_lookup_insert_eq in Hb by (by eapply lookup_lt_Some).
      by simplify_eq.
    - rewrite list_lookup_insert_ne in Hb by lia. by simplify_eq. }
  split; [|split].
  - split_and!; [done|simpl; lia..|]. intros k a b Ha Hb. specialize (Hk k a b Ha Hb). simpl.
    case_decide; lia.
  - apply vle_of_lookup; [done|]. intros k a b Ha Hb. specialize (Hk k a b Ha Hb). case_decide; lia.
  - intros Heq. assert (vector c' !! Z.to_nat id = Some (x + 1)%Z) as Hx'.
    { unfold c'. simpl. apply list_lookup_insert_eq. by eapply lookup_lt_Some. }
    rewrite <- Heq, Hx in Hx'. simplify_eq. lia.
Qed.

(** What [vc_now] sends stays within the next bound. *)
Lemma vbounded_vc_inc b c id c' :
  (0 ≤ id < vsize c)%Z → (b < INT_MAX)%Z → vbounded b c → _vc_inc c id = Some c' →
  vbounded (b + 1) c' ∧ vid c' = id ∧ vsize c' = vsize c.
Proof.
  intros Hid Hb Hc Hinc. destruct (vc_inc_spec c id Hid (vbounded_int32 b c Hb Hc)) as (x & Hx & Hinc').
  rewrite Hinc' in Hinc. injection Hinc as <-. split_and!; [|done|unfold vsize; simpl; by rewrite length_insert].
  unfold vbounded. simpl. apply Forall_insert.
  - eapply Forall_impl; [exact Hc|]. simpl. lia.
  - pose proof (Forall_lookup_1 _ _ _ _ Hc Hx). simpl in *. lia.
Qed.

Lemma vbounded_wire b c :
  (1 ≤ vsize c ≤ 100)%Z → (0 ≤ vid c < vsize c)%Z → (b ≤ INT_MAX)%Z → vbounded b c → vc_wire_ok c.
Proof.
  intros Hs Hid Hb Hc. unfold vc_wire_ok, vc_int_buf_size, vsize in *. split_and!; [lia|lia| |].
  - eapply Forall_impl; [exact Hc|]. simpl. unfold int32, INT_MIN, INT_MAX in *. lia.
  - unfold int32, INT_MIN, INT_MAX in *. lia.
Qed.

(** ** Properties *)

(** By the first component in which the clocks differ. *)
Fixpoint first_cmp (l1 l2 : list Z) : Z :=
  match l1, l2 with
  | x :: l1, y :: l2 => if decide (x = y) then first_cmp l1 l2 else if decide (x < y)%Z then VC_LESS else VC_GREATER
  | _, _ => VC_CMP_ERR
  end.

(** The comparison on all clocks. *)
Definition vc_cmp_all (c1 c2 : vc) : Z :=
  if decide (vsize c1 = vsize c2) then
    if decide (vid c1 = vid c2 ∧ ¬ c1 ≤ᵥ c2 ∧ ¬ c2 ≤ᵥ c1) then first_cmp (vector c1) (vector c2) else vc_cmp_ref c1 c2
  else VC_CMP_ERR.

Lemma first_cmp_skip l x y r1 r2 : x ≠ y → first_cmp (l ++ x :: r1) (l ++ y :: r2) = if decide (x < y)%Z then VC_LESS else VC_GREATER.
Proof. intros Hne. induction l as [|z l IH]; simpl; [by rewrite decide_False|]. by rewrite decide_True. Qed.

Lemma vc_cmp_rest_same flip id dflt l1 l2 : vc_cmp_rest flip id id dflt l1 l2 = dflt.
Proof.
  revert l2. induction l1 as [|x l1 IH]; intros [|y l2]; simpl; try done. rewrite Z.gtb_ltb, Z.ltb_irrefl, IH. by destruct (flip x y).
Qed.

(** C30: [vc_cmp] on every pair of clocks.  On clocks of equal size it gives
    the pointwise order where they are ordered; where they are equal or
    concurrent and have different owners, the order of the owner ids; equal
    clocks of one owner, and clocks of different sizes, give VC_CMP_ERR; and
    concurrent clocks of one owner are not told from ordered ones: the first
    component that differs decides between VC_LESS and VC_GREATER.  Exchanging
    the arguments negates the value. *)
Theorem vc_cmp_correct c1 c2 : vc_cmp c1 c2 = vc_cmp_all c1 c2 ∧ vc_cmp c2 c1 = (- vc_cmp c1 c2)%Z.
Proof.
  split; [|apply vc_cmp_swap]. unfold vc_cmp_all. destruct (decide (vsize c1 = vsize c2)) as [Hs|Hs].
  2: { unfold vc_cmp. by rewrite (proj2 (Z.eqb_neq _ _) Hs). }
  destruct (decide (vid c1 = vid c2 ∧ ¬ c1 ≤ᵥ c2 ∧ ¬ c2 ≤ᵥ c1)) as [(Hid & Hn1 & Hn2)|Hc].
  - unfold vc_cmp. rewrite (proj2 (Z.eqb_eq _ _) Hs). destruct (vc_skip_equal_spec (vector c1) (vector c2)) as [[Heq _]|(l & x & y & r1 & r2 & H1 & H2 & Hne & _ & ->)].
    + unfold vsize in Hs. lia.
    + exfalso. apply Hn1. unfold vle. by rewrite Heq.
    + rewrite Hid, !vc_cmp_rest_same, H1, H2, first_cmp_skip by done. cases_Z; case_decide; lia || done.
  - apply vc_cmp_ref_spec; [done|]. destruct (decide (vid c1 = vid c2)); [|by left]. right.
    destruct (decide (c1 ≤ᵥ c2)); [by left|]. destruct (decide (c2 ≤ᵥ c1)); [by right|]. by destruct Hc.
Qed.

(** C31: [vc_update] is the join of the causal order: the result is the least
    clock above both arguments, it keeps the owner of the target, and the
    order in which clocks are merged does not matter. *)
Theorem vc_update_join c m :
  vsize c = vsize m →
  c ≤ᵥ vc_update c m ∧ m ≤ᵥ vc_update c m ∧ vid (vc_update c m) = vid c ∧
  (∀ u, c ≤ᵥ u → m ≤ᵥ u → vc_update c m ≤ᵥ u) ∧
  (∀ m', vc_update (vc_update c m) m' = vc_update (vc_update c m') m).
Proof.
  intros Hs. split_and!.
  - by apply vc_update_l.
  - by apply vc_update_r.
  - apply vid_vc_update.
  - intros u. apply vc_update_lub.
  - intros m'. apply vc_update_comm.
Qed.

Lemma vc_update_join_witness :
  vector (vc_update (mkVc [1; 5] 0) (mkVc [3; 2] 1))%Z = [3; 5]%Z ∧
  mkVc [1; 5]%Z 0 ≤ᵥ vc_update (mkVc [1; 5] 0)%Z (mkVc [3; 2] 1)%Z.
Proof. split; [reflexivity|]. apply (vc_update_join (mkVc [1; 5] 0)%Z (mkVc [3; 2] 1)%Z). reflexivity. Defined.

(** C32: [vc_causally_ready] is the causal delivery condition: with clocks of
    equal size and no counter at INT_MAX it answers, and yes exactly when the
    operation is the next one of its server and everything it depends on has
    been seen; in that case applying it moves the clock strictly up. *)
Theorem vc_causally_ready_correct current next :
  vsize current = vsize next → (0 ≤ vid next < vsize next)%Z → int32_clock current →
  ∃ b, vc_causally_ready current next = Some b ∧ (b = true ↔ causally_next current next) ∧
    (b = true → current <ᵥ vc_update current next).
Proof.
  intros Hs Hid Hr. destruct (vc_causally_ready_spec current next) as (b & Hb & Hiff); [done..|].
  exists b. split; [done|]. split; [done|]. intros (_ & _ & Hn)%Hiff.
  split; [by apply vc_update_l|]. intros Heq.
  destruct (aget_range (vector next) (vid next)) as (y & _ & Hy); [done|].
  destruct (vc_lookup_size next current _ _ (eq_sym Hs) Hy) as [x Hx].
  pose proof (vc_update_lookup _ _ _ _ _ Hs Hx Hy) as Hz. rewrite <- Heq, Hx in Hz. injection Hz as Hz.
  specialize (Hn _ _ _ Hx Hy). rewrite decide_True in Hn by lia. lia.
Qed.

Lemma vc_causally_ready_witness :
  ∃ b, vc_causally_ready (mkVc [4; 2; 0] 0)%Z (mkVc [3; 3; 0] 1)%Z = Some b ∧ b = true.
Proof.
  destruct (vc_causally_ready_correct (mkVc [4; 2; 0] 0)%Z (mkVc [3; 3; 0] 1)%Z) as (b & Hb & _ & _);
    [reflexivity|vm_compute; split; congruence|repeat constructor; vm_compute; congruence|].
  exists b. split; [exact Hb|]. vm_compute in Hb. congruence.
Defined.

(** C33: The wire format of vector clocks is lossless: a clock with 1 to 100
    [int] components is read back as it was sent, and what [vc_now] sends is
    read back as a clock strictly above the sender's, the causally next
    one. *)
Theorem vc_wire_roundtrip c :
  vc_wire_ok c →
  (∃ s, vcToSds c = Some s ∧ sdsToVC s = Some c) ∧
  ((0 ≤ vid c < vsize c)%Z → int32_clock c →
    ∃ s c', vc_now c = Some s ∧ sdsToVC s = Some c' ∧ vid c' = vid c ∧ causally_next c c' ∧ c <ᵥ c').
Proof.
  intros Hc. split; [by apply vcToSds_roundtrip|]. intros Hid Hr. unfold vc_now.
  destruct (vc_inc_spec c (vid c)) as (x & Hx & Hinc); [done..|]. rewrite Hinc.
  edestruct vc_inc_next as [H1 H2]; [done..|].
  set (c' := mkVc (<[Z.to_nat (vid c) := (x + 1)%Z]> (vector c)) (vid c)).
  destruct (vcToSds_roundtrip c') as (s & Hs & Hrt).
  - destruct Hc as (Hn & Hl & Hv). unfold vc_wire_ok, c'. simpl. rewrite length_insert.
    split_and!; [lia|lia| |done..]. apply Forall_insert; [done|].
    eapply Forall_lookup_1 in Hr; [|done]. simpl in Hr. unfold int32, INT_MIN, INT_MAX in *. lia.
  - exists s, c'. by split_and!.
Qed.

Lemma vc_wire_roundtrip_witness :
  ∃ s, vcToSds (mkVc [3; -2; 0] 2)%Z = Some s ∧ sdsToVC s = Some (mkVc [3; -2; 0] 2)%Z.
Proof.
  apply (vc_wire_roundtrip (mkVc [3; -2; 0] 2)%Z). split_and!; [vm_compute; lia..| |vm_compute; split; congruence].
  repeat constructor; vm_compute; congruence.
Defined.
