(* ===== verification/LamportClock.v ===== *)
(** * Lamport clocks and unique tags (src/lamport_clock.h)

    [lc] is the C struct [lamport_clock].  As a tag (add-win types) it is
    compared id first, [lc_cmp_as_tag]; as a clock (RWF list) counter first,
    [lc_cmp].  Both return a wrapped [int] difference. *)

From Stdlib Require Import Ascii.
From S2P Require Import Prelude.
From S2P Require Import Sds.

Record lc := mkLc { lx : Z; lid : Z }.

#[global] Instance lc_eq_dec : EqDecision lc.
Proof. solve_decision. Defined.

Definition _lc_new (x id : Z) : lc := mkLc x id.

Definition lc_cmp_as_tag (t1 t2 : lc) : Z :=
  if negb (lid t1 =? lid t2)%Z then wrap32 (lid t1 - lid t2)
  else wrap32 (lx t1 - lx t2).

Definition lc_cmp (t1 t2 : lc) : Z :=
  if negb (lx t1 =? lx t2)%Z then wrap32 (lx t1 - lx t2)
  else wrap32 (lid t1 - lid t2).

Definition lc_dup (t : lc) : lc := _lc_new (lx t) (lid t).

Definition lcToSds (t : lc) : sds := fmt_d (lx t) +:+ String "," (fmt_d (lid t)).

(** [sscanf(s, "%d,%d", &x, &id)]: [None] when a field is left unset. *)
Definition sdsToLc (s : sds) : option lc :=
  match scan_d s with
  | Some (x, r) =>
      match scan_lit "," r with
      | Some r' => match scan_d r' with
                   | Some (id, _) => Some (mkLc x id)
                   | None => None
                   end
      | None => None
      end
  | None => None
  end.

Definition lc_update (tar m : lc) : lc :=
  mkLc (if (lx tar >? lx m)%Z then lx tar else lx m) (lid tar).

(** [lc_copy(tar, m)] on a possibly [NULL] target. *)
Definition lc_copy (tar : option lc) (m : lc) : option lc :=
  match tar with
  | None => Some (lc_dup m)
  | Some _ => Some (mkLc (lx m) (lid m))
  end.

(** The next clock in sds form; the clock itself is left unchanged. *)
Definition lc_now (t : lc) : sds := lcToSds (mkLc (wrap32 (lx t + 1)) (lid t)).

(** ** Lemmas *)

(** Counters and ids small enough for [int] differences not to overflow. *)
Definition lc_ok (t : lc) : Prop :=
  (- 2^30 ≤ lx t < 2^30)%Z ∧ (- 2^30 ≤ lid t < 2^30)%Z.

#[global] Instance lc_ok_dec t : Decision (lc_ok t).
Proof. unfold lc_ok; apply _. Defined.

Lemma lc_ok_int32 t : lc_ok t → int32 (lx t) ∧ int32 (lid t).
Proof. unfold lc_ok, int32, INT_MIN, INT_MAX. lia. Qed.

Lemma lc_eta t : mkLc (lx t) (lid t) = t.
Proof. by destruct t. Qed.

Lemma lc_roundtrip t : int32 (lx t) → int32 (lid t) → sdsToLc (lcToSds t) = Some t.
Proof.
  intros Hx Hi. unfold sdsToLc, lcToSds. rewrite scan_d_fmt by done.
  change (scan_lit "," (String "," (fmt_d (lid t)))) with (Some (fmt_d (lid t))). cbv iota.
  rewrite <- (sds_app_nil (fmt_d (lid t))). rewrite scan_d_fmt by done. by rewrite lc_eta.
Qed.

(** Tags compare equal only when they are equal, even across an overflow. *)
Lemma lc_tag_eq t1 t2 :
  int32 (lx t1) → int32 (lid t1) → int32 (lx t2) → int32 (lid t2) →
  lc_cmp_as_tag t1 t2 = 0%Z ↔ t1 = t2.
Proof.
  intros. unfold lc_cmp_as_tag. destruct t1 as [x1 i1], t2 as [x2 i2]; simpl in *.
  destruct (Z.eqb_spec i1 i2) as [->|Hne]; simpl; rewrite wrap32_sub_0 by done; naive_solver.
Qed.

(** The strict order of tags. *)
Definition tag_lt (t1 t2 : lc) : Prop :=
  (lid t1 < lid t2)%Z ∨ (lid t1 = lid t2 ∧ lx t1 < lx t2)%Z.

#[global] Instance tag_lt_dec t1 t2 : Decision (tag_lt t1 t2).
Proof. unfold tag_lt; apply _. Defined.

Lemma wrap32_small x y : (- 2^30 ≤ x < 2^30)%Z → (- 2^30 ≤ y < 2^30)%Z → wrap32 (x - y) = (x - y)%Z.
Proof. intros. apply wrap32_id. unfold int32, INT_MIN, INT_MAX. lia. Qed.

Lemma lc_tag_lt t1 t2 : lc_ok t1 → lc_ok t2 → (lc_cmp_as_tag t1 t2 < 0)%Z ↔ tag_lt t1 t2.
Proof.
  intros [??] [??]. unfold lc_cmp_as_tag, tag_lt.
  destruct (Z.eqb_spec (lid t1) (lid t2)) as [Heq|Hne]; simpl; rewrite wrap32_small by done; lia.
Qed.

Lemma lc_tag_eq_ok t1 t2 : lc_ok t1 → lc_ok t2 → lc_cmp_as_tag t1 t2 = 0%Z ↔ t1 = t2.
Proof. intros [??]%lc_ok_int32 [??]%lc_ok_int32. by apply lc_tag_eq. Qed.

Lemma tag_lt_trans t1 t2 t3 : tag_lt t1 t2 → tag_lt t2 t3 → tag_lt t1 t3.
Proof. unfold tag_lt. lia. Qed.

Lemma tag_lt_irrefl t : ¬ tag_lt t t.
Proof. unfold tag_lt. lia. Qed.

Lemma tag_total t1 t2 : tag_lt t1 t2 ∨ t1 = t2 ∨ tag_lt t2 t1.
Proof.
  destruct t1 as [x1 i1], t2 as [x2 i2]. unfold tag_lt; simpl.
  destruct (Z.lt_trichotomy i1 i2) as [?|[->|?]]; [by auto..| |by auto].
  destruct (Z.lt_trichotomy x1 x2) as [?|[->|?]]; auto.
Qed.

#[export] Hint Resolve lc_ok_int32 tag_lt_trans : crdt.
