(* ===== verification/Dict.v ===== *)
(** * Hash tables with incremental rehashing (src/dict.c, src/dict.h)

    A dictionary has two tables.  When the first gets too full or too empty a
    second one of another size is allocated, and from then on every operation
    moves a bucket until the first is empty and the second takes its place.

    Entries are on a heap and buckets are chained through their [next]
    pointers, as in the code; an array of buckets belongs to the one [dictht]
    that points to it and is kept there with its address.  A null or dangling
    pointer, an access outside an array and a failed assertion are [None].
    Key and value destructors only release memory and are left out, and so are
    the copies that [keyDup] and [valDup] make: no dictionary of the server
    has these functions. *)

From S2P Require Import Prelude.

#[local] Open Scope Z_scope.

Abbreviation dloc := positive.

(** Arithmetic on [unsigned long]. *)
Definition u64 (z : Z) : Z := z mod 2 ^ 64.

Definition LONG_MAX : Z := 2 ^ 63 - 1.

Definition DICT_OK : Z := 0.
Definition DICT_ERR : Z := 1.
Definition DICT_HT_INITIAL_SIZE : Z := 4.
Definition dict_force_resize_ratio : Z := 5.

(** ** Data *)

(** The value of a new entry is not set. *)
Record dictEntry (K V : Type) := mkEntry { de_key : K; de_val : option V; de_next : option dloc }.
Arguments mkEntry {_ _} _ _ _.
Arguments de_key {_ _} _.
Arguments de_val {_ _} _.
Arguments de_next {_ _} _.

Record dictType (K : Type) := mkType { hashFunction : K → Z; keyCompare : K → K → bool }.
Arguments mkType {_} _ _.
Arguments hashFunction {_} _ _.
Arguments keyCompare {_} _ _ _.

(** A [dictEntry **]: the address of the array and its cells. *)
Record buckets := mkBuckets { b_addr : dloc; b_cells : list (option dloc) }.

Record dictht := mkHt { table : option buckets; ht_size : Z; sizemask : Z; used : Z }.

Record dict (K V : Type) := mkDict {
  ht0 : dictht;
  ht1 : dictht;
  rehashidx : Z;
  iterators : Z;
  entries : gmap dloc (dictEntry K V)
}.
Arguments mkDict {_ _} _ _ _ _ _.
Arguments ht0 {_ _} _.
Arguments ht1 {_ _} _.
Arguments rehashidx {_ _} _.
Arguments iterators {_ _} _.
Arguments entries {_ _} _.

(** [table[i]] read and written. *)
Definition cell (ht : dictht) (i : Z) : option (option dloc) :=
  b ← table ht; if i <? 0 then None else b_cells b !! Z.to_nat i.

Definition set_cell (i : Z) (p : option dloc) (ht : dictht) : option dictht :=
  b ← table ht;
  if (0 <=? i) && (i <? Z.of_nat (length (b_cells b))) then
    Some (mkHt (Some (mkBuckets (b_addr b) (<[Z.to_nat i:=p]> (b_cells b)))) (ht_size ht) (sizemask ht) (used ht))
  else None.

Definition set_used (n : Z) (ht : dictht) : dictht := mkHt (table ht) (ht_size ht) (sizemask ht) (u64 n).

Definition _dictReset : dictht := mkHt None 0 0 0.

(** [_dictNextPower]; the doubling loop ends within 62 rounds. *)
Fixpoint next_power_loop (fuel : nat) (i size : Z) : option Z :=
  match fuel with
  | O => None
  | S fuel' => if size <=? i then Some i else next_power_loop fuel' (u64 (i * 2)) size
  end.

Definition _dictNextPower (size : Z) : option Z :=
  if LONG_MAX <=? size then Some (u64 (LONG_MAX + 1)) else next_power_loop 64 DICT_HT_INITIAL_SIZE size.

Section operations.
Context {K V : Type} (type : dictType K).
Implicit Types (d : dict K V) (ht : dictht) (he de : option dloc) (h : gmap dloc (dictEntry K V)).

Definition set_ht0 ht d : dict K V := mkDict ht (ht1 d) (rehashidx d) (iterators d) (entries d).
Definition set_ht1 ht d : dict K V := mkDict (ht0 d) ht (rehashidx d) (iterators d) (entries d).
Definition set_rehashidx i d : dict K V := mkDict (ht0 d) (ht1 d) i (iterators d) (entries d).
Definition set_iterators i d : dict K V := mkDict (ht0 d) (ht1 d) (rehashidx d) i (entries d).
Definition set_entries h d : dict K V := mkDict (ht0 d) (ht1 d) (rehashidx d) (iterators d) h.

Definition dictIsRehashing d : bool := negb (rehashidx d =? -1).
Definition dictSize d : Z := u64 (used (ht0 d) + used (ht1 d)).
Definition dictSlots d : Z := u64 (ht_size (ht0 d) + ht_size (ht1 d)).

(** One more step than there are entries is enough for any chain. *)
Definition chain_fuel d : nat := S (size (entries d)).

Definition set_next (l : dloc) (p : option dloc) h : option (gmap dloc (dictEntry K V)) :=
  e ← h !! l; Some (<[l := mkEntry (de_key e) (de_val e) p]> h).

(** [dictSetVal]. *)
Definition dictSetVal (l : dloc) (v : V) d : option (dict K V) :=
  e ← entries d !! l; Some (set_entries (<[l := mkEntry (de_key e) (Some v) (de_next e)]> (entries d)) d).

(** ** Creation and resizing *)

Definition _dictInit : dict K V := mkDict _dictReset _dictReset (-1) 0 ∅.

Definition dictCreate : dict K V := _dictInit.

(** The address of a new array: none of those in use. *)
Definition array_addr d : dloc :=
  fresh (elements (dom (entries d)) ++ option_list (b_addr <$> table (ht0 d)) ++ option_list (b_addr <$> table (ht1 d))).

Definition dictExpand (sz : Z) d : option (dict K V * Z) :=
  if dictIsRehashing d || (used (ht0 d) >? sz) then Some (d, DICT_ERR)
  else
    realsize ← _dictNextPower sz;
    if realsize =? ht_size (ht0 d) then Some (d, DICT_ERR)
    else
      (* zcalloc of realsize * 8 bytes *)
      let cells := replicate (Z.to_nat (u64 (realsize * 8) / 8)) None in
      let n := mkHt (Some (mkBuckets (array_addr d) cells)) realsize (u64 (realsize - 1)) 0 in
      match table (ht0 d) with
      | None => Some (set_ht0 n d, DICT_OK)
      | Some _ => Some (set_rehashidx 0 (set_ht1 n d), DICT_OK)
      end.

Definition dictResize (dict_can_resize : bool) d : option (dict K V * Z) :=
  if negb dict_can_resize || dictIsRehashing d then Some (d, DICT_ERR)
  else
    let minimal := if used (ht0 d) <? DICT_HT_INITIAL_SIZE then DICT_HT_INITIAL_SIZE else used (ht0 d) in
    dictExpand minimal d.

(** ** Rehashing *)

(** The loop over empty buckets: where it stops, how many visits are left,
    and whether the function returns because there are none left. *)
Fixpoint rehash_skip (fuel : nat) ht (idx empty_visits : Z) : option (Z * Z * bool) :=
  match fuel with
  | O => None
  | S fuel' =>
      p ← cell ht idx;
      match p with
      | Some _ => Some (idx, empty_visits, false)
      | None =>
          if empty_visits - 1 =? 0 then Some (idx + 1, empty_visits - 1, true)
          else rehash_skip fuel' ht (idx + 1) (empty_visits - 1)
      end
  end.

(** The loop that moves the chain from [de] to the second table. *)
Fixpoint rehash_move (fuel : nat) de d : option (dict K V) :=
  match de with
  | None => Some d
  | Some l =>
      match fuel with
      | O => None
      | S fuel' =>
          e ← entries d !! l;
          let nextde := de_next e in
          let h := Z.land (hashFunction type (de_key e)) (sizemask (ht1 d)) in
          first ← cell (ht1 d) h;
          es ← set_next l first (entries d);
          t1 ← set_cell h (Some l) (ht1 d);
          rehash_move fuel' nextde
            (set_entries es (set_ht1 (set_used (used t1 + 1) t1) (set_ht0 (set_used (used (ht0 d) - 1) (ht0 d)) d)))
      end
  end.

(** The outer loop; the boolean says that the function returns 1 from
    inside. *)
Fixpoint rehash_loop (n : nat) (empty_visits : Z) d : option (dict K V * bool) :=
  match n with
  | O => Some (d, false)
  | S n' =>
      if used (ht0 d) =? 0 then Some (d, false)
      else if negb (ht_size (ht0 d) >? u64 (rehashidx d)) then None
      else
        '(idx, empty_visits', stop) ← rehash_skip (S (Z.to_nat (ht_size (ht0 d)))) (ht0 d) (rehashidx d) empty_visits;
        if stop : bool then Some (set_rehashidx idx d, true)
        else
          de ← cell (ht0 d) idx;
          d' ← rehash_move (chain_fuel d) de (set_rehashidx idx d);
          t0 ← set_cell idx None (ht0 d');
          rehash_loop n' empty_visits' (set_rehashidx (idx + 1) (set_ht0 t0 d'))
  end.

(** [dictRehash]; the second component is the value returned.  The product is an
    [int]; the calls are with 1 and 100. *)
Definition dictRehash (n : nat) d : option (dict K V * Z) :=
  if negb (dictIsRehashing d) then Some (d, 0)
  else
    '(d, stop) ← rehash_loop n (Z.of_nat n * 10) d;
    if stop : bool then Some (d, 1)
    else if used (ht0 d) =? 0 then Some (set_rehashidx (-1) (set_ht1 _dictReset (set_ht0 (ht1 d) d)), 0)
    else Some (d, 1).

Definition _dictRehashStep d : option (dict K V) :=
  if iterators d =? 0 then fst <$> dictRehash 1 d else Some d.

(** [if (dictIsRehashing(d)) _dictRehashStep(d);] *)
Definition rehash_if d : option (dict K V) := if dictIsRehashing d then _dictRehashStep d else Some d.

(** ** Search *)

Fixpoint chain_find (fuel : nat) h (key : K) he : option (option dloc) :=
  match he with
  | None => Some None
  | Some l =>
      match fuel with
      | O => None
      | S fuel' =>
          e ← h !! l;
          if keyCompare type key (de_key e) then Some (Some l) else chain_find fuel' h key (de_next e)
      end
  end.

(** The search in one table. *)
Definition ht_find d ht (key : K) : option (option dloc) :=
  he ← cell ht (Z.land (hashFunction type key) (sizemask ht));
  chain_find (chain_fuel d) (entries d) key he.

Definition dictFind (key : K) d : option (dict K V * option dloc) :=
  if dictSize d =? 0 then Some (d, None)
  else
    d ← rehash_if d;
    r ← ht_find d (ht0 d) key;
    match r with
    | Some l => Some (d, Some l)
    | None => if negb (dictIsRehashing d) then Some (d, None) else r ← ht_find d (ht1 d) key; Some (d, r)
    end.

(** The value of an entry; reading one that was never set is a fault. *)
Definition dictGetVal d (l : dloc) : option V := e ← entries d !! l; de_val e.

Definition dictFetchValue (key : K) d : option (dict K V * option V) :=
  '(d, he) ← dictFind key d;
  match he with
  | Some l => v ← dictGetVal d l; Some (d, Some v)
  | None => Some (d, None)
  end.

(** ** Insertion *)

Definition _dictExpandIfNeeded (dict_can_resize : bool) d : option (dict K V * Z) :=
  if dictIsRehashing d then Some (d, DICT_OK)
  else if ht_size (ht0 d) =? 0 then dictExpand DICT_HT_INITIAL_SIZE d
  else if (ht_size (ht0 d) <=? used (ht0 d)) &&
          (dict_can_resize || (used (ht0 d) / ht_size (ht0 d) >? dict_force_resize_ratio))
  then dictExpand (u64 (used (ht0 d) * 2)) d
  else Some (d, DICT_OK).

(** [_dictKeyIndex]: the index, or -1, and the entry found. *)
Definition _dictKeyIndex (dict_can_resize : bool) (key : K) (hash : Z) d : option (dict K V * Z * option dloc) :=
  '(d, r) ← _dictExpandIfNeeded dict_can_resize d;
  if r =? DICT_ERR then Some (d, -1, None)
  else
    r ← ht_find d (ht0 d) key;
    match r with
    | Some l => Some (d, -1, Some l)
    | None =>
        if negb (dictIsRehashing d) then Some (d, Z.land hash (sizemask (ht0 d)), None)
        else
          r ← ht_find d (ht1 d) key;
          match r with
          | Some l => Some (d, -1, Some l)
          | None => Some (d, Z.land hash (sizemask (ht1 d)), None)
          end
    end.

(** The new entry in front of the chain at [index]. *)
Definition add_entry (index : Z) (key : K) d ht : option (dloc * dictht * gmap dloc (dictEntry K V)) :=
  first ← cell ht index;
  let l := fresh (dom (entries d)) in
  t ← set_cell index (Some l) ht;
  Some (l, set_used (used t + 1) t, <[l := mkEntry key None first]> (entries d)).

(** [dictAddRaw]: the new entry, or NULL and the existing one. *)
Definition dictAddRaw (dict_can_resize : bool) (key : K) d : option (dict K V * option dloc * option dloc) :=
  d ← rehash_if d;
  '(d, index, existing) ← _dictKeyIndex dict_can_resize key (hashFunction type key) d;
  if index =? -1 then Some (d, None, existing)
  else if dictIsRehashing d then
    '(l, t, es) ← add_entry index key d (ht1 d); Some (set_entries es (set_ht1 t d), Some l, None)
  else
    '(l, t, es) ← add_entry index key d (ht0 d); Some (set_entries es (set_ht0 t d), Some l, None).

Definition dictAdd (dict_can_resize : bool) (key : K) (val : V) d : option (dict K V * Z) :=
  '(d, entry, _) ← dictAddRaw dict_can_resize key d;
  match entry with
  | None => Some (d, DICT_ERR)
  | Some l => d ← dictSetVal l val d; Some (d, DICT_OK)
  end.

Definition dictReplace (dict_can_resize : bool) (key : K) (val : V) d : option (dict K V * Z) :=
  '(d, entry, existing) ← dictAddRaw dict_can_resize key d;
  match entry with
  | Some l => d ← dictSetVal l val d; Some (d, 1)
  | None => l ← existing; d ← dictSetVal l val d; Some (d, 0)
  end.

Definition dictAddOrFind (dict_can_resize : bool) (key : K) d : option (dict K V * option dloc) :=
  '(d, entry, existing) ← dictAddRaw dict_can_resize key d;
  Some (d, match entry with Some l => Some l | None => existing end).

(** ** Deletion *)

(** The walk along a chain with the previous entry. *)
Fixpoint chain_search (fuel : nat) h (key : K) (prevHe he : option dloc) : option (option (option dloc * dloc)) :=
  match he with
  | None => Some None
  | Some l =>
      match fuel with
      | O => None
      | S fuel' =>
          e ← h !! l;
          if keyCompare type key (de_key e) then Some (Some (prevHe, l)) else chain_search fuel' h key (Some l) (de_next e)
      end
  end.

(** The body of the loop over the tables: the table and the heap without the
    entry, and the entry, if it is in this table. *)
Definition ht_delete (nofree : bool) d ht (key : K) : option (option (dictht * gmap dloc (dictEntry K V) * dloc)) :=
  let idx := Z.land (hashFunction type key) (sizemask ht) in
  he ← cell ht idx;
  r ← chain_search (chain_fuel d) (entries d) key None he;
  match r with
  | None => Some None
  | Some (prevHe, l) =>
      e ← entries d !! l;
      '(t, es) ← match prevHe with
                 | Some p => es ← set_next p (de_next e) (entries d); Some (ht, es)
                 | None => t ← set_cell idx (de_next e) ht; Some (t, entries d)
                 end;
      let es := if nofree then es else delete l es in
      Some (Some (set_used (used t - 1) t, es, l))
  end.

Definition dictGenericDelete (key : K) (nofree : bool) d : option (dict K V * option dloc) :=
  if (used (ht0 d) =? 0) && (used (ht1 d) =? 0) then Some (d, None)
  else
    d ← rehash_if d;
    r ← ht_delete nofree d (ht0 d) key;
    match r with
    | Some (t, es, l) => Some (set_entries es (set_ht0 t d), Some l)
    | None =>
        if negb (dictIsRehashing d) then Some (d, None)
        else
          r ← ht_delete nofree d (ht1 d) key;
          match r with
          | Some (t, es, l) => Some (set_entries es (set_ht1 t d), Some l)
          | None => Some (d, None)
          end
    end.

Definition dictDelete (key : K) d : option (dict K V * Z) :=
  '(d, he) ← dictGenericDelete key false d;
  Some (d, match he with Some _ => DICT_OK | None => DICT_ERR end).

Definition dictUnlink (key : K) d : option (dict K V * option dloc) := dictGenericDelete key true d.

Definition dictFreeUnlinkedEntry he d : dict K V :=
  match he with
  | None => d
  | Some l => set_entries (delete l (entries d)) d
  end.

(** [_dictClear]: free the chain of a bucket, the buckets, the array. *)
Fixpoint clear_chain (fuel : nat) he (u : Z) h : option (Z * gmap dloc (dictEntry K V)) :=
  match he with
  | None => Some (u, h)
  | Some l =>
      match fuel with
      | O => None
      | S fuel' => e ← h !! l; clear_chain fuel' (de_next e) (u64 (u - 1)) (delete l h)
      end
  end.

Fixpoint clear_loop (fuel : nat) ht (i u : Z) h : option (gmap dloc (dictEntry K V)) :=
  if negb ((i <? ht_size ht) && (u >? 0)) then Some h
  else
    match fuel with
    | O => None
    | S fuel' =>
        he ← cell ht i;
        '(u, h) ← clear_chain (S (size h)) he u h;
        clear_loop fuel' ht (i + 1) u h
    end.

Definition _dictClear ht h : option (dictht * gmap dloc (dictEntry K V)) :=
  h ← clear_loop (Z.to_nat (ht_size ht)) ht 0 (used ht) h; Some (_dictReset, h).

Definition dictEmpty d : option (dict K V) :=
  '(t0, h) ← _dictClear (ht0 d) (entries d);
  '(t1, h) ← _dictClear (ht1 d) h;
  Some (mkDict t0 t1 (-1) 0 h).

(** [dictRelease]: the memory that is left. *)
Definition dictRelease d : option (gmap dloc (dictEntry K V)) :=
  '(_, h) ← _dictClear (ht0 d) (entries d);
  '(_, h) ← _dictClear (ht1 d) h;
  Some h.
End operations.
