(* ===== verification/DictRep.v ===== *)
(** * What a dictionary represents

    [dict_rep d m] says that the dictionary [d], with its two tables and its
    progress in rehashing, holds the finite map [m].  Keys that the type of
    the dictionary compares equal have the same canonical form. *)

From S2P Require Import Prelude.
From S2P Require Import Dict.

#[local] Open Scope Z_scope.

(** A step of the option monad whose value is known. *)
Ltac obind := cbn [mbind option_bind].

(** A value of type [unsigned long]. *)
Definition word (z : Z) : Prop := 0 ≤ z < 2 ^ 64.

Lemma u64_id z : 0 ≤ z < 2 ^ 64 → u64 z = z.
Proof. apply Z.mod_small. Qed.

(** A comparison of keys by a canonical form, which the hash depends on. *)
Class TypeLaws {K C} (type : dictType K) (canon : K → C) : Prop := {
  compare_canon a b : keyCompare type a b = true ↔ canon a = canon b;
  hash_canon a b : canon a = canon b → hashFunction type a = hashFunction type b
}.

(** ** Chains *)

Section chains.
Context {K V : Type}.
Implicit Types (h : gmap dloc (dictEntry K V)) (p : option dloc) (l : list dloc).

(** From [p] the [next] pointers go through [l] and end. *)
Fixpoint chain h p l : Prop :=
  match l with
  | [] => p = None
  | a :: l' => p = Some a ∧ ∃ e, h !! a = Some e ∧ chain h (de_next e) l'
  end.

(** Two heaps with the same [next] pointers along [l]. *)
Lemma chain_ext h h' p l :
  (∀ a e, a ∈ l → h !! a = Some e → ∃ e', h' !! a = Some e' ∧ de_next e' = de_next e) →
  chain h p l → chain h' p l.
Proof.
  revert p. induction l as [|a l IH]; intros p Hh; [done|]. intros [-> (e & He & Hc)]. split; [done|].
  destruct (Hh a e) as (e' & He' & Hn); [by left|done|]. exists e'. split; [done|]. rewrite Hn.
  apply IH; [|done]. intros. eapply Hh; [by right|done].
Qed.

Lemma chain_notin h p l a e : a ∉ l → chain h p l → chain (<[a:=e]> h) p l.
Proof.
  intros Ha. apply chain_ext. intros b f Hb Hf. exists f. rewrite lookup_insert_ne by set_solver. done.
Qed.

Lemma chain_delete h p l a : a ∉ l → chain h p l → chain (delete a h) p l.
Proof.
  intros Ha. apply chain_ext. intros b f Hb Hf. exists f. rewrite lookup_delete_ne by set_solver. done.
Qed.

Lemma chain_same_next h p l a e e' : h !! a = Some e → de_next e' = de_next e → chain h p l → chain (<[a:=e']> h) p l.
Proof.
  intros He Hn. apply chain_ext. intros b f Hb Hf. destruct (decide (a = b)) as [->|?].
  - rewrite lookup_insert_eq. exists e'. naive_solver.
  - rewrite lookup_insert_ne by done. naive_solver.
Qed.

Lemma chain_in h p l a : chain h p l → a ∈ l → ∃ e, h !! a = Some e.
Proof.
  revert p. induction l as [|b l IH]; intros p; [set_solver|]. intros [_ (e & He & Hc)] [->|Ha]%elem_of_cons; [by exists e|by eapply IH].
Qed.

Lemma chain_app h p l1 a l2 :
  chain h p (l1 ++ a :: l2) → ∃ e, h !! a = Some e ∧ chain h (de_next e) l2.
Proof.
  revert p. induction l1 as [|b l1 IH]; intros p; [intros [_ H]; done|]. intros [_ (e & He & Hc)]. by eapply IH.
Qed.

(** Taking an entry out of a chain. *)
Lemma chain_unlink h p l1 b a l2 e f :
  NoDup (l1 ++ b :: a :: l2) → chain h p (l1 ++ b :: a :: l2) → h !! b = Some f → h !! a = Some e →
  chain (<[b:=mkEntry (de_key f) (de_val f) (de_next e)]> h) p (l1 ++ b :: l2).
Proof.
  revert p. induction l1 as [|c l1 IH]; intros p; simpl.
  - intros [Hb Hnd]%NoDup_cons [-> (f' & Hf' & _ & e' & He' & Hc)] Hf He. split; [done|]. rewrite lookup_insert_eq. eexists. split; [done|].
    simpl. assert (e' = e) as -> by congruence. apply chain_notin; [set_solver|done].
  - intros [Hc Hnd]%NoDup_cons [-> (g & Hg & Hch)] Hf He. split; [done|]. exists g. split; [|by apply IH].
    rewrite lookup_insert_ne; [done|]. set_solver.
Qed.

(** Distinct entries of a heap are not more than its size. *)
Lemma chain_fuel_enough h p l : NoDup l → chain h p l → (length l ≤ size h)%nat.
Proof.
  intros Hnd Hc. rewrite <- (size_list_to_set (C := gset dloc) l) by done. rewrite <- size_dom. apply subseteq_size.
  intros a Ha%elem_of_list_to_set. destruct (chain_in _ _ _ _ Hc Ha) as [e He]. by eapply elem_of_dom_2.
Qed.
End chains.

(** ** Tables *)

Lemma concat_insert_bucket {A} (B : list (list A)) i b b' : B !! i = Some b → b ++ concat (<[i:=b']> B) ≡ₚ b' ++ concat B.
Proof.
  intros Hi. rewrite <- (take_drop_middle B i b Hi) at 2. rewrite insert_take_drop by (by eapply lookup_lt_Some).
  rewrite !concat_app. simpl. solve_Permutation.
Qed.

Lemma elem_of_concat {A} (B : list (list A)) a : a ∈ concat B ↔ ∃ i b, B !! i = Some b ∧ a ∈ b.
Proof.
  rewrite list_elem_of_In, in_concat. split.
  - intros (b & Hb & Ha). apply list_elem_of_In in Hb, Ha. apply list_elem_of_lookup in Hb as [i Hi]. by exists i, b.
  - intros (i & b & Hi & Ha). exists b. rewrite <- !list_elem_of_In. split; [by eapply list_elem_of_lookup_2|done].
Qed.

Lemma concat_nodup_bucket {A} (B : list (list A)) i b : NoDup (concat B) → B !! i = Some b → NoDup b.
Proof.
  intros Hnd Hi. rewrite <- (take_drop_middle B i b Hi) in Hnd. rewrite concat_app in Hnd. simpl in Hnd.
  apply NoDup_app in Hnd as (_ & _ & Hnd). by apply NoDup_app in Hnd as [? _].
Qed.

Lemma concat_unique {A} (B : list (list A)) i j b b' a :
  NoDup (concat B) → B !! i = Some b → B !! j = Some b' → a ∈ b → a ∈ b' → i = j.
Proof.
  revert i j. induction B as [|x B IH]; intros [|i] [|j]; simpl; try done; intros (_ & Hdis & Hnd)%NoDup_app Hi Hj Ha Ha'.
  - injection Hi as ->. exfalso. eapply Hdis; [done|]. apply elem_of_concat. eauto.
  - injection Hj as ->. exfalso. eapply Hdis; [done|]. apply elem_of_concat. eauto.
  - f_equal. by eapply IH.
Qed.

(** [_dictNextPower]: the least power of two from 4 on that is enough. *)
Lemma next_power_loop_spec fuel k size :
  2 ≤ k ≤ 63 → size ≤ 2 ^ 63 → 63 - k < Z.of_nat fuel → k = 2 ∨ 2 ^ (k - 1) < size →
  ∃ k', 2 ≤ k' ≤ 63 ∧ next_power_loop fuel (2 ^ k) size = Some (2 ^ k') ∧ size ≤ 2 ^ k' ∧ (k' = 2 ∨ 2 ^ (k' - 1) < size).
Proof.
  revert k. induction fuel as [|fuel IH]; intros k Hk Hs Hf Hlt; [lia|]. cbn [next_power_loop].
  destruct (Z.leb_spec size (2 ^ k)); [by exists k|]. assert (k ≠ 63) by (intros ->; lia).
  assert (2 ^ k * 2 = 2 ^ (k + 1)) as -> by (rewrite Z.pow_add_r; lia).
  pose proof (Z.pow_le_mono_r 2 (k + 1) 63). rewrite u64_id by lia.
  apply IH; [lia..|]. right. by replace (k + 1 - 1) with k by lia.
Qed.

Lemma next_power_spec sz :
  sz ≤ 2 ^ 62 → ∃ k, 2 ≤ k ≤ 62 ∧ _dictNextPower sz = Some (2 ^ k) ∧ sz ≤ 2 ^ k ∧ (k = 2 ∨ 2 ^ (k - 1) < sz).
Proof.
  intros Hs. unfold _dictNextPower, LONG_MAX. destruct (Z.leb_spec (2 ^ 63 - 1) sz); [lia|].
  change DICT_HT_INITIAL_SIZE with (2 ^ 2). destruct (next_power_loop_spec 64 2 sz) as (k & Hk & He & Hsz & Hlt); [lia..|].
  exists k. split; [|done]. split; [lia|]. destruct Hlt as [->|Hlt]; [lia|]. assert (¬ 62 < k); [|lia]. intros ?.
  pose proof (Z.pow_le_mono_r 2 62 (k - 1)). lia.
Qed.

Lemma set_cell_id ht i p : cell ht i = Some p → set_cell i p ht = Some ht.
Proof.
  unfold cell, set_cell. destruct ht as [[b|] sz mask u]; [|done]. obind. simpl. destruct (Z.ltb_spec i 0); [done|]. intros Hi.
  pose proof (lookup_lt_Some _ _ _ Hi). destruct (Z.leb_spec 0 i), (Z.ltb_spec i (Z.of_nat (length (b_cells b)))); try lia. simpl.
  rewrite list_insert_id by done. by destruct b.
Qed.

Section tables.
Context {K V : Type} (type : dictType K).
Implicit Types (h : gmap dloc (dictEntry K V)) (ht : dictht) (B : list (list dloc)).

(** A table that is in use: one chain for each cell, each entry in the
    bucket that the low bits of its hash select. *)
Record table_rep h ht B : Prop := {
  tr_cells : ∃ b, table ht = Some b ∧ Forall2 (chain h) (b_cells b) B;
  tr_size : ht_size ht = Z.of_nat (length B);
  tr_pow : ∃ k, 2 ≤ k ≤ 60 ∧ ht_size ht = 2 ^ k;
  tr_mask : sizemask ht = ht_size ht - 1;
  tr_used : used ht = Z.of_nat (length (concat B));
  tr_place i b a e :
    B !! i = Some b → a ∈ b → h !! a = Some e → Z.land (hashFunction type (de_key e)) (sizemask ht) = Z.of_nat i
}.

(** The index of a hash is inside the table. *)
Lemma index_range h ht B x : table_rep h ht B → 0 ≤ Z.land x (sizemask ht) < ht_size ht.
Proof.
  intros T. destruct (tr_pow _ _ _ T) as (k & Hk & Hs). rewrite (tr_mask _ _ _ T), Hs, Z.sub_1_r, <- Z.ones_equiv, Z.land_ones by lia.
  apply Z.mod_pos_bound. lia.
Qed.

Lemma table_cell h ht B i :
  table_rep h ht B → 0 ≤ i < ht_size ht → ∃ p b, cell ht i = Some p ∧ B !! Z.to_nat i = Some b ∧ chain h p b.
Proof.
  intros T Hi. destruct (tr_cells _ _ _ T) as (bk & Hb & Hc). pose proof (tr_size _ _ _ T).
  destruct (lookup_lt_is_Some_2 B (Z.to_nat i)) as [b Hl]; [lia|].
  destruct (Forall2_lookup_r _ _ _ _ _ Hc Hl) as (p & Hp & Hch). exists p, b. split_and!; [|done..].
  unfold cell. rewrite Hb. simpl. by destruct (Z.ltb_spec i 0); [lia|].
Qed.

(** Changing one cell and the heap outside the other chains. *)
Lemma table_set h h' ht B i p b n :
  table_rep h ht B → 0 ≤ i < ht_size ht → chain h' p b →
  (∀ j b', B !! j = Some b' → j ≠ Z.to_nat i → ∀ q, chain h q b' → chain h' q b') →
  (∀ j b' a e, <[Z.to_nat i:=b]> B !! j = Some b' → a ∈ b' → h' !! a = Some e →
    Z.land (hashFunction type (de_key e)) (sizemask ht) = Z.of_nat j) →
  0 ≤ n < 2 ^ 64 → n = Z.of_nat (length (concat (<[Z.to_nat i:=b]> B))) →
  ∃ t, set_cell i p ht = Some t ∧ used t = used ht ∧ table_rep h' (set_used n t) (<[Z.to_nat i:=b]> B) ∧
    ht_size t = ht_size ht ∧ sizemask t = sizemask ht.
Proof.
  intros T Hi Hp Hoth Hpl Hn Hlen. destruct (tr_cells _ _ _ T) as (bk & Hb & Hc).
  pose proof (tr_size _ _ _ T). pose proof (Forall2_length _ _ _ Hc).
  eexists. split; [unfold set_cell; rewrite Hb; simpl; by destruct (Z.leb_spec 0 i), (Z.ltb_spec i (Z.of_nat (length (b_cells bk)))); try lia|].
  split; [done|]. split; [|done]. constructor; simpl.
  - eexists. split; [done|]. apply Forall2_same_length_lookup_2; [simpl; by rewrite !length_insert|]; simpl. intros j q b'.
    destruct (decide (j = Z.to_nat i)) as [->|Hj].
    + rewrite !list_lookup_insert_eq by lia. naive_solver.
    + rewrite !list_lookup_insert_ne by done. intros Hq Hb'. eapply Hoth; [done..|]. by eapply Forall2_lookup_lr.
  - by rewrite length_insert.
  - apply T.
  - apply T.
  - by rewrite u64_id.
  - done.
Qed.

(** A table depends on the keys and pointers of its own entries only. *)
Lemma table_ext h h' ht B :
  (∀ a e, a ∈ concat B → h !! a = Some e → ∃ e', h' !! a = Some e' ∧ de_next e' = de_next e ∧ de_key e' = de_key e) →
  table_rep h ht B → table_rep h' ht B.
Proof.
  intros Hh [(bk & Hb & Hc) ? ? ? ? Hpl]. constructor; try done.
  - exists bk. split; [done|]. apply Forall2_same_length_lookup in Hc as [Hl Hc]. apply Forall2_same_length_lookup_2; [done|].
    intros i p b Hp Hi. apply (chain_ext h); [|by eapply Hc]. intros a e Ha He.
    destruct (Hh a e) as (e' & ? & ? & _); [apply elem_of_concat; eauto|done|eauto].
  - intros i b a e' Hi Ha He'. destruct (Forall2_lookup_r _ _ _ _ _ Hc Hi) as (p & _ & Hch).
    destruct (chain_in _ _ _ _ Hch Ha) as [e He]. destruct (Hh a e) as (e2 & He2 & _ & Hk); [apply elem_of_concat; eauto|done|].
    assert (e2 = e') as -> by congruence. rewrite Hk. by eapply Hpl.
Qed.

Lemma table_in h ht B a : table_rep h ht B → a ∈ concat B → ∃ e, h !! a = Some e.
Proof.
  intros T (i & b & Hi & Ha)%elem_of_concat. destruct (tr_cells _ _ _ T) as (bk & _ & Hc).
  destruct (Forall2_lookup_r _ _ _ _ _ Hc Hi) as (p & _ & Hch). by eapply chain_in.
Qed.

Lemma concat_replicate_nil {A} n : concat (replicate n ([] : list A)) = [].
Proof. by induction n. Qed.

Lemma table_new h addr k :
  2 ≤ k ≤ 60 →
  table_rep h (mkHt (Some (mkBuckets addr (replicate (Z.to_nat (u64 (2 ^ k * 8) / 8)) None))) (2 ^ k) (u64 (2 ^ k - 1)) 0)
    (replicate (Z.to_nat (2 ^ k)) []).
Proof.
  intros Hk. pose proof (Z.pow_le_mono_r 2 k 60). rewrite !u64_id by lia. rewrite Z.div_mul by done. constructor; cbn [table ht_size sizemask used b_cells].
  - eexists. split; [done|]. cbn [b_cells]. apply Forall2_same_length_lookup_2; [by rewrite !length_replicate|].
    intros i p b [-> _]%lookup_replicate [-> _]%lookup_replicate. done.
  - rewrite length_replicate. lia.
  - by exists k.
  - done.
  - by rewrite concat_replicate_nil.
  - intros i b a e [-> _]%lookup_replicate Ha. by apply not_elem_of_nil in Ha.
Qed.

(** A new first entry of a bucket. *)
Lemma table_push h ht B a key v :
  let i := Z.land (hashFunction type key) (sizemask ht) in
  table_rep h ht B → a ∉ concat B → used ht + 1 < 2 ^ 64 →
  ∃ p t B', cell ht i = Some p ∧ set_cell i (Some a) ht = Some t ∧
    table_rep (<[a:=mkEntry key v p]> h) (set_used (used t + 1) t) B' ∧ concat B' ≡ₚ a :: concat B ∧
    length B' = length B ∧ ht_size t = ht_size ht ∧ sizemask t = sizemask ht.
Proof.
  intros i T Ha Hu. pose proof (index_range _ _ _ (hashFunction type key) T) as Hi. fold i in Hi.
  destruct (table_cell _ _ _ _ T Hi) as (p & b & Hp & Hb & Hch).
  pose proof (concat_insert_bucket B _ b (a :: b) Hb) as Hperm. simpl in Hperm.
  assert (concat (<[Z.to_nat i:=a :: b]> B) ≡ₚ a :: concat B) as Hc.
  { apply (Permutation_app_inv_l b). rewrite Hperm. solve_Permutation. }
  assert (a ∉ b) as Hab by (intros ?; apply Ha, elem_of_concat; eauto).
  destruct (table_set h (<[a:=mkEntry key v p]> h) ht B i (Some a) (a :: b) (used ht + 1)) as (t & Ht & Hut & T' & Hs & Hm); try done.
  - split; [done|]. eexists. rewrite lookup_insert_eq. split; [done|]. by apply chain_notin.
  - intros j b' Hj _ q. apply chain_notin. intros ?. apply Ha, elem_of_concat. eauto.
  - intros j b' c e Hj Hc' He. apply list_lookup_insert_Some in Hj as [(<- & <- & _)|[Hne Hj]].
    + destruct (decide (c = a)) as [->|Hca].
      * rewrite lookup_insert_eq in He. injection He as <-. simpl. fold i. lia.
      * rewrite lookup_insert_ne in He by done. apply elem_of_cons in Hc' as [?|Hc']; [done|]. by eapply tr_place.
    + rewrite lookup_insert_ne in He; [by eapply tr_place|]. intros ->. apply Ha, elem_of_concat. eauto.
  - pose proof (tr_used _ _ _ T). lia.
  - rewrite Hc. pose proof (tr_used _ _ _ T). simpl. lia.
  - exists p, t, (<[Z.to_nat i:=a :: b]> B). rewrite Hut. split_and!; try done. by rewrite length_insert.
Qed.
End tables.

(** ** Contents *)

Section contents.
Context {K V C : Type} `{Countable C} (canon : K → C).
Implicit Types (h : gmap dloc (dictEntry K V)) (l : list dloc) (m : gmap C (K * option V)).

Definition kv (e : dictEntry K V) : C * (K * option V) := (canon (de_key e), (de_key e, de_val e)).

(** The entries at the addresses [l] have different keys and make up [m]. *)
Definition holds h l m : Prop :=
  ∃ L, Forall2 (λ a p, kv <$> h !! a = Some p) l L ∧ NoDup L.*1 ∧ m = list_to_map L.

(** The same keys and values at the same addresses. *)
Definition same_data h h' : Prop := ∀ a, kv <$> h !! a = kv <$> h' !! a.

#[global] Instance same_data_equiv : Equivalence same_data.
Proof using Type. split; [done|intros ? ? Hs a; by rewrite Hs|intros ? ? ? Hs Hs' a; by rewrite Hs, Hs']. Qed.

Lemma same_data_entry h h' a e : same_data h h' → h !! a = Some e → ∃ e', h' !! a = Some e' ∧ de_key e' = de_key e ∧ de_val e' = de_val e.
Proof using Type. intros Hs He. specialize (Hs a). rewrite He in Hs. destruct (h' !! a) as [e'|]; [|done]. exists e'. unfold kv in Hs. naive_solver. Qed.

Lemma same_data_next h a e p : h !! a = Some e → same_data h (<[a:=mkEntry (de_key e) (de_val e) p]> h).
Proof using Type. intros He b. destruct (decide (a = b)) as [->|?]; [by rewrite lookup_insert_eq, He|by rewrite lookup_insert_ne]. Qed.

Lemma holds_perm h l l' m : l ≡ₚ l' → holds h l m → holds h l' m.
Proof.
  intros Hl (L & HF & Hnd & ->). destruct (Permutation_Forall2 Hl HF) as (L' & HL & HF').
  exists L'. split; [done|]. split; [by rewrite <- HL|]. by apply list_to_map_proper.
Qed.

Lemma holds_ext h h' l m : (∀ a, a ∈ l → kv <$> h !! a = kv <$> h' !! a) → holds h l m → holds h' l m.
Proof.
  intros Hs (L & HF & Hnd & ->). exists L. split; [|done]. apply Forall2_same_length_lookup in HF as [Hl HF].
  apply Forall2_same_length_lookup_2; [done|]. intros i a p Ha Hp. rewrite <- Hs by (by eapply list_elem_of_lookup_2). by eapply HF.
Qed.

Lemma holds_size h l m : holds h l m → size m = length l.
Proof. intros (L & HF & Hnd & ->). rewrite map_size_list_to_map by done. symmetry. by eapply Forall2_length. Qed.

Lemma holds_nil h m : holds h [] m ↔ m = ∅.
Proof.
  split.
  - by intros (L & ->%Forall2_nil_inv_l & _ & ->).
  - intros ->. exists []. split_and!; [constructor|constructor|done].
Qed.

(** The first entry apart. *)
Lemma holds_cons h a l m :
  holds h (a :: l) m ↔ ∃ e m', h !! a = Some e ∧ m' !! canon (de_key e) = None ∧
    m = <[canon (de_key e) := (de_key e, de_val e)]> m' ∧ holds h l m'.
Proof.
  split.
  - intros (L & HF & Hnd & ->). apply Forall2_cons_inv_l in HF as ([c x] & L' & (e & He & [= -> ->])%fmap_Some & HF & ->).
    simpl in Hnd. apply NoDup_cons in Hnd as [Hni Hnd]. exists e, (list_to_map L'). split_and!; [done| |done|by exists L'].
    by apply not_elem_of_list_to_map_1.
  - intros (e & m' & He & Hn & -> & L & HF & Hnd & ->). exists (kv e :: L). split_and!.
    + constructor; [by rewrite He|done].
    + simpl. constructor; [by apply not_elem_of_list_to_map_2|done].
    + done.
Qed.

(** A key is in the map when an entry has it. *)
Lemma holds_lookup h l m c x :
  holds h l m → m !! c = Some x ↔ ∃ a e, a ∈ l ∧ h !! a = Some e ∧ canon (de_key e) = c ∧ x = (de_key e, de_val e).
Proof.
  intros (L & HF & Hnd & ->). rewrite <- elem_of_list_to_map by done. split.
  - intros (i & Hi)%list_elem_of_lookup. destruct (Forall2_lookup_r _ _ _ _ _ HF Hi) as (a & Ha & (e & He & [= -> ->])%fmap_Some).
    exists a, e. split_and!; try done. by eapply list_elem_of_lookup_2.
  - intros (a & e & (i & Hi)%list_elem_of_lookup & He & <- & ->). destruct (Forall2_lookup_l _ _ _ _ _ HF Hi) as (p & Hp & Heq).
    rewrite He in Heq. injection Heq as <-. by eapply list_elem_of_lookup_2.
Qed.
End contents.

(** ** Rehashing *)

Section rehash.
Context {K V C : Type} (type : dictType K) (canon : K → C).
Implicit Types (d : dict K V) (B : list (list dloc)) (h : gmap dloc (dictEntry K V)).

Abbreviation table_rep := (table_rep type).
Abbreviation same_data := (same_data canon).

Lemma rehash_skip_spec fuel h ht B idx ev j b :
  table_rep h ht B → B !! j = Some b → b ≠ [] → 0 ≤ idx ≤ Z.of_nat j → 0 < ev → (S j - Z.to_nat idx < fuel)%nat →
  (∀ i, (i < Z.to_nat idx)%nat → B !! i = Some []) →
  ∃ idx' ev' stop, rehash_skip fuel ht idx ev = Some (idx', ev', stop) ∧ idx ≤ idx' ≤ Z.of_nat (length B) ∧
    (∀ i, (i < Z.to_nat idx')%nat → B !! i = Some []) ∧
    if stop : bool then idx < idx' else 0 < ev' ∧ idx' < ht_size ht.
Proof.
  intros T Hj Hb. revert idx ev. induction fuel as [|fuel IH]; intros idx ev Hidx Hev Hf Hemp; [lia|].
  pose proof (lookup_lt_Some _ _ _ Hj). pose proof (tr_size _ _ _ _ T).
  destruct (table_cell type _ _ _ idx T) as (p & b' & Hp & Hb' & Hch); [lia|]. simpl. rewrite Hp. simpl.
  destruct p as [a|].
  { exists idx, ev, false. split_and!; try done; lia. }
  assert (b' = []) as -> by (destruct b'; [done|by destruct Hch]).
  assert (idx ≠ Z.of_nat j) by (intros ->; rewrite Nat2Z.id in Hb'; congruence).
  assert (∀ i, (i < Z.to_nat (idx + 1))%nat → B !! i = Some []) as Hemp'.
  { intros i Hi. destruct (decide (i = Z.to_nat idx)) as [->|?]; [done|apply Hemp; lia]. }
  destruct (Z.eqb_spec (ev - 1) 0).
  { exists (idx + 1), (ev - 1), true. split_and!; try done; lia. }
  destruct (IH (idx + 1) (ev - 1)) as (idx' & ev' & stop & Hs & Hr & He & Hst); [lia..|done|].
  exists idx', ev', stop. split_and!; try done; try lia. destruct stop; [lia|done].
Qed.

(** Moving a chain keeps keys and values, and every [next] pointer outside
    it. *)
Lemma rehash_move_spec fuel rest de d B1 :
  chain (entries d) de rest → table_rep (entries d) (ht1 d) B1 → NoDup (rest ++ concat B1) → (length rest ≤ fuel)%nat →
  Z.of_nat (length rest) ≤ used (ht0 d) < 2 ^ 64 → Z.of_nat (length rest) + used (ht1 d) < 2 ^ 64 →
  ∃ d' B1', rehash_move type fuel de d = Some d' ∧ table_rep (entries d') (ht1 d') B1' ∧ concat B1' ≡ₚ rest ++ concat B1 ∧
    ht0 d' = mkHt (table (ht0 d)) (ht_size (ht0 d)) (sizemask (ht0 d)) (used (ht0 d) - Z.of_nat (length rest)) ∧
    rehashidx d' = rehashidx d ∧ iterators d' = iterators d ∧ same_data (entries d) (entries d') ∧
    ∀ a, a ∉ rest → entries d' !! a = entries d !! a.
Proof.
  revert de d B1 fuel. induction rest as [|a rest IH]; intros de d B1 fuel Hch T Hnd Hf Hu0 Hu1; simpl in *.
  { subst de. exists d, B1. rewrite Z.sub_0_r. destruct fuel; (split_and!; [try done..]; by destruct (ht0 d)). }
  destruct Hch as [-> (e & He & Hch)]. destruct fuel as [|fuel]; [lia|]. simpl. rewrite He. simpl.
  apply NoDup_cons in Hnd as [Ha Hnd]. rewrite elem_of_app in Ha.
  destruct (table_push type _ _ _ a (de_key e) (de_val e) T) as (p & t & B' & Hp & Ht & T' & HB' & _); [set_solver|lia|].
  rewrite Hp. simpl. unfold set_next. rewrite He. simpl. rewrite Ht. simpl.
  edestruct (IH (de_next e) (set_entries (<[a:=mkEntry (de_key e) (de_val e) p]> (entries d))
    (set_ht1 (set_used (used t + 1) t) (set_ht0 (set_used (used (ht0 d) - 1) (ht0 d)) d))) B' fuel)
    as (d' & B1' & Hd & T1 & HB1 & H0 & Hr & Hi & Hs & Hout); simpl.
  - apply chain_notin; [set_solver|done].
  - done.
  - rewrite HB'. apply NoDup_app in Hnd as (? & ? & ?). apply NoDup_app. split_and!; [done|set_solver|]. constructor; set_solver.
  - lia.
  - rewrite u64_id; lia.
  - pose proof (tr_used _ _ _ _ T'). pose proof (tr_used _ _ _ _ T). rewrite HB' in H. simpl in *. lia.
  - exists d', B1'. simpl in *. split_and!; try done.
    + rewrite HB1, HB'. solve_Permutation.
    + rewrite H0, u64_id by lia. f_equal. lia.
    + etrans; [|exact Hs]. by apply same_data_next.
    + intros b Hb. rewrite Hout by set_solver. apply lookup_insert_ne. set_solver.
Qed.

(** A dictionary that is rehashing from the table with the chains [B0] to
    the one with the chains [B1]. *)
Record two d B0 B1 : Prop := {
  tw_t0 : table_rep (entries d) (ht0 d) B0;
  tw_t1 : table_rep (entries d) (ht1 d) B1;
  tw_nodup : NoDup (concat B0 ++ concat B1);
  tw_idx : 0 ≤ rehashidx d ≤ Z.of_nat (length B0);
  tw_empty i : (i < Z.to_nat (rehashidx d))%nat → B0 !! i = Some []
}.

Lemma set_cell_used i p ht t u :
  set_cell i p ht = Some t →
  set_cell i p (mkHt (table ht) (ht_size ht) (sizemask ht) u) = Some (mkHt (table t) (ht_size t) (sizemask t) u).
Proof. unfold set_cell. simpl. destruct (table ht); [|done]. simpl. case_match; [|done]. by intros [= <-]. Qed.

(** One round of the outer loop: a bucket changes tables. *)
Lemma rehash_bucket d B0 B1 idx :
  two d B0 B1 → Z.of_nat (length (concat B0 ++ concat B1)) < 2 ^ 62 → rehashidx d ≤ idx < ht_size (ht0 d) →
  (∀ i, (i < Z.to_nat idx)%nat → B0 !! i = Some []) →
  ∃ de d' t0 B0' B1', cell (ht0 d) idx = Some de ∧ rehash_move type (chain_fuel d) de (set_rehashidx idx d) = Some d' ∧
    set_cell idx None (ht0 d') = Some t0 ∧ two (set_rehashidx (idx + 1) (set_ht0 t0 d')) B0' B1' ∧
    concat B0' ++ concat B1' ≡ₚ concat B0 ++ concat B1 ∧ length B0' = length B0 ∧
    same_data (entries d) (entries d') ∧ iterators d' = iterators d.
Proof.
  intros [T0 T1 Hnd Hidx Hemp0] Hlen Hi Hemp. rewrite length_app in Hlen.
  destruct (table_cell type _ _ _ idx T0) as (de & b & Hde & Hb & Hch); [lia|].
  pose proof (concat_insert_bucket B0 _ b [] Hb) as Hperm. simpl in Hperm.
  pose proof Hnd as Hnd'. rewrite <- Hperm, <- app_assoc in Hnd'.
  apply NoDup_app in Hnd as (Hnd0 & Hdis & _). pose proof (concat_nodup_bucket _ _ _ Hnd0 Hb) as Hndb.
  assert (length b ≤ length (concat B0))%nat as Hbl by (rewrite <- Hperm, length_app; lia).
  pose proof (tr_used _ _ _ _ T0) as Hu0. pose proof (tr_used _ _ _ _ T1) as Hu1.
  destruct (rehash_move_spec (chain_fuel d) b de (set_rehashidx idx d) B1)
    as (d' & B1' & Hd & T1' & HB1 & H0 & Hr & Hit & Hs & Hout); simpl in *; try done; try lia.
  { apply NoDup_app in Hnd' as (? & Hx & (_ & _ & ?)%NoDup_app). apply NoDup_app. split_and!; try done.
    intros a Ha Ha'. eapply Hx; [done|]. apply elem_of_app. by right. }
  { unfold chain_fuel. pose proof (chain_fuel_enough _ _ _ Hndb Hch). lia. }
  destruct (table_set type (entries d) (entries d') (ht0 d) B0 idx None [] (used (ht0 d) - Z.of_nat (length b)))
    as (t & Ht & _ & T0' & Hsz & Hm); try done; try lia.
  { intros j b' Hj Hne q. apply chain_ext. intros a e Ha He. exists e. rewrite Hout; [done|]. intros Hab.
    apply NoDup_app in Hnd' as (_ & Hx & _). apply (Hx a Hab). apply elem_of_app. left. apply elem_of_concat.
    exists j, b'. by rewrite list_lookup_insert_ne. }
  { intros j b' a e Hj Ha He. apply list_lookup_insert_Some in Hj as [(<- & <- & _)|[Hne Hj]]; [set_solver|].
    symmetry in Hs. destruct (same_data_entry canon _ _ _ _ Hs He) as (e' & He' & <- & _). by eapply tr_place. }
  { pose proof (Permutation_length Hperm) as Hl. rewrite length_app in Hl. lia. }
  exists de, d', (mkHt (table t) (ht_size t) (sizemask t) (used (ht0 d) - Z.of_nat (length b))), (<[Z.to_nat idx:=[]]> B0), B1'.
  split_and!; try done.
  - rewrite H0. by apply set_cell_used.
  - pose proof (tr_size _ _ _ _ T0). constructor; simpl.
    + unfold set_used in T0'. by rewrite u64_id in T0' by lia.
    + done.
    + by rewrite HB1, Permutation_app_swap_app.
    + rewrite length_insert. lia.
    + intros i Hi'. destruct (decide (i = Z.to_nat idx)) as [->|?].
      * apply list_lookup_insert_eq. lia.
      * rewrite list_lookup_insert_ne by done. apply Hemp. lia.
  - rewrite HB1, <- Hperm. solve_Permutation.
  - by rewrite length_insert.
Qed.

(** An old table with entries left has a bucket to move. *)
Lemma bucket_left d B0 B1 :
  two d B0 B1 → used (ht0 d) ≠ 0 →
  ∃ j b, B0 !! j = Some b ∧ b ≠ [] ∧ rehashidx d ≤ Z.of_nat j < ht_size (ht0 d).
Proof.
  intros [T0 T1 Hnd Hidx Hemp] Hu. rewrite (tr_used _ _ _ _ T0) in Hu. destruct (concat B0) as [|a l] eqn:Hc; [done|].
  destruct (proj1 (elem_of_concat B0 a)) as (j & b & Hj & Ha); [rewrite Hc; by left|]. exists j, b. split; [done|].
  assert (b ≠ []) as Hb by (by intros ->; apply not_elem_of_nil in Ha). split; [done|].
  pose proof (lookup_lt_Some _ _ _ Hj). rewrite (tr_size _ _ _ _ T0). split; [|lia].
  destruct (decide (rehashidx d ≤ Z.of_nat j)); [done|]. rewrite Hemp in Hj by lia. congruence.
Qed.

Lemma rehash_loop_spec n ev d B0 B1 :
  two d B0 B1 → Z.of_nat (length (concat B0 ++ concat B1)) < 2 ^ 62 → 0 < ev ∨ n = 0%nat →
  ∃ d' stop B0' B1', rehash_loop type n ev d = Some (d', stop) ∧ two d' B0' B1' ∧
    concat B0' ++ concat B1' ≡ₚ concat B0 ++ concat B1 ∧ length B0' = length B0 ∧ same_data (entries d) (entries d') ∧
    iterators d' = iterators d ∧ rehashidx d ≤ rehashidx d' ∧ (n ≠ 0%nat → used (ht0 d) ≠ 0 → rehashidx d < rehashidx d') ∧
    (stop = true → used (ht0 d) ≠ 0) ∧ (used (ht0 d) = 0 → d' = d).
Proof.
  revert ev d B0 B1. induction n as [|n IH]; intros ev d B0 B1 W Hlen Hev; cbn [rehash_loop].
  { exists d, false, B0, B1. split_and!; done. }
  destruct (Z.eqb_spec (used (ht0 d)) 0) as [Hu|Hu].
  { exists d, false, B0, B1. split_and!; done. }
  destruct (bucket_left _ _ _ W Hu) as (j & b & Hj & Hb & Hjr). destruct (tr_pow _ _ _ _ (tw_t0 _ _ _ W)) as (k & Hk & Hsk).
  pose proof (Z.pow_le_mono_r 2 k 60). pose proof (tw_idx _ _ _ W). pose proof (tr_size _ _ _ _ (tw_t0 _ _ _ W)).
  rewrite u64_id by lia. rewrite Z.gtb_ltb. destruct (Z.ltb_spec (rehashidx d) (ht_size (ht0 d))); [|lia]. cbn [negb].
  destruct (rehash_skip_spec (S (Z.to_nat (ht_size (ht0 d)))) _ _ _ (rehashidx d) ev j b (tw_t0 _ _ _ W))
    as (idx & ev' & stop & -> & Hidx & Hemp & Hst); try done; [lia..|by apply W|].
  obind. destruct stop.
  { exists (set_rehashidx idx d), true, B0, B1. split_and!; try done; try (simpl; lia).
    destruct W as [T0 T1 Hnd _ _]. constructor; simpl; try done. lia. }
  destruct (rehash_bucket _ _ _ idx W) as (de & d1 & t0 & B0' & B1' & -> & Hmv & Hset & W' & Hp & Hl & Hs & Hit); [done|lia|done|].
  obind. rewrite Hmv. obind. rewrite Hset. obind.
  destruct (IH ev' _ _ _ W') as (d' & stop & B0'' & B1'' & -> & W'' & Hp' & Hl' & Hs' & Hit' & Hr' & _ & Hu' & _); [by rewrite Hp|lia|].
  simpl in *. exists d', stop, B0'', B1''. split_and!; try done; try lia; try congruence.
  by etrans.
Qed.
End rehash.

(** ** Dictionaries *)

Section rep.
Context {K V C : Type} `{Countable C} (type : dictType K) (canon : K → C).
Implicit Types (d : dict K V) (m : gmap C (K * option V)) (h : gmap dloc (dictEntry K V)).

(** Not used yet, with one table, or rehashing. *)
Inductive shape d : list (list dloc) → list (list dloc) → Prop :=
| shape_none : rehashidx d = -1 → ht0 d = _dictReset → ht1 d = _dictReset → shape d [] []
| shape_one B : rehashidx d = -1 → table_rep type (entries d) (ht0 d) B → ht1 d = _dictReset → NoDup (concat B) → shape d B []
| shape_two B0 B1 : two type d B0 B1 → shape d B0 B1.

Definition dict_rep d m : Prop :=
  ∃ B0 B1, shape d B0 B1 ∧ holds canon (entries d) (concat B0 ++ concat B1) m ∧ word (iterators d).

(** A bound on the number of entries that keeps every size below 2^61; the
    memory of the server ends long before. *)
Definition bounded m : Prop := Z.of_nat (size m) < 2 ^ 58.

Lemma rehashing_two d B0 B1 : two type d B0 B1 → dictIsRehashing d = true.
Proof using Type. intros W. unfold dictIsRehashing. pose proof (tw_idx _ _ _ _ W). by destruct (Z.eqb_spec (rehashidx d) (-1)); [lia|]. Qed.

Lemma rehashing_false d : rehashidx d = -1 → dictIsRehashing d = false.
Proof using Type. unfold dictIsRehashing. by intros ->. Qed.

Lemma dictRehash_spec n d m :
  dict_rep d m → bounded m →
  ∃ d' r, dictRehash type n d = Some (d', r) ∧ dict_rep d' m ∧ iterators d' = iterators d ∧ same_data canon (entries d) (entries d') ∧
    (r = 0 ↔ dictIsRehashing d' = false) ∧
    (dictIsRehashing d = true → r ≠ 0 → ht_size (ht0 d') = ht_size (ht0 d) ∧ rehashidx d ≤ rehashidx d' ≤ ht_size (ht0 d) ∧
      (n ≠ 0%nat → rehashidx d < rehashidx d')).
Proof.
  intros R Hbd. unfold dictRehash. destruct (decide (rehashidx d = -1)) as [Hr|Hr].
  { rewrite rehashing_false by done. exists d, 0. split_and!; try done. by rewrite rehashing_false. }
  destruct R as (B0 & B1 & Hsh & Hh & Hit). pose proof (holds_size _ _ _ _ Hh) as Hsz. unfold bounded in Hbd.
  destruct Hsh as [?|?|B0 B1 W]; [done..|]. rewrite (rehashing_two _ _ _ W). cbn [negb].
  destruct (rehash_loop_spec type canon n (Z.of_nat n * 10) d B0 B1 W)
    as (d' & stop & B0' & B1' & -> & W' & Hp & Hl & Hs & Hit' & Hle & Hlt & Hst & Hz); [lia..|].
  obind. pose proof (tr_size _ _ _ _ (tw_t0 _ _ _ _ W)). pose proof (tr_size _ _ _ _ (tw_t0 _ _ _ _ W')).
  pose proof (tw_idx _ _ _ _ W').
  assert (holds canon (entries d') (concat B0' ++ concat B1') m) as Hh'.
  { eapply holds_perm; [symmetry; exact Hp|]. eapply holds_ext; [|exact Hh]. intros a _. apply Hs. }
  assert (dict_rep d' m) as R' by (exists B0', B1'; split_and!; [by constructor|done|by rewrite Hit']).
  destruct stop.
  { exists d', 1. split_and!; try done; [by rewrite (rehashing_two _ _ _ W')|]. intros _ _. split_and!; lia. }
  destruct (Z.eqb_spec (used (ht0 d')) 0) as [Hu|Hu].
  - eexists _, 0. split_and!; try done. exists B1', []. simpl. rewrite app_nil_r.
    assert (concat B0' = []) as Hc. { apply nil_length_inv. pose proof (tr_used _ _ _ _ (tw_t0 _ _ _ _ W')). lia. }
    rewrite Hc in *. split_and!; [|done|by rewrite Hit']. apply shape_one; try done; [apply W'|].
    pose proof (tw_nodup _ _ _ _ W') as Hnd. by rewrite Hc in Hnd.
  - exists d', 1. split_and!; try done; [by rewrite (rehashing_two _ _ _ W')|]. intros _ _. split_and!; try lia.
    intros Hn. apply Hlt; [done|]. intros Hu'. by rewrite Hz in Hu.
Qed.

Lemma rehash_if_spec d m :
  dict_rep d m → bounded m →
  ∃ d', rehash_if type d = Some d' ∧ dict_rep d' m ∧ iterators d' = iterators d ∧ same_data canon (entries d) (entries d').
Proof.
  intros R Hb. unfold rehash_if, _dictRehashStep. destruct (dictIsRehashing d); [|by exists d].
  destruct (iterators d =? 0); [|by exists d].
  destruct (dictRehash_spec 1 d m R Hb) as (d' & r & -> & R' & Hi & Hs & _). by exists d'.
Qed.

(** *** Search *)

Context `{!TypeLaws type canon}.

Lemma compare_false a b : keyCompare type a b = false ↔ canon a ≠ canon b.
Proof. rewrite <- not_true_iff_false. by rewrite compare_canon. Qed.

(** The entry [a] has the key. *)
Definition has_key (h : gmap dloc (dictEntry K V)) (key : K) (a : dloc) : Prop :=
  ∃ e, h !! a = Some e ∧ canon (de_key e) = canon key.

Lemma chain_search_spec fuel h key prev p l :
  chain h p l → (length l ≤ fuel)%nat →
  ∃ r, chain_search type fuel h key prev p = Some r ∧
    match r with
    | Some (q, a) => ∃ l1 l2, l = l1 ++ a :: l2 ∧ has_key h key a ∧ q = match last l1 with Some b => Some b | None => prev end
    | None => ∀ a, a ∈ l → ¬ has_key h key a
    end.
Proof.
  revert p prev l. induction fuel as [|fuel IH]; intros p prev [|a l] Hch Hf; simpl in Hf; try lia.
  1, 2: simpl in *; subst p; exists None; split; [done|set_solver].
  destruct Hch as [-> (e & He & Hch)]. simpl. rewrite He. obind. destruct (keyCompare type key (de_key e)) eqn:Hk.
  { exists (Some (prev, a)). split; [done|]. exists [], l. split; [done|]. split; [|done]. exists e.
    split; [done|]. symmetry. by apply compare_canon. }
  destruct (IH _ (Some a) _ Hch) as (r & -> & Hr); [lia|]. exists r. split; [done|]. destruct r as [[q b]|].
  - destruct Hr as (l1 & l2 & -> & Hb & ->). exists (a :: l1), l2. split; [done|]. split; [done|].
    destruct l1 as [|c l1] using rev_ind; [done|]. by rewrite app_comm_cons, !last_snoc.
  - intros b [->|Hb]%elem_of_cons; [|by apply Hr]. intros (e' & He' & Hc). assert (e' = e) as -> by congruence.
    apply compare_false in Hk. by apply Hk.
Qed.

(** [chain_find] is the same search. *)
Lemma chain_find_search fuel h key prev p :
  chain_find type fuel h key p = option_map snd <$> chain_search type fuel h key prev p.
Proof using Type.
  revert p prev. induction fuel as [|fuel IH]; intros [l|] prev; simpl; try done. destruct (h !! l) as [e|]; [|done]. obind.
  destruct (keyCompare type key (de_key e)); [done|]. apply IH.
Qed.

(** A key that is not in its bucket is not in the table. *)
Lemma bucket_decides h ht B b key :
  table_rep type h ht B → B !! Z.to_nat (Z.land (hashFunction type key) (sizemask ht)) = Some b →
  (∀ a, a ∈ b → ¬ has_key h key a) → ∀ a, a ∈ concat B → ¬ has_key h key a.
Proof.
  intros T Hb Hs a (j & b' & Hj & Ha)%elem_of_concat (e & He & Hc).
  assert (Z.to_nat (Z.land (hashFunction type key) (sizemask ht)) = j) as Hij.
  { rewrite <- (hash_canon _ _ Hc), (tr_place _ _ _ _ T _ _ _ _ Hj Ha He). lia. }
  rewrite Hij in Hb. assert (b' = b) as -> by congruence. apply (Hs a Ha). by exists e.
Qed.

Lemma ht_find_spec d ht B key :
  table_rep type (entries d) ht B → NoDup (concat B) →
  ∃ r, ht_find type d ht key = Some r ∧
    match r with
    | Some a => a ∈ concat B ∧ has_key (entries d) key a
    | None => ∀ a, a ∈ concat B → ¬ has_key (entries d) key a
    end.
Proof.
  intros T Hnd. unfold ht_find. destruct (table_cell _ _ _ _ _ T (index_range _ _ _ _ (hashFunction type key) T)) as (p & b & -> & Hb & Hch).
  obind. pose proof (chain_fuel_enough _ _ _ (concat_nodup_bucket _ _ _ Hnd Hb) Hch).
  destruct (chain_search_spec (chain_fuel d) (entries d) key None p b Hch) as (r & Hr & Hs); [unfold chain_fuel; lia|].
  rewrite (chain_find_search _ _ _ None), Hr. exists (option_map snd r). split; [done|]. destruct r as [[q a]|]; simpl.
  - destruct Hs as (l1 & l2 & -> & Hk & _). split; [|done]. apply elem_of_concat. eexists _, _. split; [done|set_solver].
  - by eapply bucket_decides.
Qed.

Lemma shape_nodup d B0 B1 : shape d B0 B1 → NoDup (concat B0 ++ concat B1).
Proof using Type. intros [? ? ?|B ? ? ? Hnd|B0' B1' W]; simpl; rewrite ?app_nil_r; [constructor|done|apply W]. Qed.

(** [d] holds [m], and [l] is its entry for the canonical key [c]. *)
Definition rep_at d m (c : C) (l : dloc) : Prop :=
  ∃ B0 B1 e, shape d B0 B1 ∧ holds canon (entries d) (concat B0 ++ concat B1) m ∧ word (iterators d) ∧
    l ∈ concat B0 ++ concat B1 ∧ entries d !! l = Some e ∧ canon (de_key e) = c.

Lemma rep_at_rep d m c l : rep_at d m c l → dict_rep d m.
Proof using Type. intros (B0 & B1 & e & ? & ? & ? & _). by exists B0, B1. Qed.

Lemma rep_at_lookup d m c l : rep_at d m c l → ∃ e, entries d !! l = Some e ∧ m !! c = Some (de_key e, de_val e).
Proof using Type. intros (B0 & B1 & e & _ & Hh & _ & Hl & He & <-). exists e. split; [done|]. apply (holds_lookup _ _ _ _ _ _ Hh). naive_solver. Qed.

(** What a search has to return. *)
Definition finds d m key (r : option dloc) : Prop :=
  match r with Some l => rep_at d m (canon key) l | None => m !! canon key = None end.

Lemma holds_missing h l m key : holds canon h l m → (∀ a, a ∈ l → ¬ has_key h key a) → m !! canon key = None.
Proof using Type.
  intros Hh Hn. apply eq_None_not_Some. intros [x (a & e & Ha & He & Hc & _)%(holds_lookup _ _ _ _ _ _ Hh)].
  apply (Hn a Ha). by exists e.
Qed.

(** The search in the first table and, while rehashing, the second. *)
Lemma find_spec d B0 B1 m key :
  shape d B0 B1 → holds canon (entries d) (concat B0 ++ concat B1) m → word (iterators d) → table (ht0 d) ≠ None →
  ∃ r, ht_find type d (ht0 d) key = Some r ∧
    (r = None → dictIsRehashing d = true → ∃ r1, ht_find type d (ht1 d) key = Some r1 ∧ finds d m key r1) ∧
    (r = None → dictIsRehashing d = false → m !! canon key = None) ∧ (r ≠ None → finds d m key r).
Proof.
  intros Hsh Hh Hit Ht. pose proof (shape_nodup _ _ _ Hsh) as Hnd. apply NoDup_app in Hnd as (Hnd0 & _ & Hnd1).
  assert (table_rep type (entries d) (ht0 d) B0) as T0 by (destruct Hsh as [? H0 ?|?|? ? W]; [by rewrite H0 in Ht|done|apply W]).
  destruct (ht_find_spec d _ _ key T0 Hnd0) as (r & Hr & Hs). exists r. split; [done|]. split_and!.
  - intros -> Hre. destruct Hsh as [Hr' ? ?|? Hr' ? ?|? ? W]; [by rewrite rehashing_false in Hre..|].
    destruct (ht_find_spec d _ _ key (tw_t1 _ _ _ _ W) Hnd1) as (r1 & Hr1 & Hs1). exists r1. split; [done|]. destruct r1 as [l|]; simpl.
    + destruct Hs1 as (Hl & e & He & Hc). exists B0, B1, e. split_and!; try done; [by constructor|set_solver].
    + eapply holds_missing; [done|]. intros a [Ha|Ha]%elem_of_app; [by apply Hs|by apply Hs1].
  - intros -> Hre. assert (B1 = []) as ->.
    { destruct Hsh as [? ? ?|? ? ? ?|? ? W]; [done..|]. by rewrite (rehashing_two _ _ _ W) in Hre. }
    simpl in Hh. rewrite app_nil_r in Hh. by eapply holds_missing.
  - destruct r as [l|]; [|done]. intros _. destruct Hs as (Hl & e & He & Hc). exists B0, B1, e. split_and!; try done. set_solver.
Qed.

Lemma used_sum d m : dict_rep d m → 0 ≤ used (ht0 d) ∧ 0 ≤ used (ht1 d) ∧ used (ht0 d) + used (ht1 d) = Z.of_nat (size m).
Proof using Type.
  intros (B0 & B1 & Hsh & Hh & _). pose proof (holds_size _ _ _ _ Hh) as Hs. rewrite length_app in Hs.
  destruct Hsh as [? -> ->|? ? T -> ?|? ? [T0 T1 _ _ _]]; simpl in *; [lia|rewrite (tr_used _ _ _ _ T); lia|].
  rewrite (tr_used _ _ _ _ T0), (tr_used _ _ _ _ T1). lia.
Qed.

Lemma dictSize_spec d m : dict_rep d m → bounded m → dictSize d = Z.of_nat (size m).
Proof using Type. unfold bounded, dictSize. intros R Hb. destruct (used_sum _ _ R) as (_ & _ & ->). apply u64_id. lia. Qed.

(** A dictionary with an entry has a first table. *)
Lemma rep_table d m : dict_rep d m → m ≠ ∅ → table (ht0 d) ≠ None.
Proof using Type.
  intros (B0 & B1 & Hsh & Hh & _) Hm. destruct Hsh as [? ? ?|? ? T ? ?|? ? W].
  - by apply holds_nil in Hh.
  - destruct (tr_cells _ _ _ _ T) as (? & -> & _). done.
  - destruct (tr_cells _ _ _ _ (tw_t0 _ _ _ _ W)) as (? & -> & _). done.
Qed.

Lemma dictFind_spec key d m :
  dict_rep d m → bounded m → ∃ d' r, dictFind type key d = Some (d', r) ∧ dict_rep d' m ∧ finds d' m key r ∧ iterators d' = iterators d.
Proof.
  intros R Hb. unfold dictFind. rewrite (dictSize_spec _ _ R Hb). destruct (Z.eqb_spec (Z.of_nat (size m)) 0) as [Hz|Hz].
  { exists d, None. assert (m = ∅) as -> by (apply map_size_empty_inv; lia). split_and!; done. }
  assert (m ≠ ∅) as Hm by (intros ->; by rewrite map_size_empty in Hz).
  destruct (rehash_if_spec d m R Hb) as (d' & -> & R' & Hi & _). obind. pose proof (rep_table _ _ R' Hm) as Ht.
  pose proof R' as (B0 & B1 & Hsh & Hh & Hit). destruct (find_spec _ _ _ _ key Hsh Hh Hit Ht) as (r & -> & H2 & H1 & H0). obind.
  destruct r as [l|]; [exists d', (Some l); split_and!; naive_solver|].
  destruct (dictIsRehashing d') eqn:Hre; simpl; [|exists d', None; split_and!; naive_solver].
  destruct H2 as (r1 & -> & Hf); [done..|]. exists d', r1. by split_and!.
Qed.

(** *** Resizing *)

Lemma dictExpand_spec sz d m :
  dict_rep d m → sz ≤ 2 ^ 60 →
  ∃ d' r, dictExpand sz d = Some (d', r) ∧ dict_rep d' m ∧ iterators d' = iterators d ∧ entries d' = entries d ∧
    (r = DICT_ERR ∨ r = DICT_OK ∧ table (ht0 d') ≠ None) ∧
    (dictIsRehashing d = false → used (ht0 d) ≤ sz → ht_size (ht0 d) = 0 ∨ ht_size (ht0 d) < sz → r = DICT_OK).
Proof using Type.
  intros (B0 & B1 & Hsh & Hh & Hit) Hsz. unfold dictExpand.
  assert (dict_rep d m) as R by (by exists B0, B1).
  destruct (dictIsRehashing d || (used (ht0 d) >? sz)) eqn:Hno.
  { exists d, DICT_ERR. split_and!; try done; [by left|]. intros Hre Hu _. rewrite Hre, Z.gtb_ltb in Hno. simpl in Hno. lia. }
  apply orb_false_iff in Hno as [Hre Hu]. rewrite Z.gtb_ltb in Hu. apply Z.ltb_ge in Hu.
  destruct (next_power_spec sz) as (k & Hk & -> & Hge & Hlt); [lia|]. obind.
  destruct (Z.eqb_spec (2 ^ k) (ht_size (ht0 d))) as [Heq|Hne].
  { exists d, DICT_ERR. split_and!; try done; [by left|]. intros _ _ [?|?]; lia. }
  assert (2 ≤ k ≤ 60) as Hk'.
  { split; [lia|]. destruct Hlt as [->|Hlt]; [lia|]. assert (¬ 60 < k); [|lia]. intros ?. pose proof (Z.pow_le_mono_r 2 60 (k - 1)). lia. }
  pose proof (table_new type (entries d) (array_addr d) k Hk') as T. cbv zeta.
  set (n := mkHt _ _ _ _) in *. destruct Hsh as [Hr H0 H1|B Hr T0 H1 Hnd|B0 B1 W].
  - rewrite H0. simpl table. eexists _, DICT_OK. split; [done|]. split_and!; try done; [|by right].
    exists (replicate (Z.to_nat (2 ^ k)) []), []. rewrite concat_replicate_nil. split; [|done].
    apply shape_one; try done. rewrite concat_replicate_nil. constructor.
  - destruct (tr_cells _ _ _ _ T0) as (bk & Hbk & _). rewrite Hbk. eexists _, DICT_OK. split; [done|]. split_and!; try done.
    + exists B, (replicate (Z.to_nat (2 ^ k)) []). rewrite concat_replicate_nil, app_nil_r. simpl in Hh. rewrite app_nil_r in Hh.
      split; [|done]. apply shape_two. constructor; try done; simpl; [|lia|lia]. by rewrite concat_replicate_nil, app_nil_r.
    + right. simpl. by rewrite Hbk.
  - by rewrite (rehashing_two _ _ _ W) in Hre.
Qed.

(** Before an insertion there is a table with room. *)
Lemma dictExpandIfNeeded_spec can d m :
  dict_rep d m → bounded m →
  ∃ d', _dictExpandIfNeeded can d = Some (d', DICT_OK) ∧ dict_rep d' m ∧ iterators d' = iterators d ∧ table (ht0 d') ≠ None.
Proof using Type.
  intros R Hb. unfold _dictExpandIfNeeded. pose proof R as (B0 & B1 & Hsh & Hh & _).
  pose proof (holds_size _ _ _ _ Hh) as Hs. rewrite length_app in Hs. unfold bounded in Hb.
  destruct Hsh as [Hr H0 H1|B Hr T0 H1 Hnd|B0 B1 W].
  - rewrite rehashing_false by done. rewrite H0. simpl (_ =? 0).
    destruct (dictExpand_spec DICT_HT_INITIAL_SIZE d m R) as (d' & r & He & R' & Hi & _ & Ht & Hok); [done|].
    rewrite H0, rehashing_false in Hok by done. specialize (Hok eq_refl). simpl in Hok. rewrite He.
    assert (r = DICT_OK) as -> by (apply Hok; [done|by left]). destruct Ht as [?|[_ Ht]]; [done|]. exists d'. by split_and!.
  - rewrite rehashing_false by done. destruct (tr_pow _ _ _ _ T0) as (k & Hk & Hsz). pose proof (Z.pow_pos_nonneg 2 k).
    destruct (Z.eqb_spec (ht_size (ht0 d)) 0); [lia|]. pose proof (tr_used _ _ _ _ T0) as Hu.
    destruct ((ht_size (ht0 d) <=? used (ht0 d)) && _) eqn:Hfull.
    + apply andb_true_iff in Hfull as [Hfull%Z.leb_le _]. rewrite u64_id by lia.
      destruct (dictExpand_spec (used (ht0 d) * 2) d m R) as (d' & r & -> & R' & Hi & _ & Ht & Hok); [lia|].
      rewrite Hok in * by (first [by apply rehashing_false|lia]). destruct Ht as [?|[_ Ht]]; [done|]. exists d'. by split_and!.
    + exists d. split_and!; try done. destruct (tr_cells _ _ _ _ T0) as (? & -> & _). done.
  - rewrite (rehashing_two _ _ _ W). exists d. split_and!; try done. destruct (tr_cells _ _ _ _ (tw_t0 _ _ _ _ W)) as (? & -> & _). done.
Qed.

(** [_dictKeyIndex]: -1 and the entry, or the bucket for a new one. *)
Lemma dictKeyIndex_spec can key d m :
  dict_rep d m → bounded m →
  ∃ d' i x, _dictKeyIndex type can key (hashFunction type key) d = Some (d', i, x) ∧ dict_rep d' m ∧ iterators d' = iterators d ∧
    table (ht0 d') ≠ None ∧ finds d' m key x ∧
    i = match x with
        | Some _ => -1
        | None => Z.land (hashFunction type key) (sizemask (if dictIsRehashing d' then ht1 d' else ht0 d'))
        end.
Proof.
  intros R Hb. unfold _dictKeyIndex. destruct (dictExpandIfNeeded_spec can d m R Hb) as (d' & -> & R' & Hi & Ht). obind. cbn [Z.eqb DICT_OK DICT_ERR].
  pose proof R' as (B0 & B1 & Hsh & Hh & Hit). destruct (find_spec _ _ _ _ key Hsh Hh Hit Ht) as (r & -> & H2 & H1 & H0). obind.
  destruct r as [l|]; [exists d', (-1), (Some l); split_and!; naive_solver|].
  destruct (dictIsRehashing d') eqn:Hre; cbn [negb].
  - destruct H2 as (r1 & -> & Hf); [done..|]. obind. destruct r1 as [l|].
    + exists d', (-1), (Some l). by split_and!.
    + eexists d', _, None. split_and!; try done. by rewrite Hre.
  - eexists d', _, None. split_and!; try done; [naive_solver|by rewrite Hre].
Qed.

(** *** Insertion *)

Lemma holds_fresh h l m a : holds canon h l m → h !! a = None → a ∉ l.
Proof using Type.
  intros (L & HF & _) Ha (i & Hi)%list_elem_of_lookup. destruct (Forall2_lookup_l _ _ _ _ _ HF Hi) as (p & _ & Hp). by rewrite Ha in Hp.
Qed.

(** A table of other entries is not touched by a new entry. *)
Lemma table_fresh h ht B a e : table_rep type h ht B → h !! a = None → table_rep type (<[a:=e]> h) ht B.
Proof using Type.
  intros T Ha. eapply table_ext; [|exact T]. intros b f Hb Hf. exists f. split; [|done]. by rewrite lookup_insert_ne by congruence.
Qed.

Lemma holds_add h l l' m a key p :
  holds canon h l m → h !! a = None → m !! canon key = None → l' ≡ₚ a :: l →
  holds canon (<[a:=mkEntry key None p]> h) l' (<[canon key:=(key, None)]> m).
Proof using Type.
  intros Hh Ha Hm Hl. eapply holds_perm; [symmetry; exact Hl|]. apply holds_cons.
  eexists _, m. rewrite lookup_insert_eq. split_and!; try done. eapply holds_ext; [|exact Hh].
  intros b Hb. rewrite lookup_insert_ne; [done|]. intros ->. by eapply holds_fresh.
Qed.

Lemma dictAddRaw_spec can key d m :
  dict_rep d m → bounded m →
  ∃ d' e x, dictAddRaw type can key d = Some (d', e, x) ∧ iterators d' = iterators d ∧
    ((∃ l, m !! canon key = None ∧ e = Some l ∧ x = None ∧ rep_at d' (<[canon key:=(key, None)]> m) (canon key) l) ∨
     (∃ l, e = None ∧ x = Some l ∧ rep_at d' m (canon key) l)).
Proof.
  intros R Hb. unfold dictAddRaw. destruct (rehash_if_spec d m R Hb) as (d1 & -> & R1 & Hi1 & _). obind.
  destruct (dictKeyIndex_spec can key d1 m R1 Hb) as (d2 & i & x & -> & R2 & Hi2 & Ht & Hf & Hi). obind.
  destruct x as [l|]; subst i.
  { exists d2, None, (Some l). split; [done|]. split; [lia|]. right. by exists l. }
  set (a := fresh (dom (entries d2))). assert (entries d2 !! a = None) as Ha by (apply not_elem_of_dom, is_fresh).
  pose proof R2 as (B0 & B1 & Hsh & Hh & Hit). pose proof (holds_size _ _ _ _ Hh) as Hs. rewrite length_app in Hs. unfold bounded in Hb.
  pose proof (holds_fresh _ _ _ _ Hh Ha) as Hna. rewrite not_elem_of_app in Hna. unfold add_entry. fold a.
  destruct Hsh as [Hr H0 H1|B Hr T0 H1 Hnd|B0 B1 W]; [by rewrite H0 in Ht|rewrite rehashing_false by done|rewrite (rehashing_two _ _ _ W)].
  - pose proof (index_range _ _ _ _ (hashFunction type key) T0). destruct (Z.eqb_spec (Z.land (hashFunction type key) (sizemask (ht0 d2))) (-1)); [lia|].
    destruct (table_push type _ _ _ a key None T0) as (p & t & B' & -> & Hset & T' & Hp & _); [by apply Hna|rewrite (tr_used _ _ _ _ T0); lia|].
    obind. rewrite Hset. obind. eexists _, _, _. split; [done|]. split; [simpl; lia|]. left. exists a. split_and!; try done.
    simpl in Hh. rewrite app_nil_r in Hh. exists B', [], (mkEntry key None p). simpl. rewrite app_nil_r. split_and!; try done.
    + apply shape_one; try done. rewrite Hp. by constructor; [apply Hna|].
    + by eapply holds_add.
    + rewrite Hp. by left.
    + by rewrite lookup_insert_eq.
  - pose proof (index_range _ _ _ _ (hashFunction type key) (tw_t1 _ _ _ _ W)).
    destruct (Z.eqb_spec (Z.land (hashFunction type key) (sizemask (ht1 d2))) (-1)); [lia|].
    destruct (table_push type _ _ _ a key None (tw_t1 _ _ _ _ W)) as (p & t & B' & -> & Hset & T' & Hp & _);
      [by apply Hna|rewrite (tr_used _ _ _ _ (tw_t1 _ _ _ _ W)); lia|].
    obind. rewrite Hset. obind. eexists _, _, _. split; [done|]. split; [simpl; lia|]. left. exists a. split_and!; try done.
    assert (concat B0 ++ concat B' ≡ₚ a :: concat B0 ++ concat B1) as Hp' by (rewrite Hp; solve_Permutation).
    exists B0, B', (mkEntry key None p). simpl. split_and!; try done.
    + apply shape_two. destruct W as [W0 W1 Wn Wi We]. constructor; simpl; try done; [by apply table_fresh|].
      rewrite Hp'. constructor; [|done]. by rewrite not_elem_of_app.
    + by eapply holds_add.
    + rewrite Hp'. by left.
    + by rewrite lookup_insert_eq.
Qed.

Lemma dictSetVal_spec l v d m c :
  rep_at d m c l →
  ∃ d' k x, dictSetVal l v d = Some d' ∧ iterators d' = iterators d ∧ m !! c = Some (k, x) ∧ rep_at d' (<[c:=(k, Some v)]> m) c l.
Proof using Type.
  intros R. destruct (rep_at_lookup _ _ _ _ R) as (e & He & Hm). destruct R as (B0 & B1 & e' & Hsh & Hh & Hit & Hl & He' & Hc).
  assert (e' = e) as -> by congruence. unfold dictSetVal. rewrite He. obind. eexists _, (de_key e), (de_val e). split; [done|].
  split; [done|]. split; [done|]. exists B0, B1, (mkEntry (de_key e) (Some v) (de_next e)). simpl. rewrite lookup_insert_eq.
  assert (∀ ht B, table_rep type (entries d) ht B → table_rep type (<[l:=mkEntry (de_key e) (Some v) (de_next e)]> (entries d)) ht B) as Htab.
  { intros ht B. apply table_ext. intros a f Ha Hf. destruct (decide (l = a)) as [->|?].
    - rewrite lookup_insert_eq. eexists. split; [done|]. assert (f = e) as -> by congruence. done.
    - rewrite lookup_insert_ne by done. by exists f. }
  split_and!; try done.
  - destruct Hsh as [? ? ?|? ? ? ? ?|? ? [? ? ? ? ?]]; [by apply shape_none|apply shape_one; try done; by apply Htab|].
    apply shape_two. constructor; simpl; try done; by apply Htab.
  - apply elem_of_Permutation in Hl as [k Hk]. eapply holds_perm; [symmetry; exact Hk|]. eapply holds_perm in Hh; [|exact Hk].
    apply holds_cons in Hh as (e2 & m' & He2 & Hn & -> & Hh'). assert (e2 = e) as -> by congruence. apply holds_cons.
    eexists _, m'. rewrite lookup_insert_eq. split_and!; try done; simpl.
    + by rewrite <- Hc, insert_insert_eq.
    + eapply holds_ext; [|exact Hh']. intros a Ha. rewrite lookup_insert_ne; [done|]. intros ->.
      pose proof (shape_nodup _ _ _ Hsh) as Hnd. rewrite Hk in Hnd. apply NoDup_cons in Hnd as [? _]. done.
Qed.

(** *** Deletion *)

(** The chain without [a], and what happens to the heap and the first
    pointer. *)
Lemma unlink_spec h ht idx p l1 a l2 e :
  cell ht idx = Some p → NoDup (l1 ++ a :: l2) → chain h p (l1 ++ a :: l2) → h !! a = Some e →
  ∃ es q, match last l1 with
          | Some b => es ← set_next b (de_next e) h; Some (ht, es)
          | None => t ← set_cell idx (de_next e) ht; Some (t, h)
          end = (t ← set_cell idx q ht; Some (t, es)) ∧ chain es q (l1 ++ l2) ∧
    (∀ b, b ∉ l1 ++ a :: l2 → es !! b = h !! b) ∧ same_data canon h es.
Proof using Type.
  clear TypeLaws0. intros Hp Hnd Hch He. destruct l1 as [|b l1 _] using rev_ind.
  - simpl in *. destruct Hch as [-> (e' & He' & Hch)]. assert (e' = e) as -> by congruence. by exists h, (de_next e).
  - rewrite last_snoc. rewrite <- !app_assoc in *. simpl in *. destruct (chain_in _ _ _ b Hch) as [f Hf]; [set_solver|].
    unfold set_next. rewrite Hf. obind. eexists _, p. rewrite (set_cell_id _ _ _ Hp). split; [done|]. split_and!.
    + by eapply chain_unlink.
    + intros c Hc. apply lookup_insert_ne. set_solver.
    + by apply same_data_next.
Qed.

(** The entry [a] for [key] is taken out of the table with the chains [B]. *)
Definition removed (nofree : bool) d B key (t : dictht) (es : gmap dloc (dictEntry K V)) (a : dloc) : Prop :=
  has_key (entries d) key a ∧ ∃ B', table_rep type es t B' ∧ concat B ≡ₚ a :: concat B' ∧ length B' = length B ∧
    (∀ i, B !! i = Some [] → B' !! i = Some []) ∧ (∀ b, b ∉ concat B → es !! b = entries d !! b) ∧
    (∀ b, b ≠ a → kv canon <$> es !! b = kv canon <$> entries d !! b) ∧
    if nofree then kv canon <$> es !! a = kv canon <$> entries d !! a else es !! a = None.

Lemma ht_delete_spec nofree d ht B key :
  table_rep type (entries d) ht B → NoDup (concat B) → Z.of_nat (length (concat B)) < 2 ^ 64 →
  ∃ r, ht_delete type nofree d ht key = Some r ∧
    match r with
    | None => ∀ a, a ∈ concat B → ¬ has_key (entries d) key a
    | Some (t, es, a) => removed nofree d B key t es a
    end.
Proof.
  intros T Hnd Hlen. unfold ht_delete. set (idx := Z.land _ _).
  pose proof (index_range _ _ _ _ (hashFunction type key) T) as Hidx. fold idx in Hidx.
  destruct (table_cell _ _ _ _ _ T Hidx) as (p & b & Hp & Hb & Hch). rewrite Hp.
  pose proof (concat_nodup_bucket _ _ _ Hnd Hb) as Hndb. pose proof (chain_fuel_enough _ _ _ Hndb Hch).
  destruct (chain_search_spec (chain_fuel d) (entries d) key None p b Hch) as (r & Hr & Hs); [unfold chain_fuel; lia|].
  obind. rewrite Hr. obind. destruct r as [[q a]|]; [|exists None; split; [done|]].
  2: { by eapply bucket_decides. }
  destruct Hs as (l1 & l2 & -> & Hk & ->). pose proof Hk as (e & He & Hc). rewrite He. obind.
  destruct (unlink_spec (entries d) ht idx p l1 a l2 e Hp Hndb Hch He) as (es & q & Hun & Hch' & Hout & Hsame).
  assert ((match match last l1 with Some b => Some b | None => None end with
           | Some p => es ← set_next p (de_next e) (entries d); Some (ht, es)
           | None => t ← set_cell idx (de_next e) ht; Some (t, entries d) end) = (t ← set_cell idx q ht; Some (t, es))) as ->.
  { rewrite <- Hun. by destruct (last l1). }
  pose proof (concat_insert_bucket B _ _ (l1 ++ l2) Hb) as Hperm.
  assert (concat B ≡ₚ a :: concat (<[Z.to_nat idx:=l1 ++ l2]> B)) as Hcc.
  { apply (Permutation_app_inv_l (l1 ++ l2)). rewrite <- Hperm. solve_Permutation. }
  set (es' := if nofree then es else delete a es).
  assert (∀ c, c ≠ a → es' !! c = es !! c) as Hes'. { intros c Hca. unfold es'. destruct nofree; [done|]. by apply lookup_delete_ne. }
  assert (a ∉ concat (<[Z.to_nat idx:=l1 ++ l2]> B)) as Hna by (rewrite Hcc in Hnd; by apply NoDup_cons in Hnd as [? _]).
  pose proof (tr_used _ _ _ _ T) as Hu. pose proof (Permutation_length Hcc) as Hl. simpl in Hl.
  destruct (table_set type (entries d) es' ht B idx q (l1 ++ l2) (used ht - 1)) as (t & Ht & Hut & T' & _); try done; try lia.
  - eapply chain_ext; [|exact Hch']. intros c g Hc' Hg. exists g. split; [|done]. rewrite Hes'; [done|]. intros ->.
    apply Hna, elem_of_concat. exists (Z.to_nat idx), (l1 ++ l2). split; [|done]. apply list_lookup_insert_eq. by eapply lookup_lt_Some.
  - intros j b' Hj Hne w. apply chain_ext. intros c g Hc' Hg. exists g. split; [|done].
    assert (c ∉ l1 ++ a :: l2) as Hcn.
    { intros Hcl. apply Hne. by eapply concat_unique. }
    rewrite Hes', Hout by set_solver. done.
  - intros j b' c g Hj Hc' Hg. assert (c ≠ a) as Hca. { intros ->. apply Hna, elem_of_concat. by exists j, b'. }
    rewrite Hes' in Hg by done. symmetry in Hsame. destruct (same_data_entry canon _ _ _ _ Hsame Hg) as (g' & Hg' & <- & _).
    apply list_lookup_insert_Some in Hj as [(<- & <- & _)|[Hne Hj]]; [|by eapply tr_place].
    eapply tr_place; [done..| |done]. set_solver.
  - rewrite Ht. obind. eexists. split; [done|]. split; [done|]. exists (<[Z.to_nat idx:=l1 ++ l2]> B). rewrite Hut. fold es'. split_and!; try done.
    + by rewrite length_insert.
    + intros i Hi. rewrite list_lookup_insert_ne; [done|]. intros <-. rewrite Hb in Hi. by destruct l1.
    + intros c Hcb. assert (c ∉ a :: concat (<[Z.to_nat idx:=l1 ++ l2]> B)) as Hc' by (by rewrite <- Hcc).
      rewrite Hes' by set_solver. apply Hout. intros Hcl. apply Hcb, elem_of_concat. eauto.
    + intros c Hca. rewrite Hes' by done. symmetry. apply Hsame.
    + unfold es'. destruct nofree; [symmetry; apply Hsame|apply lookup_delete_eq].
Qed.

Lemma holds_remove h es l l' m a key :
  holds canon h l m → NoDup l → l ≡ₚ a :: l' → has_key h key a → (∀ b, b ≠ a → kv canon <$> es !! b = kv canon <$> h !! b) →
  (∃ e, h !! a = Some e ∧ m !! canon key = Some (de_key e, de_val e)) ∧ holds canon es l' (delete (canon key) m).
Proof using Type.
  intros Hh Hnd Hl (e & He & Hc) Hes. eapply holds_perm in Hh; [|exact Hl]. rewrite Hl in Hnd. apply NoDup_cons in Hnd as [Ha _].
  apply holds_cons in Hh as (e' & m' & He' & Hn & -> & Hh). assert (e' = e) as -> by congruence. rewrite Hc in *. split.
  - exists e. split; [done|]. apply lookup_insert_eq.
  - rewrite delete_insert_id by done. eapply holds_ext; [|exact Hh]. intros b Hb. symmetry. apply Hes. by intros ->.
Qed.

(** Memory outside the tables can be released. *)
Lemma free_rep d B0 B1 m l :
  shape d B0 B1 → holds canon (entries d) (concat B0 ++ concat B1) m → word (iterators d) → l ∉ concat B0 ++ concat B1 →
  dict_rep (dictFreeUnlinkedEntry (Some l) d) m.
Proof using Type.
  clear TypeLaws0. intros Hsh Hh Hit Hl. rewrite not_elem_of_app in Hl. exists B0, B1.
  assert (∀ ht B, l ∉ concat B → table_rep type (entries d) ht B → table_rep type (delete l (entries d)) ht B) as Htab.
  { intros ht B HlB. apply table_ext. intros a e Ha He. exists e. rewrite lookup_delete_ne by (by intros ->). done. }
  split_and!; try done.
  - destruct Hsh as [? ? ?|? ? ? ? ?|? ? [? ? ? ? ?]]; [by apply shape_none|apply shape_one; try done; apply Htab; naive_solver|].
    apply shape_two. constructor; simpl; try done; apply Htab; naive_solver.
  - eapply holds_ext; [|exact Hh]. intros a Ha. simpl. rewrite lookup_delete_ne; [done|]. intros ->. apply elem_of_app in Ha. naive_solver.
Qed.

(** What [dictGenericDelete] leaves of the entry, and that it can be freed. *)
Definition unlinked (nofree : bool) d m key (l : dloc) : Prop :=
  (∃ e, m !! canon key = Some (de_key e, de_val e) ∧ if nofree then kv canon <$> entries d !! l = Some (kv canon e) else entries d !! l = None) ∧
  dict_rep d (delete (canon key) m) ∧ dict_rep (dictFreeUnlinkedEntry (Some l) d) (delete (canon key) m).

(** The parts of [unlinked] from a shape without the entry. *)
Lemma unlinked_intro (nofree : bool) d d' B0 B1 m key a e :
  entries d !! a = Some e → m !! canon key = Some (de_key e, de_val e) →
  (if nofree then kv canon <$> entries d' !! a = kv canon <$> entries d !! a else entries d' !! a = None) →
  shape d' B0 B1 → holds canon (entries d') (concat B0 ++ concat B1) (delete (canon key) m) → word (iterators d') →
  a ∉ concat B0 ++ concat B1 → unlinked nofree d' m key a.
Proof using Type.
  intros He Hm Hl Hsh Hh Hit Ha. split_and!.
  - exists e. split; [done|]. destruct nofree; [|done]. by rewrite Hl, He.
  - by exists B0, B1.
  - by eapply free_rep.
Qed.

Lemma removed0_rep nofree d B0 B1 m key t es a :
  shape d B0 B1 → holds canon (entries d) (concat B0 ++ concat B1) m → word (iterators d) → removed nofree d B0 key t es a →
  unlinked nofree (set_entries es (set_ht0 t d)) m key a.
Proof using Type.
  clear TypeLaws0. intros Hsh Hh Hit (Hk & B' & T' & Hp & Hlen & Hemp & Hout & Hes & Hfree). pose proof (shape_nodup _ _ _ Hsh) as Hnd.
  assert (concat B0 ++ concat B1 ≡ₚ a :: concat B' ++ concat B1) as Hp' by (by rewrite Hp).
  destruct (holds_remove _ es _ _ _ _ _ Hh Hnd Hp' Hk Hes) as [(e & He & Hx) Hh'].
  pose proof Hnd as Hnd'. rewrite Hp' in Hnd'. apply NoDup_cons in Hnd' as [Ha Hnd'].
  eapply (unlinked_intro nofree d _ B' B1); try done.
  destruct Hsh as [Hr H0 H1|B Hr T0 H1 Hnd0|B0 B1 [W0 W1 Wn Wi We]].
  - by apply Permutation_nil_cons in Hp.
  - apply shape_one; try done. by rewrite app_nil_r in Hnd'.
  - apply shape_two. constructor; simpl; try done.
    + eapply table_ext; [|exact W1]. intros b f Hb Hf. exists f. rewrite Hout; [done|]. intros Hb'.
      apply NoDup_app in Wn as (_ & Hdis & _). by eapply Hdis.
    + by rewrite Hlen.
    + intros i Hi. apply Hemp, We, Hi.
Qed.

Lemma removed1_rep nofree d B0 B1 m key t es a :
  two type d B0 B1 → holds canon (entries d) (concat B0 ++ concat B1) m → word (iterators d) → removed nofree d B1 key t es a →
  unlinked nofree (set_entries es (set_ht1 t d)) m key a.
Proof using Type.
  clear TypeLaws0. intros [W0 W1 Wn Wi We] Hh Hit (Hk & B' & T' & Hp & Hlen & Hemp & Hout & Hes & Hfree).
  assert (concat B0 ++ concat B1 ≡ₚ a :: concat B0 ++ concat B') as Hp' by (rewrite Hp; solve_Permutation).
  destruct (holds_remove _ es _ _ _ _ _ Hh Wn Hp' Hk Hes) as [(e & He & Hx) Hh'].
  pose proof Wn as Hnd'. rewrite Hp' in Hnd'. apply NoDup_cons in Hnd' as [Ha Hnd'].
  eapply (unlinked_intro nofree d _ B0 B'); try done.
  apply shape_two. constructor; simpl; try done.
  eapply table_ext; [|exact W0]. intros b f Hb Hf. exists f. rewrite Hout; [done|]. intros Hb'.
  apply NoDup_app in Wn as (_ & Hdis & _). by eapply Hdis.
Qed.

Lemma dictGenericDelete_spec nofree key d m :
  dict_rep d m → bounded m →
  ∃ d' r, dictGenericDelete type key nofree d = Some (d', r) ∧ iterators d' = iterators d ∧
    match r with
    | Some l => unlinked nofree d' m key l
    | None => m !! canon key = None ∧ dict_rep d' m
    end.
Proof.
  intros R Hb. unfold dictGenericDelete.
  destruct (used_sum _ _ R) as (Hu0 & Hu1 & Hu). destruct ((used (ht0 d) =? 0) && (used (ht1 d) =? 0)) eqn:Hz.
  { assert (m = ∅) as -> by (apply map_size_empty_inv; lia). exists d, None. split_and!; done. }
  assert (m ≠ ∅) as Hm. { intros ->. rewrite map_size_empty in Hu. lia. }
  destruct (rehash_if_spec d m R Hb) as (d1 & -> & R1 & Hi1 & _). obind. pose proof (rep_table _ _ R1 Hm) as Ht.
  pose proof R1 as (B0 & B1 & Hsh & Hh & Hit). pose proof (holds_size _ _ _ _ Hh) as Hsz. rewrite length_app in Hsz.
  unfold bounded in Hb. pose proof (shape_nodup _ _ _ Hsh) as Hnd. apply NoDup_app in Hnd as (Hnd0 & _ & Hnd1).
  assert (table_rep type (entries d1) (ht0 d1) B0) as T0 by (destruct Hsh as [? H0 ?|?|? ? W]; [by rewrite H0 in Ht|done|apply W]).
  destruct (ht_delete_spec nofree d1 _ _ key T0 Hnd0) as (r & -> & Hdel); [lia|]. obind. destruct r as [[[t es] l]|].
  { eexists _, (Some l). split_and!; [done..|]. by eapply removed0_rep. }
  destruct Hsh as [Hr H0 H1|B Hr _ H1 _|B0 B1 W]; [by rewrite H0 in Ht|rewrite rehashing_false by done|rewrite (rehashing_two _ _ _ W)]; cbn [negb].
  { simpl in *. rewrite app_nil_r in *. exists d1, None. split_and!; try done. by eapply holds_missing. }
  destruct (ht_delete_spec nofree d1 _ _ key (tw_t1 _ _ _ _ W) Hnd1) as (r & -> & Hdel1); [lia|]. obind.
  destruct r as [[[t es] l]|].
  - eexists _, (Some l). split_and!; [done..|]. by eapply removed1_rep.
  - exists d1, None. split_and!; try done. eapply holds_missing; [done|].
    intros a [Ha|Ha]%elem_of_app; [by apply Hdel|by apply Hdel1].
Qed.
End rep.
