(* ===== verification/SipHash.v ===== *)
(** * Hashing of dictionary keys (src/siphash.c, dict types of src/server.c)

    SipHash with one round for each word and two at the end, in its plain and
    its case-insensitive form, and the types of the dictionaries whose keys
    are strings.  A byte is an integer from 0 to 255. *)

From Stdlib Require Import Ascii.
From S2P Require Import Prelude.
From S2P Require Import Sds.
From S2P Require Import Dict.
From S2P Require Import DictRep.

#[local] Open Scope Z_scope.

(** ** SipHash *)

Definition siptlw (c : Z) : Z := if (65 <=? c) && (c <=? 90) then c + (97 - 65) else c.

Definition ROTL (x b : Z) : Z := Z.lor (u64 (Z.shiftl x b)) (Z.shiftr x (64 - b)).

Record sipstate := mkSip { v0 : Z; v1 : Z; v2 : Z; v3 : Z }.

Definition SIPROUND (s : sipstate) : sipstate :=
  let '(mkSip v0 v1 v2 v3) := s in
  let v0 := u64 (v0 + v1) in
  let v1 := ROTL v1 13 in
  let v1 := Z.lxor v1 v0 in
  let v0 := ROTL v0 32 in
  let v2 := u64 (v2 + v3) in
  let v3 := ROTL v3 16 in
  let v3 := Z.lxor v3 v2 in
  let v0 := u64 (v0 + v3) in
  let v3 := ROTL v3 21 in
  let v3 := Z.lxor v3 v0 in
  let v2 := u64 (v2 + v1) in
  let v1 := ROTL v1 17 in
  let v1 := Z.lxor v1 v2 in
  let v2 := ROTL v2 32 in
  mkSip v0 v1 v2 v3.

(** Bytes [p] from bit [i] on, lowest first. *)
Fixpoint le_bytes (i : Z) (p : list Z) : Z :=
  match p with
  | [] => 0
  | b :: p => Z.lor (u64 (Z.shiftl b i)) (le_bytes (i + 8) p)
  end.

Definition U8TO64_LE (p : list Z) : Z := le_bytes 0 (take 8 p).

Definition U8TO64_LE_NOCASE (p : list Z) : Z := le_bytes 0 (siptlw <$> take 8 p).

(** [v3 ^= m; SIPROUND; v0 ^= m]. *)
Definition sip_word (m : Z) (s : sipstate) : sipstate :=
  let s := SIPROUND (mkSip (v0 s) (v1 s) (v2 s) (Z.lxor (v3 s) m)) in
  mkSip (Z.lxor (v0 s) m) (v1 s) (v2 s) (v3 s).

(** The initial state, from the 16 bytes of the key. *)
Definition sip_init (k : list Z) : sipstate :=
  let k0 := U8TO64_LE k in
  let k1 := U8TO64_LE (drop 8 k) in
  mkSip (Z.lxor 0x736f6d6570736575 k0) (Z.lxor 0x646f72616e646f6d k1)
        (Z.lxor 0x6c7967656e657261 k0) (Z.lxor 0x7465646279746573 k1).

(** After the last word: [v2 ^= 0xff], two rounds, all four words. *)
Definition sip_finish (s : sipstate) : Z :=
  let s := SIPROUND (SIPROUND (mkSip (v0 s) (v1 s) (Z.lxor (v2 s) 0xff) (v3 s))) in
  Z.lxor (Z.lxor (Z.lxor (v0 s) (v1 s)) (v2 s)) (v3 s).

(** The loop over words of eight bytes; at the end fewer than eight are
    left. *)
Fixpoint siphash_loop (n : nat) (inp : list Z) (s : sipstate) : list Z * sipstate :=
  match n with
  | O => (inp, s)
  | S n' => siphash_loop n' (drop 8 inp) (sip_word (U8TO64_LE inp) s)
  end.

Definition siphash (inp k : list Z) : Z :=
  let inlen := Z.of_nat (length inp) in
  let '(rest, s) := siphash_loop (length inp / 8) inp (sip_init k) in
  let b := Z.lor (u64 (Z.shiftl inlen 56)) (le_bytes 0 rest) in
  sip_finish (sip_word b s).

Fixpoint siphash_nocase_loop (n : nat) (inp : list Z) (s : sipstate) : list Z * sipstate :=
  match n with
  | O => (inp, s)
  | S n' => siphash_nocase_loop n' (drop 8 inp) (sip_word (U8TO64_LE_NOCASE inp) s)
  end.

Definition siphash_nocase (inp k : list Z) : Z :=
  let inlen := Z.of_nat (length inp) in
  let '(rest, s) := siphash_nocase_loop (length inp / 8) inp (sip_init k) in
  let b := Z.lor (u64 (Z.shiftl inlen 56)) (le_bytes 0 (siptlw <$> rest)) in
  sip_finish (sip_word b s).

(** ** Dictionary types *)

Definition dictGenHashFunction (seed : list Z) (key : list Z) : Z := siphash key seed.

Definition dictGenCaseHashFunction (seed : list Z) (buf : list Z) : Z := siphash_nocase buf seed.

Definition dictSdsHash (seed : list Z) (key : sds) : Z := dictGenHashFunction seed (sds_bytes key).

Definition dictSdsCaseHash (seed : list Z) (key : sds) : Z := dictGenCaseHashFunction seed (sds_bytes key).

Definition dictSdsKeyCompare (key1 key2 : sds) : bool :=
  if negb (String.length key1 =? String.length key2)%nat then false else String.eqb key1 key2.

(** [strcasecmp] of the C library: up to the first zero byte, which every sds
    has at its end. *)
Fixpoint strcasecmp (s1 s2 : sds) : Z :=
  match s1, s2 with
  | EmptyString, EmptyString => 0
  | EmptyString, String b _ => 0 - code (tolower b)
  | String a _, EmptyString => code (tolower a)
  | String a s1', String b s2' =>
      if negb (code (tolower a) =? code (tolower b)) then code (tolower a) - code (tolower b)
      else if code a =? 0 then 0 else strcasecmp s1' s2'
  end.

Definition dictSdsKeyCaseCompare (key1 key2 : sds) : bool := strcasecmp key1 key2 =? 0.

Definition dbDictType (seed : list Z) : dictType sds := mkType (dictSdsHash seed) dictSdsKeyCompare.

Definition commandTableDictType (seed : list Z) : dictType sds := mkType (dictSdsCaseHash seed) dictSdsKeyCaseCompare.

(** ** What the types rely on *)

Lemma siphash_nocase_loop_lower n inp s :
  siphash_loop n (siptlw <$> inp) s = ((siptlw <$> (siphash_nocase_loop n inp s).1), (siphash_nocase_loop n inp s).2).
Proof.
  revert inp s. induction n as [|n IH]; intros inp s; [done|]. simpl. rewrite <- fmap_drop, IH. unfold U8TO64_LE, U8TO64_LE_NOCASE.
  by rewrite fmap_take.
Qed.

(** The case-insensitive hash is the hash of the string in lower case. *)
Lemma siphash_nocase_lower inp k : siphash_nocase inp k = siphash (siptlw <$> inp) k.
Proof.
  unfold siphash, siphash_nocase. rewrite length_fmap, siphash_nocase_loop_lower.
  by destruct (siphash_nocase_loop (length inp / 8) inp (sip_init k)).
Qed.

Lemma code_tolower a : code (tolower a) = siptlw (code a).
Proof. destruct a as [[] [] [] [] [] [] [] []]; reflexivity. Qed.

Lemma sds_bytes_tolower s : sds_bytes (sdstolower s) = siptlw <$> sds_bytes s.
Proof. induction s as [|a s IH]; [done|]. simpl. by rewrite IH, code_tolower. Qed.

#[global] Instance db_laws seed : TypeLaws (dbDictType seed) id.
Proof.
  split; unfold id; [|by intros a b ->]. intros a b. simpl. unfold dictSdsKeyCompare. split.
  - case_match; [done|]. by intros ->%String.eqb_eq.
  - intros ->. by rewrite Nat.eqb_refl, String.eqb_refl.
Qed.

(** Strings without a zero byte, as the names of commands are. *)
Fixpoint nul_free (s : sds) : bool :=
  match s with
  | EmptyString => true
  | String a s' => negb (code a =? 0) && nul_free s'
  end.

Definition cstring : Type := { s : sds | nul_free s = true }.

Definition cstring_type (type : dictType sds) : dictType cstring :=
  mkType (λ s, hashFunction type (`s)) (λ s t, keyCompare type (`s) (`t)).

Definition cstring_lower (s : cstring) : sds := sdstolower (`s).

Lemma tolower_not_nul a : code a ≠ 0 → 0 < code (tolower a).
Proof. rewrite code_tolower. unfold siptlw, code. pose proof (N2Z.is_nonneg (N_of_ascii a)). case_match; lia. Qed.

Lemma strcasecmp_lower s t : nul_free s = true → nul_free t = true → strcasecmp s t = 0 ↔ sdstolower s = sdstolower t.
Proof.
  revert t. induction s as [|a s IH]; intros [|b t]; simpl; try done.
  - intros _ [Hb%negb_true_iff%Z.eqb_neq _]%andb_true_iff. pose proof (tolower_not_nul b Hb). split; [lia|done].
  - intros [Ha%negb_true_iff%Z.eqb_neq _]%andb_true_iff _. pose proof (tolower_not_nul a Ha). split; [lia|done].
  - intros [Ha%negb_true_iff%Z.eqb_neq Hs]%andb_true_iff [_ Ht]%andb_true_iff.
    destruct (Z.eqb_spec (code (tolower a)) (code (tolower b))) as [He|He]; simpl.
    + destruct (Z.eqb_spec (code a) 0); [done|]. rewrite IH by done. apply code_inj in He. rewrite He. split; [by intros ->|by intros [= ->]].
    + split; [lia|]. intros [= Hab _]. by rewrite Hab in He.
Qed.

#[global] Instance command_laws seed : TypeLaws (cstring_type (commandTableDictType seed)) cstring_lower.
Proof.
  split.
  - intros [s Hs] [t Ht]. unfold cstring_lower. simpl. unfold dictSdsKeyCaseCompare. rewrite Z.eqb_eq. by apply strcasecmp_lower.
  - intros [s Hs] [t Ht]. unfold cstring_lower. simpl. unfold dictSdsCaseHash, dictGenCaseHashFunction. intros He.
    by rewrite !siphash_nocase_lower, <- !sds_bytes_tolower, He.
Qed.
