(* ===== verification/DictMap.v ===== *)
(** * Dictionaries implement finite maps

    Sequences of calls on a dictionary against the same operations on a
    finite map, whatever the state of the rehashing in between. *)

From S2P Require Import Prelude.
From S2P Require Import Dict.
From S2P Require Import DictRep.
From S2P Require Import Sds.
From S2P Require Import SipHash.

#[local] Open Scope Z_scope.

(** ** Clearing *)

Section clear.
Context {K V : Type}.
Implicit Types (h : gmap dloc (dictEntry K V)) (B : list (list dloc)).

(** [h'] is [h] without the entries at [l]. *)
Definition without h (l : list dloc) h' : Prop := ∀ a, h' !! a = if decide (a ∈ l) then None else h !! a.

Lemma without_trans h h1 h2 l1 l2 : without h l1 h1 → without h1 l2 h2 → without h (l1 ++ l2) h2.
Proof. intros H1 H2 a. rewrite H2, H1. repeat case_decide; set_solver. Qed.

Lemma without_chain h h' l p b : without h l h' → (∀ a, a ∈ b → a ∉ l) → chain h p b → chain h' p b.
Proof. intros Hw Hd. apply chain_ext. intros a e Ha He. exists e. rewrite Hw, decide_False by auto. done. Qed.

Lemma clear_chain_spec fuel p l h u :
  chain h p l → NoDup l → (length l ≤ fuel)%nat → Z.of_nat (length l) ≤ u < 2 ^ 64 →
  ∃ h', clear_chain fuel p u h = Some (u - Z.of_nat (length l), h') ∧ without h l h'.
Proof.
  revert p l h u. induction fuel as [|fuel IH]; intros p [|a l] h u Hch Hnd Hf Hu; simpl in Hf; try lia.
  1, 2: simpl in *; subst p; exists h; rewrite Z.sub_0_r; split; [done|]; intros a; by rewrite decide_False by set_solver.
  destruct Hch as [-> (e & He & Hch)]. apply NoDup_cons in Hnd as [Ha Hnd]. cbn [clear_chain]. rewrite He. obind. simpl in Hu. rewrite u64_id by lia.
  destruct (IH (de_next e) l (delete a h) (u - 1)) as (h' & -> & Hw); [by apply chain_delete|done|lia|lia|].
  exists h'. split; [f_equal; f_equal; simpl; lia|]. intros b. rewrite Hw. destruct (decide (b = a)) as [->|Hne].
  - rewrite (decide_True (P := a ∈ a :: l)) by set_solver. by rewrite lookup_delete_eq, decide_False.
  - rewrite lookup_delete_ne by done. apply decide_ext. set_solver.
Qed.

(** The chains from bucket [i] on are still there. *)
Lemma clear_loop_spec fuel ht B i h u :
  ht_size ht = Z.of_nat (length B) → (i ≤ length B)%nat → (length B - i ≤ fuel)%nat →
  (∀ j b, (i ≤ j)%nat → B !! j = Some b → ∃ p, cell ht (Z.of_nat j) = Some p ∧ chain h p b) →
  NoDup (concat (drop i B)) → u = Z.of_nat (length (concat (drop i B))) → u < 2 ^ 64 →
  ∃ h', clear_loop fuel ht (Z.of_nat i) u h = Some h' ∧ without h (concat (drop i B)) h'.
Proof.
  revert i h u. induction fuel as [|fuel IH]; intros i h u Hsz Hi Hf Hc Hnd Hu Hb; cbn [clear_loop].
  - assert (i = length B) as -> by lia. destruct (Z.ltb_spec (Z.of_nat (length B)) (ht_size ht)); [lia|]. simpl. exists h. split; [done|].
    rewrite drop_all. intros a. by rewrite decide_False by set_solver.
  - destruct (Z.ltb_spec (Z.of_nat i) (ht_size ht)) as [Hlt|Hge]; cbn [negb andb].
    2: { exists h. split; [done|]. rewrite drop_ge by lia. intros a. by rewrite decide_False by set_solver. }
    rewrite Z.gtb_ltb. destruct (Z.ltb_spec 0 u) as [Hpos|Hz]; cbn [negb andb].
    2: { exists h. split; [done|]. destruct (concat (drop i B)) eqn:Hcc; simpl in *; [|lia]. intros a. by rewrite decide_False by set_solver. }
    destruct (lookup_lt_is_Some_2 B i) as [b Hbi]; [lia|]. rewrite (drop_S _ _ _ Hbi) in *. cbn [concat] in *.
    destruct (Hc i b) as (p & -> & Hch); [lia|done|]. obind. apply NoDup_app in Hnd as (Hndb & Hdis & Hnd). rewrite length_app in Hu.
    destruct (clear_chain_spec (S (size h)) p b h u Hch Hndb) as (h1 & -> & Hw1); [pose proof (chain_fuel_enough _ _ _ Hndb Hch); lia|lia|].
    obind. replace (Z.of_nat i + 1) with (Z.of_nat (S i)) by lia. 
    destruct (IH (S i) h1 (u - Z.of_nat (length b))) as (h2 & -> & Hw2); [done|lia|lia| |done|lia|lia|exists h2; split; [done|by eapply without_trans]].
    intros j b' Hj Hb'. destruct (Hc j b') as (q & Hq & Hch'); [lia|done|]. exists q. split; [done|]. eapply without_chain; [done| |done].
    intros a Ha Hab. eapply Hdis; [done|]. apply elem_of_concat. exists (j - S i)%nat, b'. split; [|done]. rewrite lookup_drop.
    by replace (S i + (j - S i))%nat with j by lia.
Qed.

Lemma dictClear_spec type h ht B :
  ht = _dictReset ∧ B = [] ∨ table_rep type h ht B → NoDup (concat B) → Z.of_nat (length (concat B)) < 2 ^ 64 →
  ∃ h', _dictClear ht h = Some (_dictReset, h') ∧ without h (concat B) h'.
Proof.
  unfold _dictClear. intros [[-> ->]|T] Hnd Hlen.
  { exists h. split; [done|]. intros a. by rewrite decide_False by set_solver. }
  destruct (clear_loop_spec (Z.to_nat (ht_size ht)) ht B 0 h (used ht)) as (h' & Hl & Hw); try done; try lia.
  - apply T.
  - rewrite (tr_size _ _ _ _ T). lia.
  - intros j b _ Hj. pose proof (lookup_lt_Some _ _ _ Hj).
    destruct (table_cell type _ _ _ (Z.of_nat j) T) as (p & b' & Hp & Hb & Hch); [rewrite (tr_size _ _ _ _ T); lia|].
    rewrite Nat2Z.id in Hb. exists p. split; [done|]. congruence.
  - apply T.
  - by rewrite (tr_used _ _ _ _ T).
  - exists h'. change (Z.of_nat 0) with 0 in Hl. by rewrite Hl.
Qed.
End clear.

(** ** Operations *)

Section operations.
Context {K V C : Type} `{Countable C} (type : dictType K) (canon : K → C) `{!TypeLaws type canon}.
Implicit Types (d : dict K V) (m : gmap C (K * option V)) (M : gmap C (K * V)).

Lemma dictEmpty_spec d m : dict_rep type canon d m → bounded m → ∃ d', dictEmpty d = Some d' ∧ dict_rep type canon d' ∅ ∧ iterators d' = 0.
Proof using Type.
  intros (B0 & B1 & Hsh & Hh & _) Hb. pose proof (holds_size _ _ _ _ Hh) as Hsz. rewrite length_app in Hsz. unfold bounded in Hb.
  pose proof (shape_nodup _ _ _ _ Hsh) as Hnd. apply NoDup_app in Hnd as (Hnd0 & Hdis & Hnd1). unfold dictEmpty.
  destruct (dictClear_spec type (entries d) (ht0 d) B0) as (h & -> & Hw); [|done|lia|].
  { destruct Hsh as [? ? ?|? ? ? ? ?|? ? W]; [by left|by right|right; apply W]. }
  obind. destruct (dictClear_spec type h (ht1 d) B1) as (h' & -> & _); [|done|lia|].
  { destruct Hsh as [? ? ?|? ? ? ? ?|? ? W]; [by left|by left|right]. eapply table_ext; [|apply W]. intros a e Ha He. exists e.
    rewrite Hw, decide_False; [done|]. intros ?. by eapply Hdis. }
  obind. eexists. split; [done|]. split; [|done]. exists [], []. split; [by apply shape_none|]. split; [|done]. by apply holds_nil.
Qed.

Lemma dictAdd_spec can key v d m :
  dict_rep type canon d m → bounded m →
  ∃ d' r, dictAdd type can key v d = Some (d', r) ∧ iterators d' = iterators d ∧
    match m !! canon key with
    | Some _ => r = DICT_ERR ∧ dict_rep type canon d' m
    | None => r = DICT_OK ∧ dict_rep type canon d' (<[canon key:=(key, Some v)]> m)
    end.
Proof.
  intros R Hb. unfold dictAdd.
  destruct (dictAddRaw_spec type canon can key d m R Hb) as (d1 & e & x & -> & Hi & [(l & Hm & -> & -> & R1)|(l & -> & -> & R1)]); obind.
  - destruct (dictSetVal_spec _ _ l v _ _ _ R1) as (d2 & k & x & -> & Hi2 & Hk & R2). obind. eexists _, DICT_OK. split; [done|].
    split; [lia|]. rewrite Hm. split; [done|]. rewrite lookup_insert_eq in Hk. injection Hk as <- <-. rewrite insert_insert_eq in R2.
    by eapply rep_at_rep.
  - exists d1, DICT_ERR. split; [done|]. split; [done|]. destruct (rep_at_lookup _ _ _ _ _ _ R1) as (e & _ & ->). split; [done|].
    by eapply rep_at_rep.
Qed.

(** Adding or overwriting through the entry that [dictAddRaw] gives. *)
Lemma set_entry_spec can key v d m :
  dict_rep type canon d m → bounded m →
  ∃ d1 e x l d', dictAddRaw type can key d = Some (d1, e, x) ∧
    match e with Some a => Some a | None => x end = Some l ∧ dictSetVal l v d1 = Some d' ∧ iterators d' = iterators d ∧
    (e = None ↔ is_Some (m !! canon key)) ∧
    dict_rep type canon d' (<[canon key:=(match m !! canon key with Some p => p.1 | None => key end, Some v)]> m).
Proof.
  intros R Hb. destruct (dictAddRaw_spec type canon can key d m R Hb) as (d1 & e & x & Hraw & Hi & [(l & Hm & -> & -> & R1)|(l & -> & -> & R1)]).
  - destruct (dictSetVal_spec _ _ l v _ _ _ R1) as (d2 & k & x & Hset & Hi2 & Hk & R2). exists d1, (Some l), None, l, d2.
    rewrite Hm. split_and!; try done; [lia|].
    rewrite lookup_insert_eq in Hk. injection Hk as <- <-. rewrite insert_insert_eq in R2. by eapply rep_at_rep.
  - destruct (dictSetVal_spec _ _ l v _ _ _ R1) as (d2 & k & x & Hset & Hi2 & Hk & R2). exists d1, None, (Some l), l, d2.
    rewrite Hk. split_and!; try done; [lia|]. by eapply rep_at_rep.
Qed.

Inductive dict_op :=
| DAdd (k : K) (v : V)
| DReplace (k : K) (v : V)
| DAddOrFind (k : K) (v : V)
| DDelete (k : K)
| DUnlink (k : K)
| DFetch (k : K)
| DSize
| DResize
| DExpand (n : Z)
| DRehash (n : nat)
| DEnableResize (b : bool)
| DEmpty.

Inductive dict_out := OInt (z : Z) | OVal (o : option V) | ONone.

(** A call on a dictionary; the boolean is [dict_can_resize].  The entry of
    [dictAddOrFind] is given a value, the one of [dictUnlink] is read and
    freed. *)
Definition dict_step (op : dict_op) (s : dict K V * bool) : option (dict K V * bool * dict_out) :=
  let '(d, can) := s in
  match op with
  | DAdd k v => '(d, r) ← dictAdd type can k v d; Some (d, can, OInt r)
  | DReplace k v => '(d, r) ← dictReplace type can k v d; Some (d, can, OInt r)
  | DAddOrFind k v => '(d, he) ← dictAddOrFind type can k d; l ← he; d ← dictSetVal l v d; Some (d, can, ONone)
  | DDelete k => '(d, r) ← dictDelete type k d; Some (d, can, OInt r)
  | DUnlink k =>
      '(d, he) ← dictUnlink type k d;
      match he with
      | None => Some (d, can, OVal None)
      | Some l => v ← dictGetVal d l; Some (dictFreeUnlinkedEntry he d, can, OVal (Some v))
      end
  | DFetch k => '(d, v) ← dictFetchValue type k d; Some (d, can, OVal v)
  | DSize => Some (d, can, OInt (dictSize d))
  | DResize => '(d, _) ← dictResize can d; Some (d, can, ONone)
  | DExpand n => '(d, _) ← dictExpand n d; Some (d, can, ONone)
  | DRehash n => '(d, _) ← dictRehash type n d; Some (d, can, ONone)
  | DEnableResize b => Some (d, b, ONone)
  | DEmpty => d ← dictEmpty d; Some (d, can, ONone)
  end.

(** The same on a map from canonical keys to keys and values. *)
Definition map_step (op : dict_op) M : gmap C (K * V) * dict_out :=
  match op with
  | DAdd k v => match M !! canon k with Some _ => (M, OInt DICT_ERR) | None => (<[canon k:=(k, v)]> M, OInt DICT_OK) end
  | DReplace k v =>
      match M !! canon k with Some p => (<[canon k:=(p.1, v)]> M, OInt 0) | None => (<[canon k:=(k, v)]> M, OInt 1) end
  | DAddOrFind k v => (<[canon k:=(match M !! canon k with Some p => p.1 | None => k end, v)]> M, ONone)
  | DDelete k => (delete (canon k) M, OInt (match M !! canon k with Some _ => DICT_OK | None => DICT_ERR end))
  | DUnlink k => (delete (canon k) M, OVal (snd <$> M !! canon k))
  | DFetch k => (M, OVal (snd <$> M !! canon k))
  | DSize => (M, OInt (Z.of_nat (size M)))
  | DResize | DExpand _ | DRehash _ | DEnableResize _ => (M, ONone)
  | DEmpty => (∅, ONone)
  end.

Fixpoint dict_run (ops : list dict_op) (s : dict K V * bool) : option (dict K V * bool * list dict_out) :=
  match ops with
  | [] => Some (s, [])
  | op :: ops => '(s, o) ← dict_step op s; '(s, os) ← dict_run ops s; Some (s, o :: os)
  end.

Fixpoint map_run (ops : list dict_op) M : gmap C (K * V) * list dict_out :=
  match ops with
  | [] => (M, [])
  | op :: ops => let '(M, o) := map_step op M in let '(M, os) := map_run ops M in (M, o :: os)
  end.

Definition op_ok (op : dict_op) : Prop := match op with DExpand n => n ≤ 2 ^ 60 | _ => True end.

(** A map all of whose values are set. *)
Definition stored M : gmap C (K * option V) := (λ p, (p.1, Some p.2)) <$> M.

Lemma stored_insert c k v M : stored (<[c:=(k, v)]> M) = <[c:=(k, Some v)]> (stored M).
Proof using Type. unfold stored. by rewrite fmap_insert. Qed.

Lemma stored_delete c M : stored (delete c M) = delete c (stored M).
Proof using Type. unfold stored. by rewrite fmap_delete. Qed.

Lemma stored_lookup c M : stored M !! c = (λ p, (p.1, Some p.2)) <$> M !! c.
Proof using Type. unfold stored. by rewrite lookup_fmap. Qed.

Lemma bounded_stored M : bounded (stored M) ↔ Z.of_nat (size M) < 2 ^ 58.
Proof using Type. unfold bounded, stored. by rewrite map_size_fmap. Qed.

Lemma map_step_size op M : (size (map_step op M).1 ≤ S (size M))%nat.
Proof using Type.
  assert (∀ c x, size (<[c:=x]> M) ≤ S (size M))%nat as Hins by (intros c x; rewrite map_size_insert; case_match; unfold id; lia).
  assert (∀ c, size (delete c M) ≤ S (size M))%nat as Hdel by (intros c; rewrite map_size_delete; case_match; unfold id; lia).
  destruct op; simpl; repeat case_match; simpl; auto; try lia. rewrite map_size_empty. lia.
Qed.

Lemma map_run_size ops M : (size (map_run ops M).1 ≤ size M + length ops)%nat.
Proof using Type.
  revert M. induction ops as [|op ops IH]; intros M; simpl; [lia|]. pose proof (map_step_size op M). destruct (map_step op M) as [M1 o].
  specialize (IH M1). destruct (map_run ops M1). simpl in *. lia.
Qed.

(** What a step owes: the reply of the map, and a dictionary that holds the
    new map. *)
Definition simulates op M (r : option (dict K V * bool * dict_out)) : Prop :=
  ∃ d can, r = Some (d, can, (map_step op M).2) ∧ dict_rep type canon d (stored (map_step op M).1).

Lemma delete_simulates k d can M :
  dict_rep type canon d (stored M) → bounded (stored M) →
  simulates (DDelete k) M (dict_step (DDelete k) (d, can)) ∧ simulates (DUnlink k) M (dict_step (DUnlink k) (d, can)).
Proof.
  intros R Hb. unfold dict_step, dictDelete, dictUnlink, simulates. cbn [map_step fst snd]. rewrite stored_delete. split.
  - destruct (dictGenericDelete_spec type canon false k d _ R Hb) as (d' & [l|] & -> & _ & Hr); obind; eexists _, can.
    + destruct Hr as ((e & Hm & _) & Hr & _). rewrite stored_lookup in Hm. destruct (M !! canon k); [|done]. by split.
    + destruct Hr as [Hm Hr]. rewrite delete_id by done. rewrite stored_lookup in Hm. by destruct (M !! canon k).
  - destruct (dictGenericDelete_spec type canon true k d _ R Hb) as (d' & [l|] & -> & _ & Hr); obind.
    + destruct Hr as ((e & Hm & Hl) & _ & Hr). rewrite stored_lookup in Hm. destruct (M !! canon k) as [[k0 v]|]; [|done]. simpl in Hm.
      apply fmap_Some in Hl as (e' & Hl & He). unfold dictGetVal. rewrite Hl. obind.
      assert (de_val e' = Some v) as -> by (injection Hm as _ ?; injection He; intros; congruence). eexists _, can. by split.
    + destruct Hr as [Hm Hr]. eexists _, can. rewrite delete_id by done. rewrite stored_lookup in Hm. by destruct (M !! canon k).
Qed.

Lemma insert_simulates op d can M :
  match op with DAdd _ _ | DReplace _ _ | DAddOrFind _ _ => True | _ => False end →
  dict_rep type canon d (stored M) → bounded (stored M) → simulates op M (dict_step op (d, can)).
Proof.
  intros Hop R Hb. unfold simulates. destruct op as [k v|k v|k v|k|k|k| | |n|n|b|]; try done; clear Hop; cbn [dict_step map_step fst snd].
  - destruct (dictAdd_spec can k v d _ R Hb) as (d' & r & -> & _ & Hr). rewrite stored_lookup in Hr. obind.
    destruct (M !! canon k); simpl in Hr; destruct Hr as [-> Hr]; eexists _, can; [done|]. split; [done|]. simpl; by rewrite stored_insert.
  - destruct (set_entry_spec can k v d _ R Hb) as (d1 & e & x & l & d' & Hraw & Hl & Hset & _ & He & R'). unfold dictReplace.
    rewrite Hraw. obind. rewrite stored_lookup in *. destruct (M !! canon k) as [p|]; simpl in *.
    + destruct e as [a|]; [by destruct He as [_ He]; discriminate He|]. rewrite Hl. obind. rewrite Hset. obind. eexists _, can.
      split; [done|]. simpl; by rewrite stored_insert.
    + destruct e as [a|]; [|by destruct He as [He _]; destruct He]. injection Hl as ->. rewrite Hset. obind. eexists _, can.
      split; [done|]. simpl; by rewrite stored_insert.
  - destruct (set_entry_spec can k v d _ R Hb) as (d1 & e & x & l & d' & Hraw & Hl & Hset & _ & He & R'). unfold dictAddOrFind.
    rewrite Hraw. obind. rewrite Hl. obind. rewrite Hset. obind. eexists _, can. split; [done|]. simpl. rewrite stored_insert.
    rewrite stored_lookup in R'. by destruct (M !! canon k).
Qed.

Lemma dictResize_spec can d m : dict_rep type canon d m → bounded m → ∃ d' r, dictResize can d = Some (d', r) ∧ dict_rep type canon d' m.
Proof using Type.
  intros R Hb. unfold dictResize. destruct (_ || _); [by eexists _, _|].
  destruct (dictExpand_spec type canon (if used (ht0 d) <? DICT_HT_INITIAL_SIZE then DICT_HT_INITIAL_SIZE else used (ht0 d)) d _ R)
    as (d' & r & -> & R' & _); [|by eexists _, _].
  destruct (used_sum _ _ _ _ R) as (_ & ? & ?). unfold bounded in Hb. case_match; [done|lia].
Qed.

Lemma step_simulates op d can M :
  op_ok op → dict_rep type canon d (stored M) → bounded (stored M) → simulates op M (dict_step op (d, can)).
Proof.
  intros Hop R Hb. destruct op as [k v|k v|k v|k|k|k| | |n|n|b|]; try (by apply insert_simulates); try (by apply delete_simulates);
    unfold simulates; cbn [dict_step map_step fst snd].
  - unfold dictFetchValue. destruct (dictFind_spec type canon k d _ R Hb) as (d' & r & -> & R' & Hf & _). obind. destruct r as [l|].
    + destruct (rep_at_lookup _ _ _ _ _ _ Hf) as (e & He & Hm). unfold dictGetVal. rewrite He. obind. rewrite stored_lookup in Hm.
      destruct (M !! canon k) as [[k0 v]|]; [|done]. simpl in Hm. injection Hm as _ <-. obind. eexists _, can. by split.
    + simpl in Hf. rewrite stored_lookup in Hf. destruct (M !! canon k); [done|]. eexists _, can. by split.
  - eexists _, can. rewrite (dictSize_spec _ _ _ _ R Hb). unfold stored at 1. by rewrite map_size_fmap.
  - destruct (dictResize_spec can d _ R Hb) as (d' & r & -> & R'). by eexists _, can.
  - destruct (dictExpand_spec type canon n d _ R Hop) as (d' & r & -> & R' & _). by eexists _, can.
  - destruct (dictRehash_spec type canon n d _ R Hb) as (d' & r & -> & R' & _). by eexists _, can.
  - by eexists _, b.
  - destruct (dictEmpty_spec d _ R Hb) as (d' & -> & R' & _). eexists _, can. split; [done|]. unfold stored. by rewrite fmap_empty.
Qed.

Lemma run_simulates ops d can M :
  Forall op_ok ops → dict_rep type canon d (stored M) → Z.of_nat (size M + length ops) < 2 ^ 58 →
  ∃ d' can', dict_run ops (d, can) = Some (d', can', (map_run ops M).2) ∧ dict_rep type canon d' (stored (map_run ops M).1).
Proof.
  revert d can M. induction ops as [|op ops IH]; intros d can M Hok R Hlen; [by eexists _, _|].
  apply Forall_cons in Hok as [Hop Hok]. cbn [dict_run map_run length] in *.
  destruct (step_simulates op d can M Hop R) as (d1 & can1 & -> & R1); [apply bounded_stored; lia|]. obind.
  pose proof (map_step_size op M). destruct (map_step op M) as [M1 o]. simpl in *.
  destruct (IH d1 can1 M1 Hok R1) as (d2 & can2 & -> & R2); [lia|]. obind. destruct (map_run ops M1). by eexists _, _.
Qed.

Lemma create_rep : dict_rep type canon (dictCreate : dict K V) (stored ∅).
Proof using Type. exists [], []. unfold stored. rewrite fmap_empty. split; [by apply shape_none|]. split; [by apply holds_nil|done]. Qed.

(** Calls of [dictRehash], as the server makes them when it is idle. *)
Fixpoint rehash_times (k n : nat) d : option (dict K V) :=
  match k with
  | O => Some d
  | S k => '(d, _) ← dictRehash type n d; rehash_times k n d
  end.

(** Each call moves the index of the rehashing or ends it. *)
Lemma rehash_times_spec k n d m :
  dict_rep type canon d m → bounded m → n ≠ 0%nat →
  (dictIsRehashing d = true → ht_size (ht0 d) - rehashidx d < Z.of_nat k) →
  ∃ d', rehash_times k n d = Some d' ∧ dict_rep type canon d' m ∧ dictIsRehashing d' = false.
Proof using Type.
  intros R Hb Hn. revert d R. induction k as [|k IH]; intros d R Hk; cbn [rehash_times].
  { exists d. split; [done|]. split; [done|]. destruct (dictIsRehashing d) eqn:Hre; [|done]. exfalso. specialize (Hk eq_refl).
    destruct R as (B0 & B1 & Hsh & _). destruct Hsh as [Hr ? ?|? Hr ? ?|? ? W]; [by rewrite rehashing_false in Hre..|].
    pose proof (tr_size _ _ _ _ (tw_t0 _ _ _ _ W)). pose proof (tw_idx _ _ _ _ W). lia. }
  destruct (dictIsRehashing d) eqn:Hre0.
  - destruct (dictRehash_spec type canon n d m R Hb) as (d1 & r & -> & R1 & _ & _ & Hr & Hprog). obind.
    apply IH; [done|]. intros Hre. assert (r ≠ 0) as Hr0 by (intros Hr0; apply Hr in Hr0; congruence).
    destruct Hprog as (Hs & Hi & Hlt); [done..|]. specialize (Hlt Hn). specialize (Hk eq_refl). lia.
  - unfold dictRehash. rewrite Hre0. obind. apply IH; [done|]. congruence.
Qed.

(** C20: Dictionaries implement finite maps.  Any sequence of calls on a new
    dictionary (adding, replacing, deleting, unlinking, searching, counting,
    resizing, rehashing by any number of steps, clearing, with resizing
    allowed or not) runs without fault, and every call returns what the same
    operation returns on a finite map, whether or not entries are being moved
    between two tables.  Keys are identified when the type of the dictionary
    compares them equal; explicit sizes are at most 2^60. *)
Theorem dict_refines_map (ops : list dict_op) :
  Forall op_ok ops → Z.of_nat (length ops) < 2 ^ 58 →
  ∃ s, dict_run ops (dictCreate, true) = Some (s, (map_run ops ∅).2).
Proof.
  intros Hok Hlen. destruct (run_simulates ops dictCreate true ∅ Hok create_rep) as (d & can & -> & _); [by rewrite map_size_empty|by eexists].
Qed.

(** C25: Rehashing ends.  In the dictionary that any sequence of calls leaves
    behind, at most as many calls of [dictRehash] as the old table has buckets
    (and one) move every entry, however few steps each call is asked for; the
    dictionary holds the same map before and after. *)
Theorem dict_rehash_ends (ops : list dict_op) (n : nat) :
  Forall op_ok ops → Z.of_nat (length ops) < 2 ^ 58 → n ≠ 0%nat →
  ∃ d can d', dict_run ops (dictCreate, true) = Some (d, can, (map_run ops ∅).2) ∧
    rehash_times (S (Z.to_nat (ht_size (ht0 d)))) n d = Some d' ∧ dictIsRehashing d' = false ∧
    dict_rep type canon d (stored (map_run ops ∅).1) ∧ dict_rep type canon d' (stored (map_run ops ∅).1).
Proof.
  intros Hok Hlen Hn. destruct (run_simulates ops dictCreate true ∅ Hok create_rep) as (d & can & Hrun & R); [by rewrite map_size_empty|].
  destruct (rehash_times_spec (S (Z.to_nat (ht_size (ht0 d)))) n d _ R) as (d' & Ht & R' & Hre); [| done| |by exists d, can, d'].
  - apply bounded_stored. pose proof (map_run_size ops ∅) as Hs. rewrite map_size_empty in Hs. lia.
  - intros Hre. destruct R as (B0 & B1 & Hsh & _). destruct Hsh as [Hr ? ?|? Hr ? ?|? ? W]; [by rewrite rehashing_false in Hre..|].
    pose proof (tr_size _ _ _ _ (tw_t0 _ _ _ _ W)). pose proof (tw_idx _ _ _ _ W). lia.
Qed.
End operations.

Arguments dict_op : clear implicits.

(** Commands added under names in any case. *)
Definition name (s : sds) (H : nul_free s = true) : cstring := exist _ s H.

Definition dict_example : list (dict_op cstring Z) :=
  [DAdd (name "get" eq_refl) 1; DAdd (name "set" eq_refl) 2; DAdd (name "rzadd" eq_refl) 3; DAdd (name "rzrem" eq_refl) 4;
   DAdd (name "ozadd" eq_refl) 5; DFetch (name "RZADD" eq_refl); DAdd (name "Get" eq_refl) 6; DReplace (name "SET" eq_refl) 7;
   DDelete (name "ozADD" eq_refl); DUnlink (name "set" eq_refl); DSize; DRehash 1; DFetch (name "ozadd" eq_refl); DResize; DSize].

Lemma dict_refines_map_witness :
  ∃ s, dict_run (cstring_type (commandTableDictType (Z.of_nat <$> seq 0 16))) dict_example (dictCreate, true)
    = Some (s, [OInt 0; OInt 0; OInt 0; OInt 0; OInt 0; OVal (Some 3); OInt 1; OInt 0; OInt 0; OVal (Some 7); OInt 3; ONone; OVal None; ONone; OInt 3]).
Proof.
  destruct (dict_refines_map (cstring_type (commandTableDictType (Z.of_nat <$> seq 0 16))) cstring_lower dict_example) as [s Hs].
  - repeat constructor.
  - done.
  - exists s. exact Hs.
Defined.

Lemma dict_rehash_ends_witness :
  ∃ d can d', dict_run (cstring_type (commandTableDictType (Z.of_nat <$> seq 0 16))) (take 5 dict_example) (dictCreate, true)
      = Some (d, can, [OInt 0; OInt 0; OInt 0; OInt 0; OInt 0]) ∧ dictIsRehashing d = true ∧
    rehash_times (cstring_type (commandTableDictType (Z.of_nat <$> seq 0 16))) (S (Z.to_nat (ht_size (ht0 d)))) 1 d = Some d' ∧
    dictIsRehashing d' = false.
Proof.
  destruct (dict_rehash_ends (cstring_type (commandTableDictType (Z.of_nat <$> seq 0 16))) cstring_lower (take 5 dict_example) 1)
    as (d & can & d' & Hrun & Ht & Hre & _).
  - repeat constructor.
  - done.
  - done.
  - exists d, can, d'. split; [exact Hrun|]. split; [|by split].
    assert (dictIsRehashing <$> (fst ∘ fst <$> dict_run (cstring_type (commandTableDictType (Z.of_nat <$> seq 0 16))) (take 5 dict_example) (dictCreate, true)) = Some true)
      as H by (vm_compute; reflexivity). rewrite Hrun in H. by injection H.
Defined.

(** The comparison of command names stops at a zero byte and the hash does
    not, so names with a zero byte are found or not by chance. *)
Definition nul_name (s : sds) : sds := ("get" ++ String (Ascii.ascii_of_nat 0) s)%string.

Lemma nul_name_lookup :
  let type := commandTableDictType (Z.of_nat <$> seq 0 16) in
  (∀ s, keyCompare type (nul_name s) "get"%string = true) ∧
  snd <$> dict_run type [DAdd "get"%string 1; DFetch (nul_name "f")] (dictCreate, true) = Some [OInt 0; OVal (Some 1)] ∧
  snd <$> dict_run type [DAdd "get"%string 1; DFetch (nul_name "g")] (dictCreate, true) = Some [OInt 0; OVal None].
Proof. split; [done|]. split; vm_compute; reflexivity. Qed.
