(* ===== verification/DictScan.v ===== *)
(** * Scanning a dictionary (src/dict.c: rev, dictScan)

    [dictScan] is called with a cursor and returns the next one; a client
    repeats this from 0 until it gets 0 back.  The dictionary may change
    between the calls, its tables may be replaced by larger or smaller ones
    and entries may be moved.  The cursor counts with its bits reversed, and
    the keys a scan has covered are those whose reversed hash is below the
    reversed cursor. *)

From S2P Require Import Prelude.
From S2P Require Import Dict.
From S2P Require Import DictRep.
From S2P Require Import Sds.
From S2P Require Import SipHash.
From S2P Require Import DictMap.

#[local] Open Scope Z_scope.

(** ** The code *)

(** [~x] on an [unsigned long]. *)
Definition not64 (x : Z) : Z := 2 ^ 64 - 1 - x.

(** The loop of [rev]: [s] is the size of the halves still to be swapped. *)
Fixpoint rev_loop (fuel : nat) (s mask v : Z) : Z :=
  match fuel with
  | O => v
  | S fuel' =>
      let s := Z.shiftr s 1 in
      if s >? 0 then
        let mask := Z.lxor mask (u64 (Z.shiftl mask s)) in
        rev_loop fuel' s mask
          (Z.lor (Z.land (Z.shiftr v s) mask) (Z.land (u64 (Z.shiftl v s)) (not64 mask)))
      else v
  end.

(** [rev]; the size is 64 and halves to 1 in six rounds. *)
Definition dict_rev (v : Z) : Z := rev_loop 7 64 (not64 0) v.

(** [v |= ~m; v = rev(v); v++; v = rev(v)]. *)
Definition next_cursor (m v : Z) : Z := dict_rev (u64 (dict_rev (Z.lor v (not64 m)) + 1)).

Section scan.
Context {K V : Type}.
Implicit Types (d : dict K V) (h : gmap dloc (dictEntry K V)).

(** The loop that emits a chain: the entries in the order of the calls of
    [fn]. *)
Fixpoint emit_chain (fuel : nat) h (de : option dloc) : option (list dloc) :=
  match de with
  | None => Some []
  | Some l =>
      match fuel with
      | O => None
      | S fuel' => e ← h !! l; rest ← emit_chain fuel' h (de_next e); Some (l :: rest)
      end
  end.

Definition emit_bucket d (t : dictht) (v : Z) : option (list dloc) :=
  de ← cell t (Z.land v (sizemask t)); emit_chain (chain_fuel d) (entries d) de.

(** The [do] loop over the buckets of the larger table. *)
Fixpoint scan_larger (fuel : nat) d (t1 : dictht) (m0 m1 v : Z) : option (Z * list dloc) :=
  match fuel with
  | O => None
  | S fuel' =>
      out ← emit_bucket d t1 v;
      let v := next_cursor m1 v in
      if Z.land v (Z.lxor m0 m1) =? 0 then Some (v, out)
      else '(v, out') ← scan_larger fuel' d t1 m0 m1 v; Some (v, out ++ out')
  end.

(** The scan of one table, or of the smaller and the larger one. *)
Definition scan_body d (v : Z) : option (Z * list dloc) :=
  if negb (dictIsRehashing d) then
    let t0 := ht0 d in
    let m0 := sizemask t0 in
    out ← emit_bucket d t0 v; Some (next_cursor m0 v, out)
  else
    let '(t0, t1) := if ht_size (ht0 d) >? ht_size (ht1 d) then (ht1 d, ht0 d) else (ht0 d, ht1 d) in
    let m0 := sizemask t0 in
    let m1 := sizemask t1 in
    out ← emit_bucket d t0 v;
    '(v, out') ← scan_larger (S (Z.to_nat (ht_size t1))) d t1 m0 m1 v;
    Some (v, out ++ out').

(** [dictScan]: the dictionary, the next cursor and the entries passed to
    [fn], which only reads here; [bucketfn] is NULL.  The counter of
    iterators is raised during the call. *)
Definition dictScan d (v : Z) : option (dict K V * Z * list dloc) :=
  if dictSize d =? 0 then Some (d, 0, [])
  else
    let d := set_iterators (u64 (iterators d + 1)) d in
    '(v, out) ← scan_body d v;
    Some (set_iterators (u64 (iterators d - 1)) d, v, out).
End scan.

(** ** Reversing bits *)

Lemma u64_word v : word (u64 v).
Proof. by apply Z.mod_pos_bound. Qed.

Lemma word_bit v i : word v → 64 ≤ i → Z.testbit v i = false.
Proof. intros [Hv Hv'] Hi. rewrite <- (Z.mod_small v (2 ^ 64)) by done. by apply Z.mod_pow2_bits_high. Qed.

(** Words with the same 64 bits are equal. *)
Lemma word_eq x y : word x → word y → (∀ i, 0 ≤ i < 64 → Z.testbit x i = Z.testbit y i) → x = y.
Proof.
  intros Hx Hy Hb. apply Z.bits_inj'. intros i Hi. destruct (decide (i < 64)); [by apply Hb|]. rewrite !word_bit by (done || lia). done.
Qed.

Lemma not64_bit m i : word m → 0 ≤ i < 64 → Z.testbit (not64 m) i = negb (Z.testbit m i).
Proof.
  intros [Hm Hm'] Hi. replace (not64 m) with (Z.lnot m mod 2 ^ 64).
  - rewrite Z.mod_pow2_bits_low, Z.lnot_spec by lia. done.
  - unfold not64, Z.lnot. rewrite <- (Z.mod_add _ 1) by lia. rewrite Z.mod_small; lia.
Qed.

Lemma not64_word m : word m → word (not64 m).
Proof. unfold word, not64. lia. Qed.

(** One round of the loop swaps blocks of [s] bits; the mask selects the
    blocks whose bits come from above. *)
Definition rev_step (s mask v : Z) : Z :=
  Z.lor (Z.land (Z.shiftr v s) mask) (Z.land (u64 (Z.shiftl v s)) (not64 mask)).

Definition swap (s mask i : Z) : Z := if Z.testbit mask i then i + s else i - s.

Lemma rev_step_bit s mask v i : word mask → 0 ≤ i < 64 → Z.testbit (rev_step s mask v) i = Z.testbit v (swap s mask i).
Proof.
  intros Hm Hi. unfold rev_step, swap. rewrite Z.lor_spec, !Z.land_spec, Z.shiftr_spec, not64_bit by (done || lia).
  unfold u64. rewrite Z.mod_pow2_bits_low, Z.shiftl_spec by lia.
  destruct (Z.testbit mask i); [rewrite andb_true_r, andb_false_r|rewrite andb_false_r, andb_true_r]; [apply orb_false_r|done].
Qed.

Lemma word_bits x : 0 ≤ x → (∀ i, 64 ≤ i → Z.testbit x i = false) → word x.
Proof.
  intros Hx Hb. assert (x = x mod 2 ^ 64) as ->; [|by apply u64_word]. apply Z.bits_inj'. intros i Hi. destruct (decide (i < 64)).
  - by rewrite Z.mod_pow2_bits_low.
  - rewrite Z.mod_pow2_bits_high by lia. apply Hb. lia.
Qed.

Lemma land_word x m : word m → word (Z.land x m).
Proof.
  intros Hm. apply word_bits; [apply Z.land_nonneg; right; apply Hm|]. intros i Hi. rewrite Z.land_spec, (word_bit m) by done. apply andb_false_r.
Qed.

Lemma lor_word x y : word x → word y → word (Z.lor x y).
Proof.
  intros Hx Hy. apply word_bits; [apply Z.lor_nonneg; split; [apply Hx|apply Hy]|]. intros i Hi. by rewrite Z.lor_spec, !word_bit.
Qed.

Lemma rev_step_word s mask v : word mask → word (rev_step s mask v).
Proof. intros Hm. unfold rev_step. apply lor_word; apply land_word; [done|by apply not64_word]. Qed.

Lemma rev_loop_S fuel s mask v s' mask' :
  Z.shiftr s 1 = s' → (s' >? 0) = true → Z.lxor mask (u64 (Z.shiftl mask s')) = mask' →
  rev_loop (S fuel) s mask v = rev_loop fuel s' mask' (rev_step s' mask' v).
Proof. intros <- Hs <-. cbn [rev_loop]. by rewrite Hs. Qed.

Lemma rev_steps v :
  dict_rev v = rev_step 1 0x5555555555555555 (rev_step 2 0x3333333333333333 (rev_step 4 0x0F0F0F0F0F0F0F0F
    (rev_step 8 0x00FF00FF00FF00FF (rev_step 16 0x0000FFFF0000FFFF (rev_step 32 0x00000000FFFFFFFF v))))).
Proof.
  unfold dict_rev. rewrite (rev_loop_S _ _ _ _ 32 0x00000000FFFFFFFF), (rev_loop_S _ _ _ _ 16 0x0000FFFF0000FFFF),
    (rev_loop_S _ _ _ _ 8 0x00FF00FF00FF00FF), (rev_loop_S _ _ _ _ 4 0x0F0F0F0F0F0F0F0F),
    (rev_loop_S _ _ _ _ 2 0x3333333333333333), (rev_loop_S _ _ _ _ 1 0x5555555555555555) by reflexivity. done.
Qed.

Lemma dict_rev_word v : word (dict_rev v).
Proof. rewrite rev_steps. by apply rev_step_word. Qed.

(** Where bit [i] of the result comes from. *)
Definition rev_index (i : Z) : Z :=
  swap 32 0x00000000FFFFFFFF (swap 16 0x0000FFFF0000FFFF (swap 8 0x00FF00FF00FF00FF
    (swap 4 0x0F0F0F0F0F0F0F0F (swap 2 0x3333333333333333 (swap 1 0x5555555555555555 i))))).

Lemma below_64 (P : Z → bool) i : forallb (λ n, P (Z.of_nat n)) (seq 0 64) = true → 0 ≤ i < 64 → P i = true.
Proof.
  intros HP Hi. rewrite forallb_forall in HP. rewrite <- (Z2Nat.id i) by lia. apply HP. apply in_seq. lia.
Qed.

Ltac by_cases_64 i P := apply (below_64 P i); [vm_compute; reflexivity|done].

Definition swap_ok (s mask : Z) : Prop := ∀ j, 0 ≤ j < 64 → 0 ≤ swap s mask j < 64.

Lemma swap_check s mask :
  forallb (λ n, (0 <=? swap s mask (Z.of_nat n)) && (swap s mask (Z.of_nat n) <? 64)) (seq 0 64) = true → swap_ok s mask.
Proof. intros Hc j Hj. pose proof (below_64 (λ i, (0 <=? swap s mask i) && (swap s mask i <? 64)) j Hc Hj) as Hr. cbv beta in Hr. lia. Qed.

Lemma dict_rev_bit v i : 0 ≤ i < 64 → Z.testbit (dict_rev v) i = Z.testbit v (63 - i).
Proof.
  intros Hi. rewrite rev_steps. assert (rev_index i =? 63 - i = true) as Hx%Z.eqb_eq by (by_cases_64 i (λ i, rev_index i =? 63 - i)).
  rewrite <- Hx. unfold rev_index.
  assert (swap_ok 1 0x5555555555555555) as H1 by (by apply swap_check).
  assert (swap_ok 2 0x3333333333333333) as H2 by (by apply swap_check).
  assert (swap_ok 4 0x0F0F0F0F0F0F0F0F) as H4 by (by apply swap_check).
  assert (swap_ok 8 0x00FF00FF00FF00FF) as H8 by (by apply swap_check).
  assert (swap_ok 16 0x0000FFFF0000FFFF) as H16 by (by apply swap_check).
  unfold swap_ok in *. rewrite !rev_step_bit by (first [by split|auto 8]). done.
Qed.

Lemma dict_rev_involutive v : word v → dict_rev (dict_rev v) = v.
Proof.
  intros Hv. apply word_eq; [apply dict_rev_word|done|]. intros i Hi. rewrite !dict_rev_bit by lia. f_equal. lia.
Qed.

#[local] Opaque dict_rev.

(** ** Cursors in reversed order

    For a table of [2 ^ k] buckets a bucket is an interval of [2 ^ (64 - k)]
    reversed words. *)

Lemma ones_word k : 0 ≤ k ≤ 64 → word (Z.ones k).
Proof. intros Hk. rewrite Z.ones_equiv. pose proof (Z.pow_le_mono_r 2 k 64). pose proof (Z.pow_pos_nonneg 2 k). unfold word. lia. Qed.

Lemma bit_div x n j : 0 ≤ n → 0 ≤ j → Z.testbit (x / 2 ^ n) j = Z.testbit x (j + n).
Proof. intros Hn Hj. rewrite <- Z.shiftr_div_pow2, Z.shiftr_spec by lia. done. Qed.

(** Words in the same interval have the same low bits. *)
Lemma same_bucket k x y :
  0 ≤ k ≤ 64 → word x → word y → dict_rev x / 2 ^ (64 - k) = dict_rev y / 2 ^ (64 - k) → Z.land x (Z.ones k) = Z.land y (Z.ones k).
Proof.
  intros Hk Hx Hy He. apply word_eq; [by apply land_word, ones_word..|]. intros i Hi. rewrite !Z.land_spec.
  destruct (decide (i < k)); [|by rewrite Z.ones_spec_high, !andb_false_r by lia]. f_equal.
  assert (Z.testbit (dict_rev x / 2 ^ (64 - k)) (k - 1 - i) = Z.testbit (dict_rev y / 2 ^ (64 - k)) (k - 1 - i)) as Hb by (by rewrite He).
  rewrite !bit_div, !dict_rev_bit in Hb by lia. by replace (63 - (k - 1 - i + (64 - k))) with i in Hb by lia.
Qed.

Lemma land_lor_absorb x y : Z.land (Z.lor x y) y = y.
Proof. apply Z.bits_inj'. intros i _. rewrite Z.land_spec, Z.lor_spec. by destruct (Z.testbit x i), (Z.testbit y i). Qed.

Lemma lor_ones_div r n : 0 ≤ n → Z.lor r (Z.ones n) = r / 2 ^ n * 2 ^ n + (2 ^ n - 1).
Proof.
  intros Hn. rewrite (Z.div_mod (Z.lor r (Z.ones n)) (2 ^ n)) by lia. rewrite <- Z.land_ones, land_lor_absorb by lia.
  rewrite <- !Z.shiftr_div_pow2, Z.shiftr_lor, (Z.shiftr_div_pow2 (Z.ones n)) by lia.
  rewrite (Z.div_small (Z.ones n)), Z.lor_0_r, Z.ones_equiv by (rewrite Z.ones_equiv; lia). lia.
Qed.

(** The next cursor starts the next interval. *)
Lemma next_cursor_rev k v :
  0 ≤ k ≤ 64 → word v →
  dict_rev (next_cursor (Z.ones k) v) = u64 ((dict_rev v / 2 ^ (64 - k) + 1) * 2 ^ (64 - k)).
Proof.
  intros Hk Hv. unfold next_cursor. rewrite dict_rev_involutive by apply u64_word. pose proof (ones_word k Hk) as Ho.
  assert (dict_rev (Z.lor v (not64 (Z.ones k))) = Z.lor (dict_rev v) (Z.ones (64 - k))) as ->.
  { apply word_eq; [apply dict_rev_word|apply lor_word; [apply dict_rev_word|apply ones_word; lia]|]. intros i Hi.
    rewrite dict_rev_bit, !Z.lor_spec, dict_rev_bit, not64_bit by (done || lia). f_equal.
    destruct (decide (i < 64 - k)); [rewrite (Z.ones_spec_low (64 - k)), Z.ones_spec_high by lia|rewrite (Z.ones_spec_high (64 - k)), Z.ones_spec_low by lia]; done. }
  rewrite lor_ones_div by lia. f_equal. lia.
Qed.

Lemma next_cursor_word m v : word (next_cursor m v).
Proof. apply dict_rev_word. Qed.

(** The test at the end of the [do] loop. *)
Lemma loop_test k0 k1 v :
  0 ≤ k0 ≤ k1 → k1 ≤ 64 → word v →
  Z.land v (Z.lxor (Z.ones k0) (Z.ones k1)) = 0 ↔ dict_rev v mod 2 ^ (64 - k0) < 2 ^ (64 - k1).
Proof.
  intros Hk0 Hk1 Hv. assert (0 ≤ dict_rev v mod 2 ^ (64 - k0)) as Hm by (by apply Z.mod_pos_bound; lia).
  assert (∀ i, 0 ≤ i < 64 → Z.testbit (Z.lxor (Z.ones k0) (Z.ones k1)) i = (k0 <=? i) && (i <? k1)) as Hx.
  { intros i Hi. rewrite Z.lxor_spec, !Z.testbit_ones_nonneg by lia. destruct (Z.ltb_spec i k0), (Z.ltb_spec i k1), (Z.leb_spec k0 i); done || lia. }
  set (w := dict_rev v mod 2 ^ (64 - k0)) in *. split.
  - intros Hl. assert (w / 2 ^ (64 - k1) = 0) as Hw; [|pose proof (Z.div_mod w (2 ^ (64 - k1))); pose proof (Z.mod_pos_bound w (2 ^ (64 - k1))); lia].
    apply Z.bits_inj'. intros j Hj. rewrite bit_div, Z.bits_0 by lia. unfold w. destruct (decide (j + (64 - k1) < 64 - k0)).
    + rewrite Z.mod_pow2_bits_low, dict_rev_bit by lia.
      assert (Z.testbit (Z.land v (Z.lxor (Z.ones k0) (Z.ones k1))) (63 - (j + (64 - k1))) = false) as Hb by (by rewrite Hl, Z.bits_0).
      rewrite Z.land_spec, Hx in Hb by lia. apply andb_false_iff in Hb as [Hb|Hb]; [done|lia].
    + apply Z.mod_pow2_bits_high. lia.
  - intros Hl. apply Z.bits_inj'. intros i Hi. rewrite Z.bits_0, Z.land_spec. destruct (decide (i < 64)); [|by rewrite (word_bit v) by (done || lia)].
    rewrite Hx by lia. destruct (Z.leb_spec k0 i), (Z.ltb_spec i k1); try (by rewrite andb_false_r).
    assert (Z.testbit v i = Z.testbit w (63 - i)) as ->.
    { unfold w. rewrite Z.mod_pow2_bits_low, dict_rev_bit by lia. f_equal. lia. }
    rewrite <- (Z.mod_small w (2 ^ (64 - k1))), Z.mod_pow2_bits_high by lia. done.
Qed.

(** ** What a call emits *)

Section coverage.
Context {K V : Type} (type : dictType K).
Implicit Types (d : dict K V) (h : gmap dloc (dictEntry K V)) (B : list (list dloc)).

(** The place of a key in the order of the scan. *)
Definition pos (key : K) : Z := dict_rev (u64 (hashFunction type key)).

Lemma pos_word key : word (pos key).
Proof. apply dict_rev_word. Qed.

(** The entries of [B] placed from [lo] to [hi] are in [out]. *)
Definition covers h B (lo hi : Z) (out : list dloc) : Prop :=
  ∀ a e, a ∈ concat B → h !! a = Some e → lo ≤ pos (de_key e) < hi → a ∈ out.

Lemma covers_app h B lo mid hi out out' :
  covers h B lo mid out → covers h B mid hi out' → covers h B lo hi (out ++ out').
Proof.
  intros H1 H2 a e Ha He Hp. apply elem_of_app. destruct (decide (pos (de_key e) < mid)); [left; eapply H1|right; eapply H2]; eauto; lia.
Qed.

Lemma emit_chain_spec fuel h p l : chain h p l → (length l ≤ fuel)%nat → emit_chain fuel h p = Some l.
Proof.
  revert p l. induction fuel as [|fuel IH]; intros p [|a l] Hch Hf; simpl in Hf; try lia; try (simpl in *; by subst p).
  destruct Hch as [-> (e & He & Hch)]. cbn [emit_chain]. rewrite He. obind. by rewrite (IH _ _ Hch) by lia.
Qed.

Lemma land_u64 x k : 0 ≤ k ≤ 64 → Z.land (u64 x) (Z.ones k) = Z.land x (Z.ones k).
Proof.
  intros Hk. apply Z.bits_inj'. intros i Hi. rewrite !Z.land_spec. destruct (decide (i < k)).
  - unfold u64. by rewrite Z.mod_pow2_bits_low by lia.
  - by rewrite Z.ones_spec_high, !andb_false_r by lia.
Qed.

Lemma table_ones h t B : table_rep type h t B → ∃ k, 2 ≤ k ≤ 60 ∧ ht_size t = 2 ^ k ∧ sizemask t = Z.ones k.
Proof. intros T. destruct (tr_pow _ _ _ _ T) as (k & Hk & Hs). exists k. rewrite (tr_mask _ _ _ _ T), Hs, Z.ones_equiv. split_and!; lia. Qed.

Lemma emit_bucket_spec d t B v k :
  table_rep type (entries d) t B → NoDup (concat B) → word v → 0 ≤ k ≤ 64 → sizemask t = Z.ones k →
  ∃ out, emit_bucket d t v = Some out ∧ out ⊆ concat B ∧
    covers (entries d) B (dict_rev v / 2 ^ (64 - k) * 2 ^ (64 - k)) ((dict_rev v / 2 ^ (64 - k) + 1) * 2 ^ (64 - k)) out.
Proof.
  intros T Hnd Hv Hk Hm. unfold emit_bucket. destruct (table_cell type _ _ _ _ T (index_range _ _ _ _ v T)) as (p & b & -> & Hb & Hch).
  obind. pose proof (concat_nodup_bucket _ _ _ Hnd Hb) as Hndb. pose proof (chain_fuel_enough _ _ _ Hndb Hch).
  exists b. split; [apply emit_chain_spec; [done|unfold chain_fuel; lia]|]. split.
  - intros a Ha. apply elem_of_concat. eauto.
  - intros a e (j & b' & Hj & Ha)%elem_of_concat He Hp. pose proof (tr_place _ _ _ _ T _ _ _ _ Hj Ha He) as Hpl.
    assert (Z.land (hashFunction type (de_key e)) (sizemask t) = Z.land v (sizemask t)) as Heq.
    { rewrite Hm, <- (land_u64 (hashFunction _ _)) by done. apply same_bucket; [done|apply u64_word|done|].
      symmetry. apply (Z.div_unique _ _ _ (pos (de_key e) - dict_rev v / 2 ^ (64 - k) * 2 ^ (64 - k))); unfold pos in *; [left|]; lia. }
    rewrite <- Heq, Hpl, Nat2Z.id in Hb. congruence.
Qed.

(** Steps of [P1] up to the next multiple of [P0]. *)
Lemma step_up P1 Q r q0 :
  0 < P1 → 0 < Q → 0 ≤ r → r / (P1 * Q) = q0 →
  let next := (r / P1 + 1) * P1 in
  let hi := (q0 + 1) * (P1 * Q) in
  q0 * (P1 * Q) ≤ r / P1 * P1 ∧ r / P1 * P1 ≤ r < next ∧ next ≤ hi ∧
  (next < hi → next / (P1 * Q) = q0 ∧ P1 ≤ next mod (P1 * Q) ∧ next / P1 * P1 = next).
Proof.
  intros H1 HQ Hr Hq next hi. pose proof (Z.div_mod r P1 ltac:(lia)) as Hd. pose proof (Z.mod_pos_bound r P1 H1) as Hm.
  assert (r / P1 / Q = q0) as Hq1 by (by rewrite Z.div_div by lia).
  pose proof (Z.div_mod (r / P1) Q ltac:(lia)) as Hd1. pose proof (Z.mod_pos_bound (r / P1) Q HQ) as Hm1. rewrite Hq1 in Hd1.
  split; [nia|]. split; [unfold next; lia|]. split; [unfold next, hi; nia|]. intros Hlt.
  assert (r / P1 + 1 < (q0 + 1) * Q) as Hlt1 by (unfold next, hi in Hlt; nia).
  assert (next / P1 = r / P1 + 1) as Hn by (unfold next; rewrite Z.div_mul; lia).
  assert (next / (P1 * Q) = q0) as Hnq. { rewrite <- Z.div_div, Hn by lia. symmetry. apply (Z.div_unique _ _ _ (r / P1 + 1 - Q * q0)); lia. }
  split; [done|]. split; [|rewrite Hn; unfold next; lia]. rewrite Z.mod_eq, Hnq by lia. unfold next. nia.
Qed.

Lemma u64_multiple q k : 0 ≤ k ≤ 64 → u64 (q * 2 ^ (64 - k)) mod 2 ^ (64 - k) = 0.
Proof.
  intros Hk. unfold u64. assert (2 ^ 64 = 2 ^ k * 2 ^ (64 - k)) as -> by (rewrite <- Z.pow_add_r by lia; f_equal; lia).
  rewrite Z.mul_mod_distr_r by lia. apply Z.mod_mul. lia.
Qed.

Lemma scan_larger_spec fuel d t B k0 k1 v :
  table_rep type (entries d) t B → NoDup (concat B) → word v → 0 ≤ k0 ≤ k1 → k1 ≤ 64 → sizemask t = Z.ones k1 →
  (dict_rev v / 2 ^ (64 - k0) + 1) * 2 ^ (64 - k0) - dict_rev v / 2 ^ (64 - k1) * 2 ^ (64 - k1) ≤ Z.of_nat fuel * 2 ^ (64 - k1) →
  ∃ v' out, scan_larger fuel d t (Z.ones k0) (Z.ones k1) v = Some (v', out) ∧ word v' ∧ out ⊆ concat B ∧
    dict_rev v' = u64 ((dict_rev v / 2 ^ (64 - k0) + 1) * 2 ^ (64 - k0)) ∧
    covers (entries d) B (dict_rev v) ((dict_rev v / 2 ^ (64 - k0) + 1) * 2 ^ (64 - k0)) out.
Proof.
  intros T Hnd Hv Hk0 Hk1 Hm. set (P1 := 2 ^ (64 - k1)). assert (2 ^ (64 - k0) = P1 * 2 ^ (k1 - k0)) as HP.
  { unfold P1. rewrite <- Z.pow_add_r by lia. f_equal. lia. }
  assert (2 ^ 64 = 2 ^ (64 - k0) * 2 ^ k0) as HW by (rewrite <- Z.pow_add_r by lia; f_equal; lia).
  assert (0 < P1) by (unfold P1; lia). assert (0 < 2 ^ (k1 - k0)) by lia. set (P0 := 2 ^ (64 - k0)) in *.
  revert v Hv. induction fuel as [|fuel IH]; intros v Hv Hf.
  { pose proof (step_up P1 (2 ^ (k1 - k0)) (dict_rev v) _ H H0 (proj1 (dict_rev_word v)) eq_refl) as (_ & ? & ? & _). rewrite <- HP in *. lia. }
  cbn [scan_larger]. destruct (emit_bucket_spec d t B v k1 T Hnd Hv ltac:(lia) Hm) as (out & -> & Hsub & Hcov). obind. fold P1 in Hcov.
  pose proof (next_cursor_rev k1 v ltac:(lia) Hv) as Hn. fold P1 in Hn. pose proof (next_cursor_word (Z.ones k1) v) as Hw.
  set (v1 := next_cursor (Z.ones k1) v) in *. pose proof (dict_rev_word v) as Hrv.
  pose proof (step_up P1 (2 ^ (k1 - k0)) (dict_rev v) _ H H0 (proj1 Hrv) eq_refl) as (_ & Hr & Hle & Hlt). rewrite <- HP in *.
  assert ((dict_rev v / P0 + 1) * P0 ≤ 2 ^ 64) as HE.
  { assert (dict_rev v / P0 < 2 ^ k0); [|rewrite HW; nia]. apply Z.div_lt_upper_bound; [unfold P0; lia|]. rewrite <- HW. apply Hrv. }
  pose proof (loop_test k0 k1 v1 Hk0 Hk1 Hw) as Htest. fold P0 P1 in Htest.
  destruct (decide ((dict_rev v / P1 + 1) * P1 = (dict_rev v / P0 + 1) * P0)) as [He|Hne].
  - destruct (Z.eqb_spec (Z.land v1 (Z.lxor (Z.ones k0) (Z.ones k1))) 0) as [Hz|Hnz].
    + exists v1, out. rewrite He in Hn. split_and!; try done. intros a e Ha Hea Hp. eapply Hcov; [done..|]. lia.
    + exfalso. apply Hnz, Htest. rewrite Hn, He. unfold P0. by rewrite u64_multiple by lia.
  - destruct Hlt as (Hq & Hge & Hmul); [lia|]. rewrite u64_id in Hn by (unfold word in Hrv; lia).
    destruct (Z.eqb_spec (Z.land v1 (Z.lxor (Z.ones k0) (Z.ones k1))) 0) as [Hz|Hnz]; [apply Htest in Hz; rewrite Hn in Hz; lia|].
    destruct (IH v1 Hw) as (v' & out' & -> & Hw' & Hsub' & Hr' & Hcov'); [rewrite Hn, Hq, Hmul; lia|]. obind.
    exists v', (out ++ out'). rewrite Hn, Hq in *. split_and!; try done; [set_solver|].
    eapply covers_app; [|exact Hcov']. intros a e Ha Hea Hp. eapply Hcov; [done..|]. lia.
Qed.

(** The smaller table first, then the larger one. *)
Lemma scan_both_spec d t0 t1 B0 B1 v :
  table_rep type (entries d) t0 B0 → table_rep type (entries d) t1 B1 → NoDup (concat B0) → NoDup (concat B1) →
  ht_size t0 ≤ ht_size t1 → word v →
  ∃ k v' out0 out1, 0 ≤ k ≤ 60 ∧ ht_size t0 = 2 ^ k ∧ emit_bucket d t0 v = Some out0 ∧
    scan_larger (S (Z.to_nat (ht_size t1))) d t1 (sizemask t0) (sizemask t1) v = Some (v', out1) ∧ word v' ∧
    out0 ⊆ concat B0 ∧ out1 ⊆ concat B1 ∧ dict_rev v' = u64 ((dict_rev v / 2 ^ (64 - k) + 1) * 2 ^ (64 - k)) ∧
    covers (entries d) B0 (dict_rev v) ((dict_rev v / 2 ^ (64 - k) + 1) * 2 ^ (64 - k)) out0 ∧
    covers (entries d) B1 (dict_rev v) ((dict_rev v / 2 ^ (64 - k) + 1) * 2 ^ (64 - k)) out1.
Proof.
  intros T0 T1 Hnd0 Hnd1 Hle Hv. destruct (table_ones _ _ _ T0) as (k0 & Hk0 & Hs0 & Hm0), (table_ones _ _ _ T1) as (k1 & Hk1 & Hs1 & Hm1).
  assert (k0 ≤ k1) as Hkk. { rewrite Hs0, Hs1 in Hle. apply Z.pow_le_mono_r_iff in Hle; lia. }
  destruct (emit_bucket_spec d t0 B0 v k0 T0 Hnd0 Hv ltac:(lia) Hm0) as (out0 & He0 & Hsub0 & Hcov0).
  assert (2 ^ (64 - k0) = 2 ^ (64 - k1) * 2 ^ (k1 - k0)) as HP by (rewrite <- Z.pow_add_r by lia; f_equal; lia).
  pose proof (step_up (2 ^ (64 - k1)) (2 ^ (k1 - k0)) (dict_rev v) _ ltac:(lia) ltac:(lia) (proj1 (dict_rev_word v)) eq_refl) as (Hlo & Hr & _).
  rewrite <- HP in Hlo.
  destruct (scan_larger_spec (S (Z.to_nat (ht_size t1))) d t1 B1 k0 k1 v T1 Hnd1 Hv) as (v' & out1 & Hl & Hw & Hsub1 & Hrev & Hcov1);
    [lia..|done| |].
  { pose proof (Z.pow_le_mono_r 2 (k1 - k0) k1). rewrite Hs1. nia. }
  rewrite <- Hm0, <- Hm1 in Hl. exists k0, v', out0, out1. split_and!; try done; try lia.
  intros a e Ha Hea Hp. eapply Hcov0; [done..|]. lia.
Qed.
End coverage.

Lemma scan_larger_iterators {K V} (d : dict K V) i n t m0 m1 v :
  scan_larger n (set_iterators i d) t m0 m1 v = scan_larger n d t m0 m1 v.
Proof.
  revert v. induction n as [|n IH]; intros v; [done|]. cbn [scan_larger]. change (emit_bucket (set_iterators i d) t v) with (emit_bucket d t v).
  destruct (emit_bucket d t v); [|done]. obind. by rewrite IH.
Qed.

Lemma scan_body_iterators {K V} (d : dict K V) i v : scan_body (set_iterators i d) v = scan_body d v.
Proof.
  unfold scan_body. change (dictIsRehashing (set_iterators i d)) with (dictIsRehashing d). destruct (dictIsRehashing d); cbn [negb]; [|done].
  cbn [ht0 ht1 set_iterators].
  assert (∀ n t0 t1 m0 m1, (out ← emit_bucket (set_iterators i d) t0 v; '(v, out') ← scan_larger n (set_iterators i d) t1 m0 m1 v; Some (v, out ++ out'))
    = (out ← emit_bucket d t0 v; '(v, out') ← scan_larger n d t1 m0 m1 v; Some (v, out ++ out'))) as He.
  { intros n t0 t1 m0 m1. change (emit_bucket (set_iterators i d) t0 v) with (emit_bucket d t0 v).
    destruct (emit_bucket d t0 v); [|reflexivity]. obind. 
    rewrite scan_larger_iterators. reflexivity. }
  destruct (ht_size (ht0 d) >? ht_size (ht1 d)).
  - apply He.
  - apply He.
Qed.

(** The number of calls an undisturbed scan takes. *)
Definition scan_size {K V} (d : dict K V) : Z :=
  if dictIsRehashing d then Z.min (ht_size (ht0 d)) (ht_size (ht1 d)) else ht_size (ht0 d).

Section calls.
Context {K V C : Type} `{Countable C} (type : dictType K) (canon : K → C).
Implicit Types (d : dict K V) (m : gmap C (K * option V)).

(** What is emitted, in terms of the map. *)
Lemma emitted_in d B0 B1 m out :
  shape type d B0 B1 → holds canon (entries d) (concat B0 ++ concat B1) m → out ⊆ concat B0 ++ concat B1 →
  ∀ a, a ∈ out → ∃ e, entries d !! a = Some e ∧ is_Some (m !! canon (de_key e)).
Proof.
  intros Hsh Hh Hsub a Ha%Hsub. assert (∃ e, entries d !! a = Some e) as [e He].
  { destruct Hh as (L & HF & _). apply list_elem_of_lookup in Ha as [i Hi]. destruct (Forall2_lookup_l _ _ _ _ _ HF Hi) as (p & _ & Hp).
    apply fmap_Some in Hp as (e & He & _). by exists e. }
  exists e. split; [done|]. eexists. apply (holds_lookup _ _ _ _ _ _ Hh). exists a, e. by split_and!.
Qed.

Lemma emitted_all d B0 B1 m lo hi out :
  holds canon (entries d) (concat B0 ++ concat B1) m → covers type (entries d) B0 lo hi out → covers type (entries d) B1 lo hi out →
  ∀ c x, m !! c = Some x → lo ≤ pos type x.1 < hi → ∃ a e, a ∈ out ∧ entries d !! a = Some e ∧ canon (de_key e) = c.
Proof.
  intros Hh Hc0 Hc1 c x (a & e & Ha & He & Hc & ->)%(holds_lookup _ _ _ _ _ _ Hh) Hp. exists a, e. split_and!; try done.
  apply elem_of_app in Ha as [Ha|Ha]; [by eapply Hc0|by eapply Hc1].
Qed.

Lemma covers_mono h B lo hi (out out' : list dloc) : out ⊆ out' → covers type (V := V) h B lo hi out → covers type h B lo hi out'.
Proof. intros Hs Hc a e Ha He Hp. by eapply Hs, Hc. Qed.

Lemma iterators_back d : word (iterators d) →
  set_iterators (u64 (iterators (set_iterators (u64 (iterators d + 1)) d) - 1)) (set_iterators (u64 (iterators d + 1)) d) = d.
Proof.
  intros Hi. destruct d as [t0 t1 r i es]. unfold set_iterators. simpl in *. f_equal. unfold u64. rewrite Zminus_mod_idemp_l.
  replace (i + 1 - 1) with i by lia. by apply Z.mod_small.
Qed.

(** The body of [dictScan] for a dictionary with entries. *)
Lemma scan_body_spec d B0 B1 m v :
  shape type d B0 B1 → holds canon (entries d) (concat B0 ++ concat B1) m → table (ht0 d) ≠ None → word v →
  ∃ v' out k, scan_body d v = Some (v', out) ∧ word v' ∧ 0 ≤ k ≤ 60 ∧ scan_size d = 2 ^ k ∧
    dict_rev v' = u64 ((dict_rev v / 2 ^ (64 - k) + 1) * 2 ^ (64 - k)) ∧ out ⊆ concat B0 ++ concat B1 ∧
    covers type (entries d) B0 (dict_rev v) ((dict_rev v / 2 ^ (64 - k) + 1) * 2 ^ (64 - k)) out ∧
    covers type (entries d) B1 (dict_rev v) ((dict_rev v / 2 ^ (64 - k) + 1) * 2 ^ (64 - k)) out.
Proof.
  intros Hsh Hh Ht Hv. pose proof (shape_nodup _ _ _ _ Hsh) as Hnd. apply NoDup_app in Hnd as (Hnd0 & _ & Hnd1). unfold scan_size, scan_body.
  destruct Hsh as [? H0 ?|B Hr T H1 Hnd|B0 B1 W]; [by rewrite H0 in Ht|rewrite rehashing_false by done|rewrite (rehashing_two _ _ _ _ W)]; cbn [negb].
  - destruct (table_ones _ _ _ _ T) as (k & Hk & Hs & Hm). destruct (emit_bucket_spec type d _ B v k T Hnd Hv ltac:(lia) Hm) as (out & -> & Hsub & Hcov).
    obind. exists (next_cursor (sizemask (ht0 d)) v), out, k. split_and!; try done; try lia; try apply next_cursor_word.
    + rewrite Hm. apply next_cursor_rev; [lia|done].
    + simpl. by rewrite app_nil_r.
    + intros a e Ha He Hp. eapply Hcov; [done..|]. pose proof (Z.div_mod (dict_rev v) (2 ^ (64 - k)) ltac:(lia)).
      pose proof (Z.mod_pos_bound (dict_rev v) (2 ^ (64 - k)) ltac:(lia)). lia.
    + intros a e Ha. by apply not_elem_of_nil in Ha.
  - rewrite Z.gtb_ltb. destruct (Z.ltb_spec (ht_size (ht1 d)) (ht_size (ht0 d))) as [Hlt|Hge].
    + destruct (scan_both_spec type d _ _ _ _ v (tw_t1 _ _ _ _ W) (tw_t0 _ _ _ _ W) Hnd1 Hnd0 ltac:(lia) Hv)
        as (k & v' & out0 & out1 & Hk & Hs & -> & Hl & Hw & Hsub0 & Hsub1 & Hrev & Hc0 & Hc1). obind. rewrite Hl. obind.
      exists v', (out0 ++ out1), k. split_and!; try done; try lia; [set_solver|eapply covers_mono; [|done]; set_solver..].
    + destruct (scan_both_spec type d _ _ _ _ v (tw_t0 _ _ _ _ W) (tw_t1 _ _ _ _ W) Hnd0 Hnd1 ltac:(lia) Hv)
        as (k & v' & out0 & out1 & Hk & Hs & -> & Hl & Hw & Hsub0 & Hsub1 & Hrev & Hc0 & Hc1). obind. rewrite Hl. obind.
      exists v', (out0 ++ out1), k. split_and!; try done; try lia; [set_solver|eapply covers_mono; [|done]; set_solver..].
Qed.

Lemma dictScan_spec d m v :
  dict_rep type canon d m → bounded m → word v →
  ∃ v' out, dictScan d v = Some (d, v', out) ∧ word v' ∧
    (∀ a, a ∈ out → ∃ e, entries d !! a = Some e ∧ is_Some (m !! canon (de_key e))) ∧
    (m = ∅ → v' = 0) ∧
    (m ≠ ∅ → ∃ k, 0 ≤ k ≤ 60 ∧ scan_size d = 2 ^ k ∧ dict_rev v' = u64 ((dict_rev v / 2 ^ (64 - k) + 1) * 2 ^ (64 - k)) ∧
      ∀ c x, m !! c = Some x → dict_rev v ≤ pos type x.1 < (dict_rev v / 2 ^ (64 - k) + 1) * 2 ^ (64 - k) →
        ∃ a e, a ∈ out ∧ entries d !! a = Some e ∧ canon (de_key e) = c).
Proof.
  intros R Hb Hv. unfold dictScan. rewrite (dictSize_spec _ _ _ _ R Hb). destruct (Z.eqb_spec (Z.of_nat (size m)) 0) as [Hz|Hz].
  { assert (m = ∅) as -> by (apply map_size_empty_inv; lia). exists 0, []. split_and!; try done. set_solver. }
  assert (m ≠ ∅) as Hm by (intros ->; by rewrite map_size_empty in Hz).
  pose proof (rep_table _ _ _ _ R Hm) as Ht. destruct R as (B0 & B1 & Hsh & Hh & Hit).
  destruct (scan_body_spec d B0 B1 m v Hsh Hh Ht Hv) as (v' & out & k & Hbody & Hw & Hk & Hs & Hrev & Hsub & Hc0 & Hc1).
  exists v', out. split.
  { cbv zeta. rewrite scan_body_iterators, Hbody. obind. by rewrite iterators_back. }
  split; [done|]. split; [by eapply emitted_in|]. split; [done|]. intros _. exists k. split; [lia|]. split; [done|]. split; [done|]. by eapply emitted_all.
Qed.

Lemma rep_key d m c x : dict_rep type canon d m → m !! c = Some x → canon x.1 = c.
Proof. intros (B0 & B1 & _ & Hh & _) (a & e & _ & _ & Hc & ->)%(holds_lookup _ _ _ _ _ _ Hh). done. Qed.

Lemma rev_zero v : word v → dict_rev v = 0 ↔ v = 0.
Proof.
  intros Hv. assert (dict_rev 0 = 0) as H0 by (vm_compute; reflexivity). split; [|by intros ->].
  intros Hr. rewrite <- (dict_rev_involutive v Hv), Hr. done.
Qed.

(** The end of the interval of a word, and the cursor there. *)
Lemma interval_end k r v' :
  0 ≤ k ≤ 64 → word r → word v' → dict_rev v' = u64 ((r / 2 ^ (64 - k) + 1) * 2 ^ (64 - k)) →
  r < (r / 2 ^ (64 - k) + 1) * 2 ^ (64 - k) ≤ 2 ^ 64 ∧
  (if decide (v' = 0) then (r / 2 ^ (64 - k) + 1) * 2 ^ (64 - k) = 2 ^ 64 else dict_rev v' = (r / 2 ^ (64 - k) + 1) * 2 ^ (64 - k)).
Proof.
  intros Hk Hr Hv' He. assert (2 ^ 64 = 2 ^ k * 2 ^ (64 - k)) as HW by (rewrite <- Z.pow_add_r by lia; f_equal; lia).
  assert (r / 2 ^ (64 - k) < 2 ^ k) as Hq. { apply Z.div_lt_upper_bound; [lia|]. rewrite Z.mul_comm, <- HW. apply Hr. }
  assert (r < (r / 2 ^ (64 - k) + 1) * 2 ^ (64 - k)) as Hlt.
  { pose proof (Z.div_mod r (2 ^ (64 - k)) ltac:(lia)). pose proof (Z.mod_pos_bound r (2 ^ (64 - k)) ltac:(lia)). lia. }
  assert ((r / 2 ^ (64 - k) + 1) * 2 ^ (64 - k) ≤ 2 ^ 64) as Hle by (rewrite HW; nia). split; [lia|]. unfold word in Hr.
  destruct (decide ((r / 2 ^ (64 - k) + 1) * 2 ^ (64 - k) = 2 ^ 64)) as [HE|HE].
  - rewrite HE in He. assert (v' = 0) as ->; [|done]. apply rev_zero; [done|]. by rewrite He.
  - rewrite u64_id in He by lia. rewrite decide_False; [done|]. intros ->. rewrite (proj2 (rev_zero 0 Hv') eq_refl) in He. lia.
Qed.
End calls.

(** ** Complete scans *)

Section sessions.
Context {K V C : Type} `{Countable C} (type : dictType K) (canon : K → C) `{!TypeLaws type canon}.
Implicit Types (d : dict K V) (M : gmap C (K * V)).

Definition keys_of d (out : list dloc) : list C := omap (λ a, (λ e, canon (de_key e)) <$> entries d !! a) out.

(** Blocks of calls on the dictionary with a call of [dictScan] after each:
    the last cursor, and the keys emitted. *)
Fixpoint scan_session (opss : list (list (dict_op K V))) (s : dict K V * bool) (v : Z) : option (Z * list C) :=
  match opss with
  | [] => Some (v, [])
  | ops :: opss =>
      '(d, can, _) ← dict_run type ops s;
      '(d', v', out) ← dictScan d v;
      '(v'', keys) ← scan_session opss (d', can) v';
      Some (v'', keys_of d out ++ keys)
  end.

(** The contents of the dictionary at each call of [dictScan]. *)
Fixpoint session_maps (opss : list (list (dict_op K V))) M : list (gmap C (K * V)) :=
  match opss with
  | [] => []
  | ops :: opss => let M' := (map_run canon ops M).1 in M' :: session_maps opss M'
  end.

(** A key not emitted by a call is not yet behind the cursor. *)
Lemma scan_step d M v :
  dict_rep type canon d (stored M) → Z.of_nat (size M) < 2 ^ 58 → word v →
  ∃ v' out, dictScan d v = Some (d, v', out) ∧ word v' ∧ (∀ c, c ∈ keys_of d out → is_Some (M !! c)) ∧
    ∀ key, is_Some (M !! canon key) → dict_rev v ≤ pos type key →
      canon key ∈ keys_of d out ∨ v' ≠ 0 ∧ dict_rev v' ≤ pos type key.
Proof.
  intros R Hb Hv. destruct (dictScan_spec type canon d _ v R) as (v' & out & Hs & Hw & Hin & _ & Hcov); [by apply bounded_stored|done|].
  exists v', out. split; [done|]. split; [done|]. split.
  - intros c (a & Ha & (e & He & Hc)%fmap_Some)%list_elem_of_omap. subst c. destruct (Hin a Ha) as (e' & He' & x & Hx). assert (e' = e) as -> by congruence.
    rewrite stored_lookup in Hx. destruct (M !! canon (de_key e)); [by eexists|done].
  - intros key [x Hx] Hp. destruct Hcov as (k & Hk & _ & Hrev & Hcov).
    { intros Hm. assert (stored M !! canon key = None) as Hn by (by rewrite Hm). rewrite stored_lookup, Hx in Hn. done. }
    destruct (interval_end k (dict_rev v) v' ltac:(lia) (dict_rev_word v) Hw Hrev) as (Hlt & Hend). pose proof (pos_word type key) as [_ Hpw].
    assert (stored M !! canon key = Some (x.1, Some x.2)) as Hst by (by rewrite stored_lookup, Hx).
    assert (pos type x.1 = pos type key) as Hpx.
    { unfold pos. f_equal. f_equal. apply hash_canon. apply (rep_key type canon d _ _ _ R Hst). }
    destruct (decide (pos type key < (dict_rev v / 2 ^ (64 - k) + 1) * 2 ^ (64 - k))) as [Hc|Hc].
    + left. destruct (Hcov _ _ Hst) as (a & e & Ha & He & Hk'); [simpl; lia|]. apply list_elem_of_omap. exists a. split; [done|].
      by rewrite He, <- Hk'.
    + right. destruct (decide (v' = 0)); [lia|]. split; [done|lia].
Qed.

Lemma session_spec opss d can M v :
  dict_rep type canon d (stored M) → Z.of_nat (size M + length (concat opss)) < 2 ^ 58 → Forall (Forall op_ok) opss → word v →
  ∃ v' keys, scan_session opss (d, can) v = Some (v', keys) ∧ word v' ∧ (opss = [] → v' = v) ∧
    (∀ c, c ∈ keys → ∃ M', M' ∈ session_maps opss M ∧ is_Some (M' !! c)) ∧
    ∀ key, (∀ M', M' ∈ session_maps opss M → is_Some (M' !! canon key)) → dict_rev v ≤ pos type key →
      canon key ∈ keys ∨ (opss ≠ [] → v' ≠ 0) ∧ dict_rev v' ≤ pos type key.
Proof.
  revert d can M v. induction opss as [|ops opss IH]; intros d can M v R Hlen Hok Hv.
  { exists v, []. split_and!; try done; [set_solver|]. intros key _ Hp. by right. }
  apply Forall_cons in Hok as [Hop Hok]. cbn [concat scan_session session_maps] in *. rewrite length_app in Hlen.
  destruct (run_simulates type canon ops d can M Hop R) as (d1 & can1 & -> & R1); [lia|]. obind. pose proof (map_run_size canon ops M) as Hsz.
  destruct (scan_step d1 _ v R1) as (v1 & out & -> & Hw1 & Hin1 & Hstep); [lia|done|]. obind.
  destruct (IH d1 can1 _ v1 R1) as (v' & keys & -> & Hw & Hnil & Hin & Hrest); [lia|done|done|]. obind.
  exists v', (keys_of d1 out ++ keys). split; [done|]. split; [done|]. split; [done|]. split.
  - intros c [Hc|Hc]%elem_of_app; [eexists; split; [by left|by apply Hin1]|]. destruct (Hin c Hc) as (M' & HM & Hx). exists M'. split; [by right|done].
  - intros key Hall Hp. rewrite elem_of_app. destruct (Hstep key) as [Hk|[Hnz Hp1]]; [apply Hall; by left|done|by left; left|].
    destruct (Hrest key) as [Hk|[Hnz' Hp']]; [intros M' HM; apply Hall; by right|done|by left; right|]. right. split; [|done]. intros _.
    destruct opss; [by rewrite Hnil|by apply Hnz'].
Qed.

Lemma session_app opss d can M v :
  dict_rep type canon d (stored M) → Z.of_nat (size M + length (concat opss)) < 2 ^ 58 → Forall (Forall op_ok) opss → word v →
  ∃ d' can' M' v' keys, dict_rep type canon d' (stored M') ∧ Z.of_nat (size M') < 2 ^ 58 ∧ word v' ∧ ∀ opss',
    scan_session (opss ++ opss') (d, can) v = ('(v'', keys') ← scan_session opss' (d', can') v'; Some (v'', keys ++ keys')).
Proof.
  revert d can M v. induction opss as [|ops opss IH]; intros d can M v R Hlen Hok Hv.
  { exists d, can, M, v, []. split_and!; try done; [lia|]. intros opss'. simpl. by destruct (scan_session opss' (d, can) v) as [[]|]. }
  apply Forall_cons in Hok as [Hop Hok]. cbn [concat scan_session app] in *. rewrite length_app in Hlen.
  destruct (run_simulates type canon ops d can M Hop R) as (d1 & can1 & -> & R1); [lia|]. obind. pose proof (map_run_size canon ops M) as Hsz.
  destruct (scan_step d1 _ v R1) as (v1 & out & -> & Hw1 & Hin1 & Hstep); [lia|done|]. obind.
  destruct (IH d1 can1 _ v1 R1) as (d' & can' & M' & v' & keys & R' & Hb' & Hw & Happ); [lia|done|done|].
  exists d', can', M', v', (keys_of d1 out ++ keys). split_and!; try done. intros opss'. rewrite Happ. destruct (scan_session opss' (d', can') v') as [[]|]; [|done].
  obind. by rewrite app_assoc.
Qed.

(** A dictionary that does not change any more is scanned to the end: the
    reversed cursor grows with each call. *)
Lemma scan_ends n d can M v :
  dict_rep type canon d (stored M) → Z.of_nat (size M) < 2 ^ 58 → word v → 2 ^ 64 - dict_rev v ≤ Z.of_nat n →
  ∃ n' keys, scan_session (replicate n' []) (d, can) v = Some (0, keys).
Proof.
  intros R Hb. revert v. induction n as [|n IH]; intros v Hv Hn.
  { pose proof (dict_rev_word v). unfold word in *. lia. }
  destruct (dictScan_spec type canon d _ v R) as (v' & out & Hs & Hw & _ & He & Hcov); [by apply bounded_stored|done|].
  assert (v' = 0 ∨ dict_rev v < dict_rev v') as [->|Hlt].
  { destruct (decide (stored M = ∅)) as [Hm|Hm]; [left; auto|]. destruct (Hcov Hm) as (k & Hk & _ & Hrev & _).
    destruct (interval_end k (dict_rev v) v' ltac:(lia) (dict_rev_word v) Hw Hrev) as (Hlt & Hend). destruct (decide (v' = 0)); [by left|right; lia]. }
  - exists 1%nat. simpl. rewrite Hs. by eexists.
  - destruct (IH v' Hw) as (n' & keys & Hk); [lia|]. exists (S n'). cbn [replicate scan_session dict_run]. obind. rewrite Hs. obind. rewrite Hk. by eexists.
Qed.

(** C21: A scan misses nothing.  A client calls [dictScan] from cursor 0; between
    its calls the dictionary is changed in any way, so its tables are resized
    and entries are moved between them.  No call faults; when the cursor is 0
    again, every key that was in the dictionary at each of the calls has been
    emitted, and only keys that were in it are.  When the dictionary stops
    changing, the cursor comes back to 0 after some number of calls. *)
Theorem dictScan_complete (opss : list (list (dict_op K V))) :
  opss ≠ [] → Forall (Forall op_ok) opss → Z.of_nat (length (concat opss)) < 2 ^ 58 →
  (∃ v keys, scan_session opss (dictCreate, true) 0 = Some (v, keys) ∧
    (v = 0 → ∀ c, (∀ M, M ∈ session_maps opss ∅ → is_Some (M !! c)) → c ∈ keys) ∧
    (∀ c, c ∈ keys → ∃ M, M ∈ session_maps opss ∅ ∧ is_Some (M !! c))) ∧
  ∃ n keys, scan_session (opss ++ replicate n []) (dictCreate, true) 0 = Some (0, keys).
Proof.
  intros Hne Hok Hlen. assert (word 0) as H0 by done. split.
  - destruct (session_spec opss dictCreate true ∅ 0 (create_rep type canon)) as (v & keys & Hs & Hw & _ & Hin & Hcov); [by rewrite map_size_empty|done..|].
    exists v, keys. split; [done|]. split; [|done]. intros -> c Hall.
    assert (∃ key, canon key = c) as [key <-].
    { destruct opss as [|ops opss]; [done|]. destruct (Hall (map_run canon ops ∅).1) as [x Hx]; [by left|]. apply Forall_cons in Hok as [Hop _].
      simpl in Hlen. rewrite length_app in Hlen.
      destruct (run_simulates type canon ops dictCreate true ∅ Hop (create_rep type canon)) as (d & _ & _ & R); [rewrite map_size_empty; lia|].
      exists x.1. apply (rep_key type canon d _ _ (x.1, Some x.2) R). by rewrite stored_lookup, Hx. }
    destruct (Hcov key Hall) as [Hk|[Hnz _]]; [|done|by apply Hnz in Hne]. rewrite (proj2 (rev_zero 0 H0) eq_refl). apply pos_word.
  - destruct (session_app opss dictCreate true ∅ 0 (create_rep type canon)) as (d & can & M & v & keys & R & Hb & Hw & Happ); [by rewrite map_size_empty|done..|].
    destruct (scan_ends (Z.to_nat (2 ^ 64)) d can M v R Hb Hw) as (n & keys' & Hn); [pose proof (dict_rev_word v); unfold word in *; lia|].
    exists n, (keys ++ keys'). by rewrite Happ, Hn.
Qed.
End sessions.

(** A scan of a dictionary that grows and loses a key on the way. *)
Definition scan_example : list (list (dict_op sds Z)) :=
  [[DAdd "a" 1; DAdd "b" 2; DAdd "c" 3; DAdd "d" 4]; [DAdd "e" 5; DAdd "f" 6]; [DDelete "a"; DAdd "g" 7; DAdd "h" 8; DAdd "i" 9]; []; []; []].

Lemma dictScan_complete_witness :
  ∃ keys, scan_session (dbDictType (Z.of_nat <$> seq 0 16)) id scan_example (dictCreate, true) 0 = Some (0, keys) ∧ "c"%string ∈ keys.
Proof.
  destruct (dictScan_complete (dbDictType (Z.of_nat <$> seq 0 16)) id scan_example) as [(v & keys & Hs & Hall & _) _].
  - done.
  - repeat constructor.
  - done.
  - assert (fst <$> scan_session (dbDictType (Z.of_nat <$> seq 0 16)) id scan_example (dictCreate, true) 0 = Some 0) as H
      by (vm_compute; reflexivity).
    rewrite Hs in H. injection H as ->. exists keys. split; [exact Hs|]. apply Hall; [reflexivity|].
    apply Forall_forall. apply (bool_decide_unpack _). vm_compute. exact I.
Defined.

(** A size over 2^60 makes [dictExpand] allocate an array of a wrapped size:
    for 2^61 buckets, none.  The next insertion reads and writes outside it. *)
Lemma dictExpand_wraps {K V} (type : dictType K) can key (v : V) :
  ∃ d, dictExpand (2 ^ 61) (dictCreate : dict K V) = Some (d, DICT_OK) ∧ ht_size (ht0 d) = 2 ^ 61 ∧
    b_cells <$> table (ht0 d) = Some [] ∧ dictAdd type can key v d = None.
Proof.
  eexists. split; [vm_compute; reflexivity|]. split_and!; [done..|]. unfold dictAdd, dictAddRaw, rehash_if, _dictKeyIndex, _dictExpandIfNeeded.
  simpl. unfold ht_find. simpl. unfold cell. simpl. by case_match.
Qed.
