(* ===== verification/DictIter.v ===== *)
(** * Iterators of hash tables (src/dict.c, dictGetIterator to
    dictReleaseIterator)

    An iterator walks over the buckets of the first table and then, while the
    dictionary is rehashing, of the second.  A safe one stops the rehashing
    while it is in use; one that is not takes a fingerprint of the tables and
    checks it when it is released.  A walk with no change in between visits
    every entry once and passes the check. *)

From S2P Require Import Prelude.
From S2P Require Import Sds.
From S2P Require Import Dict.
From S2P Require Import DictRep.
From S2P Require Import SipHash.
From S2P Require Import DictMap.

#[local] Open Scope Z_scope.

(** [long long] arithmetic with wrap-around, for the hash of the fingerprint. *)
Definition s64 (z : Z) : Z := (z + 2 ^ 63) mod 2 ^ 64 - 2 ^ 63.

(** One round of the integer hash. *)
Definition mix (hash : Z) : Z :=
  let hash := s64 (Z.lnot hash + s64 (Z.shiftl hash 21)) in
  let hash := Z.lxor hash (Z.shiftr hash 24) in
  let hash := s64 (hash + s64 (Z.shiftl hash 3) + s64 (Z.shiftl hash 8)) in
  let hash := Z.lxor hash (Z.shiftr hash 14) in
  let hash := s64 (hash + s64 (Z.shiftl hash 2) + s64 (Z.shiftl hash 4)) in
  let hash := Z.lxor hash (Z.shiftr hash 28) in
  s64 (hash + s64 (Z.shiftl hash 31)).

Definition table_addr (ht : dictht) : Z := match table ht with Some b => Z.pos (b_addr b) | None => 0 end.

Definition dictFingerprint {K V} (d : dict K V) : Z :=
  foldl (λ hash i, mix (s64 (hash + i))) 0
    [s64 (table_addr (ht0 d)); s64 (ht_size (ht0 d)); s64 (used (ht0 d));
     s64 (table_addr (ht1 d)); s64 (ht_size (ht1 d)); s64 (used (ht1 d))].

(** [table] is the second one when [it_table] holds; the fingerprint is not
    set at first. *)
Record dictIterator := mkIter {
  it_index : Z;
  it_table : bool;
  it_safe : bool;
  it_entry : option dloc;
  it_nextEntry : option dloc;
  it_fingerprint : option Z
}.

Definition dictGetIterator : dictIterator := mkIter (-1) false false None None None.
Definition dictGetSafeIterator : dictIterator := mkIter (-1) false true None None None.

Section operations.
Context {K V : Type}.
Implicit Types (d : dict K V) (it : dictIterator).

Definition it_ht d it : dictht := if it_table it then ht1 d else ht0 d.

(** The registration when the iterator is used for the first time. *)
Definition iter_start d it : dict K V * dictIterator :=
  if (it_index it =? -1) && negb (it_table it) then
    if it_safe it then (set_iterators (u64 (iterators d + 1)) d, it)
    else (d, mkIter (it_index it) (it_table it) (it_safe it) (it_entry it) (it_nextEntry it) (Some (dictFingerprint d)))
  else (d, it).

(** The step to the next bucket: [None] in the second component is the
    [break]. *)
Definition iter_bucket d it : option (dictIterator * bool) :=
  let index := it_index it + 1 in
  if index >=? ht_size (it_ht d it) then
    if dictIsRehashing d && negb (it_table it) then
      e ← cell (ht1 d) 0; Some (mkIter 0 true (it_safe it) e (it_nextEntry it) (it_fingerprint it), false)
    else Some (mkIter index (it_table it) (it_safe it) (it_entry it) (it_nextEntry it) (it_fingerprint it), true)
  else
    e ← cell (it_ht d it) index;
    Some (mkIter index (it_table it) (it_safe it) e (it_nextEntry it) (it_fingerprint it), false).

Fixpoint next_loop (fuel : nat) d it : option (dict K V * dictIterator * option dloc) :=
  match fuel with
  | O => None
  | S fuel' =>
      '(d, it, stop) ←
        match it_entry it with
        | None => let '(d, it) := iter_start d it in '(it, stop) ← iter_bucket d it; Some (d, it, stop)
        | Some _ => Some (d, mkIter (it_index it) (it_table it) (it_safe it) (it_nextEntry it) (it_nextEntry it) (it_fingerprint it), false)
        end;
      if stop : bool then Some (d, it, None)
      else
        match it_entry it with
        | Some l =>
            e ← entries d !! l;
            Some (d, mkIter (it_index it) (it_table it) (it_safe it) (Some l) (de_next e) (it_fingerprint it), Some l)
        | None => next_loop fuel' d it
        end
  end.

(** More than the buckets of both tables. *)
Definition iter_fuel d : nat := Z.to_nat (ht_size (ht0 d) + ht_size (ht1 d) + 3).

Definition dictNext d it : option (dict K V * dictIterator * option dloc) := next_loop (iter_fuel d) d it.

(** [dictReleaseIterator]; a failed assertion is [None]. *)
Definition dictReleaseIterator d it : option (dict K V) :=
  if negb ((it_index it =? -1) && negb (it_table it)) then
    if it_safe it then Some (set_iterators (u64 (iterators d - 1)) d)
    else if bool_decide (it_fingerprint it = Some (dictFingerprint d)) then Some d else None
  else Some d.

(** The loop [while ((de = dictNext(di)) != NULL)] that only looks at the
    entries, and the release of the iterator. *)
Fixpoint iter_loop (fuel : nat) d it : option (dict K V * dictIterator * list dloc) :=
  match fuel with
  | O => None
  | S fuel' =>
      '(d, it, l) ← dictNext d it;
      match l with
      | None => Some (d, it, [])
      | Some l => '(d, it, ls) ← iter_loop fuel' d it; Some (d, it, l :: ls)
      end
  end.

Definition iter_all (it : dictIterator) d : option (dict K V * list dloc) :=
  '(d, it, ls) ← iter_loop (chain_fuel d) d it;
  d ← dictReleaseIterator d it;
  Some (d, ls).
End operations.

(** ** What an iterator still has to visit *)

Section spec.
Context {K V : Type} (type : dictType K).
Implicit Types (d : dict K V) (it : dictIterator).

(** The rest of the current bucket, then the buckets after it. *)
Definition iter_at d it (rest : list dloc) : Prop :=
  ∃ B0 B1 cur, shape type d B0 B1 ∧ -1 ≤ it_index it < ht_size (it_ht d it) ∧
    (match it_entry it with None => cur = [] | Some _ => chain (entries d) (it_nextEntry it) cur ∧ 0 ≤ it_index it end) ∧
    rest = cur ++ (if it_table it then concat (drop (Z.to_nat (it_index it + 1)) B1)
                   else concat (drop (Z.to_nat (it_index it + 1)) B0) ++ concat B1) ∧
    (it_table it = true → dictIsRehashing d = true).

(** Rounds of the loop that are left. *)
Definition iter_measure d it : Z :=
  (if it_table it then 0 else ht_size (ht1 d)) + Z.max 0 (ht_size (it_ht d it) - it_index it) + (if it_entry it then 1 else 0).

(** The dictionary and the iterator differ only in the count of iterators and
    the fingerprint. *)
Definition same_tables d d' : Prop := ht0 d' = ht0 d ∧ ht1 d' = ht1 d ∧ rehashidx d' = rehashidx d ∧ entries d' = entries d.

Lemma shape_tables d d' B0 B1 : same_tables d d' → shape type d B0 B1 → shape type d' B0 B1.
Proof.
  intros (H0 & H1 & Hr & He). destruct d, d'. simpl in *. subst. intros [? ? ?|? ? ? ? ?|? ? [? ? ? ? ?]].
  - by apply shape_none.
  - by apply shape_one.
  - apply shape_two. by constructor.
Qed.
Definition set_next_entry (p : option dloc) it : dictIterator :=
  mkIter (it_index it) (it_table it) (it_safe it) (it_entry it) p (it_fingerprint it).

(** What is found in a bucket. *)
Definition bucket_ok d it it' (rest : list dloc) : Prop :=
  match it_entry it' with
  | None => iter_at d it' rest ∧ iter_measure d it' < iter_measure d it
  | Some l => ∃ e rest', rest = l :: rest' ∧ entries d !! l = Some e ∧ iter_at d (set_next_entry (de_next e) it') rest'
  end.

Lemma concat_drop {A} (B : list (list A)) i b : B !! i = Some b → concat (drop i B) = b ++ concat (drop (S i) B).
Proof. intros Hb. by rewrite (drop_S _ _ _ Hb). Qed.

(** The bucket [i] of one of the tables. *)
Lemma bucket_spec d it B0 B1 (t : bool) B i p b nx :
  shape type d B0 B1 → (t = true → dictIsRehashing d = true) → B = (if t then B1 else B0) → B !! Z.to_nat i = Some b →
  chain (entries d) p b → 0 ≤ i → i < ht_size (if t then ht1 d else ht0 d) →
  (if t then 0 else ht_size (ht1 d)) + Z.max 0 (ht_size (if t then ht1 d else ht0 d) - i) < iter_measure d it →
  bucket_ok d it (mkIter i t (it_safe it) p nx (it_fingerprint it))
    (b ++ (if t then concat (drop (S (Z.to_nat i)) B1) else concat (drop (S (Z.to_nat i)) B0) ++ concat B1)).
Proof.
  intros Hsh Hre -> Hb Hch Hi Hlt Hm. unfold bucket_ok. simpl. assert (Z.to_nat (i + 1) = S (Z.to_nat i)) as Hs by lia.
  destruct p as [l|], b as [|l' b]; [done| | |by destruct Hch].
  - destruct Hch as ([= ->] & e & He & Hch). exists e. eexists. split; [done|]. split; [done|].
    exists B0, B1, b. unfold it_ht. simpl. rewrite Hs. split_and!; try done; lia.
  - split; [|unfold iter_measure at 1; unfold it_ht; simpl; destruct t; lia].
    exists B0, B1, []. unfold it_ht. simpl. rewrite Hs. split_and!; try done. lia.
Qed.

(** The cell of a table that is in use, and what is left after the last. *)
Lemma cell_in d ht B i : table_rep type (entries d) ht B → 0 ≤ i → (i >=? ht_size ht) = false →
  ∃ p b, cell ht i = Some p ∧ B !! Z.to_nat i = Some b ∧ chain (entries d) p b ∧ i < ht_size ht.
Proof.
  intros T Hi Hge. rewrite Z.geb_leb in Hge. apply Z.leb_gt in Hge.
  destruct (table_cell type _ _ _ i T) as (p & b & Hp & Hb & Hch); [lia|]. by exists p, b.
Qed.

Lemma drop_last d ht B i : table_rep type (entries d) ht B → (i >=? ht_size ht) = true → drop (Z.to_nat i) B = [].
Proof. intros T Hge. rewrite Z.geb_leb in Hge. apply Z.leb_le in Hge. apply drop_ge. pose proof (tr_size _ _ _ _ T). lia. Qed.

Definition bucket_step d it (rest : list dloc) : Prop :=
  ∃ it' stop, iter_bucket d it = Some (it', stop) ∧ 0 ≤ it_index it' ∧ it_safe it' = it_safe it ∧ it_fingerprint it' = it_fingerprint it ∧
    if stop : bool then rest = [] else bucket_ok d it it' rest.

Lemma iter_bucket_second d it rest :
  iter_at d it rest → it_entry it = None → it_table it = true → bucket_step d it rest.
Proof.
  intros (B0 & B1 & cur & Hsh & Hidx & Hcur & -> & Htab) He Et. rewrite He in Hcur. subst cur. simpl app.
  assert (iter_measure d it = Z.max 0 (ht_size (ht1 d) - it_index it)) as Hmeas by (unfold iter_measure, it_ht; rewrite He, Et; lia).
  specialize (Htab Et). unfold bucket_step, iter_bucket, it_ht in *. rewrite Et in *. simpl negb. rewrite andb_false_r.
  set (i := it_index it + 1) in *.
  destruct Hsh as [Hr _ _|B Hr _ _ _|B0 B1 W]; [by rewrite rehashing_false in Htab|by rewrite rehashing_false in Htab|].
  destruct (i >=? ht_size (ht1 d)) eqn:Hge.
  - do 2 eexists. split; [done|]. simpl. split_and!; try done; [lia|]. by rewrite (drop_last _ _ _ _ (tw_t1 _ _ _ _ W) Hge).
  - destruct (cell_in _ _ _ i (tw_t1 _ _ _ _ W)) as (p & b & -> & Hb & Hch & Hlt); [lia|done|]. obind.
    do 2 eexists. split; [done|]. split; [simpl; lia|]. split; [done|]. split; [done|]. rewrite (concat_drop _ _ _ Hb).
    eapply (bucket_spec d it B0 B1 true); try done; [by apply shape_two|lia|lia].
Qed.

Lemma iter_bucket_first d it rest :
  iter_at d it rest → it_entry it = None → it_table it = false → bucket_step d it rest.
Proof.
  intros (B0 & B1 & cur & Hsh & Hidx & Hcur & -> & _) He Et. rewrite He in Hcur. subst cur. simpl app.
  assert (iter_measure d it = ht_size (ht1 d) + Z.max 0 (ht_size (ht0 d) - it_index it)) as Hmeas by (unfold iter_measure, it_ht; rewrite He, Et; lia).
  unfold bucket_step, iter_bucket, it_ht in *. rewrite Et in *. simpl negb. rewrite andb_true_r. set (i := it_index it + 1) in *.
  assert (table_rep type (entries d) (ht0 d) B0 → (i >=? ht_size (ht0 d)) = false →
    ∃ it' stop, (e ← cell (ht0 d) i; Some (mkIter i false (it_safe it) e (it_nextEntry it) (it_fingerprint it), false)) = Some (it', stop) ∧
      0 ≤ it_index it' ∧ it_safe it' = it_safe it ∧ it_fingerprint it' = it_fingerprint it ∧
      if stop : bool then concat (drop (Z.to_nat i) B0) ++ concat B1 = [] else bucket_ok d it it' (concat (drop (Z.to_nat i) B0) ++ concat B1)) as Hin.
  { intros T Hge. destruct (cell_in _ _ _ i T) as (p & b & -> & Hb & Hch & Hlt); [lia|done|]. obind.
    do 2 eexists. split; [done|]. split; [simpl; lia|]. split; [done|]. split; [done|]. rewrite (concat_drop _ _ _ Hb), <- app_assoc.
    eapply (bucket_spec d it B0 B1 false); try done; lia. }
  destruct Hsh as [Hr H0 H1|B Hr T H1 _|B0 B1 W].
  - rewrite rehashing_false, H0 in * by done. simpl in *. rewrite Z.geb_leb, (proj2 (Z.leb_le _ _)) by lia.
    do 2 eexists. split; [done|]. simpl. split_and!; try done; [lia|]. by rewrite drop_nil.
  - rewrite rehashing_false by done. destruct (i >=? ht_size (ht0 d)) eqn:Hge; [|by apply Hin].
    do 2 eexists. split; [done|]. simpl. split_and!; try done; [lia|]. by rewrite (drop_last _ _ _ _ T Hge).
  - rewrite (rehashing_two _ _ _ _ W). destruct (i >=? ht_size (ht0 d)) eqn:Hge; [|by apply Hin; [apply W|]].
    pose proof (tw_t1 _ _ _ _ W) as T1. assert (0 < ht_size (ht1 d)) as Hpos by (destruct (tr_pow _ _ _ _ T1) as (k & Hk & ->); lia).
    destruct (cell_in _ _ _ 0 T1) as (p & b & -> & Hb & Hch & Hlt); [lia|rewrite Z.geb_leb; by apply Z.leb_gt|]. obind.
    do 2 eexists. split; [done|]. split; [simpl; lia|]. split; [done|]. split; [done|].
    rewrite (drop_last _ _ _ _ (tw_t0 _ _ _ _ W) Hge). simpl app.
    assert (concat B1 = b ++ concat (drop 1 B1)) as -> by exact (concat_drop B1 0 b Hb).
    eapply (bucket_spec d it B0 B1 true _ 0); try done; [by apply shape_two|intros _; by eapply rehashing_two|lia].
Qed.

Lemma next_loop_started fuel d it rest :
  iter_at d it rest → 0 ≤ it_index it → iter_measure d it < Z.of_nat fuel →
  ∃ it', next_loop fuel d it = Some (d, it', hd_error rest) ∧ 0 ≤ it_index it' ∧ it_safe it' = it_safe it ∧
    it_fingerprint it' = it_fingerprint it ∧ match rest with [] => True | _ :: rest' => iter_at d it' rest' end.
Proof.
  revert it. induction fuel as [|fuel IH]; intros it Hat Hi Hm.
  { unfold iter_measure in Hm. destruct Hat as (B0 & B1 & cur & Hsh & Hidx & _). exfalso.
    assert (0 ≤ ht_size (ht1 d)) by (destruct Hsh as [? ? ->|? ? ? -> ?|? ? [_ T _ _ _]]; [done|done|rewrite (tr_size _ _ _ _ T); lia]).
    destruct (it_table it), (it_entry it); lia. }
  cbn [next_loop]. destruct (it_entry it) as [l|] eqn:He.
  - destruct Hat as (B0 & B1 & cur & Hsh & Hidx & Hcur & -> & Htab). rewrite He in Hcur. destruct Hcur as [Hch _]. obind. simpl it_entry.
    destruct (it_nextEntry it) as [l'|] eqn:Hn, cur as [|l2 cur]; try done; [| |by destruct Hch].
    + destruct Hch as ([= ->] & e & He' & Hch). rewrite He'. obind. eexists. split; [done|]. simpl. split_and!; try done.
      by exists B0, B1, cur.
    + destruct (IH (mkIter (it_index it) (it_table it) (it_safe it) None None (it_fingerprint it))) as (it2 & Hn2 & H2);
        [by exists B0, B1, []|done|unfold iter_measure, it_ht in *; simpl; rewrite He in Hm; lia|].
      exists it2. by rewrite Hn2.
  - unfold iter_start. rewrite (proj2 (Z.eqb_neq _ _)) by lia. simpl andb. cbv iota.
    assert (bucket_step d it rest) as (it' & stop & -> & Hi' & Hs & Hf & Hok)
      by (destruct (it_table it) eqn:Et; [by apply iter_bucket_second|by apply iter_bucket_first]). obind.
    destruct stop; [subst rest; by exists it'|]. unfold bucket_ok in Hok. destruct (it_entry it') as [l|] eqn:He'.
    + destruct Hok as (e & rest' & -> & Hl & Hat'). rewrite Hl. obind. eexists. split; [done|]. simpl. split_and!; try done.
      unfold set_next_entry in Hat'. by rewrite He' in Hat'.
    + destruct Hok as [Hat' Hlt]. destruct (IH it' Hat' Hi') as (it2 & -> & Hi2 & Hs2 & Hf2 & Hr); [lia|].
      exists it2. split_and!; try done; congruence.
Qed.
Lemma sizes_nonneg d B0 B1 : shape type d B0 B1 → 0 ≤ ht_size (ht0 d) ∧ 0 ≤ ht_size (ht1 d).
Proof.
  intros [? -> ->|? ? T -> ?|? ? [T0 T1 _ _ _]]; [done|rewrite (tr_size _ _ _ _ T); simpl; lia|].
  rewrite (tr_size _ _ _ _ T0), (tr_size _ _ _ _ T1). lia.
Qed.

Lemma dictNext_started d it rest :
  iter_at d it rest → 0 ≤ it_index it →
  ∃ it', dictNext d it = Some (d, it', hd_error rest) ∧ 0 ≤ it_index it' ∧ it_safe it' = it_safe it ∧
    it_fingerprint it' = it_fingerprint it ∧ match rest with [] => True | _ :: rest' => iter_at d it' rest' end.
Proof.
  intros Hat Hi. apply next_loop_started; [done|done|]. destruct Hat as (B0 & B1 & _ & Hsh & _).
  destruct (sizes_nonneg _ _ _ Hsh). unfold iter_measure, iter_fuel, it_ht. destruct (it_table it), (it_entry it); lia.
Qed.

(** The first use of an iterator. *)
Lemma dictNext_first d it rest :
  iter_at d it rest → it_entry it = None → it_index it = -1 → it_table it = false →
  let '(d1, it1) := iter_start d it in
  ∃ it', dictNext d it = Some (d1, it', hd_error rest) ∧ 0 ≤ it_index it' ∧ it_safe it' = it_safe it ∧
    it_fingerprint it' = it_fingerprint it1 ∧ match rest with [] => True | _ :: rest' => iter_at d1 it' rest' end.
Proof.
  intros Hat He Hi Ht. pose proof Hat as (B0 & B1 & cur & Hsh & Hidx & Hcur & Hrest & _).
  destruct (sizes_nonneg _ _ _ Hsh) as [Hs0 Hs1]. unfold dictNext. destruct (iter_start d it) as [d1 it1] eqn:Hst.
  assert (same_tables d d1 ∧ it_entry it1 = None ∧ it_index it1 = -1 ∧ it_table it1 = false ∧ it_safe it1 = it_safe it ∧
    it_nextEntry it1 = it_nextEntry it) as (Hsame & He1 & Hi1 & Ht1 & Hs & Hn1).
  { unfold iter_start in Hst. rewrite Hi, Ht in Hst. simpl in Hst. destruct (it_safe it) eqn:Es; injection Hst as <- <-; by split_and!. }
  pose proof Hsame as (H0 & H1 & Hr & Hen).
  assert (iter_at d1 it1 rest) as Hat1.
  { exists B0, B1, cur. unfold it_ht, dictIsRehashing in *. rewrite He1, Hi1, Ht1, H0. rewrite He, Hi, Ht in *.
    split_and!; try done; [by eapply shape_tables|lia]. }
  destruct (iter_bucket_first d1 it1 rest Hat1 He1 Ht1) as (it' & stop & Hbk & Hi' & Hs' & Hf & Hok).
  unfold iter_fuel. replace (Z.to_nat _) with (S (Z.to_nat (ht_size (ht0 d) + ht_size (ht1 d) + 2))) by lia.
  cbn [next_loop]. rewrite He, Hst, Hbk. obind. destruct stop; [rewrite Hok; exists it'; split_and!; try done; congruence|].
  unfold bucket_ok in Hok. destruct (it_entry it') as [l|] eqn:He'.
  - destruct Hok as (e & rest' & -> & Hl & Hat'). rewrite Hl. obind. eexists. split; [done|]. simpl. split_and!; try done; [congruence|].
    unfold set_next_entry in Hat'. by rewrite He' in Hat'.
  - destruct Hok as [Hat' Hlt]. destruct (next_loop_started (Z.to_nat (ht_size (ht0 d) + ht_size (ht1 d) + 2)) d1 it' rest Hat' Hi') as (it2 & -> & Hi2 & Hs2 & Hf2 & Hrr).
    + unfold iter_measure, it_ht in Hlt. rewrite He1, Hi1, Ht1, H0, H1 in Hlt. unfold iter_measure, it_ht. rewrite H0, H1. lia.
    + exists it2. split_and!; try done; congruence.
Qed.

Lemma iter_loop_started fuel d it rest :
  iter_at d it rest → 0 ≤ it_index it → (length rest < fuel)%nat →
  ∃ it', iter_loop fuel d it = Some (d, it', rest) ∧ 0 ≤ it_index it' ∧ it_safe it' = it_safe it ∧ it_fingerprint it' = it_fingerprint it.
Proof.
  revert it rest. induction fuel as [|fuel IH]; intros it rest Hat Hi Hf; [lia|]. cbn [iter_loop].
  destruct (dictNext_started _ _ _ Hat Hi) as (it1 & -> & Hi1 & Hs1 & Hf1 & Hat1). obind. destruct rest as [|l rest]; [by exists it1|].
  simpl. simpl in Hf. destruct (IH it1 rest Hat1 Hi1) as (it2 & -> & Hi2 & Hs2 & Hf2); [lia|]. obind. exists it2. split_and!; try done; congruence.
Qed.

(** A walk from the start to the release. *)
Lemma iter_all_spec d B0 B1 safe :
  shape type d B0 B1 → word (iterators d) → (length (concat B0 ++ concat B1) ≤ size (entries d))%nat →
  iter_all (if safe : bool then dictGetSafeIterator else dictGetIterator) d = Some (d, concat B0 ++ concat B1).
Proof.
  intros Hsh Hw Hlen. set (it := if safe then _ else _). destruct (sizes_nonneg _ _ _ Hsh) as [Hs0 Hs1].
  assert (iter_at d it (concat B0 ++ concat B1)) as Hat.
  { exists B0, B1, []. subst it. unfold it_ht. destruct safe; simpl; split_and!; try done; lia. }
  pose proof (dictNext_first d it _ Hat) as Hfirst. unfold iter_all, chain_fuel. cbn [iter_loop].
  assert (it_entry it = None ∧ it_index it = -1 ∧ it_table it = false ∧ it_safe it = safe) as (He & Hi & Ht & Hsafe) by (subst it; by destruct safe).
  specialize (Hfirst He Hi Ht). destruct (iter_start d it) as [d1 it1] eqn:Hst. destruct Hfirst as (it2 & -> & Hi2 & Hsf2 & Hf2 & Hat2). obind.
  assert (∃ it3, match hd_error (concat B0 ++ concat B1) with
    | None => Some (d1, it2, []) | Some l => '(d, it, ls) ← iter_loop (size (entries d)) d1 it2; Some (d, it, l :: ls) end =
    Some (d1, it3, concat B0 ++ concat B1) ∧ 0 ≤ it_index it3 ∧ it_safe it3 = safe ∧ it_fingerprint it3 = it_fingerprint it1) as (it3 & -> & Hi3 & Hs3 & Hf3).
  { destruct (concat B0 ++ concat B1) as [|l rest]; simpl in *; [exists it2; split_and!; congruence || done|].
    destruct (iter_loop_started (size (entries d)) d1 it2 rest Hat2 Hi2) as (it3 & -> & Hi3 & Hs3 & Hf3); [lia|]. obind.
    exists it3. split_and!; try done; congruence. }
  obind. unfold dictReleaseIterator. rewrite (proj2 (Z.eqb_neq _ _)) by lia. simpl negb. cbv iota. rewrite Hs3, Hf3.
  unfold iter_start in Hst. rewrite Hi, Ht, Hsafe in Hst. simpl in Hst. destruct safe; injection Hst as <- <-.
  - obind. do 2 f_equal. destruct d as [h0 h1 ri its es]. unfold set_iterators. simpl in *. f_equal. unfold word in Hw.
    unfold u64. rewrite Zminus_mod_idemp_l. rewrite Z.mod_small; lia.
  - cbn [it_fingerprint]. rewrite bool_decide_eq_true_2 by reflexivity. reflexivity.
Qed.
End spec.

(** No more entries in the tables than in memory. *)
Lemma rep_entries {K V C} `{Countable C} (type : dictType K) (canon : K → C) (d : dict K V) B0 B1 m :
  shape type d B0 B1 → holds canon (entries d) (concat B0 ++ concat B1) m →
  size m = length (concat B0 ++ concat B1) ∧ (length (concat B0 ++ concat B1) ≤ size (entries d))%nat.
Proof.
  intros Hsh (L & HF & Hnd & ->). apply shape_nodup in Hsh as Hnd'. split; [by rewrite map_size_list_to_map, (Forall2_length _ _ _ HF)|].
  assert (∀ l, l ∈ concat B0 ++ concat B1 → l ∈ dom (entries d)) as Hin.
  { intros l (i & Hi)%list_elem_of_lookup. destruct (Forall2_lookup_l _ _ _ _ _ HF Hi) as (p & _ & Hp).
    apply elem_of_dom. destruct (entries d !! l); [by eexists|done]. }
  rewrite <- size_dom. rewrite <- (size_list_to_set (C := gset dloc) _ Hnd'). apply subseteq_size. set_solver.
Qed.

(** C24: Iteration visits every entry once.  The loop over [dictNext] and the
    release of the iterator, safe or not, leave the dictionary as it was; the
    entries returned are those of the dictionary, each key once, whether or not
    the dictionary is being rehashed; and the fingerprint of an iterator that is
    not safe is unchanged, so its assertion holds. *)
Theorem dict_iteration {K V C} `{Countable C} (type : dictType K) (canon : K → C) `{!TypeLaws type canon} (d : dict K V) m safe :
  dict_rep type canon d m →
  ∃ ls L, iter_all (if safe : bool then dictGetSafeIterator else dictGetIterator) d = Some (d, ls) ∧
    Forall2 (λ l p, kv canon <$> entries d !! l = Some p) ls L ∧ L ≡ₚ map_to_list m.
Proof.
  intros (B0 & B1 & Hsh & Hh & Hw). destruct (rep_entries type canon d B0 B1 m Hsh Hh) as [_ Hlen]. destruct Hh as (L & HF & Hnd & ->).
  exists (concat B0 ++ concat B1), L. split_and!; [by apply (iter_all_spec type)|done|by rewrite map_to_list_to_map].
Qed.

(** In the middle of a rehashing. *)
Definition iter_example : list (dict_op sds Z) := [DAdd "a" 1; DAdd "b" 2; DAdd "c" 3; DAdd "d" 4; DAdd "e" 5].

Lemma dict_iteration_witness :
  ∃ d ls L, fst ∘ fst <$> dict_run (dbDictType (Z.of_nat <$> seq 0 16)) iter_example (dictCreate, true) = Some d ∧
    iter_all dictGetIterator d = Some (d, ls) ∧ Forall2 (λ l p, kv id <$> entries d !! l = Some p) ls L ∧ length L = 5%nat.
Proof.
  destruct (run_simulates (dbDictType (Z.of_nat <$> seq 0 16)) id iter_example dictCreate true ∅) as (d & can & Hrun & R).
  - repeat constructor.
  - apply create_rep.
  - done.
  - destruct (dict_iteration (dbDictType (Z.of_nat <$> seq 0 16)) id d (stored (map_run id iter_example ∅).1) false R) as (ls & L & Hit & HF & HL).
    exists d, ls, L. split; [by rewrite Hrun|]. split; [exact Hit|]. split; [exact HF|].
    rewrite (Permutation_length HL). vm_compute. reflexivity.
Defined.
