(* ===== verification/Ziplist.v ===== *)
(** * Ziplists (src/ziplist.c)

    A ziplist is one block of bytes:

      total bytes (4), offset of the last entry (4), number of entries (2),
      entries, 255

    and an entry is the length of the previous entry (1 byte, or 254 and 4
    bytes), an encoding with the length of the value, and the value, a string
    or an integer.  Numbers are little-endian.  When an entry changes its
    length the next one may have to be made longer, which can go on through
    the whole list.

    The block is a list of bytes, a pointer into it an offset, and every
    access is checked: outside the block, or on a failed assertion, the result
    is [None].  Bytes that [zrealloc] adds hold an arbitrary value [junk]. *)

From S2P Require Import Prelude.
From S2P Require Import Sds.

#[local] Open Scope Z_scope.

(** ** Memory *)

Definition u32 (z : Z) : Z := z mod 2 ^ 32.
Definition u16 (z : Z) : Z := z mod 2 ^ 16.

(** The [n] low bytes of a number, lowest first, and back. *)
Fixpoint le_encode (n : nat) (v : Z) : list Z :=
  match n with
  | O => []
  | S n' => v mod 256 :: le_encode n' (v / 256)
  end.

Fixpoint le_decode (bs : list Z) : Z :=
  match bs with
  | [] => 0
  | b :: bs => b + 256 * le_decode bs
  end.

(** A number of [8 n] bits read as signed. *)
Definition signed (n : Z) (v : Z) : Z := if v <? 2 ^ (8 * n - 1) then v else v - 2 ^ (8 * n).

Definition zbyte (m : list Z) (p : Z) : option Z := if p <? 0 then None else m !! Z.to_nat p.

(** [n] bytes from [p] on. *)
Definition slice (m : list Z) (p n : Z) : option (list Z) :=
  if (0 <=? p) && (0 <=? n) && (p + n <=? Z.of_nat (length m)) then Some (take (Z.to_nat n) (drop (Z.to_nat p) m)) else None.

(** [memcpy] of [bs] to [p]. *)
Definition store (m : list Z) (p : Z) (bs : list Z) : option (list Z) :=
  if (0 <=? p) && (p + Z.of_nat (length bs) <=? Z.of_nat (length m))
  then Some (take (Z.to_nat p) m ++ bs ++ drop (Z.to_nat p + length bs) m) else None.

Definition memmove (m : list Z) (dst src n : Z) : option (list Z) := bs ← slice m src n; store m dst bs.

(** ** Constants *)

Definition ZIP_END : Z := 255.
Definition ZIP_BIG_PREVLEN : Z := 254.
Definition ZIP_STR_MASK : Z := 0xc0.
Definition ZIP_STR_06B : Z := 0.
Definition ZIP_STR_14B : Z := 0x40.
Definition ZIP_STR_32B : Z := 0x80.
Definition ZIP_INT_16B : Z := 0xc0.
Definition ZIP_INT_32B : Z := 0xd0.
Definition ZIP_INT_64B : Z := 0xe0.
Definition ZIP_INT_24B : Z := 0xf0.
Definition ZIP_INT_8B : Z := 0xfe.
Definition ZIP_INT_IMM_MASK : Z := 0x0f.
Definition ZIP_INT_IMM_MIN : Z := 0xf1.
Definition ZIP_INT_IMM_MAX : Z := 0xfd.
Definition INT24_MAX : Z := 0x7fffff.
Definition INT24_MIN : Z := - INT24_MAX - 1.
Definition UINT16_MAX : Z := 0xffff.

Definition ZIP_IS_STR (enc : Z) : bool := Z.land enc ZIP_STR_MASK <? ZIP_STR_MASK.

(** ** Header *)

Definition ZIPLIST_BYTES (zl : list Z) : option Z := le_decode <$> slice zl 0 4.
Definition ZIPLIST_TAIL_OFFSET (zl : list Z) : option Z := le_decode <$> slice zl 4 4.
Definition ZIPLIST_LENGTH (zl : list Z) : option Z := le_decode <$> slice zl 8 2.
Definition set_bytes (zl : list Z) (v : Z) : option (list Z) := store zl 0 (le_encode 4 v).
Definition set_tail_offset (zl : list Z) (v : Z) : option (list Z) := store zl 4 (le_encode 4 v).
Definition set_zl_length (zl : list Z) (v : Z) : option (list Z) := store zl 8 (le_encode 2 v).

Definition ZIPLIST_HEADER_SIZE : Z := 10.
Definition ZIPLIST_END_SIZE : Z := 1.
Definition ZIPLIST_ENTRY_HEAD : Z := ZIPLIST_HEADER_SIZE.
Definition ZIPLIST_ENTRY_TAIL (zl : list Z) : option Z := ZIPLIST_TAIL_OFFSET zl.
Definition ZIPLIST_ENTRY_END (zl : list Z) : option Z := b ← ZIPLIST_BYTES zl; Some (b - 1).

Definition ZIPLIST_INCR_LENGTH (zl : list Z) (incr : Z) : option (list Z) :=
  n ← ZIPLIST_LENGTH zl;
  if n <? UINT16_MAX then set_zl_length zl (u16 (n + incr)) else Some zl.

(** ** Encodings *)

Definition zipIntSize (encoding : Z) : option Z :=
  if encoding =? ZIP_INT_8B then Some 1
  else if encoding =? ZIP_INT_16B then Some 2
  else if encoding =? ZIP_INT_24B then Some 3
  else if encoding =? ZIP_INT_32B then Some 4
  else if encoding =? ZIP_INT_64B then Some 8
  else if (ZIP_INT_IMM_MIN <=? encoding) && (encoding <=? ZIP_INT_IMM_MAX) then Some 0
  else None.

(** [zipStoreEntryEncoding]: the bytes it writes; their number is what it
    returns. *)
Definition zipStoreEntryEncoding (encoding rawlen : Z) : list Z :=
  if ZIP_IS_STR encoding then
    if rawlen <=? 0x3f then [Z.lor ZIP_STR_06B rawlen]
    else if rawlen <=? 0x3fff then [Z.lor ZIP_STR_14B (Z.land (Z.shiftr rawlen 8) 0x3f); Z.land rawlen 0xff]
    else [ZIP_STR_32B; Z.land (Z.shiftr rawlen 24) 0xff; Z.land (Z.shiftr rawlen 16) 0xff;
          Z.land (Z.shiftr rawlen 8) 0xff; Z.land rawlen 0xff]
  else [encoding].

Definition ZIP_ENTRY_ENCODING (b : Z) : Z := if b <? ZIP_STR_MASK then Z.land b ZIP_STR_MASK else b.

(** [ZIP_DECODE_LENGTH]: encoding, bytes of the encoding, bytes of the
    value. *)
Definition ZIP_DECODE_LENGTH (m : list Z) (p : Z) : option (Z * Z * Z) :=
  b0 ← zbyte m p;
  let encoding := ZIP_ENTRY_ENCODING b0 in
  if encoding <? ZIP_STR_MASK then
    if encoding =? ZIP_STR_06B then Some (encoding, 1, Z.land b0 0x3f)
    else if encoding =? ZIP_STR_14B then
      b1 ← zbyte m (p + 1); Some (encoding, 2, Z.lor (Z.shiftl (Z.land b0 0x3f) 8) b1)
    else if encoding =? ZIP_STR_32B then
      b1 ← zbyte m (p + 1); b2 ← zbyte m (p + 2); b3 ← zbyte m (p + 3); b4 ← zbyte m (p + 4);
      Some (encoding, 5, Z.lor (Z.lor (Z.lor (Z.shiftl b1 24) (Z.shiftl b2 16)) (Z.shiftl b3 8)) b4)
    else None
  else len ← zipIntSize encoding; Some (encoding, 1, len).

Definition zipStorePrevEntryLengthLarge (len : Z) : list Z := ZIP_BIG_PREVLEN :: le_encode 4 len.

(** [zipStorePrevEntryLength]: the bytes it writes. *)
Definition zipStorePrevEntryLength (len : Z) : list Z :=
  if len <? ZIP_BIG_PREVLEN then [len] else zipStorePrevEntryLengthLarge len.

(** Called with NULL: the number of bytes. *)
Definition prev_length_size (len : Z) : Z := if len <? ZIP_BIG_PREVLEN then 1 else 5.

Definition ZIP_DECODE_PREVLENSIZE (m : list Z) (p : Z) : option Z :=
  b ← zbyte m p; Some (if b <? ZIP_BIG_PREVLEN then 1 else 5).

(** [ZIP_DECODE_PREVLEN]: size and value of the field. *)
Definition ZIP_DECODE_PREVLEN (m : list Z) (p : Z) : option (Z * Z) :=
  prevlensize ← ZIP_DECODE_PREVLENSIZE m p;
  if prevlensize =? 1 then b ← zbyte m p; Some (prevlensize, b)
  else bs ← slice m (p + 1) 4; Some (prevlensize, le_decode bs).

Definition zipPrevLenByteDiff (m : list Z) (p len : Z) : option Z :=
  prevlensize ← ZIP_DECODE_PREVLENSIZE m p; Some (prev_length_size len - prevlensize).

Definition zipRawEntryLength (m : list Z) (p : Z) : option Z :=
  prevlensize ← ZIP_DECODE_PREVLENSIZE m p;
  '(_, lensize, len) ← ZIP_DECODE_LENGTH m (p + prevlensize);
  Some (prevlensize + lensize + len).

(** [zipTryEncoding]: the value and its encoding. *)
Definition zipTryEncoding (entry : sds) : option (Z * Z) :=
  let entrylen := Z.of_nat (String.length entry) in
  if (32 <=? entrylen) || (entrylen =? 0) then None
  else
    value ← string2ll entry;
    Some (value,
      if (0 <=? value) && (value <=? 12) then ZIP_INT_IMM_MIN + value
      else if (-128 <=? value) && (value <=? 127) then ZIP_INT_8B
      else if (-32768 <=? value) && (value <=? 32767) then ZIP_INT_16B
      else if (INT24_MIN <=? value) && (value <=? INT24_MAX) then ZIP_INT_24B
      else if (INT_MIN <=? value) && (value <=? INT_MAX) then ZIP_INT_32B
      else ZIP_INT_64B).

(** [zipSaveInteger]: the bytes it writes. *)
Definition zipSaveInteger (value encoding : Z) : option (list Z) :=
  if encoding =? ZIP_INT_8B then Some (le_encode 1 value)
  else if encoding =? ZIP_INT_16B then Some (le_encode 2 value)
  else if encoding =? ZIP_INT_24B then Some (drop 1 (le_encode 4 (Z.shiftl value 8)))
  else if encoding =? ZIP_INT_32B then Some (le_encode 4 value)
  else if encoding =? ZIP_INT_64B then Some (le_encode 8 value)
  else if (ZIP_INT_IMM_MIN <=? encoding) && (encoding <=? ZIP_INT_IMM_MAX) then Some []
  else None.

Definition zipLoadInteger (m : list Z) (p encoding : Z) : option Z :=
  if encoding =? ZIP_INT_8B then bs ← slice m p 1; Some (signed 1 (le_decode bs))
  else if encoding =? ZIP_INT_16B then bs ← slice m p 2; Some (signed 2 (le_decode bs))
  else if encoding =? ZIP_INT_32B then bs ← slice m p 4; Some (signed 4 (le_decode bs))
  else if encoding =? ZIP_INT_24B then bs ← slice m p 3; Some (Z.shiftr (signed 4 (le_decode (0 :: bs))) 8)
  else if encoding =? ZIP_INT_64B then bs ← slice m p 8; Some (signed 8 (le_decode bs))
  else if (ZIP_INT_IMM_MIN <=? encoding) && (encoding <=? ZIP_INT_IMM_MAX) then Some (Z.land encoding ZIP_INT_IMM_MASK - 1)
  else None.

Record zlentry := mkZle {
  prevrawlensize : Z;
  prevrawlen : Z;
  lensize : Z;
  len : Z;
  headersize : Z;
  enc : Z;
  zle_p : Z
}.

Definition zipEntry (m : list Z) (p : Z) : option zlentry :=
  '(prevrawlensize, prevrawlen) ← ZIP_DECODE_PREVLEN m p;
  '(encoding, lensize, len) ← ZIP_DECODE_LENGTH m (p + prevrawlensize);
  Some (mkZle prevrawlensize prevrawlen lensize len (prevrawlensize + lensize) encoding p).

(** ** Operations *)

Section operations.
Context (junk : Z).

Definition ziplistNew : option (list Z) :=
  let bytes := ZIPLIST_HEADER_SIZE + ZIPLIST_END_SIZE in
  let zl := replicate (Z.to_nat bytes) junk in
  zl ← set_bytes zl bytes;
  zl ← set_tail_offset zl ZIPLIST_HEADER_SIZE;
  zl ← set_zl_length zl 0;
  store zl (bytes - 1) [ZIP_END].

(** [zrealloc] keeps the bytes that fit. *)
Definition zrealloc (zl : list Z) (n : Z) : list Z :=
  take (Z.to_nat n) zl ++ replicate (Z.to_nat n - length zl) junk.

(** The parameter has 32 bits. *)
Definition ziplistResize (zl : list Z) (n : Z) : option (list Z) :=
  let len := u32 n in
  let zl := zrealloc zl len in
  zl ← set_bytes zl len;
  store zl (len - 1) [ZIP_END].

(** The loop of [__ziplistCascadeUpdate]. *)
Fixpoint cascade_loop (fuel : nat) (zl : list Z) (p curlen : Z) : option (list Z) :=
  match fuel with
  | O => None
  | S fuel' =>
      b ← zbyte zl p;
      if b =? ZIP_END then Some zl
      else
        cur ← zipEntry zl p;
        let rawlen := headersize cur + len cur in
        let rawlensize := prev_length_size rawlen in
        b ← zbyte zl (p + rawlen);
        if b =? ZIP_END then Some zl
        else
          next ← zipEntry zl (p + rawlen);
          if prevrawlen next =? rawlen then Some zl
          else if prevrawlensize next <? rawlensize then
            let extra := rawlensize - prevrawlensize next in
            zl ← ziplistResize zl (curlen + extra);
            let np := p + rawlen in
            t ← ZIPLIST_TAIL_OFFSET zl;
            zl ← (if negb (t =? np) then set_tail_offset zl (u32 (t + extra)) else Some zl);
            zl ← memmove zl (np + rawlensize) (np + prevrawlensize next) (curlen - np - prevrawlensize next - 1);
            zl ← store zl np (zipStorePrevEntryLength rawlen);
            cascade_loop fuel' zl (p + rawlen) (curlen + extra)
          else if rawlensize <? prevrawlensize next then store zl (p + rawlen) (zipStorePrevEntryLengthLarge rawlen)
          else store zl (p + rawlen) (zipStorePrevEntryLength rawlen)
  end.

(** There are fewer entries than bytes. *)
Definition __ziplistCascadeUpdate (zl : list Z) (p : Z) : option (list Z) :=
  curlen ← ZIPLIST_BYTES zl; cascade_loop (length zl) zl p curlen.

(** The loop of [__ziplistDelete] over the entries to delete. *)
Fixpoint delete_loop (num : nat) (zl : list Z) (p deleted : Z) : option (Z * Z) :=
  match num with
  | O => Some (p, deleted)
  | S num' =>
      b ← zbyte zl p;
      if b =? ZIP_END then Some (p, deleted)
      else l ← zipRawEntryLength zl p; delete_loop num' zl (p + l) (deleted + 1)
  end.

(** The update of the tail offset in [__ziplistDelete] and [__ziplistInsert],
    with the entry after the change at [p]: [nextdiff] counts only when there
    is another entry after it. *)
Definition shift_tail_offset (zl : list Z) (p delta nextdiff : Z) : option (list Z) :=
  t ← ZIPLIST_TAIL_OFFSET zl;
  zl ← set_tail_offset zl (u32 (t + delta));
  tail ← zipEntry zl p;
  b ← zbyte zl (p + headersize tail + len tail);
  if negb (b =? ZIP_END) then t ← ZIPLIST_TAIL_OFFSET zl; set_tail_offset zl (u32 (t + nextdiff)) else Some zl.

Definition __ziplistDelete (zl : list Z) (p : Z) (num : nat) : option (list Z) :=
  first ← zipEntry zl p;
  '(p, deleted) ← delete_loop num zl p 0;
  let totlen := p - zle_p first in
  if totlen >? 0 then
    b ← zbyte zl p;
    '(zl, nextdiff) ←
      (if negb (b =? ZIP_END) then
         nextdiff ← zipPrevLenByteDiff zl p (prevrawlen first);
         let p := p - nextdiff in
         zl ← store zl p (zipStorePrevEntryLength (prevrawlen first));
         zl ← shift_tail_offset zl p (- totlen) nextdiff;
         n ← ZIPLIST_BYTES zl;
         zl ← memmove zl (zle_p first) p (n - p - 1);
         Some (zl, nextdiff)
       else
         zl ← set_tail_offset zl (u32 (zle_p first - prevrawlen first));
         Some (zl, 0));
    n ← ZIPLIST_BYTES zl;
    zl ← ziplistResize zl (n - totlen + nextdiff);
    zl ← ZIPLIST_INCR_LENGTH zl (- deleted);
    if negb (nextdiff =? 0) then __ziplistCascadeUpdate zl (zle_p first) else Some zl
  else Some zl.

(** The encoding [__ziplistInsert] chooses for a value, the bytes it writes for
    it and their number. *)
Definition encode_value (s : sds) : option (Z * list Z * Z) :=
  match zipTryEncoding s with
  | Some (value, encoding) =>
      reqlen ← zipIntSize encoding; bs ← zipSaveInteger value encoding; Some (encoding, bs, reqlen)
  | None => Some (0, sds_bytes s, Z.of_nat (String.length s))
  end.

(** The part of [__ziplistInsert] that makes room for [reqlen] bytes at [p]:
    the entry at [p] gets a field that can hold [reqlen]. *)
Definition insert_space (zl : list Z) (p curlen reqlen : Z) : option (list Z) :=
  b ← zbyte zl p;
  nextdiff ← (if negb (b =? ZIP_END) then zipPrevLenByteDiff zl p reqlen else Some 0);
  let '(nextdiff, forcelarge) := if (nextdiff =? -4) && (reqlen <? 4) then (0, true) else (nextdiff, false) in
  let offset := p in
  zl ← ziplistResize zl (curlen + reqlen + nextdiff);
  b ← zbyte zl p;
  zl ← (if negb (b =? ZIP_END) then
          zl ← memmove zl (p + reqlen) (p - nextdiff) (curlen - offset - 1 + nextdiff);
          zl ← store zl (p + reqlen)
                 (if forcelarge : bool then zipStorePrevEntryLengthLarge reqlen else zipStorePrevEntryLength reqlen);
          shift_tail_offset zl (p + reqlen) reqlen nextdiff
        else set_tail_offset zl (u32 p));
  if negb (nextdiff =? 0) then __ziplistCascadeUpdate zl (p + reqlen) else Some zl.

(** The length of the entry before position [p], as [__ziplistInsert] finds
    it. *)
Definition insert_prevlen (zl : list Z) (p : Z) : option Z :=
  b ← zbyte zl p;
  if negb (b =? ZIP_END) then '(_, prevlen) ← ZIP_DECODE_PREVLEN zl p; Some prevlen
  else
    ptail ← ZIPLIST_ENTRY_TAIL zl;
    bt ← zbyte zl ptail;
    if negb (bt =? ZIP_END) then zipRawEntryLength zl ptail else Some 0.

Definition __ziplistInsert (zl : list Z) (p : Z) (s : sds) : option (list Z) :=
  let slen := Z.of_nat (String.length s) in
  curlen ← ZIPLIST_BYTES zl;
  prevlen ← insert_prevlen zl p;
  '(encoding, payload, reqlen) ← encode_value s;
  let reqlen := reqlen + prev_length_size prevlen in
  let reqlen := reqlen + Z.of_nat (length (zipStoreEntryEncoding encoding slen)) in
  zl ← insert_space zl p curlen reqlen;
  zl ← store zl p (zipStorePrevEntryLength prevlen);
  let p := p + Z.of_nat (length (zipStorePrevEntryLength prevlen)) in
  zl ← store zl p (zipStoreEntryEncoding encoding slen);
  let p := p + Z.of_nat (length (zipStoreEntryEncoding encoding slen)) in
  zl ← store zl p payload;
  ZIPLIST_INCR_LENGTH zl 1.

(** The block [ziplistMerge] builds from two lists: the one with more entries
    is extended. *)
Definition merge_target (first second : list Z) : option (bool * list Z) :=
  first_bytes ← ZIPLIST_BYTES first;
  first_len ← ZIPLIST_LENGTH first;
  second_bytes ← ZIPLIST_BYTES second;
  second_len ← ZIPLIST_LENGTH second;
  let append := second_len <=? first_len in
  let zlbytes := first_bytes + second_bytes - ZIPLIST_HEADER_SIZE - ZIPLIST_END_SIZE in
  let zllength := first_len + second_len in
  let zllength := if zllength <? UINT16_MAX then zllength else UINT16_MAX in
  first_offset ← ZIPLIST_TAIL_OFFSET first;
  second_offset ← ZIPLIST_TAIL_OFFSET second;
  target ←
    (if append then
       let target := zrealloc first zlbytes in
       bs ← slice second ZIPLIST_HEADER_SIZE (second_bytes - ZIPLIST_HEADER_SIZE);
       store target (first_bytes - ZIPLIST_END_SIZE) bs
     else
       let target := zrealloc second zlbytes in
       target ← memmove target (first_bytes - ZIPLIST_END_SIZE) ZIPLIST_HEADER_SIZE (second_bytes - ZIPLIST_HEADER_SIZE);
       bs ← slice first 0 (first_bytes - ZIPLIST_END_SIZE);
       store target 0 bs);
  target ← set_bytes target (u32 zlbytes);
  target ← set_zl_length target zllength;
  target ← set_tail_offset target
             (u32 (first_bytes - ZIPLIST_END_SIZE + (second_offset - ZIPLIST_HEADER_SIZE)));
  target ← __ziplistCascadeUpdate target first_offset;
  Some (append, target).

(** [ziplistMerge] on two pointers to lists, [None] for NULL; [same] tells
    that they are the same list.  The list returned and the two pointers
    after the call. *)
Definition ziplistMerge (same : bool) (first second : option (list Z)) :
    option (option (list Z) * option (list Z) * option (list Z)) :=
  match first, second with
  | Some zl1, Some zl2 =>
      if same then Some (None, first, second)
      else
        '(append, target) ← merge_target zl1 zl2;
        Some (if append : bool then (Some target, Some target, None) else (Some target, None, Some target))
  | _, _ => Some (None, first, second)
  end.

Inductive where_ := ZIPLIST_HEAD | ZIPLIST_TAIL.

Definition ziplistPush (zl : list Z) (s : sds) (w : where_) : option (list Z) :=
  p ← match w with ZIPLIST_HEAD => Some ZIPLIST_ENTRY_HEAD | ZIPLIST_TAIL => ZIPLIST_ENTRY_END zl end;
  __ziplistInsert zl p s.

Definition ziplistInsert (zl : list Z) (p : Z) (s : sds) : option (list Z) := __ziplistInsert zl p s.

(** The list and the pointer after it. *)
Definition ziplistDelete (zl : list Z) (p : Z) : option (list Z * Z) :=
  let offset := p in zl ← __ziplistDelete zl p 1; Some (zl, offset).

(** ** Traversal *)

(** The loop of [ziplistIndex] from the end: [while (prevlen > 0 && index--)];
    the position and the index left. *)
Fixpoint index_back (fuel : nat) (zl : list Z) (p prevlen index : Z) : option (Z * Z) :=
  match fuel with
  | O => None
  | S fuel' =>
      if prevlen >? 0 then
        if index =? 0 then Some (p, index - 1)
        else '(_, prevlen') ← ZIP_DECODE_PREVLEN zl (p - prevlen); index_back fuel' zl (p - prevlen) prevlen' (index - 1)
      else Some (p, index)
  end.

Fixpoint index_forward (fuel : nat) (zl : list Z) (p index : Z) : option (Z * Z) :=
  match fuel with
  | O => None
  | S fuel' =>
      b ← zbyte zl p;
      if b =? ZIP_END then Some (p, index)
      else if index =? 0 then Some (p, index - 1)
      else l ← zipRawEntryLength zl p; index_forward fuel' zl (p + l) (index - 1)
  end.

(** [ziplistIndex]; [Some None] is NULL.  The negation of INT_MIN is
    undefined. *)
Definition ziplistIndex (zl : list Z) (index : Z) : option (option Z) :=
  '(p, index) ←
    (if index =? INT_MIN then None
     else if index <? 0 then
       let index := - index - 1 in
       p ← ZIPLIST_ENTRY_TAIL zl;
       b ← zbyte zl p;
       if negb (b =? ZIP_END) then
         '(_, prevlen) ← ZIP_DECODE_PREVLEN zl p; index_back (S (length zl)) zl p prevlen index
       else Some (p, index)
     else index_forward (S (length zl)) zl ZIPLIST_ENTRY_HEAD index);
  b ← zbyte zl p;
  Some (if (b =? ZIP_END) || (index >? 0) then None else Some p).

Definition ziplistDeleteRange (zl : list Z) (index : Z) (num : nat) : option (list Z) :=
  p ← ziplistIndex zl index;
  match p with None => Some zl | Some p => __ziplistDelete zl p num end.

Definition ziplistNext (zl : list Z) (p : Z) : option (option Z) :=
  b ← zbyte zl p;
  if b =? ZIP_END then Some None
  else
    l ← zipRawEntryLength zl p;
    b ← zbyte zl (p + l);
    Some (if b =? ZIP_END then None else Some (p + l)).

Definition ziplistPrev (zl : list Z) (p : Z) : option (option Z) :=
  b ← zbyte zl p;
  if b =? ZIP_END then
    p ← ZIPLIST_ENTRY_TAIL zl;
    b ← zbyte zl p;
    Some (if b =? ZIP_END then None else Some p)
  else if p =? ZIPLIST_ENTRY_HEAD then Some None
  else
    '(_, prevlen) ← ZIP_DECODE_PREVLEN zl p;
    if prevlen >? 0 then Some (Some (p - prevlen)) else None.

(** What [ziplistGet] stores: a string or a number. *)
Inductive zl_value := ZlStr (bs : list Z) | ZlInt (z : Z).

(** [ziplistGet]; [Some None] is the return value 0. *)
Definition ziplistGet (zl : list Z) (p : option Z) : option (option zl_value) :=
  match p with
  | None => Some None
  | Some p =>
      b ← zbyte zl p;
      if b =? ZIP_END then Some None
      else
        entry ← zipEntry zl p;
        if ZIP_IS_STR (enc entry) then
          bs ← slice zl (p + headersize entry) (len entry); Some (Some (ZlStr bs))
        else z ← zipLoadInteger zl (p + headersize entry) (enc entry); Some (Some (ZlInt z))
  end.

Definition ziplistCompare (zl : list Z) (p : Z) (sstr : sds) : option bool :=
  b ← zbyte zl p;
  if b =? ZIP_END then Some false
  else
    entry ← zipEntry zl p;
    if ZIP_IS_STR (enc entry) then
      if len entry =? Z.of_nat (String.length sstr) then
        bs ← slice zl (p + headersize entry) (len entry); Some (bool_decide (bs = sds_bytes sstr))
      else Some false
    else
      match zipTryEncoding sstr with
      | Some (sval, _) => zval ← zipLoadInteger zl (p + headersize entry) (enc entry); Some (zval =? sval)
      | None => Some false
      end.

Definition UCHAR_MAX : Z := 255.

(** The comparison inside [ziplistFind]: whether the entry is equal, and
    [vencoding] and [vll] after it. *)
Definition find_equal (zl : list Z) (q encoding n : Z) (vstr : sds) (vencoding vll : Z) : option (bool * Z * Z) :=
  if ZIP_IS_STR encoding then
    if n =? Z.of_nat (String.length vstr) then
      bs ← slice zl q n; Some (bool_decide (bs = sds_bytes vstr), vencoding, vll)
    else Some (false, vencoding, vll)
  else
    let '(vencoding, vll) :=
      if vencoding =? 0 then
        match zipTryEncoding vstr with
        | Some (v, e) => (e, v)
        | None => (UCHAR_MAX, vll)
        end
      else (vencoding, vll) in
    if vencoding =? 0 then None
    else if negb (vencoding =? UCHAR_MAX) then
      ll ← zipLoadInteger zl q encoding; Some (ll =? vll, vencoding, vll)
    else Some (false, vencoding, vll).

Fixpoint find_loop (fuel : nat) (zl : list Z) (p : Z) (vstr : sds) (skip skipcnt vencoding vll : Z) : option (option Z) :=
  match fuel with
  | O => None
  | S fuel' =>
      b ← zbyte zl p;
      if b =? ZIP_END then Some None
      else
        prevlensize ← ZIP_DECODE_PREVLENSIZE zl p;
        '(encoding, lensize, n) ← ZIP_DECODE_LENGTH zl (p + prevlensize);
        let q := p + prevlensize + lensize in
        if skipcnt =? 0 then
          '(equal, vencoding, vll) ← find_equal zl q encoding n vstr vencoding vll;
          if equal : bool then Some (Some p) else find_loop fuel' zl (q + n) vstr skip skip vencoding vll
        else find_loop fuel' zl (q + n) vstr skip (skipcnt - 1) vencoding vll
  end.

Definition ziplistFind (zl : list Z) (p : Z) (vstr : sds) (skip : Z) : option (option Z) :=
  find_loop (S (length zl)) zl p vstr skip 0 0 0.

Fixpoint len_loop (fuel : nat) (zl : list Z) (p n : Z) : option Z :=
  match fuel with
  | O => None
  | S fuel' =>
      b ← zbyte zl p;
      if b =? ZIP_END then Some n else l ← zipRawEntryLength zl p; len_loop fuel' zl (p + l) (n + 1)
  end.

(** [ziplistLen]: the list, whose header may be corrected, and the length. *)
Definition ziplistLen (zl : list Z) : option (list Z * Z) :=
  n ← ZIPLIST_LENGTH zl;
  if n <? UINT16_MAX then Some (zl, n)
  else
    n ← len_loop (S (length zl)) zl ZIPLIST_HEADER_SIZE 0;
    zl ← (if n <? UINT16_MAX then set_zl_length zl n else Some zl);
    Some (zl, n).

Definition ziplistBlobLen (zl : list Z) : option Z := ZIPLIST_BYTES zl.
End operations.
