(* ===== verification/ZiplistRep.v ===== *)
(** * Ziplists: entries and blocks

    Memory lemmas for the checked accesses of [Ziplist]; the entries of a
    block ([ent]) and what the decoding macros read at one; the encoding of
    strings and integers and its round trip; the layout of a block ([zlist]);
    and the cascading update of the length fields, which on the bytes does
    what the function [cascade] does on the list of entries. *)

From S2P Require Import Prelude.
From S2P Require Import Sds.
From S2P Require Import Ziplist.

#[local] Open Scope Z_scope.

Notation zlen l := (Z.of_nat (length l)).

(** ** Memory *)

Definition isbyte (b : Z) : Prop := 0 ≤ b < 256.

Lemma zbyte_app A m i : 0 ≤ i → zbyte (A ++ m) (zlen A + i) = zbyte m i.
Proof.
  intros. unfold zbyte. rewrite !(proj2 (Z.ltb_ge _ _)) by lia.
  rewrite lookup_app_r by lia. f_equal. lia.
Qed.

Lemma zbyte_mono m B i b : zbyte m i = Some b → zbyte (m ++ B) i = Some b.
Proof. unfold zbyte. destruct (i <? 0); [done|]. apply lookup_app_l_Some. Qed.

Lemma slice_spec m p n bs :
  slice m p n = Some bs ↔ ∃ A B, m = A ++ bs ++ B ∧ p = zlen A ∧ n = zlen bs.
Proof.
  unfold slice. split.
  - destruct (_ && _) eqn:E; [|done]. intros [= <-].
    apply andb_prop in E as [[E1%Z.leb_le E2%Z.leb_le]%andb_prop E3%Z.leb_le].
    exists (take (Z.to_nat p) m), (drop (Z.to_nat n) (drop (Z.to_nat p) m)).
    rewrite !take_drop, !length_take, length_drop. split_and!; [done|lia|lia].
  - intros (A & B & -> & -> & ->). rewrite !length_app.
    rewrite !(proj2 (Z.leb_le _ _)) by lia. simpl. rewrite !Nat2Z.id.
    by rewrite drop_app_length, take_app_length.
Qed.

Lemma slice_mid A X B p n : p = zlen A → n = zlen X → slice (A ++ X ++ B) p n = Some X.
Proof. intros. apply slice_spec. eauto. Qed.

Lemma slice_app A m i n : 0 ≤ i → slice (A ++ m) (zlen A + i) n = slice m i n.
Proof.
  intros. unfold slice. rewrite (proj2 (Z.leb_le 0 (zlen A + i))), (proj2 (Z.leb_le 0 i)), length_app by lia.
  replace (zlen A + i + n <=? _) with (i + n <=? zlen m)
    by (destruct (Z.leb_spec (i + n) (zlen m)); symmetry; [apply Z.leb_le|apply Z.leb_gt]; lia).
  simpl. destruct (0 <=? n); [|done]. simpl. destruct (i + n <=? zlen m); [|done].
  rewrite drop_app_ge by lia. do 3 f_equal. lia.
Qed.

Lemma slice_mono m B i n bs : slice m i n = Some bs → slice (m ++ B) i n = Some bs.
Proof. rewrite !slice_spec. intros (A & C & -> & -> & ->). exists A, (C ++ B). by rewrite <- !app_assoc. Qed.

Lemma store_mid A X Y B p : p = zlen A → length X = length Y → store (A ++ X ++ B) p Y = Some (A ++ Y ++ B).
Proof.
  intros -> HX. unfold store. rewrite !length_app. rewrite !(proj2 (Z.leb_le _ _)) by lia. simpl. rewrite Nat2Z.id.
  rewrite take_app_length, drop_app_add, <- HX. by rewrite drop_app_length.
Qed.

(** A move to higher and one to lower addresses. *)
Lemma memmove_up A S T B dst src n :
  src = zlen A → n = zlen S → dst = zlen A + zlen T →
  memmove (A ++ S ++ T ++ B) dst src n = Some (A ++ take (length T) (S ++ T) ++ S ++ B).
Proof.
  intros -> -> ->. unfold memmove. rewrite slice_mid by done. cbn [mbind option_bind].
  assert (S ++ T ++ B = take (length T) (S ++ T) ++ drop (length T) (S ++ T) ++ B) as ->
    by (rewrite app_assoc, (app_assoc (take _ _)), take_drop; done).
  rewrite app_assoc, (store_mid (A ++ take (length T) (S ++ T))).
  - by rewrite <- app_assoc.
  - rewrite length_app, length_take, length_app. lia.
  - rewrite length_drop, length_app. lia.
Qed.

Lemma memmove_down A S T B dst src n :
  src = zlen A + zlen T → n = zlen S → dst = zlen A →
  memmove (A ++ T ++ S ++ B) dst src n = Some (A ++ S ++ drop (length S) (T ++ S) ++ B).
Proof.
  intros -> -> ->. unfold memmove. rewrite app_assoc, slice_mid by (rewrite ?length_app; lia). cbn [mbind option_bind].
  rewrite <- app_assoc.
  assert (T ++ S ++ B = take (length S) (T ++ S) ++ drop (length S) (T ++ S) ++ B) as ->
    by (rewrite app_assoc, (app_assoc (take _ _)), take_drop; done).
  apply store_mid; [done|]. rewrite length_take, length_app. lia.
Qed.

(** ** Numbers as bytes *)

Lemma length_le_encode n v : length (le_encode n v) = n.
Proof. revert v. induction n as [|n IH]; intros v; [done|]. simpl. by rewrite IH. Qed.

Lemma le_encode_bytes n v : Forall isbyte (le_encode n v).
Proof.
  revert v. induction n as [|n IH]; intros v; constructor; [|apply IH].
  unfold isbyte. pose proof (Z.mod_pos_bound v 256). lia.
Qed.

Lemma le_decode_encode n v : le_decode (le_encode n v) = v mod 2 ^ (8 * Z.of_nat n).
Proof.
  revert v. induction n as [|n IH]; intros v; simpl le_decode.
  - by rewrite Z.mod_1_r.
  - rewrite IH. replace (8 * Z.of_nat (S n)) with (8 + 8 * Z.of_nat n) by lia.
    rewrite Z.pow_add_r by lia. change (2 ^ 8) with 256.
    rewrite (Z.rem_mul_r v 256 (2 ^ (8 * Z.of_nat n))) by lia. lia.
Qed.

Lemma le_decode_range bs : Forall isbyte bs → 0 ≤ le_decode bs < 2 ^ (8 * zlen bs).
Proof.
  induction 1 as [|b bs Hb Hbs IH]; simpl; [lia|]. unfold isbyte in Hb.
  replace (8 * Z.of_nat (S (length bs))) with (8 + 8 * zlen bs) by lia.
  rewrite Z.pow_add_r by lia. change (2 ^ 8) with 256. lia.
Qed.

Lemma signed_mod n v : 0 < n → - 2 ^ (8 * n - 1) ≤ v < 2 ^ (8 * n - 1) → signed n (v mod 2 ^ (8 * n)) = v.
Proof.
  intros Hn Hv. assert (2 ^ (8 * n) = 2 * 2 ^ (8 * n - 1)) as Hp.
  { rewrite <- Z.pow_succ_r by lia. f_equal. lia. }
  unfold signed. destruct (decide (0 ≤ v)).
  - rewrite Z.mod_small by lia. by rewrite (proj2 (Z.ltb_lt _ _)) by lia.
  - replace (v mod 2 ^ (8 * n)) with (v + 2 ^ (8 * n)).
    + rewrite (proj2 (Z.ltb_ge _ _)) by lia. lia.
    + symmetry. rewrite <- (Z_mod_plus_full v 1), Z.mod_small by lia. lia.
Qed.

Lemma signed_range n v : 0 < n → 0 ≤ v < 2 ^ (8 * n) → - 2 ^ (8 * n - 1) ≤ signed n v < 2 ^ (8 * n - 1).
Proof.
  intros Hn Hv. assert (2 ^ (8 * n) = 2 * 2 ^ (8 * n - 1)) as Hp.
  { rewrite <- Z.pow_succ_r by lia. f_equal. lia. }
  unfold signed. destruct (Z.ltb_spec v (2 ^ (8 * n - 1))); lia.
Qed.

(** ** Values *)

Ltac obind := cbn [mbind option_bind].

Lemma zipIntSize_range e n : zipIntSize e = Some n → 0 ≤ n ≤ 8.
Proof. unfold zipIntSize. repeat case_match; intros [= <-] || done; lia. Qed.

Lemma decode_length_app A m i : 0 ≤ i → ZIP_DECODE_LENGTH (A ++ m) (zlen A + i) = ZIP_DECODE_LENGTH m i.
Proof. intros. unfold ZIP_DECODE_LENGTH. by rewrite <- !Z.add_assoc, !zbyte_app by lia. Qed.

Lemma decode_length_mono m B i r : ZIP_DECODE_LENGTH m i = Some r → ZIP_DECODE_LENGTH (m ++ B) i = Some r.
Proof.
  unfold ZIP_DECODE_LENGTH. intros (b0 & H0 & H)%bind_Some. rewrite (zbyte_mono _ _ _ _ H0). obind.
  destruct (_ <? _); [|done]. destruct (_ =? _); [done|]. destruct (_ =? _).
  { apply bind_Some in H as (b1 & H1 & H). rewrite (zbyte_mono _ _ _ _ H1). done. }
  destruct (_ =? _); [|done].
  apply bind_Some in H as (b1 & H1 & H). rewrite (zbyte_mono _ _ _ _ H1). obind.
  apply bind_Some in H as (b2 & H2 & H). rewrite (zbyte_mono _ _ _ _ H2). obind.
  apply bind_Some in H as (b3 & H3 & H). rewrite (zbyte_mono _ _ _ _ H3). obind.
  apply bind_Some in H as (b4 & H4 & H). rewrite (zbyte_mono _ _ _ _ H4). done.
Qed.

Lemma load_integer_app A m i e : 0 ≤ i → zipLoadInteger (A ++ m) (zlen A + i) e = zipLoadInteger m i e.
Proof. intros. unfold zipLoadInteger. by rewrite !slice_app by lia. Qed.

Lemma load_integer_mono m B i e z : zipLoadInteger m i e = Some z → zipLoadInteger (m ++ B) i e = Some z.
Proof.
  unfold zipLoadInteger.
  repeat (destruct (_ =? _); [intros (bs & H & Hz)%bind_Some; by rewrite (slice_mono _ _ _ _ _ H)|]). done.
Qed.

(** The value of the bytes after the length field. *)
Definition body_value (bs : list Z) : option zl_value :=
  '(e, l, n) ← ZIP_DECODE_LENGTH bs 0;
  if zlen bs =? l + n then
    if ZIP_IS_STR e then ZlStr <$> slice bs l n else ZlInt <$> zipLoadInteger bs l e
  else None.

Definition value_is (v : zl_value) (s : sds) : Prop :=
  match v with
  | ZlStr bs => bs = sds_bytes s
  | ZlInt z => int64 z ∧ s = fmt_d z
  end.

Definition body_rep (bs : list Z) (s : sds) : Prop :=
  Forall isbyte bs ∧ ∃ v, body_value bs = Some v ∧ value_is v s.

Lemma length_sds_bytes s : length (sds_bytes s) = String.length s.
Proof. induction s; simpl; congruence. Qed.

Lemma sds_bytes_range s : Forall isbyte (sds_bytes s).
Proof. induction s; constructor; [apply code_range|done]. Qed.

(** Bit operations on the length. *)
Lemma lor_add x y k : 0 ≤ k → x mod 2 ^ k = 0 → 0 ≤ y < 2 ^ k → Z.lor x y = x + y.
Proof.
  intros Hk Hx Hy. assert (Z.land x y = 0) as Hl.
  { apply Z.bits_inj'. intros n Hn. rewrite Z.land_spec, Z.bits_0. destruct (decide (n < k)).
    - assert (Z.testbit x n = false) as ->; [|done].
      rewrite <- (Z.mod_pow2_bits_low x k n) by lia. by rewrite Hx, Z.bits_0.
    - rewrite andb_comm. destruct (decide (y = 0)) as [->|]; [by rewrite Z.bits_0|].
      rewrite Z.bits_above_log2; [done|lia|]. apply Z.log2_lt_pow2; [lia|].
      eapply Z.lt_le_trans; [apply Hy|]. apply Z.pow_le_mono_r; lia. }
  pose proof (Z.add_lor_land x y). lia.
Qed.

Lemma land_low x k : 0 ≤ k → Z.land x (2 ^ k - 1) = x mod 2 ^ k.
Proof. intros. replace (2 ^ k - 1) with (Z.ones k) by (rewrite Z.ones_equiv; lia). by apply Z.land_ones. Qed.

Lemma enum_range (P : Z → bool) (n : nat) :
  forallb (λ i, P (Z.of_nat i)) (seq 0 n) = true → ∀ z, 0 ≤ z < Z.of_nat n → P z = true.
Proof.
  rewrite forallb_forall. intros H z Hz. specialize (H (Z.to_nat z)).
  rewrite Z2Nat.id in H by lia. apply H, in_seq. lia.
Qed.

Lemma str_06b_bits n : 0 ≤ n < 64 → ZIP_ENTRY_ENCODING n = ZIP_STR_06B ∧ Z.land n 0x3f = n.
Proof.
  intros Hn. pose proof (enum_range (λ n, (ZIP_ENTRY_ENCODING n =? ZIP_STR_06B) && (Z.land n 0x3f =? n)) 64
    ltac:(by vm_compute) n Hn) as H. simpl in H. lia.
Qed.

Lemma str_14b_bits h : 0 ≤ h < 64 →
  let b := Z.lor ZIP_STR_14B h in isbyte b ∧ ZIP_ENTRY_ENCODING b = ZIP_STR_14B ∧ Z.land b 0x3f = h.
Proof.
  intros Hh b. pose proof (enum_range (λ h, let b := Z.lor ZIP_STR_14B h in (0 <=? b) && (b <? 256) &&
    (ZIP_ENTRY_ENCODING b =? ZIP_STR_14B) && (Z.land b 0x3f =? h)) 64 ltac:(by vm_compute) h Hh) as H.
  cbv zeta beta in H. fold b in H. unfold isbyte. lia.
Qed.

Lemma str_32b_bits n : 0 ≤ n < 2 ^ 32 →
  Z.lor (Z.lor (Z.lor (Z.shiftl (Z.land (Z.shiftr n 24) 0xff) 24) (Z.shiftl (Z.land (Z.shiftr n 16) 0xff) 16))
    (Z.shiftl (Z.land (Z.shiftr n 8) 0xff) 8)) (Z.land n 0xff) = n.
Proof.
  intros Hn. change 0xff with (2 ^ 8 - 1). rewrite !land_low, !Z.shiftr_div_pow2, !Z.shiftl_mul_pow2 by lia.
  assert (n = n / 2 ^ 24 mod 2 ^ 8 * 2 ^ 24 + n / 2 ^ 16 mod 2 ^ 8 * 2 ^ 16 + n / 2 ^ 8 mod 2 ^ 8 * 2 ^ 8 + n mod 2 ^ 8) as Hsum
    by (Z.to_euclidean_division_equations; lia).
  pose proof (Z.mod_pos_bound (n / 2 ^ 24) (2 ^ 8)). pose proof (Z.mod_pos_bound (n / 2 ^ 16) (2 ^ 8)).
  pose proof (Z.mod_pos_bound (n / 2 ^ 8) (2 ^ 8)). pose proof (Z.mod_pos_bound n (2 ^ 8)).
  rewrite Hsum at 5.
  generalize dependent (n / 2 ^ 24 mod 2 ^ 8). generalize dependent (n / 2 ^ 16 mod 2 ^ 8).
  generalize dependent (n / 2 ^ 8 mod 2 ^ 8). generalize dependent (n mod 2 ^ 8). clear. intros d ? c ? b ? a _ ?.
  rewrite (lor_add _ d 8), (lor_add _ (c * 2 ^ 8) 16), (lor_add _ _ 24); try lia.
  all: apply Z.mod_divide; [lia|].
  - by exists a.
  - rewrite (lor_add _ _ 24); [exists (a * 2 ^ 8 + b); lia|lia| |lia]. by rewrite Z.mod_mul.
  - rewrite (lor_add _ (c * 2 ^ 8) 16), (lor_add _ _ 24); try lia.
    + exists (a * 2 ^ 16 + b * 2 ^ 8 + c). lia.
    + by rewrite Z.mod_mul.
    + rewrite (lor_add _ _ 24); [|lia| |lia]; apply Z.mod_divide; try lia; [exists (a * 2 ^ 8 + b)|exists a]; lia.
Qed.

(** The bounds of the encodings. *)
Definition fits (v e : Z) : Prop :=
  (0 ≤ v ≤ 12 ∧ e = ZIP_INT_IMM_MIN + v) ∨ (-128 ≤ v ≤ 127 ∧ e = ZIP_INT_8B) ∨
  (-32768 ≤ v ≤ 32767 ∧ e = ZIP_INT_16B) ∨ (INT24_MIN ≤ v ≤ INT24_MAX ∧ e = ZIP_INT_24B) ∨
  (INT_MIN ≤ v ≤ INT_MAX ∧ e = ZIP_INT_32B) ∨ (int64 v ∧ e = ZIP_INT_64B).

Lemma try_encoding_fits s v e : zipTryEncoding s = Some (v, e) → int64 v ∧ s = fmt_d v ∧ fits v e.
Proof.
  unfold zipTryEncoding. destruct (_ || _); [done|]. intros (v' & Hv & [= -> He])%bind_Some.
  apply string2ll_spec in Hv as [Hv ->]. split_and!; [done|done|]. unfold fits. revert He.
  repeat case_match; intros <-; repeat match goal with H : _ && _ = true |- _ => apply andb_prop in H as [?%Z.leb_le ?%Z.leb_le] end; auto 8.
Qed.

Lemma try_encoding_int v : int64 v → ∃ e, zipTryEncoding (fmt_d v) = Some (v, e).
Proof.
  intros Hv. unfold zipTryEncoding. pose proof (fmt_d_length v Hv).
  rewrite (proj2 (Z.leb_gt _ _)), (proj2 (Z.eqb_neq _ _)) by lia. simpl orb. cbv iota.
  rewrite (proj2 (string2ll_spec (fmt_d v) v)) by done. obind. eauto.
Qed.

Lemma load_le n k bs v : 0 < n → n = Z.of_nat k → - 2 ^ (8 * n - 1) ≤ v < 2 ^ (8 * n - 1) → bs = le_encode k v →
  slice bs 0 n ≫= (λ bs, Some (signed n (le_decode bs))) = Some v.
Proof.
  intros Hn -> Hv ->. rewrite <- (app_nil_r (le_encode k v)), <- (app_nil_l (_ ++ [])), slice_mid
    by (rewrite ?length_le_encode; done). obind. by rewrite le_decode_encode, signed_mod.
Qed.

Lemma le_encode_24 v : drop 1 (le_encode 4 (Z.shiftl v 8)) = le_encode 3 v.
Proof. rewrite Z.shiftl_mul_pow2 by lia. cbn [le_encode drop]. by rewrite Z.div_mul by lia. Qed.

Lemma load_24 v : INT24_MIN ≤ v ≤ INT24_MAX → zipLoadInteger (le_encode 3 v) 0 ZIP_INT_24B = Some v.
Proof.
  intros Hv. unfold zipLoadInteger. cbn [Z.eqb ZIP_INT_24B ZIP_INT_8B ZIP_INT_16B ZIP_INT_32B Pos.eqb].
  rewrite <- (app_nil_r (le_encode 3 v)), <- (app_nil_l (_ ++ [])), slice_mid by (rewrite ?length_le_encode; done). obind.
  cbn [le_decode]. rewrite le_decode_encode, Z.add_0_l. change (8 * Z.of_nat 3) with 24.
  replace (256 * (v mod 2 ^ 24)) with ((256 * v) mod 2 ^ (8 * 4)).
  - rewrite signed_mod; [|lia|unfold INT24_MIN, INT24_MAX in Hv; lia].
    rewrite Z.shiftr_div_pow2, Z.mul_comm by lia. f_equal. by apply Z.div_mul.
  - change (2 ^ (8 * 4)) with (256 * 2 ^ 24). by rewrite Z.mul_mod_distr_l by lia.
Qed.

(** An integer is stored and loaded again, whatever encoding it is given. *)
Lemma save_load v e : fits v e →
  ∃ bs, zipSaveInteger v e = Some bs ∧ zipIntSize e = Some (zlen bs) ∧ Forall isbyte bs ∧
    zipLoadInteger bs 0 e = Some v ∧ ZIP_STR_MASK ≤ e < 256 ∧ ZIP_IS_STR e = false.
Proof.
  intros [[Hv ->]|[[Hv ->]|[[Hv ->]|[[Hv ->]|[[Hv ->]|[Hv ->]]]]]].
  - exists []. pose proof (enum_range (λ v, let e := ZIP_INT_IMM_MIN + v in
      bool_decide (zipSaveInteger 0 e = Some []) && bool_decide (zipIntSize e = Some 0) &&
      bool_decide (zipLoadInteger [] 0 e = Some v) && (ZIP_STR_MASK <=? e) && (e <? 256) && negb (ZIP_IS_STR e)) 13
      ltac:(by vm_compute) v ltac:(lia)) as H. cbv zeta beta in H.
    repeat (apply andb_prop in H as [H ?]). repeat match goal with H : bool_decide _ = true |- _ => apply bool_decide_eq_true in H end.
    split_and!; try done; try lia; [|by apply negb_true_iff].
    revert H. unfold zipSaveInteger. by repeat case_match.
  - exists (le_encode 1 v). split_and!; try done; [apply le_encode_bytes|]. apply (load_le 1 1); lia || done.
  - exists (le_encode 2 v). split_and!; try done; [apply le_encode_bytes|]. apply (load_le 2 2); lia || done.
  - exists (le_encode 3 v). split_and!; try done; [|apply le_encode_bytes|by apply load_24]. 
    change (Some (drop 1 (le_encode 4 (Z.shiftl v 8))) = Some (le_encode 3 v)). by rewrite le_encode_24.
  - exists (le_encode 4 v). unfold INT_MIN, INT_MAX in Hv. split_and!; try done; [apply le_encode_bytes|]. apply (load_le 4 4); lia || done.
  - exists (le_encode 8 v). unfold int64, LLONG_MIN, LLONG_MAX in Hv. split_and!; try done; [apply le_encode_bytes|]. apply (load_le 8 8); lia || done.
Qed.

(** The head of a string entry is decoded to what was stored. *)
Lemma decode_str_head n B : 0 ≤ n < 2 ^ 32 →
  let h := zipStoreEntryEncoding 0 n in
  (∃ e, ZIP_DECODE_LENGTH (h ++ B) 0 = Some (e, zlen h, n) ∧ ZIP_IS_STR e = true) ∧ Forall isbyte h ∧ 1 ≤ zlen h ≤ 5.
Proof.
  intros Hn h. subst h. unfold zipStoreEntryEncoding. change (ZIP_IS_STR 0) with true. cbv iota.
  destruct (Z.leb_spec n 0x3f) as [H6|H6]; [|destruct (Z.leb_spec n 0x3fff) as [H14|H14]].
  - change (Z.lor ZIP_STR_06B n) with n. destruct (str_06b_bits n ltac:(lia)) as [He Hl].
    split; [exists ZIP_STR_06B|split; [repeat constructor; lia|simpl; lia]]. unfold ZIP_DECODE_LENGTH. simpl app.
    change (zbyte (n :: B) 0) with (Some n). obind. rewrite He, Hl. done.
  - assert (0 ≤ n / 256 < 64) as Hh by (Z.to_euclidean_division_equations; lia).
    assert (Z.land (Z.shiftr n 8) 0x3f = n / 256) as ->.
    { change 0x3f with (2 ^ 6 - 1). rewrite land_low, Z.shiftr_div_pow2 by lia. apply Z.mod_small. done. }
    assert (Z.land n 0xff = n mod 256) as -> by (change 0xff with (2 ^ 8 - 1); by rewrite land_low by lia).
    destruct (str_14b_bits _ Hh) as (Hb & He & Hl). pose proof (Z.mod_pos_bound n 256).
    split; [exists ZIP_STR_14B|split; [repeat constructor; apply Hb || lia|simpl; lia]].
    unfold ZIP_DECODE_LENGTH. simpl app. set (b := Z.lor ZIP_STR_14B (n / 256)) in *.
    change (zbyte (b :: n mod 256 :: B) 0) with (Some b). change (zbyte (b :: n mod 256 :: B) (0 + 1)) with (Some (n mod 256)).
    obind. rewrite He, Hl. split; [|done]. cbn -[Z.lor Z.shiftl Z.div Z.modulo]. do 2 f_equal.
    rewrite Z.shiftl_mul_pow2, (lor_add _ _ 8) by (lia || apply Z.mod_mul; lia). pose proof (Z.div_mod n 256). lia.
  - split; [exists ZIP_STR_32B; split; [|done]|split; [|simpl; lia]].
    + pose proof (str_32b_bits n Hn) as Hb. unfold ZIP_DECODE_LENGTH. simpl app.
      match goal with |- context [zbyte ?m 0] => set (mm := m) end.
      change (zbyte mm 0) with (Some ZIP_STR_32B). obind. change (ZIP_ENTRY_ENCODING ZIP_STR_32B) with ZIP_STR_32B.
      cbn [Z.ltb Z.eqb ZIP_STR_32B ZIP_STR_MASK ZIP_STR_06B ZIP_STR_14B Z.compare Pos.compare Pos.compare_cont Pos.eqb].
      change (zbyte mm (0 + 1)) with (Some (Z.land (Z.shiftr n 24) 0xff)).
      change (zbyte mm (0 + 2)) with (Some (Z.land (Z.shiftr n 16) 0xff)).
      change (zbyte mm (0 + 3)) with (Some (Z.land (Z.shiftr n 8) 0xff)).
      change (zbyte mm (0 + 4)) with (Some (Z.land n 0xff)). obind. by rewrite Hb.
    + assert (∀ z, isbyte (Z.land z 0xff)) as Hb.
      { intros z. change 0xff with (2 ^ 8 - 1). rewrite land_low by lia. apply Z.mod_pos_bound. lia. }
      repeat constructor; apply Hb || (unfold ZIP_STR_32B; lia).
Qed.

(** What [__ziplistInsert] writes for a value reads back as that value. *)
Lemma encode_value_spec s : Z.of_nat (String.length s) < 2 ^ 32 →
  ∃ e bs, encode_value s = Some (e, bs, zlen bs) ∧
    body_rep (zipStoreEntryEncoding e (Z.of_nat (String.length s)) ++ bs) s.
Proof.
  intros Hs. unfold encode_value. destruct (zipTryEncoding s) as [[v e]|] eqn:E.
  - destruct (try_encoding_fits s v e E) as (Hv & -> & Hf).
    destruct (save_load v e Hf) as (bs & Hsave & Hsize & Hbs & Hload & He & Hstr).
    exists e, bs. rewrite Hsize. obind. rewrite Hsave. obind. split; [done|].
    unfold zipStoreEntryEncoding. rewrite Hstr. split; [constructor; [unfold isbyte, ZIP_STR_MASK in *; lia|done]|].
    exists (ZlInt v). split; [|done]. unfold body_value, ZIP_DECODE_LENGTH.
    change (zbyte ([e] ++ bs) 0) with (Some e). obind. unfold ZIP_ENTRY_ENCODING.
    rewrite (proj2 (Z.ltb_ge e ZIP_STR_MASK)) by lia. cbv iota. rewrite (proj2 (Z.ltb_ge e ZIP_STR_MASK)), Hsize by lia. obind.
    rewrite (proj2 (Z.eqb_eq _ _)) by (simpl length; lia). rewrite Hstr.
    by rewrite (load_integer_app [e] bs 0), Hload.
  - exists 0, (sds_bytes s). rewrite length_sds_bytes. split; [done|].
    destruct (decode_str_head (Z.of_nat (String.length s)) (sds_bytes s)) as ((e & Hd & He) & Hh & Hl); [lia|].
    split; [apply Forall_app; split; [done|apply sds_bytes_range]|]. exists (ZlStr (sds_bytes s)). split; [|done].
    unfold body_value. rewrite Hd. obind. rewrite length_app, Nat2Z.inj_add, length_sds_bytes, Z.eqb_refl, He.
    rewrite <- (app_nil_r (sds_bytes s)) at 1. by rewrite slice_mid by (rewrite ?length_sds_bytes; done).
Qed.

Lemma decode_length_lensize m i e l n : ZIP_DECODE_LENGTH m i = Some (e, l, n) →
  1 ≤ l ≤ 5 ∧ (ZIP_IS_STR e = false → l = 1 ∧ 0 ≤ n ≤ 8).
Proof.
  unfold ZIP_DECODE_LENGTH. intros (b & _ & H)%bind_Some. revert H.
  destruct (Z.ltb_spec (ZIP_ENTRY_ENCODING b) ZIP_STR_MASK).
  - destruct (Z.eqb_spec (ZIP_ENTRY_ENCODING b) ZIP_STR_06B) as [->|]; [by intros [= <- <- <-]|].
    destruct (Z.eqb_spec (ZIP_ENTRY_ENCODING b) ZIP_STR_14B) as [->|]; [by intros (? & _ & [= <- <- <-])%bind_Some|].
    destruct (Z.eqb_spec (ZIP_ENTRY_ENCODING b) ZIP_STR_32B) as [->|]; [|done].
    intros (? & _ & (? & _ & (? & _ & (? & _ & [= <- <- <-])%bind_Some)%bind_Some)%bind_Some)%bind_Some. done.
  - intros (k & Hk%zipIntSize_range & [= <- <- <-])%bind_Some. lia.
Qed.

Lemma body_rep_decode bs s : body_rep bs s →
  ∃ e l n, ZIP_DECODE_LENGTH bs 0 = Some (e, l, n) ∧ zlen bs = l + n ∧ 1 ≤ l ∧ 0 ≤ n ∧ zlen bs ≤ Z.of_nat (String.length s) + 8.
Proof.
  intros [_ (v & Hv & Hs)]. unfold body_value in Hv. apply bind_Some in Hv as ([[e l] n] & Hd & Hv).
  destruct (Z.eqb_spec (zlen bs) (l + n)) as [Hlen|]; [|done].
  exists e, l, n. destruct (decode_length_lensize _ _ _ _ _ Hd) as [Hl Hn].
  destruct (ZIP_IS_STR e); apply fmap_Some in Hv as (x & Hx & ->); simpl in Hs.
  - apply slice_spec in Hx as (A & B & -> & -> & ->). subst x. rewrite length_sds_bytes in *. split_and!; try done; lia.
  - destruct Hs as [Hz ->]. pose proof (fmt_d_length x Hz). destruct (Hn eq_refl). split_and!; try done; lia.
Qed.

(** ** Entries *)

(** An entry as it is stored: the form of its length field, the length it
    records for the entry before it, and the rest. *)
Record zent := Zent {
  z_big : bool;
  z_prv : Z;
  z_body : list Z
}.

Definition psize (e : zent) : Z := if z_big e then 5 else 1.
Definition pfield (e : zent) : list Z := if z_big e then zipStorePrevEntryLengthLarge (z_prv e) else [z_prv e].
Definition ebytes (e : zent) : list Z := pfield e ++ z_body e.
Definition elen (e : zent) : Z := zlen (ebytes e).
Definition flat (es : list zent) : list Z := concat (map ebytes es).

Definition ent_rep (e : zent) (s : sds) : Prop :=
  0 ≤ z_prv e < 2 ^ 32 ∧ (z_big e = false → z_prv e < ZIP_BIG_PREVLEN) ∧ body_rep (z_body e) s.

Lemma length_pfield e : zlen (pfield e) = psize e.
Proof. unfold pfield, psize. by destruct (z_big e). Qed.

Lemma elen_eq e : elen e = psize e + zlen (z_body e).
Proof. unfold elen, ebytes. rewrite length_app, Nat2Z.inj_add, length_pfield. done. Qed.

Lemma psize_range e : 1 ≤ psize e ≤ 5.
Proof. unfold psize. destruct (z_big e); lia. Qed.

Lemma ent_rep_len e s : ent_rep e s → 2 ≤ elen e ≤ Z.of_nat (String.length s) + 13.
Proof.
  intros (_ & _ & H). apply body_rep_decode in H as (? & l & n & _ & Hl & H1 & H0 & Hle).
  rewrite elen_eq. pose proof (psize_range e). lia.
Qed.

Lemma zbyte_hd A b m p : p = zlen A → zbyte (A ++ b :: m) p = Some b.
Proof. intros ->. replace (zlen A) with (zlen A + 0) by lia. by rewrite zbyte_app by lia. Qed.

Section at_entry.
Context (A B : list Z) (e : zent) (s : sds) (p : Z).
Context (He : ent_rep e s) (Hp : p = zlen A).

Lemma at_first : ∃ b, zbyte (A ++ ebytes e ++ B) p = Some b ∧ (b =? ZIP_END) = false ∧
  (if b <? ZIP_BIG_PREVLEN then 1 else 5) = psize e ∧ (z_big e = false → b = z_prv e).
Proof.
  destruct He as (Hr & Hb & _). unfold ebytes, pfield, psize, zipStorePrevEntryLengthLarge, ZIP_END.
  destruct (z_big e); simpl; eexists; (split; [by apply zbyte_hd|]); [done|].
  specialize (Hb eq_refl). unfold ZIP_BIG_PREVLEN in *. rewrite (proj2 (Z.ltb_lt _ _)) by lia. split_and!; [lia|done|done].
Qed.

Lemma at_prevlensize : ZIP_DECODE_PREVLENSIZE (A ++ ebytes e ++ B) p = Some (psize e).
Proof. destruct at_first as (b & Hb & _ & Hs & _). unfold ZIP_DECODE_PREVLENSIZE. rewrite Hb. obind. by rewrite Hs. Qed.

Lemma at_prevlen : ZIP_DECODE_PREVLEN (A ++ ebytes e ++ B) p = Some (psize e, z_prv e).
Proof.
  unfold ZIP_DECODE_PREVLEN. rewrite at_prevlensize. obind. destruct at_first as (b & Hb & _ & _ & Hprv).
  unfold psize in *. destruct (z_big e) eqn:E; cbn [Z.eqb Pos.eqb].
  - unfold ebytes, pfield. rewrite E. unfold zipStorePrevEntryLengthLarge.
    change (ZIP_BIG_PREVLEN :: le_encode 4 (z_prv e)) with ([ZIP_BIG_PREVLEN] ++ le_encode 4 (z_prv e)).
    rewrite <- !app_assoc, app_assoc, slice_mid by (rewrite ?length_app, ?length_le_encode; simpl; lia). obind.
    rewrite le_decode_encode, Z.mod_small by apply He. done.
  - rewrite Hb. obind. by rewrite (Hprv eq_refl).
Qed.

Lemma at_length : ∃ enc l n, ZIP_DECODE_LENGTH (A ++ ebytes e ++ B) (p + psize e) = Some (enc, l, n) ∧
  ZIP_DECODE_LENGTH (z_body e) 0 = Some (enc, l, n) ∧ psize e + l + n = elen e ∧ 1 ≤ l ∧ 0 ≤ n.
Proof.
  destruct (body_rep_decode _ _ (proj2 (proj2 He))) as (en & l & n & Hd & Hl & H1 & H2 & _).
  exists en, l, n. rewrite elen_eq, Hl. split_and!; [|done|lia|done|done].
  unfold ebytes. rewrite <- !app_assoc, app_assoc.
  replace (p + psize e) with (zlen (A ++ pfield e) + 0) by (rewrite length_app, Nat2Z.inj_add, length_pfield; lia).
  rewrite decode_length_app by lia. by apply decode_length_mono.
Qed.

Lemma at_raw_length : zipRawEntryLength (A ++ ebytes e ++ B) p = Some (elen e).
Proof.
  destruct at_length as (en & l & n & Hd & _ & Hl & _). unfold zipRawEntryLength.
  rewrite at_prevlensize. obind. rewrite Hd. obind. by rewrite Hl.
Qed.

Lemma at_entry : ∃ z, zipEntry (A ++ ebytes e ++ B) p = Some z ∧ prevrawlensize z = psize e ∧ prevrawlen z = z_prv e ∧
  headersize z + len z = elen e ∧ zle_p z = p ∧
  ZIP_DECODE_LENGTH (z_body e) 0 = Some (enc z, headersize z - psize e, len z) ∧ psize e < headersize z.
Proof.
  destruct at_length as (en & l & n & Hd & Hd' & Hl & H1 & H0). unfold zipEntry. rewrite at_prevlen. obind. rewrite Hd. obind.
  eexists. split; [done|]. simpl. split_and!; try done; try lia. rewrite Hd'. do 3 f_equal. lia.
Qed.

Lemma at_byte_diff n : zipPrevLenByteDiff (A ++ ebytes e ++ B) p n = Some (prev_length_size n - psize e).
Proof. unfold zipPrevLenByteDiff. by rewrite at_prevlensize. Qed.

(** The bytes or the number that the entry holds. *)
Lemma at_value z : zipEntry (A ++ ebytes e ++ B) p = Some z →
  if ZIP_IS_STR (enc z) then slice (A ++ ebytes e ++ B) (p + headersize z) (len z) = Some (sds_bytes s)
  else ∃ x, zipLoadInteger (A ++ ebytes e ++ B) (p + headersize z) (enc z) = Some x ∧ int64 x ∧ s = fmt_d x.
Proof.
  destruct He as (_ & _ & _ & v & Hv & Hs). destruct at_entry as (z' & Hz' & _ & _ & Hl & _ & Hd & Hh).
  rewrite Hz'. intros [= <-]. unfold body_value in Hv. rewrite Hd in Hv. revert Hv. cbn [mbind option_bind].
  destruct (zlen (z_body e) =? _); [|done].
  assert (A ++ ebytes e ++ B = (A ++ pfield e) ++ z_body e ++ B) as -> by (unfold ebytes; by rewrite <- !app_assoc).
  replace (p + headersize z') with (zlen (A ++ pfield e) + (headersize z' - psize e)) by (rewrite length_app, Nat2Z.inj_add, length_pfield; lia).
  destruct (ZIP_IS_STR (enc z')); intros (x & Hx & ->)%fmap_Some; simpl in Hs.
  - rewrite slice_app by lia. rewrite (slice_mono _ _ _ _ _ Hx). by f_equal.
  - exists x. rewrite load_integer_app by lia. by rewrite (load_integer_mono _ _ _ _ _ Hx).
Qed.

Lemma at_get : ∃ v, ziplistGet (A ++ ebytes e ++ B) (Some p) = Some (Some v) ∧ value_is v s.
Proof.
  destruct at_first as (b & Hb & Hne & _). unfold ziplistGet. rewrite Hb. obind. rewrite Hne.
  destruct at_entry as (z & Hz & _). rewrite Hz. obind. pose proof (at_value z Hz) as Hv.
  destruct (ZIP_IS_STR (enc z)); [|destruct Hv as (x & Hv & Hx)]; rewrite Hv; obind; by eexists.
Qed.

Lemma at_compare t : ziplistCompare (A ++ ebytes e ++ B) p t = Some (bool_decide (s = t)).
Proof.
  destruct at_first as (b & Hb & Hne & _). unfold ziplistCompare. rewrite Hb. obind. rewrite Hne.
  destruct at_entry as (z & Hz & _). rewrite Hz. obind. pose proof (at_value z Hz) as Hv.
  destruct (ZIP_IS_STR (enc z)); [|destruct Hv as (x & Hv & Hx & ->)]; rewrite Hv; obind.
  - apply slice_spec in Hv as (_ & _ & _ & _ & ->). rewrite length_sds_bytes.
    destruct (Z.eqb_spec (Z.of_nat (String.length s)) (Z.of_nat (String.length t))) as [_|Hne'].
    + f_equal. apply bool_decide_ext. split; [apply sds_bytes_inj|by intros ->].
    + rewrite bool_decide_eq_false_2; [done|congruence].
  - destruct (zipTryEncoding t) as [[v en]|] eqn:E.
    + apply try_encoding_fits in E as (_ & -> & _). f_equal.
      destruct (Z.eqb_spec x v) as [->|Hne']; symmetry; [by apply bool_decide_eq_true_2|].
      apply bool_decide_eq_false_2. by intros ?%(inj fmt_d).
    + rewrite bool_decide_eq_false_2; [done|]. intros <-. destruct (try_encoding_int x Hx). congruence.
Qed.
End at_entry.

(** ** Blocks *)

Definition hdr (b t n : Z) : list Z := le_encode 4 b ++ le_encode 4 t ++ le_encode 2 n.

Lemma length_hdr b t n : length (hdr b t n) = 10%nat.
Proof. done. Qed.

Lemma hdr_bytes b t n X : 0 ≤ b < 2 ^ 32 → ZIPLIST_BYTES (hdr b t n ++ X) = Some b.
Proof.
  intros Hb. unfold ZIPLIST_BYTES, hdr. rewrite <- !app_assoc, <- (app_nil_l (_ ++ _)), slice_mid by done. simpl fmap.
  change (Some (le_decode (le_encode 4 b)) = Some b). by rewrite le_decode_encode, Z.mod_small.
Qed.

Lemma hdr_tail b t n X : 0 ≤ t < 2 ^ 32 → ZIPLIST_TAIL_OFFSET (hdr b t n ++ X) = Some t.
Proof.
  intros Hb. unfold ZIPLIST_TAIL_OFFSET, hdr. rewrite <- !app_assoc, slice_mid by done.
  change (Some (le_decode (le_encode 4 t)) = Some t). by rewrite le_decode_encode, Z.mod_small.
Qed.

Lemma hdr_length b t n X : 0 ≤ n < 2 ^ 16 → ZIPLIST_LENGTH (hdr b t n ++ X) = Some n.
Proof.
  intros Hb. unfold ZIPLIST_LENGTH, hdr. rewrite <- !app_assoc, app_assoc, slice_mid by done.
  change (Some (le_decode (le_encode 2 n)) = Some n). by rewrite le_decode_encode, Z.mod_small.
Qed.

Lemma hdr_set_bytes b t n X b' : set_bytes (hdr b t n ++ X) b' = Some (hdr b' t n ++ X).
Proof. unfold set_bytes, hdr. rewrite <- !app_assoc. by rewrite <- (app_nil_l (le_encode 4 b ++ _)), (store_mid []). Qed.

Lemma hdr_set_tail b t n X t' : set_tail_offset (hdr b t n ++ X) t' = Some (hdr b t' n ++ X).
Proof. unfold set_tail_offset, hdr. rewrite <- !app_assoc. by rewrite (store_mid (le_encode 4 b)). Qed.

Lemma hdr_set_length b t n X n' : set_zl_length (hdr b t n ++ X) n' = Some (hdr b t n' ++ X).
Proof.
  unfold set_zl_length, hdr. rewrite <- !app_assoc.
  by rewrite !(app_assoc (le_encode 4 b)), (store_mid (le_encode 4 b ++ le_encode 4 t)).
Qed.

Section resize.
Context (junk : Z).

Lemma resize_grow b t n Y c k :
  0 ≤ k → 11 + zlen Y + k < 2 ^ 32 →
  ∃ T, zlen T = k ∧ (0 < k → ∃ T', T = c :: T') ∧
    ziplistResize junk (hdr b t n ++ Y ++ [c]) (11 + zlen Y + k) = Some (hdr (11 + zlen Y + k) t n ++ Y ++ T ++ [ZIP_END]).
Proof.
  intros Hk Hs. unfold ziplistResize, u32. rewrite Z.mod_small by lia.
  assert (∃ T d, zlen T = k ∧ (0 < k → ∃ T', T = c :: T') ∧ zrealloc junk (hdr b t n ++ Y ++ [c]) (11 + zlen Y + k) = hdr b t n ++ Y ++ T ++ [d]) as (T & d & HT & Hc & ->).
  { unfold zrealloc. rewrite take_ge by (rewrite !length_app, length_hdr; simpl; lia).
    set (R := replicate _ junk). destruct (exists_last (l := [c] ++ R)) as (T & d & HT); [done|].
    exists T, d. rewrite <- !app_assoc. split; [|split; [|by rewrite HT]].
    2: { intros Hk0. destruct T as [|c' T]; [|injection HT as -> _; by eexists].
      injection HT as _ ER. subst R. apply (f_equal length) in ER.
      rewrite length_replicate, !length_app, length_hdr in ER. simpl in ER. lia. }
    apply (f_equal length) in HT. subst R. rewrite !length_app, length_replicate, length_hdr in HT. simpl in HT. lia. }
  exists T. split; [done|split; [done|]]. rewrite hdr_set_bytes. obind. rewrite !app_assoc, <- (app_nil_r [d]).
  rewrite (store_mid _ _ [ZIP_END]); [done| |done]. rewrite !length_app, length_hdr. lia.
Qed.

Lemma resize_shrink b t n Y Z :
  (0 < length Z)%nat → 11 + zlen Y < 2 ^ 32 →
  ziplistResize junk (hdr b t n ++ Y ++ Z) (11 + zlen Y) = Some (hdr (11 + zlen Y) t n ++ Y ++ [ZIP_END]).
Proof.
  intros HZ Hs. unfold ziplistResize, u32. rewrite Z.mod_small by lia.
  destruct Z as [|d Z]; [simpl in HZ; lia|].
  assert (zrealloc junk (hdr b t n ++ Y ++ d :: Z) (11 + zlen Y) = hdr b t n ++ Y ++ [d]) as ->.
  { unfold zrealloc. replace (_ - _)%nat with 0%nat by (rewrite !length_app, length_hdr; simpl; lia). rewrite app_nil_r.
    rewrite (cons_middle d), !app_assoc. apply take_app_length'. rewrite !length_app, length_hdr. simpl. lia. }
  rewrite hdr_set_bytes. obind. rewrite !app_assoc, <- (app_nil_r [d]).
  rewrite (store_mid _ _ [ZIP_END]); [done| |done]. rewrite !length_app, length_hdr. lia.
Qed.
End resize.
