(* ===== verification/ZiplistCascade.v ===== *)
(** * Ziplists: the cascading update

    [__ziplistCascadeUpdate] repairs the length fields of a block whose entries
    from some point on record the wrong length for the entry before them: on
    the list of entries it is the function [cascade], which gives a linked
    list again. *)

From S2P Require Import Prelude.
From S2P Require Import Sds.
From S2P Require Import Ziplist.
From S2P Require Import ZiplistRep.

#[local] Open Scope Z_scope.

Definition zlist (t n : Z) (es : list zent) : list Z := hdr (11 + zlen (flat es)) t n ++ flat es ++ [ZIP_END].

(** Every entry records the length of the one before it. *)
Fixpoint linked (prev : Z) (es : list zent) : Prop :=
  match es with
  | [] => True
  | e :: es => z_prv e = prev ∧ linked (elen e) es
  end.

(** The offset of the last entry of a list that starts at [p]. *)
Fixpoint tail_off (p : Z) (es : list zent) : Z :=
  match es with
  | [] => p
  | e :: es' => match es' with [] => p | _ => tail_off (p + elen e) es' end
  end.

(** The update after an entry of length [cur]. *)
Fixpoint cascade (cur : Z) (es : list zent) : list zent :=
  match es with
  | [] => []
  | e :: es' =>
      if z_prv e =? cur then es
      else if psize e <? prev_length_size cur then
        let e' := Zent true cur (z_body e) in e' :: cascade (elen e') es'
      else Zent (z_big e) cur (z_body e) :: es'
  end.

(** ** Lists of entries *)

Lemma flat_app es1 es2 : flat (es1 ++ es2) = flat es1 ++ flat es2.
Proof. unfold flat. by rewrite map_app, concat_app. Qed.

Lemma flat_cons e es : flat (e :: es) = ebytes e ++ flat es.
Proof. done. Qed.

Lemma flat_snoc es e : flat (es ++ [e]) = flat es ++ ebytes e.
Proof. rewrite flat_app, flat_cons. by rewrite app_nil_r. Qed.

Lemma len_flat_app es1 es2 : zlen (flat (es1 ++ es2)) = zlen (flat es1) + zlen (flat es2).
Proof. rewrite flat_app, length_app. lia. Qed.

Lemma len_flat_cons e es : zlen (flat (e :: es)) = elen e + zlen (flat es).
Proof. rewrite flat_cons, length_app. unfold elen. lia. Qed.

Lemma elen_nonneg e : 0 < elen e.
Proof. rewrite elen_eq. pose proof (psize_range e). lia. Qed.

Lemma tail_off_cons p e e' es : tail_off p (e :: e' :: es) = tail_off (p + elen e) (e' :: es).
Proof. done. Qed.

Lemma tail_off_shift p k es : tail_off (p + k) es = tail_off p es + k.
Proof.
  revert p. induction es as [|e [|e' es] IH]; intros p; [done|done|].
  rewrite !tail_off_cons, <- IH. f_equal. lia.
Qed.

Lemma tail_off_app p es1 e es2 : tail_off p (es1 ++ e :: es2) = tail_off (p + zlen (flat es1)) (e :: es2).
Proof.
  revert p. induction es1 as [|e1 es1 IH]; intros p; [by rewrite Z.add_0_r|].
  rewrite len_flat_cons, Z.add_assoc, <- IH. by destruct es1.
Qed.

Lemma tail_off_range p es : p ≤ tail_off p es ≤ p + zlen (flat es).
Proof.
  revert p. induction es as [|e [|e' es] IH]; intros p; [simpl; lia|simpl tail_off; lia|].
  rewrite len_flat_cons, tail_off_cons. specialize (IH (p + elen e)). pose proof (elen_nonneg e). lia.
Qed.

(** Whether the first entry is the last one can be told from the offset. *)
Lemma tail_off_eq p e es : tail_off p (e :: es) = p ↔ es = [].
Proof.
  split; [|by intros ->]. destruct es as [|e' es]; [done|]. rewrite tail_off_cons.
  pose proof (tail_off_range (p + elen e) (e' :: es)). pose proof (elen_nonneg e). lia.
Qed.

Lemma zlist_split t n es1 e es2 :
  zlist t n (es1 ++ e :: es2) =
  (hdr (11 + zlen (flat (es1 ++ e :: es2))) t n ++ flat es1) ++ ebytes e ++ flat es2 ++ [ZIP_END].
Proof. unfold zlist. rewrite flat_app, flat_cons. by rewrite <- !app_assoc. Qed.

Lemma zlist_end t n es : zlist t n es = (hdr (11 + zlen (flat es)) t n ++ flat es) ++ [ZIP_END].
Proof. unfold zlist. by rewrite <- app_assoc. Qed.

Lemma len_zlist t n es : zlen (zlist t n es) = 11 + zlen (flat es).
Proof. unfold zlist. rewrite !length_app, length_hdr. simpl. lia. Qed.

Lemma zlist_bytes t n es : 11 + zlen (flat es) < 2 ^ 32 → ZIPLIST_BYTES (zlist t n es) = Some (11 + zlen (flat es)).
Proof. intros. apply hdr_bytes. lia. Qed.

Lemma zlist_tail n es : 11 + zlen (flat es) < 2 ^ 32 → ZIPLIST_TAIL_OFFSET (zlist (tail_off 10 es) n es) = Some (tail_off 10 es).
Proof. intros. apply hdr_tail. pose proof (tail_off_range 10 es). lia. Qed.

Lemma prev_length_fits cur : prev_length_size cur = 1 → cur < ZIP_BIG_PREVLEN.
Proof. unfold prev_length_size. destruct (Z.ltb_spec cur ZIP_BIG_PREVLEN); lia. Qed.

Lemma prev_length_cases cur : prev_length_size cur = 1 ∨ prev_length_size cur = 5.
Proof. unfold prev_length_size. destruct (_ <? _); auto. Qed.

Lemma psize_cases e : (z_big e = false ∧ psize e = 1) ∨ (z_big e = true ∧ psize e = 5).
Proof. unfold psize. destruct (z_big e); auto. Qed.

Lemma cascade_grows cur e : psize e < prev_length_size cur → z_big e = false ∧ prev_length_size cur = 5 ∧ psize e = 1.
Proof. destruct (prev_length_cases cur), (psize_cases e); lia || tauto. Qed.

Lemma len_cascade cur es : zlen (flat es) ≤ zlen (flat (cascade cur es)).
Proof.
  revert cur. induction es as [|e es IH]; intros cur; [done|]. cbn [cascade].
  destruct (z_prv e =? cur); [done|]. destruct (Z.ltb_spec (psize e) (prev_length_size cur)); rewrite !len_flat_cons, !elen_eq.
  - specialize (IH (elen (Zent true cur (z_body e)))). pose proof (psize_range e). rewrite elen_eq in IH. unfold psize in *. simpl in *. lia.
  - unfold psize. simpl. lia.
Qed.

Lemma cascade_linked cur q es : linked q es → linked cur (cascade cur es).
Proof.
  revert cur q. induction es as [|e es IH]; intros cur q; [done|]. intros [Hq Hl]. cbn [cascade].
  destruct (Z.eqb_spec (z_prv e) cur) as [He|He]; [by split|].
  destruct (_ <? _); split; [done|by eapply IH|done|].
  by replace (elen _) with (elen e) by (rewrite !elen_eq; done).
Qed.

Lemma len_flat_ge es ss : Forall2 ent_rep es ss → 2 * zlen es ≤ zlen (flat es).
Proof.
  induction 1 as [|e s es ss He Hes IH]; [done|]. rewrite len_flat_cons. apply ent_rep_len in He. simpl length. lia.
Qed.

(** The fields stay in range when the whole block does. *)
Lemma cascade_rep cur es ss : Forall2 ent_rep es ss → 0 ≤ cur < 2 ^ 32 → zlen (flat (cascade cur es)) < 2 ^ 32 →
  Forall2 ent_rep (cascade cur es) ss.
Proof.
  intros H. revert cur. induction H as [|e s es ss He Hes IH]; intros cur Hcur Hlen; [constructor|].
  cbn [cascade] in *. destruct (z_prv e =? cur); [by constructor|].
  destruct He as (Hr & Hb & Hbody). destruct (Z.ltb_spec (psize e) (prev_length_size cur)) as [Hlt|Hge].
  - constructor; [split; [done|by split]|]. rewrite len_flat_cons in Hlen. pose proof (elen_nonneg (Zent true cur (z_body e))). apply IH; lia.
  - constructor; [|done]. split; [done|split; [|done]]. simpl. intros Hbig.
    apply prev_length_fits. destruct (prev_length_cases cur), (psize_cases e) as [[_ ?]|[? ?]]; congruence || lia.
Qed.

Lemma length_cascade cur es : length (cascade cur es) = length es.
Proof. revert cur. induction es as [|e es IH]; intros cur; [done|]. cbn [cascade]. repeat case_match; simpl; auto. Qed.

(** ** Reading a block *)

Section in_block.
Context (t n : Z) (es1 es2 : list zent) (e : zent) (s : sds) (p : Z).
Context (He : ent_rep e s) (Hp : p = 10 + zlen (flat es1)).
Notation zl := (zlist t n (es1 ++ e :: es2)).

Lemma in_first : ∃ b, zbyte zl p = Some b ∧ (b =? ZIP_END) = false.
Proof. rewrite zlist_split. edestruct at_first as (b & Hb & Hne & _); [done| |eauto]. rewrite length_app, length_hdr. lia. Qed.

Lemma in_prevlensize : ZIP_DECODE_PREVLENSIZE zl p = Some (psize e).
Proof. rewrite zlist_split. eapply at_prevlensize; [done|]. rewrite length_app, length_hdr. lia. Qed.

Lemma in_prevlen : ZIP_DECODE_PREVLEN zl p = Some (psize e, z_prv e).
Proof. rewrite zlist_split. eapply at_prevlen; [done|]. rewrite length_app, length_hdr. lia. Qed.

Lemma in_raw_length : zipRawEntryLength zl p = Some (elen e).
Proof. rewrite zlist_split. eapply at_raw_length; [done|]. rewrite length_app, length_hdr. lia. Qed.

Lemma in_byte_diff k : zipPrevLenByteDiff zl p k = Some (prev_length_size k - psize e).
Proof. rewrite zlist_split. eapply at_byte_diff; [done|]. rewrite length_app, length_hdr. lia. Qed.

Lemma in_entry : ∃ z, zipEntry zl p = Some z ∧ prevrawlensize z = psize e ∧ prevrawlen z = z_prv e ∧
  headersize z + len z = elen e ∧ zle_p z = p.
Proof.
  rewrite zlist_split. edestruct at_entry as (z & Hz & H1 & H2 & H3 & H4 & _); [done| |eauto 8]. rewrite length_app, length_hdr. lia.
Qed.

Lemma in_get : ∃ v, ziplistGet zl (Some p) = Some (Some v) ∧ value_is v s.
Proof. rewrite zlist_split. eapply at_get; [done|]. rewrite length_app, length_hdr. lia. Qed.

Lemma in_compare str : ziplistCompare zl p str = Some (bool_decide (s = str)).
Proof. rewrite zlist_split. eapply at_compare; [done|]. rewrite length_app, length_hdr. lia. Qed.
End in_block.

Lemma in_end t n es p : p = 10 + zlen (flat es) → zbyte (zlist t n es) p = Some ZIP_END.
Proof. intros ->. rewrite zlist_end. apply zbyte_hd. rewrite length_app, length_hdr. lia. Qed.

(** ** On the bytes *)

Section cascade.
Context (junk : Z).

(** The field of one entry is made longer. *)
Lemma grow_step n pre e es cur np curlen :
  z_big e = false → prev_length_size cur = 5 → np = 10 + zlen (flat pre) → curlen = 11 + zlen (flat (pre ++ e :: es)) →
  15 + zlen (flat (pre ++ e :: es)) < 2 ^ 32 →
  let all := pre ++ e :: es in
  let new := pre ++ Zent true cur (z_body e) :: es in
  let t := tail_off 10 all in
  ∃ zl1 zl2 zl3,
    ziplistResize junk (zlist t n all) (curlen + 4) = Some zl1 ∧ ZIPLIST_TAIL_OFFSET zl1 = Some t ∧
    (if negb (t =? np) then set_tail_offset zl1 (u32 (t + 4)) else Some zl1) = Some zl2 ∧
    memmove zl2 (np + 5) (np + 1) (curlen - np - 1 - 1) = Some zl3 ∧
    store zl3 np (zipStorePrevEntryLength cur) = Some (zlist (tail_off 10 new) n new).
Proof.
  intros Hbig Hcur -> -> Hlen all new t. fold all in Hlen |- *.
  destruct (resize_grow junk (11 + zlen (flat all)) t n (flat all) ZIP_END 4) as (T & HT & _ & Hres); [lia|subst all; lia|].
  pose proof (tail_off_range 10 all) as Htr. fold t in Htr.
  assert (zlen (flat new) = zlen (flat all) + 4) as Hnew.
  { subst new all. rewrite !len_flat_app, !len_flat_cons, !elen_eq. unfold psize. rewrite Hbig. simpl. lia. }
  assert (tail_off 10 new = if negb (t =? 10 + zlen (flat pre)) then u32 (t + 4) else t) as Htail.
  { subst new t all. rewrite !tail_off_app in *. destruct es as [|e' es'].
    - simpl. by rewrite Z.eqb_refl.
    - rewrite (proj2 (Z.eqb_neq _ _)) by (rewrite tail_off_eq; done). simpl negb. cbv iota.
      rewrite !tail_off_cons, <- tail_off_shift. unfold u32. rewrite Z.mod_small, !elen_eq.
      + f_equal. unfold psize. rewrite Hbig. simpl. lia.
      + rewrite tail_off_cons, elen_eq in Htr. pose proof (tail_off_shift (10 + zlen (flat pre) + elen e) 4 (e' :: es')). rewrite elen_eq in *. lia. }
  exists (hdr (11 + zlen (flat all) + 4) t n ++ flat all ++ T ++ [ZIP_END]),
    (hdr (11 + zlen (flat all) + 4) (tail_off 10 new) n ++ flat all ++ T ++ [ZIP_END]).
  set (A := hdr (11 + zlen (flat all) + 4) (tail_off 10 new) n ++ flat pre).
  set (S := z_body e ++ flat es).
  assert (hdr (11 + zlen (flat all) + 4) (tail_off 10 new) n ++ flat all ++ T ++ [ZIP_END] =
    (A ++ pfield e) ++ S ++ T ++ [ZIP_END]) as Hl.
  { subst A S all. rewrite flat_app, flat_cons. unfold ebytes. by rewrite <- !app_assoc. }
  assert (zlen A = 10 + zlen (flat pre)) as HA by (subst A; rewrite length_app, length_hdr; lia).
  assert (zlen (pfield e) = 1) as Hpf by (rewrite length_pfield; unfold psize; by rewrite Hbig).
  assert (zlen (flat all) = zlen (flat pre) + 1 + zlen S) as Hall.
  { subst all S. rewrite len_flat_app, len_flat_cons, elen_eq, length_app. unfold psize. rewrite Hbig. lia. }
  exists ((A ++ pfield e) ++ take (length T) (S ++ T) ++ S ++ [ZIP_END]). split_and!.
  - exact Hres.
  - apply hdr_tail. lia.
  - rewrite hdr_set_tail, Htail. by destruct (negb _).
  - rewrite Hl, memmove_up; [done|rewrite length_app; lia|lia|rewrite length_app; lia].
  - rewrite <- app_assoc, (app_assoc (pfield e)), (store_mid _ _ (zipStorePrevEntryLength cur)).
    + unfold zlist. rewrite Hnew. subst new A S. rewrite flat_app, flat_cons. unfold ebytes, pfield. simpl z_big. cbv iota.
      unfold zipStorePrevEntryLength. unfold prev_length_size in Hcur. destruct (cur <? ZIP_BIG_PREVLEN); [lia|].
      rewrite <- !app_assoc. simpl. by rewrite Z.add_assoc.
    + lia.
    + unfold zipStorePrevEntryLength. unfold prev_length_size in Hcur. destruct (cur <? ZIP_BIG_PREVLEN); [lia|].
      rewrite length_app, length_take, length_app. simpl. lia.
Qed.

(** A field is overwritten in place. *)
Lemma store_step t n pre e es cur np bs :
  bs = pfield (Zent (z_big e) cur (z_body e)) → np = 10 + zlen (flat pre) →
  store (zlist t n (pre ++ e :: es)) np bs = Some (zlist t n (pre ++ Zent (z_big e) cur (z_body e) :: es)).
Proof.
  intros -> ->. rewrite !zlist_split. unfold ebytes. rewrite <- !app_assoc, !(app_assoc (hdr _ _ _)).
  rewrite store_mid.
  - rewrite !len_flat_app, !len_flat_cons, !elen_eq. done.
  - rewrite length_app, length_hdr. lia.
  - apply Nat2Z.inj. rewrite !length_pfield. done.
Qed.

Lemma tail_off_same e e' pre es : elen e = elen e' → tail_off 10 (pre ++ e :: es) = tail_off 10 (pre ++ e' :: es).
Proof. intros He. rewrite !tail_off_app. destruct es; [done|]. rewrite !tail_off_cons. by rewrite He. Qed.

Lemma overwrite_step n pre e es cur np :
  prev_length_size cur ≤ psize e → np = 10 + zlen (flat pre) →
  let zl := zlist (tail_off 10 (pre ++ e :: es)) n (pre ++ e :: es) in
  let new := pre ++ Zent (z_big e) cur (z_body e) :: es in
  (if prev_length_size cur <? psize e then store zl np (zipStorePrevEntryLengthLarge cur)
   else store zl np (zipStorePrevEntryLength cur)) = Some (zlist (tail_off 10 new) n new).
Proof.
  intros Hge -> zl new. subst zl new. set (e' := Zent (z_big e) cur (z_body e)).
  rewrite (tail_off_same e e') by (rewrite !elen_eq; done).
  assert (∀ bs, bs = pfield e' → store (zlist (tail_off 10 (pre ++ e' :: es)) n (pre ++ e :: es)) (10 + zlen (flat pre)) bs =
    Some (zlist (tail_off 10 (pre ++ e' :: es)) n (pre ++ e' :: es))) as Hst by (intros; by apply store_step).
  unfold pfield in Hst. simpl z_big in Hst. simpl z_prv in Hst.
  unfold zipStorePrevEntryLength, prev_length_size, psize in *.
  destruct (z_big e), (cur <? ZIP_BIG_PREVLEN); try lia; by apply Hst.
Qed.

Lemma cascade_loop_spec fuel n pre c cs es ss :
  ent_rep c cs → Forall2 ent_rep es ss → (length es < fuel)%nat →
  let all := pre ++ c :: es in
  let new := pre ++ c :: cascade (elen c) es in
  11 + zlen (flat new) < 2 ^ 32 →
  cascade_loop junk fuel (zlist (tail_off 10 all) n all) (10 + zlen (flat pre)) (11 + zlen (flat all)) =
  Some (zlist (tail_off 10 new) n new).
Proof.
  intros Hc Hes. revert fuel pre c cs Hc. induction Hes as [|e s es ss He Hes IH];
    intros fuel pre c cs Hc Hf all new Hlen; (destruct fuel as [|fuel]; [simpl in Hf; lia|]).
  all: cbn [cascade_loop]; subst all.
  - destruct (in_first (tail_off 10 (pre ++ [c])) n pre [] c cs _ Hc eq_refl) as (b & -> & Hb). obind. rewrite Hb.
    destruct (in_entry (tail_off 10 (pre ++ [c])) n pre [] c cs _ Hc eq_refl) as (z & -> & _ & _ & Hz & _). obind. rewrite Hz.
    rewrite in_end by (rewrite len_flat_app, len_flat_cons; simpl; lia). done.
  - set (t := tail_off 10 (pre ++ c :: e :: es)).
    destruct (in_first t n pre (e :: es) c cs _ Hc eq_refl) as (b & -> & Hb). obind. rewrite Hb.
    destruct (in_entry t n pre (e :: es) c cs _ Hc eq_refl) as (z & -> & _ & _ & Hz & _). obind. rewrite Hz.
    assert (10 + zlen (flat pre) + elen c = 10 + zlen (flat (pre ++ [c]))) as -> by (rewrite len_flat_app, len_flat_cons; simpl; lia).
    assert (∀ es', pre ++ c :: es' = (pre ++ [c]) ++ es') as Hassoc by (intros; by rewrite <- app_assoc).
    subst t new. cbn [cascade] in Hlen |- *. rewrite !(Hassoc (e :: es)). set (t := tail_off 10 ((pre ++ [c]) ++ e :: es)).
    destruct (in_first t n (pre ++ [c]) es e s _ He eq_refl) as (b' & -> & Hb'). obind. rewrite Hb'.
    destruct (in_entry t n (pre ++ [c]) es e s _ He eq_refl) as (z' & -> & Hz1 & Hz2 & _). obind. rewrite Hz1, Hz2.
    destruct (z_prv e =? elen c) eqn:Eprv; [by rewrite (Hassoc (e :: es))|].
    destruct (Z.ltb_spec (psize e) (prev_length_size (elen c))) as [Hlt|Hge];
      rewrite (Hassoc (_ :: _)) in Hlen; rewrite (Hassoc (_ :: _)).
    + destruct (cascade_grows _ _ Hlt) as (Hbig & Hcur & Hps). rewrite Hps, Hcur.
      pose proof (len_cascade (elen (Zent true (elen c) (z_body e))) es) as Hmono.
      assert (elen (Zent true (elen c) (z_body e)) = elen e + 4) as Hel by (rewrite !elen_eq, Hps; unfold psize; simpl; lia).
      rewrite len_flat_app, len_flat_cons in Hlen.
      destruct (grow_step n (pre ++ [c]) e es (elen c) _ _ Hbig Hcur eq_refl eq_refl)
        as (zl1 & zl2 & zl3 & H1 & H2 & H3 & H4 & H5); [rewrite len_flat_app, len_flat_cons; lia|].
      fold t in H1, H2, H3. change (5 - 1) with 4. rewrite H1. obind. rewrite H2. obind. rewrite H3. obind. rewrite H4. obind. rewrite H5. obind.
      rewrite <- (IH fuel (pre ++ [c]) (Zent true (elen c) (z_body e)) s).
      * f_equal. rewrite !len_flat_app, !len_flat_cons. lia.
      * destruct Hc, He as (_ & _ & Hbody). split; [|by split]. simpl. pose proof (elen_nonneg c). pose proof (elen_nonneg e).
        assert (elen c ≤ zlen (flat (pre ++ [c]))) by (rewrite len_flat_app, len_flat_cons; lia). lia.
      * simpl in Hf. lia.
      * rewrite len_flat_app, len_flat_cons. lia.
    + by apply overwrite_step.
Qed.

(** [__ziplistCascadeUpdate] from the entry [c] on. *)
Lemma cascade_spec n pre c cs es ss :
  ent_rep c cs → Forall2 ent_rep es ss →
  let all := pre ++ c :: es in
  let new := pre ++ c :: cascade (elen c) es in
  11 + zlen (flat new) < 2 ^ 32 →
  __ziplistCascadeUpdate junk (zlist (tail_off 10 all) n all) (10 + zlen (flat pre)) = Some (zlist (tail_off 10 new) n new).
Proof.
  intros Hc Hes all new Hlen. unfold __ziplistCascadeUpdate.
  assert (zlen (flat all) ≤ zlen (flat new)).
  { subst all new. rewrite !len_flat_app, !len_flat_cons. pose proof (len_cascade (elen c) es). lia. }
  rewrite zlist_bytes by lia. obind. apply cascade_loop_spec with cs ss; try done.
  pose proof (len_zlist (tail_off 10 all) n all) as Hz. subst all. rewrite len_flat_app, len_flat_cons in Hz.
  pose proof (len_flat_ge es ss Hes). pose proof (elen_nonneg c). lia.
Qed.
End cascade.
