(* ===== verification/ZiplistInsert.v ===== *)
(** * Ziplists: insertion

    [zl_rep zl ss]: the block [zl] holds the strings [ss].  [__ziplistInsert]
    at the position of an entry, or at the end, gives a block that holds the
    list with the new string at that place.  The bound is on the strings: every
    block for them is shorter than 2^32 bytes. *)

From S2P Require Import Prelude.
From S2P Require Import Sds.
From S2P Require Import Ziplist.
From S2P Require Import ZiplistRep.
From S2P Require Import ZiplistCascade.

#[local] Open Scope Z_scope.

(** The number of entries in the header; UINT16_MAX is "unknown". *)
Definition len_ok (n : Z) (k : nat) : Prop := n = UINT16_MAX ∨ (n = Z.of_nat k ∧ n < UINT16_MAX).

Definition block_rep (n : Z) (es : list zent) (ss : list sds) : Prop :=
  linked 0 es ∧ Forall2 ent_rep es ss ∧ len_ok n (length es) ∧ 11 + zlen (flat es) < 2 ^ 32.

Definition zl_rep (zl : list Z) (ss : list sds) : Prop :=
  ∃ es n, zl = zlist (tail_off 10 es) n es ∧ block_rep n es ss.

(** More than the bytes of any block for these strings. *)
Fixpoint weight (ss : list sds) : Z :=
  match ss with
  | [] => 11
  | s :: ss => Z.of_nat (String.length s) + 13 + weight ss
  end.

Definition holds (e : zent) (s : sds) : Prop := body_rep (z_body e) s.

Lemma ent_rep_holds es ss : Forall2 ent_rep es ss → Forall2 holds es ss.
Proof. intros H. eapply Forall2_impl; [done|]. by intros e s (_ & _ & ?). Qed.

Lemma len_flat_weight es ss : Forall2 holds es ss → 11 + zlen (flat es) ≤ weight ss.
Proof.
  induction 1 as [|e s es ss He Hes IH]; [done|]. rewrite len_flat_cons, elen_eq. simpl.
  apply body_rep_decode in He as (? & ? & ? & _ & _ & _ & _ & Hle). pose proof (psize_range e). lia.
Qed.

Lemma cascade_holds cur es ss : Forall2 holds es ss → Forall2 holds (cascade cur es) ss.
Proof. intros H. revert cur. induction H as [|e s es ss He Hes IH]; intros cur; cbn [cascade]; repeat case_match; constructor; auto. Qed.

Lemma weight_app ss1 ss2 : weight (ss1 ++ ss2) = weight ss1 + weight ss2 - 11.
Proof. induction ss1 as [|s ss1 IH]; simpl; lia. Qed.

Lemma weight_ge ss : 11 ≤ weight ss.
Proof. induction ss; simpl; lia. Qed.

(** The length of the last entry, [q] for none. *)
Fixpoint end_len (q : Z) (es : list zent) : Z :=
  match es with
  | [] => q
  | e :: es => end_len (elen e) es
  end.

Lemma linked_app q es1 es2 : linked q (es1 ++ es2) ↔ linked q es1 ∧ linked (end_len q es1) es2.
Proof. revert q. induction es1 as [|e es1 IH]; intros q; simpl; [tauto|]. rewrite IH. tauto. Qed.

Lemma end_len_snoc q es e : end_len q (es ++ [e]) = elen e.
Proof. revert q. induction es as [|e' es IH]; intros q; [done|]. apply IH. Qed.

Lemma end_len_range es : 0 ≤ end_len 0 es ≤ zlen (flat es).
Proof.
  destruct (decide (es = [])) as [->|Hne]; [done|]. destruct (exists_last Hne) as (es' & e & ->).
  rewrite end_len_snoc, len_flat_app, len_flat_cons. pose proof (elen_nonneg e). lia.
Qed.

Lemma tail_off_snoc es e : tail_off 10 (es ++ [e]) = 10 + zlen (flat es).
Proof. by rewrite tail_off_app. Qed.

(** Any bytes can be taken for an entry. *)
Lemma fake_entry J : (0 < length J)%nat → ∃ f, ebytes f = J.
Proof. destruct J as [|b J]; [simpl; lia|]. intros _. by exists (Zent false b J). Qed.

(** The entry for a body after an entry of length [prev]. *)
Definition mk_entry (prev : Z) (body : list Z) : zent := Zent (negb (prev <? ZIP_BIG_PREVLEN)) prev body.

Lemma mk_pfield prev body : pfield (mk_entry prev body) = zipStorePrevEntryLength prev.
Proof. unfold pfield, zipStorePrevEntryLength. simpl. by destruct (_ <? _). Qed.

Lemma mk_psize prev body : psize (mk_entry prev body) = prev_length_size prev.
Proof. unfold psize, prev_length_size. simpl. by destruct (_ <? _). Qed.

Lemma mk_rep prev body s : 0 ≤ prev < 2 ^ 32 → body_rep body s → ent_rep (mk_entry prev body) s.
Proof. intros Hp Hb. split; [done|]. split; [|done]. simpl. intros H%negb_false_iff. lia. Qed.

Section insert.
Context (junk : Z).

(** The entries from [e] on are moved up by [req] bytes, and [e] gets a length
    field that is [nd] bytes longer. *)
Lemma insert_move t n es1 e s es2 e' req nd p curlen :
  ent_rep e s → z_body e' = z_body e → psize e' = psize e + nd → 0 < req → 0 ≤ req + nd →
  p = 10 + zlen (flat es1) → curlen = 11 + zlen (flat (es1 ++ e :: es2)) → curlen + req + nd < 2 ^ 32 →
  ∃ zl1 zl2 f b, elen f = req ∧
    ziplistResize junk (zlist t n (es1 ++ e :: es2)) (curlen + req + nd) = Some zl1 ∧
    zbyte zl1 p = Some b ∧ (b =? ZIP_END) = false ∧
    memmove zl1 (p + req) (p - nd) (curlen - p - 1 + nd) = Some zl2 ∧
    store zl2 (p + req) (pfield e') = Some (zlist t n (es1 ++ f :: e' :: es2)).
Proof.
  intros He Hbody Hps Hreq Hnd -> -> Hlen.
  destruct (resize_grow junk (11 + zlen (flat (es1 ++ e :: es2))) t n (flat (es1 ++ e :: es2)) ZIP_END (req + nd))
    as (T & HT & _ & Hres); [lia|lia|].
  set (b' := 11 + zlen (flat (es1 ++ e :: es2)) + (req + nd)) in *.
  set (H := hdr b' t n ++ flat es1). set (W := H ++ pfield e). set (R := z_body e ++ flat es2).
  assert (zlen H = 10 + zlen (flat es1)) as HH by (subst H; rewrite length_app, length_hdr; lia).
  assert (zlen W = 10 + zlen (flat es1) + psize e) as HW by (subst W; rewrite length_app, Nat2Z.inj_add, length_pfield; lia).
  set (U := take (Z.to_nat (zlen W - psize e')) W). set (F := drop (Z.to_nat (zlen W - psize e')) W).
  pose proof (psize_range e). pose proof (psize_range e').
  assert (zlen U = 10 + zlen (flat es1) - nd) as HU by (subst U; rewrite length_take; lia).
  assert (zlen F = psize e') as HF by (subst F; rewrite length_drop; lia).
  assert (zlen (flat (es1 ++ e :: es2)) = zlen (flat es1) + psize e + zlen R) as Hall
    by (subst R; rewrite len_flat_app, len_flat_cons, elen_eq, length_app; lia).
  assert (hdr b' t n ++ flat (es1 ++ e :: es2) ++ T ++ [ZIP_END] = U ++ (F ++ R) ++ T ++ [ZIP_END]) as Hz1.
  { rewrite <- (app_assoc F), (app_assoc U). subst U F. rewrite take_drop. subst W R H.
    rewrite flat_app, flat_cons. unfold ebytes. by rewrite <- !app_assoc. }
  set (J := take (Z.to_nat req) (pfield e ++ R ++ T)).
  assert (zlen J = req) as HJ.
  { subst J. rewrite length_take, !length_app. pose proof (length_pfield e). lia. }
  assert (U ++ take (length T) ((F ++ R) ++ T) = H ++ J) as HUJ.
  { rewrite <- take_app_add, <- app_assoc, (app_assoc U). subst U F. rewrite take_drop. subst W J.
    rewrite <- app_assoc. rewrite <- take_app_add. f_equal. lia. }
  destruct (fake_entry J) as (f & Hf); [lia|].
  exists (U ++ (F ++ R) ++ T ++ [ZIP_END]), (H ++ J ++ F ++ R ++ [ZIP_END]), f.
  destruct (at_first H (flat es2 ++ T ++ [ZIP_END]) e s _ He (eq_sym HH)) as (b & Hb & Hne & _).
  exists b. split_and!.
  - unfold elen. by rewrite Hf.
  - rewrite <- Hz1. subst b'. unfold zlist. rewrite <- Z.add_assoc. exact Hres.
  - rewrite <- Hz1. subst H. rewrite flat_app, flat_cons, <- !app_assoc. rewrite <- !app_assoc in Hb. exact Hb.
  - done.
  - rewrite memmove_up; [|lia|rewrite length_app; lia|lia]. f_equal.
    rewrite (app_assoc U), HUJ. by rewrite <- !app_assoc.
  - rewrite app_assoc, (store_mid _ F); [|rewrite length_app; lia|apply Nat2Z.inj; rewrite length_pfield; lia].
    f_equal. subst H R. unfold zlist. rewrite flat_app, !flat_cons, Hf.
    replace (11 + zlen _) with b'; [unfold ebytes; rewrite Hbody; by rewrite <- !app_assoc|].
    subst b'. rewrite Hall, !length_app. unfold ebytes. rewrite Hbody, !length_app, !Nat2Z.inj_add, length_pfield. lia.
Qed.
Lemma zlist_get_tail t n es : 0 ≤ t < 2 ^ 32 → ZIPLIST_TAIL_OFFSET (zlist t n es) = Some t.
Proof. apply hdr_tail. Qed.

Lemma zlist_set_tail t n es t' : set_tail_offset (zlist t n es) t' = Some (zlist t' n es).
Proof. apply hdr_set_tail. Qed.

(** The byte after an entry tells whether it is the last one. *)
Lemma next_byte t n pre e es s ss q : ent_rep e s → Forall2 ent_rep es ss → q = 10 + zlen (flat pre) + elen e →
  ∃ b, zbyte (zlist t n (pre ++ e :: es)) q = Some b ∧ (b =? ZIP_END) = bool_decide (es = []).
Proof.
  intros He Hes ->. rewrite (cons_middle e), app_assoc.
  assert (10 + zlen (flat pre) + elen e = 10 + zlen (flat (pre ++ [e]))) as -> by (rewrite len_flat_app, len_flat_cons; simpl; lia).
  destruct Hes as [|e' s' es ss He' Hes].
  - rewrite app_nil_r, in_end by done. by eexists.
  - destruct (in_first t n (pre ++ [e]) es e' s' _ He' eq_refl) as (b & Hb & Hne). by exists b.
Qed.

Lemma shift_tail_spec n pre e es s ss t q delta nd :
  ent_rep e s → Forall2 ent_rep es ss → q = 10 + zlen (flat pre) →
  let t' := t + delta + (if es is [] then 0 else nd) in
  0 ≤ t < 2 ^ 32 → 0 ≤ t' < 2 ^ 32 →
  shift_tail_offset (zlist t n (pre ++ e :: es)) q delta nd = Some (zlist t' n (pre ++ e :: es)).
Proof.
  intros He Hes Hq t' Ht Ht'. unfold shift_tail_offset. rewrite zlist_get_tail by done. obind.
  rewrite zlist_set_tail. obind.
  destruct (in_entry (u32 (t + delta)) n pre es e s q He Hq) as (z & -> & _ & _ & Hz & _). obind.
  destruct (next_byte (u32 (t + delta)) n pre e es s ss (q + headersize z + len z) He Hes) as (b & -> & Hb); [lia|]. obind. rewrite Hb.
  subst t'. destruct es as [|e' es].
  - rewrite bool_decide_eq_true_2 by done. simpl negb. cbv iota. unfold u32. rewrite Z.mod_small by lia. by rewrite Z.add_0_r.
  - rewrite bool_decide_eq_false_2 by done. simpl negb. cbv iota. unfold u32.
    rewrite zlist_get_tail by (apply Z.mod_pos_bound; lia). obind. rewrite zlist_set_tail.
    by rewrite Zplus_mod_idemp_l, Z.mod_small by lia.
Qed.

(** Three stores in a row. *)
Lemma store_entry (A J B a b c : list Z) p : p = zlen A → length J = (length a + length b + length c)%nat →
  ∃ zl1 zl2, store (A ++ J ++ B) p a = Some zl1 ∧ store zl1 (p + zlen a) b = Some zl2 ∧
    store zl2 (p + zlen a + zlen b) c = Some (A ++ (a ++ b ++ c) ++ B).
Proof.
  intros -> HJ. rewrite <- (take_drop (length a) J), <- (take_drop (length b) (drop (length a) J)). rewrite drop_drop.
  set (J1 := take _ J). set (J2 := take _ _). set (J3 := drop _ J).
  assert (length J1 = length a) by (subst J1; rewrite length_take; lia).
  assert (length J2 = length b) by (subst J2; rewrite length_take, length_drop; lia).
  assert (length J3 = length c) by (subst J3; rewrite length_drop; lia).
  exists (A ++ a ++ J2 ++ J3 ++ B), (A ++ a ++ b ++ J3 ++ B). rewrite <- !app_assoc. split_and!.
  - by apply store_mid.
  - rewrite !(app_assoc A). apply store_mid; [rewrite length_app; lia|done].
  - rewrite !(app_assoc A), !(app_assoc (A ++ a)). apply store_mid; [rewrite !length_app; lia|done].
Qed.
Lemma write_entry t n es1 f x rest p a b c :
  p = 10 + zlen (flat es1) → elen f = elen x → ebytes x = a ++ b ++ c →
  ∃ zl1 zl2, store (zlist t n (es1 ++ f :: rest)) p a = Some zl1 ∧ store zl1 (p + zlen a) b = Some zl2 ∧
    store zl2 (p + zlen a + zlen b) c = Some (zlist t n (es1 ++ x :: rest)).
Proof.
  intros Hp Hel Hx. rewrite !zlist_split, !len_flat_app, !len_flat_cons, Hel, Hx.
  apply store_entry; [rewrite length_app, length_hdr; lia|].
  apply Nat2Z.inj. change (elen f = Z.of_nat (length a + length b + length c)). rewrite Hel. unfold elen. rewrite Hx, !length_app. lia.
Qed.

(** The header's count. *)
Definition add_length (n d : Z) : Z := if n <? UINT16_MAX then u16 (n + d) else n.

Lemma incr_length t n es d k : len_ok n k → ZIPLIST_INCR_LENGTH (zlist t n es) d = Some (zlist t (add_length n d) es).
Proof.
  intros Hn. unfold ZIPLIST_INCR_LENGTH, zlist, UINT16_MAX in *. rewrite hdr_length by (unfold len_ok, UINT16_MAX in Hn; lia). obind.
  unfold add_length, UINT16_MAX. destruct (n <? 65535); [|done]. apply hdr_set_length.
Qed.

Lemma len_ok_add n k d k' : len_ok n k → Z.of_nat k' = Z.of_nat k + d → d ≤ 1 → len_ok (add_length n d) k'.
Proof.
  unfold len_ok, add_length, UINT16_MAX, u16. intros [->|[-> Hn]] Hk Hd; [by left|].
  rewrite (proj2 (Z.ltb_lt _ _)) by lia. rewrite Z.mod_small by lia. lia.
Qed.

(** The length of the entry before the new one. *)
Lemma insert_prevlen_spec n es1 es2 ss p :
  linked 0 (es1 ++ es2) → Forall2 ent_rep (es1 ++ es2) ss → 11 + zlen (flat (es1 ++ es2)) < 2 ^ 32 → p = 10 + zlen (flat es1) →
  insert_prevlen (zlist (tail_off 10 (es1 ++ es2)) n (es1 ++ es2)) p = Some (end_len 0 es1).
Proof.
  intros Hl Hes Hlen Hp. unfold insert_prevlen. destruct es2 as [|e es2].
  - rewrite app_nil_r in *. rewrite in_end by done. obind. cbn [negb Z.eqb ZIP_END Pos.eqb].
    unfold ZIPLIST_ENTRY_TAIL. rewrite zlist_tail by done. obind.
    destruct (decide (es1 = [])) as [->|Hne]; [by rewrite in_end|].
    destruct (exists_last Hne) as (es & l & ->). rewrite tail_off_snoc, end_len_snoc.
    apply Forall2_app_inv_l in Hes as (ss1 & ss2 & _ & Hl2 & _). inversion Hl2 as [|? s ? ? Hls]; subst.
    destruct (in_first (10 + zlen (flat es)) n es [] l s _ Hls eq_refl) as (b' & -> & Hb'). obind. rewrite Hb'.
    by apply in_raw_length with s.
  - apply Forall2_app_inv_l in Hes as (ss1 & ss2 & _ & Hl2 & _). inversion Hl2 as [|? s ? ? Hes]; subst.
    destruct (in_first (tail_off 10 (es1 ++ e :: es2)) n es1 es2 e s _ Hes eq_refl) as (b & -> & Hb). obind. rewrite Hb. simpl negb. cbv iota.
    rewrite (in_prevlen _ _ es1 es2 e s _ Hes eq_refl). obind.
    apply linked_app in Hl as [_ [Hl _]]. by rewrite Hl.
Qed.

(** Room at the end. *)
Lemma insert_space_end n es1 req :
  0 < req → 11 + zlen (flat es1) + req < 2 ^ 32 →
  ∃ f, elen f = req ∧
    insert_space junk (zlist (tail_off 10 es1) n es1) (10 + zlen (flat es1)) (11 + zlen (flat es1)) req =
    Some (zlist (tail_off 10 (es1 ++ [f])) n (es1 ++ [f])).
Proof.
  intros Hreq Hlen. set (t := tail_off 10 es1).
  destruct (resize_grow junk (11 + zlen (flat es1)) t n (flat es1) ZIP_END req) as (T & HT & Hhd & Hres); [lia|lia|].
  destruct (Hhd Hreq) as (T' & HT'). destruct (fake_entry T) as (f & Hf); [subst; simpl; lia|].
  exists f. assert (elen f = req) as Hel by (unfold elen; by rewrite Hf). split; [done|].
  unfold insert_space. rewrite in_end by done. obind. cbn [negb Z.eqb ZIP_END Pos.eqb]. obind. cbn [Z.eqb andb]. rewrite (Z.add_0_r (11 + _ + req)).
  change (hdr _ t n ++ flat es1 ++ [ZIP_END]) with (zlist t n es1) in Hres. rewrite Hres. obind.
  rewrite HT', app_assoc, <- app_comm_cons, zbyte_hd by (rewrite length_app, length_hdr; lia). obind. cbn [negb Z.eqb ZIP_END Pos.eqb].
  rewrite <- app_assoc, app_comm_cons, <- HT', hdr_set_tail. obind. f_equal.
  unfold zlist. rewrite flat_snoc, tail_off_snoc, Hf, length_app. unfold u32. rewrite Z.mod_small by lia.
  rewrite <- app_assoc. do 2 f_equal. lia.
Qed.
(** The entry after the new one: its field is kept long when the new entry is
    too short to make up for the bytes saved. *)
Lemma next_entry e s req :
  ent_rep e s → 0 < req < 2 ^ 32 →
  let nd := prev_length_size req - psize e in
  ∃ e' nd' (fl : bool), (if (nd =? -4) && (req <? 4) then (0, true) else (nd, false)) = (nd', fl) ∧
    ent_rep e' s ∧ z_prv e' = req ∧ z_body e' = z_body e ∧ psize e' = psize e + nd' ∧
    pfield e' = (if fl then zipStorePrevEntryLengthLarge req else zipStorePrevEntryLength req) ∧ 0 ≤ req + nd'.
Proof.
  intros (_ & _ & Hb) Hreq nd. subst nd. destruct (prev_length_cases req) as [Hr|Hr], (psize_cases e) as [[_ Hp]|[_ Hp]]; rewrite Hr, Hp.
  2: destruct (Z.ltb_spec req 4) as [H4|H4].
  2: { exists (Zent true req (z_body e)), 0, true. split; [done|]. split; [split; [simpl; lia|by split]|].
    split_and!; try done; lia. }
  all: exists (mk_entry req (z_body e)); do 2 eexists; split; [done|]; (split; [apply mk_rep; [lia|done]|]);
    rewrite mk_pfield, mk_psize; split_and!; try done; lia.
Qed.

Lemma insert_space_tail es1 e e' es2 f req nd : elen f = req → elen e' = elen e + nd →
  tail_off 10 (es1 ++ f :: e' :: es2) = tail_off 10 (es1 ++ e :: es2) + req + (if es2 is [] then 0 else nd).
Proof.
  intros Hf Hel. rewrite !tail_off_app, tail_off_cons, tail_off_shift, Hf. destruct es2 as [|e2 es2]; [simpl; lia|].
  rewrite !tail_off_cons, Hel, Z.add_assoc, tail_off_shift. lia.
Qed.

(** Room before an entry. *)
Lemma insert_space_mid n es1 e es2 s ss2 q req :
  ent_rep e s → Forall2 ent_rep es2 ss2 → linked q (e :: es2) → 0 < req →
  zlen (flat es1) + req + weight (s :: ss2) < 2 ^ 32 →
  ∃ f rest, elen f = req ∧ linked req rest ∧ Forall2 ent_rep rest (s :: ss2) ∧
    insert_space junk (zlist (tail_off 10 (es1 ++ e :: es2)) n (es1 ++ e :: es2)) (10 + zlen (flat es1))
      (11 + zlen (flat (es1 ++ e :: es2))) req =
    Some (zlist (tail_off 10 (es1 ++ f :: rest)) n (es1 ++ f :: rest)).
Proof.
  intros He Hes [_ Hl] Hreq Hw. set (t := tail_off 10 (es1 ++ e :: es2)). pose proof (weight_ge (s :: ss2)) as Hw11.
  destruct (next_entry e s req He) as (e' & nd & fl & Hnd & He' & Hprv & Hbody & Hps & Hpf & Hr0); [lia|].
  assert (11 + zlen (flat (e' :: es2)) ≤ weight (s :: ss2)) as Hle1
    by (apply len_flat_weight; constructor; [by destruct He' as (_ & _ & ?)|by apply ent_rep_holds]).
  assert (11 + zlen (flat (e' :: cascade (elen e') es2)) ≤ weight (s :: ss2)) as Hle2
    by (apply len_flat_weight; constructor; [by destruct He' as (_ & _ & ?)|by apply cascade_holds, ent_rep_holds]).
  assert (elen e' = elen e + nd) as Hel by (rewrite !elen_eq, Hbody; lia).
  assert (11 + zlen (flat (e :: es2)) ≤ weight (s :: ss2)) as Hle0 by (apply len_flat_weight, ent_rep_holds; by constructor).
  rewrite len_flat_cons in Hle0, Hle1, Hle2. pose proof (elen_nonneg e').
  destruct (insert_move t n es1 e s es2 e' req nd (10 + zlen (flat es1)) _ He Hbody Hps Hreq Hr0 eq_refl eq_refl)
    as (zl1 & zl2 & f & b & Hf & H1 & H2 & H3 & H4 & H5); [rewrite len_flat_app, len_flat_cons; lia|].
  pose proof (insert_space_tail es1 e e' es2 f req nd Hf Hel) as Htail. fold t in Htail.
  pose proof (tail_off_range 10 (es1 ++ f :: e' :: es2)) as Hr1. pose proof (tail_off_range 10 (es1 ++ e :: es2)) as Hr2.
  fold t in Hr2. rewrite len_flat_app, !(len_flat_cons f), !(len_flat_cons e') in Hr1. rewrite len_flat_app, len_flat_cons in Hr2.
  assert (10 + zlen (flat es1) + req = 10 + zlen (flat (es1 ++ [f]))) as Hq by (rewrite len_flat_app, len_flat_cons; simpl; lia).
  assert (∀ es, es1 ++ f :: es = (es1 ++ [f]) ++ es) as Hassoc by (intros; by rewrite <- app_assoc).
  pose proof (shift_tail_spec n (es1 ++ [f]) e' es2 s ss2 t _ req nd He' Hes Hq) as Hshift. rewrite <- Htail in Hshift.
  exists f, (e' :: if negb (nd =? 0) then cascade (elen e') es2 else es2).
  split; [done|]. split; [|split].
  - split; [done|]. destruct (Z.eqb_spec nd 0) as [->|]; simpl; [by rewrite Hel, Z.add_0_r|by eapply cascade_linked].
  - constructor; [done|]. destruct (negb _); [|done]. apply cascade_rep; [done|lia|lia].
  - unfold insert_space. destruct (in_first t n es1 es2 e s _ He eq_refl) as (b0 & -> & Hb0). obind. rewrite Hb0. simpl negb. cbv iota.
    rewrite (in_byte_diff t n es1 es2 e s _ He eq_refl). obind. rewrite Hnd, H1. obind. rewrite H2. obind. rewrite H3. simpl negb. cbv iota.
    rewrite H4. obind. rewrite <- Hpf, H5. obind. rewrite Hassoc, Hshift by lia. obind. rewrite <- Hassoc.
    destruct (negb _); [|done]. rewrite Hq, !(Hassoc (_ :: _)).
    apply cascade_spec with s ss2; [done|done|]. rewrite len_flat_app, len_flat_cons. lia.
Qed.
Lemma insert_space_spec n es1 es2 ss2 q req :
  Forall2 ent_rep es2 ss2 → linked q es2 → 0 < req → zlen (flat es1) + req + weight ss2 < 2 ^ 32 →
  ∃ f rest, elen f = req ∧ linked req rest ∧ Forall2 ent_rep rest ss2 ∧
    insert_space junk (zlist (tail_off 10 (es1 ++ es2)) n (es1 ++ es2)) (10 + zlen (flat es1)) (11 + zlen (flat (es1 ++ es2))) req =
    Some (zlist (tail_off 10 (es1 ++ f :: rest)) n (es1 ++ f :: rest)).
Proof.
  intros Hes Hl Hreq Hw. destruct Hes as [|e s es2 ss2 He Hes]; [|by eapply insert_space_mid].
  rewrite app_nil_r. destruct (insert_space_end n es1 req) as (f & Hf & Hsp); [done|simpl in Hw; lia|].
  exists f, []. by split_and!.
Qed.

(** [__ziplistInsert] at the entry after [es1]. *)
Lemma insert_spec n es1 es2 ss1 ss2 s p :
  block_rep n (es1 ++ es2) (ss1 ++ ss2) → Forall2 ent_rep es1 ss1 → Forall2 ent_rep es2 ss2 →
  p = 10 + zlen (flat es1) → weight (ss1 ++ s :: ss2) < 2 ^ 32 →
  ∃ x rest n',
    __ziplistInsert junk (zlist (tail_off 10 (es1 ++ es2)) n (es1 ++ es2)) p s =
      Some (zlist (tail_off 10 (es1 ++ x :: rest)) n' (es1 ++ x :: rest)) ∧
    block_rep n' (es1 ++ x :: rest) (ss1 ++ s :: ss2) ∧ Forall2 ent_rep (x :: rest) (s :: ss2).
Proof.
  intros (Hl & Hes & Hn & Hlen) Hes1 Hes2 -> Hw. pose proof (weight_ge ss1). pose proof (weight_ge ss2).
  pose proof (len_flat_weight _ _ (ent_rep_holds _ _ Hes1)) as Hw1. rewrite weight_app in Hw. cbn [weight] in Hw.
  destruct (encode_value_spec s) as (en & bs & Henc & Hbody); [lia|].
  set (h := zipStoreEntryEncoding en (Z.of_nat (String.length s))) in *.
  set (prev := end_len 0 es1). set (x := mk_entry prev (h ++ bs)).
  assert (0 ≤ prev ≤ zlen (flat es1)) as Hprev by (subst prev; apply end_len_range).
  assert (ent_rep x s) as Hx by (apply mk_rep; [lia|done]).
  assert (zlen bs + prev_length_size prev + zlen h = elen x) as Hreq.
  { subst x. rewrite elen_eq, mk_psize. simpl z_body. rewrite length_app. lia. }
  pose proof (ent_rep_len x s Hx) as Hxl. apply linked_app in Hl as Hl'. destruct Hl' as [Hl1 Hl2].
  destruct (insert_space_spec n es1 es2 ss2 _ (elen x) Hes2 Hl2) as (f & rest & Hf & Hlr & Hrest & Hsp); [lia|lia|].
  destruct (write_entry (tail_off 10 (es1 ++ f :: rest)) n es1 f x rest _ (zipStorePrevEntryLength prev) h bs eq_refl Hf)
    as (zl1 & zl2 & Hs1 & Hs2 & Hs3); [unfold ebytes; subst x; by rewrite mk_pfield|].
  exists x, rest, (add_length n 1).
  assert (Forall2 ent_rep (es1 ++ x :: rest) (ss1 ++ s :: ss2)) as Hnew by (apply Forall2_app; [done|by constructor]).
  split; [|split; [|by constructor]].
  - unfold __ziplistInsert. rewrite zlist_bytes by done. obind.
    rewrite (insert_prevlen_spec n es1 es2 (ss1 ++ ss2)) by done. obind. fold prev. rewrite Henc. obind. fold h.
    rewrite Hreq, Hsp. obind. rewrite Hs1. obind. rewrite Hs2. obind. rewrite Hs3. obind.
    rewrite (incr_length _ _ _ _ _ Hn). by rewrite (tail_off_same f x).
  - split; [|split; [done|split]].
    + apply linked_app. split; [done|]. by split.
    + apply (len_ok_add _ _ _ _ Hn); [|lia]. rewrite !length_app. apply Forall2_length in Hrest. apply Forall2_length in Hes2. simpl. lia.
    + apply ent_rep_holds, len_flat_weight in Hnew. rewrite weight_app in Hnew. cbn [weight] in Hnew. lia.
Qed.
End insert.
