(* ===== verification/ZiplistDelete.v ===== *)
(** * Ziplists: deletion and merge

    [__ziplistDelete] removes the entries it is told to, and [ziplistMerge]
    of two lists that are not empty gives a block for the two lists of strings
    one after the other.  When the second list is empty, the block it builds
    has an offset of the last entry that is not one. *)

From S2P Require Import Prelude.
From S2P Require Import Sds.
From S2P Require Import Ziplist.
From S2P Require Import ZiplistRep.
From S2P Require Import ZiplistCascade.
From S2P Require Import ZiplistInsert.

#[local] Open Scope Z_scope.

Section delete.
Context (junk : Z).

Lemma delete_loop_spec t n es1 es ss num k :
  Forall2 ent_rep es ss →
  delete_loop num (zlist t n (es1 ++ es)) (10 + zlen (flat es1)) k =
  Some (10 + zlen (flat (es1 ++ take num es)), k + zlen (take num es)).
Proof.
  intros Hes. revert num es1 k. induction Hes as [|e s es ss He Hes IH]; intros num es1 k.
  - rewrite take_nil, !app_nil_r, Z.add_0_r. destruct num; [done|]. cbn [delete_loop]. by rewrite in_end.
  - destruct num as [|num]; [simpl; by rewrite app_nil_r, Z.add_0_r|]. cbn [delete_loop].
    destruct (in_first t n es1 es e s _ He eq_refl) as (b & -> & Hb). obind. rewrite Hb.
    rewrite (in_raw_length t n es1 es e s _ He eq_refl). obind. rewrite (cons_middle e), app_assoc.
    replace (10 + zlen (flat es1) + elen e) with (10 + zlen (flat (es1 ++ [e]))) by (rewrite len_flat_app, len_flat_cons; simpl; lia).
    rewrite IH, <- app_assoc. simpl length. do 2 f_equal. lia.
Qed.

(** The field of the entry after the deleted ones is written over their end. *)
Lemma delete_field t n es1 d e es2 e' nd q :
  z_body e' = z_body e → psize e' = psize e + nd → nd < zlen (flat d) → 
  q = 10 + zlen (flat es1) + zlen (flat d) - nd →
  ∃ f, elen f = zlen (flat d) - nd ∧
    store (zlist t n (es1 ++ d ++ e :: es2)) q (pfield e') = Some (zlist t n (es1 ++ f :: e' :: es2)).
Proof.
  intros Hbody Hps Hnd ->. pose proof (psize_range e). pose proof (psize_range e').
  pose proof (length_pfield e) as Hpf. set (W := flat d ++ pfield e).
  assert (zlen W = zlen (flat d) + psize e) as HW by (subst W; rewrite length_app; lia).
  set (D := take (Z.to_nat (zlen W - psize e')) W). set (F := drop (Z.to_nat (zlen W - psize e')) W).
  assert (zlen D = zlen (flat d) - nd) as HD by (subst D; rewrite length_take; lia).
  assert (zlen F = psize e') as HF by (subst F; rewrite length_drop; lia).
  destruct (fake_entry D) as (f & Hf); [lia|]. exists f. split; [unfold elen; by rewrite Hf|].
  assert (elen f = zlen (flat d) - nd) as Hel by (unfold elen; by rewrite Hf).
  assert (flat (es1 ++ d ++ e :: es2) = flat es1 ++ D ++ F ++ z_body e ++ flat es2) as Hflat.
  { rewrite !flat_app, flat_cons. unfold ebytes. rewrite <- app_assoc, (app_assoc (flat d)). fold W.
    rewrite (app_assoc D). subst D F. by rewrite take_drop. }
  unfold zlist. rewrite Hflat, <- !app_assoc, !(app_assoc (hdr _ _ _)), (app_assoc _ D), store_mid.
  - rewrite !flat_app, !flat_cons, Hf. unfold ebytes. rewrite Hbody, <- !app_assoc. do 3 f_equal.
    rewrite !length_app, !Nat2Z.inj_add, length_pfield. lia.
  - rewrite !length_app, length_hdr. lia.
  - apply Nat2Z.inj. rewrite length_pfield. done.
Qed.

(** The entries after the deleted ones are moved down. *)
Lemma delete_move t n es1 f es2 p q curlen :
  p = 10 + zlen (flat es1) → q = p + elen f → curlen = 11 + zlen (flat (es1 ++ f :: es2)) → curlen < 2 ^ 32 →
  ∃ zl1, memmove (zlist t n (es1 ++ f :: es2)) p q (curlen - q - 1) = Some zl1 ∧ ZIPLIST_BYTES zl1 = Some curlen ∧
    ziplistResize junk zl1 (curlen - elen f) = Some (zlist t n (es1 ++ es2)).
Proof.
  intros -> -> -> Hlen. rewrite zlist_split. set (b := 11 + zlen (flat (es1 ++ f :: es2))) in *.
  assert (b = 11 + zlen (flat es1) + elen f + zlen (flat es2)) as Hb by (subst b; rewrite len_flat_app, len_flat_cons; lia).
  exists ((hdr b t n ++ flat es1) ++ flat es2 ++ drop (length (flat es2)) (ebytes f ++ flat es2) ++ [ZIP_END]). split_and!.
  - apply memmove_down; [rewrite length_app, length_hdr; unfold elen; lia|lia|rewrite length_app, length_hdr; lia].
  - rewrite <- app_assoc. apply hdr_bytes. lia.
  - rewrite <- app_assoc, (app_assoc (flat es1)), <- flat_app.
    replace (b - elen f) with (11 + zlen (flat (es1 ++ es2))) by (rewrite len_flat_app; lia).
    apply resize_shrink; [rewrite length_app; simpl; lia|]. rewrite len_flat_app. pose proof (elen_nonneg f). lia.
Qed.
(** A long field needs a long entry among the deleted ones. *)
Lemma delete_room prev e d s : ent_rep e s → z_prv e = prev → ∀ e', prev_length_size prev - psize e' < zlen (flat (e :: d)).
Proof.
  intros He Hprv e'. rewrite len_flat_cons. pose proof (ent_rep_len e s He) as Hel. destruct He as (_ & Hbig & Hbody).
  apply body_rep_decode in Hbody as (? & l & k & _ & Hlen & Hl & Hk & _).
  pose proof (psize_range e'). unfold prev_length_size. destruct (Z.ltb_spec prev ZIP_BIG_PREVLEN); [lia|].
  rewrite elen_eq. unfold psize at 2. destruct (z_big e); [lia|]. specialize (Hbig eq_refl). lia.
Qed.

(** What [__ziplistDelete] does after the entries to delete are known to be
    [d]; [first] is the first of them. *)
Lemma delete_tail es1 d e e' es2 nd : elen e' = elen e + nd →
  tail_off 10 (es1 ++ e' :: es2) =
  tail_off 10 (es1 ++ d ++ e :: es2) + - zlen (flat d) + (if es2 is [] then 0 else nd).
Proof.
  intros Hel. rewrite app_assoc, !tail_off_app, len_flat_app, Z.add_assoc, tail_off_shift. destruct es2 as [|e2 es2]; [simpl; lia|].
  rewrite !tail_off_cons, Hel, Z.add_assoc, !tail_off_shift. lia.
Qed.

Lemma end_tail es1 : 10 + zlen (flat es1) - end_len 0 es1 = tail_off 10 es1.
Proof.
  destruct (decide (es1 = [])) as [->|Hne]; [done|]. destruct (exists_last Hne) as (es & e & ->).
  rewrite end_len_snoc, tail_off_snoc, len_flat_app, len_flat_cons. simpl. lia.
Qed.

Section del.
Context (n : Z) (es1 : list zent) (e0 : zent) (s0 : sds) (d : list zent) (sd : list sds) (num : nat).
Context (He0 : ent_rep e0 s0) (Hd : Forall2 ent_rep d sd).
Context (Hprv : z_prv e0 = end_len 0 es1).
Notation D := (e0 :: d).
Notation n' := (add_length n (- zlen D)).

Lemma delete_end :
  take num D = D → len_ok n (length (es1 ++ D)) → 11 + zlen (flat (es1 ++ D)) < 2 ^ 32 →
  __ziplistDelete junk (zlist (tail_off 10 (es1 ++ D)) n (es1 ++ D)) (10 + zlen (flat es1)) num =
  Some (zlist (tail_off 10 es1) n' es1).
Proof.
  intros Htake Hn Hlen. set (t := tail_off 10 (es1 ++ D)). unfold __ziplistDelete.
  destruct (in_entry t n es1 d e0 s0 _ He0 eq_refl) as (z & -> & _ & Hz1 & _ & Hz2). obind.
  rewrite (delete_loop_spec t n es1 D (s0 :: sd)), Htake by (by constructor). obind. rewrite Hz1, Hz2, Hprv.
  assert (10 + zlen (flat (es1 ++ D)) - (10 + zlen (flat es1)) = zlen (flat D)) as -> by (rewrite len_flat_app; lia).
  pose proof (elen_nonneg e0). rewrite (proj2 (Z.gtb_lt _ _)) by (rewrite len_flat_cons; lia).
  rewrite in_end by done. obind. cbn [negb Z.eqb ZIP_END Pos.eqb]. rewrite zlist_set_tail, end_tail. obind.
  rewrite zlist_bytes by done. obind.
  replace (11 + _ - _ + 0) with (11 + zlen (flat es1)) by (rewrite len_flat_app; lia).
  unfold zlist at 1. rewrite flat_app, <- app_assoc, resize_shrink; [|rewrite length_app; simpl; lia|rewrite len_flat_app in Hlen; lia].
  obind. cbn [negb Z.eqb]. unfold u32. rewrite Z.mod_small.
  - change (hdr _ _ n ++ flat es1 ++ [ZIP_END]) with (zlist (tail_off 10 es1) n es1). by rewrite (incr_length _ _ es1 _ _ Hn).
  - pose proof (tail_off_range 10 es1). rewrite len_flat_app in Hlen. lia.
Qed.
(** The steps when an entry [e] follows. *)
Lemma delete_steps e s es2 ss2 :
  ent_rep e s → Forall2 ent_rep es2 ss2 →
  let all := es1 ++ D ++ e :: es2 in
  let t := tail_off 10 all in
  let e' := mk_entry (end_len 0 es1) (z_body e) in
  let nd := psize e' - psize e in
  let p := 10 + zlen (flat es1) in
  let q := p + zlen (flat D) - nd in
  let curlen := 11 + zlen (flat all) in
  ent_rep e' s → curlen < 2 ^ 32 →
  ∃ zl1 zl2 zl3,
    store (zlist t n all) q (zipStorePrevEntryLength (end_len 0 es1)) = Some zl1 ∧
    shift_tail_offset zl1 q (- zlen (flat D)) nd = Some zl2 ∧ ZIPLIST_BYTES zl2 = Some curlen ∧
    memmove zl2 p q (curlen - q - 1) = Some zl3 ∧ ZIPLIST_BYTES zl3 = Some curlen ∧
    ziplistResize junk zl3 (curlen - zlen (flat D) + nd) = Some (zlist (tail_off 10 (es1 ++ e' :: es2)) n (es1 ++ e' :: es2)).
Proof.
  intros He Hes all t e' nd p q curlen He' Hlen.
  assert (prev_length_size (end_len 0 es1) - psize e = nd) as Hnd by (subst nd e'; by rewrite mk_psize).
  assert (elen e' = elen e + nd) as Hel by (rewrite !elen_eq; change (z_body e') with (z_body e); subst nd; lia).
  assert (nd < zlen (flat D)) as Hroom by (rewrite <- Hnd; by apply (delete_room _ e0 d s0)).
  destruct (delete_field t n es1 D e es2 e' nd q eq_refl ltac:(subst nd; lia) Hroom eq_refl) as (f & Hf & Hst).
  assert (zlen (flat all) = zlen (flat (es1 ++ f :: e' :: es2))) as Hsame.
  { subst all. rewrite !len_flat_app, !(len_flat_cons f), !(len_flat_cons e), !(len_flat_cons e'). lia. }
  pose proof (delete_tail es1 D e e' es2 nd Hel) as Htail. change (tail_off 10 (es1 ++ D ++ e :: es2)) with t in Htail.
  assert (0 ≤ tail_off 10 (es1 ++ e' :: es2) < 2 ^ 32) as Ht'.
  { pose proof (tail_off_range 10 (es1 ++ e' :: es2)). pose proof (elen_nonneg f).
    assert (zlen (flat (es1 ++ e' :: es2)) = zlen (flat all) - elen f) by (rewrite Hsame, !len_flat_app, (len_flat_cons f); lia). lia. }
  assert (0 ≤ t < 2 ^ 32) as Ht by (pose proof (tail_off_range 10 all); subst t; lia).
  assert (q = 10 + zlen (flat (es1 ++ [f]))) as Hq by (rewrite len_flat_app, (len_flat_cons f); simpl; lia).
  pose proof (shift_tail_spec n (es1 ++ [f]) e' es2 s ss2 t _ (- zlen (flat D)) nd He' Hes Hq) as Hshift.
  rewrite <- Htail, <- app_assoc in Hshift. specialize (Hshift Ht Ht').
  destruct (delete_move (tail_off 10 (es1 ++ e' :: es2)) n es1 f (e' :: es2) p q curlen eq_refl) as (zl3 & Hm1 & Hm2 & Hm3);
    [subst q; lia|subst curlen; lia|done|].
  unfold e' in Hst at 1. rewrite mk_pfield in Hst. do 3 eexists. split; [exact Hst|]. split; [exact Hshift|]. split.
  { subst curlen. rewrite Hsame. apply zlist_bytes. lia. }
  split; [exact Hm1|]. split; [exact Hm2|]. rewrite <- Hm3. f_equal. lia.
Qed.

Lemma delete_mid e s es2 ss2 :
  ent_rep e s → Forall2 ent_rep es2 ss2 →
  let all := es1 ++ D ++ e :: es2 in
  let e' := mk_entry (end_len 0 es1) (z_body e) in
  let new := es1 ++ e' :: (if negb (psize e' - psize e =? 0) then cascade (elen e') es2 else es2) in
  take num (D ++ e :: es2) = D → len_ok n (length all) → 11 + zlen (flat all) < 2 ^ 32 →
  ent_rep e' s → 11 + zlen (flat new) < 2 ^ 32 →
  __ziplistDelete junk (zlist (tail_off 10 all) n all) (10 + zlen (flat es1)) num = Some (zlist (tail_off 10 new) n' new).
Proof.
  intros He Hes all e' new Htake Hn Hlen He' Hnew. set (t := tail_off 10 all).
  destruct (delete_steps e s es2 ss2 He Hes He' Hlen) as (zl1 & zl2 & zl3 & H1 & H2 & H3 & H4 & H5 & H6).
  fold all t e' in H1, H2, H3, H4, H5, H6. set (nd := psize e' - psize e) in *.
  unfold __ziplistDelete. destruct (in_entry t n es1 (d ++ e :: es2) e0 s0 _ He0 eq_refl) as (z & Hz & _ & Hz1 & _ & Hz2).
  change (es1 ++ e0 :: d ++ e :: es2) with all in Hz. rewrite Hz. obind.
  pose proof (delete_loop_spec t n es1 (D ++ e :: es2) ((s0 :: sd) ++ s :: ss2) num 0) as Hloop. fold all in Hloop.
  rewrite Hloop, Htake by (apply Forall2_app; by constructor). obind. rewrite Hz1, Hz2, Hprv.
  assert (10 + zlen (flat (es1 ++ D)) = 10 + zlen (flat es1) + zlen (flat D)) as Hq by (rewrite len_flat_app; lia).
  pose proof (elen_nonneg e0). rewrite (proj2 (Z.gtb_lt _ 0)) by (rewrite Hq, len_flat_cons; lia).
  assert (all = (es1 ++ D) ++ e :: es2) as Hall by (subst all; by rewrite <- app_assoc).
  destruct (in_first t n (es1 ++ D) es2 e s _ He eq_refl) as (b & Hb & Hb'). rewrite <- Hall in Hb. rewrite Hb. obind. rewrite Hb'.
  pose proof (in_byte_diff t n (es1 ++ D) es2 e s _ He eq_refl (end_len 0 es1)) as Hdiff. rewrite <- Hall in Hdiff.
  simpl negb. cbv iota. rewrite Hdiff. obind.
  replace (prev_length_size _ - psize e) with nd by (subst nd e'; by rewrite mk_psize).
  rewrite Hq. replace (10 + _ + _ - (10 + zlen (flat es1))) with (zlen (flat D)) by lia.
  rewrite H1. obind. rewrite H2. obind. rewrite H3. obind. rewrite H4. obind. rewrite H5. obind. rewrite H6. obind.
  rewrite (incr_length _ _ _ _ _ Hn), Z.add_0_l. obind. subst new. destruct (negb _); [|done].
  by apply cascade_spec with s ss2.
Qed.
End del.
End delete.

(** [__ziplistDelete] of [d], the entries that [num] covers. *)
Lemma delete_spec junk n es1 d es2 ss1 sd ss2 num :
  block_rep n (es1 ++ d ++ es2) (ss1 ++ sd ++ ss2) → Forall2 ent_rep es1 ss1 → Forall2 ent_rep d sd → Forall2 ent_rep es2 ss2 →
  d ≠ [] → take num (d ++ es2) = d → weight (ss1 ++ ss2) < 2 ^ 32 →
  ∃ rest n',
    __ziplistDelete junk (zlist (tail_off 10 (es1 ++ d ++ es2)) n (es1 ++ d ++ es2)) (10 + zlen (flat es1)) num =
      Some (zlist (tail_off 10 (es1 ++ rest)) n' (es1 ++ rest)) ∧
    block_rep n' (es1 ++ rest) (ss1 ++ ss2) ∧ Forall2 ent_rep rest ss2.
Proof.
  intros (Hl & Hes & Hn & Hlen) Hes1 Hd Hes2 Hne Htake Hw. destruct Hd as [|e0 s0 d sd He0 Hd]; [done|].
  pose proof Hl as (Hl1 & Hprv & Hl3)%linked_app. fold (linked (elen e0) (d ++ es2)) in Hl3. apply linked_app in Hl3 as [_ Hl3].
  assert (∀ rest, Forall2 holds rest ss2 → 11 + zlen (flat (es1 ++ rest)) < 2 ^ 32) as Hbound.
  { intros rest Hr. pose proof (len_flat_weight (es1 ++ rest) (ss1 ++ ss2)) as H. specialize (H ltac:(by apply Forall2_app; [apply ent_rep_holds|])). lia. }
  assert (∀ rest, Forall2 ent_rep rest ss2 → linked (end_len 0 es1) rest →
    block_rep (add_length n (- zlen (e0 :: d))) (es1 ++ rest) (ss1 ++ ss2)) as Hblock.
  { intros rest Hr Hlr. split; [by apply linked_app|]. split; [by apply Forall2_app|].
    split; [|by apply Hbound, ent_rep_holds]. apply (len_ok_add _ _ _ _ Hn); [|lia].
    rewrite !length_app. apply Forall2_length in Hr. apply Forall2_length in Hes2. lia. }
  destruct Hes2 as [|e s es2 ss2 He Hes2].
  - exists [], (add_length n (- zlen (e0 :: d))). rewrite !app_nil_r in *. split; [by eapply delete_end|].
    split; [|done]. specialize (Hblock []). rewrite app_nil_r in Hblock. by apply Hblock.
  - destruct Hl3 as [_ Hl3]. set (e' := mk_entry (end_len 0 es1) (z_body e)).
    set (rest := e' :: (if negb (psize e' - psize e =? 0) then cascade (elen e') es2 else es2)).
    pose proof (end_len_range es1). pose proof (Hbound (e :: es2) ltac:(apply ent_rep_holds; by constructor)) as Hb1.
    rewrite len_flat_app in Hb1.
    assert (ent_rep e' s) as He' by (apply mk_rep; [lia|apply He]).
    assert (Forall2 holds rest (s :: ss2)) as Hhold.
    { constructor; [apply He|]. destruct (negb _); [apply cascade_holds|]; by apply ent_rep_holds. }
    pose proof (Hbound rest Hhold) as Hb2. pose proof (elen_nonneg e').
    exists rest, (add_length n (- zlen (e0 :: d))). split; [by eapply delete_mid|].
    assert (Forall2 ent_rep rest (s :: ss2)) as Hr.
    { constructor; [done|]. rewrite len_flat_app in Hb2. subst rest. rewrite len_flat_cons in Hb2.
      destruct (negb _); [|done]. apply cascade_rep; [done|lia|lia]. }
    split; [|done]. apply Hblock; [done|]. split; [done|].
    destruct (Z.eqb_spec (psize e' - psize e) 0) as [Heq|]; simpl negb; cbv iota; [|by eapply cascade_linked].
    replace (elen e') with (elen e); [done|]. rewrite !elen_eq. change (z_body e') with (z_body e). lia.
Qed.

(** ** Merge *)

Section merge.
Context (junk : Z).

Lemma realloc_more (m : list Z) k : 0 ≤ k → ∃ T, zlen T = k ∧ zrealloc junk m (zlen m + k) = m ++ T.
Proof.
  intros Hk. unfold zrealloc. rewrite take_ge by lia. eexists. split; [|done]. rewrite length_replicate. lia.
Qed.

Lemma slice_tail t n es k : k = 1 + zlen (flat es) → slice (zlist t n es) 10 k = Some (flat es ++ [ZIP_END]).
Proof.
  intros ->. unfold zlist. rewrite <- (app_nil_r (flat es ++ [ZIP_END])) at 1. apply slice_mid; [done|].
  rewrite length_app. simpl. lia.
Qed.

Lemma slice_front t n es k : k = 10 + zlen (flat es) → slice (zlist t n es) 0 k = Some (hdr (11 + zlen (flat es)) t n ++ flat es).
Proof. intros ->. rewrite zlist_end. rewrite <- (app_nil_l ((_ ++ _) ++ _)). apply slice_mid; [done|]. rewrite length_app, length_hdr. lia. Qed.

(** The bytes of the two lists one after the other, whichever block is
    extended. *)
Lemma merge_bytes t1 t2 n1 n2 es1 es2 (append : bool) :
  let zl1 := zlist t1 n1 es1 in
  let zl2 := zlist t2 n2 es2 in
  let b1 := 11 + zlen (flat es1) in
  let b2 := 11 + zlen (flat es2) in
  ∃ b t n,
    (if append then
       let target := zrealloc junk zl1 (b1 + b2 - ZIPLIST_HEADER_SIZE - ZIPLIST_END_SIZE) in
       bs ← slice zl2 ZIPLIST_HEADER_SIZE (b2 - ZIPLIST_HEADER_SIZE);
       store target (b1 - ZIPLIST_END_SIZE) bs
     else
       let target := zrealloc junk zl2 (b1 + b2 - ZIPLIST_HEADER_SIZE - ZIPLIST_END_SIZE) in
       target ← memmove target (b1 - ZIPLIST_END_SIZE) ZIPLIST_HEADER_SIZE (b2 - ZIPLIST_HEADER_SIZE);
       bs ← slice zl1 0 (b1 - ZIPLIST_END_SIZE);
       store target 0 bs) = Some (hdr b t n ++ flat (es1 ++ es2) ++ [ZIP_END]).
Proof.
  intros zl1 zl2 b1 b2. unfold ZIPLIST_HEADER_SIZE, ZIPLIST_END_SIZE.
  exists b1, t1, n1. destruct append; cbv zeta.
  - destruct (realloc_more zl1 (zlen (flat es2))) as (T & HT & Heq); [lia|].
    replace (b1 + b2 - 10 - 1) with (zlen zl1 + zlen (flat es2)) by (subst zl1; rewrite len_zlist; lia). rewrite Heq.
    subst zl2. rewrite slice_tail by lia. obind. subst zl1. rewrite zlist_end, <- app_assoc, <- (app_nil_r ([ZIP_END] ++ T)), store_mid.
    + rewrite app_nil_r, flat_app. subst b1. by rewrite <- !app_assoc.
    + rewrite length_app, length_hdr. lia.
    + rewrite !length_app. simpl. lia.
  - destruct (realloc_more zl2 (zlen (flat es1))) as (T & HT & Heq); [lia|].
    replace (b1 + b2 - 10 - 1) with (zlen zl2 + zlen (flat es1)) by (subst zl2; rewrite len_zlist; lia). rewrite Heq.
    subst zl1. rewrite slice_front by lia. subst zl2. unfold zlist. rewrite <- app_assoc, <- (app_nil_r T).
    rewrite memmove_up; [|by rewrite length_hdr|rewrite length_app; simpl; lia|rewrite length_hdr; lia]. obind.
    rewrite <- (app_nil_l (hdr _ t2 _ ++ _)), !(app_assoc (hdr _ t2 _)), (store_mid []).
    + rewrite app_nil_r, flat_app. subst b1. by rewrite <- !app_assoc.
    + done.
    + rewrite !length_app, !length_hdr, length_take, !length_app. simpl. lia.
Qed.

Lemma len_ok_merge n1 n2 k1 k2 : len_ok n1 k1 → len_ok n2 k2 →
  let n := n1 + n2 in len_ok (if n <? UINT16_MAX then n else UINT16_MAX) (k1 + k2).
Proof. unfold len_ok, UINT16_MAX. intros H1 H2. simpl. destruct (Z.ltb_spec (n1 + n2) 65535); lia. Qed.

Lemma cascade_id cur es : linked cur es → cascade cur es = es.
Proof. destruct es as [|e es]; [done|]. intros [He _]. cbn [cascade]. by rewrite (proj2 (Z.eqb_eq _ _) He). Qed.

(** The seam is repaired from the last entry of the first list on. *)
Lemma merge_seam n es1 es2 ss1 ss2 :
  linked 0 es1 → linked 0 es2 → Forall2 ent_rep es1 ss1 → Forall2 ent_rep es2 ss2 → len_ok n (length (es1 ++ es2)) →
  weight (ss1 ++ ss2) < 2 ^ 32 →
  ∃ es, __ziplistCascadeUpdate junk (zlist (tail_off 10 (es1 ++ es2)) n (es1 ++ es2)) (tail_off 10 es1) =
    Some (zlist (tail_off 10 es) n es) ∧ block_rep n es (ss1 ++ ss2).
Proof.
  intros Hl1 Hl2 Hes1 Hes2 Hn Hw.
  assert (∀ es, Forall2 holds es (ss1 ++ ss2) → 11 + zlen (flat es) < 2 ^ 32) as Hbound
    by (intros es H%len_flat_weight; lia).
  destruct (decide (es1 = [])) as [->|Hne].
  - inversion Hes1; subst. simpl app in *. exists es2. pose proof (Hbound es2 (ent_rep_holds _ _ Hes2)) as Hlen.
    split; [|by split_and!]. destruct Hes2 as [|c s es2 ss2 Hc Hes2].
    + by unfold __ziplistCascadeUpdate.
    + destruct Hl2 as [_ Hl2]. pose proof (cascade_spec junk n [] c s es2 ss2 Hc Hes2) as H.
      rewrite (cascade_id _ _ Hl2) in H. by apply H.
  - destruct (exists_last Hne) as (pre & c & ->). rewrite <- !app_assoc in *. simpl app in *. rewrite tail_off_snoc.
    apply Forall2_app_inv_l in Hes1 as (spre & sc & Hpre & Hc & ->). inversion Hc as [|? s ? ? Hcs Hnil]; subst. inversion Hnil; subst.
    rewrite <- !app_assoc in *. simpl app in *.
    assert (11 + zlen (flat (pre ++ c :: cascade (elen c) es2)) < 2 ^ 32) as Hlen.
    { apply Hbound, Forall2_app; [by apply ent_rep_holds|]. constructor; [apply Hcs|]. by apply cascade_holds, ent_rep_holds. }
    exists (pre ++ c :: cascade (elen c) es2). split; [by eapply cascade_spec|]. split; [|split; [|split]].
    + apply linked_app in Hl1 as [Hp [Hcl _]]. apply linked_app. split; [done|]. split; [done|]. by eapply cascade_linked.
    + apply Forall2_app; [done|]. constructor; [done|]. rewrite len_flat_app, len_flat_cons in Hlen. pose proof (elen_nonneg c).
      apply cascade_rep; [done|lia|lia].
    + rewrite length_app in *. simpl in *. by rewrite length_cascade.
    + done.
Qed.

(** [ziplistMerge] of two blocks; the second list is not empty unless the
    first one is. *)
Lemma merge_spec n1 n2 es1 es2 ss1 ss2 :
  block_rep n1 es1 ss1 → block_rep n2 es2 ss2 → weight (ss1 ++ ss2) < 2 ^ 32 → (es2 = [] → es1 = []) →
  ∃ es n, merge_target junk (zlist (tail_off 10 es1) n1 es1) (zlist (tail_off 10 es2) n2 es2) =
    Some (n2 <=? n1, zlist (tail_off 10 es) n es) ∧ block_rep n es (ss1 ++ ss2).
Proof.
  intros (Hl1 & Hes1 & Hn1 & Hlen1) (Hl2 & Hes2 & Hn2 & Hlen2) Hw Hne.
  set (n := if n1 + n2 <? UINT16_MAX then n1 + n2 else UINT16_MAX).
  assert (len_ok n (length (es1 ++ es2))) as Hn by (rewrite length_app; by apply len_ok_merge).
  pose proof (len_flat_weight (es1 ++ es2) (ss1 ++ ss2) ltac:(by apply ent_rep_holds, Forall2_app)) as Hlen.
  destruct (merge_seam n es1 es2 ss1 ss2 Hl1 Hl2 Hes1 Hes2 Hn Hw) as (es & Hcas & Hes).
  assert (11 + zlen (flat es1) - ZIPLIST_END_SIZE + (tail_off 10 es2 - ZIPLIST_HEADER_SIZE) = tail_off 10 (es1 ++ es2)) as Htail.
  { unfold ZIPLIST_END_SIZE, ZIPLIST_HEADER_SIZE. destruct es2 as [|e es2].
    - rewrite Hne by done. done.
    - rewrite tail_off_app, tail_off_shift. lia. }
  assert (∀ t m es k, len_ok m k → ZIPLIST_LENGTH (zlist t m es) = Some m) as Hlenok
    by (intros t m es' k Hm; apply hdr_length; unfold len_ok, UINT16_MAX in Hm; lia).
  exists es, n. split; [|done]. unfold merge_target.
  rewrite !zlist_bytes by done. obind. rewrite (Hlenok _ _ _ _ Hn1), (Hlenok _ _ _ _ Hn2). obind. rewrite !zlist_tail by done. obind.
  destruct (merge_bytes (tail_off 10 es1) (tail_off 10 es2) n1 n2 es1 es2 (n2 <=? n1)) as (b & t & k & Hm).
  cbv zeta in Hm. cbv zeta. rewrite Hm. obind. fold n. rewrite Htail, hdr_set_bytes. obind. rewrite hdr_set_length. obind. rewrite hdr_set_tail. obind.
  pose proof (tail_off_range 10 (es1 ++ es2)). rewrite len_flat_app in *. unfold u32, ZIPLIST_HEADER_SIZE, ZIPLIST_END_SIZE. rewrite !Z.mod_small by lia.
  replace (hdr _ _ n ++ _) with (zlist (tail_off 10 (es1 ++ es2)) n (es1 ++ es2)); [by rewrite Hcas|].
  unfold zlist. do 3 f_equal. rewrite len_flat_app. lia.
Qed.
End merge.
