(* ===== verification/ZiplistList.v ===== *)
(** * Ziplists are lists of strings

    A pointer into a block is a cursor: [zl_at zl ss i p] says that [zl] holds
    the strings [ss] and that [p] is the address of the entry number [i], or of
    the end.  Every function of the interface is described on cursors. *)

From S2P Require Import Prelude.
From S2P Require Import Sds.
From S2P Require Import Ziplist.
From S2P Require Import ZiplistRep.
From S2P Require Import ZiplistCascade.
From S2P Require Import ZiplistInsert.
From S2P Require Import ZiplistDelete.

#[local] Open Scope Z_scope.

Definition zl_at (zl : list Z) (ss : list sds) (i : nat) (p : Z) : Prop :=
  ∃ es n, zl = zlist (tail_off 10 es) n es ∧ block_rep n es ss ∧ p = 10 + zlen (flat (take i es)) ∧ (i ≤ length ss)%nat.

Lemma zl_at_rep zl ss i p : zl_at zl ss i p → zl_rep zl ss.
Proof. intros (es & n & -> & H & _). by exists es, n. Qed.

(** The entry at a cursor. *)
Lemma zl_at_entry zl ss i p s : zl_at zl ss i p → ss !! i = Some s →
  ∃ es1 e es2 n, zl = zlist (tail_off 10 (es1 ++ e :: es2)) n (es1 ++ e :: es2) ∧ block_rep n (es1 ++ e :: es2) ss ∧
    ent_rep e s ∧ length es1 = i ∧ p = 10 + zlen (flat es1) ∧ Forall2 ent_rep es1 (take i ss) ∧ Forall2 ent_rep es2 (drop (S i) ss).
Proof.
  intros (es & n & -> & Hb & -> & Hi) Hs. pose proof Hb as (_ & Hes & _).
  destruct (Forall2_lookup_r _ _ _ _ _ Hes Hs) as (e & He & Hes'). 
  exists (take i es), e, (drop (S i) es), n. rewrite take_drop_middle by done.
  split_and!; try done; [|by apply Forall2_take|by apply Forall2_drop].
  apply length_take_le. apply lookup_lt_Some in He. lia.
Qed.

(** The cursor after the last entry. *)
Lemma zl_at_end zl ss p : zl_at zl ss (length ss) p → zbyte zl p = Some ZIP_END.
Proof.
  intros (es & n & -> & (_ & Hes & _) & -> & _). apply Forall2_length in Hes. apply in_end.
  by rewrite take_ge by lia.
Qed.

Lemma zl_at_head zl ss : zl_rep zl ss → zl_at zl ss 0 ZIPLIST_ENTRY_HEAD.
Proof. intros (es & n & -> & Hb). exists es, n. split_and!; try done. lia. Qed.

Lemma zl_at_byte zl ss i p : zl_at zl ss i p → ∃ b, zbyte zl p = Some b ∧ (b =? ZIP_END) = bool_decide (i = length ss).
Proof.
  intros Hat. destruct (decide (i = length ss)) as [->|Hne].
  - rewrite (zl_at_end _ _ _ Hat), bool_decide_eq_true_2 by done. by eexists.
  - assert (i < length ss)%nat as [s Hs]%lookup_lt_is_Some by (destruct Hat as (? & ? & _ & _ & _ & ?); lia).
    destruct (zl_at_entry _ _ _ _ _ Hat Hs) as (es1 & e & es2 & n & -> & _ & He & _ & -> & _).
    destruct (in_first (tail_off 10 (es1 ++ e :: es2)) n es1 es2 e s _ He eq_refl) as (b & -> & Hb).
    exists b. split; [done|]. rewrite bool_decide_eq_false_2 by done. done.
Qed.

(** One entry further. *)
Lemma zl_at_raw zl ss i p : zl_at zl ss i p → (i < length ss)%nat →
  ∃ l, zipRawEntryLength zl p = Some l ∧ zl_at zl ss (S i) (p + l).
Proof.
  intros Hat [s Hs]%lookup_lt_is_Some.
  destruct (zl_at_entry _ _ _ _ _ Hat Hs) as (es1 & e & es2 & n & -> & Hb & He & Hlen & -> & _).
  exists (elen e). split; [by apply in_raw_length with s|]. exists (es1 ++ e :: es2), n. split_and!; try done.
  - rewrite (cons_middle e), app_assoc, take_app_length' by (rewrite length_app; simpl; lia).
    rewrite len_flat_app, len_flat_cons. simpl. lia.
  - apply lookup_lt_Some in Hs. lia.
Qed.

Lemma ziplistNext_spec zl ss i p : zl_at zl ss i p →
  ∃ r, ziplistNext zl p = Some r ∧
    if decide (S i < length ss)%nat then ∃ q, r = Some q ∧ zl_at zl ss (S i) q else r = None.
Proof.
  intros Hat. unfold ziplistNext. destruct (zl_at_byte _ _ _ _ Hat) as (b & -> & Hb). obind. rewrite Hb.
  destruct (decide (i = length ss)) as [Hi|Hi].
  - rewrite bool_decide_eq_true_2 by done. exists None. split; [done|]. rewrite decide_False by lia. done.
  - rewrite bool_decide_eq_false_2 by done.
    assert (i < length ss)%nat as Hlt by (destruct Hat as (? & ? & _ & _ & _ & ?); lia).
    destruct (zl_at_raw _ _ _ _ Hat Hlt) as (l & -> & Hat'). obind.
    destruct (zl_at_byte _ _ _ _ Hat') as (b' & -> & Hb'). obind. rewrite Hb'. eexists. split; [done|].
    destruct (decide (S i < length ss)%nat).
    + rewrite bool_decide_eq_false_2 by lia. by eexists.
    + by rewrite bool_decide_eq_true_2 by lia.
Qed.

(** One entry back. *)
Lemma zl_at_prev zl ss i p : zl_at zl ss (S i) p → (S i < length ss)%nat →
  ∃ l l', ZIP_DECODE_PREVLEN zl p = Some (l, l') ∧ 0 < l' ∧ zl_at zl ss i (p - l').
Proof.
  intros Hat [s Hs]%lookup_lt_is_Some.
  destruct (zl_at_entry _ _ _ _ _ Hat Hs) as (es1 & e & es2 & n & -> & Hb & He & Hlen & -> & _).
  exists (psize e), (z_prv e). split; [by apply in_prevlen with s|].
  assert (es1 ≠ []) as Hne by (intros ->; simpl in Hlen; lia).
  destruct (exists_last Hne) as (es0 & e0 & ->). pose proof Hb as (Hl & _). apply linked_app in Hl as [_ [Hl _]].
  rewrite end_len_snoc in Hl. rewrite Hl. split; [apply elen_nonneg|].
  exists ((es0 ++ [e0]) ++ e :: es2), n. split_and!; try done.
  - rewrite length_app in Hlen. simpl in Hlen. rewrite <- app_assoc, take_app_length' by lia.
    rewrite len_flat_app, len_flat_cons. simpl. lia.
  - apply lookup_lt_Some in Hs. lia.
Qed.

Lemma zl_at_first zl ss p : zl_at zl ss 0 p → ss ≠ [] → ∃ l, ZIP_DECODE_PREVLEN zl p = Some (l, 0).
Proof.
  intros Hat Hne. destruct ss as [|s ss]; [done|].
  destruct (zl_at_entry _ _ _ _ s Hat eq_refl) as (es1 & e & es2 & n & -> & Hb & He & Hlen & -> & _).
  destruct es1; [|done]. exists (psize e). pose proof Hb as ([Hl _] & _). rewrite <- Hl. by apply (in_prevlen _ _ []) with s.
Qed.

(** The last entry, or the end of an empty list. *)
Lemma zl_at_tail zl ss : zl_rep zl ss → ∃ p, ZIPLIST_ENTRY_TAIL zl = Some p ∧ zl_at zl ss (pred (length ss)) p.
Proof.
  intros (es & n & -> & Hb). pose proof Hb as (_ & Hes & _ & Hlen). unfold ZIPLIST_ENTRY_TAIL. rewrite zlist_tail by done.
  eexists. split; [done|]. exists es, n. split_and!; try done; [|lia]. apply Forall2_length in Hes.
  destruct (decide (es = [])) as [->|Hne]; [by rewrite take_nil|]. destruct (exists_last Hne) as (es0 & e & ->).
  rewrite tail_off_snoc. rewrite length_app in Hes. simpl in Hes. by rewrite take_app_length' by lia.
Qed.

Lemma zl_at_last zl ss : zl_rep zl ss → ∃ p, ZIPLIST_ENTRY_END zl = Some p ∧ zl_at zl ss (length ss) p.
Proof.
  intros (es & n & -> & Hb). pose proof Hb as (_ & Hes & _ & Hlen). unfold ZIPLIST_ENTRY_END. rewrite zlist_bytes by done. obind.
  eexists. split; [done|]. exists es, n. apply Forall2_length in Hes. split_and!; try done. rewrite take_ge by lia. lia.
Qed.

Lemma ziplistPrev_spec zl ss i p : zl_at zl ss i p →
  ∃ r, ziplistPrev zl p = Some r ∧ match i with O => r = None | S j => ∃ q, r = Some q ∧ zl_at zl ss j q end.
Proof.
  intros Hat. unfold ziplistPrev. destruct (zl_at_byte _ _ _ _ Hat) as (b & -> & Hb). obind. rewrite Hb.
  pose proof (zl_at_rep _ _ _ _ Hat) as Hrep. destruct (decide (i = length ss)) as [->|Hne].
  - rewrite bool_decide_eq_true_2 by done. destruct (zl_at_tail _ _ Hrep) as (q & -> & Hq). obind.
    destruct (zl_at_byte _ _ _ _ Hq) as (b' & -> & Hb'). obind. rewrite Hb'. eexists. split; [done|]. destruct ss as [|s ss].
    + by rewrite bool_decide_eq_true_2.
    + rewrite bool_decide_eq_false_2 by (simpl; lia). by exists q.
  - rewrite bool_decide_eq_false_2 by done. destruct i as [|i].
    + destruct Hat as (es & n & -> & _ & -> & _). rewrite take_0. change (10 + zlen (flat [])) with ZIPLIST_ENTRY_HEAD.
      rewrite Z.eqb_refl. by eexists.
    + assert (S i < length ss)%nat as Hlt by (destruct Hat as (? & ? & _ & _ & _ & ?); lia).
      destruct (zl_at_prev _ _ _ _ Hat Hlt) as (l & l' & Hd & Hl' & Hat').
      destruct (zl_at_head _ _ Hrep) as (es & n & -> & Hb0 & _).
      assert ((p =? ZIPLIST_ENTRY_HEAD) = false) as ->.
      { apply Z.eqb_neq. destruct Hat' as (es' & n' & _ & _ & Hp' & _). unfold ZIPLIST_ENTRY_HEAD, ZIPLIST_HEADER_SIZE. lia. }
      rewrite Hd. obind. rewrite (proj2 (Z.gtb_lt _ _)) by done. eexists. split; [done|]. by eexists.
Qed.

(** ** Reading *)

Lemma ziplistGet_spec zl ss i p : zl_at zl ss i p →
  ∃ r, ziplistGet zl (Some p) = Some r ∧ match ss !! i with Some s => ∃ v, r = Some v ∧ value_is v s | None => r = None end.
Proof.
  intros Hat. destruct (ss !! i) as [s|] eqn:Hs.
  - destruct (zl_at_entry _ _ _ _ _ Hat Hs) as (es1 & e & es2 & n & -> & Hb & He & Hlen & -> & _).
    destruct (in_get (tail_off 10 (es1 ++ e :: es2)) n es1 es2 e s _ He eq_refl) as (v & Hv & Hvs). eexists. split; [done|]. by exists v.
  - apply lookup_ge_None in Hs. destruct (zl_at_byte _ _ _ _ Hat) as (b & Hb & Hb'). unfold ziplistGet. rewrite Hb. obind. rewrite Hb'.
    assert (i = length ss) as Hi by (destruct Hat as (? & ? & _ & _ & _ & ?); lia).
    rewrite bool_decide_eq_true_2 by done. by eexists.
Qed.

Lemma ziplistCompare_spec zl ss i p t : zl_at zl ss i p → ziplistCompare zl p t = Some (bool_decide (ss !! i = Some t)).
Proof.
  intros Hat. destruct (ss !! i) as [s|] eqn:Hs.
  - destruct (zl_at_entry _ _ _ _ _ Hat Hs) as (es1 & e & es2 & n & -> & Hb & He & Hlen & -> & _).
    rewrite (in_compare _ _ es1 es2 e s _ He eq_refl). f_equal. apply bool_decide_ext. naive_solver.
  - apply lookup_ge_None in Hs. destruct (zl_at_byte _ _ _ _ Hat) as (b & Hb & Hb'). unfold ziplistCompare. rewrite Hb. obind. rewrite Hb'.
    assert (i = length ss) as Hi by (destruct Hat as (? & ? & _ & _ & _ & ?); lia).
    rewrite bool_decide_eq_true_2 by done. by rewrite bool_decide_eq_false_2.
Qed.

Lemma zl_rep_length zl ss : zl_rep zl ss → (length ss < length zl)%nat.
Proof.
  intros (es & n & -> & _ & Hes & _). pose proof (len_flat_ge _ _ Hes). pose proof (len_zlist (tail_off 10 es) n es).
  apply Forall2_length in Hes. lia.
Qed.

(** The loops of [ziplistIndex]. *)
Lemma index_forward_spec fuel zl ss i p k :
  zl_at zl ss i p → (length ss - i < fuel)%nat →
  ∃ q r, index_forward fuel zl p (Z.of_nat k) = Some (q, r) ∧
    if decide (i + k < length ss)%nat then zl_at zl ss (i + k) q ∧ r = -1 else zl_at zl ss (length ss) q.
Proof.
  revert i p k. induction fuel as [|fuel IH]; intros i p k Hat Hf; [lia|]. cbn [index_forward].
  destruct (zl_at_byte _ _ _ _ Hat) as (b & -> & Hb). obind. rewrite Hb.
  destruct (decide (i = length ss)) as [->|Hne].
  - rewrite bool_decide_eq_true_2 by done. do 2 eexists. split; [done|]. by rewrite decide_False by lia.
  - rewrite bool_decide_eq_false_2 by done. assert (i < length ss)%nat as Hlt by (destruct Hat as (? & ? & _ & _ & _ & ?); lia).
    destruct k as [|k].
    + cbn [Z.of_nat Z.eqb]. do 2 eexists. split; [done|]. rewrite Nat.add_0_r, decide_True by done. done.
    + rewrite (proj2 (Z.eqb_neq _ _)) by lia. destruct (zl_at_raw _ _ _ _ Hat Hlt) as (l & -> & Hat'). obind.
      replace (Z.of_nat (S k) - 1) with (Z.of_nat k) by lia.
      destruct (IH (S i) (p + l) k Hat') as (q & r & Hq & Hr); [lia|]. exists q, r. split; [done|].
      replace (S i + k)%nat with (i + S k)%nat in Hr by lia. done.
Qed.

Lemma index_back_spec fuel zl ss i p k l l' :
  zl_at zl ss i p → (i < length ss)%nat → ZIP_DECODE_PREVLEN zl p = Some (l, l') → (i < fuel)%nat →
  ∃ q r, index_back fuel zl p l' (Z.of_nat k) = Some (q, r) ∧
    if decide (k ≤ i)%nat then zl_at zl ss (i - k) q ∧ r ≤ 0 else zl_at zl ss 0 q ∧ 0 < r.
Proof.
  revert i p k l l'. induction fuel as [|fuel IH]; intros i p k l l' Hat Hlt Hd Hf; [lia|]. cbn [index_back]. destruct i as [|i].
  - destruct (zl_at_first _ _ _ Hat) as (l0 & H0); [by destruct ss; [simpl in Hlt; lia|]|]. rewrite Hd in H0. injection H0 as -> ->.
    change (0 >? 0) with false. cbv iota. do 2 eexists. split; [done|]. destruct (decide (k ≤ 0)%nat) as [Hk|Hk].
    + replace k with 0%nat by lia. by split.
    + split; [done|lia].
  - destruct (zl_at_prev _ _ _ _ Hat Hlt) as (l0 & l1 & H0 & Hpos & Hat'). rewrite Hd in H0. injection H0 as -> ->.
    rewrite (proj2 (Z.gtb_lt _ _)) by done. destruct k as [|k].
    + cbn [Z.of_nat Z.eqb]. do 2 eexists. split; [done|]. rewrite decide_True by lia. by split.
    + rewrite (proj2 (Z.eqb_neq _ _)) by lia.
      assert (∃ m m', ZIP_DECODE_PREVLEN zl (p - l1) = Some (m, m')) as (m & m' & Hm).
      { destruct i as [|i]; [destruct (zl_at_first _ _ _ Hat') as (m & Hm); [by destruct ss; [simpl in Hlt; lia|]|eauto]|].
        destruct (zl_at_prev _ _ _ _ Hat') as (m & m' & Hm & _); [lia|eauto]. }
      rewrite Hm. obind. replace (Z.of_nat (S k) - 1) with (Z.of_nat k) by lia.
      destruct (IH i _ k m m' Hat') as (q & r & Hq & Hr); [lia|done|lia|]. exists q, r. split; [done|].
      destruct (decide (k ≤ i)%nat), (decide (S k ≤ S i)%nat); try lia; done.
Qed.

(** The entry that an index names in a list of [n]: a negative one counts from
    the end. *)
Definition list_index (n : nat) (j : Z) : option nat :=
  let k := if j <? 0 then Z.of_nat n + j else j in
  if (0 <=? k) && (k <? Z.of_nat n) then Some (Z.to_nat k) else None.

Lemma ziplistIndex_spec zl ss j : zl_rep zl ss → INT_MIN < j →
  ∃ r, ziplistIndex zl j = Some r ∧
    match list_index (length ss) j with Some i => ∃ p, r = Some p ∧ zl_at zl ss i p | None => r = None end.
Proof.
  intros Hrep Hj. pose proof (zl_rep_length _ _ Hrep) as Hlen. unfold ziplistIndex. rewrite (proj2 (Z.eqb_neq _ _)) by lia.
  unfold list_index. destruct (Z.ltb_spec j 0) as [Hneg|Hpos].
  - destruct (zl_at_tail _ _ Hrep) as (t & -> & Ht). obind. destruct (zl_at_byte _ _ _ _ Ht) as (b & Hb & Hb'). rewrite Hb. obind. rewrite Hb'.
    destruct (decide (ss = [])) as [->|Hne].
    { rewrite (proj2 (Z.leb_gt 0 _)) by (simpl; lia). simpl. rewrite Hb. obind. rewrite Hb'. by eexists. }
    assert (0 < length ss)%nat as H0 by (destruct ss; simpl; [done|lia]).
    rewrite bool_decide_eq_false_2 by lia. simpl negb. cbv iota.
    assert (∃ m m', ZIP_DECODE_PREVLEN zl t = Some (m, m')) as (m & m' & Hm).
    { destruct (zl_at_entry _ _ _ _ (default "" (ss !! pred (length ss))) Ht) as (es1 & e & es2 & n & -> & _ & He & _ & -> & _).
      - destruct (lookup_lt_is_Some_2 ss (pred (length ss))) as [x ->]; [lia|done].
      - exists (psize e), (z_prv e). eapply in_prevlen; done. }
    rewrite Hm. obind. replace (- j - 1) with (Z.of_nat (Z.to_nat (- j - 1))) by lia.
    destruct (index_back_spec (S (length zl)) zl ss _ t (Z.to_nat (- j - 1)) m m' Ht) as (q & r & -> & Hr); [lia|done|lia|]. obind.
    destruct (decide _) as [Hle|Hgt]; destruct Hr as [Hq Hr].
    + destruct (zl_at_byte _ _ _ _ Hq) as (bq & -> & Hbq). obind. rewrite Hbq. rewrite bool_decide_eq_false_2 by lia. simpl orb.
      destruct (Z.gtb_spec r 0); [lia|]. rewrite (proj2 (Z.leb_le _ _)), (proj2 (Z.ltb_lt _ _)) by lia. simpl.
      eexists. split; [done|]. eexists. split; [done|]. by replace (Z.to_nat (Z.of_nat (length ss) + j)) with (pred (length ss) - Z.to_nat (- j - 1))%nat by lia.
    + destruct (zl_at_byte _ _ _ _ Hq) as (bq & -> & Hbq). obind. rewrite Hbq. rewrite (proj2 (Z.gtb_lt r 0)), orb_true_r by done.
      rewrite (proj2 (Z.leb_gt _ _)) by lia. by eexists.
  - destruct (index_forward_spec (S (length zl)) zl ss 0 ZIPLIST_ENTRY_HEAD (Z.to_nat j)) as (q & r & Hq & Hr); [by apply zl_at_head|lia|].
    rewrite Z2Nat.id in Hq by done. rewrite Hq. obind. rewrite (proj2 (Z.leb_le 0 j)) by done. simpl.
    destruct (decide _) as [Hlt|Hge].
    + destruct Hr as [Hat ->]. destruct (zl_at_byte _ _ _ _ Hat) as (bq & -> & Hbq). obind. rewrite Hbq.
      rewrite bool_decide_eq_false_2 by lia. rewrite (proj2 (Z.ltb_lt _ _)) by lia. simpl. eexists. split; [done|]. by eexists.
    + destruct (zl_at_byte _ _ _ _ Hr) as (bq & -> & Hbq). obind. rewrite Hbq. rewrite bool_decide_eq_true_2 by done.
      rewrite (proj2 (Z.ltb_ge _ _)) by lia. by eexists.
Qed.

(** ** Search *)

(** The first of every [skip + 1] strings, after [cnt] more, that is [v]. *)
Fixpoint list_find (v : sds) (skip cnt : nat) (ss : list sds) : option nat :=
  match ss with
  | [] => None
  | s :: ss =>
      match cnt with
      | O => if decide (s = v) then Some O else S <$> list_find v skip skip ss
      | S cnt' => S <$> list_find v skip cnt' ss
      end
  end.

Definition cache_ok (v : sds) (vencoding vll : Z) : Prop :=
  vencoding = 0 ∨ (vencoding = UCHAR_MAX ∧ zipTryEncoding v = None) ∨ zipTryEncoding v = Some (vll, vencoding).

Lemma try_encoding_code v x e : zipTryEncoding v = Some (x, e) → e ≠ 0 ∧ e ≠ UCHAR_MAX.
Proof.
  intros (_ & _ & H)%try_encoding_fits. unfold UCHAR_MAX.
  destruct H as [[H ->]|[[_ ->]|[[_ ->]|[[_ ->]|[[_ ->]|[_ ->]]]]]]; [unfold ZIP_INT_IMM_MIN; lia|done..].
Qed.

Lemma find_equal_spec zl q e n s v vencoding vll :
  (if ZIP_IS_STR e then slice zl q n = Some (sds_bytes s) else ∃ x, zipLoadInteger zl q e = Some x ∧ int64 x ∧ s = fmt_d x) →
  cache_ok v vencoding vll →
  ∃ vencoding' vll', find_equal zl q e n v vencoding vll = Some (bool_decide (s = v), vencoding', vll') ∧ cache_ok v vencoding' vll'.
Proof.
  intros Hv Hc. unfold find_equal. destruct (ZIP_IS_STR e).
  - exists vencoding, vll. split; [|done]. rewrite Hv. apply slice_spec in Hv as (_ & _ & _ & _ & ->). rewrite length_sds_bytes.
    destruct (Z.eqb_spec (Z.of_nat (String.length s)) (Z.of_nat (String.length v))) as [_|Hne].
    + obind. do 3 f_equal. apply bool_decide_ext. split; [apply sds_bytes_inj|by intros ->].
    + rewrite bool_decide_eq_false_2; [done|congruence].
  - destruct Hv as (x & Hx & Hi & ->). rewrite Hx. obind.
    assert (∃ e' x', (if vencoding =? 0 then match zipTryEncoding v with Some (v, e) => (e, v) | None => (UCHAR_MAX, vll) end
      else (vencoding, vll)) = (e', x') ∧ e' ≠ 0 ∧ cache_ok v e' x') as (e' & x' & -> & He' & Hc').
    { destruct (Z.eqb_spec vencoding 0) as [->|Hne]; [|by exists vencoding, vll].
      destruct (zipTryEncoding v) as [[y ey]|] eqn:E; do 2 eexists; (split; [done|]).
      - split; [by apply try_encoding_code in E as [? _]|]. right. by right.
      - split; [done|]. right. by left. }
    exists e', x'. rewrite (proj2 (Z.eqb_neq _ _)) by done. destruct Hc' as [->|[[-> Hn]|Hs]]; [done| |].
    + cbn [negb Z.eqb UCHAR_MAX Pos.eqb]. rewrite bool_decide_eq_false_2; [split; [done|right; by left]|].
      intros <-. destruct (try_encoding_int x Hi). congruence.
    + destruct (try_encoding_code _ _ _ Hs) as [_ Hu]. rewrite (proj2 (Z.eqb_neq _ _)) by done. simpl negb. cbv iota.
      split; [|right; by right]. do 3 f_equal. apply try_encoding_fits in Hs as (_ & -> & _).
      destruct (Z.eqb_spec x x') as [->|Hne]; symmetry; [by apply bool_decide_eq_true_2|].
      apply bool_decide_eq_false_2. by intros ?%(inj fmt_d).
Qed.

Lemma zl_at_parts zl ss i p s : zl_at zl ss i p → ss !! i = Some s →
  ∃ ps e l n, ZIP_DECODE_PREVLENSIZE zl p = Some ps ∧ ZIP_DECODE_LENGTH zl (p + ps) = Some (e, l, n) ∧
    (if ZIP_IS_STR e then slice zl (p + ps + l) n = Some (sds_bytes s)
     else ∃ x, zipLoadInteger zl (p + ps + l) e = Some x ∧ int64 x ∧ s = fmt_d x) ∧ zl_at zl ss (S i) (p + ps + l + n).
Proof.
  intros Hat Hs. pose proof (lookup_lt_Some _ _ _ Hs) as Hlt.
  destruct (zl_at_raw _ _ _ _ Hat Hlt) as (rl & Hraw & Hat').
  destruct (zl_at_entry _ _ _ _ _ Hat Hs) as (es1 & e & es2 & k & -> & _ & He & _ & -> & _).
  set (zl := zlist _ k _) in *. unfold zipRawEntryLength in Hraw. apply bind_Some in Hraw as (ps & Hps & Hraw).
  apply bind_Some in Hraw as ([[en l] m] & Hd & [= <-]). exists ps, en, l, m. split_and!; [done|done| |].
  - pose proof (in_prevlen (tail_off 10 (es1 ++ e :: es2)) k es1 es2 e s _ He eq_refl) as Hpl. fold zl in Hpl.
    pose proof (in_prevlensize (tail_off 10 (es1 ++ e :: es2)) k es1 es2 e s _ He eq_refl) as Hpl'. fold zl in Hpl'.
    rewrite Hps in Hpl'. injection Hpl' as ->.
    assert (zipEntry zl (10 + zlen (flat es1)) = Some (mkZle (psize e) (z_prv e) l m (psize e + l) en (10 + zlen (flat es1)))) as Hz
      by (unfold zipEntry; rewrite Hpl; obind; by rewrite Hd).
    rewrite <- Z.add_assoc. subst zl. rewrite zlist_split in *.
    apply (at_value _ _ e s _ He) in Hz; [exact Hz|]. rewrite length_app, length_hdr. lia.
  - rewrite !Z.add_assoc in Hat'. done.
Qed.

Lemma find_loop_spec fuel zl ss i p v skip cnt vencoding vll :
  zl_at zl ss i p → (length ss - i < fuel)%nat → cache_ok v vencoding vll →
  ∃ r, find_loop fuel zl p v (Z.of_nat skip) (Z.of_nat cnt) vencoding vll = Some r ∧
    match list_find v skip cnt (drop i ss) with Some j => ∃ q, r = Some q ∧ zl_at zl ss (i + j) q | None => r = None end.
Proof.
  revert i p cnt vencoding vll. induction fuel as [|fuel IH]; intros i p cnt vencoding vll Hat Hf Hc; [lia|]. cbn [find_loop].
  destruct (zl_at_byte _ _ _ _ Hat) as (b & -> & Hb). obind. rewrite Hb.
  destruct (decide (i = length ss)) as [->|Hne].
  { rewrite bool_decide_eq_true_2, drop_all by done. by eexists. }
  rewrite bool_decide_eq_false_2 by done.
  assert (i < length ss)%nat as [s Hs]%lookup_lt_is_Some by (destruct Hat as (? & ? & _ & _ & _ & ?); lia).
  destruct (zl_at_parts _ _ _ _ _ Hat Hs) as (ps & e & l & m & -> & Hd & Hv & Hat'). obind. rewrite Hd. obind.
  rewrite (drop_S _ _ _ Hs). cbn [list_find]. apply lookup_lt_Some in Hs as Hlt.
  assert (∀ cnt' ve vl, cache_ok v ve vl → ∃ r, find_loop fuel zl (p + ps + l + m) v (Z.of_nat skip) (Z.of_nat cnt') ve vl = Some r ∧
    match S <$> list_find v skip cnt' (drop (S i) ss) with Some j => ∃ q, r = Some q ∧ zl_at zl ss (i + j) q | None => r = None end) as Hnext.
  { intros cnt' ve vl Hc'. destruct (IH (S i) _ cnt' ve vl Hat') as (r & Hr & Hm); [lia|done|]. exists r. split; [done|].
    destruct (list_find _ _ _ _) as [j|]; [|done]. simpl. replace (i + S j)%nat with (S i + j)%nat by lia. done. }
  destruct cnt as [|cnt].
  - cbn [Z.of_nat Z.eqb]. destruct (find_equal_spec _ _ _ _ _ _ _ _ Hv Hc) as (ve & vl & -> & Hc'). obind.
    destruct (decide (s = v)) as [->|Hsv].
    + rewrite bool_decide_eq_true_2 by done. eexists. split; [done|]. rewrite Nat.add_0_r. by eexists.
    + rewrite bool_decide_eq_false_2 by done. by apply Hnext.
  - rewrite (proj2 (Z.eqb_neq _ _)) by lia. replace (Z.of_nat (S cnt) - 1) with (Z.of_nat cnt) by lia. by apply Hnext.
Qed.

Lemma ziplistFind_spec zl ss i p v skip : zl_at zl ss i p →
  ∃ r, ziplistFind zl p v (Z.of_nat skip) = Some r ∧
    match list_find v skip 0 (drop i ss) with Some j => ∃ q, r = Some q ∧ zl_at zl ss (i + j) q | None => r = None end.
Proof.
  intros Hat. pose proof (zl_rep_length _ _ (zl_at_rep _ _ _ _ Hat)). apply (find_loop_spec _ _ _ _ _ _ _ 0); [done|lia|by left].
Qed.

(** ** Length *)

Lemma len_loop_spec fuel zl ss i p k : zl_at zl ss i p → (length ss - i < fuel)%nat →
  len_loop fuel zl p k = Some (k + Z.of_nat (length ss - i)).
Proof.
  revert i p k. induction fuel as [|fuel IH]; intros i p k Hat Hf; [lia|]. cbn [len_loop].
  destruct (zl_at_byte _ _ _ _ Hat) as (b & -> & Hb). obind. rewrite Hb.
  destruct (decide (i = length ss)) as [->|Hne].
  - rewrite bool_decide_eq_true_2 by done. f_equal. lia.
  - rewrite bool_decide_eq_false_2 by done. assert (i < length ss)%nat as Hlt by (destruct Hat as (? & ? & _ & _ & _ & ?); lia).
    destruct (zl_at_raw _ _ _ _ Hat Hlt) as (l & -> & Hat'). obind. rewrite (IH _ _ _ Hat') by lia. f_equal. lia.
Qed.

Lemma ziplistLen_spec zl ss : zl_rep zl ss → ∃ zl', ziplistLen zl = Some (zl', zlen ss) ∧ zl_rep zl' ss.
Proof.
  intros Hrep. pose proof (zl_rep_length _ _ Hrep) as Hlen. pose proof (zl_at_head _ _ Hrep) as Hat.
  unfold ziplistLen. destruct Hrep as (es & n & -> & Hb). pose proof Hb as (Hl & Hes & Hn & Hlt). apply Forall2_length in Hes as Hle.
  assert (ZIPLIST_LENGTH (zlist (tail_off 10 es) n es) = Some n) as -> by (apply hdr_length; unfold len_ok, UINT16_MAX in Hn; lia). obind.
  destruct (Z.ltb_spec n UINT16_MAX) as [Hlt'|Hge].
  - exists (zlist (tail_off 10 es) n es). destruct Hn as [->|[-> _]]; [lia|]. rewrite Hle. split; [done|]. by exists es, (zlen ss); rewrite <- Hle.
  - change ZIPLIST_HEADER_SIZE with ZIPLIST_ENTRY_HEAD. rewrite (len_loop_spec _ _ _ _ _ _ Hat) by lia. obind.
    rewrite Nat.sub_0_r, Z.add_0_l. destruct (Z.ltb_spec (zlen ss) UINT16_MAX) as [Hs|Hs].
    + unfold set_zl_length, zlist. pose proof (hdr_set_length (11 + zlen (flat es)) (tail_off 10 es) n (flat es ++ [ZIP_END]) (zlen ss)) as H.
      unfold set_zl_length in H. rewrite H. obind. eexists. split; [done|]. exists es, (zlen ss). split; [done|].
      split_and!; try done. right. by rewrite Hle.
    + eexists. split; [done|]. by exists es, n.
Qed.

(** ** Changes *)

Lemma weight_sub ss1 ss2 ss3 : weight (ss1 ++ ss3) ≤ weight (ss1 ++ ss2 ++ ss3).
Proof. rewrite !weight_app. pose proof (weight_ge ss2). lia. Qed.

Section changes.
Context (junk : Z).

Lemma ziplistNew_spec : ∃ zl, ziplistNew junk = Some zl ∧ zl_rep zl [].
Proof.
  eexists. split; [done|]. exists [], 0. split; [done|]. split; [done|]. split; [done|]. split; [by right|done].
Qed.

Lemma insert_at zl ss i p s : zl_at zl ss i p → weight (take i ss ++ s :: drop i ss) < 2 ^ 32 →
  ∃ zl', __ziplistInsert junk zl p s = Some zl' ∧ zl_at zl' (take i ss ++ s :: drop i ss) i p.
Proof.
  intros (es & n & -> & Hb & -> & Hi) Hw. pose proof Hb as (_ & Hes & _).
  rewrite <- (take_drop i es), <- (take_drop i ss) in Hb.
  destruct (insert_spec junk n (take i es) (drop i es) (take i ss) (drop i ss) s (10 + zlen (flat (take i es))) Hb) as (x & rest & n' & Hins & Hb' & _);
    [by apply Forall2_take|by apply Forall2_drop|done|done|].
  rewrite take_drop in Hins. eexists. split; [exact Hins|]. exists (take i es ++ x :: rest), n'.
  apply Forall2_length in Hes. split_and!; try done.
  - rewrite take_app_length' by (rewrite length_take; lia). done.
  - rewrite length_app, length_take. simpl. lia.
Qed.

Lemma delete_at zl ss i p num : zl_at zl ss i p → (i < length ss)%nat → weight ss < 2 ^ 32 →
  ∃ zl', __ziplistDelete junk zl p num = Some zl' ∧ zl_at zl' (take i ss ++ drop (i + num) ss) i p.
Proof.
  intros (es & n & -> & Hb & -> & Hi) Hlt Hw. pose proof Hb as (_ & Hes & _). apply Forall2_length in Hes as Hlen.
  destruct num as [|num].
  - rewrite Nat.add_0_r, take_drop. eexists. split; [|by exists es, n].
    destruct (lookup_lt_is_Some_2 ss i Hlt) as [s Hs]. destruct (Forall2_lookup_r _ _ _ _ _ Hes Hs) as (e & He & Hes').
    rewrite <- (take_drop_middle es i e He) at 1 2. unfold __ziplistDelete.
    edestruct in_entry as (z & -> & _ & _ & _ & Hz); [done|done|]. obind. cbn [delete_loop]. obind. rewrite Hz, Z.sub_diag.
    by rewrite (take_drop_middle es i e He).
  - rewrite <- (take_drop i es), <- (take_drop (S num) (drop i es)), drop_drop in Hb.
    rewrite <- (take_drop i ss), <- (take_drop (S num) (drop i ss)), drop_drop in Hb.
    destruct (delete_spec junk n (take i es) (take (S num) (drop i es)) (drop (i + S num) es) (take i ss) (take (S num) (drop i ss))
      (drop (i + S num) ss) (S num) Hb) as (rest & n' & Hdel & Hb' & _);
      [by apply Forall2_take|by apply Forall2_take, Forall2_drop|by apply Forall2_drop| | | |].
    + destruct (drop i es) eqn:E; [|done]. apply (f_equal length) in E. rewrite length_drop in E. simpl in E. lia.
    + by rewrite <- drop_drop, take_drop.
    + pose proof (weight_sub (take i ss) (take (S num) (drop i ss)) (drop (i + S num) ss)) as Hle.
      rewrite <- drop_drop in Hle at 2. rewrite !take_drop in Hle. lia.
    + rewrite <- drop_drop, !take_drop in Hdel. eexists. split; [exact Hdel|]. exists (take i es ++ rest), n'. split_and!; try done.
      * by rewrite take_app_length' by (rewrite length_take; lia).
      * rewrite length_app, length_take. lia.
Qed.

Lemma ziplistPush_spec zl ss s w : zl_rep zl ss →
  let ss' := match w with ZIPLIST_HEAD => s :: ss | ZIPLIST_TAIL => ss ++ [s] end in
  weight ss' < 2 ^ 32 → ∃ zl', ziplistPush junk zl s w = Some zl' ∧ zl_rep zl' ss'.
Proof.
  intros Hrep ss' Hw. unfold ziplistPush. destruct w.
  - obind. destruct (insert_at _ _ _ _ s (zl_at_head _ _ Hrep)) as (zl' & -> & Hat); [done|]. by eauto using zl_at_rep.
  - destruct (zl_at_last _ _ Hrep) as (p & -> & Hat). obind.
    destruct (insert_at _ _ _ _ s Hat) as (zl' & -> & Hat'); [by rewrite firstn_all, drop_all|].
    rewrite firstn_all, drop_all in Hat'. by eauto using zl_at_rep.
Qed.

Lemma ziplistDeleteRange_spec zl ss j num : zl_rep zl ss → INT_MIN < j → weight ss < 2 ^ 32 →
  ∃ zl', ziplistDeleteRange junk zl j num = Some zl' ∧
    zl_rep zl' (match list_index (length ss) j with Some i => take i ss ++ drop (i + num) ss | None => ss end).
Proof.
  intros Hrep Hj Hw. unfold ziplistDeleteRange. destruct (ziplistIndex_spec _ _ _ Hrep Hj) as (r & -> & Hr). obind.
  destruct (list_index (length ss) j) as [i|] eqn:E.
  - destruct Hr as (p & -> & Hat). destruct (delete_at _ _ _ _ num Hat) as (zl' & -> & Hat'); [|done|by eauto using zl_at_rep].
    unfold list_index in E. revert E. destruct (_ && _) eqn:E'; intros [= <-]. lia.
  - subst r. by eexists.
Qed.
End changes.

(** ** Sequences of operations *)

(** The string a client makes of what [ziplistGet] returns. *)
Definition zl_show (v : zl_value) : sds :=
  match v with
  | ZlStr bs => bytes_sds bs
  | ZlInt z => fmt_d z
  end.

Lemma zl_show_is v s : value_is v s → zl_show v = s.
Proof. destruct v; simpl; [intros ->; apply bytes_sds_bytes|by intros [_ ->]]. Qed.

Inductive zl_op :=
  | ZPush (s : sds) (w : where_)
  | ZInsert (j : Z) (s : sds)
  | ZDeleteRange (j : Z) (num : nat)
  | ZGet (j : Z)
  | ZFindNext (v : sds) (skip : nat)
  | ZLen.

Inductive zl_out :=
  | ZDone
  | ZValue (s : option sds)
  | ZCount (n : Z).

(** The value at a pointer. *)
Definition get_string (zl : list Z) (p : option Z) : option zl_out :=
  v ← ziplistGet zl p; Some (ZValue (zl_show <$> v)).

(** An operation on the block.  [ZInsert] puts a string before the entry an
    index names, and [ZFindNext] is the search of a client that stores values
    after their keys: the entry after the one that is found. *)
Definition zl_step (junk : Z) (zl : list Z) (op : zl_op) : option (list Z * zl_out) :=
  match op with
  | ZPush s w => zl ← ziplistPush junk zl s w; Some (zl, ZDone)
  | ZInsert j s =>
      p ← ziplistIndex zl j;
      match p with
      | Some p => zl ← ziplistInsert junk zl p s; Some (zl, ZDone)
      | None => Some (zl, ZDone)
      end
  | ZDeleteRange j num => zl ← ziplistDeleteRange junk zl j num; Some (zl, ZDone)
  | ZGet j => p ← ziplistIndex zl j; o ← get_string zl p; Some (zl, o)
  | ZFindNext v skip =>
      p ← ziplistFind zl ZIPLIST_ENTRY_HEAD v (Z.of_nat skip);
      match p with
      | Some p => q ← ziplistNext zl p; o ← get_string zl q; Some (zl, o)
      | None => Some (zl, ZValue None)
      end
  | ZLen => '(zl, n) ← ziplistLen zl; Some (zl, ZCount n)
  end.

(** The same on a list of strings. *)
Definition list_step (ss : list sds) (op : zl_op) : list sds * zl_out :=
  match op with
  | ZPush s ZIPLIST_HEAD => (s :: ss, ZDone)
  | ZPush s ZIPLIST_TAIL => (ss ++ [s], ZDone)
  | ZInsert j s =>
      (match list_index (length ss) j with Some i => take i ss ++ s :: drop i ss | None => ss end, ZDone)
  | ZDeleteRange j num =>
      (match list_index (length ss) j with Some i => take i ss ++ drop (i + num) ss | None => ss end, ZDone)
  | ZGet j => (ss, ZValue (i ← list_index (length ss) j; ss !! i))
  | ZFindNext v skip => (ss, ZValue (i ← list_find v skip 0 ss; ss !! S i))
  | ZLen => (ss, ZCount (zlen ss))
  end.

Fixpoint zl_run (junk : Z) (zl : list Z) (ops : list zl_op) : option (list Z * list zl_out) :=
  match ops with
  | [] => Some (zl, [])
  | op :: ops => '(zl, o) ← zl_step junk zl op; '(zl, os) ← zl_run junk zl ops; Some (zl, o :: os)
  end.

Fixpoint list_run (ss : list sds) (ops : list zl_op) : list sds * list zl_out :=
  match ops with
  | [] => (ss, [])
  | op :: ops => let '(ss, o) := list_step ss op in let '(ss, os) := list_run ss ops in (ss, o :: os)
  end.

(** The bytes an operation may add. *)
Definition op_weight (op : zl_op) : Z :=
  match op with
  | ZPush s _ | ZInsert _ s => Z.of_nat (String.length s) + 13
  | _ => 0
  end.

Fixpoint ops_weight (ops : list zl_op) : Z :=
  match ops with
  | [] => 0
  | op :: ops => op_weight op + ops_weight ops
  end.

(** Indexes are C ints. *)
Definition op_int (op : zl_op) : Prop :=
  match op with
  | ZInsert j _ | ZDeleteRange j _ | ZGet j => INT_MIN < j ≤ INT_MAX
  | _ => True
  end.

Lemma weight_insert i s ss : weight (take i ss ++ s :: drop i ss) = weight ss + Z.of_nat (String.length s) + 13.
Proof. rewrite <- (take_drop i ss) at 3. rewrite !weight_app. simpl. lia. Qed.

Lemma weight_delete i num ss : weight (take i ss ++ drop (i + num) ss) ≤ weight ss.
Proof.
  pose proof (weight_sub (take i ss) (take num (drop i ss)) (drop (i + num) ss)) as Hle.
  rewrite <- drop_drop in Hle at 2. by rewrite !take_drop in Hle.
Qed.

Lemma list_step_weight ss op : weight (list_step ss op).1 ≤ weight ss + op_weight op.
Proof.
  destruct op as [s []|j s|j num|j|v skip|]; simpl; try lia.
  - rewrite weight_app. simpl. lia.
  - destruct (list_index _ _); [rewrite weight_insert|]; lia.
  - destruct (list_index _ _) as [i|]; [|lia]. pose proof (weight_delete i num ss). lia.
Qed.

Lemma ops_weight_nonneg ops : 0 ≤ ops_weight ops.
Proof. induction ops as [|[] ops IH]; simpl; lia. Qed.

Lemma get_string_at zl ss i p : zl_at zl ss i p → get_string zl (Some p) = Some (ZValue (ss !! i)).
Proof.
  intros Hat. unfold get_string. destruct (ziplistGet_spec _ _ _ _ Hat) as (r & -> & Hr). obind.
  destruct (ss !! i) as [s|]; [|by subst r]. destruct Hr as (v & -> & Hv). simpl. by rewrite (zl_show_is v s).
Qed.

Lemma zl_step_spec junk zl ss op : zl_rep zl ss → op_int op → weight ss + op_weight op < 2 ^ 32 →
  ∃ zl', zl_step junk zl op = Some (zl', (list_step ss op).2) ∧ zl_rep zl' (list_step ss op).1.
Proof.
  intros Hrep Hint Hw. pose proof (list_step_weight ss op) as Hle. destruct op as [s w|j s|j num|j|v skip|]; cbn [zl_step list_step fst snd op_weight op_int] in *.
  - destruct (ziplistPush_spec junk zl ss s w Hrep) as (zl' & -> & Hrep'); [destruct w; simpl in *; lia|]. obind. exists zl'. by destruct w.
  - destruct (ziplistIndex_spec _ _ j Hrep) as (r & -> & Hr); [lia|]. obind. destruct (list_index _ _) as [i|]; [|subst r; by eexists].
    destruct Hr as (p & -> & Hat). unfold ziplistInsert. destruct (insert_at junk _ _ _ _ s Hat) as (zl' & -> & Hat'); [lia|]. obind.
    eauto using zl_at_rep.
  - destruct (ziplistDeleteRange_spec junk zl ss j num Hrep) as (zl' & -> & Hrep'); [lia|lia|]. obind. by eexists.
  - destruct (ziplistIndex_spec _ _ j Hrep) as (r & -> & Hr); [lia|]. obind. exists zl. split; [|done].
    destruct (list_index _ _) as [i|]; [|by subst r]. destruct Hr as (p & -> & Hat). by rewrite (get_string_at _ _ _ _ Hat).
  - destruct (ziplistFind_spec _ _ _ _ v skip (zl_at_head _ _ Hrep)) as (r & -> & Hr). obind. exists zl. split; [|done]. rewrite drop_0 in Hr.
    destruct (list_find _ _ _ _) as [i|]; [|by subst r]. destruct Hr as (p & -> & Hat).
    destruct (ziplistNext_spec _ _ _ _ Hat) as (q & -> & Hq). obind. destruct (decide _) as [Hlt|Hge].
    + destruct Hq as (q' & -> & Hat'). by rewrite (get_string_at _ _ _ _ Hat').
    + subst q. simpl. by rewrite lookup_ge_None_2 by (simpl in *; lia).
  - destruct (ziplistLen_spec _ _ Hrep) as (zl' & -> & Hrep'). obind. by eexists.
Qed.

Lemma zl_run_spec junk zl ss ops : zl_rep zl ss → Forall op_int ops → weight ss + ops_weight ops < 2 ^ 32 →
  ∃ zl', zl_run junk zl ops = Some (zl', (list_run ss ops).2) ∧ zl_rep zl' (list_run ss ops).1.
Proof.
  intros Hrep Hops. revert zl ss Hrep. induction Hops as [|op ops Hop Hops IH]; intros zl ss Hrep Hw; [by eexists|].
  cbn [zl_run list_run ops_weight] in *. pose proof (ops_weight_nonneg ops). pose proof (list_step_weight ss op).
  destruct (zl_step_spec junk zl ss op Hrep Hop) as (zl1 & -> & Hrep1); [lia|]. obind.
  destruct (list_step ss op) as [ss1 o]. simpl in *. destruct (IH zl1 ss1 Hrep1) as (zl2 & -> & Hrep2); [lia|]. obind.
  exists zl2. by destruct (list_run ss1 ops).
Qed.

(** C22: A ziplist is a list of strings.  Any sequence of pushes at either end,
    insertions before an index, deletions of a range, reads by index from
    either end, searches with a stride and length queries, from [ziplistNew]
    on, runs without an access outside the block or a failed assertion, gives
    the results of the same operations on a list of strings, and ends in a
    well-formed block for that list.  Numbers come back as the strings that were
    stored, and the cascade of length fields is repaired, whatever bytes the
    allocator returns.  The strings together have less than 2^32 bytes, with 13
    for each entry. *)
Theorem ziplist_refines_list junk ops :
  Forall op_int ops → 11 + ops_weight ops < 2 ^ 32 →
  ∃ zl0 zl, ziplistNew junk = Some zl0 ∧ zl_run junk zl0 ops = Some (zl, (list_run [] ops).2) ∧ zl_rep zl (list_run [] ops).1.
Proof.
  intros Hops Hw. destruct (ziplistNew_spec junk) as (zl0 & Hnew & Hrep). exists zl0.
  destruct (zl_run_spec junk zl0 [] ops Hrep Hops) as (zl & Hrun & Hrep'); [done|]. by exists zl.
Qed.

Definition witness_ops : list zl_op :=
  [ZPush "7" ZIPLIST_TAIL; ZPush "abc" ZIPLIST_HEAD; ZInsert (-1) "-300"; ZGet (-1); ZFindNext "abc" 1; ZLen; ZDeleteRange 0 2; ZGet 0].

Lemma ziplist_refines_list_witness :
  ∃ zl0 zl, ziplistNew 0 = Some zl0 ∧
    zl_run 0 zl0 witness_ops = Some (zl, [ZDone; ZDone; ZDone; ZValue (Some "7"); ZValue (Some "-300"); ZCount 3; ZDone; ZValue (Some "7")]) ∧
    zl_rep zl ["7"].
Proof.
  apply (ziplist_refines_list 0 witness_ops).
  - repeat constructor; vm_compute; discriminate.
  - vm_compute. reflexivity.
Defined.

(** ** Merge *)

(** C23: [ziplistMerge] appends.  The block it returns, in place of the first
    list or of the second, whichever has more entries, holds the strings of the
    first list and then those of the second; the other pointer becomes NULL.
    The second list is not empty, unless both are. *)
Theorem ziplistMerge_appends junk zl1 zl2 ss1 ss2 :
  zl_rep zl1 ss1 → zl_rep zl2 ss2 → weight (ss1 ++ ss2) < 2 ^ 32 → (ss2 = [] → ss1 = []) →
  ∃ zl, zl_rep zl (ss1 ++ ss2) ∧
    (ziplistMerge junk false (Some zl1) (Some zl2) = Some (Some zl, Some zl, None) ∨
     ziplistMerge junk false (Some zl1) (Some zl2) = Some (Some zl, None, Some zl)).
Proof.
  intros (es1 & n1 & -> & Hb1) (es2 & n2 & -> & Hb2) Hw Hne.
  destruct (merge_spec junk n1 n2 es1 es2 ss1 ss2 Hb1 Hb2 Hw) as (es & n & Hm & Hb).
  { intros ->. destruct Hb1 as (_ & Hes1 & _), Hb2 as (_ & Hes2 & _). inversion Hes2; subst. rewrite Hne in Hes1 by done. by inversion Hes1. }
  eexists. split; [by exists es, n|]. unfold ziplistMerge. rewrite Hm. obind. destruct (n2 <=? n1); auto.
Qed.

Definition zl_of (ss : list sds) : list Z :=
  default [] (zl ← ziplistNew 0; foldl (λ zl s, zl ← zl; ziplistPush 0 zl s ZIPLIST_TAIL) (Some zl) ss).

Lemma zl_of_rep ss : weight ss < 2 ^ 32 → zl_rep (zl_of ss) ss.
Proof.
  intros Hw. unfold zl_of. destruct (ziplistNew_spec 0) as (zl0 & -> & Hrep). obind.
  assert (∀ ss1 zl, zl_rep zl ss1 → weight (ss1 ++ ss) < 2 ^ 32 →
    ∃ zl', foldl (λ zl s, zl ← zl; ziplistPush 0 zl s ZIPLIST_TAIL) (Some zl) ss = Some zl' ∧ zl_rep zl' (ss1 ++ ss)) as H.
  { clear. induction ss as [|s ss IH]; intros ss1 zl Hrep Hw; [rewrite app_nil_r; by eexists|].
    cbn [foldl]. obind. destruct (ziplistPush_spec 0 zl ss1 s ZIPLIST_TAIL Hrep) as (zl' & -> & Hrep').
    - rewrite weight_app in *. simpl in *. pose proof (weight_ge ss). lia.
    - destruct (IH (ss1 ++ [s]) zl' Hrep') as (zl2 & Hf & Hrep2); [by rewrite <- app_assoc|].
      exists zl2. by rewrite <- app_assoc in Hrep2. }
  destruct (H [] zl0 Hrep Hw) as (zl' & -> & Hrep'). done.
Qed.

Lemma ziplistMerge_appends_witness :
  ∃ zl, zl_rep zl ["a"; "1"; "b"] ∧
    (ziplistMerge 0 false (Some (zl_of ["a"; "1"])) (Some (zl_of ["b"])) = Some (Some zl, Some zl, None) ∨
     ziplistMerge 0 false (Some (zl_of ["a"; "1"])) (Some (zl_of ["b"])) = Some (Some zl, None, Some zl)).
Proof.
  apply (ziplistMerge_appends 0 (zl_of ["a"; "1"]) (zl_of ["b"]) ["a"; "1"] ["b"]); [by apply zl_of_rep|by apply zl_of_rep|done|done].
Defined.

(** A list merged with an empty one loses its last entry for readers that start
    from the end: the offset of the last entry is that of the end, and an
    element pushed after it records no entry before it. *)
Lemma merge_empty_second :
  (m ← ziplistMerge 0 false (Some (zl_of ["a"; "b"])) (Some (zl_of []));
   zl ← m.1.1;
   p ← ziplistIndex zl 1;
   q ← ziplistIndex zl (-1);
   zl' ← ziplistPush 0 zl "c" ZIPLIST_TAIL;
   r ← ziplistIndex zl' (-2);
   Some (p, q, r)) = Some (Some 13, None, None).
Proof. vm_compute. reflexivity. Qed.

(** The size of a block is kept in 32 bits.  A push that takes it to 4 GiB or
    more makes the block shorter, and the next access is outside it. *)
Lemma length_realloc junk (m : list Z) k : 0 ≤ k → zlen (zrealloc junk m k) = k.
Proof. intros Hk. unfold zrealloc. rewrite length_app, length_take, length_replicate. lia. Qed.

Lemma store_length (m : list Z) p bs m' : store m p bs = Some m' → length m' = length m.
Proof.
  unfold store. destruct (_ && _) eqn:E; [|done]. intros [= <-]. apply andb_prop in E as [E1%Z.leb_le E2%Z.leb_le].
  rewrite !length_app, length_take, length_drop. lia.
Qed.

Lemma ziplist_push_overflow junk zl ss s :
  zl_rep zl ss → zipTryEncoding s = None → 2 ^ 32 ≤ zlen zl + Z.of_nat (String.length s) → Z.of_nat (String.length s) < 2 ^ 32 - 10 →
  ziplistPush junk zl s ZIPLIST_TAIL = None.
Proof.
  intros (es & n & -> & (Hl & Hes & Hn & Hlt)) Hs Hbig Hlen. rewrite len_zlist in Hbig.
  unfold ziplistPush, ZIPLIST_ENTRY_END. rewrite zlist_bytes by done. obind. unfold __ziplistInsert. rewrite zlist_bytes by done. obind.
  destruct (insert_prevlen _ _) as [prev|]; [|done]. obind. unfold encode_value. rewrite Hs. obind.
  destruct (decode_str_head (Z.of_nat (String.length s)) []) as (_ & _ & Hh); [lia|].
  set (req := Z.of_nat (String.length s) + _ + _).
  assert (2 ^ 32 ≤ 11 + zlen (flat es) + req < 2 ^ 32 + 11 + zlen (flat es)) as Hreq.
  { subst req. destruct (prev_length_cases prev) as [-> | ->]; lia. }
  unfold insert_space. rewrite in_end by lia. obind. cbn [negb Z.eqb ZIP_END Pos.eqb]. obind. cbn [Z.eqb andb].
  rewrite (Z.add_0_r (11 + _ + req)). destruct (ziplistResize _ _ _) as [zl'|] eqn:Hres; [|done]. obind.
  assert (zlen zl' ≤ 10 + zlen (flat es)) as Hshort.
  { unfold ziplistResize, u32 in Hres. apply bind_Some in Hres as (zl1 & H1%store_length & H2%store_length).
    rewrite H2, H1, length_realloc by (apply Z.mod_pos_bound; lia).
    rewrite <- (Z_mod_plus_full _ (-1)), Z.mod_small by lia. lia. }
  unfold zbyte at 1. rewrite (proj2 (Z.ltb_ge _ _)) by lia. by rewrite lookup_ge_None_2 by lia.
Qed.

(** ** Traversal *)

(** The strings a client reads from a pointer on, with [ziplistNext] or
    [ziplistPrev]. *)
Fixpoint walk (step : list Z → Z → option (option Z)) (fuel : nat) (zl : list Z) (p : option Z) : option (list sds) :=
  match p, fuel with
  | None, _ => Some []
  | Some _, O => None
  | Some q, S fuel' =>
      v ← ziplistGet zl p;
      match v with
      | None => Some []
      | Some v => p' ← step zl q; ss ← walk step fuel' zl p'; Some (zl_show v :: ss)
      end
  end.

Lemma walk_next fuel zl ss i p : zl_at zl ss i p → (length ss - i < fuel)%nat → walk ziplistNext fuel zl (Some p) = Some (drop i ss).
Proof.
  revert i p. induction fuel as [|fuel IH]; intros i p Hat Hf; [lia|]. cbn [walk].
  destruct (ziplistGet_spec _ _ _ _ Hat) as (r & -> & Hr). obind. destruct (ss !! i) as [s|] eqn:Hs.
  - destruct Hr as (v & -> & Hv). rewrite (drop_S _ _ _ Hs). apply lookup_lt_Some in Hs.
    destruct (ziplistNext_spec _ _ _ _ Hat) as (q & -> & Hq). obind. rewrite (zl_show_is _ _ Hv). destruct (decide _) as [Hlt|Hge].
    + destruct Hq as (q' & -> & Hat'). rewrite (IH _ _ Hat') by lia. done.
    + subst q. rewrite drop_ge by lia. by destruct fuel.
  - subst r. apply lookup_ge_None in Hs. by rewrite drop_ge.
Qed.

Lemma walk_prev fuel zl ss i p : zl_at zl ss i p → (i < length ss)%nat → (i < fuel)%nat →
  walk ziplistPrev fuel zl (Some p) = Some (reverse (take (S i) ss)).
Proof.
  revert i p. induction fuel as [|fuel IH]; intros i p Hat Hlt Hf; [lia|]. cbn [walk].
  destruct (ziplistGet_spec _ _ _ _ Hat) as (r & -> & Hr). obind. destruct (lookup_lt_is_Some_2 ss i Hlt) as [s Hs]. rewrite Hs in Hr.
  destruct Hr as (v & -> & Hv). rewrite (take_S_r _ _ _ Hs), reverse_app.
  destruct (ziplistPrev_spec _ _ _ _ Hat) as (q & -> & Hq). obind. rewrite (zl_show_is _ _ Hv). destruct i as [|i].
  - subst q. by destruct fuel.
  - destruct Hq as (q' & -> & Hat'). rewrite (IH _ _ Hat') by lia. done.
Qed.

(** The two traversals agree.  From the first entry, [ziplistNext] reads
    the strings of the list in order, and from [ziplistIndex] with -1,
    [ziplistPrev] reads them in reverse: the length fields lead back to every
    entry. *)
Theorem ziplist_traversals zl ss :
  zl_rep zl ss →
  (p ← ziplistIndex zl 0; walk ziplistNext (S (length zl)) zl p) = Some ss ∧
  (p ← ziplistIndex zl (-1); walk ziplistPrev (S (length zl)) zl p) = Some (reverse ss).
Proof.
  intros Hrep. pose proof (zl_rep_length _ _ Hrep). split.
  - destruct (ziplistIndex_spec zl ss 0 Hrep) as (r & -> & Hr); [done|]. obind. unfold list_index in Hr. destruct ss as [|s ss].
    + simpl in Hr. by subst r.
    + simpl in Hr. destruct Hr as (p & -> & Hat). rewrite (walk_next _ _ _ _ _ Hat) by lia. done.
  - destruct (ziplistIndex_spec zl ss (-1) Hrep) as (r & -> & Hr); [done|]. obind. destruct (decide (ss = [])) as [->|Hne].
    + simpl in Hr. by subst r.
    + assert (0 < length ss)%nat by (destruct ss; [done|simpl; lia]).
      assert (list_index (length ss) (-1) = Some (pred (length ss))) as Hi.
      { unfold list_index. cbn [Z.ltb Z.compare]. rewrite (proj2 (Z.leb_le _ _)), (proj2 (Z.ltb_lt _ _)) by lia. simpl. f_equal. lia. }
      rewrite Hi in Hr. destruct Hr as (p & -> & Hat). rewrite (walk_prev _ _ _ _ _ Hat) by lia.
      by rewrite Nat.succ_pred_pos, firstn_all by lia.
Qed.

Lemma ziplist_traversals_witness :
  (p ← ziplistIndex (zl_of ["a"; "12"; "c"]) (-1); walk ziplistPrev (S (length (zl_of ["a"; "12"; "c"]))) (zl_of ["a"; "12"; "c"]) p) =
  Some ["c"; "12"; "a"].
Proof. apply (ziplist_traversals (zl_of ["a"; "12"; "c"]) ["a"; "12"; "c"]). by apply zl_of_rep. Defined.
