(* ===== verification/Hash.v ===== *)
(** * Hash objects (src/t_hash.c)

    A hash is kept as a ziplist of fields and values while it is small, and as a
    dictionary after that.  Every operation branches on the encoding; an
    addition that makes the ziplist too long converts it.

    The value of a field is what [ziplistGet] gives, a string or a number; the
    dictionary has strings.  The flags of [hashTypeSet] say who frees the
    arguments and are left out.  A failed assertion and [serverPanic] are
    [None]. *)

From Stdlib Require Import Ascii.
From S2P Require Import Prelude.
From S2P Require Import Sds.
From S2P Require Import Util.
From S2P Require Import Dict.
From S2P Require Import DictIter.
From S2P Require Import SipHash.
From S2P Require Import Ziplist.

#[local] Open Scope Z_scope.

(** [encoding] and [ptr] of the object. *)
Inductive hash_obj :=
  | OBJ_ENCODING_ZIPLIST (zl : list Z)
  | OBJ_ENCODING_HT (d : dict sds sds).

Definition hashDictType (seed : list Z) : dictType sds := mkType (dictSdsHash seed) dictSdsKeyCompare.

Definition HASHTABLE_MIN_FILL : Z := 10.

(** [htNeedsResize] (src/server.c). *)
Definition htNeedsResize {K V} (d : dict K V) : bool :=
  let size := dictSlots d in
  let used := dictSize d in
  (size >? DICT_HT_INITIAL_SIZE) && (used * 100 / size <? HASHTABLE_MIN_FILL).

(** [fptr] and [vptr], or the dictionary iterator and its entry. *)
Inductive hashTypeIterator :=
  | HashIterZiplist (fptr vptr : option Z)
  | HashIterHT (di : dictIterator) (de : option dloc).

Inductive hash_what := OBJ_HASH_KEY | OBJ_HASH_VALUE.

(** A string object (src/object.c): [ptr] is an sds string, or the number
    itself. *)
Inductive string_obj := StrRaw (s : sds) | StrInt (n : Z).

(** What is outside t_hash.c: the bytes that the allocator and the stack hold,
    the seed of the hash function, whether tables may be resized, and the two
    limits of the configuration. *)
Record hash_env := mkEnv {
  junk : Z;
  stack_buf : list ascii;
  hash_seed : list Z;
  dict_can_resize : bool;
  hash_max_ziplist_value : Z;
  hash_max_ziplist_entries : Z
}.

Section hash.
Context (env : hash_env).
Notation htype := (hashDictType (hash_seed env)).

(** [createHashObject] (src/object.c). *)
Definition createHashObject : option hash_obj := zl ← ziplistNew (junk env); Some (OBJ_ENCODING_ZIPLIST zl).

(** ** Iterators *)

Definition hashTypeInitIterator (o : hash_obj) : hashTypeIterator :=
  match o with
  | OBJ_ENCODING_ZIPLIST _ => HashIterZiplist None None
  | OBJ_ENCODING_HT _ => HashIterHT dictGetIterator None
  end.

Definition hashTypeReleaseIterator (o : hash_obj) (hi : hashTypeIterator) : option hash_obj :=
  match o, hi with
  | OBJ_ENCODING_HT d, HashIterHT di _ => d ← dictReleaseIterator d di; Some (OBJ_ENCODING_HT d)
  | _, HashIterZiplist _ _ => Some o
  | _, _ => None
  end.

(** [hashTypeNext]; the boolean says that there is an entry. *)
Definition hashTypeNext (o : hash_obj) (hi : hashTypeIterator) : option (hash_obj * hashTypeIterator * bool) :=
  match o, hi with
  | OBJ_ENCODING_ZIPLIST zl, HashIterZiplist fptr vptr =>
      fptr ← match fptr, vptr with
             | None, None => ziplistIndex zl 0
             | Some _, Some v => ziplistNext zl v
             | _, _ => None
             end;
      match fptr with
      | None => Some (o, hi, false)
      | Some f =>
          vptr ← ziplistNext zl f;
          match vptr with
          | None => None
          | Some v => Some (o, HashIterZiplist (Some f) (Some v), true)
          end
      end
  | OBJ_ENCODING_HT d, HashIterHT di _ =>
      '(d, di, de) ← dictNext d di;
      Some (OBJ_ENCODING_HT d, HashIterHT di de, match de with Some _ => true | None => false end)
  | _, _ => None
  end.

(** [hashTypeCurrentFromZiplist]. *)
Definition hashTypeCurrentFromZiplist (zl : list Z) (hi : hashTypeIterator) (what : hash_what) : option zl_value :=
  match hi with
  | HashIterZiplist fptr vptr => r ← ziplistGet zl (match what with OBJ_HASH_KEY => fptr | OBJ_HASH_VALUE => vptr end); r
  | HashIterHT _ _ => None
  end.

Definition hashTypeCurrentFromHashTable (d : dict sds sds) (hi : hashTypeIterator) (what : hash_what) : option sds :=
  match hi with
  | HashIterHT _ de =>
      l ← de;
      match what with
      | OBJ_HASH_KEY => e ← entries d !! l; Some (de_key e)
      | OBJ_HASH_VALUE => dictGetVal d l
      end
  | HashIterZiplist _ _ => None
  end.

Definition hashTypeCurrentObject (o : hash_obj) (hi : hashTypeIterator) (what : hash_what) : option zl_value :=
  match o with
  | OBJ_ENCODING_ZIPLIST zl => hashTypeCurrentFromZiplist zl hi what
  | OBJ_ENCODING_HT d => ele ← hashTypeCurrentFromHashTable d hi what; Some (ZlStr (sds_bytes ele))
  end.

(** [sdsnewlen] or [sdsfromlonglong]. *)
Definition value_sds (v : zl_value) : option sds :=
  match v with
  | ZlStr bs => Some (bytes_sds bs)
  | ZlInt vll => sdsfromlonglong (take SDS_LLSTR_SIZE (stack_buf env)) vll
  end.

Definition hashTypeCurrentObjectNewSds (o : hash_obj) (hi : hashTypeIterator) (what : hash_what) : option sds :=
  v ← hashTypeCurrentObject o hi what; value_sds v.

(** ** Conversion *)

(** The loop of [hashTypeConvertZiplist]. *)
Fixpoint convert_loop (fuel : nat) (o : hash_obj) (hi : hashTypeIterator) (d : dict sds sds) : option (dict sds sds) :=
  match fuel with
  | O => None
  | S fuel' =>
      '(o, hi, found) ← hashTypeNext o hi;
      if found : bool then
        key ← hashTypeCurrentObjectNewSds o hi OBJ_HASH_KEY;
        value ← hashTypeCurrentObjectNewSds o hi OBJ_HASH_VALUE;
        '(d, ret) ← dictAdd htype (dict_can_resize env) key value d;
        if negb (ret =? DICT_OK) then None else convert_loop fuel' o hi d
      else Some d
  end.

(** To [OBJ_ENCODING_HT]; there are fewer entries than bytes. *)
Definition hashTypeConvertZiplist (o : hash_obj) : option hash_obj :=
  match o with
  | OBJ_ENCODING_ZIPLIST zl =>
      d ← convert_loop (length zl) o (hashTypeInitIterator o) dictCreate; Some (OBJ_ENCODING_HT d)
  | OBJ_ENCODING_HT _ => None
  end.

Definition hashTypeConvert (o : hash_obj) : option hash_obj :=
  match o with
  | OBJ_ENCODING_ZIPLIST _ => hashTypeConvertZiplist o
  | OBJ_ENCODING_HT _ => None
  end.

(** [argv[start]] to [argv[end]] are the strings of [args]. *)
Fixpoint hashTypeTryConversion (o : hash_obj) (args : list sds) : option hash_obj :=
  match o with
  | OBJ_ENCODING_HT _ => Some o
  | OBJ_ENCODING_ZIPLIST _ =>
      match args with
      | [] => Some o
      | a :: args =>
          if Z.of_nat (String.length a) >? hash_max_ziplist_value env then hashTypeConvert o
          else hashTypeTryConversion o args
      end
  end.

(** ** Reading *)

(** [ziplistFind] from the head, as three functions call it. *)
Definition hash_find (zl : list Z) (field : sds) : option (option Z) :=
  fptr ← ziplistIndex zl 0;
  match fptr with
  | None => Some None
  | Some p => ziplistFind zl p field 1
  end.

(** [Some None] is the return value -1. *)
Definition hashTypeGetFromZiplist (zl : list Z) (field : sds) : option (option zl_value) :=
  fptr ← hash_find zl field;
  match fptr with
  | None => Some None
  | Some f =>
      vptr ← ziplistNext zl f;
      match vptr with
      | None => None
      | Some v =>
          ret ← ziplistGet zl (Some v);
          match ret with None => None | Some x => Some (Some x) end
      end
  end.

Definition hashTypeGetFromHashTable (d : dict sds sds) (field : sds) : option (dict sds sds * option sds) :=
  '(d, de) ← dictFind htype field d;
  match de with
  | None => Some (d, None)
  | Some l => v ← dictGetVal d l; Some (d, Some v)
  end.

Definition hashTypeGetValue (o : hash_obj) (field : sds) : option (hash_obj * option zl_value) :=
  match o with
  | OBJ_ENCODING_ZIPLIST zl => r ← hashTypeGetFromZiplist zl field; Some (o, r)
  | OBJ_ENCODING_HT d =>
      '(d, value) ← hashTypeGetFromHashTable d field;
      Some (OBJ_ENCODING_HT d, match value with Some v => Some (ZlStr (sds_bytes v)) | None => None end)
  end.

(** A number stays a number: the object has the encoding
    [OBJ_ENCODING_INT]. *)
Definition hashTypeGetValueObject (o : hash_obj) (field : sds) : option (hash_obj * option string_obj) :=
  '(o, r) ← hashTypeGetValue o field;
  Some (o, match r with
           | None => None
           | Some (ZlStr bs) => Some (StrRaw (bytes_sds bs))
           | Some (ZlInt vll) => Some (StrInt vll)
           end).

Definition hashTypeGetValueLength (o : hash_obj) (field : sds) : option (hash_obj * Z) :=
  match o with
  | OBJ_ENCODING_ZIPLIST zl =>
      r ← hashTypeGetFromZiplist zl field;
      match r with
      | None => Some (o, 0)
      | Some (ZlStr bs) => Some (o, Z.of_nat (length bs))
      | Some (ZlInt vll) => n ← sdigits10 vll; Some (o, n)
      end
  | OBJ_ENCODING_HT d =>
      '(d, aux) ← hashTypeGetFromHashTable d field;
      Some (OBJ_ENCODING_HT d, match aux with Some v => Z.of_nat (String.length v) | None => 0 end)
  end.

Definition hashTypeExists (o : hash_obj) (field : sds) : option (hash_obj * bool) :=
  match o with
  | OBJ_ENCODING_ZIPLIST zl =>
      r ← hashTypeGetFromZiplist zl field; Some (o, match r with Some _ => true | None => false end)
  | OBJ_ENCODING_HT d =>
      '(d, v) ← hashTypeGetFromHashTable d field;
      Some (OBJ_ENCODING_HT d, match v with Some _ => true | None => false end)
  end.

(** The object is returned because [ziplistLen] may write to the header. *)
Definition hashTypeLength (o : hash_obj) : option (hash_obj * Z) :=
  match o with
  | OBJ_ENCODING_ZIPLIST zl => '(zl, n) ← ziplistLen zl; Some (OBJ_ENCODING_ZIPLIST zl, n / 2)
  | OBJ_ENCODING_HT d => Some (o, dictSize d)
  end.

(** ** Changes *)

(** The ziplist branch of [hashTypeSet]: the list and [update]. *)
Definition set_ziplist (zl : list Z) (field value : sds) : option (list Z * bool) :=
  fptr ← hash_find zl field;
  match fptr with
  | Some f =>
      vptr ← ziplistNext zl f;
      match vptr with
      | None => None
      | Some v =>
          '(zl, v) ← ziplistDelete (junk env) zl v;
          zl ← ziplistInsert (junk env) zl v value;
          Some (zl, true)
      end
  | None =>
      zl ← ziplistPush (junk env) zl field ZIPLIST_TAIL;
      zl ← ziplistPush (junk env) zl value ZIPLIST_TAIL;
      Some (zl, false)
  end.

(** [hashTypeSet]: the object and [update]. *)
Definition hashTypeSet (o : hash_obj) (field value : sds) : option (hash_obj * bool) :=
  match o with
  | OBJ_ENCODING_ZIPLIST zl =>
      '(zl, update) ← set_ziplist zl field value;
      '(o, length) ← hashTypeLength (OBJ_ENCODING_ZIPLIST zl);
      o ← (if length >? hash_max_ziplist_entries env then hashTypeConvert o else Some o);
      Some (o, update)
  | OBJ_ENCODING_HT d =>
      '(d, de) ← dictFind htype field d;
      match de with
      | Some l => d ← dictSetVal l value d; Some (OBJ_ENCODING_HT d, true)
      | None => '(d, _) ← dictAdd htype (dict_can_resize env) field value d; Some (OBJ_ENCODING_HT d, false)
      end
  end.

Definition hashTypeDelete (o : hash_obj) (field : sds) : option (hash_obj * bool) :=
  match o with
  | OBJ_ENCODING_ZIPLIST zl =>
      fptr ← hash_find zl field;
      match fptr with
      | None => Some (o, false)
      | Some f =>
          '(zl, f) ← ziplistDelete (junk env) zl f;
          '(zl, f) ← ziplistDelete (junk env) zl f;
          Some (OBJ_ENCODING_ZIPLIST zl, true)
      end
  | OBJ_ENCODING_HT d =>
      '(d, r) ← dictDelete htype field d;
      if r =? DICT_OK then
        d ← (if htNeedsResize d then fst <$> dictResize (dict_can_resize env) d else Some d);
        Some (OBJ_ENCODING_HT d, true)
      else Some (OBJ_ENCODING_HT d, false)
  end.
End hash.
