(* ===== verification/HashRep.v ===== *)
(** * Hash objects are finite maps

    [hash_rep env W o m]: the hash object [o], in either encoding, holds the map
    [m] from fields to values, and its strings weigh at most [W].  Every function
    of the type is described on the map, so that a client does not see the
    encoding, nor the conversion from one to the other. *)

From Stdlib Require Import Ascii.
From S2P Require Import Prelude.
From S2P Require Import Sds.
From S2P Require Import Util.
From S2P Require Import Dict.
From S2P Require Import DictRep.
From S2P Require Import SipHash.
From S2P Require Import DictMap.
From S2P Require Import DictIter.
From S2P Require Import Ziplist.
From S2P Require Import ZiplistRep.
From S2P Require Import ZiplistInsert.
From S2P Require Import ZiplistList.
From S2P Require Import Hash.

#[local] Open Scope Z_scope.

#[global] Instance hash_laws seed : TypeLaws (hashDictType seed) id.
Proof. exact (db_laws seed). Qed.

(** ** Pairs in a ziplist *)

Definition flatten (kvs : list (sds * sds)) : list sds := concat (map (λ p, [p.1; p.2]) kvs).

Lemma flatten_app kvs1 kvs2 : flatten (kvs1 ++ kvs2) = flatten kvs1 ++ flatten kvs2.
Proof. unfold flatten. by rewrite map_app, concat_app. Qed.

Lemma flatten_cons p kvs : flatten (p :: kvs) = p.1 :: p.2 :: flatten kvs.
Proof. done. Qed.

Lemma flatten_length kvs : length (flatten kvs) = (2 * length kvs)%nat.
Proof. induction kvs as [|p kvs IH]; [done|]. rewrite flatten_cons. simpl length. lia. Qed.

(** A search with stride 2 looks at the fields only. *)
Lemma find_flatten k kvs :
  match list_find k 1 0 (flatten kvs) with
  | Some j => ∃ kvs1 v kvs2, kvs = kvs1 ++ (k, v) :: kvs2 ∧ j = length (flatten kvs1)
  | None => k ∉ kvs.*1
  end.
Proof.
  induction kvs as [|[k' v] kvs IH]; [apply not_elem_of_nil|]. rewrite flatten_cons. cbn [list_find fst snd].
  destruct (decide (k' = k)) as [->|Hne]; [by exists [], v, kvs|]. simpl. destruct (list_find k 1 0 (flatten kvs)) as [j|]; simpl.
  - destruct IH as (kvs1 & w & kvs2 & -> & ->). by exists ((k', v) :: kvs1), w, kvs2.
  - set_solver.
Qed.

Lemma weight_flatten_mid kvs1 k v kvs2 :
  weight (flatten (kvs1 ++ (k, v) :: kvs2)) =
  weight (flatten (kvs1 ++ kvs2)) + Z.of_nat (String.length k) + Z.of_nat (String.length v) + 26.
Proof. rewrite !flatten_app, flatten_cons, !weight_app. simpl. lia. Qed.

Lemma weight_flatten_size kvs : Z.of_nat (length kvs) ≤ weight (flatten kvs).
Proof. induction kvs as [|p kvs IH]; [done|]. rewrite flatten_cons. simpl length. simpl weight. lia. Qed.

Section rep.
Context (env : hash_env).
Notation htype := (hashDictType (hash_seed env)).

(** The map of a dictionary with string values. *)
Definition dict_map (m : gmap sds sds) : gmap sds (sds * option sds) := map_imap (λ k v, Some (k, Some v)) m.

Definition hash_rep (W : Z) (o : hash_obj) (m : gmap sds sds) : Prop :=
  match o with
  | OBJ_ENCODING_ZIPLIST zl =>
      ∃ kvs, zl_rep zl (flatten kvs) ∧ NoDup kvs.*1 ∧ m = list_to_map kvs ∧ weight (flatten kvs) ≤ W
  | OBJ_ENCODING_HT d => dict_rep htype id d (dict_map m) ∧ Z.of_nat (size m) ≤ W
  end.

Lemma hash_rep_mono W W' o m : W ≤ W' → hash_rep W o m → hash_rep W' o m.
Proof.
  intros Hle. destruct o; simpl; [|by intros [? ?]; split; [|lia]].
  intros (kvs & ? & ? & ? & ?). exists kvs. split_and!; try done. lia.
Qed.

Lemma dict_map_lookup m k : dict_map m !! k = (λ v, (k, Some v)) <$> m !! k.
Proof. unfold dict_map. rewrite map_lookup_imap. by destruct (m !! k). Qed.

Lemma dict_map_insert m k v : dict_map (<[k:=v]> m) = <[k:=(k, Some v)]> (dict_map m).
Proof.
  apply map_eq. intros k'. destruct (decide (k = k')) as [->|Hne].
  - by rewrite dict_map_lookup, !lookup_insert_eq.
  - by rewrite dict_map_lookup, !lookup_insert_ne, dict_map_lookup.
Qed.

Lemma dict_map_delete m k : dict_map (delete k m) = delete k (dict_map m).
Proof.
  apply map_eq. intros k'. destruct (decide (k = k')) as [->|Hne].
  - by rewrite dict_map_lookup, !lookup_delete_eq.
  - by rewrite dict_map_lookup, !lookup_delete_ne, dict_map_lookup.
Qed.

Lemma dict_map_empty : dict_map ∅ = ∅.
Proof. done. Qed.

Lemma dict_map_size m : size (dict_map m) = size m.
Proof.
  induction m as [|k v m Hk IH] using map_ind; [done|].
  rewrite dict_map_insert, !map_size_insert_None; [by rewrite IH|done|]. by rewrite dict_map_lookup, Hk.
Qed.

Lemma dict_map_bounded W m : Z.of_nat (size m) ≤ W → W < 2 ^ 32 → bounded (dict_map m).
Proof. intros Hm HW. unfold bounded. rewrite dict_map_size. lia. Qed.

(** ** Values *)

Lemma value_sds_spec v s : (SDS_LLSTR_SIZE ≤ length (stack_buf env))%nat → value_is v s → value_sds env v = Some s.
Proof.
  intros Hbuf. destruct v as [bs|z]; simpl; [intros ->; by rewrite bytes_sds_bytes|].
  intros [Hz ->]. apply sdsfromlonglong_spec; [done|]. rewrite length_take. lia.
Qed.

Definition found_value (r : option zl_value) (x : option sds) : Prop :=
  match x with Some s => ∃ v, r = Some v ∧ value_is v s | None => r = None end.

(** ** Reading a ziplist *)

Lemma hash_find_spec zl kvs field : zl_rep zl (flatten kvs) →
  ∃ r, hash_find zl field = Some r ∧
    match list_find field 1 0 (flatten kvs) with Some j => ∃ p, r = Some p ∧ zl_at zl (flatten kvs) j p | None => r = None end.
Proof.
  intros Hrep. unfold hash_find. destruct (ziplistIndex_spec zl _ 0 Hrep) as (r & -> & Hr); [done|]. obind.
  destruct kvs as [|p kvs]; [simpl in Hr; subst r; by eexists|].
  assert (list_index (length (flatten (p :: kvs))) 0 = Some 0%nat) as Hi by (rewrite flatten_cons; unfold list_index; done).
  rewrite Hi in Hr. destruct Hr as (q & -> & Hat). change 1 with (Z.of_nat 1).
  destruct (ziplistFind_spec _ _ _ _ field 1 Hat) as (r & -> & Hr). exists r. split; [done|]. rewrite drop_0 in Hr.
  destruct (list_find _ _ _ _); done.
Qed.

Lemma lookup_middle_pair kvs1 k v kvs2 :
  let ss := flatten (kvs1 ++ (k, v) :: kvs2) in let j := length (flatten kvs1) in
  ss = flatten kvs1 ++ k :: v :: flatten kvs2 ∧ ss !! j = Some k ∧ ss !! S j = Some v ∧ (S j < length ss)%nat.
Proof.
  intros ss j. assert (ss = flatten kvs1 ++ k :: v :: flatten kvs2) as Hss by (subst ss; by rewrite flatten_app, flatten_cons).
  rewrite Hss. split_and!; [done|by rewrite list_lookup_middle| |rewrite length_app; simpl; lia].
  rewrite (cons_middle k), app_assoc. apply list_lookup_middle. rewrite length_app. simpl. lia.
Qed.

Lemma list_to_map_mid kvs1 k (v : sds) kvs2 : NoDup (kvs1 ++ (k, v) :: kvs2).*1 →
  (list_to_map (kvs1 ++ (k, v) :: kvs2) : gmap sds sds) = <[k:=v]> (list_to_map (kvs1 ++ kvs2)) ∧
  (list_to_map (kvs1 ++ kvs2) : gmap sds sds) !! k = None.
Proof.
  intros Hnd. assert (kvs1 ++ (k, v) :: kvs2 ≡ₚ (k, v) :: kvs1 ++ kvs2) as Hp by (symmetry; apply Permutation_middle). split.
  - by rewrite (list_to_map_proper _ _ Hnd Hp).
  - apply not_elem_of_list_to_map_1. rewrite Hp in Hnd. simpl in Hnd. by apply NoDup_cons in Hnd as [? _].
Qed.

Lemma getFromZiplist_spec zl kvs field : zl_rep zl (flatten kvs) → NoDup kvs.*1 →
  ∃ r, hashTypeGetFromZiplist zl field = Some r ∧ found_value r ((list_to_map kvs : gmap sds sds) !! field).
Proof.
  intros Hrep Hnd. unfold hashTypeGetFromZiplist. destruct (hash_find_spec zl kvs field Hrep) as (r & -> & Hr). obind.
  pose proof (find_flatten field kvs) as Hf. destruct (list_find _ _ _ _) as [j|].
  - destruct Hr as (p & -> & Hat), Hf as (kvs1 & v & kvs2 & -> & ->).
    destruct (lookup_middle_pair kvs1 field v kvs2) as (Hss & _ & Hv & Hlt).
    destruct (ziplistNext_spec _ _ _ _ Hat) as (q & -> & Hq). obind. rewrite decide_True in Hq by done. destruct Hq as (q' & -> & Hat').
    destruct (ziplistGet_spec _ _ _ _ Hat') as (g & -> & Hg). obind. rewrite Hv in Hg. destruct Hg as (x & -> & Hx).
    exists (Some x). split; [done|]. destruct (list_to_map_mid kvs1 field v kvs2 Hnd) as [-> _]. rewrite lookup_insert_eq. by exists x.
  - subst r. exists None. split; [done|]. by rewrite (not_elem_of_list_to_map_1 _ _ Hf).
Qed.
(** ** Reading *)

Lemma getFromHashTable_spec W d m field : hash_rep W (OBJ_ENCODING_HT d) m → W < 2 ^ 32 →
  ∃ d', hashTypeGetFromHashTable env d field = Some (d', m !! field) ∧ hash_rep W (OBJ_ENCODING_HT d') m.
Proof.
  intros [R Hs] HW. unfold hashTypeGetFromHashTable.
  destruct (dictFind_spec htype id field d _ R (dict_map_bounded _ _ Hs HW)) as (d' & r & -> & R' & Hf & _). obind.
  exists d'. split; [|split; done]. destruct r as [l|].
  - destruct (rep_at_lookup _ _ _ _ _ _ Hf) as (e & He & Hm). unfold dictGetVal. rewrite He. obind.
    simpl in Hm. rewrite dict_map_lookup in Hm. destruct (m !! field) as [v|]; [|done]. injection Hm as _ <-. done.
  - simpl in Hf. rewrite dict_map_lookup in Hf. by destruct (m !! field).
Qed.

Lemma getValue_spec W o m field : hash_rep W o m → W < 2 ^ 32 →
  ∃ o' r, hashTypeGetValue env o field = Some (o', r) ∧ hash_rep W o' m ∧ found_value r (m !! field).
Proof.
  intros R HW. destruct o as [zl|d]; simpl.
  - destruct R as (kvs & Hrep & Hnd & -> & Hw). destruct (getFromZiplist_spec zl kvs field Hrep Hnd) as (r & -> & Hr). obind.
    eexists _, r. split; [done|]. split; [|done]. by exists kvs.
  - destruct (getFromHashTable_spec W d m field R HW) as (d' & -> & R'). obind. eexists _, _. split; [done|]. split; [done|].
    destruct (m !! field) as [v|]; simpl; [by eexists|done].
Qed.

(** The string of an object. *)
Definition string_is (x : string_obj) (s : sds) : Prop := match x with StrRaw t => t = s | StrInt z => int64 z ∧ s = fmt_d z end.

Lemma getValueObject_spec W o m field : hash_rep W o m → W < 2 ^ 32 →
  ∃ o' r, hashTypeGetValueObject env o field = Some (o', r) ∧ hash_rep W o' m ∧
    match m !! field with None => r = None | Some s => ∃ x, r = Some x ∧ string_is x s end.
Proof.
  intros R HW. unfold hashTypeGetValueObject. destruct (getValue_spec W o m field R HW) as (o' & r & -> & R' & Hf). obind.
  eexists _, _. split; [done|]. split; [done|]. destruct (m !! field) as [s|]; [|by simpl in Hf; subst r].
  destruct Hf as ([bs|z] & -> & Hv); (eexists; split; [done|]); simpl in *; [|done]. subst bs. apply bytes_sds_bytes.
Qed.

Lemma exists_spec W o m field : hash_rep W o m → W < 2 ^ 32 →
  ∃ o', hashTypeExists env o field = Some (o', bool_decide (is_Some (m !! field))) ∧ hash_rep W o' m.
Proof.
  intros R HW. destruct o as [zl|d]; simpl.
  - destruct R as (kvs & Hrep & Hnd & -> & Hw). destruct (getFromZiplist_spec zl kvs field Hrep Hnd) as (r & -> & Hr). obind. unfold found_value in Hr.
    exists (OBJ_ENCODING_ZIPLIST zl). split; [|by exists kvs]. do 2 f_equal. destruct (_ !! field); [destruct Hr as (v & -> & _)|subst r].
    + symmetry. by apply bool_decide_eq_true_2.
    + symmetry. apply bool_decide_eq_false_2. by intros [? ?].
  - destruct (getFromHashTable_spec W d m field R HW) as (d' & -> & R'). obind. eexists. split; [|exact R']. do 2 f_equal.
    destruct (m !! field); symmetry; [by apply bool_decide_eq_true_2|]. apply bool_decide_eq_false_2. by intros [? ?].
Qed.

Lemma getValueLength_spec W o m field : hash_rep W o m → W < 2 ^ 32 →
  ∃ o', hashTypeGetValueLength env o field = Some (o', match m !! field with Some s => Z.of_nat (String.length s) | None => 0 end) ∧
    hash_rep W o' m.
Proof.
  intros R HW. destruct o as [zl|d]; simpl.
  - destruct R as (kvs & Hrep & Hnd & -> & Hw). destruct (getFromZiplist_spec zl kvs field Hrep Hnd) as (r & -> & Hr). obind. unfold found_value in Hr.
    assert (hash_rep W (OBJ_ENCODING_ZIPLIST zl) (list_to_map kvs)) as R' by (by exists kvs).
    destruct (_ !! field) as [s|]; [|subst r; by eexists]. destruct Hr as ([bs|z] & -> & Hv); simpl in Hv.
    + subst bs. eexists. split; [|exact R']. by rewrite length_sds_bytes.
    + destruct Hv as [Hz ->]. rewrite (sdigits10_spec z Hz). obind. by eexists.
  - destruct (getFromHashTable_spec W d m field R HW) as (d' & -> & R'). obind. by eexists.
Qed.

Lemma hashTypeLength_spec W o m : hash_rep W o m → W < 2 ^ 32 →
  ∃ o', hashTypeLength o = Some (o', Z.of_nat (size m)) ∧ hash_rep W o' m ∧
    match o, o' with OBJ_ENCODING_ZIPLIST _, OBJ_ENCODING_ZIPLIST _ | OBJ_ENCODING_HT _, OBJ_ENCODING_HT _ => True | _, _ => False end.
Proof.
  intros R HW. destruct o as [zl|d]; simpl.
  - destruct R as (kvs & Hrep & Hnd & -> & Hw). destruct (ziplistLen_spec _ _ Hrep) as (zl' & -> & Hrep'). obind.
    exists (OBJ_ENCODING_ZIPLIST zl'). split; [|split; [by exists kvs|done]]. rewrite flatten_length, map_size_list_to_map by done.
    do 2 f_equal. rewrite Nat2Z.inj_mul, Z.mul_comm. by apply Z.div_mul.
  - destruct R as [R Hs]. exists (OBJ_ENCODING_HT d). split; [|split; [by split|done]]. rewrite (dictSize_spec _ _ _ _ R) by (by eapply dict_map_bounded). by rewrite dict_map_size.
Qed.
(** ** Changes *)

Lemma delete_cursor (l1 l2 : list sds) x : take (length l1) (l1 ++ x :: l2) ++ drop (length l1 + 1) (l1 ++ x :: l2) = l1 ++ l2.
Proof. by rewrite take_app_length, drop_app_add. Qed.

Lemma insert_cursor (l1 l2 : list sds) x : take (length l1) (l1 ++ l2) ++ x :: drop (length l1) (l1 ++ l2) = l1 ++ x :: l2.
Proof. by rewrite take_app_length, drop_app_length. Qed.

(** The value of a field that is there is replaced. *)
Lemma replace_value zl kvs1 f old kvs2 v p W :
  zl_at zl (flatten (kvs1 ++ (f, old) :: kvs2)) (S (length (flatten kvs1))) p →
  weight (flatten (kvs1 ++ (f, old) :: kvs2)) ≤ W → W + Z.of_nat (String.length v) < 2 ^ 32 →
  ∃ zl1 zl2, ziplistDelete (junk env) zl p = Some (zl1, p) ∧ ziplistInsert (junk env) zl1 p v = Some zl2 ∧
    zl_rep zl2 (flatten (kvs1 ++ (f, v) :: kvs2)) ∧ weight (flatten (kvs1 ++ (f, v) :: kvs2)) ≤ W + Z.of_nat (String.length v).
Proof.
  intros Hat Hw HW. destruct (lookup_middle_pair kvs1 f old kvs2) as (Hss & _ & _ & Hlt).
  destruct (delete_at (junk env) _ _ _ _ 1 Hat Hlt) as (zl1 & Hdel & Hat1); [lia|].
  assert (S (length (flatten kvs1)) = length (flatten kvs1 ++ [f])) as Hlen by (rewrite length_app; simpl; lia).
  rewrite Hss, (cons_middle f), app_assoc, Hlen, delete_cursor in Hat1.
  destruct (insert_at (junk env) _ _ _ _ v Hat1) as (zl2 & Hins & Hat2).
  - rewrite insert_cursor. rewrite Hss in Hw. rewrite <- app_assoc. rewrite !weight_app in *. simpl in *. lia.
  - rewrite insert_cursor, <- app_assoc in Hat2. exists zl1, zl2. unfold ziplistDelete. rewrite Hdel. split; [done|]. split; [done|].
    rewrite flatten_app, flatten_cons. split; [by eapply zl_at_rep|]. rewrite Hss in Hw. rewrite !weight_app in *. simpl in *. lia.
Qed.

Lemma set_ziplist_spec zl kvs f v W :
  zl_rep zl (flatten kvs) → NoDup kvs.*1 → weight (flatten kvs) ≤ W →
  let W' := W + Z.of_nat (String.length f) + Z.of_nat (String.length v) + 26 in W' < 2 ^ 32 →
  ∃ zl' kvs', set_ziplist env zl f v = Some (zl', bool_decide (is_Some ((list_to_map kvs : gmap sds sds) !! f))) ∧
    zl_rep zl' (flatten kvs') ∧ NoDup kvs'.*1 ∧ (list_to_map kvs' : gmap sds sds) = <[f:=v]> (list_to_map kvs) ∧ weight (flatten kvs') ≤ W'.
Proof.
  intros Hrep Hnd Hw W' HW. subst W'. unfold set_ziplist. destruct (hash_find_spec zl kvs f Hrep) as (r & -> & Hr). obind.
  pose proof (find_flatten f kvs) as Hf. destruct (list_find _ _ _ _) as [j|].
  - destruct Hr as (p & -> & Hat), Hf as (kvs1 & old & kvs2 & -> & ->).
    destruct (lookup_middle_pair kvs1 f old kvs2) as (Hss & _ & _ & Hlt).
    destruct (ziplistNext_spec _ _ _ _ Hat) as (q & -> & Hq). obind. rewrite decide_True in Hq by done. destruct Hq as (q' & -> & Hat').
    destruct (replace_value zl kvs1 f old kvs2 v q' W Hat' Hw) as (zl1 & zl2 & -> & Hins & Hrep2 & Hw2); [lia|]. obind. rewrite Hins. obind.
    exists zl2, (kvs1 ++ (f, v) :: kvs2). destruct (list_to_map_mid kvs1 f old kvs2 Hnd) as [Hm _].
    rewrite bool_decide_eq_true_2 by (rewrite Hm, lookup_insert_eq; by eexists).
    assert (NoDup (kvs1 ++ (f, v) :: kvs2).*1) as Hnd2 by (rewrite fmap_app in *; exact Hnd).
    split_and!; try done; [|lia]. destruct (list_to_map_mid kvs1 f v kvs2 Hnd2) as [-> _]. by rewrite Hm, insert_insert_eq.
  - subst r. rewrite (not_elem_of_list_to_map_1 _ _ Hf), bool_decide_eq_false_2 by (by intros [? ?]).
    destruct (ziplistPush_spec (junk env) zl _ f ZIPLIST_TAIL Hrep) as (zl1 & -> & Hrep1); [rewrite weight_app; simpl; lia|]. obind.
    destruct (ziplistPush_spec (junk env) zl1 _ v ZIPLIST_TAIL Hrep1) as (zl2 & -> & Hrep2); [rewrite !weight_app; simpl; lia|]. obind.
    exists zl2, (kvs ++ [(f, v)]). rewrite <- app_assoc in Hrep2. simpl in Hrep2. rewrite flatten_app. split_and!; try done.
    + rewrite fmap_app. apply NoDup_app. split_and!; [done| |apply NoDup_singleton]. set_solver.
    + destruct (list_to_map_mid kvs f v []) as [-> _]; [|by rewrite app_nil_r].
      rewrite fmap_app. apply NoDup_app. split_and!; [done| |apply NoDup_singleton]. set_solver.
    + rewrite weight_app. simpl. lia.
Qed.

(** ** Iteration *)

(** The pairs that an iterator has not given yet. *)
Definition hash_iter (o : hash_obj) (hi : hashTypeIterator) (kvs : list (sds * sds)) : Prop :=
  match o, hi with
  | OBJ_ENCODING_ZIPLIST zl, HashIterZiplist fptr vptr =>
      ∃ all, zl_rep zl (flatten all) ∧
        match fptr, vptr with
        | None, None => kvs = all
        | Some _, Some v => ∃ i, zl_at zl (flatten all) (S (2 * i)) v ∧ kvs = drop (S i) all
        | _, _ => False
        end
  | OBJ_ENCODING_HT d, HashIterHT di _ =>
      ∃ rest, iter_at htype d di rest ∧
        Forall2 (λ l p, ∃ e, entries d !! l = Some e ∧ de_key e = p.1 ∧ de_val e = Some p.2) rest kvs ∧
        (di = dictGetIterator ∨ 0 ≤ it_index di ∧ it_safe di = false ∧ it_fingerprint di = Some (dictFingerprint d))
  | _, _ => False
  end.

Definition current_is (o : hash_obj) (hi : hashTypeIterator) (p : sds * sds) : Prop :=
  (∃ v, hashTypeCurrentObject o hi OBJ_HASH_KEY = Some v ∧ value_is v p.1) ∧
  (∃ v, hashTypeCurrentObject o hi OBJ_HASH_VALUE = Some v ∧ value_is v p.2).

(** What [hashTypeNext] has to return. *)
Definition next_is (o : hash_obj) (hi : hashTypeIterator) (kvs : list (sds * sds)) : Prop :=
  match kvs with
  | [] => ∃ hi', hashTypeNext o hi = Some (o, hi', false) ∧ hashTypeReleaseIterator o hi' = Some o
  | p :: kvs' => ∃ hi', hashTypeNext o hi = Some (o, hi', true) ∧ current_is o hi' p ∧ hash_iter o hi' kvs'
  end.

Lemma flatten_lookup kvs i p : kvs !! i = Some p → flatten kvs !! (2 * i)%nat = Some p.1 ∧ flatten kvs !! S (2 * i) = Some p.2.
Proof.
  intros Hp. apply list_elem_of_split_length in Hp as (kvs1 & kvs2 & -> & ->). destruct p as [k v].
  destruct (lookup_middle_pair kvs1 k v kvs2) as (_ & Hk & Hv & _). by rewrite flatten_length in Hk, Hv.
Qed.

(** A cursor at the field [i], or at the end. *)
Lemma next_ziplist_at zl all i f fptr vptr :
  zl_at zl (flatten all) (2 * i) f → (i < length all)%nat →
  hashTypeNext (OBJ_ENCODING_ZIPLIST zl) (HashIterZiplist fptr vptr) =
    (vptr ← ziplistNext zl f;
     match vptr with None => None | Some v => Some (OBJ_ENCODING_ZIPLIST zl, HashIterZiplist (Some f) (Some v), true) end) →
  next_is (OBJ_ENCODING_ZIPLIST zl) (HashIterZiplist fptr vptr) (drop i all).
Proof.
  intros Hat Hi Hn. destruct (lookup_lt_is_Some_2 all i Hi) as [p Hp]. rewrite (drop_S _ _ _ Hp). unfold next_is. rewrite Hn.
  destruct (flatten_lookup _ _ _ Hp) as [Hk Hv]. destruct (ziplistNext_spec _ _ _ _ Hat) as (q & -> & Hq). obind.
  rewrite decide_True in Hq by (by eapply lookup_lt_Some). destruct Hq as (v & -> & Hatv). eexists. split; [done|].
  destruct (ziplistGet_spec _ _ _ _ Hat) as (r1 & H1 & Hr1), (ziplistGet_spec _ _ _ _ Hatv) as (r2 & H2 & Hr2).
  rewrite Hk in Hr1. rewrite Hv in Hr2. destruct Hr1 as (x & -> & Hx), Hr2 as (y & -> & Hy). split.
  - split; cbn [hashTypeCurrentObject hashTypeCurrentFromZiplist]; [rewrite H1|rewrite H2]; obind; by eexists.
  - exists all. split; [by eapply zl_at_rep|]. by exists i.
Qed.

Lemma next_ziplist zl fptr vptr kvs :
  hash_iter (OBJ_ENCODING_ZIPLIST zl) (HashIterZiplist fptr vptr) kvs → next_is (OBJ_ENCODING_ZIPLIST zl) (HashIterZiplist fptr vptr) kvs.
Proof.
  intros (all & Hrep & Hc). destruct fptr as [f|], vptr as [v|]; try done.
  - destruct Hc as (i & Hat & ->). destruct (ziplistNext_spec _ _ _ _ Hat) as (q & Hq & Hr). pose proof (flatten_length all).
    case_decide as Hlt.
    + destruct Hr as (f' & -> & Hat'). replace (S (S (2 * i))) with (2 * S i)%nat in Hat' by lia.
      apply (next_ziplist_at zl all (S i) f'); [done|lia|]. simpl. by rewrite Hq.
    + subst q. rewrite drop_ge by lia. eexists. simpl. rewrite Hq. obind. done.
  - subst kvs. destruct (ziplistIndex_spec zl _ 0 Hrep) as (r & Hidx & Hr); [done|]. destruct all as [|p all].
    + simpl in Hr. subst r. eexists. simpl. rewrite Hidx. obind. done.
    + assert (list_index (length (flatten (p :: all))) 0 = Some 0%nat) as Hi by (rewrite flatten_cons; unfold list_index; done).
      rewrite Hi in Hr. destruct Hr as (f & -> & Hat). apply (next_ziplist_at zl (p :: all) 0 f); [done|simpl; lia|]. simpl. by rewrite Hidx.
Qed.

Lemma next_dict d di de kvs :
  hash_iter (OBJ_ENCODING_HT d) (HashIterHT di de) kvs → next_is (OBJ_ENCODING_HT d) (HashIterHT di de) kvs.
Proof.
  intros (rest & Hat & HF & Hdi).
  assert (∃ di', dictNext d di = Some (d, di', hd_error rest) ∧ 0 ≤ it_index di' ∧ it_safe di' = false ∧
    it_fingerprint di' = Some (dictFingerprint d) ∧ match rest with [] => True | _ :: rest' => iter_at htype d di' rest' end)
    as (di' & Hn & Hi & Hs & Hf & Hat').
  { destruct Hdi as [->|(Hi & Hs & Hf)]; [by apply (dictNext_first htype d dictGetIterator rest Hat)|].
    destruct (dictNext_started htype d di rest Hat Hi) as (di' & ? & ? & ? & ? & ?). exists di'. split_and!; congruence || done. }
  unfold next_is. cbn [hashTypeNext]. rewrite Hn. obind. destruct HF as [|l p rest kvs (e & He & Hk & Hv) HF].
  - eexists. split; [done|]. cbn [hashTypeReleaseIterator]. unfold dictReleaseIterator.
    rewrite (proj2 (Z.eqb_neq _ _)) by lia. simpl negb. cbv iota. rewrite Hs, Hf. by rewrite bool_decide_eq_true_2.
  - eexists. split; [done|]. split.
    + split; simpl; unfold dictGetVal; rewrite He; obind; [|rewrite Hv; obind]; eexists; (split; [done|]); simpl; congruence.
    + exists rest. split; [done|]. split; [done|]. by right.
Qed.

Lemma hashTypeNext_spec o hi kvs : hash_iter o hi kvs → next_is o hi kvs.
Proof. destruct o, hi; try done; [apply next_ziplist|apply next_dict]. Qed.

Lemma dict_map_to_list m : map_to_list (dict_map m) ≡ₚ map (λ p, (p.1, (p.1, Some p.2))) (map_to_list m).
Proof.
  induction m as [|k v m Hk IH] using map_ind; [by rewrite dict_map_empty, !map_to_list_empty|].
  rewrite dict_map_insert, !map_to_list_insert; [simpl; by rewrite IH|done|by rewrite dict_map_lookup, Hk].
Qed.

Lemma hashTypeInitIterator_spec W o m : hash_rep W o m → ∃ kvs, hash_iter o (hashTypeInitIterator o) kvs ∧ kvs ≡ₚ map_to_list m.
Proof.
  destruct o as [zl|d]; simpl.
  - intros (kvs & Hrep & Hnd & -> & _). exists kvs. split; [by exists kvs|]. by rewrite map_to_list_to_map.
  - intros [(B0 & B1 & Hsh & (L & HF & Hnd & HL) & Hit) _]. assert (L ≡ₚ map_to_list (dict_map m)) as Hp by (by rewrite HL, map_to_list_to_map).
    rewrite dict_map_to_list in Hp. apply Permutation_map_inv in Hp as (kvs & -> & Hp). exists kvs. split; [|done].
    exists (concat B0 ++ concat B1). split; [|split; [|by left]].
    + destruct (sizes_nonneg _ _ _ _ Hsh). exists B0, B1, []. unfold it_ht. simpl. split_and!; try done; lia.
    + apply Forall2_fmap_r in HF. eapply Forall2_impl; [exact HF|]. intros l [k v]. simpl.
      destruct (entries d !! l) as [e|]; simpl; [|done]. intros [= ? ? ?]. by exists e.
Qed.

(** ** Conversion *)

Definition buf_ok : Prop := (SDS_LLSTR_SIZE ≤ length (stack_buf env))%nat.

Lemma current_sds o hi p : current_is o hi p → buf_ok →
  hashTypeCurrentObjectNewSds env o hi OBJ_HASH_KEY = Some p.1 ∧ hashTypeCurrentObjectNewSds env o hi OBJ_HASH_VALUE = Some p.2.
Proof.
  intros [(x & Hx & Vx) (y & Hy & Vy)] Hbuf. unfold hashTypeCurrentObjectNewSds. rewrite Hx, Hy. obind.
  by rewrite (value_sds_spec _ _ Hbuf Vx), (value_sds_spec _ _ Hbuf Vy).
Qed.

Lemma convert_loop_spec fuel o hi kvs d m :
  hash_iter o hi kvs → buf_ok → (length kvs < fuel)%nat → NoDup kvs.*1 → (∀ k, k ∈ kvs.*1 → m !! k = None) →
  dict_rep htype id d (dict_map m) → Z.of_nat (size m + length kvs) < 2 ^ 32 →
  ∃ d', convert_loop env fuel o hi d = Some d' ∧ dict_rep htype id d' (dict_map (list_to_map kvs ∪ m)).
Proof.
  revert hi kvs d m. induction fuel as [|fuel IH]; intros hi kvs d m Hit Hbuf Hf Hnd Hm R Hsz; [lia|]. cbn [convert_loop].
  pose proof (hashTypeNext_spec _ _ _ Hit) as Hn. destruct kvs as [|[k v] kvs].
  - destruct Hn as (hi' & -> & _). obind. exists d. simpl. rewrite map_empty_union. done.
  - destruct Hn as (hi' & -> & Hc & Hit'). obind. destruct (current_sds _ _ _ Hc Hbuf) as [-> ->]. obind. simpl in *.
    apply NoDup_cons in Hnd as [Hk Hnd]. assert (m !! k = None) as Hmk by (apply Hm; set_solver).
    destruct (dictAdd_spec htype id (dict_can_resize env) k v d _ R) as (d1 & r & -> & _ & Hadd); [by eapply (dict_map_bounded (Z.of_nat (size m))); lia|].
    simpl in Hadd. rewrite dict_map_lookup, Hmk in Hadd. destruct Hadd as [-> R1]. obind. simpl negb. cbv iota. rewrite <- dict_map_insert in R1.
    destruct (IH hi' kvs d1 (<[k:=v]> m)) as (d2 & -> & R2); try done; [lia| |rewrite map_size_insert_None by done; lia|].
    + intros k' Hk'. rewrite lookup_insert_ne by set_solver. apply Hm. set_solver.
    + exists d2. split; [done|]. rewrite <- insert_union_l. rewrite <- insert_union_r in R2; [done|]. by apply not_elem_of_list_to_map_1.
Qed.

Lemma create_dict : dict_rep htype id dictCreate (dict_map ∅).
Proof. pose proof (create_rep (V := sds) htype id) as R. unfold stored in R. by rewrite fmap_empty in R. Qed.

Lemma hashTypeConvert_spec W zl m : hash_rep W (OBJ_ENCODING_ZIPLIST zl) m → W < 2 ^ 32 → buf_ok →
  ∃ d, hashTypeConvert env (OBJ_ENCODING_ZIPLIST zl) = Some (OBJ_ENCODING_HT d) ∧ hash_rep W (OBJ_ENCODING_HT d) m.
Proof.
  intros (kvs & Hrep & Hnd & -> & Hw) HW Hbuf. cbn [hashTypeConvert hashTypeConvertZiplist].
  pose proof (zl_rep_length _ _ Hrep) as Hl. rewrite flatten_length in Hl. pose proof (weight_flatten_size kvs).
  destruct (convert_loop_spec (length zl) (OBJ_ENCODING_ZIPLIST zl) (hashTypeInitIterator (OBJ_ENCODING_ZIPLIST zl)) kvs dictCreate ∅) as (d & -> & R);
    try done; [by exists kvs|lia|apply create_dict|rewrite map_size_empty; lia|].
  rewrite map_union_empty in R. exists d. split; [done|]. split; [done|]. rewrite map_size_list_to_map by done. lia.
Qed.

Lemma hashTypeTryConversion_spec W o m args : hash_rep W o m → W < 2 ^ 32 → buf_ok →
  ∃ o', hashTypeTryConversion env o args = Some o' ∧ hash_rep W o' m.
Proof.
  intros R HW Hbuf. induction args as [|a args IH]; destruct o as [zl|d]; cbn [hashTypeTryConversion]; try (by eexists).
  destruct (_ >? _); [|exact IH]. destruct (hashTypeConvert_spec W zl m R HW Hbuf) as (d & -> & R'). by eexists.
Qed.

Lemma createHashObject_spec : ∃ o, createHashObject env = Some o ∧ hash_rep 11 o ∅.
Proof.
  destruct (ziplistNew_spec (junk env)) as (zl & Hn & Hrep). exists (OBJ_ENCODING_ZIPLIST zl). unfold createHashObject. rewrite Hn.
  split; [done|]. exists []. split_and!; try done. apply NoDup_nil_2.
Qed.

(** ** Changes in both encodings *)

Definition pair_weight (f v : sds) : Z := Z.of_nat (String.length f) + Z.of_nat (String.length v) + 26.

Lemma set_dict W d m f v : hash_rep W (OBJ_ENCODING_HT d) m → W + pair_weight f v < 2 ^ 32 →
  ∃ o', hashTypeSet env (OBJ_ENCODING_HT d) f v = Some (o', bool_decide (is_Some (m !! f))) ∧ hash_rep (W + pair_weight f v) o' (<[f:=v]> m).
Proof.
  unfold pair_weight. intros [R Hs] HW. cbn [hashTypeSet]. assert (bounded (dict_map m)) as Hb by (apply (dict_map_bounded W); lia).
  destruct (dictFind_spec htype id f d _ R Hb) as (d1 & r & -> & R1 & Hf & _). obind.
  pose proof (map_size_insert f v m) as Hsz. destruct r as [l|]; simpl in Hf.
  - destruct (dictSetVal_spec _ _ l v d1 _ _ Hf) as (d2 & k & x & -> & _ & Hm & R2). obind. rewrite dict_map_lookup in Hm.
    destruct (m !! f) as [old|]; [|done]. injection Hm as <- _. eexists. split; [by rewrite bool_decide_eq_true_2|].
    split; [|rewrite Hsz; unfold id; lia]. rewrite dict_map_insert. by eapply rep_at_rep.
  - destruct (dictAdd_spec htype id (dict_can_resize env) f v d1 _ R1 Hb) as (d2 & r & -> & _ & Hadd). obind. simpl in Hadd. rewrite Hf in Hadd.
    rewrite dict_map_lookup in Hf. destruct (m !! f) as [old|] eqn:Hmf; [done|]. destruct Hadd as [_ R2]. eexists. split; [by rewrite bool_decide_eq_false_2|].
    split; [by rewrite dict_map_insert|]. rewrite Hsz. lia.
Qed.

Lemma hashTypeSet_spec W o m f v : hash_rep W o m → W + pair_weight f v < 2 ^ 32 → buf_ok →
  ∃ o', hashTypeSet env o f v = Some (o', bool_decide (is_Some (m !! f))) ∧ hash_rep (W + pair_weight f v) o' (<[f:=v]> m).
Proof.
  intros R HW Hbuf. destruct o as [zl|d]; [|by apply set_dict]. destruct R as (kvs & Hrep & Hnd & -> & Hw). cbn [hashTypeSet].
  destruct (set_ziplist_spec zl kvs f v W Hrep Hnd Hw) as (zl' & kvs' & -> & Hrep' & Hnd' & Hm & Hw'); [unfold pair_weight in HW; lia|]. obind.
  assert (hash_rep (W + pair_weight f v) (OBJ_ENCODING_ZIPLIST zl') (<[f:=v]> (list_to_map kvs))) as R'.
  { exists kvs'. split_and!; try done. unfold pair_weight. lia. }
  destruct (hashTypeLength_spec _ _ _ R') as (o1 & -> & R1 & Ho1); [done|]. obind. destruct o1 as [zl1|]; [|done].
  destruct (_ >? _); [|by eexists]. destruct (hashTypeConvert_spec _ _ _ R1 HW Hbuf) as (d & -> & R2). by eexists.
Qed.

Lemma delete_dict W d m f : hash_rep W (OBJ_ENCODING_HT d) m → W < 2 ^ 32 →
  ∃ o', hashTypeDelete env (OBJ_ENCODING_HT d) f = Some (o', bool_decide (is_Some (m !! f))) ∧ hash_rep W o' (delete f m).
Proof.
  intros [R Hs] HW. cbn [hashTypeDelete]. assert (bounded (dict_map m)) as Hb by (by apply (dict_map_bounded W)). unfold dictDelete.
  assert (Z.of_nat (size (delete f m)) ≤ W) as Hs' by (rewrite map_size_delete; unfold id; case_match; lia).
  destruct (dictGenericDelete_spec htype id false f d _ R Hb) as (d1 & [l|] & -> & _ & Hr); obind.
  - destruct Hr as ((e & Hm & _) & R1 & _). simpl in Hm, R1. rewrite <- dict_map_delete in R1. rewrite dict_map_lookup in Hm.
    destruct (m !! f); [|done]. change (DICT_OK =? DICT_OK) with true. cbv iota. rewrite bool_decide_eq_true_2 by done.
    destruct (htNeedsResize d1); [|obind; eexists; split; [done|]; by split].
    destruct (dictResize_spec htype id (dict_can_resize env) d1 _ R1) as (d2 & r & -> & R2); [by apply (dict_map_bounded W)|].
    eexists. split; [done|]. by split.
  - destruct Hr as [Hm R1]. simpl in Hm. rewrite dict_map_lookup in Hm. destruct (m !! f) eqn:Hmf; [done|]. eexists. split; [by rewrite bool_decide_eq_false_2|].
    rewrite delete_id by done. by split.
Qed.

Lemma hashTypeDelete_spec W o m f : hash_rep W o m → W < 2 ^ 32 →
  ∃ o', hashTypeDelete env o f = Some (o', bool_decide (is_Some (m !! f))) ∧ hash_rep W o' (delete f m).
Proof.
  intros R HW. destruct o as [zl|d]; [|by apply delete_dict]. destruct R as (kvs & Hrep & Hnd & -> & Hw). cbn [hashTypeDelete].
  destruct (hash_find_spec zl kvs f Hrep) as (r & -> & Hr). obind. pose proof (find_flatten f kvs) as Hf. destruct (list_find _ _ _ _) as [j|].
  - destruct Hr as (p & -> & Hat), Hf as (kvs1 & v & kvs2 & -> & ->).
    destruct (list_to_map_mid kvs1 f v kvs2 Hnd) as [Hm Hm0]. rewrite Hm, lookup_insert_eq, bool_decide_eq_true_2, delete_insert_id by done.
    rewrite flatten_app, flatten_cons in *. cbn [fst snd] in *. rewrite !weight_app in Hw. simpl in Hw.
    destruct (delete_at (junk env) _ _ _ _ 1 Hat) as (zl1 & Hd1 & Hat1); [rewrite length_app; simpl; lia|rewrite weight_app; simpl; lia|].
    rewrite delete_cursor in Hat1. unfold ziplistDelete. rewrite Hd1. obind.
    destruct (delete_at (junk env) _ _ _ _ 1 Hat1) as (zl2 & Hd2 & Hat2); [rewrite length_app; simpl; lia|rewrite weight_app; simpl; lia|].
    rewrite delete_cursor, <- flatten_app in Hat2. rewrite Hd2. obind. exists (OBJ_ENCODING_ZIPLIST zl2). split; [done|].
    exists (kvs1 ++ kvs2). split_and!; [by eapply zl_at_rep| |done|rewrite flatten_app, weight_app; lia].
    rewrite !fmap_app in *. simpl in Hnd. apply NoDup_app in Hnd as (? & ? & [? ?]%NoDup_cons). apply NoDup_app. set_solver.
  - subst r. exists (OBJ_ENCODING_ZIPLIST zl). rewrite (not_elem_of_list_to_map_1 _ _ Hf), bool_decide_eq_false_2 by (by intros [? ?]).
    split; [done|]. rewrite delete_id by (by apply not_elem_of_list_to_map_1). by exists kvs.
Qed.
End rep.
