(* ===== verification/Double.v ===== *)
(** * C doubles

    Scores are C [double]s: IEEE binary64 values of the Standard Library's
    [SpecFloat] (prec 53, emax 1024), with round-to-nearest addition.
    [string2d] (src/util.c) is the strict conversion of client arguments,
    built on a model of [strtod]. *)

From Stdlib Require Import Ascii SpecFloat.
From S2P Require Import Prelude.
From S2P Require Import Sds.

#[local] Open Scope Z_scope.

Abbreviation double := spec_float.

#[global] Instance double_eq_dec : EqDecision double.
Proof. solve_decision. Defined.

Definition d0 : double := S754_zero false.

Definition dadd (x y : double) : double := SFadd 53 1024 x y.
Definition dopp (x : double) : double := SFopp x.
Definition dltb (x y : double) : bool := SFltb x y.
Definition deqb (x y : double) : bool := SFeqb x y.
Definition isnan (x : double) : bool := match x with S754_nan => true | _ => false end.

(** Conversion of an integer ([int] or [long long]) to [double]. *)
Definition dofZ (z : Z) : double := binary_normalize 53 1024 z 0 false.

(** ** [strtod] on the C locale's decimal, hexadecimal and infinity forms *)

Definition digit_of (hex : bool) (a : ascii) : option Z :=
  let c := code (tolower a) in
  if (48 <=? c) && (c <=? 57) then Some (c - 48)
  else if hex && (97 <=? c) && (c <=? 102) then Some (c - 87)
  else None.

(** Digits with at most one point: the value read, the number of digits
    after the point, the number of digits, and the rest. *)
Fixpoint scan_mant (hex : bool) (pt : bool) (m frac n : Z) (s : sds) : Z * Z * Z * sds :=
  match s with
  | String a s' =>
      match digit_of hex a with
      | Some d =>
          scan_mant hex pt (m * (if hex then 16 else 10) + d)
            (if pt then frac + 1 else frac) (n + 1) s'
      | None =>
          if (code a =? 46) && negb pt then scan_mant hex true m frac n s'
          else (m, frac, n, s)
      end
  | EmptyString => (m, frac, n, s)
  end.

(** Optional exponent, introduced by [mark]; not consumed without digits. *)
Definition scan_exp (mark : Z) (s : sds) : Z * sds :=
  match s with
  | String a r =>
      if code (tolower a) =? mark then
        match r with
        | String b r' =>
            if code b =? 45 then
              if head_digit r' then let '(v, q) := scan_digits 0 r' in (- v, q) else (0, s)
            else if code b =? 43 then
              if head_digit r' then scan_digits 0 r' else (0, s)
            else if isdigit b then scan_digits 0 r else (0, s)
        | EmptyString => (0, s)
        end
      else (0, s)
  | EmptyString => (0, s)
  end.

(** The rest after a word in any case. *)
Fixpoint skip_word (w s : sds) : option sds :=
  match w, s with
  | EmptyString, _ => Some s
  | String a w', String b s' => if Ascii.eqb a (tolower b) then skip_word w' s' else None
  | _, EmptyString => None
  end.

Definition strtod_word (neg : bool) (p : sds) : option (double * sds) :=
  match skip_word "infinity" p with
  | Some q => Some (S754_infinity neg, q)
  | None =>
      match skip_word "inf" p with
      | Some q => Some (S754_infinity neg, q)
      | None => match skip_word "nan" p with Some q => Some (S754_nan, q) | None => None end
      end
  end.

(** The value of the digits read, in a format of [prec] bits and exponents
    below [emax]. *)
Section format.
Context (prec emax : Z).

Definition dec_to_double (neg : bool) (m e10 : Z) : double :=
  match m with
  | Zpos p =>
      if 0 <=? e10 then
        binary_normalize prec emax ((if neg then -1 else 1) * (m * 10 ^ e10)) 0 neg
      else match 10 ^ (- e10) with
           | Zpos q => SFdiv prec emax (S754_finite neg p 0) (S754_finite false q 0)
           | _ => S754_nan
           end
  | _ => S754_zero neg
  end.

Definition hex_to_double (neg : bool) (m e2 : Z) : double :=
  match m with
  | Zpos _ => binary_normalize prec emax ((if neg then -1 else 1) * m) e2 neg
  | _ => S754_zero neg
  end.

Definition is_infinite (x : double) : bool := match x with S754_infinity _ => true | _ => false end.
Definition is_zero (x : double) : bool := match x with S754_zero _ => true | _ => false end.

(** [strtod] or [strtold] after the sign: the value, whether [errno] is
    [ERANGE] with an infinite or zero result, and the unread rest; [None]
    without conversion.  What may follow [nan] in parentheses is not read. *)
Definition strtod_unsigned (neg : bool) (p : sds) : option (double * bool * sds) :=
  match strtod_word neg p with
  | Some (d, q) => Some (d, false, q)
  | None =>
    let hexnum :=
      match p with
      | String z (String x r) =>
          if (code z =? 48) && (code (tolower x) =? 120) then
            let '(m, frac, n, r') := scan_mant true false 0 0 0 r in
            if n =? 0 then None
            else let '(e, q) := scan_exp 112 r' in
                 let d := hex_to_double neg m (e - 4 * frac) in
                 Some (d, is_infinite d || (is_zero d && (0 <? m)), q)
          else None
      | _ => None
      end in
    match hexnum with
    | Some res => Some res
    | None =>
        let '(m, frac, n, r) := scan_mant false false 0 0 0 p in
        if n =? 0 then None
        else let '(e, q) := scan_exp 101 r in
             let d := dec_to_double neg m (e - frac) in
             Some (d, is_infinite d || (is_zero d && (0 <? m)), q)
    end
  end.

Definition strtod_signed (s : sds) : option (double * bool * sds) :=
  match s with
  | String a r =>
      if code a =? 45 then strtod_unsigned true r
      else if code a =? 43 then strtod_unsigned false r
      else strtod_unsigned false s
  | EmptyString => strtod_unsigned false s
  end.

Definition strtod (s : sds) : option (double * bool * sds) := strtod_signed (skip_space s).
End format.

(** util.c [string2d]: the whole string must be the number, no leading space,
    no overflow or underflow to zero, no NaN. *)
Definition string2d (s : sds) : option double :=
  match s with
  | EmptyString => None
  | String a _ =>
      if isspace a then None
      else match strtod 53 1024 s with
           | Some (d, erange, rest) =>
               if negb (String.eqb rest "") || erange || isnan d then None else Some d
           | None => None
           end
  end.

Example string2d_ex1 : string2d "1.5" = Some (S754_finite false 6755399441055744 (-52)).
Proof. vm_compute. reflexivity. Qed.
Example string2d_ex2 : string2d "-0x10p-1" = Some (dofZ (-8)).
Proof. vm_compute. reflexivity. Qed.
Example string2d_ex3 : string2d "1e400" = None ∧ string2d "1e" = None ∧ string2d "12e2" = Some (dofZ 1200).
Proof. vm_compute. auto. Qed.
Example string2d_ex5 : string2d "inf" = Some (S754_infinity false) ∧ string2d "infx" = None ∧ string2d "-NaN" = None.
Proof. vm_compute. auto. Qed.
Example string2d_ex4 : string2d "0.1" = Some (S754_finite false 7205759403792794 (-56)).
Proof. vm_compute. reflexivity. Qed.

(** ** [%f] *)

(** [m * 2^e] in units of [1 / u], rounded half to even. *)
Definition scaled (u : Z) (m : positive) (e : Z) : Z :=
  let n := Z.pos m * u in
  if 0 <=? e then n * 2 ^ e
  else let d := 2 ^ (- e) in
       let q := n / d in
       let r := n mod d in
       if 2 * r <? d then q else if d <? 2 * r then q + 1
       else if Z.even q then q else q + 1.

Fixpoint zeros (n : nat) : sds := match n with O => "" | S n' => String "0" (zeros n') end.

Definition fmt_f (x : double) : sds :=
  let sign (neg : bool) := if neg then "-" else "" in
  match x with
  | S754_nan => "nan"
  | S754_infinity neg => sign neg +:+ "inf"
  | S754_zero neg => sign neg +:+ "0.000000"
  | S754_finite neg m e =>
      let n := scaled 1000000 m e in
      let f := fmt_d (n mod 1000000) in
      sign neg +:+ fmt_d (n / 1000000) +:+ "." +:+ zeros (6 - String.length f) +:+ f
  end.

Example fmt_f_ex : fmt_f (dofZ (-12)) = "-12.000000"
  ∧ fmt_f (S754_finite false 6755399441055744 (-52)) = "1.500000"
  ∧ fmt_f (S754_finite false 7205759403792794 (-66)) = "0.000098".
Proof. vm_compute. auto. Qed.

(** ** The order of doubles *)

(** Sign class, exponent and mantissa as integers compared lexicographically:
    the order [SFcompare] computes on values that are not NaN. *)
Definition dkey (x : double) : Z * Z * Z :=
  match x with
  | S754_infinity true => (-2, 0, 0)
  | S754_finite true m e => (-1, - e, - Z.pos m)
  | S754_zero _ => (0, 0, 0)
  | S754_finite false m e => (1, e, Z.pos m)
  | S754_infinity false => (2, 0, 0)
  | S754_nan => (3, 0, 0)
  end.

Definition key_lt (a b : Z * Z * Z) : Prop :=
  let '(a1, a2, a3) := a in let '(b1, b2, b3) := b in
  a1 < b1 ∨ (a1 = b1 ∧ (a2 < b2 ∨ (a2 = b2 ∧ a3 < b3))).

Lemma SFcompare_key x y :
  isnan x = false → isnan y = false →
  match SFcompare x y with
  | Some Lt => key_lt (dkey x) (dkey y)
  | Some Eq => dkey x = dkey y
  | Some Gt => key_lt (dkey y) (dkey x)
  | None => False
  end.
Proof.
  intros Hx Hy.
  destruct x as [sx|sx| |sx mx ex]; try done; destruct y as [sy|sy| |sy my ey]; try done;
    destruct sx; try destruct sy; simpl; try lia; try done.
  all: destruct (Z.compare_spec ex ey); simpl; [|lia..].
  all: change (Pos.compare_cont Eq mx my) with (Pos.compare mx my).
  all: destruct (Pos.compare_spec mx my); simpl; [|lia..].
  all: by subst.
Qed.

Lemma dltb_key x y :
  isnan x = false → isnan y = false → dltb x y = true ↔ key_lt (dkey x) (dkey y).
Proof.
  intros Hx Hy. pose proof (SFcompare_key x y Hx Hy) as H. unfold dltb, SFltb.
  destruct (SFcompare x y) as [[| |]|]; [rewrite H| | |done].
  all: destruct (dkey x) as [[x1 x2] x3], (dkey y) as [[y1 y2] y3]; simpl in *; split; try done; lia.
Qed.

Lemma deqb_key x y :
  isnan x = false → isnan y = false → deqb x y = true ↔ dkey x = dkey y.
Proof.
  intros Hx Hy. pose proof (SFcompare_key x y Hx Hy) as H. unfold deqb, SFeqb.
  destruct (SFcompare x y) as [[| |]|]; [by rewrite H| | |done].
  all: destruct (dkey x) as [[x1 x2] x3], (dkey y) as [[y1 y2] y3]; simpl in *.
  all: split; [done|]; intros; simplify_eq; lia.
Qed.

Lemma deqb_refl x : isnan x = false → deqb x x = true.
Proof. intros. by apply deqb_key. Qed.

(** The comparison [(s1, e1) < (s2, e2)] by which sorted sets are ordered:
    score first, then the element bytes. *)
Lemma key_lt_trans a b c : key_lt a b → key_lt b c → key_lt a c.
Proof. destruct a as [[??]?], b as [[??]?], c as [[??]?]; simpl. lia. Qed.

Lemma key_lt_irrefl a : ¬ key_lt a a.
Proof. destruct a as [[??]?]; simpl. lia. Qed.

Lemma key_total a b : key_lt a b ∨ a = b ∨ key_lt b a.
Proof.
  destruct a as [[a1 a2] a3], b as [[b1 b2] b3]; simpl.
  destruct (Z.lt_trichotomy a1 b1) as [?|[->|?]]; [auto| |auto].
  destruct (Z.lt_trichotomy a2 b2) as [?|[->|?]]; [auto 6| |auto 6].
  destruct (Z.lt_trichotomy a3 b3) as [?|[->|?]]; auto 8.
Qed.

(** The order of sorted-set entries, score first, then element. *)
Definition plt (p q : double * sds) : Prop :=
  key_lt (dkey p.1) (dkey q.1) ∨ (dkey p.1 = dkey q.1 ∧ sdscmp p.2 q.2 < 0).

Definition not_nan (p : double * sds) : Prop := isnan p.1 = false.

Lemma plt_trans p q r : plt p q → plt q r → plt p r.
Proof.
  unfold plt. intros [H1|[H1 H1']] [H2|[H2 H2']].
  - left. by eapply key_lt_trans.
  - left. by rewrite <- H2.
  - left. by rewrite H1.
  - right. split; [congruence|by eapply sdscmp_trans].
Qed.

Lemma plt_irrefl p : ¬ plt p p.
Proof. intros [H|[_ H]]; [by apply key_lt_irrefl in H|]. rewrite sdscmp_refl in H. lia. Qed.

(** Entries with different elements are ordered. *)
Lemma plt_total p q : p.2 ≠ q.2 → plt p q ∨ plt q p.
Proof.
  intros Hne. unfold plt. destruct (key_total (dkey p.1) (dkey q.1)) as [?|[Heq|?]]; [by auto| |by auto].
  destruct (Z.lt_trichotomy (sdscmp p.2 q.2) 0) as [?|[H0|?]]; [by auto| |].
  - by apply sdscmp_eq in H0.
  - right. right. split; [done|]. by apply sdscmp_antisym.
Qed.

(** The test of the search loops. *)
Definition pbefore (p q : double * sds) : bool :=
  dltb p.1 q.1 || (deqb p.1 q.1 && (sdscmp p.2 q.2 <? 0)).

Lemma pbefore_spec p q : not_nan p → not_nan q → pbefore p q = true ↔ plt p q.
Proof.
  intros Hp Hq. unfold pbefore, plt.
  rewrite orb_true_iff, andb_true_iff, dltb_key, deqb_key, Z.ltb_lt by done. done.
Qed.

Lemma pbefore_false p q : not_nan p → not_nan q → pbefore p q = false ↔ ¬ plt p q.
Proof. intros. rewrite <- pbefore_spec by done. by destruct (pbefore p q). Qed.

(** ** Conversions give numbers *)

Lemma iter_pos_inv {A} (f : A → A) (P : A → Prop) n x :
  (∀ y, P y → P (f y)) → P x → P (SpecFloat.iter_pos f n x).
Proof. intros Hf. revert x. induction n; simpl; auto. Qed.

Lemma shr_fexp_nonneg m e l : 0 ≤ m → 0 ≤ shr_m (shr_fexp 53 1024 m e l).1.
Proof.
  intros Hm. unfold shr_fexp, shr. case_match; simpl.
  - by destruct l as [|[]].
  - apply iter_pos_inv; [|by destruct l as [|[]]]. intros [[|[q|q|]|q] r s] Hy; simpl in *; lia.
  - by destruct l as [|[]].
Qed.

Lemma isnan_binary_round s m e : isnan (binary_round 53 1024 s m e) = false.
Proof.
  unfold binary_round. destruct (shl_align m e _) as [mz ez]. unfold binary_round_aux.
  destruct (shr_fexp 53 1024 (Z.pos mz) ez loc_Exact) as [r1 e1] eqn:H1.
  destruct (shr_fexp _ _ _ e1 loc_Exact) as [r2 e2] eqn:H2.
  assert (0 ≤ shr_m r1) by (pose proof (shr_fexp_nonneg (Z.pos mz) ez loc_Exact); rewrite H1 in *; simpl in *; lia).
  assert (0 ≤ round_nearest_even (shr_m r1) (loc_of_shr_record r1)) as Hr.
  { unfold round_nearest_even. repeat case_match; lia. }
  assert (0 ≤ shr_m r2) by (pose proof (shr_fexp_nonneg _ e1 loc_Exact Hr); rewrite H2 in *; simpl in *; lia).
  destruct (shr_m r2); [done| |lia]. by case_match.
Qed.

Lemma isnan_dofZ z : isnan (dofZ z) = false.
Proof. unfold dofZ, binary_normalize. destruct z; [done|apply isnan_binary_round..]. Qed.

(** Numbers that can be added up in any order. *)
Definition exact_sums (l : list double) : Prop := ∀ l', l ≡ₚ l' → foldl dadd d0 l = foldl dadd d0 l'.
