(* ===== verification/DoubleAdd.v ===== *)
(** * Adding doubles

    What rounding does to sums of numbers that are not negative: the sum is
    again such a number, and not below either summand.  [val] is the value of
    a mantissa and an exponent in units of the least double. *)

From Stdlib Require Import Floats.SpecFloat.
From S2P Require Import Prelude.
From S2P Require Import Sds.
From S2P Require Import Double.

#[local] Open Scope Z_scope.

Abbreviation fexp := (SpecFloat.fexp 53 1024).

Lemma fexp_max e : fexp e = Z.max (e - 53) (-1074).
Proof. done. Qed.

(** ** Digits *)

Lemma Zdigits2_spec m : 0 < m → 2 ^ (Zdigits2 m - 1) ≤ m < 2 ^ Zdigits2 m ∧ 0 < Zdigits2 m.
Proof.
  destruct m as [|p|p]; [lia| |lia]. intros _. simpl. induction p as [p IH|p IH|]; simpl; [| |done].
  all: rewrite Pos2Z.inj_succ, Z.pow_succ_r, Z.sub_succ_l by lia.
  all: assert (2 ^ Z.succ (Z.pos (digits2_pos p) - 1) = 2 * 2 ^ (Z.pos (digits2_pos p) - 1)) as -> by (apply Z.pow_succ_r; lia).
  all: lia.
Qed.

Lemma Zdigits2_unique m d : 2 ^ (d - 1) ≤ m < 2 ^ d → 0 < d → Zdigits2 m = d.
Proof.
  intros Hm Hd. assert (0 < 2 ^ (d - 1)) by (apply Z.pow_pos_nonneg; lia).
  destruct (Zdigits2_spec m) as [Hb Hp]; [lia|].
  destruct (Z.lt_trichotomy (Zdigits2 m) d) as [Hlt|[?|Hgt]]; [|done|].
  - assert (2 ^ Zdigits2 m ≤ 2 ^ (d - 1)) by (apply Z.pow_le_mono_r; lia). lia.
  - assert (2 ^ d ≤ 2 ^ (Zdigits2 m - 1)) by (apply Z.pow_le_mono_r; lia). lia.
Qed.

Lemma Zdigits2_mono a b : 0 < a ≤ b → Zdigits2 a ≤ Zdigits2 b.
Proof.
  intros H. destruct (Zdigits2_spec a) as [Ha Hpa]; [lia|]. destruct (Zdigits2_spec b) as [Hb Hpb]; [lia|].
  destruct (Z.le_gt_cases (Zdigits2 a) (Zdigits2 b)) as [|Hgt]; [done|].
  assert (2 ^ Zdigits2 b ≤ 2 ^ (Zdigits2 a - 1)) by (apply Z.pow_le_mono_r; lia). lia.
Qed.

Lemma Zdigits2_shift m n : 0 < m → 0 ≤ n → Zdigits2 (m * 2 ^ n) = Zdigits2 m + n.
Proof.
  intros Hm Hn. destruct (Zdigits2_spec m Hm) as [Hb Hp]. apply Zdigits2_unique; [|lia].
  replace (Zdigits2 m + n - 1) with ((Zdigits2 m - 1) + n) by lia. rewrite !Z.pow_add_r by lia.
  assert (0 < 2 ^ n) by (apply Z.pow_pos_nonneg; lia). nia.
Qed.

Lemma Zdigits2_div m n : 0 < m → 0 ≤ n < Zdigits2 m → Zdigits2 (m / 2 ^ n) = Zdigits2 m - n ∧ 0 < m / 2 ^ n.
Proof.
  intros Hm Hn. destruct (Zdigits2_spec m Hm) as [Hb Hp]. assert (0 < 2 ^ n) by (apply Z.pow_pos_nonneg; lia).
  assert (2 ^ (Zdigits2 m - n - 1) ≤ m / 2 ^ n) as Hlow.
  { apply Z.div_le_lower_bound; [done|]. rewrite <- Z.pow_add_r by lia. replace (n + (Zdigits2 m - n - 1)) with (Zdigits2 m - 1) by lia. lia. }
  assert (m / 2 ^ n < 2 ^ (Zdigits2 m - n)) as Hup.
  { apply Z.div_lt_upper_bound; [done|]. rewrite <- Z.pow_add_r by lia. replace (n + (Zdigits2 m - n)) with (Zdigits2 m) by lia. lia. }
  assert (0 < 2 ^ (Zdigits2 m - n - 1)) by (apply Z.pow_pos_nonneg; lia).
  split; [|lia]. apply Zdigits2_unique; [done|lia].
Qed.

(** ** Shifting right *)

Lemma shr_iter_div p (x : shr_record) : 0 ≤ shr_m x → shr_m (SpecFloat.iter_pos shr_1 p x) = shr_m x / 2 ^ Z.pos p.
Proof.
  assert (∀ y, 0 ≤ shr_m y → shr_m (shr_1 y) = shr_m y / 2) as H1.
  { intros [[|[q|q|]|q] r s] Hy; simpl in *; [done| | |done|lia].
    - rewrite Pos2Z.inj_xI. replace (2 * Z.pos q + 1) with (1 + Z.pos q * 2) by lia. by rewrite Z.div_add.
    - rewrite Pos2Z.inj_xO. replace (2 * Z.pos q) with (Z.pos q * 2) by lia. by rewrite Z.div_mul. }
  assert (∀ y k, 0 ≤ y → 0 ≤ k → y / 2 ^ k / 2 ^ k = y / 2 ^ (2 * k)) as H2.
  { intros y k Hy Hk. replace (2 * k) with (k + k) by lia. rewrite Z.pow_add_r by lia.
    assert (0 < 2 ^ k) by (apply Z.pow_pos_nonneg; lia). by rewrite Z.div_div by lia. }
  revert x. induction p as [p IH|p IH|]; intros x Hx; simpl SpecFloat.iter_pos; [| |by apply H1].
  - assert (0 ≤ shr_m (shr_1 x)) by (rewrite H1 by done; by apply Z.div_pos).
    assert (0 ≤ shr_m (SpecFloat.iter_pos shr_1 p (shr_1 x))) by (rewrite IH by done; by apply Z.div_pos, Z.pow_pos_nonneg).
    rewrite !IH, H1, H2 by done || (by apply Z.div_pos) || lia. rewrite Z.div_div; [|lia|apply Z.pow_pos_nonneg; lia].
    by rewrite <- Z.pow_succ_r, Pos2Z.inj_xI by lia.
  - assert (0 ≤ shr_m (SpecFloat.iter_pos shr_1 p x)) by (rewrite IH by done; by apply Z.div_pos, Z.pow_pos_nonneg).
    rewrite !IH, H2 by done || lia. by rewrite Pos2Z.inj_xO.
Qed.

(** Dropping the digits that a double has no room for. *)
Definition trunc (m e : Z) : Z * Z :=
  let n := Z.max 0 (fexp (Zdigits2 m + e) - e) in (m / 2 ^ n, e + n).

Lemma shr_fexp_trunc m e mrs e' :
  0 ≤ m → shr_fexp 53 1024 m e loc_Exact = (mrs, e') → (shr_m mrs, e') = trunc m e.
Proof.
  intros Hm. unfold shr_fexp, shr, trunc. destruct (fexp (Zdigits2 m + e) - e) as [|p|p]; simpl.
  - intros [= <- <-]. simpl. by rewrite Z.div_1_r, Z.add_0_r.
  - intros [= <- <-]. by rewrite shr_iter_div.
  - intros [= <- <-]. simpl. by rewrite Z.div_1_r, Z.add_0_r.
Qed.

(** ** Rounding *)

Definition val (m e : Z) : Z := m * 2 ^ (e + 1074).

(** Mantissas as doubles have them. *)
Definition canon (m e : Z) : Prop := 0 < m ∧ fexp (Zdigits2 m + e) = e.

Lemma canon_min m e : canon m e → -1074 ≤ e.
Proof. intros [_ H]. rewrite fexp_max in H. lia. Qed.

Lemma trunc_canon m e :
  0 < m → -1074 ≤ e ≤ fexp (Zdigits2 m + e) → canon (trunc m e).1 (trunc m e).2.
Proof.
  intros Hm [He Hf]. destruct (Zdigits2_spec m Hm) as [_ Hd]. unfold trunc. set (f := fexp (Zdigits2 m + e)) in *. simpl.
  assert (f - e < Zdigits2 m) as Hn by (unfold f; rewrite fexp_max; lia).
  destruct (Zdigits2_div m (f - e) Hm) as [Hq Hpos]; [lia|]. rewrite Z.max_r by lia. split; [done|]. rewrite Hq.
  replace (Zdigits2 m - (f - e) + (e + (f - e))) with (Zdigits2 m + e) by lia. fold f. lia.
Qed.

Lemma trunc_ge m e mx ex :
  canon mx ex → 0 < m → -1074 ≤ e ≤ fexp (Zdigits2 m + e) → val mx ex ≤ val m e → val mx ex ≤ val (trunc m e).1 (trunc m e).2.
Proof.
  intros Hx Hm [He Hf] Hle. pose proof (canon_min _ _ Hx) as Hxmin. destruct Hx as [Hmx Hxe]. destruct (Zdigits2_spec mx Hmx) as [[_ Hxd] Hxd0].
  unfold trunc. set (f := fexp (Zdigits2 m + e)) in *. simpl. rewrite Z.max_r by lia. replace (e + (f - e)) with f by lia.
  assert (∀ k, 0 ≤ k → 0 < 2 ^ k) as Hpow by (intros; by apply Z.pow_pos_nonneg). unfold val in *.
  destruct (Z.le_gt_cases f ex) as [Hfx|Hfx].
  - replace (ex + 1074) with ((ex - f) + (f + 1074)) in * by lia. rewrite Z.pow_add_r, Z.mul_assoc in * by lia.
    apply Z.mul_le_mono_nonneg_r; [specialize (Hpow (f + 1074)); lia|]. apply Z.div_le_lower_bound; [apply Hpow; lia|].
    replace (f + 1074) with ((f - e) + (e + 1074)) in Hle by lia. rewrite (Z.pow_add_r 2 (f - e) (e + 1074)), Z.mul_assoc in Hle by lia.
    apply Z.mul_le_mono_pos_r in Hle; [by rewrite (Z.mul_comm (2 ^ (f - e)))|apply Hpow; lia].
  - destruct (Zdigits2_spec m Hm) as [_ Hd].
    assert (f - e < Zdigits2 m) as Hn by (unfold f; rewrite fexp_max; lia).
    destruct (Zdigits2_div m (f - e) Hm) as [Hq Hpos]; [lia|]. destruct (Zdigits2_spec _ Hpos) as [[Hqlow _] _]. rewrite Hq in Hqlow.
    assert (Zdigits2 mx + ex ≤ Zdigits2 m - (f - e) - 1 + f) as Hdig.
    { rewrite fexp_max in Hxe. unfold f in *. rewrite fexp_max in *. lia. }
    assert (2 ^ (Zdigits2 mx + ex + 1074) ≤ 2 ^ (Zdigits2 m - (f - e) - 1 + f + 1074)) as H1 by (apply Z.pow_le_mono_r; lia).
    replace (Zdigits2 mx + ex + 1074) with (Zdigits2 mx + (ex + 1074)) in H1 by lia.
    replace (Zdigits2 m - (f - e) - 1 + f + 1074) with ((Zdigits2 m - (f - e) - 1) + (f + 1074)) in H1 by lia.
    rewrite (Z.pow_add_r 2 (Zdigits2 mx)), (Z.pow_add_r 2 (Zdigits2 m - (f - e) - 1)) in H1 by lia. specialize (Hpow (ex + 1074)) as Hp1. specialize (Hpow (f + 1074)) as Hp2.
    eapply Z.le_trans; [|eapply Z.le_trans; [exact H1|]]; apply Z.mul_le_mono_nonneg_r; lia.
Qed.

(** ** Shifting left *)

Lemma iter_xO m d : Z.pos (Pos.iter xO m d) = Z.pos m * 2 ^ Z.pos d.
Proof.
  induction d as [|d IH] using Pos.peano_ind; [simpl; lia|]. rewrite Pos.iter_succ, Pos2Z.inj_xO, IH, Pos2Z.inj_succ, Z.pow_succ_r; lia.
Qed.

Lemma shl_align_min m e f :
  (shl_align m e f).2 = Z.min e f ∧ Z.pos (shl_align m e f).1 = Z.pos m * 2 ^ (e - Z.min e f).
Proof.
  unfold shl_align. destruct (f - e) as [|d|d] eqn:Hd; cbn [fst snd].
  - rewrite Z.min_l, Z.sub_diag by lia. lia.
  - rewrite Z.min_l, Z.sub_diag by lia. lia.
  - rewrite Z.min_r, iter_xO by lia. by replace (e - f) with (Z.pos d) by lia.
Qed.

Lemma val_shift m e k : -1074 ≤ k ≤ e → val (m * 2 ^ (e - k)) k = val m e.
Proof. intros H. unfold val. rewrite <- Z.mul_assoc, <- Z.pow_add_r by lia. do 2 f_equal. lia. Qed.

Lemma shl_align_spec m e :
  -1074 ≤ e → let f := fexp (Z.pos (digits2_pos m) + e) in
  ∃ mz ez, shl_align m e f = (mz, ez) ∧ -1074 ≤ ez ≤ f ∧ val (Z.pos mz) ez = val (Z.pos m) e ∧ fexp (Zdigits2 (Z.pos mz) + ez) = f.
Proof.
  intros He f. destruct (shl_align_min m e f) as [H2 H1]. destruct (shl_align m e f) as [mz ez]. cbn [fst snd] in *. exists mz, ez.
  assert (-1074 ≤ f) by (unfold f; rewrite fexp_max; lia). subst ez. split_and!; [done|lia|lia| |].
  - rewrite H1. apply val_shift. lia.
  - rewrite H1, Zdigits2_shift by lia. unfold f. f_equal. simpl Zdigits2. lia.
Qed.

Lemma round_even_bounds m l : m ≤ round_nearest_even m l ≤ m + 1.
Proof. unfold round_nearest_even. repeat case_match; lia. Qed.

(** The result of rounding a positive number: never below a double that is
    not above the number. *)
Lemma binary_round_pos m e :
  -1074 ≤ e →
  binary_round 53 1024 false m e = S754_infinity false ∨
  ∃ m' e', binary_round 53 1024 false m e = S754_finite false m' e' ∧ canon (Z.pos m') e' ∧ e' ≤ 971 ∧
    ∀ mx ex, canon mx ex → val mx ex ≤ val (Z.pos m) e → val mx ex ≤ val (Z.pos m') e'.
Proof.
  intros He. unfold binary_round. set (f := fexp (Z.pos (digits2_pos m) + e)).
  assert (∃ mz ez, shl_align m e f = (mz, ez) ∧ -1074 ≤ ez ≤ f ∧ val (Z.pos mz) ez = val (Z.pos m) e ∧ fexp (Zdigits2 (Z.pos mz) + ez) = f)
    as (mz & ez & -> & Hez & Hval & Hfz).
  { apply shl_align_spec. lia. }
  unfold binary_round_aux. destruct (shr_fexp 53 1024 (Z.pos mz) ez loc_Exact) as [r1 e1] eqn:Hs1.
  pose proof (shr_fexp_trunc (Z.pos mz) ez r1 e1 ltac:(lia) Hs1) as Ht1. rewrite <- Hfz in Hez.
  pose proof (trunc_canon (Z.pos mz) ez ltac:(lia) Hez) as Hc1. pose proof (trunc_ge (Z.pos mz) ez) as Hg1.
  rewrite <- Ht1 in Hc1, Hg1. cbn [fst snd] in Hc1, Hg1.
  set (r := round_nearest_even (shr_m r1) (loc_of_shr_record r1)). pose proof (round_even_bounds (shr_m r1) (loc_of_shr_record r1)) as Hr. fold r in Hr.
  destruct (shr_fexp 53 1024 r e1 loc_Exact) as [r2 e2] eqn:Hs2.
  pose proof (canon_min _ _ Hc1) as He1. destruct Hc1 as [Hq1 Hf1].
  pose proof (shr_fexp_trunc r e1 r2 e2 ltac:(lia) Hs2) as Ht2.
  assert (-1074 ≤ e1 ≤ fexp (Zdigits2 r + e1)) as Hr1.
  { split; [done|]. rewrite <- Hf1 at 1. rewrite !fexp_max. pose proof (Zdigits2_mono (shr_m r1) r). lia. }
  pose proof (trunc_canon r e1 ltac:(lia) Hr1) as Hc2. pose proof (trunc_ge r e1) as Hg2.
  rewrite <- Ht2 in Hc2, Hg2. cbn [fst snd] in Hc2, Hg2.
  destruct (shr_m r2) as [|m'|m'] eqn:Hm2; [destruct Hc2; lia| |destruct Hc2; lia].
  destruct (Z.leb_spec e2 971) as [Hle|Hgt].
  - right. exists m', e2. change (e2 <=? 1024 - 53) with (e2 <=? 971). rewrite (proj2 (Z.leb_le _ _) Hle). split_and!; [done..|].
    intros mx ex Hx Hxv. apply Hg2; [done|lia|done|]. rewrite <- Hval in Hxv.
    specialize (Hg1 mx ex Hx ltac:(lia) Hez Hxv). unfold val in *. assert (0 < 2 ^ (e1 + 1074)) by (apply Z.pow_pos_nonneg; lia). nia.
  - left. change (e2 <=? 1024 - 53) with (e2 <=? 971). by rewrite (proj2 (Z.leb_gt _ _) Hgt).
Qed.

(** ** Sums *)

(** Doubles that are numbers and not negative. *)
Definition nonneg (x : double) : Prop :=
  match x with
  | S754_zero _ => True
  | S754_infinity s => s = false
  | S754_nan => False
  | S754_finite s m e => s = false ∧ canon (Z.pos m) e ∧ e ≤ 971
  end.

Lemma nonneg_isnan x : nonneg x → isnan x = false.
Proof. by destruct x. Qed.

(** Values as the C type has them. *)
Definition valid_double (x : double) : Prop := valid_binary 53 1024 x = true ∧ isnan x = false.

#[global] Instance valid_double_dec x : Decision (valid_double x).
Proof. unfold valid_double. apply _. Defined.

(** [(v > 0) ? v : -v]. *)
Definition dabs (v : double) : double := if dltb d0 v then v else dopp v.

Lemma nonneg_dabs v : valid_double v → nonneg (dabs v).
Proof.
  intros [Hv Hn]. destruct v as [s|s| |s m e]; try done; unfold dabs; simpl; [by destruct s|].
  assert (canon (Z.pos m) e ∧ e ≤ 971) as [Hc He].
  { simpl in Hv. unfold bounded, canonical_mantissa in Hv. apply andb_true_iff in Hv as [H1%Z.eqb_eq H2%Z.leb_le]. by split; [split|]. }
  by destruct s.
Qed.

(** The order of canonical numbers is that of their values. *)
Lemma canon_key m e m' e' :
  canon (Z.pos m) e → canon (Z.pos m') e' → val (Z.pos m) e ≤ val (Z.pos m') e' →
  ¬ key_lt (dkey (S754_finite false m' e')) (dkey (S754_finite false m e)).
Proof.
  intros Hc Hc' Hv. pose proof (canon_min _ _ Hc). pose proof (canon_min _ _ Hc'). destruct Hc as [Hm Hf], Hc' as [Hm' Hf'].
  assert (∀ k, 0 ≤ k → 0 < 2 ^ k) as Hpow by (intros; by apply Z.pow_pos_nonneg). simpl. intros [?|[_ [Hlt|[-> Hlt]]]]; [lia| |].
  - assert (Zdigits2 (Z.pos m) + e ≤ Zdigits2 (Z.pos m') + e') as Hd; [|rewrite fexp_max in Hf, Hf'; lia].
    pose proof (Zdigits2_shift (Z.pos m) (e + 1074) Hm ltac:(lia)) as H1. pose proof (Zdigits2_shift (Z.pos m') (e' + 1074) Hm' ltac:(lia)) as H2.
    unfold val in Hv. specialize (Hpow (e + 1074) ltac:(lia)) as Hp. pose proof (Zdigits2_mono (Z.pos m * 2 ^ (e + 1074)) (Z.pos m' * 2 ^ (e' + 1074))). lia.
  - unfold val in Hv. specialize (Hpow (e + 1074) ltac:(lia)). nia.
Qed.

Lemma dadd_finite m e m' e' :
  canon (Z.pos m) e → canon (Z.pos m') e' →
  let x := S754_finite false m e in let y := S754_finite false m' e' in
  nonneg (dadd x y) ∧ ¬ key_lt (dkey (dadd x y)) (dkey x) ∧ ¬ key_lt (dkey (dadd x y)) (dkey y).
Proof.
  intros Hc Hc' x y. pose proof (canon_min _ _ Hc) as He. pose proof (canon_min _ _ Hc') as He'. unfold x, y, dadd, SFadd. cbn [cond_Zopp].
  set (ez := Z.min e e'). destruct (shl_align_min m e ez) as [_ H1]. destruct (shl_align_min m' e' ez) as [_ H2].
  replace (Z.min e ez) with ez in H1 by lia. replace (Z.min e' ez) with ez in H2 by lia. rewrite H1, H2.
  pose proof (val_shift (Z.pos m) e ez ltac:(lia)) as V1. pose proof (val_shift (Z.pos m') e' ez ltac:(lia)) as V2.
  assert (∀ k, 0 ≤ k → 0 < 2 ^ k) as Hpow by (intros; by apply Z.pow_pos_nonneg).
  pose proof (Hpow (e - ez) ltac:(lia)). pose proof (Hpow (e' - ez) ltac:(lia)). pose proof (Hpow (ez + 1074) ltac:(lia)).
  destruct (Z.pos m * 2 ^ (e - ez) + Z.pos m' * 2 ^ (e' - ez)) as [|s|s] eqn:Hs; [nia| |nia]. simpl binary_normalize.
  assert (val (Z.pos m) e ≤ val (Z.pos s) ez ∧ val (Z.pos m') e' ≤ val (Z.pos s) ez) as [L1 L2].
  { rewrite <- V1, <- V2. unfold val. rewrite <- Hs. split; apply Z.mul_le_mono_nonneg_r; lia. }
  destruct (binary_round_pos s ez ltac:(lia)) as [->|(mr & er & -> & Hcr & Her & Hge)]; [simpl; lia|].
  split_and!; [done|apply canon_key..]; try done; by apply Hge.
Qed.

(** The sum of two such numbers is one, and is not below them. *)
Lemma nonneg_dadd x y :
  nonneg x → nonneg y → nonneg (dadd x y) ∧ ¬ key_lt (dkey (dadd x y)) (dkey x) ∧ ¬ key_lt (dkey (dadd x y)) (dkey y).
Proof.
  intros Hx Hy. destruct x as [sx|sx| |sx mx ex]; try done; destruct y as [sy|sy| |sy my ey]; try done.
  all: try (destruct Hx as (-> & Hx & Hxe)). all: try (destruct Hy as (-> & Hy & Hye)).
  all: simpl in Hx, Hy; subst. all: try (by apply dadd_finite).
  all: repeat match goal with s : bool |- _ => destruct s end. all: simpl; split_and!; try done; try lia.
Qed.

(** Sums of lists. *)
Abbreviation dsum := (foldl dadd d0).

Lemma dsum_snoc l v : dsum (l ++ [v]) = dadd (dsum l) v.
Proof. by rewrite foldl_app. Qed.

(** The sum of the magnitudes. *)
Definition weight (l : list double) : double := dsum (dabs <$> l).

Lemma weight_snoc l v : weight (l ++ [v]) = dadd (weight l) (dabs v).
Proof. unfold weight. rewrite fmap_app. apply dsum_snoc. Qed.

Lemma weight_nonneg l : Forall valid_double l → nonneg (weight l).
Proof.
  induction l as [|v l IH] using rev_ind; [done|]. intros [Hl Hv%Forall_inv]%Forall_app. rewrite weight_snoc.
  apply nonneg_dadd; [by apply IH|by apply nonneg_dabs].
Qed.

Lemma weight_grows l v : Forall valid_double (l ++ [v]) → ¬ key_lt (dkey (weight (l ++ [v]))) (dkey (weight l)).
Proof.
  intros [Hl Hv%Forall_inv]%Forall_app. rewrite weight_snoc. apply nonneg_dadd; [by apply weight_nonneg|by apply nonneg_dabs].
Qed.

Lemma nonneg_key x : nonneg x → dkey x = (0, 0, 0) ∨ key_lt (0, 0, 0) (dkey x).
Proof. destruct x as [s|s| |s m e]; simpl; [by left|intros ->; right; simpl; lia|done|intros (-> & _); right; simpl; lia]. Qed.

Lemma dabs_zero v : dkey (dabs v) = (0, 0, 0) → ∃ s, v = S754_zero s.
Proof. destruct v as [s|s| |s m e]; [by exists s|..]; (try destruct s); simpl; done. Qed.

(** Without weight there is nothing to add. *)
Lemma weight_zero l : Forall valid_double l → dkey (weight l) = (0, 0, 0) → dsum l = d0.
Proof.
  induction l as [|v l IH] using rev_ind; [done|]. intros [Hl Hv%Forall_inv]%Forall_app. rewrite weight_snoc, dsum_snoc. intros Hz.
  destruct (nonneg_dadd (weight l) (dabs v)) as (_ & H1 & H2); [by apply weight_nonneg|by apply nonneg_dabs|]. rewrite Hz in H1, H2.
  destruct (nonneg_key _ (weight_nonneg l Hl)) as [Hw|?]; [|done]. destruct (nonneg_key _ (nonneg_dabs v Hv)) as [Ha|?]; [|done].
  rewrite (IH Hl Hw). destruct (dabs_zero v Ha) as [s ->]. by destruct s.
Qed.
