(* ===== verification/Rounding.v ===== *)
(** * Rounding to the nearest double

    [SpecFloat] rounds a number that is known by an integer part and by where
    the rest lies relative to one half.  [within a b m l] says that the pair
    stands for the fraction [a / b].  The result of this file is
    [round_near]: a positive number whose distance to a double is at most one
    part in 2 * 10^16 of it is rounded to that double.  It holds of sums of
    digits times a power of ten, the way [strtod] forms them, and of
    quotients. *)

From Stdlib Require Import Floats.SpecFloat.
From S2P Require Import Prelude.
From S2P Require Import Double.
From S2P Require Import DoubleAdd.

#[local] Open Scope Z_scope.

(** ** Locations *)

Definition within (a b m : Z) (l : location) : Prop :=
  match l with
  | loc_Exact => a = m * b
  | loc_Inexact Lt => m * b < a ∧ 2 * a < (2 * m + 1) * b
  | loc_Inexact Eq => 2 * a = (2 * m + 1) * b
  | loc_Inexact Gt => (2 * m + 1) * b < 2 * a ∧ a < (m + 1) * b
  end.

Lemma within_floor a b m l : 0 < b → within a b m l → m * b ≤ a < (m + 1) * b.
Proof. intros Hb. destruct l as [|[]]; simpl; lia. Qed.

Lemma within_shr_1 a b x : 0 < b → 0 ≤ shr_m x → within a b (shr_m x) (loc_of_shr_record x) →
  within a (2 * b) (shr_m (shr_1 x)) (loc_of_shr_record (shr_1 x)) ∧ 0 ≤ shr_m (shr_1 x).
Proof.
  intros Hb. destruct x as [[|[q|q|]|q] r s]; simpl; [| | | |lia]; intros _ H; (split; [|lia]); revert H.
  all: destruct r, s; cbn [within shr_m loc_of_shr_record orb]; rewrite ?(Pos2Z.inj_xI q), ?(Pos2Z.inj_xO q); lia.
Qed.

Lemma pow2_odd p b : 2 ^ Z.pos p~1 * b = 2 ^ Z.pos p * (2 ^ Z.pos p * (2 * b)).
Proof. rewrite (Pos2Z.inj_xI p), Z.pow_add_r, Z.pow_twice_r by lia. lia. Qed.

Lemma pow2_even p b : 2 ^ Z.pos p~0 * b = 2 ^ Z.pos p * (2 ^ Z.pos p * b).
Proof. rewrite (Pos2Z.inj_xO p), Z.pow_twice_r. lia. Qed.

Lemma within_shr p a b x : 0 < b → 0 ≤ shr_m x → within a b (shr_m x) (loc_of_shr_record x) →
  let y := SpecFloat.iter_pos shr_1 p x in
  within a (2 ^ Z.pos p * b) (shr_m y) (loc_of_shr_record y) ∧ 0 ≤ shr_m y.
Proof.
  revert b x. induction p as [p IH|p IH|]; intros b x Hb Hm Hw; simpl SpecFloat.iter_pos; cbv zeta.
  - pose proof (Z.pow_pos_nonneg 2 (Z.pos p) ltac:(lia) ltac:(lia)) as Hp. destruct (within_shr_1 a b x Hb Hm Hw) as [Hw1 Hm1]. assert (0 < 2 * b) as Hb1 by lia.
    destruct (IH _ _ Hb1 Hm1 Hw1) as [Hw2 Hm2]. assert (0 < 2 ^ Z.pos p * (2 * b)) as Hb2 by lia. destruct (IH _ _ Hb2 Hm2 Hw2) as [Hw3 Hm3]. split; [|done].
    by rewrite pow2_odd.
  - pose proof (Z.pow_pos_nonneg 2 (Z.pos p) ltac:(lia) ltac:(lia)) as Hp. destruct (IH _ _ Hb Hm Hw) as [Hw2 Hm2]. assert (0 < 2 ^ Z.pos p * b) as Hb2 by lia. destruct (IH _ _ Hb2 Hm2 Hw2) as [Hw3 Hm3]. split; [|done].
    by rewrite pow2_even.
  - rewrite Z.pow_1_r. apply (within_shr_1 a b x Hb Hm Hw).
Qed.

Lemma within_shr_fexp a b m e l : 0 < b → 0 ≤ m → within a b m l → e ≤ fexp (Zdigits2 m + e) →
  ∃ y, shr_fexp 53 1024 m e l = (y, fexp (Zdigits2 m + e)) ∧
    within a (2 ^ (fexp (Zdigits2 m + e) - e) * b) (shr_m y) (loc_of_shr_record y) ∧ 0 ≤ shr_m y.
Proof.
  intros Hb Hm Hw He. unfold shr_fexp, shr. set (f := fexp (Zdigits2 m + e)) in *.
  assert (shr_m (shr_record_of_loc m l) = m ∧ loc_of_shr_record (shr_record_of_loc m l) = l) as [E1 E2] by (by destruct l as [|[]]).
  destruct (f - e) as [|p|p] eqn:Hd; [| |lia].
  - eexists. split; [f_equal; lia|]. rewrite E1, E2. split; [|done]. by rewrite Z.pow_0_r, Z.mul_1_l.
  - eexists. split; [f_equal; lia|]. apply within_shr; rewrite ?E1, ?E2; done.
Qed.

(** ** The integer next to a fraction *)

Lemma nearest a b m l n : 0 < b → within a b m l → 2 * Z.abs (a - n * b) < b → round_nearest_even m l = n.
Proof.
  intros Hb Hw Hn. assert (∀ x y, x * b < y * b → x < y) as Hc by (intros x y; apply Z.mul_lt_mono_pos_r; done).
  destruct l as [|[]]; cbn [within round_nearest_even] in *.
  - pose proof (Hc (2 * m) (2 * n + 1)). pose proof (Hc (2 * n) (2 * m + 1)). lia.
  - pose proof (Hc (2 * m + 1) (2 * n + 1)). pose proof (Hc (2 * n) (2 * m + 2)). lia.
  - pose proof (Hc (2 * m) (2 * n + 1)). pose proof (Hc (2 * n) (2 * m + 2)). lia.
  - pose proof (Hc (2 * m + 1) (2 * n + 1)). pose proof (Hc (2 * n) (2 * m + 3)). lia.
Qed.

(** ** Rounding *)

(** [a / b] in units of [2 ^ ex] is close to [m * 2 ^ e]. *)
Definition near (a b ex m e : Z) : Prop := 2 * 10 ^ 16 * Z.abs (a - m * (2 ^ (e - ex) * b)) ≤ m * (2 ^ (e - ex) * b).

Lemma canon_small m e : canon m e → m < 2 ^ 53.
Proof.
  intros [Hm He]. destruct (Zdigits2_spec m Hm) as [[_ Hd] _]. rewrite fexp_max in He.
  assert (2 ^ Zdigits2 m ≤ 2 ^ 53) by (apply Z.pow_le_mono_r; lia). lia.
Qed.

Lemma near_half a b ex m e : canon m e → 0 < 2 ^ (e - ex) * b → near a b ex m e →
  2 * Z.abs (a - m * (2 ^ (e - ex) * b)) < 2 ^ (e - ex) * b.
Proof.
  intros Hc Hb. unfold near. pose proof (canon_small m e Hc). set (B := 2 ^ (e - ex) * b) in *. intros H1.
  assert (m * B ≤ 2 ^ 53 * B) by (apply Z.mul_le_mono_nonneg_r; lia). lia.
Qed.

(** The number of digits of the integer part. *)
Lemma near_digits a b mx ex m e :
  0 < b → 0 ≤ mx → mx * b ≤ a < (mx + 1) * b → canon m e → ex ≤ e → near a b ex m e →
  let d := Zdigits2 m + (e - ex) in
  Zdigits2 mx = d ∨ (m = 2 ^ (Zdigits2 m - 1) ∧ Zdigits2 mx < d ∧ (1 < Zdigits2 m → Zdigits2 mx = d - 1)).
Proof.
  intros Hb Hmx Ha Hc He Hn d. pose proof (Z.pow_pos_nonneg 2 (e - ex) ltac:(lia) ltac:(lia)) as HP.
  apply near_half in Hn; [|done|nia]. destruct Hc as [Hm _]. destruct (Zdigits2_spec m Hm) as [[Hd1 Hd2] Hd0].
  set (P := 2 ^ (e - ex)) in *. assert (∀ x y, x * b < y * b → x < y) as Hb' by (intros x y; apply Z.mul_lt_mono_pos_r; done).
  assert (∀ k, 0 ≤ k → 2 ^ (k + (e - ex)) = 2 ^ k * P) as Hpow by (intros; by apply Z.pow_add_r; [|lia]).
  assert (2 * mx < (2 * m + 1) * P) as Hup by (apply Hb'; lia). assert ((2 * m - 1) * P < 2 * mx + 2) as Hlow by (apply Hb'; lia).
  assert (mx < 2 ^ Zdigits2 m * P) as Hup' by nia.
  destruct (Z.le_gt_cases (2 ^ (Zdigits2 m - 1) * P) mx) as [Hge|Hlt].
  - left. apply Zdigits2_unique; [|lia]. unfold d. replace (Zdigits2 m + (e - ex) - 1) with (Zdigits2 m - 1 + (e - ex)) by lia.
    rewrite !Hpow by lia. lia.
  - right. assert (m = 2 ^ (Zdigits2 m - 1)) as Hm1 by nia. split; [done|]. split.
    + destruct (Z.eq_dec mx 0) as [->|]; [simpl; lia|]. destruct (Zdigits2_spec mx ltac:(lia)) as [[H1 _] H0].
      apply Z.nle_gt. intros Hle. assert (2 ^ (d - 1) ≤ 2 ^ (Zdigits2 mx - 1)) by (apply Z.pow_le_mono_r; lia).
      unfold d in *. replace (Zdigits2 m + (e - ex) - 1) with (Zdigits2 m - 1 + (e - ex)) in * by lia. rewrite Hpow in * by lia. lia.
    + intros Hd. assert (2 ^ (Zdigits2 m - 1) = 2 * 2 ^ (Zdigits2 m - 2)) as H2 by (rewrite <- Z.pow_succ_r by lia; f_equal; lia).
      pose proof (Z.pow_pos_nonneg 2 (Zdigits2 m - 2) ltac:(lia) ltac:(lia)) as H3.
      apply Zdigits2_unique; [|lia]. unfold d. replace (Zdigits2 m + (e - ex) - 1) with (Zdigits2 m - 1 + (e - ex)) by lia.
      replace (Zdigits2 m - 1 + (e - ex) - 1) with (Zdigits2 m - 2 + (e - ex)) by lia. rewrite !Hpow by lia. split; [|done]. nia.
Qed.

(** The exponent to which the fraction is brought: that of the double, or one
    less below a power of two. *)
Lemma near_exponent a b mx ex m e :
  0 < b → 0 ≤ mx → mx * b ≤ a < (mx + 1) * b → canon m e → ex ≤ e → near a b ex m e →
  fexp (Zdigits2 mx + ex) = e ∨ (fexp (Zdigits2 mx + ex) = e - 1 ∧ m = 2 ^ 52).
Proof.
  intros Hb Hmx Ha Hc He Hn. pose proof (near_digits a b mx ex m e Hb Hmx Ha Hc He Hn) as Hd. destruct Hc as [Hm Hf].
  destruct (Zdigits2_spec m Hm) as [_ Hd0]. cbv zeta in Hd. rewrite !fexp_max in *. destruct Hd as [->|(H1 & H2 & H3)]; [left; lia|].
  destruct (Z.eq_dec (Zdigits2 m) 53) as [E|Hne].
  - rewrite E in *. rewrite H3 by lia. destruct (Z.eq_dec e (-1074)); [left; lia|right; split; [lia|done]].
  - left. lia.
Qed.

Lemma round_near neg mx ex l a b m e :
  0 < b → 0 ≤ mx → within a b mx l → canon (Z.pos m) e → e ≤ 971 → ex ≤ e → ex ≤ fexp (Zdigits2 mx + ex) → near a b ex (Z.pos m) e →
  binary_round_aux 53 1024 neg mx ex l = S754_finite neg m e.
Proof.
  intros Hb Hmx Hw Hc Hmax He Hex Hn. pose proof (Z.pow_pos_nonneg 2 (e - ex) ltac:(lia) ltac:(lia)) as HP.
  destruct (within_shr_fexp a b mx ex l Hb Hmx Hw Hex) as (y & Hy & Hwy & _). unfold binary_round_aux. rewrite Hy.
  destruct (near_exponent a b mx ex (Z.pos m) e Hb Hmx (within_floor _ _ _ _ Hb Hw) Hc He Hn) as [E|[E E2]];
    pose proof (fexp_max (Zdigits2 mx + ex)) as Hx; rewrite E in *.
  - assert (0 < 2 ^ (e - ex) * b) as HB by (by apply Z.mul_pos_pos).
    rewrite (nearest _ _ _ _ (Z.pos m) HB Hwy) by (by apply near_half).
    unfold shr_fexp. destruct Hc as [_ Hf]. rewrite Hf, Z.sub_diag. simpl. by rewrite (proj2 (Z.leb_le _ _)) by lia.
  - assert (2 ^ (e - ex) = 2 * 2 ^ (e - 1 - ex)) as Hs by (rewrite <- Z.pow_succ_r by lia; f_equal; lia).
    assert (0 < 2 ^ (e - 1 - ex) * b) as HB by (apply Z.mul_pos_pos; [apply Z.pow_pos_nonneg|]; lia).
    unfold near in Hn. rewrite (nearest _ _ _ _ (2 ^ 53) HB Hwy) by (rewrite E2, Hs in Hn; lia).
    assert (e ≠ -1074) by lia. destruct Hc as [_ Hf]. rewrite fexp_max in Hf.
    unfold shr_fexp. change (Zdigits2 (2 ^ 53)) with 54. rewrite fexp_max. replace (Z.max (54 + (e - 1) - 53) (-1074) - (e - 1)) with 1 by lia.
    simpl. replace (e - 1 + 1) with e by lia. rewrite (proj2 (Z.leb_le _ _)) by lia.
    change (2 ^ 52) with (Z.pos 4503599627370496) in E2. by injection E2 as ->.
Qed.

(** ** Fractions *)

(** [n / d] is close to [m * 2 ^ e]. *)
Definition close (n d m e : Z) : Prop :=
  let x := m * 2 ^ Z.max e 0 * d in 2 * 10 ^ 16 * Z.abs (n * 2 ^ Z.max (- e) 0 - x) ≤ x.

Lemma close_near n d m e ex : ex ≤ 0 → ex ≤ e → close n d m e → near (n * 2 ^ (- ex)) d ex m e.
Proof.
  intros H0 He. unfold close, near. cbv zeta. set (Y := 2 ^ Z.max (- e) 0). set (K := 2 ^ (- ex)).
  assert (0 < Y) as HY by (apply Z.pow_pos_nonneg; lia). assert (0 < K) as HK by (apply Z.pow_pos_nonneg; lia).
  assert (2 ^ (e - ex) * Y = 2 ^ Z.max e 0 * K) as E by (unfold Y, K; rewrite <- !Z.pow_add_r by lia; f_equal; lia).
  intros H. apply (Z.mul_le_mono_pos_r _ _ Y HY).
  replace (m * (2 ^ (e - ex) * d) * Y) with (m * 2 ^ Z.max e 0 * d * K) by (rewrite <- (Z.mul_assoc m), <- !Z.mul_assoc; nia).
  replace (2 * 10 ^ 16 * Z.abs (n * K - m * (2 ^ (e - ex) * d)) * Y) with (2 * 10 ^ 16 * Z.abs (n * Y - m * 2 ^ Z.max e 0 * d) * K).
  - by apply Z.mul_le_mono_nonneg_r; [lia|].
  - rewrite <- !(Z.mul_assoc (2 * 10 ^ 16)). f_equal. rewrite <- (Z.abs_eq K) at 1 by lia. rewrite <- (Z.abs_eq Y) at 2 by lia.
    rewrite <- !Z.abs_mul. f_equal. nia.
Qed.

Lemma close_exponent n d m e ex mx l : 0 < d → ex ≤ 0 → 0 ≤ mx → within (n * 2 ^ (- ex)) d mx l → canon m e →
  ex ≤ fexp (Zdigits2 mx + ex) → close n d m e → ex ≤ e.
Proof.
  intros Hd H0 Hmx Hw%within_floor Hc Hex Hn; [|done]. pose proof (canon_small m e Hc). pose proof (canon_min m e Hc).
  rewrite fexp_max in Hex. apply Z.nlt_ge. intros He.
  assert (53 ≤ Zdigits2 mx) as Hdig by lia. destruct (Z.eq_dec mx 0) as [->|Hmx0]; [simpl in Hdig; lia|].
  destruct (Zdigits2_spec mx ltac:(lia)) as [[Hlow _] _].
  assert (2 ^ 52 ≤ 2 ^ (Zdigits2 mx - 1)) by (apply Z.pow_le_mono_r; lia).
  unfold close in Hn. rewrite (Z.max_r e 0), (Z.max_l (- e) 0), Z.pow_0_r, Z.mul_1_r in Hn by lia.
  assert (2 ^ (- e) = 2 ^ (- ex) * 2 ^ (ex - e)) as E by (rewrite <- Z.pow_add_r by lia; f_equal; lia).
  assert (2 ^ 1 ≤ 2 ^ (ex - e)) by (apply Z.pow_le_mono_r; lia).
  assert (2 ^ 52 * d ≤ n * 2 ^ (- ex)) by (transitivity (mx * d); [apply Z.mul_le_mono_nonneg_r; lia|lia]).
  assert (n * 2 ^ (- ex) * 2 ^ 1 ≤ n * 2 ^ (- e)) by (rewrite E, Z.mul_assoc; apply Z.mul_le_mono_nonneg_l; lia).
  assert (m * d ≤ (2 ^ 53 - 1) * d) by (apply Z.mul_le_mono_nonneg_r; lia). lia.
Qed.

Lemma close_round neg n d m e ex mx l : 0 < d → ex ≤ 0 → 0 ≤ mx → within (n * 2 ^ (- ex)) d mx l → canon (Z.pos m) e → e ≤ 971 →
  ex ≤ fexp (Zdigits2 mx + ex) → close n d (Z.pos m) e → binary_round_aux 53 1024 neg mx ex l = S754_finite neg m e.
Proof.
  intros Hd H0 Hmx Hw Hc Hmax Hex Hn. assert (ex ≤ e) as He by (by eapply close_exponent).
  apply (round_near neg mx ex l (n * 2 ^ (- ex)) d); try done. by apply close_near.
Qed.

Lemma close_integer neg p m e : canon (Z.pos m) e → e ≤ 971 → close (Z.pos p) 1 (Z.pos m) e →
  binary_round 53 1024 neg p 0 = S754_finite neg m e.
Proof.
  intros Hc Hmax Hn. unfold binary_round. set (f := fexp (Z.pos (digits2_pos p) + 0)).
  destruct (shl_align_min p 0 f) as [E1 E2]. destruct (shl_align p 0 f) as [mz ez]. cbn [fst snd] in E1, E2. subst ez.
  apply (close_round neg (Z.pos p) 1 m e); try done; [lia| |].
  - simpl within. rewrite E2, Z.mul_1_r. done.
  - rewrite E2, Zdigits2_shift by lia. simpl Zdigits2. unfold f. rewrite !fexp_max. lia.
Qed.

Lemma location_within q r b : 0 < b → 0 ≤ r < b → within (q * b + r) b q (new_location b r).
Proof.
  intros Hb Hr. unfold new_location, new_location_even, new_location_odd.
  destruct (Z.eq_dec r 0) as [->|Hr0]; [destruct (Z.even b); simpl; lia|].
  apply Z.eqb_neq in Hr0 as Hr1. destruct (Z.even b) eqn:Heq; rewrite Hr1.
  - destruct (Z.compare_spec (2 * r) b); cbn [within]; lia.
  - rewrite <- Z.negb_odd in Heq. apply negb_false_iff, Z.odd_spec in Heq as [k ->].
    destruct (Z.compare_spec (2 * r + 1) (2 * k + 1)); cbn [within]; lia.
Qed.

Lemma quotient_digits p q K : 0 < q → 0 < p → 0 ≤ K → Zdigits2 p + K - Zdigits2 q ≤ Zdigits2 (p * 2 ^ K / q).
Proof.
  intros Hq Hp HK. destruct (Zdigits2_spec q Hq) as [[_ Hq2] Hq0].
  assert (p * 2 ^ K / q < 2 ^ Zdigits2 (p * 2 ^ K / q) ∧ 0 ≤ Zdigits2 (p * 2 ^ K / q)) as [Hd2 Hd0].
  { assert (0 ≤ p * 2 ^ K / q) by (apply Z.div_pos; [apply Z.mul_nonneg_nonneg, Z.pow_nonneg|]; lia).
    destruct (Z.eq_dec (p * 2 ^ K / q) 0) as [->|]; [done|]. destruct (Zdigits2_spec (p * 2 ^ K / q) ltac:(lia)). lia. }
  rewrite <- (Zdigits2_shift p K) by done. pose proof (Z.pow_pos_nonneg 2 K ltac:(lia) HK).
  pose proof (Z.mul_succ_div_gt (p * 2 ^ K) q Hq) as Hm. destruct (Zdigits2_spec (p * 2 ^ K) ltac:(nia)) as [[Hx1 _] _].
  assert (p * 2 ^ K < 2 ^ (Zdigits2 q + Zdigits2 (p * 2 ^ K / q))) as Hlt by (rewrite Z.pow_add_r by lia; nia).
  apply Z.nlt_ge. intros Hc.
  assert (2 ^ (Zdigits2 q + Zdigits2 (p * 2 ^ K / q)) ≤ 2 ^ (Zdigits2 (p * 2 ^ K) - 1)) by (apply Z.pow_le_mono_r; lia). lia.
Qed.

Lemma close_quotient neg p q m e : canon (Z.pos m) e → e ≤ 971 → close (Z.pos p) (Z.pos q) (Z.pos m) e →
  SFdiv 53 1024 (S754_finite neg p 0) (S754_finite false q 0) = S754_finite neg m e.
Proof.
  intros Hc Hmax Hn. unfold SFdiv, SFdiv_core_binary. rewrite !Z.add_0_r, !Z.sub_0_r. set (f := fexp (Zdigits2 (Z.pos p) - Zdigits2 (Z.pos q))).
  set (ex := Z.min f 0). assert (ex ≤ 0) as Hex by lia.
  assert (match 0 - ex with 0 => Z.pos p | Z.pos _ => Z.shiftl (Z.pos p) (0 - ex) | Z.neg _ => 0 end = Z.pos p * 2 ^ (- ex)) as ->.
  { replace (0 - ex) with (- ex) by lia. rewrite Z.shiftl_mul_pow2 by lia. destruct (- ex) eqn:E; lia. }
  pose proof (Z.div_eucl_eq (Z.pos p * 2 ^ (- ex)) (Z.pos q) ltac:(done)) as Hdiv. pose proof (Z.mod_pos_bound (Z.pos p * 2 ^ (- ex)) (Z.pos q) ltac:(lia)) as Hr.
  pose proof (quotient_digits (Z.pos p) (Z.pos q) (- ex) ltac:(done) ltac:(done) ltac:(lia)) as Hdig.
  assert (0 ≤ Z.pos p * 2 ^ (- ex) / Z.pos q) as Hq0 by (apply Z.div_pos; [apply Z.mul_nonneg_nonneg, Z.pow_nonneg|]; lia).
  unfold Z.modulo in Hr. unfold Z.div in Hdig, Hq0. destruct (Z.div_eucl _ _) as [x r]. cbv beta iota in Hdiv, Hr, Hdig, Hq0.
  rewrite xorb_false_r. apply (close_round neg (Z.pos p) (Z.pos q) m e); try done.
  - rewrite Hdiv, Z.mul_comm. by apply location_within.
  - unfold ex, f in *. rewrite !fexp_max in *. destruct (Z.eq_dec x 0) as [->|]; cbn [Zdigits2] in *; lia.
Qed.
