(* ===== verification/LongDouble.v ===== *)
(** * C long doubles (src/util.c, string2ld and ld2string)

    The [long double] of x86-64: the extended format of [SpecFloat] with 64 bits
    of precision and exponents below 16384.  HINCRBYFLOAT adds in this format.
    [string2ld] reads a client's string, [ld2string] in its human mode prints
    with 17 digits after the point and no zeroes at the end.

    Every [long long] has an exact [long double], and reading its decimal form
    gives that value: a number that is stored as an integer and one that is
    stored as a string are the same to HINCRBYFLOAT. *)

From Stdlib Require Import Ascii SpecFloat.
From stdpp Require Import pretty.
From S2P Require Import Prelude.
From S2P Require Import Sds.
From S2P Require Import Util.
From S2P Require Import Double.
From S2P Require Import DoubleAdd.

#[local] Open Scope Z_scope.

Abbreviation long_double := spec_float.

Definition ldadd (x y : long_double) : long_double := SFadd 64 16384 x y.
Definition ldofZ (z : Z) : long_double := binary_normalize 64 16384 z 0 false.

Definition MAX_LONG_DOUBLE_CHARS : Z := 5 * 1024.

Definition string2ld (s : sds) : option long_double :=
  match s with
  | EmptyString => None
  | String a _ =>
      if Z.of_nat (String.length s) >=? MAX_LONG_DOUBLE_CHARS then None
      else if isspace a then None
      else match strtod 64 16384 s with
           | Some (d, erange, rest) =>
               if negb (String.eqb rest "") || erange || isnan d then None else Some d
           | None => None
           end
  end.

(** ** [ld2string] in the mode [LD_STR_HUMAN] *)

(** [%.17Lf]. *)
Definition fmt_17Lf (x : long_double) : sds :=
  let sign (neg : bool) := if neg then "-" else "" in
  match x with
  | S754_nan => "nan"
  | S754_infinity neg => sign neg +:+ "inf"
  | S754_zero neg => sign neg +:+ "0." +:+ zeros 17
  | S754_finite neg m e =>
      let n := scaled (10 ^ 17) m e in
      let f := fmt_d (n mod 10 ^ 17) in
      sign neg +:+ fmt_d (n / 10 ^ 17) +:+ "." +:+ zeros (17 - String.length f) +:+ f
  end.

(** The loop over the zeroes at the end; the characters are in reverse. *)
Fixpoint strip_zeroes (r : list ascii) : list ascii :=
  match r with
  | c :: r' => if Ascii.eqb c "0" then strip_zeroes r' else r
  | [] => []
  end.

Definition strip_point (r : list ascii) : list ascii :=
  match r with
  | c :: r' => if Ascii.eqb c "." then r' else r
  | [] => []
  end.

(** [LD_STR_HUMAN], for a value that is not infinite; the string in [buf],
    empty when the return value is 0. *)
Definition ld2string_human (value : long_double) : sds :=
  let buf := chars (fmt_17Lf value) in
  if Z.of_nat (length buf) + 1 >? MAX_LONG_DOUBLE_CHARS then ""
  else
    let buf := if bool_decide ("."%char ∈ buf) then reverse (strip_point (strip_zeroes (reverse buf))) else buf in
    match buf with
    | ["-"%char; "0"%char] => "0"
    | _ => sds_of buf
    end.

Definition ld2string (value : long_double) : sds :=
  match value with
  | S754_infinity neg => if neg then "-inf" else "inf"
  | _ => ld2string_human value
  end.

Example ld2string_ex :
  (λ x y, ld2string <$> (x ← string2ld x; y ← string2ld y; Some (ldadd x y))) "10.50" "0.1" = Some "10.6" ∧
  (λ x y, ld2string <$> (x ← string2ld x; y ← string2ld y; Some (ldadd x y))) "5.0e3" "2.0e2" = Some "5200" ∧
  (λ x y, ld2string <$> (x ← string2ld x; y ← string2ld y; Some (ldadd x y))) "-1e-30" "0" = Some "0".
Proof. vm_compute. auto. Qed.

(** ** Integers *)

Lemma digit_of_isdigit a : isdigit a = true → digit_of false a = Some (digit_val a).
Proof.
  intros Hd. unfold digit_of. assert (tolower a = a) as ->.
  { unfold tolower. unfold isdigit in Hd. cases_Z; done || (exfalso; lia). }
  unfold isdigit in Hd. by rewrite Hd.
Qed.

Lemma scan_mant_digits acc frac n s v :
  scan_digits acc s = (v, "") → scan_mant false false acc frac n s = (v, frac, n + Z.of_nat (String.length s), "").
Proof.
  revert acc n. induction s as [|a s IH]; intros acc n; cbn [scan_digits scan_mant String.length]; [intros [= ->]; by rewrite Z.add_0_r|].
  destruct (isdigit a) eqn:Hd; [|done]. rewrite (digit_of_isdigit a Hd). cbv beta iota. intros H. rewrite (IH _ _ H). do 2 f_equal. lia.
Qed.

Lemma strtod_word_digit neg a r : isdigit a = true → strtod_word neg (String a r) = None.
Proof.
  intros Hd. assert (tolower a = a) as Ha by (unfold tolower; unfold isdigit in Hd; cases_Z; done || (exfalso; lia)).
  unfold strtod_word. cbn [skip_word]. rewrite Ha.
  by rewrite !(proj2 (Ascii.eqb_neq _ a)) by (intros <-; by vm_compute in Hd).
Qed.

Lemma strtod_digits prec emax neg p :
  strtod_unsigned prec emax neg (pretty_N_go (N.pos p) "") =
    let d := dec_to_double prec emax neg (Z.pos p) 0 in Some (d, is_infinite d || is_zero d, "").
Proof.
  destruct (pretty_N_go_head (N.pos p) "") as (a & r & Heq & Hd & Hc); [lia|].
  pose proof (scan_digits_go (N.pos p) "") as Hs. rewrite Heq in *. apply (scan_mant_digits 0 0 0) in Hs.
  assert (strtod_word neg (String a r) = None) as Hw by (apply strtod_word_digit; done).
  unfold strtod_unsigned. rewrite Hw.
  assert (code a =? 48 = false) as H48 by (apply Z.eqb_neq; lia).
  destruct r as [|x r]; rewrite ?H48; cbn [andb]; rewrite Hs; cbn [String.length];
    (rewrite (proj2 (Z.eqb_neq _ _)) by lia); cbn [scan_exp]; simpl Z.sub; rewrite andb_true_r; done.
Qed.

(** A number of at most 64 bits is exact. *)
Lemma round_exact neg p : Z.pos (digits2_pos p) ≤ 64 →
  ∃ m e, binary_round 64 16384 neg p 0 = S754_finite neg m e.
Proof.
  intros Hd. unfold binary_round. set (d := Z.pos (digits2_pos p)) in *. set (f := SpecFloat.fexp 64 16384 (d + 0)).
  assert (0 < d) as Hd0 by done. assert (f = d - 64) as Hf by (subst f; unfold SpecFloat.fexp, emin; lia).
  destruct (shl_align_min p 0 f) as [He Hm]. destruct (shl_align p 0 f) as [mz ez]. simpl in He, Hm. rewrite Z.min_r in He, Hm by lia. subst ez.
  assert (∀ x, shr_fexp 64 16384 (Z.pos mz) f loc_Exact = x → x = (shr_record_of_loc (Z.pos mz) loc_Exact, f)) as Hs.
  { intros x <-. unfold shr_fexp. rewrite Hm, Zdigits2_shift by lia. simpl Zdigits2. fold d.
    replace (SpecFloat.fexp 64 16384 (d + (0 - f) + f) - f) with 0 by (replace (d + (0 - f) + f) with (d + 0) by lia; fold f; lia). done. }
  unfold binary_round_aux. rewrite (Hs _ eq_refl). cbn [shr_record_of_loc shr_m loc_of_shr_record round_nearest_even].
  rewrite (Hs _ eq_refl). cbn [shr_record_of_loc shr_m]. rewrite (proj2 (Z.leb_le _ _)) by lia. by eexists _, _.
Qed.

Lemma int64_digits p : Z.pos p ≤ 2 ^ 63 → Z.pos (digits2_pos p) ≤ 64.
Proof. intros Hp. apply (Zdigits2_mono (Z.pos p) (2 ^ 63)). lia. Qed.

(** The string of a [long long] is read as its value. *)
Lemma string2ld_fmt z : int64 z → string2ld (fmt_d z) = Some (ldofZ z).
Proof.
  intros Hz. pose proof (fmt_d_length z Hz) as Hl. unfold string2ld.
  destruct z as [|p|p]; [by vm_compute| |].
  - rewrite fmt_d_pos in *. destruct (pretty_N_go_head (N.pos p) "") as (a & r & Heq & Hd & Hc); [lia|].
    destruct (isdigit_not_sign a Hd) as [Hn1 Hn2]. rewrite Heq. unfold MAX_LONG_DOUBLE_CHARS. rewrite <- Heq at 1.
    rewrite Z.geb_leb, (proj2 (Z.leb_gt _ _)), (isdigit_not_space a Hd) by lia.
    unfold strtod. cbn [skip_space]. rewrite (isdigit_not_space a Hd). unfold strtod_signed. rewrite Hn1, Hn2, <- Heq, strtod_digits. unfold dec_to_double. simpl (0 <=? 0). cbv iota. rewrite Z.mul_1_l, Z.pow_0_r, Z.mul_1_r.
    destruct (round_exact false p) as (m & e & Hr); [apply int64_digits; unfold int64, LLONG_MAX in Hz; lia|].
    unfold ldofZ. simpl binary_normalize. rewrite Hr. done.
  - rewrite fmt_d_neg in *. unfold MAX_LONG_DOUBLE_CHARS. rewrite Z.geb_leb, (proj2 (Z.leb_gt _ _)) by lia.
    change (isspace "-") with false. cbv iota. unfold strtod. cbn [skip_space]. change (isspace "-") with false. cbv iota. unfold strtod_signed. change (code "-" =? 45) with true. cbv iota. rewrite strtod_digits.
    unfold dec_to_double. simpl (0 <=? 0). cbv iota. rewrite Z.pow_0_r, Z.mul_1_r. change (-1 * Z.pos p) with (Z.neg p).
    destruct (round_exact true p) as (m & e & Hr); [apply int64_digits; unfold int64, LLONG_MIN in Hz; lia|].
    unfold ldofZ. simpl binary_normalize. rewrite Hr. done.
Qed.

(** What is printed fits in the buffer. *)
Lemma ld2string_length x : Z.of_nat (String.length (ld2string x)) < MAX_LONG_DOUBLE_CHARS.
Proof.
  assert (∀ r, (length (strip_zeroes r) ≤ length r)%nat) as H0.
  { induction r as [|c r IH]; simpl; [done|]. destruct (Ascii.eqb c "0"); simpl; lia. }
  assert (∀ r, (length (strip_point r) ≤ length r)%nat) as H1 by (intros [|c r]; simpl; [done|]; destruct (Ascii.eqb c "."); simpl; lia).
  assert (∀ l, String.length (sds_of l) = length l) as H2 by (induction l; simpl; lia).
  assert (Z.of_nat (String.length (ld2string_human x)) < MAX_LONG_DOUBLE_CHARS) as H.
  { unfold ld2string_human. rewrite Z.gtb_ltb. destruct (Z.ltb_spec MAX_LONG_DOUBLE_CHARS (Z.of_nat (length (chars (fmt_17Lf x))) + 1)) as [|Hle]; [done|].
    set (buf := if bool_decide _ then _ else _). assert (length buf ≤ length (chars (fmt_17Lf x)))%nat as Hb.
    { subst buf. destruct (bool_decide _); [|done]. rewrite length_reverse. etrans; [apply H1|]. etrans; [apply H0|]. by rewrite length_reverse. }
    assert (Z.of_nat (String.length (sds_of buf)) < MAX_LONG_DOUBLE_CHARS) as Hs by (rewrite H2; lia).
    repeat case_match; done. }
  destruct x as [s|[]| |s m e]; done.
Qed.
