(* ===== verification/ScoreText.v ===== *)
(** * Scores as text (src/util.c, d2string)

    A ziplist has strings and integers, so a sorted set that is kept as one
    prints every score with [d2string] and reads it back with [strtod] or as
    an integer.  Seventeen digits are enough: what is read is the score that
    was printed, for every double. *)

From Stdlib Require Import Ascii SpecFloat.
From stdpp Require Import pretty.
From S2P Require Import Prelude.
From S2P Require Import Sds.
From S2P Require Import Util.
From S2P Require Import Double.
From S2P Require Import DoubleAdd.
From S2P Require Import Rounding.
From S2P Require Import LongDouble.

#[local] Open Scope Z_scope.

(** ** [%.17g] *)

(** [n / d] rounded half to even. *)
Definition div_even (n d : Z) : Z :=
  let q := n / d in
  let r := n mod d in
  if 2 * r <? d then q else if d <? 2 * r then q + 1 else if Z.even q then q else q + 1.

(** [m * 2 ^ e] as a fraction. *)
Definition numer (m : positive) (e : Z) : Z := Z.pos m * 2 ^ Z.max e 0.
Definition denom (e : Z) : Z := 2 ^ Z.max (- e) 0.

(** The decimal exponent, that of the first digit: the number of digits of a
    multiple by 10^400, which is above one. *)
Definition exponent10 (m : positive) (e : Z) : Z :=
  Z.of_nat (length (decimal (numer m e * 10 ^ 400 / denom e))) - 401.

(** The seventeen digits as a number, and the exponent of the first. *)
Definition digits17 (m : positive) (e : Z) : Z * Z :=
  let k := exponent10 m e in
  let n := div_even (numer m e * 10 ^ Z.max (16 - k) 0) (denom e * 10 ^ Z.max (k - 16) 0) in
  if n =? 10 ^ 17 then (10 ^ 16, k + 1) else (n, k).

(** Integer part and fraction, without the zeroes at the end of the fraction
    and without a point before nothing. *)
Definition fixed (i f : list ascii) : list ascii :=
  i ++ match reverse (strip_zeroes (reverse f)) with [] => [] | f' => "."%char :: f' end.

Definition fmt_exp (k : Z) : list ascii :=
  "e"%char :: (if k <? 0 then "-"%char else "+"%char) :: (if Z.abs k <? 10 then ["0"%char] else []) ++ decimal (Z.abs k).

Definition fmt_17g_abs (m : positive) (e : Z) : list ascii :=
  let '(n, k) := digits17 m e in
  let ds := decimal n in
  if (-4 <=? k) && (k <? 17) then
    if 0 <=? k then fixed (take (Z.to_nat (k + 1)) ds) (drop (Z.to_nat (k + 1)) ds)
    else fixed ["0"%char] (replicate (Z.to_nat (- k - 1)) "0"%char ++ ds)
  else fixed (take 1 ds) (drop 1 ds) ++ fmt_exp k.

(** [snprintf(buf, len, "%.17g", value)] for a value that is finite and not
    zero. *)
Definition fmt_17g (neg : bool) (m : positive) (e : Z) : sds :=
  sds_of ((if neg then ["-"%char] else []) ++ fmt_17g_abs m e).

(** ** [d2string] *)

(** [(long long)value]. *)
Definition dtoll (value : double) : Z :=
  match value with
  | S754_finite neg m e => (if neg then -1 else 1) * (numer m e / denom e)
  | _ => 0
  end.

(** [snprintf] into a buffer that is long enough. *)
Definition snprintf (buf : list ascii) (s : sds) : option sds :=
  if Z.of_nat (String.length s) <? Z.of_nat (length buf) then Some s else None.

(** The characters that are written into [buf]. *)
Definition d2string (buf : list ascii) (value : double) : option sds :=
  match value with
  | S754_nan => snprintf buf "nan"
  | S754_infinity neg => snprintf buf (if neg then "-inf" else "inf")
  | S754_zero neg => snprintf buf (if neg then "-0" else "0")
  | S754_finite neg m e =>
      let min := dofZ (-4503599627370495) in
      let max := dofZ 4503599627370496 in
      if dltb min value && dltb value max && deqb value (dofZ (dtoll value)) then
        '(buf, len) ← ll2string buf (dtoll value);
        Some (sds_of (take (Z.to_nat len) buf))
      else snprintf buf (fmt_17g neg m e)
  end.

Example d2string_ex :
  (λ s, x ← string2d s; d2string (replicate 128 "x"%char) x) <$> ["0.1"; "-3"; "1e300"; "123456.789e-12"; "-0"; "99999999999999999"; "5e-324"] =
  Some <$> ["0.10000000000000001"; "-3"; "1.0000000000000001e+300"; "1.2345678899999999e-07"; "-0"; "1e+17"; "4.9406564584124654e-324"].
Proof. vm_compute. reflexivity. Qed.

(** ** The digits *)

Lemma decimal_bounds x : 0 < x → 10 ^ (Z.of_nat (length (decimal x)) - 1) ≤ x < 10 ^ Z.of_nat (length (decimal x)).
Proof.
  induction (Z.lt_wf 0 x) as [x _ IH]. intros Hx. destruct (Z.lt_ge_cases x 10) as [Hlt|Hge].
  - rewrite decimal_small by lia. simpl. lia.
  - rewrite decimal_step, length_app by lia. simpl length. pose proof (Z.div_lt x 10 Hx ltac:(lia)).
    pose proof (Z.div_str_pos x 10 ltac:(lia)). destruct (IH (x / 10)) as [H1 H2]; [lia..|].
    set (n := length (decimal (x / 10))) in *. pose proof (Z.div_mod x 10 ltac:(lia)). pose proof (Z.mod_pos_bound x 10 ltac:(lia)).
    assert (0 < Z.of_nat n) by (pose proof (decimal_pos (x / 10)); lia).
    replace (Z.of_nat (n + 1) - 1) with (Z.succ (Z.of_nat n - 1)) by lia. replace (Z.of_nat (n + 1)) with (Z.succ (Z.of_nat n)) by lia.
    rewrite !Z.pow_succ_r by lia. lia.
Qed.

Lemma exponent10_spec m e : canon (Z.pos m) e →
  let k := exponent10 m e in
  -400 ≤ k ∧ 10 ^ (k + 400) * denom e ≤ numer m e * 10 ^ 400 < 10 ^ (k + 401) * denom e.
Proof.
  intros Hc k. apply canon_min in Hc. assert (0 < denom e) as HY by (apply Z.pow_pos_nonneg; lia).
  assert (1 ≤ 2 ^ Z.max e 0) as H2 by (apply (Z.pow_le_mono_r 2 0); lia).
  assert (denom e ≤ 10 ^ 400) as HY2. { transitivity (2 ^ 1074); [apply Z.pow_le_mono_r; lia|by vm_compute]. }
  assert (1 ≤ numer m e) as HX by (unfold numer; nia).
  assert (10 ^ 400 ≤ numer m e * 10 ^ 400) as HX2 by (rewrite <- (Z.mul_1_l (10 ^ 400)) at 1; apply Z.mul_le_mono_nonneg_r; [by vm_compute|done]).
  set (V := numer m e * 10 ^ 400) in *. assert (0 < V / denom e) as Hpos by (apply Z.div_str_pos; lia).
  destruct (decimal_bounds _ Hpos) as [H3 H4]. pose proof (decimal_pos (V / denom e)) as H5. unfold k, exponent10. fold V.
  set (L := Z.of_nat (length (decimal (V / denom e)))) in *. assert (1 ≤ L) by lia. split; [lia|].
  replace (L - 401 + 400) with (L - 1) by lia. replace (L - 401 + 401) with L by lia.
  pose proof (Z.mul_div_le V (denom e) HY). pose proof (Z.mul_succ_div_gt V (denom e) HY). clearbody V. split.
  - transitivity (denom e * (V / denom e)); [rewrite Z.mul_comm; apply Z.mul_le_mono_nonneg_l; lia|done].
  - eapply Z.lt_le_trans; [done|]. rewrite Z.mul_comm. apply Z.mul_le_mono_nonneg_r; lia.
Qed.

Lemma div_even_spec n d : 0 < d → 2 * Z.abs (div_even n d * d - n) ≤ d.
Proof.
  intros Hd. unfold div_even. pose proof (Z.div_mod n d ltac:(lia)). pose proof (Z.mod_pos_bound n d Hd).
  destruct (Z.ltb_spec (2 * (n mod d)) d); [lia|]. destruct (Z.ltb_spec d (2 * (n mod d))); [lia|]. destruct (Z.even _); lia.
Qed.

(** Fractions that are equal are close to the same doubles. *)
Lemma close_eq n d n' d' m e : 0 < d → 0 < d' → n * d' = n' * d → close n d m e → close n' d' m e.
Proof.
  intros Hd Hd' Heq. unfold close. cbv zeta. intros H. apply (Z.mul_le_mono_pos_r _ _ d Hd).
  set (Y := 2 ^ Z.max (- e) 0) in *. set (X := m * 2 ^ Z.max e 0) in *.
  replace (2 * 10 ^ 16 * Z.abs (n' * Y - X * d') * d) with (2 * 10 ^ 16 * Z.abs (n * Y - X * d) * d').
  - replace (X * d' * d) with (X * d * d') by lia. apply Z.mul_le_mono_nonneg_r; lia.
  - rewrite <- !(Z.mul_assoc (2 * 10 ^ 16)). f_equal. rewrite <- (Z.abs_eq d') at 1 by lia. rewrite <- (Z.abs_eq d) at 2 by lia.
    rewrite <- !Z.abs_mul. f_equal. nia.
Qed.

(** The number that the digits stand for. *)
Definition frac_num (n k : Z) : Z := n * 10 ^ Z.max k 0.
Definition frac_den (k : Z) : Z := 10 ^ Z.max (- k) 0.

Lemma frac_den_pos k : 0 < frac_den k.
Proof. apply Z.pow_pos_nonneg; lia. Qed.

(** Zeroes at the end. *)
Lemma close_zeros n k z m e : 0 ≤ z → close (frac_num (n * 10 ^ z) k) (frac_den k) m e ↔ close (frac_num n (k + z)) (frac_den (k + z)) m e.
Proof.
  intros Hz. assert (frac_num (n * 10 ^ z) k * frac_den (k + z) = frac_num n (k + z) * frac_den k) as E.
  { unfold frac_num, frac_den. rewrite <- !Z.mul_assoc, <- !Z.pow_add_r by lia. do 2 f_equal. lia. }
  split; apply close_eq; auto using frac_den_pos.
Qed.

Lemma pow10_shift y a b c a' b' : 0 ≤ a → 0 ≤ b → 0 ≤ c → 0 ≤ a' → 0 ≤ b' → a + b + c = a' + b' →
  10 ^ a * (y * 10 ^ b) * 10 ^ c = 10 ^ a' * y * 10 ^ b'.
Proof.
  intros. replace (10 ^ a * (y * 10 ^ b) * 10 ^ c) with (y * (10 ^ a * 10 ^ b * 10 ^ c)) by lia.
  replace (10 ^ a' * y * 10 ^ b') with (y * (10 ^ a' * 10 ^ b')) by lia. rewrite <- !Z.pow_add_r by lia. by f_equal; f_equal.
Qed.

Lemma digits17_spec m e : canon (Z.pos m) e →
  let '(n, k) := digits17 m e in
  10 ^ 16 ≤ n < 10 ^ 17 ∧ -400 ≤ k ∧ close (frac_num n (k - 16)) (frac_den (k - 16)) (Z.pos m) e.
Proof.
  intros Hc. destruct (exponent10_spec m e Hc) as (Hk & Hlow & Hup). unfold digits17. set (k := exponent10 m e) in *.
  set (num := numer m e * 10 ^ Z.max (16 - k) 0). set (den := denom e * 10 ^ Z.max (k - 16) 0).
  assert (0 < denom e) as HY by (apply Z.pow_pos_nonneg; lia).
  assert (0 < 10 ^ Z.max (k - 16) 0) by (apply Z.pow_pos_nonneg; lia). assert (0 < 10 ^ Z.max (16 - k) 0) by (apply Z.pow_pos_nonneg; lia).
  assert (0 < den) as Hden by (unfold den; lia).
  assert (10 ^ 16 * den ≤ num < 10 ^ 17 * den) as [Hl Hu].
  { assert (∀ c, 16 ≤ c → 10 ^ c * den * 10 ^ 400 = 10 ^ (k + 384 + c) * denom e * 10 ^ Z.max (16 - k) 0) as E.
    { intros c Hc0. apply pow10_shift; lia. }
    assert (0 < 10 ^ 400) as HT by (by vm_compute). unfold num.
    split; [apply (Z.mul_le_mono_pos_r _ _ (10 ^ 400) HT)|apply (Z.mul_lt_mono_pos_r (10 ^ 400) _ _ HT)]; rewrite E by lia.
    - replace (k + 384 + 16) with (k + 400) by lia. rewrite (Z.mul_shuffle0 (numer m e)). by apply Z.mul_le_mono_nonneg_r; [lia|].
    - replace (k + 384 + 17) with (k + 401) by lia. rewrite (Z.mul_shuffle0 (numer m e)). by apply Z.mul_lt_mono_pos_r. }
  pose proof (div_even_spec num den Hden) as Hdiv. set (n := div_even num den) in *.
  assert (10 ^ 16 ≤ n ≤ 10 ^ 17) as Hn by (split; apply Z.lt_succ_r; apply (Z.mul_lt_mono_pos_r den _ _ Hden); lia).
  assert (close (frac_num n (k - 16)) (frac_den (k - 16)) (Z.pos m) e) as Hcl.
  { unfold close, frac_num, frac_den. fold (denom e) (numer m e). replace (- (k - 16)) with (16 - k) by lia. fold num.
    replace (n * 10 ^ Z.max (k - 16) 0 * denom e) with (n * den) by (unfold den; lia). lia. }
  destruct (Z.eqb_spec n (10 ^ 17)) as [E|Hne].
  - split_and!; [lia..|]. replace (k + 1 - 16) with (k - 16 + 1) by lia. apply close_zeros; [lia|].
    replace (10 ^ 16 * 10 ^ 1) with (10 ^ 17) by lia. by rewrite <- E.
  - split_and!; [lia..|done].
Qed.

(** ** Reading digits *)

Definition dval (acc : Z) (l : list ascii) : Z := foldl (λ v a, v * 10 + digit_val a) acc l.
Definition alldigits (l : list ascii) : Prop := Forall (λ a, isdigit a = true) l.

Lemma dval_app acc l1 l2 : dval acc (l1 ++ l2) = dval (dval acc l1) l2.
Proof. apply foldl_app. Qed.

Lemma digit_props v : 0 ≤ v < 10 → isdigit (digit v) = true ∧ digit_val (digit v) = v.
Proof.
  intros Hv. assert (code (digit v) = 48 + v) as E by (unfold code, digit; rewrite N_ascii_embedding; lia).
  unfold isdigit, digit_val. rewrite E. split; [apply andb_true_iff; split; apply Z.leb_le|]; lia.
Qed.

Lemma decimal_digits x : 0 ≤ x → alldigits (decimal x) ∧ dval 0 (decimal x) = x.
Proof.
  induction (Z.lt_wf 0 x) as [x _ IH]. intros Hx. destruct (Z.lt_ge_cases x 10) as [Hlt|Hge].
  - rewrite decimal_small by lia. destruct (digit_props x) as [H1 H2]; [lia|]. split; [by repeat constructor|]. simpl. lia.
  - rewrite decimal_step, dval_app by lia. pose proof (Z.div_lt x 10 ltac:(lia) ltac:(lia)). pose proof (Z.div_str_pos x 10 ltac:(lia)).
    destruct (IH (x / 10)) as [H1 ->]; [lia..|]. destruct (digit_props (x mod 10)) as [H2 H3]; [apply Z.mod_pos_bound; lia|].
    split; [apply Forall_app; by repeat constructor|]. simpl. rewrite H3. pose proof (Z.div_mod x 10 ltac:(lia)). lia.
Qed.

Lemma dval_zeros acc z : dval acc (replicate z "0"%char) = acc * 10 ^ Z.of_nat z.
Proof.
  revert acc. induction z as [|z IH]; intros acc; simpl; [lia|]. rewrite IH, Nat2Z.inj_succ, Z.pow_succ_r by lia. change (digit_val "0") with 0. lia.
Qed.

Lemma alldigits_zeros z : alldigits (replicate z "0"%char).
Proof. by apply Forall_replicate. Qed.

(** The zeroes that are not printed. *)
Lemma strip_split f : ∃ z, f = reverse (strip_zeroes (reverse f)) ++ replicate z "0"%char.
Proof.
  assert (∀ r, ∃ z, r = replicate z "0"%char ++ strip_zeroes r) as H.
  { induction r as [|c r [z IH]]; [by exists 0%nat|]. simpl. destruct (Ascii.eqb_spec c "0") as [->|]; [|by exists 0%nat].
    exists (S z). simpl. by f_equal. }
  destruct (H (reverse f)) as [z Hz]. exists z. rewrite <- (reverse_involutive f) at 1. rewrite Hz at 1.
  by rewrite reverse_app, reverse_replicate.
Qed.

Lemma scan_mant_run pt acc frac n l r : alldigits l →
  scan_mant false pt acc frac n (sds_of (l ++ r)) =
  scan_mant false pt (dval acc l) (if pt then frac + Z.of_nat (length l) else frac) (n + Z.of_nat (length l)) (sds_of r).
Proof.
  intros Hl. revert acc frac n. induction Hl as [|a l Ha Hl IH]; intros acc frac n; cbn [length app dval foldl].
  - f_equal; destruct pt; lia.
  - cbn [sds_of scan_mant]. rewrite (digit_of_isdigit a Ha), IH. f_equal; [destruct pt|]; lia.
Qed.

(** What ends a number. *)
Definition stops (r : list ascii) : Prop := match r with [] => True | c :: _ => digit_of false c = None ∧ code c ≠ 46 end.

Lemma scan_mant_stop pt acc frac n r : stops r → scan_mant false pt acc frac n (sds_of r) = (acc, frac, n, sds_of r).
Proof. destruct r as [|c r]; [done|]. intros [H1 H2]. cbn [sds_of scan_mant]. rewrite H1. by rewrite (proj2 (Z.eqb_neq _ _) H2). Qed.

Lemma scan_point acc frac n l : scan_mant false false acc frac n (sds_of ("."%char :: l)) = scan_mant false true acc frac n (sds_of l).
Proof. done. Qed.

Lemma scan_fixed i f r : alldigits i → alldigits f → i ≠ [] → stops r →
  ∃ v z n, scan_mant false false 0 0 0 (sds_of (fixed i f ++ r)) = (v, Z.of_nat (length f) - Z.of_nat z, n, sds_of r) ∧
    dval 0 (i ++ f) = v * 10 ^ Z.of_nat z ∧ 0 < n.
Proof.
  intros Hi Hf Hne Hr. assert (0 < Z.of_nat (length i)) by (destruct i; simpl; [done|lia]). unfold fixed. destruct (strip_split f) as [z Hz].
  set (f' := reverse (strip_zeroes (reverse f))) in *. rewrite Hz in Hf. apply Forall_app in Hf as [Hf' _].
  exists (dval (dval 0 i) f'), z, (Z.of_nat (length i) + Z.of_nat (length f')). rewrite <- app_assoc, scan_mant_run by done.
  split; [|split; [|lia]].
  - rewrite Hz, length_app, length_replicate. clearbody f'. destruct f' as [|c f'].
    { rewrite app_nil_l, scan_mant_stop by done. f_equal. f_equal; [f_equal|]; simpl length; lia. }
    rewrite <- app_comm_cons, scan_point, (scan_mant_run true _ _ _ (c :: f') r Hf'), (scan_mant_stop true _ _ _ r Hr).
    repeat f_equal; simpl length; lia.
  - by rewrite dval_app, Hz, dval_app, dval_zeros.
Qed.

Lemma dec_close neg v k m e : 0 < v → canon (Z.pos m) e → e ≤ 971 → close (frac_num v k) (frac_den k) (Z.pos m) e →
  dec_to_double 53 1024 neg v k = S754_finite neg m e.
Proof.
  intros Hv Hc Hmax Hn. destruct v as [|p|p]; [lia| |lia]. unfold dec_to_double, frac_num, frac_den in *. destruct (Z.leb_spec 0 k) as [Hk|Hk].
  - rewrite Z.max_l, Z.max_r, Z.pow_0_r in Hn by lia. assert (0 < 10 ^ k) by (apply Z.pow_pos_nonneg; lia).
    destruct (Z.pos p * 10 ^ k) as [|q|q] eqn:Eq; [lia| |lia]. destruct neg; simpl; by apply close_integer.
  - rewrite Z.max_r, Z.max_l, Z.pow_0_r, Z.mul_1_r in Hn by lia. assert (0 < 10 ^ (- k)) by (apply Z.pow_pos_nonneg; lia).
    destruct (10 ^ (- k)) as [|q|q] eqn:Eq; [lia| |lia]. by apply close_quotient.
Qed.

(** The characters of a printed number. *)
Definition okc (a : ascii) : Prop := isdigit a = true ∨ a = "."%char ∨ a = "e"%char ∨ a = "-"%char ∨ a = "+"%char.

Lemma alldigits_okc l : alldigits l → Forall okc l.
Proof. intros Hl. eapply Forall_impl; [exact Hl|]. by left. Qed.

Lemma okc_not_x a : okc a → (code (tolower a) =? 120) = false.
Proof.
  intros [Hd|H]; [|by destruct H as [->|[->|[->| ->]]]]. assert (tolower a = a) as -> by (unfold tolower; unfold isdigit in Hd; cases_Z; done || (exfalso; lia)).
  unfold isdigit in Hd. apply Z.eqb_neq. lia.
Qed.

Lemma strtod_decimal neg a l : isdigit a = true → Forall okc l →
  strtod_unsigned 53 1024 neg (sds_of (a :: l)) =
  let '(m, frac, n, r) := scan_mant false false 0 0 0 (sds_of (a :: l)) in
  if n =? 0 then None
  else let '(e, q) := scan_exp 101 r in
       let d := dec_to_double 53 1024 neg m (e - frac) in
       Some (d, is_infinite d || (is_zero d && (0 <? m)), q).
Proof.
  intros Ha Hl. unfold strtod_unsigned. rewrite (strtod_word_digit neg a (sds_of l) Ha : strtod_word neg (sds_of (a :: l)) = None).
  destruct Hl as [|x l Hx Hl]; [done|]. cbn [sds_of]. by rewrite (okc_not_x x Hx), andb_false_r.
Qed.

Lemma fixed_shape i f : alldigits i → alldigits f → Forall okc (fixed i f).
Proof.
  intros Hi Hf. destruct (strip_split f) as [z Hz]. unfold fixed. rewrite Hz in Hf. apply Forall_app in Hf as [Hf _].
  apply Forall_app. split; [by apply alldigits_okc|]. destruct (reverse _) as [|c f'] eqn:E; [done|].
  constructor; [by right; left|]. by apply alldigits_okc.
Qed.

Lemma scan_digits_run acc l : alldigits l → scan_digits acc (sds_of l) = (dval acc l, ""%string).
Proof. intros Hl. revert acc. induction Hl as [|a l Ha Hl IH]; intros acc; simpl; [done|]. by rewrite Ha, IH. Qed.

Lemma scan_fmt_exp k : scan_exp 101 (sds_of (fmt_exp k)) = (k, ""%string) ∧ stops (fmt_exp k) ∧ Forall okc (fmt_exp k).
Proof.
  unfold fmt_exp. set (ds := (if Z.abs k <? 10 then _ else _) ++ _).
  assert (alldigits ds ∧ dval 0 ds = Z.abs k ∧ ds ≠ []) as (Hd & Hv & Hne).
  { destruct (decimal_digits (Z.abs k)) as [H1 H2]; [lia|]. pose proof (decimal_pos (Z.abs k)). subst ds.
    destruct (Z.abs k <? 10); simpl app; [|split_and!; [done..|]; intros E; rewrite E in *; simpl in *; lia]. split_and!; [by constructor| |done]. by simpl. }
  clearbody ds. split; [|split; [done|]].
  - destruct Hd as [|c ds Hc Hd]; [done|]. assert (alldigits (c :: ds)) as Hd' by (by constructor).
    pose proof (scan_digits_run 0 _ Hd') as Hs. rewrite Hv in Hs. cbn [sds_of] in *.
    unfold scan_exp. change (code (tolower "e") =? 101) with true. cbv iota.
    destruct (Z.ltb_spec k 0); cbn [head_digit]; [change (code "-" =? 45) with true|change (code "+" =? 45) with false; change (code "+" =? 43) with true];
      cbv iota; rewrite Hc, Hs; f_equal; lia.
  - constructor; [by right; right; left|]. constructor; [destruct (k <? 0); [by do 3 right; left|by do 4 right]|]. by apply alldigits_okc.
Qed.

(** ** Printing and reading *)

Lemma abs_shape m e n k : digits17 m e = (n, k) → 10 ^ 16 ≤ n < 10 ^ 17 →
  ∃ i f r x, fmt_17g_abs m e = fixed i f ++ r ∧ alldigits i ∧ alldigits f ∧ i ≠ [] ∧ stops r ∧ Forall okc r ∧
    scan_exp 101 (sds_of r) = (x, ""%string) ∧ x - Z.of_nat (length f) = k - 16 ∧ dval 0 (i ++ f) = n.
Proof.
  intros Hd Hn. unfold fmt_17g_abs. rewrite Hd. destruct (decimal_digits n) as [Hds Hv]; [lia|].
  assert (Z.of_nat (length (decimal n)) = 17) as Hl by (apply decimal_range; lia). set (ds := decimal n) in *. clearbody ds.
  assert (∀ j, (0 < j)%nat → take j ds ≠ []) as Hne by (intros [|j] Hj; [lia|]; destruct ds; simpl in *; [lia|done]).
  assert (∀ j, alldigits (take j ds) ∧ alldigits (drop j ds)) as Htd by (intros; split; [by apply Forall_take|by apply Forall_drop]).
  destruct (Z.leb_spec (-4) k), (Z.ltb_spec k 17); cbn [andb].
  1: destruct (Z.leb_spec 0 k).
  - exists (take (Z.to_nat (k + 1)) ds), (drop (Z.to_nat (k + 1)) ds), [], 0. rewrite app_nil_r, take_drop, length_drop.
    split_and!; try done; [apply Htd|apply Htd|apply Hne; lia|lia].
  - exists ["0"%char], (replicate (Z.to_nat (- k - 1)) "0"%char ++ ds), [], 0. rewrite app_nil_r, length_app, length_replicate.
    split_and!; try done; [by repeat constructor|apply Forall_app; split; [apply alldigits_zeros|done]|lia|].
    change (dval 0 (replicate (Z.to_nat (- k - 1)) "0"%char ++ ds) = n). by rewrite dval_app, dval_zeros.
  - destruct (scan_fmt_exp k) as (? & ? & ?). exists (take 1 ds), (drop 1 ds), (fmt_exp k), k. rewrite take_drop, length_drop.
    split_and!; try done; [apply Htd|apply Htd|apply Hne; lia|lia].
  - destruct (scan_fmt_exp k) as (? & ? & ?). exists (take 1 ds), (drop 1 ds), (fmt_exp k), k. rewrite take_drop, length_drop.
    split_and!; try done; [apply Htd|apply Htd|apply Hne; lia|lia].
  - destruct (scan_fmt_exp k) as (? & ? & ?). exists (take 1 ds), (drop 1 ds), (fmt_exp k), k. rewrite take_drop, length_drop.
    split_and!; try done; [apply Htd|apply Htd|apply Hne; lia|lia].
Qed.

Lemma strtod_abs neg m e : canon (Z.pos m) e → e ≤ 971 →
  strtod_unsigned 53 1024 neg (sds_of (fmt_17g_abs m e)) = Some (S754_finite neg m e, false, ""%string) ∧
  ∃ a l, fmt_17g_abs m e = a :: l ∧ isdigit a = true.
Proof.
  intros Hc Hmax. pose proof (digits17_spec m e Hc) as Hd. destruct (digits17 m e) as [n k] eqn:Ed. destruct Hd as (Hn & _ & Hcl).
  destruct (abs_shape m e n k Ed Hn) as (i & f & r & x & Hf & Hi & Hf0 & Hne & Hr & Hok & Hexp & Hx & Hv).
  destruct (scan_fixed i f r Hi Hf0 Hne Hr) as (v & z & c & Hscan & Hval & Hc0).
  pose proof (fixed_shape i f Hi Hf0) as Hall. rewrite <- Hf in Hscan.
  assert (∃ a l, fmt_17g_abs m e = a :: l ∧ isdigit a = true) as (a & l & Ha & Hda).
  { rewrite Hf. destruct Hi as [|a i Ha Hi]; [done|]. by eexists _, _. }
  split; [|by eauto]. assert (Forall okc l) as Hl.
  { assert (Forall okc (a :: l)) as H by (rewrite <- Ha, Hf; by apply Forall_app). by inversion H. }
  rewrite Ha, strtod_decimal, <- Ha, Hscan by done. cbv beta iota. rewrite (proj2 (Z.eqb_neq c 0)), Hexp by lia.
  rewrite Hv in Hval. assert (0 < 10 ^ Z.of_nat z) by (apply Z.pow_pos_nonneg; lia). assert (0 < v) as Hv0 by nia.
  rewrite Hval in Hcl. apply (close_zeros v (k - 16) (Z.of_nat z) (Z.pos m) e ltac:(lia)) in Hcl.
  replace (x - (Z.of_nat (length f) - Z.of_nat z)) with (k - 16 + Z.of_nat z) by lia. by rewrite (dec_close neg v _ m e Hv0 Hc Hmax Hcl).
Qed.

Lemma strtod_fmt_17g neg m e : canon (Z.pos m) e → e ≤ 971 →
  strtod 53 1024 (fmt_17g neg m e) = Some (S754_finite neg m e, false, ""%string).
Proof.
  intros Hc Hmax. destruct (strtod_abs neg m e Hc Hmax) as (Hs & a & l & Ha & Hd). unfold fmt_17g, strtod. destruct neg; simpl app.
  - exact Hs.
  - rewrite Ha in *. cbn [sds_of skip_space]. rewrite (isdigit_not_space a Hd). destruct (isdigit_not_sign a Hd) as [H1 H2].
    unfold strtod_signed. by rewrite H1, H2.
Qed.

(** ** The length *)

Lemma exponent10_max m e : canon (Z.pos m) e → e ≤ 971 → exponent10 m e ≤ 308.
Proof.
  intros Hc Hmax. destruct (exponent10_spec m e Hc) as (Hk & Hlow & _). apply canon_small in Hc. apply Z.nlt_ge. intros Hgt.
  assert (1 ≤ denom e) as Hd by (apply (Z.pow_le_mono_r 2 0); lia).
  assert (2 ^ Z.max e 0 ≤ 2 ^ 971) as H2 by (apply Z.pow_le_mono_r; lia).
  assert (numer m e < 10 ^ 309) as H3.
  { apply Z.lt_le_trans with (2 ^ 53 * 2 ^ 971); [|by vm_compute]. unfold numer. apply Z.le_lt_trans with (Z.pos m * 2 ^ 971).
    - apply Z.mul_le_mono_nonneg_l; [lia|done].
    - apply Z.mul_lt_mono_pos_r; [by vm_compute|done]. }
  assert (10 ^ 709 ≤ 10 ^ (exponent10 m e + 400)) as H4 by (apply Z.pow_le_mono_r; lia).
  assert (numer m e * 10 ^ 400 < 10 ^ 709) as H5.
  { change (10 ^ 709) with (10 ^ 309 * 10 ^ 400). apply Z.mul_lt_mono_pos_r; [by vm_compute|done]. }
  assert (10 ^ (exponent10 m e + 400) * 1 ≤ 10 ^ (exponent10 m e + 400) * denom e) as H6 by (apply Z.mul_le_mono_nonneg_l; [apply Z.pow_nonneg|]; lia).
  rewrite Z.mul_1_r in H6. apply (Z.lt_irrefl (10 ^ 709)). eapply Z.le_lt_trans; [|exact H5]. etrans; [exact H4|]. etrans; [exact H6|exact Hlow].
Qed.

Lemma sds_of_length l : String.length (sds_of l) = length l.
Proof. induction l; simpl; congruence. Qed.

Lemma fixed_length i f : (length (fixed i f) ≤ length i + length f + 1)%nat.
Proof.
  unfold fixed. destruct (strip_split f) as [z Hz]. rewrite length_app. rewrite Hz at 2. rewrite length_app.
  destruct (reverse _); simpl; lia.
Qed.

Lemma fmt_17g_length neg m e : canon (Z.pos m) e → e ≤ 971 → (String.length (fmt_17g neg m e) < 32)%nat.
Proof.
  intros Hc Hmax. pose proof (digits17_spec m e Hc) as Hd. pose proof (exponent10_max m e Hc Hmax) as Hk.
  assert ((digits17 m e).2 ≤ 309) as Hk2 by (unfold digits17; cbv zeta; destruct (_ =? _); cbn [snd]; lia).
  unfold fmt_17g, fmt_17g_abs. rewrite sds_of_length, length_app. destruct (digits17 m e) as [n k]. cbn [snd] in Hk2. destruct Hd as (Hn & Hk1 & _).
  assert (Z.of_nat (length (decimal n)) = 17) as Hl by (apply decimal_range; lia).
  assert (length (if neg then ["-"%char] else []) ≤ 1)%nat as Hs by (destruct neg; simpl; lia).
  assert (length (decimal (Z.abs k)) ≤ 3)%nat as Hx by (apply decimal_le; simpl; lia).
  destruct ((-4 <=? k) && (k <? 17)) eqn:Hcase.
  - destruct (Z.leb_spec 0 k); (eapply Nat.le_lt_trans; [apply Nat.add_le_mono; [exact Hs|apply fixed_length]|]).
    + rewrite length_take, length_drop. lia.
    + rewrite length_app, length_replicate. simpl length. lia.
  - rewrite length_app. pose proof (fixed_length (take 1 (decimal n)) (drop 1 (decimal n))) as H1. rewrite length_take, length_drop in H1.
    unfold fmt_exp. simpl length. rewrite length_app. destruct (Z.abs k <? 10); simpl length; lia.
Qed.

(** A [long long] that is read as a [double]. *)
Lemma strtod_int n : ∃ b, strtod 53 1024 (fmt_d n) = Some (dofZ n, b, ""%string).
Proof.
  destruct n as [|p|p]; [by eexists|..].
  - rewrite fmt_d_pos. destruct (pretty_N_go_head (N.pos p) "") as (a & r & Heq & Hd & Hc); [lia|].
    destruct (isdigit_not_sign a Hd) as [H1 H2]. rewrite Heq. unfold strtod. cbn [skip_space]. rewrite (isdigit_not_space a Hd).
    unfold strtod_signed. rewrite H1, H2, <- Heq, strtod_digits. unfold dec_to_double. cbv zeta. rewrite Z.mul_1_l, Z.pow_0_r, Z.mul_1_r. by eexists.
  - rewrite fmt_d_neg. unfold strtod. cbn [skip_space]. change (isspace "-") with false. cbv iota.
    unfold strtod_signed. change (code "-" =? 45) with true. cbv iota. rewrite strtod_digits. unfold dec_to_double. cbv zeta.
    rewrite Z.pow_0_r, Z.mul_1_r. by eexists.
Qed.

Lemma deqb_finite neg m e y : isnan y = false → deqb (S754_finite neg m e) y = true → y = S754_finite neg m e.
Proof.
  intros Hn. rewrite deqb_key by done. intros Hk. destruct y as [s|s| |s m' e']; try done; destruct neg; try destruct s; simpl in Hk; simplify_eq; try done.
  f_equal. lia.
Qed.

(** ** The round trip *)

(** What is read from the text of a score: by [strtod], or from the integer
    that a ziplist stores instead. *)
Definition reads_as (s : sds) (x : double) : Prop :=
  (∃ b, strtod 53 1024 s = Some (x, b, ""%string)) ∧ ∀ n, string2ll s = Some n → dofZ n = x.

Lemma strtod_reads s x b : strtod 53 1024 s = Some (x, b, ""%string) → reads_as s x.
Proof.
  intros Hs. split; [by exists b|]. intros n [_ ->]%string2ll_spec. destruct (strtod_int n) as [b' Hn]. rewrite Hn in Hs. by injection Hs.
Qed.

Lemma valid_finite neg m e : valid_binary 53 1024 (S754_finite neg m e) = true → canon (Z.pos m) e ∧ e ≤ 971.
Proof. simpl. unfold bounded, canonical_mantissa. intros [H1%Z.eqb_eq H2%Z.leb_le]%andb_true_iff. done. Qed.

Lemma dtoll_range neg m e : canon (Z.pos m) e → let x := S754_finite neg m e in
  dltb (dofZ (-4503599627370495)) x = true → dltb x (dofZ 4503599627370496) = true → int64 (dtoll x).
Proof.
  intros Hc x H1 H2. apply canon_small in Hc. rewrite dltb_key in H1, H2 by done.
  assert (e ≤ 0) as He by (destruct neg; [vm_compute (dkey (dofZ _)) in H1|vm_compute (dkey (dofZ _)) in H2]; simpl in H1, H2; lia).
  unfold dtoll, x, numer, denom. rewrite Z.max_r, Z.max_l, Z.pow_0_r, Z.mul_1_r by lia.
  assert (0 < 2 ^ (- e)) by (apply Z.pow_pos_nonneg; lia).
  assert (0 ≤ Z.pos m / 2 ^ (- e) ≤ Z.pos m) as Hq by (split; [by apply Z.div_pos|apply Z.div_le_upper_bound; nia]).
  unfold int64, LLONG_MIN, LLONG_MAX. destruct neg; lia.
Qed.

Lemma d2string_spec buf x : valid_binary 53 1024 x = true → (32 ≤ length buf)%nat →
  ∃ s, d2string buf x = Some s ∧ (String.length s < 32)%nat ∧ reads_as s x.
Proof.
  intros Hx Hbuf. assert (∀ s, (String.length s < 32)%nat → snprintf buf s = Some s) as Hprint.
  { intros s Hs. unfold snprintf. by rewrite (proj2 (Z.ltb_lt _ _)) by lia. }
  destruct x as [neg|neg| |neg m e]; cbn [d2string].
  - exists (if neg then "-0" else "0")%string. rewrite Hprint by (destruct neg; simpl; lia).
    split_and!; [done|destruct neg; simpl; lia|]. by destruct neg; eapply strtod_reads; vm_compute.
  - exists (if neg then "-inf" else "inf")%string. rewrite Hprint by (destruct neg; simpl; lia).
    split_and!; [done|destruct neg; simpl; lia|]. by destruct neg; eapply strtod_reads; vm_compute.
  - exists "nan"%string. rewrite Hprint by (simpl; lia). split_and!; [done|simpl; lia|]. by eapply strtod_reads; vm_compute.
  - destruct (valid_finite neg m e Hx) as [Hc Hmax]. cbv zeta. set (x := S754_finite neg m e) in *.
    destruct (dltb (dofZ (-4503599627370495)) x && dltb x (dofZ 4503599627370496) && deqb x (dofZ (dtoll x))) eqn:Hint.
    + apply andb_true_iff in Hint as [[H1 H2]%andb_true_iff H3]. pose proof (dtoll_range neg m e Hc H1 H2) as Hr. fold x in Hr.
      apply deqb_finite in H3; [|apply isnan_dofZ]. destruct (fmt_d_length (dtoll x) Hr) as [_ Hlen].
      destruct (ll2string_prints buf (dtoll x) Hr) as (rest & -> & _); [lia|]. cbn [mbind option_bind]. exists (fmt_d (dtoll x)).
      split; [by rewrite Nat2Z.id, <- length_chars, take_app_length, sds_of_chars|]. split; [done|].
      destruct (strtod_int (dtoll x)) as [b Hb]. rewrite H3 in Hb. by eapply strtod_reads.
    + pose proof (fmt_17g_length neg m e Hc Hmax) as Hlen. exists (fmt_17g neg m e). rewrite Hprint by done. split_and!; [done..|].
      by eapply strtod_reads, strtod_fmt_17g.
Qed.

(** C29: Scores survive being stored.  For every value of the type [double],
    the infinities, signed zeroes and subnormal numbers included, [d2string]
    prints at most 31 characters into a buffer of at least 32; [strtod] reads
    them to the last one and gives the value that was printed; and where the
    text is that of a [long long], as which a ziplist keeps it, the [double]
    of that integer is the value as well. *)
Theorem score_roundtrip buf x : valid_binary 53 1024 x = true → (32 ≤ length buf)%nat →
  ∃ s, d2string buf x = Some s ∧ (String.length s < 32)%nat ∧ (∃ erange, strtod 53 1024 s = Some (x, erange, ""%string)) ∧
    ∀ n, string2ll s = Some n → dofZ n = x.
Proof. intros Hx Hbuf. destruct (d2string_spec buf x Hx Hbuf) as (s & Hs & Hl & [H1 H2]). by exists s. Qed.

Lemma score_roundtrip_witness :
  let x := S754_finite false 7205759403792794 (-56) in
  ∃ s, d2string (replicate 128 "x"%char) x = Some s ∧ ∃ erange, strtod 53 1024 s = Some (x, erange, ""%string).
Proof.
  intros x. destruct (score_roundtrip (replicate 128 "x"%char) x) as (s & H1 & _ & H2 & _); [reflexivity|apply (bool_decide_unpack _); vm_compute; exact I|].
  exists s. exact (conj H1 H2).
Defined.

(** ** Sums are doubles *)

Lemma valid_opp x : valid_binary 53 1024 (SFopp x) = valid_binary 53 1024 x.
Proof. by destruct x. Qed.

Lemma binary_round_sign m e : binary_round 53 1024 true m e = SFopp (binary_round 53 1024 false m e).
Proof.
  unfold binary_round, binary_round_aux. destruct (shl_align _ _ _) as [mz ez]. destruct (shr_fexp _ _ _ _ _) as [r1 e1].
  destruct (shr_fexp _ _ _ e1 _) as [r2 e2]. destruct (shr_m r2); [done| |done]. by destruct (_ <=? _).
Qed.

Lemma valid_normalize z e s : -1074 ≤ e → valid_binary 53 1024 (binary_normalize 53 1024 z e s) = true.
Proof.
  intros He. assert (∀ m, valid_binary 53 1024 (binary_round 53 1024 false m e) = true) as H.
  { intros m. destruct (binary_round_pos m e He) as [->|(m' & e' & -> & [_ Hc] & Hmax & _)]; [done|]. simpl. unfold bounded, canonical_mantissa.
    apply andb_true_iff. split; [by apply Z.eqb_eq|by apply Z.leb_le]. }
  destruct z as [|m|m]; simpl; [done|apply H|]. by rewrite binary_round_sign, valid_opp.
Qed.

Lemma valid_dadd x y : valid_binary 53 1024 x = true → valid_binary 53 1024 y = true → valid_binary 53 1024 (dadd x y) = true.
Proof.
  intros Hx Hy. unfold dadd, SFadd. destruct x as [sx|sx| |sx mx ex], y as [sy|sy| |sy my ey]; try done; try (by destruct sx, sy).
  apply valid_normalize. apply valid_finite in Hx as [Hx%canon_min _]. apply valid_finite in Hy as [Hy%canon_min _]. lia.
Qed.
