(* ===== verification/HashCommands.v ===== *)
(** * The commands on hashes (src/t_hash.c)

    HSET, HMSET, HSETNX, HINCRBY, HINCRBYFLOAT, HGET, HMGET, HDEL, HLEN, HSTRLEN,
    HKEYS, HVALS, HGETALL and HEXISTS, as [call] dispatches them: each command
    reads its arguments from the client, works on the objects of [Hash] and adds
    to the reply.

    A key that holds another type is [VOther].  Keys do not expire.  The events
    of the keyspace, the keys whose watchers are told and the count of changes
    are kept as the code produces them. *)

From Stdlib Require Import Ascii.
From S2P Require Import Prelude.
From S2P Require Import Sds.
From S2P Require Import Util.
From S2P Require Import Dict.
From S2P Require Import SipHash.
From S2P Require Import Ziplist.
From S2P Require Import Hash.
From S2P Require Import Double.
From S2P Require Import LongDouble.

#[local] Open Scope Z_scope.

(** What the functions [addReply...] send. *)
Inductive token :=
  | TArrayLen (n : Z)
  | TMapLen (n : Z)
  | TBulk (s : sds)
  | TInt (z : Z)
  | TNull
  | TOk
  | TError (msg : sds)
  | TWrongType
  | TEmptyMap.

Inductive hvalue :=
  | VHash (o : hash_obj)
  | VOther.

(** The client and its database. *)
Record hclient := mkClient {
  c_argv : list sds;
  c_db : gmap sds hvalue;
  c_reply : list token;
  c_dirty : Z;
  c_touched : list sds;
  c_events : list (sds * sds)
}.

Definition addReply (t : token) (c : hclient) : hclient :=
  mkClient (c_argv c) (c_db c) (c_reply c ++ [t]) (c_dirty c) (c_touched c) (c_events c).
Definition set_db (db : gmap sds hvalue) (c : hclient) : hclient :=
  mkClient (c_argv c) db (c_reply c) (c_dirty c) (c_touched c) (c_events c).
Definition set_argv (argv : list sds) (c : hclient) : hclient :=
  mkClient argv (c_db c) (c_reply c) (c_dirty c) (c_touched c) (c_events c).
Definition add_dirty (n : Z) (c : hclient) : hclient :=
  mkClient (c_argv c) (c_db c) (c_reply c) (c_dirty c + n) (c_touched c) (c_events c).
Definition signalModifiedKey (key : sds) (c : hclient) : hclient :=
  mkClient (c_argv c) (c_db c) (c_reply c) (c_dirty c) (c_touched c ++ [key]) (c_events c).
Definition notifyKeyspaceEvent (event key : sds) (c : hclient) : hclient :=
  mkClient (c_argv c) (c_db c) (c_reply c) (c_dirty c) (c_touched c) (c_events c ++ [(event, key)]).

(** The object behind the pointer that a command holds. *)
Definition store (key : sds) (o : hash_obj) (c : hclient) : hclient := set_db (<[key:=VHash o]> (c_db c)) c.

(** The three calls at the end of a change. *)
Definition modified (key event : sds) (n : Z) (c : hclient) : hclient :=
  add_dirty n (notifyKeyspaceEvent event key (signalModifiedKey key c)).

Definition argv (c : hclient) (i : nat) : option sds := c_argv c !! i.

(** [lookupKeyReadOrReply] and [checkType]: the object, or the reply. *)
Definition lookup_hash (c : hclient) (key : sds) (reply : token) : hash_obj + hclient :=
  match c_db c !! key with
  | None => inr (addReply reply c)
  | Some VOther => inr (addReply TWrongType c)
  | Some (VHash o) => inl o
  end.

Section commands.
Context (env : hash_env).

(** [addReplyBulkCBuffer] or [addReplyBulkLongLong]. *)
Definition reply_value (v : zl_value) : option token :=
  match v with
  | ZlStr bs => Some (TBulk (bytes_sds bs))
  | ZlInt vll => '(buf, len) ← ll2string (take 64 (stack_buf env)) vll; Some (TBulk (sds_of (take (Z.to_nat len) buf)))
  end.

Definition hashTypeLookupWriteOrCreate (c : hclient) (key : sds) : option (hclient * option hash_obj) :=
  match c_db c !! key with
  | None => o ← createHashObject env; Some (store key o c, Some o)
  | Some VOther => Some (addReply TWrongType c, None)
  | Some (VHash o) => Some (c, Some o)
  end.

(** ** Changes *)

Definition hsetnxCommand (c : hclient) : option hclient :=
  key ← argv c 1; field ← argv c 2; value ← argv c 3;
  '(c, o) ← hashTypeLookupWriteOrCreate c key;
  match o with
  | None => Some c
  | Some o =>
      o ← hashTypeTryConversion env o [field; value];
      '(o, found) ← hashTypeExists env o field;
      if found : bool then Some (addReply (TInt 0) (store key o c))
      else
        '(o, _) ← hashTypeSet env o field value;
        Some (modified key "hset" 1 (addReply (TInt 1) (store key o c)))
  end.

(** The loop over the pairs of arguments. *)
Fixpoint hset_loop (o : hash_obj) (args : list sds) (created : Z) : option (hash_obj * Z) :=
  match args with
  | [] => Some (o, created)
  | [_] => None
  | field :: value :: args =>
      '(o, update) ← hashTypeSet env o field value;
      hset_loop o args (created + (if update : bool then 0 else 1))
  end.

Definition hsetCommand (c : hclient) : option hclient :=
  if Z.of_nat (length (c_argv c)) mod 2 =? 1 then Some (addReply (TError "wrong number of arguments for HMSET") c)
  else
    key ← argv c 1;
    '(c, o) ← hashTypeLookupWriteOrCreate c key;
    match o with
    | None => Some c
    | Some o =>
        o ← hashTypeTryConversion env o (drop 2 (c_argv c));
        '(o, created) ← hset_loop o (drop 2 (c_argv c)) 0;
        cmdname ← argv c 0;
        c1 ← String.get 1 cmdname;
        let c := store key o c in
        Some (modified key "hset" 1
          (if Ascii.eqb c1 "s" || Ascii.eqb c1 "S" then addReply (TInt created) c else addReply TOk c))
    end.

Definition hincrbyCommand (c : hclient) : option hclient :=
  key ← argv c 1; field ← argv c 2; arg ← argv c 3;
  match string2ll arg with
  | None => Some (addReply (TError "value is not an integer or out of range") c)
  | Some incr =>
      '(c, o) ← hashTypeLookupWriteOrCreate c key;
      match o with
      | None => Some c
      | Some o =>
          '(o, v) ← hashTypeGetValue env o field;
          let c := store key o c in
          match match v with
                | Some (ZlStr bs) => string2ll (bytes_sds bs)
                | Some (ZlInt value) => Some value
                | None => Some 0
                end with
          | None => Some (addReply (TError "hash value is not an integer") c)
          | Some oldvalue =>
              if ((incr <? 0) && (oldvalue <? 0) && (incr <? LLONG_MIN - oldvalue))
                 || ((incr >? 0) && (oldvalue >? 0) && (incr >? LLONG_MAX - oldvalue))
              then Some (addReply (TError "increment or decrement would overflow") c)
              else
                let value := oldvalue + incr in
                new ← sdsfromlonglong (take SDS_LLSTR_SIZE (stack_buf env)) value;
                '(o, _) ← hashTypeSet env o field new;
                Some (modified key "hincrby" 1 (addReply (TInt value) (store key o c)))
          end
      end
  end.

(** The arguments are rewritten for the replicas. *)
Definition hincrbyfloatCommand (c : hclient) : option hclient :=
  key ← argv c 1; field ← argv c 2; arg ← argv c 3;
  match string2ld arg with
  | None => Some (addReply (TError "value is not a valid float") c)
  | Some incr =>
      '(c, o) ← hashTypeLookupWriteOrCreate c key;
      match o with
      | None => Some c
      | Some o =>
          '(o, v) ← hashTypeGetValue env o field;
          let c := store key o c in
          match match v with
                | Some (ZlStr bs) => string2ld (bytes_sds bs)
                | Some (ZlInt ll) => Some (ldofZ ll)
                | None => Some (ldofZ 0)
                end with
          | None => Some (addReply (TError "hash value is not a float") c)
          | Some value =>
              let value := ldadd value incr in
              if isnan value || is_infinite value then Some (addReply (TError "increment would produce NaN or Infinity") c)
              else
                let new := ld2string value in
                '(o, _) ← hashTypeSet env o field new;
                let c := modified key "hincrbyfloat" 1 (addReply (TBulk new) (store key o c)) in
                Some (set_argv (<[0%nat:="HSET"]> (<[3%nat:=new]> (c_argv c))) c)
          end
      end
  end.

(** The loop of HDEL over the fields: the object, [deleted], and
    [keyremoved]. *)
Fixpoint hdel_loop (o : hash_obj) (fields : list sds) (deleted : Z) : option (hash_obj * Z * bool) :=
  match fields with
  | [] => Some (o, deleted, false)
  | field :: fields =>
      '(o, found) ← hashTypeDelete env o field;
      if found : bool then
        '(o, length) ← hashTypeLength o;
        if length =? 0 then Some (o, deleted + 1, true) else hdel_loop o fields (deleted + 1)
      else hdel_loop o fields deleted
  end.

Definition hdelCommand (c : hclient) : option hclient :=
  key ← argv c 1;
  match lookup_hash c key (TInt 0) with
  | inr c => Some c
  | inl o =>
      '(o, deleted, keyremoved) ← hdel_loop o (drop 2 (c_argv c)) 0;
      let c := if keyremoved : bool then set_db (delete key (c_db c)) c else store key o c in
      let c :=
        if deleted =? 0 then c
        else
          let c := notifyKeyspaceEvent "hdel" key (signalModifiedKey key c) in
          let c := if keyremoved then notifyKeyspaceEvent "del" key c else c in
          add_dirty deleted c in
      Some (addReply (TInt deleted) c)
  end.

(** ** Reading *)

Definition addHashFieldToReply (o : hash_obj) (field : sds) : option (hash_obj * token) :=
  match o with
  | OBJ_ENCODING_ZIPLIST zl =>
      r ← hashTypeGetFromZiplist zl field;
      match r with
      | None => Some (o, TNull)
      | Some v => t ← reply_value v; Some (o, t)
      end
  | OBJ_ENCODING_HT d =>
      '(d, value) ← hashTypeGetFromHashTable env d field;
      Some (OBJ_ENCODING_HT d, match value with Some s => TBulk s | None => TNull end)
  end.

Definition hgetCommand (c : hclient) : option hclient :=
  key ← argv c 1; field ← argv c 2;
  match lookup_hash c key TNull with
  | inr c => Some c
  | inl o => '(o, t) ← addHashFieldToReply o field; Some (addReply t (store key o c))
  end.

Fixpoint hmget_loop (key : sds) (o : hash_obj) (fields : list sds) (c : hclient) : option hclient :=
  match fields with
  | [] => Some c
  | field :: fields => '(o, t) ← addHashFieldToReply o field; hmget_loop key o fields (addReply t (store key o c))
  end.

Definition hmgetCommand (c : hclient) : option hclient :=
  key ← argv c 1;
  let fields := drop 2 (c_argv c) in
  let head := addReply (TArrayLen (Z.of_nat (length (c_argv c)) - 2)) in
  match c_db c !! key with
  | Some VOther => Some (addReply TWrongType c)
  | None => Some (foldl (λ c _, addReply TNull c) (head c) fields)
  | Some (VHash o) => hmget_loop key o fields (head c)
  end.

Definition hlenCommand (c : hclient) : option hclient :=
  key ← argv c 1;
  match lookup_hash c key (TInt 0) with
  | inr c => Some c
  | inl o => '(o, n) ← hashTypeLength o; Some (addReply (TInt n) (store key o c))
  end.

Definition hstrlenCommand (c : hclient) : option hclient :=
  key ← argv c 1; field ← argv c 2;
  match lookup_hash c key (TInt 0) with
  | inr c => Some c
  | inl o => '(o, n) ← hashTypeGetValueLength env o field; Some (addReply (TInt n) (store key o c))
  end.

Definition hexistsCommand (c : hclient) : option hclient :=
  key ← argv c 1; field ← argv c 2;
  match lookup_hash c key (TInt 0) with
  | inr c => Some c
  | inl o => '(o, found) ← hashTypeExists env o field; Some (addReply (TInt (if found : bool then 1 else 0)) (store key o c))
  end.

Definition addHashIteratorCursorToReply (o : hash_obj) (hi : hashTypeIterator) (what : hash_what) (c : hclient) : option hclient :=
  match o with
  | OBJ_ENCODING_ZIPLIST zl => v ← hashTypeCurrentFromZiplist zl hi what; t ← reply_value v; Some (addReply t c)
  | OBJ_ENCODING_HT d => s ← hashTypeCurrentFromHashTable d hi what; Some (addReply (TBulk s) c)
  end.

(** The loop of [genericHgetallCommand]: the object, the iterator, [count]. *)
Fixpoint getall_loop (fuel : nat) (keys values : bool) (o : hash_obj) (hi : hashTypeIterator) (count : Z) (c : hclient)
    : option (hash_obj * hashTypeIterator * Z * hclient) :=
  match fuel with
  | O => None
  | S fuel' =>
      '(o, hi, found) ← hashTypeNext o hi;
      if found : bool then
        c ← (if keys then addHashIteratorCursorToReply o hi OBJ_HASH_KEY c else Some c);
        c ← (if values then addHashIteratorCursorToReply o hi OBJ_HASH_VALUE c else Some c);
        getall_loop fuel' keys values o hi (count + (if keys then 1 else 0) + (if values then 1 else 0)) c
      else Some (o, hi, count, c)
  end.

(** More than the entries of the object. *)
Definition getall_fuel (o : hash_obj) : nat :=
  match o with OBJ_ENCODING_ZIPLIST zl => length zl | OBJ_ENCODING_HT d => chain_fuel d end.

(** [keys] and [values] are the two flags. *)
Definition genericHgetallCommand (keys values : bool) (c : hclient) : option hclient :=
  key ← argv c 1;
  match lookup_hash c key TEmptyMap with
  | inr c => Some c
  | inl o =>
      '(o, length) ← hashTypeLength o;
      let c := addReply (if keys && values then TMapLen length else TArrayLen length) c in
      '(o, hi, count, c) ← getall_loop (getall_fuel o) keys values o (hashTypeInitIterator o) 0 c;
      o ← hashTypeReleaseIterator o hi;
      let count := if keys && values then count / 2 else count in
      if count =? length then Some (store key o c) else None
  end.

Definition hkeysCommand := genericHgetallCommand true false.
Definition hvalsCommand := genericHgetallCommand false true.
Definition hgetallCommand := genericHgetallCommand true true.

(** ** Dispatch *)

(** The entries of [redisCommandTable] (src/server.c): name, function,
    arity. *)
Definition hash_table : list (sds * (hclient → option hclient) * Z) :=
  [("hset", hsetCommand, -4); ("hsetnx", hsetnxCommand, 4); ("hget", hgetCommand, 3); ("hmset", hsetCommand, -4);
   ("hmget", hmgetCommand, -3); ("hincrby", hincrbyCommand, 4); ("hincrbyfloat", hincrbyfloatCommand, 4);
   ("hdel", hdelCommand, -3); ("hlen", hlenCommand, 2); ("hstrlen", hstrlenCommand, 3); ("hkeys", hkeysCommand, 2);
   ("hvals", hvalsCommand, 2); ("hgetall", hgetallCommand, 2); ("hexists", hexistsCommand, 3)].

(** The lookup and the test of the arity in [processCommand], then the call. *)
Definition hash_call (args : list sds) (c : hclient) : option hclient :=
  name ← args !! 0%nat;
  match list_find (λ e, strcasecmp e.1.1 name = 0) hash_table with
  | None => None
  | Some (_, (cmd, proc, arity)) =>
      let c := set_argv args c in
      let argc := Z.of_nat (length args) in
      if ((arity >? 0) && negb (arity =? argc)) || (argc <? - arity)
      then Some (addReply (TError ("wrong number of arguments for '" +:+ cmd +:+ "' command")) c)
      else proc c
  end.
End commands.
