(* ===== verification/HashSpec.v ===== *)
(** * What the commands on hashes promise

    The database as a map from keys to maps from fields to values, and each
    command as a function of it.  The commands of [HashCommands], on objects in
    either encoding, do what this says: the same changes, the same replies, the
    same events.  The order of the entries in HKEYS, HVALS and HGETALL is
    free. *)

From Stdlib Require Import Ascii.
From S2P Require Import Prelude.
From S2P Require Import Sds.
From S2P Require Import Util.
From S2P Require Import Dict.
From S2P Require Import DictRep.
From S2P Require Import DictMap.
From S2P Require Import DictIter.
From S2P Require Import SipHash.
From S2P Require Import Ziplist.
From S2P Require Import ZiplistRep.
From S2P Require Import ZiplistInsert.
From S2P Require Import ZiplistList.
From S2P Require Import Hash.
From S2P Require Import HashRep.
From S2P Require Import Double.
From S2P Require Import LongDouble.
From S2P Require Import HashCommands.

#[local] Open Scope Z_scope.

(** ** The abstract database *)

Inductive avalue :=
  | AHash (m : gmap sds sds)
  | AOther.

Notation adb := (gmap sds avalue).

Inductive hcmd :=
  | HSet (mset : bool) (key : sds) (args : list sds)
  | HSetnx (key field value : sds)
  | HIncrby (key field incr : sds)
  | HIncrbyfloat (key field incr : sds)
  | HDel (key : sds) (fields : list sds)
  | HGet (key field : sds)
  | HMget (key : sds) (fields : list sds)
  | HLen (key : sds)
  | HStrlen (key field : sds)
  | HExists (key field : sds)
  | HGetall (keys values : bool) (key : sds).

Definition cmd_key (cmd : hcmd) : sds :=
  match cmd with
  | HSet _ key _ | HSetnx key _ _ | HIncrby key _ _ | HIncrbyfloat key _ _ | HDel key _ | HGet key _ | HMget key _
  | HLen key | HStrlen key _ | HExists key _ | HGetall _ _ key => key
  end.

(** The arguments as a client sends them. *)
Definition argv_of (cmd : hcmd) : list sds :=
  match cmd with
  | HSet mset key args => (if mset then "HMSET" else "HSET") :: key :: args
  | HSetnx key field value => ["HSETNX"; key; field; value]
  | HIncrby key field incr => ["HINCRBY"; key; field; incr]
  | HIncrbyfloat key field incr => ["HINCRBYFLOAT"; key; field; incr]
  | HDel key fields => "HDEL" :: key :: fields
  | HGet key field => ["HGET"; key; field]
  | HMget key fields => "HMGET" :: key :: fields
  | HLen key => ["HLEN"; key]
  | HStrlen key field => ["HSTRLEN"; key; field]
  | HExists key field => ["HEXISTS"; key; field]
  | HGetall keys values key => [if keys && values then "HGETALL" else if values then "HVALS" else "HKEYS"; key]
  end.

(** A reply, or the entries of a map in some order. *)
Inductive reply_spec :=
  | Exactly (l : list token)
  | Entries (keys values : bool) (m : gmap sds sds).

Definition entry_tokens (keys values : bool) (p : sds * sds) : list token :=
  (if keys then [TBulk p.1] else []) ++ (if values then [TBulk p.2] else []).

Definition replies (r : reply_spec) (l : list token) : Prop :=
  match r with
  | Exactly l' => l = l'
  | Entries keys values m =>
      let n := Z.of_nat (size m) in
      ∃ kvs, kvs ≡ₚ map_to_list m ∧
        l = (if keys && values then TMapLen n else TArrayLen n) :: concat (map (entry_tokens keys values) kvs)
  end.

(** The database after the command, the reply, the count of changes, the
    events, and the arguments that the replicas get when they are not those of
    the client. *)
Record spec_out := mkOut {
  s_db : adb;
  s_reply : reply_spec;
  s_dirty : Z;
  s_events : list sds;
  s_argv : option (list sds)
}.

Definition hash_at (M : adb) (key : sds) : gmap sds sds := match M !! key with Some (AHash m) => m | _ => ∅ end.

Definition answer (M : adb) (t : token) : spec_out := mkOut M (Exactly [t]) 0 [] None.

(** Commands that read: a key that is missing has the reply [none]. *)
Definition reading (M : adb) (key : sds) (none : token) (f : gmap sds sds → reply_spec) : spec_out :=
  match M !! key with
  | None => answer M none
  | Some AOther => answer M TWrongType
  | Some (AHash m) => mkOut M (f m) 0 [] None
  end.

(** Commands that write: a key that is missing is an empty hash. *)
Definition writing (M : adb) (key : sds) (f : gmap sds sds → spec_out) : spec_out :=
  match M !! key with
  | Some AOther => answer M TWrongType
  | _ => f (hash_at M key)
  end.

Definition changed (M : adb) (key event : sds) (m : gmap sds sds) (t : token) : spec_out :=
  mkOut (<[key:=AHash m]> M) (Exactly [t]) 1 [event] None.

Definition rewritten (argv : list sds) (out : spec_out) : spec_out :=
  mkOut (s_db out) (s_reply out) (s_dirty out) (s_events out) (Some argv).

Fixpoint insert_pairs (m : gmap sds sds) (args : list sds) : gmap sds sds :=
  match args with
  | f :: v :: args => insert_pairs (<[f:=v]> m) args
  | _ => m
  end.

Definition delete_fields (m : gmap sds sds) (fields : list sds) : gmap sds sds := foldl (λ m f, delete f m) m fields.

Definition arity_error (M : adb) (name : sds) : spec_out :=
  answer M (TError ("wrong number of arguments for '" +:+ name +:+ "' command")).

Definition hash_spec (cmd : hcmd) (M : adb) : spec_out :=
  match cmd with
  | HSet mset key args =>
      if (length args <? 2)%nat then arity_error M (if mset then "hmset" else "hset")
      else if Nat.odd (length args) then answer M (TError "wrong number of arguments for HMSET")
      else writing M key (λ m,
        let m' := insert_pairs m args in
        changed M key "hset" m' (if mset then TOk else TInt (Z.of_nat (size m') - Z.of_nat (size m))))
  | HSetnx key f v =>
      writing M key (λ m,
        match m !! f with
        | Some _ => answer M (TInt 0)
        | None => changed M key "hset" (<[f:=v]> m) (TInt 1)
        end)
  | HIncrby key f arg =>
      match string2ll arg with
      | None => answer M (TError "value is not an integer or out of range")
      | Some incr =>
          writing M key (λ m,
            match match m !! f with Some s => string2ll s | None => Some 0 end with
            | None => answer M (TError "hash value is not an integer")
            | Some old =>
                let value := old + incr in
                if (LLONG_MIN <=? value) && (value <=? LLONG_MAX)
                then changed M key "hincrby" (<[f:=fmt_d value]> m) (TInt value)
                else answer M (TError "increment or decrement would overflow")
            end)
      end
  | HIncrbyfloat key f arg =>
      match string2ld arg with
      | None => answer M (TError "value is not a valid float")
      | Some incr =>
          writing M key (λ m,
            match match m !! f with Some s => string2ld s | None => Some (ldofZ 0) end with
            | None => answer M (TError "hash value is not a float")
            | Some old =>
                let value := ldadd old incr in
                if isnan value || is_infinite value
                then answer (<[key:=AHash m]> M) (TError "increment would produce NaN or Infinity")
                else rewritten ["HSET"; key; f; ld2string value]
                       (changed M key "hincrbyfloat" (<[f:=ld2string value]> m) (TBulk (ld2string value)))
            end)
      end
  | HDel key fields =>
      if (length fields <? 1)%nat then arity_error M "hdel"
      else
        match M !! key with
        | None => answer M (TInt 0)
        | Some AOther => answer M TWrongType
        | Some (AHash m) =>
            let m' := delete_fields m fields in
            let deleted := Z.of_nat (size m) - Z.of_nat (size m') in
            if deleted =? 0 then answer M (TInt 0)
            else if bool_decide (m' = ∅) then mkOut (delete key M) (Exactly [TInt deleted]) deleted ["hdel"; "del"] None
            else mkOut (<[key:=AHash m']> M) (Exactly [TInt deleted]) deleted ["hdel"] None
        end
  | HGet key f => reading M key TNull (λ m, Exactly [from_option TBulk TNull (m !! f)])
  | HMget key fields =>
      if (length fields <? 1)%nat then arity_error M "hmget"
      else
        match M !! key with
        | Some AOther => answer M TWrongType
        | _ => mkOut M (Exactly (TArrayLen (Z.of_nat (length fields)) :: map (λ f, from_option TBulk TNull (hash_at M key !! f)) fields)) 0 [] None
        end
  | HLen key => reading M key (TInt 0) (λ m, Exactly [TInt (Z.of_nat (size m))])
  | HStrlen key f =>
      reading M key (TInt 0) (λ m, Exactly [TInt (match m !! f with Some s => Z.of_nat (String.length s) | None => 0 end)])
  | HExists key f => reading M key (TInt 0) (λ m, Exactly [TInt (if bool_decide (is_Some (m !! f)) then 1 else 0)])
  | HGetall keys values key => reading M key TEmptyMap (Entries (keys || negb values) values)
  end.

(** ** The bound on the size of a hash *)

(** A bound on the bytes of the ziplist with these entries; no ziplist may
    reach 4 GiB. *)
Definition map_weight (m : gmap sds sds) : Z := weight (flatten (map_to_list m)).

(** What a command can add to its hash. *)
Definition cmd_weight (cmd : hcmd) : Z :=
  match cmd with
  | HSet _ _ args => foldr (λ a n, Z.of_nat (String.length a) + 13 + n) 0 args
  | HSetnx _ f v => pair_weight f v
  | HIncrby _ f _ => Z.of_nat (String.length f) + 58
  | HIncrbyfloat _ f _ => Z.of_nat (String.length f) + MAX_LONG_DOUBLE_CHARS + 26
  | _ => 0
  end.

Definition fits (cmd : hcmd) (M : adb) : Prop := map_weight (hash_at M (cmd_key cmd)) + cmd_weight cmd < 2 ^ 32.

Lemma weight_flatten_perm kvs kvs' : kvs ≡ₚ kvs' → weight (flatten kvs) = weight (flatten kvs').
Proof. induction 1; rewrite ?flatten_cons in *; simpl in *; lia. Qed.

Lemma map_weight_list kvs : NoDup kvs.*1 → map_weight (list_to_map kvs) = weight (flatten kvs).
Proof. intros Hnd. apply weight_flatten_perm. by rewrite map_to_list_to_map. Qed.

Lemma hash_rep_tighten env W o m : hash_rep env W o m → hash_rep env (map_weight m) o m.
Proof.
  destruct o as [zl|d]; simpl.
  - intros (kvs & Hrep & Hnd & -> & _). exists kvs. by rewrite map_weight_list.
  - intros [R _]. split; [done|]. unfold map_weight. etrans; [|apply weight_flatten_size]. by rewrite length_map_to_list.
Qed.

Lemma insert_created (m : gmap sds sds) f v (x : bool) :
  x = bool_decide (is_Some (m !! f)) → Z.of_nat (size (<[f:=v]> m)) = Z.of_nat (size m) + (if x then 0 else 1).
Proof.
  intros ->. destruct (m !! f) as [y|] eqn:Hf.
  - rewrite bool_decide_eq_true_2 by done. rewrite map_size_insert_Some by done. lia.
  - rewrite bool_decide_eq_false_2 by (by intros [? ?]). rewrite map_size_insert_None by done. lia.
Qed.

Lemma delete_fields_empty fields : delete_fields ∅ fields = ∅.
Proof. unfold delete_fields. induction fields as [|f fields IH]; [done|]. simpl. by rewrite delete_empty. Qed.

Lemma delete_fields_size m fields : (size (delete_fields m fields) ≤ size m)%nat.
Proof.
  revert m. induction fields as [|f fields IH]; intros m; [done|]. simpl. specialize (IH (delete f m)). unfold delete_fields in *.
  rewrite map_size_delete in IH. unfold id in IH. destruct (m !! f); lia.
Qed.

Lemma delete_fields_same m fields : (size m ≤ size (delete_fields m fields))%nat → delete_fields m fields = m.
Proof.
  revert m. induction fields as [|f fields IH]; intros m; [done|]. change (delete_fields m (f :: fields)) with (delete_fields (delete f m) fields).
  intros Hle. pose proof (delete_fields_size (delete f m) fields) as Hsz. pose proof (map_size_delete f m) as Hd. unfold id in Hd. destruct (m !! f) as [x|] eqn:Hf.
  - assert (size m ≠ 0)%nat by (intros Hz%map_size_empty_inv; subst m; by rewrite lookup_empty in Hf). lia.
  - rewrite delete_id in * by done. by apply IH.
Qed.

(** ** Numbers *)

(** A value that is found, as a number. *)
Lemma found_ll r x : found_value r x →
  match r with Some (ZlStr bs) => string2ll (bytes_sds bs) | Some (ZlInt value) => Some value | None => Some 0 end =
  match x with Some s => string2ll s | None => Some 0 end.
Proof.
  destruct x as [s|]; simpl; [|by intros ->]. intros ([bs|z] & -> & Hv); simpl in Hv.
  - subst bs. by rewrite bytes_sds_bytes.
  - destruct Hv as [Hz ->]. symmetry. by apply string2ll_spec.
Qed.

Lemma found_ld r x : found_value r x →
  match r with Some (ZlStr bs) => string2ld (bytes_sds bs) | Some (ZlInt ll) => Some (ldofZ ll) | None => Some (ldofZ 0) end =
  match x with Some s => string2ld s | None => Some (ldofZ 0) end.
Proof.
  destruct x as [s|]; simpl; [|by intros ->]. intros ([bs|z] & -> & Hv); simpl in Hv.
  - subst bs. by rewrite bytes_sds_bytes.
  - destruct Hv as [Hz ->]. symmetry. by apply string2ld_fmt.
Qed.

(** The test of HINCRBY says when the sum is out of range. *)
Lemma incr_overflow old incr : int64 old → int64 incr →
  ((incr <? 0) && (old <? 0) && (incr <? LLONG_MIN - old)) || ((incr >? 0) && (old >? 0) && (incr >? LLONG_MAX - old)) =
  negb ((LLONG_MIN <=? old + incr) && (old + incr <=? LLONG_MAX)).
Proof. unfold int64, LLONG_MIN, LLONG_MAX. intros Ho Hi. rewrite !Z.gtb_ltb. cases_Z; simpl; lia || done. Qed.

(** ** The databases *)

Section refinement.
Context (env : hash_env) (Hbuf64 : (64 ≤ length (stack_buf env))%nat).

Definition value_rep (v : hvalue) (a : avalue) : Prop :=
  match v, a with
  | VHash o, AHash m => hash_rep env (map_weight m) o m
  | VOther, AOther => True
  | _, _ => False
  end.

Definition db_rep (db : gmap sds hvalue) (M : adb) : Prop := ∀ key, option_Forall2 value_rep (db !! key) (M !! key).

Lemma db_rep_lookup db M key : db_rep db M →
  match M !! key with
  | None => db !! key = None
  | Some AOther => db !! key = Some VOther
  | Some (AHash m) => ∃ o, db !! key = Some (VHash o) ∧ hash_rep env (map_weight m) o m
  end.
Proof.
  intros R. specialize (R key). destruct R as [v a Hv|]; [|done]. destruct v, a; try done. by eexists.
Qed.

Lemma db_rep_store db M key o m W : db_rep db M → hash_rep env W o m → db_rep (<[key:=VHash o]> db) (<[key:=AHash m]> M).
Proof.
  intros R Ho key'. destruct (decide (key = key')) as [->|Hne].
  - rewrite !lookup_insert_eq. constructor. by eapply hash_rep_tighten.
  - rewrite !lookup_insert_ne by done. apply R.
Qed.

Lemma db_rep_same db M key o m W :
  db_rep db M → hash_rep env W o m → M !! key = Some (AHash m) → db_rep (<[key:=VHash o]> db) M.
Proof. intros R Ho Hm. rewrite <- (insert_id M key (AHash m)) by done. by eapply db_rep_store. Qed.

Lemma db_rep_delete db M key : db_rep db M → db_rep (delete key db) (delete key M).
Proof.
  intros R key'. destruct (decide (key = key')) as [->|Hne]; [rewrite !lookup_delete_eq; constructor|].
  rewrite !lookup_delete_ne by done. apply R.
Qed.

(** ** Outcomes *)

(** From [c] to [c'], as the specification says. *)
Definition outcome (key : sds) (c : hclient) (out : spec_out) (c' : hclient) : Prop :=
  db_rep (c_db c') (s_db out) ∧ (∃ l, c_reply c' = c_reply c ++ l ∧ replies (s_reply out) l) ∧
  c_dirty c' = c_dirty c + s_dirty out ∧ c_events c' = c_events c ++ map (λ e, (e, key)) (s_events out) ∧
  c_touched c' = c_touched c ++ (if s_dirty out =? 0 then [] else [key]) ∧ c_argv c' = default (c_argv c) (s_argv out).

Lemma outcome_answer key c M t : db_rep (c_db c) M → outcome key c (answer M t) (addReply t c).
Proof. intros R. split; [done|]. split; [by exists [t]|]. simpl. by rewrite Z.add_0_r, !app_nil_r. Qed.

Lemma outcome_read key c M o m W r l :
  db_rep (c_db c) M → M !! key = Some (AHash m) → hash_rep env W o m → replies r l → ∀ c', c_reply c' = c_reply c ++ l →
  c_db c' = <[key:=VHash o]> (c_db c) → c_dirty c' = c_dirty c → c_events c' = c_events c → c_touched c' = c_touched c → c_argv c' = c_argv c →
  outcome key c (mkOut M r 0 [] None) c'.
Proof.
  intros R Hm Ho Hr c' Hre Hdb Hd He Ht Ha. split; [rewrite Hdb; by eapply db_rep_same|]. split; [by exists l|]. simpl.
  by rewrite Hd, He, Ht, Ha, Z.add_0_r, !app_nil_r.
Qed.

(** The client differs from [c] in the database only. *)
Definition only_db (c c1 : hclient) : Prop := c1 = set_db (c_db c1) c.

Lemma outcome_changed key c c1 M o m0 m W event t :
  only_db c c1 → db_rep (c_db c1) (<[key:=AHash m0]> M) → hash_rep env W o m →
  outcome key c (changed M key event m t) (modified key event 1 (addReply t (store key o c1))).
Proof.
  intros Hc R Ho. rewrite Hc. split.
  - simpl. rewrite <- (insert_insert_eq M key (AHash m) (AHash m0)). by eapply db_rep_store.
  - split; [by exists [t]|done].
Qed.

Lemma outcome_rewritten key c out c' args args' :
  args' = args → outcome key c out c' → outcome key c (rewritten args out) (set_argv args' c').
Proof. intros -> (H1 & H2 & H3 & H4 & H5 & _). by split_and!. Qed.

(** An answer after the object may have been created. *)
Lemma outcome_stored key c c1 M M' o m W t :
  only_db c c1 → db_rep (c_db c1) (<[key:=AHash m]> M) → hash_rep env W o m → M' = <[key:=AHash m]> M →
  outcome key c (answer M' t) (addReply t (store key o c1)).
Proof.
  intros Hc R Ho ->. rewrite Hc. split.
  - simpl. rewrite <- (insert_insert_eq M key (AHash m) (AHash m)). by eapply db_rep_store.
  - split; [by exists [t]|]. simpl. by rewrite Z.add_0_r, !app_nil_r.
Qed.

Lemma lookup_hash_spec c M key t : db_rep (c_db c) M →
  match M !! key with
  | None => lookup_hash c key t = inr (addReply t c)
  | Some AOther => lookup_hash c key t = inr (addReply TWrongType c)
  | Some (AHash m) => ∃ o, lookup_hash c key t = inl o ∧ hash_rep env (map_weight m) o m
  end.
Proof.
  intros R. apply (db_rep_lookup _ _ key) in R. unfold lookup_hash. destruct (M !! key) as [[m|]|]; [|by rewrite R|by rewrite R].
  destruct R as (o & -> & Ho). by exists o.
Qed.

Lemma writeOrCreate_spec c M key : db_rep (c_db c) M →
  match M !! key with
  | Some AOther => hashTypeLookupWriteOrCreate env c key = Some (addReply TWrongType c, None)
  | _ => ∃ c1 o, hashTypeLookupWriteOrCreate env c key = Some (c1, Some o) ∧ only_db c c1 ∧
      db_rep (c_db c1) (<[key:=AHash (hash_at M key)]> M) ∧ hash_rep env (map_weight (hash_at M key)) o (hash_at M key)
  end.
Proof.
  intros R. pose proof (db_rep_lookup _ _ key R) as Hk. unfold hashTypeLookupWriteOrCreate, hash_at.
  destruct (M !! key) as [[m|]|] eqn:Hm; [|by rewrite Hk|].
  - destruct Hk as (o & -> & Ho). exists c, o. split; [done|]. split; [by destruct c|]. by rewrite insert_id.
  - rewrite Hk. destruct (createHashObject_spec env) as (o & -> & Ho). obind. exists (store key o c), o. split; [done|]. split; [done|].
    split; [by eapply db_rep_store|by eapply hash_rep_tighten].
Qed.

Lemma bufs : buf_ok env.
Proof. unfold buf_ok, SDS_LLSTR_SIZE. lia. Qed.

(** ** Reading *)

Lemma reply_value_spec v s : value_is v s → reply_value env v = Some (TBulk s).
Proof.
  destruct v as [bs|z]; simpl; [intros ->; by rewrite bytes_sds_bytes|]. intros [Hz ->]. pose proof (fmt_d_length z Hz) as Hl.
  destruct (ll2string_prints (take 64 (stack_buf env)) z Hz) as (rest & -> & _); [rewrite length_take; lia|]. obind.
  do 2 f_equal. rewrite Nat2Z.id. rewrite take_app_le by (rewrite length_chars; lia). rewrite take_ge by (rewrite length_chars; lia). apply sds_of_chars.
Qed.

Lemma addHashFieldToReply_spec W o m f : hash_rep env W o m → W < 2 ^ 32 →
  ∃ o', addHashFieldToReply env o f = Some (o', from_option TBulk TNull (m !! f)) ∧ hash_rep env W o' m.
Proof.
  intros R HW. destruct o as [zl|d]; simpl.
  - pose proof R as (kvs & Hrep & Hnd & -> & Hw). destruct (getFromZiplist_spec zl kvs f Hrep Hnd) as (r & -> & Hr). obind.
    exists (OBJ_ENCODING_ZIPLIST zl). split; [|done]. unfold found_value in Hr. destruct (_ !! f) as [s|]; [|by subst r].
    destruct Hr as (v & -> & Hv). by rewrite (reply_value_spec _ _ Hv).
  - destruct (getFromHashTable_spec env W d m f R HW) as (d' & -> & R'). obind. eexists. split; [|exact R']. by destruct (m !! f).
Qed.

Lemma reading_spec c M key none r (k : hash_obj → option hclient) :
  db_rep (c_db c) M → map_weight (hash_at M key) < 2 ^ 32 →
  (∀ o m, M !! key = Some (AHash m) → hash_rep env (map_weight m) o m → map_weight m < 2 ^ 32 →
    ∃ c', k o = Some c' ∧ outcome key c (mkOut M (r m) 0 [] None) c') →
  ∃ c', match lookup_hash c key none with inr c => Some c | inl o => k o end = Some c' ∧ outcome key c (reading M key none r) c'.
Proof.
  intros R Hw Hk. unfold reading, hash_at in *. pose proof (lookup_hash_spec c M key none R) as Hl.
  destruct (M !! key) as [[m|]|] eqn:Hm; [|rewrite Hl; eexists; split; [done|by apply outcome_answer]..].
  destruct Hl as (o & -> & Ho). by apply Hk.
Qed.

Lemma hget_spec c M key f : c_argv c = argv_of (HGet key f) → db_rep (c_db c) M → fits (HGet key f) M →
  ∃ c', hgetCommand env c = Some c' ∧ outcome key c (hash_spec (HGet key f) M) c'.
Proof.
  unfold hgetCommand, argv. intros -> R Hw. apply reading_spec; [done|unfold fits in Hw; simpl in Hw; lia|]. intros o m Hm Ho Hw'.
  destruct (addHashFieldToReply_spec _ _ _ f Ho Hw') as (o' & -> & Ho'). obind. eexists. split; [done|]. by eapply outcome_read.
Qed.

Lemma hlen_spec c M key : c_argv c = argv_of (HLen key) → db_rep (c_db c) M → fits (HLen key) M →
  ∃ c', hlenCommand c = Some c' ∧ outcome key c (hash_spec (HLen key) M) c'.
Proof.
  unfold hlenCommand, argv. intros -> R Hw. apply reading_spec; [done|unfold fits in Hw; simpl in Hw; lia|]. intros o m Hm Ho Hw'.
  destruct (hashTypeLength_spec _ _ _ _ Ho Hw') as (o' & -> & Ho' & _). obind. eexists. split; [done|]. by eapply outcome_read.
Qed.

Lemma hstrlen_spec c M key f : c_argv c = argv_of (HStrlen key f) → db_rep (c_db c) M → fits (HStrlen key f) M →
  ∃ c', hstrlenCommand env c = Some c' ∧ outcome key c (hash_spec (HStrlen key f) M) c'.
Proof.
  unfold hstrlenCommand, argv. intros -> R Hw. apply reading_spec; [done|unfold fits in Hw; simpl in Hw; lia|]. intros o m Hm Ho Hw'.
  destruct (getValueLength_spec _ _ _ _ f Ho Hw') as (o' & -> & Ho'). obind. eexists. split; [done|]. by eapply outcome_read.
Qed.

Lemma hexists_spec c M key f : c_argv c = argv_of (HExists key f) → db_rep (c_db c) M → fits (HExists key f) M →
  ∃ c', hexistsCommand env c = Some c' ∧ outcome key c (hash_spec (HExists key f) M) c'.
Proof.
  unfold hexistsCommand, argv. intros -> R Hw. apply reading_spec; [done|unfold fits in Hw; simpl in Hw; lia|]. intros o m Hm Ho Hw'.
  destruct (exists_spec _ _ _ _ f Ho Hw') as (o' & -> & Ho'). obind. eexists. split; [done|]. by eapply outcome_read.
Qed.

Lemma hmget_loop_spec key W o m fields c :
  hash_rep env W o m → W < 2 ^ 32 →
  ∃ o' c', hmget_loop env key o fields c = Some c' ∧ hash_rep env W o' m ∧
    c_reply c' = c_reply c ++ map (λ f, from_option TBulk TNull (m !! f)) fields ∧
    c_dirty c' = c_dirty c ∧ c_events c' = c_events c ∧ c_touched c' = c_touched c ∧ c_argv c' = c_argv c ∧
    (fields = [] → c' = c) ∧ (fields ≠ [] → c_db c' = <[key:=VHash o']> (c_db c)).
Proof.
  intros R HW. revert o c R. induction fields as [|f fields IH]; intros o c R; simpl.
  { exists o, c. by rewrite app_nil_r. }
  destruct (addHashFieldToReply_spec W o m f R HW) as (o1 & -> & R1). obind.
  destruct (IH o1 (addReply (from_option TBulk TNull (m !! f)) (store key o1 c)) R1) as (o2 & c2 & -> & R2 & Hr & Hd & He & Ht & Ha & H0 & H1).
  destruct fields as [|f2 fields].
  - rewrite (H0 eq_refl). exists o1. eexists. split; [done|]. split; [done|]. done.
  - exists o2, c2. split; [done|]. split; [done|]. split; [rewrite Hr; simpl; by rewrite <- app_assoc|].
    split_and!; try done. intros _. rewrite H1 by done. simpl. by rewrite insert_insert_eq.
Qed.

Lemma null_replies fields c : let c' := foldl (λ c _, addReply TNull c) c fields in
  c' = mkClient (c_argv c) (c_db c) (c_reply c ++ map (λ f : sds, TNull) fields) (c_dirty c) (c_touched c) (c_events c).
Proof.
  revert c. induction fields as [|f fields IH]; intros c; simpl; [destruct c; simpl; by rewrite app_nil_r|].
  rewrite IH. simpl. by rewrite <- app_assoc.
Qed.

Lemma hmget_spec c M key fields : c_argv c = argv_of (HMget key fields) → fields ≠ [] → db_rep (c_db c) M → fits (HMget key fields) M →
  ∃ c', hmgetCommand env c = Some c' ∧ outcome key c (hash_spec (HMget key fields) M) c'.
Proof.
  unfold fits, hmgetCommand, argv. simpl. intros -> Hne R Hw. simpl. replace (length fields <? 1)%nat with false by (by destruct fields).
  replace (Z.of_nat (S (S (length fields))) - 2) with (Z.of_nat (length fields)) by lia. unfold hash_at in *.
  pose proof (db_rep_lookup _ _ key R) as Hl. destruct (M !! key) as [[m|]|] eqn:Hm.
  - destruct Hl as (o & -> & Ho). rewrite drop_0.
    destruct (hmget_loop_spec key _ o m fields (addReply (TArrayLen (Z.of_nat (length fields))) c) Ho) as (o' & c' & -> & Ho' & Hr & Hd & He & Ht & Ha & _ & Hdb); [lia|].
    exists c'. split; [done|]. eapply outcome_read; try done; [rewrite Hr; simpl; by rewrite <- app_assoc|by apply Hdb].
  - rewrite Hl. eexists. split; [done|]. by apply outcome_answer.
  - rewrite Hl. eexists. split; [done|]. rewrite null_replies, drop_0. split; [done|]. split; [eexists; simpl; by rewrite <- app_assoc|].
    simpl. by rewrite Z.add_0_r, !app_nil_r.
Qed.

(** ** HKEYS, HVALS and HGETALL *)

Definition add_replies (l : list token) (c : hclient) : hclient :=
  mkClient (c_argv c) (c_db c) (c_reply c ++ l) (c_dirty c) (c_touched c) (c_events c).

Lemma cursor_spec o hi p c : current_is o hi p →
  addHashIteratorCursorToReply env o hi OBJ_HASH_KEY c = Some (addReply (TBulk p.1) c) ∧
  addHashIteratorCursorToReply env o hi OBJ_HASH_VALUE c = Some (addReply (TBulk p.2) c).
Proof.
  assert (∀ what v s, hashTypeCurrentObject o hi what = Some v → value_is v s →
    addHashIteratorCursorToReply env o hi what c = Some (addReply (TBulk s) c)) as H.
  { intros what v s. destruct o as [zl|d]; cbn [hashTypeCurrentObject addHashIteratorCursorToReply].
    - intros -> Hv. obind. by rewrite (reply_value_spec _ _ Hv).
    - destruct (hashTypeCurrentFromHashTable d hi what) as [ele|]; obind; [|done]. intros [= <-] Hv. simpl in Hv. apply sds_bytes_inj in Hv as ->. done. }
  intros [(x & Hx & Vx) (y & Hy & Vy)]. split; by eapply H.
Qed.

Lemma getall_loop_spec fuel keys values o hi kvs count c :
  hash_iter env o hi kvs → (length kvs < fuel)%nat →
  ∃ hi', getall_loop env fuel keys values o hi count c =
      Some (o, hi', count + Z.of_nat (length kvs) * (Z.b2z keys + Z.b2z values), add_replies (concat (map (entry_tokens keys values) kvs)) c) ∧
    hashTypeReleaseIterator o hi' = Some o.
Proof.
  revert hi kvs count c. induction fuel as [|fuel IH]; intros hi kvs count c Hit Hf; [lia|]. cbn [getall_loop].
  pose proof (hashTypeNext_spec _ _ _ _ Hit) as Hn. destruct kvs as [|p kvs].
  - destruct Hn as (hi' & -> & Hrel). obind. exists hi'. split; [|done]. simpl. rewrite Z.add_0_r. unfold add_replies. rewrite app_nil_r. by destruct c.
  - destruct Hn as (hi' & -> & Hc & Hit'). obind. pose proof (cursor_spec o hi' p) as Hcur. simpl in Hf.
    assert (∃ c1, (c0 ← (if keys then addHashIteratorCursorToReply env o hi' OBJ_HASH_KEY c else Some c);
      c1 ← (if values then addHashIteratorCursorToReply env o hi' OBJ_HASH_VALUE c0 else Some c0);
      getall_loop env fuel keys values o hi' (count + (if keys then 1 else 0) + (if values then 1 else 0)) c1) =
      getall_loop env fuel keys values o hi' (count + (Z.b2z keys + Z.b2z values)) c1 ∧ c1 = add_replies (entry_tokens keys values p) c) as (c1 & -> & ->).
    { unfold entry_tokens. destruct keys, values; [rewrite (proj1 (Hcur c Hc)); obind; rewrite (proj2 (Hcur _ Hc))|rewrite (proj1 (Hcur c Hc))|obind; rewrite (proj2 (Hcur c Hc))|];
        obind; eexists; (split; [f_equal; simpl; lia|]); destruct c; unfold add_replies, addReply; simpl; rewrite <- ?app_assoc, ?app_nil_r; done. }
    destruct (IH hi' kvs (count + (Z.b2z keys + Z.b2z values)) (add_replies (entry_tokens keys values p) c) Hit') as (hi2 & -> & Hrel); [lia|].
    exists hi2. split; [|done]. do 2 f_equal; [f_equal; simpl length; lia|]. unfold add_replies. simpl. by rewrite <- app_assoc.
Qed.

Lemma getall_fuel_enough W o m : hash_rep env W o m → (size m < getall_fuel o)%nat.
Proof.
  destruct o as [zl|d]; simpl.
  - intros (kvs & Hrep & Hnd & -> & _). apply zl_rep_length in Hrep. rewrite flatten_length in Hrep. rewrite map_size_list_to_map by done. lia.
  - intros [(B0 & B1 & Hsh & Hh & _) _]. destruct (rep_entries _ _ _ _ _ _ Hsh Hh) as [Hs Hle]. rewrite dict_map_size in Hs. unfold chain_fuel. lia.
Qed.

Lemma getall_spec keys values c M key : c_argv c !! 1%nat = Some key → keys || values = true →
  db_rep (c_db c) M → map_weight (hash_at M key) < 2 ^ 32 →
  ∃ c', genericHgetallCommand env keys values c = Some c' ∧ outcome key c (reading M key TEmptyMap (Entries keys values)) c'.
Proof.
  unfold genericHgetallCommand, argv. intros -> Hkv R Hw. apply reading_spec; [done|done|]. intros o m Hm Ho Hw'.
  destruct (hashTypeLength_spec _ _ _ _ Ho Hw') as (o1 & -> & Ho1 & _). obind.
  destruct (hashTypeInitIterator_spec _ _ _ _ Ho1) as (kvs & Hit & Hp). pose proof (getall_fuel_enough _ _ _ Ho1) as Hf.
  assert (length kvs = size m) as Hlen by (rewrite (Permutation_length Hp); apply length_map_to_list).
  destruct (getall_loop_spec (getall_fuel o1) keys values o1 (hashTypeInitIterator o1) kvs 0
    (addReply (if keys && values then TMapLen (Z.of_nat (size m)) else TArrayLen (Z.of_nat (size m))) c) Hit) as (hi & -> & Hrel); [lia|]. obind.
  rewrite Hrel. obind. rewrite Hlen.
  assert ((if keys && values then (0 + Z.of_nat (size m) * (Z.b2z keys + Z.b2z values)) / 2 else 0 + Z.of_nat (size m) * (Z.b2z keys + Z.b2z values)) = Z.of_nat (size m)) as ->.
  { destruct keys, values; cbn [andb orb Z.b2z] in *; [rewrite Z.add_0_l; by apply Z.div_mul|lia|lia|done]. }
  rewrite Z.eqb_refl. eexists. split; [done|]. eapply (outcome_read _ _ _ _ _ _ _ _ R Hm Ho1); [exists kvs; split; [done|reflexivity]|simpl; by rewrite <- app_assoc|done..].
Qed.

(** ** Changes *)

Lemma hash_at_found M key f v : hash_at M key !! f = Some v → <[key:=AHash (hash_at M key)]> M = M.
Proof. unfold hash_at. destruct (M !! key) as [[m|]|] eqn:Hm; [|done..]. intros _. by apply insert_id. Qed.

Lemma writing_spec c M key f (k : hclient → hash_obj → option hclient) :
  db_rep (c_db c) M →
  (∀ c1 o, only_db c c1 → db_rep (c_db c1) (<[key:=AHash (hash_at M key)]> M) → hash_rep env (map_weight (hash_at M key)) o (hash_at M key) →
    ∃ c', k c1 o = Some c' ∧ outcome key c (f (hash_at M key)) c') →
  ∃ c', ('(c, o) ← hashTypeLookupWriteOrCreate env c key; match o with None => Some c | Some o => k c o end) = Some c' ∧
    outcome key c (writing M key f) c'.
Proof.
  intros R Hk. unfold writing. pose proof (writeOrCreate_spec c M key R) as Hw. destruct (M !! key) as [[m|]|].
  2: { rewrite Hw. eexists. split; [done|by apply outcome_answer]. }
  all: destruct Hw as (c1 & o & -> & Hc & R1 & Ho); by apply Hk.
Qed.

Lemma hsetnx_spec c M key f v : c_argv c = argv_of (HSetnx key f v) → db_rep (c_db c) M → fits (HSetnx key f v) M →
  ∃ c', hsetnxCommand env c = Some c' ∧ outcome key c (hash_spec (HSetnx key f v) M) c'.
Proof.
  unfold hsetnxCommand, argv, fits. simpl cmd_key. simpl cmd_weight. intros -> R Hw. apply writing_spec; [done|]. intros c1 o Hc R1 Ho.
  set (m := hash_at M key) in *. assert (map_weight m < 2 ^ 32) as Hw' by (unfold pair_weight in Hw; lia).
  destruct (hashTypeTryConversion_spec env _ _ _ [f; v] Ho Hw' bufs) as (o1 & -> & Ho1). obind.
  destruct (exists_spec env _ _ _ f Ho1 Hw') as (o2 & -> & Ho2). obind. destruct (m !! f) as [x|] eqn:Hf.
  - rewrite bool_decide_eq_true_2 by done. eexists. split; [done|]. eapply outcome_stored; try done. symmetry. by eapply hash_at_found.
  - rewrite bool_decide_eq_false_2 by (by intros [? ?]). destruct (hashTypeSet_spec env _ _ _ f v Ho2 Hw bufs) as (o3 & -> & Ho3). obind.
    eexists. split; [done|]. by eapply outcome_changed.
Qed.

Lemma hset_loop_spec n W o m args created :
  length args = (2 * n)%nat → hash_rep env W o m → W + cmd_weight (HSet false "" args) < 2 ^ 32 →
  ∃ o' W', hset_loop env o args created = Some (o', created + (Z.of_nat (size (insert_pairs m args)) - Z.of_nat (size m))) ∧
    hash_rep env W' o' (insert_pairs m args).
Proof.
  revert W o m args created. induction n as [|n IH]; intros W o m args created Hl Ho Hw.
  { destruct args; [|done]. exists o, W. split; [|done]. simpl. do 2 f_equal. lia. }
  destruct args as [|f [|v args]]; [done|simpl in Hl; lia|]. simpl in Hl. cbn [hset_loop insert_pairs]. simpl cmd_weight in Hw.
  assert (W + pair_weight f v + cmd_weight (HSet false "" args) < 2 ^ 32) as Hw' by (unfold pair_weight; simpl cmd_weight; lia).
  assert (0 ≤ cmd_weight (HSet false "" args)) by (simpl; clear; induction args; simpl; lia).
  destruct (hashTypeSet_spec env _ _ _ f v Ho) as (o1 & -> & Ho1); [lia|apply bufs|]. obind.
  destruct (IH (W + pair_weight f v) o1 (<[f:=v]> m) args (created + (if bool_decide (is_Some (m !! f)) then 0 else 1))) as (o2 & W2 & -> & Ho2); [lia|exact Ho1|exact Hw'|].
  exists o2, W2. split; [|done]. do 2 f_equal. rewrite (insert_created m f v _ eq_refl). lia.
Qed.

Lemma hset_spec c M mset key args : c_argv c = argv_of (HSet mset key args) → (2 ≤ length args)%nat →
  db_rep (c_db c) M → fits (HSet mset key args) M →
  ∃ c', hsetCommand env c = Some c' ∧ outcome key c (hash_spec (HSet mset key args) M) c'.
Proof.
  unfold hsetCommand, argv, fits. simpl cmd_key. intros Hargs Hlen R Hw. rewrite Hargs. simpl length. cbn [hash_spec].
  rewrite (proj2 (Nat.ltb_ge _ _)) by lia. replace (Z.of_nat (S (S (length args))) mod 2 =? 1) with (Nat.odd (length args)).
  2: { destruct (Nat.Even_or_Odd (length args)) as [He|Ho].
       - pose proof He as [n Hn]. rewrite <- Nat.even_spec in He. rewrite <- Nat.negb_even, He. symmetry. apply Z.eqb_neq.
         replace (Z.of_nat (S (S (length args)))) with ((Z.of_nat n + 1) * 2) by lia. by rewrite Z.mod_mul.
       - pose proof Ho as [n Hn]. rewrite <- Nat.odd_spec in Ho. rewrite Ho. symmetry. apply Z.eqb_eq.
         replace (Z.of_nat (S (S (length args)))) with (1 + (Z.of_nat n + 1) * 2) by lia. by rewrite Z.mod_add. }
  destruct (Nat.odd (length args)) eqn:Hodd; [eexists; split; [done|by apply outcome_answer]|].
  assert (∃ n, length args = (2 * n)%nat) as [n Hn] by (rewrite <- Nat.negb_even in Hodd; apply negb_false_iff, Nat.even_spec in Hodd as [n Hn]; by exists n).
  apply writing_spec; [done|]. intros c1 o Hc R1 Ho. assert (c_argv c1 = c_argv c) as -> by (by rewrite Hc). rewrite Hargs.
  set (m := hash_at M key) in *. assert (0 ≤ cmd_weight (HSet mset key args)) by (simpl; clear; induction args; simpl; lia).
  destruct (hashTypeTryConversion_spec env _ _ _ args Ho) as (o1 & Htry & Ho1); [lia|apply bufs|]. simpl drop. rewrite drop_0, Htry. obind.
  destruct (hset_loop_spec n _ o1 m args 0 Hn Ho1 Hw) as (o2 & W2 & -> & Ho2). obind. rewrite Z.add_0_l.
  destruct mset; simpl; eexists; (split; [done|]); by eapply outcome_changed.
Qed.

Lemma hincrby_spec c M key f arg : c_argv c = argv_of (HIncrby key f arg) → db_rep (c_db c) M → fits (HIncrby key f arg) M →
  ∃ c', hincrbyCommand env c = Some c' ∧ outcome key c (hash_spec (HIncrby key f arg) M) c'.
Proof.
  unfold hincrbyCommand, argv, fits. cbn [cmd_key cmd_weight hash_spec]. intros -> R Hw. simpl lookup. obind. simpl lookup. obind. simpl lookup. obind.
  destruct (string2ll arg) as [incr|] eqn:Hincr; [|eexists; split; [done|by apply outcome_answer]].
  apply string2ll_spec in Hincr as [Hi _]. apply writing_spec; [done|]. intros c1 o Hc R1 Ho. set (m := hash_at M key) in *.
  destruct (getValue_spec env _ _ _ f Ho) as (o1 & v & -> & Ho1 & Hv); [lia|]. obind. rewrite (found_ll _ _ Hv).
  destruct (match m !! f with Some s => _ | None => _ end) as [old|] eqn:Hold.
  2: { eexists. split; [done|]. eapply outcome_stored; try done. destruct (m !! f) eqn:Hf; [|done]. symmetry. by eapply hash_at_found. }
  assert (int64 old) as Hint by (destruct (m !! f); [by apply string2ll_spec in Hold as [? _]|by injection Hold as <-]).
  rewrite (incr_overflow old incr Hint Hi). destruct ((LLONG_MIN <=? old + incr) && (old + incr <=? LLONG_MAX)) eqn:Hr; cbn [negb]; cbv iota.
  - apply andb_true_iff in Hr as [?%Z.leb_le ?%Z.leb_le]. assert (int64 (old + incr)) as Hs by done. pose proof (fmt_d_length _ Hs) as Hl.
    rewrite sdsfromlonglong_spec by (done || (unfold SDS_LLSTR_SIZE; rewrite length_take; lia)). obind.
    destruct (hashTypeSet_spec env _ _ _ f (fmt_d (old + incr)) Ho1) as (o2 & -> & Ho2); [unfold pair_weight; lia|apply bufs|]. obind.
    eexists. split; [done|].
    eapply (outcome_changed _ _ (store key o1 c1)); [by rewrite Hc|rewrite <- (insert_insert_eq M key (AHash m) (AHash m)); by eapply db_rep_store|exact Ho2].
  - eexists. split; [done|]. eapply outcome_stored; try done. destruct (m !! f) as [x|] eqn:Hf; [symmetry; by eapply hash_at_found|].
    exfalso. injection Hold as <-. unfold int64 in Hi. apply andb_false_iff in Hr as [Hr%Z.leb_gt|Hr%Z.leb_gt]; lia.
Qed.

Lemma hincrbyfloat_spec c M key f arg : c_argv c = argv_of (HIncrbyfloat key f arg) → db_rep (c_db c) M → fits (HIncrbyfloat key f arg) M →
  ∃ c', hincrbyfloatCommand env c = Some c' ∧ outcome key c (hash_spec (HIncrbyfloat key f arg) M) c'.
Proof.
  unfold hincrbyfloatCommand, argv, fits. cbn [cmd_key cmd_weight hash_spec]. intros Hargs R Hw. rewrite Hargs. simpl lookup. obind. simpl lookup. obind. simpl lookup. obind.
  destruct (string2ld arg) as [incr|]; [|eexists; split; [done|by apply outcome_answer]].
  apply writing_spec; [done|]. intros c1 o Hc R1 Ho. set (m := hash_at M key) in *. assert (0 < MAX_LONG_DOUBLE_CHARS) by done.
  destruct (getValue_spec env _ _ _ f Ho) as (o1 & v & -> & Ho1 & Hv); [lia|]. obind. rewrite (found_ld _ _ Hv).
  destruct (match m !! f with Some s => _ | None => _ end) as [old|] eqn:Hold.
  2: { eexists. split; [done|]. eapply outcome_stored; try done. destruct (m !! f) eqn:Hf; [|done]. symmetry. by eapply hash_at_found. }
  destruct (isnan (ldadd old incr) || is_infinite (ldadd old incr)); [eexists; split; [done|]; by eapply outcome_stored|].
  pose proof (ld2string_length (ldadd old incr)).
  destruct (hashTypeSet_spec env _ _ _ f (ld2string (ldadd old incr)) Ho1) as (o2 & -> & Ho2); [unfold pair_weight; lia|apply bufs|]. obind.
  eexists. split; [done|]. apply outcome_rewritten; [rewrite Hc; simpl; by rewrite Hargs|].
  eapply (outcome_changed _ _ (store key o1 c1)); [by rewrite Hc|rewrite <- (insert_insert_eq M key (AHash m) (AHash m)); by eapply db_rep_store|exact Ho2].
Qed.

Lemma hdel_loop_spec W o m fields deleted :
  hash_rep env W o m → W < 2 ^ 32 →
  let m' := delete_fields m fields in
  ∃ o', hdel_loop env o fields deleted =
      Some (o', deleted + (Z.of_nat (size m) - Z.of_nat (size m')), negb (size m =? size m')%nat && bool_decide (m' = ∅)) ∧
    hash_rep env W o' m'.
Proof.
  intros Ho HW m'. subst m'. revert o m deleted Ho. induction fields as [|f fields IH]; intros o m deleted Ho.
  { exists o. split; [|done]. simpl. rewrite Nat.eqb_refl. do 2 f_equal. f_equal. lia. }
  cbn [hdel_loop]. destruct (hashTypeDelete_spec env _ _ _ f Ho HW) as (o1 & -> & Ho1). obind.
  change (delete_fields m (f :: fields)) with (delete_fields (delete f m) fields).
  pose proof (map_size_delete f m) as Hsz. pose proof (delete_fields_size (delete f m) fields) as Hle. unfold id in Hsz. destruct (m !! f) as [x|] eqn:Hf.
  2: { rewrite bool_decide_eq_false_2 by (by intros [? ?]). destruct (IH o1 (delete f m) deleted Ho1) as (o2 & -> & Ho2). exists o2. by rewrite Hsz. }
  assert (size m ≠ 0)%nat as Hpos by (intros Hz%map_size_empty_inv; subst m; by rewrite lookup_empty in Hf).
  rewrite bool_decide_eq_true_2 by done. destruct (hashTypeLength_spec env _ _ _ Ho1 HW) as (o2 & -> & Ho2 & _). obind.
  destruct (Z.eqb_spec (Z.of_nat (size (delete f m))) 0) as [Hz|Hz].
  - assert (delete f m = ∅) as He by (apply map_size_empty_inv; lia). rewrite He in *. rewrite delete_fields_empty in *. rewrite map_size_empty in *.
    exists o2. split; [|done]. rewrite bool_decide_eq_true_2 by done. rewrite (proj2 (Nat.eqb_neq _ _)) by done. do 2 f_equal. f_equal. lia.
  - destruct (IH o2 (delete f m) (deleted + 1) Ho2) as (o3 & -> & Ho3). exists o3. split; [|done]. do 2 f_equal; [f_equal; lia|].
    rewrite (proj2 (Nat.eqb_neq (size m) _)) by lia. destruct (Nat.eqb_spec (size (delete f m)) (size (delete_fields (delete f m) fields))) as [Heq|]; [|done].
    symmetry. apply bool_decide_eq_false_2. intros He. rewrite He, map_size_empty in Heq. lia.
Qed.

Lemma hdel_spec c M key fields : c_argv c = argv_of (HDel key fields) → fields ≠ [] → db_rep (c_db c) M → fits (HDel key fields) M →
  ∃ c', hdelCommand env c = Some c' ∧ outcome key c (hash_spec (HDel key fields) M) c'.
Proof.
  unfold hdelCommand, argv, fits, hash_at. cbn [cmd_key cmd_weight hash_spec]. intros -> Hne R Hw. simpl drop. rewrite drop_0. simpl lookup. obind.
  replace (length fields <? 1)%nat with false by (by destruct fields). pose proof (lookup_hash_spec c M key (TInt 0) R) as Hl.
  destruct (M !! key) as [[m|]|] eqn:Hm; [|rewrite Hl; eexists; split; [done|by apply outcome_answer]..].
  destruct Hl as (o & -> & Ho). destruct (hdel_loop_spec _ _ _ fields 0 Ho) as (o1 & -> & Ho1); [lia|]. obind. rewrite Z.add_0_l.
  set (m' := delete_fields m fields) in *. eexists. split; [done|].
  destruct (Z.eqb_spec (Z.of_nat (size m) - Z.of_nat (size m')) 0) as [Hz|Hz].
  - rewrite (proj2 (Nat.eqb_eq _ _)) by lia. cbn [negb andb]. assert (m' = m) as Heq by (apply delete_fields_same; fold m'; lia).
    rewrite Hz. rewrite Heq in Ho1. by eapply outcome_read.
  - rewrite (proj2 (Nat.eqb_neq _ _)) by lia. cbn [negb andb]. destruct (bool_decide (m' = ∅)).
    + split; [by apply db_rep_delete|]. split; [by exists [TInt (Z.of_nat (size m) - Z.of_nat (size m'))]|]. simpl.
      rewrite (proj2 (Z.eqb_neq _ _)) by done. by rewrite <- app_assoc.
    + split; [by eapply db_rep_store|]. split; [by exists [TInt (Z.of_nat (size m) - Z.of_nat (size m'))]|]. simpl.
      by rewrite (proj2 (Z.eqb_neq _ _)) by done.
Qed.

(** ** Dispatch *)

Lemma dispatch i cmd proc arity name args c :
  hash_table env !! i = Some (cmd, proc, arity) → strcasecmp cmd name = 0 →
  forallb (λ e, negb (strcasecmp e.1.1 name =? 0)) (take i (hash_table env)) = true →
  hash_call env (name :: args) c =
    let c := set_argv (name :: args) c in
    if ((arity >? 0) && negb (arity =? Z.of_nat (length (name :: args)))) || (Z.of_nat (length (name :: args)) <? - arity)
    then Some (addReply (TError ("wrong number of arguments for '" +:+ cmd +:+ "' command")) c)
    else proc c.
Proof using Type.
  intros Hi Hc Hf. unfold hash_call. change ((name :: args) !! 0%nat) with (Some name). obind.
  rewrite (proj2 (list_find_Some _ _ i (cmd, proc, arity))); [done|]. split_and!; [done|done|].
  intros j y Hj Hlt. rewrite forallb_forall in Hf. apply Z.eqb_neq, negb_true_iff, Hf, list_elem_of_In, list_elem_of_lookup.
  exists j. by rewrite lookup_take_lt.
Qed.

Ltac dispatched i := erewrite (dispatch i _ _ _ _ _ _ eq_refl); [|reflexivity|reflexivity].

Lemma call_spec cmd c M : db_rep (c_db c) M → fits cmd M →
  ∃ c', hash_call env (argv_of cmd) c = Some c' ∧ outcome (cmd_key cmd) (set_argv (argv_of cmd) c) (hash_spec cmd M) c'.
Proof.
  intros R Hw. set (c1 := set_argv (argv_of cmd) c).
  destruct cmd as [mset key args|key f v|key f arg|key f arg|key fields|key f|key fields|key|key f|key f|keys values key]; cbn [argv_of cmd_key] in *.
  - destruct (decide (2 ≤ length args)%nat) as [Hl|Hl].
    + destruct (hset_spec c1 M mset key args eq_refl Hl R Hw) as (c' & Hc & Ho). exists c'. split; [|done]. rewrite <- Hc.
      destruct mset; [dispatched 3%nat|dispatched 0%nat]; simpl length; (rewrite (proj2 (Z.ltb_ge _ _)) by lia); done.
    + exists (addReply (TError ("wrong number of arguments for '" +:+ (if mset then "hmset" else "hset") +:+ "' command")) c1). cbn [hash_spec].
      rewrite (proj2 (Nat.ltb_lt _ _)) by lia. split; [|by apply outcome_answer].
      destruct mset; [dispatched 3%nat|dispatched 0%nat]; simpl length; (rewrite (proj2 (Z.ltb_lt _ _)) by lia); done.
  - dispatched 1%nat. exact (hsetnx_spec c1 M key f v eq_refl R Hw).
  - dispatched 5%nat. exact (hincrby_spec c1 M key f arg eq_refl R Hw).
  - dispatched 6%nat. exact (hincrbyfloat_spec c1 M key f arg eq_refl R Hw).
  - dispatched 7%nat. destruct fields as [|f fields]; [eexists; split; [done|by apply outcome_answer]|].
    destruct (hdel_spec c1 M key (f :: fields) eq_refl) as (c' & Hc & Ho); try done. exists c'. split; [|done]. rewrite <- Hc.
    simpl length. by rewrite (proj2 (Z.ltb_ge _ _)) by lia.
  - dispatched 2%nat. exact (hget_spec c1 M key f eq_refl R Hw).
  - dispatched 4%nat. destruct fields as [|f fields]; [eexists; split; [done|by apply outcome_answer]|].
    destruct (hmget_spec c1 M key (f :: fields) eq_refl) as (c' & Hc & Ho); try done. exists c'. split; [|done]. rewrite <- Hc.
    simpl length. by rewrite (proj2 (Z.ltb_ge _ _)) by lia.
  - dispatched 8%nat. exact (hlen_spec c1 M key eq_refl R Hw).
  - dispatched 9%nat. exact (hstrlen_spec c1 M key f eq_refl R Hw).
  - dispatched 13%nat. exact (hexists_spec c1 M key f eq_refl R Hw).
  - assert (∀ ks vs, ks || vs = true → ∃ c', genericHgetallCommand env ks vs c1 = Some c' ∧ outcome key c1 (reading M key TEmptyMap (Entries ks vs)) c') as H.
    { intros ks vs Hkv. apply getall_spec; [by destruct keys, values|done|done|]. unfold fits in Hw. simpl in Hw. lia. }
    destruct keys, values; simpl; [dispatched 12%nat|dispatched 10%nat
      |dispatched 11%nat|dispatched 10%nat];
      [exact (H true true eq_refl)|exact (H true false eq_refl)|exact (H false true eq_refl)|exact (H true false eq_refl)].
Qed.
End refinement.

(** ** Sequences of commands *)

(** Each command of a client; the replies are kept apart. *)
Fixpoint hash_run (env : hash_env) (argvs : list (list sds)) (c : hclient) : option (hclient * list (list token)) :=
  match argvs with
  | [] => Some (c, [])
  | args :: argvs =>
      c ← hash_call env args (mkClient (c_argv c) (c_db c) [] (c_dirty c) (c_touched c) (c_events c));
      '(c', ls) ← hash_run env argvs c;
      Some (c', c_reply c :: ls)
  end.

Fixpoint spec_run (cmds : list hcmd) (M : adb) : adb * list spec_out :=
  match cmds with
  | [] => (M, [])
  | cmd :: cmds => let out := hash_spec cmd M in let '(M', outs) := spec_run cmds (s_db out) in (M', out :: outs)
  end.

Fixpoint fits_run (cmds : list hcmd) (M : adb) : Prop :=
  match cmds with
  | [] => True
  | cmd :: cmds => fits cmd M ∧ fits_run cmds (s_db (hash_spec cmd M))
  end.

Definition dirty_sum (outs : list spec_out) : Z := foldr (λ out n, s_dirty out + n) 0 outs.

Definition all_events (cmds : list hcmd) (outs : list spec_out) : list (sds * sds) :=
  concat (zip_with (λ cmd out, map (λ e, (e, cmd_key cmd)) (s_events out)) cmds outs).

Lemma run_spec env cmds c M :
  (64 ≤ length (stack_buf env))%nat → db_rep env (c_db c) M → fits_run cmds M →
  let '(M', outs) := spec_run cmds M in
  ∃ c' ls, hash_run env (argv_of <$> cmds) c = Some (c', ls) ∧ db_rep env (c_db c') M' ∧
    Forall2 (λ out l, replies (s_reply out) l) outs ls ∧
    c_dirty c' = c_dirty c + dirty_sum outs ∧ c_events c' = c_events c ++ all_events cmds outs.
Proof.
  intros Hbuf. revert c M. induction cmds as [|cmd cmds IH]; intros c M R Hw; cbn [spec_run hash_run fmap list_fmap].
  { exists c, []. rewrite Z.add_0_r, app_nil_r. by split_and!. }
  destruct Hw as [Hw Hws]. set (c0 := mkClient _ _ _ _ _ _). destruct (call_spec env Hbuf cmd c0 M R Hw) as (c1 & -> & R1 & (l & Hl & Hr) & Hd & He & _). obind.
  specialize (IH c1 _ R1 Hws). destruct (spec_run cmds (s_db (hash_spec cmd M))) as [M' outs].
  destruct IH as (c2 & ls & -> & R2 & HF & Hd2 & He2). obind. exists c2, (c_reply c1 :: ls). split; [done|]. split; [done|].
  split; [constructor; [by rewrite Hl|done]|]. split; [rewrite Hd2, Hd; simpl; lia|]. rewrite He2, He. unfold all_events. simpl. by rewrite <- app_assoc.
Qed.

(** C3: The commands on hashes implement a map from keys to maps.  Any sequence
    of HSET, HMSET, HSETNX, HINCRBY, HINCRBYFLOAT, HDEL, HGET, HMGET, HLEN,
    HSTRLEN, HEXISTS, HKEYS, HVALS and HGETALL, with any arguments, on hashes kept
    as ziplists or as dictionaries and converted at any limits, does not fault,
    and gives the replies, the changes, the count of changes and the events of
    the specification, as long as no hash reaches 4 GiB. *)
Theorem hash_commands_refine env cmds M outs :
  (64 ≤ length (stack_buf env))%nat → fits_run cmds ∅ → spec_run cmds ∅ = (M, outs) →
  ∃ c ls, hash_run env (argv_of <$> cmds) (mkClient [] ∅ [] 0 [] []) = Some (c, ls) ∧ db_rep env (c_db c) M ∧
    Forall2 (λ out l, replies (s_reply out) l) outs ls ∧ c_dirty c = dirty_sum outs ∧ c_events c = all_events cmds outs.
Proof.
  intros Hbuf Hw Hs. pose proof (run_spec env cmds (mkClient [] ∅ [] 0 [] []) ∅ Hbuf) as H. rewrite Hs in H.
  destruct H as (c & ls & H1 & H2 & H3 & H4 & H5); [intros key; rewrite !lookup_empty; constructor|done|]. by exists c, ls.
Qed.

(** The third HSET converts the first hash. *)
Definition hash_example : list hcmd :=
  [HSet false "h" ["name"; "x"; "n"; "12"]; HIncrby "h" "n" "-20"; HSetnx "h" "name" "y"; HSet true "h" ["a"; "1"; "name"; "z"];
   HSet false "h" ["b"; "2"]; HMget "h" ["name"; "n"; "c"]; HIncrbyfloat "h" "n" "0.5"; HDel "h" ["a"; "n"; "b"]; HLen "h";
   HDel "h" ["name"; "a"]; HExists "h" "name"].

Definition hash_env_ex : hash_env := mkEnv 0 (replicate 64 zero) (Z.of_nat <$> seq 0 16) true 64 3.

Lemma hash_commands_refine_witness :
  ∃ c ls, hash_run hash_env_ex (argv_of <$> hash_example) (mkClient [] ∅ [] 0 [] []) = Some (c, ls) ∧
    ls = [[TInt 2]; [TInt (-8)]; [TInt 0]; [TOk]; [TInt 1]; [TArrayLen 3; TBulk "z"; TBulk "-8"; TNull]; [TBulk "-7.5"]; [TInt 3]; [TInt 1];
          [TInt 1]; [TInt 0]] ∧ c_dirty c = 9.
Proof.
  destruct (hash_commands_refine hash_env_ex hash_example (spec_run hash_example ∅).1 (spec_run hash_example ∅).2) as (c & ls & Hr & _ & HF & Hd & _).
  - vm_compute. lia.
  - vm_compute. repeat split; reflexivity.
  - vm_compute. reflexivity.
  - exists c, ls. split; [exact Hr|]. split; [|rewrite Hd; vm_compute; reflexivity].
    assert (s_reply <$> (spec_run hash_example ∅).2 = Exactly <$>
      [[TInt 2]; [TInt (-8)]; [TInt 0]; [TOk]; [TInt 1]; [TArrayLen 3; TBulk "z"; TBulk "-8"; TNull]; [TBulk "-7.5"]; [TInt 3]; [TInt 1]; [TInt 1]; [TInt 0]]) as Ho
      by (vm_compute; reflexivity).
    apply (proj2 (Forall2_fmap_l s_reply replies _ _)) in HF. rewrite Ho in HF.
    apply (proj1 (Forall2_fmap_l Exactly replies _ _)) in HF. symmetry. apply list_eq_Forall2. eapply Forall2_impl; [exact HF|]. intros x y Hxy. symmetry. exact Hxy.
Defined.
