(* ===== verification/HashReplica.v ===== *)
(** * Replication of the commands on hashes

    [call] (src/server.c) sends a command to the replicas when it changed
    something, with the arguments that the command left in the client;
    HINCRBYFLOAT leaves an HSET with the result.  A replica may keep a hash in
    another encoding, with other limits and another seed: it holds the same
    maps.  The one exception is an infinite increment, which leaves an empty hash
    behind on the master alone. *)

From Stdlib Require Import Ascii SpecFloat.
From S2P Require Import Prelude.
From S2P Require Import Sds.
From S2P Require Import Dict.
From S2P Require Import DictRep.
From S2P Require Import Ziplist.
From S2P Require Import ZiplistInsert.
From S2P Require Import Hash.
From S2P Require Import HashRep.
From S2P Require Import Double.
From S2P Require Import LongDouble.
From S2P Require Import HashCommands.
From S2P Require Import HashSpec.

#[local] Open Scope Z_scope.

(** The end of [call]: what is propagated after a command that took the client
    from [c] to [c']. *)
Definition propagated (c c' : hclient) : option (list sds) :=
  let dirty := Z.max 0 (c_dirty c' - c_dirty c) in
  if dirty =? 0 then None else Some (c_argv c').

(** Commands at a master, each followed by what it sends to one replica. *)
Fixpoint hash_replicate (env envr : hash_env) (argvs : list (list sds)) (c r : hclient) : option (hclient * hclient) :=
  match argvs with
  | [] => Some (c, r)
  | args :: argvs =>
      c' ← hash_call env args c;
      r' ← match propagated c c' with None => Some r | Some args' => hash_call envr args' r end;
      hash_replicate env envr argvs c' r'
  end.

Definition finite_incr (cmd : hcmd) : bool :=
  match cmd with
  | HIncrbyfloat _ _ arg => match string2ld arg with Some x => negb (is_infinite x) | None => true end
  | _ => true
  end.

(** ** The specification *)

Lemma string2ld_not_nan s x : string2ld s = Some x → isnan x = false.
Proof.
  unfold string2ld. destruct s as [|a s]; [done|]. destruct (_ >=? _); [done|]. destruct (isspace a); [done|].
  destruct (strtod _ _ _) as [[[d er] rest]|]; [|done]. destruct (isnan d) eqn:Hn; [by rewrite orb_true_r|]. destruct (_ || _); [done|]. by intros [= <-].
Qed.

(** An increment of a field that is missing. *)
Lemma ldadd_zero x : isnan x = false → is_infinite x = false → isnan (ldadd (ldofZ 0) x) || is_infinite (ldadd (ldofZ 0) x) = false.
Proof. by destruct x as [[]|s| |s m e]. Qed.

Definition no_empty (M : adb) : Prop := ∀ key, M !! key ≠ Some (AHash ∅).

Lemma no_empty_insert M key m : no_empty M → m ≠ ∅ → no_empty (<[key:=AHash m]> M).
Proof. intros HM Hm key'. destruct (decide (key = key')) as [->|]; [rewrite lookup_insert_eq; congruence|]. rewrite lookup_insert_ne by done. apply HM. Qed.

Lemma no_empty_delete M key : no_empty M → no_empty (delete key M).
Proof. intros HM key'. destruct (decide (key = key')) as [->|]; [by rewrite lookup_delete_eq|]. rewrite lookup_delete_ne by done. apply HM. Qed.

Lemma insert_pairs_not_empty m args : (2 ≤ length args)%nat ∨ m ≠ ∅ → insert_pairs m args ≠ ∅.
Proof.
  assert (∀ n m args, (length args ≤ n)%nat → m ≠ ∅ → insert_pairs m args ≠ ∅) as H.
  { clear. induction n as [|n IH]; intros m args Hn Hm; destruct args as [|f [|v args]]; simpl in *; try done; [lia|]. apply IH; [lia|]. apply insert_non_empty. }
  intros [Hl|Hm]; [|by eapply H]. destruct args as [|f [|v args]]; simpl in *; try lia. apply (H (length args)); [done|]. apply insert_non_empty.
Qed.

(** Without a change the database stays; with one, no hash is empty, and the
    command or what replaces it is what the replicas need. *)
Lemma spec_quiet cmd M : finite_incr cmd = true → s_dirty (hash_spec cmd M) = 0 → s_db (hash_spec cmd M) = M.
Proof.
  intros Hfin. destruct cmd as [mset key args|key f v|key f arg|key f arg|key fields|key f|key fields|key|key f|key f|keys values key]; cbn [hash_spec];
    unfold reading, writing, answer, changed, arity_error; simpl in Hfin.
  4: { destruct (string2ld arg) as [x|] eqn:Hx; [|done]. apply negb_true_iff in Hfin. apply string2ld_not_nan in Hx. unfold hash_at.
       destruct (M !! key) as [[m|]|] eqn:Hm; [|done|rewrite lookup_empty, ldadd_zero by done; done].
       destruct (match m !! f with Some s => string2ld s | None => Some (ldofZ 0) end) as [old|]; [|done]. destruct (_ || _); [|done]. intros _. simpl. by apply insert_id. }
  all: repeat case_match; simpl; intros ?; done || (exfalso; lia).
Qed.

Lemma spec_no_empty cmd M : finite_incr cmd = true → no_empty M → no_empty (s_db (hash_spec cmd M)).
Proof.
  intros Hfin HM. destruct (decide (s_dirty (hash_spec cmd M) = 0)) as [Hz|Hnz]; [by rewrite spec_quiet|]. clear Hfin. revert Hnz.
  destruct cmd as [mset key args|key f v|key f arg|key f arg|key fields|key f|key fields|key|key f|key f|keys values key]; cbn [hash_spec];
    unfold reading, writing, answer, changed, rewritten, arity_error.
  1: { destruct (Nat.ltb_spec (length args) 2); [done|]. destruct (Nat.odd _); [done|].
       destruct (M !! key) as [[m|]|]; intros ?; try done; apply no_empty_insert; try done; apply insert_pairs_not_empty; by left. }
  all: repeat case_match; intros ?; try done; simpl; try (apply no_empty_insert; [done|apply insert_non_empty]); try (by apply no_empty_delete).
  apply no_empty_insert; [done|]. by eapply bool_decide_eq_false_1.
Qed.

(** What a replica is sent leads it to the same maps. *)
Lemma spec_propagated cmd M : s_dirty (hash_spec cmd M) ≠ 0 → fits cmd M →
  ∃ cmd', default (argv_of cmd) (s_argv (hash_spec cmd M)) = argv_of cmd' ∧ fits cmd' M ∧ s_db (hash_spec cmd' M) = s_db (hash_spec cmd M).
Proof.
  intros Hd Hw. destruct (s_argv (hash_spec cmd M)) as [args|] eqn:Ha; [|by exists cmd]. revert Hd Ha.
  destruct cmd as [mset key args'|key f v|key f arg|key f arg|key fields|key f|key fields|key|key f|key f|keys values key];
    cbn [hash_spec]; unfold reading, writing, answer, changed, rewritten, arity_error; try (by repeat case_match).
  destruct (string2ld arg) as [x|]; [|done]. intros Hd Ha. unfold fits in Hw. cbn [cmd_key cmd_weight] in Hw.
  assert (M !! key ≠ Some AOther) as Hn by (intros Hk; by rewrite Hk in Ha).
  set (out := match M !! key with Some (AHash _) | None => _ | Some AOther => _ end) in *.
  assert (out = match match hash_at M key !! f with Some s => string2ld s | None => Some (ldofZ 0) end with
    | None => answer M (TError "hash value is not a float")
    | Some old => let value := ldadd old x in
        if isnan value || is_infinite value then answer (<[key:=AHash (hash_at M key)]> M) (TError "increment would produce NaN or Infinity")
        else rewritten ["HSET"; key; f; ld2string value] (changed M key "hincrbyfloat" (<[f:=ld2string value]> (hash_at M key)) (TBulk (ld2string value)))
    end) as Hout by (subst out; destruct (M !! key) as [[]|]; done).
  rewrite Hout in *. destruct (match hash_at M key !! f with Some s => string2ld s | None => Some (ldofZ 0) end) as [old|]; [|done].
  cbv zeta in *. destruct (_ || _); [done|]. injection Ha as <-. pose proof (ld2string_length (ldadd old x)).
  exists (HSet false key [f; ld2string (ldadd old x)]). split; [done|]. split; [unfold fits; simpl; lia|].
  cbn [hash_spec length Nat.ltb Nat.leb Nat.odd]. simpl. unfold writing. by destruct (M !! key) as [[]|].
Qed.

Lemma dirty_nonneg cmd M : 0 ≤ s_dirty (hash_spec cmd M).
Proof.
  destruct cmd as [mset key args|key f v|key f arg|key f arg|key fields|key f|key fields|key|key f|key f|keys values key]; cbn [hash_spec];
    unfold reading, writing, answer, changed, rewritten, arity_error; repeat case_match; simpl; try done;
    pose proof (delete_fields_size m fields); lia.
Qed.

Lemma replicate_spec env envr cmds c r M :
  (64 ≤ length (stack_buf env))%nat → (64 ≤ length (stack_buf envr))%nat → Forall (λ cmd, finite_incr cmd = true) cmds →
  fits_run cmds M → no_empty M → db_rep env (c_db c) M → db_rep envr (c_db r) M →
  ∃ c' r' M', hash_replicate env envr (argv_of <$> cmds) c r = Some (c', r') ∧ db_rep env (c_db c') M' ∧ db_rep envr (c_db r') M' ∧ no_empty M'.
Proof.
  intros Hb Hbr Hfin. revert c r M. induction Hfin as [|cmd cmds Hf Hfin IH]; intros c r M Hw HM R Rr; [by exists c, r, M|]. destruct Hw as [Hw Hws].
  cbn [fmap list_fmap hash_replicate]. destruct (call_spec env Hb cmd c M R Hw) as (c1 & -> & R1 & _ & Hd & _ & _ & Ha). obind. simpl c_dirty in Hd. simpl c_argv in Ha.
  unfold propagated. pose proof (dirty_nonneg cmd M). destruct (Z.eqb_spec (Z.max 0 (c_dirty c1 - c_dirty c)) 0) as [Hz|Hz].
  - obind. eapply IH; [done|by apply spec_no_empty|done|]. rewrite spec_quiet by (done || lia). done.
  - destruct (spec_propagated cmd M) as (cmd' & Hc' & Hw' & Hdb); [lia|done|]. rewrite Ha, Hc'.
    destruct (call_spec envr Hbr cmd' r M Rr Hw') as (r1 & -> & Rr1 & _). obind. rewrite Hdb in Rr1. eapply IH; [done|by apply spec_no_empty|done|done].
Qed.

(** C4: A replica holds the same hashes as its master.  Whatever commands the
    master runs, with its own limits and seed, and the replica runs what [call]
    propagates, with other limits and another seed, both hold the same maps, and
    no key is left with an empty hash; HINCRBYFLOAT is sent as an HSET of its
    result.  The increments must be finite, and no hash reaches 4 GiB. *)
Theorem hash_replicas_agree env envr cmds :
  (64 ≤ length (stack_buf env))%nat → (64 ≤ length (stack_buf envr))%nat →
  Forall (λ cmd, finite_incr cmd = true) cmds → fits_run cmds ∅ →
  ∃ c r M, hash_replicate env envr (argv_of <$> cmds) (mkClient [] ∅ [] 0 [] []) (mkClient [] ∅ [] 0 [] []) = Some (c, r) ∧
    db_rep env (c_db c) M ∧ db_rep envr (c_db r) M ∧ ∀ key, M !! key ≠ Some (AHash ∅).
Proof.
  intros Hb Hbr Hf Hw. apply (replicate_spec env envr cmds _ _ ∅); try done; intros key; rewrite !lookup_empty; done || constructor.
Qed.

Lemma hash_replicas_agree_witness :
  ∃ c r M, hash_replicate hash_env_ex (mkEnv 7 (replicate 64 zero) (Z.of_nat <$> seq 5 16) true 64 512)
      (argv_of <$> hash_example) (mkClient [] ∅ [] 0 [] []) (mkClient [] ∅ [] 0 [] []) = Some (c, r) ∧
    db_rep hash_env_ex (c_db c) M ∧ ∀ key, M !! key ≠ Some (AHash ∅).
Proof.
  destruct (hash_replicas_agree hash_env_ex (mkEnv 7 (replicate 64 zero) (Z.of_nat <$> seq 5 16) true 64 512) hash_example) as (c & r & M & Hr & R & _ & Hn).
  - vm_compute. lia.
  - vm_compute. lia.
  - repeat constructor.
  - vm_compute. repeat split; reflexivity.
  - exists c, r, M. split; [exact Hr|]. split; [exact R|exact Hn].
Defined.

(** ** Where the code falls short *)

(** The number of fields of the hash at a key. *)
Definition length_at (key : sds) (c : hclient) : option Z :=
  v ← c_db c !! key; match v with VHash o => snd <$> hashTypeLength o | VOther => None end.

(** An infinite increment of a field that does not exist is refused after the
    key has been created: the master is left with a hash without fields, and
    the replica has no such key. *)
Lemma infinite_increment_leaves_key :
  (λ '(c, r), (c_reply c, length_at "k" c, length_at "k" r)) <$>
    hash_replicate hash_env_ex hash_env_ex [["HINCRBYFLOAT"; "k"; "f"; "inf"]] (mkClient [] ∅ [] 0 [] []) (mkClient [] ∅ [] 0 [] []) =
  Some ([TError "increment would produce NaN or Infinity"], Some 0, None).
Proof. vm_compute. reflexivity. Qed.

Definition long_field : sds := zeros 65.

Definition is_ziplist (key : sds) (c : hclient) : option bool :=
  v ← c_db c !! key; match v with VHash (OBJ_ENCODING_ZIPLIST _) => Some true | VHash (OBJ_ENCODING_HT _) => Some false | VOther => None end.

(** HSET of a field that is longer than hash-max-ziplist-value converts the
    hash; HINCRBY of the same field does not. *)
Lemma increment_keeps_ziplist :
  Z.of_nat (String.length long_field) > hash_max_ziplist_value hash_env_ex ∧
  is_ziplist "k" <$> hash_call hash_env_ex ["HINCRBY"; "k"; long_field; "1"] (mkClient [] ∅ [] 0 [] []) = Some (Some true) ∧
  is_ziplist "k" <$> hash_call hash_env_ex ["HSET"; "k"; long_field; "1"] (mkClient [] ∅ [] 0 [] []) = Some (Some false).
Proof. split_and!; vm_compute; reflexivity. Qed.
