(* ===== verification/Entries.v ===== *)
(** * Sorted entries

    The contents of a sorted set as a list of (score, element) pairs in the
    order of src/t_zset.c, score first and then the element bytes, and as a
    finite map from elements to scores.  Both encodings of a sorted set are
    specified with these lists. *)

From Stdlib Require Import Sorting.Sorted.
From stdpp Require Import sorting.
From S2P Require Import Prelude.
From S2P Require Import Sds.
From S2P Require Import Double.

#[local] Open Scope Z_scope.

Abbreviation entry := (double * sds)%type.

(** Strictly sorted, no NaN, every element once. *)
Definition ksorted (K : list entry) : Prop :=
  StronglySorted plt K ∧ Forall not_nan K ∧ NoDup (snd <$> K).

#[global] Instance key_lt_dec a b : Decision (key_lt a b).
Proof. destruct a as [[??]?], b as [[??]?]. unfold key_lt. apply _. Defined.
#[global] Instance plt_dec p q : Decision (plt p q).
Proof. unfold plt. apply _. Defined.
#[global] Instance not_nan_dec p : Decision (not_nan p).
Proof. unfold not_nan. apply _. Defined.
#[global] Instance ksorted_dec K : Decision (ksorted K).
Proof. unfold ksorted. apply _. Defined.

Definition kmap (K : list entry) : gmap sds double := list_to_map ((λ k, (k.2, k.1)) <$> K).

(** Where an entry belongs. *)
Definition ksplit (k : entry) (Lo Hi : list entry) : Prop :=
  Forall (λ x, pbefore x k = true) Lo ∧ Forall (λ x, pbefore x k = false) Hi.

Lemma ksorted_nil : ksorted [].
Proof. split_and!; constructor. Qed.

Lemma ksorted_not_nan K k : ksorted K → k ∈ K → not_nan k.
Proof. intros (_ & Hn & _). rewrite Forall_forall in Hn. apply Hn. Qed.

Lemma ksorted_cons k K :
  ksorted (k :: K) ↔ ksorted K ∧ Forall (plt k) K ∧ not_nan k ∧ k.2 ∉ snd <$> K.
Proof.
  unfold ksorted. rewrite Forall_cons, fmap_cons, NoDup_cons. split.
  - intros (Hs & [? ?] & ? & ?). apply StronglySorted_inv in Hs as [? ?]. tauto.
  - intros ((? & ? & ?) & ? & ? & ?). split_and!; try done. by constructor.
Qed.

Lemma ksorted_split K k : ksorted K → not_nan k → ∃ Lo Hi, K = Lo ++ Hi ∧ ksplit k Lo Hi.
Proof.
  intros HK Hk. induction K as [|x K IH].
  { exists [], []. split; [done|]. by split. }
  apply ksorted_cons in HK as (HK & Hlt & Hx & _).
  destruct (pbefore x k) eqn:Hb.
  - destruct (IH HK) as (Lo & Hi & -> & HLo & HHi). exists (x :: Lo), Hi.
    split; [done|]. split; [by constructor|done].
  - exists [], (x :: K). split; [done|]. split; [done|]. constructor; [done|].
    rewrite pbefore_false in Hb by done. rewrite Forall_forall in Hlt |- *. intros y Hy.
    apply pbefore_false; [by eapply ksorted_not_nan|done|]. intros Hyk. apply Hb.
    eapply plt_trans; [by apply Hlt|done].
Qed.

Lemma ksorted_app K1 K2 :
  ksorted (K1 ++ K2) ↔ ksorted K1 ∧ ksorted K2 ∧ (∀ x y, x ∈ K1 → y ∈ K2 → plt x y ∧ x.2 ≠ y.2).
Proof.
  induction K1 as [|k K1 IH]; simpl.
  { split; [|tauto]. intros H. split; [apply ksorted_nil|]. split; [done|]. intros x y ?%elem_of_nil. done. }
  rewrite !ksorted_cons, IH, Forall_app, fmap_app, !not_elem_of_app. split.
  - intros ((H1 & H2 & H12) & (Hk1 & Hk2) & Hn & Hd1 & Hd2). split_and!; try done.
    intros x y Hx Hy. apply elem_of_cons in Hx as [->|Hx]; [|by apply H12].
    rewrite Forall_forall in Hk2. split; [by apply Hk2|]. intros Heq. apply Hd2.
    rewrite Heq. by apply list_elem_of_fmap_2.
  - intros ((H1 & Hk1 & Hn & Hd1) & H2 & H12). split_and!; try done.
    + intros x y Hx Hy. apply H12; [by right|done].
    + apply Forall_forall. intros y Hy. apply H12; [by left|done].
    + intros (y & Heq & Hy)%list_elem_of_fmap. destruct (H12 k y) as [_ Hne]; [by left|done|]. done.
Qed.

(** Inserting where an entry belongs, removing an entry. *)
Lemma ksorted_insert Lo Hi k :
  ksorted (Lo ++ Hi) → not_nan k → k.2 ∉ snd <$> (Lo ++ Hi) → ksplit k Lo Hi →
  ksorted (Lo ++ k :: Hi).
Proof.
  intros HK Hk Hnew [HLo HHi]. apply ksorted_app in HK as (H1 & H2 & H12).
  rewrite fmap_app, not_elem_of_app in Hnew. destruct Hnew as [Hn1 Hn2].
  rewrite Forall_forall in HLo, HHi. apply ksorted_app. split; [done|]. split.
  - apply ksorted_cons. split; [done|]. split; [|done]. apply Forall_forall. intros y Hy.
    assert (k.2 ≠ y.2) as Hne by (intros Heq; apply Hn2; rewrite Heq; by apply list_elem_of_fmap_2).
    destruct (plt_total k y) as [|Hlt]; [done|done|]. exfalso. specialize (HHi y Hy). simpl in HHi.
    rewrite pbefore_false in HHi; [by apply HHi|exact (ksorted_not_nan _ _ H2 Hy)|done].
  - intros x y Hx Hy. apply elem_of_cons in Hy as [->|Hy]; [|by apply H12]. split.
    + apply pbefore_spec; [exact (ksorted_not_nan _ _ H1 Hx)|done|by apply HLo].
    + intros Heq. apply Hn1. rewrite <- Heq. by apply list_elem_of_fmap_2.
Qed.

Lemma ksorted_remove Lo Hi k : ksorted (Lo ++ k :: Hi) → ksorted (Lo ++ Hi).
Proof.
  rewrite !ksorted_app, ksorted_cons. intros (H1 & (H2 & _) & H12). split_and!; try done.
  intros x y Hx Hy. apply H12; [done|by right].
Qed.

(** An entry of a sorted list is where it belongs. *)
Lemma ksorted_at Lo Hi k :
  ksorted (Lo ++ k :: Hi) → not_nan k ∧ ksplit k Lo (k :: Hi) ∧ k.2 ∉ snd <$> (Lo ++ Hi).
Proof.
  rewrite ksorted_app, ksorted_cons. intros (H1 & (H2 & Hk & Hn & Hd) & H12). split; [done|]. split.
  - split; apply Forall_forall; intros x Hx.
    + apply pbefore_spec; [exact (ksorted_not_nan _ _ H1 Hx)|done|]. apply H12; [done|by left].
    + assert (not_nan x) as Hx' by (apply elem_of_cons in Hx as [->|Hx']; [done|exact (ksorted_not_nan _ _ H2 Hx')]).
      apply pbefore_false; [done..|]. intros Hlt. apply elem_of_cons in Hx as [->|Hx].
      * by apply plt_irrefl in Hlt.
      * rewrite Forall_forall in Hk. by eapply plt_irrefl, plt_trans, Hk.
  - rewrite fmap_app, not_elem_of_app. split; [|done].
    intros (x & Heq & Hx)%list_elem_of_fmap. destruct (H12 x k) as [_ Hne]; [done|by left|]. done.
Qed.

(** A new score strictly between those of the neighbours keeps the place. *)
Lemma dltb_plt x y : isnan x.1 = false → isnan y.1 = false → dltb x.1 y.1 = true → plt x y.
Proof. intros Hx Hy. rewrite dltb_key by done. by left. Qed.

Lemma ksplit_between Lo Hi e s :
  ksorted (Lo ++ Hi) → isnan s = false →
  match last Lo with Some x => dltb x.1 s = true | None => True end →
  match head Hi with Some x => dltb s x.1 = true | None => True end →
  ksplit (s, e) Lo Hi.
Proof.
  intros HK Hs Hl Hr. apply ksorted_app in HK as (H1 & H2 & _). split; apply Forall_forall; intros y Hy.
  - apply pbefore_spec; [exact (ksorted_not_nan _ _ H1 Hy)|done|].
    destruct (last Lo) as [x|] eqn:Hx; [|apply last_None in Hx; subst; by apply elem_of_nil in Hy].
    apply last_Some in Hx as [Lo' ->]. apply ksorted_app in H1 as (_ & H1x & H1).
    apply ksorted_cons in H1x as (_ & _ & Hn & _).
    assert (plt x (s, e)) by (by apply dltb_plt).
    apply elem_of_app in Hy as [Hy|Hy]; [|by apply list_elem_of_singleton in Hy as ->].
    eapply plt_trans; [|done]. apply H1; [done|by apply list_elem_of_singleton].
  - apply pbefore_false; [exact (ksorted_not_nan _ _ H2 Hy)|done|]. intros Hlt.
    destruct (head Hi) as [x|] eqn:Hx; [|apply head_None in Hx; subst; by apply elem_of_nil in Hy].
    apply head_Some in Hx as [Hi' ->]. apply ksorted_cons in H2 as (_ & H2 & Hn & _).
    assert (plt (s, e) x) by (by apply dltb_plt). rewrite Forall_forall in H2.
    apply elem_of_cons in Hy as [->|Hy]; [by eapply plt_irrefl, plt_trans|].
    eapply plt_irrefl, plt_trans; [done|]. eapply plt_trans; [by apply H2|done].
Qed.

(** ** Lists and maps *)

Lemma kmap_lookup K e s : NoDup (snd <$> K) → kmap K !! e = Some s ↔ (s, e) ∈ K.
Proof.
  intros Hnd. unfold kmap. rewrite <- elem_of_list_to_map.
  - rewrite list_elem_of_fmap. split.
    + intros ([s' e'] & [= -> ->] & Hin). done.
    + intros Hin. by exists (s, e).
  - by rewrite <- list_fmap_compose.
Qed.

Lemma kmap_lookup_None K e : kmap K !! e = None ↔ e ∉ snd <$> K.
Proof. unfold kmap. rewrite <- not_elem_of_list_to_map. by rewrite <- list_fmap_compose. Qed.

Lemma kmap_cons k K : kmap (k :: K) = <[k.2 := k.1]> (kmap K).
Proof. done. Qed.

Lemma kmap_middle Lo k Hi :
  k.2 ∉ snd <$> (Lo ++ Hi) → kmap (Lo ++ k :: Hi) = <[k.2 := k.1]> (kmap (Lo ++ Hi)).
Proof.
  intros Hk. induction Lo as [|x Lo IH]; [done|].
  simpl app in *. rewrite !kmap_cons, IH by set_solver. apply insert_insert_ne. set_solver.
Qed.

Lemma kmap_remove Lo k Hi :
  k.2 ∉ snd <$> (Lo ++ Hi) → kmap (Lo ++ Hi) = delete k.2 (kmap (Lo ++ k :: Hi)).
Proof. intros Hk. rewrite kmap_middle by done. by rewrite delete_insert_id by (by apply kmap_lookup_None). Qed.

Lemma size_kmap K : NoDup (snd <$> K) → size (kmap K) = length K.
Proof.
  induction K as [|k K IH]; [done|]. simpl. rewrite NoDup_cons. intros [Hk HK].
  rewrite kmap_cons, map_size_insert_None by (by apply kmap_lookup_None). by rewrite IH.
Qed.

(** The last entry is above all others. *)
Lemma ksorted_last K k :
  ksorted K → last K = Some k → ∀ e s, kmap K !! e = Some s → e ≠ k.2 → plt (s, e) k.
Proof.
  intros HK (K' & ->)%last_Some e s Hin Hne. rewrite kmap_lookup in Hin by apply HK.
  apply ksorted_app in HK as (_ & _ & H12). apply elem_of_app in Hin as [Hin|Hin].
  - apply H12; [done|by apply list_elem_of_singleton].
  - apply list_elem_of_singleton in Hin as <-. done.
Qed.

(** A sorted list is determined by its map. *)
Lemma kmap_inj K1 K2 : ksorted K1 → ksorted K2 → kmap K1 = kmap K2 → K1 = K2.
Proof.
  intros H1 H2 Heq. apply (StronglySorted_unique_strong plt).
  - intros x y Hx Hy Hxy Hyx. exfalso. by eapply plt_irrefl, plt_trans.
  - apply H1.
  - apply H2.
  - apply NoDup_Permutation; [by eapply NoDup_fmap_1, H1|by eapply NoDup_fmap_1, H2|].
    intros [s e]. rewrite <- !kmap_lookup by (apply H1 || apply H2). by rewrite Heq.
Qed.

(** The test of [insert_pair], written the other way round. *)
Lemma pafter_spec p q :
  not_nan p → not_nan q → p.2 ≠ q.2 →
  dltb q.1 p.1 || (deqb p.1 q.1 && (0 <? sdscmp p.2 q.2)) = negb (pbefore p q).
Proof.
  intros Hp Hq Hne.
  assert (dltb q.1 p.1 || (deqb p.1 q.1 && (0 <? sdscmp p.2 q.2)) = true ↔ plt q p) as H.
  { rewrite orb_true_iff, andb_true_iff, dltb_key, deqb_key, Z.ltb_lt, sdscmp_antisym by done.
    unfold plt. split; (intros [?|[??]]; [by left|by right]). }
  destruct (pbefore p q) eqn:Hb; simpl.
  - apply not_true_iff_false. rewrite H. apply pbefore_spec in Hb; [|done..]. intros Hqp.
    by eapply plt_irrefl, plt_trans.
  - apply H. apply pbefore_false in Hb; [|done..]. by destruct (plt_total p q Hne).
Qed.
