(* ===== verification/Skiplist.v ===== *)
(** * Skip lists (src/t_zset.c, zsl* functions)

    A [zskiplist] is modelled with its nodes on a heap: every node keeps its
    array of levels, each with a forward pointer and a span, and a backward
    pointer, as in src/server.h.  Accesses outside a level array, dangling
    pointers and failed assertions are [None]. *)

From S2P Require Import Prelude.
From S2P Require Import Sds.
From S2P Require Import Double.

#[local] Open Scope Z_scope.

Definition ZSKIPLIST_MAXLEVEL : nat := 32.

Abbreviation loc := positive.

(** ** Data *)

Record zskiplistLevel := mkLevel { forward : option loc; span : Z }.

Record zskiplistNode := mkNode {
  z_ele : sds;
  z_score : double;
  z_backward : option loc;
  z_level : list zskiplistLevel
}.

Record zskiplist := mkZsl {
  z_header : list zskiplistLevel;
  z_nodes : gmap loc zskiplistNode;
  z_tail : option loc;
  z_length : Z;
  z_lv : nat
}.

(** A [zskiplistNode *] that is the header or a node. *)
Inductive zptr := Hdr | Node (l : loc).

#[global] Instance zptr_eq_dec : EqDecision zptr.
Proof. solve_decision. Defined.

Definition levels_of (zsl : zskiplist) (x : zptr) : option (list zskiplistLevel) :=
  match x with
  | Hdr => Some (z_header zsl)
  | Node l => z_level <$> z_nodes zsl !! l
  end.

(** [x->level[i]], read and written. *)
Definition get_level (zsl : zskiplist) (x : zptr) (i : nat) : option zskiplistLevel :=
  lv ← levels_of zsl x; lv !! i.

Definition set_levels (x : zptr) (lv : list zskiplistLevel) (zsl : zskiplist) : zskiplist :=
  match x with
  | Hdr => mkZsl lv (z_nodes zsl) (z_tail zsl) (z_length zsl) (z_lv zsl)
  | Node l =>
      mkZsl (z_header zsl)
        (alter (λ n, mkNode (z_ele n) (z_score n) (z_backward n) lv) l (z_nodes zsl))
        (z_tail zsl) (z_length zsl) (z_lv zsl)
  end.

Definition put_level (x : zptr) (i : nat) (v : zskiplistLevel) (zsl : zskiplist) : option zskiplist :=
  lv ← levels_of zsl x;
  if decide (i < length lv)%nat then Some (set_levels x (<[i:=v]> lv) zsl) else None.

Definition set_backward (l : loc) (b : option loc) (zsl : zskiplist) : zskiplist :=
  mkZsl (z_header zsl)
    (alter (λ n, mkNode (z_ele n) (z_score n) b (z_level n)) l (z_nodes zsl))
    (z_tail zsl) (z_length zsl) (z_lv zsl).

Definition set_tail (t : option loc) (zsl : zskiplist) : zskiplist :=
  mkZsl (z_header zsl) (z_nodes zsl) t (z_length zsl) (z_lv zsl).

Definition set_length (n : Z) (zsl : zskiplist) : zskiplist :=
  mkZsl (z_header zsl) (z_nodes zsl) (z_tail zsl) n (z_lv zsl).

Definition set_lv (n : nat) (zsl : zskiplist) : zskiplist :=
  mkZsl (z_header zsl) (z_nodes zsl) (z_tail zsl) (z_length zsl) n.

Definition set_nodes (ns : gmap loc zskiplistNode) (zsl : zskiplist) : zskiplist :=
  mkZsl (z_header zsl) ns (z_tail zsl) (z_length zsl) (z_lv zsl).

(** ** Operations *)

(** [zslCreateNode]: the level array is allocated, not initialised; the
    caller fills every level. *)
Definition zslCreateNode (level : nat) (score : double) (ele : sds) : zskiplistNode :=
  mkNode ele score None (replicate level (mkLevel None 0)).

Definition zslCreate : zskiplist :=
  mkZsl (replicate ZSKIPLIST_MAXLEVEL (mkLevel None 0)) ∅ None 0 1.

(** [zslRandomLevel]: [rnd] are the outputs of [random()] still to come; an
    exhausted list stands for an output that ends the loop. *)
Fixpoint random_run (rnd : list Z) : nat * list Z :=
  match rnd with
  | r :: rnd' =>
      if Z.land r 0xFFFF <? 16384 (* ZSKIPLIST_P * 0xFFFF = 16383.75 *)
      then let '(n, rest) := random_run rnd' in (S n, rest)
      else (O, rnd')
  | [] => (O, [])
  end.

Definition zslRandomLevel (rnd : list Z) : nat * list Z :=
  let '(n, rest) := random_run rnd in
  (if decide (1 + n < ZSKIPLIST_MAXLEVEL)%nat then (1 + n)%nat else ZSKIPLIST_MAXLEVEL, rest).

(** The order test of the search loops. *)
Definition node_before (n : zskiplistNode) (score : double) (ele : sds) : bool :=
  dltb (z_score n) score || (deqb (z_score n) score && (sdscmp (z_ele n) ele <? 0)).

(** The [while] loop at level [i]: move forward while the next node is
    before (score, ele), adding up the spans crossed. *)
Fixpoint zsl_walk (fuel : nat) (zsl : zskiplist) (score : double) (ele : sds)
    (i : nat) (x : zptr) (rank : Z) : option (zptr * Z) :=
  match fuel with
  | O => None
  | S fuel' =>
      lv ← get_level zsl x i;
      match forward lv with
      | None => Some (x, rank)
      | Some y =>
          n ← z_nodes zsl !! y;
          if node_before n score ele
          then zsl_walk fuel' zsl score ele i (Node y) (rank + span lv)
          else Some (x, rank)
      end
  end.

Definition walk_fuel (zsl : zskiplist) : nat := S (size (z_nodes zsl)).

(** The [for (i = level-1; i >= 0; i--)] loop: the pairs [update[i]],
    [rank[i]] for i = 0 .. n-1, head of the list at level 0. *)
Fixpoint zsl_search (zsl : zskiplist) (score : double) (ele : sds) (n : nat)
    (x : zptr) (rank : Z) (acc : list (zptr * Z)) : option (list (zptr * Z)) :=
  match n with
  | O => Some acc
  | S i =>
      '(x', rank') ← zsl_walk (walk_fuel zsl) zsl score ele i x rank;
      zsl_search zsl score ele i x' rank' ((x', rank') :: acc)
  end.

(** Linking the new node [x] at levels [i .. level-1]. *)
Fixpoint zsl_link (x : loc) (rank0 : Z) (i : nat) (upd : list (zptr * Z))
    (zsl : zskiplist) : option zskiplist :=
  match upd with
  | [] => Some zsl
  | (u, rank) :: upd' =>
      lu ← get_level zsl u i;
      zsl ← put_level (Node x) i (mkLevel (forward lu) (span lu - (rank0 - rank))) zsl;
      zsl ← put_level u i (mkLevel (Some x) (rank0 - rank + 1)) zsl;
      zsl_link x rank0 (S i) upd' zsl
  end.

(** [update[i]->level[i].span++] at the untouched levels. *)
Fixpoint zsl_bump (i : nat) (upd : list (zptr * Z)) (zsl : zskiplist) : option zskiplist :=
  match upd with
  | [] => Some zsl
  | (u, _) :: upd' =>
      lu ← get_level zsl u i;
      zsl ← put_level u i (mkLevel (forward lu) (span lu + 1)) zsl;
      zsl_bump (S i) upd' zsl
  end.

(** Header levels first used by the new node: span is the whole length. *)
Fixpoint zsl_raise (i n : nat) (zsl : zskiplist) : option zskiplist :=
  match n with
  | O => Some zsl
  | S n' =>
      lu ← get_level zsl Hdr i;
      zsl ← put_level Hdr i (mkLevel (forward lu) (z_length zsl)) zsl;
      zsl_raise (S i) n' zsl
  end.

(** The ranks are [unsigned int] in the code, which makes no difference below
    2^32 nodes. *)
Definition zslInsert (zsl : zskiplist) (score : double) (ele : sds) (rnd : list Z)
    : option (zskiplist * loc * list Z) :=
  if isnan score then None
  else
    upd ← zsl_search zsl score ele (z_lv zsl) Hdr 0 [];
    let '(level, rnd') := zslRandomLevel rnd in
    let old := z_lv zsl in
    '(zsl, upd) ←
      (if decide (old < level)%nat then
         zsl' ← zsl_raise old (level - old) zsl;
         Some (set_lv level zsl', upd ++ replicate (level - old) (Hdr, 0))
       else Some (zsl, upd));
    let x := fresh (dom (z_nodes zsl)) in
    let zsl := set_nodes (<[x := zslCreateNode level score ele]> (z_nodes zsl)) zsl in
    '(u0, rank0) ← head upd;
    zsl ← zsl_link x rank0 0 (take level upd) zsl;
    zsl ← zsl_bump level (drop level upd) zsl;
    let zsl := set_backward x (match u0 with Hdr => None | Node l => Some l end) zsl in
    l0 ← get_level zsl (Node x) 0;
    let zsl := match forward l0 with
               | Some y => set_backward y (Some x) zsl
               | None => set_tail (Some x) zsl
               end in
    Some (set_length (z_length zsl + 1) zsl, x, rnd').

(** The per-level part of [zslDeleteNode]. *)
Fixpoint zsl_unlink (x : loc) (i : nat) (upd : list zptr) (zsl : zskiplist) : option zskiplist :=
  match upd with
  | [] => Some zsl
  | u :: upd' =>
      lu ← get_level zsl u i;
      zsl ← (if decide (forward lu = Some x) then
               lx ← get_level zsl (Node x) i;
               put_level u i (mkLevel (forward lx) (span lu + (span lx - 1))) zsl
             else put_level u i (mkLevel (forward lu) (span lu - 1)) zsl);
      zsl_unlink x (S i) upd' zsl
  end.

(** [while (zsl->level > 1 && header->level[level-1].forward == NULL) level--]. *)
Fixpoint zsl_lower (n : nat) (zsl : zskiplist) : nat :=
  match n with
  | S (S k as n') =>
      match z_header zsl !! n' with
      | Some (mkLevel None _) => zsl_lower n' zsl
      | _ => n
      end
  | _ => n
  end.

Definition zslDeleteNode (zsl : zskiplist) (x : loc) (upd : list zptr) : option zskiplist :=
  zsl ← zsl_unlink x 0 (take (z_lv zsl) upd) zsl;
  nx ← z_nodes zsl !! x;
  lx ← z_level nx !! 0%nat;
  let zsl := match forward lx with
             | Some y => set_backward y (z_backward nx) zsl
             | None => set_tail (z_backward nx) zsl
             end in
  let zsl := set_lv (zsl_lower (z_lv zsl) zsl) zsl in
  Some (set_length (z_length zsl - 1) zsl).

(** [zslDelete] with [node == NULL]: the node found is freed. *)
Definition zslDelete (zsl : zskiplist) (score : double) (ele : sds) : option (zskiplist * bool) :=
  upd ← zsl_search zsl score ele (z_lv zsl) Hdr 0 [];
  '(u0, _) ← head upd;
  l0 ← get_level zsl u0 0;
  match forward l0 with
  | Some x =>
      n ← z_nodes zsl !! x;
      if deqb score (z_score n) && (sdscmp (z_ele n) ele =? 0) then
        zsl ← zslDeleteNode zsl x (fst <$> upd);
        Some (set_nodes (delete x (z_nodes zsl)) zsl, true)
      else Some (zsl, false)
  | None => Some (zsl, false)
  end.

Definition zslUpdateScore (zsl : zskiplist) (curscore : double) (ele : sds) (newscore : double)
    (rnd : list Z) : option (zskiplist * loc * list Z) :=
  upd ← zsl_search zsl curscore ele (z_lv zsl) Hdr 0 [];
  '(u0, _) ← head upd;
  l0 ← get_level zsl u0 0;
  x ← forward l0;
  n ← z_nodes zsl !! x;
  if deqb curscore (z_score n) && (sdscmp (z_ele n) ele =? 0) then
    lx ← z_level n !! 0%nat;
    left_ok ← match z_backward n with
              | None => Some true
              | Some b => nb ← z_nodes zsl !! b; Some (dltb (z_score nb) newscore)
              end;
    right_ok ← match forward lx with
               | None => Some true
               | Some f => nf ← z_nodes zsl !! f; Some (dltb newscore (z_score nf))
               end;
    if left_ok && right_ok then
      Some (set_nodes (<[x := mkNode (z_ele n) newscore (z_backward n) (z_level n)]>
                         (z_nodes zsl)) zsl, x, rnd)
    else
      zsl ← zslDeleteNode zsl x (fst <$> upd);
      '(zsl, newnode, rnd) ← zslInsert zsl newscore (z_ele n) rnd;
      Some (set_nodes (delete x (z_nodes zsl)) zsl, newnode, rnd)
  else None.
