(* ===== verification/SkiplistRep.v ===== *)
(** * Skip lists represent sorted lists

    [zsl_rep zsl R]: the skip list [zsl] holds the nodes [R], in this order.
    A node of [R] is its address, its height, its score and its element; the
    forward pointer and span of every level of every node, the backward
    pointers, the tail, the length and the level of the list are functions
    of [R]. *)

From Stdlib Require Import Sorting.Sorted.
From S2P Require Import Prelude.
From S2P Require Import Sds.
From S2P Require Import Double.
From S2P Require Import Entries.
From S2P Require Import Skiplist.

#[local] Open Scope Z_scope.

Record rnode := mkRnode { rn_loc : loc; rn_h : nat; rn_score : double; rn_ele : sds }.

Definition rn_key (r : rnode) : double * sds := (rn_score r, rn_ele r).

(** Level [i] of a pointer followed by the nodes [B]: the first of them that
    is higher than [i], and its distance; without one, the distance to the
    end. *)
Fixpoint lvl (i : nat) (B : list rnode) : zskiplistLevel :=
  match B with
  | [] => mkLevel None 0
  | r :: B' => if decide (i < rn_h r)%nat then mkLevel (Some (rn_loc r)) 1
               else mkLevel (forward (lvl i B')) (span (lvl i B') + 1)
  end.

(** The pointer after the nodes [A]. *)
Definition ptr (A : list rnode) : zptr :=
  match last A with None => Hdr | Some r => Node (rn_loc r) end.

(** It has a level [i]. *)
Definition has_level (lv : nat) (A : list rnode) (i : nat) : Prop :=
  match last A with None => (i < lv)%nat | Some r => (i < rn_h r)%nat end.

(** What a node holds besides the contents of its levels. *)
Definition node_frame (n : zskiplistNode) : sds * double * option loc * nat :=
  (z_ele n, z_score n, z_backward n, length (z_level n)).

Definition frames (zsl : zskiplist) : gmap loc (sds * double * option loc * nat) :=
  node_frame <$> z_nodes zsl.

Definition node_data (zsl : zskiplist) (A : list rnode) (r : rnode) : Prop :=
  frames zsl !! rn_loc r = Some (rn_ele r, rn_score r, rn_loc <$> last A, rn_h r).

Definition levels_ok (zsl : zskiplist) (R : list rnode) : Prop :=
  ∀ A B i, R = A ++ B → has_level (z_lv zsl) A i → get_level zsl (ptr A) i = Some (lvl i B).

(** Header levels not in use. *)
Definition spare_levels (zsl : zskiplist) : Prop :=
  ∀ i, (z_lv zsl ≤ i < ZSKIPLIST_MAXLEVEL)%nat → ∃ s, get_level zsl Hdr i = Some (mkLevel None s).

Record zsl_rep (zsl : zskiplist) (R : list rnode) : Prop := {
  rep_data A r B : R = A ++ r :: B → node_data zsl A r;
  rep_levels : levels_ok zsl R;
  rep_spare : spare_levels zsl;
  rep_nodup : NoDup (rn_loc <$> R);
  rep_header : length (z_header zsl) = ZSKIPLIST_MAXLEVEL;
  rep_lv : (1 ≤ z_lv zsl ≤ ZSKIPLIST_MAXLEVEL)%nat;
  rep_height : Forall (λ r, (1 ≤ rn_h r ≤ z_lv zsl)%nat) R;
  rep_tail : z_tail zsl = rn_loc <$> last R;
  rep_length : z_length zsl = Z.of_nat (length R)
}.

Lemma node_data_node zsl A r :
  node_data zsl A r ↔
  ∃ n, z_nodes zsl !! rn_loc r = Some n ∧ z_ele n = rn_ele r ∧ z_score n = rn_score r
    ∧ z_backward n = rn_loc <$> last A ∧ length (z_level n) = rn_h r.
Proof.
  unfold node_data, frames. rewrite lookup_fmap_Some. unfold node_frame. split.
  - intros (n & Heq & Hn). exists n. by injection Heq as -> -> -> ->.
  - intros (n & Hn & He & Hs & Hb & Hl). exists n. by rewrite He, Hs, Hb, Hl.
Qed.

(** ** Levels *)

Definition bump (k : Z) (v : zskiplistLevel) : zskiplistLevel := mkLevel (forward v) (span v + k).

Lemma lvl_short i C B :
  Forall (λ r, (rn_h r ≤ i)%nat) C → lvl i (C ++ B) = bump (Z.of_nat (length C)) (lvl i B).
Proof.
  induction 1 as [|r C Hr _ IH].
  { unfold bump. simpl. rewrite Z.add_0_r. by destruct (lvl i B). }
  simpl. rewrite decide_False by lia. rewrite IH. unfold bump. simpl. f_equal. lia.
Qed.

Lemma lvl_tall i r B : (i < rn_h r)%nat → lvl i (r :: B) = mkLevel (Some (rn_loc r)) 1.
Proof. intros. simpl. by rewrite decide_True. Qed.

Lemma lvl_skip i r B : (rn_h r ≤ i)%nat → lvl i (r :: B) = bump 1 (lvl i B).
Proof. intros. simpl. by rewrite decide_False by lia. Qed.

(** A tall node hides what comes after it. *)
Lemma lvl_hidden i C B B' :
  ¬ Forall (λ r, (rn_h r ≤ i)%nat) C → lvl i (C ++ B) = lvl i (C ++ B').
Proof.
  induction C as [|r C IH]; intros H; [by destruct H|]. simpl.
  case_decide; [done|]. rewrite IH; [done|]. intros ?. apply H. constructor; [lia|done].
Qed.

(** Splitting at the first tall node. *)
Lemma lvl_cases i B :
  (Forall (λ r, (rn_h r ≤ i)%nat) B ∧ forward (lvl i B) = None) ∨
  ∃ C r B', B = C ++ r :: B' ∧ Forall (λ r, (rn_h r ≤ i)%nat) C ∧ (i < rn_h r)%nat
    ∧ lvl i B = mkLevel (Some (rn_loc r)) (Z.of_nat (length C) + 1).
Proof.
  induction B as [|r B IH]; [left; by repeat constructor|].
  destruct (decide (i < rn_h r)%nat) as [Hr|Hr].
  - right. exists [], r, B. split_and!; auto. by rewrite lvl_tall.
  - destruct IH as [[Hs Hn]|(C & r' & B' & -> & HC & Hr' & Hlv)].
    + left. split; [constructor; [lia|done]|]. simpl. by rewrite decide_False.
    + right. exists (r :: C), r', B'. split_and!; auto; [constructor; [lia|done]|].
      simpl. rewrite decide_False by lia. rewrite Hlv. simpl. f_equal. lia.
Qed.

Lemma ptr_snoc A r : ptr (A ++ [r]) = Node (rn_loc r).
Proof. unfold ptr. by rewrite last_snoc. Qed.

Lemma has_level_snoc lv A r i : has_level lv (A ++ [r]) i ↔ (i < rn_h r)%nat.
Proof. unfold has_level. by rewrite last_snoc. Qed.

Lemma has_level_mono lv A i j : (j ≤ i)%nat → has_level lv A i → has_level lv A j.
Proof. unfold has_level. case_match; lia. Qed.

Lemma levels_bound zsl R A B i :
  zsl_rep zsl R → R = A ++ B → has_level (z_lv zsl) A i → (i < z_lv zsl)%nat.
Proof.
  intros HR -> Hl. unfold has_level in Hl. destruct (last A) as [r|] eqn:Hr; [|done].
  apply last_Some in Hr as [A' ->]. pose proof (rep_height _ _ HR) as Hh.
  rewrite !Forall_app, Forall_singleton in Hh. lia.
Qed.

Lemma rep_size zsl R : zsl_rep zsl R → (length R ≤ size (z_nodes zsl))%nat.
Proof.
  intros HR. rewrite <- (length_fmap rn_loc R), <- size_dom.
  rewrite <- (size_list_to_set (C := gset loc) (rn_loc <$> R)) by apply (rep_nodup _ _ HR).
  apply subseteq_size. intros l Hl. apply elem_of_list_to_set, list_elem_of_fmap in Hl as (r & -> & Hr).
  apply list_elem_of_split in Hr as (A & B & ->).
  destruct (proj1 (node_data_node _ _ _) (rep_data _ _ HR A r B eq_refl)) as (n & Hn & _). by eapply elem_of_dom_2.
Qed.

(** ** Searching *)

Section search.
Context (zsl : zskiplist) (R Lo Hi : list rnode) (score : double) (ele : sds).
Context (HR : zsl_rep zsl R) (Hsplit : R = Lo ++ Hi).
Context (HLo : Forall (λ r, pbefore (rn_key r) (score, ele) = true) Lo).
Context (HHi : Forall (λ r, pbefore (rn_key r) (score, ele) = false) Hi).

(** [A] is where the search leaves level [i]: nothing between [A] and the
    position searched for is higher than [i]. *)
Definition stop_at (i : nat) (A : list rnode) : Prop :=
  ∃ C, Lo = A ++ C ∧ Forall (λ r, (rn_h r ≤ i)%nat) C ∧ has_level (z_lv zsl) A i.

Lemma node_before_rep A r B :
  R = A ++ r :: B →
  ∃ n, z_nodes zsl !! rn_loc r = Some n ∧ node_before n score ele = pbefore (rn_key r) (score, ele).
Proof.
  intros H. destruct (proj1 (node_data_node _ _ _) (rep_data _ _ HR A r B H)) as (n & Hn & He & Hs & _).
  exists n. split; [done|]. unfold node_before, pbefore. simpl. by rewrite He, Hs.
Qed.

Lemma zsl_walk_spec fuel i A C :
  Lo = A ++ C → has_level (z_lv zsl) A i → (length C < fuel)%nat →
  ∃ A', stop_at i A' ∧
    zsl_walk fuel zsl score ele i (ptr A) (Z.of_nat (length A)) = Some (ptr A', Z.of_nat (length A')).
Proof.
  revert A C. induction fuel as [|fuel IH]; intros A C HA Hlv Hf; [lia|]. cbn [zsl_walk].
  rewrite (rep_levels _ _ HR A (C ++ Hi)) by (try done; by rewrite Hsplit, HA, app_assoc). simpl.
  destruct (lvl_cases i C) as [[Hshort _]|(C1 & r & C2 & -> & HC1 & Hr & _)].
  - assert (stop_at i A) as Hstop by (by exists C).
    rewrite lvl_short by done. simpl.
    destruct (lvl_cases i Hi) as [[_ ->]|(H1 & r & H2 & HHi' & _ & _ & ->)]; [by exists A|]. simpl.
    destruct (node_before_rep (Lo ++ H1) r H2) as (n & -> & Hb); [by rewrite Hsplit, HHi', <- app_assoc|].
    simpl. rewrite Hb. rewrite HHi', Forall_app, Forall_cons in HHi. destruct HHi as (_ & -> & _). by exists A.
  - rewrite <- app_assoc, lvl_short by done. simpl. rewrite decide_True by done. simpl.
    destruct (node_before_rep (A ++ C1) r (C2 ++ Hi)) as (n & -> & Hb);
      [by rewrite Hsplit, HA, <- !app_assoc|].
    simpl. rewrite Hb. rewrite HA, !Forall_app, Forall_cons in HLo. destruct HLo as (_ & _ & -> & _).
    destruct (IH (A ++ C1 ++ [r]) C2) as (A' & Hstop & Hw).
    + by rewrite HA, <- !app_assoc.
    + rewrite app_assoc. by apply has_level_snoc.
    + rewrite length_app in Hf. simpl in Hf. lia.
    + exists A'. split; [done|]. rewrite <- Hw. rewrite app_assoc, ptr_snoc. f_equal.
      rewrite !length_app. simpl. lia.
Qed.

Definition upd_of (As : list (list rnode)) : list (zptr * Z) := (λ A, (ptr A, Z.of_nat (length A))) <$> As.

Lemma length_upd_of As : length (upd_of As) = length As.
Proof. apply length_fmap. Qed.

Lemma head_upd_of As A : head As = Some A → head (upd_of As) = Some (ptr A, Z.of_nat (length A)).
Proof. destruct As; [done|]. by intros [= ->]. Qed.

Lemma zsl_search_spec n A acc :
  (∃ C, Lo = A ++ C) → (∀ i, (i < n)%nat → has_level (z_lv zsl) A i) →
  ∃ As, length As = n ∧ (∀ i A', As !! i = Some A' → stop_at i A') ∧
    zsl_search zsl score ele n (ptr A) (Z.of_nat (length A)) acc = Some (upd_of As ++ acc).
Proof.
  revert A acc. induction n as [|i IH]; intros A acc [C HA] Hlv; [by exists []|]. cbn [zsl_search].
  destruct (zsl_walk_spec (walk_fuel zsl) i A C) as (A' & Hstop & ->); [done|apply Hlv; lia| |].
  { pose proof (rep_size _ _ HR). unfold walk_fuel. rewrite Hsplit, HA, !length_app in *. lia. }
  simpl. destruct (IH A' ((ptr A', Z.of_nat (length A')) :: acc)) as (As & Hlen & HAs & ->).
  - destruct Hstop as (C' & ? & _). by exists C'.
  - intros j Hj. destruct Hstop as (_ & _ & _ & Hl). eapply has_level_mono; [|done]. lia.
  - exists (As ++ [A']). split_and!.
    + rewrite length_app. simpl. lia.
    + intros j B [HB|[Hj HB]]%lookup_app_Some; [by apply HAs|].
      apply list_lookup_singleton_Some in HB as [Hz ->]. by replace j with i by lia.
    + unfold upd_of. rewrite fmap_app, <- app_assoc. done.
Qed.

(** At level 0 the search stops right before the position. *)
Lemma stop_at_0 A : stop_at 0 A → A = Lo.
Proof.
  intros (C & -> & HC & _). pose proof (rep_height _ _ HR) as Hh.
  rewrite Hsplit, !Forall_app in Hh. destruct Hh as ((_ & Hh) & _).
  destruct C as [|r C]; [by rewrite app_nil_r|].
  apply Forall_cons in HC as [? _]. apply Forall_cons in Hh as [? _]. lia.
Qed.

Lemma search_spec :
  ∃ As, length As = z_lv zsl ∧ (∀ i A', As !! i = Some A' → stop_at i A') ∧ head As = Some Lo ∧
    zsl_search zsl score ele (z_lv zsl) Hdr 0 [] = Some (upd_of As).
Proof.
  destruct (zsl_search_spec (z_lv zsl) [] []) as (As & Hlen & HAs & Hsearch); [by exists Lo|done|].
  exists As. split_and!; [done..| |by rewrite app_nil_r in Hsearch].
  pose proof (rep_lv _ _ HR). destruct As as [|A As]; [simpl in *; lia|]. simpl. f_equal.
  apply stop_at_0. by apply (HAs 0%nat).
Qed.

End search.

(** ** Writing levels *)

(** Everything but the contents of levels. *)
Definition frame (zsl : zskiplist) :=
  (frames zsl, length (z_header zsl), z_tail zsl, z_length zsl, z_lv zsl).

Lemma put_level_spec zsl x i v :
  is_Some (get_level zsl x i) →
  ∃ zsl', put_level x i v zsl = Some zsl' ∧ frame zsl' = frame zsl ∧
    ∀ p j, get_level zsl' p j = if decide (p = x ∧ j = i) then Some v else get_level zsl p j.
Proof.
  intros [old Hold]. unfold get_level, put_level in *.
  destruct (levels_of zsl x) as [lv|] eqn:Hlv; [|done]. simpl in *.
  pose proof (lookup_lt_Some _ _ _ Hold) as Hi. rewrite decide_True by done.
  eexists; split; [done|]. split.
  - unfold frame, frames. destruct x as [|l]; simpl in *; [by simplify_eq; rewrite length_insert|].
    f_equal. f_equal. f_equal. f_equal. apply map_eq. intros l'. rewrite !lookup_fmap.
    destruct (decide (l = l')) as [<-|]; [rewrite lookup_alter_eq|by rewrite lookup_alter_ne].
    destruct (z_nodes zsl !! l) as [n|]; [|done]. simpl in *. simplify_eq.
    unfold node_frame. simpl. by rewrite length_insert.
  - intros p j. assert (levels_of (set_levels x (<[i:=v]> lv) zsl) p
      = if decide (p = x) then Some (<[i:=v]> lv) else levels_of zsl p) as ->.
    { destruct x as [|l], p as [|l']; simpl in *; try done.
      destruct (decide (l = l')) as [<-|Hne].
      - rewrite lookup_alter_eq, decide_True by done. by destruct (z_nodes zsl !! l).
      - rewrite lookup_alter_ne by done. rewrite decide_False by congruence. done. }
    destruct (decide (p = x)) as [->|Hne]; [|by rewrite decide_False by naive_solver]. simpl.
    destruct (decide (j = i)) as [->|Hj].
    + rewrite decide_True by done. by apply list_lookup_insert_eq.
    + rewrite decide_False by naive_solver. rewrite list_lookup_insert_ne by done. by rewrite Hlv.
Qed.

(** The three loops that go over the levels [i], [i+1], ... of a list of
    pointers each write level [i+k] of the [k]-th pointer. *)

Lemma zsl_link_spec x rank0 upd i zsl :
  (∀ k u r, upd !! k = Some (u, r) →
     u ≠ Node x ∧ is_Some (get_level zsl u (i + k)) ∧ is_Some (get_level zsl (Node x) (i + k))) →
  ∃ zsl', zsl_link x rank0 i upd zsl = Some zsl' ∧ frame zsl' = frame zsl ∧
    (∀ p j, (j < i ∨ i + length upd ≤ j)%nat → get_level zsl' p j = get_level zsl p j) ∧
    (∀ k u r lu, upd !! k = Some (u, r) → get_level zsl u (i + k) = Some lu → ∀ p,
       get_level zsl' p (i + k) =
         if decide (p = u) then Some (mkLevel (Some x) (rank0 - r + 1))
         else if decide (p = Node x) then Some (mkLevel (forward lu) (span lu - (rank0 - r)))
         else get_level zsl p (i + k)).
Proof.
  revert i zsl. induction upd as [|[u r] upd IH]; intros i zsl Hupd; [by exists zsl|].
  cbn [zsl_link]. destruct (Hupd 0%nat u r eq_refl) as (Hux & [lu Hlu] & Hx).
  rewrite Nat.add_0_r in *. rewrite Hlu. simpl.
  destruct (put_level_spec zsl (Node x) i (mkLevel (forward lu) (span lu - (rank0 - r))) Hx)
    as (zsl1 & -> & Hf1 & Hg1). simpl.
  destruct (put_level_spec zsl1 u i (mkLevel (Some x) (rank0 - r + 1)))
    as (zsl2 & -> & Hf2 & Hg2); [rewrite Hg1, decide_False by naive_solver; by exists lu|]. simpl.
  assert (∀ p j, j ≠ i → get_level zsl2 p j = get_level zsl p j) as Hother.
  { intros p j Hj. rewrite Hg2, decide_False, Hg1, decide_False by naive_solver. done. }
  destruct (IH (S i) zsl2) as (zsl' & -> & Hf & Hout & Hin).
  { intros k u' r' Hk. destruct (Hupd (S k) u' r' Hk) as (?&?&?).
    rewrite !Hother by lia. replace (S i + k)%nat with (i + S k)%nat by lia. done. }
  exists zsl'. split_and!; [done|congruence| |].
  - intros p j Hj. simpl in Hj. rewrite Hout by lia. apply Hother. lia.
  - intros [|k] u' r' lu' Hk Hlu' p.
    + rewrite Nat.add_0_r in *. simplify_eq/=. rewrite Hout by lia. rewrite Hg2.
      destruct (decide (p = u')) as [->|]; [by rewrite decide_True|]. rewrite decide_False by naive_solver.
      rewrite Hg1. destruct (decide (p = Node x)) as [->|]; [by rewrite decide_True|].
      by rewrite decide_False by naive_solver.
    + simpl in Hk. replace (i + S k)%nat with (S i + k)%nat in * by lia.
      rewrite (Hin k u' r' lu') by (try done; by rewrite Hother by lia).
      by rewrite Hother by lia.
Qed.

Lemma zsl_bump_spec upd i zsl :
  (∀ k u r, upd !! k = Some (u, r) → is_Some (get_level zsl u (i + k))) →
  ∃ zsl', zsl_bump i upd zsl = Some zsl' ∧ frame zsl' = frame zsl ∧
    (∀ p j, (j < i ∨ i + length upd ≤ j)%nat → get_level zsl' p j = get_level zsl p j) ∧
    (∀ k u r lu, upd !! k = Some (u, r) → get_level zsl u (i + k) = Some lu → ∀ p,
       get_level zsl' p (i + k) =
         if decide (p = u) then Some (bump 1 lu) else get_level zsl p (i + k)).
Proof.
  revert i zsl. induction upd as [|[u r] upd IH]; intros i zsl Hupd; [by exists zsl|].
  cbn [zsl_bump]. destruct (Hupd 0%nat u r eq_refl) as [lu Hlu]. rewrite Nat.add_0_r in *.
  rewrite Hlu. simpl.
  destruct (put_level_spec zsl u i (mkLevel (forward lu) (span lu + 1))) as (zsl1 & -> & Hf1 & Hg1);
    [by exists lu|]. simpl.
  assert (∀ p j, j ≠ i → get_level zsl1 p j = get_level zsl p j) as Hother.
  { intros p j Hj. by rewrite Hg1, decide_False by naive_solver. }
  destruct (IH (S i) zsl1) as (zsl' & -> & Hf & Hout & Hin).
  { intros k u' r' Hk. rewrite Hother by lia. replace (S i + k)%nat with (i + S k)%nat by lia.
    by eapply Hupd. }
  exists zsl'. split_and!; [done|congruence| |].
  - intros p j Hj. simpl in Hj. rewrite Hout by lia. apply Hother. lia.
  - intros [|k] u' r' lu' Hk Hlu' p.
    + rewrite Nat.add_0_r in *. simplify_eq/=. rewrite Hout by lia. rewrite Hg1.
      destruct (decide (p = u')) as [->|]; [by rewrite decide_True|by rewrite decide_False by naive_solver].
    + simpl in Hk. replace (i + S k)%nat with (S i + k)%nat in * by lia.
      rewrite (Hin k u' r' lu') by (try done; by rewrite Hother by lia).
      by rewrite Hother by lia.
Qed.

Lemma zsl_raise_spec i n zsl :
  (∀ k, (k < n)%nat → is_Some (get_level zsl Hdr (i + k))) →
  ∃ zsl', zsl_raise i n zsl = Some zsl' ∧ frame zsl' = frame zsl ∧
    (∀ p j, p ≠ Hdr ∨ (j < i ∨ i + n ≤ j)%nat → get_level zsl' p j = get_level zsl p j) ∧
    (∀ j lu, (i ≤ j < i + n)%nat → get_level zsl Hdr j = Some lu →
       get_level zsl' Hdr j = Some (mkLevel (forward lu) (z_length zsl))).
Proof.
  revert i zsl. induction n as [|n IH]; intros i zsl Hn; [exists zsl; split_and!; auto with lia|].
  cbn [zsl_raise]. destruct (Hn 0%nat) as [lu Hlu]; [lia|]. rewrite Nat.add_0_r in Hlu. rewrite Hlu. simpl.
  destruct (put_level_spec zsl Hdr i (mkLevel (forward lu) (z_length zsl))) as (zsl1 & -> & Hf1 & Hg1);
    [by exists lu|]. simpl.
  destruct (IH (S i) zsl1) as (zsl' & -> & Hf & Hout & Hin).
  { intros k Hk. rewrite Hg1, decide_False by lia. replace (S i + k)%nat with (i + S k)%nat by lia.
    apply Hn. lia. }
  assert (z_length zsl1 = z_length zsl) as Hlen by (by simplify_eq/=).
  exists zsl'. split_and!; [done|congruence| |].
  - intros p j Hj. rewrite Hout by (destruct Hj; [by left|right; lia]).
    rewrite Hg1, decide_False; [done|]. intros [-> ->]. naive_solver lia.
  - intros j lu' Hj Hlu'. destruct (decide (j = i)) as [->|Hne].
    + rewrite Hout by (right; lia). rewrite Hg1, decide_True by done. by simplify_eq.
    + rewrite <- Hlen. apply Hin; [lia|]. by rewrite Hg1, decide_False by naive_solver.
Qed.

(** ** Pointers and positions *)

Lemma ptr_inj R A B A' B' :
  NoDup (rn_loc <$> R) → R = A ++ B → R = A' ++ B' → ptr A = ptr A' → A = A'.
Proof.
  intros Hnd H1 H2. unfold ptr.
  destruct (last A) as [r|] eqn:Hr, (last A') as [r'|] eqn:Hr'; try done.
  - apply last_Some in Hr as [A1 ->], Hr' as [A1' ->]. intros [= Heq].
    assert (length A1 = length A1') as Hlen.
    { rewrite NoDup_alt in Hnd. apply (Hnd _ _ (rn_loc r)); rewrite list_lookup_fmap_Some.
      - exists r. split; [done|]. rewrite H1, <- app_assoc. by apply list_lookup_middle.
      - exists r'. split; [done|]. rewrite H2, <- app_assoc. by apply list_lookup_middle. }
    rewrite H1 in H2. apply app_inj_1 in H2 as [? _]; [done|]. rewrite !length_app. simpl. lia.
  - apply last_None in Hr as ->, Hr' as ->. done.
Qed.

Lemma ptr_in R A B l : R = A ++ B → ptr A = Node l → l ∈ rn_loc <$> R.
Proof.
  intros -> H. unfold ptr in H. destruct (last A) as [r|] eqn:Hr; [|done]. injection H as <-.
  apply last_Some in Hr as [A1 ->]. apply list_elem_of_fmap. exists r. set_solver.
Qed.

(** The place where a level is left is unique. *)
Lemma stop_unique lv i A C A' C' :
  A ++ C = A' ++ C' → Forall (λ r, (rn_h r ≤ i)%nat) C → Forall (λ r, (rn_h r ≤ i)%nat) C' →
  has_level lv A i → has_level lv A' i → A = A'.
Proof.
  assert (∀ A C A' C', A ++ C = A' ++ C' → Forall (λ r, (rn_h r ≤ i)%nat) C →
    has_level lv A' i → (length A' ≤ length A)%nat) as Hle.
  { clear. intros A C A' C' H HC Hlv. destruct (decide (length A' ≤ length A)%nat) as [|Hlt]; [done|].
    exfalso. apply app_eq_inv in H as [(D & -> & ->)|(D & -> & ->)]; [rewrite length_app in Hlt; lia|].
    unfold has_level in Hlv. destruct D as [|d D _] using rev_ind; [rewrite app_nil_r in Hlt; lia|].
    rewrite app_assoc, last_snoc in Hlv. rewrite !Forall_app, Forall_singleton in HC. lia. }
  intros H HC HC' Hlv Hlv'. eapply (app_inj_1 _ _ C C'); [|done].
  apply Nat.le_antisymm; [by eapply (Hle A' C'); [symmetry|..]|by eapply Hle].
Qed.

(** ** Backward pointers *)

Definition with_backward (b : option loc) (f : sds * double * option loc * nat) :=
  (f.1.1.1, f.1.1.2, b, f.2).

Lemma frames_set_backward l b zsl :
  frames (set_backward l b zsl) = alter (with_backward b) l (frames zsl).
Proof.
  unfold frames, set_backward. simpl. apply map_eq. intros l'. rewrite lookup_fmap.
  destruct (decide (l = l')) as [<-|]; [rewrite !lookup_alter_eq|rewrite !lookup_alter_ne by done];
    rewrite lookup_fmap; by destruct (z_nodes zsl !! _).
Qed.

Lemma get_level_set_backward l b zsl p i : get_level (set_backward l b zsl) p i = get_level zsl p i.
Proof.
  unfold get_level. destruct p as [|l']; [done|]. simpl.
  destruct (decide (l = l')) as [<-|]; [rewrite lookup_alter_eq|by rewrite lookup_alter_ne].
  by destruct (z_nodes zsl !! l).
Qed.

(** ** Insertion *)

Lemma get_level_set_nodes_ne zsl x n p j :
  p ≠ Node x → get_level (set_nodes (<[x := n]> (z_nodes zsl)) zsl) p j = get_level zsl p j.
Proof.
  intros Hp. unfold get_level. destruct p as [|l]; [done|]. simpl.
  by rewrite lookup_insert_ne by congruence.
Qed.

Lemma get_level_set_nodes_eq zsl x level score ele j :
  (j < level)%nat →
  get_level (set_nodes (<[x := zslCreateNode level score ele]> (z_nodes zsl)) zsl) (Node x) j
  = Some (mkLevel None 0).
Proof. intros Hj. unfold get_level. simpl. rewrite lookup_insert_eq. simpl. by apply lookup_replicate_2. Qed.

Section insert.
Context (zsl : zskiplist) (Lo Hi : list rnode) (As : list (list rnode)).
Context (x : loc) (level : nat) (score : double) (ele : sds).
Context (HR : zsl_rep zsl (Lo ++ Hi)).
Context (HAslen : length As = z_lv zsl) (HAs : ∀ i A, As !! i = Some A → stop_at zsl Lo i A).
Context (Hx : x ∉ dom (z_nodes zsl)) (Hlevel : (1 ≤ level ≤ z_lv zsl)%nat).

Let new := mkRnode x level score ele.
Let zsl2 := set_nodes (<[x := zslCreateNode level score ele]> (z_nodes zsl)) zsl.

Lemma fresh_not_in l : l ∈ rn_loc <$> (Lo ++ Hi) → l ≠ x.
Proof.
  intros (r & -> & (A & B & HAB)%list_elem_of_split)%list_elem_of_fmap Heq. apply Hx. rewrite <- Heq.
  destruct (proj1 (node_data_node _ _ _) (rep_data _ _ HR A r B HAB)) as (n & Hn & _). by eapply elem_of_dom_2.
Qed.

Lemma ptr_not_x A B : Lo ++ Hi = A ++ B → ptr A ≠ Node x.
Proof. intros HAB Hp. eapply ptr_in in Hp; [|done]. by apply fresh_not_in in Hp. Qed.

(** Pointers from the new node on are not on the search path. *)
Lemma insert_ptr_after A B A' C' :
  Hi = A ++ B → Lo = A' ++ C' → ptr (Lo ++ new :: A) = ptr A' → False.
Proof.
  intros HAB HLo Hp. destruct A as [|c A _] using rev_ind.
  - rewrite ptr_snoc in Hp. symmetry in Hp. revert Hp. apply (ptr_not_x A' (C' ++ Hi)).
    by rewrite HLo, <- app_assoc.
  - rewrite app_comm_cons, app_assoc, ptr_snoc, <- (ptr_snoc (Lo ++ A)) in Hp.
    apply (ptr_inj (Lo ++ Hi) _ B _ (C' ++ Hi)) in Hp;
      [|apply (rep_nodup _ _ HR)|by rewrite HAB, <- !app_assoc|by rewrite HLo, <- app_assoc].
    apply (f_equal length) in Hp. rewrite HLo, !length_app in Hp. simpl in Hp. lia.
Qed.

(** The levels of the pointers on the search path, before insertion. *)
Lemma path_level i A :
  As !! i = Some A → ∃ C, Lo = A ++ C ∧ Forall (λ r, (rn_h r ≤ i)%nat) C ∧ has_level (z_lv zsl) A i
    ∧ ptr A ≠ Node x ∧ get_level zsl2 (ptr A) i = Some (lvl i (C ++ Hi)).
Proof.
  intros HA. destruct (HAs i A HA) as (C & HLo & HC & Hlv). exists C.
  assert (Lo ++ Hi = A ++ C ++ Hi) as Heq by (by rewrite HLo, <- app_assoc).
  assert (ptr A ≠ Node x) as Hne by (by eapply ptr_not_x).
  split_and!; [done..|]. unfold zsl2. rewrite get_level_set_nodes_ne by done.
  by apply (rep_levels _ _ HR).
Qed.

Lemma link_bump :
  ∃ zsl3 zsl4, zsl_link x (Z.of_nat (length Lo)) 0 (take level (upd_of As)) zsl2 = Some zsl3 ∧
    zsl_bump level (drop level (upd_of As)) zsl3 = Some zsl4 ∧ frame zsl4 = frame zsl2 ∧
    (∀ p j, (z_lv zsl ≤ j)%nat → get_level zsl4 p j = get_level zsl2 p j) ∧
    (∀ j A C p, As !! j = Some A → Lo = A ++ C →
       get_level zsl4 p j =
         if decide (p = ptr A) then Some (lvl j (C ++ new :: Hi))
         else if decide (p = Node x ∧ (j < level)%nat) then Some (lvl j Hi)
         else get_level zsl2 p j).
Proof.
  destruct (zsl_link_spec x (Z.of_nat (length Lo)) (take level (upd_of As)) 0 zsl2)
    as (zsl3 & Hlink & Hf3 & Hout3 & Hin3).
  { intros k u r [Hk Hlt]%lookup_take_Some. unfold upd_of in Hk.
    apply list_lookup_fmap_Some in Hk as (A & [= -> ->] & HA).
    destruct (path_level k A HA) as (C & _ & _ & _ & Hne & Hg). split_and!; [done|by eexists|].
    unfold zsl2. simpl. rewrite get_level_set_nodes_eq by lia. by eexists. }
  assert (∀ p j, (level ≤ j)%nat → get_level zsl3 p j = get_level zsl2 p j) as H3.
  { intros p j Hj. apply Hout3. right. rewrite length_take. lia. }
  destruct (zsl_bump_spec (drop level (upd_of As)) level zsl3) as (zsl4 & Hbump & Hf4 & Hout4 & Hin4).
  { intros k u r Hk. rewrite lookup_drop in Hk. apply list_lookup_fmap_Some in Hk as (A & [= -> ->] & HA).
    destruct (path_level _ A HA) as (C & _ & _ & _ & _ & Hg). rewrite H3 by lia. by eexists. }
  exists zsl3, zsl4. split_and!; [done|done|congruence| |].
  - intros p j Hj. rewrite Hout4, H3 by (rewrite ?length_drop, ?length_upd_of; lia). done.
  - intros j A C p HA HLo. destruct (path_level j A HA) as (C' & HLo' & HC & Hlv & Hne & Hg).
    assert (C' = C) as -> by (apply (app_inv_head A); by rewrite <- HLo, <- HLo').
    destruct (decide (j < level)%nat) as [Hj|Hj].
    + rewrite Hout4 by lia.
      rewrite (Hin3 j (ptr A) (Z.of_nat (length A)) (lvl j (C ++ Hi)));
        [|by rewrite lookup_take_lt by lia; unfold upd_of; rewrite list_lookup_fmap, HA|done].
      rewrite HLo, length_app, !lvl_short, (lvl_tall j new) by done. unfold bump; simpl.
      destruct (decide (p = ptr A)) as [->|]; [do 2 f_equal; lia|].
      destruct (decide (p = Node x)) as [->|Hpx]; [|by rewrite decide_False by tauto].
      rewrite decide_True by done. destruct (lvl j Hi). simpl. do 2 f_equal. lia.
    + destruct (le_lt_dec (z_lv zsl) j) as [?|?].
      { apply lookup_lt_Some in HA. lia. }
      assert (j = level + (j - level))%nat as Hjk by lia. rewrite Hjk in HA, HC, Hg |- *. clear Hjk.
      rewrite (Hin4 _ (ptr A) (Z.of_nat (length A)) (lvl (level + (j - level)) (C ++ Hi)));
        [|by rewrite lookup_drop; unfold upd_of; rewrite list_lookup_fmap, HA|by rewrite H3 by lia].
      rewrite H3, !lvl_short, (lvl_skip _ new) by (done || simpl; lia). simpl.
      destruct (decide (p = ptr A)) as [->|]; [|by rewrite decide_False by (intros [_ ?]; lia)]. unfold bump. simpl. do 2 f_equal. lia.
Qed.

(** The levels after insertion are those of the longer list. *)
Lemma insert_levels zsl4 :
  z_lv zsl4 = z_lv zsl →
  (∀ j A C p, As !! j = Some A → Lo = A ++ C →
     get_level zsl4 p j =
       if decide (p = ptr A) then Some (lvl j (C ++ new :: Hi))
       else if decide (p = Node x ∧ (j < level)%nat) then Some (lvl j Hi)
       else get_level zsl2 p j) →
  levels_ok zsl4 (Lo ++ new :: Hi).
Proof.
  intros Hlv4 H4 A B i HAB Hlv. rewrite Hlv4 in Hlv.
  assert (i < z_lv zsl)%nat as Hi'.
  { apply split_at in HAB as [(C & HC & ->)|(C & -> & HC)].
    - by eapply (levels_bound zsl (Lo ++ Hi) A (C ++ Hi)); [|rewrite HC, <- app_assoc|].
    - destruct C as [|c C _] using rev_ind; [apply has_level_snoc in Hlv; simpl in Hlv; lia|].
      eapply (levels_bound zsl (Lo ++ Hi) (Lo ++ C ++ [c]) B); [done|by rewrite HC, <- !app_assoc|].
      rewrite app_comm_cons, app_assoc in Hlv. rewrite app_assoc.
      apply has_level_snoc in Hlv. by apply has_level_snoc. }
  destruct (lookup_lt_is_Some_2 As i) as [Ai HAi]; [lia|].
  destruct (path_level i Ai HAi) as (Ci & HLo & HCi & Hlvi & Hne & _).
  rewrite (H4 i Ai Ci) by done. apply split_at in HAB as [(C & HC & ->)|(C & -> & HC)].
  - destruct (decide (ptr A = ptr Ai)) as [Hp|Hp].
    { assert (A = Ai) as <-.
      { eapply (ptr_inj (Lo ++ Hi) A (C ++ Hi) Ai (Ci ++ Hi)); [apply (rep_nodup _ _ HR)|..|done].
        - by rewrite HC, <- app_assoc. - by rewrite HLo, <- app_assoc. }
      rewrite HC in HLo. by apply app_inv_head in HLo as ->. }
    assert (ptr A ≠ Node x) by (apply (ptr_not_x A (C ++ Hi)); by rewrite HC, <- app_assoc).
    rewrite decide_False by tauto. unfold zsl2. rewrite get_level_set_nodes_ne by done.
    rewrite (rep_levels _ _ HR A (C ++ Hi)) by (try done; by rewrite HC, <- app_assoc).
    f_equal. apply lvl_hidden. intros Hshort. apply Hp. f_equal.
    apply (stop_unique (z_lv zsl) i A C Ai Ci); [by rewrite <- HC, <- HLo|done..].
  - rewrite decide_False by (intros Hp; eapply insert_ptr_after; eauto).
    destruct C as [|c C _] using rev_ind.
    + rewrite ptr_snoc. apply has_level_snoc in Hlv. rewrite decide_True by done. by rewrite HC.
    + assert (ptr (Lo ++ new :: C ++ [c]) = ptr (Lo ++ C ++ [c])) as Hp
        by (by rewrite app_comm_cons, !app_assoc, !ptr_snoc).
      assert (Lo ++ Hi = (Lo ++ C ++ [c]) ++ B) as HAB by (by rewrite HC, <- !app_assoc).
      assert (ptr (Lo ++ C ++ [c]) ≠ Node x) by (by eapply ptr_not_x).
      rewrite Hp, decide_False by tauto. unfold zsl2. rewrite get_level_set_nodes_ne by done.
      apply (rep_levels _ _ HR); [done|]. rewrite app_comm_cons, app_assoc in Hlv. rewrite app_assoc.
      apply has_level_snoc in Hlv. by apply has_level_snoc.
Qed.

(** What is left of [zslInsert] once the levels are linked. *)
Definition insert_finish (zsl4 : zskiplist) : zskiplist :=
  let z5 := set_backward x (rn_loc <$> last Lo) zsl4 in
  let z6 := match head Hi with
            | Some y => set_backward (rn_loc y) (Some x) z5
            | None => set_tail (Some x) z5
            end in
  set_length (z_length z6 + 1) z6.

Lemma frames_insert_finish zsl4 :
  frames zsl4 = frames zsl2 →
  ∀ A r B, Lo ++ new :: Hi = A ++ r :: B →
    frames (insert_finish zsl4) !! rn_loc r = Some (rn_ele r, rn_score r, rn_loc <$> last A, rn_h r).
Proof.
  intros Hf A r B HAB.
  assert (frames zsl2 = <[x := (ele, score, None, level)]> (frames zsl)) as Hf2.
  { unfold zsl2, frames. simpl. rewrite fmap_insert. unfold node_frame. simpl. by rewrite length_replicate. }
  assert (NoDup (rn_loc <$> Lo ++ Hi)) as Hnd by apply (rep_nodup _ _ HR).
  assert (∀ l, frames (insert_finish zsl4) !! l =
    (if decide (Some l = rn_loc <$> head Hi) then with_backward (Some x) else id) <$>
    (if decide (l = x) then Some (ele, score, rn_loc <$> last Lo, level) else frames zsl !! l)) as ->.
  { intros l. assert (frames (set_backward x (rn_loc <$> last Lo) zsl4) !! l =
      if decide (l = x) then Some (ele, score, rn_loc <$> last Lo, level) else frames zsl !! l) as H5.
    { rewrite frames_set_backward, Hf, Hf2. case_decide; subst.
      - by rewrite lookup_alter_eq, lookup_insert_eq.
      - by rewrite lookup_alter_ne, lookup_insert_ne by done. }
    rewrite <- H5. unfold insert_finish. destruct (head Hi) as [y|].
    - transitivity (frames (set_backward (rn_loc y) (Some x) (set_backward x (rn_loc <$> last Lo) zsl4)) !! l);
        [done|].
      rewrite (frames_set_backward (rn_loc y)). simpl. destruct (decide (l = rn_loc y)) as [->|Hne].
      + by rewrite lookup_alter_eq, decide_True.
      + by rewrite lookup_alter_ne, decide_False, option_fmap_id by congruence.
    - rewrite decide_False by done. by rewrite option_fmap_id. }
  apply split_middle in HAB as [(C & HLo & ->)|[(-> & -> & ->)|(C & -> & HHi)]].
  - assert (Lo ++ Hi = A ++ r :: C ++ Hi) as Hold by (by rewrite HLo, <- app_assoc).
    assert (rn_loc r ≠ x) by (apply fresh_not_in, list_elem_of_fmap; exists r; set_solver).
    rewrite decide_False.
    + rewrite decide_False by done. by rewrite option_fmap_id, (rep_data _ _ HR A r (C ++ Hi) Hold).
    + destruct (head Hi) as [y|] eqn:Hy; [|done]. intros [= Heq]. apply head_Some_elem_of in Hy.
      rewrite Hold, fmap_app in Hnd. apply NoDup_app in Hnd as (_ & _ & Hnd).
      apply NoDup_cons in Hnd as [Hnd _]. rewrite Heq in Hnd. apply Hnd, list_elem_of_fmap.
      exists y. split; [done|]. apply elem_of_app. by right.
  - simpl. rewrite decide_False.
    + rewrite decide_True by done. done.
    + destruct (head Hi) as [y|] eqn:Hy; [|done]. intros [= Heq]. apply head_Some_elem_of in Hy.
      apply (fresh_not_in (rn_loc y)); [|done]. apply list_elem_of_fmap.
      exists y. split; [done|]. apply elem_of_app. by right.
  - assert (Lo ++ Hi = (Lo ++ C) ++ r :: B) as Hold by (by rewrite HHi, <- app_assoc).
    assert (rn_loc r ≠ x) by (apply fresh_not_in, list_elem_of_fmap; exists r; set_solver).
    rewrite (decide_False (P := rn_loc r = x)) by done.
    rewrite (rep_data _ _ HR _ _ _ Hold). destruct C as [|c C].
    + rewrite HHi. simpl. rewrite decide_True by done. simpl. by rewrite last_snoc.
    + rewrite HHi. simpl. rewrite decide_False.
      * simpl. by rewrite !last_app_cons, last_cons_cons.
      * intros [= Heq]. rewrite HHi, fmap_app in Hnd. apply NoDup_app in Hnd as (_ & _ & Hnd).
        simpl in Hnd. apply NoDup_cons in Hnd as [Hnd _]. rewrite fmap_app in Hnd. set_solver.
Qed.

Lemma insert_rep zsl4 :
  frame zsl4 = frame zsl2 → levels_ok zsl4 (Lo ++ new :: Hi) →
  (∀ p j, (z_lv zsl ≤ j)%nat → get_level zsl4 p j = get_level zsl2 p j) →
  zsl_rep (insert_finish zsl4) (Lo ++ new :: Hi).
Proof.
  intros Hf Hlv Hspare. unfold frame in Hf. injection Hf as Hfr Hhd Htl Hlen Hl.
  assert (∀ p i, get_level (insert_finish zsl4) p i = get_level zsl4 p i) as Hget.
  { intros p i. unfold insert_finish. destruct (head Hi).
    - change (get_level (set_length _ ?z) p i) with (get_level z p i). by rewrite !get_level_set_backward.
    - change (get_level (set_length _ (set_tail _ ?z)) p i) with (get_level z p i).
      by rewrite !get_level_set_backward. }
  assert (z_lv (insert_finish zsl4) = z_lv zsl) as Hlvz by (unfold insert_finish; by destruct (head Hi)).
  split.
  - intros A r B HAB. by eapply frames_insert_finish.
  - intros A B i HAB Hi'. rewrite Hget. apply Hlv; [done|]. by rewrite Hlvz, <- Hl in Hi'.
  - intros i Hi'. rewrite Hlvz in Hi'. destruct (rep_spare _ _ HR i) as [s Hs]; [lia|].
    exists s. rewrite Hget, Hspare by lia. unfold zsl2. by rewrite get_level_set_nodes_ne.
  - rewrite fmap_app, fmap_cons. simpl. rewrite <- Permutation_middle. apply NoDup_cons.
    split; [|rewrite <- fmap_app; apply (rep_nodup _ _ HR)].
    rewrite <- fmap_app. intros Hin. by apply fresh_not_in in Hin.
  - unfold insert_finish. pose proof (rep_header _ _ HR). destruct (head Hi); simpl; congruence.
  - rewrite Hlvz. apply (rep_lv _ _ HR).
  - rewrite Hlvz. pose proof (rep_height _ _ HR) as Hh. apply Forall_app in Hh as [??].
    apply Forall_app; split; [done|]. by apply Forall_cons.
  - pose proof (rep_tail _ _ HR) as Ht. unfold insert_finish. destruct Hi as [|y Hi']; simpl.
    + by rewrite last_snoc.
    + rewrite Htl. unfold zsl2. simpl. rewrite Ht. by rewrite !last_app_cons, last_cons_cons.
  - pose proof (rep_length _ _ HR) as Ht. rewrite length_app in *. unfold insert_finish.
    destruct Hi; simpl in *; rewrite Hlen; unfold zsl2; simpl; lia.
Qed.

End insert.


(** Raising the level of the list. *)
Lemma rep_raise zsl R level :
  zsl_rep zsl R → (z_lv zsl < level ≤ ZSKIPLIST_MAXLEVEL)%nat →
  ∃ zsl', zsl_raise (z_lv zsl) (level - z_lv zsl) zsl = Some zsl' ∧ frame zsl' = frame zsl ∧
    zsl_rep (set_lv level zsl') R.
Proof.
  intros HR Hlv.
  destruct (zsl_raise_spec (z_lv zsl) (level - z_lv zsl) zsl) as (zsl' & Hr & Hf & Hout & Hin).
  { intros k Hk. destruct (rep_spare _ _ HR (z_lv zsl + k)%nat) as [s ->]; [lia|by eexists]. }
  exists zsl'. split_and!; [done..|]. unfold frame in Hf. injection Hf as Hfr Hhd Htl Hlen Hl.
  split; try apply HR.
  - intros A r B HAB. unfold node_data. unfold frames in *. simpl. rewrite Hfr. by apply (rep_data _ _ HR _ _ B).
  - intros A B i HAB Hi. change (get_level (set_lv level zsl') (ptr A) i) with (get_level zsl' (ptr A) i).
    simpl in Hi. destruct A as [|c A _] using rev_ind.
    + simpl in *. subst B. unfold has_level in Hi. simpl in Hi.
      change (ptr []) with Hdr. destruct (decide (i < z_lv zsl)%nat) as [Hlt|Hge].
      * rewrite Hout by (right; lia). by apply (rep_levels _ _ HR [] R i).
      * destruct (rep_spare _ _ HR i) as [s Hs]; [lia|]. rewrite (Hin i _ ltac:(lia) Hs). simpl.
        rewrite <- (app_nil_r R), lvl_short by
          (eapply Forall_impl; [apply (rep_height _ _ HR)|]; simpl; lia). unfold bump. simpl.
        by rewrite (rep_length _ _ HR).
    + rewrite Hout by (left; by rewrite ptr_snoc). apply (rep_levels _ _ HR); [done|].
      by apply has_level_snoc; apply has_level_snoc in Hi.
  - intros i Hi. simpl in Hi. destruct (rep_spare _ _ HR i) as [s Hs]; [lia|]. exists s.
    change (get_level zsl' Hdr i = Some (mkLevel None s)). rewrite Hout by (right; lia). done.
  - simpl. rewrite Hhd. apply HR.
  - simpl. lia.
  - eapply Forall_impl; [apply (rep_height _ _ HR)|]. simpl. lia.
  - simpl. rewrite Htl. apply HR.
  - simpl. rewrite Hlen. apply HR.
Qed.

Lemma zslRandomLevel_bound rnd level rnd' :
  zslRandomLevel rnd = (level, rnd') → (1 ≤ level ≤ ZSKIPLIST_MAXLEVEL)%nat.
Proof.
  unfold zslRandomLevel. destruct (random_run rnd) as [n rest]. unfold ZSKIPLIST_MAXLEVEL.
  case_decide; intros [= <- _]; lia.
Qed.

Lemma zslInsert_spec zsl R Lo Hi score ele rnd :
  zsl_rep zsl R → R = Lo ++ Hi → isnan score = false →
  Forall (λ r, pbefore (rn_key r) (score, ele) = true) Lo →
  Forall (λ r, pbefore (rn_key r) (score, ele) = false) Hi →
  ∃ zsl' x level rnd', zslInsert zsl score ele rnd = Some (zsl', x, rnd') ∧
    x ∉ dom (z_nodes zsl) ∧ zsl_rep zsl' (Lo ++ mkRnode x level score ele :: Hi).
Proof.
  intros HR -> Hnan HLo HHi. unfold zslInsert. rewrite Hnan.
  destruct (search_spec zsl _ Lo Hi score ele HR eq_refl HLo HHi) as (As & HAslen & HAs & Hhead & ->). simpl.
  destruct (zslRandomLevel rnd) as [level rnd'] eqn:Hrl.
  apply zslRandomLevel_bound in Hrl as Hb.
  assert (∃ zsl1 As1, (if decide (z_lv zsl < level)%nat then
      zsl' ← zsl_raise (z_lv zsl) (level - z_lv zsl) zsl;
      Some (set_lv level zsl', upd_of As ++ replicate (level - z_lv zsl) (Hdr, 0))
    else Some (zsl, upd_of As)) = Some (zsl1, upd_of As1) ∧ zsl_rep zsl1 (Lo ++ Hi) ∧
    dom (z_nodes zsl1) = dom (z_nodes zsl) ∧ (1 ≤ level ≤ z_lv zsl1)%nat ∧
    length As1 = z_lv zsl1 ∧ head As1 = Some Lo ∧ (∀ i A, As1 !! i = Some A → stop_at zsl1 Lo i A))
    as (zsl1 & As1 & -> & HR1 & Hdom & Hlevel & HAslen1 & Hhead1 & HAs1).
  { case_decide as Hd; [|exists zsl, As; split_and!; auto; lia].
    destruct (rep_raise zsl _ level HR ltac:(lia)) as (zsl' & -> & Hf & HR'). simpl.
    exists (set_lv level zsl'), (As ++ replicate (level - z_lv zsl) []). split_and!; try done; try lia.
    - unfold upd_of. by rewrite fmap_app, fmap_replicate.
    - simpl. unfold frame in Hf. injection Hf as Hf _ _ _ _. unfold frames in Hf.
      by rewrite <- (dom_fmap_L node_frame), Hf, dom_fmap_L.
    - rewrite length_app, length_replicate. simpl. lia.
    - by destruct As.
    - intros i A [HA|[Hge HA]]%lookup_app_Some.
      + destruct (HAs i A HA) as (C & ? & ? & Hl). exists C. split_and!; [done..|].
        apply lookup_lt_Some in HA. revert Hl. unfold has_level. case_match; simpl; lia.
      + apply lookup_replicate in HA as [-> ?]. exists Lo. split_and!; [done| |unfold has_level; simpl; lia].
        pose proof (rep_height _ _ HR) as Hh. apply Forall_app in Hh as [Hh _].
        eapply Forall_impl; [done|]. simpl. lia. }
  simpl. rewrite (head_upd_of _ _ Hhead1). simpl.
  set (x := fresh (dom (z_nodes zsl1))).
  assert (x ∉ dom (z_nodes zsl1)) as Hx by apply is_fresh.
  destruct (link_bump zsl1 Lo Hi As1 x level score ele HR1 HAslen1 HAs1 Hx Hlevel)
    as (zsl3 & zsl4 & -> & Hbump & Hf4 & Hspare & H4). simpl. rewrite Hbump. simpl.
  assert (levels_ok zsl4 (Lo ++ mkRnode x level score ele :: Hi)) as Hlv4.
  { eapply insert_levels; try done. unfold frame in Hf4. by injection Hf4. }
  rewrite get_level_set_backward.
  pose proof (Hlv4 (Lo ++ [mkRnode x level score ele]) Hi 0%nat) as H0.
  rewrite ptr_snoc in H0. simpl in H0. rewrite H0; [|by rewrite <- app_assoc|apply has_level_snoc; simpl; lia]. simpl.
  eexists _, x, level, rnd'. split_and!; [done|by rewrite <- Hdom|].
  assert (zsl_rep (insert_finish Lo Hi x zsl4) (Lo ++ mkRnode x level score ele :: Hi)) as Hfin
    by (by eapply insert_rep).
  assert (forward (lvl 0 Hi) = rn_loc <$> head Hi) as ->.
  { destruct Hi as [|y Hi']; [done|]. rewrite lvl_tall; [done|].
    pose proof (rep_height _ _ HR1) as Hh. apply Forall_app in Hh as [_ Hh]. apply Forall_cons in Hh as [? _]. lia. }
  unfold insert_finish in Hfin. replace (match ptr Lo with Hdr => None | Node l => Some l end) with (rn_loc <$> last Lo)
    by (unfold ptr; by destruct (last Lo)).
  destruct (head Hi); done.
Qed.

(** ** Deletion *)

(** What [zslDeleteNode] writes to level [j] of a pointer of the path. *)
Definition unlink_level (zsl : zskiplist) (x : loc) (j : nat) (lu : zskiplistLevel) : option zskiplistLevel :=
  if decide (forward lu = Some x)
  then (λ lx, mkLevel (forward lx) (span lu + (span lx - 1))) <$> get_level zsl (Node x) j
  else Some (mkLevel (forward lu) (span lu - 1)).

Lemma zsl_unlink_spec x upd i zsl :
  (∀ k u, upd !! k = Some u → u ≠ Node x ∧
     ∃ lu, get_level zsl u (i + k) = Some lu ∧ is_Some (unlink_level zsl x (i + k) lu)) →
  ∃ zsl', zsl_unlink x i upd zsl = Some zsl' ∧ frame zsl' = frame zsl ∧
    (∀ p j, (j < i ∨ i + length upd ≤ j)%nat → get_level zsl' p j = get_level zsl p j) ∧
    (∀ k u lu, upd !! k = Some u → get_level zsl u (i + k) = Some lu → ∀ p,
       get_level zsl' p (i + k) =
         if decide (p = u) then unlink_level zsl x (i + k) lu else get_level zsl p (i + k)).
Proof.
  revert i zsl. induction upd as [|u upd IH]; intros i zsl Hupd; [by exists zsl|].
  cbn [zsl_unlink]. destruct (Hupd 0%nat u eq_refl) as (Hux & lu & Hlu & [v Hv]).
  rewrite Nat.add_0_r in *. rewrite Hlu. simpl.
  destruct (put_level_spec zsl u i v) as (zsl1 & Hput & Hf1 & Hg1); [by exists lu|].
  assert ((if decide (forward lu = Some x) then
      lx ← get_level zsl (Node x) i; put_level u i (mkLevel (forward lx) (span lu + (span lx - 1))) zsl
    else put_level u i (mkLevel (forward lu) (span lu - 1)) zsl) = Some zsl1) as ->.
  { unfold unlink_level in Hv. case_decide; [|by simplify_eq].
    destruct (get_level zsl (Node x) i); by simplify_eq/=. }
  simpl. assert (∀ p j, j ≠ i → get_level zsl1 p j = get_level zsl p j) as Hother.
  { intros p j Hj. by rewrite Hg1, decide_False by tauto. }
  assert (∀ j lu, j ≠ i → unlink_level zsl1 x j lu = unlink_level zsl x j lu) as Hul.
  { intros j lu' Hj. unfold unlink_level. by rewrite Hother. }
  destruct (IH (S i) zsl1) as (zsl' & -> & Hf & Hout & Hin).
  { intros k u' Hk. replace (S i + k)%nat with (i + S k)%nat by lia.
    destruct (Hupd (S k) u' Hk) as (? & lu' & ? & ?). split; [done|]. exists lu'.
    by rewrite Hother, Hul by lia. }
  exists zsl'. split_and!; [done|congruence| |].
  - intros p j Hj. simpl in Hj. rewrite Hout by lia. apply Hother. lia.
  - intros [|k] u' lu' Hk Hlu' p.
    + rewrite Nat.add_0_r in *. simplify_eq/=. rewrite Hout by lia. rewrite Hg1, Hv.
      destruct (decide (p = u')) as [->|]; [by rewrite decide_True|by rewrite decide_False by tauto].
    + simpl in Hk. replace (i + S k)%nat with (S i + k)%nat in * by lia.
      rewrite (Hin k u' lu') by (try done; by rewrite Hother by lia).
      by rewrite Hother, Hul by lia.
Qed.

Lemma zsl_lower_spec n zsl :
  (1 ≤ n)%nat →
  (1 ≤ zsl_lower n zsl ≤ n)%nat ∧
  ∀ i, (zsl_lower n zsl ≤ i < n)%nat → ∃ s, get_level zsl Hdr i = Some (mkLevel None s).
Proof.
  induction n as [|[|k] IH]; intros Hn; [lia|split; [simpl; lia|]; simpl; lia|].
  change (zsl_lower (S (S k)) zsl) with
    (match z_header zsl !! S k with Some (mkLevel None _) => zsl_lower (S k) zsl | _ => S (S k) end).
  destruct (z_header zsl !! S k) as [[[l|] s]|] eqn:Hh; [split; [lia|intros; lia]| |split; [lia|intros; lia]].
  destruct IH as [Hb Hi]; [lia|]. split; [lia|]. intros i Hi'.
  destruct (decide (i = S k)) as [->|]; [by exists s|apply Hi; lia].
Qed.

Section delete.
Context (zsl : zskiplist) (Lo Hi : list rnode) (r : rnode) (As : list (list rnode)).
Context (HR : zsl_rep zsl (Lo ++ r :: Hi)).
Context (HAslen : length As = z_lv zsl) (HAs : ∀ i A, As !! i = Some A → stop_at zsl Lo i A).

Lemma delete_nodup : rn_loc r ∉ rn_loc <$> (Lo ++ Hi) ∧ NoDup (rn_loc <$> (Lo ++ Hi)).
Proof.
  pose proof (rep_nodup _ _ HR) as Hnd. rewrite fmap_app, fmap_cons in Hnd.
  rewrite <- Permutation_middle, <- fmap_app in Hnd. by apply NoDup_cons in Hnd.
Qed.

(** Pointers up to the node are different from it. *)
Lemma delete_ptr_ne A C : Lo = A ++ C → ptr A ≠ Node (rn_loc r).
Proof.
  intros HLo Hp. apply (ptr_in (Lo ++ Hi) A (C ++ Hi)) in Hp; [|by rewrite HLo, <- app_assoc].
  by apply delete_nodup.
Qed.

Lemma node_level i : (i < rn_h r)%nat → get_level zsl (Node (rn_loc r)) i = Some (lvl i Hi).
Proof.
  intros Hi'. rewrite <- (ptr_snoc Lo). apply (rep_levels _ _ HR); [by rewrite <- app_assoc|].
  by apply has_level_snoc.
Qed.

Lemma unlink_path i A C :
  As !! i = Some A → Lo = A ++ C →
  get_level zsl (ptr A) i = Some (lvl i (C ++ r :: Hi)) ∧
  unlink_level zsl (rn_loc r) i (lvl i (C ++ r :: Hi)) = Some (lvl i (C ++ Hi)).
Proof.
  intros HA HLo. destruct (HAs i A HA) as (C' & HLo' & HC & Hlv).
  assert (C' = C) as -> by (apply (app_inv_head A); by rewrite <- HLo, <- HLo').
  split; [apply (rep_levels _ _ HR); [by rewrite HLo, <- app_assoc|done]|].
  rewrite !lvl_short by done. unfold unlink_level, bump. simpl.
  destruct (decide (i < rn_h r)%nat) as [Hi'|Hi']; simpl.
  - rewrite decide_True by done. rewrite node_level by done. simpl. do 2 f_equal. lia.
  - rewrite decide_False; [do 2 f_equal; lia|]. intros Hf.
    destruct (lvl_cases i Hi) as [[_ Hn]|(D & y & E & HHi & _ & _ & Hy)]; [congruence|].
    rewrite Hy in Hf. injection Hf as Hf. apply (proj1 delete_nodup), list_elem_of_fmap.
    exists y. split; [done|]. rewrite HHi. set_solver.
Qed.

Lemma unlink_all :
  ∃ zsl1, zsl_unlink (rn_loc r) 0 (take (z_lv zsl) (fst <$> upd_of As)) zsl = Some zsl1 ∧
    frame zsl1 = frame zsl ∧
    (∀ p j, (z_lv zsl ≤ j)%nat → get_level zsl1 p j = get_level zsl p j) ∧
    (∀ i A C p, As !! i = Some A → Lo = A ++ C →
       get_level zsl1 p i = if decide (p = ptr A) then Some (lvl i (C ++ Hi)) else get_level zsl p i).
Proof.
  rewrite take_ge by (rewrite length_fmap, length_upd_of; lia).
  assert (∀ k u, (fst <$> upd_of As) !! k = Some u → ∃ A C, As !! k = Some A ∧ u = ptr A ∧ Lo = A ++ C) as Hk.
  { intros k u Hk. unfold upd_of in Hk. rewrite <- list_fmap_compose in Hk.
    apply list_lookup_fmap_Some in Hk as (A & -> & HA). destruct (HAs k A HA) as (C & ? & _).
    by exists A, C. }
  destruct (zsl_unlink_spec (rn_loc r) (fst <$> upd_of As) 0 zsl) as (zsl1 & -> & Hf & Hout & Hin).
  { intros k u Hu. destruct (Hk k u Hu) as (A & C & HA & -> & HLo).
    destruct (unlink_path k A C HA HLo) as [Hg Hul]. split; [by eapply delete_ptr_ne|].
    eexists; split; [done|]. simpl. rewrite Hul. by eexists. }
  exists zsl1. split_and!; [done..| |].
  - intros p j Hj. apply Hout. right. rewrite length_fmap, length_upd_of. simpl. lia.
  - intros i A C p HA HLo. destruct (unlink_path i A C HA HLo) as [Hg Hul].
    change i with (0 + i)%nat at 1.
    rewrite (Hin i (ptr A) (lvl i (C ++ r :: Hi))); [simpl; by rewrite Hul| |done].
    unfold upd_of. by rewrite !list_lookup_fmap, HA.
Qed.

Lemma delete_levels zsl1 :
  z_lv zsl1 = z_lv zsl →
  (∀ i A C p, As !! i = Some A → Lo = A ++ C →
     get_level zsl1 p i = if decide (p = ptr A) then Some (lvl i (C ++ Hi)) else get_level zsl p i) →
  levels_ok zsl1 (Lo ++ Hi).
Proof.
  intros Hlv1 H1 A B i HAB Hlv. rewrite Hlv1 in Hlv. symmetry in HAB.
  assert (i < z_lv zsl)%nat as Hi'.
  { unfold has_level in Hlv. destruct (last A) as [y|] eqn:Hy; [|done].
    apply last_Some in Hy as [A' ->]. pose proof (rep_height _ _ HR) as Hh.
    assert (y ∈ Lo ++ r :: Hi) as Hin.
    { assert (y ∈ Lo ++ Hi) by (rewrite <- HAB; set_solver). set_solver. }
    rewrite Forall_forall in Hh. specialize (Hh y Hin). lia. }
  destruct (lookup_lt_is_Some_2 As i) as [Ai HAi]; [lia|].
  destruct (HAs i Ai HAi) as (Ci & HLo & HCi & Hlvi).
  rewrite (H1 i Ai Ci) by done. apply app_eq_inv in HAB as [(C & -> & HC)|(C & HC & ->)].
  - destruct C as [|c C _] using rev_ind.
    { rewrite app_nil_r in *. simpl in HC. subst B. destruct (decide (ptr Lo = ptr Ai)) as [Hp|Hp].
      - assert (Lo = Ai) as HLA by (eapply (ptr_inj (Lo ++ Hi) Lo Hi Ai (Ci ++ Hi)); [apply delete_nodup|done|by rewrite HLo at 1; rewrite <- app_assoc|done]).
        assert (Ci = []) as -> by (apply (f_equal length) in HLo; rewrite length_app, HLA in HLo; destruct Ci; simpl in *; [done|lia]).
        done.
      - destruct Hp. f_equal. eapply (stop_unique (z_lv zsl) i Lo [] Ai Ci); [by rewrite app_nil_r|constructor|done..]. }
    rewrite decide_False.
    + rewrite app_assoc, ptr_snoc, <- (ptr_snoc (Lo ++ r :: C)).
      apply (rep_levels _ _ HR); [rewrite HC, <- !app_assoc; done|].
      rewrite app_assoc in Hlv. apply has_level_snoc in Hlv. by apply has_level_snoc.
    + intros Hp. apply (ptr_inj (Lo ++ Hi) _ B _ (Ci ++ Hi)) in Hp;
        [|apply delete_nodup|by rewrite HC, <- !app_assoc|by rewrite HLo at 1; rewrite <- app_assoc].
      apply (f_equal length) in Hp. apply (f_equal length) in HLo. rewrite !length_app in *. simpl in *. lia.
  - destruct (decide (ptr A = ptr Ai)) as [Hp|Hp].
    { assert (A = Ai) as <-.
      { eapply (ptr_inj (Lo ++ Hi) A (C ++ Hi) Ai (Ci ++ Hi)); [apply delete_nodup|..|done].
        - by rewrite HC, <- app_assoc. - by rewrite HLo, <- app_assoc. }
      rewrite HC in HLo. by apply app_inv_head in HLo as ->. }
    rewrite (rep_levels _ _ HR A (C ++ r :: Hi)) by (try done; by rewrite HC, <- app_assoc).
    f_equal. apply lvl_hidden. intros Hshort. apply Hp. f_equal.
    apply (stop_unique (z_lv zsl) i A C Ai Ci); [by rewrite <- HC, <- HLo|done..].
Qed.

(** What is left of [zslDeleteNode] once the levels are unlinked, before the
    level of the list is lowered. *)
Definition delete_finish (zsl1 : zskiplist) : zskiplist :=
  match head Hi with
  | Some y => set_backward (rn_loc y) (rn_loc <$> last Lo) zsl1
  | None => set_tail (rn_loc <$> last Lo) zsl1
  end.

Lemma get_level_delete_finish zsl1 p i : get_level (delete_finish zsl1) p i = get_level zsl1 p i.
Proof. unfold delete_finish. destruct (head Hi); [apply get_level_set_backward|done]. Qed.

Lemma frames_delete_finish zsl1 :
  frames zsl1 = frames zsl →
  ∀ A y B, Lo ++ Hi = A ++ y :: B →
    frames (delete_finish zsl1) !! rn_loc y = Some (rn_ele y, rn_score y, rn_loc <$> last A, rn_h y).
Proof.
  intros Hf A y B HAB. destruct delete_nodup as [_ Hnd].
  assert (∀ l, frames (delete_finish zsl1) !! l =
    (if decide (Some l = rn_loc <$> head Hi) then with_backward (rn_loc <$> last Lo) else id) <$>
    frames zsl !! l) as ->.
  { intros l. unfold delete_finish. destruct (head Hi) as [z|].
    - rewrite frames_set_backward, Hf. simpl. destruct (decide (l = rn_loc z)) as [->|Hne].
      + by rewrite lookup_alter_eq, decide_True.
      + by rewrite lookup_alter_ne, decide_False, option_fmap_id by congruence.
    - rewrite decide_False by done. rewrite option_fmap_id. by rewrite <- Hf. }
  symmetry in HAB. apply app_eq_inv in HAB as [(C & -> & HC)|(C & HC & HB)].
  - assert (Lo ++ r :: Hi = (Lo ++ r :: C) ++ y :: B) as Hold by (by rewrite HC, <- app_assoc).
    rewrite (rep_data _ _ HR _ _ _ Hold). rewrite HC. destruct C as [|c C]; simpl.
    + by rewrite decide_True, app_nil_r.
    + rewrite decide_False; [by rewrite !last_app_cons, last_cons_cons|]. intros [= Heq].
      rewrite HC, fmap_app in Hnd. apply NoDup_app in Hnd as (_ & _ & Hnd). simpl in Hnd.
      apply NoDup_cons in Hnd as [Hnd _]. rewrite fmap_app in Hnd. set_solver.
  - destruct C as [|c C]; simpl in HB.
    { rewrite app_nil_r in HC. subst A.
      assert (Lo ++ r :: Hi = (Lo ++ [r]) ++ y :: B) as Hold by (by rewrite <- HB, <- app_assoc).
      rewrite (rep_data _ _ HR _ _ _ Hold), <- HB. simpl. by rewrite decide_True. }
    injection HB as -> HB.
    assert (Lo ++ r :: Hi = A ++ c :: C ++ r :: Hi) as Hold by (by rewrite HC, <- app_assoc).
    rewrite (rep_data _ _ HR _ _ _ Hold), decide_False; [done|].
    destruct (head Hi) as [z|] eqn:Hz; [|done]. intros [= Heq]. apply head_Some_elem_of in Hz.
    rewrite HC, <- app_assoc, fmap_app in Hnd. apply NoDup_app in Hnd as (_ & _ & Hnd). simpl in Hnd.
    apply NoDup_cons in Hnd as [Hnd _]. apply Hnd. rewrite Heq. apply list_elem_of_fmap.
    exists z. split; [done|]. apply elem_of_app. by right.
Qed.

Lemma delete_rep zsl1 :
  frame zsl1 = frame zsl → levels_ok zsl1 (Lo ++ Hi) →
  (∀ p j, (z_lv zsl ≤ j)%nat → get_level zsl1 p j = get_level zsl p j) →
  let z := set_lv (zsl_lower (z_lv (delete_finish zsl1)) (delete_finish zsl1)) (delete_finish zsl1) in
  zsl_rep (set_length (z_length z - 1) z) (Lo ++ Hi).
Proof.
  intros Hf Hlv Hspare z. unfold frame in Hf. injection Hf as Hfr Hhd Htl Hlen Hl.
  assert (∀ p i, get_level (set_length (z_length z - 1) z) p i = get_level zsl1 p i) as Hget
    by apply get_level_delete_finish.
  assert (z_lv (delete_finish zsl1) = z_lv zsl) as Hlvz by (unfold delete_finish; by destruct (head Hi)).
  destruct (zsl_lower_spec (z_lv zsl) (delete_finish zsl1)) as [Hlow Hnone]; [apply (rep_lv _ _ HR)|].
  assert (z_lv z = zsl_lower (z_lv zsl) (delete_finish zsl1)) as Hlvn by (simpl; by rewrite Hlvz).
  pose proof (rep_height _ _ HR) as Hh. pose proof (rep_lv _ _ HR) as Hlvb.
  assert (Forall (λ y, (1 ≤ rn_h y ≤ z_lv z)%nat) (Lo ++ Hi)) as Hh'.
  { apply Forall_forall. intros y Hy. rewrite Forall_forall in Hh.
    assert (1 ≤ rn_h y ≤ z_lv zsl)%nat as Hy' by (apply Hh; set_solver).
    split; [lia|]. destruct (decide (rn_h y ≤ z_lv z)%nat) as [|Hgt]; [done|]. exfalso.
    destruct (Hnone (rn_h y - 1)%nat) as [s Hs]; [lia|]. rewrite get_level_delete_finish in Hs.
    change Hdr with (ptr []) in Hs. rewrite (Hlv [] (Lo ++ Hi)) in Hs; [|done|unfold has_level; simpl; lia].
    injection Hs as Hs. destruct (lvl_cases (rn_h y - 1) (Lo ++ Hi)) as [[Hsh _]|(?&?&?&_&_&_&Hx)];
      [|by rewrite Hx in Hs]. rewrite Forall_forall in Hsh. specialize (Hsh y Hy). lia. }
  split.
  - intros A y B HAB. by eapply (frames_delete_finish zsl1).
  - intros A B i HAB Hi'. rewrite Hget. apply Hlv; [done|]. rewrite Hl. revert Hi'. unfold has_level.
    case_match; [done|]. intros. change (i < z_lv z)%nat in Hi'. lia.
  - intros i Hi'. change (z_lv z ≤ i < ZSKIPLIST_MAXLEVEL)%nat in Hi'. rewrite Hget.
    destruct (decide (i < z_lv zsl)%nat).
    + rewrite <- get_level_delete_finish. apply Hnone. lia.
    + rewrite Hspare by lia. apply (rep_spare _ _ HR). lia.
  - apply delete_nodup.
  - unfold z, delete_finish. pose proof (rep_header _ _ HR). destruct (head Hi); simpl; congruence.
  - change (1 ≤ z_lv z ≤ ZSKIPLIST_MAXLEVEL)%nat. lia.
  - done.
  - pose proof (rep_tail _ _ HR) as Ht. unfold z, delete_finish. simpl. destruct (head Hi) as [y|] eqn:Hy.
    + simpl. rewrite Htl, Ht. apply head_Some in Hy as [Hi' ->]. by rewrite !last_app_cons, last_cons_cons.
    + simpl. apply head_None in Hy as ->. by rewrite app_nil_r.
  - pose proof (rep_length _ _ HR) as Ht. rewrite length_app in *. simpl in Ht.
    unfold z, delete_finish. destruct (head Hi); simpl; rewrite Hlen; lia.
Qed.

Lemma zslDeleteNode_spec :
  ∃ zsl', zslDeleteNode zsl (rn_loc r) (fst <$> upd_of As) = Some zsl' ∧ zsl_rep zsl' (Lo ++ Hi) ∧
    dom (z_nodes zsl') = dom (z_nodes zsl).
Proof.
  unfold zslDeleteNode. destruct unlink_all as (zsl1 & -> & Hf & Hout & H1). simpl.
  assert (levels_ok zsl1 (Lo ++ Hi)) as Hlv1.
  { apply delete_levels; [|done]. unfold frame in Hf. by injection Hf. }
  pose proof (rep_data _ _ HR Lo r Hi eq_refl) as Hd. unfold node_data in Hd.
  pose proof Hf as Hf'. unfold frame in Hf'. injection Hf' as Hfr _ _ _ _. rewrite <- Hfr in Hd.
  apply (node_data_node zsl1 Lo r) in Hd as (n & Hn & _ & _ & Hb & Hlen).
  rewrite Hn. simpl.
  pose proof (rep_height _ _ HR) as Hh. rewrite Forall_app, Forall_cons in Hh. destruct Hh as (_ & Hhr & HhHi).
  assert (z_level n !! 0%nat = Some (lvl 0 Hi)) as Hl0.
  { assert (get_level zsl1 (Node (rn_loc r)) 0 = Some (lvl 0 Hi)) as Hg.
    { destruct (lookup_lt_is_Some_2 As 0) as [A0 HA0]; [lia|].
      destruct (HAs 0 A0 HA0) as (C0 & HLo & _). rewrite (H1 0%nat A0 C0) by done.
      rewrite decide_False by (intros Hp; symmetry in Hp; revert Hp; by eapply delete_ptr_ne).
      apply node_level. lia. }
    unfold get_level in Hg. simpl in Hg. by rewrite Hn in Hg. }
  rewrite Hl0. simpl.
  assert (forward (lvl 0 Hi) = rn_loc <$> head Hi) as ->.
  { destruct Hi as [|y Hi']; [done|]. rewrite lvl_tall; [done|]. apply Forall_cons in HhHi as [? _]. lia. }
  rewrite Hb. eexists. split; [done|].
  pose proof (delete_rep zsl1 Hf Hlv1 Hout) as Hrep. unfold delete_finish in Hrep.
  assert (dom (z_nodes zsl1) = dom (z_nodes zsl)) as Hdom.
  { unfold frames in Hfr. by rewrite <- (dom_fmap_L node_frame), Hfr, dom_fmap_L. }
  destruct (head Hi); simpl in *; (split; [exact Hrep|]); [by rewrite dom_alter_L|done].
Qed.

End delete.

Lemma rep_free zsl R x :
  zsl_rep zsl R → x ∉ rn_loc <$> R → zsl_rep (set_nodes (delete x (z_nodes zsl)) zsl) R.
Proof.
  intros HR Hx. split; try apply HR.
  - intros A r B HAB. unfold node_data, frames. simpl. rewrite fmap_delete, lookup_delete_ne.
    + by apply (rep_data _ _ HR A r B).
    + intros ->. apply Hx, list_elem_of_fmap. exists r. set_solver.
  - intros A B i HAB Hlv. rewrite <- (rep_levels _ _ HR A B i HAB Hlv). unfold get_level.
    destruct (ptr A) as [|l] eqn:Hp; [done|]. simpl. rewrite lookup_delete_ne; [done|].
    intros ->. by eapply Hx, ptr_in.
Qed.

(** Searching for the key of a node stops right before it. *)
Lemma zslDelete_spec zsl Lo r Hi :
  zsl_rep zsl (Lo ++ r :: Hi) → not_nan (rn_key r) →
  Forall (λ y, pbefore (rn_key y) (rn_key r) = true) Lo →
  Forall (λ y, pbefore (rn_key y) (rn_key r) = false) (r :: Hi) →
  ∃ zsl', zslDelete zsl (rn_score r) (rn_ele r) = Some (zsl', true) ∧ zsl_rep zsl' (Lo ++ Hi).
Proof.
  intros HR Hnan HLo HHi. unfold zslDelete.
  destruct (search_spec zsl _ Lo (r :: Hi) (rn_score r) (rn_ele r) HR eq_refl HLo HHi)
    as (As & HAslen & HAs & Hhead & ->). simpl. rewrite (head_upd_of _ _ Hhead). simpl.
  pose proof (rep_height _ _ HR) as Hh. rewrite Forall_app, Forall_cons in Hh. destruct Hh as (_ & Hhr & _).
  assert (stop_at zsl Lo 0 Lo) as (_ & _ & _ & Hlv0) by (apply HAs; by destruct As; simplify_eq/=).
  rewrite (rep_levels _ _ HR Lo (r :: Hi) 0%nat eq_refl Hlv0), lvl_tall by lia. simpl.
  destruct (proj1 (node_data_node _ _ _) (rep_data _ _ HR Lo r Hi eq_refl)) as (n & -> & He & Hs & _). simpl.
  rewrite He, Hs, deqb_refl, sdscmp_refl by done. simpl.
  destruct (zslDeleteNode_spec zsl Lo Hi r As HR HAslen HAs) as (zsl' & -> & HR' & _). simpl.
  eexists. split; [done|]. apply rep_free; [done|]. by eapply delete_nodup.
Qed.

(** ** On sorted lists *)

Abbreviation rkeys R := (rn_key <$> R).

Lemma zslInsert_sorted zsl R score ele rnd :
  zsl_rep zsl R → ksorted (rkeys R) → isnan score = false → ele ∉ rn_ele <$> R →
  ∃ zsl' x level rnd' Lo Hi, zslInsert zsl score ele rnd = Some (zsl', x, rnd') ∧
    R = Lo ++ Hi ∧ x ∉ dom (z_nodes zsl) ∧
    zsl_rep zsl' (Lo ++ mkRnode x level score ele :: Hi) ∧
    ksorted (rkeys (Lo ++ mkRnode x level score ele :: Hi)).
Proof.
  intros HR Hs Hnan Hnew.
  destruct (ksorted_split _ (score, ele) Hs Hnan) as (Klo & Khi & HK & Hsp).
  apply fmap_app_inv in HK as (Lo & Hi & -> & -> & ->). destruct Hsp as [HLo HHi].
  rewrite Forall_fmap in HLo, HHi.
  destruct (zslInsert_spec zsl _ Lo Hi score ele rnd HR eq_refl Hnan HLo HHi)
    as (zsl' & x & level & rnd' & -> & Hx & HR').
  exists zsl', x, level, rnd', Lo, Hi. split_and!; try done. rewrite fmap_app, fmap_cons.
  apply ksorted_insert; rewrite <- ?fmap_app; try done.
  - by rewrite <- list_fmap_compose.
  - split; by apply Forall_fmap.
Qed.

(** The node of an entry of a sorted list. *)
Lemma ksorted_node Lo r Hi :
  ksorted (rkeys (Lo ++ r :: Hi)) →
  not_nan (rn_key r) ∧
  Forall (λ y, pbefore (rn_key y) (rn_key r) = true) Lo ∧
  Forall (λ y, pbefore (rn_key y) (rn_key r) = false) (r :: Hi) ∧
  ksorted (rkeys (Lo ++ Hi)) ∧ rn_ele r ∉ rn_ele <$> (Lo ++ Hi).
Proof.
  rewrite fmap_app, fmap_cons. intros Hs.
  destruct (ksorted_at _ _ _ Hs) as (Hn & [HLo HHi] & Hd). split; [done|].
  rewrite <- fmap_cons in HHi. rewrite Forall_fmap in HLo, HHi. split_and!; [done..| |].
  - rewrite fmap_app. by eapply ksorted_remove.
  - by rewrite <- fmap_app, <- list_fmap_compose in Hd.
Qed.

(** *** Changing a score in place *)

Definition rescore (l : loc) (s : double) (r : rnode) : rnode :=
  if decide (rn_loc r = l) then mkRnode (rn_loc r) (rn_h r) s (rn_ele r) else r.

Lemma rescore_loc l s r : rn_loc (rescore l s r) = rn_loc r.
Proof. unfold rescore. by case_decide. Qed.

Lemma rescore_h l s r : rn_h (rescore l s r) = rn_h r.
Proof. unfold rescore. by case_decide. Qed.

Lemma rescore_ele l s r : rn_ele (rescore l s r) = rn_ele r.
Proof. unfold rescore. by case_decide. Qed.

Lemma lvl_rescore l s i B : lvl i (rescore l s <$> B) = lvl i B.
Proof.
  induction B as [|r B IH]; [done|]. rewrite fmap_cons. simpl. by rewrite rescore_loc, rescore_h, IH.
Qed.

Lemma last_rescore l s A : rn_loc <$> last (rescore l s <$> A) = rn_loc <$> last A.
Proof. rewrite fmap_last. destruct (last A); simpl; [by rewrite rescore_loc|done]. Qed.

Lemma rescore_split Lo r Hi s :
  NoDup (rn_loc <$> (Lo ++ r :: Hi)) →
  rescore (rn_loc r) s <$> (Lo ++ r :: Hi) = Lo ++ mkRnode (rn_loc r) (rn_h r) s (rn_ele r) :: Hi.
Proof.
  rewrite fmap_app, fmap_cons. intros (_ & Hd & [Hr _]%NoDup_cons)%NoDup_app.
  assert (∀ L : list rnode, rn_loc r ∉ rn_loc <$> L → rescore (rn_loc r) s <$> L = L) as Hid.
  { intros L HL. rewrite <- (list_fmap_id L) at 2. apply list_fmap_ext. intros i y Hy. unfold rescore.
    rewrite decide_False; [done|]. intros Heq. apply HL. rewrite <- Heq.
    apply list_elem_of_fmap_2. by eapply list_elem_of_lookup_2. }
  rewrite fmap_app, fmap_cons. f_equal; [|f_equal].
  - apply Hid. intros Hin. apply (Hd _ Hin). left.
  - unfold rescore. by rewrite decide_True.
  - by apply Hid.
Qed.

Lemma rep_rescore zsl R l n s :
  zsl_rep zsl R → z_nodes zsl !! l = Some n →
  zsl_rep (set_nodes (<[l := mkNode (z_ele n) s (z_backward n) (z_level n)]> (z_nodes zsl)) zsl)
    (rescore l s <$> R).
Proof.
  intros HR Hn. split; try apply HR.
  - intros A r' B HAB. apply fmap_app_inv in HAB as (A0 & B0 & -> & HB & ->).
    destruct B0 as [|r B0]; simplify_eq/=.
    destruct (proj1 (node_data_node _ _ _) (rep_data _ _ HR A0 r B0 eq_refl)) as (n' & Hn' & He & Hs & Hb & Hl).
    apply node_data_node. rewrite rescore_loc, last_rescore, rescore_h, rescore_ele. simpl.
    unfold rescore. case_decide as Hd; simpl.
    + subst l. rewrite lookup_insert_eq. simplify_eq. eexists. split; [done|]. done.
    + rewrite lookup_insert_ne by done. by exists n'.
  - intros A B i HAB Hlv. apply fmap_app_inv in HAB as (A0 & B0 & -> & -> & ->). rewrite lvl_rescore.
    assert (ptr (rescore l s <$> A0) = ptr A0) as ->.
    { unfold ptr. pose proof (last_rescore l s A0) as Hla.
      destruct (last (rescore l s <$> A0)), (last A0); simplify_eq/=; congruence. }
    assert (has_level (z_lv zsl) A0 i) as Hlv0.
    { revert Hlv. unfold has_level. rewrite fmap_last. simpl. destruct (last A0); simpl; [by rewrite rescore_h|done]. }
    rewrite <- (rep_levels _ _ HR A0 B0 i eq_refl Hlv0). unfold get_level.
    destruct (ptr A0) as [|l']; [done|]. simpl. destruct (decide (l = l')) as [<-|Hne].
    + by rewrite lookup_insert_eq, Hn.
    + by rewrite lookup_insert_ne.
  - rewrite <- list_fmap_compose. pose proof (rep_nodup _ _ HR) as Hnd.
    erewrite list_fmap_ext; [exact Hnd|]. intros. apply rescore_loc.
  - rewrite Forall_fmap. eapply Forall_impl; [apply HR|]. intros r. simpl. by rewrite rescore_h.
  - simpl. rewrite last_rescore. apply HR.
  - simpl. rewrite length_fmap. apply HR.
Qed.

(** Reading the score behind a pointer to a neighbour. *)
Lemma rep_score zsl R o (f : double → bool) :
  zsl_rep zsl R → (∀ r, o = Some r → r ∈ R) →
  match rn_loc <$> o with
  | None => Some true
  | Some b => nb ← z_nodes zsl !! b; Some (f (z_score nb))
  end = Some (match o with None => true | Some y => f (rn_score y) end).
Proof.
  intros HR Ho. destruct o as [y|]; [|done]. simpl.
  destruct (list_elem_of_split R y (Ho y eq_refl)) as (A & B & ->).
  destruct (proj1 (node_data_node _ _ _) (rep_data _ _ HR A y B eq_refl)) as (n & -> & _ & Hs & _).
  simpl. by rewrite Hs.
Qed.

(** What [zslUpdateScore] leaves: the entries with the new score in place. *)
Lemma zslUpdateScore_spec zsl Lo r Hi newscore rnd :
  zsl_rep zsl (Lo ++ r :: Hi) → ksorted (rkeys (Lo ++ r :: Hi)) → isnan newscore = false →
  ∃ zsl' x h rnd' Lo' Hi', zslUpdateScore zsl (rn_score r) (rn_ele r) newscore rnd = Some (zsl', x, rnd') ∧
    Lo ++ Hi = Lo' ++ Hi' ∧
    zsl_rep zsl' (Lo' ++ mkRnode x h newscore (rn_ele r) :: Hi') ∧
    ksorted (rkeys (Lo' ++ mkRnode x h newscore (rn_ele r) :: Hi')).
Proof.
  intros HR Hs Hnan. destruct (ksorted_node _ _ _ Hs) as (Hn & HLo & HHi & Hs' & Hd).
  unfold zslUpdateScore.
  destruct (search_spec zsl _ Lo (r :: Hi) (rn_score r) (rn_ele r) HR eq_refl HLo HHi)
    as (As & HAslen & HAs & Hhead & ->). simpl. rewrite (head_upd_of _ _ Hhead). simpl.
  pose proof (rep_height _ _ HR) as Hh. rewrite Forall_app, Forall_cons in Hh. destruct Hh as (_ & Hhr & HhHi).
  assert (stop_at zsl Lo 0 Lo) as (_ & _ & _ & Hlv0) by (apply HAs; by destruct As; simplify_eq/=).
  rewrite (rep_levels _ _ HR Lo (r :: Hi) 0%nat eq_refl Hlv0), lvl_tall by lia. simpl.
  destruct (proj1 (node_data_node _ _ _) (rep_data _ _ HR Lo r Hi eq_refl)) as (n & Hn0 & He & Hsc & Hb & Hl).
  rewrite Hn0. simpl. rewrite He, Hsc, deqb_refl, sdscmp_refl by done. simpl.
  assert (∃ lx, z_level n !! 0%nat = Some lx ∧ forward lx = rn_loc <$> head Hi) as (lx & -> & Hf).
  { assert (has_level (z_lv zsl) (Lo ++ [r]) 0) as Hlr by (unfold has_level; rewrite last_snoc; lia).
    pose proof (rep_levels _ _ HR (Lo ++ [r]) Hi 0%nat) as Hg. rewrite <- app_assoc in Hg.
    specialize (Hg eq_refl Hlr). unfold ptr in Hg. rewrite last_snoc in Hg. unfold get_level in Hg.
    simpl in Hg. rewrite Hn0 in Hg. simpl in Hg. eexists. split; [exact Hg|].
    destruct Hi as [|y Hi']; [done|]. apply Forall_cons in HhHi as [? _]. by rewrite lvl_tall by lia. }
  simpl. rewrite Hb, Hf.
  rewrite (rep_score zsl _ (last Lo) (λ s, dltb s newscore) HR), (rep_score zsl _ (head Hi) (dltb newscore) HR);
    [|intros y Hy%head_Some_elem_of; set_solver|intros y Hy%last_Some_elem_of; set_solver]. simpl.
  destruct (_ && _) eqn:Hok.
  - apply andb_true_iff in Hok as [Hlo Hro].
    eexists _, (rn_loc r), (rn_h r), _, Lo, Hi. split_and!; [done|done| |].
    + rewrite <- rescore_split by apply HR. rewrite <- He, <- Hb. by apply rep_rescore.
    + rewrite fmap_app, fmap_cons. rewrite fmap_app in Hs'.
      apply (ksorted_insert _ _ (newscore, rn_ele r)); [done|done| |].
      * by rewrite <- fmap_app, <- list_fmap_compose.
      * apply ksplit_between; [done|done|rewrite fmap_last; by destruct (last Lo)|by destruct Hi].
  - destruct (zslDeleteNode_spec zsl Lo Hi r As HR HAslen HAs) as (zsl1 & -> & HR1 & Hdom). simpl.
    destruct (zslInsert_sorted zsl1 _ newscore (rn_ele r) rnd HR1 Hs' Hnan Hd)
      as (zsl2 & x & h & rnd' & Lo' & Hi' & -> & HLH & Hx & HR2 & Hs2). simpl.
    eexists _, x, h, _, Lo', Hi'. split_and!; [done|done| |done]. apply rep_free; [done|].
    assert (rn_loc r ∉ rn_loc <$> (Lo' ++ Hi')) as Hnot.
    { rewrite <- HLH. by eapply delete_nodup. }
    rewrite fmap_app, fmap_cons, not_elem_of_app, not_elem_of_cons. rewrite fmap_app, not_elem_of_app in Hnot.
    split_and!; [apply Hnot| |apply Hnot]. simpl. intros Heq. apply Hx. rewrite <- Heq, Hdom.
    by apply elem_of_dom.
Qed.
