(* ===== verification/Zset.v ===== *)
(** * Sorted sets (src/t_zset.c, common API over both encodings)

    [zobj] is a sorted-set object: a dictionary with a skip list, or, for a
    small set, the list of its (element, score) pairs in the order in which the
    ziplist has them.  The branches for the skip list are the code; those for
    the pairs say what the code does to a ziplist, whose bytes are in [Zzl] and
    related to the pairs in [ZzlRep].  As in the code the dictionary maps an
    element to the address of its skip-list node, through which its score is
    read.  [None] is a failed assertion or an invalid access. *)

From S2P Require Import Prelude.
From S2P Require Import Sds.
From S2P Require Import Double.
From S2P Require Import Skiplist.

#[local] Open Scope Z_scope.

(** ** The pairs of a small set *)

Abbreviation zziplist := (list (sds * double)).

Definition count_pairs (zl : zziplist) : Z := Z.of_nat (length zl).

(** Position and score of an element. *)
Fixpoint find_pair (zl : zziplist) (ele : sds) : option (nat * double) :=
  match zl with
  | [] => None
  | (e, s) :: zl' =>
      if String.eqb e ele then Some (0%nat, s)
      else '(i, s') ← find_pair zl' ele; Some (S i, s')
  end.

(** Deletes the pair at a position. *)
Definition delete_pair (zl : zziplist) (i : nat) : zziplist := delete i zl.

(** Inserts before the first pair that is greater. *)
Fixpoint insert_pair (zl : zziplist) (ele : sds) (score : double) : zziplist :=
  match zl with
  | [] => [(ele, score)]
  | (e, s) :: zl' =>
      if dltb score s then (ele, score) :: zl
      else if deqb s score && (0 <? sdscmp e ele) then (ele, score) :: zl
      else (e, s) :: insert_pair zl' ele score
  end.

(** ** Objects *)

Record zset := mkZset { z_dict : gmap sds loc; z_zsl : zskiplist }.

Inductive zobj :=
  | ZZiplist (zl : zziplist)
  | ZSkiplist (zs : zset).

Definition createZsetObject : zobj := ZSkiplist (mkZset ∅ zslCreate).
Definition createZsetZiplistObject : zobj := ZZiplist [].

(** Encoding limits of the server configuration. *)
Record zconf := mkZconf { zset_max_ziplist_entries : Z; zset_max_ziplist_value : Z }.

Definition sdslen (s : sds) : Z := Z.of_nat (String.length s).

Definition zsetLength (z : zobj) : Z :=
  match z with
  | ZZiplist zl => count_pairs zl
  | ZSkiplist zs => z_length (z_zsl zs)
  end.

(** [dictAdd]: refused when the key is there. *)
Definition dictAdd (d : gmap sds loc) (k : sds) (v : loc) : option (gmap sds loc) :=
  match d !! k with Some _ => None | None => Some (<[k := v]> d) end.

(** The loop of [zsetConvert] from a ziplist. *)
Fixpoint zset_load (zl : zziplist) (zs : zset) (rnd : list Z) : option (zset * list Z) :=
  match zl with
  | [] => Some (zs, rnd)
  | (ele, score) :: zl' =>
      '(zsl, node, rnd) ← zslInsert (z_zsl zs) score ele rnd;
      d ← dictAdd (z_dict zs) ele node;
      zset_load zl' (mkZset d zsl) rnd
  end.

(** The chain of nodes from [node] along [level[0].forward]. *)
Fixpoint zsl_chain (fuel : nat) (zsl : zskiplist) (node : option loc) : option (list loc) :=
  match node with
  | None => Some []
  | Some l =>
      match fuel with
      | O => None
      | S fuel' =>
          n ← z_nodes zsl !! l;
          lv ← z_level n !! 0%nat;
          rest ← zsl_chain fuel' zsl (forward lv);
          Some (l :: rest)
      end
  end.

Inductive encoding := OBJ_ENCODING_ZIPLIST | OBJ_ENCODING_SKIPLIST.

Definition zsetConvert (z : zobj) (enc : encoding) (rnd : list Z) : option (zobj * list Z) :=
  match z, enc with
  | ZZiplist _, OBJ_ENCODING_ZIPLIST => Some (z, rnd)
  | ZSkiplist _, OBJ_ENCODING_SKIPLIST => Some (z, rnd)
  | ZZiplist zl, OBJ_ENCODING_SKIPLIST =>
      if decide (zl = []) then None
      else '(zs, rnd) ← zset_load zl (mkZset ∅ zslCreate) rnd; Some (ZSkiplist zs, rnd)
  | ZSkiplist zs, OBJ_ENCODING_ZIPLIST =>
      h ← z_header (z_zsl zs) !! 0%nat;
      ls ← zsl_chain (size (z_nodes (z_zsl zs))) (z_zsl zs) (forward h);
      ns ← mapM (λ l, z_nodes (z_zsl zs) !! l) ls;
      Some (ZZiplist ((λ n, (z_ele n, z_score n)) <$> ns), rnd)
  end.

(** [None]: fault; [Some None]: [C_ERR], no such member. *)
Definition zsetScore (z : zobj) (member : sds) : option (option double) :=
  match z with
  | ZZiplist zl => Some (snd <$> find_pair zl member)
  | ZSkiplist zs =>
      match z_dict zs !! member with
      | None => Some None
      | Some l => n ← z_nodes (z_zsl zs) !! l; Some (Some (z_score n))
      end
  end.

(** Flags of [zsetAdd]. *)
Definition ZADD_NONE : Z := 0.
Definition ZADD_INCR : Z := 1.
Definition ZADD_NX : Z := 2.
Definition ZADD_XX : Z := 4.
Definition ZADD_NOP : Z := 8.
Definition ZADD_NAN : Z := 16.
Definition ZADD_ADDED : Z := 32.
Definition ZADD_UPDATED : Z := 64.

(** What a [zsetAdd] call leaves behind: the object, the return value, the
    output flags, and the random numbers not yet drawn. *)
Record zadd_result := mkZadd { za_obj : zobj; za_ret : bool; za_flags : Z; za_rnd : list Z }.

Definition zsetAdd (conf : zconf) (z : zobj) (score : double) (ele : sds) (flags : Z)
    (rnd : list Z) : option zadd_result :=
  let incr := negb (Z.land flags ZADD_INCR =? 0) in
  let nx := negb (Z.land flags ZADD_NX =? 0) in
  let xx := negb (Z.land flags ZADD_XX =? 0) in
  if isnan score then Some (mkZadd z false ZADD_NAN rnd)
  else
    match z with
    | ZZiplist zl =>
        match find_pair zl ele with
        | Some (eptr, curscore) =>
            if nx then Some (mkZadd z true ZADD_NOP rnd)
            else
              let score := if incr then dadd score curscore else score in
              if incr && isnan score then Some (mkZadd z false ZADD_NAN rnd)
              else if negb (deqb score curscore) then
                Some (mkZadd (ZZiplist (insert_pair (delete_pair zl eptr) ele score)) true ZADD_UPDATED rnd)
              else Some (mkZadd z true 0 rnd)
        | None =>
            if xx then Some (mkZadd z true ZADD_NOP rnd)
            else
              let zl := insert_pair zl ele score in
              if (zset_max_ziplist_entries conf <? count_pairs zl)
                 || (zset_max_ziplist_value conf <? sdslen ele) then
                '(z, rnd) ← zsetConvert (ZZiplist zl) OBJ_ENCODING_SKIPLIST rnd;
                Some (mkZadd z true ZADD_ADDED rnd)
              else Some (mkZadd (ZZiplist zl) true ZADD_ADDED rnd)
        end
    | ZSkiplist zs =>
        match z_dict zs !! ele with
        | Some de =>
            if nx then Some (mkZadd z true ZADD_NOP rnd)
            else
              n ← z_nodes (z_zsl zs) !! de;
              let curscore := z_score n in
              let score := if incr then dadd score curscore else score in
              if incr && isnan score then Some (mkZadd z false ZADD_NAN rnd)
              else if negb (deqb score curscore) then
                '(zsl, znode, rnd) ← zslUpdateScore (z_zsl zs) curscore ele score rnd;
                Some (mkZadd (ZSkiplist (mkZset (<[ele := znode]> (z_dict zs)) zsl)) true ZADD_UPDATED rnd)
              else Some (mkZadd z true 0 rnd)
        | None =>
            if xx then Some (mkZadd z true ZADD_NOP rnd)
            else
              '(zsl, znode, rnd) ← zslInsert (z_zsl zs) score ele rnd;
              d ← dictAdd (z_dict zs) ele znode;
              Some (mkZadd (ZSkiplist (mkZset d zsl)) true ZADD_ADDED rnd)
        end
    end.

Definition zsetDel (z : zobj) (ele : sds) : option (zobj * bool) :=
  match z with
  | ZZiplist zl =>
      match find_pair zl ele with
      | Some (eptr, _) => Some (ZZiplist (delete_pair zl eptr), true)
      | None => Some (z, false)
      end
  | ZSkiplist zs =>
      match z_dict zs !! ele with
      | Some de =>
          n ← z_nodes (z_zsl zs) !! de;
          '(zsl, retval) ← zslDelete (z_zsl zs) (z_score n) ele;
          if (retval : bool) then Some (ZSkiplist (mkZset (delete ele (z_dict zs)) zsl), true)
          else None
      | None => Some (z, false)
      end
  end.

(** Last pair of a sorted set, in either encoding. *)
Definition zset_last (z : zobj) : option (sds * double) :=
  match z with
  | ZZiplist zl => last zl
  | ZSkiplist zs =>
      l ← z_tail (z_zsl zs);
      n ← z_nodes (z_zsl zs) !! l;
      Some (z_ele n, z_score n)
  end.
