(* ===== verification/ZsetRep.v ===== *)
(** * Sorted sets as finite maps (src/t_zset.c)

    Both kinds of sorted set of [Zset] are related to the map from members to
    scores they stand for, and every operation of the API is shown to refine
    the operation on that map: it does not fault, gives the same return value
    and flags, and leaves a sorted set that stands for the resulting map. *)

From S2P Require Import Prelude.
From S2P Require Import Sds.
From S2P Require Import Double.
From S2P Require Import Entries.
From S2P Require Import Skiplist.
From S2P Require Import SkiplistRep.
From S2P Require Import Zset.

#[local] Open Scope Z_scope.

(** ** Representation *)

Definition zkey (p : sds * double) : entry := (p.2, p.1).

(** The dictionary points to the nodes. *)
Definition dict_rep (d : gmap sds loc) (R : list rnode) : Prop :=
  ∀ e l, d !! e = Some l ↔ ∃ r, r ∈ R ∧ rn_ele r = e ∧ rn_loc r = l.

Inductive zset_list : zobj → list entry → Prop :=
  | zset_ziplist zl : zset_list (ZZiplist zl) (zkey <$> zl)
  | zset_skiplist d zsl R :
      zsl_rep zsl R → dict_rep d R → zset_list (ZSkiplist (mkZset d zsl)) (rkeys R).

Definition zset_rep (z : zobj) (m : gmap sds double) : Prop :=
  ∃ K, zset_list z K ∧ ksorted K ∧ kmap K = m.

(** ** The map operations *)

(** What [zsetAdd] does to the map, with its return value and flags. *)
Definition zmap_add (m : gmap sds double) (score : double) (ele : sds) (flags : Z)
    : gmap sds double * bool * Z :=
  let incr := negb (Z.land flags ZADD_INCR =? 0) in
  let nx := negb (Z.land flags ZADD_NX =? 0) in
  let xx := negb (Z.land flags ZADD_XX =? 0) in
  if isnan score then (m, false, ZADD_NAN)
  else
    match m !! ele with
    | Some cur =>
        let score := if incr then dadd score cur else score in
        if nx then (m, true, ZADD_NOP)
        else if isnan score then (m, false, ZADD_NAN)
        else if deqb score cur then (m, true, 0)
        else (<[ele := score]> m, true, ZADD_UPDATED)
    | None => if xx then (m, true, ZADD_NOP) else (<[ele := score]> m, true, ZADD_ADDED)
    end.

(** ** The empty set *)

Lemma zslCreate_rep : zsl_rep zslCreate [].
Proof.
  split; try done.
  - intros A r B H. by destruct A.
  - intros A B i H Hl. destruct A, B; try done. unfold has_level in Hl. simpl in Hl.
    unfold get_level. simpl. destruct i; [done|lia].
  - intros i Hi. simpl in Hi. exists 0. unfold get_level. cbn [levels_of zslCreate z_header mbind option_bind].
    by rewrite lookup_replicate_2 by lia.
  - constructor.
  - unfold ZSKIPLIST_MAXLEVEL. simpl. lia.
Qed.

Lemma zset_rep_empty : zset_rep createZsetObject ∅ ∧ zset_rep createZsetZiplistObject ∅.
Proof.
  split; exists []; (split; [|split; [apply ksorted_nil|done]]).
  - apply (zset_skiplist ∅ zslCreate []); [apply zslCreate_rep|]. intros e l. rewrite lookup_empty.
    split; [done|]. intros (r & ?%elem_of_nil & _). done.
  - apply (zset_ziplist []).
Qed.

(** ** Ziplists *)

Lemma find_pair_Some zl ele i s :
  find_pair zl ele = Some (i, s) → zl = take i zl ++ (ele, s) :: drop (S i) zl.
Proof.
  revert i. induction zl as [|[e s'] zl IH]; intros i; simpl; [done|].
  destruct (String.eqb_spec e ele) as [->|]; [by intros [= <- <-]|].
  destruct (find_pair zl ele) as [[i' s'']|]; [|done]. simpl. intros [= <- <-].
  simpl. f_equal. by apply IH.
Qed.

Lemma find_pair_None zl ele : find_pair zl ele = None → ele ∉ snd <$> (zkey <$> zl).
Proof.
  induction zl as [|[e s'] zl IH]; simpl; [intros _; apply not_elem_of_nil|].
  destruct (String.eqb_spec e ele) as [->|]; [done|].
  destruct (find_pair zl ele) as [[i' s'']|]; [done|]. intros _. rewrite not_elem_of_cons. auto.
Qed.

(** [insert_pair] puts the pair where it belongs. *)
Lemma insert_pair_spec zl ele score :
  ksorted (zkey <$> zl) → isnan score = false → ele ∉ snd <$> (zkey <$> zl) →
  ∃ lo hi, zl = lo ++ hi ∧ insert_pair zl ele score = lo ++ (ele, score) :: hi ∧
    ksplit (score, ele) (zkey <$> lo) (zkey <$> hi).
Proof.
  induction zl as [|[e s] zl IH]; intros HK Hn Hnew.
  { by exists [], []. }
  pose proof HK as HK'. rewrite fmap_cons in HK', Hnew. apply ksorted_cons in HK' as (HK' & Hlt & Hs & _).
  rewrite fmap_cons, not_elem_of_cons in Hnew. destruct Hnew as [Hne Hnew]. simpl in Hne, Hlt. simpl insert_pair.
  assert (∀ b : bool, b = negb (pbefore (s, e) (score, ele)) →
    ∃ lo hi, (e, s) :: zl = lo ++ hi ∧
    (if b then (ele, score) :: (e, s) :: zl else (e, s) :: insert_pair zl ele score) = lo ++ (ele, score) :: hi ∧
    ksplit (score, ele) (zkey <$> lo) (zkey <$> hi)) as Hgoal.
  { intros b ->. destruct (pbefore (s, e) (score, ele)) eqn:Hb; simpl.
    - destruct (IH HK' Hn Hnew) as (lo & hi & Hz & -> & [Hlo Hhi]). exists ((e, s) :: lo), hi.
      rewrite Hz. split_and!; try done. split; [by constructor|done].
    - exists [], ((e, s) :: zl). split_and!; try done. split; [done|]. simpl.
      constructor; [done|]. rewrite pbefore_false in Hb by done. rewrite Forall_forall in Hlt |- *.
      intros y Hy. apply pbefore_false; [exact (ksorted_not_nan _ _ HK' Hy)|done|]. intros Hyk.
      apply Hb. eapply plt_trans; [by apply Hlt|done]. }
  rewrite <- (pafter_spec (s, e) (score, ele)) in Hgoal by done. specialize (Hgoal _ eq_refl). simpl in Hgoal.
  destruct (dltb score s); [done|]. by destruct (deqb s score && _).
Qed.

Lemma insert_pair_sorted zl ele score :
  ksorted (zkey <$> zl) → isnan score = false → ele ∉ snd <$> (zkey <$> zl) →
  ksorted (zkey <$> insert_pair zl ele score) ∧
  kmap (zkey <$> insert_pair zl ele score) = <[ele := score]> (kmap (zkey <$> zl)).
Proof.
  intros HK Hn Hnew. destruct (insert_pair_spec zl ele score HK Hn Hnew) as (lo & hi & -> & -> & Hsp).
  rewrite fmap_app, fmap_cons. rewrite fmap_app in HK, Hnew |- *. split.
  - by apply ksorted_insert.
  - by apply (kmap_middle _ (zkey (ele, score))).
Qed.

Lemma delete_pair_sorted zl ele i s :
  ksorted (zkey <$> zl) → find_pair zl ele = Some (i, s) →
  kmap (zkey <$> zl) !! ele = Some s ∧ ksorted (zkey <$> delete_pair zl i) ∧
  ele ∉ snd <$> (zkey <$> delete_pair zl i) ∧
  kmap (zkey <$> delete_pair zl i) = delete ele (kmap (zkey <$> zl)).
Proof.
  intros HK Hf%find_pair_Some. unfold delete_pair. rewrite delete_take_drop.
  set (lo := take i zl) in *. set (hi := drop (S i) zl) in *. clearbody lo hi. subst zl.
  rewrite fmap_app, fmap_cons in HK |- *. rewrite (fmap_app zkey lo hi).
  destruct (ksorted_at _ _ _ HK) as (_ & _ & Hd). split_and!.
  - apply kmap_lookup; [apply HK|]. rewrite elem_of_app, elem_of_cons. auto.
  - by eapply ksorted_remove.
  - done.
  - by rewrite (kmap_remove _ (zkey (ele, s)) _ Hd).
Qed.

Lemma find_pair_map zl ele :
  ksorted (zkey <$> zl) → snd <$> find_pair zl ele = kmap (zkey <$> zl) !! ele.
Proof.
  intros HK. destruct (find_pair zl ele) as [[i s]|] eqn:Hf.
  - by destruct (delete_pair_sorted zl ele i s HK Hf) as [-> _].
  - apply find_pair_None, kmap_lookup_None in Hf. by rewrite Hf.
Qed.

(** ** Dictionaries *)

Lemma dict_rep_insert d Lo r Hi :
  dict_rep d (Lo ++ Hi) → rn_ele r ∉ rn_ele <$> (Lo ++ Hi) →
  dict_rep (<[rn_ele r := rn_loc r]> d) (Lo ++ r :: Hi).
Proof.
  unfold dict_rep. intros Hd Hr e l. rewrite lookup_insert_Some, Hd. split.
  - intros [[<- <-]|[Hne (r' & Hin & <- & <-)]]; [by exists r; set_solver|]. exists r'. set_solver.
  - intros (r' & Hin & <- & <-).
    assert (r' = r ∨ r' ∈ Lo ++ Hi) as [->|Hin'] by set_solver; [by left|]. right. split; [|by exists r'].
    intros Heq. apply Hr. rewrite Heq. by apply list_elem_of_fmap_2.
Qed.

Lemma dict_rep_remove d Lo r Hi :
  dict_rep d (Lo ++ r :: Hi) → rn_ele r ∉ rn_ele <$> (Lo ++ Hi) →
  dict_rep (delete (rn_ele r) d) (Lo ++ Hi).
Proof.
  unfold dict_rep. intros Hd Hr e l. rewrite lookup_delete_Some, Hd. split.
  - intros [Hne (r' & Hin & <- & <-)]. exists r'. split; [|done].
    assert (r' ≠ r) by congruence. set_solver.
  - intros (r' & Hin & <- & <-). split; [|exists r'; set_solver].
    intros Heq. apply Hr. rewrite Heq. by apply list_elem_of_fmap_2.
Qed.

Lemma dict_rep_None d R e : dict_rep d R → d !! e = None → e ∉ rn_ele <$> R.
Proof.
  intros Hd He (r & -> & Hr)%list_elem_of_fmap.
  assert (d !! rn_ele r = Some (rn_loc r)) by (apply Hd; by exists r). congruence.
Qed.

Lemma dict_rep_Some d R e l zsl :
  zsl_rep zsl R → dict_rep d R → d !! e = Some l →
  ∃ Lo r Hi n, R = Lo ++ r :: Hi ∧ rn_ele r = e ∧ rn_loc r = l ∧
    z_nodes zsl !! l = Some n ∧ z_score n = rn_score r.
Proof.
  intros HR Hd (r & Hr & He & Hl)%Hd. apply list_elem_of_split in Hr as (Lo & Hi & ->).
  destruct (proj1 (node_data_node _ _ _) (rep_data _ _ HR Lo r Hi eq_refl)) as (n & Hn & _ & Hs & _).
  exists Lo, r, Hi, n. rewrite <- Hl. done.
Qed.

Lemma rkeys_ele (R : list rnode) : snd <$> rkeys R = rn_ele <$> R.
Proof. by rewrite <- list_fmap_compose. Qed.

(** The map of a skip list around one node. *)
Lemma rkeys_middle (Lo Hi : list rnode) r :
  rn_ele r ∉ rn_ele <$> (Lo ++ Hi) →
  kmap (rkeys (Lo ++ r :: Hi)) = <[rn_ele r := rn_score r]> (kmap (rkeys (Lo ++ Hi))).
Proof.
  intros Hr. rewrite fmap_app, fmap_cons, (fmap_app rn_key Lo Hi). apply (kmap_middle _ (rn_key r)).
  by rewrite <- fmap_app, rkeys_ele.
Qed.

Lemma rkeys_remove (Lo Hi : list rnode) r :
  rn_ele r ∉ rn_ele <$> (Lo ++ Hi) →
  kmap (rkeys (Lo ++ Hi)) = delete (rn_ele r) (kmap (rkeys (Lo ++ r :: Hi))).
Proof.
  intros Hr. rewrite rkeys_middle by done. rewrite delete_insert_id; [done|].
  apply kmap_lookup_None. by rewrite rkeys_ele.
Qed.

Lemma zset_dict_lookup d zsl R ele :
  zsl_rep zsl R → dict_rep d R → ksorted (rkeys R) →
  match d !! ele with
  | None => kmap (rkeys R) !! ele = None
  | Some l => ∃ n, z_nodes zsl !! l = Some n ∧ kmap (rkeys R) !! ele = Some (z_score n)
  end.
Proof.
  intros HR Hd Hs. destruct (d !! ele) as [l|] eqn:He.
  - destruct (dict_rep_Some _ _ _ _ _ HR Hd He) as (Lo & r & Hi & n & -> & <- & <- & Hn & Hsc).
    exists n. split; [done|]. destruct (ksorted_node _ _ _ Hs) as (_ & _ & _ & _ & Hr).
    by rewrite rkeys_middle, lookup_insert_eq, Hsc.
  - apply kmap_lookup_None. rewrite rkeys_ele. by eapply dict_rep_None.
Qed.

(** ** The operations on skip-list objects *)

Section skiplist_objects.
Context (d : gmap sds loc) (zsl : zskiplist) (R : list rnode).
Hypotheses (HR : zsl_rep zsl R) (Hd : dict_rep d R) (Hs : ksorted (rkeys R)).

Lemma zset_insert_new score ele rnd :
  d !! ele = None → isnan score = false →
  ∃ zsl' x rnd' R', zslInsert zsl score ele rnd = Some (zsl', x, rnd') ∧
    dictAdd d ele x = Some (<[ele := x]> d) ∧
    zsl_rep zsl' R' ∧ dict_rep (<[ele := x]> d) R' ∧ ksorted (rkeys R') ∧
    kmap (rkeys R') = <[ele := score]> (kmap (rkeys R)).
Proof.
  intros He Hn. pose proof (dict_rep_None _ _ _ Hd He) as Hnew.
  destruct (zslInsert_sorted zsl R score ele rnd HR Hs Hn Hnew)
    as (zsl' & x & h & rnd' & Lo & Hi & -> & HLH & Hx & HR' & Hs').
  eexists zsl', x, rnd', _. rewrite HLH in Hnew, Hd |- *. split_and!; [done| |exact HR'| |done|].
  - unfold dictAdd. by rewrite He.
  - by apply (dict_rep_insert _ _ (mkRnode x h score ele)).
  - by apply rkeys_middle.
Qed.

Lemma zset_update_score score ele l n rnd :
  d !! ele = Some l → z_nodes zsl !! l = Some n → isnan score = false →
  ∃ zsl' x rnd' R', zslUpdateScore zsl (z_score n) ele score rnd = Some (zsl', x, rnd') ∧
    zsl_rep zsl' R' ∧ dict_rep (<[ele := x]> d) R' ∧ ksorted (rkeys R') ∧
    kmap (rkeys R') = <[ele := score]> (kmap (rkeys R)).
Proof.
  intros He Hn Hnan.
  destruct (dict_rep_Some _ _ _ _ _ HR Hd He) as (Lo & r & Hi & n' & HLH & <- & <- & Hn' & Hsc).
  simplify_eq. rewrite Hsc.
  destruct (ksorted_node _ _ _ Hs) as (_ & _ & _ & _ & Hr).
  destruct (zslUpdateScore_spec zsl Lo r Hi score rnd HR Hs Hnan)
    as (zsl' & x & h & rnd' & Lo' & Hi' & -> & HLH & HR' & Hs').
  eexists zsl', x, rnd', _. split_and!; [done|exact HR'| |done|].
  - rewrite <- insert_delete_eq. apply (dict_rep_insert _ _ (mkRnode x h score (rn_ele r))); rewrite <- HLH.
    + by apply dict_rep_remove.
    + done.
  - rewrite (rkeys_middle Lo'), <- HLH, (rkeys_middle Lo) by (rewrite <- ?HLH; done).
    by rewrite insert_insert_eq.
Qed.

Lemma zset_delete_node ele l n :
  d !! ele = Some l → z_nodes zsl !! l = Some n →
  ∃ zsl' R', zslDelete zsl (z_score n) ele = Some (zsl', true) ∧
    zsl_rep zsl' R' ∧ dict_rep (delete ele d) R' ∧ ksorted (rkeys R') ∧
    kmap (rkeys R') = delete ele (kmap (rkeys R)).
Proof.
  intros He Hn.
  destruct (dict_rep_Some _ _ _ _ _ HR Hd He) as (Lo & r & Hi & n' & HLH & <- & <- & Hn' & Hsc).
  simplify_eq. rewrite Hsc.
  destruct (ksorted_node _ _ _ Hs) as (Hnan & HLo & HHi & Hs' & Hr).
  destruct (zslDelete_spec zsl Lo r Hi HR Hnan HLo HHi) as (zsl' & -> & HR').
  eexists zsl', _. split_and!; [done|exact HR'|by apply dict_rep_remove|done|by apply rkeys_remove].
Qed.
End skiplist_objects.

(** ** Conversion between the encodings *)

Lemma zset_load_rep zl d zsl R rnd :
  zsl_rep zsl R → dict_rep d R → ksorted (rkeys R) →
  Forall (λ p, isnan p.2 = false) zl → NoDup (fst <$> zl) → (∀ e, e ∈ fst <$> zl → d !! e = None) →
  ∃ d' zsl' rnd' R', zset_load zl (mkZset d zsl) rnd = Some (mkZset d' zsl', rnd') ∧
    zsl_rep zsl' R' ∧ dict_rep d' R' ∧ ksorted (rkeys R') ∧
    kmap (rkeys R') = list_to_map zl ∪ kmap (rkeys R).
Proof.
  revert d zsl R rnd. induction zl as [|[ele score] zl IH]; intros d zsl R rnd HR Hd Hs Hn Hnd Hnew.
  { exists d, zsl, rnd, R. split_and!; try done. simpl. by rewrite (left_id_L ∅ (∪)). }
  apply Forall_cons in Hn as [Hsc Hn]. rewrite fmap_cons in Hnd, Hnew. apply NoDup_cons in Hnd as [He Hnd].
  simpl in *.
  destruct (zset_insert_new d zsl R HR Hd Hs score ele rnd) as (zsl1 & x & rnd1 & R1 & -> & Ha & HR1 & Hd1 & Hs1 & Hm1);
    [apply Hnew; by left|done|]. simpl. rewrite Ha. simpl.
  destruct (IH _ zsl1 R1 rnd1 HR1 Hd1 Hs1 Hn Hnd) as (d' & zsl' & rnd' & R' & Hl & HR' & Hd' & Hs' & Hm').
  { intros e Hin. rewrite lookup_insert_ne by set_solver. apply Hnew. by right. }
  exists d', zsl', rnd', R'. split_and!; try done. rewrite Hm', Hm1.
  rewrite <- insert_union_r by (by apply not_elem_of_list_to_map_1). apply insert_union_l.
Qed.

Lemma kmap_zkey zl : kmap (zkey <$> zl) = list_to_map zl.
Proof.
  unfold kmap. rewrite <- list_fmap_compose. f_equal. rewrite <- (list_fmap_id zl) at 2.
  apply list_fmap_ext. by intros ? [].
Qed.

Lemma zsetConvert_skiplist zl rnd :
  zl ≠ [] → ksorted (zkey <$> zl) →
  ∃ z rnd', zsetConvert (ZZiplist zl) OBJ_ENCODING_SKIPLIST rnd = Some (z, rnd') ∧
    zset_list z (zkey <$> zl).
Proof.
  intros Hne HK. simpl. rewrite decide_False by done.
  destruct (zset_load_rep zl ∅ zslCreate [] rnd) as (d & zsl & rnd' & R & -> & HR & Hd & Hs & Hm).
  - apply zslCreate_rep.
  - intros e l. rewrite lookup_empty. split; [done|]. intros (r & ?%elem_of_nil & _). done.
  - apply ksorted_nil.
  - destruct HK as (_ & Hn & _). by rewrite Forall_fmap in Hn.
  - destruct HK as (_ & _ & Hnd). by rewrite <- list_fmap_compose in Hnd.
  - intros. apply lookup_empty.
  - simpl. eexists _, _. split; [done|].
    replace (zkey <$> zl) with (rkeys R); [by constructor|].
    apply kmap_inj; [done..|]. rewrite Hm, kmap_zkey. apply (right_id_L (∅ : gmap sds double) (∪)).
Qed.

(** The bottom level visits the nodes in order. *)
Lemma zsl_chain_rep zsl R A B fuel :
  zsl_rep zsl R → R = A ++ B → (length B ≤ fuel)%nat →
  zsl_chain fuel zsl (rn_loc <$> head B) = Some (rn_loc <$> B).
Proof.
  intros HR. revert A fuel. induction B as [|r B IH]; intros A fuel HAB Hf; [by destruct fuel|].
  destruct fuel as [|fuel]; [simpl in Hf; lia|]. simpl.
  destruct (proj1 (node_data_node _ _ _) (rep_data _ _ HR A r B HAB)) as (n & Hn & _). rewrite Hn. simpl.
  pose proof (rep_height _ _ HR) as Hh. rewrite HAB, Forall_app, Forall_cons in Hh. destruct Hh as (_ & Hhr & HhB).
  pose proof (rep_levels _ _ HR (A ++ [r]) B 0%nat) as Hg. rewrite <- app_assoc in Hg. unfold ptr, has_level in Hg.
  rewrite last_snoc in Hg. specialize (Hg HAB ltac:(lia)). unfold get_level in Hg. simpl in Hg.
  rewrite Hn in Hg. simpl in Hg. rewrite Hg. simpl.
  assert (forward (lvl 0 B) = rn_loc <$> head B) as ->.
  { destruct B as [|y B']; [done|]. apply Forall_cons in HhB as [? _]. by rewrite lvl_tall by lia. }
  rewrite (IH (A ++ [r])); [done|by rewrite <- app_assoc|simpl in Hf; lia].
Qed.

Lemma rep_nodes zsl R A B :
  zsl_rep zsl R → R = A ++ B →
  ∃ ns, mapM (λ l, z_nodes zsl !! l) (rn_loc <$> B) = Some ns ∧
    (λ n, (z_ele n, z_score n)) <$> ns = (λ r, (rn_ele r, rn_score r)) <$> B.
Proof.
  intros HR. revert A. induction B as [|r B IH]; intros A HAB; [by exists []|].
  destruct (IH (A ++ [r])) as (ns & Hns & Heq); [by rewrite <- app_assoc|].
  destruct (proj1 (node_data_node _ _ _) (rep_data _ _ HR A r B HAB)) as (n & Hn & He & Hs & _).
  exists (n :: ns). rewrite mapM_Some in *. split; [by constructor|]. by rewrite !fmap_cons, Heq, He, Hs.
Qed.

Lemma zsetConvert_list z K enc rnd :
  zset_list z K → ksorted K → (z = ZZiplist [] → enc = OBJ_ENCODING_ZIPLIST) →
  ∃ z' rnd', zsetConvert z enc rnd = Some (z', rnd') ∧ zset_list z' K.
Proof.
  intros HzK HK Hne. destruct HzK as [zl|d zsl R HR Hd], enc.
  - eexists _, _. split; [done|constructor].
  - apply zsetConvert_skiplist; [|done]. intros ->. by specialize (Hne eq_refl).
  - simpl. pose proof (rep_levels _ _ HR [] R 0%nat eq_refl) as Hg. unfold has_level, ptr in Hg. simpl in Hg.
    pose proof (rep_lv _ _ HR). specialize (Hg ltac:(lia)). unfold get_level in Hg. simpl in Hg. rewrite Hg. simpl.
    pose proof (rep_height _ _ HR) as Hh.
    assert (forward (lvl 0 R) = rn_loc <$> head R) as ->.
    { destruct R as [|y B']; [done|]. apply Forall_cons in Hh as [? _]. by rewrite lvl_tall by lia. }
    rewrite (zsl_chain_rep zsl R [] R) by (done || by apply rep_size). simpl.
    destruct (rep_nodes zsl R [] R HR eq_refl) as (ns & -> & Hns). simpl.
    eexists _, _. split; [done|]. rewrite Hns.
    replace (rkeys R) with (zkey <$> ((λ r, (rn_ele r, rn_score r)) <$> R)); [constructor|].
    by rewrite <- list_fmap_compose.
  - eexists _, _. split; [done|by constructor].
Qed.

(** ** The operations *)

(** The encoding of a result of [zsetConvert]. *)
Definition has_encoding (z : zobj) (enc : encoding) : Prop :=
  match z, enc with
  | ZZiplist _, OBJ_ENCODING_ZIPLIST | ZSkiplist _, OBJ_ENCODING_SKIPLIST => True
  | _, _ => False
  end.

Lemma zsetConvert_encoding z enc rnd z' rnd' :
  zsetConvert z enc rnd = Some (z', rnd') → has_encoding z' enc.
Proof.
  destruct z as [zl|zs], enc; simpl; try (by intros [= <- <-]).
  - case_decide; [done|]. destruct (zset_load _ _ _) as [[zs r]|]; [|done]. by intros [= <- <-].
  - destruct (z_header _ !! _); [|done]. simpl. destruct (zsl_chain _ _ _); [|done]. simpl.
    destruct (mapM _ _); [|done]. by intros [= <- <-].
Qed.

Lemma zsetConvert_spec z m enc rnd :
  zset_rep z m → (m = ∅ → enc = OBJ_ENCODING_ZIPLIST ∨ ∃ zs, z = ZSkiplist zs) →
  ∃ z' rnd', zsetConvert z enc rnd = Some (z', rnd') ∧ zset_rep z' m.
Proof.
  intros (K & Hl & HK & <-) Hne.
  destruct (zsetConvert_list z K enc rnd Hl HK) as (z' & rnd' & Hc & Hl').
  - intros ->. inversion Hl; simplify_eq. destruct Hne as [|[]]; done.
  - exists z', rnd'. split; [done|]. by exists K.
Qed.

Lemma zsetScore_spec z m member : zset_rep z m → zsetScore z member = Some (m !! member).
Proof.
  intros (K & Hl & HK & <-). destruct Hl as [zl|d zsl R HR Hd]; simpl.
  - by rewrite find_pair_map.
  - pose proof (zset_dict_lookup d zsl R member HR Hd HK) as H.
    destruct (d !! member); [|by rewrite H]. by destruct H as (n & -> & ->).
Qed.

Lemma zsetLength_spec z m : zset_rep z m → zsetLength z = Z.of_nat (size m).
Proof.
  intros (K & Hl & HK & <-). rewrite size_kmap by apply HK. destruct Hl as [zl|d zsl R HR Hd]; simpl.
  - unfold count_pairs. by rewrite length_fmap.
  - rewrite length_fmap. apply HR.
Qed.

Lemma zset_last_list z K : zset_list z K → zset_last z = (λ k, (k.2, k.1)) <$> last K.
Proof.
  destruct 1 as [zl|d zsl R HR Hd]; simpl; rewrite fmap_last; [by destruct (last zl) as [[]|]|].
  rewrite (rep_tail _ _ HR). destruct (last R) as [r|] eqn:Hr; [|done]. simpl. apply last_Some in Hr as [A ->].
  destruct (proj1 (node_data_node _ _ _) (rep_data _ _ HR A r [] eq_refl)) as (n & -> & He & Hs & _).
  simpl. by rewrite He, Hs.
Qed.

Lemma zset_last_spec z m :
  zset_rep z m →
  match zset_last z with
  | Some p => m !! p.1 = Some p.2 ∧ ∀ e s, m !! e = Some s → e ≠ p.1 → plt (s, e) (p.2, p.1)
  | None => m = ∅
  end.
Proof.
  intros (K & Hl & HK & <-). rewrite (zset_last_list z K Hl).
  destruct (last K) as [[s e]|] eqn:Hk; simpl.
  - split; [|by apply (ksorted_last K (s, e))]. apply kmap_lookup; [apply HK|]. by apply last_Some_elem_of.
  - by apply last_None in Hk as ->.
Qed.

Lemma zsetDel_spec z m ele :
  zset_rep z m →
  ∃ z', zsetDel z ele = Some (z', bool_decide (is_Some (m !! ele))) ∧ zset_rep z' (delete ele m).
Proof.
  intros (K & Hl & HK & <-). destruct Hl as [zl|d zsl R HR Hd]; simpl.
  - destruct (find_pair zl ele) as [[i s]|] eqn:Hf.
    + destruct (delete_pair_sorted zl ele i s HK Hf) as (-> & Hs & _ & Hm). eexists. split; [done|].
      eexists. split; [constructor|done].
    + apply find_pair_None, kmap_lookup_None in Hf. rewrite Hf. eexists. split; [done|].
      rewrite delete_id by done. eexists. split; [constructor|done].
  - pose proof (zset_dict_lookup d zsl R ele HR Hd HK) as H. destruct (d !! ele) as [l|] eqn:He.
    + destruct H as (n & Hn & ->). rewrite Hn. simpl.
      destruct (zset_delete_node d zsl R HR Hd HK ele l n He Hn) as (zsl' & R' & -> & HR' & Hd' & Hs' & Hm').
      simpl. eexists. split; [done|]. exists (rkeys R'). split; [by constructor|done].
    + rewrite H. eexists. split; [done|]. rewrite delete_id by done. exists (rkeys R). split; [by constructor|done].
Qed.

(** A result of [zsetAdd] agrees with one of [zmap_add]. *)
Definition zadd_agrees (o : option zadd_result) (a : gmap sds double * bool * Z) : Prop :=
  ∃ r, o = Some r ∧ zset_rep (za_obj r) a.1.1 ∧ za_ret r = a.1.2 ∧ za_flags r = a.2.

Lemma zsetAdd_ziplist conf zl score ele flags rnd :
  ksorted (zkey <$> zl) →
  zadd_agrees (zsetAdd conf (ZZiplist zl) score ele flags rnd)
    (zmap_add (kmap (zkey <$> zl)) score ele flags).
Proof.
  intros HK. assert (zset_rep (ZZiplist zl) (kmap (zkey <$> zl))) as Hid by (eexists; split; [constructor|done]).
  unfold zsetAdd, zmap_add. destruct (isnan score) eqn:Hn; [by eexists|].
  set (incr := negb (Z.land flags ZADD_INCR =? 0)). rewrite <- find_pair_map by done.
  destruct (find_pair zl ele) as [[i cur]|] eqn:Hf; cbn [fmap option_fmap option_map snd].
  - destruct (negb (Z.land flags ZADD_NX =? 0)); [by eexists|].
    set (sc := if incr then dadd score cur else score).
    replace (incr && isnan sc) with (isnan sc) by (unfold sc; by destruct incr).
    destruct (isnan sc) eqn:Hsc; [by eexists|]. destruct (deqb sc cur); [by eexists|]. simpl.
    destruct (delete_pair_sorted zl ele i cur HK Hf) as (_ & HK' & Hnew & Hm).
    destruct (insert_pair_sorted _ ele sc HK' Hsc Hnew) as [Hs Hm'].
    eexists. split; [done|]. split; [|done]. eexists. split; [constructor|]. split; [done|].
    by rewrite Hm', Hm, insert_delete_eq.
  - destruct (negb (Z.land flags ZADD_XX =? 0)); [by eexists|]. apply find_pair_None in Hf.
    destruct (insert_pair_sorted _ ele score HK Hn Hf) as [Hs Hm].
    assert (zset_rep (ZZiplist (insert_pair zl ele score)) (<[ele := score]> (kmap (zkey <$> zl)))) as Hrep
      by (eexists; split; [constructor|done]).
    destruct (_ || _); [|by eexists].
    destruct (zsetConvert_spec _ _ OBJ_ENCODING_SKIPLIST rnd Hrep) as (z' & rnd' & Hc & Hz').
    { intros H. by apply insert_non_empty in H. }
    rewrite Hc. by eexists.
Qed.

Lemma zsetAdd_skiplist conf d zsl R score ele flags rnd :
  zsl_rep zsl R → dict_rep d R → ksorted (rkeys R) →
  zadd_agrees (zsetAdd conf (ZSkiplist (mkZset d zsl)) score ele flags rnd)
    (zmap_add (kmap (rkeys R)) score ele flags).
Proof.
  intros HR Hd HK. assert (zset_rep (ZSkiplist (mkZset d zsl)) (kmap (rkeys R))) as Hid
    by (eexists; split; [by constructor|done]).
  unfold zsetAdd, zmap_add. destruct (isnan score) eqn:Hn; [by eexists|].
  set (incr := negb (Z.land flags ZADD_INCR =? 0)). simpl z_dict. simpl z_zsl.
  pose proof (zset_dict_lookup d zsl R ele HR Hd HK) as H. destruct (d !! ele) as [l|] eqn:He.
  - destruct H as (n & Hl & ->). destruct (negb (Z.land flags ZADD_NX =? 0)); [by eexists|].
    rewrite Hl. simpl. set (sc := if incr then dadd score (z_score n) else score).
    replace (incr && isnan sc) with (isnan sc) by (unfold sc; by destruct incr).
    destruct (isnan sc) eqn:Hsc; [by eexists|]. destruct (deqb sc (z_score n)); [by eexists|]. simpl.
    destruct (zset_update_score d zsl R HR Hd HK sc ele l n rnd He Hl Hsc)
      as (zsl' & x & rnd' & R' & -> & HR' & Hd' & Hs' & Hm').
    eexists. split; [done|]. split; [|done]. exists (rkeys R'). split; [by constructor|done].
  - rewrite H. destruct (negb (Z.land flags ZADD_XX =? 0)); [by eexists|].
    destruct (zset_insert_new d zsl R HR Hd HK score ele rnd He Hn)
      as (zsl' & x & rnd' & R' & -> & Ha & HR' & Hd' & Hs' & Hm'). simpl. rewrite Ha.
    eexists. split; [done|]. split; [|done]. exists (rkeys R'). split; [by constructor|done].
Qed.

Lemma zsetAdd_spec conf z m score ele flags rnd :
  zset_rep z m →
  zadd_agrees (zsetAdd conf z score ele flags rnd) (zmap_add m score ele flags).
Proof.
  intros (K & Hl & HK & <-). destruct Hl as [zl|d zsl R HR Hd];
    [by apply zsetAdd_ziplist|by apply zsetAdd_skiplist].
Qed.

(** ** Lookups after an addition *)

Lemma zmap_add_eq m score ele :
  isnan score = false →
  ∃ s, (zmap_add m score ele ZADD_NONE).1.1 !! ele = Some s ∧ dkey s = dkey score.
Proof.
  intros Hn. unfold zmap_add. rewrite Hn. simpl. destruct (m !! ele) as [cur|] eqn:Hc; simpl.
  - rewrite Hn. destruct (deqb score cur) eqn:He; simpl.
    + exists cur. split; [done|]. symmetry. apply deqb_key; [done| |done]. unfold deqb in He.
      destruct cur; simpl; try done. by destruct score.
    + exists score. by rewrite lookup_insert_eq.
  - exists score. by rewrite lookup_insert_eq.
Qed.

Lemma zmap_add_ne m score ele flags e :
  e ≠ ele → (zmap_add m score ele flags).1.1 !! e = m !! e.
Proof.
  intros Hne. unfold zmap_add. repeat case_match; simplify_eq/=; try done; by rewrite lookup_insert_ne.
Qed.
