(* ===== verification/Zzl.v ===== *)
(** * Sorted sets in a ziplist (src/t_zset.c)

    [Zset] has a small sorted set as the list of its members and scores.  Here
    is the code as it is: the members and the texts of the scores alternate in
    a ziplist, every score is printed with [d2string] when it is stored and
    parsed when it is read, a member that looks like an integer is kept as one,
    and pointers are offsets into the block of bytes.  The branches of a skip
    list are those of [Zset].  [None] is a failed assertion or an access outside
    the block. *)

From Stdlib Require Import Ascii.
From S2P Require Import Prelude.
From S2P Require Import Sds.
From S2P Require Import Util.
From S2P Require Import Double.
From S2P Require Import ScoreText.
From S2P Require Import Ziplist.
From S2P Require Import Skiplist.
From S2P Require Import Zset.

#[local] Open Scope Z_scope.

(** The bytes that the allocator and the stack hold. *)
Record zzl_env := mkZzlEnv { heap_junk : Z; stack_chars : list ascii }.

(** [encoding] and [ptr] of the object. *)
Inductive zset_obj :=
  | ObjZiplist (zl : list Z)
  | ObjSkiplist (zs : zset).

(** [memcmp] of two blocks of the same length. *)
Fixpoint memcmp (a b : list Z) : Z :=
  match a, b with
  | x :: a', y :: b' => if x =? y then memcmp a' b' else x - y
  | _, _ => 0
  end.

Section zzl.
Context (env : zzl_env).
Notation scorebuf := (take 128 (stack_chars env)).
Notation vbuf := (take 32 (stack_chars env)).
Notation llstr := (take SDS_LLSTR_SIZE (stack_chars env)).

(** ** Entries *)

(** [strtod(buf, NULL)] after [buf[vlen] = 0] in 128 characters. *)
Definition zzlGetScore (zl : list Z) (sptr : option Z) : option double :=
  v ← ziplistGet zl sptr;
  v ← v;
  match v with
  | ZlStr vstr =>
      if Z.of_nat (length vstr) <? 128
      then Some (match strtod 53 1024 (bytes_sds vstr) with Some (score, _, _) => score | None => d0 end)
      else None
  | ZlInt vlong => Some (dofZ vlong)
  end.

Definition ziplistGetObject (zl : list Z) (sptr : option Z) : option sds :=
  v ← ziplistGet zl sptr;
  v ← v;
  match v with
  | ZlStr vstr => Some (bytes_sds vstr)
  | ZlInt vlong => sdsfromlonglong llstr vlong
  end.

(** The lengths are [unsigned int], their difference is returned as [int]. *)
Definition zzlCompareElements (zl : list Z) (eptr : Z) (cstr : sds) : option Z :=
  v ← ziplistGet zl (Some eptr);
  v ← v;
  vstr ← match v with
         | ZlStr vstr => Some vstr
         | ZlInt vlong => '(buf, vlen) ← ll2string vbuf vlong; Some (sds_bytes (sds_of (take (Z.to_nat vlen) buf)))
         end;
  let vlen := Z.of_nat (length vstr) in
  let clen := sdslen cstr in
  let minlen := Z.to_nat (if vlen <? clen then vlen else clen) in
  let cmp := memcmp (take minlen vstr) (take minlen (sds_bytes cstr)) in
  Some (if cmp =? 0 then wrap32 (vlen - clen) else cmp).

(** [ziplistLen] may write the length into the header. *)
Definition zzlLength (zl : list Z) : option (list Z * Z) :=
  '(zl, n) ← ziplistLen zl; Some (zl, n / 2).

Definition zzlNext (zl : list Z) (sptr : Z) : option (option (Z * Z)) :=
  eptr ← ziplistNext zl sptr;
  match eptr with
  | None => Some None
  | Some eptr => sptr ← ziplistNext zl eptr; sptr ← sptr; Some (Some (eptr, sptr))
  end.

(** ** Search and change *)

(** [want]: the caller passes a place for the score.  Every round reads two
    entries, so the length of the block bounds the number of rounds. *)
Fixpoint zzlFind_loop (fuel : nat) (zl : list Z) (eptr : option Z) (ele : sds) (want : bool) : option (option (Z * option double)) :=
  match eptr with
  | None => Some None
  | Some eptr =>
      match fuel with
      | O => None
      | S fuel' =>
          sptr ← ziplistNext zl eptr;
          sptr ← sptr;
          eq ← ziplistCompare zl eptr ele;
          if (eq : bool) then
            if want then score ← zzlGetScore zl (Some sptr); Some (Some (eptr, Some score))
            else Some (Some (eptr, None))
          else next ← ziplistNext zl sptr; zzlFind_loop fuel' zl next ele want
      end
  end.

Definition zzlFind (zl : list Z) (ele : sds) (want : bool) : option (option (Z * option double)) :=
  eptr ← ziplistIndex zl 0; zzlFind_loop (length zl) zl eptr ele want.

Definition zzlDelete (zl : list Z) (eptr : Z) : option (list Z) :=
  '(zl, p) ← ziplistDelete (heap_junk env) zl eptr;
  '(zl, p) ← ziplistDelete (heap_junk env) zl p;
  Some zl.

Definition zzlInsertAt (zl : list Z) (eptr : option Z) (ele : sds) (score : double) : option (list Z) :=
  scorestr ← d2string scorebuf score;
  match eptr with
  | None =>
      zl ← ziplistPush (heap_junk env) zl ele ZIPLIST_TAIL;
      ziplistPush (heap_junk env) zl scorestr ZIPLIST_TAIL
  | Some eptr =>
      zl ← ziplistInsert (heap_junk env) zl eptr ele;
      sptr ← ziplistNext zl eptr;
      sptr ← sptr;
      ziplistInsert (heap_junk env) zl sptr scorestr
  end.

Fixpoint zzlInsert_loop (fuel : nat) (zl : list Z) (eptr : option Z) (ele : sds) (score : double) : option (list Z) :=
  match eptr with
  | None => zzlInsertAt zl None ele score
  | Some eptr =>
      match fuel with
      | O => None
      | S fuel' =>
          sptr ← ziplistNext zl eptr;
          sptr ← sptr;
          s ← zzlGetScore zl (Some sptr);
          if dltb score s then zzlInsertAt zl (Some eptr) ele score
          else
            cmp ← (if deqb s score then zzlCompareElements zl eptr ele else Some 0);
            if 0 <? cmp then zzlInsertAt zl (Some eptr) ele score
            else next ← ziplistNext zl sptr; zzlInsert_loop fuel' zl next ele score
      end
  end.

Definition zzlInsert (zl : list Z) (ele : sds) (score : double) : option (list Z) :=
  eptr ← ziplistIndex zl 0; zzlInsert_loop (length zl) zl eptr ele score.

(** ** Objects *)

Definition createZsetZiplistObject : option zset_obj := zl ← ziplistNew (heap_junk env); Some (ObjZiplist zl).
Definition createZsetObject : zset_obj := ObjSkiplist (mkZset ∅ zslCreate).

Definition zsetLength (o : zset_obj) : option (zset_obj * Z) :=
  match o with
  | ObjZiplist zl => '(zl, n) ← zzlLength zl; Some (ObjZiplist zl, n)
  | ObjSkiplist zs => Some (o, z_length (z_zsl zs))
  end.

(** The loop of [zsetConvert] over a ziplist. *)
Fixpoint convert_loop (fuel : nat) (zl : list Z) (ptrs : option (Z * Z)) (zs : zset) (rnd : list Z) : option (zset * list Z) :=
  match ptrs with
  | None => Some (zs, rnd)
  | Some (eptr, sptr) =>
      match fuel with
      | O => None
      | S fuel' =>
          score ← zzlGetScore zl (Some sptr);
          ele ← ziplistGetObject zl (Some eptr);
          '(zsl, node, rnd) ← zslInsert (z_zsl zs) score ele rnd;
          d ← dictAdd (z_dict zs) ele node;
          next ← zzlNext zl sptr;
          convert_loop fuel' zl next (mkZset d zsl) rnd
      end
  end.

(** The loop over the nodes of a skip list. *)
Fixpoint dump_nodes (zl : list Z) (ns : list zskiplistNode) : option (list Z) :=
  match ns with
  | [] => Some zl
  | n :: ns => zl ← zzlInsertAt zl None (z_ele n) (z_score n); dump_nodes zl ns
  end.

Definition zsetConvert (o : zset_obj) (enc : encoding) (rnd : list Z) : option (zset_obj * list Z) :=
  match o, enc with
  | ObjZiplist _, OBJ_ENCODING_ZIPLIST => Some (o, rnd)
  | ObjSkiplist _, OBJ_ENCODING_SKIPLIST => Some (o, rnd)
  | ObjZiplist zl, OBJ_ENCODING_SKIPLIST =>
      eptr ← ziplistIndex zl 0;
      eptr ← eptr;
      sptr ← ziplistNext zl eptr;
      sptr ← sptr;
      '(zs, rnd) ← convert_loop (length zl) zl (Some (eptr, sptr)) (mkZset ∅ zslCreate) rnd;
      Some (ObjSkiplist zs, rnd)
  | ObjSkiplist zs, OBJ_ENCODING_ZIPLIST =>
      zl ← ziplistNew (heap_junk env);
      h ← z_header (z_zsl zs) !! 0%nat;
      ls ← zsl_chain (size (z_nodes (z_zsl zs))) (z_zsl zs) (forward h);
      ns ← mapM (λ l, z_nodes (z_zsl zs) !! l) ls;
      zl ← dump_nodes zl ns;
      Some (ObjZiplist zl, rnd)
  end.

(** [None]: fault; [Some None]: [C_ERR], no such member. *)
Definition zsetScore (o : zset_obj) (member : sds) : option (option double) :=
  match o with
  | ObjZiplist zl => r ← zzlFind zl member true; Some (match r with Some (_, score) => score | None => None end)
  | ObjSkiplist zs => Zset.zsetScore (ZSkiplist zs) member
  end.

(** The skip list that [Zset] leaves. *)
Definition of_zobj (z : zobj) : option zset_obj :=
  match z with ZSkiplist zs => Some (ObjSkiplist zs) | ZZiplist _ => None end.

(** What a call leaves behind: the object, the return value, the output flags
    and the random numbers not yet drawn. *)
Definition zadd_out : Type := zset_obj * bool * Z * list Z.

Definition zsetAdd (conf : zconf) (o : zset_obj) (score : double) (ele : sds) (flags : Z) (rnd : list Z) : option zadd_out :=
  let incr := negb (Z.land flags ZADD_INCR =? 0) in
  let nx := negb (Z.land flags ZADD_NX =? 0) in
  let xx := negb (Z.land flags ZADD_XX =? 0) in
  if isnan score then Some (o, false, ZADD_NAN, rnd)
  else
    match o with
    | ObjZiplist zl =>
        r ← zzlFind zl ele true;
        match r with
        | Some (eptr, curscore) =>
            curscore ← curscore;
            if nx then Some (o, true, ZADD_NOP, rnd)
            else
              let score := if incr then dadd score curscore else score in
              if incr && isnan score then Some (o, false, ZADD_NAN, rnd)
              else if negb (deqb score curscore) then
                zl ← zzlDelete zl eptr;
                zl ← zzlInsert zl ele score;
                Some (ObjZiplist zl, true, ZADD_UPDATED, rnd)
              else Some (o, true, 0, rnd)
        | None =>
            if xx then Some (o, true, ZADD_NOP, rnd)
            else
              zl ← zzlInsert zl ele score;
              '(zl, n) ← zzlLength zl;
              if (zset_max_ziplist_entries conf <? n) || (zset_max_ziplist_value conf <? sdslen ele) then
                '(o, rnd) ← zsetConvert (ObjZiplist zl) OBJ_ENCODING_SKIPLIST rnd;
                Some (o, true, ZADD_ADDED, rnd)
              else Some (ObjZiplist zl, true, ZADD_ADDED, rnd)
        end
    | ObjSkiplist zs =>
        r ← Zset.zsetAdd conf (ZSkiplist zs) score ele flags rnd;
        o ← of_zobj (za_obj r);
        Some (o, za_ret r, za_flags r, za_rnd r)
    end.

Definition zsetDel (o : zset_obj) (ele : sds) : option (zset_obj * bool) :=
  match o with
  | ObjZiplist zl =>
      r ← zzlFind zl ele false;
      match r with
      | Some (eptr, _) => zl ← zzlDelete zl eptr; Some (ObjZiplist zl, true)
      | None => Some (o, false)
      end
  | ObjSkiplist zs =>
      '(z, ret) ← Zset.zsetDel (ZSkiplist zs) ele;
      o ← of_zobj z;
      Some (o, ret)
  end.

(** The greatest pair, as [ozmax], [rzmax] and [rwfzmax] read it. *)
Definition zset_max (o : zset_obj) : option (sds * double) :=
  match o with
  | ObjZiplist zl =>
      eptr ← ziplistIndex zl (-2);
      eptr ← eptr;
      sptr ← ziplistNext zl eptr;
      ele ← ziplistGetObject zl (Some eptr);
      score ← zzlGetScore zl sptr;
      Some (ele, score)
  | ObjSkiplist zs => zset_last (ZSkiplist zs)
  end.
End zzl.
