(* ===== verification/ZzlRep.v ===== *)
(** * The ziplist of a sorted set holds the pairs of [Zset]

    [zzl_rep zl l]: the block [zl] holds the members of the list [l] and texts
    that are read as their scores.  The functions of [Zzl] do on the bytes what
    those of [Zset] do on the list, so that [Zset] may be used in their place;
    [zset_refines_map] is about the bytes. *)

From Stdlib Require Import Ascii SpecFloat.
From S2P Require Import Prelude.
From S2P Require Import Sds.
From S2P Require Import Util.
From S2P Require Import Double.
From S2P Require Import ScoreText.
From S2P Require Import Ziplist.
From S2P Require Import ZiplistRep.
From S2P Require Import ZiplistInsert.
From S2P Require Import ZiplistList.
From S2P Require Import HashRep.
From S2P Require Import Entries.
From S2P Require Import Skiplist.
From S2P Require Import Zset.
From S2P Require Import ZsetRep.
From S2P Require Import Zzl.

#[local] Open Scope Z_scope.

(** ** Representation *)

Definition valid (x : double) : Prop := valid_binary 53 1024 x = true.

(** Members are shorter than 2^31 bytes: their lengths are compared as [int]. *)
Definition short (e : sds) : Prop := Z.of_nat (String.length e) < 2 ^ 31.

Definition pair_text (kv : sds * sds) (p : sds * double) : Prop :=
  kv.1 = p.1 ∧ reads_as kv.2 p.2 ∧ (String.length kv.2 < 32)%nat ∧ valid p.2 ∧ short p.1.

(** What a pair needs at most, and the block. *)
Definition pair_bytes (e : sds) : Z := Z.of_nat (String.length e) + 57.

Fixpoint pairs_bytes (l : list (sds * double)) : Z :=
  match l with [] => 11 | p :: l => pair_bytes p.1 + pairs_bytes l end.

Definition zzl_rep (zl : list Z) (l : list (sds * double)) : Prop :=
  ∃ kvs, zl_rep zl (flatten kvs) ∧ Forall2 pair_text kvs l.

Lemma weight_pairs kvs l : Forall2 pair_text kvs l → weight (flatten kvs) ≤ pairs_bytes l.
Proof.
  induction 1 as [|kv p kvs l (H1 & _ & H2 & _) _ IH]; [done|]. rewrite flatten_cons. simpl. unfold pair_bytes. rewrite H1. lia.
Qed.

Lemma pairs_bytes_app l1 l2 : pairs_bytes (l1 ++ l2) = pairs_bytes l1 + pairs_bytes l2 - 11.
Proof. induction l1 as [|p l1 IH]; simpl; lia. Qed.

Lemma pairs_bytes_ge l : 11 ≤ pairs_bytes l.
Proof. induction l as [|p l IH]; simpl; [done|]. unfold pair_bytes. lia. Qed.

(** ** Cursors *)

(** [p] is the address of the member number [i]; a null pointer is the end. *)
Definition zzl_at (zl : list Z) (kvs : list (sds * sds)) (i : nat) (p : option Z) : Prop :=
  if decide (i < length kvs)%nat then ∃ q, p = Some q ∧ zl_at zl (flatten kvs) (2 * i) q else p = None.

Lemma zzl_first zl kvs : zl_rep zl (flatten kvs) → ∃ p, ziplistIndex zl 0 = Some p ∧ zzl_at zl kvs 0 p.
Proof.
  intros Hrep. destruct (ziplistIndex_spec zl _ 0 Hrep) as (r & -> & Hr); [done|]. exists r. split; [done|]. unfold zzl_at.
  destruct kvs as [|kv kvs]; [by rewrite decide_False by (simpl; lia)|]. rewrite decide_True by (simpl; lia).
  assert (list_index (length (flatten (kv :: kvs))) 0 = Some 0%nat) as Hi by (rewrite flatten_cons; unfold list_index; done).
  by rewrite Hi in Hr.
Qed.

Lemma zzl_at_step zl kvs i p kv : zl_at zl (flatten kvs) (2 * i) p → kvs !! i = Some kv →
  ∃ q r, ziplistNext zl p = Some (Some q) ∧ zl_at zl (flatten kvs) (S (2 * i)) q ∧
    ziplistNext zl q = Some r ∧ zzl_at zl kvs (S i) r.
Proof.
  intros Hat Hkv. apply lookup_lt_Some in Hkv as Hlt. destruct (ziplistNext_spec _ _ _ _ Hat) as (r1 & -> & Hr1).
  rewrite decide_True in Hr1 by (rewrite flatten_length; lia). destruct Hr1 as (q & -> & Hq).
  destruct (ziplistNext_spec _ _ _ _ Hq) as (r & Hr & Hr'). exists q, r. split_and!; try done. unfold zzl_at.
  rewrite flatten_length in Hr'. destruct (decide (S i < length kvs)%nat).
  - rewrite decide_True in Hr' by lia. replace (2 * S i)%nat with (S (S (2 * i))) by lia. done.
  - by rewrite decide_False in Hr' by lia.
Qed.

(** ** Entries *)

Lemma memcmp_sdscmp s t :
  let m := Z.of_nat (String.length s) in
  let n := Z.of_nat (String.length t) in
  let k := Z.to_nat (if m <? n then m else n) in
  let c := memcmp (take k (sds_bytes s)) (take k (sds_bytes t)) in
  (0 <? (if c =? 0 then m - n else c)) = (0 <? sdscmp s t).
Proof.
  revert t. induction s as [|a s IH]; intros [|b t]; [done..|]. cbv zeta in *. specialize (IH t).
  set (m := Z.of_nat (String.length s)) in *. set (n := Z.of_nat (String.length t)) in *.
  assert (Z.of_nat (String.length (String a s)) = m + 1) as -> by (simpl; lia).
  assert (Z.of_nat (String.length (String b t)) = n + 1) as -> by (simpl; lia).
  assert (Z.to_nat (if m + 1 <? n + 1 then m + 1 else n + 1) = S (Z.to_nat (if m <? n then m else n))) as ->.
  { destruct (Z.ltb_spec m n), (Z.ltb_spec (m + 1) (n + 1)); lia. }
  cbn [sds_bytes take memcmp sdscmp]. destruct (Z.eqb_spec (code a) (code b)) as [E|E].
  - replace (m + 1 - (n + 1)) with (m - n) by lia. done.
  - by rewrite (proj2 (Z.eqb_neq (code a - code b) 0)) by lia.
Qed.

Lemma getScore_at zl ss j p t x : zl_at zl ss j p → ss !! j = Some t → reads_as t x → (String.length t < 32)%nat →
  zzlGetScore zl (Some p) = Some x.
Proof.
  intros Hat Hj [[b Hs] Hint] Hlen. unfold zzlGetScore. destruct (ziplistGet_spec _ _ _ _ Hat) as (r & -> & Hr). rewrite Hj in Hr.
  destruct Hr as (v & -> & Hv). obind. destruct v as [bs|z]; simpl in Hv.
  - subst bs. rewrite length_sds_bytes, (proj2 (Z.ltb_lt _ _)), bytes_sds_bytes, Hs by lia. done.
  - f_equal. apply Hint. by apply string2ll_spec.
Qed.

(** ** Search *)

Lemma find_loop_pairs fuel zl kvs l i p ele want : Forall2 pair_text kvs l → zzl_at zl kvs i p → (length kvs - i ≤ fuel)%nat →
  ∃ r, zzlFind_loop fuel zl p ele want = Some r ∧
    match find_pair (drop i l) ele with
    | Some (j, s) => ∃ q, r = Some (q, if want then Some s else None) ∧ zl_at zl (flatten kvs) (2 * (i + j)) q ∧ (i + j < length kvs)%nat
    | None => r = None
    end.
Proof.
  intros Hl. revert i p. induction fuel as [|fuel IH]; intros i p Hat Hf.
  - unfold zzl_at in Hat. rewrite decide_False in Hat by lia. subst p. exists None. split; [done|].
    rewrite drop_ge by (apply Forall2_length in Hl; lia). done.
  - apply Forall2_length in Hl as Hlen. unfold zzl_at in Hat. destruct (decide (i < length kvs)%nat) as [Hi|Hi].
    2: { subst p. exists None. split; [done|]. by rewrite drop_ge by lia. }
    destruct Hat as (q & -> & Hat). destruct (lookup_lt_is_Some_2 kvs i Hi) as [kv Hkv].
    destruct (Forall2_lookup_l _ _ _ _ _ Hl Hkv) as ([e x] & Hp & He & Ht & Hlt & _). cbn [fst snd] in *.
    destruct (zzl_at_step _ _ _ _ _ Hat Hkv) as (sp & nx & Hn1 & Hsp & Hn2 & Hat'). destruct (flatten_lookup _ _ _ Hkv) as [Hk Hv].
    cbn [zzlFind_loop]. rewrite Hn1. obind. rewrite (ziplistCompare_spec _ _ _ _ ele Hat), Hk. obind.
    rewrite (drop_S l (e, x) i Hp). cbn [find_pair]. destruct (String.eqb_spec e ele) as [->|Hne].
    + rewrite bool_decide_eq_true_2 by (by rewrite He). rewrite Nat.add_0_r.
      destruct want; [rewrite (getScore_at _ _ _ _ _ _ Hsp Hv Ht Hlt); obind|]; (eexists; split; [done|]); eauto.
    + rewrite bool_decide_eq_false_2 by (rewrite He; congruence). rewrite Hn2. obind.
      destruct (IH (S i) nx Hat') as (r & Hr & Hm); [lia|]. exists r. split; [done|]. destruct (find_pair (drop (S i) l) ele) as [[j s]|]; [|done].
      obind. by rewrite Nat.add_succ_comm in Hm.
Qed.

Lemma find_pairs zl kvs l ele want : zl_rep zl (flatten kvs) → Forall2 pair_text kvs l →
  ∃ r, Zzl.zzlFind zl ele want = Some r ∧
    match find_pair l ele with
    | Some (j, s) => ∃ q, r = Some (q, if want then Some s else None) ∧ zl_at zl (flatten kvs) (2 * j) q ∧ (j < length kvs)%nat
    | None => r = None
    end.
Proof.
  intros Hrep Hl. unfold zzlFind. destruct (zzl_first zl kvs Hrep) as (p & -> & Hat). obind.
  apply (find_loop_pairs (length zl) zl kvs l 0 p ele want Hl Hat). apply zl_rep_length in Hrep. rewrite flatten_length in Hrep. lia.
Qed.

Lemma next_pairs zl kvs i q kv : zl_at zl (flatten kvs) (S (2 * i)) q → kvs !! i = Some kv →
  ∃ r, zzlNext zl q = Some r ∧
    if decide (S i < length kvs)%nat
    then ∃ e s, r = Some (e, s) ∧ zl_at zl (flatten kvs) (2 * S i) e ∧ zl_at zl (flatten kvs) (S (2 * S i)) s
    else r = None.
Proof.
  intros Hq Hkv. unfold zzlNext. destruct (ziplistNext_spec _ _ _ _ Hq) as (r & -> & Hr). obind. rewrite flatten_length in Hr.
  destruct (decide (S i < length kvs)%nat) as [Hi|Hi].
  - rewrite decide_True in Hr by lia. destruct Hr as (e & -> & He). replace (S (S (2 * i))) with (2 * S i)%nat in He by lia.
    destruct (ziplistNext_spec _ _ _ _ He) as (r & -> & Hr). rewrite decide_True in Hr by (rewrite flatten_length; lia).
    destruct Hr as (s & -> & Hs). obind. eexists. split; [done|]. by eexists _, _.
  - rewrite decide_False in Hr by lia. subst r. by eexists.
Qed.

(** ** Changes of the list *)

Lemma flatten_take i kvs : take (2 * i) (flatten kvs) = flatten (take i kvs).
Proof.
  revert i. induction kvs as [|p kvs IH]; intros [|i]; [done| |done|]; [by rewrite take_nil|].
  rewrite flatten_cons. replace (2 * S i)%nat with (S (S (2 * i))) by lia. cbn [take]. by rewrite flatten_cons, IH.
Qed.

Lemma flatten_drop i kvs : drop (2 * i) (flatten kvs) = flatten (drop i kvs).
Proof.
  revert i. induction kvs as [|p kvs IH]; intros [|i]; [done| |done|]; [by rewrite drop_nil|].
  rewrite flatten_cons. replace (2 * S i)%nat with (S (S (2 * i))) by lia. cbn [drop]. apply IH.
Qed.

Lemma flatten_drop_odd i kvs kv : kvs !! i = Some kv → drop (S (2 * i)) (flatten kvs) = kv.2 :: flatten (drop (S i) kvs).
Proof.
  intros Hkv. replace (S (2 * i)) with (2 * i + 1)%nat by lia. rewrite <- drop_drop, flatten_drop, (drop_S _ _ _ Hkv), flatten_cons. done.
Qed.

Lemma pair_text_app kvs1 kvs2 l i kv p : Forall2 pair_text (kvs1 ++ kvs2) l → length kvs1 = i → pair_text kv p →
  Forall2 pair_text (kvs1 ++ kv :: kvs2) (take i l ++ p :: drop i l).
Proof.
  intros Hl <- Hp. apply Forall2_app_inv_l in Hl as (l1 & l2 & H1 & H2 & ->). apply Forall2_length in H1 as Hlen.
  rewrite Hlen, take_app_length, drop_app_length. apply Forall2_app; [done|by constructor].
Qed.

Lemma pairs_bytes_insert i l (p : sds * double) : pairs_bytes (take i l ++ p :: drop i l) = pairs_bytes l + pair_bytes p.1.
Proof.
  rewrite <- (take_drop i l) at 3. rewrite !pairs_bytes_app. simpl. lia.
Qed.

Section rep.
Context (env : zzl_env).
Context (Hstack : (128 ≤ length (stack_chars env))%nat).

Lemma getObject_at zl ss j p s : zl_at zl ss j p → ss !! j = Some s → ziplistGetObject env zl (Some p) = Some s.
Proof.
  intros Hat Hj. unfold ziplistGetObject. destruct (ziplistGet_spec _ _ _ _ Hat) as (r & -> & Hr). rewrite Hj in Hr.
  destruct Hr as (v & -> & Hv). obind. destruct v as [bs|z]; simpl in Hv; [subst bs; by rewrite bytes_sds_bytes|].
  destruct Hv as [Hz ->]. apply sdsfromlonglong_spec; [done|]. rewrite length_take. unfold SDS_LLSTR_SIZE. lia.
Qed.

Lemma compareElements_at zl ss j p s ele : zl_at zl ss j p → ss !! j = Some s → short s → short ele →
  ∃ c, zzlCompareElements env zl p ele = Some c ∧ (0 <? c) = (0 <? sdscmp s ele).
Proof.
  intros Hat Hj Hs He. unfold zzlCompareElements. destruct (ziplistGet_spec _ _ _ _ Hat) as (r & -> & Hr). rewrite Hj in Hr.
  destruct Hr as (v & -> & Hv). obind.
  assert (match v with
          | ZlStr vstr => Some vstr
          | ZlInt vlong => '(buf, vlen) ← ll2string (take 32 (stack_chars env)) vlong; Some (sds_bytes (sds_of (take (Z.to_nat vlen) buf)))
          end = Some (sds_bytes s)) as ->.
  { destruct v as [bs|z]; simpl in Hv; [by subst bs|]. destruct Hv as [Hz ->]. destruct (fmt_d_length z Hz) as [_ Hlen].
    destruct (ll2string_prints (take 32 (stack_chars env)) z Hz) as (rest & -> & _); [rewrite length_take; lia|]. obind.
    by rewrite Nat2Z.id, <- length_chars, take_app_length, sds_of_chars. }
  obind. eexists. split; [done|]. rewrite length_sds_bytes. unfold sdslen, short in *.
  rewrite wrap32_id by (unfold int32, INT_MIN, INT_MAX; lia). apply memcmp_sdscmp.
Qed.

(** ** Changes of the block *)

Lemma insertAt_pairs zl kvs l i p ele score : zl_rep zl (flatten kvs) → Forall2 pair_text kvs l → zzl_at zl kvs i p → (i ≤ length kvs)%nat →
  valid score → short ele → pairs_bytes l + pair_bytes ele < 2 ^ 32 →
  ∃ zl', zzlInsertAt env zl p ele score = Some zl' ∧ zzl_rep zl' (take i l ++ (ele, score) :: drop i l).
Proof.
  intros Hrep Hl Hat Hi Hs He Hw. unfold zzlInsertAt.
  destruct (d2string_spec (take 128 (stack_chars env)) score Hs) as (t & -> & Hlen & Ht); [rewrite length_take; lia|]. obind.
  assert (Forall2 pair_text (take i kvs ++ (ele, t) :: drop i kvs) (take i l ++ (ele, score) :: drop i l)) as Hl'.
  { apply pair_text_app; [by rewrite take_drop|rewrite length_take; lia|done]. }
  pose proof (weight_pairs _ _ Hl') as Hw'. rewrite pairs_bytes_insert in Hw'. cbn [fst] in Hw'.
  rewrite flatten_app, flatten_cons in Hw'. cbn [fst snd] in Hw'.
  assert (∀ zl', zl_rep zl' (flatten (take i kvs) ++ ele :: t :: flatten (drop i kvs)) → zzl_rep zl' (take i l ++ (ele, score) :: drop i l)) as Hdone.
  { intros zl' H. exists (take i kvs ++ (ele, t) :: drop i kvs). by rewrite flatten_app, flatten_cons. }
  unfold zzl_at in Hat. destruct (decide (i < length kvs)%nat) as [Hlt|Hge].
  - destruct Hat as (q & -> & Hat). unfold ziplistInsert.
    destruct (insert_at (heap_junk env) zl _ _ _ ele Hat) as (zl1 & -> & Hat1).
    { rewrite flatten_take, flatten_drop. rewrite !weight_app in *. simpl in *. lia. }
    obind. rewrite flatten_take, flatten_drop in Hat1.
    assert (length (flatten (take i kvs)) = 2 * i)%nat as HA by (rewrite flatten_length, length_take; lia).
    destruct (ziplistNext_spec _ _ _ _ Hat1) as (r & -> & Hr). rewrite decide_True in Hr.
    2: { rewrite length_app, HA. simpl. rewrite flatten_length, length_drop. lia. }
    destruct Hr as (sp & -> & Hsp). obind.
    assert (take (S (2 * i)) (flatten (take i kvs) ++ ele :: flatten (drop i kvs)) ++ t :: drop (S (2 * i)) (flatten (take i kvs) ++ ele :: flatten (drop i kvs))
      = flatten (take i kvs) ++ ele :: t :: flatten (drop i kvs)) as Heq.
    { rewrite (cons_middle ele), app_assoc, take_app_length', drop_app_length' by (rewrite length_app, HA; simpl; lia). by rewrite <- app_assoc. }
    destruct (insert_at (heap_junk env) zl1 _ _ _ t Hsp) as (zl2 & -> & Hat2); [rewrite Heq; lia|]. rewrite Heq in Hat2.
    exists zl2. split; [done|]. apply Hdone. by eapply zl_at_rep.
  - subst p. assert (i = length kvs) as -> by lia. rewrite firstn_all, drop_all in *. change (flatten []) with (@nil sds) in *.
    destruct (ziplistPush_spec (heap_junk env) zl _ ele ZIPLIST_TAIL Hrep) as (zl1 & -> & Hrep1); [rewrite !weight_app in *; simpl in *; lia|]. obind.
    destruct (ziplistPush_spec (heap_junk env) zl1 _ t ZIPLIST_TAIL Hrep1) as (zl2 & -> & Hrep2); [rewrite <- app_assoc; simpl; lia|].
    exists zl2. split; [done|]. apply Hdone. by rewrite <- app_assoc in Hrep2.
Qed.

Lemma insert_loop_pairs fuel zl kvs l i p ele score : zl_rep zl (flatten kvs) → Forall2 pair_text kvs l → zzl_at zl kvs i p → (i ≤ length kvs)%nat →
  (length kvs - i ≤ fuel)%nat → valid score → short ele → pairs_bytes l + pair_bytes ele < 2 ^ 32 →
  ∃ zl', zzlInsert_loop env fuel zl p ele score = Some zl' ∧ zzl_rep zl' (take i l ++ insert_pair (drop i l) ele score).
Proof.
  intros Hrep Hl. revert i p. induction fuel as [|fuel IH]; intros i p Hat Hi Hf Hs He Hw; apply Forall2_length in Hl as Hlen;
    pose proof (insertAt_pairs zl kvs l i p ele score Hrep Hl Hat Hi Hs He Hw) as Hins.
  - unfold zzl_at in Hat. rewrite decide_False in Hat by lia. subst p. rewrite (drop_ge l) in * by lia. exact Hins.
  - unfold zzl_at in Hat. destruct (decide (i < length kvs)%nat) as [Hlt|Hge].
    2: { subst p. rewrite (drop_ge l) in * by lia. exact Hins. }
    destruct Hat as (q & -> & Hat). destruct (lookup_lt_is_Some_2 kvs i Hlt) as [kv Hkv].
    destruct (Forall2_lookup_l _ _ _ _ _ Hl Hkv) as ([e x] & Hp & Hke & Ht & Htl & _ & Hse). cbn [fst snd] in *.
    destruct (zzl_at_step _ _ _ _ _ Hat Hkv) as (sp & nx & Hn1 & Hsp & Hn2 & Hat'). destruct (flatten_lookup _ _ _ Hkv) as [Hk Hv].
    cbn [zzlInsert_loop]. rewrite Hn1. obind. rewrite (getScore_at _ _ _ _ _ _ Hsp Hv Ht Htl). obind.
    rewrite Hke in Hk. destruct (compareElements_at _ _ _ _ _ ele Hat Hk Hse He) as (c & Hc & Hsgn).
    rewrite (drop_S l (e, x) i Hp) in *. cbn [insert_pair]. destruct (dltb score x); [exact Hins|].
    assert ((cmp ← (if deqb x score then zzlCompareElements env zl q ele else Some 0);
             if 0 <? cmp then zzlInsertAt env zl (Some q) ele score else next ← ziplistNext zl sp; zzlInsert_loop env fuel zl next ele score)
            = if deqb x score && (0 <? sdscmp e ele) then zzlInsertAt env zl (Some q) ele score else zzlInsert_loop env fuel zl nx ele score) as ->.
    { destruct (deqb x score); [rewrite Hc|]; obind; rewrite ?Hsgn, Hn2; done. }
    destruct (deqb x score && (0 <? sdscmp e ele)); [exact Hins|].
    destruct (IH (S i) nx Hat') as (zl' & Hz & Hr); [lia..|done|done|done|]. exists zl'. split; [done|].
    by rewrite (take_S_r l i (e, x) Hp), <- app_assoc in Hr.
Qed.

Lemma insert_pairs zl l ele score : zzl_rep zl l → valid score → short ele → pairs_bytes l + pair_bytes ele < 2 ^ 32 →
  ∃ zl', Zzl.zzlInsert env zl ele score = Some zl' ∧ zzl_rep zl' (insert_pair l ele score).
Proof.
  intros (kvs & Hrep & Hl) Hs He Hw. unfold zzlInsert. destruct (zzl_first zl kvs Hrep) as (p & -> & Hat). obind.
  apply (insert_loop_pairs (length zl) zl kvs l 0 p); try done; [lia|]. apply zl_rep_length in Hrep. rewrite flatten_length in Hrep. lia.
Qed.

Lemma delete_pairs zl kvs l i q : Forall2 pair_text kvs l → zl_at zl (flatten kvs) (2 * i) q → (i < length kvs)%nat → pairs_bytes l < 2 ^ 32 →
  ∃ zl', Zzl.zzlDelete env zl q = Some zl' ∧ zzl_rep zl' (delete_pair l i).
Proof.
  intros Hl Hat Hlt Hw. pose proof (weight_pairs _ _ Hl) as Hw'. destruct (lookup_lt_is_Some_2 kvs i Hlt) as [kv Hkv].
  assert (length (flatten (take i kvs)) = 2 * i)%nat as HA by (rewrite flatten_length, length_take; lia).
  unfold zzlDelete, ziplistDelete. destruct (delete_at (heap_junk env) _ _ _ _ 1 Hat) as (zl1 & -> & Hat1); [rewrite flatten_length; lia|lia|]. obind.
  rewrite Nat.add_1_r, flatten_take, (flatten_drop_odd _ _ _ Hkv) in Hat1.
  assert (weight (flatten (take i kvs) ++ kv.2 :: flatten (drop (S i) kvs)) ≤ weight (flatten kvs)) as Hw1.
  { rewrite <- (take_drop_middle kvs i kv Hkv) at 3. rewrite flatten_app, flatten_cons, !weight_app. simpl. lia. }
  destruct (delete_at (heap_junk env) _ _ _ _ 1 Hat1) as (zl2 & -> & Hat2); [rewrite length_app, HA; simpl; lia|lia|]. obind.
  eexists. split; [done|]. exists (take i kvs ++ drop (S i) kvs). rewrite flatten_app. split.
  - apply zl_at_rep in Hat2. rewrite take_app_length' in Hat2 by done. rewrite Nat.add_1_r, cons_middle, app_assoc, drop_app_length' in Hat2; [done|].
    rewrite length_app, HA. simpl. lia.
  - unfold delete_pair. rewrite delete_take_drop. apply Forall2_app; [by apply Forall2_take|by apply Forall2_drop].
Qed.
End rep.
