(* ===== verification/ZzlSpec.v ===== *)
(** * Sorted sets in bytes implement finite maps

    [obj_rep o z]: the object [o] of [Zzl] holds what the object [z] of [Zset]
    stands for.  Every function of the interface keeps the relation and gives
    the same results, as long as the ziplist stays below 4 GiB; with [ZsetRep]
    this makes a sorted set a map from members to scores, in either encoding
    and through the conversions. *)

From Stdlib Require Import Ascii SpecFloat.
From S2P Require Import Prelude.
From S2P Require Import Sds.
From S2P Require Import Util.
From S2P Require Import Double.
From S2P Require Import ScoreText.
From S2P Require Import Ziplist.
From S2P Require Import ZiplistRep.
From S2P Require Import ZiplistInsert.
From S2P Require Import ZiplistList.
From S2P Require Import HashRep.
From S2P Require Import Entries.
From S2P Require Import Skiplist.
From S2P Require Import SkiplistRep.
From S2P Require Import Zset.
From S2P Require Import ZsetRep.
From S2P Require Import Zzl.
From S2P Require Import ZzlRep.

#[local] Open Scope Z_scope.

Definition obj_rep (o : zset_obj) (z : zobj) : Prop :=
  match o, z with
  | ObjZiplist zl, ZZiplist l => zzl_rep zl l
  | ObjSkiplist zs, ZSkiplist zs' => zs = zs'
  | _, _ => False
  end.

Lemma length_pairs zl l : zzl_rep zl l → ∃ zl', Zzl.zzlLength zl = Some (zl', count_pairs l) ∧ zzl_rep zl' l.
Proof.
  intros (kvs & Hrep & Hl). unfold zzlLength. destruct (ziplistLen_spec _ _ Hrep) as (zl' & -> & Hrep'). obind.
  exists zl'. split; [|by exists kvs]. apply Forall2_length in Hl. rewrite flatten_length, Nat2Z.inj_mul, Z.mul_comm, Z.div_mul by done.
  unfold count_pairs. by rewrite Hl.
Qed.

Lemma add_skiplist conf zs score ele flags rnd r : Zset.zsetAdd conf (ZSkiplist zs) score ele flags rnd = Some r → ∃ zs', za_obj r = ZSkiplist zs'.
Proof.
  unfold Zset.zsetAdd. cbv zeta. destruct (isnan score); [intros [= <-]; by eexists|]. destruct (z_dict zs !! ele) as [de|].
  - destruct (negb (Z.land flags ZADD_NX =? 0)); [intros [= <-]; by eexists|]. intros (n & _ & H)%bind_Some.
    destruct (_ && _); [injection H as <-; by eexists|]. destruct (negb (deqb _ _)); [|injection H as <-; by eexists].
    apply bind_Some in H as ([[zsl node] rnd'] & _ & H). injection H as <-. by eexists.
  - destruct (negb (Z.land flags ZADD_XX =? 0)); [intros [= <-]; by eexists|]. intros ([[zsl node] rnd'] & _ & H)%bind_Some.
    apply bind_Some in H as (d & _ & H). injection H as <-. by eexists.
Qed.

Lemma del_skiplist zs ele z b : Zset.zsetDel (ZSkiplist zs) ele = Some (z, b) → ∃ zs', z = ZSkiplist zs'.
Proof.
  simpl. destruct (z_dict zs !! ele); [|intros [= <- <-]; by eexists]. intros (n & _ & ([zsl ret] & _ & H)%bind_Some)%bind_Some.
  destruct ret; [|done]. injection H as <- <-. by eexists.
Qed.

Lemma find_pair_lookup l ele j s : find_pair l ele = Some (j, s) → l !! j = Some (ele, s).
Proof.
  revert j. induction l as [|[e x] l IH]; intros j; simpl; [done|]. destruct (String.eqb_spec e ele) as [->|]; [by intros [= <- <-]|].
  destruct (find_pair l ele) as [[j' x']|]; [|done]. intros [= <- <-]. by apply IH.
Qed.

Lemma delete_pairs_bytes l i : pairs_bytes (delete_pair l i) ≤ pairs_bytes l.
Proof.
  unfold delete_pair. rewrite delete_take_drop. destruct (l !! i) as [p|] eqn:Hp.
  - rewrite <- (take_drop_middle l i p Hp) at 3. rewrite !pairs_bytes_app. simpl. unfold pair_bytes. lia.
  - apply lookup_ge_None in Hp. rewrite take_ge, drop_ge, app_nil_r by lia. done.
Qed.

Section spec.
Context (env : zzl_env).
Context (Hstack : (128 ≤ length (stack_chars env))%nat).

(** ** Conversion *)

Lemma convert_loop_pairs fuel zl kvs l i e s zs rnd : Forall2 pair_text kvs l → (i < length kvs)%nat → (length kvs - i ≤ fuel)%nat →
  zl_at zl (flatten kvs) (2 * i) e → zl_at zl (flatten kvs) (S (2 * i)) s →
  convert_loop env fuel zl (Some (e, s)) zs rnd = zset_load (drop i l) zs rnd.
Proof.
  intros Hl. revert i e s zs rnd. induction fuel as [|fuel IH]; intros i e s zs rnd Hi Hf He Hs; [lia|].
  destruct (lookup_lt_is_Some_2 kvs i Hi) as [kv Hkv]. destruct (Forall2_lookup_l _ _ _ _ _ Hl Hkv) as ([ele x] & Hp & Hke & Ht & Htl & _).
  cbn [fst snd] in *. destruct (flatten_lookup _ _ _ Hkv) as [Hk Hv]. rewrite Hke in Hk. apply Forall2_length in Hl as Hlen.
  cbn [convert_loop]. rewrite (getScore_at _ _ _ _ _ _ Hs Hv Ht Htl). obind. rewrite (getObject_at env Hstack _ _ _ _ _ He Hk). obind.
  rewrite (drop_S l (ele, x) i Hp). cbn [zset_load]. destruct (zslInsert (z_zsl zs) x ele rnd) as [[[zsl node] rnd']|]; [|done]. obind.
  destruct (dictAdd (z_dict zs) ele node) as [d|]; [|done]. obind.
  destruct (next_pairs _ _ _ _ _ Hs Hkv) as (r & -> & Hr). obind. destruct (decide (S i < length kvs)%nat).
  - destruct Hr as (e' & s' & -> & He' & Hs'). apply IH; [done|lia|done|done].
  - subst r. rewrite drop_ge by lia. by destruct fuel.
Qed.

Lemma dump_pairs zl l ns : zzl_rep zl l → Forall (λ n, valid (z_score n) ∧ short (z_ele n)) ns →
  let l' := l ++ ((λ n, (z_ele n, z_score n)) <$> ns) in
  pairs_bytes l' < 2 ^ 32 → ∃ zl', dump_nodes env zl ns = Some zl' ∧ zzl_rep zl' l'.
Proof.
  revert zl l. induction ns as [|n ns IH]; intros zl l (kvs & Hrep & Hl) Hns l' Hw; subst l'; [exists zl; rewrite app_nil_r; by split; [|exists kvs]|].
  apply Forall_cons in Hns as [[Hv Hs] Hns]. rewrite fmap_cons in *. cbn [dump_nodes]. apply Forall2_length in Hl as Hlen.
  assert (zzl_at zl kvs (length kvs) None) as Hat by (unfold zzl_at; by rewrite decide_False by lia).
  destruct (insertAt_pairs env Hstack zl kvs l (length kvs) None (z_ele n) (z_score n) Hrep Hl Hat) as (zl1 & -> & Hrep1); [done..| |].
  { rewrite pairs_bytes_app in Hw. simpl in Hw. pose proof (pairs_bytes_ge ((λ n, (z_ele n, z_score n)) <$> ns)). lia. }
  obind. rewrite Hlen, firstn_all, drop_all in Hrep1. rewrite (cons_middle _ l), app_assoc in Hw |- *.
  by apply IH.
Qed.

Lemma convert_sim o z enc rnd z' rnd' : obj_rep o z → Zset.zsetConvert z enc rnd = Some (z', rnd') →
  (∀ l, z' = ZZiplist l → z = z' ∨ Forall (λ p, valid p.2 ∧ short p.1) l ∧ pairs_bytes l < 2 ^ 32) →
  ∃ o', Zzl.zsetConvert env o enc rnd = Some (o', rnd') ∧ obj_rep o' z'.
Proof.
  intros Ho Hc Hok. destruct o as [zl|zs], z as [l|zs']; try done; destruct enc; cbn [obj_rep Zset.zsetConvert Zzl.zsetConvert] in Ho, Hc |- *.
  - injection Hc as <- <-. by eexists.
  - case_decide as Hne; [done|]. destruct Ho as (kvs & Hrep & Hl). apply Forall2_length in Hl as Hlen.
    assert (0 < length kvs)%nat as Hpos by (destruct l; simpl in *; [done|lia]).
    destruct (zzl_first zl kvs Hrep) as (p & -> & Hat). unfold zzl_at in Hat. rewrite decide_True in Hat by done. destruct Hat as (e & -> & He). obind.
    destruct (lookup_lt_is_Some_2 kvs 0 Hpos) as [kv Hkv]. destruct (zzl_at_step _ _ _ _ _ He Hkv) as (s & r & -> & Hs & _). obind.
    rewrite (convert_loop_pairs (length zl) zl kvs l 0 e s _ rnd Hl Hpos) by (done || apply zl_rep_length in Hrep; rewrite flatten_length in Hrep; lia).
    rewrite drop_0. destruct (zset_load l _ rnd) as [[zs r']|]; [|done]. simpl in Hc |- *. injection Hc as <- <-. by eexists.
  - subst zs'. destruct (ziplistNew_spec (heap_junk env)) as (zl & -> & Hrep). obind.
    destruct (z_header (z_zsl zs) !! 0%nat); [|done]. cbn [mbind option_bind] in *.
    destruct (zsl_chain _ _ _) as [ls|]; [|done]. cbn [mbind option_bind] in *. destruct (mapM _ ls) as [ns|]; [|done]. cbn [mbind option_bind] in *. injection Hc as <- <-.
    destruct (Hok _ eq_refl) as [?|[Hall Hw]]; [done|]. rewrite Forall_fmap in Hall.
    destruct (dump_pairs zl [] ns) as (zl' & -> & Hrep'); [by exists []|done|done|]. by eexists.
  - injection Hc as <- <-. by eexists.
Qed.

(** ** Reading *)

Lemma score_sim o z ele : obj_rep o z → Zzl.zsetScore o ele = Zset.zsetScore z ele.
Proof.
  intros Ho. destruct o as [zl|zs], z as [l|zs']; try done; simpl in *; [|by subst].
  destruct Ho as (kvs & Hrep & Hl). destruct (find_pairs zl kvs l ele true Hrep Hl) as (r & -> & Hr). obind.
  destruct (find_pair l ele) as [[j s]|]; [by destruct Hr as (q & -> & _)|by subst].
Qed.

Lemma length_sim o z : obj_rep o z → ∃ o', Zzl.zsetLength o = Some (o', Zset.zsetLength z) ∧ obj_rep o' z.
Proof.
  intros Ho. destruct o as [zl|zs], z as [l|zs']; try done; simpl in *; [|subst; by eexists].
  destruct (length_pairs zl l Ho) as (zl' & -> & Hrep). by eexists.
Qed.

Lemma max_sim o z : obj_rep o z → zset_max env o = zset_last z.
Proof.
  intros Ho. destruct o as [zl|zs], z as [l|zs']; try done; simpl in *; [|by subst].
  destruct Ho as (kvs & Hrep & Hl). destruct (ziplistIndex_spec zl _ (-2) Hrep) as (r & -> & Hr); [done|]. obind. rewrite flatten_length in Hr.
  unfold list_index in Hr. destruct kvs as [|kv kvs _] using rev_ind.
  { apply Forall2_nil_inv_l in Hl as ->. simpl in Hr. by subst r. }
  apply Forall2_app_inv_l in Hl as (l1 & l2 & H1 & H2 & ->). apply Forall2_cons_inv_l in H2 as ([ele x] & l3 & (He & Ht & Htl & _) & ->%Forall2_nil_inv_l & ->).
  cbn [fst snd] in *. rewrite last_snoc, length_app in *. simpl length in Hr.
  change (-2 <? 0) with true in Hr. cbv iota in Hr. rewrite (proj2 (Z.leb_le _ _)), (proj2 (Z.ltb_lt _ _)) in Hr by lia. simpl in Hr.
  replace (Z.to_nat (Z.of_nat _ + -2)) with (2 * length kvs)%nat in Hr by lia. destruct Hr as (e & -> & Hat). obind.
  assert ((kvs ++ [kv]) !! length kvs = Some kv) as Hkv by (by rewrite list_lookup_middle). destruct (flatten_lookup _ _ _ Hkv) as [Hk Hv].
  destruct (zzl_at_step _ _ _ _ _ Hat Hkv) as (s & r & -> & Hs & _). obind. rewrite He in Hk.
  rewrite (getObject_at env Hstack _ _ _ _ _ Hat Hk). obind. by rewrite (getScore_at _ _ _ _ _ _ Hs Hv Ht Htl).
Qed.
(** ** Changes *)

Lemma add_sim conf o z score ele flags rnd r : obj_rep o z → Zset.zsetAdd conf z score ele flags rnd = Some r →
  valid score → short ele → (∀ l, z = ZZiplist l → pairs_bytes l + pair_bytes ele < 2 ^ 32) →
  ∃ o', Zzl.zsetAdd env conf o score ele flags rnd = Some (o', za_ret r, za_flags r, za_rnd r) ∧ obj_rep o' (za_obj r).
Proof.
  intros Ho Hr Hv Hs Hw. unfold Zzl.zsetAdd. destruct (isnan score) eqn:Hnan.
  { unfold Zset.zsetAdd in Hr. rewrite Hnan in Hr. injection Hr as <-. by eexists. }
  destruct o as [zl|zs], z as [l|zs']; try done; cbn [obj_rep] in Ho.
  2: { subst zs'. rewrite Hr. obind. destruct (add_skiplist conf zs score ele flags rnd r Hr) as [zs' Hz]. rewrite Hz. by eexists. }
  specialize (Hw l eq_refl). unfold Zset.zsetAdd in Hr. rewrite Hnan in Hr. pose proof Ho as (kvs & Hrep & Hl).
  destruct (find_pairs zl kvs l ele true Hrep Hl) as (f & -> & Hf). obind. destruct (find_pair l ele) as [[j cur]|] eqn:Hfind.
  - destruct Hf as (q & -> & Hat & Hj). obind. destruct (negb (Z.land flags ZADD_NX =? 0)); [injection Hr as <-; by eexists|].
    set (sc := if negb (Z.land flags ZADD_INCR =? 0) then dadd score cur else score) in *.
    assert (valid sc) as Hsc.
    { subst sc. destruct (negb _); [|done]. apply valid_dadd; [done|]. apply find_pair_lookup in Hfind.
      destruct (Forall2_lookup_r _ _ _ _ _ Hl Hfind) as (kv & _ & _ & _ & _ & Hc & _). exact Hc. }
    destruct (negb (Z.land flags ZADD_INCR =? 0) && isnan sc); [injection Hr as <-; by eexists|].
    destruct (negb (deqb sc cur)); injection Hr as <-; [|by eexists].
    destruct (delete_pairs env Hstack zl kvs l j q Hl Hat Hj) as (zl1 & -> & Hrep1); [unfold pair_bytes in Hw; lia|]. obind.
    destruct (insert_pairs env Hstack zl1 (delete_pair l j) ele sc Hrep1 Hsc Hs) as (zl2 & -> & Hrep2); [pose proof (delete_pairs_bytes l j); lia|].
    by eexists.
  - subst f. destruct (negb (Z.land flags ZADD_XX =? 0)); [injection Hr as <-; by eexists|].
    destruct (insert_pairs env Hstack zl l ele score Ho Hv Hs Hw) as (zl1 & -> & Hrep1). obind.
    destruct (length_pairs zl1 _ Hrep1) as (zl2 & -> & Hrep2). obind. destruct (_ || _).
    + apply bind_Some in Hr as ([z' rnd'] & Hc & Hr). injection Hr as <-.
      destruct (convert_sim (ObjZiplist zl2) (ZZiplist (insert_pair l ele score)) _ _ _ _ Hrep2 Hc) as (o' & -> & Ho').
      { intros l' ->. by apply zsetConvert_encoding in Hc. }
      by eexists.
    + injection Hr as <-. by eexists.
Qed.

Lemma del_sim o z ele z' b : obj_rep o z → Zset.zsetDel z ele = Some (z', b) → (∀ l, z = ZZiplist l → pairs_bytes l < 2 ^ 32) →
  ∃ o', Zzl.zsetDel env o ele = Some (o', b) ∧ obj_rep o' z'.
Proof.
  intros Ho Hr Hw. destruct o as [zl|zs], z as [l|zs']; try done; cbn [obj_rep] in Ho; unfold Zzl.zsetDel.
  2: { subst zs'. rewrite Hr. obind. destruct (del_skiplist zs ele z' b Hr) as [zs' ->]. by eexists. }
  pose proof Ho as (kvs & Hrep & Hl). destruct (find_pairs zl kvs l ele false Hrep Hl) as (f & -> & Hf). obind. simpl in Hr.
  destruct (find_pair l ele) as [[j cur]|].
  - destruct Hf as (q & -> & Hat & Hj). destruct (delete_pairs env Hstack zl kvs l j q Hl Hat Hj) as (zl1 & -> & Hrep1); [by apply Hw|].
    injection Hr as <- <-. by eexists.
  - subst f. injection Hr as <- <-. by eexists.
Qed.
End spec.

(** ** Sequences of operations *)

Inductive zop :=
  | ZopAdd (score : double) (ele : sds) (flags : Z)
  | ZopDel (ele : sds).

(** What a call returns: the return value, and the flags of [zsetAdd]. *)
Definition zout : Type := bool * Z.

Definition zset_step (env : zzl_env) (conf : zconf) (o : zset_obj) (op : zop) (rnd : list Z) : option (zset_obj * zout * list Z) :=
  match op with
  | ZopAdd score ele flags => '(o, ret, out, rnd) ← Zzl.zsetAdd env conf o score ele flags rnd; Some (o, (ret, out), rnd)
  | ZopDel ele => '(o, b) ← Zzl.zsetDel env o ele; Some (o, (b, 0), rnd)
  end.

Fixpoint zset_run (env : zzl_env) (conf : zconf) (o : zset_obj) (ops : list zop) (rnd : list Z) : option (zset_obj * list zout) :=
  match ops with
  | [] => Some (o, [])
  | op :: ops =>
      '(o, out, rnd) ← zset_step env conf o op rnd;
      '(o, outs) ← zset_run env conf o ops rnd;
      Some (o, out :: outs)
  end.

(** The same on a map from members to scores. *)
Definition zmap_step (m : gmap sds double) (op : zop) : gmap sds double * zout :=
  match op with
  | ZopAdd score ele flags => let '(m', ret, out) := zmap_add m score ele flags in (m', (ret, out))
  | ZopDel ele => (delete ele m, (bool_decide (is_Some (m !! ele)), 0))
  end.

Fixpoint zmap_run (m : gmap sds double) (ops : list zop) : gmap sds double * list zout :=
  match ops with
  | [] => (m, [])
  | op :: ops' =>
      let '(m', out) := zmap_step m op in
      let '(m'', outs) := zmap_run m' ops' in (m'', out :: outs)
  end.

(** The bytes that the map needs as a ziplist. *)
Definition zmap_bytes (m : gmap sds double) : Z := pairs_bytes (map_to_list m).

(** Scores are doubles, members are short, and the ziplist stays below
    4 GiB. *)
Definition op_fits (m : gmap sds double) (op : zop) : Prop :=
  match op with
  | ZopAdd score ele _ => valid score ∧ short ele ∧ zmap_bytes m + pair_bytes ele < 2 ^ 32
  | ZopDel _ => zmap_bytes m < 2 ^ 32
  end.

Fixpoint zfits (m : gmap sds double) (ops : list zop) : Prop :=
  match ops with [] => True | op :: ops => op_fits m op ∧ zfits (zmap_step m op).1 ops end.

Lemma pairs_bytes_perm l1 l2 : l1 ≡ₚ l2 → pairs_bytes l1 = pairs_bytes l2.
Proof. induction 1; simpl; lia. Qed.

(** The object holds the map. *)
Definition holds_map (o : zset_obj) (m : gmap sds double) : Prop := ∃ z, obj_rep o z ∧ zset_rep z m.

Lemma zset_rep_bytes l m : zset_rep (ZZiplist l) m → pairs_bytes l = zmap_bytes m.
Proof.
  intros (K & Hl & HK & <-). inversion Hl; subst. rewrite kmap_zkey. apply pairs_bytes_perm. symmetry. apply map_to_list_to_map.
  destruct HK as (_ & _ & Hnd). by rewrite <- list_fmap_compose in Hnd.
Qed.

Lemma zset_step_spec env conf o m op rnd : (128 ≤ length (stack_chars env))%nat → holds_map o m → op_fits m op →
  ∃ o' rnd', zset_step env conf o op rnd = Some (o', (zmap_step m op).2, rnd') ∧ holds_map o' (zmap_step m op).1.
Proof.
  intros Henv (z & Ho & Hz) Hfit. destruct op as [score ele flags|ele]; cbn [zset_step zmap_step].
  - destruct Hfit as (Hv & Hs & Hw). destruct (zsetAdd_spec conf z m score ele flags rnd Hz) as (r & Hr & Hr' & Hret & Hfl).
    destruct (add_sim env Henv conf o z score ele flags rnd r Ho Hr Hv Hs) as (o' & -> & Ho'); [intros l ->; by rewrite (zset_rep_bytes l m Hz)|]. obind.
    destruct (zmap_add m score ele flags) as [[m' ret] out]. cbn [fst snd] in *. rewrite Hret, Hfl. eexists _, _. split; [done|]. by exists (za_obj r).
  - destruct (zsetDel_spec z m ele Hz) as (z' & Hd & Hz').
    destruct (del_sim env Henv o z ele z' _ Ho Hd) as (o' & -> & Ho'); [intros l ->; by rewrite (zset_rep_bytes l m Hz)|]. obind.
    eexists _, _. split; [done|]. by exists z'.
Qed.

Lemma zset_run_spec env conf o m ops rnd : (128 ≤ length (stack_chars env))%nat → holds_map o m → zfits m ops →
  ∃ o', zset_run env conf o ops rnd = Some (o', (zmap_run m ops).2) ∧ holds_map o' (zmap_run m ops).1.
Proof.
  intros Henv. revert o m rnd. induction ops as [|op ops IH]; intros o m rnd Ho Hfit; [by eexists|]. destruct Hfit as [Hop Hfit]. cbn [zset_run zmap_run].
  destruct (zset_step_spec env conf o m op rnd Henv Ho Hop) as (o' & rnd' & -> & Ho'). obind. destruct (zmap_step m op) as [m' out]. cbn [fst snd] in *.
  destruct (IH o' m' rnd' Ho' Hfit) as (o'' & -> & Ho''). obind. destruct (zmap_run m' ops). by eexists.
Qed.

Lemma create_holds env (skiplist : bool) :
  ∃ o, (if skiplist then Some Zzl.createZsetObject else Zzl.createZsetZiplistObject env) = Some o ∧ holds_map o ∅.
Proof.
  destruct zset_rep_empty as [H1 H2]. destruct skiplist; [eexists; split; [done|]; by exists Zset.createZsetObject|]. unfold Zzl.createZsetZiplistObject.
  destruct (ziplistNew_spec (heap_junk env)) as (zl & -> & Hrep). obind. eexists. split; [done|]. exists (ZZiplist []). split; [|done]. by exists [].
Qed.

(** ** Properties *)

(** C27: Sorted sets implement finite maps, down to the bytes of a ziplist.  Any
    sequence of [zsetAdd] (with any flags, including NaN scores, INCR, NX and
    XX) and [zsetDel] calls on a new sorted set, in either encoding and through
    the conversion to a skip list, runs without a failed assertion or an access
    outside the block whatever levels are drawn, returns the values and flags of
    the same operations on a map from members to scores, and leaves a set on
    which [zsetScore] is the lookup of that map, [zsetLength] its size, and the
    last pair its greatest entry.  The scores are those that were given, though
    they are stored as text.  Members are shorter than 2^31 bytes, and the
    members with 57 bytes each are together below 4 GiB. *)
Theorem zset_refines_map env conf (skiplist : bool) ops rnd :
  (128 ≤ length (stack_chars env))%nat → zfits ∅ ops →
  let m := (zmap_run ∅ ops).1 in
  ∃ o0 o, (if skiplist then Some Zzl.createZsetObject else Zzl.createZsetZiplistObject env) = Some o0 ∧
    zset_run env conf o0 ops rnd = Some (o, (zmap_run ∅ ops).2) ∧
    (∀ e, Zzl.zsetScore o e = Some (m !! e)) ∧ (∃ o', Zzl.zsetLength o = Some (o', Z.of_nat (size m))) ∧
    match zset_max env o with
    | Some p => m !! p.1 = Some p.2 ∧ ∀ e s, m !! e = Some s → e ≠ p.1 → plt (s, e) (p.2, p.1)
    | None => m = ∅
    end.
Proof.
  intros Henv Hfit m. destruct (create_holds env skiplist) as (o0 & Hc & H0).
  destruct (zset_run_spec env conf o0 ∅ ops rnd Henv H0 Hfit) as (o & Hrun & z & Ho & Hz). exists o0, o. split_and!; [done..| | |].
  - intros e. by rewrite (score_sim o z e Ho), (zsetScore_spec z m e Hz).
  - destruct (length_sim o z Ho) as (o' & Hl & _). exists o'. by rewrite Hl, (zsetLength_spec z m Hz).
  - rewrite (max_sim env Henv o z Ho). by apply zset_last_spec.
Qed.

Definition example_env : zzl_env := mkZzlEnv 0 (replicate 128 "x"%char).

Lemma zset_refines_map_witness :
  let ops := [ZopAdd (S754_finite false 7205759403792794 (-56)) "17" 0; ZopAdd (dofZ 3) "b" 0; ZopAdd (dofZ (-1)) "b" ZADD_INCR; ZopDel "17"] in
  ∃ o0 o, Zzl.createZsetZiplistObject example_env = Some o0 ∧
    zset_run example_env (mkZconf 128 64) o0 ops [] = Some (o, (zmap_run ∅ ops).2) ∧ Zzl.zsetScore o "b" = Some (Some (dofZ 2)).
Proof.
  intros ops. destruct (zset_refines_map example_env (mkZconf 128 64) false ops []) as (o0 & o & H0 & Hrun & Hs & _).
  - apply (bool_decide_unpack _). vm_compute. exact I.
  - vm_compute. intuition (discriminate || reflexivity).
  - exists o0, o. split; [exact H0|]. split; [exact Hrun|]. rewrite Hs. f_equal.
Defined.

(** The members and scores of an object in their order. *)
Definition holds_list (o : zset_obj) (K : list entry) : Prop := ∃ z, obj_rep o z ∧ zset_list z K.

Definition obj_encoding (o : zset_obj) : encoding :=
  match o with ObjZiplist _ => OBJ_ENCODING_ZIPLIST | ObjSkiplist _ => OBJ_ENCODING_SKIPLIST end.

(** C28: [zsetConvert] changes the encoding of a sorted set and nothing else,
    between a ziplist of bytes and a skip list with a dictionary: it does not
    fault (an empty ziplist, on which it asserts, apart), and the members,
    scores and their order are kept, although the scores are printed on the way
    to a ziplist and parsed on the way back.  A ziplist needs members shorter
    than 2^31 bytes and room below 4 GiB. *)
Theorem zsetConvert_keeps env o K enc rnd :
  (128 ≤ length (stack_chars env))%nat → holds_list o K → ksorted K →
  (obj_encoding o = OBJ_ENCODING_ZIPLIST → K ≠ []) →
  (enc = OBJ_ENCODING_ZIPLIST → Forall (λ k, valid k.1 ∧ short k.2) K ∧ pairs_bytes ((λ k, (k.2, k.1)) <$> K) < 2 ^ 32) →
  ∃ o' rnd', Zzl.zsetConvert env o enc rnd = Some (o', rnd') ∧ obj_encoding o' = enc ∧ holds_list o' K ∧
    (∀ e, Zzl.zsetScore o' e = Zzl.zsetScore o e) ∧ (snd <$> Zzl.zsetLength o') = (snd <$> Zzl.zsetLength o) ∧
    zset_max env o' = zset_max env o.
Proof.
  intros Henv (z & Ho & Hl) HK Hne Hfit.
  destruct (zsetConvert_list z K enc rnd Hl HK) as (z' & rnd' & Hc & Hl').
  { intros ->. destruct o; [|done]. inversion Hl; subst. by specialize (Hne eq_refl). }
  pose proof (zsetConvert_encoding z enc rnd z' rnd' Hc) as Henc.
  destruct (convert_sim env Henv o z enc rnd z' rnd' Ho Hc) as (o' & Hc' & Ho').
  { intros l ->. destruct enc; [|done]. right. inversion Hl'; subst. destruct (Hfit eq_refl) as [Hall Hw].
    rewrite Forall_fmap in Hall. rewrite <- list_fmap_compose in Hw. split; [done|].
    by rewrite (list_fmap_ext _ id), list_fmap_id in Hw by (by intros ? []). }
  assert (zset_rep z (kmap K)) as Hz by (by exists K). assert (zset_rep z' (kmap K)) as Hz' by (by exists K).
  exists o', rnd'. split_and!; [done| |by exists z'| | |].
  - destruct o', z'; try done; by destruct enc.
  - intros e. by rewrite (score_sim o z e Ho), (score_sim o' z' e Ho'), (zsetScore_spec z _ e Hz), (zsetScore_spec z' _ e Hz').
  - destruct (length_sim o z Ho) as (o1 & -> & _). destruct (length_sim o' z' Ho') as (o2 & -> & _). simpl.
    by rewrite (zsetLength_spec z _ Hz), (zsetLength_spec z' _ Hz').
  - by rewrite (max_sim env Henv o z Ho), (max_sim env Henv o' z' Ho'), (zset_last_list z K Hl), (zset_last_list z' K Hl').
Qed.

Lemma zsetConvert_keeps_witness :
  let l := [("b", S754_finite false 7205759403792794 (-56)); ("a", dofZ 2)] in
  ∃ zs o' rnd', holds_list (ObjSkiplist zs) (zkey <$> l) ∧
    Zzl.zsetConvert example_env (ObjSkiplist zs) OBJ_ENCODING_ZIPLIST [] = Some (o', rnd') ∧ holds_list o' (zkey <$> l).
Proof.
  intros l. assert (ksorted (zkey <$> l)) as HK by (apply (bool_decide_unpack _); vm_compute; exact I).
  destruct (zsetConvert_skiplist l [7; 70000; 9]) as (z & rnd' & Hc & Hl); [done|done|].
  apply zsetConvert_encoding in Hc. destruct z as [|zs]; [done|].
  destruct (zsetConvert_keeps example_env (ObjSkiplist zs) (zkey <$> l) OBJ_ENCODING_ZIPLIST []) as (o' & r & H1 & _ & H2 & _).
  - apply (bool_decide_unpack _). vm_compute. exact I.
  - by exists (ZSkiplist zs).
  - exact HK.
  - done.
  - intros _. split; [|reflexivity]. repeat constructor; vm_compute; reflexivity.
  - exists zs, o', r. split; [by exists (ZSkiplist zs)|]. exact (conj H1 H2).
Defined.
