(* ===== verification/Server.v ===== *)
(** * The server state and the CRDT command framework
    (src/CRDT.h, src/RWFramework.h, src/RWFramework.c, and the keyspace
    functions of src/db.c they call)

    A command runs on a [world]: the keyspace, the heap of metadata structs
    that hash values point to, the replication parameters and the calling
    client.  [M] is the state monad with the two ways a command can stop
    early: [return] from the command function, and a fault (assertion,
    invalid access, read of an unset variable).

    The heap is polymorphic: a component stores its struct type [A] through
    an instance of [Stored cell A]. *)

From S2P Require Import Prelude.
From S2P Require Import Sds.
From S2P Require Import VectorClock.
From S2P Require Import Double.
From S2P Require Import Skiplist.
From S2P Require Import Zset.

#[local] Open Scope Z_scope.

(** ** State *)

Inductive fault :=
  | OutOfBounds      (* array access outside the array, string overrun *)
  | NullDeref
  | BadCast          (* a pointer used at the wrong type *)
  | Uninit           (* read of an indeterminate value *)
  | Assertion        (* serverAssert, serverPanic *)
  | Hang.            (* a loop that does not end *)

(** Replies a command queues for its client. *)
Inductive reply :=
  | ROk | RSyntaxErr | RWrongType | RNotRepl | REleExist | REleNexist
  | RNull | REmptyArray | RZero | REmptyBulk
  | RError (msg : sds)
  | RSds (s : sds)                   (* addReplySds, sent as is *)
  | RBool (b : bool)
  | RInt (n : Z)
  | RArrayLen (n : Z)
  | RBulk (s : sds)
  | RDouble (d : double).

(** A hash field holds the bytes of a pointer or of an [int]. *)
Inductive hval := HPtr (l : loc) | HInt (n : Z).

Inductive robj :=
  | OZset (z : zobj)
  | OHash (h : gmap sds hval)
  | OOther (type : Z).

Definition OBJ_ZSET : Z := 3.
Definition OBJ_HASH : Z := 4.

Definition robj_type (o : robj) : Z :=
  match o with OZset _ => OBJ_ZSET | OHash _ => OBJ_HASH | OOther t => t end.

(** [rargv] with the capacity of its allocation. *)
Record rargs := mkRargs { r_args : list sds; r_cap : Z }.

Record client := mkClient {
  argv : list sds;
  rargv : option rargs;
  c_replica : bool;        (* CLIENT_REPLICA *)
  c_message : bool;        (* CLIENT_REPLICA_MESSAGE *)
  c_reply : list reply
}.

Definition argc (c : client) : Z := Z.of_nat (length (argv c)).

Record world (cell : Type) := mkWorld {
  w_db : gmap sds robj;
  w_heap : gmap loc cell;
  w_dirty : Z;
  w_replicas : Z;          (* listLength(server.replicas) *)
  w_p2p_count : Z;
  w_p2p_id : Z;
  w_conf : zconf;
  w_rnd : list Z;
  w_client : client
}.
Arguments mkWorld {_} _ _ _ _ _ _ _ _ _.
Arguments w_db {_} _.
Arguments w_heap {_} _.
Arguments w_dirty {_} _.
Arguments w_replicas {_} _.
Arguments w_p2p_count {_} _.
Arguments w_p2p_id {_} _.
Arguments w_conf {_} _.
Arguments w_rnd {_} _.
Arguments w_client {_} _.

(** Metadata structs of type [A] live in a heap of [cell]s. *)
Class Stored (cell A : Type) := {
  to_cell : A → cell;
  of_cell : cell → option A;
  of_to_cell a : of_cell (to_cell a) = Some a
}.

(** ** The command monad *)

Inductive outcome (cell A : Type) :=
  | Done (a : A) (w : world cell)
  | Return (w : world cell)
  | Fault (f : fault).
Arguments Done {_ _} _ _.
Arguments Return {_ _} _.
Arguments Fault {_ _} _.

Definition M (cell A : Type) : Type := world cell → outcome cell A.

#[global] Instance M_ret cell : MRet (M cell) := λ A a w, Done a w.
#[global] Instance M_bind cell : MBind (M cell) := λ A B k m w,
  match m w with
  | Done a w' => k a w'
  | Return w' => Return w'
  | Fault f => Fault f
  end.

Section monad.
Context {cell : Type}.

Definition creturn {A} : M cell A := λ w, Return w.
Definition cfault {A} (f : fault) : M cell A := λ _, Fault f.
Definition get : M cell (world cell) := λ w, Done w w.
Definition put (w : world cell) : M cell () := λ _, Done () w.

(** Turn an absent value into a fault. *)
Definition orfault {A} (f : fault) (o : option A) : M cell A :=
  match o with Some a => mret a | None => cfault f end.

(** Run a whole command: falling off the end and [return] are the same. *)
Definition run (m : M cell ()) (w : world cell) : fault + world cell :=
  match m w with
  | Done _ w' => inr w'
  | Return w' => inr w'
  | Fault f => inl f
  end.

(** Field updates. *)
Definition set_db (db : gmap sds robj) (w : world cell) : world cell :=
  mkWorld db (w_heap w) (w_dirty w) (w_replicas w) (w_p2p_count w) (w_p2p_id w)
    (w_conf w) (w_rnd w) (w_client w).
Definition set_heap (h : gmap loc cell) (w : world cell) : world cell :=
  mkWorld (w_db w) h (w_dirty w) (w_replicas w) (w_p2p_count w) (w_p2p_id w)
    (w_conf w) (w_rnd w) (w_client w).
Definition set_dirty (n : Z) (w : world cell) : world cell :=
  mkWorld (w_db w) (w_heap w) n (w_replicas w) (w_p2p_count w) (w_p2p_id w)
    (w_conf w) (w_rnd w) (w_client w).
Definition set_rnd (r : list Z) (w : world cell) : world cell :=
  mkWorld (w_db w) (w_heap w) (w_dirty w) (w_replicas w) (w_p2p_count w) (w_p2p_id w)
    (w_conf w) r (w_client w).
Definition set_client (c : client) (w : world cell) : world cell :=
  mkWorld (w_db w) (w_heap w) (w_dirty w) (w_replicas w) (w_p2p_count w) (w_p2p_id w)
    (w_conf w) (w_rnd w) c.

Definition dirty_inc : M cell () := λ w, Done () (set_dirty (w_dirty w + 1) w).

(** *** Clients: replies and arguments *)

(** [addReply]: a replica link only receives what is sent while its
    [CLIENT_REPLICA_MESSAGE] flag is set (networking.c
    [prepareClientToWrite]). *)
Definition addReply (r : reply) : M cell () := λ w,
  let c := w_client w in
  if c_replica c && negb (c_message c) then Done () w
  else Done () (set_client (mkClient (argv c) (rargv c) (c_replica c) (c_message c)
                              (c_reply c ++ [r])) w).

(** [c->argv[i]->ptr] and [c->rargv[i]->ptr]. *)
Definition arg (i : nat) : M cell sds := λ w,
  orfault OutOfBounds (argv (w_client w) !! i) w.

Definition rarg (i : nat) : M cell sds := λ w,
  match rargv (w_client w) with
  | None => Fault NullDeref
  | Some r => orfault OutOfBounds (r_args r !! i) w
  end.

Definition rargc : M cell nat := λ w,
  match rargv (w_client w) with
  | None => Done 0%nat w
  | Some r => Done (length (r_args r)) w
  end.

(** In-place change of the string behind [c->argv[i]] or [c->rargv[i]]. *)
Definition arg_set (i : nat) (s : sds) : M cell () := λ w,
  let c := w_client w in
  Done () (set_client (mkClient (<[i := s]> (argv c)) (rargv c) (c_replica c) (c_message c)
                         (c_reply c)) w).

Definition rarg_set (i : nat) (s : sds) : M cell () := λ w,
  let c := w_client w in
  match rargv c with
  | None => Fault NullDeref
  | Some r =>
      Done () (set_client (mkClient (argv c) (Some (mkRargs (<[i := s]> (r_args r)) (r_cap r)))
                             (c_replica c) (c_message c) (c_reply c)) w)
  end.

Definition ADDITIONAL_CAPACITY : Z := 4.

Definition set_rargv (r : option rargs) (c : client) : client :=
  mkClient (argv c) r (c_replica c) (c_message c) (c_reply c).

(** CRDT.h [INIT_RARGV]. *)
Definition init_rargv (c : client) : rargs := mkRargs (argv c) (argc c + ADDITIONAL_CAPACITY).

Definition INIT_RARGV : M cell () := λ w,
  let c := w_client w in
  Done () (set_client (set_rargv (Some (init_rargv c)) c) w).

(** CRDT.h [_RARGV_ADD]: grow when full, then write at [rargc].  The capacity
    is an [int]. *)
Definition rargv_add (c : client) (s : sds) : option rargs :=
  let r := match rargv c with None => init_rargv c | Some r => r end in
  let n := Z.of_nat (length (r_args r)) in
  let cap := if n =? r_cap r then wrap32 (2 * r_cap r - argc c) else r_cap r in
  if n <? cap then Some (mkRargs (r_args r ++ [s]) cap) else None.

Definition RARGV_ADD_SDS (s : sds) : M cell () := λ w,
  let c := w_client w in
  match rargv_add c s with
  | Some r => Done () (set_client (set_rargv (Some r) c) w)
  | None => Fault OutOfBounds
  end.

(** *** Argument checks of the prepare phase (CRDT.h) *)

Definition CHECK_ARGC (max : Z) : M cell () := λ w,
  if (max <? argc (w_client w)) || (argc (w_client w) <? 2)
  then (addReply RSyntaxErr ≫= λ _, creturn) w
  else Done () w.

(** db.c [lookupKeyRead]/[lookupKeyWrite]; key expiry is not modelled. *)
Definition lookupKey (key : sds) : M cell (option robj) := λ w, Done (w_db w !! key) w.

Definition CHECK_CONTAINER_TYPE (type : Z) : M cell () :=
  key ← arg 1;
  o ← lookupKey key;
  match o with
  | Some o => if robj_type o =? type then mret () else addReply RWrongType;; creturn
  | None => mret ()
  end.

Definition CHECK_ARG_TYPE_INT (i : nat) : M cell () :=
  s ← arg i;
  match string2ll s with
  | Some _ => mret ()
  | None => addReply (RError "value is not an integer");; creturn
  end.

Definition CHECK_ARG_TYPE_DOUBLE (i : nat) : M cell () :=
  s ← arg i;
  match string2d s with
  | Some _ => mret ()
  | None => addReply (RError "value is not a valid float");; creturn
  end.

(** *** Keyspace and hash objects *)

(** db.c [dbAdd] asserts that the key is new. *)
Definition dbAdd (key : sds) (o : robj) : M cell () := λ w,
  match w_db w !! key with
  | Some _ => Fault Assertion
  | None => Done () (set_db (<[key := o]> (w_db w)) w)
  end.

(** A hash object is handled by the key that holds it. *)
Definition hashTypeGetValueObject (ht field : sds) : M cell (option hval) := λ w,
  match w_db w !! ht with
  | Some (OHash h) => Done (h !! field) w
  | Some _ => Fault BadCast
  | None => Fault NullDeref
  end.

Definition hashTypeSet (ht field : sds) (v : hval) : M cell () := λ w,
  match w_db w !! ht with
  | Some (OHash h) => Done () (set_db (<[ht := OHash (<[field := v]> h)]> (w_db w)) w)
  | Some _ => Fault BadCast
  | None => Fault NullDeref
  end.

(** RWFramework.c [getInnerHT]. *)
Definition getInnerHT (tname : sds) (suffix : option sds) (create : bool) : M cell (option sds) :=
  let htname := match suffix with Some sfx => tname +:+ sfx | None => tname end in
  ht ← lookupKey htname;
  match ht with
  | Some _ => mret (Some htname)
  | None => if create then dbAdd htname (OHash ∅);; mret (Some htname) else mret None
  end.

Section metadata.
Context {A : Type} `{!Stored cell A}.

(** Reading and writing through a pointer to a metadata struct. *)
Definition load (e : loc) : M cell A := λ w,
  match w_heap w !! e with
  | Some c => orfault BadCast (of_cell c) w
  | None => Fault NullDeref
  end.

Definition store (e : loc) (a : A) : M cell () := λ w,
  Done () (set_heap (<[e := to_cell a]> (w_heap w)) w).

(** [zmalloc] and initialisation of a new struct. *)
Definition alloc (a : A) : M cell loc := λ w,
  let e := fresh (dom (w_heap w)) in
  Done e (set_heap (<[e := to_cell a]> (w_heap w)) w).

(** RWFramework.c [rehHTGet]: the metadata struct of an element, created
    with [rehNew] on demand. *)
Definition rehHTGet (tname : sds) (suffix : option sds) (key : sds) (create : bool)
    (rehNew : world cell → A) : M cell (option loc) :=
  ht ← getInnerHT tname suffix create;
  match ht with
  | None => mret None
  | Some ht =>
      value ← hashTypeGetValueObject ht key;
      match value with
      | None =>
          if create then
            w ← get;
            e ← alloc (rehNew w);
            hashTypeSet ht key (HPtr e);;
            mret (Some e)
          else mret None
      | Some (HPtr e) => mret (Some e)
      | Some (HInt _) => cfault BadCast
      end
  end.
End metadata.

(** [vc_new()]: a zero clock owned by this server. *)
Definition vc_new (w : world cell) : vc := _vc_new (w_p2p_count w) (w_p2p_id w).

(** *** Sorted-set objects *)

(** t_ozset.c [getZsetOrCreate]; the handle is the key. *)
Definition getZsetOrCreate (zset_name element_name : sds) : M cell sds :=
  o ← lookupKey zset_name;
  match o with
  | Some _ => mret zset_name
  | None =>
      w ← get;
      dbAdd zset_name (OZset
        (if (zset_max_ziplist_entries (w_conf w) =? 0)
            || (zset_max_ziplist_value (w_conf w) <? sdslen element_name)
         then createZsetObject else createZsetZiplistObject));;
      mret zset_name
  end.

(** [flags = ZADD_NONE; zsetAdd(zset, score, ele, &flags, NULL)]. *)
Definition zset_add (zset : sds) (score : double) (ele : sds) : M cell () := λ w,
  match w_db w !! zset with
  | Some (OZset z) =>
      match zsetAdd (w_conf w) z score ele ZADD_NONE (w_rnd w) with
      | Some r => Done () (set_rnd (za_rnd r) (set_db (<[zset := OZset (za_obj r)]> (w_db w)) w))
      | None => Fault Assertion
      end
  | Some _ => Fault BadCast
  | None => Fault NullDeref
  end.

Definition zset_del (zset ele : sds) : M cell () := λ w,
  match w_db w !! zset with
  | Some (OZset z) =>
      match zsetDel z ele with
      | Some (z', _) => Done () (set_db (<[zset := OZset z']> (w_db w)) w)
      | None => Fault Assertion
      end
  | Some _ => Fault BadCast
  | None => Fault NullDeref
  end.

(** *** The command skeleton: CRDT_BEGIN, CRDT_PREPARE, CRDT_EFFECT, CRDT_END *)

Definition crdt_command (prepare effect : M cell ()) : M cell () :=
  w ← get;
  if negb (w_replicas w =? 0) || negb (w_p2p_count w =? 0) then
    (if negb (c_replica (w_client w)) then
       prepare;;
       addReply ROk;;
       w ← get;
       match rargv (w_client w) with None => INIT_RARGV | Some _ => mret () end
     else mret ());;
    effect;;
    w ← get;
    if c_message (w_client w) then addReply ROk else mret ()
  else addReply RNotRepl.

(** *** Read commands on the sorted set of a container *)

(** [lookupKeyReadOrReply] followed by [checkType(..., OBJ_ZSET)]. *)
Definition read_zset (missing : reply) : M cell zobj :=
  key ← arg 1;
  o ← lookupKey key;
  match o with
  | None => addReply missing;; creturn
  | Some (OZset z) => mret z
  | Some _ => addReply RWrongType;; creturn
  end.

(** Body shared by [oscontains], [rscontains] and [rwfscontains]. *)
Definition containsCommand : M cell () :=
  z ← read_zset RNull;
  m ← arg 2;
  r ← orfault NullDeref (zsetScore z m);
  addReply (RBool (match r with Some _ => true | None => false end)).

(** Body shared by [ossize], [rssize] and [rwfssize]. *)
Definition sizeCommand : M cell () :=
  z ← read_zset REmptyArray;
  addReply (RInt (zsetLength z)).

(** Body shared by [ozscore], [rzscore] and [rwfzscore]. *)
Definition scoreCommand : M cell () :=
  z ← read_zset RNull;
  m ← arg 2;
  r ← orfault NullDeref (zsetScore z m);
  addReply (match r with Some d => RDouble d | None => RNull end).

(** Body shared by [ozmax], [rzmax] and [rwfzmax]. *)
Definition maxCommand : M cell () :=
  z ← read_zset REmptyArray;
  if zsetLength z =? 0 then addReply REmptyArray
  else
    addReply (RArrayLen 2);;
    p ← orfault Assertion (zset_last z);
    addReply (RBulk p.1);;
    addReply (RDouble p.2).

(** [argv[i]->ptr] on an array passed as an argument. *)
Definition nth_arg (l : list sds) (i : nat) : M cell sds := orfault OutOfBounds (l !! i).

Definition rargs_from (i : nat) : M cell (list sds) := λ w,
  match rargv (w_client w) with
  | None => Fault NullDeref
  | Some r => Done (drop i (r_args r)) w
  end.

(** A bulk reply for each entry of a list. *)
Fixpoint reply_each {A} (f : A → M cell sds) (l : list A) : M cell () :=
  match l with
  | [] => mret ()
  | a :: l' => s ← f a; addReply (RBulk s);; reply_each f l'
  end.

End monad.

(** ** The argument vector of a message *)

(** Room for what is in it, with at least as much capacity as [INIT_RARGV]
    gives and at most twice what has been added. *)
Definition rargs_room (argc : Z) (r : rargs) : Prop :=
  let added := Z.of_nat (length (r_args r)) - argc in
  0 ≤ added ≤ r_cap r - argc ∧ ADDITIONAL_CAPACITY ≤ r_cap r - argc ≤ Z.max ADDITIONAL_CAPACITY (2 * added).

(** The argument vector that [_RARGV_ADD] extends. *)
Definition rargv_now (c : client) : rargs := default (init_rargv c) (rargv c).

Lemma rargv_add_room c s :
  rargs_room (argc c) (rargv_now c) → 2 * Z.of_nat (length (r_args (rargv_now c))) - argc c ≤ INT_MAX →
  ∃ r, rargv_add c s = Some r ∧ r_args r = r_args (rargv_now c) ++ [s] ∧ rargs_room (argc c) r.
Proof.
  unfold rargs_room, rargv_add, rargv_now, ADDITIONAL_CAPACITY. intros [Hl Hc] Hint.
  set (r := match rargv c with None => init_rargv c | Some r => r end) in *.
  assert (default (init_rargv c) (rargv c) = r) as Hr by (unfold r; by destruct (rargv c)). rewrite Hr in *.
  destruct (Z.eqb_spec (Z.of_nat (length (r_args r))) (r_cap r)) as [He|Hne];
    rewrite ?wrap32_id by (unfold int32, INT_MIN, argc in *; lia); (rewrite (proj2 (Z.ltb_lt _ _)) by lia); eexists; (split; [done|]; split; [done|]); simpl; rewrite length_app; simpl; lia.
Qed.

Lemma init_rargv_room c : rargv c = None → rargs_room (argc c) (rargv_now c).
Proof.
  intros Hc. unfold rargs_room, rargv_now. rewrite Hc. simpl. unfold argc, ADDITIONAL_CAPACITY. lia.
Qed.
