(* ===== verification/Container.v ===== *)
(** * Containers in the keyspace

    Five of the data types keep a container [key] the same way: a sorted set
    under [key] with the visible members, and under [key] followed by a
    suffix a hash table from elements to pointers to their metadata structs.
    [cont] relates a world to the maps such a container stands for, and the
    lemmas below run the shared operations of RWFramework.c and t_ozset.c on
    it.  [steps] is the frame: no other key, no metadata struct of another
    container and no other part of the server changes. *)

From S2P Require Import Prelude.
From S2P Require Import Sds.
From S2P Require Import VectorClock.
From S2P Require Import Double.
From S2P Require Import Skiplist.
From S2P Require Import Zset.
From S2P Require Import ZsetRep.
From S2P Require Import Server.

#[local] Open Scope Z_scope.

(** ** Running commands *)

Lemma bind_Done {cell A B} (m : M cell A) (k : A → M cell B) w a w' :
  m w = Done a w' → (m ≫= k) w = k a w'.
Proof. intros H. unfold mbind, M_bind. by rewrite H. Qed.

Lemma bind_Return {cell A B} (m : M cell A) (k : A → M cell B) w w' :
  m w = Return w' → (m ≫= k) w = Return w'.
Proof. intros H. unfold mbind, M_bind. by rewrite H. Qed.

Lemma bind_Fault {cell A B} (m : M cell A) (k : A → M cell B) w f :
  m w = Fault f → (m ≫= k) w = Fault f.
Proof. intros H. unfold mbind, M_bind. by rewrite H. Qed.

(** Run the first command of a sequence with a lemma or hypothesis. *)
Ltac mstep H := rewrite (bind_Done _ _ _ _ _ H).

Section rargs.
Context {cell : Type}.
Implicit Types w : world cell.

Lemma rarg_spec w r i s :
  rargv (w_client w) = Some r → r_args r !! i = Some s → rarg i w = Done s w.
Proof. intros Hr Hs. unfold rarg. rewrite Hr, Hs. done. Qed.

Lemma arg_spec w i s : argv (w_client w) !! i = Some s → arg i w = Done s w.
Proof. intros Hs. unfold arg. by rewrite Hs. Qed.

Lemma rargc_spec w r : rargv (w_client w) = Some r → rargc w = Done (length (r_args r)) w.
Proof. intros Hr. unfold rargc. by rewrite Hr. Qed.
End rargs.

(** ** Histories of a container *)

(** The operations of a history on one element. *)
Definition ops_of {B} (ele : sds) (hist : list (sds * B)) : list B :=
  snd <$> filter (λ p, p.1 = ele) hist.

Lemma ops_of_snoc {B} ele hist (p : sds * B) :
  ops_of ele (hist ++ [p]) = ops_of ele hist ++ (if decide (p.1 = ele) then [p.2] else []).
Proof.
  unfold ops_of. rewrite filter_app, fmap_app. f_equal. rewrite filter_cons, filter_nil.
  by case_decide.
Qed.

Lemma ops_of_Forall {B} (P : B → Prop) ele hist :
  Forall (λ p, P p.2) hist → Forall P (ops_of ele hist).
Proof.
  intros H. unfold ops_of. rewrite Forall_fmap, Forall_forall. rewrite Forall_forall in H.
  intros p [_ Hp]%list_elem_of_filter. by apply H.
Qed.

Lemma elem_of_ops_of {B} ele hist (op : B) : op ∈ ops_of ele hist ↔ (ele, op) ∈ hist.
Proof.
  unfold ops_of. rewrite list_elem_of_fmap. split.
  - intros ([e o] & -> & [He Hin]%list_elem_of_filter). simpl in *. by subst.
  - intros Hin. exists (ele, op). split; [done|]. by apply list_elem_of_filter.
Qed.

Lemma ops_of_perm {B} ele (h1 h2 : list (sds * B)) : h1 ≡ₚ h2 → ops_of ele h1 ≡ₚ ops_of ele h2.
Proof. intros H. unfold ops_of. by rewrite H. Qed.

(** ** Containers *)

(** Table suffixes are not empty, so a container and its table have different
    keys. *)
Class Suffix (sfx : sds) : Prop := suffix_ne : sfx ≠ "".

Section container.
Context {cell A : Type} `{!Stored cell A} (sfx : sds) `{!Suffix sfx}.
Implicit Types (w : world cell) (key ele : sds) (ptrs : gmap sds loc) (Ms : gmap sds A).
Implicit Types o : option (gmap sds double).

Definition hkey (key : sds) : sds := key +:+ sfx.

Record cont w key ptrs Ms o : Prop := {
  c_hash : w_db w !! hkey key = Some (OHash (HPtr <$> ptrs)) ∨ (w_db w !! hkey key = None ∧ ptrs = ∅);
  c_dom e : ptrs !! e = None ↔ Ms !! e = None;
  c_heap e l a : ptrs !! e = Some l → Ms !! e = Some a → w_heap w !! l = Some (to_cell a);
  c_inj e1 e2 l : ptrs !! e1 = Some l → ptrs !! e2 = Some l → e1 = e2;
  c_zset : match o with
           | None => w_db w !! key = None
           | Some m => ∃ z, w_db w !! key = Some (OZset z) ∧ zset_rep z m
           end
}.

(** What a command on container [key] leaves alone. *)
Record steps key w ptrs w' ptrs' : Prop := {
  st_db k : k ≠ key → k ≠ hkey key → w_db w' !! k = w_db w !! k;
  st_heap l : is_Some (w_heap w !! l) → (∀ e, ptrs !! e ≠ Some l) → w_heap w' !! l = w_heap w !! l;
  st_dom l : is_Some (w_heap w !! l) → is_Some (w_heap w' !! l);
  st_ptrs e l : ptrs' !! e = Some l → ptrs !! e = Some l ∨ w_heap w !! l = None;
  st_rest : (w_replicas w', w_p2p_count w', w_p2p_id w', w_conf w', w_client w')
            = (w_replicas w, w_p2p_count w, w_p2p_id w, w_conf w, w_client w)
}.

Lemma steps_refl key w ptrs : steps key w ptrs w ptrs.
Proof using Type. split; auto. Qed.

Lemma steps_trans key w ptrs w1 ptrs1 w2 ptrs2 :
  steps key w ptrs w1 ptrs1 → steps key w1 ptrs1 w2 ptrs2 → steps key w ptrs w2 ptrs2.
Proof using Type.
  intros [D1 H1 G1 P1 R1] [D2 H2 G2 P2 R2].
  assert (∀ l, w_heap w1 !! l = None → w_heap w !! l = None) as HN.
  { intros l Hl. destruct (w_heap w !! l) eqn:Hw; [|done]. destruct (G1 l) as [? ?]; [by eexists|]. congruence. }
  split.
  - intros k Hk Hk'. by rewrite D2, D1.
  - intros l Hl Hn. rewrite H2; [by apply H1|by apply G1|]. intros e He.
    destruct (P1 e l He) as [He'|Hw]; [by apply (Hn e)|]. rewrite Hw in Hl. by destruct Hl.
  - intros l Hl. by apply G2, G1.
  - intros e l He. destruct (P2 e l He) as [He'|Hw]; [by apply P1|right; by apply HN].
  - by rewrite R2, R1.
Qed.

Lemma hkey_ne key : hkey key ≠ key.
Proof.
  unfold hkey. intros H. apply (f_equal String.length) in H. revert H. pose proof suffix_ne as Hne.
  destruct sfx as [|a s]; [done|]. induction key as [|b key IH]; simpl; [done|].
  intros H. apply IH. lia.
Qed.

Lemma steps_client key w ptrs w' ptrs' :
  steps key w ptrs w' ptrs' →
  w_replicas w' = w_replicas w ∧ w_p2p_count w' = w_p2p_count w ∧ w_p2p_id w' = w_p2p_id w ∧
  w_conf w' = w_conf w ∧ w_client w' = w_client w.
Proof using Type. intros [_ _ _ _ [= -> -> -> -> ->]]. done. Qed.

Lemma steps_rargv key w ptrs w' ptrs' r :
  steps key w ptrs w' ptrs' → rargv (w_client w) = Some r → rargv (w_client w') = Some r.
Proof using Type. intros S Hr. apply steps_client in S as (_ & _ & _ & _ & ->). done. Qed.

(** *** Metadata structs *)

(** The hash table is there, and [ele] points to [l]. *)
Lemma cont_ptr w key ptrs Ms o ele l :
  cont w key ptrs Ms o → ptrs !! ele = Some l →
  w_db w !! hkey key = Some (OHash (HPtr <$> ptrs)) ∧
  ∃ a, Ms !! ele = Some a ∧ w_heap w !! l = Some (to_cell a).
Proof using Type.
  intros C Hl. split.
  - destruct (c_hash _ _ _ _ _ C) as [|[_ ->]]; done.
  - destruct (Ms !! ele) as [a|] eqn:Ha; [|apply (c_dom _ _ _ _ _ C) in Ha; congruence].
    exists a. split; [done|]. by eapply (c_heap _ _ _ _ _ C).
Qed.

Lemma load_spec w key ptrs Ms o ele l a :
  cont w key ptrs Ms o → ptrs !! ele = Some l → Ms !! ele = Some a → load l w = Done a w.
Proof using Type.
  intros C Hl Ha. unfold load. rewrite (c_heap _ _ _ _ _ C ele l a Hl Ha), of_to_cell. done.
Qed.

Lemma store_spec w key ptrs Ms o ele l a :
  cont w key ptrs Ms o → ptrs !! ele = Some l →
  ∃ w', store l a w = Done () w' ∧ cont w' key ptrs (<[ele := a]> Ms) o ∧ steps key w ptrs w' ptrs.
Proof using Type.
  intros C Hl. eexists. split; [done|]. destruct (cont_ptr _ _ _ _ _ _ _ C Hl) as (_ & a0 & Ha0 & Hheap).
  split; split; simpl; try apply C.
  - intros e. rewrite (c_dom _ _ _ _ _ C e). destruct (decide (e = ele)) as [->|].
    + by rewrite lookup_insert_eq, Ha0.
    + by rewrite lookup_insert_ne.
  - intros e l' a' He Ha'. destruct (decide (e = ele)) as [->|Hne].
    + rewrite lookup_insert_eq in Ha'. simplify_eq. by rewrite lookup_insert_eq.
    + rewrite lookup_insert_ne in Ha' by done. rewrite lookup_insert_ne.
      * by eapply (c_heap _ _ _ _ _ C).
      * intros ->. apply Hne. by eapply (c_inj _ _ _ _ _ C).
  - done.
  - intros l' _ Hn. rewrite lookup_insert_ne; [done|]. intros ->. by apply (Hn ele).
  - intros l' Hl'. destruct (decide (l = l')) as [->|]; [rewrite lookup_insert_eq; by eexists|].
    by rewrite lookup_insert_ne.
  - auto.
  - done.
Qed.

(** The hash table of a container, found or created. *)
Lemma getInnerHT_spec w key ptrs Ms o create :
  cont w key ptrs Ms o →
  (getInnerHT key (Some sfx) create w = Done None w ∧ create = false ∧ ptrs = ∅) ∨
  ∃ db, getInnerHT key (Some sfx) create w = Done (Some (hkey key)) (set_db db w) ∧
    db !! hkey key = Some (OHash (HPtr <$> ptrs)) ∧
    (create = false → db = w_db w) ∧
    ∀ x, <[hkey key := x]> db = <[hkey key := x]> (w_db w).
Proof.
  intros C. unfold getInnerHT, lookupKey, dbAdd, mbind, M_bind. simpl. fold (hkey key).
  destruct (c_hash _ _ _ _ _ C) as [Hh|[Hh Hp]]; rewrite Hh.
  - right. exists (w_db w). split_and!; try done. by destruct w.
  - destruct create; [|by left]. right. rewrite Hh. eexists. split; [done|].
    rewrite lookup_insert_eq, Hp, fmap_empty. split_and!; try done. intros. by rewrite insert_insert_eq.
Qed.

(** [rehHTGet] without creation. *)
Lemma rehHTGet_find w key ptrs Ms o ele rehNew :
  cont w key ptrs Ms o → rehHTGet key (Some sfx) ele false rehNew w = Done (ptrs !! ele) w.
Proof.
  intros C. unfold rehHTGet.
  destruct (getInnerHT_spec w key ptrs Ms o false C) as [(Hg & _ & ->)|(db & Hg & Hdb & Heq & _)]; mstep Hg.
  - done.
  - rewrite (Heq eq_refl) in *. unfold hashTypeGetValueObject, mbind, M_bind. simpl. rewrite Hdb, lookup_fmap.
    destruct w. by destruct (ptrs !! ele).
Qed.

(** Extending the hash table with a fresh struct. *)
Lemma cont_extend w key ptrs Ms o ele l a :
  cont w key ptrs Ms o → ptrs !! ele = None → w_heap w !! l = None →
  let w' := set_db (<[hkey key := OHash (HPtr <$> <[ele := l]> ptrs)]> (w_db w))
              (set_heap (<[l := to_cell a]> (w_heap w)) w) in
  cont w' key (<[ele := l]> ptrs) (<[ele := a]> Ms) o ∧ steps key w ptrs w' (<[ele := l]> ptrs).
Proof.
  intros C He Hl w'.
  assert (∀ e l', ptrs !! e = Some l' → l' ≠ l) as Hnew.
  { intros e l' He' ->. destruct (cont_ptr _ _ _ _ _ _ _ C He') as (_ & a' & _ & Hh). congruence. }
  split; split; simpl.
  - left. by rewrite lookup_insert_eq.
  - intros e. destruct (decide (e = ele)) as [->|]; [by rewrite !lookup_insert_eq|].
    rewrite !lookup_insert_ne by done. apply C.
  - intros e l' a' He' Ha'. destruct (decide (e = ele)) as [->|].
    + rewrite lookup_insert_eq in He'. rewrite lookup_insert_eq in Ha'. simplify_eq. by rewrite lookup_insert_eq.
    + rewrite lookup_insert_ne in He' by done. rewrite lookup_insert_ne in Ha' by done. rewrite lookup_insert_ne; [by eapply (c_heap _ _ _ _ _ C)|].
      intros ->. by eapply Hnew.
  - intros e1 e2 l'. destruct (decide (e1 = ele)) as [->|H1], (decide (e2 = ele)) as [->|H2];
      rewrite ?lookup_insert_eq, ?lookup_insert_ne by done; intros; simplify_eq; try done.
    + exfalso. by eapply Hnew.
    + exfalso. by eapply Hnew.
    + by eapply (c_inj _ _ _ _ _ C).
  - rewrite lookup_insert_ne by apply hkey_ne. apply C.
  - intros k Hk Hk'. by rewrite lookup_insert_ne.
  - intros l' Hl' _. rewrite lookup_insert_ne; [done|]. intros ->. rewrite Hl in Hl'. by destruct Hl'.
  - intros l' Hl'. destruct (decide (l = l')) as [->|]; [rewrite lookup_insert_eq; by eexists|].
    by rewrite lookup_insert_ne.
  - intros e l' He'. destruct (decide (e = ele)) as [->|].
    + rewrite lookup_insert_eq in He'. simplify_eq. by right.
    + rewrite lookup_insert_ne in He' by done. by left.
  - done.
Qed.

(** [rehHTGet] with creation: the struct of the element, new or old. *)
Lemma rehHTGet_create w key ptrs Ms o ele rehNew :
  cont w key ptrs Ms o → (∀ db, rehNew (set_db db w) = rehNew w) →
  ∃ w' l ptrs', rehHTGet key (Some sfx) ele true rehNew w = Done (Some l) w' ∧
    ptrs' !! ele = Some l ∧
    cont w' key ptrs' (<[ele := default (rehNew w) (Ms !! ele)]> Ms) o ∧
    steps key w ptrs w' ptrs'.
Proof.
  intros C Hnew. destruct (ptrs !! ele) as [l|] eqn:Hl.
  - destruct (cont_ptr _ _ _ _ _ _ _ C Hl) as (Hh & a & Ha & _). exists w, l, ptrs.
    rewrite Ha. simpl. rewrite insert_id by done. split_and!; try done; [|apply steps_refl].
    unfold rehHTGet, getInnerHT, lookupKey, hashTypeGetValueObject, mbind, M_bind. simpl. fold (hkey key).
    rewrite Hh. cbv beta iota. unfold mret, M_ret. cbv beta iota. rewrite Hh. cbv beta iota. by rewrite lookup_fmap, Hl.
  - set (l := fresh (dom (w_heap w))).
    assert (w_heap w !! l = None) as Hfresh by (apply not_elem_of_dom, is_fresh).
    destruct (cont_extend w key ptrs Ms o ele l (rehNew w) C Hl Hfresh) as [C' Hst].
    rewrite (proj1 (c_dom _ _ _ _ _ C ele) Hl). simpl.
    eexists _, l, (<[ele := l]> ptrs). split_and!; [|apply lookup_insert_eq|exact C'|exact Hst].
    unfold rehHTGet.
    destruct (getInnerHT_spec w key ptrs Ms o true C) as [(_ & ? & _)|(db & Hg & Hdb & _ & Hins)]; [done|].
    mstep Hg. unfold hashTypeGetValueObject, get, alloc, hashTypeSet, mbind, M_bind. simpl.
    rewrite Hdb, lookup_fmap, Hl. simpl. rewrite Hnew, Hdb. fold l. unfold set_db, set_heap. simpl.
    by rewrite <- fmap_insert, Hins.
Qed.

(** *** The sorted set *)

Lemma cont_zset w key ptrs Ms o z m rnd dirty :
  cont w key ptrs Ms o → zset_rep z m →
  let w' := mkWorld (<[key := OZset z]> (w_db w)) (w_heap w) dirty (w_replicas w) (w_p2p_count w)
              (w_p2p_id w) (w_conf w) rnd (w_client w) in
  cont w' key ptrs Ms (Some m) ∧ steps key w ptrs w' ptrs.
Proof.
  intros C Hz w'. split; split; simpl; try apply C.
  - rewrite lookup_insert_ne by (apply not_eq_sym, hkey_ne). apply C.
  - exists z. by rewrite lookup_insert_eq.
  - intros k Hk _. by rewrite lookup_insert_ne.
  - done.
  - done.
  - auto.
  - done.
Qed.

Lemma getZset_run w key ptrs Ms o ele :
  cont w key ptrs Ms o →
  ∃ w', getZsetOrCreate key ele w = Done key w' ∧ cont w' key ptrs Ms (Some (default ∅ o)) ∧
    steps key w ptrs w' ptrs.
Proof.
  intros C. unfold getZsetOrCreate, lookupKey, get, dbAdd, mbind, M_bind. simpl.
  pose proof (c_zset _ _ _ _ _ C) as Hk. destruct o as [m|]; [destruct Hk as (z & Hk & Hz)|]; rewrite Hk.
  - exists w. split; [done|]. split; [done|apply steps_refl].
  - rewrite Hk. eexists. split; [done|]. unfold set_db.
    apply (cont_zset w key ptrs Ms None); [done|]. destruct (_ || _); apply zset_rep_empty.
Qed.

Lemma zset_add_run w key ptrs Ms m ele score :
  cont w key ptrs Ms (Some m) →
  ∃ w', zset_add key score ele w = Done () w' ∧
    cont w' key ptrs Ms (Some (zmap_add m score ele ZADD_NONE).1.1) ∧ steps key w ptrs w' ptrs.
Proof.
  intros C. pose proof (c_zset _ _ _ _ _ C) as (z & Hk & Hz). unfold zset_add. rewrite Hk.
  destruct (zsetAdd_spec (w_conf w) z m score ele ZADD_NONE (w_rnd w) Hz) as (r & -> & Hr & _).
  eexists. split; [done|]. by apply (cont_zset w key ptrs Ms (Some m)).
Qed.

Lemma zset_del_run w key ptrs Ms m ele :
  cont w key ptrs Ms (Some m) →
  ∃ w', zset_del key ele w = Done () w' ∧ cont w' key ptrs Ms (Some (delete ele m)) ∧
    steps key w ptrs w' ptrs.
Proof.
  intros C. pose proof (c_zset _ _ _ _ _ C) as (z & Hk & Hz). unfold zset_del. rewrite Hk.
  destruct (zsetDel_spec z m ele Hz) as (z' & -> & Hz').
  eexists. split; [done|]. by apply (cont_zset w key ptrs Ms (Some m)).
Qed.

(** [zset = getZsetOrCreate(...); zsetAdd(zset, score, ele, ...)], and with
    [zsetDel], before whatever comes next. *)
Lemma publish_spec {B} w key ptrs Ms o ele score (k : M cell B) :
  cont w key ptrs Ms o →
  ∃ w', (zset ← getZsetOrCreate key ele; zset_add zset score ele;; k) w = k w' ∧
    cont w' key ptrs Ms (Some (zmap_add (default ∅ o) score ele ZADD_NONE).1.1) ∧ steps key w ptrs w' ptrs.
Proof.
  intros C. destruct (getZset_run w key ptrs Ms o ele C) as (w1 & Hg & C1 & S1).
  destruct (zset_add_run w1 key ptrs Ms _ ele score C1) as (w2 & Ha & C2 & S2).
  mstep Hg. mstep Ha. exists w2. split; [done|]. split; [done|by eapply steps_trans].
Qed.

Lemma withdraw_spec {B} w key ptrs Ms o ele (k : M cell B) :
  cont w key ptrs Ms o →
  ∃ w', (zset ← getZsetOrCreate key ele; zset_del zset ele;; k) w = k w' ∧
    cont w' key ptrs Ms (Some (delete ele (default ∅ o))) ∧ steps key w ptrs w' ptrs.
Proof.
  intros C. destruct (getZset_run w key ptrs Ms o ele C) as (w1 & Hg & C1 & S1).
  destruct (zset_del_run w1 key ptrs Ms _ ele C1) as (w2 & Ha & C2 & S2).
  mstep Hg. mstep Ha. exists w2. split; [done|]. split; [done|by eapply steps_trans].
Qed.

Lemma dirty_spec w key ptrs Ms o :
  cont w key ptrs Ms o →
  ∃ w', dirty_inc w = Done () w' ∧ cont w' key ptrs Ms o ∧ steps key w ptrs w' ptrs.
Proof using Type. intros C. eexists. split; [done|]. split; split; simpl; try apply C; auto. Qed.

End container.
