(* ===== verification/Rwf.v ===== *)
(** * The Remove-Win framework (src/RWFramework.h)

    Every element of a Remove-Win data type starts with a header [reh]: the
    server whose add is in force ([pid]) and the join of the removes seen so
    far ([current]).  The checks below are what the effect phase of every
    such type runs on the clock [t] of an operation. *)

From S2P Require Import Prelude.
From S2P Require Import Sds.
From S2P Require Import VectorClock.
From S2P Require Import Zset.
From S2P Require Import Server.
From S2P Require Import Container.

#[local] Open Scope Z_scope.

(** ** Data *)

Record reh := mkReh { pid : Z; current : vc }.

#[global] Instance reh_eq_dec : EqDecision reh.
Proof. solve_decision. Defined.

Definition PID_NEXIST : Z := -1.
Definition PID_WAIT_INNATE : Z := -2.

Definition REH_INIT (clock : vc) : reh := mkReh PID_NEXIST clock.

Definition EXISTS (h : reh) : bool := negb (pid h =? PID_NEXIST).

Definition REH_RMV_FUNC (h : reh) (t : vc) : reh :=
  mkReh PID_NEXIST (vc_update (current h) t).

(** ** Checks *)

Definition addCheck (h : reh) (t : vc) : reh * bool :=
  if negb (vc_equal t (current h)) then (h, false)
  else if pid h <? vid t then (mkReh (vid t) (current h), true)
  else (h, false).

Definition updateCheck (h : reh) (t : vc) : reh * bool :=
  if negb (vc_equal t (current h)) then (h, false)
  else (if EXISTS h then h else mkReh PID_WAIT_INNATE (current h), true).

(** The scan for a component of [t] ahead of [current]; [None] when
    [current] is the shorter array. *)
Fixpoint removeCheck_loop (cur t : list Z) : option bool :=
  match t, cur with
  | [], _ => Some false
  | y :: t', x :: cur' => if x <? y then Some true else removeCheck_loop cur' t'
  | _ :: _, [] => None
  end.

Definition removeCheck (h : reh) (t : vc) : option (reh * bool) :=
  match removeCheck_loop (vector (current h)) (vector t) with
  | Some true => Some (REH_RMV_FUNC h t, true)
  | Some false => Some (h, false)
  | None => None
  end.

(** ** Macros of the prepare phase *)

Section prepare.
Context {cell : Type}.

Definition PREPARE_PRECOND_ADD (e : option reh) : M cell () :=
  match e with
  | Some h => if EXISTS h then addReply REleExist;; creturn else mret ()
  | None => mret ()
  end.

(** Returns the header, which is there when the check passes. *)
Definition PREPARE_PRECOND_NON_ADD (e : option reh) : M cell reh :=
  match e with
  | Some h => if EXISTS h then mret h else addReply REleNexist;; creturn
  | None => addReply REleNexist;; creturn
  end.

(** Append the clock of the operation to [rargv]. *)
Definition ADD_CR_NON_RMV (h : reh) : M cell () :=
  s ← orfault OutOfBounds (vcToSds (current h));
  RARGV_ADD_SDS s.

Definition ADD_CR_RMV (h : reh) : M cell () :=
  s ← orfault OutOfBounds (vc_now (current h));
  RARGV_ADD_SDS s.

Definition CR_GET (n : nat) : M cell vc :=
  s ← rarg n;
  orfault OutOfBounds (sdsToVC s).

Definition CR_GET_LAST : M cell vc :=
  n ← rargc;
  match n with
  | O => cfault OutOfBounds
  | S n' => CR_GET n'
  end.

End prepare.

(** ** The effect of an operation

    The three kinds of operations of a Remove-Win type as their effect phases
    compose the checks: first [removeCheck], resetting the payload [P] to
    [p0] when it passes, then the check of the kind.  [onadd] and [onupd] say
    what an add or update that passes does to the payload. *)

Inductive rwf_kind := RwfAdd | RwfUpdate | RwfRem.

#[global] Instance rwf_kind_eq_dec : EqDecision rwf_kind.
Proof. solve_decision. Defined.

Record rwf_op (A : Type) := mkRwfOp { op_kind : rwf_kind; op_t : vc; op_arg : A }.
Arguments mkRwfOp {_} _ _ _.
Arguments op_kind {_} _.
Arguments op_t {_} _.
Arguments op_arg {_} _.

Section effect.
Context {P A : Type} (p0 : P) (onadd onupd : A → P → P).
Implicit Types (s : reh * P) (op : rwf_op A).

Definition rwf_effect s op : option (reh * P) :=
  '(h, b) ← removeCheck s.1 (op_t op);
  let p := if (b : bool) then p0 else s.2 in
  Some (match op_kind op with
        | RwfAdd => let '(h, b) := addCheck h (op_t op) in (h, if b then onadd (op_arg op) p else p)
        | RwfUpdate => let '(h, b) := updateCheck h (op_t op) in (h, if b then onupd (op_arg op) p else p)
        | RwfRem => (h, p)
        end).

Fixpoint rwf_run s (l : list (rwf_op A)) : option (reh * P) :=
  match l with
  | [] => Some s
  | op :: l' => s' ← rwf_effect s op; rwf_run s' l'
  end.

(** *** What the state is a function of

    [rwf_join]: the join of the clocks received.  [rwf_live]: the operations
    whose clock is that join.  Only these count: [rwf_step] applies one of
    them. *)

Definition rwf_join (c : vc) (l : list (rwf_op A)) : vc :=
  foldl (λ c op, vc_update c (op_t op)) c l.

Definition rwf_live (c : vc) (l : list (rwf_op A)) : list (rwf_op A) :=
  filter (λ op, vector (op_t op) = vector (rwf_join c l)) l.

Definition rwf_step (s : Z * P) op : Z * P :=
  match op_kind op with
  | RwfAdd => if s.1 <? vid (op_t op) then (vid (op_t op), onadd (op_arg op) s.2) else s
  | RwfUpdate => (if s.1 =? PID_NEXIST then PID_WAIT_INNATE else s.1, onupd (op_arg op) s.2)
  | RwfRem => s
  end.

(** Operations of one system of [n] servers. *)
Definition rwf_ok (n : Z) op : Prop := vsize (op_t op) = n ∧ 0 ≤ vid (op_t op).

End effect.

(** ** Lemmas *)

(** The clock of an operation is its last argument. *)
Lemma CR_GET_LAST_spec {cell} (w : world cell) r s t :
  rargv (w_client w) = Some r → last (r_args r) = Some s → sdsToVC s = Some t → CR_GET_LAST w = Done t w.
Proof.
  intros Hr Hs Ht. unfold CR_GET_LAST. mstep (rargc_spec w r Hr).
  apply last_Some in Hs as [l Hl]. rewrite Hl, length_app. simpl. rewrite Nat.add_1_r. unfold CR_GET.
  assert (rarg (cell := cell) (length l) w = Done s w) as Hg.
  { apply (rarg_spec w r); [done|]. rewrite Hl. by apply list_lookup_middle. }
  mstep Hg. by rewrite Ht.
Qed.

Lemma removeCheck_loop_spec cur t :
  length cur = length t →
  ∃ b, removeCheck_loop cur t = Some b ∧ (b = false ↔ Forall2 Z.le t cur).
Proof.
  revert t. induction cur as [|x cur IH]; intros [|y t]; simpl; intros Hl; try done; [by exists false|].
  destruct (Z.ltb_spec x y) as [Hxy|Hxy].
  - exists true. split; [done|]. split; [done|]. inversion 1. lia.
  - destruct (IH t) as (b & -> & Hb); [lia|]. exists b. split; [done|].
    rewrite Hb. split; [by constructor|by inversion 1].
Qed.

#[local] Open Scope crdt_scope.

(** [removeCheck] passes exactly when [t] holds something new. *)
Lemma removeCheck_spec h t :
  vsize (current h) = vsize t →
  removeCheck h t = Some (if decide (t ≤ᵥ current h) then (h, false) else (REH_RMV_FUNC h t, true)).
Proof.
  intros Hs. unfold removeCheck.
  destruct (removeCheck_loop_spec (vector (current h)) (vector t)) as (b & -> & Hb);
    [unfold vsize in Hs; lia|].
  case_decide as Hd.
  - by rewrite (proj2 Hb Hd).
  - destruct b; [done|]. by destruct Hd; apply Hb.
Qed.

Lemma vc_equal_dec_spec c1 c2 : vc_equal c1 c2 = bool_decide (vector c1 = vector c2).
Proof.
  case_bool_decide as H; [by apply vc_equal_spec|].
  destruct (vc_equal c1 c2) eqn:He; [by apply vc_equal_spec in He|done].
Qed.

Section joins.
Context {A : Type}.
Implicit Types (op : rwf_op A) (l : list (rwf_op A)).

Lemma vsize_rwf_join c l : vsize (rwf_join c l) = vsize c.
Proof.
  revert c. induction l as [|op l IH]; intros c; [done|].
  rewrite <- (vsize_vc_update c (op_t op)). apply IH.
Qed.

Lemma vid_rwf_join c l : vid (rwf_join c l) = vid c.
Proof.
  revert c. induction l as [|op l IH]; intros c; [done|].
  rewrite <- (vid_vc_update c (op_t op)). apply IH.
Qed.

Lemma rwf_join_snoc c l op : rwf_join c (l ++ [op]) = vc_update (rwf_join c l) (op_t op).
Proof. unfold rwf_join. by rewrite foldl_app. Qed.

Lemma rwf_join_upper c l op :
  Forall (rwf_ok (vsize c)) l → op ∈ l → op_t op ≤ᵥ rwf_join c l.
Proof.
  induction l as [|op' l IH] using rev_ind; [by intros _ ?%elem_of_nil|].
  rewrite Forall_app, Forall_singleton. intros [Hl [Hs _]] Hin. rewrite rwf_join_snoc.
  assert (vsize (rwf_join c l) = vsize (op_t op')) as Hsz by (by rewrite vsize_rwf_join).
  apply elem_of_app in Hin as [Hin|Hin].
  - eapply vle_trans; [by apply IH|by apply vc_update_l].
  - apply list_elem_of_singleton in Hin as ->. by apply vc_update_r.
Qed.

Lemma rwf_live_snoc c l op :
  Forall (rwf_ok (vsize c)) l → rwf_ok (vsize c) op →
  rwf_live c (l ++ [op]) =
  (if decide (op_t op ≤ᵥ rwf_join c l) then rwf_live c l else [])
  ++ (if decide (rwf_join c l ≤ᵥ op_t op) then [op] else []).
Proof.
  intros Hl [Hs Hid]. unfold rwf_live. rewrite filter_app, rwf_join_snoc. set (J := rwf_join c l).
  assert (vsize J = vsize (op_t op)) as Hsz by (unfold J; by rewrite vsize_rwf_join).
  f_equal.
  - case_decide as Hd.
    + by rewrite vc_update_absorb.
    + apply filter_none. intros o Ho Heq. apply Hd.
      eapply vle_trans; [by apply vc_update_r|]. unfold vle. rewrite <- Heq.
      by apply rwf_join_upper.
  - rewrite filter_cons, filter_nil. case_decide as H1; case_decide as H2; try done.
    + destruct H2. unfold vle. rewrite H1. by apply vc_update_l.
    + destruct H1. by rewrite vc_update_grow.
Qed.

End joins.

Section effect_lemmas.
Context {P A : Type} (p0 : P) (onadd onupd : A → P → P).
Implicit Types (op : rwf_op A) (l : list (rwf_op A)).

(** Adding one live operation, or none. *)
Lemma rwf_check_spec op J (st : Z * P) :
  vsize J = vsize (op_t op) → 0 ≤ vid (op_t op) →
  let h := mkReh st.1 (vc_update J (op_t op)) in
  match op_kind op with
  | RwfAdd => let '(h, b) := addCheck h (op_t op) in (h, if b then onadd (op_arg op) st.2 else st.2)
  | RwfUpdate => let '(h, b) := updateCheck h (op_t op) in (h, if b then onupd (op_arg op) st.2 else st.2)
  | RwfRem => (h, st.2)
  end
  = let st' := if decide (J ≤ᵥ op_t op) then rwf_step onadd onupd st op else st in
    (mkReh st'.1 (vc_update J (op_t op)), st'.2).
Proof.
  intros Hs Hid h.
  assert (vc_equal (op_t op) (current h) = bool_decide (J ≤ᵥ op_t op)) as Heq.
  { rewrite vc_equal_dec_spec. apply bool_decide_ext. unfold h; simpl. split; intros H1.
    - unfold vle. rewrite H1. by apply vc_update_l.
    - by rewrite vc_update_grow. }
  unfold addCheck, updateCheck. rewrite Heq.
  case_decide as Hd; [rewrite bool_decide_true by done|rewrite bool_decide_false by done];
    unfold rwf_step, EXISTS, h; simpl; destruct (op_kind op); try done; cases_Z; done.
Qed.

(** The state after a history [l], as a function of its live operations. *)
Definition rwf_state c l : reh * P :=
  let st := foldl (rwf_step onadd onupd) (PID_NEXIST, p0) (rwf_live c l) in
  (mkReh st.1 (rwf_join c l), st.2).

Lemma rwf_effect_state c l op :
  Forall (rwf_ok (vsize c)) l → rwf_ok (vsize c) op →
  rwf_effect p0 onadd onupd (rwf_state c l) op = Some (rwf_state c (l ++ [op])).
Proof.
  intros Hl [Hop Hid]. unfold rwf_effect, rwf_state. simpl.
  rewrite rwf_live_snoc, rwf_join_snoc by done. set (J := rwf_join c l).
  assert (vsize J = vsize (op_t op)) as Hsz by (unfold J; by rewrite vsize_rwf_join).
  rewrite removeCheck_spec by done. simpl. rewrite foldl_app.
  set (st := foldl _ _ (rwf_live c l)).
  set (st' := if decide (op_t op ≤ᵥ J) then st else (PID_NEXIST, p0)).
  transitivity (Some (let st'' := if decide (J ≤ᵥ op_t op) then rwf_step onadd onupd st' op else st' in
    (mkReh st''.1 (vc_update J (op_t op)), st''.2))).
  - unfold st'. case_decide as Hd; simpl; f_equal; rewrite <- rwf_check_spec by done.
    + by rewrite (vc_update_absorb_eq J) by done.
    + done.
  - unfold st', st. do 2 case_decide; done.
Qed.

(** The state is the function [rwf_state] of the history. *)
Lemma rwf_run_state_from c l l' :
  Forall (rwf_ok (vsize c)) l → Forall (rwf_ok (vsize c)) l' →
  rwf_run p0 onadd onupd (rwf_state c l) l' = Some (rwf_state c (l ++ l')).
Proof.
  revert l. induction l' as [|op l' IH]; intros l Hl Hl'; [by rewrite app_nil_r|].
  apply Forall_cons in Hl' as [Hop Hl']. cbn [rwf_run].
  rewrite rwf_effect_state by done. simpl. rewrite IH by (try done; by apply Forall_app, conj; [|apply Forall_singleton]).
  by rewrite <- app_assoc.
Qed.

Lemma rwf_run_state c l :
  Forall (rwf_ok (vsize c)) l → rwf_run p0 onadd onupd (REH_INIT c, p0) l = Some (rwf_state c l).
Proof. intros Hl. apply (rwf_run_state_from c [] l); [constructor|done]. Qed.

End effect_lemmas.

(** ** Order independence *)

Section order.
Context {A : Type}.
Implicit Types (op : rwf_op A) (l : list (rwf_op A)).

Lemma rwf_join_perm c l1 l2 : l1 ≡ₚ l2 → rwf_join c l1 = rwf_join c l2.
Proof. intros Hp. apply foldl_perm; [|done]. intros. apply vc_update_comm. Qed.

Lemma rwf_live_perm c l1 l2 : l1 ≡ₚ l2 → rwf_live c l1 ≡ₚ rwf_live c l2.
Proof. intros Hp. unfold rwf_live. rewrite (rwf_join_perm c l1 l2) by done. by rewrite Hp. Qed.

(** Two replicas start from zero clocks that differ in their owner; nothing
    but the owner of [current] depends on it. *)
Lemma rwf_join_owner c1 c2 l :
  vector c1 = vector c2 → vector (rwf_join c1 l) = vector (rwf_join c2 l).
Proof.
  revert c1 c2. induction l as [|op l IH]; intros c1 c2 Hc; [done|]. apply IH.
  unfold vc_update, vsize. rewrite Hc. by case_match.
Qed.

Lemma rwf_live_owner c1 c2 l : vector c1 = vector c2 → rwf_live c1 l = rwf_live c2 l.
Proof. intros Hc. unfold rwf_live. by rewrite (rwf_join_owner c1 c2 l Hc). Qed.

(** A server adds at most once between two removes: adds with the same clock
    and server are the same add. *)
Definition adds_unique l : Prop :=
  ∀ op1 op2, op1 ∈ l → op2 ∈ l → op_kind op1 = RwfAdd → op_kind op2 = RwfAdd →
    op_t op1 = op_t op2 → op_arg op1 = op_arg op2.

Lemma adds_unique_Forall l :
  adds_unique l ↔ Forall (λ op1, Forall (λ op2, op_kind op1 = RwfAdd → op_kind op2 = RwfAdd →
    op_t op1 = op_t op2 → op_arg op1 = op_arg op2) l) l.
Proof. unfold adds_unique. rewrite Forall_forall. setoid_rewrite Forall_forall. naive_solver. Qed.

#[global] Instance adds_unique_dec `{!EqDecision A} l : Decision (adds_unique l).
Proof.
  destruct (decide (Forall (λ op1, Forall (λ op2, op_kind op1 = RwfAdd → op_kind op2 = RwfAdd →
    op_t op1 = op_t op2 → op_arg op1 = op_arg op2) l) l)) as [Hd|Hd]; [left|right];
    by rewrite adds_unique_Forall.
Defined.

End order.

(** What the payload functions must satisfy for the state not to depend on
    the order of arrival: an add overwrites the previous one, updates commute
    with adds and, where they are compatible, among themselves. *)
Class RwfLaws {P A : Type} (compat : A → A → Prop) (onadd onupd : A → P → P) := {
  onadd_over a b p : onadd a (onadd b p) = onadd a p;
  onadd_onupd a b p : onadd a (onupd b p) = onupd b (onadd a p);
  onupd_comm a b p : compat a b → onupd a (onupd b p) = onupd b (onupd a p)
}.

Definition any_compat {A} (_ _ : A) : Prop := True.

(** The updates of a history are compatible. *)
Definition updates_compat {A} (compat : A → A → Prop) (l : list (rwf_op A)) : Prop :=
  ∀ op1 op2, op1 ∈ l → op2 ∈ l → op_kind op1 = RwfUpdate → op_kind op2 = RwfUpdate → compat (op_arg op1) (op_arg op2).

Lemma any_updates_compat {A} (l : list (rwf_op A)) : updates_compat any_compat l.
Proof. done. Qed.

Section convergence.
Context {P A : Type} (compat : A → A → Prop) (p0 : P) (onadd onupd : A → P → P) `{!RwfLaws compat onadd onupd}.
Implicit Types (op : rwf_op A) (l : list (rwf_op A)).

Lemma rwf_step_comm s op1 op2 :
  0 ≤ vid (op_t op1) → 0 ≤ vid (op_t op2) →
  (op_kind op1 = RwfAdd → op_kind op2 = RwfAdd → vid (op_t op1) = vid (op_t op2) →
    op_arg op1 = op_arg op2) →
  (op_kind op1 = RwfUpdate → op_kind op2 = RwfUpdate → compat (op_arg op2) (op_arg op1)) →
  rwf_step onadd onupd (rwf_step onadd onupd s op1) op2
  = rwf_step onadd onupd (rwf_step onadd onupd s op2) op1.
Proof.
  intros H1 H2 Hu Hup. destruct s as [p x]. unfold rwf_step, PID_NEXIST, PID_WAIT_INNATE.
  destruct (op_kind op1) eqn:K1, (op_kind op2) eqn:K2; simpl; try done;
    cases_Z; simpl in *; cases_Z; simpl in *; try lia; try done;
    rewrite ?(onadd_over (onadd := onadd)), ?(onadd_onupd (onadd := onadd) (onupd := onupd)); try done.
  1: by rewrite Hu by (done || lia); f_equal; lia.
  all: by rewrite (onupd_comm (onupd := onupd)) by (by apply Hup).
Qed.

Lemma rwf_state_perm c l1 l2 :
  Forall (rwf_ok (vsize c)) l1 → adds_unique l1 → updates_compat compat l1 → l1 ≡ₚ l2 →
  rwf_state p0 onadd onupd c l1 = rwf_state p0 onadd onupd c l2.
Proof.
  intros Hok Hu Hup Hp. unfold rwf_state. rewrite (rwf_join_perm c l1 l2) by done.
  assert (foldl (rwf_step onadd onupd) (PID_NEXIST, p0) (rwf_live c l1)
    = foldl (rwf_step onadd onupd) (PID_NEXIST, p0) (rwf_live c l2)) as ->; [|done].
  apply foldl_perm; [|by apply rwf_live_perm]. intros op1 op2 s Hin1 Hin2.
  unfold rwf_live in Hin1, Hin2. rewrite list_elem_of_filter in Hin1, Hin2.
  destruct Hin1 as [Hv1 Hin1], Hin2 as [Hv2 Hin2]. rewrite Forall_forall in Hok.
  apply rwf_step_comm; [by apply Hok|by apply Hok| |intros K1 K2; by apply Hup]. intros K1 K2 Hid.
  apply Hu; [done..|]. rewrite (vc_eta (op_t op1)), (vc_eta (op_t op2)). by rewrite Hv1, Hv2, Hid.
Qed.

Lemma rwf_state_converge c1 c2 l1 l2 :
  vector c1 = vector c2 → Forall (rwf_ok (vsize c1)) l1 → adds_unique l1 → updates_compat compat l1 → l1 ≡ₚ l2 →
  let s1 := rwf_state p0 onadd onupd c1 l1 in
  let s2 := rwf_state p0 onadd onupd c2 l2 in
  pid s1.1 = pid s2.1 ∧ vector (current s1.1) = vector (current s2.1) ∧ s1.2 = s2.2.
Proof.
  intros Hc Hok Hu Hup Hp s1 s2. unfold s1. rewrite (rwf_state_perm c1 l1 l2) by done.
  unfold s2, rwf_state. simpl. rewrite (rwf_live_owner c1 c2 l2 Hc). split_and!; [done| |done].
  by apply rwf_join_owner.
Qed.

End convergence.

(** ** Outcomes of the checks *)

Lemma addCheck_cases h t :
  (addCheck h t = (h, false)) ∨
  (addCheck h t = (mkReh (vid t) (current h), true) ∧ vc_equal t (current h) = true ∧ pid h < vid t).
Proof. unfold addCheck. destruct (vc_equal t (current h)); simpl; [|by left]. cases_Z; auto. Qed.

Lemma updateCheck_cases h t :
  (updateCheck h t = (h, false)) ∨
  (∃ h', updateCheck h t = (h', true) ∧ EXISTS h' = true).
Proof.
  unfold updateCheck. destruct (vc_equal t (current h)); simpl; [right|by left].
  destruct (EXISTS h) eqn:He; by eexists.
Qed.

(** ** Which operations count

    An operation is in force when it has seen all others: its clock is above
    theirs.  An element exists when an add or update is in force. *)

Definition in_force {A} (l : list (rwf_op A)) (op : rwf_op A) : Prop :=
  op ∈ l ∧ ∀ op', op' ∈ l → op_t op' ≤ᵥ op_t op.

(** Operations of servers that start with clock [c]: their clock is not below
    it, and that of a remove is above it. *)
Definition rwf_wf {A} (c : vc) (op : rwf_op A) : Prop :=
  rwf_ok (vsize c) op ∧ c ≤ᵥ op_t op ∧ (op_kind op = RwfRem → ¬ op_t op ≤ᵥ c).

#[global] Instance rwf_wf_dec {A} c (op : rwf_op A) : Decision (rwf_wf c op).
Proof. unfold rwf_wf, rwf_ok. apply _. Defined.

Section in_force.
Context {A : Type}.
Implicit Types (op : rwf_op A) (l : list (rwf_op A)).

Lemma rwf_wf_ok c l : Forall (rwf_wf c) l → Forall (rwf_ok (vsize c)) l.
Proof. intros H. eapply Forall_impl; [done|]. by intros op [? _]. Qed.

Lemma rwf_join_lub c l u : c ≤ᵥ u → (∀ op, op ∈ l → op_t op ≤ᵥ u) → rwf_join c l ≤ᵥ u.
Proof.
  revert c. induction l as [|op l IH]; intros c Hc Hl; [done|]. apply IH.
  - apply vc_update_lub; [done|]. apply Hl. by left.
  - intros op' Hop'. apply Hl. by right.
Qed.

Lemma elem_of_live c l op : Forall (rwf_wf c) l → op ∈ rwf_live c l ↔ in_force l op.
Proof.
  intros Hwf. unfold rwf_live, in_force. rewrite list_elem_of_filter.
  pose proof (rwf_wf_ok c l Hwf) as Hok. rewrite Forall_forall in Hwf. split.
  - intros [Hv Hin]. split; [done|]. intros op' Hop'. unfold vle. rewrite Hv. by apply rwf_join_upper.
  - intros [Hin Hall]. split; [|done]. apply Zle_list_antisym; [by apply rwf_join_upper|].
    apply rwf_join_lub; [|done]. by apply Hwf.
Qed.

Lemma rwf_steps_exist {P} (onadd onupd : A → P → P) (l : list (rwf_op A)) (p : P) :
  Forall (λ op, 0 ≤ vid (op_t op)) l →
  let s := foldl (rwf_step onadd onupd) (PID_NEXIST, p) l in
  (s.1 = PID_NEXIST ↔ ∀ op, op ∈ l → op_kind op = RwfRem) ∧ PID_WAIT_INNATE ≤ s.1.
Proof.
  intros Hl. induction l as [|op l IH] using rev_ind; simpl.
  { split; [|done]. split; [|done]. by intros _ ? ?%elem_of_nil. }
  rewrite Forall_app, Forall_singleton in Hl. destruct Hl as [Hl Hop]. specialize (IH Hl) as [IH Hlow]. rewrite foldl_app. simpl.
  set (s := foldl _ _ l) in *. clearbody s.
  assert ((∀ op', op' ∈ l ++ [op] → op_kind op' = RwfRem) ↔
    (∀ op', op' ∈ l → op_kind op' = RwfRem) ∧ op_kind op = RwfRem) as ->.
  { split; [intros H; split; [intros op' Hin|]; apply H; set_solver|].
    intros [H1 H2] op' Hin. apply elem_of_app in Hin as [Hin|Hin]; [by apply H1|].
    by apply list_elem_of_singleton in Hin as ->. }
  rewrite <- IH. unfold rwf_step, PID_NEXIST, PID_WAIT_INNATE in *.
  destruct (op_kind op); simpl.
  - cases_Z; simpl; (split; [split; [intros; exfalso; lia|by intros [_ ?]]|lia]).
  - cases_Z; simpl; (split; [split; [intros; exfalso; lia|by intros [_ ?]]|lia]).
  - split; [tauto|done].
Qed.

(** An element exists exactly when an add or update is in force. *)
Lemma rwf_state_exists {P} (p0 : P) (onadd onupd : A → P → P) c l :
  Forall (rwf_wf c) l →
  EXISTS (rwf_state p0 onadd onupd c l).1 = true ↔ ∃ op, in_force l op ∧ op_kind op ≠ RwfRem.
Proof.
  intros Hwf. unfold EXISTS, rwf_state. simpl.
  destruct (rwf_steps_exist onadd onupd (rwf_live c l) p0) as [Hs _].
  { apply Forall_forall. intros op [_ Hin]%list_elem_of_filter. rewrite Forall_forall in Hwf. by apply Hwf. }
  rewrite negb_true_iff, Z.eqb_neq, Hs. split.
  - intros Hn. destruct (decide (Exists (λ op, op_kind op ≠ RwfRem) (rwf_live c l))) as [He|He].
    + apply Exists_exists in He as (op & Hin & Hk). exists op. by rewrite <- (elem_of_live c l op Hwf).
    + destruct Hn. intros op Hin. destruct (decide (op_kind op = RwfRem)) as [|Hk]; [done|].
      destruct He. apply Exists_exists. by exists op.
  - intros (op & Hin & Hk) Hall. rewrite <- (elem_of_live c l op Hwf) in Hin. by apply Hk, Hall.
Qed.

(** A first operation is never ignored: it withdraws or publishes. *)
Lemma first_op_counts c op :
  rwf_wf c op →
  ∃ h b1, removeCheck (REH_INIT c) (op_t op) = Some (h, b1) ∧
    (b1 = true ∨ (op_kind op = RwfAdd ∧ (addCheck h (op_t op)).2 = true) ∨
     (op_kind op = RwfUpdate ∧ (updateCheck h (op_t op)).2 = true)).
Proof.
  intros ([Hs Hid] & Hle & Hrem). rewrite removeCheck_spec by (symmetry; apply Hs). simpl.
  case_decide as Hd; [|by eexists _, _; split; [done|left]].
  eexists _, _. split; [done|]. right.
  assert (vc_equal (op_t op) c = true) as Heq by (by apply vc_equal_spec, Zle_list_antisym).
  unfold addCheck, updateCheck. simpl. rewrite Heq. simpl.
  destruct (op_kind op); [left|right|by destruct Hrem]; (split; [done|]); [|done].
  unfold PID_NEXIST. cases_Z; [done|lia].
Qed.
Lemma in_force_perm l1 l2 op : l1 ≡ₚ l2 → in_force l1 op → in_force l2 op.
Proof.
  intros Hp [Hin Hall]. split; [by rewrite <- Hp|]. intros op' Hop'. apply Hall. by rewrite Hp.
Qed.

(** The operations in force, in order of arrival. *)
Definition force l : list (rwf_op A) :=
  filter (λ op, Forall (λ op', op_t op' ≤ᵥ op_t op) l) l.

Lemma elem_of_force l op : op ∈ force l ↔ in_force l op.
Proof. unfold force, in_force. rewrite list_elem_of_filter, Forall_forall. tauto. Qed.

Lemma rwf_live_force c l : Forall (rwf_wf c) l → rwf_live c l = force l.
Proof.
  intros Hwf. unfold rwf_live, force. apply filter_iff_in. intros op Hin.
  pose proof (elem_of_live c l op Hwf) as H. unfold rwf_live, in_force in H. rewrite list_elem_of_filter in H.
  rewrite Forall_forall. tauto.
Qed.

(** The value of the adds in force: that of the server with the greatest
    id. *)
Definition add_value (p0 : A) l (v : A) : Prop :=
  (v = p0 ∧ ∀ op, in_force l op → op_kind op ≠ RwfAdd) ∨
  ∃ op, in_force l op ∧ op_kind op = RwfAdd ∧ v = op_arg op ∧
    ∀ op', in_force l op' → op_kind op' = RwfAdd → vid (op_t op') ≤ vid (op_t op).

Lemma add_value_steps p0 l :
  Forall (λ op, 0 ≤ vid (op_t op)) l →
  let s := foldl (rwf_step (λ (v _ : A), v) (λ _ p, p)) (PID_NEXIST, p0) l in
  (s.1 < 0 ∧ s.2 = p0 ∧ ∀ op, op ∈ l → op_kind op ≠ RwfAdd) ∨
  ∃ op, op ∈ l ∧ op_kind op = RwfAdd ∧ s.2 = op_arg op ∧ s.1 = vid (op_t op) ∧
    ∀ op', op' ∈ l → op_kind op' = RwfAdd → vid (op_t op') ≤ vid (op_t op).
Proof.
  intros Hl. induction l as [|op l IH] using rev_ind; simpl.
  { left. split_and!; [done..|]. by intros ? ?%elem_of_nil. }
  rewrite Forall_app, Forall_singleton in Hl. destruct Hl as [Hl Hop]. specialize (IH Hl). rewrite foldl_app. simpl.
  set (s := foldl _ _ l) in *. clearbody s. setoid_rewrite elem_of_app. setoid_rewrite list_elem_of_singleton.
  unfold rwf_step. destruct (op_kind op) eqn:Hk; simpl.
  - destruct (Z.ltb_spec s.1 (vid (op_t op))) as [Hlt|Hge].
    + right. exists op. split_and!; try done; [by right|]. intros op' [Hin| ->] Hk'; [|lia].
      destruct IH as [(_ & _ & Hno)|(a & _ & _ & _ & Hs & Hmax)]; [by destruct (Hno op' Hin)|].
      specialize (Hmax op' Hin Hk'). lia.
    + destruct IH as [(Hneg & _)|(a & Ha & Hka & Hv & Hs & Hmax)]; [lia|]. right. exists a.
      split_and!; try done; [by left|]. intros op' [Hin| ->] Hk'; [by apply Hmax|lia].
  - destruct IH as [(Hneg & Hv & Hno)|(a & Ha & Hka & Hv & Hs & Hmax)].
    + left. split_and!; [unfold PID_NEXIST, PID_WAIT_INNATE; cases_Z; lia|done|].
      intros op' [Hin| ->]; [by apply Hno|congruence].
    + right. exists a. split_and!; try done; [by left| |].
      * rewrite Forall_forall in Hl. specialize (Hl a Ha). simpl in Hl. unfold PID_NEXIST. cases_Z; lia.
      * intros op' [Hin| ->] Hk'; [by apply Hmax|congruence].
  - destruct IH as [(Hneg & Hv & Hno)|(a & Ha & Hka & Hv & Hs & Hmax)].
    + left. split_and!; try done. intros op' [Hin| ->]; [by apply Hno|congruence].
    + right. exists a. split_and!; try done; [by left|].
      intros op' [Hin| ->] Hk'; [by apply Hmax|congruence].
Qed.

Lemma rwf_state_add_value (p0 : A) c l :
  Forall (rwf_wf c) l → add_value p0 l (rwf_state p0 (λ (v _ : A), v) (λ _ p, p) c l).2.
Proof.
  intros Hwf. unfold rwf_state, add_value. simpl.
  destruct (add_value_steps p0 (rwf_live c l)) as [(_ & Hv & Hno)|(a & Ha & Hk & Hv & _ & Hmax)].
  - apply Forall_forall. intros op [_ Hin]%list_elem_of_filter. rewrite Forall_forall in Hwf. by apply Hwf.
  - left. split; [done|]. intros op Hf. apply Hno. by apply elem_of_live.
  - right. exists a. split_and!; [by apply (elem_of_live c)|done..|]. intros op' Hf. apply Hmax. by apply elem_of_live.
Qed.

End in_force.

(** ** Operations issued by the prepare phases *)

Section issue.
Context {A : Type}.
Implicit Types (op : rwf_op A) (l : list (rwf_op A)).

(** Operations of a system of [n] servers with counters up to [b]. *)
Definition rwf_bounded (n b : Z) op : Prop :=
  rwf_wf (_vc_new n 0) op ∧ vid (op_t op) < n ∧ vbounded b (op_t op).

Lemma rwf_bounded_mono n b b' op : b ≤ b' → rwf_bounded n b op → rwf_bounded n b' op.
Proof. intros Hb (? & ? & ?). split_and!; [done..|]. by eapply vbounded_mono. Qed.

Lemma rwf_bounded_wire n b op : 1 ≤ n ≤ 100 → b ≤ INT_MAX → rwf_bounded n b op → vc_wire_ok (op_t op).
Proof.
  intros Hn Hb (((Hs & Hid) & _) & Hlt & Hbd). rewrite vsize_vc_new in Hs by lia.
  apply (vbounded_wire b); [lia|lia|done|done].
Qed.

Section clock.
Context (n b i : Z) (l : list (rwf_op A)).
Context (Hn : 1 ≤ n ≤ 100) (Hi : 0 ≤ i < n) (Hb : 0 ≤ b < INT_MAX) (Hl : Forall (rwf_bounded n b) l).

Abbreviation now := (rwf_join (_vc_new n i) l).

Lemma now_bounded : vbounded b now.
Proof.
  assert (∀ c, vbounded b c → vbounded b (rwf_join c l)) as H; [|by apply H, vbounded_vc_new; lia].
  clear -Hl. revert Hl. induction 1 as [|op l (_ & _ & Hop) _ IH]; intros c Hc; [done|]. apply IH.
  by apply vbounded_vc_update.
Qed.

Lemma now_above : _vc_new n 0 ≤ᵥ now.
Proof.
  assert (∀ c, _vc_new n 0 ≤ᵥ c → _vc_new n 0 ≤ᵥ rwf_join c l) as H; [|apply H; exact (vle_refl (_vc_new n 0))].
  clear -Hl. revert Hl. induction 1 as [|op l (((Hs & _) & _) & _) _ IH]; intros c Hc; [done|]. apply IH.
  eapply vle_trans; [exact Hc|]. apply vc_update_l. pose proof (vle_size _ _ Hc). lia.
Qed.

Lemma now_size : vsize now = n ∧ vid now = i.
Proof using Hn. rewrite vsize_rwf_join, vid_rwf_join, vsize_vc_new by lia. done. Qed.

(** [ADD_CR_NON_RMV]: an add or update carries the current clock. *)
Lemma issue_non_rmv k a : k ≠ RwfRem → rwf_bounded n b (mkRwfOp k now a).
Proof.
  intros Hk. destruct now_size as [Hs Hv]. split_and!; simpl; [|lia|apply now_bounded].
  split; [|split; [apply now_above|by simpl]]. split; simpl; [|lia]. by rewrite Hs, vsize_vc_new by lia.
Qed.

(** [ADD_CR_RMV]: a remove carries the next clock. *)
Lemma issue_rmv a :
  ∃ s t, vc_now now = Some s ∧ vcToSds t = Some s ∧ rwf_bounded n (b + 1) (mkRwfOp RwfRem t a).
Proof.
  destruct now_size as [Hs Hv]. unfold vc_now. rewrite Hv.
  assert (int32_clock now) as Hi32 by (apply (vbounded_int32 b); [lia|apply now_bounded]).
  destruct (vc_inc_spec now i) as (x & Hx & Hinc); [lia|done|].
  destruct (vc_inc_next now i _ ltac:(lia) Hi32 Hinc) as [_ Hlt].
  destruct (vbounded_vc_inc b now i _ ltac:(lia) ltac:(lia) now_bounded Hinc) as (Hbd & Hvid & Hsz). rewrite Hinc.
  set (t := mkVc _ i) in *.
  destruct (vcToSds_roundtrip t) as (s & Hts & _); [apply (vbounded_wire (b + 1)); [lia|lia|lia|done]|].
  exists s, t. split_and!; [done|done|]. split_and!; simpl; [|lia|done]. split; [split; simpl; [|lia]|split].
  - by rewrite vsize_vc_new by lia; lia.
  - eapply vle_trans; [apply now_above|apply Hlt].
  - intros _ Hle. simpl in Hle. apply (vlt_irrefl now). eapply vlt_le_trans; [exact Hlt|].
    eapply vle_trans; [exact Hle|]. apply now_above.
Qed.
End clock.
End issue.
