(* ===== verification/Rwfset.v ===== *)
(** * The Remove-Win-framework set (src/t_rwfset.c) *)

From S2P Require Import Prelude.
From S2P Require Import Sds.
From S2P Require Import VectorClock.
From S2P Require Import Double.
From S2P Require Import Skiplist.
From S2P Require Import Zset.
From S2P Require Import Server.
From S2P Require Import Rwf.

#[local] Open Scope Z_scope.

(** ** Element metadata *)

(** [value] is not initialised by the constructor. *)
Record rwfse := mkRwfse { sf_header : reh; sf_value : option Z }.

Definition rwfseNew (clock : vc) : rwfse := mkRwfse (REH_INIT clock) None.

Definition RWF_SET_TABLE_SUFFIX : sds := "_rwfsets_".

(** ** Effects on one element

    What the effect phases do to the metadata of the element; the flag tells
    whether the sorted set and the dirty counter are touched. *)

Definition rwfs_remove (e : rwfse) (t : vc) : option (rwfse * bool) :=
  '(h, b) ← removeCheck (sf_header e) t;
  Some (mkRwfse h (sf_value e), b).

(** The part of [rwfsadd] after [removeFunc]; [v] goes through the [int]
    field. *)
Definition rwfs_add (e : rwfse) (t : vc) (v : Z) : rwfse * bool :=
  let '(h, b) := addCheck (sf_header e) t in
  if b then (mkRwfse h (Some (wrap32 v)), true) else (mkRwfse h (sf_value e), false).

(** ** Commands *)

Section commands.
Context {cell : Type} `{!Stored cell rwfse}.

Definition GET_RWFSE (name key : sds) (create : bool) : M cell (option loc) :=
  rehHTGet name (Some RWF_SET_TABLE_SUFFIX) key create (λ w, rwfseNew (vc_new w)).

Definition get_header (e : option loc) : M cell (option reh) :=
  match e with
  | Some l => x ← load l; mret (Some (sf_header x))
  | None => mret None
  end.

Definition SCORE (e : rwfse) : M cell double :=
  v ← orfault Uninit (sf_value e); mret (dofZ v).

Definition removeFunc (e : loc) (t : vc) : M cell () :=
  x ← load e;
  '(x', b) ← orfault OutOfBounds (rwfs_remove x t);
  store e x';;
  if (b : bool) then
    key ← rarg 1; ele ← rarg 2;
    zset ← getZsetOrCreate key ele;
    zset_del zset ele;;
    dirty_inc
  else mret ().

Definition rwfsadd_prepare : M cell () :=
  CHECK_ARGC 3;;
  CHECK_CONTAINER_TYPE OBJ_ZSET;;
  CHECK_ARG_TYPE_INT 2;;
  key ← arg 1; ele ← arg 2;
  e ← GET_RWFSE key ele true;
  h ← get_header e;
  PREPARE_PRECOND_ADD h;;
  h ← orfault NullDeref h;
  ADD_CR_NON_RMV h.

Definition rwfsadd_effect : M cell () :=
  key ← rarg 1; ele ← rarg 2;
  let v := default 0 (string2ll ele) in
  t ← CR_GET_LAST;
  e ← GET_RWFSE key ele true;
  e ← orfault NullDeref e;
  removeFunc e t;;
  x ← load e;
  let '(x', b) := rwfs_add x t v in
  store e x';;
  if b then
    zset ← getZsetOrCreate key ele;
    score ← SCORE x';
    zset_add zset score ele;;
    dirty_inc
  else mret ().

Definition rwfsaddCommand : M cell () := crdt_command rwfsadd_prepare rwfsadd_effect.

Definition rwfsrem_prepare : M cell () :=
  CHECK_ARGC 3;;
  CHECK_CONTAINER_TYPE OBJ_ZSET;;
  key ← arg 1; ele ← arg 2;
  e ← GET_RWFSE key ele false;
  h ← get_header e;
  h ← PREPARE_PRECOND_NON_ADD h;
  ADD_CR_RMV h.

Definition rwfsrem_effect : M cell () :=
  key ← rarg 1; ele ← rarg 2;
  e ← GET_RWFSE key ele true;
  t ← CR_GET_LAST;
  e ← orfault NullDeref e;
  removeFunc e t.

Definition rwfsremCommand : M cell () := crdt_command rwfsrem_prepare rwfsrem_effect.

Definition rwfscontainsCommand : M cell () := containsCommand.
Definition rwfssizeCommand : M cell () := sizeCommand.

(** Announces five items and sends four. *)
Definition rwfsestatusCommand : M cell () :=
  key ← arg 1; ele ← arg 2;
  e ← GET_RWFSE key ele false;
  match e with
  | None => addReply REmptyArray
  | Some l =>
      x ← load l;
      addReply (RArrayLen 5);;
      addReply (RBulk ("add id:" +:+ fmt_d (pid (sf_header x))));;
      addReply (RBulk "current:");;
      s ← orfault OutOfBounds (vcToSds (current (sf_header x)));
      addReply (RBulk s);;
      v ← orfault Uninit (sf_value x);
      addReply (RBulk ("value:" +:+ fmt_d v))
  end.

End commands.
