(* ===== verification/RwfsetRep.v ===== *)
(** * What the Remove-Win-framework set computes

    The effect phases of t_rwfset.c, run on a container, are the generic
    Remove-Win effect of [Rwf] on the header of one element, and the sorted
    set holds exactly the elements that exist. *)

From S2P Require Import Prelude.
From S2P Require Import Sds.
From S2P Require Import VectorClock.
From S2P Require Import Double.
From S2P Require Import Skiplist.
From S2P Require Import Zset.
From S2P Require Import ZsetRep.
From S2P Require Import Server.
From S2P Require Import Container.
From S2P Require Import Rwf.
From S2P Require Import Rwfset.

#[local] Open Scope Z_scope.
#[local] Open Scope crdt_scope.

#[global] Instance rwfs_suffix : Suffix RWF_SET_TABLE_SUFFIX.
Proof. done. Qed.

(** ** One element *)

(** The two effect phases on the metadata; the flags tell whether the element
    is withdrawn from and published in the sorted set. *)
Definition rwfs_apply (op : rwf_op Z) (e : rwfse) : option (rwfse * bool * bool) :=
  '(e1, b1) ← rwfs_remove e (op_t op);
  let '(e2, b2) := match op_kind op with
                   | RwfAdd => rwfs_add e1 (op_t op) (op_arg op)
                   | _ => (e1, false)
                   end in
  Some (e2, b1, b2).

(** There is nothing to a set element but its header. *)
Definition on_any (_ : Z) (_ : ()) : () := ().

#[global] Instance rwfs_laws : RwfLaws any_compat on_any on_any.
Proof. by split. Qed.

Lemma rwfs_apply_effect op e :
  op_kind op ≠ RwfUpdate →
  (λ x, (sf_header x.1.1, ())) <$> rwfs_apply op e = rwf_effect () on_any on_any (sf_header e, ()) op.
Proof.
  intros Hk. unfold rwfs_apply, rwf_effect, rwfs_remove, rwfs_add. simpl.
  destruct (removeCheck (sf_header e) (op_t op)) as [[h [|]]|]; [..|done]; simpl;
    (destruct (op_kind op); simpl; [destruct (addCheck h (op_t op)) as [h' [|]]|done|]; done).
Qed.

(** ** A container *)

Abbreviation rwfs_cont := (gmap sds rwfse * option (gmap sds double))%type.

Definition rwfs_score (e : rwfse) : double := dofZ (default 0 (sf_value e)).

Definition rwfs_step (new : rwfse) (s : rwfs_cont) (ele : sds) (op : rwf_op Z) : option rwfs_cont :=
  '(e, b1, b2) ← rwfs_apply op (default new (s.1 !! ele));
  let o := if (b1 : bool) then Some (delete ele (default ∅ s.2)) else s.2 in
  Some (<[ele := e]> s.1,
        if (b2 : bool) then Some (zmap_add (default ∅ o) (rwfs_score e) ele ZADD_NONE).1.1 else o).

(** The arguments an operation travels with. *)
Inductive rwfs_msg : rwf_op Z → sds → sds → list sds → Prop :=
  | smsg_add cmd key ele t tv :
      sdsToVC t = Some tv →
      rwfs_msg (mkRwfOp RwfAdd tv (default 0 (string2ll ele))) key ele [cmd; key; ele; t]
  | smsg_rem cmd key ele t tv :
      sdsToVC t = Some tv →
      rwfs_msg (mkRwfOp RwfRem tv (default 0 (string2ll ele))) key ele [cmd; key; ele; t].

Section world.
Context {cell : Type} `{!Stored cell rwfse}.
Implicit Types (w : world cell).

Abbreviation scont := (cont (A := rwfse) RWF_SET_TABLE_SUFFIX).
Abbreviation ssteps := (steps RWF_SET_TABLE_SUFFIX).

Definition rwfs_effect (k : rwf_kind) : M cell () :=
  match k with RwfAdd => rwfsadd_effect | _ => rwfsrem_effect end.

Lemma removeFunc_run w key ptrs Ms o ele l e e' b t r :
  scont w key ptrs Ms o → ptrs !! ele = Some l → Ms !! ele = Some e →
  rargv (w_client w) = Some r → r_args r !! 1%nat = Some key → r_args r !! 2%nat = Some ele →
  rwfs_remove e t = Some (e', b) →
  ∃ w', removeFunc l t w = Done () w' ∧
    scont w' key ptrs (<[ele := e']> Ms) (if b then Some (delete ele (default ∅ o)) else o) ∧
    ssteps key w ptrs w' ptrs.
Proof.
  intros C Hl He Hr H1 H2 Hrm. unfold removeFunc.
  mstep (load_spec _ w key ptrs Ms o ele l e C Hl He). rewrite Hrm.
  erewrite bind_Done by done.
  destruct (store_spec _ w key ptrs Ms o ele l e' C Hl) as (w1 & Hst & C1 & S1). mstep Hst.
  destruct b; [|by exists w1].
  pose proof (steps_rargv _ _ _ _ _ _ r S1 Hr) as Hr1.
  mstep (rarg_spec w1 r 1 key Hr1 H1). mstep (rarg_spec w1 r 2 ele Hr1 H2).
  destruct (withdraw_spec _ w1 key ptrs _ o ele dirty_inc C1) as (w2 & -> & C2 & S2).
  destruct (dirty_spec _ w2 key ptrs _ _ C2) as (w3 & -> & C3 & S3).
  exists w3. split; [done|]. split; [done|]. eapply steps_trans, steps_trans; done.
Qed.

(** The end of the add effect. *)
Lemma rwfs_finish_run w key ptrs Ms o ele l x t v x' b :
  scont w key ptrs Ms o → ptrs !! ele = Some l → rwfs_add x t v = (x', b) →
  ∃ w', (store l x';;
         if b then zset ← getZsetOrCreate key ele; score ← SCORE x'; zset_add zset score ele;; dirty_inc
         else mret ()) w = Done () w' ∧
    scont w' key ptrs (<[ele := x']> Ms)
      (if b then Some (zmap_add (default ∅ o) (rwfs_score x') ele ZADD_NONE).1.1 else o) ∧
    ssteps key w ptrs w' ptrs.
Proof.
  intros C Hl Hadd. destruct (store_spec _ w key ptrs Ms o ele l x' C Hl) as (w1 & Hst & C1 & S1).
  mstep Hst. destruct b; [|by exists w1].
  assert (∃ z, sf_value x' = Some z) as [z Hz].
  { unfold rwfs_add in Hadd. destruct (addCheck _ _) as [h [|]]; simplify_eq. by eexists. }
  assert (rwfs_score x' = dofZ z) as Hsc by (unfold rwfs_score; by rewrite Hz).
  destruct (publish_spec _ w1 key ptrs _ o ele (rwfs_score x') dirty_inc C1) as (w2 & Hp & C2 & S2).
  destruct (dirty_spec _ w2 key ptrs _ _ C2) as (w3 & Hd & C3 & S3).
  exists w3. split; [|split; [done|eapply steps_trans, steps_trans; done]].
  rewrite <- Hd, <- Hp, Hsc. unfold SCORE. by rewrite Hz.
Qed.

(** The effect phases run the step. *)
Lemma rwfs_effect_run op key ele args w ptrs Ms o r s' :
  scont w key ptrs Ms o → rargv (w_client w) = Some r → r_args r = args → rwfs_msg op key ele args →
  rwfs_step (rwfseNew (vc_new w)) (Ms, o) ele op = Some s' →
  ∃ w' ptrs', rwfs_effect (op_kind op) w = Done () w' ∧ scont w' key ptrs' s'.1 s'.2 ∧
    ssteps key w ptrs w' ptrs'.
Proof.
  intros C Hr Hargs Hmsg Hstep. unfold rwfs_step, rwfs_apply in Hstep. simpl in Hstep.
  destruct (rehHTGet_create _ w key ptrs Ms o ele (λ w, rwfseNew (vc_new w)) C) as (w1 & l & ptrs1 & Hget & Hl & C1 & S1);
    [done|].
  pose proof (steps_rargv _ _ _ _ _ _ r S1 Hr) as Hr1.
  set (e := default (rwfseNew (vc_new w)) (Ms !! ele)) in *.
  destruct (rwfs_remove e (op_t op)) as [[e1 b1]|] eqn:Hrm; [|done]. simpl in Hstep.
  assert (r_args r !! 1%nat = Some key ∧ r_args r !! 2%nat = Some ele) as [H1 H2] by (subst args; by destruct Hmsg).
  destruct (removeFunc_run w1 key ptrs1 _ o ele l e e1 b1 (op_t op) r C1 Hl (lookup_insert_eq _ _ _) Hr1 H1 H2 Hrm)
    as (w2 & Hrmf & C2 & S2). rewrite insert_insert_eq in C2.
  assert (load l w2 = Done e1 w2) as Hload by (eapply (load_spec _ w2 key); [done..|apply lookup_insert_eq]).
  pose proof (steps_trans _ _ _ _ _ _ _ _ S1 S2) as S12.
  destruct Hmsg as [cmd key ele t tv Ht|cmd key ele t tv Ht]; simpl in *.
  - destruct (rwfs_add e1 tv (default 0 (string2ll ele))) as [e2 b2] eqn:Hadd. injection Hstep as <-.
    destruct (rwfs_finish_run w2 key ptrs1 _ _ ele l e1 tv _ e2 b2 C2 Hl Hadd) as (w3 & Hfin & C3 & S3).
    exists w3, ptrs1. rewrite insert_insert_eq in C3. split; [|split; [done|by eapply steps_trans]].
    unfold rwfsadd_effect. mstep (rarg_spec w r 1 key Hr H1). mstep (rarg_spec w r 2 ele Hr H2).
    mstep (CR_GET_LAST_spec w r t tv Hr ltac:(by rewrite Hargs) Ht). mstep Hget.
    erewrite bind_Done by done. mstep Hrmf. mstep Hload. cbv beta zeta. rewrite Hadd. exact Hfin.
  - injection Hstep as <-. exists w2, ptrs1. split; [|done].
    unfold rwfsrem_effect. mstep (rarg_spec w r 1 key Hr H1). mstep (rarg_spec w r 2 ele Hr H2).
    mstep Hget. mstep (CR_GET_LAST_spec w1 r t tv Hr1 ltac:(by rewrite Hargs) Ht).
    erewrite bind_Done by done. done.
Qed.
End world.

(** ** Histories *)

Fixpoint rwfs_run (c : vc) (s : rwfs_cont) (hist : list (sds * rwf_op Z)) : option rwfs_cont :=
  match hist with
  | [] => Some s
  | (ele, op) :: hist' => s' ← rwfs_step (rwfseNew c) s ele op; rwfs_run c s' hist'
  end.

(** Adds and removes, well-formed for servers that start with clock [c]. *)
Definition rwfs_wf (c : vc) (op : rwf_op Z) : Prop := rwf_wf c op ∧ op_kind op ≠ RwfUpdate.

(** The sorted set shows the elements that exist. *)
Definition rwfs_vis (e : rwfse) (o : option double) : Prop := is_Some o ↔ EXISTS (sf_header e) = true.

(** The header of every element is the function [rwf_state] of the operations
    on it, the sorted set shows it, and is there once anything happened. *)
Definition rwfs_inv (c : vc) (hist : list (sds * rwf_op Z)) (s : rwfs_cont) : Prop :=
  (∀ ele, let e := default (rwfseNew c) (s.1 !! ele) in
    (sf_header e, ()) = rwf_state () on_any on_any c (ops_of ele hist) ∧
    rwfs_vis e (default ∅ s.2 !! ele)) ∧
  (s.2 = None ↔ hist = []).

Lemma rwfs_inv_init c : rwfs_inv c [] (∅, None).
Proof.
  split; [|done]. intros ele. simpl. rewrite !lookup_empty. split; [done|]. split; [by intros []|done].
Qed.

Lemma rwfs_vis_step op e e' b1 b2 m :
  0 ≤ vid (op_t op) → rwfs_apply op e = Some (e', b1, b2) → ∀ ele, rwfs_vis e (m !! ele) →
  let m1 := if b1 then delete ele m else m in
  rwfs_vis e' ((if b2 then (zmap_add m1 (rwfs_score e') ele ZADD_NONE).1.1 else m1) !! ele).
Proof.
  intros Hid Hap ele Hvis m1. unfold rwfs_apply in Hap.
  destruct (rwfs_remove e (op_t op)) as [[e1 b]|] eqn:Hrm; [|done]. simpl in Hap.
  assert (rwfs_vis e1 (m1 !! ele)) as Hvis1.
  { unfold rwfs_remove in Hrm. unfold m1. destruct (removeCheck (sf_header e) (op_t op)) as [[h b']|] eqn:Hrc; [|done].
    simpl in Hrm. unfold removeCheck in Hrc. destruct (removeCheck_loop _ _) as [[|]|]; simplify_eq.
    - assert (b1 = true) as -> by (by destruct (op_kind op); repeat case_match; simplify_eq).
      rewrite lookup_delete_eq. split; [by intros []|done].
    - assert (b1 = false) as -> by (by destruct (op_kind op); repeat case_match; simplify_eq).
      by destruct e. }
  clearbody m1. destruct (op_kind op); [|by simplify_eq..].
  unfold rwfs_add in Hap. destruct (addCheck_cases (sf_header e1) (op_t op)) as [Hc|(Hc & _ & _)]; rewrite Hc in Hap;
    simplify_eq; [by destruct e1|]. unfold rwfs_vis, EXISTS. simpl.
  destruct (zmap_add_eq m1 (rwfs_score (mkRwfse (mkReh (vid (op_t op)) (current (sf_header e1))) (Some (wrap32 (op_arg op))))) ele)
    as (s & -> & _); [apply isnan_dofZ|].
  split; [intros _|by eexists]. destruct (Z.eqb_spec (vid (op_t op)) PID_NEXIST); [unfold PID_NEXIST in *; lia|done].
Qed.

(** The first operation on an element is published or withdrawn. *)
Lemma rwfs_first c op e e' b1 b2 :
  rwfs_wf c op → sf_header e = REH_INIT c → rwfs_apply op e = Some (e', b1, b2) → b1 || b2 = true.
Proof.
  intros [Hwf Hk] He. unfold rwfs_apply, rwfs_remove. rewrite He.
  destruct (first_op_counts c op Hwf) as (h & b & Hrc & Hor). rewrite Hrc. simpl. unfold rwfs_add. simpl.
  destruct Hor as [->|[[Ha Hb]|[Hu _]]].
  - by destruct (op_kind op); repeat case_match; intros; simplify_eq.
  - rewrite Ha. destruct (addCheck h (op_t op)) as [h' b']. simpl in Hb. subst b'.
    intros; simplify_eq. by destruct b1.
  - done.
Qed.

Lemma rwfs_step_inv c hist s ele op :
  rwfs_inv c hist s → Forall (λ p, rwfs_wf c p.2) hist → rwfs_wf c op →
  ∃ s', rwfs_step (rwfseNew c) s ele op = Some s' ∧ rwfs_inv c (hist ++ [(ele, op)]) s'.
Proof.
  intros [Hinv Hex] Hh Hop. unfold rwfs_step. destruct (Hinv ele) as [He Hvis].
  set (e := default (rwfseNew c) (s.1 !! ele)) in *.
  assert (Forall (rwf_ok (vsize c)) (ops_of ele hist)) as Hok.
  { apply rwf_wf_ok, ops_of_Forall. eapply Forall_impl; [exact Hh|]. by intros p [? _]. }
  assert ((λ x, (sf_header x.1.1, ())) <$> rwfs_apply op e = Some (rwf_state () on_any on_any c (ops_of ele hist ++ [op])))
    as Hap.
  { rewrite rwfs_apply_effect, He by apply Hop. apply rwf_effect_state; [done|apply Hop]. }
  destruct (rwfs_apply op e) as [[[e' b1] b2]|] eqn:Ha; [|done]. simpl in Hap. apply (inj Some) in Hap.
  simpl. eexists. split; [done|]. split.
  - intros ele'. rewrite ops_of_snoc. simpl. destruct (decide (ele = ele')) as [<-|Hne].
    + rewrite lookup_insert_eq. simpl. split; [done|].
      pose proof (rwfs_vis_step op e e' b1 b2 _ (proj2 (proj1 (proj1 Hop))) Ha ele Hvis) as H.
      by destruct b1, b2.
    + rewrite lookup_insert_ne, app_nil_r by done. destruct (Hinv ele') as [He' Hvis']. split; [done|].
      destruct b1, b2; cbn [snd default from_option]; unfold id;
        rewrite ?zmap_add_ne, ?lookup_delete_ne by done; done.
  - split; [|intros Hnil; by destruct hist]. intros Hnone. exfalso.
    destruct b2; [done|]. destruct b1; [done|]. simpl in Hnone. apply Hex in Hnone. subst hist.
    apply (rwfs_first c op e e' false false) in Ha; [done|done|]. by injection He.
Qed.

Lemma rwfs_run_inv c hist s hist' :
  rwfs_inv c hist s → Forall (λ p, rwfs_wf c p.2) hist → Forall (λ p, rwfs_wf c p.2) hist' →
  ∃ s', rwfs_run c s hist' = Some s' ∧ rwfs_inv c (hist ++ hist') s'.
Proof.
  revert hist s. induction hist' as [|[ele op] hist' IH]; intros hist s Hinv Hh Hh'.
  { exists s. by rewrite app_nil_r. }
  apply Forall_cons in Hh' as [Hop Hh'].
  destruct (rwfs_step_inv c hist s ele op Hinv Hh Hop) as (s1 & Hs1 & Hinv1). simpl. rewrite Hs1. simpl.
  destruct (IH (hist ++ [(ele, op)]) s1 Hinv1) as (s' & Hs' & Hinv').
  - apply Forall_app. split; [done|by apply Forall_singleton].
  - done.
  - exists s'. split; [done|]. by rewrite <- app_assoc in Hinv'.
Qed.

(** What the set shows after a history: the elements with an add in force. *)
Lemma rwfs_inv_members c hist s ele :
  rwfs_inv c hist s → Forall (λ p, rwfs_wf c p.2) hist →
  is_Some (default ∅ s.2 !! ele) ↔ ∃ op, in_force (ops_of ele hist) op ∧ op_kind op = RwfAdd.
Proof.
  intros [Hinv _] Hh. destruct (Hinv ele) as [He Hvis]. unfold rwfs_vis in Hvis. rewrite Hvis. clear Hvis.
  assert (Forall (λ op, rwfs_wf c op) (ops_of ele hist)) as Hwf by (by apply ops_of_Forall).
  pose proof (rwf_state_exists () on_any on_any c (ops_of ele hist)) as Hx. rewrite <- He in Hx. simpl in Hx.
  rewrite Hx by (eapply Forall_impl; [exact Hwf|]; by intros op [? _]).
  rewrite Forall_forall in Hwf. split; intros (op & Hf & Hk); exists op; (split; [done|]); [|by rewrite Hk].
  destruct Hf as [Hin _]. destruct (Hwf op Hin) as [_ ?]. by destruct (op_kind op).
Qed.
