(* ===== verification/Rwfzset.v ===== *)
(** * The Remove-Win-framework priority queue (src/t_rwfzset.c) *)

From S2P Require Import Prelude.
From S2P Require Import Sds.
From S2P Require Import VectorClock.
From S2P Require Import Double.
From S2P Require Import Skiplist.
From S2P Require Import Zset.
From S2P Require Import Server.
From S2P Require Import Rwf.

#[local] Open Scope Z_scope.

(** ** Element metadata *)

Record rwfze := mkRwfze { zf_header : reh; zf_innate : double; zf_acquired : double }.

Definition rwfzeNew (clock : vc) : rwfze := mkRwfze (REH_INIT clock) d0 d0.

Definition RWF_RPQ_TABLE_SUFFIX : sds := "_rwfzsets_".

Definition rwfz_score (e : rwfze) : double := dadd (zf_innate e) (zf_acquired e).

(** ** Effects on one element *)

Definition rwfz_remove (e : rwfze) (t : vc) : option (rwfze * bool) :=
  '(h, b) ← removeCheck (zf_header e) t;
  Some (if (b : bool) then mkRwfze h d0 d0 else mkRwfze h (zf_innate e) (zf_acquired e), b).

Definition rwfz_add (e : rwfze) (t : vc) (v : double) : rwfze * bool :=
  let '(h, b) := addCheck (zf_header e) t in
  (mkRwfze h (if b then v else zf_innate e) (zf_acquired e), b).

Definition rwfz_incrby (e : rwfze) (t : vc) (v : double) : rwfze * bool :=
  let '(h, b) := updateCheck (zf_header e) t in
  (mkRwfze h (zf_innate e) (if b then dadd (zf_acquired e) v else zf_acquired e), b).

(** ** Commands *)

Section commands.
Context {cell : Type} `{!Stored cell rwfze}.

Definition GET_RWFZE (name key : sds) (create : bool) : M cell (option loc) :=
  rehHTGet name (Some RWF_RPQ_TABLE_SUFFIX) key create (λ w, rwfzeNew (vc_new w)).

Definition zf_get_header (e : option loc) : M cell (option reh) :=
  match e with
  | Some l => x ← load l; mret (Some (zf_header x))
  | None => mret None
  end.

Definition rwfz_removeFunc (e : loc) (t : vc) : M cell () :=
  x ← load e;
  '(x', b) ← orfault OutOfBounds (rwfz_remove x t);
  store e x';;
  if (b : bool) then
    key ← rarg 1; ele ← rarg 2;
    zset ← getZsetOrCreate key ele;
    zset_del zset ele;;
    dirty_inc
  else mret ().

(** Publishing the score after a change, shared by add and incrby. *)
Definition rwfz_publish (key ele : sds) (x : rwfze) : M cell () :=
  zset ← getZsetOrCreate key ele;
  zset_add zset (rwfz_score x) ele;;
  dirty_inc.

Definition rwfzadd_prepare : M cell () :=
  CHECK_ARGC 4;;
  CHECK_CONTAINER_TYPE OBJ_ZSET;;
  CHECK_ARG_TYPE_DOUBLE 3;;
  key ← arg 1; ele ← arg 2;
  e ← GET_RWFZE key ele true;
  h ← zf_get_header e;
  PREPARE_PRECOND_ADD h;;
  h ← orfault NullDeref h;
  ADD_CR_NON_RMV h.

Definition rwfzadd_effect : M cell () :=
  key ← rarg 1; ele ← rarg 2; s ← rarg 3;
  t ← CR_GET_LAST;
  e ← GET_RWFZE key ele true;
  e ← orfault NullDeref e;
  rwfz_removeFunc e t;;
  x ← load e;
  let v := string2d s in
  let '(x', b) := rwfz_add x t (default d0 v) in
  if b then
    orfault Uninit v;;
    store e x';;
    rwfz_publish key ele x'
  else store e x'.

Definition rwfzaddCommand : M cell () := crdt_command rwfzadd_prepare rwfzadd_effect.

Definition rwfzincrby_prepare : M cell () :=
  CHECK_ARGC 4;;
  CHECK_CONTAINER_TYPE OBJ_ZSET;;
  CHECK_ARG_TYPE_DOUBLE 3;;
  key ← arg 1; ele ← arg 2;
  e ← GET_RWFZE key ele false;
  h ← zf_get_header e;
  h ← PREPARE_PRECOND_NON_ADD h;
  ADD_CR_NON_RMV h.

Definition rwfzincrby_effect : M cell () :=
  key ← rarg 1; ele ← rarg 2; s ← rarg 3;
  t ← CR_GET_LAST;
  e ← GET_RWFZE key ele true;
  e ← orfault NullDeref e;
  rwfz_removeFunc e t;;
  x ← load e;
  let v := string2d s in
  let '(x', b) := rwfz_incrby x t (default d0 v) in
  if b then
    orfault Uninit v;;
    store e x';;
    rwfz_publish key ele x'
  else store e x'.

Definition rwfzincrbyCommand : M cell () := crdt_command rwfzincrby_prepare rwfzincrby_effect.

Definition rwfzrem_prepare : M cell () :=
  CHECK_ARGC 3;;
  CHECK_CONTAINER_TYPE OBJ_ZSET;;
  key ← arg 1; ele ← arg 2;
  e ← GET_RWFZE key ele false;
  h ← zf_get_header e;
  h ← PREPARE_PRECOND_NON_ADD h;
  ADD_CR_RMV h.

Definition rwfzrem_effect : M cell () :=
  key ← rarg 1; ele ← rarg 2;
  e ← GET_RWFZE key ele true;
  t ← CR_GET_LAST;
  e ← orfault NullDeref e;
  rwfz_removeFunc e t.

Definition rwfzremCommand : M cell () := crdt_command rwfzrem_prepare rwfzrem_effect.

Definition rwfzscoreCommand : M cell () := scoreCommand.
Definition rwfzmaxCommand : M cell () := maxCommand.

Definition rwfzestatusCommand : M cell () :=
  key ← arg 1; ele ← arg 2;
  e ← GET_RWFZE key ele false;
  match e with
  | None => addReply REmptyArray
  | Some l =>
      x ← load l;
      addReply (RArrayLen 5);;
      addReply (RBulk ("add id:" +:+ fmt_d (pid (zf_header x))));;
      addReply (RBulk "current:");;
      s ← orfault OutOfBounds (vcToSds (current (zf_header x)));
      addReply (RBulk s);;
      addReply (RBulk ("innate:" +:+ fmt_f (zf_innate x)));;
      addReply (RBulk ("acquired:" +:+ fmt_f (zf_acquired x)))
  end.

End commands.
