(* ===== verification/RwfzsetRep.v ===== *)
(** * What the Remove-Win-framework priority queue computes

    The effect phases of t_rwfzset.c, run on a container, are the generic
    Remove-Win effect of [Rwf] on the metadata of one element, and keep the
    sorted set in line with it. *)

From S2P Require Import Prelude.
From S2P Require Import Sds.
From S2P Require Import VectorClock.
From S2P Require Import Double.
From S2P Require Import Skiplist.
From S2P Require Import Zset.
From S2P Require Import ZsetRep.
From S2P Require Import Server.
From S2P Require Import Container.
From S2P Require Import Rwf.
From S2P Require Import Rwfzset.

#[local] Open Scope Z_scope.

#[global] Instance rpq_suffix : Suffix RWF_RPQ_TABLE_SUFFIX.
Proof. done. Qed.

(** ** One element *)

(** Innate and acquired values: an add sets the first, an increment adds to
    the second. *)
Abbreviation rpq_value := (double * double)%type.
Definition on_add (v : double) (p : rpq_value) : rpq_value := (v, p.2).
Definition on_incr (v : double) (p : rpq_value) : rpq_value := (p.1, dadd p.2 v).

Definition zf_pair (e : rwfze) : reh * rpq_value := (zf_header e, (zf_innate e, zf_acquired e)).

(** The three effect phases on the metadata; the flags tell whether the
    element is withdrawn from and published in the sorted set. *)
Definition rwfz_apply (op : rwf_op double) (e : rwfze) : option (rwfze * bool * bool) :=
  '(e1, b1) ← rwfz_remove e (op_t op);
  let '(e2, b2) := match op_kind op with
                   | RwfAdd => rwfz_add e1 (op_t op) (op_arg op)
                   | RwfUpdate => rwfz_incrby e1 (op_t op) (op_arg op)
                   | RwfRem => (e1, false)
                   end in
  Some (e2, b1, b2).

Lemma rwfz_apply_effect op e :
  (λ x, zf_pair x.1.1) <$> rwfz_apply op e = rwf_effect (d0, d0) on_add on_incr (zf_pair e) op.
Proof.
  unfold rwfz_apply, rwf_effect, rwfz_remove, rwfz_add, rwfz_incrby. simpl.
  destruct (removeCheck (zf_header e) (op_t op)) as [[h [|]]|]; [..|done]; simpl;
    (destruct (op_kind op); simpl; [destruct (addCheck h (op_t op)) as [h' [|]]
                                   |destruct (updateCheck h (op_t op)) as [h' [|]]|]; done).
Qed.

(** ** A container *)

(** The step on the metadata and the sorted set of a container. *)
Abbreviation rwfz_cont := (gmap sds rwfze * option (gmap sds double))%type.

Definition rwfz_step (new : rwfze) (s : rwfz_cont) (ele : sds) (op : rwf_op double) : option rwfz_cont :=
  '(e, b1, b2) ← rwfz_apply op (default new (s.1 !! ele));
  let o := if (b1 : bool) then Some (delete ele (default ∅ s.2)) else s.2 in
  Some (<[ele := e]> s.1,
        if (b2 : bool) then Some (zmap_add (default ∅ o) (rwfz_score e) ele ZADD_NONE).1.1 else o).

(** The arguments an operation travels with. *)
Inductive rwfz_msg : rwf_op double → sds → sds → list sds → Prop :=
  | msg_add cmd key ele s t v tv :
      string2d s = Some v → sdsToVC t = Some tv →
      rwfz_msg (mkRwfOp RwfAdd tv v) key ele [cmd; key; ele; s; t]
  | msg_incr cmd key ele s t v tv :
      string2d s = Some v → sdsToVC t = Some tv →
      rwfz_msg (mkRwfOp RwfUpdate tv v) key ele [cmd; key; ele; s; t]
  | msg_rem cmd key ele t tv :
      sdsToVC t = Some tv → rwfz_msg (mkRwfOp RwfRem tv d0) key ele [cmd; key; ele; t].

Section world.
Context {cell : Type} `{!Stored cell rwfze}.
Implicit Types (w : world cell).

Abbreviation zcont := (cont (A := rwfze) RWF_RPQ_TABLE_SUFFIX).
Abbreviation zsteps := (steps RWF_RPQ_TABLE_SUFFIX).

Definition rwfz_effect (k : rwf_kind) : M cell () :=
  match k with
  | RwfAdd => rwfzadd_effect
  | RwfUpdate => rwfzincrby_effect
  | RwfRem => rwfzrem_effect
  end.

Lemma rwfz_removeFunc_run w key ptrs Ms o ele l e e' b t r :
  zcont w key ptrs Ms o → ptrs !! ele = Some l → Ms !! ele = Some e →
  rargv (w_client w) = Some r → r_args r !! 1%nat = Some key → r_args r !! 2%nat = Some ele →
  rwfz_remove e t = Some (e', b) →
  ∃ w', rwfz_removeFunc l t w = Done () w' ∧
    zcont w' key ptrs (<[ele := e']> Ms) (if b then Some (delete ele (default ∅ o)) else o) ∧ zsteps key w ptrs w' ptrs.
Proof.
  intros C Hl He Hr H1 H2 Hrm. unfold rwfz_removeFunc.
  mstep (load_spec _ w key ptrs Ms o ele l e C Hl He). rewrite Hrm.
  erewrite bind_Done by done.
  destruct (store_spec _ w key ptrs Ms o ele l e' C Hl) as (w1 & Hst & C1 & S1). mstep Hst.
  destruct b; [|by exists w1].
  pose proof (steps_rargv _ _ _ _ _ _ r S1 Hr) as Hr1.
  mstep (rarg_spec w1 r 1 key Hr1 H1). mstep (rarg_spec w1 r 2 ele Hr1 H2).
  destruct (withdraw_spec _ w1 key ptrs _ o ele dirty_inc C1) as (w2 & -> & C2 & S2).
  destruct (dirty_spec _ w2 key ptrs _ _ C2) as (w3 & -> & C3 & S3).
  exists w3. split; [done|]. split; [done|]. eapply steps_trans, steps_trans; done.
Qed.

(** The end of the add and increment effects. *)
Lemma rwfz_finish_run w key ptrs Ms o ele l (x' : rwfze) (b : bool) (v : double) :
  zcont w key ptrs Ms o → ptrs !! ele = Some l →
  ∃ w', (if b then orfault Uninit (Some v);; store l x';; rwfz_publish key ele x' else store l x') w = Done () w' ∧
    zcont w' key ptrs (<[ele := x']> Ms)
      (if b then Some (zmap_add (default ∅ o) (rwfz_score x') ele ZADD_NONE).1.1 else o) ∧ zsteps key w ptrs w' ptrs.
Proof.
  intros C Hl. destruct (store_spec _ w key ptrs Ms o ele l x' C Hl) as (w1 & Hst & C1 & S1).
  destruct b; [|by exists w1]. erewrite bind_Done by done. mstep Hst. unfold rwfz_publish.
  destruct (publish_spec _ w1 key ptrs _ o ele (rwfz_score x') dirty_inc C1) as (w2 & -> & C2 & S2).
  destruct (dirty_spec _ w2 key ptrs _ _ C2) as (w3 & -> & C3 & S3).
  exists w3. split; [done|]. split; [done|]. eapply steps_trans, steps_trans; done.
Qed.

(** The effect phases run the step. *)
Lemma rwfz_effect_run op key ele args w ptrs Ms o r s' :
  zcont w key ptrs Ms o → rargv (w_client w) = Some r → r_args r = args → rwfz_msg op key ele args →
  rwfz_step (rwfzeNew (vc_new w)) (Ms, o) ele op = Some s' →
  ∃ w' ptrs', rwfz_effect (op_kind op) w = Done () w' ∧ zcont w' key ptrs' s'.1 s'.2 ∧
    zsteps key w ptrs w' ptrs'.
Proof.
  intros C Hr Hargs Hmsg Hstep. unfold rwfz_step, rwfz_apply in Hstep. simpl in Hstep.
  destruct (rehHTGet_create _ w key ptrs Ms o ele (λ w, rwfzeNew (vc_new w)) C) as (w1 & l & ptrs1 & Hget & Hl & C1 & S1);
    [done|].
  pose proof (steps_rargv _ _ _ _ _ _ r S1 Hr) as Hr1.
  set (e := default (rwfzeNew (vc_new w)) (Ms !! ele)) in *.
  destruct (rwfz_remove e (op_t op)) as [[e1 b1]|] eqn:Hrm; [|done]. simpl in Hstep.
  assert (r_args r !! 1%nat = Some key ∧ r_args r !! 2%nat = Some ele) as [H1 H2] by (subst args; by destruct Hmsg).
  destruct (rwfz_removeFunc_run w1 key ptrs1 _ o ele l e e1 b1 (op_t op) r C1 Hl (lookup_insert_eq _ _ _) Hr1 H1 H2 Hrm)
    as (w2 & Hrmf & C2 & S2). rewrite insert_insert_eq in C2.
  assert (load l w2 = Done e1 w2) as Hload by (eapply (load_spec _ w2 key); [done..|apply lookup_insert_eq]).
  pose proof (steps_trans _ _ _ _ _ _ _ _ S1 S2) as S12.
  destruct Hmsg as [cmd key ele s t v tv Hv Ht|cmd key ele s t v tv Hv Ht|cmd key ele t tv Ht]; simpl in *.
  - destruct (rwfz_add e1 tv v) as [e2 b2] eqn:Hadd. injection Hstep as <-.
    destruct (rwfz_finish_run w2 key ptrs1 _ _ ele l e2 b2 v C2 Hl) as (w3 & Hfin & C3 & S3).
    exists w3, ptrs1. rewrite insert_insert_eq in C3. split; [|split; [done|by eapply steps_trans]].
    unfold rwfzadd_effect. mstep (rarg_spec w r 1 key Hr H1). mstep (rarg_spec w r 2 ele Hr H2).
    mstep (rarg_spec w r 3 s Hr ltac:(by rewrite Hargs)).
    mstep (CR_GET_LAST_spec w r t tv Hr ltac:(by rewrite Hargs) Ht). mstep Hget.
    erewrite bind_Done by done. mstep Hrmf. mstep Hload. cbv beta zeta.
    rewrite Hv. change (default d0 (Some v)) with v. rewrite Hadd. by destruct b2.
  - destruct (rwfz_incrby e1 tv v) as [e2 b2] eqn:Hadd. injection Hstep as <-.
    destruct (rwfz_finish_run w2 key ptrs1 _ _ ele l e2 b2 v C2 Hl) as (w3 & Hfin & C3 & S3).
    exists w3, ptrs1. rewrite insert_insert_eq in C3. split; [|split; [done|by eapply steps_trans]].
    unfold rwfzincrby_effect. mstep (rarg_spec w r 1 key Hr H1). mstep (rarg_spec w r 2 ele Hr H2).
    mstep (rarg_spec w r 3 s Hr ltac:(by rewrite Hargs)).
    mstep (CR_GET_LAST_spec w r t tv Hr ltac:(by rewrite Hargs) Ht). mstep Hget.
    erewrite bind_Done by done. mstep Hrmf. mstep Hload. cbv beta zeta.
    rewrite Hv. change (default d0 (Some v)) with v. rewrite Hadd. by destruct b2.
  - injection Hstep as <-. exists w2, ptrs1. split; [|done].
    unfold rwfzrem_effect. mstep (rarg_spec w r 1 key Hr H1). mstep (rarg_spec w r 2 ele Hr H2).
    mstep Hget. mstep (CR_GET_LAST_spec w1 r t tv Hr1 ltac:(by rewrite Hargs) Ht).
    erewrite bind_Done by done. done.
Qed.
End world.

(** ** Histories *)

(** *** Reading the sorted set *)

(** What the sorted set holds for an element with given metadata.  A score
    that is not a number is refused by [zsetAdd], so nothing is said of it. *)
Definition vis_ok (e : rwfze) (o : option double) : Prop :=
  if EXISTS (zf_header e) then
    isnan (rwfz_score e) = false → ∃ s, o = Some s ∧ dkey s = dkey (rwfz_score e)
  else o = None.

Lemma rwfz_vis_step op e e' b1 b2 m :
  0 ≤ vid (op_t op) → rwfz_apply op e = Some (e', b1, b2) → ∀ ele, vis_ok e (m !! ele) →
  let m1 := if b1 then delete ele m else m in
  vis_ok e' ((if b2 then (zmap_add m1 (rwfz_score e') ele ZADD_NONE).1.1 else m1) !! ele).
Proof.
  intros Hid Hap ele Hvis m1. unfold rwfz_apply in Hap.
  destruct (rwfz_remove e (op_t op)) as [[e1 b]|] eqn:Hrm; [|done]. simpl in Hap.
  assert (vis_ok e1 (m1 !! ele)) as Hvis1.
  { unfold rwfz_remove in Hrm. unfold m1. destruct (removeCheck (zf_header e) (op_t op)) as [[h b']|] eqn:Hrc; [|done].
    simpl in Hrm. unfold removeCheck in Hrc. destruct (removeCheck_loop _ _) as [[|]|]; simplify_eq.
    - assert (b1 = true) as -> by (by destruct (op_kind op); repeat case_match; simplify_eq).
      simpl. by rewrite lookup_delete_eq.
    - assert (b1 = false) as -> by (by destruct (op_kind op); repeat case_match; simplify_eq).
      by destruct e. }
  clearbody m1. destruct (op_kind op).
  - unfold rwfz_add in Hap. destruct (addCheck_cases (zf_header e1) (op_t op)) as [Hc|(Hc & _ & _)]; rewrite Hc in Hap;
      simplify_eq; [by destruct e1|]. unfold vis_ok, EXISTS. simpl. destruct (Z.eqb_spec (vid (op_t op)) PID_NEXIST).
    + unfold PID_NEXIST in *. lia.
    + intros Hn. by apply zmap_add_eq.
  - unfold rwfz_incrby in Hap. destruct (updateCheck_cases (zf_header e1) (op_t op)) as [Hc|(h' & Hc & He)]; rewrite Hc in Hap;
      simplify_eq; [by destruct e1|]. unfold vis_ok. simpl. rewrite He. intros Hn. by apply zmap_add_eq.
  - by simplify_eq.
Qed.

(** *** Running a history *)

Fixpoint rwfz_run (c : vc) (s : rwfz_cont) (hist : list (sds * rwf_op double)) : option rwfz_cont :=
  match hist with
  | [] => Some s
  | (ele, op) :: hist' => s' ← rwfz_step (rwfzeNew c) s ele op; rwfz_run c s' hist'
  end.

Abbreviation rwfz_state := (rwf_state (d0, d0) on_add on_incr).

(** The metadata of every element is the function [rwf_state] of the
    operations on it, and the sorted set shows it. *)
Definition rwfz_inv (c : vc) (hist : list (sds * rwf_op double)) (s : rwfz_cont) : Prop :=
  ∀ ele, let e := default (rwfzeNew c) (s.1 !! ele) in
    zf_pair e = rwfz_state c (ops_of ele hist) ∧ vis_ok e (default ∅ s.2 !! ele).

Lemma rwfz_inv_init c : rwfz_inv c [] (∅, None).
Proof. intros ele. simpl. rewrite !lookup_empty. done. Qed.

Lemma rwfz_step_inv c hist s ele op :
  rwfz_inv c hist s → Forall (λ p, rwf_ok (vsize c) p.2) hist → rwf_ok (vsize c) op →
  ∃ s', rwfz_step (rwfzeNew c) s ele op = Some s' ∧ rwfz_inv c (hist ++ [(ele, op)]) s'.
Proof.
  intros Hinv Hh Hop. unfold rwfz_step. destruct (Hinv ele) as [He Hvis].
  set (e := default (rwfzeNew c) (s.1 !! ele)) in *.
  assert ((λ x, zf_pair x.1.1) <$> rwfz_apply op e = Some (rwfz_state c (ops_of ele hist ++ [op]))) as Hap.
  { rewrite rwfz_apply_effect, He. apply rwf_effect_state; [by apply ops_of_Forall|done]. }
  destruct (rwfz_apply op e) as [[[e' b1] b2]|] eqn:Ha; [|done]. simpl in Hap. apply (inj Some) in Hap.
  simpl. eexists. split; [done|]. intros ele'. rewrite ops_of_snoc. simpl.
  destruct (decide (ele = ele')) as [<-|Hne].
  - rewrite lookup_insert_eq. simpl. split; [done|].
    destruct Hop as [_ Hid]. pose proof (rwfz_vis_step op e e' b1 b2 _ Hid Ha ele Hvis) as H.
    by destruct b1, b2.
  - rewrite lookup_insert_ne, app_nil_r by done. destruct (Hinv ele') as [He' Hvis'].
    split; [done|].
    destruct b1, b2; cbn [snd default from_option]; unfold id;
      rewrite ?zmap_add_ne, ?lookup_delete_ne by done; done.
Qed.

Lemma rwfz_run_inv c hist s hist' :
  rwfz_inv c hist s → Forall (λ p, rwf_ok (vsize c) p.2) hist → Forall (λ p, rwf_ok (vsize c) p.2) hist' →
  ∃ s', rwfz_run c s hist' = Some s' ∧ rwfz_inv c (hist ++ hist') s'.
Proof.
  revert hist s. induction hist' as [|[ele op] hist' IH]; intros hist s Hinv Hh Hh'.
  { exists s. by rewrite app_nil_r. }
  apply Forall_cons in Hh' as [Hop Hh'].
  destruct (rwfz_step_inv c hist s ele op Hinv Hh Hop) as (s1 & Hs1 & Hinv1). simpl. rewrite Hs1. simpl.
  destruct (IH (hist ++ [(ele, op)]) s1 Hinv1) as (s' & Hs' & Hinv').
  - apply Forall_app. split; [done|by apply Forall_singleton].
  - done.
  - exists s'. split; [done|]. by rewrite <- app_assoc in Hinv'.
Qed.

(** *** Order independence

    The header and the innate value do not depend on the order of arrival;
    the acquired value is the sum of the increments in that order. *)

Definition incs (l : list (rwf_op double)) : list double :=
  op_arg <$> filter (λ op, op_kind op = RwfUpdate) l.

#[global] Instance innate_laws : RwfLaws any_compat (λ (v _ : double), v) (λ (_ p : double), p).
Proof. by split. Qed.

Lemma rwfz_steps_split p i a l :
  foldl (rwf_step on_add on_incr) (p, (i, a)) l =
  let s := foldl (rwf_step (λ v _ : double, v) (λ _ p : double, p)) (p, i) l in
  (s.1, (s.2, foldl dadd a (incs l))).
Proof.
  revert p i a. induction l as [|op l IH]; intros p i a; [done|]. cbn [foldl].
  assert (incs (op :: l) = incs [op] ++ incs l) as -> by (unfold incs; by rewrite <- fmap_app, <- filter_app).
  rewrite foldl_app. set (s1 := rwf_step (λ v _ : double, v) (λ _ p : double, p) (p, i) op).
  assert (rwf_step on_add on_incr (p, (i, a)) op = (s1.1, (s1.2, foldl dadd a (incs [op])))) as ->.
  { unfold s1, rwf_step, incs. rewrite filter_cons, filter_nil.
    destruct (op_kind op); simpl; cases_Z; done. }
  destruct s1. apply IH.
Qed.

Lemma rwfz_state_split c l :
  rwfz_state c l =
  let s := rwf_state d0 (λ v _ : double, v) (λ _ p : double, p) c l in
  (s.1, (s.2, foldl dadd d0 (incs (rwf_live c l)))).
Proof. unfold rwf_state. by rewrite rwfz_steps_split. Qed.

Lemma rwfz_state_converge c1 c2 l1 l2 :
  vector c1 = vector c2 → Forall (rwf_ok (vsize c1)) l1 → adds_unique l1 → l1 ≡ₚ l2 →
  let s1 := rwfz_state c1 l1 in
  let s2 := rwfz_state c2 l2 in
  pid s1.1 = pid s2.1 ∧ vector (current s1.1) = vector (current s2.1) ∧ s1.2.1 = s2.2.1 ∧
  (exact_sums (incs (rwf_live c1 l1)) → s1.2 = s2.2).
Proof.
  intros Hc Hok Hu Hp. rewrite !rwfz_state_split.
  destruct (rwf_state_converge any_compat d0 (λ v _ : double, v) (λ _ p : double, p) c1 c2 l1 l2 Hc Hok Hu (any_updates_compat l1) Hp) as (H1 & H2 & H3).
  simpl in *. split_and!; try done. intros Hex. rewrite H3. f_equal. apply Hex.
  rewrite (rwf_live_owner c1 c2 l1 Hc). unfold incs. by rewrite (rwf_live_perm c2 l1 l2 Hp).
Qed.
