(* ===== verification/TagSet.v ===== *)
(** * Linear lists of tagged entries

    The add sets and remove sets of the add-win types are C lists searched
    from the head for the first entry with a given tag, and extended at the
    tail.  Entries of an add set are heap cells that other fields point to:
    they carry their address. *)

From S2P Require Import Prelude.
From S2P Require Import Sds.
From S2P Require Import LamportClock.
From S2P Require Import Server.

#[local] Open Scope Z_scope.

Section find.
Context {A : Type} (tag : A → lc).

(** The search loop of [asetGet] and [rsetGet]. *)
Fixpoint tag_find (t : lc) (l : list A) : option A :=
  match l with
  | [] => None
  | a :: l' => if lc_cmp_as_tag t (tag a) =? 0 then Some a else tag_find t l'
  end.

(** The same search followed by [listDelNode]. *)
Fixpoint tag_remove (t : lc) (l : list A) : list A :=
  match l with
  | [] => []
  | a :: l' => if lc_cmp_as_tag t (tag a) =? 0 then l' else a :: tag_remove t l'
  end.

(** Write through the entry a search returns. *)
Fixpoint tag_alter (f : A → A) (t : lc) (l : list A) : list A :=
  match l with
  | [] => []
  | a :: l' => if lc_cmp_as_tag t (tag a) =? 0 then f a :: l' else a :: tag_alter f t l'
  end.

End find.

(** ** Addresses *)

Section addr.
Context {A : Type} (addr : A → nat).

(** The live entry at an address. *)
Fixpoint deref (p : nat) (l : list A) : option A :=
  match l with
  | [] => None
  | a :: l' => if Nat.eqb (addr a) p then Some a else deref p l'
  end.

(** An address no live entry has. *)
Definition fresh_addr (l : list A) : nat := S (foldr (λ a n, Nat.max (addr a) n) 0%nat l).

Lemma fresh_addr_gt l a : a ∈ l → (addr a < fresh_addr l)%nat.
Proof.
  unfold fresh_addr. induction l as [|b l IH]; [by intros ?%elem_of_nil|].
  intros [->|H]%elem_of_cons; simpl; [lia|]. specialize (IH H). lia.
Qed.

Lemma deref_elem p l a : deref p l = Some a → a ∈ l ∧ addr a = p.
Proof.
  induction l as [|b l IH]; simpl; [done|].
  destruct (Nat.eqb_spec (addr b) p); intros; simplify_eq; set_solver.
Qed.

End addr.

(** ** Tags as command arguments *)

Section args.
Context {cell : Type}.

(** The tags read from [rargv], from index [i] on. *)
Fixpoint get_tags (l : list sds) : M cell (list lc) :=
  match l with
  | [] => mret []
  | s :: l' => t ← orfault Uninit (sdsToLc s); ts ← get_tags l'; mret (t :: ts)
  end.

(** [RARGV_ADD_SDS(lcToSds(...))] for each tag of a list. *)
Fixpoint RARGV_ADD_TAGS (l : list lc) : M cell () :=
  match l with
  | [] => mret ()
  | t :: l' => RARGV_ADD_SDS (lcToSds t);; RARGV_ADD_TAGS l'
  end.

End args.

(** ** What the searches find *)

Section find_lemmas.
Context {A : Type} (tag : A → lc).
Implicit Types l : list A.

(** Tags small enough to be compared without overflow. *)
Definition tags_ok l : Prop := Forall (λ a, lc_ok (tag a)) l.

Lemma tag_find_Some t l a :
  lc_ok t → tags_ok l → tag_find tag t l = Some a → a ∈ l ∧ tag a = t.
Proof.
  intros Ht Hl. induction Hl as [|b l Hb Hl IH]; simpl; [done|].
  destruct (Z.eqb_spec (lc_cmp_as_tag t (tag b)) 0) as [He|He].
  - intros [= ->]. apply lc_tag_eq_ok in He; [|done..]. split; [by left|done].
  - intros [Hin Heq]%IH. split; [by right|done].
Qed.

Lemma tag_find_None t l :
  lc_ok t → tags_ok l → tag_find tag t l = None ↔ t ∉ tag <$> l.
Proof.
  intros Ht Hl. induction Hl as [|b l Hb Hl IH]; simpl; [split; [intros _; apply not_elem_of_nil|done]|].
  rewrite not_elem_of_cons. destruct (Z.eqb_spec (lc_cmp_as_tag t (tag b)) 0) as [He|He].
  - apply lc_tag_eq_ok in He; [|done..]. split; [done|]. by intros [? _].
  - rewrite IH. rewrite lc_tag_eq_ok in He by done. tauto.
Qed.

(** With one entry per tag, removal is a filter. *)
Lemma tag_remove_filter t l :
  lc_ok t → tags_ok l → NoDup (tag <$> l) → tag_remove tag t l = filter (λ a, tag a ≠ t) l.
Proof.
  intros Ht Hl. induction Hl as [|b l Hb Hl IH]; simpl; [done|]. intros [Hnb Hnd]%NoDup_cons.
  rewrite filter_cons. destruct (Z.eqb_spec (lc_cmp_as_tag t (tag b)) 0) as [He|He].
  - apply lc_tag_eq_ok in He; [|done..]. subst t. rewrite decide_False by tauto. symmetry.
    apply filter_all. intros a Ha Heq. apply Hnb. rewrite <- Heq. by apply list_elem_of_fmap_2.
  - rewrite lc_tag_eq_ok in He by done. rewrite decide_True by congruence. by rewrite IH.
Qed.

(** Writing through the entry found, when the tags are kept. *)
Lemma tag_alter_map f t l :
  lc_ok t → tags_ok l → NoDup (tag <$> l) →
  tag_alter tag f t l = (λ a, if decide (tag a = t) then f a else a) <$> l.
Proof.
  intros Ht Hl. induction Hl as [|b l Hb Hl IH]; simpl; [done|]. intros [Hnb Hnd]%NoDup_cons.
  destruct (Z.eqb_spec (lc_cmp_as_tag t (tag b)) 0) as [He|He].
  - apply lc_tag_eq_ok in He; [|done..]. subst t. rewrite decide_True by done. f_equal.
    rewrite <- (list_fmap_id l) at 1. apply list_fmap_ext. intros i a Ha. simpl.
    rewrite decide_False; [done|]. intros Heq. apply Hnb. rewrite <- Heq.
    apply list_elem_of_fmap_2. by eapply list_elem_of_lookup_2.
  - rewrite lc_tag_eq_ok in He by done. rewrite decide_False by congruence. by rewrite IH.
Qed.

(** Writing through a new entry at the tail. *)
Lemma tag_alter_snoc f t l a :
  lc_ok t → tags_ok l → t ∉ tag <$> l → tag a = t → tag_alter tag f t (l ++ [a]) = l ++ [f a].
Proof.
  intros Ht Hl Hn Ha. induction Hl as [|b l Hb Hl IH]; simpl.
  - rewrite Ha. by rewrite (proj2 (Z.eqb_eq _ _) (proj2 (lc_tag_eq_ok t t Ht Ht) eq_refl)).
  - rewrite fmap_cons in Hn. apply not_elem_of_cons in Hn as [Hne Hn]. rewrite (proj2 (Z.eqb_neq _ _)); [by rewrite IH|].
    by rewrite lc_tag_eq_ok.
Qed.
End find_lemmas.

Section addr_lemmas.
Context {A : Type} (addr : A → nat).

Lemma deref_unique l a : NoDup (addr <$> l) → a ∈ l → deref addr (addr a) l = Some a.
Proof.
  induction l as [|b l IH]; [by intros _ ?%elem_of_nil|]. simpl. intros [Hb Hnd]%NoDup_cons Ha.
  destruct (Nat.eqb_spec (addr b) (addr a)) as [Heq|Hne].
  - apply elem_of_cons in Ha as [->|Ha]; [done|]. destruct Hb. rewrite Heq. by apply list_elem_of_fmap_2.
  - apply elem_of_cons in Ha as [->|Ha]; [done|]. by apply IH.
Qed.
End addr_lemmas.

(** Messages carry tags as they were. *)
Lemma get_tags_spec {cell} ts (w : world cell) :
  Forall lc_ok ts → get_tags (lcToSds <$> ts) w = Done ts w.
Proof.
  induction 1 as [|t ts Ht Hts IH]; [done|]. rewrite fmap_cons. cbn [get_tags].
  unfold mbind, M_bind in *. destruct (lc_ok_int32 t Ht) as [??]. rewrite lc_roundtrip by done. simpl.
  by rewrite IH.
Qed.

(** Appending tags to the message of a client that has room. *)
Lemma RARGV_ADD_TAGS_run {cell} ts (w : world cell) args rs r :
  w_client w = mkClient args (Some r) false false rs → rargs_room (Z.of_nat (length args)) r →
  2 * Z.of_nat (length (r_args r) + length ts) - Z.of_nat (length args) ≤ INT_MAX + 1 →
  ∃ cap, let r' := mkRargs (r_args r ++ (lcToSds <$> ts)) cap in
    RARGV_ADD_TAGS ts w = Done () (set_client (mkClient args (Some r') false false rs) w) ∧
    rargs_room (Z.of_nat (length args)) r'.
Proof.
  revert w r. induction ts as [|t ts IH]; intros w r Hc Hr Hint; simpl.
  { exists (r_cap r). rewrite app_nil_r. destruct r, w; simpl in *. by subst. }
  assert (rargv_now (w_client w) = r ∧ argc (w_client w) = Z.of_nat (length args)) as [Hnow Hn].
  { unfold rargv_now, argc. by rewrite Hc. }
  destruct (rargv_add_room (w_client w) (lcToSds t)) as (r1 & Hadd & Hargs & Hr1);
    [by rewrite Hnow, Hn|rewrite Hnow, Hn; simpl in Hint; lia|].
  rewrite Hnow in Hargs. rewrite Hn in Hr1. unfold mbind, M_bind, RARGV_ADD_SDS. rewrite Hadd.
  destruct (IH (set_client (set_rargv (Some r1) (w_client w)) w) r1) as (cap & Hrun & Hroom); [by rewrite Hc|done|rewrite Hargs, length_app; simpl in *; lia|].
  exists cap. unfold mbind, M_bind in Hrun. rewrite Hargs, <- app_assoc in *. by rewrite Hrun.
Qed.

Lemma RARGV_ADD_TAGS_start {cell} ts (w : world cell) args rs :
  w_client w = mkClient args None false false rs → ts ≠ [] → Z.of_nat (length args) + 2 * Z.of_nat (length ts) ≤ INT_MAX + 1 →
  ∃ cap, let r' := mkRargs (args ++ (lcToSds <$> ts)) cap in
    RARGV_ADD_TAGS ts w = Done () (set_client (mkClient args (Some r') false false rs) w) ∧
    rargs_room (Z.of_nat (length args)) r'.
Proof.
  intros Hc Hts Hint. destruct ts as [|t ts]; [done|]. clear Hts. simpl.
  assert (r_args (rargv_now (w_client w)) = args ∧ argc (w_client w) = Z.of_nat (length args)) as [Hnow Hn].
  { unfold rargv_now, argc. by rewrite Hc. }
  destruct (rargv_add_room (w_client w) (lcToSds t)) as (r1 & Hadd & Hargs & Hr1); [apply init_rargv_room; by rewrite Hc|rewrite Hnow, Hn; simpl in Hint; lia|].
  rewrite Hnow in Hargs. rewrite Hn in Hr1. unfold mbind, M_bind, RARGV_ADD_SDS. rewrite Hadd.
  destruct (RARGV_ADD_TAGS_run ts (set_client (set_rargv (Some r1) (w_client w)) w) args rs r1) as (cap & Hrun & Hroom);
    [by rewrite Hc|done|rewrite Hargs, length_app; simpl in *; lia|].
  exists cap. rewrite Hargs, <- app_assoc in *. by rewrite Hrun.
Qed.
