(* ===== verification/Oset.v ===== *)
(** * The add-win set (src/t_oset.c)

    Every add gets a fresh tag; an element is in the set while some tag is in
    its add set [aset]; a remove moves the tags it saw to [rset].  The score
    kept in the sorted set is the value of the entry [exist] points to. *)

From S2P Require Import Prelude.
From S2P Require Import Sds.
From S2P Require Import LamportClock.
From S2P Require Import Double.
From S2P Require Import Skiplist.
From S2P Require Import Zset.
From S2P Require Import Server.
From S2P Require Import TagSet.

#[local] Open Scope Z_scope.

(** ** Element metadata *)

Record os_ase := mkOsAse { osa_addr : nat; osa_t : lc; osa_value : option Z }.

(** [exist] is a pointer to an entry of [aset], or [NULL]. *)
Record ose := mkOse {
  os_current : Z;
  os_exist : option nat;
  os_aset : list os_ase;
  os_rset : list lc
}.

Definition oseNew : ose := mkOse 0 None [] [].

Definition ORI_SET_TABLE_SUFFIX : sds := "_osets_".

Definition os_LOOKUP (e : ose) : bool := negb (Z.of_nat (length (os_aset e)) =? 0).

Definition o_asetGet (e : ose) (t : lc) : option os_ase := tag_find osa_t t (os_aset e).

Definition o_rsetGet (e : ose) (t : lc) : option lc := tag_find id t (os_rset e).

(** The new entry, not yet valued, is at the tail. *)
Definition o_add_ase (e : ose) (t : lc) : ose * os_ase :=
  let a := mkOsAse (fresh_addr osa_addr (os_aset e)) (lc_dup t) None in
  (mkOse (os_current e) (os_exist e) (os_aset e ++ [a]) (os_rset e), a).

(** [e->exist->t]; [None] is a dangling pointer. *)
Definition os_deref (e : ose) (p : nat) : option os_ase := deref osa_addr p (os_aset e).

(** [update_exist]: [None] is an invalid access. *)
Definition update_exist (e : ose) (t : lc) (v : option Z) : option (ose * bool) :=
  match o_rsetGet e t with
  | Some _ => Some (e, false)
  | None =>
      let '(e, a) := match o_asetGet e t with Some a => (e, a) | None => o_add_ase e t end in
      let e := mkOse (os_current e) (os_exist e)
                 (tag_alter osa_t (λ a, mkOsAse (osa_addr a) (osa_t a) v) t (os_aset e))
                 (os_rset e) in
      let set := Some (mkOse (os_current e) (Some (osa_addr a)) (os_aset e) (os_rset e), true) in
      match os_exist e with
      | None => set
      | Some p => x ← os_deref e p;
                  if lc_cmp_as_tag (osa_t x) (osa_t a) <? 0 then set else Some (e, false)
      end
  end.

Definition set_remove_tag (e : ose) (t : lc) : ose :=
  match o_rsetGet e t with
  | Some _ => e
  | None =>
      let rset := os_rset e ++ [lc_dup t] in
      match o_asetGet e t with
      | Some a =>
          mkOse (os_current e)
            (if decide (os_exist e = Some (osa_addr a)) then None else os_exist e)
            (tag_remove osa_t t (os_aset e)) rset
      | None => mkOse (os_current e) (os_exist e) (os_aset e) rset
      end
  end.

(** The loop of [set_resort] over the rest of [aset]. *)
Fixpoint set_resort_loop (exist : option os_ase) (l : list os_ase) : option os_ase :=
  match l with
  | [] => exist
  | a :: l' =>
      set_resort_loop
        (match exist with
         | None => Some a
         | Some x => if lc_cmp_as_tag (osa_t x) (osa_t a) <? 0 then Some a else exist
         end) l'
  end.

Definition set_resort (e : ose) : ose :=
  match os_exist e with
  | Some _ => e
  | None => mkOse (os_current e) (osa_addr <$> set_resort_loop None (os_aset e)) (os_aset e) (os_rset e)
  end.

(** ** Effects on one element *)

Definition os_add_effect (e : ose) (t : lc) (v : option Z) : option (ose * bool) :=
  update_exist e t v.

(** The flag tells whether the sorted set is touched. *)
Definition os_rem_effect (e : ose) (ts : list lc) : ose * bool :=
  let e := foldl set_remove_tag e ts in
  match os_exist e with
  | None => (set_resort e, true)
  | Some _ => (e, false)
  end.

(** [SCORE(e)]. *)
Definition os_score (e : ose) : fault + double :=
  match os_exist e with
  | None => inl NullDeref
  | Some p =>
      match os_deref e p with
      | None => inl NullDeref
      | Some a => match osa_value a with Some v => inr (dofZ v) | None => inl Uninit end
      end
  end.

(** ** Commands *)

Section commands.
Context {cell : Type} `{!Stored cell ose}.

Definition GET_OSE (name key : sds) (create : bool) : M cell (option loc) :=
  rehHTGet name (Some ORI_SET_TABLE_SUFFIX) key create (λ _, oseNew).

Definition os_publish (key ele : sds) (x : ose) : M cell () :=
  zset ← getZsetOrCreate key ele;
  match os_score x with
  | inr score => zset_add zset score ele
  | inl f => cfault f
  end.

Definition osadd_prepare : M cell () :=
  CHECK_ARGC 3;;
  CHECK_CONTAINER_TYPE OBJ_ZSET;;
  key ← arg 1; ele ← arg 2;
  e ← GET_OSE key ele true;
  e ← orfault NullDeref e;
  x ← load e;
  if os_LOOKUP x then addReply REleExist;; creturn
  else
    w ← get;
    let t := _lc_new (os_current x) (w_p2p_id w) in
    store e (mkOse (wrap32 (os_current x + 1)) (os_exist x) (os_aset x) (os_rset x));;
    RARGV_ADD_SDS (lcToSds t).

Definition osadd_effect : M cell () :=
  key ← rarg 1; ele ← rarg 2; s ← rarg 3;
  let v := wrap32 <$> string2ll ele in
  t ← orfault Uninit (sdsToLc s);
  e ← GET_OSE key ele true;
  e ← orfault NullDeref e;
  x ← load e;
  '(x', b) ← orfault NullDeref (os_add_effect x t v);
  store e x';;
  (if (b : bool) then os_publish key ele x' else mret ());;
  dirty_inc.

Definition osaddCommand : M cell () := crdt_command osadd_prepare osadd_effect.

Definition osrem_prepare : M cell () :=
  CHECK_ARGC 3;;
  CHECK_CONTAINER_TYPE OBJ_ZSET;;
  key ← arg 1; ele ← arg 2;
  e ← GET_OSE key ele false;
  match e with
  | None => addReply REleNexist;; creturn
  | Some l =>
      x ← load l;
      if os_LOOKUP x then RARGV_ADD_TAGS (osa_t <$> os_aset x)
      else addReply REleNexist;; creturn
  end.

Definition osrem_effect : M cell () :=
  key ← rarg 1; ele ← rarg 2;
  e ← GET_OSE key ele true;
  e ← orfault NullDeref e;
  args ← rargs_from 3;
  ts ← get_tags args;
  x ← load e;
  let '(x', b) := os_rem_effect x ts in
  store e x';;
  (if (b : bool) then
     zset ← getZsetOrCreate key ele;
     if os_LOOKUP x' then os_publish key ele x' else zset_del zset ele
   else mret ());;
  dirty_inc.

Definition osremCommand : M cell () := crdt_command osrem_prepare osrem_effect.

Definition oscontainsCommand : M cell () := containsCommand.
Definition ossizeCommand : M cell () := sizeCommand.

End commands.
