(* ===== verification/OsetRep.v ===== *)
(** * What the add-win set computes

    The metadata of an element after a history of adds and removes: the add
    set holds the tags added and not removed, the remove set the tags removed,
    and [exist] points to the greatest entry of the add set. *)

From S2P Require Import Prelude.
From S2P Require Import Sds.
From S2P Require Import VectorClock.
From S2P Require Import LamportClock.
From S2P Require Import Double.
From S2P Require Import Skiplist.
From S2P Require Import Zset.
From S2P Require Import ZsetRep.
From S2P Require Import Server.
From S2P Require Import Container.
From S2P Require Import TagSet.
From S2P Require Import Oset.

#[local] Open Scope Z_scope.

#[global] Instance oset_suffix : Suffix ORI_SET_TABLE_SUFFIX.
Proof. done. Qed.

(** ** One element *)

Inductive os_op := OsAdd (t : lc) | OsRem (ts : list lc).

Definition os_op_ok (op : os_op) : Prop :=
  match op with OsAdd t => lc_ok t | OsRem ts => Forall lc_ok ts end.

#[global] Instance os_op_ok_dec op : Decision (os_op_ok op).
Proof. destruct op; apply _. Defined.

(** Tags added and removed by a history. *)
Definition added (l : list os_op) (t : lc) : Prop := OsAdd t ∈ l.
Definition removed (l : list os_op) (t : lc) : Prop := ∃ ts, OsRem ts ∈ l ∧ t ∈ ts.

(** The effect on the metadata; the flag tells whether the sorted set is
    touched.  [v] is the integer value of the element. *)
Definition os_apply (v : Z) (op : os_op) (e : ose) : option (ose * bool) :=
  match op with
  | OsAdd t => os_add_effect e t (Some v)
  | OsRem ts => Some (os_rem_effect e ts)
  end.

(** [exist] points to the greatest entry. *)
Definition max_entry (l : list os_ase) (p : nat) : Prop :=
  ∃ a, a ∈ l ∧ osa_addr a = p ∧ ∀ b, b ∈ l → ¬ tag_lt (osa_t a) (osa_t b).

Record os_shape (v : Z) (e : ose) : Prop := {
  os_tags_ok : tags_ok osa_t (os_aset e);
  os_rtags_ok : tags_ok id (os_rset e);
  os_tags : NoDup (osa_t <$> os_aset e);
  os_addrs : NoDup (osa_addr <$> os_aset e);
  os_values : Forall (λ a, osa_value a = Some v) (os_aset e);
  os_disj t : t ∈ osa_t <$> os_aset e → t ∉ os_rset e;
  os_max p : os_exist e = Some p → max_entry (os_aset e) p
}.

Record os_inv (v : Z) (l : list os_op) (e : ose) : Prop := {
  os_inv_shape : os_shape v e;
  os_inv_aset t : t ∈ osa_t <$> os_aset e ↔ added l t ∧ ¬ removed l t;
  os_inv_rset t : t ∈ os_rset e ↔ removed l t;
  os_inv_none : os_exist e = None → os_aset e = []
}.

Lemma os_inv_new v : os_inv v [] oseNew.
Proof.
  split; simpl.
  - split; simpl; try done; try constructor. by intros t ?%elem_of_nil.
  - intros t. split; [by intros ?%elem_of_nil|]. by intros [?%elem_of_nil _].
  - intros t. split; [by intros ?%elem_of_nil|]. by intros (ts & ?%elem_of_nil & _).
  - done.
Qed.

Lemma added_snoc l op t : added (l ++ [op]) t ↔ added l t ∨ op = OsAdd t.
Proof. unfold added. rewrite elem_of_app, list_elem_of_singleton. naive_solver. Qed.

Lemma removed_snoc l op t :
  removed (l ++ [op]) t ↔ removed l t ∨ (∃ ts, op = OsRem ts ∧ t ∈ ts).
Proof. unfold removed. setoid_rewrite elem_of_app. setoid_rewrite list_elem_of_singleton. naive_solver. Qed.

(** *** Adds *)

(** The add set after [update_exist] has found or made the entry. *)
Lemma update_aset v e t :
  os_shape v e → lc_ok t →
  ∃ a aset, osa_t a = t ∧ a ∈ aset ∧ tags_ok osa_t aset ∧ NoDup (osa_t <$> aset) ∧ NoDup (osa_addr <$> aset) ∧
    Forall (λ a, osa_value a = Some v) aset ∧ (∀ b, b ∈ aset ↔ b ∈ os_aset e ∨ b = a) ∧
    (let '(e1, a1) := match o_asetGet e t with Some a => (e, a) | None => o_add_ase e t end in
     osa_addr a1 = osa_addr a ∧ osa_t a1 = t ∧ os_current e1 = os_current e ∧ os_exist e1 = os_exist e ∧
     os_rset e1 = os_rset e ∧
     tag_alter osa_t (λ a, mkOsAse (osa_addr a) (osa_t a) (Some v)) t (os_aset e1) = aset).
Proof.
  intros S Ht. pose proof (os_tags_ok _ _ S) as Htags. unfold o_asetGet.
  destruct (tag_find osa_t t (os_aset e)) as [a|] eqn:Hf.
  - apply (tag_find_Some osa_t) in Hf as [Ha Hat]; [|done..]. exists a, (os_aset e).
    split_and!; try done; try apply S.
    + intros b. split; [by left|]. intros [?| ->]; done.
    + rewrite tag_alter_map by (done || apply S). rewrite <- (list_fmap_id (os_aset e)) at 2.
      apply list_fmap_ext. intros i b Hb. case_decide; [|done]. pose proof (os_values _ _ S) as Hv.
      eapply Forall_lookup_1 in Hv; [|exact Hb]. destruct b. simpl in *. by subst.
  - apply (tag_find_None osa_t) in Hf; [|done..].
    set (p := fresh_addr osa_addr (os_aset e)). exists (mkOsAse p t (Some v)), (os_aset e ++ [mkOsAse p t (Some v)]).
    assert (lc_dup t = t) as Hdup by (by destruct t).
    assert (NoDup (osa_t <$> (os_aset e ++ [mkOsAse p t (Some v)]))) as Hnd.
    { rewrite fmap_app. apply NoDup_app. split_and!; [apply S| |apply NoDup_singleton].
      intros x Hx Hx'. apply list_elem_of_singleton in Hx'. by subst. }
    split_and!; try done.
    + apply elem_of_app. right. by apply list_elem_of_singleton.
    + apply Forall_app_2; [done|]. by apply Forall_singleton.
    + rewrite fmap_app. apply NoDup_app. split_and!; [apply S| |apply NoDup_singleton].
      intros x (b & -> & Hb)%list_elem_of_fmap Hx'. apply list_elem_of_singleton in Hx'. simpl in Hx'.
      pose proof (fresh_addr_gt osa_addr _ _ Hb). unfold p in Hx'. lia.
    + apply Forall_app_2; [apply S|]. by apply Forall_singleton.
    + intros b. by rewrite elem_of_app, list_elem_of_singleton.
    + simpl. rewrite Hdup. fold p. split_and!; [done..|]. rewrite tag_alter_map; [|done|..].
      * rewrite fmap_app. simpl. rewrite decide_True by done. f_equal.
        rewrite <- (list_fmap_id (os_aset e)) at 2. apply list_fmap_ext. intros i b Hb.
        rewrite decide_False; [done|]. intros Heq. apply Hf. rewrite <- Heq.
        apply list_elem_of_fmap_2. by eapply list_elem_of_lookup_2.
      * apply Forall_app_2; [done|]. by apply Forall_singleton.
      * rewrite fmap_app in Hnd |- *. exact Hnd.
Qed.

Lemma o_rsetGet_None v e t : os_shape v e → lc_ok t → o_rsetGet e t = None ↔ t ∉ os_rset e.
Proof.
  intros S Ht. unfold o_rsetGet. rewrite (tag_find_None id) by (done || apply S). by rewrite list_fmap_id.
Qed.

(** Tags of an add set extended by one entry. *)
Lemma tags_extend (l l' : list os_ase) a t :
  (∀ b, b ∈ l' ↔ b ∈ l ∨ b = a) → t ∈ osa_t <$> l' ↔ t ∈ osa_t <$> l ∨ t = osa_t a.
Proof.
  intros H. rewrite !list_elem_of_fmap. setoid_rewrite H. split.
  - intros (b & -> & [Hb| ->]); [left; by exists b|by right].
  - intros [(b & -> & Hb)| ->]; [exists b; auto|exists a; auto].
Qed.

Lemma os_add_inv v l e t :
  os_inv v l e → lc_ok t →
  ∃ e' b, os_add_effect e t (Some v) = Some (e', b) ∧ os_inv v (l ++ [OsAdd t]) e' ∧
    (b = true → is_Some (os_exist e')) ∧ (b = false → (os_aset e' = [] ↔ os_aset e = [])) ∧ (l = [] → b = true).
Proof.
  intros [S Haset Hrset Hnone] Ht. unfold os_add_effect, update_exist.
  pose proof (o_rsetGet_None v e t S Ht) as Hr. destruct (o_rsetGet e t) as [t'|] eqn:Hg.
  - exists e, false. assert (t ∈ os_rset e) as Hin by (destruct (decide (t ∈ os_rset e)) as [|Hn]; [done|by apply Hr in Hn]).
    split; [done|]. split_and!; try done.
    + split; try done.
      * intros x. rewrite Haset, added_snoc, removed_snoc. split; [intros [? Hn]; split; [by left|]|].
        -- intros [?|(ts & ? & _)]; done.
        -- intros [[?|[= ->]] Hn]; [split; [done|]; intros ?; apply Hn; by left|].
           exfalso. apply Hn. left. by apply Hrset.
      * intros x. rewrite Hrset, removed_snoc. split; [by left|]. intros [?|(ts & ? & _)]; done.
    + intros ->. apply Hrset in Hin as (ts & ?%elem_of_nil & _). done.
  - assert (t ∉ os_rset e) as Hnr by (by apply Hr). clear Hr.
    destruct (update_aset v e t S Ht) as (a & aset & Hat & Ha & Hok & Hnd & Hna & Hv & Hmem & Hupd).
    destruct (match o_asetGet e t with Some a => (e, a) | None => o_add_ase e t end) as [e1 a1].
    destruct Hupd as (Haddr & Hat1 & Hcur & Hex & Hrs & Halt). simpl. rewrite Hcur, Hex, Hrs, Halt.
    assert (∀ p, max_entry aset p → os_inv v (l ++ [OsAdd t]) (mkOse (os_current e) (Some p) aset (os_rset e))) as Hinv.
    { intros p Hp. split; simpl; try done.
      - split; simpl; try done; [apply S| |by intros ? [= ->]].
        intros x. rewrite (tags_extend _ _ a x Hmem). intros [Hx| ->]; [by apply S|by rewrite Hat].
      - intros x. rewrite (tags_extend _ _ a x Hmem), Haset, added_snoc, removed_snoc, Hat. split.
        + intros [[? Hn]| ->].
          * split; [by left|]. intros [?|(ts & ? & _)]; done.
          * split; [by right|]. rewrite <- Hrset. intros [?|(ts & ? & _)]; done.
        + intros [[?|[= ->]] Hn]; [left; split; [done|]; intros ?; apply Hn; by left|by right].
      - intros x. rewrite Hrset, removed_snoc. split; [by left|]. intros [?|(ts & ? & _)]; done. }
    assert (aset ≠ []) as Hne by (intros ->; by apply elem_of_nil in Ha).
    destruct (os_exist e) as [p|] eqn:Hp.
    + destruct (os_max _ _ S p Hp) as (x & Hx & Hxp & Hxmax). rewrite <- Hxp. unfold os_deref. simpl.
      rewrite (deref_unique osa_addr) by (done || by apply Hmem; left). simpl.
      destruct (Z.ltb_spec (lc_cmp_as_tag (osa_t x) (osa_t a1)) 0) as [Hlt|Hge].
      * eexists _, true. split; [done|]. split_and!; try done. apply Hinv. exists a. split_and!; [done..|].
        rewrite Hat1, lc_tag_lt, <- Hat in Hlt; [|by apply (proj1 (Forall_forall _ _) Hok), Hmem; left|done].
        intros b [Hb| ->]%Hmem Hab; [|by apply tag_lt_irrefl in Hab].
        apply (Hxmax b Hb). by eapply tag_lt_trans.
      * eexists _, false. split; [done|]. assert (os_aset e ≠ []) as Hne' by (intros Heq; rewrite Heq in Hx; by apply elem_of_nil in Hx).
        split_and!; try done; [|intros ->; destruct (proj1 (Haset (osa_t x))) as [?%elem_of_nil _]; [by apply list_elem_of_fmap_2|done]].
        apply Hinv. exists x. split_and!; [apply Hmem; by left|done|].
        intros b [Hb| ->]%Hmem; [by apply Hxmax|]. rewrite <- lc_tag_lt, Hat, <- Hat1; [lia|..].
        -- by apply (proj1 (Forall_forall _ _) Hok), Hmem; left.
        -- by apply (proj1 (Forall_forall _ _) Hok).
    + eexists _, true. split; [done|]. split_and!; try done. rewrite Haddr. apply Hinv. exists a. split_and!; [done..|].
      intros b [Hb| ->]%Hmem; [|apply tag_lt_irrefl]. rewrite (Hnone eq_refl) in Hb. by apply elem_of_nil in Hb.
Qed.

(** *** Removes *)

(** Dropping the entries of a tag keeps the shape. *)
Lemma os_shape_drop v e t exist :
  os_shape v e → lc_ok t →
  (∀ p, exist = Some p → os_exist e = Some p ∧ ∃ a, a ∈ os_aset e ∧ osa_addr a = p ∧ osa_t a ≠ t) →
  os_shape v (mkOse (os_current e) exist (filter (λ a, osa_t a ≠ t) (os_aset e)) (os_rset e ++ [t])).
Proof.
  intros S Ht Hp. split; simpl.
  - apply Forall_forall. intros a [_ Ha]%list_elem_of_filter. by apply (proj1 (Forall_forall _ _) (os_tags_ok _ _ S)).
  - apply Forall_app_2; [apply S|by apply Forall_singleton].
  - apply NoDup_fmap_filter, S.
  - apply NoDup_fmap_filter, S.
  - apply Forall_forall. intros a [_ Ha]%list_elem_of_filter. by apply (proj1 (Forall_forall _ _) (os_values _ _ S)).
  - intros x (a & -> & [Hne Ha]%list_elem_of_filter)%list_elem_of_fmap.
    rewrite not_elem_of_app, list_elem_of_singleton. split; [|done].
    apply (os_disj _ _ S). by apply list_elem_of_fmap_2.
  - intros p Hex. destruct (Hp p Hex) as (Hp' & a & Ha & Hap & Hat).
    destruct (os_max _ _ S p Hp') as (b & Hb & Hbp & Hmax). exists b.
    assert (b = a) as ->.
    { pose proof (deref_unique osa_addr _ a (os_addrs _ _ S) Ha) as H1.
      pose proof (deref_unique osa_addr _ b (os_addrs _ _ S) Hb) as H2. rewrite Hap in H1. rewrite Hbp in H2. congruence. }
    split_and!; [by apply list_elem_of_filter|done|]. intros c [_ Hc]%list_elem_of_filter. by apply Hmax.
Qed.

Lemma set_remove_tag_spec v e t :
  os_shape v e → lc_ok t →
  os_shape v (set_remove_tag e t) ∧
  (∀ x, x ∈ osa_t <$> os_aset (set_remove_tag e t) ↔ x ∈ osa_t <$> os_aset e ∧ x ≠ t) ∧
  (∀ x, x ∈ os_rset (set_remove_tag e t) ↔ x ∈ os_rset e ∨ x = t) ∧
  (os_exist (set_remove_tag e t) = os_exist e ∨ os_exist (set_remove_tag e t) = None).
Proof.
  intros S Ht. unfold set_remove_tag. assert (lc_dup t = t) as -> by (by destruct t).
  pose proof (o_rsetGet_None v e t S Ht) as Hr. destruct (o_rsetGet e t) as [t'|] eqn:Hg.
  { assert (t ∈ os_rset e) as Hin by (destruct (decide (t ∈ os_rset e)) as [|Hn]; [done|by apply Hr in Hn]).
    split_and!; [done| | |by left].
    - intros x. split; [|by intros [? _]]. intros Hx. split; [done|]. intros ->. by apply (os_disj _ _ S) in Hx.
    - intros x. split; [by left|]. by intros [?| ->]. }
  assert (∀ x, x ∈ osa_t <$> filter (λ a, osa_t a ≠ t) (os_aset e) ↔ x ∈ osa_t <$> os_aset e ∧ x ≠ t) as Hfil.
  { intros x. rewrite !list_elem_of_fmap. setoid_rewrite list_elem_of_filter. naive_solver. }
  unfold o_asetGet. destruct (tag_find osa_t t (os_aset e)) as [a|] eqn:Hf.
  - apply (tag_find_Some osa_t) in Hf as [Ha Hat]; [|done|apply S].
    rewrite tag_remove_filter by (done || apply S). split_and!; simpl; [|done| |].
    + apply os_shape_drop; [done..|]. intros p. case_decide as Hd; [done|]. intros Hp. split; [done|].
      destruct (os_max _ _ S p Hp) as (b & Hb & Hbp & _). exists b. split_and!; [done..|].
      intros Hbt. apply Hd. rewrite Hp, <- Hbp. do 2 f_equal.
      apply (NoDup_fmap_inj osa_t (os_aset e)); [apply S|done..|congruence].
    + intros x. by rewrite elem_of_app, list_elem_of_singleton.
    + case_decide; [by right|by left].
  - apply (tag_find_None osa_t) in Hf; [|done|apply S].
    assert (os_aset e = filter (λ a, osa_t a ≠ t) (os_aset e)) as Heq.
    { symmetry. apply filter_all. intros a Ha Hat. apply Hf. rewrite <- Hat. by apply list_elem_of_fmap_2. }
    rewrite <- Heq in Hfil. split_and!; simpl; [|done|..|by left].
    + pose proof (os_shape_drop v e t (os_exist e) S Ht) as Hs. rewrite <- Heq in Hs.
      apply Hs. intros p Hp. split; [done|].
      destruct (os_max _ _ S p Hp) as (b & Hb & Hbp & _). exists b. split_and!; [done..|].
      intros Hbt. apply Hf. rewrite <- Hbt. by apply list_elem_of_fmap_2.
    + intros x. by rewrite elem_of_app, list_elem_of_singleton.
Qed.

Lemma set_remove_tags_spec v ts e :
  os_shape v e → Forall lc_ok ts →
  os_shape v (foldl set_remove_tag e ts) ∧
  (∀ x, x ∈ osa_t <$> os_aset (foldl set_remove_tag e ts) ↔ x ∈ osa_t <$> os_aset e ∧ x ∉ ts) ∧
  (∀ x, x ∈ os_rset (foldl set_remove_tag e ts) ↔ x ∈ os_rset e ∨ x ∈ ts).
Proof.
  intros S Hts. revert e S. induction Hts as [|t ts Ht Hts IH]; intros e S; simpl.
  { split_and!; [done| |]; intros x; rewrite elem_of_nil; tauto. }
  destruct (set_remove_tag_spec v e t S Ht) as (S' & Ha & Hr & _).
  destruct (IH _ S') as (S'' & Ha' & Hr'). split; [done|]. split; intros x.
  - rewrite Ha', Ha, elem_of_cons. tauto.
  - rewrite Hr', Hr, elem_of_cons. tauto.
Qed.

(** The loop of [set_resort] finds the greatest entry. *)
Lemma set_resort_loop_spec l o :
  tags_ok osa_t l → (∀ x, o = Some x → lc_ok (osa_t x)) →
  match set_resort_loop o l with
  | None => o = None ∧ l = []
  | Some a => (o = Some a ∨ a ∈ l) ∧
      ∀ b, o = Some b ∨ b ∈ l → ¬ tag_lt (osa_t a) (osa_t b)
  end.
Proof.
  intros Hl. revert o. induction Hl as [|a l Ha Hl IH]; intros o Ho; simpl.
  { destruct o as [x|]; [|done]. split; [by left|]. intros b [[= ->]|?%elem_of_nil]; [apply tag_lt_irrefl|done]. }
  destruct o as [x|].
  - specialize (Ho x eq_refl). destruct (Z.ltb_spec (lc_cmp_as_tag (osa_t x) (osa_t a)) 0) as [Hlt|Hge].
    + rewrite lc_tag_lt in Hlt by done. specialize (IH (Some a)). destruct (set_resort_loop (Some a) l) as [y|];
        [|destruct IH; [by intros ? [= ->]|done]]. destruct IH as [Hy Hmax]; [by intros ? [= ->]|].
      split; [right; destruct Hy as [[= ->]|?]; [by left|by right]|].
      intros b [[= <-]|[->|Hb]%elem_of_cons]; [|by apply Hmax; left|by apply Hmax; right].
      intros Hyx. apply (Hmax a); [by left|]. by eapply tag_lt_trans.
    + assert (¬ tag_lt (osa_t x) (osa_t a)) as Hnlt by (rewrite <- lc_tag_lt by done; lia).
      specialize (IH (Some x)). destruct (set_resort_loop (Some x) l) as [y|];
        [|destruct IH; [by intros ? [= ->]|done]]. destruct IH as [Hy Hmax]; [by intros ? [= ->]|].
      split; [destruct Hy as [?|?]; [by left|right; by right]|].
      intros b [Hb|[->|Hb]%elem_of_cons]; [by apply Hmax; left| |by apply Hmax; right].
      intros Hya. destruct (tag_total (osa_t x) (osa_t a)) as [?|[Heq|Hax]]; [done|..].
      * apply (Hmax x); [by left|]. by rewrite Heq.
      * apply (Hmax x); [by left|]. by eapply tag_lt_trans.
  - specialize (IH (Some a)). destruct (set_resort_loop (Some a) l) as [y|];
      [|destruct IH; [by intros ? [= ->]|done]]. destruct IH as [Hy Hmax]; [by intros ? [= ->]|].
    split; [right; destruct Hy as [[= ->]|?]; [by left|by right]|].
    intros b [?|[->|Hb]%elem_of_cons]; [done|by apply Hmax; left|by apply Hmax; right].
Qed.

Lemma set_resort_spec v e :
  os_shape v e →
  os_shape v (set_resort e) ∧ os_aset (set_resort e) = os_aset e ∧ os_rset (set_resort e) = os_rset e ∧
  (os_exist (set_resort e) = None → os_aset e = []).
Proof.
  intros S. unfold set_resort. destruct (os_exist e) as [p|] eqn:Hp.
  { split_and!; try done. by rewrite Hp. }
  pose proof (set_resort_loop_spec (os_aset e) None (os_tags_ok _ _ S) ltac:(done)) as Hl.
  destruct (set_resort_loop None (os_aset e)) as [a|]; simpl.
  - destruct Hl as [[?|Ha] Hmax]; [done|]. split_and!; try done. split; try apply S.
    simpl. intros p [= <-]. exists a. split_and!; [done..|]. intros b Hb. apply Hmax. by right.
  - destruct Hl as [_ Hnil]. split_and!; try done. split; simpl; try apply S. done.
Qed.

Lemma os_rem_inv v l e ts :
  os_inv v l e → Forall lc_ok ts →
  let '(e', b) := os_rem_effect e ts in
  os_inv v (l ++ [OsRem ts]) e' ∧ (b = false → os_aset e' ≠ [] ∧ os_aset e ≠ []) ∧
  (b = true → os_LOOKUP e' = true → is_Some (os_exist e')).
Proof.
  intros [S Haset Hrset Hnone] Hts. unfold os_rem_effect.
  destruct (set_remove_tags_spec v ts e S Hts) as (S1 & Ha1 & Hr1). set (e1 := foldl set_remove_tag e ts) in *.
  assert (∀ e', os_shape v e' → os_aset e' = os_aset e1 → os_rset e' = os_rset e1 →
    (os_exist e' = None → os_aset e' = []) → os_inv v (l ++ [OsRem ts]) e') as Hinv.
  { intros e' S' Ha' Hr' Hn'. split; [done| | |done].
    - intros x. rewrite Ha', Ha1, Haset, added_snoc, removed_snoc. split.
      + intros [[? Hnr] Hx]. split; [by left|]. intros [?|(ts' & [= <-] & ?)]; done.
      + intros [[?|?] Hn]; [|done]. split; [split; [done|]; intros ?; apply Hn; by left|].
        intros Hx. apply Hn. right. by exists ts.
    - intros x. rewrite Hr', Hr1, Hrset, removed_snoc. split; (intros [?|Hx]; [by left|right]).
      + by exists ts.
      + by destruct Hx as (ts' & [= <-] & ?). }
  destruct (os_exist e1) as [p|] eqn:Hp; simpl.
  - split; [apply Hinv; [done..|by rewrite Hp]|]. split; [|done]. intros _.
    destruct (os_max _ _ S1 p Hp) as (a & Ha & _). split; intros Heq.
    + rewrite Heq in Ha. by apply elem_of_nil in Ha.
    + destruct (proj1 (Ha1 (osa_t a))) as [Hin _]; [by apply list_elem_of_fmap_2|].
      rewrite Heq in Hin. by apply elem_of_nil in Hin.
  - destruct (set_resort_spec v e1 S1) as (S2 & Ha2 & Hr2 & Hn2). split; [|split; [done|]].
    + apply Hinv; [done..|]. intros Hn. rewrite Ha2. by apply Hn2.
    + intros _ Hlk. destruct (os_exist (set_resort e1)) eqn:Hx; [by eexists|]. exfalso.
      unfold os_LOOKUP in Hlk. by rewrite Ha2, (Hn2 eq_refl) in Hlk.
Qed.

(** ** A container *)

Abbreviation oset_cont := (gmap sds ose * option (gmap sds double))%type.

(** The [int] a set element stands for. *)
Definition os_value (ele : sds) : Z := default 0 (wrap32 <$> string2ll ele).

(** What the effect phases do to the sorted set. *)
Definition os_show (op : os_op) (ele : sds) (e' : ose) (b : bool) (o : option (gmap sds double))
    : option (gmap sds double) :=
  if b then
    let m := default ∅ o in
    Some (match op with
          | OsAdd _ => (zmap_add m (dofZ (os_value ele)) ele ZADD_NONE).1.1
          | OsRem _ => if os_LOOKUP e' then (zmap_add m (dofZ (os_value ele)) ele ZADD_NONE).1.1
                       else delete ele m
          end)
  else o.

Definition os_vis (e : ose) (o : option double) : Prop := is_Some o ↔ os_aset e ≠ [].

Definition oset_inv (hist : list (sds * os_op)) (s : oset_cont) : Prop :=
  (∀ ele, let e := default oseNew (s.1 !! ele) in
    os_inv (os_value ele) (ops_of ele hist) e ∧ os_vis e (default ∅ s.2 !! ele)) ∧
  (s.2 = None ↔ hist = []).

Lemma oset_inv_init : oset_inv [] (∅, None).
Proof.
  split; [|done]. intros ele. simpl. rewrite !lookup_empty. split; [apply os_inv_new|]. by split; intros [].
Qed.

Lemma os_score_spec v l e : os_inv v l e → is_Some (os_exist e) → os_score e = inr (dofZ v).
Proof.
  intros [S _ _ _] [p Hp]. unfold os_score, os_deref. rewrite Hp.
  destruct (os_max _ _ S p Hp) as (a & Ha & <- & _). rewrite (deref_unique osa_addr) by (done || apply S).
  by rewrite (proj1 (Forall_forall _ _) (os_values _ _ S) a Ha).
Qed.

Lemma os_exist_aset v l e : os_inv v l e → is_Some (os_exist e) ↔ os_aset e ≠ [].
Proof.
  intros [S _ _ Hnone]. split.
  - intros [p Hp] Heq. destruct (os_max _ _ S p Hp) as (a & Ha & _). rewrite Heq in Ha. by apply elem_of_nil in Ha.
  - intros Hne. destruct (os_exist e); [by eexists|]. by destruct Hne, Hnone.
Qed.

Lemma os_LOOKUP_spec e : os_LOOKUP e = true ↔ os_aset e ≠ [].
Proof. unfold os_LOOKUP. by destruct (os_aset e). Qed.

Lemma zmap_add_shown m z ele : is_Some ((zmap_add m (dofZ z) ele ZADD_NONE).1.1 !! ele).
Proof. destruct (zmap_add_eq m (dofZ z) ele) as (s & -> & _); [apply isnan_dofZ|by eexists]. Qed.

(** One operation on one element: the metadata, the flag, and what to show. *)
Lemma os_apply_inv ele l e op o :
  let v := os_value ele in
  os_inv v l e → os_op_ok op → os_vis e (default ∅ o !! ele) → (o = None → l = []) →
  ∃ e' b, os_apply v op e = Some (e', b) ∧ os_inv v (l ++ [op]) e' ∧
    os_vis e' (default ∅ (os_show op ele e' b o) !! ele) ∧ os_show op ele e' b o ≠ None ∧
    (b = true → os_LOOKUP e' = true → os_score e' = inr (dofZ v)) ∧
    (b = true → ∀ t, op = OsAdd t → os_LOOKUP e' = true).
Proof.
  intros v Hinv Hop Hvis Ho. unfold os_vis in Hvis. destruct op as [t|ts]; simpl in *.
  - destruct (os_add_inv v l e t Hinv Hop) as (e' & b & Ha & Hinv' & Hb1 & Hb2 & Hb3). exists e', b.
    pose proof (os_exist_aset v _ e' Hinv') as Hea. split_and!; [done..| | | |].
    + unfold os_vis, os_show. destruct b; simpl.
      * specialize (Hb1 eq_refl). rewrite Hea in Hb1. split; [done|]. intros _. apply zmap_add_shown.
      * rewrite Hvis. specialize (Hb2 eq_refl). tauto.
    + unfold os_show. destruct b; [done|]. intros Hnone. by specialize (Hb3 (Ho Hnone)).
    + intros Hb _. apply (os_score_spec v (l ++ [OsAdd t])); [done|by apply Hb1].
    + intros Hb t' _. apply os_LOOKUP_spec, Hea. by apply Hb1.
  - pose proof (os_rem_inv v l e ts Hinv Hop) as H. destruct (os_rem_effect e ts) as [e' b].
    destruct H as (Hinv' & Hb1 & Hb2). exists e', b. split_and!; [done..| | | |done].
    + unfold os_vis, os_show. destruct b; simpl.
      * pose proof (os_LOOKUP_spec e') as Hlk. destruct (os_LOOKUP e').
        -- split; [intros _; by apply Hlk|]. intros _. apply zmap_add_shown.
        -- rewrite lookup_delete_eq. split; [by intros []|]. intros Hne. by apply Hlk in Hne.
      * rewrite Hvis. specialize (Hb1 eq_refl). tauto.
    + unfold os_show. destruct b; [done|]. intros Hnone. destruct (Hb1 eq_refl) as [_ Hne].
      specialize (Ho Hnone). subst l. destruct Hinv as [_ Haset _ _]. destruct (os_aset e) as [|a aset]; [done|].
      destruct (proj1 (Haset (osa_t a))) as [Hin _]; [by left|]. by apply elem_of_nil in Hin.
    + intros Hb Hlk. apply (os_score_spec v (l ++ [OsRem ts])); [done|by apply Hb2].
Qed.

(** The invariant of the container after one more operation. *)
Lemma oset_inv_step hist s ele op e' b :
  oset_inv hist s →
  os_inv (os_value ele) (ops_of ele hist ++ [op]) e' → os_vis e' (default ∅ (os_show op ele e' b s.2) !! ele) →
  os_show op ele e' b s.2 ≠ None →
  oset_inv (hist ++ [(ele, op)]) (<[ele := e']> s.1, os_show op ele e' b s.2).
Proof.
  intros [Hinv Hex] Hinv' Hvis' Hne. split; simpl; [|split; [done|intros Hnil; by destruct hist]].
  intros ele'. rewrite ops_of_snoc. simpl. destruct (decide (ele = ele')) as [<-|Hd].
  - by rewrite lookup_insert_eq.
  - rewrite lookup_insert_ne, app_nil_r by done. destruct (Hinv ele') as [Hi Hv]. split; [done|].
    unfold os_vis in *. rewrite <- Hv. unfold os_show. destruct b; [|done]. cbn [default from_option]. unfold id.
    destruct op; [by rewrite zmap_add_ne|]. destruct (os_LOOKUP e'); [by rewrite zmap_add_ne|by rewrite lookup_delete_ne].
Qed.

(** The counters that the next tags come from; effects leave them alone. *)
Definition oset_counters (k : Z) (s : oset_cont) : Prop :=
  ∀ ele, 0 ≤ os_current (default oseNew (s.1 !! ele)) ≤ k.

Lemma set_remove_tags_current ts e : os_current (foldl set_remove_tag e ts) = os_current e.
Proof.
  revert e. induction ts as [|t ts IH]; intros e; [done|]. simpl. rewrite IH. unfold set_remove_tag. by repeat case_match.
Qed.

Lemma os_apply_current v op e e' b : os_apply v op e = Some (e', b) → os_current e' = os_current e.
Proof.
  destruct op as [t|ts]; simpl.
  - unfold os_add_effect, update_exist, o_add_ase. destruct (o_rsetGet e t); [by intros [= <- <-]|].
    destruct (o_asetGet e t); simpl; (destruct (os_exist e); simpl; [|by intros [= <- <-]]);
      (destruct (os_deref _ _); simpl; [|done]); case_match; by intros [= <- <-].
  - unfold os_rem_effect. pose proof (set_remove_tags_current ts e) as Hts.
    destruct (os_exist (foldl set_remove_tag e ts)) eqn:Hx; intros [= <- <-]; [done|].
    unfold set_resort. by rewrite Hx.
Qed.

Lemma oset_counters_insert k s ele e' o :
  oset_counters k s → os_current e' = os_current (default oseNew (s.1 !! ele)) →
  oset_counters k (<[ele := e']> s.1, o).
Proof.
  intros Hk He ele'. simpl. destruct (decide (ele = ele')) as [<-|Hne].
  - rewrite lookup_insert_eq. simpl. rewrite He. apply Hk.
  - rewrite lookup_insert_ne by done. apply Hk.
Qed.

(** The arguments an operation travels with. *)
Inductive os_msg : os_op → sds → sds → list sds → Prop :=
  | omsg_add cmd key ele t :
      is_Some (string2ll ele) → os_msg (OsAdd t) key ele [cmd; key; ele; lcToSds t]
  | omsg_rem cmd key ele ts :
      os_msg (OsRem ts) key ele (cmd :: key :: ele :: (lcToSds <$> ts)).

Section world.
Context {cell : Type} `{!Stored cell ose}.
Implicit Types (w : world cell).

Abbreviation ocont := (cont (A := ose) ORI_SET_TABLE_SUFFIX).
Abbreviation osteps := (steps ORI_SET_TABLE_SUFFIX).

Definition os_effect (op : os_op) : M cell () :=
  match op with OsAdd _ => osadd_effect | OsRem _ => osrem_effect end.

(** What the effect phases do after storing the metadata. *)
Lemma os_publish_run w key ptrs Ms o ele e z :
  ocont w key ptrs Ms o → os_score e = inr (dofZ z) →
  ∃ w', os_publish key ele e w = Done () w' ∧
    ocont w' key ptrs Ms (Some (zmap_add (default ∅ o) (dofZ z) ele ZADD_NONE).1.1) ∧ osteps key w ptrs w' ptrs.
Proof.
  intros C Hsc. unfold os_publish. rewrite Hsc.
  destruct (getZset_run _ w key ptrs Ms o ele C) as (w1 & Hg & C1 & S1).
  destruct (zset_add_run _ w1 key ptrs Ms _ ele (dofZ z) C1) as (w2 & Ha & C2 & S2).
  mstep Hg. exists w2. split; [done|]. split; [done|by eapply steps_trans].
Qed.

Lemma os_show_run w key ptrs Ms o ele op e b :
  ocont w key ptrs Ms o →
  (b = true → os_LOOKUP e = true → os_score e = inr (dofZ (os_value ele))) →
  (b = true → ∀ t, op = OsAdd t → os_LOOKUP e = true) →
  ∃ w', ((if b then
            match op with
            | OsAdd _ => os_publish key ele e
            | OsRem _ => zset ← getZsetOrCreate key ele;
                         if os_LOOKUP e then os_publish key ele e else zset_del zset ele
            end
          else mret ());; dirty_inc) w = Done () w' ∧
    ocont w' key ptrs Ms (os_show op ele e b o) ∧ osteps key w ptrs w' ptrs.
Proof.
  intros C Hsc Hadd.
  assert (∃ w1, (if b then match op with
            | OsAdd _ => os_publish key ele e
            | OsRem _ => zset ← getZsetOrCreate key ele;
                         if os_LOOKUP e then os_publish key ele e else zset_del zset ele
            end else mret ()) w = Done () w1 ∧ ocont w1 key ptrs Ms (os_show op ele e b o) ∧ osteps key w ptrs w1 ptrs)
    as (w1 & Hrun & C1 & S1).
  { unfold os_show. destruct b; [|exists w; split; [done|]; split; [done|apply steps_refl]].
    destruct op as [t|ts].
    - apply os_publish_run; [done|]. apply Hsc; [done|by eapply Hadd].
    - destruct (getZset_run _ w key ptrs Ms o ele C) as (w1 & Hg & C1 & S1). mstep Hg.
      destruct (os_LOOKUP e).
      + destruct (os_publish_run w1 key ptrs Ms _ ele e _ C1 (Hsc eq_refl eq_refl)) as (w2 & Hp & C2 & S2).
        exists w2. split; [done|]. split; [done|by eapply steps_trans].
      + destruct (zset_del_run _ w1 key ptrs Ms _ ele C1) as (w2 & Hp & C2 & S2).
        exists w2. split; [done|]. split; [done|by eapply steps_trans]. }
  mstep Hrun. destruct (dirty_spec _ w1 key ptrs _ _ C1) as (w2 & -> & C2 & S2).
  exists w2. split; [done|]. split; [done|by eapply steps_trans].
Qed.

(** The effect phases run the operation. *)
Lemma os_effect_run op key ele args hist w ptrs Ms o r :
  ocont w key ptrs Ms o → rargv (w_client w) = Some r → r_args r = args → os_msg op key ele args →
  oset_inv hist (Ms, o) → os_op_ok op →
  ∃ w' ptrs' s', os_effect op w = Done () w' ∧ ocont w' key ptrs' s'.1 s'.2 ∧
    osteps key w ptrs w' ptrs' ∧ oset_inv (hist ++ [(ele, op)]) s' ∧
    ∀ k, oset_counters k (Ms, o) → oset_counters k s'.
Proof.
  intros C Hr Hargs Hmsg Hinv Hop. destruct (proj1 Hinv ele) as [He Hvis]. simpl in He, Hvis.
  set (e := default oseNew (Ms !! ele)) in *.
  destruct (os_apply_inv ele (ops_of ele hist) e op o He Hop Hvis) as (e' & b & Hap & Hinv' & Hvis' & Hne & Hsc & Hadd).
  { intros ->. destruct Hinv as [_ Hex]. simpl in Hex. by rewrite (proj1 Hex eq_refl). }
  destruct (rehHTGet_create _ w key ptrs Ms o ele (λ _, oseNew) C) as (w1 & l & ptrs1 & Hget & Hl & C1 & S1); [done|].
  fold e in C1. pose proof (steps_rargv _ _ _ _ _ _ r S1 Hr) as Hr1.
  assert (r_args r !! 1%nat = Some key ∧ r_args r !! 2%nat = Some ele) as [H1 H2] by (subst args; by destruct Hmsg).
  assert (load l w1 = Done e w1) as Hload by (eapply (load_spec _ w1 key); [done..|apply lookup_insert_eq]).
  destruct (store_spec _ w1 key ptrs1 _ o ele l e' C1 Hl) as (w2 & Hst & C2 & S2). rewrite insert_insert_eq in C2.
  destruct (os_show_run w2 key ptrs1 _ o ele op e' b C2 Hsc Hadd) as (w3 & Hshow & C3 & S3).
  exists w3, ptrs1, (<[ele := e']> Ms, os_show op ele e' b o).
  split; [|split_and!; [done|by eapply steps_trans, steps_trans|by apply (oset_inv_step hist (Ms, o))|]].
  2: { intros k Hk. apply (oset_counters_insert k (Ms, o)); [done|]. by eapply os_apply_current. }
  destruct Hmsg as [cmd key ele t Hint|cmd key ele ts]; simpl in Hap, Hop |- *.
  - unfold osadd_effect. mstep (rarg_spec w r 1 key Hr H1). mstep (rarg_spec w r 2 ele Hr H2).
    mstep (rarg_spec w r 3 (lcToSds t) Hr ltac:(by rewrite Hargs)).
    destruct (lc_ok_int32 t Hop) as [??]. rewrite lc_roundtrip by done. erewrite bind_Done by done.
    mstep Hget. erewrite bind_Done by done. mstep Hload.
    assert (wrap32 <$> string2ll ele = Some (os_value ele)) as ->.
    { unfold os_value. destruct Hint as [z ->]. done. }
    rewrite Hap. erewrite bind_Done by done. cbv beta iota. mstep Hst. exact Hshow.
  - unfold osrem_effect. mstep (rarg_spec w r 1 key Hr H1). mstep (rarg_spec w r 2 ele Hr H2).
    mstep Hget. erewrite bind_Done by done.
    assert (rargs_from 3 w1 = Done (lcToSds <$> ts) w1) as Hfrom.
    { unfold rargs_from. rewrite Hr1, Hargs. done. }
    mstep Hfrom. mstep (get_tags_spec ts w1 Hop). mstep Hload. injection Hap as Hap. cbv beta. rewrite Hap.
    cbv beta iota. mstep Hst. exact Hshow.
Qed.
End world.
