(* ===== verification/Ozset.v ===== *)
(** * The add-win priority queue (src/t_ozset.c)

    As the add-win set, with two pointers into the add set: [innate], the
    entry whose initial value counts, and [acquired], the entry whose sum of
    increments counts. *)

From S2P Require Import Prelude.
From S2P Require Import Sds.
From S2P Require Import LamportClock.
From S2P Require Import Double.
From S2P Require Import Skiplist.
From S2P Require Import Zset.
From S2P Require Import Server.
From S2P Require Import TagSet.

#[local] Open Scope Z_scope.

(** ** Element metadata *)

(** [x] is not set when the entry is created. *)
Record oz_ase := mkOzAse {
  oza_addr : nat; oza_t : lc; oza_x : option double; oza_inc : double; oza_count : double
}.

Record oze := mkOze {
  oz_current : Z;
  oz_innate : option nat;
  oz_acquired : option nat;
  oz_aset : list oz_ase;
  oz_rset : list lc
}.

Definition ozeNew : oze := mkOze 0 None None [] [].

Definition ORI_RPQ_TABLE_SUFFIX : sds := "_ozets_".

Definition oz_LOOKUP (e : oze) : bool := negb (Z.of_nat (length (oz_aset e)) =? 0).

Definition asetGet (e : oze) (t : lc) : option oz_ase := tag_find oza_t t (oz_aset e).

Definition rsetGet (e : oze) (t : lc) : option lc := tag_find id t (oz_rset e).

Definition oz_set_aset (l : list oz_ase) (e : oze) : oze :=
  mkOze (oz_current e) (oz_innate e) (oz_acquired e) l (oz_rset e).

Definition oz_set_innate (p : option nat) (e : oze) : oze :=
  mkOze (oz_current e) p (oz_acquired e) (oz_aset e) (oz_rset e).

Definition oz_set_acquired (p : option nat) (e : oze) : oze :=
  mkOze (oz_current e) (oz_innate e) p (oz_aset e) (oz_rset e).

Definition add_ase (e : oze) (t : lc) : oze * oz_ase :=
  let a := mkOzAse (fresh_addr oza_addr (oz_aset e)) (lc_dup t) None d0 d0 in
  (oz_set_aset (oz_aset e ++ [a]) e, a).

(** [asetGet], and [add_ase] when there is no such entry. *)
Definition oz_get_or_add (e : oze) (t : lc) : oze * oz_ase :=
  match asetGet e t with Some a => (e, a) | None => add_ase e t end.

Definition oz_deref (e : oze) (p : nat) : option oz_ase := deref oza_addr p (oz_aset e).

Definition update_innate_value (e : oze) (t : lc) (v : double) : option (oze * bool) :=
  match rsetGet e t with
  | Some _ => Some (e, false)
  | None =>
      let '(e, a) := oz_get_or_add e t in
      let a := mkOzAse (oza_addr a) (oza_t a) (Some v) (oza_inc a) (oza_count a) in
      let e := oz_set_aset (tag_alter oza_t (λ _, a) t (oz_aset e)) e in
      let set := Some (oz_set_innate (Some (oza_addr a)) e, true) in
      match oz_innate e with
      | None => set
      | Some p => i ← oz_deref e p;
                  if lc_cmp_as_tag (oza_t i) (oza_t a) <? 0 then set else Some (e, false)
      end
  end.

(** The test by which [acquired] moves to an entry. *)
Definition acquired_lt (x a : oz_ase) : bool :=
  dltb (oza_count x) (oza_count a)
  || (deqb (oza_count x) (oza_count a) && (lc_cmp_as_tag (oza_t x) (oza_t a) <? 0)).

Definition update_acquired_value (e : oze) (t : lc) (v : double) : option (oze * bool) :=
  match rsetGet e t with
  | Some _ => Some (e, false)
  | None =>
      let '(e, a) := oz_get_or_add e t in
      let a := mkOzAse (oza_addr a) (oza_t a) (oza_x a) (dadd (oza_inc a) v)
                 (dadd (oza_count a) (if dltb d0 v then v else dopp v)) in
      let e := oz_set_aset (tag_alter oza_t (λ _, a) t (oz_aset e)) e in
      let set := Some (oz_set_acquired (Some (oza_addr a)) e, true) in
      match oz_acquired e with
      | None => set
      | Some p =>
          if decide (p = oza_addr a) then Some (e, true)
          else x ← oz_deref e p;
               if acquired_lt x a then set else Some (e, false)
      end
  end.

Definition remove_tag (e : oze) (t : lc) : oze :=
  match rsetGet e t with
  | Some _ => e
  | None =>
      let rset := oz_rset e ++ [lc_dup t] in
      match asetGet e t with
      | Some a =>
          mkOze (oz_current e)
            (if decide (oz_innate e = Some (oza_addr a)) then None else oz_innate e)
            (if decide (oz_acquired e = Some (oza_addr a)) then None else oz_acquired e)
            (tag_remove oza_t t (oz_aset e)) rset
      | None => mkOze (oz_current e) (oz_innate e) (oz_acquired e) (oz_aset e) rset
      end
  end.

Fixpoint resort_loop (innate acquired : option oz_ase) (l : list oz_ase)
    : option oz_ase * option oz_ase :=
  match l with
  | [] => (innate, acquired)
  | a :: l' =>
      resort_loop
        (match innate with
         | None => Some a
         | Some x => if lc_cmp_as_tag (oza_t x) (oza_t a) <? 0 then Some a else innate
         end)
        (match acquired with
         | None => Some a
         | Some x => if acquired_lt x a then Some a else acquired
         end) l'
  end.

(** A pointer field, followed; [None] is a dangling pointer. *)
Definition oz_follow (e : oze) (p : option nat) : option (option oz_ase) :=
  match p with
  | None => Some None
  | Some p => a ← oz_deref e p; Some (Some a)
  end.

Definition resort (e : oze) : option oze :=
  match oz_innate e, oz_acquired e with
  | Some _, Some _ => Some e
  | pi, pa =>
      i ← oz_follow e pi;
      a ← oz_follow e pa;
      let '(i', a') := resort_loop i a (oz_aset e) in
      Some (oz_set_innate (oza_addr <$> i') (oz_set_acquired (oza_addr <$> a') e))
  end.

(** [SCORE(e)]. *)
Definition oz_score (e : oze) : fault + double :=
  match oz_follow e (oz_innate e), oz_follow e (oz_acquired e) with
  | Some i, Some a =>
      match i with
      | Some (mkOzAse _ _ None _ _) => inl Uninit
      | _ => inr (dadd (match i with Some a => default d0 (oza_x a) | None => d0 end)
                       (match a with Some a => oza_inc a | None => d0 end))
      end
  | _, _ => inl NullDeref
  end.

(** ** Effects on one element *)

Definition oz_add_effect (e : oze) (t : lc) (v : double) : option (oze * bool) :=
  update_innate_value e t v.

(** The loop of [ozincrby] over the tags, with the count of changes. *)
Fixpoint oz_incr_effect (e : oze) (ts : list lc) (v : double) (changed : bool) : option (oze * bool) :=
  match ts with
  | [] => Some (e, changed)
  | t :: ts' => '(e, b) ← update_acquired_value e t v;
                oz_incr_effect e ts' v (changed || b)
  end.

Definition oz_rem_effect (e : oze) (ts : list lc) : option (oze * bool) :=
  let e := foldl remove_tag e ts in
  match oz_innate e, oz_acquired e with
  | Some _, Some _ => Some (e, false)
  | _, _ => e ← resort e; Some (e, true)
  end.

(** ** Commands *)

Section commands.
Context {cell : Type} `{!Stored cell oze}.

Definition GET_OZE (name key : sds) (create : bool) : M cell (option loc) :=
  rehHTGet name (Some ORI_RPQ_TABLE_SUFFIX) key create (λ _, ozeNew).

Definition oz_publish (key ele : sds) (x : oze) : M cell () :=
  zset ← getZsetOrCreate key ele;
  match oz_score x with
  | inr score => zset_add zset score ele
  | inl f => cfault f
  end.

Definition ozadd_prepare : M cell () :=
  CHECK_ARGC 4;;
  CHECK_CONTAINER_TYPE OBJ_ZSET;;
  CHECK_ARG_TYPE_DOUBLE 3;;
  key ← arg 1; ele ← arg 2;
  e ← GET_OZE key ele true;
  e ← orfault NullDeref e;
  x ← load e;
  if oz_LOOKUP x then addReply REleExist;; creturn
  else
    w ← get;
    let t := _lc_new (oz_current x) (w_p2p_id w) in
    store e (mkOze (wrap32 (oz_current x + 1)) (oz_innate x) (oz_acquired x) (oz_aset x) (oz_rset x));;
    RARGV_ADD_SDS (lcToSds t).

Definition ozadd_effect : M cell () :=
  key ← rarg 1; ele ← rarg 2; s ← rarg 3; st ← rarg 4;
  v ← orfault Uninit (string2d s);
  t ← orfault Uninit (sdsToLc st);
  e ← GET_OZE key ele true;
  e ← orfault NullDeref e;
  x ← load e;
  '(x', b) ← orfault NullDeref (oz_add_effect x t v);
  store e x';;
  (if (b : bool) then oz_publish key ele x' else mret ());;
  dirty_inc.

Definition ozaddCommand : M cell () := crdt_command ozadd_prepare ozadd_effect.

(** The prepare phases of [ozincrby] and [ozrem] collect the tags seen. *)
Definition oz_prepare_tags (key ele : sds) : M cell () :=
  e ← GET_OZE key ele false;
  match e with
  | None => addReply REleNexist;; creturn
  | Some l =>
      x ← load l;
      if oz_LOOKUP x then RARGV_ADD_TAGS (oza_t <$> oz_aset x)
      else addReply REleNexist;; creturn
  end.

Definition ozincrby_prepare : M cell () :=
  CHECK_ARGC 4;;
  CHECK_CONTAINER_TYPE OBJ_ZSET;;
  CHECK_ARG_TYPE_DOUBLE 3;;
  key ← arg 1; ele ← arg 2;
  oz_prepare_tags key ele.

Definition ozincrby_effect : M cell () :=
  key ← rarg 1; ele ← rarg 2; s ← rarg 3;
  v ← orfault Uninit (string2d s);
  e ← GET_OZE key ele true;
  e ← orfault NullDeref e;
  args ← rargs_from 4;
  ts ← get_tags args;
  x ← load e;
  '(x', b) ← orfault NullDeref (oz_incr_effect x ts v false);
  store e x';;
  (if (b : bool) then oz_publish key ele x' else mret ());;
  dirty_inc.

Definition ozincrbyCommand : M cell () := crdt_command ozincrby_prepare ozincrby_effect.

Definition ozrem_prepare : M cell () :=
  CHECK_ARGC 3;;
  CHECK_CONTAINER_TYPE OBJ_ZSET;;
  key ← arg 1; ele ← arg 2;
  oz_prepare_tags key ele.

Definition ozrem_effect : M cell () :=
  key ← rarg 1; ele ← rarg 2;
  e ← GET_OZE key ele true;
  e ← orfault NullDeref e;
  args ← rargs_from 3;
  ts ← get_tags args;
  x ← load e;
  '(x', b) ← orfault NullDeref (oz_rem_effect x ts);
  store e x';;
  (if (b : bool) then
     zset ← getZsetOrCreate key ele;
     if oz_LOOKUP x' then oz_publish key ele x' else zset_del zset ele
   else mret ());;
  dirty_inc.

Definition ozremCommand : M cell () := crdt_command ozrem_prepare ozrem_effect.

Definition ozscoreCommand : M cell () := scoreCommand.
Definition ozmaxCommand : M cell () := maxCommand.

(** [oz_aseToSds]. *)
Definition oz_aseToSds (a : oz_ase) : M cell sds :=
  x ← orfault Uninit (oza_x a);
  mret ("(" +:+ fmt_d (lx (oza_t a)) +:+ "," +:+ fmt_d (lid (oza_t a)) +:+ ")," +:+ fmt_f x
        +:+ "," +:+ fmt_f (oza_inc a) +:+ "," +:+ fmt_f (oza_count a)).

Definition oz_reply_pointer (e : oze) (p : option nat) : M cell () :=
  a ← orfault NullDeref (oz_follow e p);
  match a with
  | None => addReply REmptyBulk
  | Some a => s ← oz_aseToSds a; addReply (RBulk s)
  end.

Definition ozestatusCommand : M cell () :=
  key ← arg 1; ele ← arg 2;
  e ← GET_OZE key ele false;
  match e with
  | None => addReply REmptyArray
  | Some l =>
      x ← load l;
      addReply (RArrayLen (6 + Z.of_nat (length (oz_aset x)) + Z.of_nat (length (oz_rset x))));;
      addReply (RBulk ("current:" +:+ fmt_d (oz_current x)));;
      addReply (RBulk "innate,acquired:");;
      oz_reply_pointer x (oz_innate x);;
      oz_reply_pointer x (oz_acquired x);;
      addReply (RBulk "Add Set:");;
      reply_each oz_aseToSds (oz_aset x);;
      addReply (RBulk "Remove Set:");;
      reply_each (λ t, mret (lcToSds t)) (oz_rset x)
  end.

End commands.
