(* ===== verification/OzsetRep.v ===== *)
(** * What the add-win priority queue computes

    The metadata of an element after a history of adds, increments and
    removes: the add set holds the tags added and not removed, with the value
    and the increments of each; [innate] points to the greatest tag, and
    [acquired] to the tag whose increments weigh most. *)

From S2P Require Import Prelude.
From S2P Require Import Sds.
From S2P Require Import VectorClock.
From S2P Require Import LamportClock.
From S2P Require Import Double.
From S2P Require Import DoubleAdd.
From S2P Require Import Skiplist.
From S2P Require Import Zset.
From S2P Require Import ZsetRep.
From S2P Require Import Server.
From S2P Require Import Container.
From S2P Require Import TagSet.
From S2P Require Import Ozset.

#[local] Open Scope Z_scope.

#[global] Instance ozset_suffix : Suffix ORI_RPQ_TABLE_SUFFIX.
Proof. done. Qed.

(** ** Entries *)

(** The order by which [acquired] is chosen. *)
Definition acq_lt (c : double) (t : lc) (c' : double) (t' : lc) : Prop :=
  key_lt (dkey c) (dkey c') ∨ (dkey c = dkey c' ∧ tag_lt t t').

Abbreviation ase_lt a b := (acq_lt (oza_count a) (oza_t a) (oza_count b) (oza_t b)).

Lemma acq_lt_trans c1 t1 c2 t2 c3 t3 : acq_lt c1 t1 c2 t2 → acq_lt c2 t2 c3 t3 → acq_lt c1 t1 c3 t3.
Proof.
  unfold acq_lt. intros [H1|[E1 H1]] [H2|[E2 H2]].
  - left. by eapply key_lt_trans.
  - left. by rewrite <- E2.
  - left. by rewrite E1.
  - right. split; [congruence|by eapply tag_lt_trans].
Qed.

Lemma acq_lt_irrefl c t : ¬ acq_lt c t c t.
Proof. intros [H|[_ H]]; [by apply key_lt_irrefl in H|by apply tag_lt_irrefl in H]. Qed.

Lemma acq_lt_total c1 t1 c2 t2 : acq_lt c1 t1 c2 t2 ∨ (dkey c1 = dkey c2 ∧ t1 = t2) ∨ acq_lt c2 t2 c1 t1.
Proof.
  unfold acq_lt. destruct (key_total (dkey c1) (dkey c2)) as [?|[He|?]]; [by auto| |by auto].
  destruct (tag_total t1 t2) as [?|[?|?]]; auto.
Qed.

(** A greater weight is still not below. *)
Lemma acq_lt_grow c c1 t c' t' : ¬ key_lt (dkey c1) (dkey c) → acq_lt c1 t c' t' → acq_lt c t c' t'.
Proof.
  intros Hg H. unfold acq_lt in *. destruct (key_total (dkey c) (dkey c1)) as [Hlt|[He|?]]; [|by rewrite He|done].
  left. destruct H as [H|[<- _]]; [by eapply key_lt_trans|done].
Qed.

Definition weightless (a : oz_ase) : Prop := dkey (oza_count a) = (0, 0, 0).

Lemma acquired_lt_spec x a :
  nonneg (oza_count x) → nonneg (oza_count a) → lc_ok (oza_t x) → lc_ok (oza_t a) → acquired_lt x a = true ↔ ase_lt x a.
Proof.
  intros Hx%nonneg_isnan Ha%nonneg_isnan Hx' Ha'. unfold acquired_lt, acq_lt.
  by rewrite orb_true_iff, andb_true_iff, dltb_key, deqb_key, Z.ltb_lt, lc_tag_lt by done.
Qed.

Section element.
Implicit Types (e : oze) (L R : lc → Prop) (X : lc → double → Prop) (I : lc → list double).

(** The metadata of an element whose tags [L] are live and [R] removed, with
    the values [X] and the increments [I]; pointers may be missing. *)
Record oz_shape L R X I e : Prop := {
  zs_tags_ok : tags_ok oza_t (oz_aset e);
  zs_rtags_ok : tags_ok id (oz_rset e);
  zs_tags : NoDup (oza_t <$> oz_aset e);
  zs_addrs : NoDup (oza_addr <$> oz_aset e);
  zs_aset t : t ∈ oza_t <$> oz_aset e ↔ L t;
  zs_rset t : t ∈ oz_rset e ↔ R t;
  zs_entry a : a ∈ oz_aset e →
    (∃ v, X (oza_t a) v ∧ oza_x a = Some v) ∧ oza_inc a = dsum (I (oza_t a)) ∧ oza_count a = weight (I (oza_t a));
  zs_valid t : Forall valid_double (I t);
  zs_innate p : oz_innate e = Some p →
    ∃ a, a ∈ oz_aset e ∧ oza_addr a = p ∧ ∀ b, b ∈ oz_aset e → ¬ tag_lt (oza_t a) (oza_t b);
  zs_acquired p : oz_acquired e = Some p →
    ∃ a, a ∈ oz_aset e ∧ oza_addr a = p ∧ ∀ b, b ∈ oz_aset e → ase_lt a b → weightless b
}.

(** Between commands a missing pointer says something. *)
Record oz_full L R X I e : Prop := {
  zf_shape : oz_shape L R X I e;
  zf_no_innate : oz_innate e = None → oz_aset e = [];
  zf_no_acquired b : oz_acquired e = None → b ∈ oz_aset e → weightless b
}.

Lemma oz_shape_ext L R X I L' R' X' I' e :
  (∀ t, L t ↔ L' t) → (∀ t, R t ↔ R' t) → (∀ t v, L t → X t v → X' t v) → (∀ t, L t → I t = I' t) →
  (∀ t, Forall valid_double (I' t)) → oz_shape L R X I e → oz_shape L' R' X' I' e.
Proof.
  intros HL HR HX HI Hv []. split; try done.
  - intros t. by rewrite <- HL.
  - intros t. by rewrite <- HR.
  - intros a Ha. assert (L (oza_t a)) as Hla by (apply zs_aset0; by apply list_elem_of_fmap_2).
    destruct (zs_entry0 a Ha) as ((v & Hxv & Hx) & Hi & Hc). rewrite <- HI by done. split_and!; [|done..]. exists v. eauto.
Qed.

Lemma oz_full_ext L R X I L' R' X' I' e :
  (∀ t, L t ↔ L' t) → (∀ t, R t ↔ R' t) → (∀ t v, L t → X t v → X' t v) → (∀ t, L t → I t = I' t) →
  (∀ t, Forall valid_double (I' t)) → oz_full L R X I e → oz_full L' R' X' I' e.
Proof. intros HL HR HX HI Hv [S H1 H2]. split; [by eapply oz_shape_ext|done..]. Qed.

Section shape.
Context L R X I e (S : oz_shape L R X I e).

Lemma zs_live a : a ∈ oz_aset e → L (oza_t a).
Proof. intros Ha. apply (zs_aset _ _ _ _ _ S). by apply list_elem_of_fmap_2. Qed.

Lemma zs_empty : oz_aset e = [] ↔ ∀ t, ¬ L t.
Proof.
  split.
  - intros Heq t Hl. apply (zs_aset _ _ _ _ _ S) in Hl. rewrite Heq in Hl. by apply elem_of_nil in Hl.
  - intros Hn. destruct (oz_aset e) as [|a l] eqn:Heq; [done|]. destruct (Hn (oza_t a)). apply zs_live. rewrite Heq. by left.
Qed.

Lemma zs_nonneg a : a ∈ oz_aset e → nonneg (oza_count a).
Proof. intros Ha. destruct (zs_entry _ _ _ _ _ S a Ha) as (_ & _ & ->). apply weight_nonneg, S. Qed.

Lemma zs_lc_ok a : a ∈ oz_aset e → lc_ok (oza_t a).
Proof. apply (proj1 (Forall_forall _ _) (zs_tags_ok _ _ _ _ _ S)). Qed.

Lemma zs_deref a : a ∈ oz_aset e → oz_deref e (oza_addr a) = Some a.
Proof. intros Ha. unfold oz_deref. apply (deref_unique oza_addr); [apply S|done]. Qed.

Lemma zs_same a b : a ∈ oz_aset e → b ∈ oz_aset e → oza_t a = oza_t b → a = b.
Proof. intros Ha Hb. apply (NoDup_fmap_inj oza_t (oz_aset e)); [apply S|done..]. Qed.

Lemma zs_same_addr a b : a ∈ oz_aset e → b ∈ oz_aset e → oza_addr a = oza_addr b → a = b.
Proof. intros Ha Hb. apply (NoDup_fmap_inj oza_addr (oz_aset e)); [apply S|done..]. Qed.

Lemma rsetGet_spec t : lc_ok t → rsetGet e t = None ↔ ¬ R t.
Proof.
  intros Ht. unfold rsetGet. rewrite (tag_find_None id) by (done || apply S). rewrite list_fmap_id. by rewrite (zs_rset _ _ _ _ _ S).
Qed.

Lemma asetGet_spec t :
  lc_ok t → match asetGet e t with Some a => a ∈ oz_aset e ∧ oza_t a = t | None => ¬ L t end.
Proof.
  intros Ht. unfold asetGet. destruct (tag_find oza_t t (oz_aset e)) as [a|] eqn:Hf.
  - apply (tag_find_Some oza_t) in Hf; [done|done|apply S].
  - apply (tag_find_None oza_t) in Hf; [|done|apply S]. by rewrite (zs_aset _ _ _ _ _ S) in Hf.
Qed.
End shape.

(** *** The score *)

(** The entries the pointers lead to. *)
Definition oz_points e (i : oz_ase) (oa : option oz_ase) : Prop :=
  oz_innate e = Some (oza_addr i) ∧ i ∈ oz_aset e ∧ oz_acquired e = oza_addr <$> oa ∧ ∀ a, oa = Some a → a ∈ oz_aset e.

Definition points_score (i : oz_ase) (oa : option oz_ase) : double :=
  dadd (default d0 (oza_x i)) (match oa with Some a => oza_inc a | None => d0 end).

Lemma oz_score_points L R X I e i oa : oz_shape L R X I e → oz_points e i oa → oz_score e = inr (points_score i oa).
Proof.
  intros S (Hi & Hin & Ha & Han). unfold oz_score, oz_follow. rewrite Hi, Ha, (zs_deref _ _ _ _ _ S i Hin). simpl.
  destruct (zs_entry _ _ _ _ _ S i Hin) as ((v & _ & Hx) & _). destruct i as [ai ti xi ii ci]. simpl in Hx. subst xi.
  destruct oa as [a|]; simpl; [|done]. by rewrite (zs_deref _ _ _ _ _ S a (Han a eq_refl)).
Qed.

Lemma oz_points_ex L R X I e p : oz_shape L R X I e → oz_innate e = Some p → ∃ i oa, oz_points e i oa.
Proof.
  intros S Hp. destruct (zs_innate _ _ _ _ _ S p Hp) as (i & Hi & Hip & _). exists i.
  destruct (oz_acquired e) as [q|] eqn:Hq; [|by exists None; subst p].
  destruct (zs_acquired _ _ _ _ _ S q Hq) as (a & Ha & Haq & _). exists (Some a). split_and!; [by subst p|done|by subst q|by intros ? [= <-]].
Qed.

(** What the flag of an effect says: without it the score is as before. *)
Definition oz_step_ok e e' (b : bool) : Prop :=
  b = false → (oz_aset e' = [] ↔ oz_aset e = []) ∧
    ∀ i oa, oz_points e' i oa → ∃ i0 oa0, oz_points e i0 oa0 ∧ points_score i oa = points_score i0 oa0.

Lemma oz_step_same e : oz_step_ok e e false.
Proof. intros _. split; [done|]. intros i oa. by exists i, oa. Qed.

Lemma oz_step_trans e1 e2 e3 b1 b2 : oz_step_ok e1 e2 b1 → oz_step_ok e2 e3 b2 → oz_step_ok e1 e3 (b1 || b2).
Proof.
  intros H1 H2 [Hb1 Hb2]%orb_false_iff. destruct (H1 Hb1) as [E1 P1], (H2 Hb2) as [E2 P2]. split; [by rewrite E2|].
  intros i oa (i0 & oa0 & Hp & ->)%P2. by apply P1.
Qed.

(** ** Adds *)

Lemma tag_alter_id t a e L R X I : oz_shape L R X I e → a ∈ oz_aset e → oza_t a = t → tag_alter oza_t (λ _, a) t (oz_aset e) = oz_aset e.
Proof.
  intros S Ha <-. rewrite tag_alter_map by (apply S || by eapply zs_lc_ok). rewrite <- (list_fmap_id (oz_aset e)) at 2.
  apply list_fmap_ext. intros i b Hb. case_decide as Ht; [|done]. apply list_elem_of_lookup_2 in Hb. by eapply zs_same.
Qed.

(** A new entry. *)
Lemma oz_shape_add L R X I e t v p :
  oz_shape L R X I e → lc_ok t → ¬ L t → ¬ R t → X t v → I t = [] →
  let a := mkOzAse (fresh_addr oza_addr (oz_aset e)) t (Some v) d0 d0 in
  (∀ q, p = Some q → (q = oza_addr a ∧ ∀ b, b ∈ oz_aset e → ¬ tag_lt t (oza_t b)) ∨
    (oz_innate e = Some q ∧ ∀ b, b ∈ oz_aset e → oza_addr b = q → ¬ tag_lt (oza_t b) t)) →
  oz_shape (λ t', L t' ∨ t' = t) R X I (mkOze (oz_current e) p (oz_acquired e) (oz_aset e ++ [a]) (oz_rset e)).
Proof.
  intros S Ht HL HR HX HI a Hp. split; simpl.
  - apply Forall_app_2; [apply S|by apply Forall_singleton].
  - apply S.
  - rewrite fmap_app. apply NoDup_app. split_and!; [apply S| |apply NoDup_singleton].
    intros x Hx Hx'. apply list_elem_of_singleton in Hx' as ->. apply (zs_aset _ _ _ _ _ S) in Hx. done.
  - rewrite fmap_app. apply NoDup_app. split_and!; [apply S| |apply NoDup_singleton].
    intros x (b & -> & Hb)%list_elem_of_fmap Hx'. apply list_elem_of_singleton in Hx'. simpl in Hx'.
    pose proof (fresh_addr_gt oza_addr _ _ Hb). lia.
  - intros x. rewrite fmap_app. change (oza_t <$> [a]) with [t]. by rewrite elem_of_snoc, (zs_aset _ _ _ _ _ S).
  - apply S.
  - intros b [Hb| ->]%elem_of_snoc; [by apply S|]. simpl. rewrite HI. split_and!; [by exists v|done..].
  - apply S.
  - intros q Hq. destruct (Hp q Hq) as [[-> Hmax]|[Hin Hlt]].
    + exists a. split_and!; [apply elem_of_app; right; by left|done|]. intros b [Hb| ->]%elem_of_snoc; [by apply Hmax|apply tag_lt_irrefl].
    + destruct (zs_innate _ _ _ _ _ S q Hin) as (b & Hb & Hbq & Hmax). exists b. split_and!; [apply elem_of_app; by left|done|].
      intros b' [Hb'| ->]%elem_of_snoc; [by apply Hmax|by apply Hlt].
  - intros q Hq. destruct (zs_acquired _ _ _ _ _ S q Hq) as (b & Hb & Hbq & Hmax). exists b. split_and!; [apply elem_of_app; by left|done|].
    intros b' [Hb'| ->]%elem_of_snoc; [by apply Hmax|done].
Qed.

(** Pointers into a longer add set. *)
Lemma oz_points_sub L R X I L' R' X' I' e e' i oa :
  oz_shape L R X I e → oz_shape L' R' X' I' e' → (∀ a, a ∈ oz_aset e → a ∈ oz_aset e') →
  oz_innate e' = oz_innate e → oz_acquired e' = oz_acquired e → oz_points e' i oa → oz_points e i oa.
Proof.
  intros S S' Hsub Hi Ha (H1 & H2 & H3 & H4). rewrite Hi in H1. rewrite Ha in H3.
  destruct (zs_innate _ _ _ _ _ S _ H1) as (i' & Hi' & Hii & _). assert (i' = i) as -> by (eapply zs_same_addr; eauto).
  split_and!; [done..|]. intros a ->. destruct (zs_acquired _ _ _ _ _ S _ H3) as (a' & Ha' & Haa & _).
  assert (a' = a) as -> by (eapply zs_same_addr; eauto). done.
Qed.

Lemma oz_add_new L R X I e t v :
  oz_full L R X I e → lc_ok t → X t v → ¬ L t → ¬ R t → I t = [] →
  let a := mkOzAse (fresh_addr oza_addr (oz_aset e)) t (Some v) d0 d0 in
  let e1 := mkOze (oz_current e) (oz_innate e) (oz_acquired e) (oz_aset e ++ [a]) (oz_rset e) in
  ∃ e' b,
    match oz_innate e1 with
    | None => Some (oz_set_innate (Some (oza_addr a)) e1, true)
    | Some p => i ← oz_deref e1 p;
                if lc_cmp_as_tag (oza_t i) (oza_t a) <? 0 then Some (oz_set_innate (Some (oza_addr a)) e1, true) else Some (e1, false)
    end = Some (e', b) ∧ oz_full (λ t', L t' ∨ t' = t) R X I e' ∧ oz_step_ok e e' b ∧ oz_aset e' ≠ [].
Proof.
  intros F Ht HX HL HR HI a e1. pose proof (zf_shape _ _ _ _ _ F) as S.
  pose proof (λ p, oz_shape_add L R X I e t v p S Ht HL HR HX HI) as Hadd. cbv zeta in Hadd. fold a in Hadd.
  assert (∀ p, is_Some p → oz_shape (λ t', L t' ∨ t' = t) R X I (oz_set_innate p e1) → oz_full (λ t', L t' ∨ t' = t) R X I (oz_set_innate p e1)) as Hfull.
  { intros p [q ->] S'. split; [done|done|]. intros b Hq [Hb| ->]%elem_of_snoc; [by apply (zf_no_acquired _ _ _ _ _ F)|done]. }
  assert (oz_aset e ++ [a] ≠ []) as Hne by (by destruct (oz_aset e)).
  assert (∀ q, (∀ b, b ∈ oz_aset e → ¬ tag_lt t (oza_t b)) → q = oza_addr a → oz_full (λ t', L t' ∨ t' = t) R X I (oz_set_innate (Some q) e1)) as Hset.
  { intros q Hmax ->. apply Hfull; [by eexists|]. apply (Hadd (Some (oza_addr a))). intros q [= <-]. by left. }
  unfold e1 at 1. cbn [oz_innate]. destruct (oz_innate e) as [p|] eqn:Hp.
  - destruct (zs_innate _ _ _ _ _ S p Hp) as (i & Hi & <- & Hmax).
    assert (oz_deref e1 (oza_addr i) = Some i) as ->.
    { apply (zs_deref _ _ _ _ _ (Hadd None ltac:(done))). simpl. apply elem_of_snoc. by left. }
    simpl. destruct (Z.ltb_spec (lc_cmp_as_tag (oza_t i) t) 0) as [Hlt|Hge].
    + apply lc_tag_lt in Hlt; [|by eapply zs_lc_ok|done]. eexists _, true. split_and!; [done| | |done].
      * apply Hset; [|done]. intros b Hb Hb'. apply (Hmax b Hb). by eapply tag_lt_trans.
      * done.
    + assert (oz_shape (λ t', L t' ∨ t' = t) R X I e1) as S1.
      { unfold e1. rewrite ?Hp. apply Hadd. intros q [= <-]. right. split; [done|]. intros b Hb Hbi. assert (b = i) as -> by (by eapply zs_same_addr).
        rewrite <- lc_tag_lt by (done || by eapply zs_lc_ok). lia. }
      eexists _, false. split_and!; [done| | |done].
      * assert (oz_set_innate (Some (oza_addr i)) e1 = e1) as <- by (unfold e1, oz_set_innate; simpl; by rewrite ?Hp). apply Hfull; [by eexists|].
        unfold oz_set_innate, e1 in *. simpl in *. by rewrite ?Hp in S1.
      * intros _. split.
        -- split; [by intros ?%Hne|]. intros Heq. rewrite Heq in Hi. by apply elem_of_nil in Hi.
        -- intros i' oa Hp'. exists i', oa. split; [|done].
           apply (oz_points_sub _ _ _ _ _ _ _ _ _ _ _ _ S S1); [|done..]. intros b Hb. simpl. apply elem_of_snoc. by left.
  - eexists _, true. split_and!; [done| | |done].
    + apply Hset; [|done]. rewrite (zf_no_innate _ _ _ _ _ F Hp). by intros b ?%elem_of_nil.
    + done.
Qed.

Lemma oz_add_step L R X I e t v :
  oz_full L R X I e → lc_ok t → X t v → (∀ v', X t v' → v' = v) → (¬ L t → ¬ R t → I t = []) → (∀ t, L t → ¬ R t) →
  ∃ e' b, update_innate_value e t v = Some (e', b) ∧ oz_full (λ t', L t' ∨ (t' = t ∧ ¬ R t)) R X I e' ∧ oz_step_ok e e' b ∧
    (b = true → oz_aset e' ≠ []).
Proof.
  intros F Ht HX Huniq HI Hdisj. pose proof (zf_shape _ _ _ _ _ F) as S. unfold update_innate_value.
  pose proof (rsetGet_spec _ _ _ _ _ S t Ht) as Hr. destruct (rsetGet e t) as [t'|].
  { assert (R t) as HR by (destruct (decide (t ∈ oz_rset e)) as [Hin|Hn]; [by apply (zs_rset _ _ _ _ _ S)|rewrite (zs_rset _ _ _ _ _ S) in Hn; by apply Hr in Hn]).
    exists e, false. split_and!; [done| |apply oz_step_same|done].
    eapply oz_full_ext; [..|exact F]; try done; [naive_solver|apply S]. }
  assert (¬ R t) as HnR by (by apply Hr). unfold oz_get_or_add.
  pose proof (asetGet_spec _ _ _ _ _ S t Ht) as Ha. destruct (asetGet e t) as [a|].
  - destruct Ha as [Ha Hat]. destruct (zs_entry _ _ _ _ _ S a Ha) as ((v' & Hv' & Hx) & _).
    rewrite Hat in Hv'. rewrite (Huniq v' Hv') in Hx.
    assert (mkOzAse (oza_addr a) (oza_t a) (Some v) (oza_inc a) (oza_count a) = a) as -> by (destruct a; simpl in *; by subst).
    rewrite (tag_alter_id t a e L R X I S Ha Hat). assert (oz_set_aset (oz_aset e) e = e) as -> by (by destruct e).
    destruct (oz_innate e) as [p|] eqn:Hp; [|rewrite (zf_no_innate _ _ _ _ _ F Hp) in Ha; by apply elem_of_nil in Ha].
    destruct (zs_innate _ _ _ _ _ S p Hp) as (i & Hi & <- & Hmax). rewrite (zs_deref _ _ _ _ _ S i Hi). simpl.
    destruct (Z.ltb_spec (lc_cmp_as_tag (oza_t i) (oza_t a)) 0) as [Hlt|_].
    { exfalso. apply (Hmax a Ha). by apply lc_tag_lt; [eapply zs_lc_ok..|]. }
    exists e, false. split_and!; [done| |apply oz_step_same|done].
    eapply oz_full_ext; [..|exact F]; try done; [|apply S]. intros t'. split; [by left|]. intros [?|[-> _]]; [done|]. rewrite <- Hat. by eapply zs_live.
  - unfold add_ase. assert (lc_dup t = t) as -> by (by destruct t). cbv beta iota zeta. cbn [oz_aset oz_set_aset oza_addr oza_t oza_inc oza_count].
    rewrite (tag_alter_snoc oza_t) by (done || apply S || (by rewrite (zs_aset _ _ _ _ _ S))).
    destruct (oz_add_new L R X I e t v F Ht HX Ha HnR (HI Ha HnR)) as (e' & b & Hrun & F' & Hok & Hne).
    exists e', b. split_and!; [exact Hrun| |done|done]. eapply oz_full_ext; [..|exact F']; try done; [naive_solver|apply S].
Qed.

(** ** Increments *)

Definition add_inc I (t : lc) (v : double) (t' : lc) : list double := if decide (t' = t) then I t' ++ [v] else I t'.

Section inc.
Context L R X I e t v a (F : oz_full L R X I e) (Hv : valid_double v) (Ha : a ∈ oz_aset e) (Hat : oza_t a = t).

Abbreviation a' := (mkOzAse (oza_addr a) (oza_t a) (oza_x a) (dadd (oza_inc a) v) (dadd (oza_count a) (dabs v))).
Abbreviation aset' := (tag_alter oza_t (λ _, a') t (oz_aset e)).

Lemma inc_aset : aset' = (λ b, if decide (oza_t b = t) then a' else b) <$> oz_aset e.
Proof. pose proof (zf_shape _ _ _ _ _ F) as S. apply tag_alter_map; [subst t; by eapply zs_lc_ok|apply S..]. Qed.

Lemma inc_same b : b ∈ oz_aset e → oza_t b = t → b = a.
Proof. intros Hb Hbt. eapply zs_same; [apply F|done..|congruence]. Qed.

Lemma elem_of_inc b : b ∈ aset' ↔ b = a' ∨ (b ∈ oz_aset e ∧ oza_t b ≠ t).
Proof.
  rewrite inc_aset, list_elem_of_fmap. split.
  - intros (b0 & -> & Hb0). case_decide; [by left|by right].
  - intros [->|[Hb Hne]]; [exists a; by rewrite decide_True|exists b; by rewrite decide_False].
Qed.

Lemma inc_weight : weight (add_inc I t v t) = dadd (oza_count a) (dabs v) ∧ dsum (add_inc I t v t) = dadd (oza_inc a) v.
Proof.
  unfold add_inc. rewrite decide_True by done. destruct (zs_entry _ _ _ _ _ (zf_shape _ _ _ _ _ F) a Ha) as (_ & -> & ->).
  by rewrite Hat, weight_snoc, dsum_snoc.
Qed.

Lemma inc_shape acq :
  (∀ p, acq = Some p → ∃ b, b ∈ aset' ∧ oza_addr b = p ∧ ∀ c, c ∈ aset' → ase_lt b c → weightless c) →
  oz_shape L R X (add_inc I t v) (mkOze (oz_current e) (oz_innate e) acq aset' (oz_rset e)).
Proof.
  intros Hacq. pose proof (zf_shape _ _ _ _ _ F) as S.
  assert (oza_t <$> aset' = oza_t <$> oz_aset e ∧ oza_addr <$> aset' = oza_addr <$> oz_aset e) as [Et Ea].
  { rewrite inc_aset, <- !list_fmap_compose. split; apply list_fmap_ext; intros k b Hb%list_elem_of_lookup_2; simpl; (case_decide as Hd; [|done]); by rewrite (inc_same b Hb Hd). }
  split; simpl.
  - apply Forall_forall. intros b [->|[Hb _]]%elem_of_inc; [exact (zs_lc_ok _ _ _ _ _ S a Ha)|by eapply zs_lc_ok].
  - apply S.
  - rewrite Et. apply S.
  - rewrite Ea. apply S.
  - rewrite Et. apply S.
  - apply S.
  - intros b [->|[Hb Hne]]%elem_of_inc.
    + destruct (zs_entry _ _ _ _ _ S a Ha) as (Hx & _ & _). simpl. split; [done|]. rewrite Hat. by destruct inc_weight as [-> ->].
    + unfold add_inc. rewrite decide_False by done. by apply S.
  - intros t'. unfold add_inc. case_decide; [|apply S]. apply Forall_app. split; [apply S|by apply Forall_singleton].
  - intros p Hp. destruct (zs_innate _ _ _ _ _ S p Hp) as (i & Hi & Hip & Hmax). assert (∀ b, b ∈ aset' → ¬ tag_lt (oza_t i) (oza_t b)) as Hmax'.
    { intros b [->|[Hb _]]%elem_of_inc; [exact (Hmax a Ha)|by apply Hmax]. }
    destruct (decide (oza_t i = t)) as [Hit|Hit].
    + exists a'. rewrite (inc_same i Hi Hit) in Hip, Hmax'. split_and!; [apply elem_of_inc; by left|done|done].
    + exists i. split_and!; [apply elem_of_inc; by right|done|done].
  - done.
Qed.

(** The score when [acquired] stays at another entry. *)
Lemma inc_keep x :
  x ∈ oz_aset e → oza_t x ≠ t → oz_acquired e = Some (oza_addr x) →
  let e1 := mkOze (oz_current e) (oz_innate e) (Some (oza_addr x)) aset' (oz_rset e) in
  oz_shape L R X (add_inc I t v) e1 → oz_step_ok e e1 false.
Proof.
  intros Hx Hxt Hq e1 S1 _. assert (x ∈ aset') as Hx' by (apply elem_of_inc; by right). split.
  - split; intros Heq; [simpl in Heq; rewrite Heq in Hx'; by apply elem_of_nil in Hx'|rewrite Heq in Hx; by apply elem_of_nil in Hx].
  - intros i oa (Hi & Hin & Hoa & Hoin). simpl in Hi, Hin, Hoa. destruct oa as [x0|]; [|done]. injection Hoa as Hoa.
    assert (x = x0) as <- by (eapply (zs_same_addr _ _ _ _ _ S1); [done|by apply Hoin|done]).
    assert (∀ i0, i0 ∈ oz_aset e → oza_addr i0 = oza_addr i → oz_points e i0 (Some x)) as Hpt.
    { intros i0 Hi0 Hai. split_and!; [by rewrite Hai|done|done|by intros ? [= <-]]. }
    apply elem_of_inc in Hin as [->|[Hin _]]; [exists a|exists i]; exists (Some x); (split; [by apply Hpt|done]).
Qed.

Lemma inc_set :
  (∀ c, c ∈ oz_aset e → oza_t c ≠ t → ase_lt a' c → weightless c) →
  oz_shape L R X (add_inc I t v) (mkOze (oz_current e) (oz_innate e) (Some (oza_addr a)) aset' (oz_rset e)).
Proof.
  intros Hc. apply inc_shape. intros p [= <-]. exists a'. split_and!; [apply elem_of_inc; by left|done|].
  intros c [->|[Hin Hne]]%elem_of_inc Hlt; [by apply acq_lt_irrefl in Hlt|by apply Hc].
Qed.

Lemma inc_value :
  ¬ R t → lc_ok t → asetGet e t = Some a →
  ∃ e' b, update_acquired_value e t v = Some (e', b) ∧ oz_full L R X (add_inc I t v) e' ∧ oz_step_ok e e' b ∧ oz_aset e' ≠ [].
Proof.
  intros HR Ht Hget. pose proof (zf_shape _ _ _ _ _ F) as S. unfold update_acquired_value.
  pose proof (rsetGet_spec _ _ _ _ _ S t Ht) as Hr. rewrite (proj2 Hr HR). unfold oz_get_or_add. rewrite Hget. cbv beta iota zeta. fold (dabs v).
  set (e1 := oz_set_aset aset' e). cbn [oza_addr].
  assert (aset' ≠ []) as Hne by (intros Heq; assert (a' ∈ aset') as Hin by (apply elem_of_inc; by left); rewrite Heq in Hin; by apply elem_of_nil in Hin).
  assert (∀ acq, is_Some acq → oz_shape L R X (add_inc I t v) (mkOze (oz_current e) (oz_innate e) acq aset' (oz_rset e)) →
    oz_full L R X (add_inc I t v) (mkOze (oz_current e) (oz_innate e) acq aset' (oz_rset e))) as Hfull.
  { intros acq [q ->] S'. split; [done| |done]. simpl. intros Hi. rewrite (zf_no_innate _ _ _ _ _ F Hi) in Ha. by apply elem_of_nil in Ha. }
  assert (oz_acquired e1 = oz_acquired e) as -> by done. destruct (oz_acquired e) as [p|] eqn:Hp.
  - destruct (zs_acquired _ _ _ _ _ S p Hp) as (x & Hx & <- & Hmax). case_decide as Hd.
    + assert (x = a) as -> by (by eapply zs_same_addr).
      assert (e1 = mkOze (oz_current e) (oz_innate e) (Some (oza_addr a)) aset' (oz_rset e)) as -> by (unfold e1, oz_set_aset; by rewrite Hp).
      eexists _, true. split_and!; [done| |done|done]. apply Hfull; [by eexists|]. apply inc_set. intros c Hc _ Hlt. apply (Hmax c Hc).
      eapply acq_lt_grow; [|exact Hlt]. cbn [oza_count oza_t]. apply nonneg_dadd; [by eapply zs_nonneg|by apply nonneg_dabs].
    + assert (oza_t x ≠ t) as Hxt by (intros Heq; apply Hd; by rewrite (inc_same x Hx Heq)).
      assert (x ∈ aset') as Hx' by (apply elem_of_inc; by right).
      assert (oz_deref e1 (oza_addr x) = Some x) as ->.
      { apply (zs_deref _ _ _ _ _ (inc_shape None ltac:(done))). done. }
      simpl. assert (acquired_lt x a' = true ↔ ase_lt x a') as Hlt.
      { apply acquired_lt_spec; cbn [oza_count oza_t]; [by eapply zs_nonneg|..|by eapply zs_lc_ok|by subst t].
        apply nonneg_dadd; [by eapply zs_nonneg|by apply nonneg_dabs]. }
      destruct (acquired_lt x a').
      * eexists _, true. split_and!; [done| |done|done]. apply Hfull; [by eexists|]. apply inc_set.
        intros c Hc _ Hac. apply (Hmax c Hc). eapply acq_lt_trans; [by apply Hlt|exact Hac].
      * assert (e1 = mkOze (oz_current e) (oz_innate e) (Some (oza_addr x)) aset' (oz_rset e)) as -> by (unfold e1, oz_set_aset; by rewrite Hp).
        assert (oz_shape L R X (add_inc I t v) (mkOze (oz_current e) (oz_innate e) (Some (oza_addr x)) aset' (oz_rset e))) as S1.
        { apply inc_shape. intros q [= <-]. exists x. split_and!; [done..|]. intros c [->|[Hc _]]%elem_of_inc Hxc; [by apply Hlt in Hxc|by apply Hmax]. }
        eexists _, false. split_and!; [done|by apply Hfull; [by eexists|]|by apply inc_keep|done].
  - eexists _, true. split_and!; [done| |done|done]. apply Hfull; [by eexists|]. apply inc_set. intros c Hc _ _. by apply (zf_no_acquired _ _ _ _ _ F).
Qed.
End inc.

(** The loop over the tags of an increment. *)
Definition add_incs I (ts : list lc) (v : double) (t' : lc) : list double := if decide (t' ∈ ts) then I t' ++ [v] else I t'.

Lemma oz_inc_step L R X I e t v :
  oz_full L R X I e → lc_ok t → valid_double v → L t ∨ R t → (∀ t, L t → ¬ R t) →
  ∃ e' b, update_acquired_value e t v = Some (e', b) ∧ oz_full L R X (add_inc I t v) e' ∧ oz_step_ok e e' b ∧ (b = true → oz_aset e' ≠ []).
Proof.
  intros F Ht Hv HLR Hdisj. pose proof (zf_shape _ _ _ _ _ F) as S. pose proof (rsetGet_spec _ _ _ _ _ S t Ht) as Hr.
  pose proof (asetGet_spec _ _ _ _ _ S t Ht) as Hg. destruct HLR as [HL|HR].
  - destruct (asetGet e t) as [a|] eqn:Hget; [|done]. destruct Hg as [Ha Hat].
    destruct (inc_value L R X I e t v a F Hv Ha Hat (Hdisj t HL) Ht Hget) as (e' & b & H1 & H2 & H3 & H4). by exists e', b.
  - exists e, false. unfold update_acquired_value. destruct (rsetGet e t); [|by destruct (proj1 Hr eq_refl)].
    split_and!; [done| |apply oz_step_same|done]. eapply oz_full_ext; [..|exact F]; try done.
    + intros t' HL. unfold add_inc. case_decide as Hd; [|done]. subst t'. by apply Hdisj in HL.
    + intros t'. unfold add_inc. case_decide; [|apply S]. apply Forall_app. split; [apply S|by apply Forall_singleton].
Qed.

Lemma oz_incs_step L R X I e ts v changed :
  oz_full L R X I e → Forall lc_ok ts → valid_double v → NoDup ts → (∀ t, t ∈ ts → L t ∨ R t) → (∀ t, L t → ¬ R t) → 
  (changed = true → oz_aset e ≠ []) →
  ∃ e' b, oz_incr_effect e ts v changed = Some (e', changed || b) ∧ oz_full L R X (add_incs I ts v) e' ∧ oz_step_ok e e' b ∧
    (changed || b = true → oz_aset e' ≠ []).
Proof.
  intros F Hts Hv Hnd HLR Hdisj. revert I e changed F. induction Hnd as [|t ts Hnt Hnd IH]; intros I e changed F Hch; simpl.
  - exists e, false. rewrite orb_false_r. split_and!; [done| |apply oz_step_same|done].
    assert (∀ t, add_incs I [] v t = I t) as Hi by (intros t; unfold add_incs; by rewrite decide_False by apply not_elem_of_nil).
    eapply oz_full_ext; [done|done|done|done| |exact F]. intros t. rewrite Hi. apply F.
  - apply Forall_cons in Hts as [Ht Hts].
    destruct (oz_inc_step L R X I e t v F Ht Hv) as (e1 & b1 & -> & F1 & H1 & Hne1); [apply HLR; by left|done|]. simpl.
    destruct (IH Hts) with (I := add_inc I t v) (e := e1) (changed := changed || b1) as (e' & b & -> & F' & H' & Hne'); [|done| |].
    + intros t' Ht'. apply HLR. by right.
    + intros [Hc|Hb]%orb_true_iff; [|by apply Hne1]. specialize (Hch Hc). intros Heq. apply Hch.
      apply (zs_empty _ _ _ _ _ (zf_shape _ _ _ _ _ F)). by apply (zs_empty _ _ _ _ _ (zf_shape _ _ _ _ _ F1)).
    + exists e', (b1 || b). rewrite orb_assoc. split_and!; [done| |by eapply oz_step_trans|done].
      eapply oz_full_ext; [done|done|done| | |exact F']; unfold add_incs, add_inc; intros t'.
      * intros _. rewrite (decide_ext (t' ∈ t :: ts) (t' = t ∨ t' ∈ ts)) by (by rewrite elem_of_cons).
        destruct (decide (t' = t)) as [->|Hne]; [rewrite decide_False by done; by rewrite decide_True by (by left)|].
        destruct (decide (t' ∈ ts)); [by rewrite decide_True by (by right)|by rewrite decide_False by naive_solver].
      * case_decide; [|apply F]. apply Forall_app. split; [apply F|by apply Forall_singleton].
Qed.

(** ** Removes *)

Lemma drop_shape L R X I e t innate acquired :
  oz_shape L R X I e → lc_ok t →
  (∀ p, innate = Some p → oz_innate e = Some p ∧ ∀ a, a ∈ oz_aset e → oza_addr a = p → oza_t a ≠ t) →
  (∀ p, acquired = Some p → oz_acquired e = Some p ∧ ∀ a, a ∈ oz_aset e → oza_addr a = p → oza_t a ≠ t) →
  oz_shape (λ t', L t' ∧ t' ≠ t) (λ t', R t' ∨ t' = t) X I
    (mkOze (oz_current e) innate acquired (filter (λ a, oza_t a ≠ t) (oz_aset e)) (oz_rset e ++ [t])).
Proof.
  intros S Ht Hi Hq. split; simpl.
  - apply Forall_forall. intros a [_ Ha]%list_elem_of_filter. by eapply zs_lc_ok.
  - apply Forall_app_2; [apply S|by apply Forall_singleton].
  - apply NoDup_fmap_filter, S.
  - apply NoDup_fmap_filter, S.
  - intros x. rewrite <- (zs_aset _ _ _ _ _ S), !list_elem_of_fmap. setoid_rewrite list_elem_of_filter. naive_solver.
  - intros x. by rewrite elem_of_snoc, (zs_rset _ _ _ _ _ S).
  - intros a [_ Ha]%list_elem_of_filter. by apply S.
  - apply S.
  - intros p Hp. destruct (Hi p Hp) as [Hp' Hne]. destruct (zs_innate _ _ _ _ _ S p Hp') as (a & Ha & Hap & Hmax). exists a.
    split_and!; [apply list_elem_of_filter; auto|done|]. intros b [_ Hb]%list_elem_of_filter. by apply Hmax.
  - intros p Hp. destruct (Hq p Hp) as [Hp' Hne]. destruct (zs_acquired _ _ _ _ _ S p Hp') as (a & Ha & Hap & Hmax). exists a.
    split_and!; [apply list_elem_of_filter; auto|done|]. intros b [_ Hb]%list_elem_of_filter. by apply Hmax.
Qed.

(** What removing tags leaves. *)
Definition shrinks e e' : Prop :=
  (∀ a, a ∈ oz_aset e' → a ∈ oz_aset e) ∧ (oz_innate e' = oz_innate e ∨ oz_innate e' = None) ∧
  (oz_acquired e' = oz_acquired e ∨ oz_acquired e' = None).

Lemma remove_tag_step L R X I e t :
  oz_shape L R X I e → lc_ok t → (∀ t, L t → ¬ R t) →
  oz_shape (λ t', L t' ∧ t' ≠ t) (λ t', R t' ∨ t' = t) X I (remove_tag e t) ∧ shrinks e (remove_tag e t).
Proof.
  intros S Ht Hdisj. unfold remove_tag. assert (lc_dup t = t) as -> by (by destruct t).
  pose proof (rsetGet_spec _ _ _ _ _ S t Ht) as Hr. pose proof (asetGet_spec _ _ _ _ _ S t Ht) as Ha. destruct (rsetGet e t) as [t'|].
  { assert (R t) as HR by (destruct (decide (t ∈ oz_rset e)) as [Hin|Hn]; [by apply (zs_rset _ _ _ _ _ S)|rewrite (zs_rset _ _ _ _ _ S) in Hn; by apply Hr in Hn]).
    split; [|split_and!; auto]. eapply oz_shape_ext; [..|exact S]; try done; [| |apply S].
    - intros x. split; [|by intros [? _]]. intros Hx. split; [done|]. intros ->. by apply Hdisj in Hx.
    - intros x. split; [by left|]. by intros [?| ->]. }
  destruct (asetGet e t) as [a|].
  - destruct Ha as [Ha Hat]. rewrite (tag_remove_filter oza_t) by (done || apply S).
    assert (∀ q b, Some q ≠ Some (oza_addr a) → b ∈ oz_aset e → oza_addr b = q → oza_t b ≠ t) as Hother.
    { intros q b Hq Hb <- Hbt. apply Hq. by rewrite (zs_same _ _ _ _ _ S b a Hb Ha) by congruence. }
    split; [apply drop_shape; [done|done|..]|split_and!; simpl].
    + intros p Hp. destruct (decide (oz_innate e = Some (oza_addr a))) as [|Hd]; [done|]. split; [done|]. intros b. apply Hother. congruence.
    + intros p Hp. destruct (decide (oz_acquired e = Some (oza_addr a))) as [|Hd]; [done|]. split; [done|]. intros b. apply Hother. congruence.
    + by intros b [_ Hb]%list_elem_of_filter.
    + case_decide; auto.
    + case_decide; auto.
  - assert (filter (λ a, oza_t a ≠ t) (oz_aset e) = oz_aset e) as Heq.
    { apply filter_all. intros b Hb Hbt. apply Ha. rewrite <- Hbt. by eapply zs_live. }
    pose proof (drop_shape L R X I e t (oz_innate e) (oz_acquired e) S Ht) as Hs. rewrite Heq in Hs.
    split; [|split_and!; simpl; auto]. apply Hs; (intros p Hp; split; [done|]); intros b Hb _ Hbt; apply Ha; rewrite <- Hbt; by eapply zs_live.
Qed.

Lemma remove_tags_step L R X I e ts :
  oz_shape L R X I e → Forall lc_ok ts → (∀ t, L t → ¬ R t) →
  oz_shape (λ t, L t ∧ t ∉ ts) (λ t, R t ∨ t ∈ ts) X I (foldl remove_tag e ts) ∧ shrinks e (foldl remove_tag e ts).
Proof.
  intros S Hts. revert L R e S. induction Hts as [|t ts Ht Hts IH]; intros L R e S Hdisj; simpl.
  - split; [|by split_and!; auto]. eapply oz_shape_ext; [..|exact S]; try done; [| |apply S]; intros t; rewrite elem_of_nil; tauto.
  - destruct (remove_tag_step L R X I e t S Ht Hdisj) as [S1 (A1 & B1 & C1)]. destruct (IH _ _ _ S1) as [S2 (A2 & B2 & C2)].
    { intros x [Hx Hne] [?| ->]; [by eapply Hdisj|done]. }
    split; [|split_and!; [auto|destruct B2 as [->|?]; auto|destruct C2 as [->|?]; auto]].
    eapply oz_shape_ext; [..|exact S2]; try done; [| |apply S]; intros x; rewrite elem_of_cons; tauto.
Qed.

(** *** Finding the greatest entries *)

Fixpoint max_loop (ltb : oz_ase → oz_ase → bool) (o : option oz_ase) (l : list oz_ase) : option oz_ase :=
  match l with
  | [] => o
  | a :: l' => max_loop ltb (match o with None => Some a | Some x => if ltb x a then Some a else o end) l'
  end.

Lemma resort_loop_max i a l :
  resort_loop i a l = (max_loop (λ x y, lc_cmp_as_tag (oza_t x) (oza_t y) <? 0) i l, max_loop acquired_lt a l).
Proof. revert i a. induction l as [|x l IH]; intros i a; [done|]. apply IH. Qed.

Lemma max_loop_spec ltb (lt : oz_ase → oz_ase → Prop) (P : oz_ase → Prop) o l :
  (∀ x y, P x → P y → ltb x y = true ↔ lt x y) → (∀ x, ¬ lt x x) → (∀ x y z, lt x y → lt y z → lt x z) →
  (∀ x y z, lt y z → ¬ lt x z → lt y x) →
  (∀ x, o = Some x ∨ x ∈ l → P x) →
  match max_loop ltb o l with
  | None => o = None ∧ l = []
  | Some a => (o = Some a ∨ a ∈ l) ∧ ∀ b, o = Some b ∨ b ∈ l → ¬ lt a b
  end.
Proof.
  intros Hltb Hirr Htr Hneg. revert o. induction l as [|a l IH]; intros o HP; simpl.
  { destruct o as [x|]; [|done]. split; [by left|]. intros b [[= ->]|?%elem_of_nil]; [apply Hirr|done]. }
  assert (P a) as Ha by (apply HP; right; by left). set (o' := match o with None => Some a | Some x => if ltb x a then Some a else o end).
  assert (o' = Some a ∨ (o' = o ∧ o ≠ None)) as Ho' by (unfold o'; destruct o as [x|]; [destruct (ltb x a); auto|auto]).
  specialize (IH o'). assert (∀ x, o' = Some x ∨ x ∈ l → P x) as HP'.
  { intros x [Hx|Hx]; [|apply HP; right; by right]. destruct Ho' as [Heq|[Heq _]]; [congruence|]. apply HP. left. congruence. }
  specialize (IH HP'). destruct (max_loop ltb o' l) as [y|].
  - destruct IH as [Hy Hmax]. split.
    + destruct Hy as [Hy|Hy]; [|right; by right]. destruct Ho' as [Heq|[Heq _]]; [|left; congruence]. right. replace y with a by congruence. by left.
    + assert (¬ lt y a ∧ ∀ x, o = Some x → ¬ lt y x) as [Hya Hyo].
      { destruct o as [x|]; unfold o' in *; [|split; [apply Hmax; by left|done]].
        assert (P x) as Hx by (apply HP; by left). destruct (ltb x a) eqn:Hlt.
        - apply Hltb in Hlt; [|done..]. assert (¬ lt y a) as Hna by (apply Hmax; by left). split; [done|]. intros x' [= <-] Hyx. by apply Hna, (Htr y x a).
        - assert (¬ lt x a) as Hna by (rewrite <- Hltb by done; by rewrite Hlt).
          assert (¬ lt y x) as Hnx by (apply Hmax; by left). split; [|by intros x' [= <-]]. intros Hyl. apply Hnx. by eapply Hneg. }
      intros b [Hb|[->|Hb]%elem_of_cons]; [by apply Hyo|done|apply Hmax; by right].
  - destruct IH as [IH _]. destruct Ho' as [Heq|[Heq Hne]]; congruence.
Qed.

Lemma tag_lt_neg x y z : tag_lt y z → ¬ tag_lt x z → tag_lt y x.
Proof. intros H1 H2. destruct (tag_total x y) as [H|[->|?]]; [|done|done]. destruct H2. by eapply tag_lt_trans. Qed.

Lemma ase_lt_neg (x y z : oz_ase) : ase_lt y z → ¬ ase_lt x z → ase_lt y x.
Proof.
  intros H1 H2. destruct (acq_lt_total (oza_count x) (oza_t x) (oza_count y) (oza_t y)) as [H|[[Hk Ht]|?]]; [| |done].
  - destruct H2. by eapply acq_lt_trans.
  - destruct H2. unfold acq_lt in *. by rewrite Hk, Ht.
Qed.

Lemma follow_ok L R X I e (p : option nat) :
  oz_shape L R X I e → (∀ q, p = Some q → ∃ a, a ∈ oz_aset e ∧ oza_addr a = q) →
  ∃ o, oz_follow e p = Some o ∧ ∀ x, o = Some x ∨ x ∈ oz_aset e → x ∈ oz_aset e.
Proof.
  intros S Hp. destruct p as [q|]; [|exists None; split; [done|by intros x [?|?]]].
  destruct (Hp q eq_refl) as (a & Ha & <-). exists (Some a). simpl. rewrite (zs_deref _ _ _ _ _ S a Ha). split; [done|]. by intros x [[= <-]|?].
Qed.

Lemma resort_eq e i a :
  oz_innate e = None ∨ oz_acquired e = None → oz_follow e (oz_innate e) = Some i → oz_follow e (oz_acquired e) = Some a →
  resort e = Some (oz_set_innate (oza_addr <$> max_loop (λ x y, lc_cmp_as_tag (oza_t x) (oza_t y) <? 0) i (oz_aset e))
    (oz_set_acquired (oza_addr <$> max_loop acquired_lt a (oz_aset e)) e)).
Proof.
  intros Hnone. unfold resort. destruct (oz_innate e) as [p|], (oz_acquired e) as [q|].
  { by destruct Hnone. }
  - intros Hi [= <-]. rewrite Hi. simpl. by rewrite resort_loop_max.
  - intros [= <-] Ha. rewrite Ha. simpl. by rewrite resort_loop_max.
  - intros [= <-] [= <-]. simpl. by rewrite resort_loop_max.
Qed.

Lemma resort_step L R X I e :
  oz_shape L R X I e → oz_innate e = None ∨ oz_acquired e = None →
  ∃ e', resort e = Some e' ∧ oz_full L R X I e' ∧ oz_aset e' = oz_aset e.
Proof.
  intros S Hnone.
  destruct (follow_ok L R X I e (oz_innate e) S) as (i & Hi & Hiin).
  { intros q Hq. destruct (zs_innate _ _ _ _ _ S q Hq) as (a & Ha & Hq' & _). by exists a. }
  destruct (follow_ok L R X I e (oz_acquired e) S) as (a & Ha & Hain).
  { intros q Hq. destruct (zs_acquired _ _ _ _ _ S q Hq) as (a & Ha & Hq' & _). by exists a. }
  rewrite (resort_eq e i a Hnone Hi Ha). eexists. split; [done|]. split; [|done].
  pose proof (max_loop_spec (λ x y, lc_cmp_as_tag (oza_t x) (oza_t y) <? 0) (λ x y, tag_lt (oza_t x) (oza_t y)) (λ x, x ∈ oz_aset e) i (oz_aset e)
    ltac:(intros x y Hx Hy; rewrite Z.ltb_lt; apply lc_tag_lt; by eapply zs_lc_ok) ltac:(intros x; apply tag_lt_irrefl)
    ltac:(intros x y z; apply tag_lt_trans) ltac:(intros x y z; apply tag_lt_neg) Hiin) as Mi.
  pose proof (max_loop_spec acquired_lt (λ x y, ase_lt x y) (λ x, x ∈ oz_aset e) a (oz_aset e)
    ltac:(intros x y Hx Hy; apply acquired_lt_spec; (by eapply zs_nonneg) || (by eapply zs_lc_ok)) ltac:(intros x; apply acq_lt_irrefl)
    ltac:(intros x y z; apply acq_lt_trans) ltac:(intros x y z; apply ase_lt_neg) Hain) as Ma.
  destruct (max_loop _ i _) as [x|]; destruct (max_loop acquired_lt a _) as [y|]; simpl; 
    (split; [split; simpl; try apply S|..]; simpl; try done).
  all: try (intros p [= <-]; eexists; split_and!; [by apply Hiin, Mi|done|intros b Hb; apply Mi; by right]).
  all: try (intros p [= <-]; eexists; split_and!; [by apply Hain, Ma|done|intros b Hb Hlt; exfalso; by apply Ma in Hlt; [|right]]).
  all: try (intros b _ Hb; rewrite (proj2 Ma) in Hb; by apply elem_of_nil in Hb).
  all: by intros _; apply Mi.
Qed.

Lemma oz_rem_step L R X I e ts :
  oz_full L R X I e → Forall lc_ok ts → (∀ t, L t → ¬ R t) →
  ∃ e' b, oz_rem_effect e ts = Some (e', b) ∧ oz_full (λ t, L t ∧ t ∉ ts) (λ t, R t ∨ t ∈ ts) X I e' ∧ oz_step_ok e e' b.
Proof.
  intros F Hts Hdisj. pose proof (zf_shape _ _ _ _ _ F) as S. unfold oz_rem_effect.
  destruct (remove_tags_step L R X I e ts S Hts Hdisj) as [S' (Hsub & Hi & Hq)]. set (e1 := foldl remove_tag e ts) in *.
  destruct (decide (oz_innate e1 = None ∨ oz_acquired e1 = None)) as [Hnone|Hsome].
  - destruct (resort_step _ _ _ _ e1 S' Hnone) as (e' & Hr & F' & _). exists e', true. rewrite Hr.
    split_and!; [by destruct (oz_innate e1), (oz_acquired e1), Hnone|done|done].
  - destruct (oz_innate e1) as [p|] eqn:Hp; [|destruct Hsome; by left]. destruct (oz_acquired e1) as [q|] eqn:Hq'; [|destruct Hsome; by right].
    exists e1, false. destruct Hi as [Hi|]; [|done]. destruct Hq as [Hq|]; [|done].
    split_and!; [done|split; [done|congruence|congruence]|]. intros _. split.
    + destruct (zs_innate _ _ _ _ _ S' p Hp) as (a & Ha & _). split; intros Heq; [rewrite Heq in Ha|apply Hsub in Ha; rewrite Heq in Ha]; by apply elem_of_nil in Ha.
    + intros i oa (H1 & H2 & H3 & H4). exists i, oa. split; [|done]. split_and!; [congruence|by apply Hsub|congruence|]. intros a ->. by apply Hsub, H4.
Qed.
End element.

(** ** Histories *)

(** Operations, with values as they travel or as they are read. *)
Inductive oz_op (V : Type) := OzAdd (t : lc) (v : V) | OzInc (ts : list lc) (v : V) | OzRem (ts : list lc).
Arguments OzAdd {V} t v.
Arguments OzInc {V} ts v.
Arguments OzRem {V} ts.

#[global] Instance oz_op_eq_dec {V} `{!EqDecision V} : EqDecision (oz_op V).
Proof. solve_decision. Defined.

Abbreviation ozop := (oz_op double).

(** Tags are small enough to be compared, values are doubles. *)
Definition oz_op_ok (p : sds * ozop) : Prop :=
  match p.2 with
  | OzAdd t v => lc_ok t
  | OzInc ts v => Forall lc_ok ts ∧ NoDup ts ∧ valid_double v
  | OzRem ts => Forall lc_ok ts
  end.

Definition oz_adds_tag (ele : sds) (t : lc) (p : sds * ozop) : Prop :=
  match p.2 with OzAdd t' _ => p.1 = ele ∧ t' = t | _ => False end.

(** The adds of one tag are one add. *)
Definition oz_adds_agree (hist : list (sds * ozop)) : Prop :=
  Forall (λ p, Forall (λ q, match p.2 with OzAdd t _ => oz_adds_tag p.1 t q → q = p | _ => True end) hist) hist.

(** An increment comes after the adds whose tags it names. *)
Definition oz_incs_follow (hist : list (sds * ozop)) : Prop :=
  Forall (λ k, match hist !! k with
               | Some (ele, OzInc ts _) => Forall (λ t, Exists (oz_adds_tag ele t) (take k hist)) ts
               | _ => True
               end) (seq 0 (length hist)).

Definition oz_ok (hist : list (sds * ozop)) : Prop :=
  Forall oz_op_ok hist ∧ oz_adds_agree hist ∧ oz_incs_follow hist.

#[global] Instance oz_adds_tag_dec ele t p : Decision (oz_adds_tag ele t p).
Proof. unfold oz_adds_tag. destruct (p.2); apply _. Defined.

#[global] Instance oz_ok_dec hist : Decision (oz_ok hist).
Proof.
  unfold oz_ok, oz_op_ok, oz_adds_agree, oz_incs_follow. repeat apply and_dec; apply Forall_dec; intros p.
  - destruct (p.2); apply _.
  - apply Forall_dec. intros q. destruct (p.2); apply _.
  - destruct (hist !! p) as [[? []]|]; apply _.
Defined.

Section history.
Implicit Types (l : list ozop).

Definition oz_added l (t : lc) : Prop := ∃ v, OzAdd t v ∈ l.
Definition oz_removed l (t : lc) : Prop := ∃ ts, OzRem ts ∈ l ∧ t ∈ ts.

#[global] Instance oz_removed_dec l t : Decision (oz_removed l t).
Proof.
  assert (Decision (Exists (λ op : ozop, match op with OzRem ts => t ∈ ts | _ => False end) l)) as Hdec.
  { apply Exists_dec. intros []; apply _. }
  refine (cast_if Hdec).
  - apply Exists_exists in e as ([| |ts] & Hin & Ht); [done..|]. by exists ts.
  - intros (ts & Hin & Ht). apply n, Exists_exists. by exists (OzRem ts).
Defined.

Definition oz_live l (t : lc) : Prop := oz_added l t ∧ ¬ oz_removed l t.

Definition oz_inc_of (t : lc) (op : ozop) : option double :=
  match op with OzInc ts v => if decide (t ∈ ts) then Some v else None | _ => None end.

(** The increments of a tag, in order. *)
Definition oz_incs l (t : lc) : list double := omap (oz_inc_of t) l.

Lemma oz_incs_snoc l op t : oz_incs (l ++ [op]) t = oz_incs l t ++ (match oz_inc_of t op with Some v => [v] | None => [] end).
Proof. unfold oz_incs. rewrite omap_app. simpl. by destruct (oz_inc_of t op). Qed.

Lemma oz_added_snoc l op t : oz_added (l ++ [op]) t ↔ oz_added l t ∨ ∃ v, op = OzAdd t v.
Proof. unfold oz_added. setoid_rewrite elem_of_snoc. naive_solver. Qed.

Lemma oz_removed_snoc l op t : oz_removed (l ++ [op]) t ↔ oz_removed l t ∨ ∃ ts, op = OzRem ts ∧ t ∈ ts.
Proof. unfold oz_removed. setoid_rewrite elem_of_snoc. naive_solver. Qed.

Lemma oz_incs_nil l t : oz_incs l t = [] ∨ ∃ ts v, OzInc ts v ∈ l ∧ t ∈ ts.
Proof.
  induction l as [|op l IH] using rev_ind; [by left|]. rewrite oz_incs_snoc. destruct (oz_inc_of t op) as [v|] eqn:Hop.
  - right. destruct op as [|ts v'|]; [done| |done]. simpl in Hop. case_decide; [|done]. exists ts, v'. split; [|done]. apply elem_of_snoc. by right.
  - rewrite app_nil_r. destruct IH as [IH|(ts & v & Hin & Ht)]; [by left|]. right. exists ts, v. split; [|done]. apply elem_of_snoc. by left.
Qed.

(** The state of an element after a history. *)
Definition oz_elem l (e : oze) : Prop := oz_full (oz_live l) (oz_removed l) (λ t v, OzAdd t v ∈ l) (oz_incs l) e.

Lemma oz_elem_new : oz_elem [] ozeNew.
Proof.
  split; [split; simpl; try done; try by constructor|done|by intros b _ ?%elem_of_nil].
  - intros t. split; [by intros ?%elem_of_nil|by intros [(v & ?%elem_of_nil) _]].
  - intros t. split; [by intros ?%elem_of_nil|by intros (ts & ?%elem_of_nil & _)].
  - by intros a ?%elem_of_nil.
Qed.

(** What one element's history must satisfy. *)
Record oz_good l : Prop := {
  og_agree t v v' : OzAdd t v ∈ l → OzAdd t v' ∈ l → v = v';
  og_incs ts v : OzInc ts v ∈ l → valid_double v ∧ ∀ t, t ∈ ts → oz_added l t
}.

Lemma oz_incs_valid l t : oz_good l → Forall valid_double (oz_incs l t).
Proof.
  intros [_ Hi]. apply Forall_forall. intros v (op & Hop & Hv)%list_elem_of_omap. destruct op as [|ts v'|]; [done| |done].
  simpl in Hv. case_decide; [|done]. injection Hv as ->. by destruct (Hi _ _ Hop).
Qed.

Lemma oz_live_removed l t : oz_live l t → ¬ oz_removed l t.
Proof. by intros []. Qed.

(** The effect on the metadata; the flag tells whether the sorted set is
    touched. *)
Definition oz_apply (op : ozop) (e : oze) : option (oze * bool) :=
  match op with
  | OzAdd t v => oz_add_effect e t v
  | OzInc ts v => oz_incr_effect e ts v false
  | OzRem ts => oz_rem_effect e ts
  end.

Lemma oz_apply_step l e op ele :
  oz_elem l e → oz_op_ok (ele, op) → oz_good l → oz_good (l ++ [op]) → (∀ ts v t, op = OzInc ts v → t ∈ ts → oz_added l t) →
  ∃ e' b, oz_apply op e = Some (e', b) ∧ oz_elem (l ++ [op]) e' ∧ oz_step_ok e e' b ∧
    (b = true → match op with OzRem _ => True | _ => oz_aset e' ≠ [] end).
Proof.
  intros E Hop Hg Hg' Hf. pose proof (λ t, oz_incs_valid _ t Hg') as Hv'. unfold oz_elem in *. destruct op as [t v|ts v|ts]; simpl in *.
  - destruct (oz_add_step (oz_live l) (oz_removed l) (λ t' v', OzAdd t' v' ∈ l ++ [OzAdd t v]) (oz_incs l) e t v) as (e' & b & Ha & F' & Hs & Hne).
    + eapply oz_full_ext; [..|exact E]; try done; [|by intros; apply oz_incs_valid]. intros t' v' _ Hin. apply elem_of_snoc. by left.
    + done.
    + apply elem_of_snoc. by right.
    + intros v' Hin. eapply (og_agree _ Hg'); [done|]. apply elem_of_snoc. by right.
    + intros HL HR. destruct (oz_incs_nil l t) as [?|(ts & w & Hin & Ht)]; [done|]. destruct HL. split; [by eapply og_incs|done].
    + apply oz_live_removed.
    + exists e', b. split_and!; [done| |done|done].
      eapply oz_full_ext; [..|exact F']; [| |by auto| |done]; intros t'; unfold oz_live; rewrite ?oz_added_snoc, ?oz_removed_snoc, ?oz_incs_snoc, ?app_nil_r; 
        naive_solver.
  - destruct Hop as (Hts & Hnd & Hv).
    destruct (oz_incs_step (oz_live l) (oz_removed l) (λ t' v', OzAdd t' v' ∈ l) (oz_incs l) e ts v false) as (e' & b & Ha & F' & Hs & Hne); [done..| | |done|].
    + intros t Ht. specialize (Hf _ _ t eq_refl Ht). unfold oz_live. destruct (decide (oz_removed l t)); auto.
    + apply oz_live_removed.
    + exists e', b. split_and!; [done| |done|done].
      eapply oz_full_ext; [..|exact F']; [| | | |done]; intros t'; unfold oz_live; rewrite ?oz_added_snoc, ?oz_removed_snoc; [naive_solver|naive_solver| |].
      * intros v' _ Hin. apply elem_of_snoc. by left.
      * intros _. rewrite oz_incs_snoc. unfold add_incs. simpl. case_decide; by rewrite ?app_nil_r.
  - destruct (oz_rem_step (oz_live l) (oz_removed l) (λ t' v', OzAdd t' v' ∈ l) (oz_incs l) e ts) as (e' & b & Ha & F' & Hs); [done..|apply oz_live_removed|].
    exists e', b. split_and!; [done| |done|done].
    eapply oz_full_ext; [..|exact F']; [| | | |done]; intros t'; unfold oz_live; rewrite ?oz_added_snoc, ?oz_removed_snoc.
    + naive_solver.
    + naive_solver.
    + intros v' _ Hin. apply elem_of_snoc. by left.
    + intros _. by rewrite oz_incs_snoc, app_nil_r.
Qed.

(** *** Histories of a container *)

Lemma oz_adds_tag_added ele t (hist : list (sds * ozop)) : Exists (oz_adds_tag ele t) hist ↔ oz_added (ops_of ele hist) t.
Proof.
  rewrite Exists_exists. unfold oz_added. setoid_rewrite elem_of_ops_of. split.
  - intros ([ele' [t' v|?|?]] & Hin & Ht); [|done..]. destruct Ht as [He Ht]. simpl in He. subst. by exists v.
  - intros [v Hin]. by exists (ele, OzAdd t v).
Qed.

Lemma oz_incs_follow_spec hist k ele ts v t :
  oz_incs_follow hist → hist !! k = Some (ele, OzInc ts v) → t ∈ ts → oz_added (ops_of ele (take k hist)) t.
Proof.
  intros Hf Hk Ht. unfold oz_incs_follow in Hf. rewrite Forall_forall in Hf. specialize (Hf k). rewrite Hk in Hf.
  apply oz_adds_tag_added. apply (proj1 (Forall_forall _ _) (Hf ltac:(apply elem_of_seq; apply lookup_lt_Some in Hk; lia))). done.
Qed.

Lemma oz_added_mono l1 l2 t : oz_added l1 t → oz_added (l1 ++ l2) t.
Proof. intros [v Hv]. exists v. apply elem_of_app. by left. Qed.

Lemma oz_ok_good hist ele : oz_ok hist → oz_good (ops_of ele hist).
Proof.
  intros (Hok & Hag & Hf). unfold oz_adds_agree in Hag. rewrite Forall_forall in Hok, Hag. split.
  - intros t v v' Hv Hv'. apply elem_of_ops_of in Hv, Hv'. specialize (Hag _ Hv). rewrite Forall_forall in Hag.
    specialize (Hag _ Hv'). simpl in Hag. by injection (Hag ltac:(done)) as ->.
  - intros ts v Hin. apply elem_of_ops_of in Hin. split; [by apply (Hok _ Hin)|]. intros t Ht.
    apply list_elem_of_lookup in Hin as [k Hk]. rewrite <- (take_drop k hist). unfold ops_of. rewrite filter_app, fmap_app.
    apply oz_added_mono. by eapply oz_incs_follow_spec.
Qed.

Lemma oz_ok_snoc hist p :
  oz_ok (hist ++ [p]) → oz_ok hist ∧ oz_op_ok p ∧ (∀ ts v t, p.2 = OzInc ts v → t ∈ ts → oz_added (ops_of p.1 hist) t).
Proof.
  intros (Hok & Hag & Hf). apply Forall_app in Hok as [Hok Hp%Forall_inv]. split_and!; [split_and!|done|]; [done|..].
  - unfold oz_adds_agree in *. apply Forall_app in Hag as [Hag _]. eapply Forall_impl; [exact Hag|]. simpl. intros q Hq. by apply Forall_app in Hq as [? _].
  - unfold oz_incs_follow in *. rewrite length_app, seq_app, Forall_app in Hf. destruct Hf as [Hf _].
    rewrite Forall_forall in *. intros k Hk. specialize (Hf k Hk). apply elem_of_seq in Hk. by rewrite lookup_app_l, take_app_le in Hf by lia.
  - intros ts v t Hop Ht. destruct p as [ele op]. simpl in *. subst op.
    pose proof (oz_incs_follow_spec _ (length hist) ele ts v t Hf) as H. rewrite take_app_length in H. apply H; [|done]. by apply list_lookup_middle.
Qed.

Lemma oz_ok_app hist hist' : oz_ok (hist ++ hist') → oz_ok hist.
Proof.
  induction hist' as [|p hist' IH] using rev_ind; [by rewrite app_nil_r|]. rewrite app_assoc. intros [H _]%oz_ok_snoc. auto.
Qed.
End history.

(** ** A container *)

Abbreviation ozset_cont := (gmap sds oze * option (gmap sds double))%type.

(** What the effect phases do to the sorted set. *)
Definition oz_show (op : ozop) (ele : sds) (e' : oze) (b : bool) (o : option (gmap sds double)) : option (gmap sds double) :=
  if b then
    let m := default ∅ o in
    let shown := (zmap_add m (match oz_score e' with inr s => s | inl _ => d0 end) ele ZADD_NONE).1.1 in
    Some (match op with OzRem _ => if oz_LOOKUP e' then shown else delete ele m | _ => shown end)
  else o.

(** What the sorted set holds for an element; nothing is said of a score that
    is not a number, which [zsetAdd] refuses. *)
Definition oz_vis (e : oze) (o : option double) : Prop :=
  (oz_aset e = [] → o = None) ∧
  ∀ i oa, oz_points e i oa → isnan (points_score i oa) = false → ∃ d, o = Some d ∧ dkey d = dkey (points_score i oa).

Definition oz_inv (hist : list (sds * ozop)) (s : ozset_cont) : Prop :=
  ∀ ele, let e := default ozeNew (s.1 !! ele) in oz_elem (ops_of ele hist) e ∧ oz_vis e (default ∅ s.2 !! ele).

Lemma oz_vis_new : oz_vis ozeNew None.
Proof. split; [done|]. by intros i oa (? & _). Qed.

Lemma oz_inv_init : oz_inv [] (∅, None).
Proof. intros ele. simpl. rewrite !lookup_empty. split; [apply oz_elem_new|apply oz_vis_new]. Qed.

Lemma oz_LOOKUP_spec e : oz_LOOKUP e = true ↔ oz_aset e ≠ [].
Proof. unfold oz_LOOKUP. by destruct (oz_aset e). Qed.

(** An element with entries has a score. *)
Lemma oz_elem_score l e : oz_elem l e → oz_aset e ≠ [] → ∃ i oa, oz_points e i oa ∧ oz_score e = inr (points_score i oa).
Proof.
  intros [S Hn _] Hne. destruct (oz_innate e) as [p|] eqn:Hp; [|by destruct Hne, Hn].
  destruct (oz_points_ex _ _ _ _ _ p S Hp) as (i & oa & Hpt). exists i, oa. split; [done|]. by eapply oz_score_points.
Qed.

Lemma oz_vis_publish l e m ele :
  oz_elem l e → oz_aset e ≠ [] →
  oz_vis e ((zmap_add m (match oz_score e with inr s => s | inl _ => d0 end) ele ZADD_NONE).1.1 !! ele).
Proof.
  intros E Hne. split; [done|]. intros i oa Hpt Hnan. rewrite (oz_score_points _ _ _ _ _ i oa (zf_shape _ _ _ _ _ E) Hpt).
  by apply zmap_add_eq.
Qed.

Lemma oz_vis_step l e e' b op ele o :
  oz_elem l e' → oz_step_ok e e' b → (b = true → match op with OzRem _ => True | _ => oz_aset e' ≠ [] end) →
  oz_vis e (default ∅ o !! ele) → oz_vis e' (default ∅ (oz_show op ele e' b o) !! ele).
Proof.
  intros E Hs Hne [Hv1 Hv2]. unfold oz_show. destruct b.
  - simpl. specialize (Hne eq_refl). pose proof (oz_vis_publish l e' (default ∅ o) ele E) as Hpub. destruct op as [| |ts]; [by apply Hpub..|].
    pose proof (oz_LOOKUP_spec e') as Hl. destruct (oz_LOOKUP e'); [by apply Hpub, Hl|]. rewrite lookup_delete_eq. split; [done|].
    intros i oa (_ & Hin & _). assert (oz_aset e' ≠ []) as Hn%Hl by (intros Heq; rewrite Heq in Hin; by apply elem_of_nil in Hin). done.
  - destruct (Hs eq_refl) as [He Hp]. split; [intros ?%He; by apply Hv1|]. intros i oa (i0 & oa0 & Hpt & ->)%Hp. by apply Hv2.
Qed.

Lemma oz_show_ne op ele ele' e b o : ele' ≠ ele → default ∅ (oz_show op ele e b o) !! ele' = default ∅ o !! ele'.
Proof.
  intros Hne. unfold oz_show. destruct b; [|done]. cbn [default from_option]. unfold id.
  destruct op; [by rewrite zmap_add_ne..|]. destruct (oz_LOOKUP e); [by rewrite zmap_add_ne|by rewrite lookup_delete_ne].
Qed.

(** The arguments an operation travels with. *)
Inductive oz_msg : ozop → sds → sds → list sds → Prop :=
  | ozmsg_add cmd key ele s v t : string2d s = Some v → oz_msg (OzAdd t v) key ele [cmd; key; ele; s; lcToSds t]
  | ozmsg_inc cmd key ele s v ts : string2d s = Some v → oz_msg (OzInc ts v) key ele (cmd :: key :: ele :: s :: (lcToSds <$> ts))
  | ozmsg_rem cmd key ele ts : oz_msg (OzRem ts) key ele (cmd :: key :: ele :: (lcToSds <$> ts)).

Section world.
Context {cell : Type} `{!Stored cell oze}.
Implicit Types (w : world cell).

Abbreviation zcont := (cont (A := oze) ORI_RPQ_TABLE_SUFFIX).
Abbreviation zsteps := (steps ORI_RPQ_TABLE_SUFFIX).

Definition oz_effect {V} (op : oz_op V) : M cell () :=
  match op with OzAdd _ _ => ozadd_effect | OzInc _ _ => ozincrby_effect | OzRem _ => ozrem_effect end.

Lemma oz_publish_run w key ptrs Ms o ele e sc :
  zcont w key ptrs Ms o → oz_score e = inr sc →
  ∃ w', oz_publish key ele e w = Done () w' ∧
    zcont w' key ptrs Ms (Some (zmap_add (default ∅ o) sc ele ZADD_NONE).1.1) ∧ zsteps key w ptrs w' ptrs.
Proof.
  intros C Hsc. unfold oz_publish. rewrite Hsc.
  destruct (getZset_run _ w key ptrs Ms o ele C) as (w1 & Hg & C1 & S1).
  destruct (zset_add_run _ w1 key ptrs Ms _ ele sc C1) as (w2 & Ha & C2 & S2).
  mstep Hg. exists w2. split; [done|]. split; [done|by eapply steps_trans].
Qed.

(** What the effect phases do after storing the metadata. *)
Definition oz_show_m (op : ozop) (key ele : sds) (e : oze) (b : bool) : M cell () :=
  (if b then
     match op with
     | OzRem _ => zset ← getZsetOrCreate key ele;
                  if oz_LOOKUP e then oz_publish key ele e else zset_del zset ele
     | _ => oz_publish key ele e
     end
   else mret ());; dirty_inc.

Lemma oz_show_run w key ptrs Ms o ele op l e b :
  zcont w key ptrs Ms o → oz_elem l e → (b = true → match op with OzRem _ => True | _ => oz_aset e ≠ [] end) →
  ∃ w', oz_show_m op key ele e b w = Done () w' ∧ zcont w' key ptrs Ms (oz_show op ele e b o) ∧ zsteps key w ptrs w' ptrs.
Proof.
  intros C E Hb.
  assert (oz_aset e ≠ [] → ∃ sc, oz_score e = inr sc) as Hsc.
  { intros Hne. destruct (oz_elem_score l e E Hne) as (i & oa & _ & ->). by eexists. }
  assert (∃ w1, (if b then match op with
            | OzRem _ => zset ← getZsetOrCreate key ele;
                         if oz_LOOKUP e then oz_publish key ele e else zset_del zset ele
            | _ => oz_publish key ele e
            end else mret ()) w = Done () w1 ∧ zcont w1 key ptrs Ms (oz_show op ele e b o) ∧ zsteps key w ptrs w1 ptrs)
    as (w1 & Hrun & C1 & S1).
  { unfold oz_show. destruct b; [|exists w; split; [done|]; split; [done|apply steps_refl]]. specialize (Hb eq_refl).
    destruct op as [t v|ts v|ts]; [destruct (Hsc Hb) as [sc Heq]; rewrite Heq; by apply oz_publish_run..|].
    destruct (getZset_run _ w key ptrs Ms o ele C) as (w1 & Hg & C1 & S1). mstep Hg. pose proof (oz_LOOKUP_spec e) as Hl.
    destruct (oz_LOOKUP e).
    - destruct (Hsc ltac:(by apply Hl)) as [sc Heq]. rewrite Heq.
      destruct (oz_publish_run w1 key ptrs Ms _ ele e sc C1 Heq) as (w2 & Hp & C2 & S2).
      exists w2. split; [done|]. split; [done|by eapply steps_trans].
    - destruct (zset_del_run _ w1 key ptrs Ms _ ele C1) as (w2 & Hp & C2 & S2).
      exists w2. split; [done|]. split; [done|by eapply steps_trans]. }
  unfold oz_show_m. mstep Hrun. destruct (dirty_spec _ w1 key ptrs _ _ C1) as (w2 & -> & C2 & S2).
  exists w2. split; [done|]. split; [done|by eapply steps_trans].
Qed.

(** The effect phases, with their arguments read. *)
Definition oz_effect_on (op : ozop) (key ele : sds) : M cell () :=
  e ← GET_OZE key ele true;
  e ← orfault NullDeref e;
  x ← load e;
  '(x', b) ← orfault NullDeref (oz_apply op x);
  store e x';;
  oz_show_m op key ele x' b.

Lemma oz_effect_args (op : ozop) key ele args w r w1 (l : loc) :
  rargv (w_client w) = Some r → r_args r = args → oz_msg op key ele args → oz_op_ok (ele, op) →
  GET_OZE key ele true w = Done (Some l) w1 → rargv (w_client w1) = Some r →
  oz_effect op w = oz_effect_on op key ele w.
Proof.
  intros Hr Hargs Hmsg Hop Hget Hr1. unfold oz_effect_on. destruct Hmsg as [cmd key ele s v t Hv|cmd key ele s v ts Hv|cmd key ele ts];
    simpl in Hop |- *; unfold ozadd_effect, ozincrby_effect, ozrem_effect;
    mstep (rarg_spec w r 1 key Hr ltac:(by rewrite Hargs)); mstep (rarg_spec w r 2 ele Hr ltac:(by rewrite Hargs)).
  - mstep (rarg_spec w r 3 s Hr ltac:(by rewrite Hargs)). mstep (rarg_spec w r 4 (lcToSds t) Hr ltac:(by rewrite Hargs)).
    rewrite Hv. erewrite bind_Done by done. destruct (lc_ok_int32 t Hop) as [??]. rewrite lc_roundtrip by done. by erewrite bind_Done by done.
  - destruct Hop as (Hts & _). mstep (rarg_spec w r 3 s Hr ltac:(by rewrite Hargs)). rewrite Hv. erewrite bind_Done by done.
    rewrite !(bind_Done _ _ _ _ _ Hget). erewrite !(bind_Done (orfault _ _)) by done.
    assert (rargs_from 4 w1 = Done (lcToSds <$> ts) w1) as Hfrom by (unfold rargs_from; by rewrite Hr1, Hargs).
    mstep Hfrom. by mstep (get_tags_spec ts w1 Hts).
  - rewrite !(bind_Done _ _ _ _ _ Hget). erewrite !(bind_Done (orfault _ _)) by done.
    assert (rargs_from 3 w1 = Done (lcToSds <$> ts) w1) as Hfrom by (unfold rargs_from; by rewrite Hr1, Hargs).
    mstep Hfrom. by mstep (get_tags_spec ts w1 Hop).
Qed.

(** The effect phases run the operation. *)
Lemma oz_effect_run op key ele args hist w ptrs Ms o r :
  zcont w key ptrs Ms o → rargv (w_client w) = Some r → r_args r = args → oz_msg op key ele args →
  oz_inv hist (Ms, o) → oz_ok (hist ++ [(ele, op)]) →
  ∃ w' ptrs' s', oz_effect op w = Done () w' ∧ zcont w' key ptrs' s'.1 s'.2 ∧
    zsteps key w ptrs w' ptrs' ∧ oz_inv (hist ++ [(ele, op)]) s'.
Proof.
  intros C Hr Hargs Hmsg Hinv Hok'. destruct (oz_ok_snoc _ _ Hok') as (Hok & Hop & Hf). simpl in Hf.
  destruct (rehHTGet_create _ w key ptrs Ms o ele (λ _, ozeNew) C) as (w1 & l & ptrs1 & Hget & Hl & C1 & S1); [done|].
  rewrite (oz_effect_args op key ele args w r w1 l Hr Hargs Hmsg Hop Hget (steps_rargv _ _ _ _ _ _ r S1 Hr)).
  destruct (Hinv ele) as [E Hvis]. simpl in E, Hvis. set (e := default ozeNew (Ms !! ele)) in *.
  pose proof (oz_ok_good _ ele Hok') as Hg'. rewrite ops_of_snoc in Hg'. simpl in Hg'. rewrite decide_True in Hg' by done.
  destruct (oz_apply_step (ops_of ele hist) e op ele E Hop (oz_ok_good _ ele Hok) Hg' Hf) as (e' & b & Hap & E' & Hs & Hne).
  destruct (store_spec _ w1 key ptrs1 _ o ele l e' C1 Hl) as (w2 & Hst & C2 & S2). rewrite insert_insert_eq in C2.
  destruct (oz_show_run w2 key ptrs1 _ o ele op _ e' b C2 E' Hne) as (w3 & Hshow & C3 & S3).
  exists w3, ptrs1, (<[ele := e']> Ms, oz_show op ele e' b o). split_and!; [|done|by eapply steps_trans, steps_trans|].
  - unfold oz_effect_on, GET_OZE. mstep Hget. erewrite bind_Done by done.
    mstep (load_spec _ w1 key ptrs1 _ o ele l e C1 Hl (lookup_insert_eq _ _ _)). rewrite Hap. erewrite bind_Done by done. cbv beta iota.
    mstep Hst. exact Hshow.
  - intros ele'. simpl. rewrite ops_of_snoc. simpl. destruct (decide (ele = ele')) as [<-|Hd].
    + rewrite lookup_insert_eq. simpl. split; [done|]. by eapply oz_vis_step.
    + rewrite lookup_insert_ne, app_nil_r by done. rewrite oz_show_ne by done. apply Hinv.
Qed.
End world.
