(* ===== verification/RemoveWin.v ===== *)
(** * The remove-win core (code shared by src/t_rset.c and src/t_rzset.c)

    The remove-win set and priority queue run the same algorithm on every
    element: operations carry vector clocks and are applied in causal order
    (others wait in [ops]); an add enters [aset] and drops the adds and
    removes it has seen, a remove enters [rset] and drops the adds it has
    seen.  [P] is what an add-set entry carries besides its clock, [T] and
    [V] the type tag and value of a waiting command. *)

From S2P Require Import Prelude.
From S2P Require Import Sds.
From S2P Require Import VectorClock.
From S2P Require Import Double.
From S2P Require Import Skiplist.
From S2P Require Import Zset.
From S2P Require Import Server.
From S2P Require Import TagSet.

#[local] Open Scope Z_scope.

(** ** Data *)

Record ase (P : Type) := mkAse { a_addr : nat; a_t : vc; a_val : P }.
Arguments mkAse {_} _ _ _.
Arguments a_addr {_} _.
Arguments a_t {_} _.
Arguments a_val {_} _.

Record cmd (T V : Type) := mkCmd { cmd_type : T; cmd_value : V; cmd_t : vc }.
Arguments mkCmd {_ _} _ _ _.
Arguments cmd_type {_ _} _.
Arguments cmd_value {_ _} _.
Arguments cmd_t {_ _} _.

(** The add set, the remove set, and the pointer [value] into the add set
    ([exist] in src/t_rset.c). *)
Record rws (P : Type) := mkRws {
  s_value : option nat;
  s_aset : list (ase P);
  s_rset : list vc
}.
Arguments mkRws {_} _ _ _.
Arguments s_value {_} _.
Arguments s_aset {_} _.
Arguments s_rset {_} _.

(** The metadata of an element. *)
Record rwe (P T V : Type) := mkRwe {
  e_current : vc;
  e_sets : rws P;
  e_ops : list (cmd T V)
}.
Arguments mkRwe {_ _ _} _ _ _.
Arguments e_current {_ _ _} _.
Arguments e_sets {_ _ _} _.
Arguments e_ops {_ _ _} _.

(** What an operation does to the sorted set: nothing, [zsetAdd] with a score
    ([None] when it is read from an unset variable), or [zsetDel]. *)
Inductive zact := ZNone | ZAdd (score : option double) | ZDel.

(** ** Operations *)

Section sets.
Context {P : Type}.
Implicit Types (e : rws P) (a : ase P) (t : vc).

Definition rws_empty : rws P := mkRws None [] [].

(** [LOOKUP(e)]. *)
Definition rw_LOOKUP e : bool :=
  negb (Z.of_nat (length (s_aset e)) =? 0) && (Z.of_nat (length (s_rset e)) =? 0).

Definition rw_deref (l : list (ase P)) (p : nat) : option (ase P) := deref a_addr p l.

(** [vc_cmp(a->t, t) == VC_LESS]. *)
Definition seen_by t t' : bool := vc_cmp t' t =? VC_LESS.

(** The loop that drops the entries [t] has seen: the entries left, and the
    pointer, reset when its entry goes. *)
Fixpoint drop_seen t (value : option nat) (l : list (ase P)) : list (ase P) * option nat :=
  match l with
  | [] => ([], value)
  | a :: l' =>
      if seen_by t (a_t a) then
        drop_seen t (if decide (value = Some (a_addr a)) then None else value) l'
      else let '(l'', v) := drop_seen t value l' in (a :: l'', v)
  end.

(** The loop that drops the removes [t] has seen. *)
Fixpoint drop_seen_rset t (l : list vc) : list vc :=
  match l with
  | [] => []
  | r :: l' => if seen_by t r then drop_seen_rset t l' else r :: drop_seen_rset t l'
  end.

(** The loop that selects the entry of the largest server id. *)
Fixpoint pick (value : option (ase P)) (l : list (ase P)) : option (ase P) :=
  match l with
  | [] => value
  | a :: l' =>
      pick (match value with
            | None => Some a
            | Some x => if vid (a_t x) <? vid (a_t a) then Some a else value
            end) l'
  end.

(** The body of [addFunc] up to the sorted set. *)
Definition rw_add e t (p : P) : option (rws P) :=
  let a := mkAse (fresh_addr a_addr (s_aset e)) (vc_dup t) p in
  let aset := s_aset e ++ [a] in
  let '(aset', value) := drop_seen t (s_value e) aset in
  let ase_removed := negb (Nat.eqb (length aset') (length aset)) in
  let rset := drop_seen_rset t (s_rset e) in
  let value := match value with
               | None => if ase_removed then a_addr <$> pick None aset' else None
               | Some _ => value
               end in
  value ← match value with
          | None => Some (a_addr a)
          | Some q => x ← rw_deref aset' q;
                      Some (if vid (a_t x) <? vid t then a_addr a else q)
          end;
  Some (mkRws (Some value) aset' rset).

(** The body of [removeFunc] up to the sorted set. *)
Definition rw_remove e t : rws P :=
  let rset := s_rset e ++ [vc_dup t] in
  let '(aset, value) := drop_seen t (s_value e) (s_aset e) in
  let value := match value with
               | None => a_addr <$> pick None aset
               | Some _ => value
               end in
  mkRws value aset rset.

(** The entry that counts, for [SCORE(e)]. *)
Definition rw_value e : option (ase P) := p ← s_value e; rw_deref (s_aset e) p.

End sets.

(** ** The queue of unready commands *)

Section queue.
Context {P T V : Type}.
Implicit Types (e : rwe P T V) (t : vc).

(** [vc_update(e->current, t)]. *)
Definition rw_tick e t : rwe P T V := mkRwe (vc_update (e_current e) t) (e_sets e) (e_ops e).

Definition rw_set_sets e (x : rws P) : rwe P T V := mkRwe (e_current e) x (e_ops e).

(** The scan of [notifyLoop] for the first ready command; the result is that
    command and the queue without it. *)
Fixpoint take_ready (current : vc) (ops : list (cmd T V)) : option (option (cmd T V * list (cmd T V))) :=
  match ops with
  | [] => Some None
  | c :: ops' =>
      b ← vc_causally_ready current (cmd_t c);
      if (b : bool) then Some (Some (c, ops'))
      else r ← take_ready current ops';
           Some (match r with None => None | Some (c', rest) => Some (c', c :: rest) end)
  end.

Context (apply : rwe P T V → cmd T V → option (rwe P T V * zact)).

Definition rw_set_ops e (ops : list (cmd T V)) : rwe P T V :=
  mkRwe (e_current e) (e_sets e) ops.

(** [notifyLoop]: every iteration takes a command off the queue, so one more
    than the length of the queue is enough fuel.  The sorted-set actions are
    listed in the order they happen. *)
Fixpoint rw_notifyLoop (fuel : nat) e : option (rwe P T V * list zact) :=
  match fuel with
  | O => None
  | S fuel' =>
      r ← take_ready (e_current e) (e_ops e);
      match r with
      | None => Some (e, [])
      | Some (c, rest) =>
          '(e, act) ← apply e c;
          '(e, acts) ← rw_notifyLoop fuel' (rw_set_ops e rest);
          Some (e, act :: acts)
      end
  end.

(** The effect phase: apply a ready command and what it makes ready, queue
    an unready one. *)
Definition rw_effect e (c : cmd T V) : option (rwe P T V * list zact) :=
  b ← vc_causally_ready (e_current e) (cmd_t c);
  if (b : bool) then
    '(e, act) ← apply e c;
    '(e, acts) ← rw_notifyLoop (S (length (e_ops e))) e;
    Some (e, act :: acts)
  else Some (rw_set_ops e (e_ops e ++ [c]), []).

End queue.

(** ** Sorted-set actions *)

Section actions.
Context {cell : Type}.

(** One action, with the [server.dirty++] that follows it. *)
Definition run_act (key ele : sds) (act : zact) : M cell () :=
  match act with
  | ZNone => mret ()
  | ZAdd score => score ← orfault Uninit score;
                  zset ← getZsetOrCreate key ele;
                  zset_add zset score ele
  | ZDel => zset ← getZsetOrCreate key ele;
            zset_del zset ele
  end;;
  dirty_inc.

Fixpoint run_acts (key ele : sds) (acts : list zact) : M cell () :=
  match acts with
  | [] => mret ()
  | act :: acts' => run_act key ele act;; run_acts key ele acts'
  end.

End actions.
