(* ===== verification/Causal.v ===== *)
(** * Causal delivery

    The remove-win set, priority queue and list apply operations in causal
    order and queue the others.  [causal c l] says that the operations [l]
    can be applied one after the other by a server at clock [c].  The queue of
    [RemoveWin] is shown to apply every operation of a causally closed history
    exactly once, in such an order, whatever the order of arrival. *)

From S2P Require Import Prelude.
From S2P Require Import VectorClock.
From S2P Require Import Skiplist.
From S2P Require Import Server.
From S2P Require Import RemoveWin.

#[local] Open Scope Z_scope.
#[local] Open Scope crdt_scope.

(** ** Clocks of a history *)

Definition next_at (c t : vc) (k : nat) : Prop :=
  match vector c !! k, vector t !! k with
  | Some x, Some y => if decide (Z.of_nat k = vid t) then y = x + 1 else y ≤ x
  | _, _ => True
  end.

#[global] Instance next_at_dec c t k : Decision (next_at c t k).
Proof. unfold next_at. repeat case_match; apply _. Defined.

Lemma causally_next_forall c t :
  vsize c = vsize t ∧ 0 ≤ vid t < vsize t ∧ Forall (next_at c t) (seq 0 (length (vector c))) ↔ causally_next c t.
Proof.
  unfold causally_next. rewrite Forall_forall. unfold next_at. split; intros (Hs & Hid & H); (split; [done|]; split; [done|]).
  - intros k x y Hx Hy. specialize (H k). rewrite Hx, Hy in H. apply H, elem_of_seq. apply lookup_lt_Some in Hx. lia.
  - intros k _. specialize (H k). destruct (vector c !! k), (vector t !! k); try done. by apply H.
Qed.

#[global] Instance causally_next_dec c t : Decision (causally_next c t).
Proof.
  destruct (decide (vsize c = vsize t ∧ 0 ≤ vid t < vsize t ∧ Forall (next_at c t) (seq 0 (length (vector c))))) as [H|H];
    [left|right]; by rewrite <- causally_next_forall.
Defined.

Section causal.
Context {C : Type} (clk : C → vc).
Implicit Types (c : vc) (l : list C) (x y : C).

Definition join_of c l : vc := foldl (λ c x, vc_update c (clk x)) c l.

Inductive causal : vc → list C → Prop :=
  | causal_nil c : causal c []
  | causal_cons c x l :
      causally_next c (clk x) → causal (vc_update c (clk x)) l → causal c (x :: l).

#[global] Instance causal_dec c l : Decision (causal c l).
Proof.
  revert c. induction l as [|x l IH]; intros c; [left; constructor|].
  destruct (decide (causally_next c (clk x))) as [Hn|Hn]; [|right; by inversion 1].
  destruct (IH (vc_update c (clk x))) as [Hc|Hc]; [left; by constructor|right; by inversion 1].
Defined.

(** Clocks of a system of [n] servers, none at the end of its range. *)
Definition clock_ok (n : Z) x : Prop :=
  vsize (clk x) = n ∧ 0 ≤ vid (clk x) < n ∧ int32_clock (clk x).

Lemma join_of_app c l1 l2 : join_of c (l1 ++ l2) = join_of (join_of c l1) l2.
Proof. apply foldl_app. Qed.

Lemma vsize_join_of c l : vsize (join_of c l) = vsize c.
Proof.
  revert c. induction l as [|x l IH]; intros c; [done|]. unfold join_of. simpl.
  rewrite <- (vsize_vc_update c (clk x)). apply IH.
Qed.

Lemma vid_join_of c l : vid (join_of c l) = vid c.
Proof.
  revert c. induction l as [|x l IH]; intros c; [done|]. unfold join_of. simpl.
  rewrite <- (vid_vc_update c (clk x)). apply IH.
Qed.

Lemma causal_app c l1 l2 : causal c (l1 ++ l2) ↔ causal c l1 ∧ causal (join_of c l1) l2.
Proof.
  revert c. induction l1 as [|x l1 IH]; intros c; simpl.
  { split; [intros; split; [constructor|done]|by intros [_ ?]]. }
  split.
  - inversion 1; subst. rewrite IH in *. destruct_and!. split; [by constructor|done].
  - intros [H1 H2]. inversion H1; subst. constructor; [done|]. by apply IH.
Qed.

Lemma causal_snoc c l x : causal c (l ++ [x]) ↔ causal c l ∧ causally_next (join_of c l) (clk x).
Proof.
  rewrite causal_app. split; intros [H1 H2]; (split; [done|]).
  - by inversion H2.
  - constructor; [done|constructor].
Qed.

(** The owner of the clock plays no role. *)
Lemma causally_next_owner c c' t : vector c = vector c' → causally_next c t → causally_next c' t.
Proof. intros Hv (Hs & Hid & Hn). unfold causally_next, vsize in *. by rewrite <- Hv. Qed.

Lemma vc_update_owner c c' t : vector c = vector c' → vector (vc_update c t) = vector (vc_update c' t).
Proof. intros Hv. unfold vc_update, vsize. rewrite <- Hv. by case_match. Qed.

Lemma vector_join_of c c' l : vector c = vector c' → vector (join_of c l) = vector (join_of c' l).
Proof.
  revert c c'. induction l as [|x l IH]; intros c c' Hv; [done|]. simpl. by apply IH, vc_update_owner.
Qed.

Lemma causal_owner c c' l : vector c = vector c' → causal c l → causal c' l.
Proof.
  intros Hv Hc. revert c' Hv. induction Hc as [c|c x l Hn Hc IH]; intros c' Hv; constructor.
  - by eapply causally_next_owner.
  - by apply IH, vc_update_owner.
Qed.

Lemma join_of_mono c l : Forall (clock_ok (vsize c)) l → c ≤ᵥ join_of c l.
Proof.
  revert c. induction l as [|x l IH]; intros c Hl; [apply vle_refl|]. apply Forall_cons in Hl as [[Hs _] Hl].
  eapply vle_trans; [by apply vc_update_l|]. apply IH. by rewrite vsize_vc_update.
Qed.

Lemma join_of_upper c l x : Forall (clock_ok (vsize c)) l → x ∈ l → clk x ≤ᵥ join_of c l.
Proof.
  revert c. induction l as [|y l IH]; intros c Hl Hx; [by apply elem_of_nil in Hx|].
  apply Forall_cons in Hl as [[Hs _] Hl]. simpl.
  assert (Forall (clock_ok (vsize (vc_update c (clk y)))) l) as Hl' by (by rewrite vsize_vc_update).
  apply elem_of_cons in Hx as [->|Hx]; [|by apply IH].
  eapply vle_trans; [by apply vc_update_r|]. by apply join_of_mono.
Qed.

Lemma join_of_perm c l1 l2 : l1 ≡ₚ l2 → join_of c l1 = join_of c l2.
Proof. intros Hp. apply foldl_perm; [|done]. intros. apply vc_update_comm. Qed.

(** The next operation is not below the clock, so not below any operation
    applied before. *)
Lemma causally_next_new c t : causally_next c t → ¬ t ≤ᵥ c.
Proof.
  intros (Hs & Hid & Hn) Hle.
  destruct (aget_range (vector t) (vid t)) as (y & _ & Hy); [done|].
  destruct (vc_lookup_size t c _ _ (eq_sym Hs) Hy) as [x Hx].
  specialize (Hn _ _ _ Hx Hy). rewrite decide_True in Hn by lia.
  pose proof (vle_lookup _ _ _ _ _ Hle Hy Hx). lia.
Qed.

Lemma causal_not_above c l x y :
  Forall (clock_ok (vsize c)) l → causal c (l ++ [x]) → y ∈ l → ¬ clk x ≤ᵥ clk y.
Proof.
  intros Hl [_ Hn]%causal_snoc Hy Hle. apply (causally_next_new _ _ Hn).
  eapply vle_trans; [done|]. by apply join_of_upper.
Qed.

(** Applying a causally next operation raises its own component by one and no
    other. *)
Lemma causally_next_update c t k (x : Z) :
  causally_next c t → vector c !! k = Some x →
  vector (vc_update c t) !! k = Some (if decide (Z.of_nat k = vid t) then x + 1 else x).
Proof.
  intros (Hs & Hid & Hn) Hx. destruct (vc_lookup_size c t k x Hs Hx) as [y Hy].
  rewrite (vc_update_lookup c t k x y) by done. specialize (Hn k x y Hx Hy). f_equal. case_decide; lia.
Qed.

(** The number of operations a server has issued is its component. *)
Definition own (i : nat) l : list C := filter (λ x, vid (clk x) = Z.of_nat i) l.

Lemma causal_component c l i z :
  causal c l → vector c !! i = Some z →
  vector (join_of c l) !! i = Some (z + Z.of_nat (length (own i l))).
Proof.
  intros Hc. revert z. induction Hc as [c|c x l Hn Hc IH]; intros z Hz.
  { simpl. by rewrite Z.add_0_r. }
  unfold join_of. simpl. fold (join_of (vc_update c (clk x)) l).
  rewrite (IH _ (causally_next_update c (clk x) i z Hn Hz)). unfold own. rewrite filter_cons. f_equal.
  destruct (decide (vid (clk x) = Z.of_nat i)) as [He|He].
  - rewrite decide_True by done. simpl. lia.
  - rewrite decide_False by done. lia.
Qed.

(** The own component of an operation tells how many operations of its server
    were applied before it. *)
Lemma causal_rank c l1 x l2 (z y : Z) :
  causal c (l1 ++ x :: l2) → vector c !! Z.to_nat (vid (clk x)) = Some z →
  vector (clk x) !! Z.to_nat (vid (clk x)) = Some y →
  y = z + Z.of_nat (length (own (Z.to_nat (vid (clk x))) l1)) + 1.
Proof.
  intros [H1 H2]%causal_app Hz Hy. inversion H2 as [|? ? ? Hn _]; subst.
  pose proof (causal_component c l1 _ z H1 Hz) as Hj. destruct Hn as (_ & Hid & Hn).
  specialize (Hn _ _ _ Hj Hy). rewrite decide_True in Hn by lia. done.
Qed.

(** Later operations of a server have greater own components. *)
Lemma causal_rank_lt c l1 x l2 y l3 (a b : Z) :
  causal c (l1 ++ x :: l2 ++ y :: l3) → 0 ≤ vid (clk x) < vsize c → vid (clk x) = vid (clk y) →
  vector (clk x) !! Z.to_nat (vid (clk x)) = Some a → vector (clk y) !! Z.to_nat (vid (clk y)) = Some b → a < b.
Proof.
  intros Hc Hid Hv Ha Hb. destruct (aget_range (vector c) (vid (clk x))) as (z & _ & Hz); [done|].
  rewrite (causal_rank c l1 x _ z a Hc Hz Ha).
  assert (causal c ((l1 ++ x :: l2) ++ y :: l3)) as Hc' by (by rewrite <- app_assoc).
  rewrite Hv in Hz. rewrite (causal_rank c _ y _ z b Hc' Hz Hb), <- Hv. unfold own.
  rewrite filter_app, filter_cons_True, length_app by lia. simpl. lia.
Qed.

(** So no operation occurs twice. *)
Lemma causal_NoDup c l : Forall (clock_ok (vsize c)) l → causal c l → NoDup l.
Proof.
  intros Hok. induction l as [|x l IH] using rev_ind; intros Hc; [constructor|].
  apply Forall_app in Hok as [Hl Hx%Forall_singleton]. apply NoDup_app. split_and!.
  - apply IH; [done|]. by apply causal_snoc in Hc as [? _].
  - intros y Hy ->%list_elem_of_singleton. apply (causal_not_above c l x x); [done..|apply vle_refl].
  - apply NoDup_singleton.
Qed.

(** Every rank up to the component is taken. *)
Lemma causal_rank_exists c l i (z r : Z) :
  causal c l → vector c !! i = Some z → z < r ≤ z + Z.of_nat (length (own i l)) →
  ∃ x, x ∈ l ∧ vid (clk x) = Z.of_nat i ∧ vector (clk x) !! i = Some r.
Proof.
  intros Hc. revert z. induction Hc as [c|c x l Hn Hc IH]; intros z Hz Hr; [simpl in Hr; lia|].
  pose proof (causally_next_update c (clk x) i z Hn Hz) as Hz'. unfold own in Hr. rewrite filter_cons in Hr.
  destruct (decide (vid (clk x) = Z.of_nat i)) as [Hi|Hi].
  - rewrite decide_True in Hz' by lia. simpl in Hr. destruct (decide (r = z + 1)) as [->|Hne].
    + exists x. split; [by left|]. split; [done|]. destruct Hn as (Hs & _ & Hn).
      destruct (vc_lookup_size c (clk x) i z Hs Hz) as [y Hy]. specialize (Hn i z y Hz Hy).
      rewrite decide_True in Hn by lia. congruence.
    + destruct (IH _ Hz') as (y & Hy & ?); [unfold own; lia|]. exists y. split; [by right|done].
  - rewrite decide_False in Hz' by lia. destruct (IH _ Hz') as (y & Hy & ?); [unfold own; lia|].
    exists y. split; [by right|done].
Qed.

Lemma join_of_lub c l u : c ≤ᵥ u → (∀ x, x ∈ l → clk x ≤ᵥ u) → join_of c l ≤ᵥ u.
Proof.
  revert c. induction l as [|x l IH]; intros c Hc Hl; [done|]. simpl. apply IH.
  - apply vc_update_lub; [done|]. apply Hl. by left.
  - intros y Hy. apply Hl. by right.
Qed.

Lemma join_of_sub c l1 l2 : Forall (clock_ok (vsize c)) l2 → l1 ⊆ l2 → join_of c l1 ≤ᵥ join_of c l2.
Proof.
  intros Hok Hsub. apply join_of_lub; [by apply join_of_mono|]. intros x Hx. apply join_of_upper; [done|by apply Hsub].
Qed.

Lemma join_of_int32 c l : int32_clock c → Forall (clock_ok (vsize c)) l → int32_clock (join_of c l).
Proof.
  revert c. induction l as [|x l IH]; intros c Hc Hl; [done|]. apply Forall_cons in Hl as [[Hs [_ Hx]] Hl].
  simpl. apply IH; [|by rewrite vsize_vc_update]. unfold int32_clock. apply Forall_lookup. intros i y Hy.
  destruct (vc_lookup_size (vc_update c (clk x)) c i y) as [a Ha]; [apply vsize_vc_update|done|].
  destruct (vc_lookup_size c (clk x) i a) as [b Hb]; [done|done|].
  rewrite (vc_update_lookup c (clk x) i a b) in Hy by done. injection Hy as <-.
  pose proof (Forall_lookup_1 _ _ _ _ Hc Ha). pose proof (Forall_lookup_1 _ _ _ _ Hx Hb). simpl in *. lia.
Qed.

(** *** Nothing gets stuck *)

(** A history is causally complete when it can be applied in some order. *)
Definition complete c l : Prop := ∃ l', l' ≡ₚ l ∧ causal c l'.

Lemma complete_first `{!EqDecision C} l1 (Q : list C) :
  Q ≠ [] → Q ⊆ l1 →
  ∃ p x s, l1 = p ++ x :: s ∧ x ∈ Q ∧ ∀ y, y ∈ p → y ∉ Q.
Proof.
  intros Hne Hsub. destruct Q as [|q Q]; [done|]. clear Hne.
  assert (q ∈ l1) as Hq by (apply Hsub; by left). clear Hsub.
  induction l1 as [|a l1 IH]; [by apply elem_of_nil in Hq|]. destruct (decide (a ∈ q :: Q)) as [Ha|Ha].
  - exists [], a, l1. split_and!; [done..|]. by intros y ?%elem_of_nil.
  - destruct IH as (p & x & s & -> & Hx & Hp).
    { apply elem_of_cons in Hq as [->|?]; [|done]. exfalso. apply Ha. by left. }
    exists (a :: p), x, s. split_and!; [done..|]. intros y [->|Hy]%elem_of_cons; [done|by apply Hp].
Qed.

(** No server has the rank of [x] twice. *)
Lemma causal_rank_inj c p x s y (r : Z) :
  causal c (p ++ x :: s) → 0 ≤ vid (clk x) < vsize c → y ∈ p ++ x :: s → y ≠ x → vid (clk y) = vid (clk x) →
  vector (clk x) !! Z.to_nat (vid (clk x)) = Some r → vector (clk y) !! Z.to_nat (vid (clk x)) ≠ Some r.
Proof.
  intros Hc Hid Hy Hne Hv Hx Hr. rewrite <- Hv in Hr.
  apply elem_of_app in Hy as [(l1 & l2 & ->)%list_elem_of_split|[->|(l1 & l2 & ->)%list_elem_of_split]%elem_of_cons].
  - rewrite <- app_assoc in Hc. pose proof (causal_rank_lt c l1 y l2 x s r r Hc ltac:(lia) Hv Hr Hx). lia.
  - done.
  - pose proof (causal_rank_lt c p x l1 y l2 r r Hc Hid ltac:(done) Hx Hr). lia.
Qed.

(** Operations are told apart by their clocks. *)
Lemma causal_inj c l x y :
  causal c l → x ∈ l → y ∈ l → clock_ok (vsize c) x → clk x = clk y → x = y.
Proof.
  intros Hc (p & s & ->)%list_elem_of_split Hy (Hs & Hid & _) Heq.
  destruct (aget_range (vector (clk x)) (vid (clk x))) as (r & _ & Hr); [fold (vsize (clk x)); lia|].
  assert (vector (clk y) !! Z.to_nat (vid (clk y)) = Some r) as Hr' by (by rewrite <- Heq).
  apply elem_of_app in Hy as [(l1 & l2 & ->)%list_elem_of_split|[->|(l1 & l2 & ->)%list_elem_of_split]%elem_of_cons].
  - rewrite <- app_assoc in Hc. pose proof (causal_rank_lt c l1 y l2 x s r r Hc ltac:(by rewrite <- Heq) ltac:(by rewrite Heq) Hr' Hr). lia.
  - done.
  - pose proof (causal_rank_lt c p x l1 y l2 r r Hc Hid ltac:(by rewrite Heq) Hr Hr'). lia.
Qed.

(** If part [L] of a causally complete history has been applied in causal order,
    some operation of the rest [Q] can be applied next. *)
Lemma complete_ready `{!EqDecision C} c L Q :
  Forall (clock_ok (vsize c)) (L ++ Q) → complete c (L ++ Q) → causal c L → Q ≠ [] →
  ∃ x, x ∈ Q ∧ causally_next (join_of c L) (clk x).
Proof.
  intros Hok (l' & Hp & Hc) HL HQ.
  assert (NoDup (L ++ Q)) as Hnd.
  { rewrite <- Hp. apply (causal_NoDup c); [by rewrite Hp|done]. }
  destruct (complete_first l' Q HQ) as (p & x & s & -> & Hx & Hpre).
  { intros x Hx. rewrite Hp. apply elem_of_app. by right. }
  exists x. split; [done|]. rewrite Forall_app in Hok. destruct Hok as [HokL HokQ].
  pose proof (proj1 (Forall_forall _ _) HokQ x Hx) as (Hs & Hid & _).
  assert (p ⊆ L) as Hsub.
  { intros y Hy. assert (y ∈ L ++ Q) as HyD by (rewrite <- Hp; apply elem_of_app; by left).
    apply elem_of_app in HyD as [?|HyQ]; [done|]. by apply Hpre in HyQ. }
  pose proof (join_of_sub c p L HokL Hsub) as Hle.
  pose proof (proj1 (causal_app c p (x :: s)) Hc) as [Hcp Hcx].
  inversion Hcx as [|? ? ? (_ & _ & Hn) _]; subst. split_and!; [by rewrite vsize_join_of|lia|lia|].
  intros k a y Ha Hy. destruct (vc_lookup_size (join_of c L) (join_of c p) k a) as [b Hb]; [by rewrite !vsize_join_of|done|].
  pose proof (vle_lookup _ _ _ _ _ Hle Hb Ha) as Hba. specialize (Hn k b y Hb Hy). case_decide as Hk; [|lia].
  destruct (vc_lookup_size (join_of c L) c k a) as [z Hz]; [by rewrite !vsize_join_of|done|].
  pose proof (causal_component c L k z HL Hz) as Hcomp. rewrite Ha in Hcomp. injection Hcomp as ->.
  destruct (decide (y ≤ z + Z.of_nat (length (own k L)))) as [Hge|]; [|lia]. exfalso.
  pose proof (causal_component c p k z Hcp Hz) as Hcb. rewrite Hb in Hcb. injection Hcb as ->.
  destruct (causal_rank_exists c L k z y HL Hz) as (u & Hu & Huv & Hur); [lia|].
  assert (k = Z.to_nat (vid (clk x))) as -> by lia.
  eapply (causal_rank_inj c p x s u y); [done..| | |lia|done|done].
  - rewrite Hp. apply elem_of_app. by left.
  - intros ->. apply NoDup_app in Hnd as (_ & Hd & _). by apply (Hd x).
Qed.
End causal.

(** ** The queue *)

Section queue.
Context {P T V O : Type}.
Context (apply : rwe P T V → cmd T V → option (rwe P T V * zact)).
Context (act_on : O → zact → O) (St : list (cmd T V) → rws P → O → Prop) (good : list (cmd T V) → Prop) (c0 : vc).
Implicit Types (e : rwe P T V) (o : O) (D L : list (cmd T V)).

(** What applying one operation in causal order does. *)
Context (apply_ok : ∀ L e o x,
  good (L ++ [x]) → causal cmd_t c0 (L ++ [x]) → e_current e = join_of cmd_t c0 L → St L (e_sets e) o →
  ∃ e' act, apply e x = Some (e', act) ∧ e_current e' = vc_update (e_current e) (cmd_t x) ∧
    e_ops e' = e_ops e ∧ St (L ++ [x]) (e_sets e') (act_on o act)).
Context (good_sub : ∀ l1 l2, l1 ⊆ l2 → good l2 → good l1).
Context (good_clocks : ∀ l, good l → Forall (clock_ok cmd_t (vsize c0)) l).
Context (c0_int32 : int32_clock c0).

(** The element has applied [L] in causal order; the other operations of [D]
    are queued, and so are none that could be applied. *)
Record partly D L e o : Prop := {
  q_perm : L ++ e_ops e ≡ₚ D;
  q_causal : causal cmd_t c0 L;
  q_current : e_current e = join_of cmd_t c0 L;
  q_state : St L (e_sets e) o
}.

Definition stuck e : Prop := Forall (λ x, ¬ causally_next (e_current e) (cmd_t x)) (e_ops e).

Lemma ready_spec D L e o x :
  partly D L e o → good D → good [x] →
  ∃ b, vc_causally_ready (e_current e) (cmd_t x) = Some b ∧ (b = true ↔ causally_next (e_current e) (cmd_t x)).
Proof.
  intros Q HD Hx. apply good_clocks in Hx. apply Forall_singleton in Hx as (Hs & Hid & _). destruct Q as [Hp _ -> _].
  apply vc_causally_ready_spec; [by rewrite vsize_join_of|lia|]. apply join_of_int32; [done|].
  apply good_clocks in HD. rewrite <- Hp in HD. by apply Forall_app in HD as [? _].
Qed.

Lemma take_ready_spec c (ops : list (cmd T V)) :
  (∀ x, x ∈ ops → ∃ b, vc_causally_ready c (cmd_t x) = Some b ∧ (b = true ↔ causally_next c (cmd_t x))) →
  (take_ready c ops = Some None ∧ Forall (λ x, ¬ causally_next c (cmd_t x)) ops) ∨
  ∃ l1 x l2, ops = l1 ++ x :: l2 ∧ take_ready c ops = Some (Some (x, l1 ++ l2)) ∧ causally_next c (cmd_t x).
Proof using Type.
  induction ops as [|x ops IH]; intros Hr; [by left|]. destruct (Hr x) as (b & Hb & Hiff); [by left|].
  simpl. rewrite Hb. simpl. destruct b.
  { right. exists [], x, ops. split_and!; [done..|]. by apply Hiff. }
  destruct IH as [[-> Hf]|(l1 & y & l2 & -> & -> & Hy)]; [intros y Hy; apply Hr; by right|..]; simpl.
  - left. split; [done|]. constructor; [|done]. intros Hn. by apply Hiff in Hn.
  - right. by exists (x :: l1), y, l2.
Qed.

Lemma partly_apply D L e o x rest :
  partly D L e o → good D → e_ops e ≡ₚ x :: rest → causally_next (e_current e) (cmd_t x) →
  ∃ e' act, apply e x = Some (e', act) ∧ e_ops e' = e_ops e ∧
    partly D (L ++ [x]) (rw_set_ops e' rest) (act_on o act).
Proof using apply_ok good_sub.
  intros [Hp Hc Hcur HSt] HD Hops Hx. rewrite Hcur in Hx.
  assert (causal cmd_t c0 (L ++ [x])) as Hc' by (by apply causal_snoc).
  destruct (apply_ok L e o x) as (e' & act & Hap & Hcur' & Hops' & HSt'); [|done..|].
  { eapply good_sub; [|exact HD]. intros y Hy. rewrite <- Hp, Hops.
    apply elem_of_app in Hy as [?|Hy%list_elem_of_singleton]; apply elem_of_app; [by left|]. right. rewrite Hy. by left. }
  exists e', act. split; [done|]. split; [done|]. split; simpl; [|done| |done].
  - rewrite <- Hp, Hops, <- app_assoc. done.
  - by rewrite Hcur', Hcur, join_of_app.
Qed.

Lemma partly_ready D L e o :
  partly D L e o → good D → ∀ x, x ∈ e_ops e →
  ∃ b, vc_causally_ready (e_current e) (cmd_t x) = Some b ∧ (b = true ↔ causally_next (e_current e) (cmd_t x)).
Proof.
  intros Q HD x Hx. eapply ready_spec; [done..|]. eapply good_sub; [|exact HD].
  intros y ->%list_elem_of_singleton. rewrite <- (q_perm _ _ _ _ Q). apply elem_of_app. by right.
Qed.

(** [notifyLoop] ends within its fuel, and leaves nothing that could be
    applied. *)
Lemma notifyLoop_spec D fuel L e o :
  partly D L e o → good D → (length (e_ops e) < fuel)%nat →
  ∃ L' e' acts, rw_notifyLoop apply fuel e = Some (e', acts) ∧
    partly D L' e' (foldl act_on o acts) ∧ stuck e'.
Proof.
  revert L e o. induction fuel as [|fuel IH]; intros L e o Q HD Hf; [lia|]. simpl.
  destruct (take_ready_spec (e_current e) (e_ops e)) as [[-> Hst]|(l1 & x & l2 & Hops & -> & Hx)];
    [by eapply partly_ready|..]; simpl.
  { by exists L, e, []. }
  destruct (partly_apply D L e o x (l1 ++ l2) Q HD) as (e' & act & -> & Hops' & Q'); [|done|].
  { rewrite Hops. symmetry. apply Permutation_middle. }
  simpl. destruct (IH _ _ _ Q' HD) as (L' & e'' & acts & -> & Q'' & Hst).
  { simpl. rewrite Hops in Hf. rewrite length_app in *. simpl in Hf. lia. }
  simpl. by exists L', e'', (act :: acts).
Qed.

Lemma rw_effect_spec D L e o x :
  partly D L e o → stuck e → good (D ++ [x]) →
  ∃ L' e' acts, rw_effect apply e x = Some (e', acts) ∧
    partly (D ++ [x]) L' e' (foldl act_on o acts) ∧ stuck e'.
Proof.
  intros Q Hst HD. unfold rw_effect.
  assert (good D) as HD' by (eapply good_sub; [|exact HD]; intros y Hy; apply elem_of_app; by left).
  assert (good [x]) as Hx by (eapply good_sub; [|exact HD]; intros y Hy; apply elem_of_app; by right).
  destruct (ready_spec D L e o x Q HD' Hx) as (b & -> & Hb). cbn -[rw_notifyLoop]. destruct b.
  - (* applied at once, then what it makes ready *)
    destruct (apply_ok L e o x) as (e1 & act & -> & Hcur & Hops & HSt); [|apply causal_snoc; split; [apply Q|]|apply Q..|].
    { eapply good_sub; [|exact HD]. intros y Hy. apply elem_of_app in Hy as [Hy|Hy]; apply elem_of_app; [left|by right].
      rewrite <- (q_perm _ _ _ _ Q). apply elem_of_app. by left. }
    { rewrite <- (q_current _ _ _ _ Q). by apply Hb. }
    cbn -[rw_notifyLoop]. destruct (notifyLoop_spec (D ++ [x]) (S (length (e_ops e1))) (L ++ [x]) e1 (act_on o act))
      as (L' & e2 & acts & -> & Q2 & Hst2); [|done|lia|simpl; by exists L', e2, (act :: acts)].
    destruct Q as [Hp Hc Hcu HS]. split; simpl; [|apply causal_snoc; split; [done|]| |done].
    + rewrite Hops, <- Hp, <- !app_assoc. apply Permutation_app_head, Permutation_app_comm.
    + rewrite <- Hcu. by apply Hb.
    + by rewrite Hcur, Hcu, join_of_app.
  - exists L, (rw_set_ops e (e_ops e ++ [x])), []. split; [done|].
    destruct Q as [Hp ? ? ?]. split; [split; simpl; [by rewrite app_assoc, Hp|done..]|].
    unfold stuck. simpl. apply Forall_app. split; [done|]. apply Forall_singleton. intros Hn. by apply Hb in Hn.
Qed.

(** A causally complete history is applied completely. *)
Lemma partly_complete `{!EqDecision T, !EqDecision V} D L e o :
  partly D L e o → stuck e → good D → complete cmd_t c0 D → e_ops e = [] ∧ L ≡ₚ D.
Proof using good_clocks.
  intros [Hp Hc Hcur _] Hst HD (l' & Hl' & Hc'). apply good_clocks in HD.
  assert (EqDecision (cmd T V)) as Heq by solve_decision.
  destruct (e_ops e) as [|q Q] eqn:Hq; [split; [done|by rewrite <- Hp, app_nil_r]|]. exfalso.
  destruct (complete_ready cmd_t c0 L (q :: Q)) as (x & Hx & Hn); [by rewrite Hp| |done..|].
  - exists l'. split; [by rewrite Hl', Hp|done].
  - rewrite <- Hcur in Hn. unfold stuck in Hst. rewrite Hq in Hst. by apply (proj1 (Forall_forall _ _) Hst x Hx).
Qed.
End queue.
