(* ===== verification/RemoveWinRep.v ===== *)
(** * What the remove-win core computes

    After operations have been applied in causal order, the add set holds the
    adds that no later add or remove has seen, the remove set the removes that
    no later add has seen, and the pointer [value] is the add of the greatest
    server id. *)

From S2P Require Import Prelude.
From S2P Require Import Sds.
From S2P Require Import VectorClock.
From S2P Require Import Double.
From S2P Require Import Skiplist.
From S2P Require Import Zset.
From S2P Require Import ZsetRep.
From S2P Require Import Server.
From S2P Require Import Container.
From S2P Require Import TagSet.
From S2P Require Import RemoveWin.
From S2P Require Import Causal.

#[local] Open Scope Z_scope.
#[local] Open Scope crdt_scope.

(** ** The loops *)

Section loops.
Context {P : Type}.
Implicit Types (e : rws P) (a b : ase P) (l : list (ase P)) (t : vc).

Abbreviation unseen t := (λ t', seen_by t t' = false).

Lemma drop_seen_list t v l : (drop_seen t v l).1 = filter (λ a, seen_by t (a_t a) = false) l.
Proof.
  revert v. induction l as [|a l IH]; intros v; [done|]. simpl. rewrite filter_cons.
  destruct (seen_by t (a_t a)); case_decide; try done. specialize (IH v).
  destruct (drop_seen t v l). simpl in *. by f_equal.
Qed.

Lemma drop_seen_value t v l :
  ((drop_seen t v l).2 = None ∧ (v = None ∨ ∃ a, a ∈ l ∧ v = Some (a_addr a) ∧ seen_by t (a_t a) = true)) ∨
  ((drop_seen t v l).2 = v ∧ ∀ a, a ∈ l → v = Some (a_addr a) → seen_by t (a_t a) = false).
Proof.
  revert v. induction l as [|a l IH]; intros v; simpl; [right; split; [done|]; by intros ? ?%elem_of_nil|].
  destruct (seen_by t (a_t a)) eqn:Hs.
  - case_decide as Hv.
    + left. split; [|right; exists a; split; [by left|done]]. destruct (IH None) as [[? _]|[? _]]; done.
    + destruct (IH v) as [[Hn Hor]|[Hn Hall]].
      * left. split; [done|]. destruct Hor as [?|(b & ? & ?)]; [by left|]. right. exists b. split; [by right|done].
      * right. split; [done|]. intros b [->|Hb]%elem_of_cons; [done|by apply Hall].
  - specialize (IH v). destruct (drop_seen t v l) as [l'' v']. simpl in *. destruct IH as [[Hn Hor]|[Hn Hall]].
    + left. split; [done|]. destruct Hor as [?|(b & ? & ?)]; [by left|]. right. exists b. split; [by right|done].
    + right. split; [done|]. intros b [->|Hb]%elem_of_cons; [done|by apply Hall].
Qed.

Lemma drop_seen_rset_list t (l : list vc) : drop_seen_rset t l = filter (λ r, seen_by t r = false) l.
Proof.
  induction l as [|r l IH]; [done|]. simpl. rewrite filter_cons. destruct (seen_by t r); case_decide; try done.
  by f_equal.
Qed.

Lemma pick_spec v l :
  match pick v l with
  | None => v = None ∧ l = []
  | Some a => (v = Some a ∨ a ∈ l) ∧ ∀ b, v = Some b ∨ b ∈ l → vid (a_t b) ≤ vid (a_t a)
  end.
Proof.
  revert v. induction l as [|a l IH]; intros v; simpl.
  { destruct v; [|done]. split; [by left|]. intros b [[= <-]|?%elem_of_nil]; [lia|done]. }
  match goal with |- context [pick ?v' l] => specialize (IH v'); destruct (pick v' l) as [c|] end.
  - destruct IH as [Hc Hmax]. destruct v as [x|].
    + destruct (Z.ltb_spec (vid (a_t x)) (vid (a_t a))).
      * split; [right; destruct Hc as [[= ->]|?]; [by left|by right]|].
        pose proof (Hmax a (or_introl eq_refl)). intros b [[= <-]|[->|Hb]%elem_of_cons]; [lia|lia|apply Hmax; by right].
      * split; [destruct Hc; [by left|right; by right]|].
        pose proof (Hmax x (or_introl eq_refl)). intros b [[= <-]|[->|Hb]%elem_of_cons]; [lia|lia|apply Hmax; by right].
    + split; [right; destruct Hc as [[= ->]|?]; [by left|by right]|].
      intros b [?|[->|Hb]%elem_of_cons]; [done|apply Hmax; by left|apply Hmax; by right].
  - destruct IH as [Hn _]. destruct v; [|done]. by destruct (_ <? _).
Qed.

(** ** The pointer *)

(** Entries at distinct addresses, the pointer at one with the greatest
    server id. *)
Definition value_ok (v : option nat) l : Prop :=
  NoDup (a_addr <$> l) ∧
  match v with
  | None => l = []
  | Some p => ∃ a, a ∈ l ∧ a_addr a = p ∧ ∀ b, b ∈ l → vid (a_t b) ≤ vid (a_t a)
  end.

Lemma value_ok_pick l : NoDup (a_addr <$> l) → value_ok (a_addr <$> pick None l) l.
Proof.
  intros Hnd. split; [done|]. pose proof (pick_spec None l) as Hp. destruct (pick None l) as [a|]; simpl.
  - destruct Hp as [[?|Ha] Hmax]; [done|]. exists a. split_and!; [done..|]. intros b Hb. apply Hmax. by right.
  - by destruct Hp.
Qed.

(** Dropping entries either resets the pointer or leaves it right. *)
Lemma value_ok_drop t v l :
  value_ok v l → let l' := filter (λ a, seen_by t (a_t a) = false) l in
  (drop_seen t v l).2 = None ∨ value_ok (drop_seen t v l).2 l'.
Proof.
  intros [Hnd Hv] l'. destruct (drop_seen_value t v l) as [[-> _]|[-> Hall]]; [by left|].
  destruct v as [p|]; [|by left]. right. split; [by apply NoDup_fmap_filter|].
  destruct Hv as (a & Ha & <- & Hmax). exists a. split_and!; [|done|].
  - apply list_elem_of_filter. split; [by apply Hall|done].
  - intros b [_ Hb]%list_elem_of_filter. by apply Hmax.
Qed.

Lemma rw_remove_spec e t :
  value_ok (s_value e) (s_aset e) →
  let e' := rw_remove e t in
  s_aset e' = filter (λ a, seen_by t (a_t a) = false) (s_aset e) ∧ s_rset e' = s_rset e ++ [t] ∧
  value_ok (s_value e') (s_aset e').
Proof.
  intros Hv. unfold rw_remove. pose proof (drop_seen_list t (s_value e) (s_aset e)) as Hl.
  pose proof (value_ok_drop t _ _ Hv) as Hd. destruct (drop_seen t (s_value e) (s_aset e)) as [l v]. simpl in *.
  unfold vc_dup. rewrite <- (vc_eta t). split_and!; [done..|]. subst l.
  destruct v as [p|]; [destruct Hd as [Hd|Hd]; [discriminate|exact Hd]|]. apply value_ok_pick, NoDup_fmap_filter, Hv.
Qed.

Lemma seen_by_refl t : seen_by t t = false.
Proof.
  unfold seen_by. apply Z.eqb_neq. intros H. apply (vlt_irrefl t), (vc_cmp_less t t); [done| |done].
  right. left. apply vle_refl.
Qed.

(** After the new entry. *)
Lemma value_ok_snoc v l a :
  value_ok v l → (∀ b, b ∈ l → a_addr b ≠ a_addr a) → ∃ v',
  match v with
  | None => Some (a_addr a)
  | Some q => x ← rw_deref (l ++ [a]) q; Some (if vid (a_t x) <? vid (a_t a) then a_addr a else q)
  end = Some v' ∧ value_ok (Some v') (l ++ [a]).
Proof.
  intros [Hnd Hv] Hne.
  assert (NoDup (a_addr <$> l ++ [a])) as Hnd'.
  { rewrite fmap_app. apply NoDup_app. split_and!; [done| |by apply NoDup_singleton].
    intros p (b & -> & Hb)%list_elem_of_fmap Hp. simpl in Hp. apply list_elem_of_singleton in Hp. by apply (Hne b). }
  assert (a ∈ l ++ [a]) as Ha by (apply elem_of_app; right; by left). destruct v as [q|].
  - destruct Hv as (x & Hx & <- & Hmax).
    assert (x ∈ l ++ [a]) as Hx' by (apply elem_of_app; by left).
    unfold rw_deref. rewrite (deref_unique a_addr _ x Hnd' Hx'). simpl. eexists. split; [done|]. split; [done|].
    destruct (Z.ltb_spec (vid (a_t x)) (vid (a_t a))); [exists a|exists x]; (split_and!; [done..|]);
      intros b [Hb%Hmax|Hb%list_elem_of_singleton]%elem_of_app; subst; lia.
  - subst l. eexists. split; [done|]. split; [done|]. exists a. split_and!; [done..|].
    intros b ->%list_elem_of_singleton. lia.
Qed.

(** The pointer after the drop loop of an add. *)
Lemma rw_add_value e t a :
  value_ok (s_value e) (s_aset e) → seen_by t (a_t a) = false →
  let l0 := filter (λ a, seen_by t (a_t a) = false) (s_aset e) in
  let v := (drop_seen t (s_value e) (s_aset e ++ [a])).2 in
  value_ok v l0 ∨ (v = None ∧ (length l0 < length (s_aset e))%nat).
Proof.
  intros [Hnd Hv] Ha l0 v. unfold v.
  destruct (drop_seen_value t (s_value e) (s_aset e ++ [a])) as [[-> Hor]|[-> Hall]].
  - destruct Hor as [Hn|(b & Hb & _ & Hs)].
    + left. rewrite Hn in Hv. unfold l0. rewrite Hv. by split; [constructor|].
    + right. split; [done|]. apply elem_of_app in Hb as [Hb|Hb%list_elem_of_singleton]; [|congruence].
      apply (length_filter_lt _ _ b); [done|congruence].
  - left. split; [by apply NoDup_fmap_filter|]. destruct (s_value e) as [r|]; [|unfold l0; by rewrite Hv].
    destruct Hv as (b & Hb & <- & Hmax). exists b. split_and!; [|done|].
    + apply list_elem_of_filter. split; [|done]. apply Hall; [apply elem_of_app; by left|done].
    + intros x [_ Hx]%list_elem_of_filter. by apply Hmax.
Qed.

Lemma rw_add_spec e t (p : P) :
  value_ok (s_value e) (s_aset e) →
  ∃ e' q, rw_add e t p = Some e' ∧
    s_aset e' = filter (λ a, seen_by t (a_t a) = false) (s_aset e) ++ [mkAse q t p] ∧
    s_rset e' = filter (λ r, seen_by t r = false) (s_rset e) ∧ value_ok (s_value e') (s_aset e').
Proof.
  intros Hv. unfold rw_add, vc_dup. rewrite <- (vc_eta t). set (q := fresh_addr a_addr (s_aset e)).
  set (l0 := filter (λ a, seen_by t (a_t a) = false) (s_aset e)).
  assert (∀ b, b ∈ s_aset e → a_addr b ≠ q) as Hq.
  { intros b Hb. pose proof (fresh_addr_gt a_addr _ _ Hb). unfold q. lia. }
  pose proof (drop_seen_list t (s_value e) (s_aset e ++ [mkAse q t p])) as Hl.
  rewrite filter_app, filter_cons_True, filter_nil in Hl by apply seen_by_refl. fold l0 in Hl.
  pose proof (rw_add_value e t (mkAse q t p) Hv) as Hval.
  destruct (drop_seen t (s_value e) (s_aset e ++ [mkAse q t p])) as [l v]. simpl in Hl, Hval. subst l.
  rewrite drop_seen_rset_list. fold l0 in Hval. destruct (Hval (seen_by_refl t)) as [Hval'|[-> Hlen]]; clear Hval; [rename Hval' into Hval|].
  - destruct (value_ok_snoc v l0 (mkAse q t p) Hval) as (v' & Hv' & Hok).
    { intros b [_ Hb]%list_elem_of_filter. by apply Hq. }
    destruct v as [r|]; simpl in Hv' |- *; [rewrite Hv'; simpl; by eexists _, q|].
    injection Hv' as <-. destruct Hval as [_ Hnil]. rewrite Hnil in *. eexists _, q. split.
    { destruct (negb _); simpl; [|done]. unfold rw_deref. simpl. rewrite Nat.eqb_refl. simpl. by rewrite Z.ltb_irrefl. }
    done.
  - rewrite (proj2 (Nat.eqb_neq _ _)) by (rewrite !length_app; simpl; lia). simpl.
    assert (value_ok (a_addr <$> pick None (l0 ++ [mkAse q t p])) (l0 ++ [mkAse q t p])) as Hpick.
    { apply value_ok_pick. destruct (value_ok_snoc (a_addr <$> pick None l0) l0 (mkAse q t p)) as (? & _ & [? _]); [|..|done].
      - apply value_ok_pick, NoDup_fmap_filter, Hv.
      - intros b [_ Hb]%list_elem_of_filter. by apply Hq. }
    destruct (pick None (l0 ++ _)) as [c|]; simpl in *; [|by destruct Hpick as [_ [_ ?]%app_eq_nil]].
    destruct Hpick as [Hnd (c' & Hc & Hcc & Hmax)]. rewrite <- Hcc. unfold rw_deref.
    rewrite (deref_unique a_addr _ c' Hnd Hc). simpl. eexists _, q. split; [done|]. split_and!; [done..|]. simpl.
    rewrite (proj2 (Z.ltb_ge _ _)) by (apply (Hmax (mkAse q t p)), elem_of_app; right; by left). split; [done|].
    by exists c'.
Qed.
End loops.

(** ** Histories *)

(** What an operation does to the sets. *)
Inductive rw_kind := KAdd | KInc | KRem.

#[global] Instance rw_kind_eq_dec : EqDecision rw_kind.
Proof. solve_decision. Defined.

Section clocks.
Context {T V : Type}.
Implicit Types (L : list (cmd T V)) (x y : cmd T V).

(** Operations of one server are ordered. *)
Definition ordered L : Prop :=
  ∀ x y, x ∈ L → y ∈ L → vid (cmd_t x) = vid (cmd_t y) → cmd_t x ≤ᵥ cmd_t y ∨ cmd_t y ≤ᵥ cmd_t x.

Definition rw_good (n : Z) L : Prop := Forall (clock_ok cmd_t n) L ∧ ordered L.

Lemma rw_good_sub n L1 L2 : L1 ⊆ L2 → rw_good n L2 → rw_good n L1.
Proof.
  intros Hs [Hc Ho]. split; [|intros x y Hx Hy; apply Ho; by apply Hs].
  apply Forall_forall. intros x Hx. by apply (proj1 (Forall_forall _ _) Hc), Hs.
Qed.

Lemma seen_by_spec n L x y :
  rw_good n L → x ∈ L → y ∈ L → seen_by (cmd_t x) (cmd_t y) = false ↔ ¬ cmd_t y <ᵥ cmd_t x.
Proof.
  intros [Hc Ho] Hx Hy. unfold seen_by. rewrite Z.eqb_neq, vc_cmp_less; [done|..].
  - pose proof (proj1 (Forall_forall _ _) Hc x Hx) as [-> _]. by pose proof (proj1 (Forall_forall _ _) Hc y Hy) as [-> _].
  - destruct (decide (vid (cmd_t y) = vid (cmd_t x))) as [He|]; [right|by left]. by apply Ho.
Qed.

(** The next operation is below none before it. *)
Lemma next_not_below c0 n L x y :
  rw_good n (L ++ [x]) → vsize c0 = n → causal cmd_t c0 (L ++ [x]) → y ∈ L ++ [x] → ¬ cmd_t x <ᵥ cmd_t y.
Proof.
  intros [Hc _] <- Hcau Hy Hlt. apply elem_of_app in Hy as [Hy|Hy%list_elem_of_singleton].
  - apply Forall_app in Hc as [Hc _]. eapply (causal_not_above cmd_t c0 L x y); [done..|]. by destruct Hlt.
  - subst. by apply vlt_irrefl in Hlt.
Qed.

End clocks.

Section histories.
Context {P T V : Type} (kind : T → rw_kind).
Implicit Types (L : list (cmd T V)) (x y : cmd T V) (e : rws P).

(** The adds that no add or remove has seen, and the removes that no add has
    seen. *)
Definition live L : list (cmd T V) :=
  filter (λ x, kind (cmd_type x) = KAdd ∧ Forall (λ y, kind (cmd_type y) = KInc ∨ ¬ cmd_t x <ᵥ cmd_t y) L) L.

Definition open_rems L : list (cmd T V) :=
  filter (λ x, kind (cmd_type x) = KRem ∧ Forall (λ y, kind (cmd_type y) ≠ KAdd ∨ ¬ cmd_t x <ᵥ cmd_t y) L) L.

Section step.
Context (n : Z) (L : list (cmd T V)) (x : cmd T V).
Context (Hgood : rw_good n (L ++ [x])) (Hnew : ∀ y, y ∈ L ++ [x] → ¬ cmd_t x <ᵥ cmd_t y).

Abbreviation keep := (λ y, seen_by (cmd_t x) (cmd_t y) = false).

Lemma keep_spec y : y ∈ L → keep y ↔ ¬ cmd_t y <ᵥ cmd_t x.
Proof using Hgood.
  clear kind. intros Hy. apply (seen_by_spec n (L ++ [x])); [done|apply elem_of_app; right; by left|apply elem_of_app; by left].
Qed.

Lemma live_snoc :
  live (L ++ [x]) = match kind (cmd_type x) with
                    | KAdd => filter keep (live L) ++ [x]
                    | KInc => live L
                    | KRem => filter keep (live L)
                    end.
Proof.
  unfold live. rewrite filter_app.
  assert (filter (λ y, kind (cmd_type y) = KAdd ∧ Forall (λ z, kind (cmd_type z) = KInc ∨ ¬ cmd_t y <ᵥ cmd_t z) (L ++ [x])) [x]
    = match kind (cmd_type x) with KAdd => [x] | _ => [] end) as ->.
  { rewrite filter_cons, filter_nil. destruct (kind (cmd_type x)) eqn:Hk; case_decide as Hd; try done; try (by destruct Hd).
    exfalso. apply Hd. split; [done|]. apply Forall_forall. intros y Hy. right. by apply Hnew. }
  destruct (kind (cmd_type x)) eqn:Hk; rewrite ?app_nil_r, ?list_filter_filter; [f_equal|..];
    apply filter_iff_in; intros y Hy; rewrite Forall_app, Forall_singleton, Hk; pose proof (keep_spec y Hy); naive_solver.
Qed.

Lemma open_rems_snoc :
  open_rems (L ++ [x]) = match kind (cmd_type x) with
                         | KAdd => filter keep (open_rems L)
                         | KInc => open_rems L
                         | KRem => open_rems L ++ [x]
                         end.
Proof.
  unfold open_rems. rewrite filter_app.
  assert (filter (λ y, kind (cmd_type y) = KRem ∧ Forall (λ z, kind (cmd_type z) ≠ KAdd ∨ ¬ cmd_t y <ᵥ cmd_t z) (L ++ [x])) [x]
    = match kind (cmd_type x) with KRem => [x] | _ => [] end) as ->.
  { rewrite filter_cons, filter_nil. destruct (kind (cmd_type x)) eqn:Hk; case_decide as Hd; try done; try (by destruct Hd).
    exfalso. apply Hd. split; [done|]. apply Forall_forall. intros y Hy. right. by apply Hnew. }
  destruct (kind (cmd_type x)) eqn:Hk; rewrite ?app_nil_r, ?list_filter_filter; [..|f_equal];
    apply filter_iff_in; intros y Hy; rewrite Forall_app, Forall_singleton, Hk; pose proof (keep_spec y Hy); naive_solver.
Qed.

(** *** The sets *)

Context (pay : list (cmd T V) → cmd T V → P).

(** The sets after the operations [L], where [pay L x] is what the entry of
    the add [x] carries. *)
Record rw_shape (L : list (cmd T V)) e : Prop := {
  sh_aset : (λ a, (a_t a, a_val a)) <$> s_aset e = (λ y, (cmd_t y, pay L y)) <$> live L;
  sh_rset : s_rset e = cmd_t <$> open_rems L;
  sh_value : value_ok (s_value e) (s_aset e)
}.

Lemma filter_fmap_pair {A B C} (f : A → C) (g : B → C) (Q : C → Prop) `{!∀ c, Decision (Q c)} (l1 : list A) (l2 : list B) :
  f <$> l1 = g <$> l2 → f <$> filter (λ a, Q (f a)) l1 = g <$> filter (λ b, Q (g b)) l2.
Proof using Type.
  revert l2. induction l1 as [|a l1 IH]; intros [|b l2]; try done. intros [= Hh Ht]. rewrite !filter_cons.
  apply IH in Ht. destruct (decide (Q (f a))) as [H1|H1], (decide (Q (g b))) as [H2|H2]; rewrite Hh in H1; try done.
  rewrite !fmap_cons. by f_equal.
Qed.

Lemma shape_filter e :
  rw_shape L e →
  (λ a, (a_t a, a_val a)) <$> filter (λ a, seen_by (cmd_t x) (a_t a) = false) (s_aset e)
  = (λ y, (cmd_t y, pay L y)) <$> filter keep (live L).
Proof using Type.
  intros [Ha _ _]. exact (filter_fmap_pair _ _ (λ p, seen_by (cmd_t x) p.1 = false) _ _ Ha).
Qed.

Lemma shape_add e (p : P) :
  kind (cmd_type x) = KAdd → rw_shape L e → (∀ y, y ∈ L → pay (L ++ [x]) y = pay L y) → pay (L ++ [x]) x = p →
  ∃ e', rw_add e (cmd_t x) p = Some e' ∧ rw_shape (L ++ [x]) e'.
Proof.
  intros Hk Hsh Hpay Hp. destruct (rw_add_spec e (cmd_t x) p (sh_value _ _ Hsh)) as (e' & q & Hadd & Has & Hrs & Hval).
  exists e'. split; [done|]. pose proof live_snoc as Hl. pose proof open_rems_snoc as Hr. rewrite Hk in Hl, Hr.
  split; [|rewrite Hrs, Hr, (sh_rset _ _ Hsh)|done].
  - rewrite Has, Hl, !fmap_app, (shape_filter e Hsh). simpl. rewrite Hp. f_equal.
    apply list_fmap_ext. intros i y [_ [_ Hy]%list_elem_of_filter]%list_elem_of_lookup_2%list_elem_of_filter. by rewrite Hpay.
  - clear. induction (open_rems L) as [|y l IH]; [done|]. rewrite fmap_cons, !filter_cons.
    case_decide; [rewrite fmap_cons; by f_equal|done].
Qed.

Lemma shape_remove e :
  kind (cmd_type x) = KRem → rw_shape L e → (∀ y, y ∈ L → pay (L ++ [x]) y = pay L y) →
  rw_shape (L ++ [x]) (rw_remove e (cmd_t x)).
Proof.
  intros Hk Hsh Hpay. destruct (rw_remove_spec e (cmd_t x) (sh_value _ _ Hsh)) as (Has & Hrs & Hval).
  pose proof live_snoc as Hl. pose proof open_rems_snoc as Hr. rewrite Hk in Hl, Hr.
  split; [|by rewrite Hrs, Hr, (sh_rset _ _ Hsh), fmap_app|done].
  rewrite Has, Hl, (shape_filter e Hsh). apply list_fmap_ext.
  intros i y [_ [_ Hy]%list_elem_of_filter]%list_elem_of_lookup_2%list_elem_of_filter. by rewrite Hpay.
Qed.

(** An increment changes what entries carry. *)
Lemma shape_inc e (f : ase P → ase P) :
  kind (cmd_type x) = KInc → rw_shape L e →
  (∀ a, a_addr (f a) = a_addr a ∧ a_t (f a) = a_t a) →
  (∀ a y, y ∈ L → a_t a = cmd_t y → a_val a = pay L y → a_val (f a) = pay (L ++ [x]) y) →
  rw_shape (L ++ [x]) (mkRws (s_value e) (f <$> s_aset e) (s_rset e)).
Proof.
  intros Hk [Has Hrs [Hnd Hv]] Hf Hpay. pose proof live_snoc as Hl. pose proof open_rems_snoc as Hr. rewrite Hk in Hl, Hr.
  split; simpl; [|by rewrite Hr|split].
  - rewrite Hl. assert (live L ⊆ L) as Hsub by (by intros y [_ ?]%list_elem_of_filter). clear Hl Hv Hnd.
    revert Has Hsub. generalize (live L), (s_aset e). intros l. induction l as [|y l IH]; intros [|a as_]; try done.
    intros [= Ht Hp Hrest] Hsub. simpl. destruct (Hf a) as [_ Hft]. rewrite Hft, Ht, (Hpay a y); [|apply Hsub; by left|done..].
    f_equal. apply IH; [done|]. intros z Hz. apply Hsub. by right.
  - rewrite <- list_fmap_compose. erewrite list_fmap_ext; [exact Hnd|]. intros i a _. simpl. apply Hf.
  - destruct (s_value e) as [p|]; [|by rewrite Hv]. destruct Hv as (a & Ha & <- & Hmax).
    exists (f a). split_and!; [by apply list_elem_of_fmap_2|apply Hf|].
    intros b (b' & -> & Hb)%list_elem_of_fmap. destruct (Hf a) as [_ ->], (Hf b') as [_ ->]. by apply Hmax.
Qed.
End step.

(** *** Membership *)

Lemma rw_LOOKUP_spec pay L e :
  rw_shape pay L e → rw_LOOKUP e = true ↔ live L ≠ [] ∧ open_rems L = [].
Proof.
  intros [Ha Hr _]. unfold rw_LOOKUP. rewrite Hr, length_fmap.
  apply (f_equal length) in Ha. rewrite !length_fmap in Ha. rewrite Ha.
  destruct (live L), (open_rems L); simpl; naive_solver.
Qed.

Lemma maximal_exists (l : list (cmd T V)) : l ≠ [] → ∃ m, m ∈ l ∧ ∀ y, y ∈ l → ¬ cmd_t m <ᵥ cmd_t y.
Proof using Type.
  induction l as [|x l IH]; [done|]. intros _. destruct (decide (l = [])) as [->|Hne].
  { exists x. split; [by left|]. intros y ->%list_elem_of_singleton. apply vlt_irrefl. }
  destruct (IH Hne) as (m & Hm & Hmax). destruct (decide (cmd_t m <ᵥ cmd_t x)) as [Hlt|Hnlt].
  - exists x. split; [by left|]. intros y [->|Hy]%elem_of_cons; [apply vlt_irrefl|]. intros Hxy.
    apply (Hmax y Hy). by eapply vlt_trans.
  - exists m. split; [by right|]. intros y [->|Hy]%elem_of_cons; [done|by apply Hmax].
Qed.

(** An element exists when it was added and every remove of it was seen by
    an add. *)
Definition rw_present L : Prop :=
  (∃ a, a ∈ L ∧ kind (cmd_type a) = KAdd) ∧
  ∀ r, r ∈ L → kind (cmd_type r) = KRem → ∃ a, a ∈ L ∧ kind (cmd_type a) = KAdd ∧ cmd_t r <ᵥ cmd_t a.

Lemma open_rems_nil L :
  open_rems L = [] ↔
  ∀ r, r ∈ L → kind (cmd_type r) = KRem → ∃ a, a ∈ L ∧ kind (cmd_type a) = KAdd ∧ cmd_t r <ᵥ cmd_t a.
Proof.
  split.
  - intros Hnil r Hr Hk. destruct (decide (Forall (λ y, kind (cmd_type y) ≠ KAdd ∨ ¬ cmd_t r <ᵥ cmd_t y) L)) as [Hf|Hf].
    + assert (r ∈ open_rems L) as Hin by (by apply list_elem_of_filter). rewrite Hnil in Hin. by apply elem_of_nil in Hin.
    + apply not_Forall_Exists in Hf; [|apply _]. apply Exists_exists in Hf as (a & Ha & Hn). exists a.
      destruct (decide (kind (cmd_type a) = KAdd)), (decide (cmd_t r <ᵥ cmd_t a)); [done|..]; exfalso; apply Hn; auto.
  - intros Hall. apply filter_none. intros r Hr [Hk Hf]. destruct (Hall r Hr Hk) as (a & Ha & Hka & Hlt).
    by destruct (proj1 (Forall_forall _ _) Hf a Ha).
Qed.

Lemma rw_present_spec L : rw_present L ↔ live L ≠ [] ∧ open_rems L = [].
Proof.
  unfold rw_present. rewrite <- open_rems_nil. split; intros [Hadd Hopen]; (split; [|done]).
  - destruct Hadd as (a & Ha & Hk).
    destruct (maximal_exists (filter (λ y, kind (cmd_type y) = KAdd) L)) as (m & [Hmk Hm]%list_elem_of_filter & Hmax).
    { intros Hnil. assert (a ∈ filter (λ y, kind (cmd_type y) = KAdd) L) as Hin by (by apply list_elem_of_filter).
      rewrite Hnil in Hin. by apply elem_of_nil in Hin. }
    assert (m ∈ live L) as Hlive; [|intros Hnil; rewrite Hnil in Hlive; by apply elem_of_nil in Hlive].
    apply list_elem_of_filter. split_and!; [done| |done]. apply Forall_forall. intros y Hy.
    destruct (kind (cmd_type y)) eqn:Hky; [right|by left|right].
    + apply Hmax. by apply list_elem_of_filter.
    + intros Hlt. destruct (proj1 (open_rems_nil L) Hopen y Hy Hky) as (b & Hb & Hkb & Hyb).
      apply (Hmax b); [by apply list_elem_of_filter|]. by eapply vlt_trans.
  - destruct (live L) as [|a l] eqn:Hl; [done|]. exists a. assert (a ∈ live L) as Ha by (rewrite Hl; by left).
    by apply list_elem_of_filter in Ha as [[? _] ?].
Qed.

(** *** The entry that counts *)

(** The live add of the greatest server id. *)
Definition rw_top L m : Prop := m ∈ live L ∧ ∀ y, y ∈ live L → vid (cmd_t y) ≤ vid (cmd_t m).

Lemma rw_value_spec pay L e :
  rw_shape pay L e → live L ≠ [] →
  ∃ a m, rw_value e = Some a ∧ rw_top L m ∧ a_t a = cmd_t m ∧ a_val a = pay L m.
Proof.
  intros [Has _ [Hnd Hv]] Hne. destruct (s_value e) as [p|] eqn:Hp.
  2: { rewrite Hv in Has. destruct (live L); done. }
  destruct Hv as (a & Ha & <- & Hmax).
  assert ((a_t a, a_val a) ∈ (λ y, (cmd_t y, pay L y)) <$> live L) as Hin.
  { rewrite <- Has. by apply (list_elem_of_fmap_2 (λ a, (a_t a, a_val a))). }
  apply list_elem_of_fmap in Hin as (m & [= Ht Hval] & Hm). exists a, m. split; [|split; [split; [done|]|done]].
  - unfold rw_value. rewrite Hp. simpl. by apply deref_unique.
  - intros y Hy. assert ((cmd_t y, pay L y) ∈ (λ a, (a_t a, a_val a)) <$> s_aset e) as Hin.
    { rewrite Has. by apply (list_elem_of_fmap_2 (λ y, (cmd_t y, pay L y))). }
    apply list_elem_of_fmap in Hin as (b & [= Hb _] & Hbs). rewrite Hb, <- Ht. by apply Hmax.
Qed.

Lemma rw_top_unique c0 n L m1 m2 :
  rw_good n L → vsize c0 = n → causal cmd_t c0 L → rw_top L m1 → rw_top L m2 → m1 = m2.
Proof.
  intros [Hok Ho] <- Hc [H1 M1] [H2 M2]. pose proof (M1 m2 H2). pose proof (M2 m1 H1).
  apply list_elem_of_filter in H1 as [[Hk1 Hf1] H1], H2 as [[Hk2 Hf2] H2].
  assert (vid (cmd_t m1) = vid (cmd_t m2)) as Hv by lia.
  apply (causal_inj cmd_t c0 L); [done..|by apply (proj1 (Forall_forall _ _) Hok)|].
  destruct (decide (vector (cmd_t m1) = vector (cmd_t m2))) as [He|Hne].
  { rewrite (vc_eta (cmd_t m1)), (vc_eta (cmd_t m2)). by rewrite Hv, He. }
  exfalso. destruct (Ho m1 m2 H1 H2 Hv) as [Hle|Hle].
  - destruct (proj1 (Forall_forall _ _) Hf1 m2 H2) as [?|Hn]; [congruence|]. by apply Hn.
  - destruct (proj1 (Forall_forall _ _) Hf2 m1 H1) as [?|Hn]; [congruence|]. apply Hn. by split.
Qed.

(** None of this depends on the order of the operations. *)
Lemma live_perm L1 L2 : L1 ≡ₚ L2 → live L1 ≡ₚ live L2.
Proof.
  intros Hp. unfold live.
  rewrite (filter_iff_in _ (λ x, kind (cmd_type x) = KAdd ∧
    Forall (λ y, kind (cmd_type y) = KInc ∨ ¬ cmd_t x <ᵥ cmd_t y) L2) L1); [by rewrite Hp|].
  intros x Hx. by rewrite Hp.
Qed.

Lemma rw_top_perm L1 L2 m : L1 ≡ₚ L2 → rw_top L1 m ↔ rw_top L2 m.
Proof. intros Hp. unfold rw_top. by setoid_rewrite (live_perm _ _ Hp). Qed.

Lemma rw_present_perm L1 L2 : L1 ≡ₚ L2 → rw_present L1 ↔ rw_present L2.
Proof. intros Hp. unfold rw_present. by setoid_rewrite Hp. Qed.
End histories.

(** ** Sorted-set actions *)

(** An action on the map the sorted set represents; publishing an unset score
    is a fault. *)
Definition act_on (ele : sds) (o : option (gmap sds double)) (act : zact) : option (gmap sds double) :=
  match act with
  | ZNone => o
  | ZAdd score => m ← o; s ← score; Some (zmap_add m s ele ZADD_NONE).1.1
  | ZDel => delete ele <$> o
  end.

Lemma act_on_None ele acts : foldl (act_on ele) None acts = None.
Proof. induction acts as [|act acts IH]; [done|]. by destruct act. Qed.

(** Other elements are left alone. *)
Lemma act_on_ne ele acts m m' ele' :
  ele' ≠ ele → foldl (act_on ele) (Some m) acts = Some m' → m' !! ele' = m !! ele'.
Proof.
  intros Hne. revert m. induction acts as [|act acts IH]; intros m; simpl; [by intros [= ->]|].
  destruct act as [|[s|]|]; simpl.
  - apply IH.
  - intros ->%IH. by apply zmap_add_ne.
  - by rewrite act_on_None.
  - intros ->%IH. by apply lookup_delete_ne.
Qed.

Section actions.
Context {cell A : Type} `{!Stored cell A} (sfx : sds) `{!Suffix sfx}.

Lemma run_act_spec key ele act (w : world cell) ptrs (Ms : gmap sds A) o m' :
  cont sfx w key ptrs Ms o → act_on ele (Some (default ∅ o)) act = Some m' →
  ∃ w' o', run_act key ele act w = Done () w' ∧ cont sfx w' key ptrs Ms o' ∧ default ∅ o' = m' ∧
    steps sfx key w ptrs w' ptrs.
Proof.
  intros C. destruct act as [|[s|]|]; simpl; [intros [= <-]|intros [= <-]|done|intros [= <-]]; unfold run_act.
  - destruct (dirty_spec sfx w key ptrs Ms o C) as (w' & Hd & C' & S'). exists w', o. erewrite bind_Done by done. done.
  - destruct (getZset_run sfx w key ptrs Ms o ele C) as (w1 & Hg & C1 & S1).
    destruct (zset_add_run sfx w1 key ptrs Ms _ ele s C1) as (w2 & Ha & C2 & S2).
    destruct (dirty_spec sfx w2 key ptrs Ms _ C2) as (w3 & Hd & C3 & S3).
    eexists w3, _. split; [|split; [exact C3|split; [done|]]].
    + erewrite bind_Done; [exact Hd|]. erewrite bind_Done by done. mstep Hg. exact Ha.
    + eapply steps_trans; [done|]. by eapply steps_trans.
  - destruct (getZset_run sfx w key ptrs Ms o ele C) as (w1 & Hg & C1 & S1).
    destruct (zset_del_run sfx w1 key ptrs Ms _ ele C1) as (w2 & Ha & C2 & S2).
    destruct (dirty_spec sfx w2 key ptrs Ms _ C2) as (w3 & Hd & C3 & S3).
    eexists w3, _. split; [|split; [exact C3|split; [done|]]].
    + erewrite bind_Done; [exact Hd|]. mstep Hg. exact Ha.
    + eapply steps_trans; [done|]. by eapply steps_trans.
Qed.

Lemma run_acts_spec key ele acts (w : world cell) ptrs (Ms : gmap sds A) o m' :
  cont sfx w key ptrs Ms o → foldl (act_on ele) (Some (default ∅ o)) acts = Some m' →
  ∃ w' o', run_acts key ele acts w = Done () w' ∧ cont sfx w' key ptrs Ms o' ∧ default ∅ o' = m' ∧
    steps sfx key w ptrs w' ptrs.
Proof.
  revert w o. induction acts as [|act acts IH]; intros w o C Hm.
  { injection Hm as <-. exists w, o. split_and!; [done..|]. apply steps_refl. }
  cbn [foldl] in Hm. destruct (act_on ele (Some (default ∅ o)) act) as [m1|] eqn:H1; [|by rewrite act_on_None in Hm].
  destruct (run_act_spec key ele act w ptrs Ms o m1 C H1) as (w1 & o1 & Hr & C1 & Ho1 & S1).
  rewrite <- Ho1 in Hm. destruct (IH w1 o1 C1 Hm) as (w2 & o2 & Hr2 & C2 & Ho2 & S2).
  exists w2, o2. split_and!; [|done..|by eapply steps_trans]. simpl. by mstep Hr.
Qed.
End actions.
