(* ===== verification/Rset.v ===== *)
(** * The remove-win set (src/t_rset.c) *)

From S2P Require Import Prelude.
From S2P Require Import Sds.
From S2P Require Import VectorClock.
From S2P Require Import Double.
From S2P Require Import Skiplist.
From S2P Require Import Zset.
From S2P Require Import Server.
From S2P Require Import RemoveWin.

#[local] Open Scope Z_scope.

Inductive rs_cmd_type := RSADD | RSREM.

(** An entry carries the [int] value, unset when the element is not a
    number. *)
Abbreviation rs_ase := (ase (option Z)).
Abbreviation rs_cmd := (cmd rs_cmd_type (option Z)).
Abbreviation rse := (rwe (option Z) rs_cmd_type (option Z)).

Definition rseNew (clock : vc) : rse := mkRwe clock rws_empty [].

Definition RW_SET_TABLE_SUFFIX : sds := "_rsets_".

(** ** Effects on one element *)

Definition r_addFunc (e : rse) (value : option Z) (t : vc) : option (rse * zact) :=
  s ← rw_add (e_sets e) t value;
  act ← (if rw_LOOKUP s then x ← rw_value s; Some (ZAdd (dofZ <$> a_val x)) else Some ZNone);
  Some (rw_tick (rw_set_sets e s) t, act).

Definition r_removeFunc (e : rse) (t : vc) : rse * zact :=
  let s := rw_remove (e_sets e) t in
  (rw_tick (rw_set_sets e s) t, if rw_LOOKUP s then ZNone else ZDel).

Definition rs_apply (e : rse) (c : rs_cmd) : option (rse * zact) :=
  match cmd_type c with
  | RSADD => r_addFunc e (cmd_value c) (cmd_t c)
  | RSREM => Some (r_removeFunc e (cmd_t c))
  end.

Definition r_notifyLoop (fuel : nat) (e : rse) : option (rse * list zact) :=
  rw_notifyLoop rs_apply fuel e.

(** ** Commands *)

Section commands.
Context {cell : Type} `{!Stored cell rse}.

Definition GET_RSE (name key : sds) (create : bool) : M cell (option loc) :=
  rehHTGet name (Some RW_SET_TABLE_SUFFIX) key create (λ w, rseNew (vc_new w)).

Definition rsadd_prepare : M cell () :=
  CHECK_ARGC 3;;
  CHECK_CONTAINER_TYPE OBJ_ZSET;;
  key ← arg 1; ele ← arg 2;
  e ← GET_RSE key ele true;
  e ← orfault NullDeref e;
  x ← load e;
  if rw_LOOKUP (e_sets x) then addReply REleExist;; creturn
  else s ← orfault OutOfBounds (vc_now (e_current x)); RARGV_ADD_SDS s.

(** Run a command on the element and publish what it did. *)
Definition rs_effect (key ele : sds) (c : rs_cmd) : M cell () :=
  e ← GET_RSE key ele true;
  e ← orfault NullDeref e;
  x ← load e;
  '(x', acts) ← orfault NullDeref (rw_effect rs_apply x c);
  store e x';;
  run_acts key ele acts.

(** The clock is read at index 4; the prepare phase puts it at index 3. *)
Definition rsadd_effect : M cell () :=
  key ← rarg 1; ele ← rarg 2;
  let v := wrap32 <$> string2ll ele in
  s ← rarg 4;
  t ← orfault OutOfBounds (sdsToVC s);
  rs_effect key ele (mkCmd RSADD v t).

Definition rsaddCommand : M cell () := crdt_command rsadd_prepare rsadd_effect.

Definition rsrem_prepare : M cell () :=
  CHECK_ARGC 3;;
  CHECK_CONTAINER_TYPE OBJ_ZSET;;
  key ← arg 1; ele ← arg 2;
  e ← GET_RSE key ele false;
  match e with
  | None => addReply REleNexist;; creturn
  | Some l =>
      x ← load l;
      if rw_LOOKUP (e_sets x) then s ← orfault OutOfBounds (vc_now (e_current x)); RARGV_ADD_SDS s
      else addReply REleNexist;; creturn
  end.

Definition rsrem_effect : M cell () :=
  key ← rarg 1; ele ← rarg 2; s ← rarg 3;
  t ← orfault OutOfBounds (sdsToVC s);
  rs_effect key ele (mkCmd RSREM (Some 0) t).

Definition rsremCommand : M cell () := crdt_command rsrem_prepare rsrem_effect.

Definition rscontainsCommand : M cell () := containsCommand.
Definition rssizeCommand : M cell () := sizeCommand.

End commands.
