(* ===== verification/Rzset.v ===== *)
(** * The remove-win priority queue (src/t_rzset.c) *)

From S2P Require Import Prelude.
From S2P Require Import Sds.
From S2P Require Import VectorClock.
From S2P Require Import Double.
From S2P Require Import Skiplist.
From S2P Require Import Zset.
From S2P Require Import Server.
From S2P Require Import RemoveWin.

#[local] Open Scope Z_scope.

Inductive rz_cmd_type := RZADD | RZINCBY | RZREM.

(** An entry carries its initial value and its increments. *)
Record rz_val := mkRzVal { rz_x : double; rz_inc : double }.

Abbreviation rz_ase := (ase rz_val).
Abbreviation rz_cmd := (cmd rz_cmd_type double).
Abbreviation rze := (rwe rz_val rz_cmd_type double).

Definition rzeNew (clock : vc) : rze := mkRwe clock rws_empty [].

Definition RW_RPQ_TABLE_SUFFIX : sds := "_rzets_".

Definition rz_entry_score (a : rz_ase) : double := dadd (rz_x (a_val a)) (rz_inc (a_val a)).

(** ** Effects on one element *)

Definition addFunc (e : rze) (value : double) (t : vc) : option (rze * zact) :=
  s ← rw_add (e_sets e) t (mkRzVal value d0);
  act ← (if rw_LOOKUP s then x ← rw_value s; Some (ZAdd (Some (rz_entry_score x))) else Some ZNone);
  Some (rw_tick (rw_set_sets e s) t, act).

(** The loop of [increaseFunc]. *)
Definition rz_increase (t : vc) (value : double) (a : rz_ase) : rz_ase :=
  if seen_by t (a_t a)
  then mkAse (a_addr a) (a_t a) (mkRzVal (rz_x (a_val a)) (dadd (rz_inc (a_val a)) value))
  else a.

Definition increaseFunc (e : rze) (value : double) (t : vc) : option (rze * zact) :=
  let s := mkRws (s_value (e_sets e)) (rz_increase t value <$> s_aset (e_sets e)) (s_rset (e_sets e)) in
  act ← (if rw_LOOKUP s then
           x ← rw_value s;
           Some (if seen_by t (a_t x) then ZAdd (Some (rz_entry_score x)) else ZNone)
         else Some ZNone);
  Some (rw_tick (rw_set_sets e s) t, act).

Definition rz_removeFunc (e : rze) (t : vc) : rze * zact :=
  let s := rw_remove (e_sets e) t in
  (rw_tick (rw_set_sets e s) t, if rw_LOOKUP s then ZNone else ZDel).

Definition rz_apply (e : rze) (c : rz_cmd) : option (rze * zact) :=
  match cmd_type c with
  | RZADD => addFunc e (cmd_value c) (cmd_t c)
  | RZINCBY => increaseFunc e (cmd_value c) (cmd_t c)
  | RZREM => Some (rz_removeFunc e (cmd_t c))
  end.

Definition notifyLoop (fuel : nat) (e : rze) : option (rze * list zact) :=
  rw_notifyLoop rz_apply fuel e.

(** ** Commands *)

Section commands.
Context {cell : Type} `{!Stored cell rze}.

Definition GET_RZE (name key : sds) (create : bool) : M cell (option loc) :=
  rehHTGet name (Some RW_RPQ_TABLE_SUFFIX) key create (λ w, rzeNew (vc_new w)).

Definition rzadd_prepare : M cell () :=
  CHECK_ARGC 4;;
  CHECK_CONTAINER_TYPE OBJ_ZSET;;
  CHECK_ARG_TYPE_DOUBLE 3;;
  key ← arg 1; ele ← arg 2;
  e ← GET_RZE key ele true;
  e ← orfault NullDeref e;
  x ← load e;
  if rw_LOOKUP (e_sets x) then addReply REleExist;; creturn
  else s ← orfault OutOfBounds (vc_now (e_current x)); RARGV_ADD_SDS s.

Definition rz_effect (key ele : sds) (c : rz_cmd) : M cell () :=
  e ← GET_RZE key ele true;
  e ← orfault NullDeref e;
  x ← load e;
  '(x', acts) ← orfault NullDeref (rw_effect rz_apply x c);
  store e x';;
  run_acts key ele acts.

Definition rzadd_effect : M cell () :=
  key ← rarg 1; ele ← rarg 2; sv ← rarg 3; s ← rarg 4;
  v ← orfault Uninit (string2d sv);
  t ← orfault OutOfBounds (sdsToVC s);
  rz_effect key ele (mkCmd RZADD v t).

Definition rzaddCommand : M cell () := crdt_command rzadd_prepare rzadd_effect.

(** What [rzincrby] and [rzrem] check and append. *)
Definition rz_prepare_now (key ele : sds) : M cell () :=
  e ← GET_RZE key ele false;
  match e with
  | None => addReply REleNexist;; creturn
  | Some l =>
      x ← load l;
      if rw_LOOKUP (e_sets x) then s ← orfault OutOfBounds (vc_now (e_current x)); RARGV_ADD_SDS s
      else addReply REleNexist;; creturn
  end.

Definition rzincrby_prepare : M cell () :=
  CHECK_ARGC 4;;
  CHECK_CONTAINER_TYPE OBJ_ZSET;;
  CHECK_ARG_TYPE_DOUBLE 3;;
  key ← arg 1; ele ← arg 2;
  rz_prepare_now key ele.

Definition rzincrby_effect : M cell () :=
  key ← rarg 1; ele ← rarg 2; sv ← rarg 3; s ← rarg 4;
  v ← orfault Uninit (string2d sv);
  t ← orfault OutOfBounds (sdsToVC s);
  rz_effect key ele (mkCmd RZINCBY v t).

Definition rzincrbyCommand : M cell () := crdt_command rzincrby_prepare rzincrby_effect.

Definition rzrem_prepare : M cell () :=
  CHECK_ARGC 3;;
  CHECK_CONTAINER_TYPE OBJ_ZSET;;
  key ← arg 1; ele ← arg 2;
  rz_prepare_now key ele.

Definition rzrem_effect : M cell () :=
  key ← rarg 1; ele ← rarg 2; s ← rarg 3;
  t ← orfault OutOfBounds (sdsToVC s);
  rz_effect key ele (mkCmd RZREM d0 t).

Definition rzremCommand : M cell () := crdt_command rzrem_prepare rzrem_effect.

Definition rzscoreCommand : M cell () := scoreCommand.
Definition rzmaxCommand : M cell () := maxCommand.

Definition rz_aseToSds (a : rz_ase) : M cell sds :=
  s ← orfault OutOfBounds (vcToSds (a_t a));
  mret (fmt_f (rz_x (a_val a)) +:+ " " +:+ fmt_f (rz_inc (a_val a)) +:+ " " +:+ s).

Definition rz_cmdToSds (c : rz_cmd) : M cell sds :=
  s ← orfault OutOfBounds (vcToSds (cmd_t c));
  mret (match cmd_type c with RZADD => "RZADD" | RZINCBY => "RZINCBY" | RZREM => "RZREM" end
        +:+ " " +:+ fmt_f (cmd_value c) +:+ " " +:+ s).

(** [rz_aseToSds(e->value)] follows the pointer also when it is [NULL]. *)
Definition rzestatusCommand : M cell () :=
  key ← arg 1; ele ← arg 2;
  e ← GET_RZE key ele false;
  match e with
  | None => addReply REmptyArray
  | Some l =>
      x ← load l;
      addReply (RArrayLen (7 + Z.of_nat (length (s_aset (e_sets x))) + Z.of_nat (length (s_rset (e_sets x)))
                             + Z.of_nat (length (e_ops x))));;
      addReply (RBulk "current:");;
      s ← orfault OutOfBounds (vcToSds (e_current x));
      addReply (RBulk s);;
      addReply (RBulk "value:");;
      a ← orfault NullDeref (rw_value (e_sets x));
      s ← rz_aseToSds a;
      addReply (RBulk s);;
      addReply (RBulk "Add Set:");;
      reply_each rz_aseToSds (s_aset (e_sets x));;
      addReply (RBulk "Remove Set:");;
      reply_each (λ r, orfault OutOfBounds (vcToSds r)) (s_rset (e_sets x));;
      addReply (RBulk "unready commands:");;
      reply_each rz_cmdToSds (e_ops x)
  end.

End commands.
