(* ===== verification/RzsetRep.v ===== *)
(** * What the remove-win priority queue computes

    The effect phases of t_rzset.c as the causal queue of [Causal] over the
    sets of [RemoveWinRep], with the sorted set in line with them. *)

From S2P Require Import Prelude.
From S2P Require Import Sds.
From S2P Require Import VectorClock.
From S2P Require Import Double.
From S2P Require Import Skiplist.
From S2P Require Import Zset.
From S2P Require Import ZsetRep.
From S2P Require Import Server.
From S2P Require Import Container.
From S2P Require Import RemoveWin.
From S2P Require Import Causal.
From S2P Require Import RemoveWinRep.
From S2P Require Import Rzset.

#[local] Open Scope Z_scope.
#[local] Open Scope crdt_scope.

#[global] Instance rz_suffix : Suffix RW_RPQ_TABLE_SUFFIX.
Proof. done. Qed.

#[global] Instance rz_cmd_type_eq_dec : EqDecision rz_cmd_type.
Proof. solve_decision. Defined.

(** ** One element *)

Definition rz_kind (k : rz_cmd_type) : rw_kind :=
  match k with RZADD => KAdd | RZINCBY => KInc | RZREM => KRem end.

(** The increments that have seen an add, in order of application. *)
Definition rz_incs (L : list rz_cmd) (x : rz_cmd) : list double :=
  cmd_value <$> filter (λ y, rz_kind (cmd_type y) = KInc ∧ cmd_t x <ᵥ cmd_t y) L.

Definition rz_pay (L : list rz_cmd) (x : rz_cmd) : rz_val :=
  mkRzVal (cmd_value x) (foldl dadd d0 (rz_incs L x)).

Lemma rz_incs_snoc L x y :
  rz_incs (L ++ [x]) y = rz_incs L y ++
    (if decide (rz_kind (cmd_type x) = KInc ∧ cmd_t y <ᵥ cmd_t x) then [cmd_value x] else []).
Proof. unfold rz_incs. rewrite filter_app, fmap_app, filter_cons, filter_nil. by case_decide. Qed.

Lemma rz_pay_other L x y : rz_kind (cmd_type x) ≠ KInc → rz_pay (L ++ [x]) y = rz_pay L y.
Proof. intros Hk. unfold rz_pay. rewrite rz_incs_snoc, decide_False by naive_solver. by rewrite app_nil_r. Qed.

(** What the sorted set holds for an element; nothing is said of a score that
    is not a number, which [zsetAdd] refuses. *)
Definition rz_vis (s : rws rz_val) (o : option double) : Prop :=
  if rw_LOOKUP s then
    ∃ a, rw_value s = Some a ∧
      (isnan (rz_entry_score a) = false → ∃ d, o = Some d ∧ dkey d = dkey (rz_entry_score a))
  else o = None.

Definition rz_st (ele : sds) (L : list rz_cmd) (s : rws rz_val) (om : option (gmap sds double)) : Prop :=
  rw_shape rz_kind rz_pay L s ∧ ∃ m, om = Some m ∧ rz_vis s (m !! ele).

Section element.
Context (c0 : vc) (ele : sds).
Implicit Types (L : list rz_cmd) (e : rze) (x : rz_cmd).

Lemma rz_publish (s : rws rz_val) a m :
  rw_LOOKUP s = true → rw_value s = Some a →
  ∃ m', act_on ele (Some m) (ZAdd (Some (rz_entry_score a))) = Some m' ∧ rz_vis s (m' !! ele).
Proof using Type.
  intros Hl Ha. eexists. split; [done|]. unfold rz_vis. rewrite Hl. exists a. split; [done|]. apply zmap_add_eq.
Qed.

(** An entry to show when there is one. *)
Lemma rz_lookup_value L s :
  rw_shape rz_kind rz_pay L s → rw_LOOKUP s = true →
  ∃ a m, rw_value s = Some a ∧ rw_top rz_kind L m ∧ a_t a = cmd_t m ∧ a_val a = rz_pay L m.
Proof using Type. intros Hsh Hl. apply (rw_value_spec rz_kind rz_pay L s Hsh), (rw_LOOKUP_spec _ _ _ _ Hsh), Hl. Qed.

Section step.
Context (L : list rz_cmd) (x : rz_cmd) (e : rze) (om : option (gmap sds double)).
Context (Hgood : rw_good (vsize c0) (L ++ [x])) (Hcau : causal cmd_t c0 (L ++ [x])) (Hst : rz_st ele L (e_sets e) om).

Lemma rz_new y : y ∈ L ++ [x] → ¬ cmd_t x <ᵥ cmd_t y.
Proof using Hgood Hcau. by apply (next_not_below c0 (vsize c0)). Qed.

Lemma rz_add_ok v t :
  x = mkCmd RZADD v t →
  ∃ s' act, addFunc e v t = Some (rw_tick (rw_set_sets e s') t, act) ∧ rz_st ele (L ++ [x]) s' (act_on ele om act).
Proof.
  intros Hx. destruct Hst as (Hsh & m & -> & Hvis). assert (cmd_type x = RZADD) as Hk by (by subst x).
  assert (rz_pay (L ++ [x]) x = mkRzVal v d0) as Hp.
  { rewrite rz_pay_other by (by rewrite Hk). unfold rz_pay. rewrite Hx at 1. simpl. f_equal.
    unfold rz_incs. rewrite filter_none; [done|]. intros y Hy [_ Hlt].
    eapply (next_not_below c0 (vsize c0) L x y); [done..|apply elem_of_app; by left|done]. }
  destruct (shape_add rz_kind (vsize c0) L x Hgood rz_new rz_pay (e_sets e) (mkRzVal v d0))
    as (s' & Hadd & Hsh'); [by rewrite Hk|done| |done|].
  { intros y _. apply rz_pay_other. by rewrite Hk. }
  exists s'. unfold addFunc. replace (cmd_t x) with t in Hadd by (by subst x). rewrite Hadd. simpl.
  destruct (rw_LOOKUP s') eqn:Hl.
  - destruct (rz_lookup_value _ _ Hsh' Hl) as (a & _ & Ha & _). rewrite Ha. simpl. eexists. split; [done|].
    split; [done|]. by apply rz_publish.
  - eexists. split; [done|]. split; [done|]. exists m. split; [done|]. unfold rz_vis in *. rewrite Hl.
    destruct (rw_LOOKUP (e_sets e)) eqn:Hl0; [|done]. exfalso.
    apply (rw_LOOKUP_spec _ _ _ _ Hsh) in Hl0 as [_ Ho]. apply not_true_iff_false in Hl. apply Hl.
    apply (rw_LOOKUP_spec _ _ _ _ Hsh').
    rewrite (live_snoc rz_kind (vsize c0) L x Hgood rz_new), (open_rems_snoc rz_kind (vsize c0) L x Hgood rz_new), Hk.
    simpl. split; [intros [_ ?]%app_eq_nil; done|]. by rewrite Ho.
Qed.

Lemma rz_increase_same t v a : a_addr (rz_increase t v a) = a_addr a ∧ a_t (rz_increase t v a) = a_t a.
Proof using Type. unfold rz_increase. by destruct (seen_by _ _). Qed.

Lemma rw_value_increase t v (s : rws rz_val) :
  rw_value (mkRws (s_value s) (rz_increase t v <$> s_aset s) (s_rset s)) = rz_increase t v <$> rw_value s.
Proof using Type.
  unfold rw_value, rw_deref. destruct (s_value s) as [p|]; simpl; [|done].
  induction (s_aset s) as [|a l IH]; simpl; [done|]. destruct (rz_increase_same t v a) as [-> _].
  by destruct (Nat.eqb _ _).
Qed.

Lemma rz_inc_ok v t :
  x = mkCmd RZINCBY v t →
  ∃ s' act, increaseFunc e v t = Some (rw_tick (rw_set_sets e s') t, act) ∧ rz_st ele (L ++ [x]) s' (act_on ele om act).
Proof.
  intros Hx. destruct Hst as (Hsh & m & -> & Hvis). assert (cmd_type x = RZINCBY) as Hk by (by subst x).
  assert (cmd_t x = t ∧ cmd_value x = v) as [Ht Hv] by (by subst x).
  set (s' := mkRws (s_value (e_sets e)) (rz_increase t v <$> s_aset (e_sets e)) (s_rset (e_sets e))).
  assert (rw_shape rz_kind rz_pay (L ++ [x]) s') as Hsh'.
  { apply (shape_inc rz_kind (vsize c0) L x Hgood rz_new rz_pay); [by rewrite Hk|done|apply rz_increase_same|].
    intros a y Hy Hat Hav. pose proof (keep_spec (vsize c0) L x Hgood y Hy) as Hkeep. rewrite Ht, <- Hat in Hkeep.
    unfold rz_increase, rz_pay. rewrite rz_incs_snoc. destruct (seen_by t (a_t a)) eqn:Hs; simpl.
    - rewrite decide_True, foldl_app, Hav, Hv; [done|]. split; [by rewrite Hk|]. rewrite <- Hat, Ht.
      destruct (decide (a_t a <ᵥ t)); [done|]. exfalso. by apply Hkeep in n.
    - rewrite decide_False, app_nil_r; [done|]. intros [_ Hlt]. apply (proj1 Hkeep eq_refl). by rewrite <- Ht, Hat. }
  exists s'. unfold increaseFunc. fold s'.
  assert (rw_LOOKUP s' = rw_LOOKUP (e_sets e)) as Hl.
  { unfold rw_LOOKUP, s'. simpl. by rewrite length_fmap. }
  unfold rz_vis in Hvis. rewrite <- Hl in Hvis. destruct (rw_LOOKUP s') eqn:Hl'.
  - destruct Hvis as (a & Ha & Hshow). pose proof (rw_value_increase t v (e_sets e)) as Hval. fold s' in Hval.
    rewrite Ha in Hval. rewrite Hval. simpl. destruct (rz_increase_same t v a) as [_ ->]. eexists. split; [done|]. split; [done|].
    destruct (seen_by t (a_t a)) eqn:Hs; [by apply rz_publish|]. exists m. split; [done|]. unfold rz_vis. rewrite Hl'.
    eexists. split; [exact Hval|]. unfold rz_increase. by rewrite Hs.
  - eexists. split; [done|]. split; [done|]. exists m. split; [done|]. unfold rz_vis. by rewrite Hl'.
Qed.

Lemma rz_rem_ok v t :
  x = mkCmd RZREM v t →
  ∃ s' act, rz_removeFunc e t = (rw_tick (rw_set_sets e s') t, act) ∧ rz_st ele (L ++ [x]) s' (act_on ele om act).
Proof.
  intros Hx. destruct Hst as (Hsh & m & -> & Hvis). assert (cmd_type x = RZREM) as Hk by (by subst x).
  exists (rw_remove (e_sets e) t). unfold rz_removeFunc. eexists. split; [done|].
  assert (rw_shape rz_kind rz_pay (L ++ [x]) (rw_remove (e_sets e) t)) as Hsh'.
  { replace t with (cmd_t x) by (by subst x).
    apply (shape_remove rz_kind (vsize c0) L x Hgood rz_new rz_pay); [by rewrite Hk|done|].
    intros y _. apply rz_pay_other. by rewrite Hk. }
  assert (rw_LOOKUP (rw_remove (e_sets e) t) = false) as Hl.
  { apply not_true_iff_false. rewrite (rw_LOOKUP_spec _ _ _ _ Hsh').
    rewrite (open_rems_snoc rz_kind (vsize c0) L x Hgood rz_new), Hk. by intros [_ [_ ?]%app_eq_nil]. }
  rewrite Hl. split; [done|]. eexists. split; [done|]. unfold rz_vis. by rewrite Hl, lookup_delete_eq.
Qed.
End step.

(** What the queue needs. *)
Lemma rz_apply_ok L e om x :
  rw_good (vsize c0) (L ++ [x]) → causal cmd_t c0 (L ++ [x]) → e_current e = join_of cmd_t c0 L →
  rz_st ele L (e_sets e) om →
  ∃ e' act, rz_apply e x = Some (e', act) ∧ e_current e' = vc_update (e_current e) (cmd_t x) ∧
    e_ops e' = e_ops e ∧ rz_st ele (L ++ [x]) (e_sets e') (act_on ele om act).
Proof.
  intros Hg Hc _ Hst. destruct x as [k v t]. unfold rz_apply. destruct k; simpl.
  - destruct (rz_add_ok L _ e om Hg Hc Hst v t eq_refl) as (s' & act & -> & Hst'). by eexists _, act.
  - destruct (rz_inc_ok L _ e om Hg Hc Hst v t eq_refl) as (s' & act & -> & Hst'). by eexists _, act.
  - destruct (rz_rem_ok L _ e om Hg Hc Hst v t eq_refl) as (s' & act & -> & Hst'). by eexists _, act.
Qed.

(** An element that has received [D]. *)
Definition rz_element (D : list rz_cmd) e om : Prop :=
  (∃ L, partly (rz_st ele) c0 D L e om) ∧ stuck e.

Lemma rz_element_init m : m !! ele = None → rz_element [] (rzeNew c0) (Some m).
Proof.
  intros Hm. split; [|constructor]. exists []. split; [done|constructor|done|]. split.
  - split; [done..|]. by split; [constructor|].
  - by exists m.
Qed.

Lemma rz_element_effect D e om x :
  int32_clock c0 → rz_element D e om → rw_good (vsize c0) (D ++ [x]) →
  ∃ e' acts, rw_effect rz_apply e x = Some (e', acts) ∧ rz_element (D ++ [x]) e' (foldl (act_on ele) om acts).
Proof.
  intros Hi [[L Q] Hs] Hg.
  destruct (rw_effect_spec rz_apply (act_on ele) (rz_st ele) (rw_good (vsize c0)) c0 rz_apply_ok
    (rw_good_sub (vsize c0)) (λ l H, proj1 H) Hi D L e om x Q Hs Hg) as (L' & e' & acts & He & Q' & Hs').
  exists e', acts. split; [done|]. split; [by exists L'|done].
Qed.
End element.

(** ** Containers *)

Definition rz_inv (c : vc) (hist : list (sds * rz_cmd)) (s : gmap sds rze * option (gmap sds double)) : Prop :=
  ∀ ele, rz_element c ele (ops_of ele hist) (default (rzeNew c) (s.1 !! ele)) (Some (default ∅ s.2)).

Lemma rz_inv_init c : rz_inv c [] (∅, None).
Proof. intros ele. simpl. rewrite lookup_empty. apply rz_element_init. by rewrite lookup_empty. Qed.

(** An element only sees its own entry. *)
Lemma rz_element_frame c ele D e (m m' : gmap sds double) :
  m' !! ele = m !! ele → rz_element c ele D e (Some m) → rz_element c ele D e (Some m').
Proof.
  intros Hm [[L [Hp Hc Hcur (Hsh & m0 & [= <-] & Hvis)]] Hs]. split; [|done]. exists L. split; [done..|].
  split; [done|]. exists m'. by rewrite Hm.
Qed.

(** A history the queue is meant for: on each element, clocks of the system,
    ordered for each server. *)
Definition rz_good (n : Z) (hist : list (sds * rz_cmd)) : Prop := ∀ ele, rw_good n (ops_of ele hist).

(** The arguments of an effect. *)
Inductive rz_msg : rz_cmd → sds → sds → list sds → Prop :=
  | rz_msg_add cmd key ele s v t tv :
      string2d s = Some v → sdsToVC t = Some tv → rz_msg (mkCmd RZADD v tv) key ele [cmd; key; ele; s; t]
  | rz_msg_inc cmd key ele s v t tv :
      string2d s = Some v → sdsToVC t = Some tv → rz_msg (mkCmd RZINCBY v tv) key ele [cmd; key; ele; s; t]
  | rz_msg_rem cmd key ele t tv :
      sdsToVC t = Some tv → rz_msg (mkCmd RZREM d0 tv) key ele [cmd; key; ele; t].

Section world.
Context {cell : Type} `{!Stored cell rze}.
Implicit Types (w : world cell).

Definition rz_effect_of (k : rz_cmd_type) : M cell () :=
  match k with RZADD => rzadd_effect | RZINCBY => rzincrby_effect | RZREM => rzrem_effect end.

Lemma rz_effect_args (x : rz_cmd) key ele args w r :
  rargv (w_client w) = Some r → r_args r = args → rz_msg x key ele args →
  rz_effect_of (cmd_type x) w = rz_effect key ele x w.
Proof.
  intros Hr Hargs Hmsg. destruct Hmsg as [cmd key ele s v t tv Hv Ht|cmd key ele s v t tv Hv Ht|cmd key ele t tv Ht];
    simpl; unfold rzadd_effect, rzincrby_effect, rzrem_effect;
    mstep (rarg_spec w r 1 key Hr ltac:(by rewrite Hargs)); mstep (rarg_spec w r 2 ele Hr ltac:(by rewrite Hargs)).
  - mstep (rarg_spec w r 3 s Hr ltac:(by rewrite Hargs)). mstep (rarg_spec w r 4 t Hr ltac:(by rewrite Hargs)).
    rewrite Hv, Ht. done.
  - mstep (rarg_spec w r 3 s Hr ltac:(by rewrite Hargs)). mstep (rarg_spec w r 4 t Hr ltac:(by rewrite Hargs)).
    rewrite Hv, Ht. done.
  - mstep (rarg_spec w r 3 t Hr ltac:(by rewrite Hargs)). rewrite Ht. done.
Qed.

(** The effect phases keep the containers in line with the history. *)
Lemma rz_effect_run (x : rz_cmd) key ele args hist w ptrs Ms o r :
  cont RW_RPQ_TABLE_SUFFIX w key ptrs Ms o → rargv (w_client w) = Some r → r_args r = args → rz_msg x key ele args →
  rz_inv (vc_new w) hist (Ms, o) → int32_clock (vc_new w) → rz_good (vsize (vc_new w)) (hist ++ [(ele, x)]) →
  ∃ w' ptrs' s', rz_effect_of (cmd_type x) w = Done () w' ∧ cont RW_RPQ_TABLE_SUFFIX w' key ptrs' s'.1 s'.2 ∧
    steps RW_RPQ_TABLE_SUFFIX key w ptrs w' ptrs' ∧ rz_inv (vc_new w) (hist ++ [(ele, x)]) s'.
Proof.
  intros C Hr Hargs Hmsg Hinv Hi Hgood. rewrite (rz_effect_args x key ele args w r Hr Hargs Hmsg). clear Hmsg Hargs args.
  unfold rz_effect, GET_RZE.
  destruct (rehHTGet_create _ w key ptrs Ms o ele (λ w, rzeNew (vc_new w)) C) as (w1 & l & ptrs1 & Hget & Hl & C1 & S1); [done|].
  mstep Hget. erewrite bind_Done by done. set (e := default (rzeNew (vc_new w)) (Ms !! ele)) in *.
  mstep (load_spec _ w1 key ptrs1 _ o ele l e C1 Hl (lookup_insert_eq _ _ _)).
  pose proof (Hgood ele) as Hg. rewrite ops_of_snoc in Hg. simpl in Hg. rewrite decide_True in Hg by done.
  destruct (rz_element_effect (vc_new w) ele _ e _ x Hi (Hinv ele) Hg) as (e' & acts & -> & Hel).
  destruct (foldl (act_on ele) _ acts) as [m'|] eqn:Hacts.
  2: { destruct Hel as [[L [_ _ _ (_ & m & ? & _)]] _]. done. }
  erewrite bind_Done by done. cbv beta iota.
  destruct (store_spec _ w1 key ptrs1 _ o ele l e' C1 Hl) as (w2 & Hst & C2 & S2). mstep Hst.
  rewrite insert_insert_eq in C2.
  destruct (run_acts_spec _ key ele acts w2 ptrs1 _ o m' C2 Hacts) as (w3 & o' & Hrun & C3 & Ho' & S3).
  exists w3, ptrs1, (<[ele := e']> Ms, o'). split_and!; [done|done| |].
  { eapply steps_trans; [done|]. by eapply steps_trans. }
  intros ele'. simpl. rewrite Ho', ops_of_snoc. simpl. destruct (decide (ele = ele')) as [<-|Hne].
  - by rewrite lookup_insert_eq.
  - rewrite lookup_insert_ne, app_nil_r by done. eapply rz_element_frame; [|apply (Hinv ele')].
    by apply (act_on_ne ele acts).
Qed.
End world.
