(* ===== verification/ListBasics.v ===== *)
(** * Positions of list elements (src/list_basics.h, src/list_basics.c)

    The two list types order their elements by identifiers [leid]: sequences
    of positions compared lexicographically.  [constructLeid] makes a new
    identifier between two neighbours. *)

From Stdlib Require Import Ascii.
From S2P Require Import Prelude.
From S2P Require Import Sds.
From S2P Require Import VectorClock.
From S2P Require Import Skiplist.
From S2P Require Import Server.

#[local] Open Scope Z_scope.

(** ** Identifiers *)

Definition BASE : Z := Z.shiftl 1 24.

Record position := mkPos { pos : Z; ppid : Z; pcount : Z }.

#[global] Instance position_eq_dec : EqDecision position.
Proof. solve_decision. Defined.

Definition pos_cmp (p1 p2 : position) : Z :=
  if negb (pos p1 =? pos p2) then wrap32 (pos p1 - pos p2)
  else if negb (ppid p1 =? ppid p2) then wrap32 (ppid p1 - ppid p2)
  else wrap32 (pcount p1 - pcount p2).

(** The array [p] with its length [num]. *)
Abbreviation leid := (list position).

Definition num (id : leid) : Z := Z.of_nat (length id).

(** The scan of [leid_cmp] over the common length. *)
Fixpoint leid_cmp_loop (n1 n2 : Z) (id1 id2 : leid) : Z :=
  match id1, id2 with
  | p1 :: id1', p2 :: id2' =>
      if negb (pos_cmp p1 p2 =? 0) then pos_cmp p1 p2 else leid_cmp_loop n1 n2 id1' id2'
  | _, _ => n1 - n2
  end.

Definition leid_cmp (id1 id2 : leid) : Z := leid_cmp_loop (num id1) (num id2) id1 id2.

Definition lprefix (p : option leid) (i : nat) : Z :=
  match p with
  | None => 0
  | Some p => match p !! i with Some x => pos x | None => 0 end
  end.

Definition rprefix (p : option leid) (i : nat) : Z :=
  match p with
  | None => BASE
  | Some p => match p !! i with Some x => pos x | None => BASE end
  end.

(** The sum of the clock, as an [int]. *)
Definition clock_count (t : vc) : Z := foldl (λ c x, wrap32 (c + x)) 0 (vector t).

(** [while (rprefix(q, index) - lprefix(p, index) < 2) index++], with fuel. *)
Fixpoint find_index (fuel index : nat) (p q : option leid) : option nat :=
  match fuel with
  | O => None
  | S fuel' =>
      if rprefix q index - lprefix p index <? 2
      then find_index fuel' (S index) p q else Some index
  end.

Definition leid_len (p : option leid) : nat := match p with Some p => length p | None => 0%nat end.

(** Past the ends of both arrays the gap is [BASE], so this is enough. *)
Definition index_fuel (p q : option leid) : nat := S (Nat.max (leid_len p) (leid_len q)).

(** Component [i] of the prefix of the new identifier. *)
Definition leid_fill (p q : option leid) (t : vc) (i : nat) : position :=
  match p with
  | Some p =>
      match p !! i with
      | Some x => x
      | None =>
          match q with
          | Some q => match q !! i with Some y => y | None => mkPos 0 (vid t) (clock_count t) end
          | None => mkPos 0 (vid t) (clock_count t)
          end
      end
  | None => mkPos 0 0 0
  end.

Definition constructLeid (p q : option leid) (t : vc) : option leid :=
  index ← find_index (index_fuel p q) 0 p q;
  Some ((leid_fill p q t <$> seq 0 index)
        ++ [mkPos (lprefix p index + 1) (vid t) (clock_count t)]).

(** ** Wire format *)

Definition pos_to_sds (x : position) : sds :=
  fmt_d (pos x) +:+ String "," (fmt_d (ppid x) +:+ String "," (fmt_d (pcount x))).

(** [None]: no component, [p->p[0]] is read out of bounds. *)
Fixpoint leidToSds (p : leid) : option sds :=
  match p with
  | [] => None
  | [x] => Some (pos_to_sds x)
  | x :: p' => s ← leidToSds p'; Some (pos_to_sds x +:+ String "|" s)
  end.

Definition leid_buf_size : nat := 1024.

(** [while ( *p != '|' && *p != '\0') p++]. *)
Fixpoint skip_to_bar (s : sds) : sds :=
  match s with
  | EmptyString => EmptyString
  | String a s' => if (code a =? 124) || (code a =? 0) then s else skip_to_bar s'
  end.

Definition comma (a : ascii) : bool := code a =? 44.

(** [while ( *p != ',') p++; p++]. *)
Definition after_comma (s : sds) : option sds :=
  r ← skip_until comma s;
  match r with String _ r' => Some r' | EmptyString => None end.

(** The parsing loop; [n] is the number of free slots of [leid_buf]. *)
Fixpoint sdsToLeid_loop (n : nat) (p : sds) : option leid :=
  match n with
  | O => None
  | S n' =>
      p2 ← after_comma p;
      p3 ← after_comma p2;
      let x := mkPos (atoi p) (atoi p2) (atoi p3) in
      match skip_to_bar p3 with
      | String a r =>
          if code a =? 0 then Some [x] else l ← sdsToLeid_loop n' r; Some (x :: l)
      | EmptyString => Some [x]
      end
  end.

Definition sdsToLeid (s : sds) : option leid := sdsToLeid_loop leid_buf_size s.

(** ** Element properties (the [FORALL] macros)

    Three integer properties and three bits of [property]; every one of the
    six has a timestamp of type [A]. *)

Inductive list_prop := Pfont | Psize | Pcolor | Pbold | Pitalic | Punderline.

#[global] Instance list_prop_eq_dec : EqDecision list_prop.
Proof. solve_decision. Defined.

(** The chain of [strcmp]s on the lower-cased type argument. *)
Definition prop_of (type : sds) : option list_prop :=
  if strcmp_eq type "font" then Some Pfont
  else if strcmp_eq type "size" then Some Psize
  else if strcmp_eq type "color" then Some Pcolor
  else if strcmp_eq type "bold" then Some Pbold
  else if strcmp_eq type "italic" then Some Pitalic
  else if strcmp_eq type "underline" then Some Punderline
  else None.

Record stamps (A : Type) := mkStamps {
  font_t : A; size_t : A; color_t : A; bold_t : A; italic_t : A; underline_t : A
}.
Arguments mkStamps {_} _ _ _ _ _ _.
Arguments font_t {_} _.
Arguments size_t {_} _.
Arguments color_t {_} _.
Arguments bold_t {_} _.
Arguments italic_t {_} _.
Arguments underline_t {_} _.

Definition stamps_all {A} (t : A) : stamps A := mkStamps t t t t t t.

Definition get_stamp {A} (p : list_prop) (s : stamps A) : A :=
  match p with
  | Pfont => font_t s | Psize => size_t s | Pcolor => color_t s
  | Pbold => bold_t s | Pitalic => italic_t s | Punderline => underline_t s
  end.

Definition set_stamp {A} (p : list_prop) (t : A) (s : stamps A) : stamps A :=
  match p with
  | Pfont => mkStamps t (size_t s) (color_t s) (bold_t s) (italic_t s) (underline_t s)
  | Psize => mkStamps (font_t s) t (color_t s) (bold_t s) (italic_t s) (underline_t s)
  | Pcolor => mkStamps (font_t s) (size_t s) t (bold_t s) (italic_t s) (underline_t s)
  | Pbold => mkStamps (font_t s) (size_t s) (color_t s) t (italic_t s) (underline_t s)
  | Pitalic => mkStamps (font_t s) (size_t s) (color_t s) (bold_t s) t (underline_t s)
  | Punderline => mkStamps (font_t s) (size_t s) (color_t s) (bold_t s) (italic_t s) t
  end.

(** The values; an integer property is [None] while it is not initialised. *)
Record attrs := mkAttrs {
  at_font : option Z; at_size : option Z; at_color : option Z; at_property : Z
}.

Definition __bold : Z := Z.shiftl 1 0.
Definition __italic : Z := Z.shiftl 1 1.
Definition __underline : Z := Z.shiftl 1 2.

(** [if (value == 0) property &= ~bit; else property |= bit]. *)
Definition set_bit (bit value : Z) (a : attrs) : attrs :=
  mkAttrs (at_font a) (at_size a) (at_color a)
    (if value =? 0 then Z.land (at_property a) (Z.lnot bit) else Z.lor (at_property a) bit).

(** Assign a [long long] to a property. *)
Definition set_attr (p : list_prop) (value : Z) (a : attrs) : attrs :=
  match p with
  | Pfont => mkAttrs (Some (wrap32 value)) (at_size a) (at_color a) (at_property a)
  | Psize => mkAttrs (at_font a) (Some (wrap32 value)) (at_color a) (at_property a)
  | Pcolor => mkAttrs (at_font a) (at_size a) (Some (wrap32 value)) (at_property a)
  | Pbold => set_bit __bold value a
  | Pitalic => set_bit __italic value a
  | Punderline => set_bit __underline value a
  end.

(** ** Fields of the hash that holds a list *)

Section fields.
Context {cell : Type}.

(** [GET_LIST_HT]. *)
Definition GET_LIST_HT (name : sds) (create : bool) : M cell (option sds) :=
  getInnerHT name None create.

(** The same where the code uses the result without a check. *)
Definition get_list_ht (name : sds) (create : bool) : M cell sds :=
  ht ← GET_LIST_HT name create;
  orfault NullDeref ht.

Definition getHead (ht : sds) : M cell (option loc) :=
  value ← hashTypeGetValueObject ht "head";
  match value with
  | None => mret None
  | Some (HPtr e) => mret (Some e)
  | Some (HInt _) => cfault BadCast
  end.

Definition setHead (ht : sds) (e : loc) : M cell () := hashTypeSet ht "head" (HPtr e).

Definition getCurrent `{!Stored cell vc} (ht : sds) : M cell loc :=
  value ← hashTypeGetValueObject ht "current";
  match value with
  | None =>
      w ← get;
      e ← alloc (vc_new w);
      hashTypeSet ht "current" (HPtr e);;
      mret e
  | Some (HPtr e) => mret e
  | Some (HInt _) => cfault BadCast
  end.

Definition getLen (ht : sds) : M cell Z :=
  value ← hashTypeGetValueObject ht "length";
  match value with
  | None => mret 0
  | Some (HInt len) => mret len
  | Some (HPtr _) => cfault BadCast
  end.

Definition incrLen (ht : sds) (inc : Z) : M cell () :=
  if inc =? 0 then mret ()
  else
    len ← getLen ht;
    hashTypeSet ht "length" (HInt (wrap32 (len + inc))).

(** Replies of the two insert commands. *)
Definition crlf : sds := String "013" (String "010" EmptyString).

Definition err_no_pre (s : sds) : reply :=
  RSds ("-No pre element " +:+ s +:+ " in the list." +:+ crlf).
Definition err_readd (s : sds) : reply :=
  RSds ("-Element " +:+ s +:+ " hasn't been added, can't be readded." +:+ crlf).
Definition err_position (s : sds) : reply :=
  RSds ("-Element " +:+ s +:+ " has set its position, can only be readded." +:+ crlf).

(** Body shared by [rllen] and [rwfllen]. *)
Definition lenCommand : M cell () :=
  key ← arg 1;
  o ← lookupKey key;
  match o with
  | None => addReply RZero
  | Some (OHash _) => len ← getLen key; addReply (RInt len)
  | Some _ => addReply RWrongType
  end.

(** The items of one element in the reply of [rllist] and [rwfllist]. *)
Definition reply_element (oid content : option sds) (a : attrs) : M cell () :=
  addReply (RArrayLen 6);;
  oid ← orfault NullDeref oid;
  addReply (RBulk oid);;
  content ← orfault NullDeref content;
  addReply (RBulk content);;
  f ← orfault Uninit (at_font a);
  addReply (RBulk (fmt_d f));;
  s ← orfault Uninit (at_size a);
  addReply (RBulk (fmt_d s));;
  c ← orfault Uninit (at_color a);
  addReply (RBulk (fmt_d c));;
  addReply (RBulk (fmt_d (at_property a))).

End fields.
