(* ===== verification/Leid.v ===== *)
(** * The order of list identifiers

    [leid_cmp] is the lexicographic order of positions, the wire format keeps
    identifiers, and [constructLeid] makes an identifier after its left
    neighbour and, but for one case, before its right neighbour. *)

From Stdlib Require Import Ascii.
From S2P Require Import Prelude.
From S2P Require Import Sds.
From S2P Require Import VectorClock.
From S2P Require Import ListBasics.

#[local] Open Scope Z_scope.

(** ** The order *)

Definition pos_lt (x y : position) : Prop :=
  pos x < pos y ∨ (pos x = pos y ∧ (ppid x < ppid y ∨ (ppid x = ppid y ∧ pcount x < pcount y))).

Fixpoint leid_lt (a b : leid) : Prop :=
  match a, b with
  | [], _ :: _ => True
  | x :: a', y :: b' => pos_lt x y ∨ (x = y ∧ leid_lt a' b')
  | _, [] => False
  end.

#[global] Instance pos_lt_dec x y : Decision (pos_lt x y).
Proof. unfold pos_lt. apply _. Defined.

#[global] Instance leid_lt_dec a b : Decision (leid_lt a b).
Proof. revert b. induction a; intros []; simpl; apply _. Defined.

(** Positions as [constructLeid] makes them: differences of their fields are
    [int]s. *)
Definition pos_ok (x : position) : Prop :=
  0 ≤ pos x ≤ BASE ∧ 0 ≤ ppid x ≤ INT_MAX ∧ 0 ≤ pcount x ≤ INT_MAX.

#[global] Instance pos_ok_dec x : Decision (pos_ok x).
Proof. unfold pos_ok. apply _. Defined.

Abbreviation leid_ok := (Forall pos_ok).

Lemma pos_cmp_spec x y :
  pos_ok x → pos_ok y → (pos_cmp x y < 0 ↔ pos_lt x y) ∧ (pos_cmp x y = 0 ↔ x = y) ∧ (0 < pos_cmp x y ↔ pos_lt y x).
Proof.
  destruct x as [p1 i1 c1], y as [p2 i2 c2]. unfold pos_ok, pos_cmp, pos_lt. simpl. intros H1 H2.
  change BASE with 16777216 in *.
  rewrite !wrap32_id by (unfold int32, INT_MIN, INT_MAX in *; lia).
  destruct (Z.eqb_spec p1 p2); destruct (Z.eqb_spec i1 i2); simpl; split_and!; split; intros;
    try (simplify_eq; lia); f_equal; lia.
Qed.

Lemma leid_cmp_loop_spec n1 n2 a b :
  leid_ok a → leid_ok b → n1 - n2 = num a - num b →
  (leid_cmp_loop n1 n2 a b < 0 ↔ leid_lt a b) ∧ (leid_cmp_loop n1 n2 a b = 0 ↔ a = b) ∧ (0 < leid_cmp_loop n1 n2 a b ↔ leid_lt b a).
Proof.
  unfold num. intros Ha. revert b. induction Ha as [|x a Hx Ha IH]; intros b Hb Hn; destruct Hb as [|y b Hy Hb]; simpl in *.
  - split_and!; split; intros; done || lia.
  - split_and!; split; intros; done || lia.
  - split_and!; split; intros; done || lia.
  - destruct (pos_cmp_spec x y Hx Hy) as (H1 & H2 & H3). destruct (Z.eqb_spec (pos_cmp x y) 0) as [He|He]; simpl.
    + destruct (IH b Hb ltac:(lia)) as (I1 & I2 & I3). assert (x = y) as <- by (by apply H2).
      assert (¬ pos_lt x x) by (unfold pos_lt; lia). rewrite I1, I2, I3. split_and!; split; intros; try naive_solver; congruence.
    + assert (x ≠ y) by (by rewrite <- H2). split_and!; split; intros; try naive_solver; try (apply H1; naive_solver); try (apply H3; naive_solver).
Qed.

Lemma leid_cmp_spec a b :
  leid_ok a → leid_ok b →
  (leid_cmp a b < 0 ↔ leid_lt a b) ∧ (leid_cmp a b = 0 ↔ a = b) ∧ (0 < leid_cmp a b ↔ leid_lt b a).
Proof. intros Ha Hb. by apply leid_cmp_loop_spec. Qed.

Lemma leid_lt_irrefl a : ¬ leid_lt a a.
Proof. induction a as [|x a IH]; simpl; [tauto|]. unfold pos_lt. intros [?|[_ ?]]; [lia|done]. Qed.

Lemma leid_lt_trans a b c : leid_lt a b → leid_lt b c → leid_lt a c.
Proof.
  revert b c. induction a as [|x a IH]; intros [|y b] [|z c]; simpl; try tauto.
  intros [H1|[-> H1]] [H2|[-> H2]]; [left; unfold pos_lt in *; lia|left; done|left; done|right; split; [done|by eapply IH]].
Qed.

Lemma leid_lt_total a b : leid_lt a b ∨ a = b ∨ leid_lt b a.
Proof.
  revert b. induction a as [|x a IH]; intros [|y b]; simpl; auto.
  destruct (decide (pos_lt x y)); [auto|]. destruct (decide (pos_lt y x)); [auto|].
  assert (x = y) as <- by (destruct x, y; unfold pos_lt in *; simpl in *; f_equal; lia).
  destruct (IH b) as [?|[->|?]]; auto.
Qed.

Lemma leid_lt_app c a b : leid_lt (c ++ a) (c ++ b) ↔ leid_lt a b.
Proof.
  induction c as [|x c IH]; simpl; [done|]. rewrite IH. assert (¬ pos_lt x x) by (unfold pos_lt; lia). tauto.
Qed.

(** ** A new identifier *)

Definition gap (p q : option leid) (i : nat) : Z := rprefix q i - lprefix p i.

Lemma find_index_spec fuel i p q :
  (Nat.max (leid_len p) (leid_len q) < fuel + i)%nat →
  (∀ j, (j < i)%nat → gap p q j < 2) → (i ≤ Nat.max (leid_len p) (leid_len q))%nat →
  ∃ k, find_index fuel i p q = Some k ∧ (k ≤ Nat.max (leid_len p) (leid_len q))%nat ∧
    2 ≤ gap p q k ∧ ∀ j, (j < k)%nat → gap p q j < 2.
Proof.
  revert i. induction fuel as [|fuel IH]; intros i Hf Hlow Hi; [lia|]. simpl. fold (gap p q i).
  destruct (Z.ltb_spec (gap p q i) 2) as [Hg|Hg]; [|by exists i].
  apply IH; [lia| |].
  - intros j Hj. destruct (decide (j = i)) as [->|]; [done|apply Hlow; lia].
  - destruct (decide (i = Nat.max (leid_len p) (leid_len q))) as [He|]; [|lia]. exfalso.
    assert (rprefix q i = BASE) as Hr.
    { unfold rprefix. destruct q as [q|]; [|done]. simpl in He. by rewrite lookup_ge_None_2 by lia. }
    assert (lprefix p i = 0) as Hl.
    { unfold lprefix. destruct p as [p|]; [|done]. simpl in He. by rewrite lookup_ge_None_2 by lia. }
    unfold gap in Hg. rewrite Hr, Hl in Hg. by vm_compute in Hg.
Qed.

(** The component a new identifier ends with. *)
Definition new_pos (p : option leid) (t : vc) (k : nat) : position := mkPos (lprefix p k + 1) (vid t) (clock_count t).

Lemma constructLeid_index p q t :
  ∃ k, constructLeid p q t = Some ((leid_fill p q t <$> seq 0 k) ++ [new_pos p t k]) ∧
    2 ≤ gap p q k ∧ ∀ j, (j < k)%nat → gap p q j < 2.
Proof.
  destruct (find_index_spec (index_fuel p q) 0 p q) as (k & Hk & _ & Hg & Hlow);
    [unfold index_fuel; lia|lia|lia|].
  exists k. unfold constructLeid. by rewrite Hk.
Qed.

(** The prefix is the left neighbour as far as it goes. *)
Lemma leid_fill_take a q t k : (k ≤ length a)%nat → leid_fill (Some a) q t <$> seq 0 k = take k a.
Proof.
  intros Hk. apply list_eq. intros i. rewrite list_lookup_fmap. destruct (decide (i < k)%nat) as [Hi|Hi].
  - rewrite lookup_seq_lt, lookup_take_lt by done. simpl. destruct (a !! i) as [x|] eqn:Hx; [done|].
    apply lookup_ge_None in Hx. lia.
  - rewrite lookup_seq_ge, lookup_take_ge by lia. done.
Qed.

Lemma leid_fill_app a q t k :
  (length a ≤ k)%nat →
  leid_fill (Some a) q t <$> seq 0 k = a ++ (leid_fill (Some a) q t <$> seq (length a) (k - length a)).
Proof.
  intros Hk. replace k with (length a + (k - length a))%nat at 1 by lia. rewrite seq_app, fmap_app, Nat.add_0_l. f_equal.
  rewrite leid_fill_take by done. apply take_ge. done.
Qed.

Lemma take_middle {A} (l : list A) k x : l !! k = Some x → l = take k l ++ x :: drop (S k) l.
Proof. intros Hx. by rewrite take_drop_middle. Qed.

Lemma lookup_lprefix a k x : a !! k = Some x → lprefix (Some a) k = pos x.
Proof. intros Hx. simpl. by rewrite Hx. Qed.

Lemma lookup_rprefix a k x : a !! k = Some x → rprefix (Some a) k = pos x.
Proof. intros Hx. simpl. by rewrite Hx. Qed.

(** It comes after the left neighbour. *)
Lemma new_after a q t k : leid_lt a ((leid_fill (Some a) q t <$> seq 0 k) ++ [new_pos (Some a) t k]).
Proof.
  destruct (decide (k < length a)%nat) as [Hk|Hk].
  - destruct (lookup_lt_is_Some_2 a k Hk) as [x Hx]. rewrite leid_fill_take by lia.
    rewrite (take_middle a k x Hx) at 1. apply leid_lt_app. simpl. left. left. simpl. rewrite Hx. lia.
  - rewrite leid_fill_app by lia. rewrite <- app_assoc. rewrite <- (app_nil_r a) at 1. apply leid_lt_app.
    destruct (leid_fill _ _ _ <$> _); done.
Qed.

(** Gaps of one neighbour only. *)
Lemma gap_right b k : gap None (Some b) k < 2 → (k < length b)%nat.
Proof.
  unfold gap. simpl. destruct (b !! k) as [y|] eqn:Hy; [intros _; by eapply lookup_lt_Some|]. by vm_compute.
Qed.

(** An identifier ends with a positive position. *)
Definition proper (b : leid) : Prop := ∃ y, last b = Some y ∧ 1 ≤ pos y.

Definition zero_pos : position := mkPos 0 0 0.

Lemma zero_pos_lt y : pos_ok y → y = zero_pos ∨ pos_lt zero_pos y.
Proof.
  destruct y as [p i c]. unfold pos_ok, pos_lt, zero_pos. simpl. intros H.
  destruct (decide (p = 0)); [|lia]. destruct (decide (i = 0)); [|lia]. destruct (decide (c = 0)); [|lia]. left. congruence.
Qed.

(** Before the first element of the list. *)
Lemma zeros_before k x b :
  pos x = 1 → leid_ok b → proper b → (k ≤ length b)%nat → (∀ y, b !! k = Some y → 2 ≤ pos y) →
  leid_lt (replicate k zero_pos ++ [x]) b.
Proof.
  intros Hx Hb. revert k. induction Hb as [|y b Hy Hb IH]; intros k [z [Hz Hz1]] Hk Hg; [done|].
  destruct k as [|k]; simpl.
  { left. left. specialize (Hg y eq_refl). lia. }
  destruct (zero_pos_lt y Hy) as [->|Hlt]; [|by left]. right. split; [done|].
  destruct b as [|y' b]; [simpl in Hz; injection Hz as <-; simpl in Hz1; lia|].
  apply IH; [by exists z|simpl in *; lia|done].
Qed.

Lemma new_before_head b t k :
  leid_ok b → proper b → 2 ≤ gap None (Some b) k → (∀ j, (j < k)%nat → gap None (Some b) j < 2) →
  leid_lt ((leid_fill None (Some b) t <$> seq 0 k) ++ [new_pos None t k]) b.
Proof.
  intros Hb Hp Hg Hlow.
  assert (leid_fill None (Some b) t <$> seq 0 k = replicate k zero_pos) as ->.
  { apply list_eq. intros i. rewrite list_lookup_fmap. destruct (decide (i < k)%nat) as [Hi|Hi].
    - by rewrite lookup_seq_lt, lookup_replicate_2 by done.
    - rewrite lookup_seq_ge by lia. by rewrite lookup_ge_None_2 by (rewrite length_replicate; lia). }
  apply zeros_before; [done|done|done| |].
  - destruct k as [|k]; [lia|]. pose proof (gap_right b k (Hlow k ltac:(lia))). lia.
  - intros y Hy. unfold gap in Hg. rewrite (lookup_rprefix b k y Hy) in Hg. simpl in Hg. lia.
Qed.

(** How one identifier is below another. *)
Lemma leid_lt_split a b :
  leid_lt a b →
  (∃ y r, b = a ++ y :: r) ∨ ∃ c x y a' b', a = c ++ x :: a' ∧ b = c ++ y :: b' ∧ pos_lt x y.
Proof.
  revert b. induction a as [|x a IH]; intros [|y b]; simpl; try done; [left; by exists y, b|].
  intros [Hxy|[<- Hab]]; [right; by exists [], x, y, a, b|].
  destruct (IH b Hab) as [(z & r & ->)|(c & u & v & a' & b' & -> & -> & Huv)]; [left; by exists z, r|].
  right. by exists (x :: c), u, v, a', b'.
Qed.

(** The neighbours differ in some component. *)
Lemma new_between_diff c x y a' b' q t k :
  let a := c ++ x :: a' in
  q = Some (c ++ y :: b') → pos_lt x y → 2 ≤ gap (Some a) q k → 
  leid_lt ((leid_fill (Some a) q t <$> seq 0 k) ++ [new_pos (Some a) t k]) (c ++ y :: b').
Proof.
  intros a -> Hxy Hg. unfold gap in Hg.
  assert (a !! length c = Some x) as Hx by (unfold a; by rewrite list_lookup_middle).
  assert ((c ++ y :: b') !! length c = Some y) as Hy by (by rewrite list_lookup_middle).
  destruct (lt_eq_lt_dec k (length c)) as [[Hk|Hk]|Hk].
  - exfalso. destruct (lookup_lt_is_Some_2 c k Hk) as [z Hz].
    rewrite (lookup_rprefix _ k z), (lookup_lprefix _ k z) in Hg by (unfold a; by apply lookup_app_l_Some). lia.
  - subst k. rewrite (lookup_rprefix _ _ y Hy), (lookup_lprefix _ _ x Hx) in Hg.
    rewrite leid_fill_take by (unfold a; rewrite length_app; lia).
    assert (take (length c) a = c) as -> by (unfold a; by rewrite take_app_length).
    apply leid_lt_app. unfold new_pos. rewrite (lookup_lprefix _ _ x Hx). left. left. cbn [pos]. lia.
  - assert (∃ r, leid_fill (Some a) (Some (c ++ y :: b')) t <$> seq 0 k = c ++ x :: r) as [r ->].
    { exists (leid_fill (Some a) (Some (c ++ y :: b')) t <$> seq (S (length c)) (k - S (length c))).
      replace k with (S (length c) + (k - S (length c)))%nat at 1 by lia. rewrite seq_app, fmap_app, Nat.add_0_l.
      rewrite leid_fill_take by (unfold a; rewrite length_app; simpl; lia). unfold a.
      rewrite take_app_ge by lia. replace (S (length c) - length c)%nat with 1%nat by lia. by rewrite <- app_assoc. }
    rewrite <- app_assoc. apply leid_lt_app. by left.
Qed.

(** The left neighbour is the beginning of the right one. *)
Lemma new_between_prefix a r t k :
  let q := Some (a ++ r) in
  2 ≤ gap (Some a) q k → (∀ j, (j < k)%nat → gap (Some a) q j < 2) →
  ∃ m, k = (length a + m)%nat ∧ (m ≤ length r)%nat ∧
    (leid_fill (Some a) q t <$> seq 0 k) ++ [new_pos (Some a) t k] = a ++ take m r ++ [mkPos 1 (vid t) (clock_count t)] ∧
    Forall (λ x, pos x ≤ 1) (take m r) ∧ ∀ y, r !! m = Some y → 2 ≤ pos y.
Proof.
  intros q Hg Hlow. unfold gap, q in *.
  assert (length a ≤ k)%nat as Hk.
  { destruct (decide (length a ≤ k)%nat) as [|Hlt]; [done|]. exfalso. destruct (lookup_lt_is_Some_2 a k ltac:(lia)) as [z Hz].
    rewrite (lookup_rprefix _ k z), (lookup_lprefix _ k z) in Hg by (done || by apply lookup_app_l_Some). lia. }
  assert (∀ i, (length a ≤ i)%nat → lprefix (Some a) i = 0) as Hl.
  { intros i Hi. simpl. by rewrite lookup_ge_None_2. }
  assert (∀ i y, r !! i = Some y → rprefix (Some (a ++ r)) (length a + i) = pos y) as Hr.
  { intros i y Hy. apply lookup_rprefix. rewrite lookup_app_r by lia. by replace (length a + i - length a)%nat with i by lia. }
  exists (k - length a)%nat. set (m := (k - length a)%nat). assert (k = (length a + m)%nat) as Hkm by lia.
  assert (m ≤ length r)%nat as Hm.
  { destruct (decide (m ≤ length r)%nat) as [|Hgt]; [done|]. exfalso. specialize (Hlow (length a + length r)%nat ltac:(lia)).
    rewrite (Hl (length a + length r)%nat) in Hlow by lia. simpl in Hlow. rewrite lookup_ge_None_2 in Hlow by (rewrite length_app; lia).
    by vm_compute in Hlow. }
  split_and!; [done|done| | |].
  - unfold new_pos. rewrite (Hl k Hk), leid_fill_app, <- app_assoc by done. do 2 f_equal. fold m.
    apply list_eq. intros i. rewrite list_lookup_fmap. destruct (decide (i < m)%nat) as [Hi|Hi].
    + rewrite lookup_seq_lt, lookup_take_lt by done. simpl. rewrite (lookup_ge_None_2 a (length a + i)) by lia. rewrite lookup_app_r by lia.
      replace (length a + i - length a)%nat with i by lia. destruct (r !! i) eqn:Hri; [done|]. apply lookup_ge_None in Hri. lia.
    + rewrite lookup_seq_ge, lookup_take_ge by lia. done.
  - apply Forall_lookup. intros i y [Hy Hi]%lookup_take_Some. specialize (Hlow (length a + i)%nat ltac:(lia)).
    rewrite (Hr i y Hy), (Hl (length a + i)%nat) in Hlow by lia. lia.
  - intros y Hy. rewrite Hkm, (Hr m y Hy), (Hl (length a + m)%nat) in Hg by lia. lia.
Qed.

(** No room: the right neighbour continues the left one with positions 0 and
    1 only. *)
Definition blocked (p q : option leid) : Prop :=
  match p, q with
  | Some a, Some b => take (length a) b = a ∧ Forall (λ x, pos x ≤ 1) (drop (length a) b)
  | _, _ => False
  end.

#[global] Instance blocked_dec p q : Decision (blocked p q).
Proof. destruct p, q; simpl; apply _. Defined.

Definition before (id : leid) (q : option leid) : Prop := match q with Some b => leid_lt id b | None => True end.
Definition after (p : option leid) (id : leid) : Prop := match p with Some a => leid_lt a id | None => True end.

Lemma new_before_prefix a r t k :
  let q := Some (a ++ r) in
  r ≠ [] → 2 ≤ gap (Some a) q k → (∀ j, (j < k)%nat → gap (Some a) q j < 2) →
  leid_lt ((leid_fill (Some a) q t <$> seq 0 k) ++ [new_pos (Some a) t k]) (a ++ r) ↔ ¬ blocked (Some a) q.
Proof.
  intros q Hr Hg Hlow. subst q. destruct (new_between_prefix a r t k Hg Hlow) as (m & -> & Hm & -> & Hpos & Hnext).
  simpl. rewrite take_app_length, drop_app_length, leid_lt_app.
  destruct (decide (m < length r)%nat) as [Hlt|Hge].
  - destruct (lookup_lt_is_Some_2 r m Hlt) as [y Hy]. specialize (Hnext y Hy). rewrite (take_middle r m y Hy) at 2.
    rewrite leid_lt_app. split; [|intros _; left; left; simpl; lia]. intros _ [_ Hall].
    rewrite Forall_lookup in Hall. specialize (Hall m y Hy). lia.
  - rewrite take_ge in * by lia. split; [|by intros []]. intros Hlt. exfalso. rewrite <- (app_nil_r r) in Hlt at 2.
    by apply leid_lt_app in Hlt.
Qed.

(** Between ordered neighbours, before the right one unless blocked. *)
Lemma new_before p q t k :
  (∀ b, q = Some b → leid_ok b ∧ proper b) → (∀ a b, p = Some a → q = Some b → leid_lt a b) →
  2 ≤ gap p q k → (∀ j, (j < k)%nat → gap p q j < 2) →
  before ((leid_fill p q t <$> seq 0 k) ++ [new_pos p t k]) q ↔ ¬ blocked p q.
Proof.
  intros Hq Hpq Hg Hlow. destruct q as [b|]; [|destruct p; simpl; tauto]. destruct (Hq b eq_refl) as [Hb Hpb].
  destruct p as [a|]; [|split; [by intros _ []|intros _; by apply new_before_head]].
  destruct (leid_lt_split a b (Hpq a b eq_refl eq_refl)) as [(y & r & ->)|(c & x & y & a' & b' & -> & -> & Hxy)].
  - by apply new_before_prefix.
  - split; [|intros _; by eapply new_between_diff]. intros _ [Htake _].
    apply (f_equal (lookup (length c))) in Htake. rewrite lookup_take_lt, !list_lookup_middle in Htake by (done || rewrite length_app; simpl; lia).
    simplify_eq. unfold pos_lt in Hxy. lia.
Qed.

(** The new identifier is as good as its neighbours. *)
Lemma new_ok p q t k :
  (∀ a, p = Some a → leid_ok a) → (∀ b, q = Some b → leid_ok b) → 0 ≤ vid t ≤ INT_MAX → 0 ≤ clock_count t ≤ INT_MAX →
  2 ≤ gap p q k → leid_ok ((leid_fill p q t <$> seq 0 k) ++ [new_pos p t k]).
Proof.
  intros Hp Hq Hid Hc Hg.
  assert (pos_ok zero_pos ∧ pos_ok (mkPos 0 (vid t) (clock_count t))) as [Hz Hz'].
  { unfold pos_ok, zero_pos. simpl. change BASE with 16777216. unfold INT_MAX in *. lia. }
  apply Forall_app. split; [|apply Forall_singleton].
  - apply Forall_forall. intros x (i & -> & _)%list_elem_of_fmap. unfold leid_fill.
    destruct p as [a|]; [|done]. destruct (a !! i) as [x|] eqn:Hx; [by eapply (Forall_lookup_1 _ a); [apply Hp|]|].
    destruct q as [b|]; [|done]. destruct (b !! i) as [y|] eqn:Hy; [by eapply (Forall_lookup_1 _ b); [apply Hq|]|done].
  - unfold gap in Hg. assert (0 ≤ lprefix p k) as Hl.
    { unfold lprefix. destruct p as [a|]; [|done]. destruct (a !! k) as [x|] eqn:Hx; [|done].
      pose proof (Forall_lookup_1 _ a k x (Hp a eq_refl) Hx) as [? _]. lia. }
    assert (rprefix q k ≤ BASE) as Hr.
    { unfold rprefix. destruct q as [b|]; [|done]. destruct (b !! k) as [y|] eqn:Hy; [|done].
      pose proof (Forall_lookup_1 _ b k y (Hq b eq_refl) Hy) as [? _]. lia. }
    unfold pos_ok, new_pos. simpl. lia.
Qed.

Lemma new_proper p q t k : (∀ a, p = Some a → leid_ok a) → proper ((leid_fill p q t <$> seq 0 k) ++ [new_pos p t k]).
Proof.
  intros Hp. exists (new_pos p t k). split; [by apply last_snoc|]. unfold new_pos, lprefix. simpl.
  destruct p as [a|]; [|lia]. destruct (a !! k) as [x|] eqn:Hx; [|lia].
  pose proof (Forall_lookup_1 _ a k x (Hp a eq_refl) Hx) as [? _]. lia.
Qed.

(** ** Wire format *)

Definition pos_int32 (x : position) : Prop := int32 (pos x) ∧ int32 (ppid x) ∧ int32 (pcount x).

#[global] Instance pos_int32_dec x : Decision (pos_int32 x).
Proof. unfold pos_int32. apply _. Defined.

Lemma pos_ok_int32 x : pos_ok x → pos_int32 x.
Proof. unfold pos_ok, pos_int32, int32, INT_MIN, INT_MAX. change BASE with 16777216. lia. Qed.

Lemma comma_num a : num_char a = true → comma a = false.
Proof. intros H. destruct (comma a) eqn:Hc; [|done]. unfold comma in Hc. apply Z.eqb_eq in Hc. unfold num_char, isdigit in H. rewrite Hc in H. done. Qed.

Lemma bar_num a : num_char a = true → (code a =? 124) || (code a =? 0) = false.
Proof.
  intros H. destruct (Z.eqb_spec (code a) 124) as [He|_]; [unfold num_char, isdigit in H; by rewrite He in H|].
  destruct (Z.eqb_spec (code a) 0) as [He|_]; [unfold num_char, isdigit in H; by rewrite He in H|done].
Qed.

Lemma skip_to_bar_over s r : all_chars num_char s = true → skip_to_bar (s +:+ r) = skip_to_bar r.
Proof.
  induction s as [|a s IH]; [done|]. rewrite sds_app_cons. cbn [all_chars skip_to_bar]. intros [Ha Hs]%andb_true_iff.
  rewrite bar_num by done. by apply IH.
Qed.

Lemma after_comma_fmt z r : after_comma (fmt_d z +:+ String "," r) = Some r.
Proof. unfold after_comma. rewrite skip_until_fmt by (done || apply comma_num). done. Qed.

(** One component, followed by the end or by a bar. *)
Lemma parse_pos n x r :
  pos_int32 x → head_digit r = false →
  sdsToLeid_loop (S n) (pos_to_sds x +:+ r) =
    match skip_to_bar r with
    | String a r' => if code a =? 0 then Some [x] else l ← sdsToLeid_loop n r'; Some (x :: l)
    | EmptyString => Some [x]
    end.
Proof.
  intros (H1 & H2 & H3) Hr. unfold pos_to_sds. rewrite <- !sds_app_assoc, !sds_app_cons, <- !sds_app_assoc, !sds_app_cons.
  cbn [sdsToLeid_loop]. rewrite after_comma_fmt. cbn [mbind option_bind]. rewrite after_comma_fmt. cbn [mbind option_bind].
  rewrite !atoi_fmt by done. rewrite skip_to_bar_over by apply fmt_d_chars. by destruct x.
Qed.

Lemma leid_roundtrip_loop n id :
  id ≠ [] → (length id ≤ n)%nat → Forall pos_int32 id → ∃ s, leidToSds id = Some s ∧ sdsToLeid_loop n s = Some id.
Proof.
  revert n. induction id as [|x id IH]; intros n Hne Hlen Hid; [done|]. destruct n as [|n]; [simpl in Hlen; lia|].
  apply Forall_cons in Hid as [Hx Hid]. destruct id as [|y id].
  - exists (pos_to_sds x). split; [done|]. rewrite <- (sds_app_nil (pos_to_sds x)). by rewrite parse_pos.
  - destruct (IH n) as (s & Hs & Hloop); [done|simpl in *; lia|done|].
    exists (pos_to_sds x +:+ String "|" s). split.
    + change (leidToSds (x :: y :: id)) with (s ← leidToSds (y :: id); Some (pos_to_sds x +:+ String "|" s)). by rewrite Hs.
    + rewrite parse_pos by done. cbn [skip_to_bar]. change (code "|" =? 124) with true. cbn [orb].
      change (code "|" =? 0) with false. cbv iota. by rewrite Hloop.
Qed.

Lemma leid_roundtrip id :
  (1 ≤ length id ≤ leid_buf_size)%nat → Forall pos_int32 id → ∃ s, leidToSds id = Some s ∧ sdsToLeid s = Some id.
Proof. intros Hlen Hid. apply leid_roundtrip_loop; [intros ->; simpl in *; lia|lia|done]. Qed.

(** ** Properties *)

(** C34: Identifiers are strictly and totally ordered by [leid_cmp]: on
    identifiers with positions in range it is negative, zero or positive
    exactly when the first is below, equal to or above the second in the
    lexicographic order, a prefix being below its extensions. *)
Theorem leid_cmp_order a b c :
  leid_ok a → leid_ok b → leid_ok c →
  (leid_cmp a b < 0 ↔ leid_lt a b) ∧ (leid_cmp a b = 0 ↔ a = b) ∧ (0 < leid_cmp a b ↔ leid_cmp b a < 0) ∧
  (leid_cmp a b < 0 → leid_cmp b c < 0 → leid_cmp a c < 0).
Proof.
  intros Ha Hb Hc. destruct (leid_cmp_spec a b Ha Hb) as (-> & -> & ->). destruct (leid_cmp_spec b a Hb Ha) as (-> & _).
  destruct (leid_cmp_spec b c Hb Hc) as (-> & _). destruct (leid_cmp_spec a c Ha Hc) as (-> & _). split_and!; [done..|].
  apply leid_lt_trans.
Qed.

Definition ex_id1 : leid := [mkPos 5 0 1].
Definition ex_id2 : leid := [mkPos 5 0 1; mkPos 1 2 7].
Definition ex_id3 : leid := [mkPos 5 1 0].

Lemma leid_cmp_order_witness : leid_cmp ex_id1 ex_id2 < 0 ∧ leid_cmp ex_id2 ex_id3 < 0 ∧ leid_cmp ex_id1 ex_id3 < 0.
Proof.
  assert (∀ x, bool_decide (leid_ok x) = true → leid_ok x) as Hd by (intros x Hx; apply (bool_decide_unpack _); rewrite Hx; exact I).
  destruct (leid_cmp_order ex_id1 ex_id2 ex_id3) as (H1 & _ & _ & H2); [apply Hd; vm_compute; reflexivity..|].
  assert (leid_cmp ex_id1 ex_id2 < 0) as H3 by (apply H1; right; split; [reflexivity|exact I]).
  split; [exact H3|]. split; [vm_compute; reflexivity|]. apply H2; [exact H3|vm_compute; reflexivity].
Defined.

(** C36: Identifiers survive the wire: what [sdsToLeid] reads from the string of
    an identifier of 1 to 1024 components is that identifier. *)
Theorem leid_wire_roundtrip id :
  (1 ≤ length id ≤ leid_buf_size)%nat → Forall pos_int32 id → ∃ s, leidToSds id = Some s ∧ sdsToLeid s = Some id.
Proof. apply leid_roundtrip. Qed.

Lemma leid_wire_roundtrip_witness : ∃ s, leidToSds ex_id2 = Some s ∧ sdsToLeid s = Some ex_id2.
Proof.
  apply leid_wire_roundtrip; [vm_compute; lia|]. apply (bool_decide_unpack _). vm_compute. exact I.
Defined.

(** C35: [constructLeid] always ends, and makes an identifier that is above its
    left neighbour, in range, and positive at its end like its neighbours; it
    is below its right neighbour except when that continues the left
    neighbour with positions 0 and 1 only, and then it never is. *)
Theorem constructLeid_between p q t :
  (∀ a, p = Some a → leid_ok a) → (∀ b, q = Some b → leid_ok b ∧ proper b) →
  (∀ a b, p = Some a → q = Some b → leid_lt a b) → 0 ≤ vid t ≤ INT_MAX → 0 ≤ clock_count t ≤ INT_MAX →
  ∃ id, constructLeid p q t = Some id ∧ leid_ok id ∧ proper id ∧ after p id ∧ (before id q ↔ ¬ blocked p q).
Proof.
  intros Hp Hq Hpq Hid Hc. destruct (constructLeid_index p q t) as (k & -> & Hg & Hlow). eexists. split; [done|]. split_and!.
  - apply new_ok; [done| |done..]. intros b Hb. by apply Hq.
  - by apply new_proper.
  - destruct p as [a|]; [|done]. apply new_after.
  - by apply new_before.
Qed.

Lemma constructLeid_between_witness :
  ∃ id, constructLeid (Some ex_id1) (Some ex_id3) (mkVc [3; 0; 2] 2) = Some id ∧ leid_lt ex_id1 id ∧ leid_lt id ex_id3.
Proof.
  destruct (constructLeid_between (Some ex_id1) (Some ex_id3) (mkVc [3; 0; 2] 2)) as (id & H1 & _ & _ & H2 & H3).
  - intros a [= <-]. apply (bool_decide_unpack _). vm_compute. exact I.
  - intros b [= <-]. split; [apply (bool_decide_unpack _); vm_compute; exact I|].
    exists (mkPos 5 1 0). split; [reflexivity|vm_compute; discriminate].
  - intros a b [= <-] [= <-]. left. right. split; [reflexivity|left; reflexivity].
  - vm_compute. split; discriminate.
  - vm_compute. split; discriminate.
  - exists id. split; [exact H1|]. split; [exact H2|]. apply H3. intros H. vm_compute in H. destruct H as [H _]. discriminate H.
Defined.
