(* ===== verification/ListChain.v ===== *)
(** * Chains of list elements

    What the two list types keep under a key: a hash with a pointer to every
    element struct, the pointer [head] to the first element of the chain and
    the integer [length].  [lcont] relates a world to such a list, [chained]
    says which elements the chain goes through, and [node_link_spec] that
    linking a new element puts it where the order of identifiers wants it. *)

From stdpp Require Import sorting.
From S2P Require Import Prelude.
From S2P Require Import Sds.
From S2P Require Import VectorClock.
From S2P Require Import Skiplist.
From S2P Require Import Server.
From S2P Require Import Container.
From S2P Require Import ListBasics.
From S2P Require Import Leid.

#[local] Open Scope Z_scope.

(** ** Elements as nodes *)

Class Node (A : Type) := {
  n_pos : A → option leid;
  n_next : A → option loc;
  n_set_next : option loc → A → A;
  n_next_set o x : n_next (n_set_next o x) = o;
  n_pos_set o x : n_pos (n_set_next o x) = n_pos x;
  n_set_set o o' x : n_set_next o (n_set_next o' x) = n_set_next o x;
  n_set_id x : n_set_next (n_next x) x = x
}.

(** Names of elements that clash with the fields of the hash. *)
Definition reserved (f : sds) : Prop := f ∈ (["head"; "current"; "length"; "ops"] : list sds).

#[global] Instance reserved_dec f : Decision (reserved f).
Proof. unfold reserved. apply _. Defined.

Lemma reserved_head : reserved "head".
Proof. apply (bool_decide_unpack _). by vm_compute. Qed.
Lemma reserved_length : reserved "length".
Proof. apply (bool_decide_unpack _). by vm_compute. Qed.

(** The contents of a field of a hash in the keyspace. *)
Definition hash_field {cell} (w : world cell) (key f : sds) : option hval :=
  match w_db w !! key with Some (OHash h) => h !! f | _ => None end.

(** The fields that belong to the list, not to its chain. *)
Definition side_field (f : sds) : Prop := f = "current" ∨ f = "ops".

(** What an operation on the elements of a list leaves alone: the setup of the
    server, the side fields, and cells that are not elements. *)
Record same_setup {cell} (A : Type) `{!Stored cell A} (w w' : world cell) : Prop := {
  ss_setup : (w_replicas w', w_p2p_count w', w_p2p_id w', w_conf w', w_client w')
    = (w_replicas w, w_p2p_count w, w_p2p_id w, w_conf w, w_client w);
  ss_field key f : side_field f → hash_field w' key f = hash_field w key f;
  ss_heap l c : w_heap w !! l = Some c → of_cell (A := A) c = None → w_heap w' !! l = Some c
}.

#[global] Instance same_setup_preorder {cell A} `{!Stored cell A} : PreOrder (same_setup (cell := cell) A).
Proof.
  split; [done|]. intros w1 w2 w3 [H1 F1 C1] [H2 F2 C2]. split; [congruence|..].
  - intros key f Hf. rewrite F2 by done. by apply F1.
  - intros l c Hl Hc. apply C2; [|done]. by apply C1.
Qed.

(** Writing an element, or a field that is not a side field. *)
Lemma same_setup_heap {cell A} `{!Stored cell A} (w : world cell) l (a : A) :
  (∀ c, w_heap w !! l = Some c → of_cell (A := A) c ≠ None) →
  same_setup A w (set_heap (<[l := to_cell a]> (w_heap w)) w).
Proof.
  intros Hl. split; [done..|]. simpl. intros l' c Hc Hn. rewrite lookup_insert_ne; [done|]. intros <-. by destruct (Hl c).
Qed.

Lemma same_setup_db {cell A} `{!Stored cell A} (w : world cell) key h h' :
  w_db w !! key = Some (OHash h) ∨ (w_db w !! key = None ∧ h = ∅) → (∀ f, side_field f → h' !! f = h !! f) →
  same_setup A w (set_db (<[key := OHash h']> (w_db w)) w).
Proof.
  intros Hk Hf. split; [done| |done]. intros key' f Hs. unfold hash_field. simpl. destruct (decide (key = key')) as [<-|Hne].
  - rewrite lookup_insert_eq, Hf by done. destruct Hk as [->|[-> ->]]; [done|]. apply lookup_empty.
  - by rewrite lookup_insert_ne.
Qed.

Lemma side_reserved f : side_field f → reserved f ∧ f ≠ "head" ∧ f ≠ "length".
Proof. intros [->| ->]; (split; [apply (bool_decide_unpack _); by vm_compute|done]). Qed.

Lemma same_setup_rargv {cell A} `{!Stored cell A} (w w' : world cell) r :
  same_setup A w w' → rargv (w_client w) = Some r → rargv (w_client w') = Some r.
Proof. intros [H _ _]. congruence. Qed.

(** The client, but for the message being processed. *)
Definition same_client {cell} (w w' : world cell) : Prop :=
  (w_replicas w', w_p2p_count w', w_p2p_id w', w_conf w', set_rargv None (w_client w'))
  = (w_replicas w, w_p2p_count w, w_p2p_id w, w_conf w, set_rargv None (w_client w)).

Lemma same_setup_client {cell A} `{!Stored cell A} (w w' : world cell) : same_setup A w w' → same_client w w'.
Proof. intros [[= H1 H2 H3 H4 H5] _ _]. unfold same_client. by rewrite H1, H2, H3, H4, H5. Qed.

Lemma same_client_at {cell} (w w' : world cell) : same_client w w' → vc_new w' = vc_new w ∧ w_p2p_id w' = w_p2p_id w ∧ w_p2p_count w' = w_p2p_count w.
Proof. unfold same_client, vc_new. intros [= _ -> -> _ _]. done. Qed.

(** What an insert carries besides the name of the element. *)
Record insert_args := mkIns {
  in_prev : sds; in_content : sds; in_font : Z; in_size : Z; in_color : Z; in_property : Z; in_id : leid
}.

#[global] Instance insert_args_eq_dec : EqDecision insert_args.
Proof. solve_decision. Defined.

Definition b2z (b : bool) : Z := if b then 1 else 0.

Lemma count_update (f f' : sds → bool) e ch :
  NoDup ch → (∀ a, a ≠ e → f' a = f a) →
  Z.of_nat (length (filter (λ a, f' a = true) ch)) = Z.of_nat (length (filter (λ a, f a = true) ch)) +
    (if decide (e ∈ ch) then b2z (f' e) - b2z (f e) else 0).
Proof.
  intros Hnd Hf. induction Hnd as [|a ch Ha Hnd IH]; [done|]. rewrite !filter_cons.
  destruct (decide (a = e)) as [->|Hne].
  - rewrite (decide_False (P := e ∈ ch)) in IH by done. rewrite (decide_True (P := e ∈ e :: ch)) by (by left).
    unfold b2z. destruct (f e), (f' e); simpl in *; lia.
  - rewrite (Hf a Hne). assert (e ∈ a :: ch ↔ e ∈ ch) as Hin by (rewrite elem_of_cons; split; [by intros [->|?]|by right]).
    rewrite (decide_ext _ _ _ _ Hin). destruct (f a); simpl; destruct (decide (e ∈ ch)); lia.
Qed.

(** The same when the element may join the list. *)
Lemma count_step (f f' : sds → bool) e ch ch' (new : bool) :
  NoDup ch → (∀ a, a ≠ e → f' a = f a) → (f e = true → e ∈ ch) → (f' e = true → e ∈ ch') →
  ch' ≡ₚ (if new then e :: ch else ch) → (new = true → e ∉ ch) →
  Z.of_nat (length (filter (λ a, f' a = true) ch')) = Z.of_nat (length (filter (λ a, f a = true) ch)) + b2z (f' e) - b2z (f e).
Proof.
  intros Hnd Hf H0 H2 Hperm Hnew. pose proof (count_update f f' e ch Hnd Hf) as Hcnt. rewrite Hperm in H2 |- *. destruct new.
  - specialize (Hnew eq_refl). rewrite decide_False in Hcnt by done. rewrite filter_cons. unfold b2z.
    destruct (f e); [by destruct Hnew; apply H0|]. destruct (f' e); simpl; lia.
  - rewrite Hcnt. destruct (decide (e ∈ ch)) as [Hin|Hnin]; [lia|]. unfold b2z.
    destruct (f e); [by destruct Hnin; apply H0|]. destruct (f' e); [by destruct Hnin; apply H2|]. lia.
Qed.

Lemma int64_fmt z : int64 z → string2ll (fmt_d z) = Some z.
Proof. intros. by apply string2ll_spec. Qed.

(** A length in the range of [int], with room. *)
Definition len_ok (len : option Z) : Prop := 0 ≤ default 0 len < INT_MAX.

Section chain.
Context {cell A : Type} `{!Stored cell A, !Node A}.
Implicit Types (w : world cell) (key e : sds) (ptrs : gmap sds loc) (Ms : gmap sds A) (hd : option loc) (len : option Z).

(** *** The operations *)

Fixpoint node_walk (fuel : nat) (id : leid) (p : loc) : M cell (loc * option loc) :=
  match fuel with
  | O => cfault Hang
  | S fuel' =>
      px ← load (A := A) p;
      match n_next px with
      | None => mret (p, None)
      | Some q =>
          qx ← load (A := A) q;
          qid ← orfault NullDeref (n_pos qx);
          if 0 <? leid_cmp id qid then node_walk fuel' id q else mret (p, Some q)
      end
  end.

Definition node_fuel : M cell nat := λ w, Done (S (size (w_heap w))) w.

Definition node_set_next (l : loc) (next : option loc) : M cell () :=
  x ← load l;
  store l (n_set_next next x).

Definition node_link (get_pre : M cell (option loc)) (ht : sds) (l : loc) (id : leid) : M cell () :=
  head ← getHead ht;
  match head with
  | None => setHead ht l
  | Some h =>
      hx ← load (A := A) h;
      hid ← orfault NullDeref (n_pos hx);
      if leid_cmp id hid <? 0 then setHead ht l;; node_set_next l (Some h)
      else
        pre ← get_pre;
        p ← match pre with
            | Some pre => px ← load (A := A) pre;
                          mret (match n_pos px with Some _ => pre | None => h end)
            | None => mret h
            end;
        fuel ← node_fuel;
        '(p, q) ← node_walk fuel id p;
        node_set_next p (Some l);;
        node_set_next l q
  end.

(** *** Lists in the keyspace *)

Record lcont w key ptrs Ms hd len : Prop := {
  l_hash : ∃ h : gmap sds hval,
    (w_db w !! key = Some (OHash h) ∨ (w_db w !! key = None ∧ h = ∅)) ∧
    (∀ f, ¬ reserved f → h !! f = HPtr <$> ptrs !! f) ∧ h !! ("head" : sds) = HPtr <$> hd ∧ h !! ("length" : sds) = HInt <$> len;
  l_names f : reserved f → ptrs !! f = None;
  l_dom e : ptrs !! e = None ↔ Ms !! e = None;
  l_heap e l a : ptrs !! e = Some l → Ms !! e = Some a → w_heap w !! l = Some (to_cell a);
  l_inj e1 e2 l : ptrs !! e1 = Some l → ptrs !! e2 = Some l → e1 = e2
}.

Lemma lcont_struct w key ptrs Ms hd len e l :
  lcont w key ptrs Ms hd len → ptrs !! e = Some l →
  ¬ reserved e ∧ ∃ a, Ms !! e = Some a ∧ w_heap w !! l = Some (to_cell a).
Proof using Type.
  intros C Hl. split; [intros Hr; rewrite (l_names _ _ _ _ _ _ C e Hr) in Hl; done|].
  destruct (Ms !! e) as [a|] eqn:Ha; [|apply (l_dom _ _ _ _ _ _ C) in Ha; congruence].
  exists a. split; [done|]. by eapply (l_heap _ _ _ _ _ _ C).
Qed.

(** Once there is an element, the hash is there. *)
Lemma lcont_key w key ptrs Ms hd len e l :
  lcont w key ptrs Ms hd len → ptrs !! e = Some l →
  ∃ h : gmap sds hval, w_db w !! key = Some (OHash h) ∧
    (∀ f, ¬ reserved f → h !! f = HPtr <$> ptrs !! f) ∧ h !! ("head" : sds) = HPtr <$> hd ∧ h !! ("length" : sds) = HInt <$> len.
Proof using Type.
  intros C Hl. destruct (l_hash _ _ _ _ _ _ C) as (h & [Hk|[_ ->]] & Hp & Hh & Hn); [by exists h|]. exfalso.
  specialize (Hp e). rewrite Hl, lookup_empty in Hp. by specialize (Hp (proj1 (lcont_struct _ _ _ _ _ _ _ _ C Hl))).
Qed.

Lemma lload_spec w key ptrs Ms hd len e l a :
  lcont w key ptrs Ms hd len → ptrs !! e = Some l → Ms !! e = Some a → load l w = Done a w.
Proof using Type. intros C Hl Ha. unfold load. by rewrite (l_heap _ _ _ _ _ _ C e l a Hl Ha), of_to_cell. Qed.

Lemma lstore_spec w key ptrs Ms hd len e l a :
  lcont w key ptrs Ms hd len → ptrs !! e = Some l →
  ∃ w', store l a w = Done () w' ∧ lcont w' key ptrs (<[e := a]> Ms) hd len ∧ same_setup A w w'.
Proof using Type.
  intros C Hl. eexists. split; [done|]. destruct (lcont_struct _ _ _ _ _ _ _ _ C Hl) as (_ & a0 & Ha0 & _).
  split; [|apply same_setup_heap; rewrite (l_heap _ _ _ _ _ _ C e l a0 Hl Ha0); intros c [= <-]; by rewrite of_to_cell].
  split; simpl; try apply C.
  - intros e'. rewrite (l_dom _ _ _ _ _ _ C e'). destruct (decide (e = e')) as [<-|].
    + by rewrite lookup_insert_eq, Ha0.
    + by rewrite lookup_insert_ne.
  - intros e' l' a' He' Ha'. destruct (decide (e = e')) as [<-|Hne].
    + rewrite lookup_insert_eq in Ha'. simplify_eq. by rewrite lookup_insert_eq.
    + rewrite lookup_insert_ne in Ha' by done. rewrite lookup_insert_ne.
      * by eapply (l_heap _ _ _ _ _ _ C).
      * intros ->. apply Hne. by eapply (l_inj _ _ _ _ _ _ C).
Qed.

(** Writing a field of the hash. *)
Lemma lset_spec w key ptrs Ms hd len e l f v hd' len' :
  lcont w key ptrs Ms hd len → ptrs !! e = Some l →
  (f = "head" ∧ len' = len ∧ ∃ p, v = HPtr p ∧ hd' = Some p) ∨ (f = "length" ∧ hd' = hd ∧ ∃ n, v = HInt n ∧ len' = Some n) →
  ∃ w', hashTypeSet key f v w = Done () w' ∧ lcont w' key ptrs Ms hd' len' ∧ same_setup A w w'.
Proof using Type.
  intros C Hl Hf. destruct (lcont_key _ _ _ _ _ _ _ _ C Hl) as (h & Hk & Hp & Hh & Hn).
  unfold hashTypeSet. rewrite Hk. eexists. split; [done|]. split.
  2: { apply (same_setup_db _ _ h); [by left|]. intros f' (_ & H1 & H2)%side_reserved. rewrite lookup_insert_ne; [done|].
       destruct Hf as [(-> & _)|(-> & _)]; congruence. }
  split; simpl; try apply C. exists (<[f := v]> h). rewrite lookup_insert_eq. split; [by left|].
  destruct Hf as [(-> & -> & p & -> & ->)|(-> & -> & n & -> & ->)]; rewrite lookup_insert_eq, lookup_insert_ne by done; split_and!; try done.
  - intros f Hf. rewrite lookup_insert_ne; [by apply Hp|]. intros <-. apply Hf, reserved_head.
  - intros f Hf. rewrite lookup_insert_ne; [by apply Hp|]. intros <-. apply Hf, reserved_length.
Qed.

Lemma setHead_spec w key ptrs Ms hd len e l p :
  lcont w key ptrs Ms hd len → ptrs !! e = Some l →
  ∃ w', setHead key p w = Done () w' ∧ lcont w' key ptrs Ms (Some p) len ∧ same_setup A w w'.
Proof using Type. intros C Hl. eapply lset_spec; [done..|]. left. eauto. Qed.

Lemma getHead_spec w key ptrs Ms hd len e l :
  lcont w key ptrs Ms hd len → ptrs !! e = Some l → getHead key w = Done hd w.
Proof using Type.
  intros C Hl. destruct (lcont_key _ _ _ _ _ _ _ _ C Hl) as (h & Hk & _ & Hh & _).
  unfold getHead, hashTypeGetValueObject, mbind, M_bind. rewrite Hk, Hh. by destruct hd.
Qed.

Lemma incrLen_spec w key ptrs Ms hd len e l inc :
  lcont w key ptrs Ms hd len → ptrs !! e = Some l → inc ≠ 0 →
  ∃ w', incrLen key inc w = Done () w' ∧ lcont w' key ptrs Ms hd (Some (wrap32 (default 0 len + inc))) ∧ same_setup A w w'.
Proof using Type.
  intros C Hl Hi. unfold incrLen. rewrite (proj2 (Z.eqb_neq _ _) Hi).
  assert (getLen key w = Done (default 0 len) w) as Hlen.
  { destruct (lcont_key _ _ _ _ _ _ _ _ C Hl) as (h & Hk & _ & _ & Hn).
    unfold getLen, hashTypeGetValueObject, mbind, M_bind. rewrite Hk, Hn. by destruct len. }
  mstep Hlen. eapply lset_spec; [done..|]. right. eauto.
Qed.

(** Looking up an element, without creating it. *)
Lemma lfind_spec w key ptrs Ms hd len e new :
  lcont w key ptrs Ms hd len → ¬ reserved e → rehHTGet key None e false new w = Done (ptrs !! e) w.
Proof using Type.
  intros C He. destruct (l_hash _ _ _ _ _ _ C) as (h & Hk & Hp & _). specialize (Hp e He).
  unfold rehHTGet, getInnerHT, lookupKey, hashTypeGetValueObject, mbind, M_bind.
  destruct Hk as [Hk|[Hk ->]]; rewrite Hk; unfold mret, M_ret; cbv beta iota.
  - rewrite Hk, Hp. by destruct (ptrs !! e).
  - rewrite lookup_empty in Hp. by destruct (ptrs !! e).
Qed.

(** A new struct under a new name. *)
Lemma lcont_extend w w' key ptrs Ms hd len e l (a : A) h :
  lcont w key ptrs Ms hd len → ¬ reserved e → ptrs !! e = None → w_heap w !! l = None →
  (∀ f, ¬ reserved f → h !! f = HPtr <$> ptrs !! f) → h !! ("head" : sds) = HPtr <$> hd → h !! ("length" : sds) = HInt <$> len →
  w_db w' !! key = Some (OHash (<[e := HPtr l]> h)) → w_heap w' = <[l := to_cell a]> (w_heap w) →
  lcont w' key (<[e := l]> ptrs) (<[e := a]> Ms) hd len.
Proof using Type.
  intros C He Hl Hfresh Hp Hh Hn Hdb' Hheap'.
  assert (∀ e' l', ptrs !! e' = Some l' → l' ≠ l) as Hne.
  { intros e' l' He' ->. destruct (lcont_struct _ _ _ _ _ _ _ _ C He') as (_ & ? & _ & ?). congruence. }
  split; simpl.
  - exists (<[e := HPtr l]> h). split; [by left|]. split_and!.
    + intros f Hf. destruct (decide (e = f)) as [<-|]; [by rewrite !lookup_insert_eq|]. rewrite !lookup_insert_ne by done. by apply Hp.
    + rewrite lookup_insert_ne; [done|]. intros ->. apply He, reserved_head.
    + rewrite lookup_insert_ne; [done|]. intros ->. apply He, reserved_length.
  - intros f Hf. rewrite lookup_insert_ne by (by intros ->). by apply (l_names _ _ _ _ _ _ C).
  - intros e'. destruct (decide (e = e')) as [<-|]; [by rewrite !lookup_insert_eq|]. rewrite !lookup_insert_ne by done. apply C.
  - intros e' l' a' He' Ha'. rewrite Hheap'. destruct (decide (e = e')) as [<-|].
    + rewrite lookup_insert_eq in He'. rewrite lookup_insert_eq in Ha'. simplify_eq. by rewrite lookup_insert_eq.
    + rewrite lookup_insert_ne in He' by done. rewrite lookup_insert_ne in Ha' by done. rewrite lookup_insert_ne by (intros ->; by apply (Hne e' l')).
      by eapply (l_heap _ _ _ _ _ _ C).
  - intros e1 e2 l'. rewrite !lookup_insert. do 2 case_decide; intros; simplify_eq; try done.
    + exfalso. by eapply Hne.
    + exfalso. by eapply Hne.
    + by eapply (l_inj _ _ _ _ _ _ C).
Qed.

(** Looking up or creating an element. *)
Lemma lget_spec w key ptrs Ms hd len e (new : world cell → A) :
  lcont w key ptrs Ms hd len → ¬ reserved e → (∀ db, new (set_db db w) = new w) →
  ∃ w' l ptrs', rehHTGet key None e true new w = Done (Some l) w' ∧ ptrs' !! e = Some l ∧
    lcont w' key ptrs' (<[e := default (new w) (Ms !! e)]> Ms) hd len ∧ same_setup A w w' ∧
    (∀ e' l', ptrs !! e' = Some l' → ptrs' !! e' = Some l').
Proof using Type.
  intros C He Hnew. destruct (ptrs !! e) as [l|] eqn:Hl.
  - destruct (lcont_struct _ _ _ _ _ _ _ _ C Hl) as (_ & a & Ha & _). destruct (lcont_key _ _ _ _ _ _ _ _ C Hl) as (h & Hk & Hp & _).
    exists w, l, ptrs. rewrite Ha. simpl. rewrite insert_id by done. split_and!; try done.
    unfold rehHTGet, getInnerHT, lookupKey, hashTypeGetValueObject, mbind, M_bind. rewrite Hk. unfold mret, M_ret. cbv beta iota.
    by rewrite Hk, (Hp e He), Hl.
  - destruct (l_hash _ _ _ _ _ _ C) as (h & Hk & Hp & Hh & Hn).
    rewrite (proj1 (l_dom _ _ _ _ _ _ C e) Hl). simpl.
    set (l := fresh (dom (w_heap w))). assert (w_heap w !! l = None) as Hfresh by (apply not_elem_of_dom, is_fresh).
    assert (∃ db, getInnerHT key None true w = Done (Some key) (set_db db w) ∧ db !! key = Some (OHash h) ∧ same_setup A w (set_db db w))
      as (db & Hin & Hdb & S0).
    { unfold getInnerHT, lookupKey, dbAdd, mbind, M_bind. destruct Hk as [Hk|[Hk ->]]; rewrite Hk.
      - exists (w_db w). by destruct w.
      - rewrite Hk. eexists. split; [done|]. split; [by rewrite lookup_insert_eq|]. apply (same_setup_db _ _ ∅); [by right|done]. }
    eexists _, l, (<[e := l]> ptrs). rewrite lookup_insert_eq. split_and!.
    + unfold rehHTGet. mstep Hin. unfold hashTypeGetValueObject, get, alloc, hashTypeSet, mbind, M_bind. simpl.
      rewrite Hdb, (Hp e He), Hl. simpl. rewrite Hnew, Hdb. fold l. done.
    + done.
    + eapply (lcont_extend w); [done..| |done]. simpl. apply lookup_insert_eq.
    + etrans; [exact S0|]. etrans; [apply (same_setup_heap _ l (new w)); simpl; by rewrite Hfresh|].
      apply (same_setup_db (set_heap (<[l := to_cell (new w)]> (w_heap w)) (set_db db w)) key h); [by left|]. intros f [Hf _]%side_reserved. rewrite lookup_insert_ne; [done|]. by intros ->.
    + intros e' l' He'. rewrite lookup_insert_ne by congruence. done.
Qed.
Lemma ldirty_spec w key ptrs Ms hd len :
  lcont w key ptrs Ms hd len → ∃ w', dirty_inc w = Done () w' ∧ lcont w' key ptrs Ms hd len ∧ same_setup A w w'.
Proof using Type. intros []. eexists. split; [done|]. by split. Qed.

Lemma get_list_ht_spec w key ptrs Ms hd len e l create :
  lcont w key ptrs Ms hd len → ptrs !! e = Some l → GET_LIST_HT key create w = Done (Some key) w.
Proof using Type.
  intros C Hl. destruct (lcont_key _ _ _ _ _ _ _ _ C Hl) as (h & Hk & _).
  unfold GET_LIST_HT, getInnerHT, lookupKey, mbind, M_bind. by rewrite Hk.
Qed.

End chain.

(** ** Chains *)

Section order.
Context {cell A : Type} `{!Stored cell A, !Node A}.
Context (idof : sds → leid).
Implicit Types (w : world cell) (key e a b : sds) (ptrs : gmap sds loc) (Ms : gmap sds A) (ch : list sds).

(** Following [next] from [o] goes through the elements [ch] to [o']. *)
Fixpoint seg ptrs Ms (o : option loc) ch (o' : option loc) : Prop :=
  match ch with
  | [] => o = o'
  | e :: ch' => ∃ l x, o = Some l ∧ ptrs !! e = Some l ∧ Ms !! e = Some x ∧ seg ptrs Ms (n_next x) ch' o'
  end.

Definition chained ptrs Ms hd ch : Prop := seg ptrs Ms hd ch None.

Lemma seg_app ptrs Ms o c1 c2 o' :
  seg ptrs Ms o (c1 ++ c2) o' ↔ ∃ m, seg ptrs Ms o c1 m ∧ seg ptrs Ms m c2 o'.
Proof using Type.
  revert o. induction c1 as [|e c1 IH]; intros o; simpl; [naive_solver|]. split.
  - intros (l & x & -> & Hl & Hx & (m & H1 & H2)%IH). exists m. eauto 10.
  - intros (m & (l & x & -> & Hl & Hx & H1) & H2). exists l, x. rewrite IH. eauto 10.
Qed.

Lemma seg_insert ptrs Ms o c o' e y : e ∉ c → seg ptrs Ms o c o' → seg ptrs (<[e := y]> Ms) o c o'.
Proof using Type.
  revert o. induction c as [|a c IH]; intros o He; simpl; [done|]. apply not_elem_of_cons in He as [Hne He].
  intros (l & x & -> & Hl & Hx & Hs). exists l, x. rewrite lookup_insert_ne by done. eauto.
Qed.

Lemma seg_mono ptrs ptrs' Ms Ms' o c o' :
  (∀ e l, ptrs !! e = Some l → ptrs' !! e = Some l) → (∀ e, e ∈ c → Ms' !! e = Ms !! e) →
  seg ptrs Ms o c o' → seg ptrs' Ms' o c o'.
Proof using Type.
  intros Hp. revert o. induction c as [|a c IH]; intros o HM; simpl; [done|]. intros (l & x & -> & Hl & Hx & Hs).
  exists l, x. split_and!; [done|by apply Hp|rewrite HM; [done|by left]|]. apply IH; [|done]. intros e He. apply HM. by right.
Qed.

(** What does not change [next] keeps the chain. *)
Lemma seg_same_next ptrs Ms o c o' e x y :
  Ms !! e = Some x → n_next y = n_next x → seg ptrs Ms o c o' → seg ptrs (<[e := y]> Ms) o c o'.
Proof using Type.
  intros Hx Hy. revert o. induction c as [|a c IH]; intros o; simpl; [done|]. intros (l & z & -> & Hl & Hz & Hs).
  destruct (decide (e = a)) as [<-|Hne].
  - exists l, y. rewrite lookup_insert_eq. simplify_eq. split_and!; [done..|]. rewrite Hy. by apply IH.
  - exists l, z. rewrite lookup_insert_ne by done. eauto.
Qed.

Lemma seg_elem ptrs Ms o c o' e : seg ptrs Ms o c o' → e ∈ c → ∃ l x, ptrs !! e = Some l ∧ Ms !! e = Some x.
Proof using Type.
  revert o. induction c as [|a c IH]; intros o; simpl; [by intros _ ?%elem_of_nil|]. intros (l & x & -> & Hl & Hx & Hs).
  intros [->|He]%elem_of_cons; [eauto|by eapply IH].
Qed.

(** *** The walk *)

(** Elements with their identifiers. *)
Definition placed Ms e : Prop := Ms !! e ≫= n_pos = Some (idof e) ∧ leid_ok (idof e).

Lemma placed_pos Ms e x : placed Ms e → Ms !! e = Some x → n_pos x = Some (idof e).
Proof using Type. intros [Hp _] Hx. by rewrite Hx in Hp. Qed.

Lemma node_walk_spec fuel w key ptrs Ms hd len id a la x c :
  lcont w key ptrs Ms hd len → ptrs !! a = Some la → Ms !! a = Some x → seg ptrs Ms (n_next x) c None →
  Forall (placed Ms) c → leid_ok id → (length c < fuel)%nat →
  ∃ m c3 b lb y, c = m ++ c3 ∧ last (a :: m) = Some b ∧ ptrs !! b = Some lb ∧ Ms !! b = Some y ∧
    node_walk fuel id la w = Done (lb, n_next y) w ∧ seg ptrs Ms (n_next y) c3 None ∧
    Forall (λ e, leid_lt (idof e) id) m ∧ ∀ e, head c3 = Some e → ¬ leid_lt (idof e) id.
Proof using Type.
  intros C. revert a la x c. induction fuel as [|fuel IH]; intros a la x c Hla Hx Hs Hpl Hid Hf; [lia|].
  cbn [node_walk]. mstep (lload_spec w key ptrs Ms hd len a la x C Hla Hx).
  destruct c as [|b c]; simpl in Hs.
  - exists [], [], a, la, x. rewrite Hs. split_and!; try done; by constructor.
  - destruct Hs as (lb & y & Hn & Hlb & Hy & Hs). rewrite Hn. apply Forall_cons in Hpl as [Hb Hpl].
    mstep (lload_spec w key ptrs Ms hd len b lb y C Hlb Hy). rewrite (placed_pos Ms b y Hb Hy). erewrite bind_Done by done.
    destruct (leid_cmp_spec id (idof b) Hid (proj2 Hb)) as (_ & _ & Hgt). destruct (Z.ltb_spec 0 (leid_cmp id (idof b))) as [Hc|Hc].
    + destruct (IH b lb y c Hlb Hy Hs Hpl Hid) as (m & c3 & b' & lb' & y' & -> & Hlast & Hlb' & Hy' & Hrun & Hs' & Hm & Hc3);
        [simpl in Hf; lia|].
      exists (b :: m), c3, b', lb', y'. split_and!; try done. constructor; [by apply Hgt|done].
    + exists [], (b :: c), a, la, x. rewrite Hn. split_and!; try done.
      * simpl. by exists lb, y.
      * intros e [= <-] Hlt. apply Hgt in Hlt. lia.
Qed.

(** A chain is not longer than the heap. *)
Lemma seg_length w key ptrs Ms hd len o c o' :
  lcont w key ptrs Ms hd len → NoDup c → seg ptrs Ms o c o' → (length c ≤ size (w_heap w))%nat.
Proof using Type.
  intros C Hnd Hs. rewrite <- (size_dom (D := gset loc)).
  assert (∃ ls : list loc, length ls = length c ∧ NoDup ls ∧ (∀ l, l ∈ ls → l ∈ dom (w_heap w)) ∧ (∀ l, l ∈ ls → ∃ e, e ∈ c ∧ ptrs !! e = Some l))
    as (ls & <- & Hls & Hdom & _).
  { revert o Hs. induction Hnd as [|e c He Hnd IH]; intros o Hs; simpl in Hs.
    - exists []. split_and!; [done|constructor|by intros ? ?%elem_of_nil..].
    - destruct Hs as (l & x & -> & Hl & Hx & Hs). destruct (IH _ Hs) as (ls & Hlen & Hls & Hdom & Hin).
      exists (l :: ls). split_and!; [simpl; lia| | |].
      + constructor; [|done]. intros (e' & He' & Hl')%Hin. by rewrite (l_inj _ _ _ _ _ _ C _ _ _ Hl Hl') in He.
      + intros l' [->|Hl']%elem_of_cons; [|by apply Hdom]. apply elem_of_dom. rewrite (l_heap _ _ _ _ _ _ C e l x Hl Hx). by eexists.
      + intros l' [->|Hl']%elem_of_cons; [exists e; split; [by left|done]|].
        destruct (Hin l' Hl') as (e' & ? & ?). exists e'. split; [by right|done]. }
  rewrite <- (size_list_to_set (C := gset loc) ls Hls). apply subseteq_size. intros l Hl%elem_of_list_to_set. by apply Hdom.
Qed.

(** *** Linking *)

Definition below e1 e2 : Prop := leid_lt (idof e1) (idof e2).

Lemma sorted_split c1 a c2 :
  StronglySorted below (c1 ++ a :: c2) → Forall (λ e, below e a) c1 ∧ Forall (below a) c2 ∧ StronglySorted below c2.
Proof using Type.
  induction c1 as [|e c1 IH]; simpl; intros Hs; apply StronglySorted_inv in Hs as [Hs Hall].
  - split_and!; [constructor|done|done].
  - destruct (IH Hs) as (H1 & H2 & H3). split_and!; [|done|done]. constructor; [|done].
    rewrite Forall_app, Forall_cons in Hall. apply Hall.
Qed.

Lemma below_trans e1 e2 e3 : below e1 e2 → below e2 e3 → below e1 e3.
Proof using Type. apply leid_lt_trans. Qed.

(** Where a new element goes. *)
Lemma sorted_insert c1 e c2 :
  StronglySorted below (c1 ++ c2) → Forall (λ a, below a e) c1 → Forall (below e) c2 → StronglySorted below (c1 ++ e :: c2).
Proof using Type.
  induction c1 as [|a c1 IH]; simpl; intros Hs H1 H2; [by constructor|]. apply StronglySorted_inv in Hs as [Hs Hall].
  apply Forall_cons in H1 as [Ha H1]. constructor; [by apply IH|]. rewrite Forall_app in *. destruct Hall as [Hall1 Hall2].
  split; [done|]. by constructor.
Qed.

(** Only links change, and only links of the elements [c]. *)
Definition relinked (c : list sds) Ms Ms' : Prop :=
  ∀ e, (∃ nx, Ms' !! e = n_set_next nx <$> Ms !! e) ∧ (e ∉ c → Ms' !! e = Ms !! e).

Lemma relinked_refl c Ms : relinked c Ms Ms.
Proof using Type.
  intros e. split; [|done]. destruct (Ms !! e) as [x|] eqn:Hx; [|by exists None]. exists (n_next x). simpl. by rewrite n_set_id.
Qed.

Lemma relinked_insert c Ms Ms' e x nx :
  relinked c Ms Ms' → Ms' !! e = Some x → e ∈ c → relinked c Ms (<[e := n_set_next nx x]> Ms').
Proof using Type.
  intros Hr Hx Hc e'. destruct (decide (e = e')) as [<-|Hne]; [|rewrite lookup_insert_ne by done; apply Hr].
  rewrite lookup_insert_eq. destruct (Hr e) as [[nx' He] _]. rewrite Hx in He. destruct (Ms !! e) as [y|]; [|done].
  simpl in *. simplify_eq. split; [|by intros []]. exists nx. by rewrite n_set_set.
Qed.

Lemma node_set_next_spec w key ptrs Ms hd len e l x nx :
  lcont w key ptrs Ms hd len → ptrs !! e = Some l → Ms !! e = Some x →
  ∃ w', node_set_next l nx w = Done () w' ∧ lcont w' key ptrs (<[e := n_set_next nx x]> Ms) hd len ∧ same_setup A w w'.
Proof using Type.
  intros C Hl Hx. unfold node_set_next. mstep (lload_spec w key ptrs Ms hd len e l x C Hl Hx). by eapply lstore_spec.
Qed.

(** Splicing [e] in after the element [b]. *)
Lemma splice_spec w key ptrs Ms hd len c1 b c3 e l lb x y :
  lcont w key ptrs Ms hd len → ptrs !! e = Some l → Ms !! e = Some x → ptrs !! b = Some lb → Ms !! b = Some y →
  chained ptrs Ms hd (c1 ++ b :: c3) → NoDup (c1 ++ b :: c3) → e ∉ c1 ++ b :: c3 →
  ∃ w' Ms', (node_set_next lb (Some l);; node_set_next l (n_next y)) w = Done () w' ∧ lcont w' key ptrs Ms' hd len ∧
    same_setup A w w' ∧ relinked (e :: c1 ++ b :: c3) Ms Ms' ∧ chained ptrs Ms' hd (c1 ++ b :: e :: c3).
Proof using Type.
  intros C Hl Hx Hlb Hy Hch Hnd He.
  apply not_elem_of_app in He as [He1 [Heb He3]%not_elem_of_cons].
  apply NoDup_app in Hnd as (_ & Hnd1 & [Hb3 Hnd3]%NoDup_cons).
  assert (b ∉ c1) as Hb1 by (intros Hb; apply (Hnd1 b Hb); by left).
  destruct (node_set_next_spec w key ptrs Ms hd len b lb y (Some l) C Hlb Hy) as (w1 & Hr1 & C1 & S1). mstep Hr1.
  assert (<[b := n_set_next (Some l) y]> Ms !! e = Some x) as Hx1 by (by rewrite lookup_insert_ne).
  destruct (node_set_next_spec w1 key ptrs _ hd len e l x (n_next y) C1 Hl Hx1) as (w2 & Hr2 & C2 & S2).
  eexists w2, _. split_and!; [done|exact C2|by etrans| |].
  - apply relinked_insert; [|done|by left]. apply relinked_insert; [apply relinked_refl|done|]. right. apply elem_of_app. right. by left.
  - unfold chained in *. apply seg_app in Hch as (m & Hs1 & lb' & y' & -> & Hlb' & Hy' & Hs3). simplify_eq.
    apply seg_app. exists (Some lb). split; [by apply seg_insert, seg_insert|]. simpl.
    exists lb, (n_set_next (Some l) y). rewrite lookup_insert_ne, lookup_insert_eq by done. split_and!; [done..|].
    exists l, (n_set_next (n_next y) x). rewrite lookup_insert_eq, !n_next_set. split_and!; [done..|]. by apply seg_insert, seg_insert.
Qed.

(** The element the walk starts from, and the chain after it. *)
Lemma walk_splice_spec w key ptrs Ms hd len c1 a la c2 e l x :
  lcont w key ptrs Ms hd len → chained ptrs Ms hd (c1 ++ a :: c2) → StronglySorted below (c1 ++ a :: c2) → NoDup (c1 ++ a :: c2) →
  Forall (placed Ms) (c1 ++ a :: c2) → ptrs !! a = Some la → below a e →
  ptrs !! e = Some l → Ms !! e = Some x → leid_ok (idof e) → Forall (λ b, idof b ≠ idof e) (c1 ++ a :: c2) → e ∉ c1 ++ a :: c2 →
  ∃ w' Ms' k1 k2, (fuel ← node_fuel; '(p, q) ← node_walk fuel (idof e) la; node_set_next p (Some l);; node_set_next l q) w = Done () w' ∧
    lcont w' key ptrs Ms' hd len ∧ same_setup A w w' ∧ relinked (e :: c1 ++ a :: c2) Ms Ms' ∧ c1 ++ a :: c2 = k1 ++ k2 ∧
    chained ptrs Ms' hd (k1 ++ e :: k2) ∧ Forall (λ b, below b e) k1 ∧ Forall (below e) k2.
Proof using Type.
  intros C Hch Hsort Hnd Hpl Hla Hae Hl Hx Hid Hne He. unfold node_fuel. erewrite bind_Done by done.
  pose proof Hch as Hch'. unfold chained in Hch'. apply seg_app in Hch' as (m0 & _ & la' & xa & -> & Hla' & Hxa & Hs). simplify_eq.
  assert (length c2 < S (size (w_heap w)))%nat as Hfuel.
  { pose proof (seg_length w key ptrs Ms hd len hd (c1 ++ a :: c2) None C Hnd Hch) as Hlen. rewrite length_app in Hlen. simpl in Hlen. lia. }
  destruct (node_walk_spec (S (size (w_heap w))) w key ptrs Ms hd len (idof e) a la xa c2 C Hla Hxa Hs) as
    (m & c3 & b & lb & y & -> & Hlast & Hlb & Hy & Hrun & _ & Hm & Hc3); [by rewrite Forall_app, Forall_cons in Hpl; apply Hpl|done|done|].
  mstep Hrun. cbv beta iota. destruct (exists_last (l := a :: m) ltac:(done)) as (k & b' & Hk).
  rewrite Hk, last_snoc in Hlast. simplify_eq.
  assert (c1 ++ a :: m ++ c3 = (c1 ++ k) ++ b :: c3) as Heq.
  { rewrite app_comm_cons, Hk. by rewrite <- !app_assoc. }
  rewrite Heq in *. destruct (splice_spec w key ptrs Ms hd len (c1 ++ k) b c3 e l lb x y) as (w' & Ms' & Hr & C' & S' & R' & Hch'); [done..|].
  exists w', Ms', ((c1 ++ k) ++ [b]), c3. split_and!; [done..|by rewrite <- (app_assoc (c1 ++ k))|by rewrite <- (app_assoc (c1 ++ k))| |].
  - rewrite <- app_assoc, <- Hk. rewrite <- Heq in Hsort. apply sorted_split in Hsort as (H1 & _ & _).
    apply Forall_app. split; [|by constructor]. eapply Forall_impl; [exact H1|]. intros b0 Hb0. exact (below_trans _ _ _ Hb0 Hae).
  - apply sorted_split in Hsort as (_ & _ & Hs3). rewrite Forall_app, Forall_cons in Hne. destruct Hne as (_ & _ & Hne3).
    destruct c3 as [|f c3]; [constructor|]. apply Forall_cons in Hne3 as [Hf _].
    assert (below e f) as Hef.
    { unfold below. destruct (leid_lt_total (idof e) (idof f)) as [?|[Heqf|Hlt]]; [done|by destruct Hf|]. by destruct (Hc3 f eq_refl). }
    constructor; [done|]. apply StronglySorted_inv in Hs3 as [_ Hall]. eapply Forall_impl; [exact Hall|]. intros g Hg. exact (below_trans _ _ _ Hef Hg).
Qed.

(** A new element takes its place in the chain, whatever element of the chain
    below it the command names as its predecessor. *)
Lemma node_link_spec w key ptrs Ms hd len ch e l x get_pre pre :
  lcont w key ptrs Ms hd len → chained ptrs Ms hd ch → StronglySorted below ch → NoDup ch → Forall (placed Ms) ch →
  ptrs !! e = Some l → Ms !! e = Some x → n_next x = None → leid_ok (idof e) → Forall (λ b, idof b ≠ idof e) ch → e ∉ ch →
  get_pre w = Done pre w →
  (∀ lp, pre = Some lp → ∃ a y, ptrs !! a = Some lp ∧ Ms !! a = Some y ∧ (n_pos y = None ∨ (a ∈ ch ∧ below a e))) →
  ∃ w' Ms' hd' k1 k2, node_link get_pre key l (idof e) w = Done () w' ∧ lcont w' key ptrs Ms' hd' len ∧ same_setup A w w' ∧
    relinked (e :: ch) Ms Ms' ∧ ch = k1 ++ k2 ∧ chained ptrs Ms' hd' (k1 ++ e :: k2) ∧ Forall (λ b, below b e) k1 ∧ Forall (below e) k2.
Proof using Type.
  intros C Hch Hsort Hnd Hpl Hl Hx Hnx Hid Hne He Hget Hpre. unfold node_link. mstep (getHead_spec w key ptrs Ms hd len e l C Hl).
  destruct ch as [|h ch].
  { unfold chained in Hch. simpl in Hch. subst hd. destruct (setHead_spec w key ptrs Ms None len e l l C Hl) as (w' & Hr & C' & S').
    exists w', Ms, (Some l), [], []. split_and!; [done|done|done|apply relinked_refl|done| |constructor|constructor]. exists l, x. by rewrite Hnx. }
  pose proof Hch as (lh & xh & -> & Hlh & Hxh & _). pose proof (Forall_inv Hpl) as Hplh. pose proof (Forall_inv Hne) as Hneh.
  cbv beta iota. mstep (lload_spec w key ptrs Ms _ len h lh xh C Hlh Hxh). rewrite (placed_pos Ms h xh Hplh Hxh). erewrite bind_Done by done.
  destruct (leid_cmp_spec (idof e) (idof h) Hid (proj2 Hplh)) as (Hlt & Heq & Hgt).
  destruct (Z.ltb_spec (leid_cmp (idof e) (idof h)) 0) as [Hc|Hc].
  - destruct (setHead_spec w key ptrs Ms (Some lh) len e l l C Hl) as (w1 & Hr1 & C1 & S1). mstep Hr1.
    destruct (node_set_next_spec w1 key ptrs Ms _ len e l x (Some lh) C1 Hl Hx) as (w2 & Hr2 & C2 & S2).
    eexists w2, _, (Some l), [], (h :: ch). split_and!; [done|exact C2|by etrans|by apply relinked_insert; [apply relinked_refl| |left]|done| |constructor|].
    + exists l, (n_set_next (Some lh) x). rewrite lookup_insert_eq, n_next_set. split_and!; [done..|]. by apply seg_insert.
    + apply StronglySorted_inv in Hsort as [_ Hall]. apply Hlt in Hc. constructor; [done|].
      eapply Forall_impl; [exact Hall|]. intros b Hb. exact (below_trans _ _ _ Hc Hb).
  - assert (below h e) as Hhe.
    { apply Hgt. destruct (decide (leid_cmp (idof e) (idof h) = 0)) as [H0|]; [by apply Heq in H0; congruence|lia]. }
    mstep Hget.
    assert (∃ a la, a ∈ h :: ch ∧ ptrs !! a = Some la ∧ below a e ∧
      (match pre with Some pre => px ← load (A := A) pre; mret (match n_pos px with Some _ => pre | None => lh end) | None => mret lh end) w
        = Done la w) as (a & la & Ha & Hla & Hae & Hstart).
    { destruct pre as [lp|]; [|exists h, lh; split_and!; [by left|done..]].
      destruct (Hpre lp eq_refl) as (a & y & Hlp & Hy & Hor). mstep (lload_spec w key ptrs Ms _ len a lp y C Hlp Hy).
      destruct Hor as [->|[Ha Hae]]; [exists h, lh; split_and!; [by left|done..]|]. exists a, lp. split_and!; [done..|].
      by rewrite (placed_pos Ms a y (proj1 (Forall_forall _ _) Hpl a Ha) Hy). }
    mstep Hstart. apply list_elem_of_split in Ha as (c1 & c2 & Hsplit). rewrite Hsplit in *.
    destruct (walk_splice_spec w key ptrs Ms (Some lh) len c1 a la c2 e l x) as (w' & Ms' & k1 & k2 & Hr & C' & S' & R' & Hk & Hch' & H1 & H2); [done..|].
    by exists w', Ms', (Some lh), k1, k2.
Qed.

Lemma sorted_nodup ch : StronglySorted below ch → NoDup ch.
Proof using Type.
  induction 1 as [|a c Hs IH Hall]; constructor; [|done]. intros Ha.
  exact (leid_lt_irrefl (idof a) (proj1 (Forall_forall _ _) Hall a Ha)).
Qed.

(** Storing the struct of a new element and linking it. *)
Lemma node_place_spec w key ptrs Ms hd len ch e l x x' prev new :
  lcont w key ptrs Ms hd len → ptrs !! e = Some l → Ms !! e = Some x → n_next x' = None →
  chained ptrs Ms hd ch → StronglySorted below ch → Forall (placed Ms) ch →
  leid_ok (idof e) → Forall (λ b, idof b ≠ idof e) ch → e ∉ ch → ¬ reserved prev → prev ≠ e →
  (∀ y, Ms !! prev = Some y → n_pos y = None ∨ (prev ∈ ch ∧ below prev e)) →
  ∃ w' Ms' hd' ch', (store l x';; node_link (A := A) (rehHTGet key None prev false new) key l (idof e)) w = Done () w' ∧
    lcont w' key ptrs Ms' hd' len ∧ same_setup A w w' ∧
    relinked (e :: ch) (<[e := x']> Ms) Ms' ∧ chained ptrs Ms' hd' ch' ∧ StronglySorted below ch' ∧ ch' ≡ₚ e :: ch.
Proof using Type.
  intros C Hl Hx Hnx Hch Hsort Hpl Hid Hne He Hres Hpo Hprev.
  destruct (lstore_spec w key ptrs Ms hd len e l x' C Hl) as (w1 & Hst & C1 & S1). mstep Hst.
  assert (∀ a, a ≠ e → <[e := x']> Ms !! a = Ms !! a) as Hother by (intros; by rewrite lookup_insert_ne).
  destruct (node_link_spec w1 key ptrs _ hd len ch e l x' (rehHTGet key None prev false new) (ptrs !! prev) C1)
    as (w2 & Ms2 & hd2 & k1 & k2 & Hr & C2 & S2 & R2 & -> & Hch2 & H1 & H2); try done.
  - by apply seg_insert.
  - by apply sorted_nodup.
  - apply Forall_forall. intros a Hin. pose proof (proj1 (Forall_forall _ _) Hpl a Hin) as [Hp Hp']. split; [|done].
    rewrite Hother; [done|]. by intros ->.
  - apply lookup_insert_eq.
  - by eapply lfind_spec.
  - intros lp Hlp. destruct (lcont_struct _ _ _ _ _ _ _ _ C Hlp) as (_ & y & Hy & _). exists prev, y. rewrite Hother by done.
    split_and!; [done..|]. by apply Hprev.
  - exists w2, Ms2, hd2, (k1 ++ e :: k2). split_and!; [done|done|by etrans|done|done|by apply sorted_insert|].
    by rewrite Permutation_middle.
Qed.

(** A struct changes, but not its link. *)
Lemma chained_update ptrs ptrs' Ms hd ch oid new y :
  (∀ e l, ptrs !! e = Some l → ptrs' !! e = Some l) → n_next y = n_next (default new (Ms !! oid)) →
  chained ptrs Ms hd ch → chained ptrs' (<[oid := y]> Ms) hd ch.
Proof using Type.
  intros Hp Hn Hch. assert (chained ptrs' Ms hd ch) as Hch' by (by eapply seg_mono).
  destruct (Ms !! oid) as [x|] eqn:Hx; [by eapply seg_same_next|]. apply seg_insert; [|done].
  intros Hin. destruct (seg_elem _ _ _ _ _ oid Hch' Hin) as (? & ? & _ & ?). congruence.
Qed.

End order.

(** ** Ordered lists *)

Lemma sorted_filter {A} (R : A → A → Prop) (P : A → Prop) `{!∀ x, Decision (P x)} l :
  StronglySorted R l → StronglySorted R (filter P l).
Proof.
  induction 1 as [|a l Hs IH Hall]; [constructor|]. rewrite filter_cons. destruct (decide (P a)); [|done]. constructor; [done|].
  rewrite Forall_forall in *. intros b [_ Hb]%list_elem_of_filter. by apply Hall.
Qed.

Lemma sorted_same idof es1 es2 :
  StronglySorted (below idof) es1 → StronglySorted (below idof) es2 → (∀ e, e ∈ es1 ↔ e ∈ es2) → es1 = es2.
Proof.
  intros H1 H2 Hin. assert (AntiSymm (=) (below idof)) as Hanti.
  { intros a b Hab Hba. by destruct (leid_lt_irrefl (idof a)); eapply leid_lt_trans. }
  eapply StronglySorted_unique; [done..|]. apply NoDup_Permutation; [by eapply sorted_nodup..|done].
Qed.
