(* ===== verification/Rlist.v ===== *)
(** * The remove-win list (src/t_rlist.c)

    A list is a hash of element structs, chained from [head] by [next] in the
    order of their identifiers; the vector clock and the queue of unready
    commands belong to the whole list and are fields of the hash. *)

From S2P Require Import Prelude.
From S2P Require Import Sds.
From S2P Require Import VectorClock.
From S2P Require Import Skiplist.
From S2P Require Import Server.
From S2P Require Import Rwf.
From S2P Require Import RemoveWin.
From S2P Require Import ListBasics.

#[local] Open Scope Z_scope.

(** ** Data *)

(** What an add-set entry carries: a clock per property, and the values. *)
Record rl_val := mkRlVal { rl_stamps : stamps vc; rl_attrs : attrs }.

Abbreviation rl_ase := (ase rl_val).

Inductive rl_cmd_type := RLADD | RLUPDATE | RLREM.

(** A waiting command keeps the arguments after the command name. *)
Abbreviation rl_cmd := (cmd rl_cmd_type (list sds)).

Record rle := mkRle {
  rl_oid : option sds;
  rl_pos_id : option leid;
  rl_content : option sds;
  rl_sets : rws rl_val;
  rl_next : option loc
}.

Definition rleNew : rle := mkRle None None None rws_empty None.

(** [rl_cmdNew]: the arguments but the command name and the clock. *)
Definition rl_cmdNew (type : rl_cmd_type) (rargs : list sds) (t : vc) : rl_cmd :=
  mkCmd type (take (length rargs - 2) (drop 1 rargs)) t.

(** [rl_aseNew] and the assignments that follow it in [insertFunc]. *)
Definition rl_val_new (t : vc) (font size color property : Z) : rl_val :=
  mkRlVal (stamps_all (vc_dup t))
    (mkAttrs (Some (wrap32 font)) (Some (wrap32 size)) (Some (wrap32 color)) (wrap32 property)).

(** The body of the loop of [updateFunc]: an entry [t] has seen takes the
    value when the clock of the property compares below [t]. *)
Definition rl_update_entry (type : sds) (value : Z) (t : vc) (a : rl_ase) : rl_ase :=
  if seen_by t (a_t a) then
    match prop_of type with
    | Some p =>
        let st := get_stamp p (rl_stamps (a_val a)) in
        if vc_cmp st t <? 0 then
          mkAse (a_addr a) (a_t a)
            (mkRlVal (set_stamp p (mkVc (vector (vc_update st t)) (vid t)) (rl_stamps (a_val a)))
                     (set_attr p value (rl_attrs (a_val a))))
        else a
    | None => a
    end
  else a.

(** ** Operations on the list *)

Section commands.
Context {cell : Type} `{!Stored cell rle, !Stored cell vc, !Stored cell (list rl_cmd)}.

Definition GET_RLE (name key : sds) (create : bool) : M cell (option loc) :=
  rehHTGet name None key create (λ _, rleNew).

Definition rl_set_sets (e : loc) (s : rws rl_val) : M cell () :=
  x ← load e;
  store e (mkRle (rl_oid x) (rl_pos_id x) (rl_content x) s (rl_next x)).

Definition rl_set_next (e : loc) (next : option loc) : M cell () :=
  x ← load e;
  store e (mkRle (rl_oid x) (rl_pos_id x) (rl_content x) (rl_sets x) next).

Definition getOps (ht : sds) : M cell loc :=
  value ← hashTypeGetValueObject ht "ops";
  match value with
  | None => e ← alloc ([] : list rl_cmd); hashTypeSet ht "ops" (HPtr e);; mret e
  | Some (HPtr e) => mret e
  | Some (HInt _) => cfault BadCast
  end.

(** [vc_update(getCurrent(ht), t)]. *)
Definition rl_tick (ht : sds) (t : vc) : M cell () :=
  cur ← getCurrent ht;
  c ← load cur;
  store cur (vc_update c t).

(** [q = p->next; while (q != NULL && leid_cmp(id, q->pos_id) > 0) ...]: the
    last node passed and the node after it.  A walk longer than the heap
    goes round a cycle for ever. *)
Fixpoint rl_walk (fuel : nat) (id : leid) (p : loc) : M cell (loc * option loc) :=
  match fuel with
  | O => cfault Hang
  | S fuel' =>
      px ← load (A := rle) p;
      match rl_next px with
      | None => mret (p, None)
      | Some q =>
          qx ← load (A := rle) q;
          qid ← orfault NullDeref (rl_pos_id qx);
          if 0 <? leid_cmp id qid then rl_walk fuel' id q else mret (p, Some q)
      end
  end.

Definition heap_fuel : M cell nat := λ w, Done (S (size (w_heap w))) w.

(** Linking a new element [e] with identifier [id] into the chain. *)
Definition rl_link (ht name prev : sds) (e : loc) (id : leid) : M cell () :=
  head ← getHead ht;
  match head with
  | None => setHead ht e
  | Some h =>
      hx ← load (A := rle) h;
      hid ← orfault NullDeref (rl_pos_id hx);
      if leid_cmp id hid <? 0 then setHead ht e;; rl_set_next e (Some h)
      else
        pre ← GET_RLE name prev false;
        p ← match pre with
            | Some pre => px ← load (A := rle) pre;
                          mret (match rl_pos_id px with Some _ => pre | None => h end)
            | None => mret h
            end;
        fuel ← heap_fuel;
        '(p, q) ← rl_walk fuel id p;
        rl_set_next p (Some e);;
        rl_set_next e q
  end.

Definition insertFunc (ht : sds) (argv : list sds) (t : vc) : M cell () :=
  rl_tick ht t;;
  dirty_inc;;
  name ← nth_arg argv 0; prev ← nth_arg argv 1; key ← nth_arg argv 2;
  e ← GET_RLE name key true;
  e ← orfault NullDeref e;
  x ← load e;
  let pre_insert := rw_LOOKUP (rl_sets x) in
  match rl_oid x with
  | None =>
      content ← nth_arg argv 3; sid ← nth_arg argv 8;
      id ← orfault OutOfBounds (sdsToLeid sid);
      store e (mkRle (Some key) (Some id) (Some content) (rl_sets x) (rl_next x));;
      rl_link ht name prev e id
  | Some _ => mret ()
  end;;
  f ← nth_arg argv 4; s ← nth_arg argv 5; c ← nth_arg argv 6; p ← nth_arg argv 7;
  font ← orfault Uninit (string2ll f);
  size ← orfault Uninit (string2ll s);
  color ← orfault Uninit (string2ll c);
  property ← orfault Uninit (string2ll p);
  x ← load e;
  sets ← orfault NullDeref (rw_add (rl_sets x) t (rl_val_new t font size color property));
  rl_set_sets e sets;;
  if negb pre_insert && rw_LOOKUP sets then incrLen ht 1 else mret ().

Definition updateFunc (ht : sds) (argv : list sds) (t : vc) : M cell () :=
  rl_tick ht t;;
  dirty_inc;;
  name ← nth_arg argv 0; key ← nth_arg argv 1; type ← nth_arg argv 2; sv ← nth_arg argv 3;
  e ← GET_RLE name key true;
  e ← orfault NullDeref e;
  value ← orfault Uninit (string2ll sv);
  x ← load e;
  rl_set_sets e (mkRws (s_value (rl_sets x))
                   (rl_update_entry (sdstolower type) value t <$> s_aset (rl_sets x))
                   (s_rset (rl_sets x))).

Definition rl_removeFunc (ht : sds) (argv : list sds) (t : vc) : M cell () :=
  rl_tick ht t;;
  dirty_inc;;
  name ← nth_arg argv 0; key ← nth_arg argv 1;
  e ← GET_RLE name key true;
  e ← orfault NullDeref e;
  x ← load e;
  let pre_rmv := rw_LOOKUP (rl_sets x) in
  let sets := rw_remove (rl_sets x) t in
  rl_set_sets e sets;;
  if pre_rmv && negb (rw_LOOKUP sets) then incrLen ht (-1) else mret ().

Definition rl_apply (ht : sds) (c : rl_cmd) : M cell () :=
  match cmd_type c with
  | RLADD => insertFunc ht (cmd_value c) (cmd_t c)
  | RLUPDATE => updateFunc ht (cmd_value c) (cmd_t c)
  | RLREM => rl_removeFunc ht (cmd_value c) (cmd_t c)
  end.

(** The [do ... while (changed)] loop of [notifyLoop]. *)
Fixpoint rl_notify_iter (fuel : nat) (ht : sds) (ops cur : loc) : M cell () :=
  match fuel with
  | O => cfault Hang
  | S fuel' =>
      l ← load (A := list rl_cmd) ops;
      c ← load cur;
      r ← orfault Assertion (take_ready c l);
      match r with
      | None => mret ()
      | Some (c, rest) =>
          rl_apply ht c;;
          store ops rest;;
          rl_notify_iter fuel' ht ops cur
      end
  end.

Definition rl_notifyLoop (ht : sds) : M cell () :=
  ops ← getOps ht;
  cur ← getCurrent ht;
  l ← load (A := list rl_cmd) ops;
  rl_notify_iter (S (length l)) ht ops cur.

(** The effect phase shared by the three commands. *)
Definition rl_effect (type : rl_cmd_type) : M cell () :=
  t ← CR_GET_LAST;
  key ← rarg 1;
  ht ← get_list_ht key true;
  current ← getCurrent ht;
  c ← load current;
  b ← orfault Assertion (vc_causally_ready c t);
  if (b : bool) then
    args ← rargs_from 1;
    rl_apply ht (mkCmd type args t);;
    match type with RLUPDATE => s ← rarg 3; rarg_set 3 (sdstolower s) | _ => mret () end;;
    rl_notifyLoop ht
  else
    args ← rargs_from 0;
    ops ← getOps ht;
    l ← load ops;
    store ops (l ++ [rl_cmdNew type args t]).

(** *** rlinsert *)

(** [getCurrent(GET_LIST_HT(argv, 1))]. *)
Definition rl_current (key : sds) : M cell vc :=
  ht ← get_list_ht key true;
  cur ← getCurrent ht;
  load cur.

Definition RARGV_ADD_NOW (key : sds) : M cell () :=
  c ← rl_current key;
  s ← orfault OutOfBounds (vc_now c);
  RARGV_ADD_SDS s.

Definition rl_pos_of (e : option loc) : M cell (option leid) :=
  match e with
  | None => mret None
  | Some e => x ← load (A := rle) e; mret (rl_pos_id x)
  end.

(** The identifiers to the left and to the right of the new element. *)
Definition rl_neighbours (key : sds) (pre : option loc) : M cell (option leid * option leid) :=
  match pre with
  | None =>
      ht ← get_list_ht key true;
      head ← getHead ht;
      right ← rl_pos_of head;
      mret (None, right)
  | Some pre =>
      px ← load (A := rle) pre;
      right ← rl_pos_of (rl_next px);
      mret (rl_pos_id px, right)
  end.

(** The checks on the predecessor argument. *)
Definition rl_check_pre (pre : option loc) : M cell () :=
  s ← arg 2;
  match pre with
  | None =>
      arg_set 2 (sdstolower s);;
      if negb (strcmp_eq (sdstolower s) "null") && negb (strcmp_eq (sdstolower s) "readd")
      then addReply (err_no_pre (sdstolower s));; creturn else mret ()
  | Some pre =>
      px ← load (A := rle) pre;
      if negb (rw_LOOKUP (rl_sets px)) || match rl_pos_id px with None => true | Some _ => false end
      then addReply (err_no_pre s);; creturn else mret ()
  end.

Definition rlinsert_prepare : M cell () :=
  CHECK_ARGC 9;;
  CHECK_CONTAINER_TYPE OBJ_HASH;;
  CHECK_ARG_TYPE_INT 5;; CHECK_ARG_TYPE_INT 6;; CHECK_ARG_TYPE_INT 7;; CHECK_ARG_TYPE_INT 8;;
  key ← arg 1; s ← arg 2;
  pre ← GET_RLE key s false;
  rl_check_pre pre;;
  oid ← arg 3;
  e ← GET_RLE key oid true;
  e ← orfault NullDeref e;
  x ← load e;
  if rw_LOOKUP (rl_sets x) then addReply REleExist;; creturn
  else
    s ← arg 2;
    match rl_oid x with
    | None =>
        if strcmp_eq s "readd" then addReply (err_readd oid);; creturn
        else
          '(lft, rgt) ← rl_neighbours key pre;
          cur ← rl_current key;
          id ← orfault Hang (constructLeid lft rgt cur);
          sid ← orfault OutOfBounds (leidToSds id);
          RARGV_ADD_SDS sid
    | Some _ =>
        if negb (strcmp_eq s "readd") then addReply (err_position oid);; creturn
        else
          id ← orfault NullDeref (rl_pos_id x);
          sid ← orfault OutOfBounds (leidToSds id);
          RARGV_ADD_SDS sid
    end;;
    RARGV_ADD_NOW key.

Definition rlinsertCommand : M cell () := crdt_command rlinsert_prepare (rl_effect RLADD).

(** The element must be in the list. *)
Definition rl_prepare_nonadd (key : sds) : M cell () :=
  ele ← arg 2;
  e ← GET_RLE key ele false;
  match e with
  | None => addReply REleNexist;; creturn
  | Some e =>
      x ← load (A := rle) e;
      if rw_LOOKUP (rl_sets x) then RARGV_ADD_NOW key else addReply REleNexist;; creturn
  end.

Definition rlupdate_prepare : M cell () :=
  CHECK_ARGC 5;;
  CHECK_CONTAINER_TYPE OBJ_HASH;;
  CHECK_ARG_TYPE_INT 4;;
  key ← arg 1;
  rl_prepare_nonadd key.

Definition rlupdateCommand : M cell () := crdt_command rlupdate_prepare (rl_effect RLUPDATE).

Definition rlrem_prepare : M cell () :=
  CHECK_ARGC 3;;
  CHECK_CONTAINER_TYPE OBJ_HASH;;
  key ← arg 1;
  rl_prepare_nonadd key.

Definition rlremCommand : M cell () := crdt_command rlrem_prepare (rl_effect RLREM).

Definition rllenCommand : M cell () := lenCommand.

(** The chain walk of [rllist]. *)
Fixpoint rl_reply_chain (fuel : nat) (e : option loc) : M cell () :=
  match e with
  | None => mret ()
  | Some e =>
      match fuel with
      | O => cfault Hang
      | S fuel' =>
          x ← load (A := rle) e;
          (if rw_LOOKUP (rl_sets x) then
             v ← orfault NullDeref (rw_value (rl_sets x));
             reply_element (rl_oid x) (rl_content x) (rl_attrs (a_val v))
           else mret ());;
          rl_reply_chain fuel' (rl_next x)
      end
  end.

Definition rllistCommand : M cell () :=
  key ← arg 1;
  o ← lookupKey key;
  match o with
  | None => addReply REmptyArray
  | Some (OHash _) =>
      len ← getLen key;
      addReply (RArrayLen len);;
      e ← getHead key;
      fuel ← heap_fuel;
      rl_reply_chain fuel e
  | Some _ => addReply RWrongType
  end.

End commands.
