(* ===== verification/Rwflist.v ===== *)
(** * The Remove-Win-framework list (src/t_rwflist.c)

    Elements are chained as in the remove-win list; add, update and remove of
    an element follow the Remove-Win framework, and every property is a
    last-writer-wins register stamped with a Lamport clock. *)

From S2P Require Import Prelude.
From S2P Require Import Sds.
From S2P Require Import VectorClock.
From S2P Require Import LamportClock.
From S2P Require Import Skiplist.
From S2P Require Import Server.
From S2P Require Import Rwf.
From S2P Require Import ListBasics.

#[local] Open Scope Z_scope.

(** ** Element metadata *)

(** A property stamp is a pointer that can be [NULL]; the three integer
    properties are not initialised. *)
Record rwfle := mkRwfle {
  lf_header : reh;
  lf_oid : option sds;
  lf_pos_id : option leid;
  lf_current : lc;
  lf_content : option sds;
  lf_stamps : stamps (option lc);
  lf_attrs : attrs;
  lf_next : option loc
}.

Definition rwfleNew (clock : vc) (id : Z) : rwfle :=
  mkRwfle (REH_INIT clock) None None (_lc_new 0 id) None (stamps_all None)
    (mkAttrs None None None 0) None.

Definition lf_set_header (h : reh) (e : rwfle) : rwfle :=
  mkRwfle h (lf_oid e) (lf_pos_id e) (lf_current e) (lf_content e) (lf_stamps e) (lf_attrs e) (lf_next e).

Definition lf_set_attrs (a : attrs) (e : rwfle) : rwfle :=
  mkRwfle (lf_header e) (lf_oid e) (lf_pos_id e) (lf_current e) (lf_content e) (lf_stamps e) a (lf_next e).

(** ** Effects on one element *)

(** [acquired_update]; [value] is already an [int]. *)
Definition acquired_update (e : rwfle) (type : sds) (t : lc) (value : Z) : rwfle :=
  match prop_of (sdstolower type) with
  | None => e
  | Some p =>
      let st := get_stamp p (lf_stamps e) in
      if match st with None => true | Some s => lc_cmp s t <=? 0 end then
        mkRwfle (lf_header e) (lf_oid e) (lf_pos_id e) (lc_update (lf_current e) t) (lf_content e)
          (set_stamp p (lc_copy st t) (lf_stamps e)) (set_attr p value (lf_attrs e)) (lf_next e)
      else e
  end.

(** The part of [removeFunc] that is on the element. *)
Definition rwfl_remove (e : rwfle) (t : vc) : option (rwfle * bool) :=
  '(h, b) ← removeCheck (lf_header e) t;
  Some (if (b : bool) then
          (mkRwfle h (lf_oid e) (lf_pos_id e) (mkLc 0 (lid (lf_current e))) (lf_content e)
             (stamps_all None) (lf_attrs e) (lf_next e), true)
        else (lf_set_header h e, false)).

(** [if (e->T_t == NULL) ...]: an unstamped property takes the inserted
    value. *)
Definition in_update (p : list_prop) (value : Z) (e : rwfle) : rwfle :=
  match get_stamp p (lf_stamps e) with
  | None => lf_set_attrs (set_attr p value (lf_attrs e)) e
  | Some _ => e
  end.

(** The assignments of [rwflinsert] when [addCheck] passes. *)
Definition rwfl_insert_attrs (font size color property : Z) (e : rwfle) : rwfle :=
  in_update Punderline (Z.land property __underline)
    (in_update Pitalic (Z.land property __italic)
      (in_update Pbold (Z.land property __bold)
        (in_update Pcolor color (in_update Psize size (in_update Pfont font e))))).

Definition rwfl_add (e : rwfle) (t : vc) (font size color property : Z) : rwfle * bool :=
  let '(h, b) := addCheck (lf_header e) t in
  if b then (rwfl_insert_attrs font size color property (lf_set_header h e), true)
  else (lf_set_header h e, false).

Definition rwfl_update (e : rwfle) (t : vc) (type : sds) (lt : lc) (value : Z) : rwfle * bool :=
  let '(h, b) := updateCheck (lf_header e) t in
  if b then (acquired_update (lf_set_header h e) type lt value, true)
  else (lf_set_header h e, false).

(** ** Commands *)

Section commands.
Context {cell : Type} `{!Stored cell rwfle, !Stored cell vc}.

Definition GET_RWFLE (name key : sds) (create : bool) : M cell (option loc) :=
  rehHTGet name None key create (λ w, rwfleNew (vc_new w) (w_p2p_id w)).

Definition lf_get_header (e : option loc) : M cell (option reh) :=
  match e with
  | Some l => x ← load l; mret (Some (lf_header x))
  | None => mret None
  end.

Definition lf_set_next (e : loc) (next : option loc) : M cell () :=
  x ← load e;
  store e (mkRwfle (lf_header x) (lf_oid x) (lf_pos_id x) (lf_current x) (lf_content x)
             (lf_stamps x) (lf_attrs x) next).

Definition rwfl_removeFunc (e : loc) (t : vc) : M cell () :=
  x ← load e;
  let exist_tmp := EXISTS (lf_header x) in
  '(x', b) ← orfault OutOfBounds (rwfl_remove x t);
  store e x';;
  if (b : bool) then
    key ← rarg 1;
    ht ← GET_LIST_HT key false;
    (if exist_tmp then ht ← orfault NullDeref ht; incrLen ht (-1) else mret ());;
    dirty_inc
  else mret ().

Fixpoint lf_walk (fuel : nat) (id : leid) (p : loc) : M cell (loc * option loc) :=
  match fuel with
  | O => cfault Hang
  | S fuel' =>
      px ← load (A := rwfle) p;
      match lf_next px with
      | None => mret (p, None)
      | Some q =>
          qx ← load (A := rwfle) q;
          qid ← orfault NullDeref (lf_pos_id qx);
          if 0 <? leid_cmp id qid then lf_walk fuel' id q else mret (p, Some q)
      end
  end.

Definition lf_heap_fuel : M cell nat := λ w, Done (S (size (w_heap w))) w.

Definition lf_link (ht name prev : sds) (e : loc) (id : leid) : M cell () :=
  head ← getHead ht;
  match head with
  | None => setHead ht e
  | Some h =>
      hx ← load (A := rwfle) h;
      hid ← orfault NullDeref (lf_pos_id hx);
      if leid_cmp id hid <? 0 then setHead ht e;; lf_set_next e (Some h)
      else
        pre ← GET_RWFLE name prev false;
        p ← match pre with
            | Some pre => px ← load (A := rwfle) pre;
                          mret (match lf_pos_id px with Some _ => pre | None => h end)
            | None => mret h
            end;
        fuel ← lf_heap_fuel;
        '(p, q) ← lf_walk fuel id p;
        lf_set_next p (Some e);;
        lf_set_next e q
  end.

(** The property arguments, read when [addCheck] passes. *)
Definition rwfl_insert_args : M cell (Z * Z * Z * Z) :=
  f ← rarg 5; s ← rarg 6; c ← rarg 7; p ← rarg 8;
  font ← orfault Uninit (string2ll f);
  size ← orfault Uninit (string2ll s);
  color ← orfault Uninit (string2ll c);
  property ← orfault Uninit (string2ll p);
  mret (font, size, color, property).

Definition rwflinsert_effect : M cell () :=
  t ← CR_GET_LAST;
  key ← rarg 1; prev ← rarg 2; oid ← rarg 3;
  e ← GET_RWFLE key oid true;
  e ← orfault NullDeref e;
  rwfl_removeFunc e t;;
  ht ← get_list_ht key true;
  x ← load e;
  match lf_oid x with
  | None =>
      content ← rarg 4; sid ← rarg 9;
      id ← orfault OutOfBounds (sdsToLeid sid);
      store e (mkRwfle (lf_header x) (Some oid) (Some id) (lf_current x) (Some content)
                 (lf_stamps x) (lf_attrs x) (lf_next x));;
      lf_link ht key prev e id
  | Some _ => mret ()
  end;;
  x ← load e;
  let exist_tmp := EXISTS (lf_header x) in
  '(font, size, color, property) ←
    (if (addCheck (lf_header x) t).2 then rwfl_insert_args else mret (0, 0, 0, 0));
  let '(x', b) := rwfl_add x t font size color property in
  store e x';;
  if b then
    (if negb exist_tmp then incrLen ht 1 else mret ());;
    dirty_inc
  else mret ().

(** The checks on the predecessor argument. *)
Definition rwfl_check_pre (pre : option loc) : M cell () :=
  s ← arg 2;
  match pre with
  | None =>
      arg_set 2 (sdstolower s);;
      if negb (strcmp_eq (sdstolower s) "null") && negb (strcmp_eq (sdstolower s) "readd")
      then addReply (err_no_pre (sdstolower s));; creturn else mret ()
  | Some pre =>
      px ← load (A := rwfle) pre;
      if negb (EXISTS (lf_header px)) || match lf_pos_id px with None => true | Some _ => false end
      then addReply (err_no_pre s);; creturn else mret ()
  end.

Definition lf_pos_of (e : option loc) : M cell (option leid) :=
  match e with
  | None => mret None
  | Some e => x ← load (A := rwfle) e; mret (lf_pos_id x)
  end.

Definition lf_neighbours (key : sds) (pre : option loc) : M cell (option leid * option leid) :=
  match pre with
  | None =>
      ht ← get_list_ht key true;
      head ← getHead ht;
      right ← lf_pos_of head;
      mret (None, right)
  | Some pre =>
      px ← load (A := rwfle) pre;
      right ← lf_pos_of (lf_next px);
      mret (lf_pos_id px, right)
  end.

(** A new identifier; the list's counter [cur] is advanced ([vc_inc]). *)
Definition rwfl_new_id (key : sds) (pre : option loc) : M cell leid :=
  '(lft, rgt) ← lf_neighbours key pre;
  ht ← get_list_ht key true;
  cur ← getCurrent ht;
  c ← load cur;
  id ← orfault Hang (constructLeid lft rgt c);
  w ← get;
  c' ← orfault OutOfBounds (_vc_inc c (w_p2p_id w));
  store cur c';;
  mret id.

Definition rwflinsert_prepare : M cell () :=
  CHECK_ARGC 9;;
  CHECK_CONTAINER_TYPE OBJ_HASH;;
  CHECK_ARG_TYPE_INT 5;; CHECK_ARG_TYPE_INT 6;; CHECK_ARG_TYPE_INT 7;; CHECK_ARG_TYPE_INT 8;;
  key ← arg 1; s ← arg 2;
  pre ← GET_RWFLE key s false;
  rwfl_check_pre pre;;
  oid ← arg 3;
  e ← GET_RWFLE key oid true;
  e ← orfault NullDeref e;
  x ← load e;
  PREPARE_PRECOND_ADD (Some (lf_header x));;
  s ← arg 2;
  id ← match lf_oid x with
       | None =>
           if strcmp_eq s "readd" then addReply (err_readd oid);; creturn
           else rwfl_new_id key pre
       | Some _ =>
           if negb (strcmp_eq s "readd") then addReply (err_position oid);; creturn
           else orfault NullDeref (lf_pos_id x)
       end;
  sid ← orfault OutOfBounds (leidToSds id);
  RARGV_ADD_SDS sid;;
  ADD_CR_NON_RMV (lf_header x).

Definition rwflinsertCommand : M cell () := crdt_command rwflinsert_prepare rwflinsert_effect.

Definition rwflupdate_prepare : M cell () :=
  CHECK_ARGC 5;;
  CHECK_CONTAINER_TYPE OBJ_HASH;;
  CHECK_ARG_TYPE_INT 4;;
  key ← arg 1; ele ← arg 2;
  e ← GET_RWFLE key ele false;
  h ← lf_get_header e;
  h ← PREPARE_PRECOND_NON_ADD h;
  e ← orfault NullDeref e;
  x ← load (A := rwfle) e;
  RARGV_ADD_SDS (lc_now (lf_current x));;
  ADD_CR_NON_RMV h.

Definition rwflupdate_effect : M cell () :=
  t ← CR_GET_LAST;
  key ← rarg 1; ele ← rarg 2; type ← rarg 3; sv ← rarg 4; sl ← rarg 5;
  e ← GET_RWFLE key ele true;
  e ← orfault NullDeref e;
  lt ← orfault Uninit (sdsToLc sl);
  rwfl_removeFunc e t;;
  x ← load e;
  value ← (if (updateCheck (lf_header x) t).2 then orfault Uninit (string2ll sv) else mret 0);
  let '(x', b) := rwfl_update x t type lt (wrap32 value) in
  store e x';;
  if b then rarg_set 3 (sdstolower type);; dirty_inc else mret ().

Definition rwflupdateCommand : M cell () := crdt_command rwflupdate_prepare rwflupdate_effect.

Definition rwflrem_prepare : M cell () :=
  CHECK_ARGC 3;;
  CHECK_CONTAINER_TYPE OBJ_HASH;;
  key ← arg 1; ele ← arg 2;
  e ← GET_RWFLE key ele false;
  h ← lf_get_header e;
  h ← PREPARE_PRECOND_NON_ADD h;
  ADD_CR_RMV h.

Definition rwflrem_effect : M cell () :=
  key ← rarg 1; ele ← rarg 2;
  e ← GET_RWFLE key ele true;
  e ← orfault NullDeref e;
  t ← CR_GET_LAST;
  rwfl_removeFunc e t.

Definition rwflremCommand : M cell () := crdt_command rwflrem_prepare rwflrem_effect.

Definition rwfllenCommand : M cell () := lenCommand.

Fixpoint lf_reply_chain (fuel : nat) (e : option loc) : M cell () :=
  match e with
  | None => mret ()
  | Some e =>
      match fuel with
      | O => cfault Hang
      | S fuel' =>
          x ← load (A := rwfle) e;
          (if EXISTS (lf_header x) then reply_element (lf_oid x) (lf_content x) (lf_attrs x)
           else mret ());;
          lf_reply_chain fuel' (lf_next x)
      end
  end.

Definition rwfllistCommand : M cell () :=
  key ← arg 1;
  o ← lookupKey key;
  match o with
  | None => addReply REmptyArray
  | Some (OHash _) =>
      len ← getLen key;
      addReply (RArrayLen len);;
      e ← getHead key;
      fuel ← lf_heap_fuel;
      lf_reply_chain fuel e
  | Some _ => addReply RWrongType
  end.

(** [rwflestatusall]: the count of the chain, then seven items for each. *)
Fixpoint lf_chain (fuel : nat) (e : option loc) : M cell (list rwfle) :=
  match e with
  | None => mret []
  | Some e =>
      match fuel with
      | O => cfault Hang
      | S fuel' =>
          x ← load (A := rwfle) e;
          l ← lf_chain fuel' (lf_next x);
          mret (x :: l)
      end
  end.

Definition lf_reply_status (x : rwfle) : M cell () :=
  addReply (RArrayLen 7);;
  addReply (RBulk ("add id:" +:+ fmt_d (pid (lf_header x))));;
  addReply (RBulk "current:");;
  s ← orfault OutOfBounds (vcToSds (current (lf_header x)));
  addReply (RBulk s);;
  oid ← orfault NullDeref (lf_oid x);
  addReply (RBulk oid);;
  f ← orfault Uninit (at_font (lf_attrs x));
  addReply (RBulk (fmt_d f));;
  addReply (RBulk (match font_t (lf_stamps x) with Some t => lcToSds t | None => "null" end));;
  id ← orfault NullDeref (lf_pos_id x);
  s ← orfault OutOfBounds (leidToSds id);
  addReply (RBulk s).

Fixpoint lf_reply_statuses (l : list rwfle) : M cell () :=
  match l with
  | [] => mret ()
  | x :: l' => lf_reply_status x;; lf_reply_statuses l'
  end.

Definition rwflestatusall : M cell () :=
  key ← arg 1;
  o ← lookupKey key;
  match o with
  | None => addReply REmptyArray
  | Some (OHash _) =>
      e ← getHead key;
      fuel ← lf_heap_fuel;
      l ← lf_chain fuel e;
      addReply (RArrayLen (Z.of_nat (length l)));;
      lf_reply_statuses l
  | Some _ => addReply RWrongType
  end.

End commands.
