(* ===== verification/RwflistRep.v ===== *)
(** * What the Remove-Win-framework list computes

    The effect phases of t_rwflist.c are, on one element, the generic
    Remove-Win effect of [Rwf], with a last-writer-wins register for each
    property as payload; on the list, they keep the chain in the order of the
    identifiers and the length equal to the number of elements that exist. *)

From Stdlib Require Import Sorting.Sorted.
From S2P Require Import Prelude.
From S2P Require Import Sds.
From S2P Require Import VectorClock.
From S2P Require Import LamportClock.
From S2P Require Import Skiplist.
From S2P Require Import Server.
From S2P Require Import Container.
From S2P Require Import Rwf.
From S2P Require Import ListBasics.
From S2P Require Import Leid.
From S2P Require Import ListChain.
From S2P Require Import Rwflist.

#[local] Open Scope Z_scope.
#[local] Open Scope crdt_scope.

(** ** Properties of an element *)

Definition mk_props {X} (f : list_prop → X) : stamps X :=
  mkStamps (f Pfont) (f Psize) (f Pcolor) (f Pbold) (f Pitalic) (f Punderline).

Lemma get_mk_props {X} (f : list_prop → X) p : get_stamp p (mk_props f) = f p.
Proof. by destruct p. Qed.

Lemma stamps_ext {X} (s s' : stamps X) : (∀ p, get_stamp p s = get_stamp p s') → s = s'.
Proof.
  intros H. destruct s, s'. pose proof (H Pfont). pose proof (H Psize). pose proof (H Pcolor).
  pose proof (H Pbold). pose proof (H Pitalic). pose proof (H Punderline). simpl in *. congruence.
Qed.

Lemma get_set_stamp {X} p q (x : X) s : get_stamp p (set_stamp q x s) = if decide (p = q) then x else get_stamp p s.
Proof. by destruct p, q. Qed.

Lemma get_stamps_all {X} p (x : X) : get_stamp p (stamps_all x) = x.
Proof. by destruct p. Qed.

(** The value of a property; bits are 0 or 1. *)
Definition get_attr (p : list_prop) (a : attrs) : option Z :=
  match p with
  | Pfont => at_font a | Psize => at_size a | Pcolor => at_color a
  | Pbold => Some (if Z.testbit (at_property a) 0 then 1 else 0)
  | Pitalic => Some (if Z.testbit (at_property a) 1 then 1 else 0)
  | Punderline => Some (if Z.testbit (at_property a) 2 then 1 else 0)
  end.

(** What an assigned value reads as. *)
Definition norm (p : list_prop) (v : Z) : Z :=
  match p with
  | Pfont | Psize | Pcolor => wrap32 v
  | Pbold | Pitalic | Punderline => if v =? 0 then 0 else 1
  end.

(** The bit field holds the three bits. *)
Definition attrs_ok (a : attrs) : Prop := 0 ≤ at_property a < 8.

Lemma eight_cases n : 0 ≤ n < 8 → n = 0 ∨ n = 1 ∨ n = 2 ∨ n = 3 ∨ n = 4 ∨ n = 5 ∨ n = 6 ∨ n = 7.
Proof. lia. Qed.

Lemma get_set_attr p q v a :
  attrs_ok a → get_attr p (set_attr q v a) = if decide (p = q) then Some (norm q v) else get_attr p a.
Proof.
  intros Ha. destruct a as [f s c n]. unfold attrs_ok in Ha. simpl in Ha.
  destruct (eight_cases n Ha) as [->|[->|[->|[->|[->|[->|[->| ->]]]]]]]; destruct q; destruct p; simpl; try done; by destruct (v =? 0).
Qed.

Lemma set_attr_ok q v a : attrs_ok a → attrs_ok (set_attr q v a).
Proof.
  intros Ha. destruct a as [f s c n]. unfold attrs_ok in *. simpl in *.
  destruct (eight_cases n Ha) as [->|[->|[->|[->|[->|[->|[->| ->]]]]]]]; destruct q; simpl; try done; by destruct (v =? 0).
Qed.

(** The bit field is made of the three bits. *)
Lemma property_bits a :
  attrs_ok a →
  at_property a = (if Z.testbit (at_property a) 0 then 1 else 0) + 2 * (if Z.testbit (at_property a) 1 then 1 else 0)
    + 4 * (if Z.testbit (at_property a) 2 then 1 else 0).
Proof. intros Ha. by destruct (eight_cases _ Ha) as [->|[->|[->|[->|[->|[->|[->| ->]]]]]]]. Qed.

(** ** Operations *)

Inductive list_arg :=
  | LAdd (i : insert_args)
  | LUpd (type : sds) (lt : lc) (value : Z)
  | LRem.

#[global] Instance list_arg_eq_dec : EqDecision list_arg.
Proof. solve_decision. Defined.

Abbreviation list_op := (rwf_op list_arg).

(** A register for each property: the stamp of the last update, and the value
    if there is one. *)
Abbreviation registers := (stamps (option lc * option Z)).

Definition no_values : registers := mk_props (λ _, (None, None)).

(** The value an insert gives a property. *)
Definition ins_val (p : list_prop) (i : insert_args) : Z :=
  match p with
  | Pfont => wrap32 (in_font i) | Psize => wrap32 (in_size i) | Pcolor => wrap32 (in_color i)
  | Pbold => norm Pbold (Z.land (in_property i) __bold)
  | Pitalic => norm Pitalic (Z.land (in_property i) __italic)
  | Punderline => norm Punderline (Z.land (in_property i) __underline)
  end.

Definition arg_val (p : list_prop) (a : list_arg) : option Z := match a with LAdd i => Some (ins_val p i) | _ => None end.

Definition on_insert (a : list_arg) (q : registers) : registers :=
  mk_props (λ p, match get_stamp p q with (None, _) => (None, arg_val p a) | x => x end).

(** The order of Lamport clocks. *)
Definition lc_leb (s t : lc) : bool := (lx s <? lx t) || ((lx s =? lx t) && (lid s <=? lid t)).

Definition on_update (a : list_arg) (q : registers) : registers :=
  match a with
  | LUpd type lt v =>
      match prop_of (sdstolower type) with
      | Some p =>
          if match (get_stamp p q).1 with None => true | Some s => lc_leb s lt end
          then set_stamp p (Some lt, Some (norm p (wrap32 v))) q else q
      | None => q
      end
  | _ => q
  end.

(** Updates of one property with the same stamp have the same value. *)
Definition upd_compat (a b : list_arg) : Prop :=
  match a, b with
  | LUpd ta la va, LUpd tb lb vb =>
      prop_of (sdstolower ta) = prop_of (sdstolower tb) → la = lb → wrap32 va = wrap32 vb
  | _, _ => True
  end.

Lemma lc_cmp_leb s t : lc_ok s → lc_ok t → (lc_cmp s t <=? 0) = lc_leb s t.
Proof.
  intros [??] [??]. unfold lc_cmp, lc_leb. destruct (Z.eqb_spec (lx s) (lx t)) as [He|Hne]; simpl;
    rewrite wrap32_small by done; cases_Z; simpl; try done; lia.
Qed.

Lemma lc_leb_total s t : lc_leb s t = true ∨ lc_leb t s = true.
Proof. unfold lc_leb. cases_Z; simpl; auto; lia. Qed.

Lemma lc_leb_trans s t u : lc_leb s t = true → lc_leb t u = true → lc_leb s u = true.
Proof. unfold lc_leb. cases_Z; simpl; try done; lia. Qed.

Lemma lc_leb_antisym s t : lc_leb s t = true → lc_leb t s = true → s = t.
Proof. destruct s, t. unfold lc_leb. simpl. cases_Z; simpl; try done; intros; f_equal; lia. Qed.

#[global] Instance list_laws : RwfLaws upd_compat on_insert on_update.
Proof.
  split.
  - intros a b p. apply stamps_ext. intros q. unfold on_insert. rewrite !get_mk_props. by destruct (get_stamp q p) as [[]].
  - intros a b p. destruct b as [|type lt v|]; simpl; try done. destruct (prop_of (sdstolower type)) as [k|]; [|done].
    unfold on_insert. rewrite get_mk_props. apply stamps_ext. intros q. destruct (get_stamp k p) as [[s|] v0] eqn:Hk; simpl.
    + destruct (lc_leb s lt); [|done]. rewrite get_set_stamp, !get_mk_props, get_set_stamp. by destruct (decide (q = k)).
    + rewrite get_set_stamp, !get_mk_props, get_set_stamp. by destruct (decide (q = k)).
  - intros a b p. destruct a as [|ta la va|], b as [|tb lb vb|]; simpl; try done. intros Hc.
    destruct (prop_of (sdstolower ta)) as [ka|], (prop_of (sdstolower tb)) as [kb|]; try done.
    destruct (decide (ka = kb)) as [<-|Hne].
    + apply stamps_ext. intros q. specialize (Hc eq_refl). destruct (get_stamp ka p) as [st v0] eqn:Hk. simpl.
      assert (lc_leb la lb = true → lc_leb lb la = true → (Some la, Some (norm ka (wrap32 va))) = (Some lb, Some (norm ka (wrap32 vb)))) as Htie.
      { intros H1 H2. rewrite (Hc (lc_leb_antisym _ _ H1 H2)). by rewrite (lc_leb_antisym _ _ H1 H2). }
      pose proof (lc_leb_total la lb) as Htot.
      destruct st as [s|].
      * pose proof (lc_leb_trans s la lb) as T1. pose proof (lc_leb_trans s lb la) as T2.
        pose proof (lc_leb_total s la) as Tt1. pose proof (lc_leb_total s lb) as Tt2.
        pose proof (lc_leb_trans la lb s) as T3. pose proof (lc_leb_trans lb la s) as T4.
        destruct (lc_leb s la) eqn:E1, (lc_leb s lb) eqn:E2, (lc_leb la lb) eqn:E3, (lc_leb lb la) eqn:E4;
          repeat (rewrite ?get_set_stamp, ?decide_True, ?Hk, ?E1, ?E2, ?E3, ?E4 by done; simpl); try done;
          try (destruct (decide (q = ka)); [|done]); try done; try naive_solver.
      * destruct (lc_leb la lb) eqn:E3, (lc_leb lb la) eqn:E4;
          repeat (rewrite ?get_set_stamp, ?decide_True, ?Hk, ?E3, ?E4 by done; simpl); try done;
          try (destruct (decide (q = ka)); [|done]); try done; try naive_solver.
    + destruct (get_stamp ka p) as [sa va0] eqn:Ha, (get_stamp kb p) as [sb vb0] eqn:Hb. simpl.
      destruct (match sa with None => true | Some s => lc_leb s la end) eqn:E1, (match sb with None => true | Some s => lc_leb s lb end) eqn:E2;
        repeat (rewrite ?get_set_stamp, ?(decide_False (P := ka = kb)), ?(decide_False (P := kb = ka)), ?Ha, ?Hb by done; simpl; rewrite ?E1, ?E2); try done.
      apply stamps_ext. intros q. rewrite !get_set_stamp. destruct (decide (q = ka)), (decide (q = kb)); congruence.
Qed.

(** ** One element *)

(** The registers an element stands for: the value of a property counts when
    the property is stamped or an insert is in force. *)
Definition shown_value (e : rwfle) (p : list_prop) : option Z :=
  match get_stamp p (lf_stamps e) with
  | Some _ => get_attr p (lf_attrs e)
  | None => if 0 <=? pid (lf_header e) then get_attr p (lf_attrs e) else None
  end.

Definition lview (e : rwfle) : reh * registers :=
  (lf_header e, mk_props (λ p, (get_stamp p (lf_stamps e), shown_value e p))).

Definition stamps_ok (s : stamps (option lc)) : Prop := ∀ p t, get_stamp p s = Some t → lc_ok t.

Definition elem_ok (e : rwfle) : Prop := attrs_ok (lf_attrs e) ∧ stamps_ok (lf_stamps e).

Lemma elem_ok_new c i : elem_ok (rwfleNew c i).
Proof. split; [done|]. intros p t. simpl. by rewrite get_stamps_all. Qed.

(** The identity of an element: its name, position and text, and the link. *)
Definition lid_of (e : rwfle) : option sds * option leid * option sds * option loc :=
  (lf_oid e, lf_pos_id e, lf_content e, lf_next e).

Lemma get_lview e q : get_stamp q (lview e).2 = (get_stamp q (lf_stamps e), shown_value e q).
Proof. exact (get_mk_props (λ p, (get_stamp p (lf_stamps e), shown_value e p)) q). Qed.

Lemma lview_inv e h q : lview e = (h, q) → lf_header e = h ∧ (lview e).2 = q.
Proof. intros H. split; [by injection H|by rewrite H]. Qed.

(** A property that the insert sets. *)
Lemma in_update_spec p v e :
  elem_ok e → let e' := in_update p v e in
  elem_ok e' ∧ lf_header e' = lf_header e ∧ lf_stamps e' = lf_stamps e ∧ lid_of e' = lid_of e ∧
  ∀ q, get_attr q (lf_attrs e') =
    if decide (q = p) then match get_stamp p (lf_stamps e) with None => Some (norm p v) | Some _ => get_attr q (lf_attrs e) end
    else get_attr q (lf_attrs e).
Proof.
  intros [Ha Hs] e'. unfold e', in_update. destruct (get_stamp p (lf_stamps e)) eqn:Hp.
  - split_and!; try done. intros q. by destruct (decide (q = p)).
  - split_and!; try done; [split; [by apply set_attr_ok|done]|]. intros q. simpl. by apply get_set_attr.
Qed.

Lemma insert_attrs_spec f s c pr e :
  elem_ok e → let e' := rwfl_insert_attrs f s c pr e in
  elem_ok e' ∧ lf_header e' = lf_header e ∧ lf_stamps e' = lf_stamps e ∧ lid_of e' = lid_of e ∧
  ∀ q, get_attr q (lf_attrs e') =
    match get_stamp q (lf_stamps e) with
    | None => Some (ins_val q (mkIns "" "" f s c pr []))
    | Some _ => get_attr q (lf_attrs e)
    end.
Proof.
  intros H0 e'. unfold e', rwfl_insert_attrs.
  destruct (in_update_spec Pfont f e H0) as (H1 & E1 & S1 & L1 & A1). set (e1 := in_update Pfont f e) in *.
  destruct (in_update_spec Psize s e1 H1) as (H2 & E2 & S2 & L2 & A2). set (e2 := in_update Psize s e1) in *.
  destruct (in_update_spec Pcolor c e2 H2) as (H3 & E3 & S3 & L3 & A3). set (e3 := in_update Pcolor c e2) in *.
  destruct (in_update_spec Pbold (Z.land pr __bold) e3 H3) as (H4 & E4 & S4 & L4 & A4). set (e4 := in_update Pbold _ e3) in *.
  destruct (in_update_spec Pitalic (Z.land pr __italic) e4 H4) as (H5 & E5 & S5 & L5 & A5). set (e5 := in_update Pitalic _ e4) in *.
  destruct (in_update_spec Punderline (Z.land pr __underline) e5 H5) as (H6 & E6 & S6 & L6 & A6).
  split_and!; [done|congruence|congruence|congruence|]. intros q. rewrite A6, A5, A4, A3, A2, A1.
  rewrite S5, S4, S3, S2, S1. by destruct q; simpl; case_match.
Qed.

Lemma rwfl_remove_view e t h b :
  elem_ok e → removeCheck (lf_header e) t = Some (h, b) →
  ∃ e', rwfl_remove e t = Some (e', b) ∧ elem_ok e' ∧ lid_of e' = lid_of e ∧
    lview e' = (h, if b then no_values else (lview e).2) ∧ (b = true → EXISTS h = false) ∧ (b = false → h = lf_header e).
Proof.
  intros [Ha Hs] Hrc. unfold rwfl_remove. rewrite Hrc. simpl. unfold removeCheck in Hrc.
  destruct (removeCheck_loop _ _) as [[|]|]; simplify_eq; eexists; (split; [done|]).
  - split_and!; try done. split; [done|]. intros p t'. simpl. by rewrite get_stamps_all.
  - destruct e. split_and!; done.
Qed.

Lemma rwfl_add_view e t i h b :
  elem_ok e → 0 ≤ vid t → addCheck (lf_header e) t = (h, b) →
  ∃ e', rwfl_add e t (in_font i) (in_size i) (in_color i) (in_property i) = (e', b) ∧ elem_ok e' ∧ lid_of e' = lid_of e ∧
    lview e' = (h, if b then on_insert (LAdd i) (lview e).2 else (lview e).2) ∧
    EXISTS h = EXISTS (lf_header e) || b.
Proof.
  intros Hok Hid Hac. unfold rwfl_add. rewrite Hac. destruct (addCheck_cases (lf_header e) t) as [Hc|(Hc & _ & _)]; rewrite Hc in Hac; simplify_eq.
  - exists e. split; [by destruct e|]. split_and!; try done. by rewrite orb_false_r.
  - set (e0 := lf_set_header _ e). assert (elem_ok e0) as H0 by done.
    destruct (insert_attrs_spec (in_font i) (in_size i) (in_color i) (in_property i) e0 H0) as (H1 & E1 & S1 & L1 & A1).
    eexists. split; [done|]. split_and!; try done.
    + unfold lview. rewrite E1. f_equal. apply stamps_ext. intros q. unfold on_insert. cbn [snd]. rewrite !get_mk_props. rewrite S1.
      unfold shown_value. rewrite S1, A1, E1. simpl. destruct (get_stamp q (lf_stamps e)) eqn:Hq; [done|].
      rewrite (proj2 (Z.leb_le 0 (vid t)) Hid). by destruct q.
    + unfold EXISTS. simpl. unfold PID_NEXIST. destruct (Z.eqb_spec (vid t) (-1)); [lia|]. by rewrite orb_true_r.
Qed.

Lemma rwfl_update_view e t type lt v h b :
  elem_ok e → lc_ok lt → updateCheck (lf_header e) t = (h, b) →
  ∃ e', rwfl_update e t type lt (wrap32 v) = (e', b) ∧ elem_ok e' ∧ lid_of e' = lid_of e ∧
    lview e' = (h, if b then on_update (LUpd type lt v) (lview e).2 else (lview e).2) ∧
    EXISTS h = EXISTS (lf_header e) || b.
Proof.
  intros [Ha Hs] Hlt Huc. unfold rwfl_update. rewrite Huc. unfold updateCheck in Huc.
  destruct (vc_equal t (current (lf_header e))); simpl in Huc; simplify_eq.
  2: { exists e. split; [by destruct e|]. split_and!; try done. by rewrite orb_false_r. }
  set (h := if EXISTS (lf_header e) then _ else _).
  assert ((0 <=? pid h) = (0 <=? pid (lf_header e))) as Hpid.
  { unfold h, EXISTS. destruct (Z.eqb_spec (pid (lf_header e)) PID_NEXIST) as [->|]; done. }
  assert (EXISTS h = true) as Hex by (unfold h; destruct (EXISTS (lf_header e)) eqn:E; done).
  rewrite Hex, orb_true_r. unfold acquired_update, on_update.
  destruct (prop_of (sdstolower type)) as [k|] eqn:Hk.
  2: { eexists. split; [done|]. split_and!; try done. unfold lview, shown_value. simpl. by rewrite Hpid. }
  rewrite get_lview. cbn [fst lf_stamps lf_set_header].
  assert (match get_stamp k (lf_stamps e) with None => true | Some s => lc_cmp s lt <=? 0 end
    = match get_stamp k (lf_stamps e) with None => true | Some s => lc_leb s lt end) as ->.
  { destruct (get_stamp k (lf_stamps e)) as [s|] eqn:Hst; [|done]. apply lc_cmp_leb; [by eapply Hs|done]. }
  destruct (match get_stamp k (lf_stamps e) with None => true | Some s => lc_leb s lt end);
    (eexists; split; [done|]); split_and!; try done.
  - split; [by apply set_attr_ok|]. intros p t' . cbn [lf_stamps]. rewrite get_set_stamp. destruct (decide (p = k)) as [->|]; [|apply Hs].
    unfold lc_copy. destruct (get_stamp k (lf_stamps e)); by intros [= <-]; destruct lt.
  - unfold lview at 1. cbn [lf_header]. f_equal. apply stamps_ext. intros q. rewrite get_set_stamp, get_lview, get_mk_props.
    unfold shown_value. cbn [lf_header lf_stamps lf_attrs lf_set_header]. rewrite get_set_stamp, get_set_attr, Hpid by done. destruct (decide (q = k)) as [->|]; [|done].
    assert (lc_copy (get_stamp k (lf_stamps e)) lt = Some lt) as -> by (unfold lc_copy; destruct (get_stamp k (lf_stamps e)); by destruct lt).
    done.
  - unfold lview, shown_value. simpl. by rewrite Hpid.
Qed.

(** ** Effects as Remove-Win effects *)

Abbreviation list_effect := (rwf_effect no_values on_insert on_update).

Definition exists_now (e : rwfle) : bool := EXISTS (lf_header e).

(** What the remove check does to an element, and to its existence. *)
Lemma remove_phase e t :
  elem_ok e → vsize (current (lf_header e)) = vsize t →
  ∃ h b e1, removeCheck (lf_header e) t = Some (h, b) ∧ rwfl_remove e t = Some (e1, b) ∧ elem_ok e1 ∧ lid_of e1 = lid_of e ∧
    lview e1 = (h, if b then no_values else (lview e).2) ∧ exists_now e1 = exists_now e && negb b.
Proof.
  intros Hok Hs. destruct (removeCheck (lf_header e) t) as [[h b]|] eqn:Hrc; [|by rewrite removeCheck_spec in Hrc].
  destruct (rwfl_remove_view e t h b Hok Hrc) as (e1 & H1 & H2 & H3 & H4 & H5 & H6).
  exists h, b, e1. split_and!; try done. unfold exists_now.
  assert (lf_header e1 = h) as -> by (by injection H4). destruct b; [by rewrite H5, andb_false_r|by rewrite H6, andb_true_r].
Qed.

(** The remove and the add of an insert; between them only the place of the
    element changes. *)
Lemma insert_phases e e1 b1 e1' t i :
  elem_ok e → vsize (current (lf_header e)) = vsize t → 0 ≤ vid t →
  rwfl_remove e t = Some (e1, b1) → elem_ok e1' → lview e1' = lview e1 →
  ∃ e2 b2, rwfl_add e1' t (in_font i) (in_size i) (in_color i) (in_property i) = (e2, b2) ∧
    (addCheck (lf_header e1') t).2 = b2 ∧ elem_ok e2 ∧ lid_of e2 = lid_of e1' ∧
    list_effect (lview e) (mkRwfOp RwfAdd t (LAdd i)) = Some (lview e2) ∧ exists_now e2 = exists_now e1 || b2.
Proof.
  intros Hok Hs Hid Hrm Hok1 Hv. destruct (remove_phase e t Hok Hs) as (h & b & e1'' & Hrc & Hrm' & _ & _ & Hv1 & _).
  assert (e1'' = e1 ∧ b = b1) as [-> ->] by (split; congruence). rewrite Hv1 in Hv.
  assert (lf_header e1' = h ∧ (lview e1').2 = if b1 then no_values else (lview e).2) as [Hh Hp] by (by apply lview_inv).
  destruct (addCheck h t) as [h2 b2] eqn:Hac.
  destruct (rwfl_add_view e1' t i h2 b2 Hok1 Hid) as (e2 & H1 & H2 & H3 & H4 & H5); [by rewrite Hh|].
  exists e2, b2. rewrite Hh, Hac. split_and!; try done.
  - unfold rwf_effect. change (lview e).1 with (lf_header e). cbn [op_t op_kind op_arg]. rewrite Hrc. cbn [mbind option_bind].
    rewrite Hac, H4, <- Hp. done.
  - unfold exists_now. assert (lf_header e2 = h2) as -> by (by injection H4). rewrite H5, Hh. by injection Hv1 as ->.
Qed.

Lemma update_phases e e1 b1 t type lt v :
  elem_ok e → vsize (current (lf_header e)) = vsize t → lc_ok lt → rwfl_remove e t = Some (e1, b1) → elem_ok e1 →
  ∃ e2 b2, rwfl_update e1 t type lt (wrap32 v) = (e2, b2) ∧ (updateCheck (lf_header e1) t).2 = b2 ∧ elem_ok e2 ∧ lid_of e2 = lid_of e1 ∧
    list_effect (lview e) (mkRwfOp RwfUpdate t (LUpd type lt v)) = Some (lview e2) ∧ exists_now e2 = exists_now e1 || b2.
Proof.
  intros Hok Hs Hlt Hrm Hok1. destruct (remove_phase e t Hok Hs) as (h & b & e1'' & Hrc & Hrm' & _ & _ & Hv1 & _).
  assert (e1'' = e1 ∧ b = b1) as [-> ->] by (split; congruence).
  assert (lf_header e1 = h ∧ (lview e1).2 = if b1 then no_values else (lview e).2) as [Hh Hp] by (by apply lview_inv).
  destruct (updateCheck h t) as [h2 b2] eqn:Huc.
  destruct (rwfl_update_view e1 t type lt v h2 b2 Hok1 Hlt) as (e2 & H1 & H2 & H3 & H4 & H5); [by rewrite Hh|].
  exists e2, b2. rewrite Hh, Huc. split_and!; try done.
  - unfold rwf_effect. change (lview e).1 with (lf_header e). cbn [op_t op_kind op_arg]. rewrite Hrc. cbn [mbind option_bind].
    rewrite Huc, H4, <- Hp. done.
  - unfold exists_now. assert (lf_header e2 = h2) as -> by (by injection H4). by rewrite H5, Hh.
Qed.

Lemma remove_phases e e1 b1 t :
  elem_ok e → vsize (current (lf_header e)) = vsize t → rwfl_remove e t = Some (e1, b1) →
  list_effect (lview e) (mkRwfOp RwfRem t LRem) = Some (lview e1).
Proof.
  intros Hok Hs Hrm. destruct (remove_phase e t Hok Hs) as (h & b & e1'' & Hrc & Hrm' & _ & _ & Hv1 & _).
  assert (e1'' = e1 ∧ b = b1) as [-> ->] by (split; congruence). unfold rwf_effect. change (lview e).1 with (lf_header e). cbn [op_t op_kind]. rewrite Hrc. cbn [mbind option_bind].
  by rewrite Hv1.
Qed.

(** ** The commands *)

#[global] Program Instance rwfle_node : Node rwfle := {|
  n_pos := lf_pos_id;
  n_next := lf_next;
  n_set_next nx x := mkRwfle (lf_header x) (lf_oid x) (lf_pos_id x) (lf_current x) (lf_content x) (lf_stamps x) (lf_attrs x) nx
|}.
Solve Obligations with done.
Next Obligation. by intros []. Qed.

(** Nothing but links differs between the structs. *)
Lemma relinked_elem c Ms Ms' e x :
  relinked c Ms Ms' → Ms !! e = Some x →
  ∃ x', Ms' !! e = Some x' ∧ lview x' = lview x ∧ (elem_ok x → elem_ok x') ∧
    (lf_oid x', lf_pos_id x', lf_content x') = (lf_oid x, lf_pos_id x, lf_content x).
Proof. intros Hr Hx. destruct (Hr e) as [[nx Hn] _]. rewrite Hx in Hn. simpl in Hn. eexists. split_and!; done. Qed.

Section world.
Context {cell : Type} `{!Stored cell rwfle, !Stored cell vc}.
Implicit Types (w : world cell) (Ms : gmap sds rwfle).

Lemma lf_link_node ht name prev l id :
  lf_link (cell := cell) ht name prev l id = node_link (A := rwfle) (GET_RWFLE name prev false) ht l id.
Proof using Type. reflexivity. Qed.

(** The remove check on an element, with the length. *)
Lemma rwfl_removeFunc_run w key ptrs Ms hd len oid l x x' b t r :
  lcont w key ptrs Ms hd len → ptrs !! oid = Some l → Ms !! oid = Some x → len_ok len →
  rargv (w_client w) = Some r → r_args r !! 1%nat = Some key → rwfl_remove x t = Some (x', b) →
  ∃ w' len', rwfl_removeFunc l t w = Done () w' ∧ lcont w' key ptrs (<[oid := x']> Ms) hd len' ∧ same_setup rwfle w w' ∧
    default 0 len' = default 0 len - (if b && exists_now x then 1 else 0).
Proof using Type.
  intros C Hl Hx Hlen Hr H1 Hrm. unfold rwfl_removeFunc. mstep (lload_spec w key ptrs Ms hd len oid l x C Hl Hx). rewrite Hrm.
  erewrite bind_Done by done. destruct (lstore_spec w key ptrs Ms hd len oid l x' C Hl) as (w1 & Hst & C1 & S1). mstep Hst.
  destruct b; cbn [andb]; [|exists w1, len; split_and!; [done..|lia]].
  assert (rargv (w_client w1) = Some r) as Hr1 by (exact (same_setup_rargv _ _ _ S1 ltac:(done))).
  mstep (rarg_spec w1 r 1 key Hr1 H1). mstep (get_list_ht_spec w1 key ptrs _ hd len oid l false C1 Hl).
  unfold exists_now. destruct (EXISTS (lf_header x)); cbv beta iota.
  - destruct (incrLen_spec w1 key ptrs _ hd len oid l (-1) C1 Hl) as (w2 & Hi & C2 & S2); [done|].
    erewrite (bind_Done _ _ w1); [|erewrite bind_Done by done; exact Hi].
    destruct (ldirty_spec w2 key ptrs _ _ _ C2) as (w3 & -> & C3 & S3).
    exists w3, (Some (wrap32 (default 0 len + -1))). split_and!; [done|done|by etrans; [exact S1|etrans; [exact S2|exact S3]]|].
    simpl. rewrite wrap32_id; [lia|]. unfold len_ok, int32, INT_MIN, INT_MAX in *. lia.
  - rewrite (bind_Done (mret ()) _ w1 () w1 eq_refl). destruct (ldirty_spec w1 key ptrs _ _ _ C1) as (w3 & -> & C3 & S3).
    exists w3, len. split_and!; [done|done|by etrans; [exact S1|exact S3]|lia].
Qed.

(** Counting the element when it starts to exist. *)
Lemma count_run w key ptrs Ms hd len oid l (ex b : bool) :
  lcont w key ptrs Ms hd len → ptrs !! oid = Some l → len_ok len →
  ∃ w' len', (if b then (if negb ex then incrLen key 1 else mret ());; dirty_inc else mret ()) w = Done () w' ∧
    lcont w' key ptrs Ms hd len' ∧ same_setup rwfle w w' ∧ default 0 len' = default 0 len + (if b && negb ex then 1 else 0).
Proof using Type.
  intros C Hl Hlen. destruct b; [|exists w, len; split_and!; [done..|simpl; lia]].
  destruct ex; cbn [negb andb].
  - rewrite (bind_Done (mret ()) _ w () w eq_refl). destruct (ldirty_spec w key ptrs _ _ _ C) as (w3 & -> & C3 & S3). exists w3, len. split_and!; [done..|lia].
  - destruct (incrLen_spec w key ptrs _ hd len oid l 1 C Hl) as (w2 & Hi & C2 & S2); [done|]. mstep Hi.
    destruct (ldirty_spec w2 key ptrs _ _ _ C2) as (w3 & -> & C3 & S3). exists w3, (Some (wrap32 (default 0 len + 1))).
    split_and!; [done|done|by etrans|]. simpl. rewrite wrap32_id; [done|]. unfold len_ok, int32, INT_MIN, INT_MAX in *. lia.
Qed.

(** *** The common beginning: find or create the element, check for a remove *)

(** The struct GET_RWFLE creates. *)
Definition new_elem w : rwfle := rwfleNew (vc_new w) (w_p2p_id w).

Lemma start_run w key ptrs Ms hd len oid t r :
  let x0 := default (new_elem w) (Ms !! oid) in
  lcont w key ptrs Ms hd len → ¬ reserved oid → elem_ok x0 → vsize (current (lf_header x0)) = vsize t →
  len_ok len → rargv (w_client w) = Some r → r_args r !! 1%nat = Some key →
  ∃ w1 w2 l ptrs2 len2 x1 b1, GET_RWFLE key oid true w = Done (Some l) w1 ∧ rwfl_removeFunc l t w1 = Done () w2 ∧
    ptrs2 !! oid = Some l ∧ same_setup rwfle w w1 ∧ rwfl_remove x0 t = Some (x1, b1) ∧ elem_ok x1 ∧ lid_of x1 = lid_of x0 ∧
    exists_now x1 = exists_now x0 && negb b1 ∧ default 0 len2 = default 0 len - (if b1 && exists_now x0 then 1 else 0) ∧
    lcont w2 key ptrs2 (<[oid := x1]> Ms) hd len2 ∧ same_setup rwfle w w2 ∧ (∀ e l, ptrs !! e = Some l → ptrs2 !! e = Some l).
Proof using Type.
  intros x0 C Hres Hok Hs Hlen Hr H1.
  destruct (lget_spec w key ptrs Ms hd len oid new_elem C Hres) as (w1 & l & ptrs1 & Hget & Hl & C1 & S1 & P1); [done|].
  fold x0 in C1. destruct (remove_phase x0 t Hok Hs) as (h & b & x1 & _ & Hrm & Hok1 & Hid1 & _ & Hex).
  assert (rargv (w_client w1) = Some r) as Hr1 by (exact (same_setup_rargv _ _ _ S1 ltac:(done))).
  destruct (rwfl_removeFunc_run w1 key ptrs1 _ hd len oid l x0 x1 b t r C1 Hl (lookup_insert_eq _ _ _) Hlen Hr1 H1 Hrm)
    as (w2 & len2 & Hrun & C2 & S2 & Hl2). rewrite insert_insert_eq in C2.
  exists w1, w2, l, ptrs1, len2, x1, b. split_and!; try done. by etrans.
Qed.

(** *** Placing a new element *)

Section place.
Context (idof : sds → leid).

(** The insert of an element that has no place yet gives it one. *)
Definition with_place (oid content : sds) (id : leid) (x : rwfle) : rwfle :=
  match lf_oid x with
  | None => mkRwfle (lf_header x) (Some oid) (Some id) (lf_current x) (Some content) (lf_stamps x) (lf_attrs x) (lf_next x)
  | Some _ => x
  end.

Lemma place_maybe w key ptrs Ms hd len ch oid l x content prev r sid :
  lcont w key ptrs Ms hd len → ptrs !! oid = Some l → Ms !! oid = Some x →
  chained ptrs Ms hd ch → StronglySorted (below idof) ch → Forall (placed idof Ms) ch →
  (lf_oid x = None → lf_next x = None ∧ oid ∉ ch ∧ Forall (λ b, idof b ≠ idof oid) ch) →
  leid_ok (idof oid) → ¬ reserved prev → prev ≠ oid →
  (∀ y, Ms !! prev = Some y → lf_pos_id y = None ∨ (prev ∈ ch ∧ below idof prev oid)) →
  rargv (w_client w) = Some r → r_args r !! 4%nat = Some content → r_args r !! 9%nat = Some sid → sdsToLeid sid = Some (idof oid) →
  ∃ w' Ms' hd' ch',
    match lf_oid x with
    | None =>
        content ← rarg 4; sid ← rarg 9;
        id ← orfault OutOfBounds (sdsToLeid sid);
        store l (mkRwfle (lf_header x) (Some oid) (Some id) (lf_current x) (Some content)
                   (lf_stamps x) (lf_attrs x) (lf_next x));;
        lf_link key key prev l id
    | Some _ => mret ()
    end w = Done () w' ∧ lcont w' key ptrs Ms' hd' len ∧ same_setup rwfle w w' ∧
    relinked (oid :: ch) (<[oid := with_place oid content (idof oid) x]> Ms) Ms' ∧ chained ptrs Ms' hd' ch' ∧
    StronglySorted (below idof) ch' ∧ ch' ≡ₚ match lf_oid x with None => oid :: ch | Some _ => ch end.
Proof using Type.
  intros C Hl Hx Hch Hsort Hpl Hnew Hid Hres Hpo Hprev Hr H4 H9 Hsid. unfold with_place. destruct (lf_oid x) eqn:Ho.
  - exists w, Ms, hd, ch. rewrite insert_id by done. split_and!; try done. apply relinked_refl.
  - destruct (Hnew eq_refl) as (Hnx & He & Hne).
    mstep (rarg_spec w r 4 content Hr H4). mstep (rarg_spec w r 9 sid Hr H9). rewrite Hsid. erewrite bind_Done by done.
    rewrite lf_link_node. by eapply node_place_spec.
Qed.
End place.

(** The add of an element that has its place. *)
Lemma add_run w key ptrs Ms hd len oid l x t r f sf z sz c sc pr sp x2 b2 :
  lcont w key ptrs Ms hd len → ptrs !! oid = Some l → Ms !! oid = Some x → len_ok len →
  rargv (w_client w) = Some r →
  r_args r !! 5%nat = Some sf → r_args r !! 6%nat = Some sz → r_args r !! 7%nat = Some sc → r_args r !! 8%nat = Some sp →
  string2ll sf = Some f → string2ll sz = Some z → string2ll sc = Some c → string2ll sp = Some pr →
  rwfl_add x t f z c pr = (x2, b2) → (addCheck (lf_header x) t).2 = b2 →
  ∃ w' len',
    (x ← load l;
     let exist_tmp := EXISTS (lf_header x) in
     '(font, size, color, property) ←
       (if (addCheck (lf_header x) t).2 then rwfl_insert_args else mret (0, 0, 0, 0));
     let '(x', b) := rwfl_add x t font size color property in
     store l x';;
     if b then (if negb exist_tmp then incrLen key 1 else mret ());; dirty_inc else mret ()) w = Done () w' ∧
    lcont w' key ptrs (<[oid := x2]> Ms) hd len' ∧ same_setup rwfle w w' ∧
    default 0 len' = default 0 len + (if b2 && negb (exists_now x) then 1 else 0).
Proof using Type.
  intros C Hl Hx Hlen Hr H5 H6 H7 H8 Hf Hz Hc Hp Hadd Hb.
  destruct (lstore_spec w key ptrs Ms hd len oid l x2 C Hl) as (w1 & Hst & C1 & S1).
  destruct (count_run w1 key ptrs _ hd len oid l (exists_now x) b2 C1 Hl Hlen) as (w2 & len2 & Hcnt & C2 & S2 & Hl2).
  exists w2, len2. split_and!; [|done|by etrans|done].
  mstep (lload_spec w key ptrs Ms hd len oid l x C Hl Hx). cbv beta zeta. rewrite Hb. destruct b2.
  - assert (rwfl_insert_args w = Done (f, z, c, pr) w) as Hargs.
    { unfold rwfl_insert_args. mstep (rarg_spec w r 5 sf Hr H5). mstep (rarg_spec w r 6 sz Hr H6). mstep (rarg_spec w r 7 sc Hr H7).
      mstep (rarg_spec w r 8 sp Hr H8). by rewrite Hf, Hz, Hc, Hp. }
    mstep Hargs. cbv beta iota. rewrite Hadd. cbv beta iota. mstep Hst. exact Hcnt.
  - rewrite (bind_Done (mret (0, 0, 0, 0)) _ w _ w eq_refl). cbv beta iota.
    assert (rwfl_add x t 0 0 0 0 = (x2, false)) as ->.
    { unfold rwfl_add in *. destruct (addCheck (lf_header x) t) as [h b]. simpl in Hb. subst b. exact Hadd. }
    cbv beta iota. mstep Hst. exact Hcnt.
Qed.

(** *** The effect phases *)

Definition rwfl_effect (k : rwf_kind) : M cell () :=
  match k with
  | RwfAdd => rwflinsert_effect
  | RwfUpdate => rwflupdate_effect
  | RwfRem => rwflrem_effect
  end.

(** A list with the structs [Ms], the length [len] and the chain [ch]. *)
Definition list_rep w key Ms len ch : Prop := ∃ ptrs hd, lcont w key ptrs Ms hd len ∧ chained ptrs Ms hd ch.

(** What an operation does to the struct of its element, and to the length. *)
Record elem_step (op : list_op) (x0 x2 : rwfle) (len len' : option Z) : Prop := {
  es_ok : elem_ok x2;
  es_view : list_effect (lview x0) op = Some (lview x2);
  es_len : default 0 len' = default 0 len + b2z (exists_now x2) - b2z (exists_now x0)
}.

Section run.
Context (w : world cell) (key : sds) (Ms : gmap sds rwfle) (len : option Z) (ch : list sds) (oid : sds) (r : rargs).
Abbreviation x0 := (default (new_elem w) (Ms !! oid)).
Context (Hres : ¬ reserved oid) (Hok : elem_ok x0) (Hlen : len_ok len) (Hcnt : exists_now x0 = true → 1 ≤ default 0 len).
Context (Hr : rargv (w_client w) = Some r).

Lemma rem_run t st :
  list_rep w key Ms len ch → vsize (current (lf_header x0)) = vsize t → r_args r = ["rwflrem"; key; oid; st] → sdsToVC st = Some t →
  ∃ w' x2 len', rwflrem_effect w = Done () w' ∧ list_rep w' key (<[oid := x2]> Ms) len' ch ∧ same_client w w' ∧
    lid_of x2 = lid_of x0 ∧ elem_step (mkRwfOp RwfRem t LRem) x0 x2 len len'.
Proof.
  intros (ptrs & hd & C & Hch) Hs Hargs Ht.
  destruct (start_run w key ptrs Ms hd len oid t r C Hres Hok Hs Hlen Hr) as
    (w1 & w2 & l & ptrs2 & len2 & x1 & b1 & Hget & Hrun & Hl & S1 & Hrm & Hok1 & Hid1 & Hex & Hl2 & C2 & S2 & P2); [by rewrite Hargs|].
  assert (rargv (w_client w1) = Some r) as Hr1 by (exact (same_setup_rargv _ _ _ S1 ltac:(done))).
  exists w2, x1, len2. split_and!.
  - unfold rwflrem_effect. mstep (rarg_spec w r 1 key Hr ltac:(by rewrite Hargs)). mstep (rarg_spec w r 2 oid Hr ltac:(by rewrite Hargs)).
    mstep Hget. erewrite bind_Done by done. mstep (CR_GET_LAST_spec w1 r st t Hr1 ltac:(by rewrite Hargs) Ht). exact Hrun.
  - exists ptrs2, hd. split; [done|]. eapply chained_update; [exact P2| |exact Hch]. by injection Hid1.
  - by apply (same_setup_client (A := rwfle)).
  - done.
  - split; [done|by eapply remove_phases|]. rewrite Hl2, Hex. unfold b2z. destruct (exists_now x0), b1; cbn [andb negb]; lia.
Qed.

Lemma upd_run t st type lt sl v sv :
  list_rep w key Ms len ch → vsize (current (lf_header x0)) = vsize t →
  r_args r = ["rwflupdate"; key; oid; type; sv; sl; st] → sdsToVC st = Some t → sdsToLc sl = Some lt → lc_ok lt → string2ll sv = Some v →
  (∀ x1 b1, rwfl_remove x0 t = Some (x1, b1) → (updateCheck (lf_header x1) t).2 = true → exists_now x1 = true) →
  ∃ w' x2 len', rwflupdate_effect w = Done () w' ∧ list_rep w' key (<[oid := x2]> Ms) len' ch ∧ same_client w w' ∧
    lid_of x2 = lid_of x0 ∧ elem_step (mkRwfOp RwfUpdate t (LUpd type lt v)) x0 x2 len len'.
Proof.
  intros (ptrs & hd & C & Hch) Hs Hargs Ht Hlt Hlok Hv Hord.
  destruct (start_run w key ptrs Ms hd len oid t r C Hres Hok Hs Hlen Hr) as
    (w1 & w2 & l & ptrs2 & len2 & x1 & b1 & Hget & Hrun & Hl & S1 & Hrm & Hok1 & Hid1 & Hex & Hl2 & C2 & S2 & P2); [by rewrite Hargs|].
  destruct (update_phases x0 x1 b1 t type lt v Hok Hs Hlok Hrm Hok1) as (x2 & b2 & Hup & Hb2 & Hok2 & Hid2 & Hview & Hex2).
  destruct (lstore_spec w2 key ptrs2 _ hd len2 oid l x2 C2 Hl) as (w3 & Hst & C3 & S3). rewrite insert_insert_eq in C3.
  assert (rargv (w_client w3) = Some r) as Hr3 by (exact (same_setup_rargv _ _ _ S3 (same_setup_rargv _ _ _ S2 ltac:(done)))).
  assert (exists_now x2 = exists_now x1) as Hex12.
  { rewrite Hex2. destruct b2; [|by rewrite orb_false_r]. rewrite (Hord x1 b1 Hrm Hb2). done. }
  set (r' := mkRargs (<[3%nat := sdstolower type]> (r_args r)) (r_cap r)).
  set (w4 := set_client (set_rargv (Some r') (w_client w3)) w3).
  exists (if b2 then set_dirty (w_dirty w4 + 1) w4 else w3), x2, len2. split_and!.
  - unfold rwflupdate_effect. mstep (CR_GET_LAST_spec w r st t Hr ltac:(by rewrite Hargs) Ht).
    mstep (rarg_spec w r 1 key Hr ltac:(by rewrite Hargs)). mstep (rarg_spec w r 2 oid Hr ltac:(by rewrite Hargs)).
    mstep (rarg_spec w r 3 type Hr ltac:(by rewrite Hargs)). mstep (rarg_spec w r 4 sv Hr ltac:(by rewrite Hargs)).
    mstep (rarg_spec w r 5 sl Hr ltac:(by rewrite Hargs)). mstep Hget. erewrite bind_Done by done. rewrite Hlt. erewrite bind_Done by done.
    mstep Hrun. mstep (lload_spec w2 key ptrs2 _ hd len2 oid l x1 C2 Hl (lookup_insert_eq _ _ _)).
    destruct b2.
    + rewrite Hb2, Hv. erewrite (bind_Done _ _ w2 v w2) by done. cbv beta. rewrite Hup. cbv beta iota. mstep Hst.
      unfold rarg_set. erewrite bind_Done by (by rewrite Hr3). done.
    + rewrite Hb2. erewrite (bind_Done _ _ w2 0 w2) by done. cbv beta.
      assert (rwfl_update x1 t type lt (wrap32 0) = (x2, false)) as ->.
      { unfold rwfl_update in *. destruct (updateCheck (lf_header x1) t) as [h b]. simpl in Hb2. subst b. by injection Hup as <-. }
      mstep Hst. done.
  - assert (list_rep w3 key (<[oid := x2]> Ms) len2 ch) as Hrep.
    { exists ptrs2, hd. split; [done|]. eapply chained_update; [exact P2| |exact Hch]. assert (lid_of x2 = lid_of x0) as Hid by congruence. by injection Hid. }
    destruct b2; [|done]. destruct Hrep as (p & h & C' & Hch'). exists p, h. split; [|done]. destruct C'. by split.
  - assert (same_client w w3) as Hs3 by (apply (same_setup_client (A := rwfle)); by etrans). by destruct b2.
  - congruence.
  - split; [done|done|]. rewrite Hl2, Hex12, Hex. unfold b2z. destruct (exists_now x0), b1; cbn [andb negb]; lia.
Qed.

(** The identifiers of the elements are their places. *)
Lemma placed_update idof x1 : lid_of x1 = lid_of x0 → Forall (placed idof Ms) ch → Forall (placed idof (<[oid := x1]> Ms)) ch.
Proof.
  intros Hid Hpl. eapply Forall_impl; [exact Hpl|]. intros e [Hp Hk]. split; [|done].
  destruct (decide (e = oid)) as [->|Hne]; [|by rewrite lookup_insert_ne]. rewrite lookup_insert_eq. simpl.
  destruct (Ms !! oid) as [x|]; [|done]. simpl in *. injection Hid as _ -> _ _. done.
Qed.

Lemma ins_run idof t st i prev content sf sz sc sp sid :
  list_rep w key Ms len ch → vsize (current (lf_header x0)) = vsize t → 0 ≤ vid t →
  r_args r = ["rwflinsert"; key; prev; oid; content; sf; sz; sc; sp; sid; st] → sdsToVC st = Some t →
  string2ll sf = Some (in_font i) → string2ll sz = Some (in_size i) → string2ll sc = Some (in_color i) → string2ll sp = Some (in_property i) →
  sdsToLeid sid = Some (idof oid) → leid_ok (idof oid) → ¬ reserved prev → prev ≠ oid →
  StronglySorted (below idof) ch → Forall (placed idof Ms) ch →
  (lf_oid x0 = None → lf_next x0 = None ∧ oid ∉ ch ∧ Forall (λ b, idof b ≠ idof oid) ch) →
  (∀ y, Ms !! prev = Some y → lf_pos_id y = None ∨ (prev ∈ ch ∧ below idof prev oid)) →
  ∃ w' x2 Ms' len' ch', rwflinsert_effect w = Done () w' ∧ list_rep w' key Ms' len' ch' ∧ same_client w w' ∧
    Ms' !! oid = Some x2 ∧ (∀ e, e ≠ oid → (∃ nx, Ms' !! e = n_set_next nx <$> Ms !! e) ∧ (e ∉ ch → Ms' !! e = Ms !! e)) ∧
    StronglySorted (below idof) ch' ∧ ch' ≡ₚ match lf_oid x0 with None => oid :: ch | Some _ => ch end ∧
    (let y := with_place oid content (idof oid) x0 in (lf_oid x2, lf_pos_id x2, lf_content x2) = (lf_oid y, lf_pos_id y, lf_content y)) ∧
    elem_step (mkRwfOp RwfAdd t (LAdd i)) x0 x2 len len'.
Proof.
  intros (ptrs & hd & C & Hch) Hs Hvid Hargs Ht Hf Hz Hc Hp Hsid Hlid Hrp Hpo Hsort Hpl Hnew Hprev.
  destruct (start_run w key ptrs Ms hd len oid t r C Hres Hok Hs Hlen Hr) as
    (w1 & w2 & l & ptrs2 & len2 & x1 & b1 & Hget & Hrun & Hl & S1 & Hrm & Hok1 & Hid1 & Hex & Hl2 & C2 & S2 & P2); [by rewrite Hargs|].
  assert (rargv (w_client w2) = Some r) as Hr2 by (exact (same_setup_rargv _ _ _ S2 ltac:(done))).
  assert (chained ptrs2 (<[oid := x1]> Ms) hd ch) as Hch2 by (eapply chained_update; [exact P2| |exact Hch]; by injection Hid1).
  assert (lf_oid x1 = lf_oid x0 ∧ lf_next x1 = lf_next x0) as [Ho1 Hn1] by (by injection Hid1).
  destruct (place_maybe idof w2 key ptrs2 (<[oid := x1]> Ms) hd len2 ch oid l x1 content prev r sid) as
    (w3 & Ms3 & hd3 & ch3 & Hplace & C3 & S3 & R3 & Hch3 & Hsort3 & Hperm3); try done.
  { apply lookup_insert_eq. } { by apply placed_update. } { by rewrite Ho1, Hn1. } { by rewrite lookup_insert_ne. } { by rewrite Hargs. } { by rewrite Hargs. }
  destruct (relinked_elem _ _ _ oid _ R3 (lookup_insert_eq _ _ _)) as (y & Hy & Hvy & Hoky & Hidy).
  assert (lview y = lview x1 ∧ elem_ok y) as [Hvy1 Hoky1].
  { rewrite Hvy. split; [|apply Hoky]; unfold with_place; by destruct (lf_oid x1). }
  destruct (insert_phases x0 x1 b1 y t i Hok Hs Hvid Hrm Hoky1 Hvy1) as (x2 & b2 & Hadd & Hb2 & Hok2 & Hid2 & Hview & Hex2).
  assert (len_ok len2) as Hlen2 by (unfold len_ok in *; destruct (exists_now x0), b1; simpl in Hl2; lia || specialize (Hcnt eq_refl); lia).
  assert (rargv (w_client w3) = Some r) as Hr3 by (exact (same_setup_rargv _ _ _ S3 ltac:(done))).
  destruct (add_run w3 key ptrs2 Ms3 hd3 len2 oid l y t r (in_font i) sf (in_size i) sz (in_color i) sc (in_property i) sp x2 b2 C3 Hl Hy Hlen2 Hr3) as (w4 & len4 & Hrun4 & C4 & S4 & Hl4);
    [by rewrite ?Hargs..|].
  exists w4, x2, (<[oid := x2]> Ms3), len4, ch3. split_and!.
  - unfold rwflinsert_effect. mstep (CR_GET_LAST_spec w r st t Hr ltac:(by rewrite Hargs) Ht).
    mstep (rarg_spec w r 1 key Hr ltac:(by rewrite Hargs)). mstep (rarg_spec w r 2 prev Hr ltac:(by rewrite Hargs)).
    mstep (rarg_spec w r 3 oid Hr ltac:(by rewrite Hargs)). mstep Hget. erewrite bind_Done by done. mstep Hrun.
    assert (get_list_ht key true w2 = Done key w2) as Hht.
    { unfold get_list_ht. by mstep (get_list_ht_spec w2 key ptrs2 _ hd len2 oid l true C2 Hl). }
    mstep Hht. mstep (lload_spec w2 key ptrs2 _ hd len2 oid l x1 C2 Hl (lookup_insert_eq _ _ _)). mstep Hplace. exact Hrun4.
  - exists ptrs2, hd3. split; [done|]. eapply seg_same_next; [exact Hy| |done]. by injection Hid2.
  - apply (same_setup_client (A := rwfle)). etrans; [exact S2|]. by etrans.
  - apply lookup_insert_eq.
  - intros e He. rewrite lookup_insert_ne by done. destruct (R3 e) as [[nx Hnx] Hsame]. rewrite !lookup_insert_ne in Hnx by done. rewrite !lookup_insert_ne in Hsame by done.
    split; [by exists nx|]. intros Hec. apply Hsame. by rewrite not_elem_of_cons.
  - done.
  - by rewrite <- Ho1.
  - injection Hid2 as -> -> -> _. injection Hidy as -> -> ->. unfold with_place. rewrite Ho1. injection Hid1. intros. destruct (lf_oid x0) eqn:?; simpl; congruence.
  - split; [done|done|]. assert (exists_now y = exists_now x1) as Hey by (unfold exists_now; by injection Hvy1 as ->).
    rewrite Hl4, Hl2, Hex2, Hey, Hex. unfold b2z. destruct (exists_now x0), b1, b2; cbn [andb negb orb]; lia.
Qed.
End run.
End world.
