(* ===== verification/RwflistInv.v ===== *)
(** * Histories of a Remove-Win-framework list

    The conditions on the operations of a list under which its replicas keep
    an ordered chain and a correct length, and the invariant that ties the
    structs, the chain and the length to the operations processed. *)

From stdpp Require Import sorting.
From S2P Require Import Prelude.
From S2P Require Import Sds.
From S2P Require Import VectorClock.
From S2P Require Import LamportClock.
From S2P Require Import Skiplist.
From S2P Require Import Server.
From S2P Require Import Container.
From S2P Require Import Rwf.
From S2P Require Import ListBasics.
From S2P Require Import Leid.
From S2P Require Import ListChain.
From S2P Require Import Rwflist.
From S2P Require Import RwflistRep.

#[local] Open Scope Z_scope.
#[local] Open Scope crdt_scope.

Abbreviation list_item := (sds * list_op)%type.

Section history.
Context (n : Z) (idof : sds → leid) (textof : sds → sds).
Implicit Types (p q : list_item) (hist : list list_item).

(** ** Histories *)

(** An operation of a system of [n] servers in which [e] has the identifier
    [idof e] and the text [textof e]. *)
Definition list_op_ok p : Prop :=
  rwf_wf (_vc_new n 0) p.2 ∧ vc_wire_ok (op_t p.2) ∧ ¬ reserved p.1 ∧
  match op_kind p.2, op_arg p.2 with
  | RwfAdd, LAdd i =>
      ¬ reserved (in_prev i) ∧ in_prev i ≠ p.1 ∧ in_id i = idof p.1 ∧ in_content i = textof p.1 ∧
      leid_ok (in_id i) ∧ (1 ≤ length (in_id i) ≤ leid_buf_size)%nat ∧
      int64 (in_font i) ∧ int64 (in_size i) ∧ int64 (in_color i) ∧ int64 (in_property i)
  | RwfUpdate, LUpd _ lt v => lc_ok lt ∧ int64 v
  | RwfRem, LRem => True
  | _, _ => False
  end.

Definition is_add p : Prop := op_kind p.2 = RwfAdd.

(** Elements have identifiers of their own, and an insert names as its
    predecessor an element with a lower one. *)
Definition ids_ok hist : Prop :=
  Forall (λ p, Forall (λ q, is_add p → is_add q →
    (idof p.1 = idof q.1 → p.1 = q.1) ∧
    match op_arg p.2 with LAdd i => in_prev i = q.1 → leid_lt (idof q.1) (idof p.1) | _ => True end) hist) hist.

(** An update comes after an insert that it has seen: one of the element, with
    the same clock. *)
Definition updates_follow hist : Prop :=
  Forall (λ k, match hist !! k with
               | Some p => op_kind p.2 = RwfUpdate →
                   Exists (λ q, is_add q ∧ q.1 = p.1 ∧ vector (op_t q.2) = vector (op_t p.2)) (take k hist)
               | None => True
               end) (seq 0 (length hist)).

Definition list_ok hist : Prop :=
  Forall list_op_ok hist ∧ ids_ok hist ∧ updates_follow hist ∧ Z.of_nat (length hist) < INT_MAX.

#[global] Instance list_op_ok_dec p : Decision (list_op_ok p).
Proof. unfold list_op_ok, int64. destruct (op_kind p.2), (op_arg p.2); apply _. Defined.

#[global] Instance list_ok_dec hist : Decision (list_ok hist).
Proof.
  unfold list_ok, ids_ok, updates_follow, is_add. repeat apply and_dec; try apply _.
  - apply Forall_dec. intros p. apply Forall_dec. intros q. destruct (op_arg p.2); apply _.
  - apply Forall_dec. intros k. destruct (hist !! k); apply _.
Defined.

Lemma updates_follow_snoc hist p :
  updates_follow (hist ++ [p]) →
  updates_follow hist ∧
  (op_kind p.2 = RwfUpdate → Exists (λ q, is_add q ∧ q.1 = p.1 ∧ vector (op_t q.2) = vector (op_t p.2)) hist).
Proof using Type.
  unfold updates_follow. rewrite length_app, seq_app, Forall_app. simpl. rewrite Forall_singleton. intros [Hh Hp]. split.
  - rewrite Forall_forall in *. intros k Hk. specialize (Hh k Hk). apply elem_of_seq in Hk. by rewrite lookup_app_l, take_app_le in Hh by lia.
  - rewrite list_lookup_middle, take_app_length in Hp by lia. done.
Qed.

Lemma list_ok_snoc hist p :
  list_ok (hist ++ [p]) →
  list_ok hist ∧ list_op_ok p ∧
  (op_kind p.2 = RwfUpdate → Exists (λ q, is_add q ∧ q.1 = p.1 ∧ vector (op_t q.2) = vector (op_t p.2)) hist) ∧
  (∀ q, is_add p → q ∈ hist → is_add q → (idof q.1 = idof p.1 → q.1 = p.1) ∧
    match op_arg p.2 with LAdd i => in_prev i = q.1 → leid_lt (idof q.1) (idof p.1) | _ => True end).
Proof using Type.
  intros (Hops & Hids & Hupd & Hlen). apply Forall_app in Hops as [Hops Hp%Forall_inv].
  apply updates_follow_snoc in Hupd as [Hupd Hpu]. rewrite length_app in Hlen. simpl in Hlen.
  unfold ids_ok in Hids. apply Forall_app in Hids as [Hids Hip%Forall_inv].
  apply Forall_app in Hip as [Hip _]. split_and!; [split_and!; [done| |done|lia]|done|done|].
  - eapply Forall_impl; [exact Hids|]. intros q Hq. apply Forall_app in Hq. apply Hq.
  - intros q Ha Hq Hqa. pose proof (proj1 (Forall_forall _ _) Hip q Hq) as H. destruct (H Ha Hqa) as [H1 H2].
    split; [|done]. intros He. symmetry. by apply H1.
Qed.

(** ** What a history says of an element *)

Context (c : vc) (Hc : vector c = vector (_vc_new n 0)).

Abbreviation state_of hist e := (rwf_state no_values on_insert on_update c (ops_of e hist)).

Definition inserted (l : list list_op) : Prop := Exists (λ op, op_kind op = RwfAdd) l.

Lemma wf_owner (op : list_op) : rwf_wf (_vc_new n 0) op → rwf_wf c op.
Proof. unfold rwf_wf, rwf_ok, vle, vsize. by rewrite Hc. Qed.

Lemma ops_wf hist e : list_ok hist → Forall (rwf_wf c) (ops_of e hist).
Proof.
  intros [Hops _]. apply ops_of_Forall. eapply Forall_impl; [exact Hops|]. intros p [Hp _]. by apply wf_owner.
Qed.

Lemma inserted_hist hist e : inserted (ops_of e hist) ↔ ∃ q, q ∈ hist ∧ is_add q ∧ q.1 = e.
Proof using Type.
  unfold inserted, is_add. rewrite Exists_exists. setoid_rewrite elem_of_ops_of. split.
  - intros (op & Hin & Hk). by exists (e, op).
  - intros ([e' op] & Hin & Hk & <-). by exists op.
Qed.

(** An element with an update in force has an insert in force. *)
Lemma in_force_add hist e op :
  list_ok hist → in_force (ops_of e hist) op → op_kind op ≠ RwfRem → ∃ a, in_force (ops_of e hist) a ∧ op_kind a = RwfAdd.
Proof using Type.
  intros (_ & _ & Hupd & _) [Hin Hall] Hk. destruct (op_kind op) eqn:Hkind; [by exists op| |done].
  apply elem_of_ops_of in Hin as Hh. apply list_elem_of_lookup in Hh as [k Hlk].
  pose proof (proj1 (Forall_forall _ _) Hupd k) as H. cbv beta in H. rewrite Hlk in H.
  specialize (H ltac:(apply elem_of_seq; apply lookup_lt_Some in Hlk; lia) Hkind).
  apply Exists_exists in H as ([e' a] & Ha & Hka & He & Hv). cbn [fst snd] in *. subst e'. exists a. split; [|done]. split.
  - apply elem_of_ops_of. apply elem_of_take in Ha as (j & Hj & _). by eapply list_elem_of_lookup_2.
  - intros op' Hop'. unfold vle. rewrite Hv. by apply Hall.
Qed.

Lemma exists_in_force hist e :
  list_ok hist → EXISTS (state_of hist e).1 = true ↔ ∃ op, in_force (ops_of e hist) op ∧ op_kind op = RwfAdd.
Proof.
  intros Hh. rewrite rwf_state_exists by (by apply ops_wf). split.
  - intros (op & Hf & Hk). by eapply in_force_add.
  - intros (op & Hf & Hk). exists op. by rewrite Hk.
Qed.

Lemma exists_inserted hist e : list_ok hist → EXISTS (state_of hist e).1 = true → inserted (ops_of e hist).
Proof.
  intros Hh (op & [Hin _] & Hk)%exists_in_force; [|done]. apply Exists_exists. by exists op.
Qed.

(** An update that passes its check finds the element existing. *)
Lemma update_exists hist e t h b :
  list_ok hist → Exists (λ q, is_add q ∧ q.1 = e ∧ vector (op_t q.2) = vector t) hist → vsize t = vsize c →
  removeCheck (state_of hist e).1 t = Some (h, b) → (updateCheck h t).2 = true → EXISTS h = true.
Proof.
  intros Hh ([e' a] & Ha & Hk & He & Hv)%Exists_exists Hs Hrm Hup. cbn [fst snd] in *. subst e'.
  pose proof (ops_wf hist e Hh) as Hwf. pose proof (rwf_wf_ok _ _ Hwf) as Hok.
  apply elem_of_ops_of in Ha. pose proof (rwf_join_upper c _ a Hok Ha) as Hle.
  rewrite removeCheck_spec in Hrm by (unfold rwf_state; simpl; by rewrite vsize_rwf_join).
  rewrite decide_True in Hrm by (unfold vle in *; by rewrite <- Hv). injection Hrm as <- _.
  apply exists_in_force; [done|]. exists a. split; [|done]. apply (elem_of_live c); [done|].
  unfold rwf_live. apply list_elem_of_filter. split; [|done]. rewrite Hv. unfold updateCheck in Hup.
  destruct (vc_equal t _) eqn:Heq; [|done]. by apply vc_equal_spec in Heq.
Qed.

(** ** The invariant *)

Context (id : Z).
Abbreviation struct_of Ms e := (default (rwfleNew c id) (Ms !! e)).

(** The name, identifier and text of an element. *)
Definition ident (x : rwfle) : option sds * option leid * option sds := (lf_oid x, lf_pos_id x, lf_content x).

Definition placed_as (l : list list_op) (e : sds) (x : rwfle) : Prop :=
  if decide (inserted l) then ident x = (Some e, Some (idof e), Some (textof e))
  else ident x = (None, None, None) ∧ lf_next x = None.

Definition shown (Ms : gmap sds rwfle) (ch : list sds) : list sds :=
  filter (λ e, exists_now (struct_of Ms e) = true) ch.

(** A list that has processed [hist]: each struct stands for the operations
    on its element, the inserted elements are chained in the order of their
    identifiers, and the length counts those that exist. *)
Record list_inv hist (Ms : gmap sds rwfle) (len : option Z) (ch : list sds) : Prop := {
  li_view e : lview (struct_of Ms e) = state_of hist e;
  li_ok e : elem_ok (struct_of Ms e);
  li_dom e : Ms !! e = None ↔ ops_of e hist = [];
  li_place e : placed_as (ops_of e hist) e (struct_of Ms e);
  li_sorted : StronglySorted (below idof) ch;
  li_members e : e ∈ ch ↔ inserted (ops_of e hist);
  li_len : default 0 len = Z.of_nat (length (shown Ms ch))
}.

Lemma list_inv_init : list_inv [] ∅ None [].
Proof using Type.
  assert (∀ e, struct_of (∅ : gmap sds rwfle) e = rwfleNew c id) as Hnew by (intros; by rewrite lookup_empty).
  split; try done.
  - intros e. rewrite Hnew. apply elem_ok_new.
  - constructor.
  - intros e. unfold inserted. rewrite Exists_nil, elem_of_nil. done.
Qed.

(** What happens to the structs of the other elements. *)
Lemma other_elem (Ms Ms' : gmap sds rwfle) e :
  (∃ nx, Ms' !! e = n_set_next nx <$> Ms !! e) →
  lview (struct_of Ms' e) = lview (struct_of Ms e) ∧ ident (struct_of Ms' e) = ident (struct_of Ms e) ∧
  (elem_ok (struct_of Ms e) → elem_ok (struct_of Ms' e)) ∧ (Ms' !! e = None ↔ Ms !! e = None).
Proof using Type. intros [nx Hn]. rewrite Hn. by destruct (Ms !! e) as [x|]. Qed.

Lemma exists_view (x y : rwfle) : lview x = lview y → exists_now x = exists_now y.
Proof using Type. unfold exists_now. by intros [= ->]. Qed.

Lemma inserted_snoc hist p e :
  inserted (ops_of e (hist ++ [p])) ↔ inserted (ops_of e hist) ∨ (is_add p ∧ p.1 = e).
Proof using Type.
  clear idof textof. unfold inserted, is_add. rewrite ops_of_snoc, Exists_app. destruct (decide (p.1 = e)).
  - rewrite Exists_cons, Exists_nil. tauto.
  - rewrite Exists_nil. tauto.
Qed.
(** ** Preservation *)

(** The outcome of an operation on the element [p.1], from the structs [Ms],
    the length [len] and the chain [ch]. *)
Record outcome hist p (Ms : gmap sds rwfle) len ch (Ms' : gmap sds rwfle) len' ch' : Prop := {
  oc_struct : is_Some (Ms' !! p.1);
  oc_other e : e ≠ p.1 → (∃ nx, Ms' !! e = n_set_next nx <$> Ms !! e) ∧ (e ∉ ch → Ms' !! e = Ms !! e);
  oc_sorted : StronglySorted (below idof) ch';
  oc_chain : ch' ≡ₚ if decide (is_add p ∧ ¬ inserted (ops_of p.1 hist)) then p.1 :: ch else ch;
  oc_place : placed_as (ops_of p.1 (hist ++ [p])) p.1 (struct_of Ms' p.1);
  oc_step : elem_step p.2 (struct_of Ms p.1) (struct_of Ms' p.1) len len'
}.

(** An operation that only changes the struct of an element. *)
Lemma outcome_update hist p Ms len ch x2 len' :
  list_inv hist Ms len ch → ¬ is_add p → lid_of x2 = lid_of (struct_of Ms p.1) → elem_step p.2 (struct_of Ms p.1) x2 len len' →
  outcome hist p Ms len ch (<[p.1 := x2]> Ms) len' ch.
Proof.
  intros Hinv Ha Hid Hst. split.
  - rewrite lookup_insert_eq. by eexists.
  - intros e He. rewrite lookup_insert_ne by done. split; [|done]. destruct (relinked_refl [] Ms e) as [? _]. done.
  - exact (li_sorted _ _ _ _ Hinv).
  - by rewrite decide_False by naive_solver.
  - pose proof (li_place _ _ _ _ Hinv p.1) as Hpl. unfold placed_as in *.
    assert (struct_of (<[p.1 := x2]> Ms) p.1 = x2) as -> by (by rewrite lookup_insert_eq).
    assert (inserted (ops_of p.1 (hist ++ [p])) ↔ inserted (ops_of p.1 hist)) as Hi by (rewrite inserted_snoc; naive_solver).
    rewrite (decide_ext _ _ _ _ Hi). unfold ident in *. injection Hid as -> -> -> ->. done.
  - by rewrite lookup_insert_eq.
Qed.

(** What the invariant says before an operation. *)
Section before.
Context hist p Ms len ch (Hinv : list_inv hist Ms len ch) (Hh : list_ok (hist ++ [p])).
Abbreviation x0 := (struct_of Ms p.1).

Lemma before_length : (length ch ≤ length hist)%nat.
Proof.
  rewrite <- (length_fmap fst hist). apply submseteq_length, NoDup_submseteq; [eapply sorted_nodup, (li_sorted _ _ _ _ Hinv)|].
  intros e (q & Hq & _ & <-)%(li_members _ _ _ _ Hinv)%inserted_hist. apply list_elem_of_fmap. by exists q.
Qed.

Lemma before_len : len_ok len.
Proof.
  unfold len_ok. rewrite (li_len _ _ _ _ Hinv). destruct (list_ok_snoc _ _ Hh) as ((_ & _ & _ & Hlen) & _).
  pose proof before_length. unfold shown. pose proof (length_filter (λ e, exists_now (struct_of Ms e) = true) ch). lia.
Qed.

Lemma before_count : exists_now x0 = true → 1 ≤ default 0 len.
Proof.
  intros He. rewrite (li_len _ _ _ _ Hinv). destruct (list_ok_snoc _ _ Hh) as (Hh' & _).
  assert (p.1 ∈ shown Ms ch) as Hin.
  { apply list_elem_of_filter. split; [done|]. apply (li_members _ _ _ _ Hinv), exists_inserted; [done|]. by rewrite <- (li_view _ _ _ _ Hinv). }
  destruct (shown Ms ch); [by apply elem_of_nil in Hin|]. simpl. lia.
Qed.

Lemma before_header : lf_header x0 = (state_of hist p.1).1.
Proof. by rewrite <- (li_view _ _ _ _ Hinv). Qed.

Lemma before_size : vsize (current (lf_header x0)) = vsize (op_t p.2).
Proof.
  rewrite before_header. unfold rwf_state. simpl. rewrite vsize_rwf_join.
  destruct (list_ok_snoc _ _ Hh) as (_ & [[[Hs _] _]%wf_owner _] & _). done.
Qed.

Lemma before_update x1 b1 :
  op_kind p.2 = RwfUpdate → rwfl_remove x0 (op_t p.2) = Some (x1, b1) → (updateCheck (lf_header x1) (op_t p.2)).2 = true → exists_now x1 = true.
Proof.
  intros Hk Hrm Hup. destruct (list_ok_snoc _ _ Hh) as (Hh' & _ & Hex & _). unfold exists_now.
  destruct (remove_phase x0 (op_t p.2) (li_ok _ _ _ _ Hinv p.1) before_size) as (h & b & x1' & Hrc & Hrm' & _ & _ & Hv & _).
  rewrite Hrm in Hrm'. injection Hrm' as <- <-. assert (lf_header x1 = h) as Hh1 by (by injection Hv). rewrite Hh1 in *.
  rewrite before_header in Hrc. eapply update_exists; [done| | |exact Hrc|done].
  - by apply Hex.
  - rewrite <- before_size, before_header. unfold rwf_state. simpl. by rewrite vsize_rwf_join.
Qed.

Lemma before_prev i y :
  is_add p → op_arg p.2 = LAdd i → Ms !! in_prev i = Some y → lf_pos_id y = None ∨ (in_prev i ∈ ch ∧ below idof (in_prev i) p.1).
Proof.
  intros Ha Hi Hy. destruct (list_ok_snoc _ _ Hh) as (_ & _ & _ & Hids). pose proof (li_place _ _ _ _ Hinv (in_prev i)) as Hpl.
  rewrite Hy in Hpl. unfold placed_as in Hpl. destruct (decide (inserted (ops_of (in_prev i) hist))) as [Hins|Hins].
  - right. split; [by apply (li_members _ _ _ _ Hinv)|]. apply inserted_hist in Hins as (q & Hq & Hqa & Hqe).
    destruct (Hids q Ha Hq Hqa) as [_ Hlt]. rewrite Hi, Hqe in Hlt. by apply Hlt.
  - left. destruct Hpl as [Hpl _]. by injection Hpl.
Qed.

Lemma before_new : is_add p → lf_oid x0 = None → lf_next x0 = None ∧ p.1 ∉ ch ∧ Forall (λ b, idof b ≠ idof p.1) ch.
Proof.
  intros Ha Ho. pose proof (li_place _ _ _ _ Hinv p.1) as Hpl. unfold placed_as in Hpl.
  destruct (decide (inserted (ops_of p.1 hist))) as [Hins|Hins]; [injection Hpl; congruence|]. destruct Hpl as [_ Hnx].
  rewrite (li_members _ _ _ _ Hinv). split_and!; [done..|]. apply Forall_forall. intros b (q & Hq & Hqa & Hqe)%(li_members _ _ _ _ Hinv)%inserted_hist Hbe.
  destruct (list_ok_snoc _ _ Hh) as (_ & _ & _ & Hids). destruct (Hids q Ha Hq Hqa) as [Heq _]. apply Hins, inserted_hist. exists q.
  split_and!; [done..|]. apply Heq. by rewrite Hqe.
Qed.

Lemma before_placed : Forall (placed idof Ms) ch.
Proof.
  apply Forall_forall. intros e He. apply (li_members _ _ _ _ Hinv) in He. pose proof (li_place _ _ _ _ Hinv e) as Hpl.
  unfold placed_as in Hpl. rewrite decide_True in Hpl by done. apply inserted_hist in He as (q & Hq & Hqa & <-). split.
  - destruct (Ms !! q.1) as [x|]; simpl in *; [by injection Hpl|done].
  - destruct (list_ok_snoc _ _ Hh) as ((Hops & _) & _). pose proof (proj1 (Forall_forall _ _) Hops q Hq) as (_ & _ & _ & Hok).
    unfold is_add in Hqa. rewrite Hqa in Hok. destruct (op_arg q.2); [|done..]. destruct Hok as (_ & _ & <- & _ & ? & _). done.
Qed.

(** The insert of an element. *)
Lemma outcome_insert x2 Ms' len' ch' :
  is_add p → Ms' !! p.1 = Some x2 →
  (∀ e, e ≠ p.1 → (∃ nx, Ms' !! e = n_set_next nx <$> Ms !! e) ∧ (e ∉ ch → Ms' !! e = Ms !! e)) →
  StronglySorted (below idof) ch' → ch' ≡ₚ match lf_oid x0 with None => p.1 :: ch | Some _ => ch end →
  ident x2 = ident (with_place p.1 (textof p.1) (idof p.1) x0) → elem_step p.2 x0 x2 len len' →
  outcome hist p Ms len ch Ms' len' ch'.
Proof.
  intros Ha Hx2 Hother Hsort Hperm Hid Hst. pose proof (li_place _ _ _ _ Hinv p.1) as Hpl. unfold placed_as in Hpl.
  assert (inserted (ops_of p.1 (hist ++ [p]))) as Hins by (apply inserted_snoc; by right).
  split; [by eexists|done|done| | |by rewrite Hx2].
  - rewrite Hperm. destruct (decide (inserted (ops_of p.1 hist))) as [Hi|Hi].
    + injection Hpl as -> _ _. by rewrite decide_False by (by intros []).
    + destruct Hpl as [Hpl _]. injection Hpl as -> _ _. by rewrite decide_True.
  - unfold placed_as. rewrite Hx2, decide_True by done. simpl. rewrite Hid. unfold with_place.
    destruct (decide (inserted (ops_of p.1 hist))) as [Hi|Hi].
    + assert (lf_oid x0 = Some p.1) as -> by (by injection Hpl). done.
    + destruct Hpl as [Hpl _]. assert (lf_oid x0 = None) as -> by (by injection Hpl). done.
Qed.
End before.

Section step.
Context hist p Ms len ch Ms' len' ch' (Hinv : list_inv hist Ms len ch) (Hh : list_ok (hist ++ [p]))
  (Hoc : outcome hist p Ms len ch Ms' len' ch').

Lemma step_view e : lview (struct_of Ms' e) = state_of (hist ++ [p]) e.
Proof.
  rewrite ops_of_snoc. destruct (decide (p.1 = e)) as [<-|Hne].
  - pose proof (es_view _ _ _ _ _ (oc_step _ _ _ _ _ _ _ _ Hoc)) as Hv. rewrite (li_view _ _ _ _ Hinv) in Hv.
    apply list_ok_snoc in Hh as (Hh' & [Hp _] & _). rewrite rwf_effect_state in Hv; [by apply (inj Some) in Hv|by apply rwf_wf_ok, ops_wf|].
    by apply wf_owner in Hp as [? _].
  - rewrite app_nil_r, <- (li_view _ _ _ _ Hinv). by apply other_elem, (oc_other _ _ _ _ _ _ _ _ Hoc).
Qed.

Lemma step_members e : e ∈ ch' ↔ inserted (ops_of e (hist ++ [p])).
Proof.
  rewrite (oc_chain _ _ _ _ _ _ _ _ Hoc), inserted_snoc. destruct (decide (is_add p ∧ ¬ inserted (ops_of p.1 hist))) as [[Ha _]|Hn].
  - rewrite elem_of_cons, (li_members _ _ _ _ Hinv). naive_solver.
  - rewrite (li_members _ _ _ _ Hinv). split; [by left|]. intros [?|[Ha <-]]; [done|].
    destruct (decide (inserted (ops_of p.1 hist))); [done|by destruct Hn].
Qed.

Lemma step_len : default 0 len' = Z.of_nat (length (shown Ms' ch')).
Proof.
  pose proof (list_ok_snoc _ _ Hh) as (Hh' & _). set (x0 := struct_of Ms p.1). set (x2 := struct_of Ms' p.1).
  assert (exists_now x0 = true → p.1 ∈ ch) as H0.
  { intros He. apply (li_members _ _ _ _ Hinv), exists_inserted; [done|]. by rewrite <- (li_view _ _ _ _ Hinv). }
  assert (exists_now x2 = true → p.1 ∈ ch') as H2.
  { intros He. apply step_members, exists_inserted; [done|]. by rewrite <- step_view. }
  rewrite (es_len _ _ _ _ _ (oc_step _ _ _ _ _ _ _ _ Hoc)), (li_len _ _ _ _ Hinv). fold x0 x2. unfold shown.
  symmetry. apply (count_step (λ e, exists_now (struct_of Ms e)) (λ e, exists_now (struct_of Ms' e)) p.1 ch ch'
    (bool_decide (is_add p ∧ ¬ inserted (ops_of p.1 hist)))); [eapply sorted_nodup, (li_sorted _ _ _ _ Hinv)| |done|done| |].
  - intros a Ha. apply exists_view. by apply other_elem, (oc_other _ _ _ _ _ _ _ _ Hoc).
  - rewrite (oc_chain _ _ _ _ _ _ _ _ Hoc). by rewrite decide_bool_decide.
  - intros [_ Hni]%bool_decide_eq_true. by rewrite (li_members _ _ _ _ Hinv).
Qed.

Lemma step_inv : list_inv (hist ++ [p]) Ms' len' ch'.
Proof.
  pose proof (oc_other _ _ _ _ _ _ _ _ Hoc) as Hother.
  split; [exact step_view| | | |exact (oc_sorted _ _ _ _ _ _ _ _ Hoc)|exact step_members|exact step_len]; intros e.
  - destruct (decide (e = p.1)) as [->|Hne]; [exact (es_ok _ _ _ _ _ (oc_step _ _ _ _ _ _ _ _ Hoc))|].
    apply (other_elem Ms); [by apply Hother|apply (li_ok _ _ _ _ Hinv)].
  - rewrite ops_of_snoc. destruct (decide (p.1 = e)) as [<-|Hne].
    + destruct (oc_struct _ _ _ _ _ _ _ _ Hoc) as [x ->]. split; [done|]. by intros [_ ?]%app_nil.
    + rewrite app_nil_r, <- (li_dom _ _ _ _ Hinv). by apply other_elem, Hother.
  - destruct (decide (p.1 = e)) as [<-|Hne]; [exact (oc_place _ _ _ _ _ _ _ _ Hoc)|].
    pose proof (li_place _ _ _ _ Hinv e) as Hpl. destruct (Hother e) as [Hre Hout]; [done|]. destruct (other_elem Ms Ms' e Hre) as (_ & Hid & _).
    rewrite ops_of_snoc, decide_False, app_nil_r by done. unfold placed_as in *. destruct (decide (inserted (ops_of e hist))) as [Hi|Hi]; [congruence|].
    by rewrite Hout by (by rewrite (li_members _ _ _ _ Hinv)).
Qed.
End step.
End history.

(** ** The value of a property *)

(** The stamp and value an update gives the property [p], and the value an
    insert gives it. *)
Definition upd_of (p : list_prop) (op : list_op) : option (lc * Z) :=
  match op_kind op, op_arg op with
  | RwfUpdate, LUpd type lt v => if decide (prop_of (sdstolower type) = Some p) then Some (lt, norm p (wrap32 v)) else None
  | _, _ => None
  end.

Definition ins_of (p : list_prop) (op : list_op) : option Z :=
  match op_kind op, op_arg op with RwfAdd, LAdd i => Some (ins_val p i) | _, _ => None end.

(** Among the operations in force on an element, the last update of the
    property wins; without one, the insert of the server with the greatest
    id. *)
Definition last_upd p (l : list list_op) (lt : lc) (v : Z) : Prop :=
  ∃ op, op ∈ l ∧ upd_of p op = Some (lt, v) ∧ ∀ op' lt' v', op' ∈ l → upd_of p op' = Some (lt', v') → lc_leb lt' lt = true.

Definition top_add (l : list list_op) (op : list_op) : Prop :=
  op ∈ l ∧ op_kind op = RwfAdd ∧ ∀ op', op' ∈ l → op_kind op' = RwfAdd → vid (op_t op') ≤ vid (op_t op).

Definition prop_value p (l : list list_op) (v : Z) : Prop :=
  (∃ lt, last_upd p (force l) lt v) ∨
  ((∀ op, op ∈ force l → upd_of p op = None) ∧ ∃ op, top_add (force l) op ∧ ins_of p op = Some v).

Definition arg_fits (op : list_op) : Prop := op_kind op = RwfAdd → ∃ i, op_arg op = LAdd i.

Lemma lc_leb_refl t : lc_leb t t = true.
Proof. by destruct (lc_leb_total t t). Qed.

Lemma get_on_update p op q :
  op_kind op = RwfUpdate →
  get_stamp p (on_update (op_arg op) q) =
    match upd_of p op with
    | Some (lt, v) => if match (get_stamp p q).1 with None => true | Some s => lc_leb s lt end then (Some lt, Some v) else get_stamp p q
    | None => get_stamp p q
    end.
Proof.
  intros Hk. unfold upd_of, on_update. rewrite Hk. destruct (op_arg op) as [|type lt v|]; [done| |done].
  destruct (prop_of (sdstolower type)) as [k|] eqn:Hp; [|by rewrite decide_False].
  destruct (decide (p = k)) as [->|Hne].
  - rewrite decide_True by done. destruct (match (get_stamp k q).1 with None => true | Some s => lc_leb s lt end); [|done].
    by rewrite get_set_stamp, decide_True.
  - rewrite decide_False by congruence. destruct (match (get_stamp k q).1 with None => true | Some s => lc_leb s lt end); [|done].
    by rewrite get_set_stamp, decide_False.
Qed.

Lemma last_upd_keep p l op lt v :
  (∀ lt' v', upd_of p op = Some (lt', v') → lc_leb lt' lt = true) → last_upd p l lt v → last_upd p (l ++ [op]) lt v.
Proof.
  intros Hop (a & Ha & Hu & Hmax). exists a. rewrite elem_of_snoc. split_and!; [by left|done|].
  intros op' lt' v' [Hin| ->]%elem_of_snoc; [by apply Hmax|apply Hop].
Qed.

Lemma last_upd_new p l op lt v :
  upd_of p op = Some (lt, v) → (∀ op' lt' v', op' ∈ l → upd_of p op' = Some (lt', v') → lc_leb lt' lt = true) →
  last_upd p (l ++ [op]) lt v.
Proof.
  intros Hu Hmax. exists op. rewrite elem_of_snoc. split_and!; [by right|done|].
  intros op' lt' v' [Hin| ->]%elem_of_snoc; [by apply Hmax|]. rewrite Hu. intros [= <- <-]. apply lc_leb_refl.
Qed.

(** What a register says of the live operations. *)
Definition stamp_inv (p : list_prop) (l : list list_op) (x : option lc * option Z) : Prop :=
  match x with
  | (None, _) => ∀ op, op ∈ l → upd_of p op = None
  | (Some lt, v) => ∃ z, v = Some z ∧ last_upd p l lt z
  end.

Lemma stamp_inv_keep p l op x y :
  upd_of p op = None → stamp_inv p l x → (y = x ∨ (x.1 = None ∧ y.1 = None)) → stamp_inv p (l ++ [op]) y.
Proof.
  intros Hn Hx Hy. destruct x as [[lt|] v]; simpl in Hx.
  - destruct Hy as [->|[? _]]; [|done]. destruct Hx as (z & -> & Hz). exists z. split; [done|]. apply last_upd_keep; [congruence|done].
  - assert (y.1 = None) as Hy1 by (by destruct Hy as [->|[_ ?]]). destruct y as [[]]; [done|]. intros op' [Hin| ->]%elem_of_snoc; [by apply Hx|done].
Qed.

Lemma stamp_inv_upd p l op lt v x :
  upd_of p op = Some (lt, v) → stamp_inv p l x →
  stamp_inv p (l ++ [op]) (if match x.1 with None => true | Some s => lc_leb s lt end then (Some lt, Some v) else x).
Proof.
  intros Hu Hx. destruct x as [[t|] v0]; simpl in *.
  - destruct Hx as (z & -> & Hz). destruct (lc_leb t lt) eqn:Hle.
    + exists v. split; [done|]. apply last_upd_new; [done|]. destruct Hz as (a & _ & _ & Hmax). intros op' lt' v' Hin Hu'.
      eapply lc_leb_trans; [by eapply Hmax|done].
    + exists z. split; [done|]. apply last_upd_keep; [|done]. rewrite Hu. intros lt' v' [= <- <-]. destruct (lc_leb_total t lt); congruence.
  - exists v. split; [done|]. apply last_upd_new; [done|]. intros op' lt' v' Hin Hu'. by rewrite (Hx op' Hin) in Hu'.
Qed.

Abbreviation run_steps := (foldl (rwf_step on_insert on_update) (PID_NEXIST, no_values)).

Lemma stamp_steps p l : stamp_inv p l (get_stamp p (run_steps l).2).
Proof.
  induction l as [|op l IH] using rev_ind.
  { simpl. unfold no_values. rewrite get_mk_props. by intros ? ?%elem_of_nil. }
  rewrite foldl_app. simpl. set (s := run_steps l) in *. clearbody s.
  assert (op_kind op ≠ RwfUpdate → upd_of p op = None) as Hno by (unfold upd_of; by destruct (op_kind op)).
  unfold rwf_step. destruct (op_kind op) eqn:Hk; [|cbn [snd]; rewrite get_on_update by done|].
  - destruct (s.1 <? vid (op_t op)); [|by eapply stamp_inv_keep; [apply Hno| |left]].
    eapply stamp_inv_keep; [by apply Hno|done|]. unfold on_insert. cbn [snd].
    rewrite get_mk_props. destruct (get_stamp p s.2) as [[lt|] v]; [by left|by right].
  - destruct (upd_of p op) as [[lt v]|] eqn:Hu; [by apply stamp_inv_upd|]. eapply stamp_inv_keep; [done|done|by left].
  - eapply stamp_inv_keep; [by apply Hno|done|by left].
Qed.

(** The value of an unstamped register is that of the insert with the greatest
    server id. *)
Definition add_inv (p : list_prop) (l : list list_op) (s : Z * registers) : Prop :=
  (s.1 < 0 ∧ ∀ op, op ∈ l → op_kind op ≠ RwfAdd) ∨
  ∃ op, top_add l op ∧ s.1 = vid (op_t op) ∧ ((get_stamp p s.2).1 = None → (get_stamp p s.2).2 = ins_of p op).

Lemma top_add_keep l a op : (op_kind op = RwfAdd → vid (op_t op) ≤ vid (op_t a)) → top_add l a → top_add (l ++ [op]) a.
Proof.
  intros Hop (Ha & Hk & Hmax). unfold top_add. rewrite elem_of_snoc. split_and!; [by left|done|].
  intros op' [Hin| ->]%elem_of_snoc; [by apply Hmax|done].
Qed.

Lemma add_inv_keep p l op s s' :
  op_kind op ≠ RwfAdd → Forall (λ op, 0 ≤ vid (op_t op)) l → (0 ≤ s.1 → s'.1 = s.1) → (s.1 < 0 → s'.1 < 0) →
  ((get_stamp p s'.2).1 = None → get_stamp p s'.2 = get_stamp p s.2) → add_inv p l s → add_inv p (l ++ [op]) s'.
Proof.
  intros Hk Hl Hge Hlt Hst [[H1 H2]|(a & Ha & H1 & H2)].
  - left. split; [by apply Hlt|]. intros op' [Hin| ->]%elem_of_snoc; [by apply H2|done].
  - right. exists a. split_and!; [by apply top_add_keep| |intros Hn; rewrite Hst by done; apply H2; by rewrite <- Hst].
    rewrite <- H1. apply Hge. rewrite H1. destruct Ha as (Hin & _). exact (proj1 (Forall_forall _ _) Hl a Hin).
Qed.

Lemma add_inv_add p l op s :
  op_kind op = RwfAdd → arg_fits op → 0 ≤ vid (op_t op) → add_inv p l s → add_inv p (l ++ [op]) (rwf_step on_insert on_update s op).
Proof.
  intros Hk Hfit Hid Hs. unfold rwf_step. rewrite Hk. destruct (Z.ltb_spec s.1 (vid (op_t op))) as [Hlt|Hge].
  - right. exists op. split_and!; [|done|].
    + unfold top_add. rewrite elem_of_snoc. split_and!; [by right|done|]. intros op' [Hin| ->]%elem_of_snoc Hk'; [|lia].
      destruct Hs as [[_ Hno]|(a & (_ & _ & Hmax) & Ha & _)]; [by destruct (Hno op' Hin)|]. specialize (Hmax op' Hin Hk'). lia.
    + cbn [snd]. unfold on_insert. rewrite get_mk_props. destruct (get_stamp p s.2) as [[lt|] v]; [done|]. intros _.
      destruct (Hfit Hk) as [i Hi]. unfold ins_of. by rewrite Hk, Hi.
  - destruct Hs as [[H1 _]|(a & Ha & H1 & H2)]; [lia|]. right. exists a. split_and!; [|done|done]. apply top_add_keep; [lia|done].
Qed.

Lemma add_steps p l : Forall (λ op, 0 ≤ vid (op_t op) ∧ arg_fits op) l → add_inv p l (run_steps l).
Proof.
  induction l as [|op l IH] using rev_ind; intros Hl; [left; split; [done|by intros ? ?%elem_of_nil]|].
  apply Forall_app in Hl as [Hl [Hid Hfit]%Forall_inv]. specialize (IH Hl). rewrite foldl_app. simpl.
  set (s := run_steps l) in *. clearbody s.
  assert (Forall (λ op, 0 ≤ vid (op_t op)) l) as Hl' by (eapply Forall_impl; [exact Hl|by intros ? []]).
  destruct (op_kind op) eqn:Hk; [by apply add_inv_add| |]; (eapply add_inv_keep; [congruence|done|..|exact IH]);
    unfold rwf_step; rewrite Hk; cbn [fst snd]; try done.
  - intros H. destruct (Z.eqb_spec s.1 PID_NEXIST) as [He|]; [by rewrite He in H|done].
  - intros H. by destruct (s.1 =? PID_NEXIST).
  - rewrite get_on_update by done. destruct (upd_of p op) as [[lt v]|]; [|done]. by case_match.
Qed.

(** The value of a property that the operations on an element amount to. *)
Lemma reg_value p c l :
  Forall (rwf_wf c) l → Forall arg_fits l → (∃ op, in_force l op ∧ op_kind op = RwfAdd) →
  0 ≤ pid (rwf_state no_values on_insert on_update c l).1 ∧
  ∃ v, (get_stamp p (rwf_state no_values on_insert on_update c l).2).2 = Some v ∧ prop_value p l v.
Proof.
  intros Hwf Hfit (a & Ha & Hka). unfold rwf_state. cbn [fst snd pid]. rewrite (rwf_live_force c l Hwf). apply elem_of_force in Ha.
  assert (Forall (λ op, 0 ≤ vid (op_t op) ∧ arg_fits op) (force l)) as Hl.
  { rewrite Forall_forall in *. intros op [_ Hop]%list_elem_of_filter. split; [by apply Hwf|by apply Hfit]. }
  pose proof (stamp_steps p (force l)) as Hst.
  destruct (add_steps p (force l) Hl) as [[_ Hno]|(op & Hop & Hpid & Hv)]; [by destruct (Hno a Ha)|]. split.
  - rewrite Hpid. destruct Hop as (Hin & _). apply (proj1 (Forall_forall _ _) Hl op Hin).
  - unfold prop_value. destruct (get_stamp p (run_steps (force l)).2) as [[lt|] v]; simpl in *.
    + destruct Hst as (z & -> & Hz). exists z. eauto.
    + rewrite (Hv eq_refl). destruct Hop as (Hin & Hk & Hmax). pose proof (proj1 (Forall_forall _ _) Hl op Hin) as [_ Hf].
      destruct (Hf Hk) as [i Hi]. exists (ins_val p i). unfold ins_of at 1. rewrite Hk, Hi. split; [done|]. right. split; [done|].
      exists op. unfold ins_of. by rewrite Hk, Hi.
Qed.

(** ** Messages *)

(** The message of an operation on the list [key], as the prepare phases build
    it. *)
Definition list_message (key : sds) (p : list_item) : list sds :=
  let st := default "" (vcToSds (op_t p.2)) in
  match op_arg p.2 with
  | LAdd i =>
      ["rwflinsert"; key; in_prev i; p.1; in_content i; fmt_d (in_font i); fmt_d (in_size i); fmt_d (in_color i);
       fmt_d (in_property i); default "" (leidToSds (in_id i)); st]
  | LUpd type lt v => ["rwflupdate"; key; p.1; type; fmt_d v; lcToSds lt; st]
  | LRem => ["rwflrem"; key; p.1; st]
  end.

Section world.
Context {cell : Type} `{!Stored cell rwfle, !Stored cell vc} (idof : sds → leid) (textof : sds → sds).
Implicit Types (w : world cell).

(** A list in the keyspace that has processed [hist]. *)
Definition list_at w key hist : Prop :=
  ∃ Ms len ch, list_rep w key Ms len ch ∧ list_inv idof textof (vc_new w) (w_p2p_id w) hist Ms len ch.

Lemma list_at_step w w' key hist p Ms len ch Ms' len' ch' :
  list_inv idof textof (vc_new w) (w_p2p_id w) hist Ms len ch → list_ok (w_p2p_count w) idof textof (hist ++ [p]) →
  list_rep w' key Ms' len' ch' → same_client w w' → outcome idof textof (vc_new w) (w_p2p_id w) hist p Ms len ch Ms' len' ch' →
  list_at w' key (hist ++ [p]).
Proof using Type.
  intros Hinv Hh Hrep Hsc Hoc. exists Ms', len', ch'. split; [done|]. destruct (same_client_at w w' Hsc) as (-> & -> & _).
  by eapply (step_inv (w_p2p_count w)).
Qed.

Section item.
Context (w : world cell) (key : sds) (hist : list list_item) (Ms : gmap sds rwfle) (len : option Z) (ch : list sds) (r : rargs).
Context (Hrep : list_rep w key Ms len ch) (Hinv : list_inv idof textof (vc_new w) (w_p2p_id w) hist Ms len ch).
Context (Hr : rargv (w_client w) = Some r).

Abbreviation before f p Hh := (f (w_p2p_count w) idof textof (vc_new w) eq_refl (w_p2p_id w) hist p Ms len ch Hinv Hh).

Lemma rem_step e t :
  let p := (e, mkRwfOp RwfRem t LRem) in
  list_ok (w_p2p_count w) idof textof (hist ++ [p]) → r_args r = list_message key p →
  ∃ w', rwflrem_effect w = Done () w' ∧ same_client w w' ∧ list_at w' key (hist ++ [p]).
Proof.
  intros p Hh Hargs. destruct (list_ok_snoc _ _ _ _ _ Hh) as (_ & (_ & Hw & Hres & _) & _).
  destruct (vcToSds_roundtrip t Hw) as (st & Hst & Ht).
  destruct (rem_run w key Ms len ch e r Hres (li_ok _ _ _ _ _ _ _ _ Hinv e) (before before_len p Hh) (before before_count p Hh) Hr t st Hrep
    (before before_size p Hh)) as (w' & x2 & len' & Hrun & Hrep' & Hsc & Hid & Hstep); [|done|].
  - rewrite Hargs. unfold list_message. simpl. by rewrite Hst.
  - exists w'. split_and!; [done..|]. eapply list_at_step; [done..|]. by eapply (outcome_update (w_p2p_count w)).
Qed.

Lemma upd_step e t type lt v :
  let p := (e, mkRwfOp RwfUpdate t (LUpd type lt v)) in
  list_ok (w_p2p_count w) idof textof (hist ++ [p]) → r_args r = list_message key p →
  ∃ w', rwflupdate_effect w = Done () w' ∧ same_client w w' ∧ list_at w' key (hist ++ [p]).
Proof.
  intros p Hh Hargs. destruct (list_ok_snoc _ _ _ _ _ Hh) as (_ & (_ & Hw & Hres & Hlt & Hv) & _).
  destruct (vcToSds_roundtrip t Hw) as (st & Hst & Ht).
  destruct (upd_run w key Ms len ch e r Hres (li_ok _ _ _ _ _ _ _ _ Hinv e) (before before_len p Hh) (before before_count p Hh) Hr t st type lt (lcToSds lt) v (fmt_d v) Hrep
    (before before_size p Hh)) as (w' & x2 & len' & Hrun & Hrep' & Hsc & Hid & Hstep); [|done| |done|by apply int64_fmt| |].
  - rewrite Hargs. unfold list_message. simpl. by rewrite Hst.
  - apply lc_roundtrip; destruct Hlt; unfold int32, INT_MIN, INT_MAX; lia.
  - intros x1 b1. by apply (before before_update p Hh).
  - exists w'. split_and!; [done..|]. eapply list_at_step; [done..|]. by eapply (outcome_update (w_p2p_count w)).
Qed.

Lemma ins_step e t i :
  let p := (e, mkRwfOp RwfAdd t (LAdd i)) in
  list_ok (w_p2p_count w) idof textof (hist ++ [p]) → r_args r = list_message key p →
  ∃ w', rwflinsert_effect w = Done () w' ∧ same_client w w' ∧ list_at w' key (hist ++ [p]).
Proof.
  intros p Hh Hargs. destruct (list_ok_snoc _ _ _ _ _ Hh) as (_ & (Hwf & Hw & Hres & Hrp & Hpe & Hie & Hte & Hlid & Hll & Hf & Hz & Hcol & Hpr) & _).
  destruct (vcToSds_roundtrip t Hw) as (st & Hst & Ht).
  destruct (leid_roundtrip (in_id i) Hll) as (sid & Hsid & Hlr); [eapply Forall_impl; [exact Hlid|apply pos_ok_int32]|].
  pose proof (before before_new p Hh eq_refl) as Hnew. simpl in Hie, Hte. rewrite Hie in *.
  destruct (ins_run w key Ms len ch e r Hres (li_ok _ _ _ _ _ _ _ _ Hinv e) (before before_len p Hh) (before before_count p Hh) Hr idof t st i
    (in_prev i) (in_content i) (fmt_d (in_font i)) (fmt_d (in_size i)) (fmt_d (in_color i)) (fmt_d (in_property i)) sid Hrep
    (before before_size p Hh)) as (w' & x2 & Ms' & len' & ch' & Hrun & Hrep' & Hsc & Hx2 & Hother & Hsort & Hperm & Hid & Hstep);
    [by destruct Hwf as [[]]| |done|by apply int64_fmt..|done|done|done|done|apply Hinv| |done| |].
  - rewrite Hargs. unfold list_message. simpl. by rewrite Hie, Hsid, Hst.
  - by apply (before before_placed p Hh).
  - intros y. by apply (before before_prev p Hh).
  - exists w'. split_and!; [done..|]. eapply list_at_step; [done..|].
    eapply (outcome_insert (w_p2p_count w)); [done..|exact Hx2|done|done|done|rewrite Hte in Hid; exact Hid|done].
Qed.

(** Every operation is processed without fault and keeps the invariant. *)
Lemma list_step p :
  list_ok (w_p2p_count w) idof textof (hist ++ [p]) → r_args r = list_message key p →
  ∃ w', rwfl_effect (op_kind p.2) w = Done () w' ∧ same_client w w' ∧ list_at w' key (hist ++ [p]).
Proof.
  intros Hh Hargs. pose proof (list_ok_snoc _ _ _ _ _ Hh) as (_ & (_ & _ & _ & Hfit) & _).
  destruct p as [e [k t a]]. simpl in Hfit. destruct k, a; try done; [by apply ins_step|by apply upd_step|by apply rem_step].
Qed.
End item.
End world.
