(* ===== verification/P2p.v ===== *)
(** * Commands, peer links and the network (src/server.c, src/p2p.c)

    [cell] closes the polymorphic heap over every metadata struct.  [call]
    runs a command for a client and says what is broadcast to the peers;
    [net] is a set of servers joined by first-in-first-out links, whose steps
    are a client command at some server and the delivery of the next message
    of some link. *)

From S2P Require Import Prelude.
From S2P Require Import Sds.
From S2P Require Import VectorClock.
From S2P Require Import Skiplist.
From S2P Require Import Zset.
From S2P Require Import Server.
From S2P Require Import Rwf.
From S2P Require Import Rwfset.
From S2P Require Import Rwfzset.
From S2P Require Import Oset.
From S2P Require Import Ozset.
From S2P Require Import RemoveWin.
From S2P Require Import Rset.
From S2P Require Import Rzset.
From S2P Require Import ListBasics.
From S2P Require Import Rlist.
From S2P Require Import Rwflist.

#[local] Open Scope Z_scope.

(** ** The heap *)

Inductive cell :=
  | CRwfse (e : rwfse) | CRwfze (e : rwfze) | COse (e : ose) | COze (e : oze)
  | CRse (e : rse) | CRze (e : rze) | CRle (e : rle) | CRwfle (e : rwfle)
  | CVc (c : vc) | COps (l : list rl_cmd).

#[global] Instance stored_rwfse : Stored cell rwfse :=
  {| to_cell := CRwfse; of_cell c := match c with CRwfse e => Some e | _ => None end;
     of_to_cell _ := eq_refl |}.
#[global] Instance stored_rwfze : Stored cell rwfze :=
  {| to_cell := CRwfze; of_cell c := match c with CRwfze e => Some e | _ => None end;
     of_to_cell _ := eq_refl |}.
#[global] Instance stored_ose : Stored cell ose :=
  {| to_cell := COse; of_cell c := match c with COse e => Some e | _ => None end;
     of_to_cell _ := eq_refl |}.
#[global] Instance stored_oze : Stored cell oze :=
  {| to_cell := COze; of_cell c := match c with COze e => Some e | _ => None end;
     of_to_cell _ := eq_refl |}.
#[global] Instance stored_rse : Stored cell rse :=
  {| to_cell := CRse; of_cell c := match c with CRse e => Some e | _ => None end;
     of_to_cell _ := eq_refl |}.
#[global] Instance stored_rze : Stored cell rze :=
  {| to_cell := CRze; of_cell c := match c with CRze e => Some e | _ => None end;
     of_to_cell _ := eq_refl |}.
#[global] Instance stored_rle : Stored cell rle :=
  {| to_cell := CRle; of_cell c := match c with CRle e => Some e | _ => None end;
     of_to_cell _ := eq_refl |}.
#[global] Instance stored_rwfle : Stored cell rwfle :=
  {| to_cell := CRwfle; of_cell c := match c with CRwfle e => Some e | _ => None end;
     of_to_cell _ := eq_refl |}.
#[global] Instance stored_vc : Stored cell vc :=
  {| to_cell := CVc; of_cell c := match c with CVc e => Some e | _ => None end;
     of_to_cell _ := eq_refl |}.
#[global] Instance stored_ops : Stored cell (list rl_cmd) :=
  {| to_cell := COps; of_cell c := match c with COps e => Some e | _ => None end;
     of_to_cell _ := eq_refl |}.

Abbreviation server := (world cell).
Abbreviation command := (M cell ()).

(** ** The command table *)

(** Name, function and arity of the CRDT commands of [redisCommandTable].  The
    other commands of the server, [del], [flushall], [replicate] and [repltest]
    among them, are not part of the model. *)
Definition redisCommandTable : list (sds * command * Z) := [
  ("ozadd", ozaddCommand, -4); ("ozincrby", ozincrbyCommand, -4); ("ozrem", ozremCommand, -3);
  ("ozscore", ozscoreCommand, 3); ("ozmax", ozmaxCommand, 2);
  ("rzadd", rzaddCommand, -4); ("rzincrby", rzincrbyCommand, -4); ("rzrem", rzremCommand, -3);
  ("rzscore", rzscoreCommand, 3); ("rzmax", rzmaxCommand, 2);
  ("rwfzadd", rwfzaddCommand, -4); ("rwfzincrby", rwfzincrbyCommand, -4);
  ("rwfzrem", rwfzremCommand, -3); ("rwfzscore", rwfzscoreCommand, 3);
  ("rwfzmax", rwfzmaxCommand, 2);
  ("rwfsadd", rwfsaddCommand, -3); ("rwfsrem", rwfsremCommand, -3);
  ("rwfscontains", rwfscontainsCommand, 3); ("rwfssize", rwfssizeCommand, 2);
  ("osadd", osaddCommand, -3); ("osrem", osremCommand, -3);
  ("oscontains", oscontainsCommand, 3); ("ossize", ossizeCommand, 2);
  ("rsadd", rwfsaddCommand, -3); ("rsrem", rwfsremCommand, -3);
  ("rscontains", rwfscontainsCommand, 3); ("rssize", rwfssizeCommand, 2);
  ("rlinsert", rlinsertCommand, -9); ("rlupdate", rlupdateCommand, -5);
  ("rlrem", rlremCommand, -3); ("rllen", rllenCommand, 2); ("rllist", rllistCommand, 2);
  ("rwflinsert", rwflinsertCommand, -9); ("rwflupdate", rwflupdateCommand, -5);
  ("rwflrem", rwflremCommand, -3); ("rwfllen", rwfllenCommand, 2);
  ("rwfllist", rwfllistCommand, 2);
  ("ozestatus", ozestatusCommand, 3); ("rzestatus", rzestatusCommand, 3);
  ("rwfzestatus", rwfzestatusCommand, 3)
].

(** Command names are looked up without regard to case. *)
Fixpoint lookup_table (name : sds) (t : list (sds * command * Z)) : option (command * Z) :=
  match t with
  | [] => None
  | (n, proc, arity) :: t' => if String.eqb n name then Some (proc, arity) else lookup_table name t'
  end.

Definition lookupCommand (name : sds) : option (command * Z) :=
  lookup_table (sdstolower name) redisCommandTable.

(** ** Running a command *)

(** [call]: for a replica link, [rargv] is [argv] while the command runs; for
    a normal client, what the prepare phase left in [rargv] is broadcast.
    The reply buffer of the client is part of the resulting world. *)
Definition call (proc : command) (w : server) : fault + (server * option (list sds)) :=
  let c := w_client w in
  let w := if c_replica c
           then set_client (set_rargv (Some (mkRargs (argv c) (argc c))) c) w else w in
  match run proc w with
  | inl f => inl f
  | inr w' =>
      let c' := w_client w' in
      inr (set_client (set_rargv None c') w',
           if c_replica c then None else r_args <$> rargv c')
  end.

(** The checks of [processCommand] on the command name and arity, then
    [call]. *)
Definition processCommand (w : server) : fault + (server * option (list sds)) :=
  let c := w_client w in
  match argv c with
  | [] => inl OutOfBounds
  | name :: _ =>
      match lookupCommand name with
      | None => match run (addReply (RError "unknown command")) w with
                | inl f => inl f | inr w' => inr (w', None) end
      | Some (proc, arity) =>
          if ((0 <? arity) && negb (arity =? argc c)) || (argc c <? - arity)
          then match run (addReply (RError "wrong number of arguments")) w with
               | inl f => inl f | inr w' => inr (w', None) end
          else call proc w
      end
  end.

(** A request on a connection, with its flags. *)
Definition request_by (c : client) (args : list sds) (w : server) : fault + (server * option (list sds)) :=
  processCommand (set_client (mkClient args None (c_replica c) (c_message c) []) w).

(** A request of a client, or on the link that a peer opens with [replicate
    replica handshake].  Such connections do not have the flag
    CLIENT_REPLICA_MESSAGE, which the test command [repltest] sets. *)
Definition new_client (replica : bool) (args : list sds) : client := mkClient args None replica false [].

Definition request (replica : bool) (args : list sds) (w : server)
    : fault + (server * option (list sds)) :=
  processCommand (set_client (new_client replica args) w).

(** A server as [replicate <size> <id> ...] leaves it, linked to its peers. *)
Definition init_server (size id : Z) (conf : zconf) (rnd : list Z) : server :=
  mkWorld ∅ ∅ 0 (size - 1) size id conf rnd (new_client false []).

(** ** The network *)

(** Links are indexed by sender and receiver; a message is the argument
    vector [replicationBroadcast] writes. *)
Record net := mkNet {
  n_servers : gmap nat server;
  n_links : gmap (nat * nat) (list (list sds))
}.

Definition link (i j : nat) (n : net) : list (list sds) := default [] (n_links n !! (i, j)).

(** [replicationBroadcast]: one copy on the link to every peer. *)
Fixpoint replicationBroadcast (i : nat) (peers : list nat) (msg : list sds)
    (links : gmap (nat * nat) (list (list sds))) : gmap (nat * nat) (list (list sds)) :=
  match peers with
  | [] => links
  | j :: peers' =>
      let links := replicationBroadcast i peers' msg links in
      if decide (i = j) then links
      else <[(i, j) := default [] (links !! (i, j)) ++ [msg]]> links
  end.

Definition broadcast (i : nat) (msg : option (list sds)) (n : net) : net :=
  match msg with
  | None => n
  | Some m => mkNet (n_servers n)
                (replicationBroadcast i (elements (dom (n_servers n))) m (n_links n))
  end.

(** The steps: a client command at server [i], and the delivery at [j] of the
    oldest message from [i]. *)
Inductive event := EClient (i : nat) (args : list sds) | EDeliver (i j : nat).

Definition net_step (ev : event) (n : net) : option (fault + net) :=
  match ev with
  | EClient i args =>
      w ← n_servers n !! i;
      Some (match request false args w with
            | inl f => inl f
            | inr (w', msg) => inr (broadcast i msg (mkNet (<[i := w']> (n_servers n)) (n_links n)))
            end)
  | EDeliver i j =>
      w ← n_servers n !! j;
      match link i j n with
      | [] => None
      | msg :: rest =>
          Some (match request true msg w with
                | inl f => inl f
                | inr (w', _) => inr (mkNet (<[j := w']> (n_servers n)) (<[(i, j) := rest]> (n_links n)))
                end)
      end
  end.

(** A run of events; [None] when one of them is not possible. *)
Fixpoint net_run (evs : list event) (n : net) : option (fault + net) :=
  match evs with
  | [] => Some (inr n)
  | ev :: evs' =>
      r ← net_step ev n;
      match r with inl f => Some (inl f) | inr n' => net_run evs' n' end
  end.

Definition init_net (size : nat) (conf : zconf) : net :=
  mkNet (list_to_map ((λ i, (i, init_server (Z.of_nat size) (Z.of_nat i) conf [])) <$> seq 0 size)) ∅.

(** The replies of a read command at a server. *)
Definition query (n : net) (i : nat) (args : list sds) : option (fault + list reply) :=
  w ← n_servers n !! i;
  Some (match request false args w with
        | inl f => inl f
        | inr (w', _) => inr (c_reply (w_client w'))
        end).

Definition query_run (evs : list event) (size : nat) (i : nat) (args : list sds)
    : option (fault + list reply) :=
  r ← net_run evs (init_net size (mkZconf 128 64));
  match r with
  | inl f => Some (inl f)
  | inr n => query n i args
  end.
