(* ===== verification/RlistRep.v ===== *)
(** * What the remove-win list computes

    A list of t_rlist.c in memory: the chain of its elements as in
    [ListChain], and beside it the clock and the queue of unready commands of
    the whole list.  The three functions that apply an operation are, on the
    sets of one element, those of [RemoveWin]. *)

From stdpp Require Import sorting.
From S2P Require Import Prelude.
From S2P Require Import Sds.
From S2P Require Import VectorClock.
From S2P Require Import Skiplist.
From S2P Require Import Server.
From S2P Require Import Container.
From S2P Require Import RemoveWin.
From S2P Require Import ListBasics.
From S2P Require Import Leid.
From S2P Require Import ListChain.
From S2P Require Import Rlist.
From S2P Require Import P2p.

#[local] Open Scope Z_scope.

#[global] Program Instance rle_node : Node rle := {|
  n_pos := rl_pos_id;
  n_next := rl_next;
  n_set_next nx x := mkRle (rl_oid x) (rl_pos_id x) (rl_content x) (rl_sets x) nx
|}.
Solve Obligations with done.
Next Obligation. by intros []. Qed.

(** ** The clock and the queue of a list *)

Section side.
Implicit Types (w : server) (key : sds) (ptrs : gmap sds loc) (Ms : gmap sds rle) (c : vc) (ops : list rl_cmd) (oc oo : option loc).

(** The fields [current] and [ops], created when first used. *)
Record side w key oc oo c ops : Prop := {
  sd_current : hash_field w key "current" = HPtr <$> oc;
  sd_ops : hash_field w key "ops" = HPtr <$> oo;
  sd_clock : match oc with Some l => w_heap w !! l = Some (CVc c) | None => c = vc_new w end;
  sd_queue : match oo with Some l => w_heap w !! l = Some (COps ops) | None => ops = [] end
}.

Definition same_server w w' : Prop :=
  (w_replicas w', w_p2p_count w', w_p2p_id w', w_conf w', w_client w')
  = (w_replicas w, w_p2p_count w, w_p2p_id w, w_conf w, w_client w).

#[global] Instance same_server_preorder : PreOrder same_server.
Proof. split; [done|]. unfold same_server. intros w1 w2 w3 H1 H2. congruence. Qed.

Lemma same_server_vc w w' : same_server w w' → vc_new w' = vc_new w.
Proof. unfold same_server, vc_new. intros [= _ -> -> _ _]. done. Qed.

(** Operations on the elements leave both alone. *)
Lemma side_frame w w' key oc oo c ops : same_setup rle w w' → side w key oc oo c ops → side w' key oc oo c ops.
Proof.
  intros [Hs Hf Hh] [H1 H2 H3 H4]. split.
  - rewrite Hf; [done|by left].
  - rewrite Hf; [done|by right].
  - destruct oc as [l|]; [by apply Hh|]. by rewrite (same_server_vc w w' Hs).
  - destruct oo as [l|]; [by apply Hh|done].
Qed.

(** Changes of the two fields leave the elements alone. *)
Lemma lcont_frame w w' key ptrs Ms hd len h h' :
  lcont w key ptrs Ms hd len →
  w_db w !! key = Some (OHash h) ∨ (w_db w !! key = None ∧ h = ∅) → w_db w' !! key = Some (OHash h') →
  (∀ f, ¬ side_field f → h' !! f = h !! f) → (∀ l a, w_heap w !! l = Some (CRle a) → w_heap w' !! l = Some (CRle a)) →
  lcont w' key ptrs Ms hd len.
Proof.
  intros C Hk Hk' Hf Hh. split; try apply C.
  - destruct (l_hash _ _ _ _ _ _ C) as (h0 & Hk0 & Hp & Hhd & Hlen).
    assert (h0 = h) as -> by (destruct Hk as [Hk|[Hk ->]], Hk0 as [Hk0|[Hk0 ->]]; congruence).
    exists h'. split_and!; [by left| |rewrite Hf; [done|by intros [?|?]]..].
    intros f Hr. rewrite Hf; [by apply Hp|]. intros [Hs _]%side_reserved. done.
  - intros e l a Hl Ha. apply Hh. by apply (l_heap _ _ _ _ _ _ C e).
Qed.

(** A list with the structs [Ms], the length [len], the chain [ch], and its
    clock and queue. *)
Definition rl_rep w key ptrs Ms hd len oc oo c ops : Prop := lcont w key ptrs Ms hd len ∧ side w key oc oo c ops.

Lemma hash_of w key f v : hash_field w key f = Some v → ∃ h, w_db w !! key = Some (OHash h) ∧ h !! f = Some v.
Proof. unfold hash_field. destruct (w_db w !! key) as [[]|]; try done. intros H. by eexists. Qed.

Lemma get_ht_run w key ptrs Ms hd len oc oo c ops :
  rl_rep w key ptrs Ms hd len oc oo c ops →
  ∃ w', get_list_ht key true w = Done key w' ∧ rl_rep w' key ptrs Ms hd len oc oo c ops ∧ same_server w w' ∧
    ∃ h, w_db w' !! key = Some (OHash h).
Proof.
  intros [C S]. destruct (l_hash _ _ _ _ _ _ C) as (h & Hk & _). unfold get_list_ht, GET_LIST_HT, getInnerHT, lookupKey, dbAdd, mbind, M_bind.
  destruct Hk as [Hk|[Hk ->]]; rewrite Hk; [exists w; split; [done|]; split; [done|]; split; [done|]; by exists h|]. rewrite Hk.
  eexists. split; [done|]. split; [split|split; [done|exists ∅; apply lookup_insert_eq]].
  - eapply (lcont_frame w _ key ptrs Ms hd len ∅ ∅); [done|by right|apply lookup_insert_eq|done..].
  - eapply side_frame; [|exact S]. apply (same_setup_db w key ∅ ∅); [by right|done].
Qed.

(** Setting one of the fields to a new cell. *)
Lemma side_alloc_run {B} `{!Stored cell B} w key ptrs Ms hd len h f (b : B) :
  let l := fresh (dom (w_heap w)) in
  lcont w key ptrs Ms hd len → w_db w !! key = Some (OHash h) → side_field f →
  ∃ w', (e ← alloc b; hashTypeSet key f (HPtr e);; mret e) w = Done l w' ∧ lcont w' key ptrs Ms hd len ∧ same_server w w' ∧
    w_heap w' = <[l := to_cell b]> (w_heap w) ∧ hash_field w' key f = Some (HPtr l) ∧ w_heap w !! l = None ∧
    ∀ f', f' ≠ f → hash_field w' key f' = hash_field w key f'.
Proof.
  intros l C Hk Hf. assert (w_heap w !! l = None) as Hl by (apply not_elem_of_dom, is_fresh).
  unfold alloc, hashTypeSet, mbind, M_bind. simpl. rewrite Hk. eexists. split; [done|]. split_and!; [|done|done| |done|].
  - eapply (lcont_frame w _ key ptrs Ms hd len h (<[f := HPtr l]> h)); [done|by left|apply lookup_insert_eq|..].
    + intros f' Hf'. rewrite lookup_insert_ne; [done|]. by intros <-.
    + intros l' a Ha. simpl. fold l. rewrite lookup_insert_ne; [done|]. intros <-. congruence.
  - unfold hash_field. simpl. by rewrite !lookup_insert_eq.
  - intros f' Hne. unfold hash_field. simpl. rewrite lookup_insert_eq, lookup_insert_ne by done. by rewrite Hk.
Qed.

(** Writing the clock or the queue. *)
Lemma side_store_run {B} `{!Stored cell B} w key ptrs Ms hd len oc oo c ops l (b : B) cl :
  rl_rep w key ptrs Ms hd len oc oo c ops → w_heap w !! l = Some cl → (∀ a, cl ≠ CRle a) → oc = Some l ∨ oo = Some l →
  ∃ w', store l b w = Done () w' ∧ lcont w' key ptrs Ms hd len ∧ same_server w w' ∧ w_db w' = w_db w ∧
    w_heap w' = <[l := to_cell b]> (w_heap w).
Proof.
  intros [C S] Hl Hn Hor. eexists. split; [done|]. split_and!; [|done..].
  assert (∃ h, w_db w !! key = Some (OHash h)) as [h Hk].
  { destruct Hor as [->| ->]; [pose proof (sd_current _ _ _ _ _ _ S) as Hf|pose proof (sd_ops _ _ _ _ _ _ S) as Hf];
      apply hash_of in Hf as (h & Hk & _); by exists h. }
  eapply (lcont_frame w _ key ptrs Ms hd len h h); [done|by left|done|done|].
  intros l' a Ha. simpl. rewrite lookup_insert_ne; [done|]. intros <-. rewrite Hl in Ha. injection Ha as ->. by apply (Hn a).
Qed.

Lemma getCurrent_run w key ptrs Ms hd len oc oo c ops h :
  rl_rep w key ptrs Ms hd len oc oo c ops → w_db w !! key = Some (OHash h) →
  ∃ w' l, getCurrent key w = Done l w' ∧ rl_rep w' key ptrs Ms hd len (Some l) oo c ops ∧ same_server w w'.
Proof.
  intros [C S] Hk. assert (hashTypeGetValueObject key "current" w = Done (HPtr <$> oc) w) as Hget.
  { unfold hashTypeGetValueObject. rewrite Hk, <- (sd_current _ _ _ _ _ _ S). unfold hash_field. by rewrite Hk. }
  unfold getCurrent. mstep Hget. destruct oc as [l|]; simpl; [by exists w, l|].
  destruct (side_alloc_run w key ptrs Ms hd len h "current" (vc_new w) C Hk ltac:(by left)) as (w' & Hr & C' & Hs & Hh & Hf & Hl & Hf').
  eexists w', _. unfold get. erewrite bind_Done by done. split; [exact Hr|]. split; [|done]. split; [done|]. split; [done| | |].
  - rewrite Hf' by done. apply S.
  - rewrite Hh, lookup_insert_eq, (sd_clock _ _ _ _ _ _ S). done.
  - pose proof (sd_queue _ _ _ _ _ _ S) as Hq. destruct oo as [lo|]; [|done]. rewrite Hh, lookup_insert_ne; [done|]. intros <-. congruence.
Qed.

Lemma getOps_run w key ptrs Ms hd len lc oo c ops :
  rl_rep w key ptrs Ms hd len (Some lc) oo c ops →
  ∃ w' l, getOps key w = Done l w' ∧ rl_rep w' key ptrs Ms hd len (Some lc) (Some l) c ops ∧ same_server w w'.
Proof.
  intros [C S]. destruct (hash_of _ _ _ _ (sd_current _ _ _ _ _ _ S)) as (h & Hk & _).
  assert (hashTypeGetValueObject key "ops" w = Done (HPtr <$> oo) w) as Hget.
  { unfold hashTypeGetValueObject. rewrite Hk, <- (sd_ops _ _ _ _ _ _ S). unfold hash_field. by rewrite Hk. }
  unfold getOps. mstep Hget. destruct oo as [l|]; simpl; [by exists w, l|].
  destruct (side_alloc_run w key ptrs Ms hd len h "ops" ([] : list rl_cmd) C Hk ltac:(by right)) as (w' & Hr & C' & Hs & Hh & Hf & Hl & Hf').
  eexists w', _. split; [exact Hr|]. split; [|done]. split; [done|]. split; [|done| |].
  - rewrite Hf' by done. apply S.
  - pose proof (sd_clock _ _ _ _ _ _ S) as Hq. simpl in Hq. rewrite Hh, lookup_insert_ne; [done|]. intros <-. congruence.
  - rewrite Hh, lookup_insert_eq, (sd_queue _ _ _ _ _ _ S). done.
Qed.

Section fields.
Context w key ptrs Ms hd len lc oo c ops (R : rl_rep w key ptrs Ms hd len (Some lc) oo c ops).

Lemma getCurrent_known : getCurrent key w = Done lc w.
Proof.
  destruct R as [_ S]. destruct (hash_of _ _ _ _ (sd_current _ _ _ _ _ _ S)) as (h & Hk & Hf).
  unfold getCurrent, hashTypeGetValueObject, mbind, M_bind. by rewrite Hk, Hf.
Qed.

Lemma load_current : load lc w = Done c w.
Proof. destruct R as [_ S]. unfold load. by rewrite (sd_clock _ _ _ _ _ _ S). Qed.

Lemma store_current c' :
  ∃ w', store lc c' w = Done () w' ∧ rl_rep w' key ptrs Ms hd len (Some lc) oo c' ops ∧ same_server w w'.
Proof.
  pose proof R as [C S]. pose proof (sd_clock _ _ _ _ _ _ S) as Hc. simpl in Hc.
  destruct (side_store_run w key ptrs Ms hd len _ _ _ _ lc c' _ R Hc ltac:(done) ltac:(by left)) as (w' & Hr & C' & Hs & Hdb & Hh).
  exists w'. split; [done|]. split; [|done]. split; [done|]. split; unfold hash_field; rewrite ?Hdb, ?Hh; try apply S.
  - apply lookup_insert_eq.
  - pose proof (sd_queue _ _ _ _ _ _ S) as Hq. destruct oo as [lo|]; [|done]. rewrite lookup_insert_ne; [done|]. intros <-. congruence.
Qed.

Lemma load_ops lo : oo = Some lo → load lo w = Done ops w.
Proof. intros Ho. destruct R as [_ S]. pose proof (sd_queue _ _ _ _ _ _ S) as Hq. rewrite Ho in Hq. unfold load. by rewrite Hq. Qed.

Lemma store_ops lo ops' :
  oo = Some lo → ∃ w', store lo ops' w = Done () w' ∧ rl_rep w' key ptrs Ms hd len (Some lc) oo c ops' ∧ same_server w w'.
Proof.
  intros Ho. pose proof R as [C S]. pose proof (sd_queue _ _ _ _ _ _ S) as Hq. rewrite Ho in Hq.
  destruct (side_store_run w key ptrs Ms hd len _ _ _ _ lo ops' _ R Hq ltac:(done) ltac:(by right)) as (w' & Hr & C' & Hs & Hdb & Hh).
  exists w'. split; [done|]. split; [|done]. split; [done|]. split; unfold hash_field; rewrite ?Hdb, ?Hh; try apply S.
  - pose proof (sd_clock _ _ _ _ _ _ S) as Hc. simpl in Hc. rewrite lookup_insert_ne; [done|]. intros <-. congruence.
  - rewrite Ho. apply lookup_insert_eq.
Qed.

(** The clock advances. *)
Lemma rl_tick_run t :
  ∃ w1 w2, rl_tick key t w = Done () w1 ∧ dirty_inc w1 = Done () w2 ∧
    rl_rep w2 key ptrs Ms hd len (Some lc) oo (vc_update c t) ops ∧ same_server w w2.
Proof.
  destruct (store_current (vc_update c t)) as (w1 & Hst & [C1 S1] & Hs).
  destruct (ldirty_spec w1 key ptrs Ms hd len C1) as (w2 & Hd & C2 & S2).
  exists w1, w2. split; [|split; [exact Hd|]].
  - unfold rl_tick. mstep getCurrent_known. mstep load_current. exact Hst.
  - split; [split; [done|by eapply side_frame]|]. etrans; [done|]. apply S2.
Qed.
End fields.
End side.

(** ** Operations *)

Inductive rl_arg :=
  | RAdd (i : insert_args)
  | RUpd (type : sds) (value : Z)
  | RRem.

Abbreviation rl_item := (sds * cmd rl_cmd_type rl_arg)%type.

(** The arguments that travel with an operation. *)
Definition rl_argv (key : sds) (p : rl_item) : list sds :=
  match cmd_value p.2 with
  | RAdd i => [key; in_prev i; p.1; in_content i; fmt_d (in_font i); fmt_d (in_size i); fmt_d (in_color i);
               fmt_d (in_property i); default "" (leidToSds (in_id i))]
  | RUpd type v => [key; p.1; type; fmt_d v]
  | RRem => [key; p.1]
  end.

Definition rl_ins_val (t : vc) (i : insert_args) : rl_val := rl_val_new t (in_font i) (in_size i) (in_color i) (in_property i).

(** What an operation does to the sets of its element. *)
Definition rl_on_sets (x : cmd rl_cmd_type rl_arg) (s : rws rl_val) : option (rws rl_val) :=
  match cmd_value x with
  | RAdd i => rw_add s (cmd_t x) (rl_ins_val (cmd_t x) i)
  | RUpd type v => Some (mkRws (s_value s) (rl_update_entry (sdstolower type) v (cmd_t x) <$> s_aset s) (s_rset s))
  | RRem => Some (rw_remove s (cmd_t x))
  end.

Definition rl_shown (x : rle) : bool := rw_LOOKUP (rl_sets x).

Definition rl_ident (x : rle) : option sds * option leid * option sds := (rl_oid x, rl_pos_id x, rl_content x).

Definition rl_with_sets (s : rws rl_val) (x : rle) : rle := mkRle (rl_oid x) (rl_pos_id x) (rl_content x) s (rl_next x).

Lemma rl_remove_hidden (s : rws rl_val) t : rw_LOOKUP (rw_remove s t) = false.
Proof.
  unfold rw_remove, rw_LOOKUP. destruct (drop_seen t (s_value s) (s_aset s)) as [a v]. simpl. rewrite length_app. simpl.
  rewrite andb_false_iff. right. apply Z.eqb_neq. lia.
Qed.

Lemma rl_link_node ht name prev l id :
  rl_link (cell := cell) ht name prev l id = node_link (A := rle) (GET_RLE name prev false) ht l id.
Proof. reflexivity. Qed.

Section run.
Context (w : server) (key : sds) (ptrs : gmap sds loc) (Ms : gmap sds rle) (hd : option loc) (len : option Z) (ch : list sds).
Context (lc : loc) (oo : option loc) (c : vc) (ops : list rl_cmd) (e : sds) (t : vc).
Context (R : rl_rep w key ptrs Ms hd len (Some lc) oo c ops) (Hch : chained ptrs Ms hd ch).
Context (Hres : ¬ reserved e) (Hlen : len_ok len).
Abbreviation x0 := (default rleNew (Ms !! e)).

(** The common beginning: advance the clock, find or create the element. *)
Lemma rl_start :
  ∃ w1 w2 w3 l ptrs3, rl_tick key t w = Done () w1 ∧ dirty_inc w1 = Done () w2 ∧ GET_RLE key e true w2 = Done (Some l) w3 ∧
    ptrs3 !! e = Some l ∧ rl_rep w3 key ptrs3 (<[e := x0]> Ms) hd len (Some lc) oo (vc_update c t) ops ∧ same_server w w3 ∧
    (∀ e l, ptrs !! e = Some l → ptrs3 !! e = Some l).
Proof using R Hres.
  destruct (rl_tick_run _ _ _ _ _ _ _ _ _ _ R t) as (w1 & w2 & H1 & H2 & [C2 S2] & Hs2).
  destruct (lget_spec w2 key ptrs Ms hd len e (λ _, rleNew) C2 Hres) as (w3 & l & ptrs3 & H3 & Hl & C3 & S3 & P3); [done|].
  exists w1, w2, w3, l, ptrs3. split_and!; try done.
  - split; [done|by eapply side_frame].
  - etrans; [done|]. apply S3.
Qed.

(** Storing new sets. *)
Lemma rl_set_sets_run w3 ptrs3 Ms3 hd3 len3 c3 l x s :
  rl_rep w3 key ptrs3 Ms3 hd3 len3 (Some lc) oo c3 ops → ptrs3 !! e = Some l → Ms3 !! e = Some x →
  ∃ w4, rl_set_sets l s w3 = Done () w4 ∧ rl_rep w4 key ptrs3 (<[e := rl_with_sets s x]> Ms3) hd3 len3 (Some lc) oo c3 ops ∧ same_server w3 w4.
Proof using Type.
  intros [C3 S3] Hl Hx. unfold rl_set_sets. mstep (lload_spec w3 key ptrs3 Ms3 hd3 len3 e l x C3 Hl Hx).
  destruct (lstore_spec w3 key ptrs3 Ms3 hd3 len3 e l (rl_with_sets s x) C3 Hl) as (w4 & Hst & C4 & S4).
  exists w4. split; [exact Hst|]. split; [split; [done|by eapply side_frame]|apply S4].
Qed.

(** Counting. *)
Lemma rl_count_run w3 ptrs3 Ms3 hd3 c3 l (b : bool) inc :
  rl_rep w3 key ptrs3 Ms3 hd3 len (Some lc) oo c3 ops → ptrs3 !! e = Some l → inc ≠ 0 →
  (b = true → int32 (default 0 len + inc)) →
  ∃ w4 len4, (if b then incrLen key inc else mret ()) w3 = Done () w4 ∧ rl_rep w4 key ptrs3 Ms3 hd3 len4 (Some lc) oo c3 ops ∧
    same_server w3 w4 ∧ default 0 len4 = default 0 len + (if b then inc else 0).
Proof using Type.
  intros [C3 S3] Hl Hi Hb. destruct b; [|exists w3, len; split_and!; [done..|lia]].
  destruct (incrLen_spec w3 key ptrs3 Ms3 hd3 len e l inc C3 Hl Hi) as (w4 & Hr & C4 & S4).
  eexists w4, _. split; [exact Hr|]. split; [split; [exact C4|by eapply side_frame]|]. split; [apply S4|]. simpl. by rewrite wrap32_id by (by apply Hb).
Qed.

Lemma nth_arg_spec (argv : list sds) i s (w' : server) : argv !! i = Some s → nth_arg argv i w' = Done s w'.
Proof using Type. intros H. unfold nth_arg. by rewrite H. Qed.

Lemma rl_rem_run argv :
  argv !! 0%nat = Some key → argv !! 1%nat = Some e → (rl_shown x0 = true → 1 ≤ default 0 len) →
  ∃ w' ptrs' len', rl_removeFunc key argv t w = Done () w' ∧
    let x2 := rl_with_sets (rw_remove (rl_sets x0) t) x0 in
    rl_rep w' key ptrs' (<[e := x2]> Ms) hd len' (Some lc) oo (vc_update c t) ops ∧ same_server w w' ∧
    chained ptrs' (<[e := x2]> Ms) hd ch ∧ default 0 len' = default 0 len + b2z (rl_shown x2) - b2z (rl_shown x0).
Proof using R Hres Hlen Hch.
  intros H0 H1 Hcnt. destruct rl_start as (w1 & w2 & w3 & l & ptrs3 & Ht & Hd & Hget & Hl & R3 & Hs3 & P3).
  destruct (rl_set_sets_run w3 ptrs3 _ hd len _ l x0 (rw_remove (rl_sets x0) t) R3 Hl (lookup_insert_eq _ _ _)) as (w4 & Hst & R4 & Hs4).
  rewrite insert_insert_eq in R4. pose proof (rl_remove_hidden (rl_sets x0) t) as Hhid.
  destruct (rl_count_run w4 ptrs3 _ hd _ l (rl_shown x0 && negb (rw_LOOKUP (rw_remove (rl_sets x0) t))) (-1) R4 Hl) as (w5 & len5 & Hc & R5 & Hs5 & Hl5);
    [done| |].
  { intros [Hsh _]%andb_true_iff. specialize (Hcnt Hsh). unfold len_ok, int32, INT_MIN, INT_MAX in *. lia. }
  exists w5, ptrs3, len5. split; [|split; [done|split; [by etrans; [|etrans]|split]]].
  - unfold rl_removeFunc. mstep Ht. mstep Hd. mstep (nth_arg_spec argv 0 key w2 H0). mstep (nth_arg_spec argv 1 e w2 H1). mstep Hget.
    erewrite bind_Done by done. mstep (lload_spec w3 key ptrs3 _ hd len e l x0 (proj1 R3) Hl (lookup_insert_eq _ _ _)). mstep Hst. exact Hc.
  - by eapply chained_update.
  - rewrite Hl5. unfold rl_shown at 2 3. simpl. rewrite Hhid. unfold b2z, rl_shown. destruct (rw_LOOKUP (rl_sets x0)); simpl; lia.
Qed.

Lemma rl_upd_run argv type v sv :
  argv !! 0%nat = Some key → argv !! 1%nat = Some e → argv !! 2%nat = Some type → argv !! 3%nat = Some sv → string2ll sv = Some v →
  ∃ w' ptrs', updateFunc key argv t w = Done () w' ∧
    let x2 := rl_with_sets (mkRws (s_value (rl_sets x0)) (rl_update_entry (sdstolower type) v t <$> s_aset (rl_sets x0)) (s_rset (rl_sets x0))) x0 in
    rl_rep w' key ptrs' (<[e := x2]> Ms) hd len (Some lc) oo (vc_update c t) ops ∧ same_server w w' ∧
    chained ptrs' (<[e := x2]> Ms) hd ch ∧ rl_shown x2 = rl_shown x0.
Proof using R Hres Hch.
  intros H0 H1 H2 H3 Hv. destruct rl_start as (w1 & w2 & w3 & l & ptrs3 & Ht & Hd & Hget & Hl & R3 & Hs3 & P3).
  set (s := mkRws _ _ _). destruct (rl_set_sets_run w3 ptrs3 _ hd len _ l x0 s R3 Hl (lookup_insert_eq _ _ _)) as (w4 & Hst & R4 & Hs4).
  rewrite insert_insert_eq in R4. exists w4, ptrs3. split; [|split; [done|split; [by etrans|split]]].
  - unfold updateFunc. mstep Ht. mstep Hd. mstep (nth_arg_spec argv 0 key w2 H0). mstep (nth_arg_spec argv 1 e w2 H1).
    mstep (nth_arg_spec argv 2 type w2 H2). mstep (nth_arg_spec argv 3 sv w2 H3). mstep Hget. erewrite bind_Done by done.
    rewrite Hv. erewrite (bind_Done (orfault Uninit (Some v)) _ w3 v w3) by done.
    mstep (lload_spec w3 key ptrs3 _ hd len e l x0 (proj1 R3) Hl (lookup_insert_eq _ _ _)). exact Hst.
  - by eapply chained_update.
  - unfold rl_shown, rw_LOOKUP, s. simpl. by rewrite length_fmap.
Qed.

(** The insert of an element that has no place yet gives it one. *)
Definition rl_with_place (content : sds) (id : leid) (x : rle) : rle :=
  match rl_oid x with
  | None => mkRle (Some e) (Some id) (Some content) (rl_sets x) (rl_next x)
  | Some _ => x
  end.

Lemma rl_place_run idof w3 ptrs3 c3 l content prev argv sid :
  rl_rep w3 key ptrs3 (<[e := x0]> Ms) hd len (Some lc) oo c3 ops → ptrs3 !! e = Some l → chained ptrs3 (<[e := x0]> Ms) hd ch →
  argv !! 3%nat = Some content → argv !! 8%nat = Some sid → sdsToLeid sid = Some (idof e) → leid_ok (idof e) → ¬ reserved prev → prev ≠ e →
  StronglySorted (below idof) ch → Forall (placed idof Ms) ch →
  (rl_oid x0 = None → rl_next x0 = None ∧ e ∉ ch ∧ Forall (λ b, idof b ≠ idof e) ch) →
  (∀ y, Ms !! prev = Some y → rl_pos_id y = None ∨ (prev ∈ ch ∧ below idof prev e)) →
  ∃ w4 Ms4 hd4 ch4 x4,
    match rl_oid x0 with
    | None =>
        content ← nth_arg argv 3; sid ← nth_arg argv 8;
        id ← orfault OutOfBounds (sdsToLeid sid);
        store l (mkRle (Some e) (Some id) (Some content) (rl_sets x0) (rl_next x0));;
        rl_link key key prev l id
    | Some _ => mret ()
    end w3 = Done () w4 ∧ rl_rep w4 key ptrs3 Ms4 hd4 len (Some lc) oo c3 ops ∧ same_server w3 w4 ∧
    chained ptrs3 Ms4 hd4 ch4 ∧ StronglySorted (below idof) ch4 ∧ ch4 ≡ₚ match rl_oid x0 with None => e :: ch | Some _ => ch end ∧
    (∀ a, a ≠ e → (∃ nx, Ms4 !! a = n_set_next nx <$> Ms !! a) ∧ (a ∉ ch → Ms4 !! a = Ms !! a)) ∧
    Ms4 !! e = Some x4 ∧ rl_sets x4 = rl_sets x0 ∧ rl_ident x4 = rl_ident (rl_with_place content (idof e) x0).
Proof using Type.
  clear Hres.
  intros R3 Hl Hch3 H3 H8 Hsid Hid Hrp Hpo Hsort Hpl Hnew Hprev. unfold rl_with_place. destruct (rl_oid x0) as [o|] eqn:Ho.
  - exists w3, (<[e := x0]> Ms), hd, ch, x0. split_and!; try done; [|apply lookup_insert_eq].
    intros a Ha. rewrite lookup_insert_ne by done. split; [|done]. destruct (relinked_refl [] Ms a) as [? _]. done.
  - destruct (Hnew eq_refl) as (Hnx & He & Hne). set (x' := mkRle (Some e) (Some (idof e)) (Some content) (rl_sets x0) (rl_next x0)).
    destruct R3 as [C3 S3].
    destruct (node_place_spec idof w3 key ptrs3 (<[e := x0]> Ms) hd len ch e l x0 x' prev (λ _, rleNew)) as (w4 & Ms4 & hd4 & ch4 & Hr & C4 & S4 & R4 & Hch4 & Hsort4 & Hperm4);
      try done; [apply lookup_insert_eq| |by rewrite lookup_insert_ne|].
    { apply Forall_forall. intros a Ha. pose proof (proj1 (Forall_forall _ _) Hpl a Ha) as [Hp Hk]. split; [|done].
      rewrite lookup_insert_ne; [done|]. by intros ->. }
    destruct (R4 e) as [[nx Hx4] _]. rewrite !lookup_insert_eq in Hx4. simpl in Hx4.
    eexists w4, Ms4, hd4, ch4, _. split_and!; [|split; [done|by eapply side_frame]|apply S4|done|done|done| |exact Hx4|done|done].
    + mstep (nth_arg_spec argv 3 content w3 H3). mstep (nth_arg_spec argv 8 sid w3 H8). rewrite Hsid.
      erewrite (bind_Done (orfault OutOfBounds (Some (idof e))) _ w3 (idof e) w3) by done. rewrite rl_link_node. exact Hr.
    + intros a Ha. destruct (R4 a) as [[nx' Hx'] Hsame]. rewrite !lookup_insert_ne in Hx' by done. rewrite !lookup_insert_ne in Hsame by done.
      split; [by exists nx'|]. intros Hac. apply Hsame. by rewrite not_elem_of_cons.
Qed.

Lemma rl_ins_run idof i argv sid prev content s' :
  argv !! 0%nat = Some key → argv !! 1%nat = Some prev → argv !! 2%nat = Some e → argv !! 3%nat = Some content →
  argv !! 4%nat = Some (fmt_d (in_font i)) → argv !! 5%nat = Some (fmt_d (in_size i)) → argv !! 6%nat = Some (fmt_d (in_color i)) →
  argv !! 7%nat = Some (fmt_d (in_property i)) → argv !! 8%nat = Some sid →
  int64 (in_font i) → int64 (in_size i) → int64 (in_color i) → int64 (in_property i) →
  sdsToLeid sid = Some (idof e) → leid_ok (idof e) → ¬ reserved prev → prev ≠ e →
  StronglySorted (below idof) ch → Forall (placed idof Ms) ch →
  (rl_oid x0 = None → rl_next x0 = None ∧ e ∉ ch ∧ Forall (λ b, idof b ≠ idof e) ch) →
  (∀ y, Ms !! prev = Some y → rl_pos_id y = None ∨ (prev ∈ ch ∧ below idof prev e)) →
  rw_add (rl_sets x0) t (rl_ins_val t i) = Some s' → (rl_shown x0 = true → rw_LOOKUP s' = true) →
  ∃ w' ptrs' Ms' hd' len' ch' x2, insertFunc key argv t w = Done () w' ∧
    rl_rep w' key ptrs' Ms' hd' len' (Some lc) oo (vc_update c t) ops ∧ same_server w w' ∧
    chained ptrs' Ms' hd' ch' ∧ StronglySorted (below idof) ch' ∧ ch' ≡ₚ match rl_oid x0 with None => e :: ch | Some _ => ch end ∧
    (∀ a, a ≠ e → (∃ nx, Ms' !! a = n_set_next nx <$> Ms !! a) ∧ (a ∉ ch → Ms' !! a = Ms !! a)) ∧
    Ms' !! e = Some x2 ∧ rl_sets x2 = s' ∧ rl_ident x2 = rl_ident (rl_with_place content (idof e) x0) ∧
    default 0 len' = default 0 len + b2z (rl_shown x2) - b2z (rl_shown x0).
Proof using R Hres Hlen Hch.
  intros H0 H1 H2 H3 H4 H5 H6 H7 H8 Hf Hz Hcol Hp Hsid Hid Hrp Hpo Hsort Hpl Hnew Hprev Hadd Hmono.
  destruct rl_start as (w1 & w2 & w3 & l & ptrs3 & Ht & Hd & Hget & Hl & R3 & Hs3 & P3).
  assert (chained ptrs3 (<[e := x0]> Ms) hd ch) as Hch3 by (by eapply chained_update).
  destruct (rl_place_run idof w3 ptrs3 _ l content prev argv sid R3 Hl Hch3 H3 H8 Hsid Hid Hrp Hpo Hsort Hpl Hnew Hprev)
    as (w4 & Ms4 & hd4 & ch4 & x4 & Hplace & R4 & Hs4 & Hch4 & Hsort4 & Hperm4 & Hother4 & Hx4 & Hsets4 & Hid4).
  destruct (rl_set_sets_run w4 ptrs3 Ms4 hd4 len _ l x4 s' R4 Hl Hx4) as (w5 & Hst & R5 & Hs5).
  destruct (rl_count_run w5 ptrs3 _ hd4 _ l (negb (rl_shown x0) && rw_LOOKUP s') 1 R5 Hl) as (w6 & len6 & Hc & R6 & Hs6 & Hl6); [done| |].
  { intros _. unfold len_ok, int32, INT_MIN, INT_MAX in *. lia. }
  exists w6, ptrs3, (<[e := rl_with_sets s' x4]> Ms4), hd4, len6, ch4, (rl_with_sets s' x4).
  split; [|split; [done|split; [|split; [|split; [done|split; [done|split; [|split; [apply lookup_insert_eq|split; [done|split]]]]]]]]].
  - unfold insertFunc. mstep Ht. mstep Hd. mstep (nth_arg_spec argv 0 key w2 H0). mstep (nth_arg_spec argv 1 prev w2 H1).
    mstep (nth_arg_spec argv 2 e w2 H2). mstep Hget. erewrite bind_Done by done.
    mstep (lload_spec w3 key ptrs3 _ hd len e l x0 (proj1 R3) Hl (lookup_insert_eq _ _ _)). cbv beta zeta. mstep Hplace.
    mstep (nth_arg_spec argv 4 _ w4 H4). mstep (nth_arg_spec argv 5 _ w4 H5). mstep (nth_arg_spec argv 6 _ w4 H6). mstep (nth_arg_spec argv 7 _ w4 H7).
    rewrite !int64_fmt by done. do 4 (erewrite (bind_Done (orfault Uninit (Some _)) _ w4 _ w4) by done).
    mstep (lload_spec w4 key ptrs3 _ hd4 len e l x4 (proj1 R4) Hl Hx4). rewrite Hsets4. fold (rl_ins_val t i). rewrite Hadd.
    erewrite (bind_Done (orfault NullDeref (Some s')) _ w4 s' w4) by done. mstep Hst. exact Hc.
  - etrans; [exact Hs3|]. etrans; [exact Hs4|]. by etrans.
  - by eapply seg_same_next.
  - intros a Ha. rewrite lookup_insert_ne by done. by apply Hother4.
  - exact Hid4.
  - rewrite Hl6. unfold rl_shown at 2. simpl. unfold b2z. destruct (rl_shown x0); simpl; [|by destruct (rw_LOOKUP s'); lia]. rewrite Hmono by done. lia.
Qed.
End run.
