(* ===== verification/RlistInv.v ===== *)
(** * Histories of a remove-win list

    The conditions on the operations of a list, and the invariant that ties
    the structs, the chain and the length to the operations applied so far;
    the queue of unready commands applies operations in causal order and
    leaves none that could be applied. *)

From stdpp Require Import sorting.
From S2P Require Import Prelude.
From S2P Require Import Sds.
From S2P Require Import VectorClock.
From S2P Require Import Skiplist.
From S2P Require Import Server.
From S2P Require Import Container.
From S2P Require Import Rwf.
From S2P Require Import RemoveWin.
From S2P Require Import Causal.
From S2P Require Import RemoveWinRep.
From S2P Require Import ListBasics.
From S2P Require Import Leid.
From S2P Require Import ListChain.
From S2P Require Import Rlist.
From S2P Require Import P2p.
From S2P Require Import RlistRep.

#[local] Open Scope Z_scope.
#[local] Open Scope crdt_scope.

Abbreviation rl_op := (cmd rl_cmd_type rl_arg).

#[global] Instance rl_cmd_type_eq_dec : EqDecision rl_cmd_type.
Proof. solve_decision. Defined.

#[global] Instance rl_arg_eq_dec : EqDecision rl_arg.
Proof. solve_decision. Defined.

#[global] Instance rl_op_eq_dec : EqDecision rl_op.
Proof. solve_decision. Defined.

(** ** One element *)

Definition rl_kind (k : rl_cmd_type) : rw_kind :=
  match k with RLADD => KAdd | RLUPDATE => KInc | RLREM => KRem end.

Definition rl_fits (x : rl_op) : Prop :=
  match cmd_type x, cmd_value x with
  | RLADD, RAdd _ | RLUPDATE, RUpd _ _ | RLREM, RRem => True
  | _, _ => False
  end.

(** What an update does to the entry of an insert. *)
Definition rl_touch (t : vc) (v : rl_val) (u : rl_op) : rl_val :=
  match cmd_value u with
  | RUpd type z => a_val (rl_update_entry (sdstolower type) z (cmd_t u) (mkAse 0 t v))
  | _ => v
  end.

Definition rl_first (x : rl_op) : rl_val :=
  match cmd_value x with RAdd i => rl_ins_val (cmd_t x) i | _ => rl_val_new (cmd_t x) 0 0 0 0 end.

(** What the entry of an insert carries after the operations [l]: its own
    values, changed by the updates, in order of application. *)
Definition rl_pay (l : list rl_op) (x : rl_op) : rl_val := foldl (rl_touch (cmd_t x)) (rl_first x) l.

Lemma rl_pay_snoc l x y : rl_pay (l ++ [x]) y = rl_touch (cmd_t y) (rl_pay l y) x.
Proof. unfold rl_pay. by rewrite foldl_app. Qed.

Lemma rl_update_same type z t a : a_addr (rl_update_entry type z t a) = a_addr a ∧ a_t (rl_update_entry type z t a) = a_t a.
Proof. unfold rl_update_entry. by repeat case_match. Qed.

Lemma rl_update_val type z t a : a_val (rl_update_entry type z t a) = a_val (rl_update_entry type z t (mkAse 0 (a_t a) (a_val a))).
Proof. unfold rl_update_entry. simpl. by repeat case_match. Qed.

Section step.
Context (n : Z) (l : list rl_op) (x : rl_op).
Context (Hgood : rw_good n (l ++ [x])) (Hnew : ∀ y, y ∈ l ++ [x] → ¬ cmd_t x <ᵥ cmd_t y).

(** Updates before an insert do not change it. *)
Lemma rl_pay_new : rl_fits x → cmd_type x = RLADD → rl_pay (l ++ [x]) x = rl_first x.
Proof.
  intros Hfit Hk. rewrite rl_pay_snoc. assert (rl_pay l x = rl_first x) as ->.
  2: { unfold rl_touch. unfold rl_fits in Hfit. rewrite Hk in Hfit. by destruct (cmd_value x). }
  unfold rl_pay. assert (∀ u, u ∈ l → rl_touch (cmd_t x) (rl_first x) u = rl_first x) as Hid.
  { intros u Hu. unfold rl_touch, rl_update_entry. destruct (cmd_value u) as [|type z|]; [done| |done]. simpl.
    rewrite (proj2 (seen_by_spec n (l ++ [x]) u x Hgood ltac:(apply elem_of_snoc; by left) ltac:(apply elem_of_snoc; by right))); [done|].
    apply Hnew, elem_of_snoc. by left. }
  clear Hgood Hnew Hfit Hk. revert Hid. induction l as [|u l' IH]; intros Hid; [done|]. simpl. rewrite Hid by (by left). apply IH.
  intros u' Hu'. apply Hid. by right.
Qed.

Lemma rl_pay_other y : rl_fits x → cmd_type x ≠ RLUPDATE → rl_pay (l ++ [x]) y = rl_pay l y.
Proof using Type. intros Hfit Hk. rewrite rl_pay_snoc. unfold rl_touch, rl_fits in *. by destruct (cmd_type x), (cmd_value x). Qed.

(** One operation on the sets of its element. *)
Lemma rl_sets_step s :
  rl_fits x → rw_shape rl_kind rl_pay l s →
  ∃ s', rl_on_sets x s = Some s' ∧ rw_shape rl_kind rl_pay (l ++ [x]) s' ∧
    (cmd_type x = RLADD → rw_LOOKUP s = true → rw_LOOKUP s' = true).
Proof.
  intros Hfit Hsh. pose proof Hfit as Hf. unfold rl_fits, rl_on_sets in *. destruct (cmd_type x) eqn:Hk, (cmd_value x) as [i|type z|] eqn:Hv; try done.
  - destruct (shape_add rl_kind n l x Hgood Hnew rl_pay s (rl_ins_val (cmd_t x) i)) as (s' & Hadd & Hsh'); [by rewrite Hk|done| | |].
    + intros y _. apply rl_pay_other; [by unfold rl_fits; rewrite Hk, Hv|by rewrite Hk].
    + rewrite rl_pay_new by (done || by unfold rl_fits; rewrite Hk, Hv). unfold rl_first. by rewrite Hv.
    + exists s'. split_and!; [done..|]. intros _ Hl. apply (rw_LOOKUP_spec _ _ _ _ Hsh) in Hl as [_ Ho]. apply (rw_LOOKUP_spec _ _ _ _ Hsh').
      rewrite (live_snoc rl_kind n l x Hgood Hnew), (open_rems_snoc rl_kind n l x Hgood Hnew), Hk. simpl.
      split; [intros [_ ?]%app_eq_nil; done|]. by rewrite Ho.
  - eexists. split_and!; [done| |done]. apply (shape_inc rl_kind n l x Hgood Hnew rl_pay); [by rewrite Hk|done|intros a; apply rl_update_same|].
    intros a y Hy Hat Hav. rewrite rl_pay_snoc, rl_update_val, Hat, Hav. unfold rl_touch. by rewrite Hv.
  - eexists. split_and!; [done| |done]. apply (shape_remove rl_kind n l x Hgood Hnew rl_pay); [by rewrite Hk|done|].
    intros y _. apply rl_pay_other; [by unfold rl_fits; rewrite Hk, Hv|by rewrite Hk].
Qed.
End step.

(** ** Histories *)

Abbreviation rl_clk := (λ p : rl_item, cmd_t p.2).

Section history.
Context (n : Z) (idof : sds → leid) (textof : sds → sds).
Implicit Types (p q : rl_item) (hist L D : list rl_item).

(** An operation of a system of [n] servers in which [e] has the identifier
    [idof e] and the text [textof e]. *)
Definition rl_op_ok p : Prop :=
  clock_ok cmd_t n p.2 ∧ vc_wire_ok (cmd_t p.2) ∧ ¬ reserved p.1 ∧
  match cmd_type p.2, cmd_value p.2 with
  | RLADD, RAdd i =>
      ¬ reserved (in_prev i) ∧ in_prev i ≠ p.1 ∧ in_id i = idof p.1 ∧ in_content i = textof p.1 ∧
      leid_ok (in_id i) ∧ (1 ≤ length (in_id i) ≤ leid_buf_size)%nat ∧
      int64 (in_font i) ∧ int64 (in_size i) ∧ int64 (in_color i) ∧ int64 (in_property i)
  | RLUPDATE, RUpd _ v => int64 v
  | RLREM, RRem => True
  | _, _ => False
  end.

Definition is_insert p : Prop := cmd_type p.2 = RLADD.

(** Operations of a server are ordered, elements have identifiers of their
    own, and an insert names as its predecessor an element with a lower one. *)
Definition rl_pair_ok p q : Prop :=
  (vid (cmd_t p.2) = vid (cmd_t q.2) → cmd_t p.2 ≤ᵥ cmd_t q.2 ∨ cmd_t q.2 ≤ᵥ cmd_t p.2) ∧
  (is_insert p → is_insert q → (idof p.1 = idof q.1 → p.1 = q.1) ∧
    match cmd_value p.2 with RAdd i => in_prev i = q.1 → leid_lt (idof q.1) (idof p.1) | _ => True end).

Definition rl_ok hist : Prop :=
  Forall rl_op_ok hist ∧ Forall (λ p, Forall (rl_pair_ok p) hist) hist ∧ Z.of_nat (length hist) < INT_MAX.

#[global] Instance rl_op_ok_dec p : Decision (rl_op_ok p).
Proof. unfold rl_op_ok, clock_ok, int32_clock, int64. destruct (cmd_type p.2), (cmd_value p.2); apply _. Defined.

#[global] Instance rl_pair_ok_dec p q : Decision (rl_pair_ok p q).
Proof. unfold rl_pair_ok, is_insert. destruct (cmd_value p.2); apply _. Defined.

#[global] Instance rl_ok_dec hist : Decision (rl_ok hist).
Proof. unfold rl_ok. apply _. Defined.

Lemma rl_ok_sub L D : L ⊆+ D → rl_ok D → rl_ok L.
Proof.
  intros Hsub (H1 & H2 & H3). pose proof (submseteq_length _ _ Hsub). rewrite !Forall_forall in H1, H2.
  assert (∀ p, p ∈ L → p ∈ D) as Hin by (intros p Hp; by eapply elem_of_submseteq). split_and!; [..|lia].
  - apply Forall_forall. intros p Hp. by apply H1, Hin.
  - apply Forall_forall. intros p Hp. apply Forall_forall. intros q Hq. specialize (H2 p (Hin p Hp)).
    rewrite Forall_forall in H2. by apply H2, Hin.
Qed.

Lemma rl_op_fits p : rl_op_ok p → rl_fits p.2.
Proof using Type. intros (_ & _ & _ & H). unfold rl_fits. by destruct (cmd_type p.2), (cmd_value p.2). Qed.

Lemma rl_ok_good L : rl_ok L → rw_good n (snd <$> L).
Proof using Type.
  intros (H1 & H2 & _). rewrite Forall_forall in H2. split.
  - apply Forall_fmap. eapply Forall_impl; [exact H1|]. by intros p [? _].
  - intros x y (p & -> & Hp)%list_elem_of_fmap (q & -> & Hq)%list_elem_of_fmap. specialize (H2 p Hp). rewrite Forall_forall in H2. by apply H2.
Qed.

Lemma ops_of_sub e L : ops_of e L ⊆ snd <$> L.
Proof using Type. intros x Hx. apply elem_of_ops_of in Hx. apply list_elem_of_fmap. by exists (e, x). Qed.

Definition rl_inserted (l : list rl_op) : Prop := Exists (λ x, cmd_type x = RLADD) l.

Lemma rl_inserted_hist L e : rl_inserted (ops_of e L) ↔ ∃ q, q ∈ L ∧ is_insert q ∧ q.1 = e.
Proof using Type.
  unfold rl_inserted, is_insert. rewrite Exists_exists. setoid_rewrite elem_of_ops_of. split.
  - intros (x & Hx & Hk). by exists (e, x).
  - intros ([e' x] & Hq & Hk & <-). by exists x.
Qed.

Lemma rl_inserted_snoc L p e : rl_inserted (ops_of e (L ++ [p])) ↔ rl_inserted (ops_of e L) ∨ (is_insert p ∧ p.1 = e).
Proof using Type.
  clear idof textof. unfold rl_inserted, is_insert. rewrite ops_of_snoc, Exists_app. destruct (decide (p.1 = e)).
  - rewrite Exists_cons, Exists_nil. tauto.
  - rewrite Exists_nil. tauto.
Qed.

(** ** The invariant *)

Abbreviation struct_of Ms e := (default rleNew (Ms !! e)).

Definition rl_placed_as (l : list rl_op) (e : sds) (x : rle) : Prop :=
  if decide (rl_inserted l) then rl_ident x = (Some e, Some (idof e), Some (textof e))
  else rl_ident x = (None, None, None) ∧ rl_next x = None.

Definition rl_visible (Ms : gmap sds rle) (ch : list sds) : list sds := filter (λ e, rl_shown (struct_of Ms e) = true) ch.

(** A list that has applied [L]. *)
Record rl_inv L (Ms : gmap sds rle) (len : option Z) (ch : list sds) : Prop := {
  ri_sets e : rw_shape rl_kind rl_pay (ops_of e L) (rl_sets (struct_of Ms e));
  ri_place e : rl_placed_as (ops_of e L) e (struct_of Ms e);
  ri_sorted : StronglySorted (below idof) ch;
  ri_members e : e ∈ ch ↔ rl_inserted (ops_of e L);
  ri_len : default 0 len = Z.of_nat (length (rl_visible Ms ch))
}.

Lemma rl_inv_init : rl_inv [] ∅ None [].
Proof using Type.
  assert (∀ e, struct_of (∅ : gmap sds rle) e = rleNew) as Hnew by (intros; by rewrite lookup_empty).
  split; try done.
  - intros e. rewrite Hnew. split; [done..|]. by split; [constructor|].
  - constructor.
  - intros e. unfold rl_inserted. rewrite Exists_nil, elem_of_nil. done.
Qed.

(** An element that is shown was inserted. *)
Lemma rl_shown_live l s : rw_shape rl_kind rl_pay l s → rw_LOOKUP s = true → rl_inserted l.
Proof using Type.
  intros Hsh Hs. apply (rw_LOOKUP_spec _ _ _ _ Hsh) in Hs as [Hl _].
  destruct (live rl_kind l) as [|a l'] eqn:Heq; [done|]. assert (a ∈ live rl_kind l) as Ha by (rewrite Heq; by left).
  apply list_elem_of_filter in Ha as [[Hk _] Ha]. apply Exists_exists. exists a. split; [done|]. by destruct (cmd_type a).
Qed.

Lemma rl_shown_inserted L Ms len ch e : rl_inv L Ms len ch → rl_shown (struct_of Ms e) = true → e ∈ ch.
Proof using Type. intros Hinv Hs. apply (ri_members _ _ _ _ Hinv). by eapply rl_shown_live; [apply Hinv|]. Qed.

(** What an operation on the element [p.1] does. *)
Record rl_outcome L p (Ms : gmap sds rle) len ch (Ms' : gmap sds rle) len' ch' : Prop := {
  ro_sets : rl_on_sets p.2 (rl_sets (struct_of Ms p.1)) = Some (rl_sets (struct_of Ms' p.1));
  ro_other e : e ≠ p.1 → (∃ nx, Ms' !! e = n_set_next nx <$> Ms !! e) ∧ (e ∉ ch → Ms' !! e = Ms !! e);
  ro_sorted : StronglySorted (below idof) ch';
  ro_chain : ch' ≡ₚ if decide (is_insert p ∧ ¬ rl_inserted (ops_of p.1 L)) then p.1 :: ch else ch;
  ro_place : rl_placed_as (ops_of p.1 (L ++ [p])) p.1 (struct_of Ms' p.1);
  ro_len : default 0 len' = default 0 len + b2z (rl_shown (struct_of Ms' p.1)) - b2z (rl_shown (struct_of Ms p.1))
}.

Lemma rl_other_elem (Ms Ms' : gmap sds rle) e :
  (∃ nx, Ms' !! e = n_set_next nx <$> Ms !! e) →
  rl_sets (struct_of Ms' e) = rl_sets (struct_of Ms e) ∧ rl_ident (struct_of Ms' e) = rl_ident (struct_of Ms e).
Proof using Type. intros [nx Hn]. rewrite Hn. by destruct (Ms !! e) as [x|]. Qed.

Section preserve.
Context L p (Ms : gmap sds rle) (len : option Z) (ch : list sds) (Ms' : gmap sds rle) (len' : option Z) (ch' : list sds) (Hinv : rl_inv L Ms len ch) (Hok : rl_ok (L ++ [p])).
Context (Hnew : ∀ q, q ∈ L ++ [p] → ¬ cmd_t p.2 <ᵥ cmd_t q.2).

Lemma rl_elem_good : rw_good n (ops_of p.1 L ++ [p.2]).
Proof.
  eapply rw_good_sub; [|by apply rl_ok_good]. intros x Hx. apply (ops_of_sub p.1). rewrite ops_of_snoc. by rewrite decide_True by done.
Qed.

Lemma rl_elem_new y : y ∈ ops_of p.1 L ++ [p.2] → ¬ cmd_t p.2 <ᵥ cmd_t y.
Proof.
  intros Hy. assert ((p.1, y) ∈ L ++ [p]) as Hin; [|exact (Hnew _ Hin)]. apply elem_of_snoc in Hy as [Hy| ->]; apply elem_of_snoc; [left|by right; destruct p].
  by apply elem_of_ops_of.
Qed.

Lemma rl_p_ok : rl_op_ok p.
Proof using Hok. destruct Hok as (H & _). by apply Forall_app in H as [_ H%Forall_inv]. Qed.

Lemma rl_elem_step :
  ∃ s', rl_on_sets p.2 (rl_sets (struct_of Ms p.1)) = Some s' ∧ rw_shape rl_kind rl_pay (ops_of p.1 L ++ [p.2]) s' ∧
    (cmd_type p.2 = RLADD → rl_shown (struct_of Ms p.1) = true → rw_LOOKUP s' = true).
Proof.
  apply (rl_sets_step n); [apply rl_elem_good|apply rl_elem_new|apply rl_op_fits, rl_p_ok|apply Hinv].
Qed.

Context (Hoc : rl_outcome L p Ms len ch Ms' len' ch').

Lemma rl_step_sets e : rw_shape rl_kind rl_pay (ops_of e (L ++ [p])) (rl_sets (struct_of Ms' e)).
Proof.
  rewrite ops_of_snoc. destruct (decide (p.1 = e)) as [<-|Hne].
  - destruct rl_elem_step as (s' & Hs & Hsh & _). rewrite (ro_sets _ _ _ _ _ _ _ _ Hoc) in Hs. by injection Hs as <-.
  - rewrite app_nil_r. destruct (ro_other _ _ _ _ _ _ _ _ Hoc e) as [Hex _]; [done|].
    destruct (rl_other_elem Ms Ms' e Hex) as [-> _]. apply Hinv.
Qed.

Lemma rl_step_members e : e ∈ ch' ↔ rl_inserted (ops_of e (L ++ [p])).
Proof.
  rewrite (ro_chain _ _ _ _ _ _ _ _ Hoc), rl_inserted_snoc. destruct (decide (is_insert p ∧ ¬ rl_inserted (ops_of p.1 L))) as [[Ha _]|Hn].
  - rewrite elem_of_cons, (ri_members _ _ _ _ Hinv). naive_solver.
  - rewrite (ri_members _ _ _ _ Hinv). split; [by left|]. intros [?|[Ha <-]]; [done|].
    destruct (decide (rl_inserted (ops_of p.1 L))); [done|by destruct Hn].
Qed.

Lemma rl_step_place e : rl_placed_as (ops_of e (L ++ [p])) e (struct_of Ms' e).
Proof.
  destruct (decide (p.1 = e)) as [<-|Hne]; [apply (ro_place _ _ _ _ _ _ _ _ Hoc)|]. rewrite ops_of_snoc, decide_False, app_nil_r by done.
  destruct (ro_other _ _ _ _ _ _ _ _ Hoc e) as [Hex Hsame]; [done|]. destruct (rl_other_elem Ms Ms' e Hex) as [_ Hid].
  pose proof (ri_place _ _ _ _ Hinv e) as Hpl. pose proof (ri_members _ _ _ _ Hinv e) as Hm. unfold rl_placed_as in *. rewrite Hid.
  destruct (decide (rl_inserted (ops_of e L))); [done|]. destruct Hpl as [? Hnx]. split; [done|]. by rewrite Hsame by (by rewrite Hm).
Qed.

Lemma rl_step_len : default 0 len' = Z.of_nat (length (rl_visible Ms' ch')).
Proof.
  rewrite (ro_len _ _ _ _ _ _ _ _ Hoc), (ri_len _ _ _ _ Hinv). symmetry.
  apply (count_step (λ e, rl_shown (struct_of Ms e)) (λ e, rl_shown (struct_of Ms' e)) p.1 ch ch'
    (bool_decide (is_insert p ∧ ¬ rl_inserted (ops_of p.1 L)))).
  - eapply sorted_nodup, (ri_sorted _ _ _ _ Hinv).
  - intros a Ha. unfold rl_shown. by destruct (rl_other_elem Ms Ms' a (proj1 (ro_other _ _ _ _ _ _ _ _ Hoc a Ha))) as [-> _].
  - by apply (rl_shown_inserted L Ms len ch).
  - intros Hs. apply rl_step_members, (rl_shown_live _ (rl_sets (struct_of Ms' p.1))); [apply rl_step_sets|done].
  - rewrite (ro_chain _ _ _ _ _ _ _ _ Hoc). by rewrite decide_bool_decide.
  - intros [_ Hni]%bool_decide_eq_true. by rewrite (ri_members _ _ _ _ Hinv).
Qed.

Lemma rl_step_inv : rl_inv (L ++ [p]) Ms' len' ch'.
Proof.
  split; [exact rl_step_sets|exact rl_step_place|exact (ro_sorted _ _ _ _ _ _ _ _ Hoc)|exact rl_step_members|exact rl_step_len].
Qed.
End preserve.

(** What the invariant says before an operation. *)
Section before.
Context L p (Ms : gmap sds rle) (len : option Z) (ch : list sds) (Hinv : rl_inv L Ms len ch) (Hok : rl_ok (L ++ [p])).
Abbreviation x0 := (struct_of Ms p.1).

Lemma rl_ok_init : rl_ok L.
Proof. eapply rl_ok_sub; [|exact Hok]. apply submseteq_inserts_r. done. Qed.

Lemma rl_before_len : len_ok len.
Proof.
  unfold len_ok. rewrite (ri_len _ _ _ _ Hinv). destruct rl_ok_init as (_ & _ & Hl). unfold rl_visible.
  pose proof (length_filter (λ e, rl_shown (struct_of Ms e) = true) ch).
  assert (length ch ≤ length L)%nat; [|lia].
  rewrite <- (length_fmap fst L). apply submseteq_length, NoDup_submseteq; [eapply sorted_nodup, (ri_sorted _ _ _ _ Hinv)|].
  intros e (q & Hq & _ & <-)%(ri_members _ _ _ _ Hinv)%rl_inserted_hist. apply list_elem_of_fmap. by exists q.
Qed.

Lemma rl_before_count : rl_shown x0 = true → 1 ≤ default 0 len.
Proof.
  intros Hs. rewrite (ri_len _ _ _ _ Hinv). assert (p.1 ∈ rl_visible Ms ch) as Hin.
  { apply list_elem_of_filter. split; [done|]. by eapply rl_shown_inserted. }
  destruct (rl_visible Ms ch); [by apply elem_of_nil in Hin|]. simpl. lia.
Qed.

(** The other inserts agree with this one. *)
Lemma rl_before_pair q :
  is_insert p → q ∈ L → is_insert q → (idof p.1 = idof q.1 → p.1 = q.1) ∧
    match cmd_value p.2 with RAdd i => in_prev i = q.1 → leid_lt (idof q.1) (idof p.1) | _ => True end.
Proof.
  intros Hp Hq Hqi. destruct Hok as (_ & H & _). apply Forall_app in H as [_ H%Forall_inv].
  apply Forall_app in H as [H _]. by apply (proj1 (Forall_forall _ _) H q Hq).
Qed.

Lemma rl_before_prev i y :
  is_insert p → cmd_value p.2 = RAdd i → Ms !! in_prev i = Some y → rl_pos_id y = None ∨ (in_prev i ∈ ch ∧ below idof (in_prev i) p.1).
Proof.
  intros Ha Hi Hy. pose proof (ri_place _ _ _ _ Hinv (in_prev i)) as Hpl. rewrite Hy in Hpl. unfold rl_placed_as in Hpl.
  destruct (decide (rl_inserted (ops_of (in_prev i) L))) as [Hins|Hins].
  - right. split; [by apply (ri_members _ _ _ _ Hinv)|]. apply rl_inserted_hist in Hins as (q & Hq & Hqa & Hqe).
    destruct (rl_before_pair q Ha Hq Hqa) as [_ Hlt]. rewrite Hi, Hqe in Hlt. by apply Hlt.
  - left. destruct Hpl as [Hpl _]. by injection Hpl.
Qed.

Lemma rl_before_new : is_insert p → rl_oid x0 = None → rl_next x0 = None ∧ p.1 ∉ ch ∧ Forall (λ b, idof b ≠ idof p.1) ch.
Proof.
  intros Ha Ho. pose proof (ri_place _ _ _ _ Hinv p.1) as Hpl. unfold rl_placed_as in Hpl.
  destruct (decide (rl_inserted (ops_of p.1 L))) as [Hins|Hins]; [injection Hpl; congruence|]. destruct Hpl as [_ Hnx].
  rewrite (ri_members _ _ _ _ Hinv). split_and!; [done..|]. apply Forall_forall.
  intros b (q & Hq & Hqa & Hqe)%(ri_members _ _ _ _ Hinv)%rl_inserted_hist Hbe.
  destruct (rl_before_pair q Ha Hq Hqa) as [Heq _]. apply Hins, rl_inserted_hist. exists q. split_and!; [done..|]. symmetry. apply Heq. by rewrite Hqe.
Qed.

Lemma rl_before_placed : Forall (placed idof Ms) ch.
Proof.
  apply Forall_forall. intros e He. apply (ri_members _ _ _ _ Hinv) in He. pose proof (ri_place _ _ _ _ Hinv e) as Hpl.
  unfold rl_placed_as in Hpl. rewrite decide_True in Hpl by done. apply rl_inserted_hist in He as (q & Hq & Hqa & <-). split.
  - destruct (Ms !! q.1) as [x|]; simpl in *; [by injection Hpl|done].
  - destruct rl_ok_init as (Hops & _). pose proof (proj1 (Forall_forall _ _) Hops q Hq) as (_ & _ & _ & Hq').
    unfold is_insert in Hqa. rewrite Hqa in Hq'. destruct (cmd_value q.2); [|done..]. destruct Hq' as (_ & _ & <- & _ & ? & _). done.
Qed.

(** An operation that only changes the sets of its element. *)
Lemma rl_outcome_sets s' len' :
  ¬ is_insert p → rl_on_sets p.2 (rl_sets x0) = Some s' → default 0 len' = default 0 len + b2z (rw_LOOKUP s') - b2z (rl_shown x0) →
  rl_outcome L p Ms len ch (<[p.1 := rl_with_sets s' x0]> Ms) len' ch.
Proof.
  intros Ha Hs Hl. assert (struct_of (<[p.1 := rl_with_sets s' x0]> Ms) p.1 = rl_with_sets s' x0) as Hx by (by rewrite lookup_insert_eq).
  split; rewrite ?Hx; [done| |apply Hinv| | |done].
  - intros e He. rewrite lookup_insert_ne by done. split; [|done]. destruct (relinked_refl [] Ms e) as [? _]. done.
  - by rewrite decide_False by naive_solver.
  - pose proof (ri_place _ _ _ _ Hinv p.1) as Hpl. unfold rl_placed_as in *.
    assert (rl_inserted (ops_of p.1 (L ++ [p])) ↔ rl_inserted (ops_of p.1 L)) as Hi by (rewrite rl_inserted_snoc; naive_solver).
    rewrite (decide_ext _ _ _ _ Hi). done.
Qed.

Lemma rl_outcome_insert x2 Ms' len' ch' :
  is_insert p → rl_on_sets p.2 (rl_sets x0) = Some (rl_sets x2) → Ms' !! p.1 = Some x2 →
  (∀ e, e ≠ p.1 → (∃ nx, Ms' !! e = n_set_next nx <$> Ms !! e) ∧ (e ∉ ch → Ms' !! e = Ms !! e)) →
  StronglySorted (below idof) ch' → ch' ≡ₚ match rl_oid x0 with None => p.1 :: ch | Some _ => ch end →
  rl_ident x2 = rl_ident (rl_with_place p.1 (textof p.1) (idof p.1) x0) →
  default 0 len' = default 0 len + b2z (rl_shown x2) - b2z (rl_shown x0) → rl_outcome L p Ms len ch Ms' len' ch'.
Proof.
  intros Ha Hs Hx Hother Hsort Hperm Hid Hl. assert (struct_of Ms' p.1 = x2) as Hx2 by (by rewrite Hx).
  pose proof (ri_place _ _ _ _ Hinv p.1) as Hpl. unfold rl_placed_as in Hpl. split; rewrite ?Hx2; try done.
  - rewrite Hperm. destruct (decide (rl_inserted (ops_of p.1 L))) as [Hi|Hi].
    + rewrite decide_False by naive_solver. by injection Hpl as -> _ _.
    + rewrite decide_True by done. destruct Hpl as [Hpl _]. by injection Hpl as -> _ _.
  - unfold rl_placed_as. rewrite decide_True by (apply rl_inserted_snoc; by right). rewrite Hid. unfold rl_with_place.
    destruct (decide (rl_inserted (ops_of p.1 L))) as [Hi|Hi].
    + assert (rl_oid x0 = Some p.1) as -> by (by injection Hpl). done.
    + destruct Hpl as [Hpl _]. assert (rl_oid x0 = None) as -> by (by injection Hpl). done.
Qed.
End before.
End history.

(** ** Applying an operation *)

Section world.
Context (idof : sds → leid) (textof : sds → sds) (n : Z) (key : sds).
Implicit Types (w : server) (L : list rl_item) (p : rl_item).

Definition rl_state w Ms len ch oc oo c ops : Prop :=
  ∃ ptrs hd, rl_rep w key ptrs Ms hd len oc oo c ops ∧ chained ptrs Ms hd ch.

Section apply.
Context w L p Ms len ch lc oo c ops (R : rl_state w Ms len ch (Some lc) oo c ops) (Hinv : rl_inv idof textof L Ms len ch).
Context (Hok : rl_ok n idof textof (L ++ [p])) (Hnew : ∀ q, q ∈ L ++ [p] → ¬ cmd_t p.2 <ᵥ cmd_t q.2) (extra : list sds).

(** The operation runs and keeps the invariant. *)
Definition applies (m : M cell ()) : Prop :=
  ∃ w' Ms' len' ch', m w = Done () w' ∧ rl_state w' Ms' len' ch' (Some lc) oo (vc_update c (cmd_t p.2)) ops ∧ same_server w w' ∧
    rl_inv idof textof (L ++ [p]) Ms' len' ch'.

Lemma rl_apply_rem : cmd_type p.2 = RLREM → cmd_value p.2 = RRem → applies (rl_removeFunc key (rl_argv key p ++ extra) (cmd_t p.2)).
Proof.
  intros Hk Hv. destruct R as (ptrs & hd & R0 & Hch). destruct (rl_p_ok _ _ _ _ _ Hok) as (_ & _ & Hres & _).
  destruct (rl_rem_run w key ptrs Ms hd len ch lc oo c ops p.1 (cmd_t p.2) R0 Hch Hres (rl_before_len n _ _ _ _ _ _ _ Hinv Hok)
    (rl_argv key p ++ extra)) as (w' & ptrs' & len' & Hrun & R' & Hs & Hch' & Hl').
  - unfold rl_argv. by rewrite Hv.
  - unfold rl_argv. by rewrite Hv.
  - by eapply rl_before_count.
  - eexists w', _, len', ch. split_and!; [done|by exists ptrs', hd|done|].
    eapply (rl_step_inv n); [done..|]. eapply (rl_outcome_sets n); [exact Hinv|exact Hok|unfold is_insert; by rewrite Hk| |exact Hl'].
    unfold rl_on_sets. by rewrite Hv.
Qed.

Lemma rl_apply_upd type v :
  cmd_type p.2 = RLUPDATE → cmd_value p.2 = RUpd type v → applies (updateFunc key (rl_argv key p ++ extra) (cmd_t p.2)).
Proof.
  intros Hk Hv. destruct R as (ptrs & hd & R0 & Hch). destruct (rl_p_ok _ _ _ _ _ Hok) as (_ & _ & Hres & Hp). rewrite Hk, Hv in Hp.
  destruct (rl_upd_run w key ptrs Ms hd len ch lc oo c ops p.1 (cmd_t p.2) R0 Hch Hres (rl_argv key p ++ extra) type v (fmt_d v))
    as (w' & ptrs' & Hrun & R' & Hs & Hch' & Hsh); [unfold rl_argv; by rewrite Hv..|by apply int64_fmt|].
  eexists w', _, len, ch. split_and!; [done|by exists ptrs', hd|done|].
  eapply (rl_step_inv n); [done..|]. eapply (rl_outcome_sets n); [exact Hinv|exact Hok|unfold is_insert; by rewrite Hk|unfold rl_on_sets; by rewrite Hv|].
  unfold rl_shown at 1 in Hsh. simpl in Hsh. rewrite Hsh. lia.
Qed.

Lemma rl_apply_ins i :
  cmd_type p.2 = RLADD → cmd_value p.2 = RAdd i → applies (insertFunc key (rl_argv key p ++ extra) (cmd_t p.2)).
Proof.
  intros Hk Hv. destruct R as (ptrs & hd & R0 & Hch). destruct (rl_p_ok _ _ _ _ _ Hok) as (_ & _ & Hres & Hp). rewrite Hk, Hv in Hp.
  destruct Hp as (Hrp & Hpe & Hie & Hte & Hlid & Hll & Hf & Hz & Hcol & Hpr).
  destruct (leid_roundtrip (in_id i) Hll) as (sid & Hsid & Hlr); [eapply Forall_impl; [exact Hlid|apply pos_ok_int32]|]. rewrite Hie in *.
  destruct (rl_elem_step n _ _ _ _ _ _ _ Hinv Hok Hnew) as (s' & Hs' & _ & Hmono). pose proof Hs' as Hs''. unfold rl_on_sets in Hs'. rewrite Hv in Hs'.
  destruct (rl_ins_run w key ptrs Ms hd len ch lc oo c ops p.1 (cmd_t p.2) R0 Hch Hres (rl_before_len n _ _ _ _ _ _ _ Hinv Hok)
    idof i (rl_argv key p ++ extra) sid (in_prev i) (in_content i) s')
    as (w' & ptrs' & Ms' & hd' & len' & ch' & x2 & Hrun & R' & Hs & Hch' & Hsort & Hperm & Hother & Hx2 & Hsx & Hid & Hl');
    try done; try (unfold rl_argv; by rewrite Hv).
  - unfold rl_argv. by rewrite Hv, Hie, Hsid.
  - apply Hinv.
  - by eapply rl_before_placed.
  - eapply rl_before_new; [done..|exact Hk].
  - intros y. eapply rl_before_prev; [done..|exact Hk|done].
  - by apply Hmono.
  - exists w', Ms', len', ch'. split_and!; [done|by exists ptrs', hd'|done|].
    eapply (rl_step_inv n); [done..|]. eapply (rl_outcome_insert n); [exact Hinv|exact Hok|exact Hk|by rewrite Hsx|exact Hx2|done|done|done|by rewrite <- Hte|done].
Qed.

Lemma rl_apply_run : applies (rl_apply key (mkCmd (cmd_type p.2) (rl_argv key p ++ extra) (cmd_t p.2))).
Proof.
  pose proof (rl_op_fits _ _ _ _ (rl_p_ok _ _ _ _ _ Hok)) as Hfit. unfold rl_fits in Hfit. unfold rl_apply. simpl.
  destruct (cmd_type p.2) eqn:Hk, (cmd_value p.2) eqn:Hv; try done; [by eapply rl_apply_ins|by eapply rl_apply_upd|by apply rl_apply_rem].
Qed.
End apply.

(** ** The queue *)

(** A waiting operation as it is stored. *)
Definition rl_wire p : rl_cmd := mkCmd (cmd_type p.2) (rl_argv key p) (cmd_t p.2).

Section queue.
Context (c0 : vc) (Hn : vsize c0 = n) (Hc0 : int32_clock c0) (D : list rl_item) (HD : rl_ok n idof textof D) (lc : loc).

(** The list has applied [L] in causal order; the operations [Q] wait. *)
Record rl_partly L (Q : list rl_item) w oo Ms len ch : Prop := {
  rp_perm : L ++ Q ≡ₚ D;
  rp_causal : causal rl_clk c0 L;
  rp_state : rl_state w Ms len ch (Some lc) oo (join_of rl_clk c0 L) (rl_wire <$> Q);
  rp_inv : rl_inv idof textof L Ms len ch
}.

Definition rl_stuck L (Q : list rl_item) : Prop := Forall (λ p, ¬ causally_next (join_of rl_clk c0 L) (cmd_t p.2)) Q.

Lemma rl_clocks L : rl_ok n idof textof L → Forall (clock_ok rl_clk (vsize c0)) L.
Proof. intros (H & _). rewrite Hn. eapply Forall_impl; [exact H|]. by intros p [? _]. Qed.

Lemma rl_part_ok L Q : L ++ Q ≡ₚ D → rl_ok n idof textof L.
Proof. intros Hp. eapply rl_ok_sub; [|exact HD]. rewrite <- Hp. by apply submseteq_inserts_r. Qed.

Lemma rl_ready L Q p :
  L ++ Q ≡ₚ D → rl_op_ok n idof textof p →
  ∃ b, vc_causally_ready (join_of rl_clk c0 L) (cmd_t p.2) = Some b ∧ (b = true ↔ causally_next (join_of rl_clk c0 L) (cmd_t p.2)).
Proof.
  intros Hp ((Hs & Hid & _) & _). apply vc_causally_ready_spec; [by rewrite vsize_join_of, Hs|lia|].
  apply join_of_int32; [done|]. by eapply rl_clocks, rl_part_ok.
Qed.

Lemma rl_next_new L p : rl_ok n idof textof (L ++ [p]) → causal rl_clk c0 (L ++ [p]) → ∀ q, q ∈ L ++ [p] → ¬ cmd_t p.2 <ᵥ cmd_t q.2.
Proof.
  intros Hok Hc q [Hq| ->]%elem_of_snoc; [|apply vlt_irrefl]. intros [Hle _].
  eapply (causal_not_above rl_clk c0 L p q); [|done..]. apply rl_clocks. eapply rl_ok_sub; [|exact Hok]. by apply submseteq_inserts_r.
Qed.

(** A ready operation is applied; [extra] are arguments it has besides. *)
Lemma rl_partly_apply L Q p ops w oo Ms len ch extra :
  L ++ p :: Q ≡ₚ D → causal rl_clk c0 L → rl_state w Ms len ch (Some lc) oo (join_of rl_clk c0 L) ops → rl_inv idof textof L Ms len ch →
  causally_next (join_of rl_clk c0 L) (cmd_t p.2) →
  ∃ w' Ms' len' ch', rl_apply key (mkCmd (cmd_type p.2) (rl_argv key p ++ extra) (cmd_t p.2)) w = Done () w' ∧
    (L ++ [p]) ++ Q ≡ₚ D ∧ causal rl_clk c0 (L ++ [p]) ∧
    rl_state w' Ms' len' ch' (Some lc) oo (join_of rl_clk c0 (L ++ [p])) ops ∧ rl_inv idof textof (L ++ [p]) Ms' len' ch' ∧ same_server w w'.
Proof.
  intros Hp Hc R Hinv Hx. assert (causal rl_clk c0 (L ++ [p])) as Hc' by (by apply causal_snoc).
  assert ((L ++ [p]) ++ Q ≡ₚ D) as Hp' by (by rewrite <- app_assoc). pose proof (rl_part_ok _ _ Hp') as Hok.
  destruct (rl_apply_run w L p Ms len ch lc oo _ ops R Hinv Hok (rl_next_new L p Hok Hc') extra) as (w' & Ms' & len' & ch' & Hr & R' & Hs & Hinv').
  exists w', Ms', len', ch'. split_and!; try done. by rewrite join_of_app.
Qed.

(** The loop over the queue ends within its fuel, and leaves nothing that
    could be applied. *)
Lemma rl_notify_run fuel L Q w lo Ms len ch :
  rl_partly L Q w (Some lo) Ms len ch → (length Q < fuel)%nat →
  ∃ w' L' Q' Ms' len' ch', rl_notify_iter fuel key lo lc w = Done () w' ∧ rl_partly L' Q' w' (Some lo) Ms' len' ch' ∧ rl_stuck L' Q' ∧ same_server w w'.
Proof.
  revert L Q w Ms len ch. induction fuel as [|fuel IH]; intros L Q w Ms len ch [Hp Hc R Hinv] Hf; [lia|]. cbn [rl_notify_iter].
  pose proof R as (ptrs & hd & R0 & _). mstep (load_ops _ _ _ _ _ _ _ _ _ _ R0 lo eq_refl). mstep (load_current _ _ _ _ _ _ _ _ _ _ R0).
  destruct (take_ready_spec (join_of rl_clk c0 L) (rl_wire <$> Q)) as [[Ht Hst]|(l1 & x & l2 & Hops & Ht & Hx)].
  { intros x (p & -> & Hq)%list_elem_of_fmap. apply (rl_ready L Q); [done|]. destruct HD as (H & _). rewrite Forall_forall in H. apply H.
    rewrite <- Hp. apply elem_of_app. by right. }
  - rewrite Ht. erewrite bind_Done by done. exists w, L, Q, Ms, len, ch. split_and!; [done|by split| |done]. exact (proj1 (Forall_fmap _ _ _) Hst).
  - rewrite Ht. erewrite bind_Done by done. cbv beta iota. apply fmap_app_inv in Hops as (Q1 & Q2' & -> & HQ2 & ->).
    symmetry in HQ2. apply fmap_cons_inv in HQ2 as (p & Q2 & -> & -> & ->).
    destruct (rl_partly_apply L (Q1 ++ Q2) p (rl_wire <$> (Q1 ++ p :: Q2)) w (Some lo) Ms len ch []) as (w1 & Ms1 & len1 & ch1 & Hr & Hp1 & Hc1 & R1 & Hinv1 & Hs1);
      [rewrite <- Hp; by rewrite (Permutation_middle Q1 Q2 p)|done|done|done|done|]. rewrite app_nil_r in Hr. mstep Hr.
    destruct R1 as (ptrs1 & hd1 & R1 & Hch1). destruct (store_ops _ _ _ _ _ _ _ _ _ _ R1 lo ((rl_wire <$> Q1) ++ (rl_wire <$> Q2)) eq_refl) as (w2 & Hst & R2 & Hs2).
    mstep Hst. destruct (IH (L ++ [p]) (Q1 ++ Q2) w2 Ms1 len1 ch1) as (w' & L' & Q' & Ms' & len' & ch' & Hrun & HP & Hstk & Hs');
      [split; [done|done| |done]|rewrite length_app in *; simpl in Hf; lia|].
    + exists ptrs1, hd1. by rewrite fmap_app.
    + exists w', L', Q', Ms', len', ch'. split_and!; [done..|]. etrans; [exact Hs1|]. by etrans.
Qed.

Lemma rl_notifyLoop_run L Q w oo Ms len ch :
  rl_partly L Q w oo Ms len ch →
  ∃ w' L' Q' lo Ms' len' ch', rl_notifyLoop key w = Done () w' ∧ rl_partly L' Q' w' (Some lo) Ms' len' ch' ∧ rl_stuck L' Q' ∧ same_server w w'.
Proof.
  intros [Hp Hc (ptrs & hd & R & Hch) Hinv]. destruct (getOps_run _ _ _ _ _ _ _ _ _ _ R) as (w1 & lo & Hg & R1 & Hs1).
  destruct (rl_notify_run (S (length (rl_wire <$> Q))) L Q w1 lo Ms len ch) as (w' & L' & Q' & Ms' & len' & ch' & Hr & HP & Hst & Hs').
  - split; [done|done|by exists ptrs, hd|done].
  - rewrite length_fmap. lia.
  - exists w', L', Q', lo, Ms', len', ch'. split; [|split; [done|split; [done|by etrans]]].
    unfold rl_notifyLoop. mstep Hg. mstep (getCurrent_known _ _ _ _ _ _ _ _ _ _ R1). mstep (load_ops _ _ _ _ _ _ _ _ _ _ R1 lo eq_refl). exact Hr.
Qed.
End queue.

(** ** The effect phase *)

Definition rl_name (k : rl_cmd_type) : sds := match k with RLADD => "rlinsert" | RLUPDATE => "rlupdate" | RLREM => "rlrem" end.

Definition rl_message (p : rl_item) : list sds :=
  rl_name (cmd_type p.2) :: rl_argv key p ++ [default "" (vcToSds (cmd_t p.2))].

(** A list that has received [hist]: [L] is applied, the rest waits. *)
Definition rl_at w (hist L : list rl_item) : Prop :=
  ∃ Q oc oo Ms len ch, L ++ Q ≡ₚ hist ∧ causal rl_clk (vc_new w) L ∧ rl_stuck (vc_new w) L Q ∧ (hist ≠ [] → is_Some oc) ∧
    rl_state w Ms len ch oc oo (join_of rl_clk (vc_new w) L) (rl_wire <$> Q) ∧ rl_inv idof textof L Ms len ch.

Lemma rl_state_client w Ms len ch oc oo c ops cl : rl_state w Ms len ch oc oo c ops → rl_state (set_client cl w) Ms len ch oc oo c ops.
Proof using Type. intros (ptrs & hd & [[] []] & Hch). exists ptrs, hd. split; [|done]. by split; split. Qed.

Section effect.
Context w (hist : list rl_item) p (r : rargs) (Hw : w_p2p_count w = n) (Hpos : 0 < n) (Hok : rl_ok n idof textof (hist ++ [p])).
Context (Hr : rargv (w_client w) = Some r) (Hargs : r_args r = rl_message p).

Lemma rl_effect_start Ms len ch oc oo c ops :
  rl_state w Ms len ch oc oo c ops →
  ∃ w1 w2 lc, CR_GET_LAST w = Done (cmd_t p.2) w ∧ rarg 1 w = Done key w ∧ get_list_ht key true w = Done key w1 ∧
    getCurrent key w1 = Done lc w2 ∧ load lc w2 = Done c w2 ∧ rl_state w2 Ms len ch (Some lc) oo c ops ∧ same_server w w2.
Proof.
  intros (ptrs & hd & R & Hch). destruct (get_ht_run _ _ _ _ _ _ _ _ _ _ R) as (w1 & H1 & R1 & Hs1 & h & Hh).
  destruct (getCurrent_run _ _ _ _ _ _ _ _ _ _ h R1 Hh) as (w2 & lc & H2 & R2 & Hs2). exists w1, w2, lc.
  destruct (rl_p_ok _ _ _ _ _ Hok) as (_ & Hwire & _). destruct (vcToSds_roundtrip _ Hwire) as (st & Hst & Ht).
  split_and!; [|apply (rarg_spec w r); [done|]|done|done|exact (load_current _ _ _ _ _ _ _ _ _ _ R2)|by exists ptrs, hd|by etrans].
  - apply (CR_GET_LAST_spec w r st); [done| |done]. rewrite Hargs. unfold rl_message. rewrite Hst, app_comm_cons. by rewrite last_snoc.
  - rewrite Hargs. unfold rl_message, rl_argv. by destruct (cmd_value p.2).
Qed.

(** After applying an update the message is rewritten. *)
Lemma rl_lower_run w1 :
  rargv (w_client w1) = Some r →
  ∃ w2, match cmd_type p.2 with RLUPDATE => s ← rarg 3; rarg_set 3 (sdstolower s) | _ => mret () end w1 = Done () w2 ∧
    same_client w1 w2 ∧ ∃ cl, w2 = set_client cl w1.
Proof.
  intros Hr1. assert (w1 = set_client (w_client w1) w1) as Hid by (by destruct w1).
  destruct (cmd_type p.2) eqn:Hk; [exists w1; split; [done|]; split; [done|by eexists]| |exists w1; split; [done|]; split; [done|by eexists]].
  assert (∃ s, r_args r !! 3%nat = Some s) as [s H3].
  { pose proof (rl_op_fits _ _ _ _ (rl_p_ok _ _ _ _ _ Hok)) as Hfit. unfold rl_fits in Hfit. rewrite Hk in Hfit.
    rewrite Hargs. unfold rl_message, rl_argv. destruct (cmd_value p.2); try done. by eexists. }
  mstep (rarg_spec w1 r 3 s Hr1 H3). unfold rarg_set. rewrite Hr1. eexists. split; [done|]. split; [done|by eexists].
Qed.

(** A ready operation, and what it makes ready. *)
Lemma rl_effect_now w2 L Q lc oo Ms len ch :
  same_server w w2 → rl_partly (vc_new w) hist lc L Q w2 oo Ms len ch → causally_next (join_of rl_clk (vc_new w) L) (cmd_t p.2) →
  ∃ w' L', (args ← rargs_from 1;
    rl_apply key (mkCmd (cmd_type p.2) args (cmd_t p.2));;
    match cmd_type p.2 with RLUPDATE => s ← rarg 3; rarg_set 3 (sdstolower s) | _ => mret () end;;
    rl_notifyLoop key) w2 = Done () w' ∧ same_client w w' ∧ rl_at w' (hist ++ [p]) L'.
Proof.
  intros Hs2 [Hp Hc R Hinv] Hx. assert (rargv (w_client w2) = Some r) as Hr2 by (injection Hs2; congruence).
  assert (vsize (vc_new w) = n) as Hsz by (unfold vc_new; rewrite Hw; apply vsize_vc_new; lia).
  pose proof (int32_vc_new (w_p2p_count w) (w_p2p_id w)) as Hi. fold (vc_new w) in Hi.
  assert (rargs_from 1 w2 = Done (rl_argv key p ++ [default "" (vcToSds (cmd_t p.2))]) w2) as Hfrom by (unfold rargs_from; by rewrite Hr2, Hargs).
  mstep Hfrom.
  destruct (rl_partly_apply (vc_new w) Hsz Hi (hist ++ [p]) Hok lc L Q p (rl_wire <$> Q) w2 oo Ms len ch [default "" (vcToSds (cmd_t p.2))])
    as (w3 & Ms3 & len3 & ch3 & Hr3 & Hp3 & Hc3 & R3 & Hinv3 & Hs3); [|done..|].
  { rewrite <- Hp, <- app_assoc. f_equiv. by rewrite Permutation_app_comm. }
  mstep Hr3. destruct (rl_lower_run w3) as (w4 & Hl & Hs4 & cl & ->); [injection Hs3; congruence|]. mstep Hl.
  destruct (rl_notifyLoop_run (vc_new w) Hsz Hi (hist ++ [p]) Hok lc (L ++ [p]) Q (set_client cl w3) oo Ms3 len3 ch3)
    as (w' & L' & Q' & lo & Ms' & len' & ch' & Hr' & [Hp' Hc' R' Hinv'] & Hst' & Hs'); [split; [done|done|by apply rl_state_client|done]|].
  assert (same_client w w') as Hsc.
  { unfold same_client in *. unfold same_server in *. injection Hs2. injection Hs3. injection Hs4. injection Hs'. intros. congruence. }
  exists w', L'. split_and!; [done..|]. exists Q', (Some lc), (Some lo), Ms', len', ch'. rewrite (proj1 (same_client_at w w' Hsc)). done.
Qed.

(** An operation that has to wait. *)
Lemma rl_effect_later w2 L Q lc oo Ms len ch :
  same_server w w2 → rl_partly (vc_new w) hist lc L Q w2 oo Ms len ch → rl_stuck (vc_new w) L Q →
  ¬ causally_next (join_of rl_clk (vc_new w) L) (cmd_t p.2) →
  ∃ w', (args ← rargs_from 0;
    ops ← getOps key;
    l ← load ops;
    store ops (l ++ [rl_cmdNew (cmd_type p.2) args (cmd_t p.2)])) w2 = Done () w' ∧ same_client w w' ∧ rl_at w' (hist ++ [p]) L.
Proof.
  intros Hs2 [Hp Hc (ptrs & hd & R & Hch) Hinv] Hst Hx. assert (rargv (w_client w2) = Some r) as Hr2 by (injection Hs2; congruence).
  assert (rargs_from 0 w2 = Done (rl_message p) w2) as Hfrom by (unfold rargs_from; by rewrite Hr2, Hargs). mstep Hfrom.
  destruct (getOps_run _ _ _ _ _ _ _ _ _ _ R) as (w3 & lo & Hg & R3 & Hs3). mstep Hg. mstep (load_ops _ _ _ _ _ _ _ _ _ _ R3 lo eq_refl).
  assert (rl_cmdNew (cmd_type p.2) (rl_message p) (cmd_t p.2) = rl_wire p) as ->.
  { unfold rl_cmdNew, rl_wire, rl_message. f_equal. cbn [length drop]. rewrite length_app. cbn [length].
    replace (S (length (rl_argv key p) + 1) - 2)%nat with (length (rl_argv key p)) by lia. apply take_app_length. }
  destruct (store_ops _ _ _ _ _ _ _ _ _ _ R3 lo ((rl_wire <$> Q) ++ [rl_wire p]) eq_refl) as (w4 & Hw4 & R4 & Hs4).
  assert (same_client w w4) as Hsc.
  { unfold same_client, same_server in *. injection Hs2. injection Hs3. injection Hs4. intros. congruence. }
  exists w4. split_and!; [done..|]. exists (Q ++ [p]), (Some lc), (Some lo), Ms, len, ch. rewrite (proj1 (same_client_at w w4 Hsc)).
  split_and!; [by rewrite app_assoc, Hp|done| |done| |done].
  - apply Forall_app. split; [done|by apply Forall_singleton].
  - exists ptrs, hd. by rewrite fmap_app.
Qed.

Lemma rl_effect_run L :
  rl_at w hist L → ∃ w' L', rl_effect (cmd_type p.2) w = Done () w' ∧ same_client w w' ∧ rl_at w' (hist ++ [p]) L'.
Proof.
  intros (Q & oc & oo & Ms & len & ch & Hp & Hc & Hst & _ & R & Hinv).
  destruct (rl_effect_start _ _ _ _ _ _ _ R) as (w1 & w2 & lc & H1 & H2 & H3 & H4 & H5 & R2 & Hs2).
  assert (vsize (vc_new w) = n) as Hsz by (unfold vc_new; rewrite Hw; apply vsize_vc_new; lia).
  pose proof (int32_vc_new (w_p2p_count w) (w_p2p_id w)) as Hi. fold (vc_new w) in Hi.
  destruct (rl_ready (vc_new w) Hsz Hi (hist ++ [p]) Hok L (Q ++ [p]) p) as (b & Hb & Hiff); [by rewrite app_assoc, Hp|by eapply rl_p_ok|].
  unfold rl_effect. mstep H1. mstep H2. mstep H3. mstep H4. mstep H5. rewrite Hb. erewrite (bind_Done (orfault Assertion (Some b)) _ w2 b w2) by done.
  destruct b.
  - eapply (rl_effect_now w2 L Q); [done|by split|by apply Hiff].
  - destruct (rl_effect_later w2 L Q lc oo Ms len ch) as (w' & Hr' & Hs' & Hat); [done|by split|done|by intros ?%Hiff|]. by exists w', L.
Qed.
End effect.
End world.
