(* ===== verification/Replicas.v ===== *)
(** * Replicas of one container

    A server that receives the effect messages of its peers, from the
    [processCommand] of a replica link down to the sorted set, and the read
    commands a client runs on it. *)

From S2P Require Import Prelude.
From S2P Require Import Sds.
From S2P Require Import VectorClock.
From S2P Require Import Double.
From S2P Require Import Entries.
From S2P Require Import Skiplist.
From S2P Require Import Zset.
From S2P Require Import ZsetRep.
From S2P Require Import Server.
From S2P Require Import Container.
From S2P Require Import P2p.

#[local] Open Scope Z_scope.

(** ** Delivery *)

(** A message arrives on the link from a peer. *)
Definition deliver (msg : list sds) (w : server) : fault + server :=
  match request true msg w with
  | inl f => inl f
  | inr (w', _) => inr w'
  end.

Fixpoint deliver_all (msgs : list (list sds)) (w : server) : fault + server :=
  match msgs with
  | [] => inr w
  | msg :: msgs' => match deliver msg w with inl f => inl f | inr w' => deliver_all msgs' w' end
  end.

(** The replies to a client. *)
Definition ask (args : list sds) (w : server) : fault + list reply :=
  match request false args w with
  | inl f => inl f
  | inr (w', _) => inr (c_reply (w_client w'))
  end.

(** The name is in the table and the number of arguments fits. *)
Definition accepts (args : list sds) (proc : command) : Prop :=
  ∃ name rest arity, args = name :: rest ∧ lookupCommand name = Some (proc, arity) ∧
    ((0 <? arity) && negb (arity =? Z.of_nat (length args))) || (Z.of_nat (length args) <? - arity) = false.

(** The client of a replica link while its command runs. *)
Definition link_client (args : list sds) : client :=
  mkClient args (Some (mkRargs args (Z.of_nat (length args)))) true false [].

Lemma request_accepts replica args proc w :
  accepts args proc → request replica args w = call proc (set_client (new_client replica args) w).
Proof.
  intros (name & rest & arity & -> & Hl & Ha). unfold request, processCommand. cbn [w_client set_client argv new_client].
  rewrite Hl. unfold argc. cbn [argv new_client]. by rewrite Ha.
Qed.

(** A replica link runs the effect phase only; the phase may rewrite the
    message it was given. *)
Lemma deliver_effect_client args prep eff w w1 :
  accepts args (crdt_command prep eff) → w_p2p_count w ≠ 0 →
  eff (set_client (link_client args) w) = Done () w1 → set_rargv None (w_client w1) = new_client true args →
  deliver args w = inr (set_client (new_client true args) w1).
Proof.
  intros Hacc Hp Heff Hc. unfold deliver. rewrite (request_accepts true args _ w Hacc).
  unfold call. cbn [w_client set_client new_client c_replica]. unfold run, crdt_command.
  unfold get. erewrite bind_Done by done. cbn [w_client set_client c_replica w_replicas w_p2p_count set_rargv].
  rewrite (proj2 (Z.eqb_neq _ _) Hp), orb_true_r.
  erewrite bind_Done by done. erewrite bind_Done by exact Heff. erewrite bind_Done by done.
  assert (c_message (w_client w1) = false) as -> by (by injection Hc).
  unfold mret, M_ret. by rewrite Hc.
Qed.

Lemma deliver_effect args prep eff w w1 :
  accepts args (crdt_command prep eff) → w_p2p_count w ≠ 0 →
  eff (set_client (link_client args) w) = Done () w1 → w_client w1 = link_client args →
  deliver args w = inr (set_client (new_client true args) w1).
Proof. intros Hacc Hp Heff Hc. eapply deliver_effect_client; [done..|]. by rewrite Hc. Qed.

(** ** Containers do not depend on the client *)

Lemma cont_set_client {A} `{!Stored cell A} sfx (w : server) key ptrs (Ms : gmap sds A) o c :
  cont sfx w key ptrs Ms o → cont sfx (set_client c w) key ptrs Ms o.
Proof. intros []. by split. Qed.

(** ** Read commands *)

Section reads.
Context {A : Type} `{!Stored cell A} (sfx : sds).
Implicit Types (w : server) (Ms : gmap sds A).

(** A read command of a client only queues replies. *)
Lemma ask_run args proc w rs :
  accepts args proc →
  proc (set_client (new_client false args) w)
    = Done () (set_client (mkClient args None false false rs) w) ∨
  proc (set_client (new_client false args) w)
    = Return (set_client (mkClient args None false false rs) w) →
  ask args w = inr rs.
Proof.
  intros Hacc Hrun. unfold ask. rewrite (request_accepts false args _ w Hacc). unfold call.
  cbn [w_client set_client new_client c_replica]. unfold run. by destruct Hrun as [->| ->].
Qed.

Lemma contains_reply w key ptrs Ms o ele name :
  cont sfx w key ptrs Ms o → accepts [name; key; ele] containsCommand →
  ask [name; key; ele] w = inr [match o with
                                | None => RNull
                                | Some m => RBool (bool_decide (is_Some (m !! ele)))
                                end].
Proof.
  intros C Hacc. eapply ask_run; [done|]. pose proof (c_zset _ _ _ _ _ _ C) as Hz.
  unfold containsCommand, read_zset, lookupKey, arg, addReply, mbind, M_bind. simpl.
  destruct o as [m|]; [destruct Hz as (z & Hz & Hrep)|]; rewrite Hz; simpl; [left|by right].
  rewrite (zsetScore_spec z m ele Hrep). simpl. by destruct (m !! ele).
Qed.

Lemma size_reply w key ptrs Ms o name :
  cont sfx w key ptrs Ms o → accepts [name; key] sizeCommand →
  ask [name; key] w = inr [match o with
                           | None => REmptyArray
                           | Some m => RInt (Z.of_nat (size m))
                           end].
Proof.
  intros C Hacc. eapply ask_run; [done|]. pose proof (c_zset _ _ _ _ _ _ C) as Hz.
  unfold sizeCommand, read_zset, lookupKey, arg, addReply, mbind, M_bind. simpl.
  destruct o as [m|]; [destruct Hz as (z & Hz & Hrep)|]; rewrite Hz; simpl; [left|by right].
  by rewrite (zsetLength_spec z m Hrep).
Qed.

Lemma score_reply w key ptrs Ms o ele name :
  cont sfx w key ptrs Ms o → accepts [name; key; ele] scoreCommand →
  ask [name; key; ele] w = inr [match default ∅ o !! ele with Some d => RDouble d | None => RNull end].
Proof.
  intros C Hacc. eapply ask_run; [done|]. pose proof (c_zset _ _ _ _ _ _ C) as Hz.
  unfold scoreCommand, read_zset, lookupKey, arg, addReply, mbind, M_bind. simpl.
  destruct o as [m|]; [destruct Hz as (z & Hz & Hrep)|]; rewrite Hz; simpl; [left|by right].
  by rewrite (zsetScore_spec z m ele Hrep).
Qed.
Lemma max_reply w key ptrs Ms o name :
  cont sfx w key ptrs Ms o → accepts [name; key] maxCommand →
  let m := default ∅ o in
  (m = ∅ ∧ ask [name; key] w = inr [REmptyArray]) ∨
  ∃ p, ask [name; key] w = inr [RArrayLen 2; RBulk p.1; RDouble p.2] ∧
    m !! p.1 = Some p.2 ∧ ∀ e s, m !! e = Some s → e ≠ p.1 → plt (s, e) (p.2, p.1).
Proof.
  intros C Hacc m. pose proof (c_zset _ _ _ _ _ _ C) as Hz.
  assert (∀ rs, maxCommand (set_client (new_client false [name; key]) w)
      = Done () (set_client (mkClient [name; key] None false false rs) w) ∨
    maxCommand (set_client (new_client false [name; key]) w)
      = Return (set_client (mkClient [name; key] None false false rs) w) → ask [name; key] w = inr rs) as Hask
    by (intros rs; by apply ask_run).
  revert Hask. unfold maxCommand, read_zset, lookupKey, arg, addReply, mbind, M_bind. simpl. intros Hask.
  destruct o as [m'|]; [destruct Hz as (z & Hz & Hrep)|]; rewrite Hz in Hask; simpl in *.
  - pose proof (zset_last_spec z m' Hrep) as Hlast. rewrite (zsetLength_spec z m' Hrep) in Hask.
    destruct (zset_last z) as [p|] eqn:Hp.
    + right. exists p. split; [|done]. apply Hask. left.
      destruct (Z.eqb_spec (Z.of_nat (size m')) 0) as [H0|]; [|done].
      assert (size m' = 0%nat) as H0' by lia. apply map_size_empty_inv in H0' as ->.
      destruct Hlast as [Hl _]. by rewrite lookup_empty in Hl.
    + left. split; [done|]. apply Hask. left. by rewrite Hlast, map_size_empty.
  - left. split; [done|]. apply Hask. by right.
Qed.
End reads.

(** ** Comparing priority queues *)

(** Equal scores: the same element, and doubles that compare equal. *)
Definition same_score (o1 o2 : option double) : Prop :=
  match o1, o2 with
  | Some s1, Some s2 => dkey s1 = dkey s2
  | None, None => True
  | _, _ => False
  end.

Definition same_reply (r1 r2 : reply) : Prop :=
  match r1, r2 with
  | RDouble d1, RDouble d2 => dkey d1 = dkey d2
  | _, _ => r1 = r2
  end.

(** The greatest entries of maps with the same scores. *)
Lemma same_max (m1 m2 : gmap sds double) p1 p2 :
  (∀ e, same_score (m1 !! e) (m2 !! e)) →
  m1 !! p1.1 = Some p1.2 → (∀ e s, m1 !! e = Some s → e ≠ p1.1 → plt (s, e) (p1.2, p1.1)) →
  m2 !! p2.1 = Some p2.2 → (∀ e s, m2 !! e = Some s → e ≠ p2.1 → plt (s, e) (p2.2, p2.1)) →
  p1.1 = p2.1 ∧ dkey p1.2 = dkey p2.2.
Proof.
  intros Hs H1 M1 H2 M2. pose proof (Hs p1.1) as Hs1. pose proof (Hs p2.1) as Hs2.
  rewrite H1 in Hs1. rewrite H2 in Hs2. destruct (decide (p1.1 = p2.1)) as [Heq|Hne].
  - split; [done|]. rewrite Heq, H2 in Hs1. exact Hs1.
  - exfalso. destruct (m2 !! p1.1) as [a|] eqn:Ha; [|done]. destruct (m1 !! p2.1) as [b|] eqn:Hb; [|done].
    simpl in Hs1, Hs2. specialize (M2 _ _ Ha Hne). specialize (M1 _ _ Hb (not_eq_sym Hne)).
    unfold plt in M1, M2. simpl in M1, M2. rewrite <- Hs1 in M2. rewrite Hs2 in M1.
    eapply (plt_irrefl (p1.2, p1.1)), (plt_trans _ (p2.2, p2.1)); unfold plt; simpl; eassumption.
Qed.

Lemma same_score_reply o1 o2 :
  same_score o1 o2 →
  same_reply (match o1 with Some d => RDouble d | None => RNull end)
    (match o2 with Some d => RDouble d | None => RNull end).
Proof. by destruct o1, o2. Qed.

(** Containers with the same scores answer alike. *)
Lemma same_replies {A} `{!Stored cell A} sfx (w1 w2 : server) key ptrs1 ptrs2 (Ms1 Ms2 : gmap sds A) o1 o2 score max :
  cont sfx w1 key ptrs1 Ms1 o1 → cont sfx w2 key ptrs2 Ms2 o2 →
  (∀ ele, same_score (default ∅ o1 !! ele) (default ∅ o2 !! ele)) →
  (∀ ele, accepts [score; key; ele] scoreCommand) → accepts [max; key] maxCommand →
  (∀ ele, ∃ r1 r2, ask [score; key; ele] w1 = inr [r1] ∧ ask [score; key; ele] w2 = inr [r2] ∧ same_reply r1 r2) ∧
  ∃ rs1 rs2, ask [max; key] w1 = inr rs1 ∧ ask [max; key] w2 = inr rs2 ∧ Forall2 same_reply rs1 rs2.
Proof.
  intros C1 C2 Hs Hsc Hmx. split.
  - intros ele. eexists _, _. split_and!; [by rewrite (score_reply _ w1 key ptrs1 Ms1 o1 ele score C1)
      |by rewrite (score_reply _ w2 key ptrs2 Ms2 o2 ele score C2)|]. apply same_score_reply, Hs.
  - destruct (max_reply _ w1 key ptrs1 Ms1 o1 max C1 Hmx) as [[He1 ->]|(p1 & -> & Hp1 & Hm1)];
      destruct (max_reply _ w2 key ptrs2 Ms2 o2 max C2 Hmx) as [[He2 ->]|(p2 & -> & Hp2 & Hm2)];
      eexists _, _; (split_and!; [done|done|]).
    + by constructor.
    + exfalso. specialize (Hs p2.1). rewrite He1, Hp2, lookup_empty in Hs. done.
    + exfalso. specialize (Hs p1.1). rewrite He2, Hp1, lookup_empty in Hs. done.
    + destruct (same_max _ _ p1 p2 Hs Hp1 Hm1 Hp2 Hm2) as [He Hk]. rewrite He. by repeat constructor.
Qed.

(** ** Replicated types

    What a data type promises about its effect messages: items [H] of a
    history travel as messages, and running the effect phase of one takes a
    container that agrees with a history to one that agrees with the history
    extended by it.  [r_inv c hist (Ms, o)] is that agreement, for a server
    whose zero clock is [c]. *)
Class Replicated (A H : Type) `{!Stored cell A} := {
  r_suffix : sds;
  r_suffix_ne : Suffix r_suffix;
  r_message : sds → H → list sds;
  r_ok : Z → list H → Prop;
  r_ok_app n hist hist' : r_ok n (hist ++ hist') → r_ok n hist;
  r_inv : vc → list H → gmap sds A * option (gmap sds double) → Prop;
  r_init c : r_inv c [] (∅, None);
  r_prepare : H → command;
  r_effect : H → command;
  r_accepts key p : accepts (r_message key p) (crdt_command (r_prepare p) (r_effect p));
  r_step key hist p (w : server) r ptrs Ms o :
    cont r_suffix w key ptrs Ms o → rargv (w_client w) = Some r → r_args r = r_message key p →
    r_inv (vc_new w) hist (Ms, o) → r_ok (w_p2p_count w) (hist ++ [p]) →
    ∃ w' ptrs' s', r_effect p w = Done () w' ∧ cont r_suffix w' key ptrs' s'.1 s'.2 ∧
      steps r_suffix key w ptrs w' ptrs' ∧ r_inv (vc_new w) (hist ++ [p]) s'
}.
#[global] Existing Instance r_suffix_ne.

Section replicated.
Context {A H : Type} `{!Stored cell A} `{!Replicated A H}.
Implicit Types (w : server) (hist : list H).

(** A server that has processed the history [hist] of the container [key]. *)
Definition replica (n i : Z) (key : sds) hist w : Prop :=
  w_p2p_count w = n ∧ w_p2p_id w = i ∧
  ∃ ptrs Ms o, cont r_suffix w key ptrs Ms o ∧ r_inv (_vc_new n i) hist (Ms, o).

Lemma replica_init n i key conf rnd : replica n i key [] (init_server n i conf rnd).
Proof.
  split_and!; [done..|]. exists ∅, ∅, None. split; [|apply r_init]. split; try done.
  right. split; [|done]. apply lookup_empty.
Qed.

Lemma replica_deliver n i key hist p w :
  n ≠ 0 → replica n i key hist w → r_ok n (hist ++ [p]) →
  ∃ w', deliver (r_message key p) w = inr w' ∧ replica n i key (hist ++ [p]) w'.
Proof.
  intros Hn (Hcount & Hid & ptrs & Ms & o & C & Hinv) Hh.
  set (w0 := set_client (link_client (r_message key p)) w).
  destruct (r_step key hist p w0 (mkRargs (r_message key p) (Z.of_nat (length (r_message key p)))) ptrs Ms o) as (w1 & ptrs1 & s' & Heff & C1 & S1 & Hinv1).
  - by apply cont_set_client.
  - done.
  - done.
  - unfold vc_new. simpl. by rewrite Hcount, Hid.
  - simpl. by rewrite Hcount.
  - destruct (steps_client _ _ _ _ _ _ S1) as (_ & Hcount1 & Hid1 & _ & Hcl). simpl in *.
    exists (set_client (new_client true (r_message key p)) w1). split.
    + apply (deliver_effect _ _ _ w w1 (r_accepts key p)); [by rewrite Hcount|done|done].
    + split_and!; simpl; [congruence..|]. exists ptrs1, s'.1, s'.2. split; [by apply cont_set_client|].
      unfold vc_new in Hinv1. simpl in Hinv1. rewrite Hcount, Hid in Hinv1. by destruct s'.
Qed.

Lemma replica_deliver_all n i key hist hist' w :
  n ≠ 0 → replica n i key hist w → r_ok n (hist ++ hist') →
  ∃ w', deliver_all (r_message key <$> hist') w = inr w' ∧ replica n i key (hist ++ hist') w'.
Proof.
  intros Hn. revert hist w. induction hist' as [|p hist' IH]; intros hist w Hw Hh.
  { exists w. by rewrite app_nil_r. }
  assert (r_ok n ((hist ++ [p]) ++ hist')) as Hh' by (by rewrite <- app_assoc).
  destruct (replica_deliver n i key hist p w Hn Hw (r_ok_app _ _ _ Hh')) as (w1 & Hd & Hw1).
  destruct (IH (hist ++ [p]) w1 Hw1 Hh') as (w' & Hd' & Hw').
  exists w'. simpl. rewrite Hd. split; [done|]. by rewrite <- app_assoc in Hw'.
Qed.

(** From the start. *)
Lemma replica_run n i key conf rnd hist :
  n ≠ 0 → r_ok n hist →
  ∃ w, deliver_all (r_message key <$> hist) (init_server n i conf rnd) = inr w ∧ replica n i key hist w.
Proof. intros Hn Hh. by apply (replica_deliver_all n i key [] hist); [|apply replica_init|..]. Qed.
End replicated.

(** ** Sequences of messages and replies *)

Lemma deliver_all_app ms ms' w :
  deliver_all (ms ++ ms') w = match deliver_all ms w with inl f => inl f | inr w' => deliver_all ms' w' end.
Proof. revert w. induction ms as [|m ms IH]; intros w; [done|]. simpl. by destruct (deliver m w). Qed.

(** A server that has replied [rs] to its client. *)
Definition said (args : list sds) (rs : list reply) (w : server) : server := set_client (mkClient args None false false rs) w.
