(* ===== verification/Framework.v ===== *)
(** * What every command respects

    Properties of the whole command table, whatever the state of the server:
    [evolves] relates a server to a later state of it, and every command is a
    step of it.  From it follow that replication links stay silent and that
    the keyspace keeps its types; the error paths that stop a command before
    it has done anything are settled for all writing commands at once. *)

From S2P Require Import Prelude.
From S2P Require Import Sds.
From S2P Require Import VectorClock.
From S2P Require Import LamportClock.
From S2P Require Import Skiplist.
From S2P Require Import Zset.
From S2P Require Import Server.
From S2P Require Import Container.
From S2P Require Import Rwf.
From S2P Require Import Rwfset.
From S2P Require Import Rwfzset.
From S2P Require Import TagSet.
From S2P Require Import Oset.
From S2P Require Import Ozset.
From S2P Require Import RemoveWin.
From S2P Require Import Rset.
From S2P Require Import Rzset.
From S2P Require Import ListBasics.
From S2P Require Import Rlist.
From S2P Require Import Rwflist.
From S2P Require Import P2p.
From S2P Require Import Replicas.

#[local] Open Scope Z_scope.

(** ** Later states of a server *)

(** A replication link that is not in the middle of a message. *)
Definition silent (c : client) : bool := c_replica c && negb (c_message c).

(** The place of the server, its keys with their types, its structs. *)
Record later (w w' : server) : Prop := {
  la_setup : (w_replicas w', w_p2p_count w', w_p2p_id w', w_conf w')
             = (w_replicas w, w_p2p_count w, w_p2p_id w, w_conf w);
  la_type k o : w_db w !! k = Some o → ∃ o', w_db w' !! k = Some o' ∧ robj_type o' = robj_type o;
  la_heap l : is_Some (w_heap w !! l) → is_Some (w_heap w' !! l)
}.

#[global] Instance later_preorder : PreOrder later.
Proof.
  split.
  - intros w. split; eauto.
  - intros w1 w2 w3 [A1 B1 C1] [A2 B2 C2]. split; [congruence| |auto].
    intros k o Ho. destruct (B1 k o Ho) as (o1 & Ho1 & Ht1). destruct (B2 k o1 Ho1) as (o2 & Ho2 & Ht2).
    exists o2. split; [done|congruence].
Qed.

Record evolves (w w' : server) : Prop := {
  ev_later : later w w';
  ev_flags : c_replica (w_client w') = c_replica (w_client w) ∧ c_message (w_client w') = c_message (w_client w);
  ev_reply : ∃ rs, c_reply (w_client w') = c_reply (w_client w) ++ rs ∧ (silent (w_client w) = true → rs = [])
}.

#[global] Instance evolves_preorder : PreOrder evolves.
Proof.
  split.
  - intros w. split; [done|done|]. exists []. by rewrite app_nil_r.
  - intros w1 w2 w3 [A1 [D1 D1'] (rs1 & E1 & F1)] [A2 [D2 D2'] (rs2 & E2 & F2)]. split; [by etrans|split; congruence|].
    exists (rs1 ++ rs2). rewrite E2, E1, app_assoc. split; [done|]. intros Hs. rewrite F1, F2; [done| |done].
    unfold silent in *. by rewrite D1, D1'.
Qed.

(** The command takes the server to a later state, however it ends. *)
Definition keeps {A} (m : M cell A) : Prop :=
  ∀ w, match m w with Done _ w' | Return w' => evolves w w' | Fault _ => True end.

Create HintDb keeps.

Lemma keeps_bind {A B} (m : M cell A) (k : A → M cell B) : keeps m → (∀ a, keeps (k a)) → keeps (m ≫= k).
Proof.
  intros Hm Hk w. specialize (Hm w). unfold mbind, M_bind. destruct (m w) as [a w1|w1|f]; [|done..].
  specialize (Hk a w1). destruct (k a w1); [by etrans..|done].
Qed.

(** A command that reads only. *)
Lemma keeps_read {A} (f : server → outcome cell A) :
  (∀ w, match f w with Done _ w' | Return w' => w' = w | Fault _ => True end) → keeps f.
Proof. intros Hf w. specialize (Hf w). by destruct (f w); subst. Qed.

Lemma keeps_mret {A} (a : A) : keeps (mret a).
Proof. by apply keeps_read. Qed.
Lemma keeps_creturn {A} : keeps (creturn (A := A)).
Proof. by apply keeps_read. Qed.
Lemma keeps_cfault {A} f : keeps (cfault (A := A) f).
Proof. by apply keeps_read. Qed.
Lemma keeps_get : keeps get.
Proof. by apply keeps_read. Qed.
Lemma keeps_orfault {A} f (o : option A) : keeps (orfault f o).
Proof. apply keeps_read. by destruct o. Qed.
Lemma keeps_arg i : keeps (arg i).
Proof. apply keeps_read. intros w. unfold arg. by destruct (argv _ !! i). Qed.
Lemma keeps_rarg i : keeps (rarg i).
Proof. apply keeps_read. intros w. unfold rarg. destruct (rargv _) as [r|]; [|done]. by destruct (r_args r !! i). Qed.
Lemma keeps_rargc : keeps rargc.
Proof. apply keeps_read. intros w. unfold rargc. by destruct (rargv _). Qed.
Lemma keeps_nth_arg l i : keeps (nth_arg l i).
Proof. apply keeps_orfault. Qed.
Lemma keeps_rargs_from i : keeps (rargs_from i).
Proof. apply keeps_read. intros w. unfold rargs_from. by destruct (rargv _). Qed.
Lemma keeps_lookupKey k : keeps (lookupKey k).
Proof. by apply keeps_read. Qed.
Lemma keeps_hashTypeGet ht f : keeps (hashTypeGetValueObject ht f).
Proof. apply keeps_read. intros w. unfold hashTypeGetValueObject. by destruct (w_db w !! ht) as [[]|]. Qed.
Lemma keeps_load {A} `{!Stored cell A} e : keeps (load (A := A) e).
Proof. apply keeps_read. intros w. unfold load. destruct (w_heap w !! e) as [c|]; [|done]. by destruct (of_cell c). Qed.

(** *** Commands that write *)

(** Only the arguments or the reply queue of the client change. *)
Lemma evolves_client (w : server) c rs :
  c_replica c = c_replica (w_client w) → c_message c = c_message (w_client w) →
  c_reply c = c_reply (w_client w) ++ rs → (silent (w_client w) = true → rs = []) → evolves w (set_client c w).
Proof. intros ? ? ? ?. split; [by split; eauto|done|by exists rs]. Qed.

Lemma evolves_args (w : server) c :
  c_replica c = c_replica (w_client w) → c_message c = c_message (w_client w) →
  c_reply c = c_reply (w_client w) → evolves w (set_client c w).
Proof. intros ? ? Hr. by apply (evolves_client w c []); [..|rewrite app_nil_r|]. Qed.

(** The client does not change. *)
Lemma evolves_later (w w' : server) : later w w' → w_client w' = w_client w → evolves w w'.
Proof. intros Hl Hc. split; [done|by rewrite Hc|]. exists []. by rewrite Hc, app_nil_r. Qed.

Lemma evolves_db (w : server) k o :
  (∀ o0, w_db w !! k = Some o0 → robj_type o = robj_type o0) → evolves w (set_db (<[k := o]> (w_db w)) w).
Proof.
  intros Ho. apply evolves_later; [|done]. split; [done| |done]. simpl.
  intros k' o' Hk'. destruct (decide (k = k')) as [<-|Hne].
  - exists o. rewrite lookup_insert_eq. auto.
  - exists o'. by rewrite lookup_insert_ne.
Qed.

Lemma evolves_heap (w : server) l c : evolves w (set_heap (<[l := c]> (w_heap w)) w).
Proof.
  apply evolves_later; [|done]. split; [done|by eauto|]. simpl.
  intros l' Hl'. destruct (decide (l = l')) as [<-|Hne]; [rewrite lookup_insert_eq; by eexists|by rewrite lookup_insert_ne].
Qed.

Lemma evolves_rnd (w : server) r : evolves w (set_rnd r w).
Proof. apply evolves_later; [|done]. by split; eauto. Qed.

Lemma keeps_addReply r : keeps (addReply r).
Proof.
  intros w. unfold addReply. fold (silent (w_client w)). destruct (silent (w_client w)) eqn:Hs; [done|].
  by apply (evolves_client w _ [r]); [..|rewrite Hs].
Qed.
Lemma keeps_dirty_inc : keeps dirty_inc.
Proof. intros w. apply evolves_later; [|done]. by split; eauto. Qed.
Lemma keeps_arg_set i s : keeps (arg_set i s).
Proof. intros w. by apply evolves_args. Qed.
Lemma keeps_rarg_set i s : keeps (rarg_set i s).
Proof. intros w. unfold rarg_set. destruct (rargv _); [by apply evolves_args|done]. Qed.
Lemma keeps_INIT_RARGV : keeps INIT_RARGV.
Proof. intros w. by apply evolves_args. Qed.
Lemma keeps_RARGV_ADD_SDS s : keeps (RARGV_ADD_SDS s).
Proof. intros w. unfold RARGV_ADD_SDS. destruct (rargv_add _ s); [by apply evolves_args|done]. Qed.
Lemma keeps_dbAdd k o : keeps (dbAdd k o).
Proof. intros w. unfold dbAdd. destruct (w_db w !! k) eqn:Hk; [done|]. apply evolves_db. congruence. Qed.
Lemma keeps_hashTypeSet ht f v : keeps (hashTypeSet ht f v).
Proof.
  intros w. unfold hashTypeSet. destruct (w_db w !! ht) as [[]|] eqn:Hk; try done. apply evolves_db. rewrite Hk. by intros o0 [= <-].
Qed.
Lemma keeps_zset_add zset s ele : keeps (zset_add zset s ele).
Proof.
  intros w. unfold zset_add. destruct (w_db w !! zset) as [[]|] eqn:Hk; try done. destruct (zsetAdd _ _ _ _ _ _); [|done].
  etrans; [|apply evolves_rnd]. apply evolves_db. rewrite Hk. by intros o0 [= <-].
Qed.
Lemma keeps_zset_del zset ele : keeps (zset_del zset ele).
Proof.
  intros w. unfold zset_del. destruct (w_db w !! zset) as [[]|] eqn:Hk; try done. destruct (zsetDel _ _) as [[]|]; [|done].
  apply evolves_db. rewrite Hk. by intros o0 [= <-].
Qed.
Lemma keeps_store {A} `{!Stored cell A} e (a : A) : keeps (store e a).
Proof. intros w. apply evolves_heap. Qed.
Lemma keeps_alloc {A} `{!Stored cell A} (a : A) : keeps (alloc a).
Proof. intros w. apply evolves_heap. Qed.

#[export] Hint Resolve keeps_mret keeps_creturn keeps_cfault keeps_get keeps_orfault keeps_arg keeps_rarg keeps_rargc
  keeps_nth_arg keeps_rargs_from keeps_lookupKey keeps_hashTypeGet keeps_load keeps_addReply keeps_dirty_inc
  keeps_arg_set keeps_rarg_set keeps_INIT_RARGV keeps_RARGV_ADD_SDS keeps_dbAdd keeps_hashTypeSet keeps_zset_add
  keeps_zset_del keeps_store keeps_alloc : keeps.

(** Walk through the body of a command: binds, branches, and the lemma of
    every operation it calls. *)
Ltac keeps_body :=
  intros; cbv beta zeta;
  first
    [ solve [eauto 2 with keeps]
    | lazymatch goal with
      | |- keeps (_ ≫= _) => apply keeps_bind; [|intros ?]
      | |- keeps (match ?x with _ => _ end) => destruct x
      end ].

Ltac keeps := repeat keeps_body.

(** *** The framework *)

Lemma keeps_CHECK_ARGC max : keeps (CHECK_ARGC max).
Proof.
  intros w. unfold CHECK_ARGC. destruct (_ || _); [|done].
  assert (keeps (A := ()) (addReply RSyntaxErr ≫= λ _, creturn)) as Hk by keeps. apply Hk.
Qed.
Lemma keeps_CHECK_CONTAINER_TYPE type : keeps (CHECK_CONTAINER_TYPE type).
Proof. unfold CHECK_CONTAINER_TYPE. keeps. Qed.
Lemma keeps_CHECK_ARG_TYPE_INT i : keeps (CHECK_ARG_TYPE_INT i).
Proof. unfold CHECK_ARG_TYPE_INT. keeps. Qed.
Lemma keeps_CHECK_ARG_TYPE_DOUBLE i : keeps (CHECK_ARG_TYPE_DOUBLE i).
Proof. unfold CHECK_ARG_TYPE_DOUBLE. keeps. Qed.
Lemma keeps_getInnerHT name sfx create : keeps (getInnerHT name sfx create).
Proof. unfold getInnerHT. keeps. Qed.
#[export] Hint Resolve keeps_CHECK_ARGC keeps_CHECK_CONTAINER_TYPE keeps_CHECK_ARG_TYPE_INT keeps_CHECK_ARG_TYPE_DOUBLE
  keeps_getInnerHT : keeps.
Lemma keeps_rehHTGet {A} `{!Stored cell A} name sfx key create (new : server → A) : keeps (rehHTGet name sfx key create new).
Proof. unfold rehHTGet. keeps. Qed.
Lemma keeps_getZsetOrCreate name ele : keeps (getZsetOrCreate name ele).
Proof. unfold getZsetOrCreate. keeps. Qed.
Lemma keeps_read_zset r : keeps (read_zset r).
Proof. unfold read_zset. keeps. Qed.
#[export] Hint Resolve keeps_rehHTGet keeps_getZsetOrCreate keeps_read_zset : keeps.
Lemma keeps_reply_each {A} (f : A → M cell sds) l : (∀ a, keeps (f a)) → keeps (reply_each f l).
Proof. intros Hf. induction l; simpl; keeps. Qed.
Lemma keeps_crdt_command prep eff : keeps prep → keeps eff → keeps (crdt_command prep eff).
Proof. intros Hp He. unfold crdt_command. keeps. Qed.
Lemma keeps_containsCommand : keeps containsCommand.
Proof. unfold containsCommand. keeps. Qed.
Lemma keeps_sizeCommand : keeps sizeCommand.
Proof. unfold sizeCommand. keeps. Qed.
Lemma keeps_scoreCommand : keeps scoreCommand.
Proof. unfold scoreCommand. keeps. Qed.
Lemma keeps_maxCommand : keeps maxCommand.
Proof. unfold maxCommand. keeps. Qed.
Lemma keeps_PREPARE_PRECOND_ADD e : keeps (PREPARE_PRECOND_ADD e).
Proof. unfold PREPARE_PRECOND_ADD. keeps. Qed.
Lemma keeps_PREPARE_PRECOND_NON_ADD e : keeps (PREPARE_PRECOND_NON_ADD e).
Proof. unfold PREPARE_PRECOND_NON_ADD. keeps. Qed.
Lemma keeps_ADD_CR_NON_RMV h : keeps (ADD_CR_NON_RMV h).
Proof. unfold ADD_CR_NON_RMV. keeps. Qed.
Lemma keeps_ADD_CR_RMV h : keeps (ADD_CR_RMV h).
Proof. unfold ADD_CR_RMV. keeps. Qed.
Lemma keeps_CR_GET n : keeps (CR_GET n).
Proof. unfold CR_GET. keeps. Qed.
#[export] Hint Resolve keeps_CR_GET : keeps.
Lemma keeps_CR_GET_LAST : keeps CR_GET_LAST.
Proof. unfold CR_GET_LAST. keeps. Qed.
#[export] Hint Resolve keeps_reply_each keeps_crdt_command keeps_containsCommand keeps_sizeCommand keeps_scoreCommand
  keeps_maxCommand keeps_PREPARE_PRECOND_ADD keeps_PREPARE_PRECOND_NON_ADD keeps_ADD_CR_NON_RMV keeps_ADD_CR_RMV
  keeps_CR_GET_LAST : keeps.

(** *** The data types *)

#[export] Hint Unfold GET_RWFSE get_header SCORE removeFunc rwfsadd_prepare rwfsadd_effect rwfsrem_prepare rwfsrem_effect
  GET_RWFZE zf_get_header rwfz_removeFunc rwfz_publish rwfzadd_prepare rwfzadd_effect rwfzincrby_prepare rwfzincrby_effect
  rwfzrem_prepare rwfzrem_effect GET_OSE os_publish osadd_prepare osadd_effect osrem_prepare osrem_effect
  GET_OZE oz_publish ozadd_prepare ozadd_effect oz_prepare_tags ozincrby_prepare ozincrby_effect ozrem_prepare ozrem_effect
  oz_aseToSds oz_reply_pointer ozestatusCommand run_act GET_RZE rzadd_prepare rz_effect rzadd_effect rz_prepare_now
  rzincrby_prepare rzincrby_effect rzrem_prepare rzrem_effect rz_aseToSds rz_cmdToSds rzestatusCommand rwfzestatusCommand
  GET_LIST_HT get_list_ht getHead setHead getCurrent getLen incrLen lenCommand reply_element
  GET_RLE rl_set_sets rl_set_next getOps rl_tick rl_link insertFunc updateFunc rl_removeFunc rl_apply rl_notifyLoop rl_effect
  rl_current RARGV_ADD_NOW rl_pos_of rl_neighbours rl_check_pre rlinsert_prepare rl_prepare_nonadd rlupdate_prepare rlrem_prepare
  GET_RWFLE lf_get_header lf_set_next rwfl_removeFunc lf_link rwfl_insert_args rwflinsert_effect rwfl_check_pre lf_pos_of
  lf_neighbours rwfl_new_id rwflinsert_prepare rwflupdate_prepare rwflupdate_effect rwflrem_prepare rwflrem_effect
  rllistCommand rwfllistCommand
  ozaddCommand ozincrbyCommand ozremCommand ozscoreCommand ozmaxCommand rzaddCommand rzincrbyCommand rzremCommand
  rzscoreCommand rzmaxCommand rwfzaddCommand rwfzincrbyCommand rwfzremCommand rwfzscoreCommand rwfzmaxCommand
  rwfsaddCommand rwfsremCommand rwfscontainsCommand rwfssizeCommand osaddCommand osremCommand oscontainsCommand
  ossizeCommand rlinsertCommand rlupdateCommand rlremCommand rllenCommand rwflinsertCommand rwflupdateCommand
  rwflremCommand rwfllenCommand : keeps.

Ltac keeps_all := repeat first [keeps_body | apply keeps_crdt_command | apply keeps_reply_each | progress autounfold with keeps].

Lemma keeps_get_tags l : keeps (get_tags l).
Proof. induction l; simpl; keeps. Qed.
Lemma keeps_RARGV_ADD_TAGS l : keeps (RARGV_ADD_TAGS l).
Proof. induction l; simpl; keeps. Qed.
Lemma keeps_run_acts key ele acts : keeps (run_acts key ele acts).
Proof. induction acts; simpl; keeps_all. Qed.
Lemma keeps_heap_fuel : keeps heap_fuel.
Proof. by apply keeps_read. Qed.
Lemma keeps_lf_heap_fuel : keeps lf_heap_fuel.
Proof. by apply keeps_read. Qed.
Lemma keeps_rl_walk fuel id p : keeps (rl_walk fuel id p).
Proof. revert p. induction fuel; simpl; keeps. Qed.
Lemma keeps_lf_walk fuel id p : keeps (lf_walk fuel id p).
Proof. revert p. induction fuel; simpl; keeps. Qed.
#[export] Hint Resolve keeps_get_tags keeps_RARGV_ADD_TAGS keeps_run_acts keeps_heap_fuel keeps_lf_heap_fuel keeps_rl_walk
  keeps_lf_walk : keeps.
Lemma keeps_rl_apply ht c : keeps (rl_apply ht c).
Proof. keeps_all. Qed.
#[export] Hint Resolve keeps_rl_apply : keeps.
Lemma keeps_rl_notify_iter fuel ht ops cur : keeps (rl_notify_iter fuel ht ops cur).
Proof. induction fuel; simpl; keeps. Qed.
Lemma keeps_reply_element o c a : keeps (reply_element o c a).
Proof. keeps_all. Qed.
#[export] Hint Resolve keeps_rl_notify_iter keeps_reply_element : keeps.
Lemma keeps_rl_reply_chain fuel e : keeps (rl_reply_chain fuel e).
Proof. revert e. induction fuel; intros []; simpl; keeps. Qed.
Lemma keeps_lf_reply_chain fuel e : keeps (lf_reply_chain fuel e).
Proof. revert e. induction fuel; intros []; simpl; keeps. Qed.
#[export] Hint Resolve keeps_rl_reply_chain keeps_lf_reply_chain : keeps.

(** Every command of the table. *)
Lemma table_keeps : Forall (λ p, keeps p.1.2) redisCommandTable.
Proof.
  unfold redisCommandTable. repeat (apply Forall_cons; split; [cbn [fst snd]; keeps_all|]). by apply Forall_nil.
Qed.

Lemma lookup_table_in name t proc arity :
  lookup_table name t = Some (proc, arity) → ∃ n, (n, proc, arity) ∈ t ∧ n = name.
Proof.
  induction t as [|[[n p] a] t IH]; simpl; [done|]. destruct (String.eqb_spec n name) as [->|_].
  - intros [= -> ->]. exists name. split; [by left|done].
  - intros (n' & Hn' & ->)%IH. exists name. split; [by right|done].
Qed.

Lemma lookupCommand_keeps name proc arity : lookupCommand name = Some (proc, arity) → keeps proc.
Proof.
  intros (n & Hn & _)%lookup_table_in. pose proof table_keeps as Ht. rewrite Forall_forall in Ht. exact (Ht _ Hn).
Qed.

Lemma run_keeps (m : command) w w' : keeps m → run m w = inr w' → evolves w w'.
Proof. intros Hm. specialize (Hm w). unfold run. destruct (m w); [by intros [= <-]..|done]. Qed.

Lemma call_evolves proc w w' msg :
  keeps proc → call proc w = inr (w', msg) →
  evolves w w' ∧ rargv (w_client w') = None ∧ (c_replica (w_client w) = true → msg = None).
Proof.
  intros Hk. unfold call. set (w1 := if c_replica (w_client w) then _ else _).
  assert (evolves w w1) as H1 by (unfold w1; destruct (c_replica _); [by apply evolves_args|done]).
  destruct (run proc w1) as [f|w2] eqn:Hrun; [done|]. intros [= <- <-]. split_and!; [|done|by intros ->].
  etrans; [exact H1|]. etrans; [by apply (run_keeps proc)|]. by apply evolves_args.
Qed.

Lemma processCommand_evolves w w' msg :
  processCommand w = inr (w', msg) → evolves w w' ∧ (c_replica (w_client w) = true → msg = None).
Proof.
  unfold processCommand. destruct (argv (w_client w)) as [|name args]; [done|].
  assert (∀ r, match run (addReply r) w with inl f => inl f | inr w' => inr (w', None) end = inr (w', msg) →
    evolves w w' ∧ (c_replica (w_client w) = true → msg = None)) as Herr.
  { intros r. destruct (run (addReply r) w) eqn:Hr; [done|]. intros [= <- <-]. split; [|done].
    eapply run_keeps; [|exact Hr]. auto with keeps. }
  destruct (lookupCommand name) as [[proc arity]|] eqn:Hl; [|apply Herr]. destruct (_ || _); [apply Herr|].
  intros Hc. destruct (call_evolves proc w w' msg (lookupCommand_keeps _ _ _ Hl) Hc) as (? & _ & ?). done.
Qed.

(** ** Commands that write *)

(** Name, number of arguments and type of the container. *)
Definition writers : list (sds * Z * Z) := [
  ("ozadd", 4, OBJ_ZSET); ("ozincrby", 4, OBJ_ZSET); ("ozrem", 3, OBJ_ZSET);
  ("rzadd", 4, OBJ_ZSET); ("rzincrby", 4, OBJ_ZSET); ("rzrem", 3, OBJ_ZSET);
  ("rwfzadd", 4, OBJ_ZSET); ("rwfzincrby", 4, OBJ_ZSET); ("rwfzrem", 3, OBJ_ZSET);
  ("rwfsadd", 3, OBJ_ZSET); ("rwfsrem", 3, OBJ_ZSET); ("osadd", 3, OBJ_ZSET); ("osrem", 3, OBJ_ZSET);
  ("rsadd", 3, OBJ_ZSET); ("rsrem", 3, OBJ_ZSET);
  ("rlinsert", 9, OBJ_HASH); ("rlupdate", 5, OBJ_HASH); ("rlrem", 3, OBJ_HASH);
  ("rwflinsert", 9, OBJ_HASH); ("rwflupdate", 5, OBJ_HASH); ("rwflrem", 3, OBJ_HASH)
].

(** The prepare phase starts with the checks of arguments and container. *)
Definition guarded (k type : Z) (proc : command) : Prop :=
  ∃ rest eff, proc = crdt_command (CHECK_ARGC k;; CHECK_CONTAINER_TYPE type;; rest) eff.

Lemma writers_guarded name k type :
  (name, k, type) ∈ writers → 2 ≤ k ∧ ∃ proc, lookupCommand name = Some (proc, - k) ∧ guarded k type proc.
Proof.
  intros Hin. pose (P := λ p : sds * Z * Z, 2 ≤ p.1.2 ∧ ∃ proc, lookupCommand p.1.1 = Some (proc, - p.1.2) ∧ guarded p.1.2 p.2 proc).
  assert (Forall P writers) as H; [|rewrite Forall_forall in H; exact (H _ Hin)].
  unfold writers. repeat (apply Forall_cons; split; [split; [cbn; lia|eexists; split; [reflexivity|by eexists _, _]]|]).
  by apply Forall_nil.
Qed.

(** A request answered by [r], with nothing else changed and nothing sent to
    the peers. *)
Definition refused (args : list sds) (w : server) (r : reply) : Prop :=
  request false args w = inr (set_client (mkClient args None false false [r]) w, None).

Lemma refused_run args proc arity w r :
  head args ≫= lookupCommand = Some (proc, arity) →
  ((0 <? arity) && negb (arity =? Z.of_nat (length args))) || (Z.of_nat (length args) <? - arity) = false →
  run proc (set_client (new_client false args) w) = inr (set_client (mkClient args None false false [r]) w) →
  refused args w r.
Proof.
  intros Hl Ha Hrun. unfold refused, request, processCommand, argc. destruct args as [|name args]; [done|]. simpl in Hl.
  cbn [w_client set_client new_client argv]. rewrite Hl, Ha. unfold call. cbn [w_client set_client new_client c_replica].
  by rewrite Hrun.
Qed.

(** The prepare phase of a client's request ends in an error. *)
Lemma crdt_prepare_return prep eff (w w' : server) :
  (w_replicas w ≠ 0 ∨ w_p2p_count w ≠ 0) → c_replica (w_client w) = false → prep w = Return w' →
  run (crdt_command prep eff) w = inr w'.
Proof.
  intros Hr Hc Hp. unfold run, crdt_command, get. erewrite bind_Done by done. rewrite Hc. cbn [negb].
  assert (negb (w_replicas w =? 0) || negb (w_p2p_count w =? 0) = true) as ->.
  { destruct Hr as [Hr|Hr]; rewrite (proj2 (Z.eqb_neq _ _) Hr); [done|by rewrite orb_true_r]. }
  rewrite (bind_Return _ _ _ w'); [done|]. by apply bind_Return.
Qed.

(** ** Steps of the network *)

Lemma request_later b args (w w' : server) m : request b args w = inr (w', m) → later w w'.
Proof. intros [[[H1 H2 H3] _ _] _]%processCommand_evolves. by split. Qed.

(** A step changes one server at most, by a request. *)
Lemma net_step_later ev N N' i w :
  net_step ev N = Some (inr N') → n_servers N !! i = Some w → ∃ w', n_servers N' !! i = Some w' ∧ later w w'.
Proof.
  assert (∀ j b args (wj wj' : server) m, n_servers N !! j = Some wj → request b args wj = inr (wj', m) →
    n_servers N !! i = Some w → ∃ w', <[j := wj']> (n_servers N) !! i = Some w' ∧ later w w') as Hone.
  { intros j b args wj wj' m Hj Hq Hw. destruct (decide (j = i)) as [->|Hne].
    - exists wj'. rewrite lookup_insert_eq. split; [done|]. simplify_eq. by eapply request_later.
    - exists w. by rewrite lookup_insert_ne. }
  destruct ev as [j args|a j]; simpl; intros Hs Hw; (destruct (n_servers N !! j) as [wj|] eqn:Hj; [|done]); simpl in Hs.
  - destruct (request false args wj) as [|[wj' msg]] eqn:Hq; [done|]. injection Hs as <-.
    destruct (Hone _ _ _ _ _ _ Hj Hq Hw) as (w' & ? & ?). exists w'. by destruct msg.
  - destruct (link a j N) as [|msg rest]; [done|]. destruct (request true msg wj) as [|[wj' m]] eqn:Hq; [done|].
    injection Hs as <-. by eapply Hone.
Qed.

(** Runs of CRDT commands and deliveries: a server keeps its place, its number
    of peers and its settings, no key disappears or changes the type of its
    value, and no metadata struct is freed. *)
Lemma net_run_later evs N N' i w :
  net_run evs N = Some (inr N') → n_servers N !! i = Some w → ∃ w', n_servers N' !! i = Some w' ∧ later w w'.
Proof.
  revert N w. induction evs as [|ev evs IH]; intros N w Hrun Hw; simpl in Hrun; [injection Hrun as <-; by exists w|].
  destruct (net_step ev N) as [[f|N1]|] eqn:Hs; [done| |done]. simpl in Hrun.
  destruct (net_step_later ev N N1 i w Hs Hw) as (w1 & Hw1 & H1). destruct (IH N1 w1 Hrun Hw1) as (w' & Hw' & H2).
  exists w'. split; [done|by etrans].
Qed.

(** ** Properties *)

(** C37: A replication link is silent.  Of the CRDT commands that a peer sends on
    a connection marked as a replica, none is broadcast again, however the
    connection was marked; and unless the connection also has the flag
    CLIENT_REPLICA_MESSAGE, which only [repltest] with two arguments leaves set,
    the server answers none of them, errors included. *)
Theorem link_silent c msg (w w' : server) m :
  c_replica c = true → request_by c msg w = inr (w', m) → m = None ∧ (c_message c = false → c_reply (w_client w') = []).
Proof.
  intros Hc [[_ _ (rs & Hrs & Hnil)] Hm]%processCommand_evolves. split; [by apply Hm|].
  intros Hmsg. rewrite Hrs, Hnil; [done|]. unfold silent. simpl. by rewrite Hc, Hmsg.
Qed.

Lemma link_silent_witness :
  ∃ w', request_by (new_client true []) ["rwfsadd"; "s"; "5"; "0,0|1"] (init_server 2 1 (mkZconf 128 64) []) = inr (w', None) ∧ c_reply (w_client w') = [].
Proof.
  set (c := new_client true []). set (args := ["rwfsadd"; "s"; "5"; "0,0|1"]). set (w := init_server 2 1 (mkZconf 128 64) []).
  assert (match request_by c args w with inr _ => true | _ => false end = true) as H by (vm_compute; reflexivity).
  destruct (request_by c args w) as [f|[w' m]] eqn:Hr; [discriminate H|].
  destruct (link_silent c args w w' m eq_refl Hr) as [-> Hw]. exists w'. exact (conj eq_refl (Hw eq_refl)).
Defined.

(** C38: The error paths of the writing commands.  Each takes a fixed number of
    arguments.  With fewer the server says so; with more, on a server with
    peers, it answers with a syntax error; on a key that holds another type,
    with a type error; on a server without peers, that it is not replicated.
    In every case the reply is all that happens: keyspace, structs and random
    state are as before, and nothing is sent to the peers. *)
Theorem writers_refuse name k type args key (w : server) o :
  (name, k, type) ∈ writers → args !! 0%nat = Some name → args !! 1%nat = Some key →
  let n := Z.of_nat (length args) in
  let peers := w_replicas w ≠ 0 ∨ w_p2p_count w ≠ 0 in
  (n < k → refused args w (RError "wrong number of arguments")) ∧
  (k < n → peers → refused args w RSyntaxErr) ∧
  (n = k → peers → w_db w !! key = Some o → robj_type o ≠ type → refused args w RWrongType) ∧
  (k ≤ n → ¬ peers → refused args w RNotRepl).
Proof.
  intros Hin Hname Hkey n peers. destruct (writers_guarded name k type Hin) as (Hk & proc & Hl & rest & eff & ->).
  destruct args as [|name' args]; [done|]. injection Hname as ->.
  assert (k ≤ n → ((0 <? - k) && negb (- k =? n)) || (n <? - - k) = false) as Har.
  { intros Hle. rewrite (proj2 (Z.ltb_ge _ _)), (proj2 (Z.ltb_ge n _)) by lia. done. }
  split_and!.
  - intros Hlt. unfold refused, request, processCommand, argc. cbn [w_client set_client new_client argv]. rewrite Hl.
    fold n. rewrite (proj2 (Z.ltb_lt n _)), orb_true_r by lia. done.
  - intros Hlt Hp. eapply (refused_run _ _ (- k)); [exact Hl|apply Har; lia|]. apply crdt_prepare_return; [done|done|].
    apply bind_Return. unfold CHECK_ARGC, argc. cbn [w_client set_client new_client argv]. fold n.
    by rewrite (proj2 (Z.ltb_lt k n)) by lia.
  - intros Hn Hp Ho Ht. eapply (refused_run _ _ (- k)); [exact Hl|apply Har; lia|]. apply crdt_prepare_return; [done|done|].
    erewrite bind_Done.
    2: { unfold CHECK_ARGC, argc. cbn [w_client set_client new_client argv]. fold n. rewrite !(proj2 (Z.ltb_ge _ _)) by lia. done. }
    apply bind_Return. unfold CHECK_CONTAINER_TYPE. mstep (arg_spec (set_client (new_client false (name :: args)) w) 1 key Hkey).
    unfold lookupKey. erewrite bind_Done by done. cbn [w_db set_client]. rewrite Ho, (proj2 (Z.eqb_neq _ _) Ht). done.
  - intros Hle Hp. eapply (refused_run _ _ (- k)); [exact Hl|by apply Har|]. unfold run, crdt_command, get. erewrite bind_Done by done.
    cbn [w_replicas w_p2p_count set_client]. destruct (Z.eqb_spec (w_replicas w) 0); [|by destruct Hp; left].
    destruct (Z.eqb_spec (w_p2p_count w) 0); [done|by destruct Hp; right].
Qed.

(** A server that was never told of peers. *)
Definition lone_server : server := mkWorld ∅ ∅ 0 0 0 0 (mkZconf 128 64) [] (new_client false []).

Lemma writers_refuse_witness :
  let w := set_db {["k" := OHash ∅]} (init_server 2 1 (mkZconf 128 64) []) in
  refused ["osadd"; "k"] w (RError "wrong number of arguments") ∧ refused ["osadd"; "k"; "5"; "6"] w RSyntaxErr ∧
  refused ["osadd"; "k"; "5"] w RWrongType ∧ refused ["osadd"; "k"; "5"] lone_server RNotRepl.
Proof.
  intros w. assert (("osadd", 3, OBJ_ZSET) ∈ writers) as Hin by (apply (bool_decide_unpack _); vm_compute; exact I).
  split_and!.
  - apply (writers_refuse "osadd" 3 OBJ_ZSET ["osadd"; "k"] "k" w (OHash ∅) Hin eq_refl eq_refl). vm_compute. reflexivity.
  - apply (writers_refuse "osadd" 3 OBJ_ZSET ["osadd"; "k"; "5"; "6"] "k" w (OHash ∅) Hin eq_refl eq_refl);
      [vm_compute; reflexivity|right; discriminate].
  - apply (writers_refuse "osadd" 3 OBJ_ZSET ["osadd"; "k"; "5"] "k" w (OHash ∅) Hin eq_refl eq_refl);
      [reflexivity|right; discriminate|reflexivity|discriminate].
  - apply (writers_refuse "osadd" 3 OBJ_ZSET ["osadd"; "k"; "5"] "k" lone_server (OHash ∅) Hin eq_refl eq_refl);
      [vm_compute; discriminate|]. intros [H|H]; apply H; reflexivity.
Defined.


