(* ===== verification/Network.v ===== *)
(** * Replicated containers on the network

    Servers joined by first-in-first-out links run client commands on one
    container and deliver each other's messages, in any interleaving.  The
    generic part of the argument that they converge: at every server, the
    operations processed and the operations on their way to it are together
    the operations issued so far. *)

From S2P Require Import Prelude.
From S2P Require Import Sds.
From S2P Require Import VectorClock.
From S2P Require Import Double.
From S2P Require Import Skiplist.
From S2P Require Import Zset.
From S2P Require Import Server.
From S2P Require Import Container.
From S2P Require Import P2p.
From S2P Require Import Replicas.

#[local] Open Scope Z_scope.

(** ** Links *)

Lemma lookup_broadcast i peers msg links a b :
  NoDup peers →
  default [] (replicationBroadcast i peers msg links !! (a, b))
  = default [] (links !! (a, b)) ++ (if decide (a = i ∧ b ∈ peers ∧ b ≠ i) then [msg] else []).
Proof.
  induction 1 as [|j peers Hj Hnd IH]; simpl.
  { rewrite decide_False by (by intros (_ & ?%elem_of_nil & _)). by rewrite app_nil_r. }
  destruct (decide (i = j)) as [<-|Hne].
  - rewrite IH. f_equal. apply decide_ext. rewrite elem_of_cons. naive_solver.
  - destruct (decide ((a, b) = (i, j))) as [[= -> ->]|Hab].
    + rewrite lookup_insert_eq. simpl. rewrite IH, decide_False by naive_solver. rewrite app_nil_r.
      rewrite decide_True by (rewrite elem_of_cons; auto). done.
    + rewrite lookup_insert_ne by congruence. rewrite IH. f_equal. apply decide_ext. rewrite elem_of_cons. naive_solver.
Qed.

Lemma concat_update {B} (f g : nat → list B) (l : list nat) i p :
  NoDup l → i ∈ l → (∀ k, k ≠ i → f k = g k) → f i ≡ₚ p :: g i →
  concat (f <$> l) ≡ₚ p :: concat (g <$> l).
Proof.
  intros Hnd Hi Hne Heq. induction Hnd as [|k l Hk Hnd IH]; [by apply elem_of_nil in Hi|]. rewrite !fmap_cons. cbn [concat].
  apply elem_of_cons in Hi as [->|Hi].
  - assert (f <$> l = g <$> l) as ->; [|by rewrite Heq].
    apply list_fmap_ext. intros j x Hx. apply Hne. intros ->. apply Hk. by eapply list_elem_of_lookup_2.
  - rewrite IH by done. rewrite Hne by (intros ->; done). symmetry. apply Permutation_middle.
Qed.

Lemma concat_nil {B} (f : nat → list B) l : (∀ k, k ∈ l → f k = []) → concat (f <$> l) = [].
Proof.
  induction l as [|k l IH]; intros Hf; [done|]. rewrite fmap_cons. cbn [concat]. rewrite Hf by (by left). apply IH. intros j Hj. apply Hf. by right.
Qed.

(** ** Types whose operations are issued by client commands

    [i_ok n b p]: [p] is an operation of a system of [n] servers whose
    counters do not exceed [b].  A client command of [i_request] on a server
    either issues an operation, which is broadcast, or changes nothing that
    can be observed. *)
Class Issued (A H : Type) `{!Stored cell A, !Replicated A H} := {
  i_ok : Z → Z → H → Prop;
  i_limit : Z;
  i_mono n b b' p : b ≤ b' → i_ok n b p → i_ok n b' p;
  i_r_ok n b hist : 1 ≤ n ≤ 100 → b ≤ i_limit → Forall (i_ok n b) hist → r_ok n hist;
  i_request : sds → list sds → Prop;
  i_client key n i hist (w : server) b args :
    1 ≤ n ≤ 100 → 0 ≤ i < n → 0 ≤ b < i_limit → replica n i key hist w → Forall (i_ok n b) hist →
    Z.of_nat (length hist) ≤ b → i_request key args →
    ∃ w', (request false args w = inr (w', None) ∧ replica n i key hist w') ∨
      ∃ p, request false args w = inr (w', Some (r_message key p)) ∧
        replica n i key (hist ++ [p]) w' ∧ i_ok n (b + 1) p
}.

Section network.
Context {A H : Type} `{!Stored cell A, !Replicated A H, !Issued A H}.
Context (key : sds) (n : nat) (Hn : (1 ≤ n ≤ 100)%nat).
Implicit Types (N : net) (hs : nat → list H) (pend : nat → nat → list H) (G : list H).

Abbreviation zn := (Z.of_nat n).

(** What is on its way to a server. *)
Definition coming pend (j : nat) : list H := concat ((λ i, pend i j) <$> seq 0 n).

Record net_inv (b : Z) N hs pend G : Prop := {
  ni_dom i : is_Some (n_servers N !! i) ↔ (i < n)%nat;
  ni_replica i w : n_servers N !! i = Some w → replica zn (Z.of_nat i) key (hs i) w;
  ni_link i j : link i j N = r_message key <$> pend i j;
  ni_all j : (j < n)%nat → hs j ++ coming pend j ≡ₚ G;
  ni_ok : Forall (i_ok zn b) G;
  ni_len : Z.of_nat (length G) ≤ b
}.

(** Events on the container. *)
Definition event_ok (ev : event) : Prop :=
  match ev with
  | EClient i args => (i < n)%nat ∧ i_request key args
  | EDeliver i j => (i < n)%nat ∧ (j < n)%nat
  end.

Lemma net_inv_init conf : net_inv 0 (init_net n conf) (λ _, []) (λ _ _, []) [].
Proof.
  assert (∀ i, n_servers (init_net n conf) !! i = if decide (i < n)%nat then Some (init_server zn (Z.of_nat i) conf []) else None) as Hl.
  { intros i. simpl. case_decide as Hi.
    - apply elem_of_list_to_map_1.
      + rewrite <- list_fmap_compose. simpl. rewrite list_fmap_id. apply NoDup_seq.
      + apply list_elem_of_fmap. exists i. split; [done|]. apply elem_of_seq. lia.
    - apply not_elem_of_list_to_map_1. rewrite <- list_fmap_compose. simpl. rewrite list_fmap_id, elem_of_seq. lia. }
  split.
  - intros i. rewrite Hl. case_decide; [split; [done|by eexists]|]. split; [by intros []|done].
  - intros i w. rewrite Hl. case_decide; [|done]. intros [= <-]. apply replica_init.
  - done.
  - intros j Hj. unfold coming. rewrite concat_nil; done.
  - constructor.
  - done.
Qed.

(** Bookkeeping of an operation issued at [i]. *)
Definition issue_hs hs (i : nat) (p : H) : nat → list H := λ j, if decide (j = i) then hs j ++ [p] else hs j.
Definition issue_pend pend (i : nat) (p : H) : nat → nat → list H :=
  λ a b, if decide (a = i ∧ (b < n)%nat ∧ b ≠ i) then pend a b ++ [p] else pend a b.

Lemma coming_issue pend i p j :
  (i < n)%nat → (j < n)%nat → coming (issue_pend pend i p) j ≡ₚ (if decide (j = i) then [] else [p]) ++ coming pend j.
Proof.
  intros Hi Hj. unfold coming. destruct (decide (j = i)) as [->|Hne]; simpl.
  - assert ((λ a, issue_pend pend i p a i) <$> seq 0 n = (λ a, pend a i) <$> seq 0 n) as ->; [|done].
    apply list_fmap_ext. intros k a _. unfold issue_pend. by rewrite decide_False by naive_solver.
  - apply (concat_update _ _ _ i); [apply NoDup_seq|apply elem_of_seq; lia|..].
    + intros k Hk. unfold issue_pend. by rewrite decide_False by naive_solver.
    + unfold issue_pend. rewrite decide_True by done. symmetry. apply Permutation_cons_append.
Qed.

Lemma net_inv_issue b N hs pend G i w w' p :
  net_inv b N hs pend G → n_servers N !! i = Some w → replica zn (Z.of_nat i) key (hs i ++ [p]) w' →
  i_ok zn (b + 1) p →
  net_inv (b + 1) (broadcast i (Some (r_message key p)) (mkNet (<[i := w']> (n_servers N)) (n_links N)))
    (issue_hs hs i p) (issue_pend pend i p) (G ++ [p]).
Proof.
  intros [Hdom Hrep Hlink Hall Hok Hlen] Hw Hw' Hp.
  assert (i < n)%nat as Hi by (apply Hdom; by eexists).
  assert (∀ j, is_Some (<[i := w']> (n_servers N) !! j) ↔ (j < n)%nat) as Hdom'.
  { intros j. rewrite <- Hdom. destruct (decide (i = j)) as [<-|]; [rewrite lookup_insert_eq, Hw; split; by eexists|].
    by rewrite lookup_insert_ne. }
  split; simpl.
  - exact Hdom'.
  - intros j wj. unfold issue_hs. destruct (decide (i = j)) as [<-|Hne].
    + rewrite lookup_insert_eq, decide_True by done. by intros [= <-].
    + rewrite lookup_insert_ne, decide_False by done. apply Hrep.
  - intros a c. unfold link. simpl. rewrite lookup_broadcast by apply NoDup_elements.
    fold (link a c N). rewrite Hlink. unfold issue_pend.
    rewrite (decide_ext _ (a = i ∧ (c < n)%nat ∧ c ≠ i)) by (rewrite elem_of_elements, elem_of_dom, Hdom'; done).
    case_decide; [by rewrite fmap_app|by rewrite app_nil_r].
  - intros j Hj. rewrite coming_issue by done. unfold issue_hs. rewrite <- (Hall j Hj). destruct (decide (j = i)); simpl.
    + rewrite <- !app_assoc. apply Permutation_app_head, Permutation_app_comm.
    + rewrite <- app_assoc. apply Permutation_app_head, Permutation_cons_append.
  - apply Forall_app. split; [|by apply Forall_singleton]. eapply Forall_impl; [exact Hok|]. intros q. apply i_mono. lia.
  - rewrite length_app. simpl. lia.
Qed.

(** Bookkeeping of the delivery at [j] of the next operation from [i]. *)
Definition deliver_hs hs (j : nat) (p : H) : nat → list H := issue_hs hs j p.
Definition deliver_pend pend (i j : nat) (rest : list H) : nat → nat → list H :=
  λ a b, if decide ((a, b) = (i, j)) then rest else pend a b.

Lemma coming_deliver pend i j p rest k :
  (i < n)%nat → pend i j = p :: rest →
  coming pend k ≡ₚ (if decide (k = j) then [p] else []) ++ coming (deliver_pend pend i j rest) k.
Proof.
  intros Hi Hp. unfold coming. destruct (decide (k = j)) as [->|Hne]; simpl.
  - apply (concat_update _ _ _ i); [apply NoDup_seq|apply elem_of_seq; lia|..].
    + intros a Ha. unfold deliver_pend. by rewrite decide_False by congruence.
    + unfold deliver_pend. by rewrite decide_True, Hp.
  - assert ((λ a, pend a k) <$> seq 0 n = (λ a, deliver_pend pend i j rest a k) <$> seq 0 n) as ->; [|done].
    apply list_fmap_ext. intros ? a _. unfold deliver_pend. by rewrite decide_False by congruence.
Qed.

Lemma net_inv_deliver b N hs pend G i j w w' p rest :
  net_inv b N hs pend G → (i < n)%nat → n_servers N !! j = Some w → pend i j = p :: rest →
  replica zn (Z.of_nat j) key (hs j ++ [p]) w' →
  net_inv b (mkNet (<[j := w']> (n_servers N)) (<[(i, j) := r_message key <$> rest]> (n_links N)))
    (deliver_hs hs j p) (deliver_pend pend i j rest) G.
Proof.
  intros [Hdom Hrep Hlink Hall Hok Hlen] Hi Hw Hp Hw'. split; simpl.
  - intros k. rewrite <- Hdom. destruct (decide (j = k)) as [<-|]; [rewrite lookup_insert_eq, Hw; split; by eexists|].
    by rewrite lookup_insert_ne.
  - intros k wk. unfold deliver_hs, issue_hs. destruct (decide (j = k)) as [<-|Hne].
    + rewrite lookup_insert_eq, decide_True by done. by intros [= <-].
    + rewrite lookup_insert_ne, decide_False by done. apply Hrep.
  - intros a c. unfold link, deliver_pend. simpl. case_decide as Hd; [rewrite Hd; by rewrite lookup_insert_eq|].
    rewrite lookup_insert_ne by congruence. apply Hlink.
  - intros k Hk. rewrite <- (Hall k Hk), (coming_deliver pend i j p rest k) by done.
    unfold deliver_hs, issue_hs. destruct (decide (k = j)); simpl; [|done].
    by rewrite <- app_assoc.
  - done.
  - done.
Qed.

(** What is processed or coming was issued. *)
Lemma net_inv_sub b N hs pend G j l :
  net_inv b N hs pend G → (j < n)%nat → l ⊆ hs j ++ coming pend j → Forall (i_ok zn b) l.
Proof.
  intros [_ _ _ Hall Hok _] Hj Hl. apply Forall_forall. intros p Hp. rewrite Forall_forall in Hok. apply Hok.
  rewrite <- (Hall j Hj). by apply Hl.
Qed.

Lemma elem_of_coming pend i j p : (i < n)%nat → p ∈ pend i j → p ∈ coming pend j.
Proof.
  intros Hi Hp. unfold coming. apply list_elem_of_In, in_concat. exists (pend i j). split; [|by apply list_elem_of_In].
  apply list_elem_of_In, list_elem_of_fmap. exists i. split; [done|]. apply elem_of_seq. lia.
Qed.

(** No step faults, and every step keeps the invariant. *)
Lemma net_inv_step b N hs pend G ev r :
  net_inv b N hs pend G → 0 ≤ b < i_limit → event_ok ev → net_step ev N = Some r →
  ∃ N' hs' pend' G', r = inr N' ∧ net_inv (b + 1) N' hs' pend' G'.
Proof.
  intros Hinv Hb Hev Hstep. pose proof Hinv as [Hdom Hrep Hlink Hall Hok Hlen]. destruct ev as [i args|i j]; simpl in *.
  - destruct Hev as [Hi Hreq]. destruct (n_servers N !! i) as [w|] eqn:Hw; [|done]. simpl in Hstep.
    apply (inj Some) in Hstep as <-.
    destruct (i_client key zn (Z.of_nat i) (hs i) w b args) as (w' & [[-> Hw']|(p & -> & Hw' & Hp)]);
      [lia|lia|done|by apply Hrep| | |done|..].
    + eapply net_inv_sub; [done..|]. intros x Hx. apply elem_of_app. by left.
    + pose proof (Permutation_length (Hall i Hi)) as Hl. rewrite length_app in Hl. lia.
    + eexists _, hs, pend, G. split; [done|]. split; simpl.
      * intros k. rewrite <- Hdom. destruct (decide (i = k)) as [<-|]; [rewrite lookup_insert_eq, Hw; split; by eexists|].
        by rewrite lookup_insert_ne.
      * intros k wk. destruct (decide (i = k)) as [<-|]; [rewrite lookup_insert_eq; by intros [= <-]|].
        rewrite lookup_insert_ne by done. apply Hrep.
      * apply Hlink.
      * done.
      * eapply Forall_impl; [exact Hok|]. intros q. apply i_mono. lia.
      * lia.
    + eexists _, _, _, _. split; [done|]. by eapply net_inv_issue.
  - destruct Hev as [Hi Hj]. destruct (n_servers N !! j) as [w|] eqn:Hw; [|done]. simpl in Hstep. rewrite Hlink in Hstep.
    destruct (pend i j) as [|p rest] eqn:Hp; [done|]. simpl in Hstep. apply (inj Some) in Hstep as <-.
    destruct (replica_deliver zn (Z.of_nat j) key (hs j) p w) as (w' & Hd & Hw'); [lia|by apply Hrep| |].
    { apply (i_r_ok zn b); [lia|lia|]. eapply net_inv_sub; [done..|]. intros x [Hx|Hx%list_elem_of_singleton]%elem_of_app;
        apply elem_of_app; [by left|right]. subst x. apply (elem_of_coming _ i); [done|]. rewrite Hp. by left. }
    unfold deliver in Hd. destruct (request true (r_message key p) w) as [|[w1 ?]]; [done|]. injection Hd as ->.
    eexists _, _, _, G. split; [done|].
    pose proof (net_inv_deliver b N hs pend G i j w w' p rest Hinv Hi Hw Hp Hw') as [? ? ? ? Hok' ?].
    split; [done..| |lia]. eapply Forall_impl; [exact Hok'|]. intros q. apply i_mono. lia.
Qed.

Lemma net_inv_run evs b N hs pend G r :
  net_inv b N hs pend G → 0 ≤ b → b + Z.of_nat (length evs) ≤ i_limit → Forall event_ok evs → net_run evs N = Some r →
  ∃ N' hs' pend' G', r = inr N' ∧ net_inv (b + Z.of_nat (length evs)) N' hs' pend' G'.
Proof.
  revert b N hs pend G. induction evs as [|ev evs IH]; intros b N hs pend G Hinv Hb Hlim Hev Hrun; simpl in *.
  { injection Hrun as <-. exists N, hs, pend, G. split; [done|]. by rewrite Z.add_0_r. }
  apply Forall_cons in Hev as [Hev Hevs]. destruct (net_step ev N) as [r1|] eqn:Hs; [|done]. simpl in Hrun.
  destruct (net_inv_step b N hs pend G ev r1 Hinv ltac:(lia) Hev Hs) as (N1 & hs1 & pend1 & G1 & -> & Hinv1).
  destruct (IH (b + 1) N1 hs1 pend1 G1 Hinv1) as (N' & hs' & pend' & G' & -> & Hinv'); [lia|lia|done|done|].
  exists N', hs', pend', G'. split; [done|]. by replace (b + Z.of_nat (S (length evs))) with (b + 1 + Z.of_nat (length evs)) by lia.
Qed.

(** *** Quiescence *)

(** Nothing is on its way. *)
Definition quiet N : Prop := ∀ i j, (i < n)%nat → (j < n)%nat → link i j N = [].

Lemma quiet_same b N hs pend G i :
  net_inv b N hs pend G → quiet N → (i < n)%nat → hs i ≡ₚ G.
Proof.
  intros Hinv Hq Hi. rewrite <- (ni_all _ _ _ _ _ Hinv i Hi). unfold coming. rewrite concat_nil; [by rewrite app_nil_r|].
  intros k Hk%elem_of_seq. pose proof (Hq k i) as Hl. rewrite (ni_link _ _ _ _ _ Hinv) in Hl.
  apply (fmap_nil_inv (r_message key)), Hl; lia.
Qed.

Definition total pend : list H := concat (coming pend <$> seq 0 n).

Lemma total_deliver pend i j p rest :
  (i < n)%nat → (j < n)%nat → pend i j = p :: rest → total pend ≡ₚ p :: total (deliver_pend pend i j rest).
Proof.
  intros Hi Hj Hp. unfold total. apply (concat_update _ _ _ j); [apply NoDup_seq|apply elem_of_seq; lia|..].
  - intros k Hk. unfold coming. f_equal. apply list_fmap_ext. intros ? a _. unfold deliver_pend.
    by rewrite decide_False by congruence.
  - pose proof (coming_deliver pend i j p rest j Hi Hp) as Hc. by rewrite decide_True in Hc.
Qed.

Lemma total_nil pend i j : total pend = [] → (i < n)%nat → (j < n)%nat → pend i j = [].
Proof.
  intros Ht Hi Hj. destruct (pend i j) as [|p rest] eqn:Hp; [done|]. exfalso.
  pose proof (total_deliver pend i j p rest Hi Hj Hp) as Htd. rewrite Ht in Htd. by apply Permutation_nil_cons in Htd.
Qed.

Lemma total_cons pend : total pend ≠ [] → ∃ i j p rest, (i < n)%nat ∧ (j < n)%nat ∧ pend i j = p :: rest.
Proof.
  intros Ht. destruct (total pend) as [|p l] eqn:Hp; [done|].
  assert (In p (total pend)) as Hin by (rewrite Hp; by left).
  unfold total in Hin. apply in_concat in Hin as (l1 & Hl1 & Hin). apply list_elem_of_In, list_elem_of_fmap in Hl1 as (j & -> & Hj).
  unfold coming in Hin. apply in_concat in Hin as (l2 & Hl2 & Hin). apply list_elem_of_In, list_elem_of_fmap in Hl2 as (i & -> & Hi).
  apply elem_of_seq in Hi, Hj. exists i, j. destruct (pend i j) as [|q rest]; [done|]. exists q, rest. split_and!; [lia|lia|done].
Qed.

(** Deliveries alone empty the links. *)
Lemma net_drain b N hs pend G :
  net_inv b N hs pend G → 0 ≤ b ≤ i_limit →
  ∃ evs N' hs' pend', Forall event_ok evs ∧ Forall (λ ev, ∃ i j, ev = EDeliver i j) evs ∧
    net_run evs N = Some (inr N') ∧ net_inv b N' hs' pend' G ∧ quiet N'.
Proof.
  remember (length (total pend)) as m eqn:Hm. revert N hs pend Hm. induction m as [|m IH]; intros N hs pend Hm Hinv Hb.
  - exists [], N, hs, pend. split_and!; [done..|]. intros i j Hi Hj. rewrite (ni_link _ _ _ _ _ Hinv).
    by rewrite (total_nil pend i j) by (by destruct (total pend)).
  - destruct (total_cons pend) as (i & j & p & rest & Hi & Hj & Hp); [by destruct (total pend)|].
    destruct (proj2 (ni_dom _ _ _ _ _ Hinv j) Hj) as [w Hw].
    destruct (replica_deliver zn (Z.of_nat j) key (hs j) p w) as (w' & Hd & Hw'); [lia|by apply (ni_replica _ _ _ _ _ Hinv)| |].
    { apply (i_r_ok zn b); [lia|lia|]. eapply net_inv_sub; [done..|]. intros x [Hx|Hx%list_elem_of_singleton]%elem_of_app;
        apply elem_of_app; [by left|right]. subst x. apply (elem_of_coming _ i); [done|]. rewrite Hp. by left. }
    pose proof (net_inv_deliver b N hs pend G i j w w' p rest Hinv Hi Hw Hp Hw') as Hinv1.
    pose proof (Permutation_length (total_deliver pend i j p rest Hi Hj Hp)) as Hlen. simpl in Hlen.
    destruct (IH _ _ (deliver_pend pend i j rest) ltac:(lia) Hinv1 Hb)
      as (evs & N' & hs' & pend' & Hev & Hdel & Hrun & Hinv' & Hq).
    exists (EDeliver i j :: evs), N', hs', pend'. split_and!; [by constructor|constructor; [by exists i, j|done]| |done|done].
    unfold deliver in Hd. destruct (request true (r_message key p) w) as [|[w1 ?]] eqn:Hr; [done|]. injection Hd as ->.
    simpl. rewrite Hw. simpl. rewrite (ni_link _ _ _ _ _ Hinv), Hp. simpl. by rewrite Hr.
Qed.

(** *** Runs from the start *)

(** Whatever the interleaving, no server faults; where nothing is on its way,
    all servers have processed the same operations; and deliveries alone lead
    there. *)
Lemma network_run conf evs r :
  Z.of_nat (length evs) ≤ i_limit → Forall event_ok evs → net_run evs (init_net n conf) = Some r →
  ∃ N, r = inr N ∧
    (quiet N → ∀ i j wi wj, n_servers N !! i = Some wi → n_servers N !! j = Some wj →
      ∃ hi hj : list H, replica zn (Z.of_nat i) key hi wi ∧ replica zn (Z.of_nat j) key hj wj ∧ hi ≡ₚ hj ∧
        r_ok zn hi ∧ r_ok zn hj) ∧
    ∃ evs' N', Forall event_ok evs' ∧ Forall (λ ev, ∃ i j, ev = EDeliver i j) evs' ∧
      net_run evs' N = Some (inr N') ∧ quiet N'.
Proof.
  intros Hlim Hev Hrun.
  destruct (net_inv_run evs 0 _ _ _ _ r (net_inv_init conf) ltac:(lia) ltac:(lia) Hev Hrun)
    as (N & hs & pend & G & -> & Hinv). exists N. split; [done|]. split.
  - intros Hq i j wi wj Hwi Hwj. exists (hs i), (hs j).
    assert (i < n)%nat as Hi by (apply (ni_dom _ _ _ _ _ Hinv); by eexists).
    assert (j < n)%nat as Hj by (apply (ni_dom _ _ _ _ _ Hinv); by eexists).
    pose proof (quiet_same _ _ _ _ _ i Hinv Hq Hi) as HGi. pose proof (quiet_same _ _ _ _ _ j Hinv Hq Hj) as HGj.
    split_and!; [by apply (ni_replica _ _ _ _ _ Hinv)..|by rewrite HGi, HGj| |];
      (apply (i_r_ok zn (0 + Z.of_nat (length evs))); [lia|lia|]); [rewrite HGi|rewrite HGj]; apply Hinv.
  - destruct (net_drain _ _ _ _ _ Hinv) as (evs' & N' & hs' & pend' & H1 & H2 & H3 & _ & H4); [lia|]. by exists evs', N'.
Qed.
End network.

(** ** Client requests *)

Section requests.
Implicit Types (w : server).

(** A client's command after its prepare phase queued a message. *)
Definition issuing (args msg : list sds) (cap : Z) : client :=
  mkClient args (Some (mkRargs msg cap)) false false [].

(** The prepare phase stops with an error reply: nothing is broadcast. *)
Lemma request_reject args prep eff w w1 rs :
  accepts args (crdt_command prep eff) → w_p2p_count w ≠ 0 →
  prep (set_client (new_client false args) w) = Return w1 → w_client w1 = mkClient args None false false rs →
  ∃ c, request false args w = inr (set_client c w1, None).
Proof.
  intros Hacc Hp Hprep Hc. rewrite (request_accepts false args _ w Hacc). unfold call.
  cbn [w_client set_client new_client c_replica]. unfold run, crdt_command, get. erewrite bind_Done by done.
  cbn [w_client set_client c_replica w_replicas w_p2p_count negb].
  rewrite (proj2 (Z.eqb_neq _ _) Hp), orb_true_r.
  erewrite (bind_Return _ _ _ w1); [rewrite Hc; by eexists|]. by apply bind_Return.
Qed.

(** The prepare phase queues a message: the effect phase runs on it here, and
    it is broadcast. *)
Lemma request_issue args prep eff w w1 msg cap w2 :
  accepts args (crdt_command prep eff) → w_p2p_count w ≠ 0 →
  prep (set_client (new_client false args) w) = Done () w1 → w_client w1 = issuing args msg cap →
  eff (set_client (mkClient args (Some (mkRargs msg cap)) false false [ROk]) w1) = Done () w2 →
  w_client w2 = mkClient args (Some (mkRargs msg cap)) false false [ROk] →
  ∃ c, request false args w = inr (set_client c w2, Some msg).
Proof.
  intros Hacc Hp Hprep Hc1 Heff Hc2. rewrite (request_accepts false args _ w Hacc). unfold call.
  cbn [w_client set_client new_client c_replica]. unfold run, crdt_command, get. erewrite bind_Done by done.
  cbn [w_client set_client c_replica w_replicas w_p2p_count negb].
  rewrite (proj2 (Z.eqb_neq _ _) Hp), orb_true_r.
  erewrite bind_Done.
  2: { change (negb (c_replica (new_client false args))) with true. cbv iota. erewrite bind_Done by exact Hprep. erewrite bind_Done; [|unfold addReply; rewrite Hc1; reflexivity]. reflexivity. }
  mstep Heff. erewrite bind_Done by done. rewrite Hc2. simpl. rewrite Hc2. by eexists.
Qed.

(** *** The checks of the prepare phases *)

Lemma CHECK_ARGC_run (max : Z) w args rs :
  w_client w = mkClient args None false false rs → 2 ≤ Z.of_nat (length args) ≤ max → CHECK_ARGC max w = Done () w.
Proof.
  intros Hc Hlen. unfold CHECK_ARGC, argc. rewrite Hc. simpl.
  rewrite (proj2 (Z.ltb_ge _ _)), (proj2 (Z.ltb_ge _ _)) by lia. done.
Qed.

Lemma CHECK_CONTAINER_TYPE_run {A} `{!Stored cell A} sfx w key ptrs (Ms : gmap sds A) o args rs :
  cont sfx w key ptrs Ms o → w_client w = mkClient args None false false rs → args !! 1%nat = Some key →
  CHECK_CONTAINER_TYPE OBJ_ZSET w = Done () w.
Proof.
  intros C Hc Hk. unfold CHECK_CONTAINER_TYPE. mstep (arg_spec w 1 key ltac:(by rewrite Hc)).
  unfold lookupKey. erewrite bind_Done by done. pose proof (c_zset _ _ _ _ _ _ C) as Hz.
  destruct o as [m|]; [destruct Hz as (z & -> & _)|rewrite Hz]; done.
Qed.

(** An error reply that ends the prepare phase. *)
Lemma addReply_client r w args rv rs :
  w_client w = mkClient args rv false false rs →
  addReply r w = Done () (set_client (mkClient args rv false false (rs ++ [r])) w).
Proof. intros Hc. unfold addReply. by rewrite Hc. Qed.

Lemma reply_return {B} r w args rs :
  w_client w = mkClient args None false false rs →
  (addReply r;; creturn) w = Return (A := B) (set_client (mkClient args None false false (rs ++ [r])) w).
Proof. intros Hc. erewrite bind_Done by (by apply addReply_client). done. Qed.

Lemma CHECK_ARG_TYPE_INT_run i w args rs s :
  w_client w = mkClient args None false false rs → args !! i = Some s →
  CHECK_ARG_TYPE_INT i w =
    match string2ll s with
    | Some _ => Done () w
    | None => Return (set_client (mkClient args None false false (rs ++ [RError "value is not an integer"])) w)
    end.
Proof.
  intros Hc Hs. unfold CHECK_ARG_TYPE_INT. mstep (arg_spec w i s ltac:(by rewrite Hc)).
  destruct (string2ll s); [done|]. by apply reply_return.
Qed.

Lemma CHECK_ARG_TYPE_DOUBLE_run i w args rs s :
  w_client w = mkClient args None false false rs → args !! i = Some s →
  CHECK_ARG_TYPE_DOUBLE i w =
    match string2d s with
    | Some _ => Done () w
    | None => Return (set_client (mkClient args None false false (rs ++ [RError "value is not a valid float"])) w)
    end.
Proof.
  intros Hc Hs. unfold CHECK_ARG_TYPE_DOUBLE. mstep (arg_spec w i s ltac:(by rewrite Hc)).
  destruct (string2d s); [done|]. by apply reply_return.
Qed.

(** The first argument appended to a request makes its message. *)
Lemma RARGV_ADD_SDS_run w args s :
  w_client w = new_client false args →
  RARGV_ADD_SDS s w = Done () (set_client (issuing args (args ++ [s]) (Z.of_nat (length args) + ADDITIONAL_CAPACITY)) w).
Proof.
  intros Hc. unfold RARGV_ADD_SDS, rargv_add. rewrite Hc. simpl. unfold argc, ADDITIONAL_CAPACITY. simpl.
  rewrite (proj2 (Z.eqb_neq _ _)), (proj2 (Z.ltb_lt _ _)) by lia. done.
Qed.
End requests.

(** *** What a prepare phase leaves

    An error reply, and the replica as it was; or a message that issues an
    operation, whose effect phase then runs here. *)

Section prepared.
Context {A H : Type} `{!Stored cell A, !Replicated A H}.
Implicit Types (w : server) (hist : list H).

Definition prepared (n i : Z) (key : sds) hist (issued : H → Prop) (args : list sds) (out : outcome cell ()) : Prop :=
  ∃ w1, (∃ rs, out = Return w1 ∧ w_client w1 = mkClient args None false false rs ∧ replica n i key hist w1) ∨
    ∃ p cap w2, let c := mkClient args (Some (mkRargs (r_message key p) cap)) false false [ROk] in
      out = Done () w1 ∧ w_client w1 = issuing args (r_message key p) cap ∧ issued p ∧
      r_effect p (set_client c w1) = Done () w2 ∧ w_client w2 = c ∧ replica n i key (hist ++ [p]) w2.

Lemma replica_set_client n i key hist w c : replica n i key hist w → replica n i key hist (set_client c w).
Proof. intros (? & ? & ptrs & Ms & o & C & Hinv). split_and!; [done..|]. exists ptrs, Ms, o. by split; [apply cont_set_client|]. Qed.

Lemma prepared_reject n i key hist issued args w rs :
  replica n i key hist w →
  prepared n i key hist issued args (Return (set_client (mkClient args None false false rs) w)).
Proof. intros Hw. eexists. left. eexists. split_and!; [done..|]. by apply replica_set_client. Qed.

(** The prepare phase has only queued the message. *)
Lemma prepared_issue n i key hist (issued : H → Prop) args w p cap :
  replica n i key hist w → issued p → r_ok n (hist ++ [p]) →
  prepared n i key hist issued args (Done () (set_client (issuing args (r_message key p) cap) w)).
Proof.
  intros (Hc & Hid & ptrs & Ms & o & C & Hinv) Hp Hok. eexists. right.
  set (c := mkClient args (Some (mkRargs (r_message key p) cap)) false false [ROk]).
  destruct (r_step key hist p (set_client c w) (mkRargs (r_message key p) cap) ptrs Ms o) as (w2 & ptrs2 & s2 & Hrun & C2 & S2 & Hinv2).
  - by apply cont_set_client.
  - done.
  - done.
  - unfold vc_new. simpl. by rewrite Hc, Hid.
  - simpl. by rewrite Hc.
  - destruct (steps_client _ _ _ _ _ _ S2) as (_ & Hc2 & Hid2 & _ & Hcl2). simpl in Hc2, Hid2, Hcl2.
    exists p, cap, w2. split_and!; [done..|]. split_and!; [congruence..|]. exists ptrs2, s2.1, s2.2. split; [done|].
    unfold vc_new in Hinv2. simpl in Hinv2. rewrite Hc, Hid in Hinv2. by destruct s2.
Qed.

(** The whole command. *)
Lemma prepared_request n i key hist issued args prep eff w :
  n ≠ 0 → replica n i key hist w → accepts args (crdt_command prep eff) →
  prepared n i key hist issued args (prep (set_client (new_client false args) w)) →
  (∀ p, issued p → r_effect p = eff) →
  ∃ w', (request false args w = inr (w', None) ∧ replica n i key hist w') ∨
    ∃ p, request false args w = inr (w', Some (r_message key p)) ∧ replica n i key (hist ++ [p]) w' ∧ issued p.
Proof.
  intros Hn (Hc & _) Hacc (w1 & [(rs & Hprep & Hcl & Hw1)|(p & cap & w2 & Hprep & Hcl & Hp & Heff & Hcl2 & Hw2)]) Hiss.
  - destruct (request_reject args prep eff w w1 rs Hacc) as [c Hreq]; [congruence|done..|].
    exists (set_client c w1). left. split; [done|by apply replica_set_client].
  - rewrite (Hiss p Hp) in Heff.
    destruct (request_issue args prep eff w w1 (r_message key p) cap w2 Hacc) as [c Hreq]; [congruence|done..|].
    exists (set_client c w2). right. exists p. split_and!; [done| |done]. by apply replica_set_client.
Qed.
End prepared.
