(* ===== verification/Defects.v ===== *)
(** * Where the code does not do what it means to

    Faults and divergences of the CRDT commands, each shown on runs of the
    model: reads of memory that was never set, a clock read past the end of
    the message, elements placed on the wrong side of their neighbour,
    replicas that end in different states. *)

From S2P Require Import Prelude.
From S2P Require Import Sds.
From S2P Require Import VectorClock.
From S2P Require Import LamportClock.
From S2P Require Import Double.
From S2P Require Import Skiplist.
From S2P Require Import Zset.
From S2P Require Import Server.
From S2P Require Import Container.
From S2P Require Import TagSet.
From S2P Require Import Oset.
From S2P Require Import OsetRep.
From S2P Require Import RemoveWin.
From S2P Require Import Rset.
From S2P Require Import P2p.
From S2P Require Import Replicas.
From S2P Require Import Network.

#[local] Open Scope Z_scope.

(** ** Sets *)

(** The add of the remove-win set of t_rset.c always reads past the end of
    its message.  The prepare phase of [rsadd] on a server with peers, for an
    element that is not in the set, produces a message of four arguments, and
    the effect phase on any message of four arguments reads a fifth. *)
Theorem rsadd_reads_past_message (w : server) r :
  rargv (w_client w) = Some r → length (r_args r) = 4%nat → rsadd_effect w = Fault OutOfBounds.
Proof.
  intros Hr Hlen. destruct (r_args r) as [|a0 [|a1 [|a2 [|a3 [|? ?]]]]] eqn:Ha; try done. unfold rsadd_effect.
  mstep (rarg_spec w r 1 a1 Hr ltac:(by rewrite Ha)). mstep (rarg_spec w r 2 a2 Hr ltac:(by rewrite Ha)).
  apply bind_Fault. unfold rarg. rewrite Hr, Ha. done.
Qed.

Lemma rsadd_reads_past_message_witness :
  match rsadd_prepare (cell := cell) (set_client (new_client false ["rsadd"; "s"; "5"]) (init_server 2 0 (mkZconf 128 64) [])) with
  | Done _ w => length <$> (r_args <$> rargv (w_client w)) = Some 4%nat ∧ rsadd_effect w = Fault OutOfBounds
  | _ => False
  end.
Proof.
  destruct (rsadd_prepare (cell := cell) (set_client (new_client false ["rsadd"; "s"; "5"]) (init_server 2 0 (mkZconf 128 64) []))) as [[] w|w|f] eqn:Hp;
    [|vm_compute in Hp; discriminate Hp..].
  assert (match rsadd_prepare (cell := cell) (set_client (new_client false ["rsadd"; "s"; "5"]) (init_server 2 0 (mkZconf 128 64) [])) with
          | Done _ w => r_args <$> rargv (w_client w) | _ => None end = Some ["rsadd"; "s"; "5"; "1,0|0"]) as H by (vm_compute; reflexivity).
  rewrite Hp in H. destruct (rargv (w_client w)) as [r|] eqn:Hr; [|discriminate H]. injection H as H.
  split; [simpl; rewrite H; reflexivity|]. apply (rsadd_reads_past_message w r); [exact Hr|rewrite H; reflexivity].
Defined.

(** The prepare phase of an add on a server that has nothing yet. *)
Lemma osadd_prepare_fresh key ele n i conf rnd :
  let args := ["osadd"; key; ele] in
  ∃ w1 l ptrs, osadd_prepare (set_client (new_client false args) (init_server n i conf rnd)) = Done () w1 ∧
    cont ORI_SET_TABLE_SUFFIX w1 key ptrs {[ele := mkOse 1 None [] []]} None ∧ ptrs !! ele = Some l ∧
    w_client w1 = issuing args (args ++ [lcToSds (mkLc 0 i)]) 7.
Proof.
  intros args. set (w := set_client (new_client false args) (init_server n i conf rnd)).
  assert (cont ORI_SET_TABLE_SUFFIX w key ∅ (∅ : gmap sds ose) None) as C.
  { split; try done. right. split; [|done]. apply lookup_empty. }
  assert (w_client w = new_client false args) as Hcl by done.
  unfold osadd_prepare. mstep (CHECK_ARGC_run 3 w args [] Hcl ltac:(simpl; lia)).
  mstep (CHECK_CONTAINER_TYPE_run _ w key ∅ ∅ None args [] C Hcl eq_refl).
  mstep (arg_spec w 1 key ltac:(by rewrite Hcl)). mstep (arg_spec w 2 ele ltac:(by rewrite Hcl)).
  destruct (rehHTGet_create _ w key ∅ ∅ None ele (λ _, oseNew) C) as (w1 & l & ptrs1 & Hget & Hl & C1 & S1); [done|].
  unfold GET_OSE. mstep Hget. erewrite bind_Done by done. rewrite lookup_empty in C1. simpl in C1.
  mstep (load_spec _ w1 key ptrs1 _ None ele l oseNew C1 Hl (lookup_insert_eq _ _ _)). change (os_LOOKUP oseNew) with false. cbv beta iota.
  unfold get. erewrite bind_Done by done.
  destruct (steps_client _ _ _ _ _ _ S1) as (_ & _ & Hid1 & _ & Hcl1). rewrite Hcl in Hcl1.
  destruct (store_spec _ w1 key ptrs1 _ None ele l (mkOse 1 None [] []) C1 Hl) as (w2 & Hst & C2 & S2).
  change (mkOse (wrap32 (os_current oseNew + 1)) (os_exist oseNew) (os_aset oseNew) (os_rset oseNew)) with (mkOse 1 None [] []).
  mstep Hst. destruct (steps_client _ _ _ _ _ _ S2) as (_ & _ & _ & _ & Hcl2). rewrite Hcl1 in Hcl2.
  rewrite (RARGV_ADD_SDS_run w2 args _ Hcl2). unfold _lc_new. rewrite Hid1. rewrite insert_insert_eq in C2.
  eexists _, l, ptrs1. split; [done|]. split; [by apply cont_set_client|done].
Qed.

(** [osadd] does not check that the element is an integer.  On a server
    with peers and nothing else, adding an element that is not one makes the
    effect phase compute the score from a variable that was never set. *)
Theorem osadd_reads_unset key ele n i conf rnd :
  1 ≤ n → int32 i → string2ll ele = None →
  request false ["osadd"; key; ele] (init_server n i conf rnd) = inl Uninit.
Proof.
  intros Hn Hi Hele. rewrite (request_accepts false ["osadd"; key; ele] osaddCommand); [|by eexists _, _, (-3)].
  destruct (osadd_prepare_fresh key ele n i conf rnd) as (w1 & l & ptrs & Hprep & C & Hl & Hcl).
  unfold call. cbn [w_client set_client new_client c_replica]. unfold run, osaddCommand, crdt_command, get.
  erewrite bind_Done by done. cbn [w_client set_client c_replica w_p2p_count new_client init_server negb w_replicas].
  rewrite (proj2 (Z.eqb_neq n 0)) by lia. rewrite orb_true_r.
  set (c := mkClient ["osadd"; key; ele] (Some (mkRargs (["osadd"; key; ele] ++ [lcToSds (mkLc 0 i)]) 7)) false false [ROk]).
  erewrite (bind_Done _ _ _ () (set_client c w1)).
  2: { erewrite bind_Done by exact Hprep. erewrite bind_Done; [|unfold addReply; rewrite Hcl; reflexivity]. reflexivity. }
  assert (osadd_effect (set_client c w1) = Fault Uninit) as Heff; [|by rewrite (bind_Fault _ _ _ _ Heff)].
  set (w2 := set_client c w1). assert (cont ORI_SET_TABLE_SUFFIX w2 key ptrs {[ele := mkOse 1 None [] []]} None) as C2
    by (by apply cont_set_client).
  unfold osadd_effect. do 3 (erewrite bind_Done by done). cbv beta zeta. rewrite Hele.
  rewrite lc_roundtrip by done. erewrite bind_Done by done.
  destruct (rehHTGet_create _ w2 key ptrs _ None ele (λ _, oseNew) C2) as (w3 & l3 & ptrs3 & Hget & Hl3 & C3 & S3); [done|].
  unfold GET_OSE. mstep Hget. erewrite bind_Done by done. rewrite lookup_singleton_eq in C3. simpl in C3.
  mstep (load_spec _ w3 key ptrs3 _ None ele l3 _ C3 Hl3 (lookup_insert_eq _ _ _)).
  erewrite bind_Done by done. cbv beta iota. erewrite bind_Done by done. apply bind_Fault. unfold os_publish.
  pose proof (c_zset _ _ _ _ _ _ C3) as Hz. simpl in Hz. unfold getZsetOrCreate, lookupKey, dbAdd, get, mbind, M_bind. simpl.
  assert (lc_cmp_as_tag (mkLc 0 i) (lc_dup (mkLc 0 i)) = 0) as Ht by (by apply lc_tag_eq).
  rewrite Hz, Ht. simpl. by rewrite Hz.
Qed.

Lemma osadd_reads_unset_witness :
  request false ["osadd"; "s"; "five"] (init_server 2 0 (mkZconf 128 64) []) = inl Uninit.
Proof. apply osadd_reads_unset; [lia|vm_compute; split; discriminate|vm_compute; reflexivity]. Defined.

(** ** Priority queues *)

(** The add-win queue reads a score that was never set.  The increment of
    an add that has not arrived yet creates an entry without an innate value;
    when another add of the element comes and goes, that entry is selected
    for the score. *)
Theorem ozset_reads_unset :
  query_run
    [EClient 0 ["ozadd"; "q"; "a"; "5"]; EDeliver 0 1; EClient 1 ["ozincrby"; "q"; "a"; "2"]; EDeliver 1 2;
     EClient 3 ["ozadd"; "q"; "a"; "1"]; EClient 3 ["ozrem"; "q"; "a"]; EDeliver 3 2; EDeliver 3 2] 4 2
    ["ozscore"; "q"; "a"] = Some (inl Uninit).
Proof. vm_compute. reflexivity. Qed.

(** [rzestatus] follows a null pointer for an element that was added and
    removed. *)
Theorem rzestatus_null_pointer :
  query_run [EClient 0 ["rzadd"; "q"; "a"; "5"]; EClient 0 ["rzrem"; "q"; "a"]] 2 0 ["rzestatus"; "q"; "a"]
  = Some (inl NullDeref).
Proof. vm_compute. reflexivity. Qed.

(** ** Lists *)

(** The elements in the reply of [rllist] and [rwfllist], with their font. *)
Fixpoint listed (rs : list reply) : list (sds * sds) :=
  match rs with
  | RArrayLen 6 :: RBulk oid :: RBulk _ :: RBulk font :: rs' => (oid, font) :: listed rs'
  | _ :: rs' => listed rs'
  | [] => []
  end.

Definition show (r : option (fault + list reply)) : option (Z * list (sds * sds)) :=
  match r with
  | Some (inr (RArrayLen n :: rs)) => Some (n, listed rs)
  | _ => None
  end.

Definition rlinsert (prev oid : sds) : list sds := ["rlinsert"; "l"; prev; oid; "text"; "1"; "2"; "3"; "0"].
Definition rwflinsert (prev oid : sds) : list sds := ["rwflinsert"; "l"; prev; oid; "text"; "1"; "2"; "3"; "0"].

Definition in_order (ids : list sds) : Z * list (sds * sds) := (Z.of_nat (length ids), (λ i, (i, "1" : sds)) <$> ids).

(** An element inserted after [a] is not always next to [a].  One client
    inserts [a], [b] after [a], [c] after [a] and [d] after [a], at one server
    with no other activity: both list types show [d] after [c]. *)
Theorem insert_misplaced :
  let evs f := [EClient 0 (f "null" "a"); EClient 0 (f "a" "b"); EClient 0 (f "a" "c"); EClient 0 (f "a" "d")] in
  show (query_run (evs rlinsert) 2 0 ["rllist"; "l"]) = Some (in_order ["a"; "c"; "d"; "b"]) ∧
  show (query_run (evs rwflinsert) 2 0 ["rwfllist"; "l"]) = Some (in_order ["a"; "c"; "d"; "b"]).
Proof. vm_compute. split; reflexivity. Qed.

(** Concurrent updates of one property of a remove-win list element leave
    three replicas with three different values, all messages delivered and
    every delivery causal. *)
Theorem rlist_updates_diverge :
  let update v := ["rlupdate"; "l"; "a"; "font"; v] in
  let evs := [EClient 0 (rlinsert "null" "a"); EDeliver 0 1; EDeliver 0 2; EClient 2 (update "22"); EDeliver 2 0;
              EClient 0 (update "10"); EClient 1 (update "11"); EDeliver 1 0; EDeliver 2 1; EDeliver 0 1;
              EDeliver 1 2; EDeliver 0 2] in
  let at_server i := show (query_run evs 3 i ["rllist"; "l"]) in
  at_server 0%nat = Some (1, [("a", "11")]) ∧ at_server 1%nat = Some (1, [("a", "22")]) ∧
  at_server 2%nat = Some (1, [("a", "10")]).
Proof. vm_compute. split_and!; reflexivity. Qed.

(** An update that arrives before the insert it refers to makes the length
    of a Remove-Win-framework list wrong for good: [rwfllist] announces no
    elements and sends one. *)
Theorem rwflist_length_wrong :
  let evs := [EClient 0 (rwflinsert "null" "a"); EDeliver 0 1; EClient 1 ["rwflupdate"; "l"; "a"; "font"; "9"];
              EDeliver 1 2; EDeliver 0 2; EDeliver 1 0] in
  show (query_run evs 3 2 ["rwfllist"; "l"]) = Some (0, [("a", "9")]) ∧
  show (query_run evs 3 0 ["rwfllist"; "l"]) = Some (1, [("a", "9")]).
Proof. vm_compute. split; reflexivity. Qed.

(** Two servers that insert the same element at different places at the
    same time keep it at different places. *)
Theorem same_element_diverges :
  let evs f := [EClient 0 (f "null" "a"); EClient 0 (f "a" "b"); EDeliver 0 1; EDeliver 0 1;
                EClient 0 (f "a" "x"); EClient 1 (f "b" "x"); EDeliver 0 1; EDeliver 1 0] in
  show (query_run (evs rwflinsert) 2 0 ["rwfllist"; "l"]) = Some (in_order ["a"; "x"; "b"]) ∧
  show (query_run (evs rwflinsert) 2 1 ["rwfllist"; "l"]) = Some (in_order ["a"; "b"; "x"]) ∧
  show (query_run (evs rlinsert) 2 0 ["rllist"; "l"]) = Some (in_order ["a"; "x"; "b"]) ∧
  show (query_run (evs rlinsert) 2 1 ["rllist"; "l"]) = Some (in_order ["a"; "b"; "x"]).
Proof. vm_compute. split_and!; reflexivity. Qed.

(** List elements share their name space with the fields of the list and
    with the keyword for the start of the list.  Inserting an element named
    [length] makes the server use a pointer as an integer; an element named
    [null] is lost from the chain of a server that had inserted another
    element at the start. *)
Theorem reserved_names :
  let evs f := [EClient 0 (f "null" "a"); EDeliver 0 1; EClient 1 (f "null" "null"); EClient 0 (f "null" "h"); EDeliver 1 0] in
  query_run [EClient 0 (rlinsert "null" "length")] 2 0 ["rllist"; "l"] = Some (inl BadCast) ∧
  query_run [EClient 0 (rwflinsert "null" "length")] 2 0 ["rwfllist"; "l"] = Some (inl BadCast) ∧
  show (query_run (evs rlinsert) 2 0 ["rllist"; "l"]) = Some (3, [("h", "1"); ("a", "1")]) ∧
  show (query_run (evs rwflinsert) 2 0 ["rwfllist"; "l"]) = Some (3, [("h", "1"); ("a", "1")]).
Proof. vm_compute. split_and!; reflexivity. Qed.
