(* ===== verification/RwfsetNet.v ===== *)
(** * Replicated Remove-Win-framework sets

    What clients read from the replicas of a set, as a function of the
    operations delivered to them. *)

From S2P Require Import Prelude.
From S2P Require Import Sds.
From S2P Require Import VectorClock.
From S2P Require Import Double.
From S2P Require Import Skiplist.
From S2P Require Import Zset.
From S2P Require Import Server.
From S2P Require Import Container.
From S2P Require Import Rwf.
From S2P Require Import Rwfset.
From S2P Require Import RwfsetRep.
From S2P Require Import P2p.
From S2P Require Import Replicas.

#[local] Open Scope Z_scope.
#[local] Open Scope crdt_scope.

(** ** Messages *)

(** The message of an operation on an element of the set [key], as the
    prepare phases build it. *)
Definition set_message (key : sds) (p : sds * rwf_op Z) : list sds :=
  [match op_kind p.2 with RwfAdd => "rwfsadd" | _ => "rwfsrem" end; key; p.1;
   default "" (vcToSds (op_t p.2))].

(** Operations of a system of [n] servers. *)
Definition set_op_ok (n : Z) (p : sds * rwf_op Z) : Prop :=
  rwfs_wf (_vc_new n 0) p.2 ∧ vc_wire_ok (op_t p.2) ∧ op_arg p.2 = default 0 (string2ll p.1).

#[global] Instance set_op_ok_dec n p : Decision (set_op_ok n p).
Proof. unfold set_op_ok, rwfs_wf. apply _. Defined.

Definition set_prepare (k : rwf_kind) : command :=
  match k with RwfAdd => rwfsadd_prepare | _ => rwfsrem_prepare end.

Lemma set_message_accepts key p :
  accepts (set_message key p) (crdt_command (set_prepare (op_kind p.2)) (rwfs_effect (op_kind p.2))).
Proof.
  unfold set_message. destruct (op_kind p.2).
  all: eexists _, _, (-3); split; [done|]; split; [reflexivity|done].
Qed.

Lemma set_message_msg key n p :
  set_op_ok n p → rwfs_msg p.2 key p.1 (set_message key p).
Proof.
  destruct p as [ele [k t v]]. intros ([_ Hk] & Hw & Harg). simpl in *. unfold set_message. simpl.
  destruct (vcToSds_roundtrip t Hw) as (s & -> & Hs). simpl. subst v.
  destruct k; [by constructor|done|by constructor].
Qed.

(** ** The interface *)

Lemma set_wf_owner n i p : set_op_ok n p → rwfs_wf (_vc_new n i) p.2.
Proof. intros [H _]. exact H. Qed.

Lemma set_step key hist p (w : server) r ptrs Ms o :
  cont RWF_SET_TABLE_SUFFIX w key ptrs Ms o → rargv (w_client w) = Some r → r_args r = set_message key p →
  rwfs_inv (vc_new w) hist (Ms, o) → Forall (set_op_ok (w_p2p_count w)) (hist ++ [p]) →
  ∃ w' ptrs' s', rwfs_effect (op_kind p.2) w = Done () w' ∧ cont RWF_SET_TABLE_SUFFIX w' key ptrs' s'.1 s'.2 ∧
    steps RWF_SET_TABLE_SUFFIX key w ptrs w' ptrs' ∧ rwfs_inv (vc_new w) (hist ++ [p]) s'.
Proof.
  intros C Hr Hargs Hinv Hall. rewrite Forall_app, Forall_singleton in Hall. destruct Hall as [Hh Hp].
  destruct (rwfs_step_inv (vc_new w) hist (Ms, o) p.1 p.2 Hinv) as (s' & Hs' & Hinv').
  { eapply Forall_impl; [exact Hh|]. intros q. apply set_wf_owner. }
  { by apply set_wf_owner. }
  destruct (rwfs_effect_run p.2 key p.1 (set_message key p) w ptrs Ms o r s')
    as (w1 & ptrs1 & Heff & C1 & S1); [done|done|done|by eapply set_message_msg|done|].
  exists w1, ptrs1, s'. split_and!; try done. by destruct p.
Qed.

#[global] Instance rwfset_replicated : Replicated rwfse (sds * rwf_op Z) := {|
  r_suffix := RWF_SET_TABLE_SUFFIX;
  r_suffix_ne := _;
  r_message := set_message;
  r_ok n := Forall (set_op_ok n);
  r_ok_app _ hist hist' H := proj1 (proj1 (Forall_app _ hist hist') H);
  r_inv := rwfs_inv;
  r_init := rwfs_inv_init;
  r_prepare p := set_prepare (op_kind p.2);
  r_effect p := rwfs_effect (op_kind p.2);
  r_accepts := set_message_accepts;
  r_step := set_step
|}.

(** ** Reading *)

Abbreviation set_replica := (replica (A := rwfse) (H := sds * rwf_op Z)).

Lemma set_run n i key conf rnd hist :
  n ≠ 0 → Forall (set_op_ok n) hist →
  ∃ w, deliver_all (set_message key <$> hist) (init_server n i conf rnd) = inr w ∧ set_replica n i key hist w.
Proof. exact (@replica_run _ _ _ rwfset_replicated n i key conf rnd hist). Qed.

Lemma set_contains n i key hist w ele :
  set_replica n i key hist w → Forall (set_op_ok n) hist →
  ∃ b, ask ["rwfscontains"; key; ele] w = inr [if decide (hist = []) then RNull else RBool b] ∧
    (b = true ↔ ∃ op, in_force (ops_of ele hist) op ∧ op_kind op = RwfAdd).
Proof.
  intros (_ & _ & ptrs & Ms & o & C & Hinv) Hh.
  exists (bool_decide (is_Some (default ∅ o !! ele))). split.
  - rewrite (contains_reply _ w key ptrs Ms o ele "rwfscontains" C) by (by eexists _, _, 3).
    destruct Hinv as [_ Hex]. simpl in Hex. destruct o; simpl; case_decide; try done; (exfalso; naive_solver).
  - rewrite bool_decide_eq_true. apply (rwfs_inv_members (_vc_new n i) hist (Ms, o)); [done|].
    eapply Forall_impl; [exact Hh|]. intros q. apply set_wf_owner.
Qed.

(** The members of the set, as the sorted set of the server holds them. *)
Lemma set_size n i key hist w :
  set_replica n i key hist w → Forall (set_op_ok n) hist →
  ∃ m : gmap sds double,
    ask ["rwfssize"; key] w = inr [if decide (hist = []) then REmptyArray else RInt (Z.of_nat (size m))] ∧
    ∀ ele, ele ∈ dom m ↔ ∃ op, in_force (ops_of ele hist) op ∧ op_kind op = RwfAdd.
Proof.
  intros (_ & _ & ptrs & Ms & o & C & Hinv) Hh. exists (default ∅ o). split.
  - rewrite (size_reply _ w key ptrs Ms o "rwfssize" C) by (by eexists _, _, 2).
    destruct Hinv as [_ Hex]. simpl in Hex. destruct o; simpl; case_decide; try done; (exfalso; naive_solver).
  - intros ele. rewrite elem_of_dom. apply (rwfs_inv_members (_vc_new n i) hist (Ms, o)); [done|].
    eapply Forall_impl; [exact Hh|]. intros q. apply set_wf_owner.
Qed.

Lemma adds_in_force_perm ele (h1 h2 : list (sds * rwf_op Z)) :
  h1 ≡ₚ h2 →
  (∃ op, in_force (ops_of ele h1) op ∧ op_kind op = RwfAdd) ↔
  (∃ op, in_force (ops_of ele h2) op ∧ op_kind op = RwfAdd).
Proof.
  intros Hp. split; intros (op & Hf & Hk); exists op; (split; [|done]);
    (eapply in_force_perm; [apply ops_of_perm|exact Hf]); [done|by symmetry].
Qed.

(** Replicas that have processed the same operations answer alike. *)
Lemma set_same key n i1 i2 hist1 hist2 w1 w2 :
  set_replica n i1 key hist1 w1 → set_replica n i2 key hist2 w2 →
  Forall (set_op_ok n) hist1 → Forall (set_op_ok n) hist2 → hist1 ≡ₚ hist2 →
  (∀ ele, ask ["rwfscontains"; key; ele] w1 = ask ["rwfscontains"; key; ele] w2) ∧
  ask ["rwfssize"; key] w1 = ask ["rwfssize"; key] w2.
Proof.
  intros Hw1 Hw2 Hh1 Hh2 Hp. assert (hist1 = [] ↔ hist2 = []) as Hnil.
  { split; intros ->; [by apply Permutation_nil_l in Hp|by apply Permutation_nil_r in Hp]. }
  split.
  - intros ele. destruct (set_contains n i1 key hist1 w1 ele Hw1 Hh1) as (b1 & -> & Hb1).
    destruct (set_contains n i2 key hist2 w2 ele Hw2 Hh2) as (b2 & -> & Hb2).
    rewrite (decide_ext _ _ _ _ Hnil). assert (b1 = b2) as ->; [|done].
    apply eq_bool_prop_intro. rewrite !Is_true_true, Hb1, Hb2. by apply adds_in_force_perm.
  - destruct (set_size n i1 key hist1 w1 Hw1 Hh1) as (m1 & -> & Hm1). destruct (set_size n i2 key hist2 w2 Hw2 Hh2) as (m2 & -> & Hm2).
    rewrite (decide_ext _ _ _ _ Hnil). assert (dom m1 = dom m2) as Hdom.
    { apply set_eq. intros ele. rewrite Hm1, Hm2. by apply adds_in_force_perm. }
    by rewrite <- !size_dom, Hdom.
Qed.

(** ** Properties *)

(** C16: What a client reads from a replicated set.  A server that receives
    adds and removes of the set, in any order, from the command table down to
    the sorted set, processes them without fault, and answers [rwfscontains]
    with yes exactly for the elements that have an add whose clock is above
    the clocks of all operations received on that element: an add survives if
    and only if it has seen every remove. *)
Theorem rwfset_members key n i conf rnd hist ele :
  n ≠ 0 → Forall (set_op_ok n) hist →
  ∃ w b, deliver_all (set_message key <$> hist) (init_server n i conf rnd) = inr w ∧
    ask ["rwfscontains"; key; ele] w = inr [if decide (hist = []) then RNull else RBool b] ∧
    (b = true ↔ ∃ op, in_force (ops_of ele hist) op ∧ op_kind op = RwfAdd).
Proof.
  intros Hn Hh.
  destruct (set_run n i key conf rnd hist Hn Hh) as (w & Hd & Hw).
  destruct (set_contains n i key hist w ele Hw Hh) as (b & Hask & Hb). by exists w, b.
Qed.

(** Server 0 adds and removes 5 while server 1, which has not seen the remove,
    adds it too; then server 2 adds 7. *)
Definition set_example : list (sds * rwf_op Z) :=
  [("5", mkRwfOp RwfAdd (mkVc [0; 0; 0] 0) 5); ("5", mkRwfOp RwfRem (mkVc [1; 0; 0] 0) 5);
   ("5", mkRwfOp RwfAdd (mkVc [0; 0; 0] 1) 5); ("7", mkRwfOp RwfAdd (mkVc [0; 0; 0] 2) 7)].

Lemma rwfset_members_witness :
  ∃ w b, deliver_all (set_message "s" <$> set_example) (init_server 3 2 (mkZconf 1 64) [5; 70000]) = inr w ∧
    ask ["rwfscontains"; "s"; "5"] w = inr [RBool b] ∧
    (b = true ↔ ∃ op, in_force (ops_of "5" set_example) op ∧ op_kind op = RwfAdd).
Proof.
  apply (rwfset_members "s" 3 2 (mkZconf 1 64) [5; 70000] set_example "5"); [done|].
  apply (bool_decide_unpack _). vm_compute. exact I.
Defined.

(** C17: Replicas of a set converge.  Two servers, whatever their ids, random
    levels and encoding limits, that have received the same operations of a
    set, each in its own order, give the same replies to [rwfscontains] for
    every element and to [rwfssize]. *)
Theorem rwfset_convergence key n i1 conf1 rnd1 i2 conf2 rnd2 hist1 hist2 :
  n ≠ 0 → Forall (set_op_ok n) hist1 → hist1 ≡ₚ hist2 →
  ∃ w1 w2, deliver_all (set_message key <$> hist1) (init_server n i1 conf1 rnd1) = inr w1 ∧
    deliver_all (set_message key <$> hist2) (init_server n i2 conf2 rnd2) = inr w2 ∧
    (∀ ele, ask ["rwfscontains"; key; ele] w1 = ask ["rwfscontains"; key; ele] w2) ∧
    ask ["rwfssize"; key] w1 = ask ["rwfssize"; key] w2.
Proof.
  intros Hn Hh1 Hp. assert (Forall (set_op_ok n) hist2) as Hh2 by (by rewrite <- Hp).
  destruct (set_run n i1 key conf1 rnd1 hist1 Hn Hh1) as (w1 & Hd1 & Hw1).
  destruct (set_run n i2 key conf2 rnd2 hist2 Hn Hh2) as (w2 & Hd2 & Hw2).
  exists w1, w2. split; [done|]. split; [done|]. by eapply set_same.
Qed.

Lemma rwfset_convergence_witness :
  ∃ w1 w2, deliver_all (set_message "s" <$> set_example) (init_server 3 1 (mkZconf 128 64) []) = inr w1 ∧
    deliver_all (set_message "s" <$> reverse set_example) (init_server 3 2 (mkZconf 0 64) [1; 70000]) = inr w2 ∧
    (∀ ele, ask ["rwfscontains"; "s"; ele] w1 = ask ["rwfscontains"; "s"; ele] w2) ∧
    ask ["rwfssize"; "s"] w1 = ask ["rwfssize"; "s"] w2.
Proof.
  apply (rwfset_convergence "s" 3 1 (mkZconf 128 64) [] 2 (mkZconf 0 64) [1; 70000] set_example (reverse set_example)).
  - done.
  - apply (bool_decide_unpack _). vm_compute. exact I.
  - symmetry. apply reverse_Permutation.
Defined.
