(* ===== verification/RwfsetSys.v ===== *)
(** * The Remove-Win-framework set as a system

    Clients add and remove elements at any server of a network; the prepare
    phases issue the operations, the links carry them, and the servers agree
    when nothing is left on the links. *)

From S2P Require Import Prelude.
From S2P Require Import Sds.
From S2P Require Import VectorClock.
From S2P Require Import Double.
From S2P Require Import Skiplist.
From S2P Require Import Zset.
From S2P Require Import Server.
From S2P Require Import Container.
From S2P Require Import Rwf.
From S2P Require Import Rwfset.
From S2P Require Import RwfsetRep.
From S2P Require Import P2p.
From S2P Require Import Replicas.
From S2P Require Import Network.
From S2P Require Import RwfsetNet.

#[local] Open Scope Z_scope.

(** ** Issued operations *)

Definition set_issued (n b : Z) (p : sds * rwf_op Z) : Prop :=
  rwf_bounded n b p.2 ∧ op_kind p.2 ≠ RwfUpdate ∧ op_arg p.2 = default 0 (string2ll p.1).

Lemma set_issued_ok n b p : 1 ≤ n ≤ 100 → b ≤ INT_MAX → set_issued n b p → set_op_ok n p.
Proof.
  intros Hn Hb (Hbd & Hk & Ha). split_and!; [split; [apply Hbd|done]|by eapply rwf_bounded_wire|done].
Qed.

(** Client commands on the set [key]. *)
Inductive set_request (key : sds) : list sds → Prop :=
  | set_request_add ele : set_request key ["rwfsadd"; key; ele]
  | set_request_rem ele : set_request key ["rwfsrem"; key; ele].

(** ** The prepare phases *)

Section prepare.
Context (key : sds) (n i b : Z) (hist : list (sds * rwf_op Z)).
Context (Hn : 1 ≤ n ≤ 100) (Hi : 0 ≤ i < n) (Hb : 0 ≤ b < INT_MAX) (Hh : Forall (set_issued n b) hist).
Implicit Types (w : server) (Ms : gmap sds rwfse).

Abbreviation c0 := (_vc_new n i).
Abbreviation scont := (cont (A := rwfse) RWF_SET_TABLE_SUFFIX).
Abbreviation ssteps := (steps RWF_SET_TABLE_SUFFIX).

(** Creating the metadata of an element changes nothing. *)
Lemma rwfs_inv_touch Ms o ele :
  rwfs_inv c0 hist (Ms, o) → rwfs_inv c0 hist (<[ele := default (rwfseNew c0) (Ms !! ele)]> Ms, o).
Proof using Type.
  intros [Hinv Hex]. split; [|done]. intros ele'. specialize (Hinv ele'). simpl in *.
  destruct (decide (ele = ele')) as [<-|Hne]; [by rewrite lookup_insert_eq|by rewrite lookup_insert_ne].
Qed.

Lemma issued_ops ele : Forall (rwf_bounded n b) (ops_of ele hist).
Proof. apply ops_of_Forall. eapply Forall_impl; [exact Hh|]. by intros p [? _]. Qed.

Lemma issued_snoc p : set_issued n (b + 1) p → Forall (set_op_ok n) (hist ++ [p]).
Proof.
  intros Hp. apply Forall_app. split; [|apply Forall_singleton, (set_issued_ok n (b + 1)); [done|lia|done]].
  eapply Forall_impl; [exact Hh|]. intros q. apply (set_issued_ok n b); [done|lia].
Qed.

Lemma header_now Ms o ele :
  rwfs_inv c0 hist (Ms, o) →
  current (sf_header (default (rwfseNew c0) (Ms !! ele))) = rwf_join c0 (ops_of ele hist).
Proof using Type. intros [Hinv _]. destruct (Hinv ele) as [He _]. simpl in He. injection He as He. by rewrite He. Qed.

Abbreviation set_prepared k := (prepared (A := rwfse) n i key hist (λ p, set_issued n (b + 1) p ∧ op_kind p.2 = k)).

Lemma rwfsadd_prepare_run ele w :
  let args := ["rwfsadd"; key; ele] in
  set_replica n i key hist w → w_client w = new_client false args → set_prepared RwfAdd args (rwfsadd_prepare w).
Proof.
  intros args Hw Hcl. pose proof Hw as (Hc & Hid & ptrs & Ms & o & C & Hinv). unfold rwfsadd_prepare.
  mstep (CHECK_ARGC_run 3 w args [] Hcl ltac:(simpl; lia)).
  mstep (CHECK_CONTAINER_TYPE_run _ w key ptrs Ms o args [] C Hcl eq_refl).
  pose proof (CHECK_ARG_TYPE_INT_run 2 w args [] ele Hcl eq_refl) as Hint. destruct (string2ll ele) as [v|] eqn:Hv.
  2: { rewrite (bind_Return _ _ _ _ Hint). by apply prepared_reject. }
  mstep Hint. mstep (arg_spec w 1 key ltac:(by rewrite Hcl)). mstep (arg_spec w 2 ele ltac:(by rewrite Hcl)).
  destruct (rehHTGet_create _ w key ptrs Ms o ele (λ w, rwfseNew (vc_new w)) C) as (w1 & l & ptrs1 & Hget & Hl & C1 & S1); [done|].
  unfold GET_RWFSE. mstep Hget. assert (vc_new w = c0) as Hnew by (unfold vc_new; by rewrite Hc, Hid). rewrite Hnew in C1.
  set (e := default (rwfseNew c0) (Ms !! ele)) in *. unfold get_header.
  erewrite bind_Done; [|by mstep (load_spec _ w1 key ptrs1 _ o ele l e C1 Hl (lookup_insert_eq _ _ _))].
  destruct (steps_client _ _ _ _ _ _ S1) as (_ & Hc1 & Hid1 & _ & Hcl1). rewrite Hcl in Hcl1.
  assert (set_replica n i key hist w1) as Hw1.
  { split_and!; [congruence..|]. eexists ptrs1, _, o. split; [exact C1|]. by apply rwfs_inv_touch. }
  simpl. destruct (EXISTS (sf_header e)) eqn:Hex.
  { rewrite (bind_Return _ _ _ _ (reply_return _ w1 args [] Hcl1)). by apply prepared_reject. }
  erewrite bind_Done by done. erewrite bind_Done by done. unfold ADD_CR_NON_RMV, e. rewrite (header_now Ms o ele Hinv).
  set (op := mkRwfOp RwfAdd (rwf_join c0 (ops_of ele hist)) (default 0 (string2ll ele))).
  assert (rwf_bounded n b op) as Hop by (by apply issue_non_rmv; [..|apply issued_ops|]).
  destruct (vcToSds_roundtrip (op_t op)) as (s & Hs & _); [apply (rwf_bounded_wire n b); [done|lia|done]|].
  simpl in Hs. rewrite Hs. erewrite bind_Done by done. rewrite (RARGV_ADD_SDS_run w1 args s Hcl1).
  assert (args ++ [s] = r_message key (ele, op)) as -> by (simpl; unfold set_message; simpl; by rewrite Hs).
  assert (set_issued n (b + 1) (ele, op)) as Hiss.
  { split_and!; [|done|done]. eapply rwf_bounded_mono; [|done]. lia. }
  apply prepared_issue; [done|done|by apply issued_snoc].
Qed.

Lemma rwfsrem_prepare_run ele w :
  let args := ["rwfsrem"; key; ele] in
  set_replica n i key hist w → w_client w = new_client false args → set_prepared RwfRem args (rwfsrem_prepare w).
Proof.
  intros args Hw Hcl. pose proof Hw as (Hc & Hid & ptrs & Ms & o & C & Hinv). unfold rwfsrem_prepare.
  mstep (CHECK_ARGC_run 3 w args [] Hcl ltac:(simpl; lia)).
  mstep (CHECK_CONTAINER_TYPE_run _ w key ptrs Ms o args [] C Hcl eq_refl).
  mstep (arg_spec w 1 key ltac:(by rewrite Hcl)). mstep (arg_spec w 2 ele ltac:(by rewrite Hcl)).
  unfold GET_RWFSE. mstep (rehHTGet_find _ w key ptrs Ms o ele (λ w, rwfseNew (vc_new w)) C).
  destruct (ptrs !! ele) as [l|] eqn:Hl; simpl.
  2: { erewrite bind_Done by done. simpl. rewrite (bind_Return _ _ _ _ (reply_return _ w args [] Hcl)). by apply prepared_reject. }
  destruct (cont_ptr _ _ _ _ _ _ _ _ C Hl) as (_ & e & He & _). unfold get_header.
  erewrite bind_Done; [|by mstep (load_spec _ w key ptrs Ms o ele l e C Hl He)].
  simpl. destruct (EXISTS (sf_header e)) eqn:Hex.
  2: { rewrite (bind_Return _ _ _ _ (reply_return _ w args [] Hcl)). by apply prepared_reject. }
  erewrite bind_Done by done. unfold ADD_CR_RMV.
  pose proof (header_now Ms o ele Hinv) as Hnow. rewrite He in Hnow. simpl in Hnow. rewrite Hnow.
  destruct (issue_rmv n b i (ops_of ele hist) Hn Hi Hb (issued_ops ele) (default 0 (string2ll ele))) as (s & t & -> & Hs & Hop).
  erewrite bind_Done by done. rewrite (RARGV_ADD_SDS_run w args s Hcl).
  assert (args ++ [s] = r_message key (ele, mkRwfOp RwfRem t (default 0 (string2ll ele)))) as ->.
  { simpl. unfold set_message. simpl. by rewrite Hs. }
  assert (set_issued n (b + 1) (ele, mkRwfOp RwfRem t (default 0 (string2ll ele)))) as Hiss by (by split_and!).
  apply prepared_issue; [done|done|by apply issued_snoc].
Qed.
End prepare.

(** ** The interface *)

Lemma set_commands key n i hist (w : server) b args :
  1 ≤ n ≤ 100 → 0 ≤ i < n → 0 ≤ b < INT_MAX → set_replica n i key hist w → Forall (set_issued n b) hist →
  Z.of_nat (length hist) ≤ b → set_request key args →
  ∃ w', (request false args w = inr (w', None) ∧ set_replica n i key hist w') ∨
    ∃ p, request false args w = inr (w', Some (r_message key p)) ∧
      set_replica n i key (hist ++ [p]) w' ∧ set_issued n (b + 1) p.
Proof.
  intros Hn Hi Hb Hw Hh _ Hreq.
  assert (∀ k p, set_issued n (b + 1) p ∧ op_kind p.2 = k → rwfs_effect (op_kind p.2) = rwfs_effect (cell := cell) k)
    as Hiss by (by intros k p [_ <-]).
  set (w0 := set_client (new_client false args) w).
  assert (set_replica n i key hist w0) as Hw0 by (by apply replica_set_client).
  destruct Hreq as [ele|ele].
  - destruct (prepared_request n i key hist _ ["rwfsadd"; key; ele] rwfsadd_prepare rwfsadd_effect w ltac:(lia) Hw ltac:(by eexists _, _, (-3))
      (rwfsadd_prepare_run key n i b hist Hn Hi Hb Hh ele w0 Hw0 eq_refl) (Hiss RwfAdd)) as (w' & [?|(p & ? & ? & ? & _)]);
      exists w'; [by left|right; by exists p].
  - destruct (prepared_request n i key hist _ ["rwfsrem"; key; ele] rwfsrem_prepare rwfsrem_effect w ltac:(lia) Hw ltac:(by eexists _, _, (-3))
      (rwfsrem_prepare_run key n i b hist Hn Hi Hb Hh ele w0 Hw0 eq_refl) (Hiss RwfRem)) as (w' & [?|(p & ? & ? & ? & _)]);
      exists w'; [by left|right; by exists p].
Qed.

#[global] Instance rwfset_issued : Issued rwfse (sds * rwf_op Z) := {|
  i_ok := set_issued;
  i_limit := INT_MAX;
  i_mono n b b' p Hb H := conj (rwf_bounded_mono n b b' p.2 Hb (proj1 H)) (proj2 H);
  i_r_ok n b hist Hn Hb H := Forall_impl _ _ _ H (λ p, set_issued_ok n b p Hn Hb);
  i_request := set_request;
  i_client := set_commands
|}.

(** ** Properties *)

Abbreviation set_event key n := (event_ok (A := rwfse) (H := sds * rwf_op Z) key n).

(** C1: The replicated set as a whole system.  Servers run [rwfsadd] and
    [rwfsrem] commands of clients on one set and deliver each other's messages,
    in any interleaving that keeps the order of each link.  No server ever
    faults; from every state reached, deliveries alone empty the links; and
    where the links are empty, all servers answer [rwfscontains] alike for
    every element, and [rwfssize]. *)
Theorem rwfset_system key n conf evs r :
  (1 ≤ n ≤ 100)%nat → Z.of_nat (length evs) ≤ INT_MAX → Forall (set_event key n) evs →
  net_run evs (init_net n conf) = Some r →
  ∃ N, r = inr N ∧
    (quiet n N → ∀ i j wi wj, n_servers N !! i = Some wi → n_servers N !! j = Some wj →
      (∀ ele, ask ["rwfscontains"; key; ele] wi = ask ["rwfscontains"; key; ele] wj) ∧
      ask ["rwfssize"; key] wi = ask ["rwfssize"; key] wj) ∧
    ∃ evs' N', Forall (λ ev, ∃ i j, ev = EDeliver i j) evs' ∧ net_run evs' N = Some (inr N') ∧ quiet n N'.
Proof.
  intros Hn Hlen Hev Hrun.
  destruct (network_run (Issued0 := rwfset_issued) key n Hn conf evs r Hlen Hev Hrun) as (N & -> & Hq & evs' & N' & _ & Hdel & Hrun' & Hquiet).
  exists N. split; [done|]. split; [|by exists evs', N'].
  intros Hquiet0 i j wi wj Hwi Hwj. destruct (Hq Hquiet0 i j wi wj Hwi Hwj) as (hi & hj & H1 & H2 & Hp & Ho1 & Ho2).
  by eapply (set_same key).
Qed.

(** Two servers: one adds 5, the other, having received that, removes it while
    the first adds 7. *)
Definition set_events : list event :=
  [EClient 0 ["rwfsadd"; "s"; "5"]; EDeliver 0 1; EClient 1 ["rwfsrem"; "s"; "5"]; EClient 0 ["rwfsadd"; "s"; "7"];
   EDeliver 1 0].

Lemma rwfset_system_witness :
  ∃ r N, net_run set_events (init_net 2 (mkZconf 128 64)) = Some r ∧ r = inr N ∧
    ∃ evs' N', Forall (λ ev, ∃ i j, ev = EDeliver i j) evs' ∧ net_run evs' N = Some (inr N') ∧ quiet 2 N'.
Proof.
  destruct (net_run set_events (init_net 2 (mkZconf 128 64))) as [r|] eqn:Hr; [|exfalso; vm_compute in Hr; discriminate].
  destruct (rwfset_system "s" 2 (mkZconf 128 64) set_events r) as (N & HN & _ & Hdrain).
  - lia.
  - vm_compute. discriminate.
  - repeat constructor.
  - exact Hr.
  - exists r, N. split; [reflexivity|]. split; [exact HN|exact Hdrain].
Defined.
