(* ===== verification/RwfzsetNet.v ===== *)
(** * Replicated Remove-Win-framework priority queues

    What clients read from the replicas of a priority queue, as a function of
    the operations delivered to them. *)

From S2P Require Import Prelude.
From S2P Require Import Sds.
From S2P Require Import VectorClock.
From S2P Require Import Double.
From S2P Require Import Entries.
From S2P Require Import Skiplist.
From S2P Require Import Zset.
From S2P Require Import Server.
From S2P Require Import Container.
From S2P Require Import Rwf.
From S2P Require Import Rwfzset.
From S2P Require Import RwfzsetRep.
From S2P Require Import P2p.
From S2P Require Import Replicas.

#[local] Open Scope Z_scope.
#[local] Open Scope crdt_scope.

(** ** Messages *)

(** The argument of an operation is the string the client sent. *)
Definition dop (op : rwf_op sds) : rwf_op double :=
  mkRwfOp (op_kind op) (op_t op)
    (match op_kind op with RwfRem => d0 | _ => default d0 (string2d (op_arg op)) end).

Definition dhist (hist : list (sds * rwf_op sds)) : list (sds * rwf_op double) :=
  (λ p, (p.1, dop p.2)) <$> hist.

Definition rpq_message (key : sds) (p : sds * rwf_op sds) : list sds :=
  let t := default "" (vcToSds (op_t p.2)) in
  match op_kind p.2 with
  | RwfAdd => ["rwfzadd"; key; p.1; op_arg p.2; t]
  | RwfUpdate => ["rwfzincrby"; key; p.1; op_arg p.2; t]
  | RwfRem => ["rwfzrem"; key; p.1; t]
  end.

(** Operations of a system of [n] servers. *)
Definition rpq_op_ok (n : Z) (p : sds * rwf_op sds) : Prop :=
  rwf_wf (_vc_new n 0) p.2 ∧ vc_wire_ok (op_t p.2) ∧
  (op_kind p.2 = RwfRem ∨ is_Some (string2d (op_arg p.2))).

#[global] Instance rpq_op_ok_dec n p : Decision (rpq_op_ok n p).
Proof. unfold rpq_op_ok. apply _. Defined.

Definition rpq_prepare (k : rwf_kind) : command :=
  match k with RwfAdd => rwfzadd_prepare | RwfUpdate => rwfzincrby_prepare | RwfRem => rwfzrem_prepare end.

Lemma rpq_message_accepts key p :
  accepts (rpq_message key p) (crdt_command (rpq_prepare (op_kind p.2)) (rwfz_effect (op_kind p.2))).
Proof.
  unfold rpq_message. destruct (op_kind p.2); [eexists _, _, (-4)|eexists _, _, (-4)|eexists _, _, (-3)];
    (split; [done|]; split; [reflexivity|done]).
Qed.

Lemma rpq_message_msg key n p :
  rpq_op_ok n p → rwfz_msg (dop p.2) key p.1 (rpq_message key p).
Proof.
  destruct p as [ele [k t s]]. intros (_ & Hw & Harg). simpl in *. unfold rpq_message, dop. simpl.
  destruct (vcToSds_roundtrip t Hw) as (st & -> & Hs). simpl.
  destruct k; simpl; [| |by constructor]; (destruct Harg as [?|[v Hv]]; [done|]; rewrite Hv; by constructor).
Qed.

(** ** The interface *)

Lemma rpq_wf_owner n i p : rpq_op_ok n p → rwf_wf (_vc_new n i) (dop p.2).
Proof. intros [H _]. exact H. Qed.

Lemma dhist_wf n i hist : Forall (rpq_op_ok n) hist → Forall (λ p, rwf_wf (_vc_new n i) p.2) (dhist hist).
Proof. intros H. unfold dhist. rewrite Forall_fmap. eapply Forall_impl; [exact H|]. intros p. apply rpq_wf_owner. Qed.

Lemma rpq_step key hist p (w : server) r ptrs Ms o :
  cont RWF_RPQ_TABLE_SUFFIX w key ptrs Ms o → rargv (w_client w) = Some r → r_args r = rpq_message key p →
  rwfz_inv (vc_new w) (dhist hist) (Ms, o) → Forall (rpq_op_ok (w_p2p_count w)) (hist ++ [p]) →
  ∃ w' ptrs' s', rwfz_effect (op_kind p.2) w = Done () w' ∧ cont RWF_RPQ_TABLE_SUFFIX w' key ptrs' s'.1 s'.2 ∧
    steps RWF_RPQ_TABLE_SUFFIX key w ptrs w' ptrs' ∧ rwfz_inv (vc_new w) (dhist (hist ++ [p])) s'.
Proof.
  intros C Hr Hargs Hinv Hall. rewrite Forall_app, Forall_singleton in Hall. destruct Hall as [Hh Hp].
  destruct (rwfz_step_inv (vc_new w) (dhist hist) (Ms, o) p.1 (dop p.2) Hinv) as (s' & Hs' & Hinv').
  { eapply Forall_impl; [exact (dhist_wf _ (w_p2p_id w) hist Hh)|]. by intros q [? _]. }
  { by apply (rpq_wf_owner _ (w_p2p_id w) p Hp). }
  destruct (rwfz_effect_run (dop p.2) key p.1 (rpq_message key p) w ptrs Ms o r s')
    as (w1 & ptrs1 & Heff & C1 & S1); [done|done|done|by eapply rpq_message_msg|done|].
  exists w1, ptrs1, s'. split_and!; try done. unfold dhist. by rewrite fmap_app.
Qed.

#[global] Instance rwfzset_replicated : Replicated rwfze (sds * rwf_op sds) := {|
  r_suffix := RWF_RPQ_TABLE_SUFFIX;
  r_suffix_ne := _;
  r_message := rpq_message;
  r_ok n := Forall (rpq_op_ok n);
  r_ok_app _ hist hist' H := proj1 (proj1 (Forall_app _ hist hist') H);
  r_inv c hist := rwfz_inv c (dhist hist);
  r_init := rwfz_inv_init;
  r_prepare p := rpq_prepare (op_kind p.2);
  r_effect p := rwfz_effect (op_kind p.2);
  r_accepts := rpq_message_accepts;
  r_step := rpq_step
|}.

Abbreviation rpq_replica := (replica (A := rwfze) (H := sds * rwf_op sds)).

Lemma rpq_run n i key conf rnd hist :
  n ≠ 0 → Forall (rpq_op_ok n) hist →
  ∃ w, deliver_all (rpq_message key <$> hist) (init_server n i conf rnd) = inr w ∧ rpq_replica n i key hist w.
Proof. exact (@replica_run _ _ _ rwfzset_replicated n i key conf rnd hist). Qed.

(** ** Reading *)

(** The score that the operations on an element amount to. *)
Definition rpq_score (l : list (rwf_op double)) (innate : double) : double :=
  dadd innate (foldl dadd d0 (incs (force l))).

(** What the sorted set holds for an element. *)
Definition rpq_shows (l : list (rwf_op double)) (o : option double) : Prop :=
  ∃ innate, add_value d0 l innate ∧
    ((∃ op, in_force l op ∧ op_kind op ≠ RwfRem) →
      isnan (rpq_score l innate) = false → ∃ s, o = Some s ∧ dkey s = dkey (rpq_score l innate)) ∧
    (¬ (∃ op, in_force l op ∧ op_kind op ≠ RwfRem) → o = None).

Lemma rpq_inv_shows n i hist s ele :
  rwfz_inv (_vc_new n i) (dhist hist) s → Forall (rpq_op_ok n) hist →
  rpq_shows (ops_of ele (dhist hist)) (default ∅ s.2 !! ele).
Proof.
  intros Hinv Hh. destruct (Hinv ele) as [He Hvis]. set (e := default _ _) in *. set (l := ops_of ele (dhist hist)) in *.
  assert (Forall (rwf_wf (_vc_new n i)) l) as Hwf by (apply ops_of_Forall; by apply dhist_wf).
  pose proof (rwf_state_exists (d0, d0) on_add on_incr _ _ Hwf) as Hex. rewrite <- He in Hex. simpl in Hex.
  rewrite rwfz_state_split, (rwf_live_force _ _ Hwf) in He.
  exists (zf_innate e). split; [|split].
  - injection He as _ Hi _. rewrite Hi. by apply rwf_state_add_value.
  - intros Hin Hn. unfold vis_ok in Hvis. rewrite (proj2 Hex Hin) in Hvis.
    assert (rwfz_score e = rpq_score l (zf_innate e)) as Hsc.
    { unfold rwfz_score, rpq_score. injection He as _ _ ->. done. }
    rewrite Hsc in Hvis. by apply Hvis.
  - intros Hnot. unfold vis_ok in Hvis. destruct (EXISTS (zf_header e)); [|done]. exfalso. by apply Hnot, Hex.
Qed.

Lemma rpq_replica_shows n i key hist w :
  rpq_replica n i key hist w → Forall (rpq_op_ok n) hist →
  ∃ m : gmap sds double, (∀ ele, rpq_shows (ops_of ele (dhist hist)) (m !! ele)) ∧
    (∀ ele, ask ["rwfzscore"; key; ele] w = inr [match m !! ele with Some d => RDouble d | None => RNull end]) ∧
    ((m = ∅ ∧ ask ["rwfzmax"; key] w = inr [REmptyArray]) ∨
     ∃ p, ask ["rwfzmax"; key] w = inr [RArrayLen 2; RBulk p.1; RDouble p.2] ∧
       m !! p.1 = Some p.2 ∧ ∀ e s, m !! e = Some s → e ≠ p.1 → plt (s, e) (p.2, p.1)).
Proof.
  intros (_ & _ & ptrs & Ms & o & C & Hinv) Hh. exists (default ∅ o). split_and!.
  - intros ele. exact (rpq_inv_shows n i hist (Ms, o) ele Hinv Hh).
  - intros ele. rewrite (score_reply _ w key ptrs Ms o ele "rwfzscore" C) by (by eexists _, _, 3). done.
  - apply (max_reply _ w key ptrs Ms o "rwfzmax" C). by eexists _, _, 2.
Qed.

(** ** Properties *)

(** C12: What a client reads from a replicated priority queue.  A server that
    receives adds, increments and removes in any order processes them without
    fault.  [rwfzscore] answers nil for an element with no add or increment in
    force (one whose clock is above all others received on the element), and
    otherwise the score that the operations in force amount to: the value of
    the add of the server with the greatest id, or 0 without one, plus the sum
    of the increments in order of arrival.  [rwfzmax] answers an element whose
    entry is greatest among those shown.  A score that is not a number is not
    specified. *)
Theorem rwfzset_scores key n i conf rnd hist :
  n ≠ 0 → Forall (rpq_op_ok n) hist →
  ∃ w (m : gmap sds double), deliver_all (rpq_message key <$> hist) (init_server n i conf rnd) = inr w ∧
    (∀ ele, rpq_shows (ops_of ele (dhist hist)) (m !! ele)) ∧
    (∀ ele, ask ["rwfzscore"; key; ele] w = inr [match m !! ele with Some d => RDouble d | None => RNull end]) ∧
    ((m = ∅ ∧ ask ["rwfzmax"; key] w = inr [REmptyArray]) ∨
     ∃ p, ask ["rwfzmax"; key] w = inr [RArrayLen 2; RBulk p.1; RDouble p.2] ∧
       m !! p.1 = Some p.2 ∧ ∀ e s, m !! e = Some s → e ≠ p.1 → plt (s, e) (p.2, p.1)).
Proof.
  intros Hn Hh. destruct (rpq_run n i key conf rnd hist Hn Hh) as (w & Hd & Hw).
  destruct (rpq_replica_shows n i key hist w Hw Hh) as (m & Hm). by exists w, m.
Qed.

(** Server 0 adds a at 3, server 1 adds it at 5, server 2 increments it by 2
    and later removes it; server 0 adds b at 1. *)
Definition rpq_example : list (sds * rwf_op sds) :=
  [("a", mkRwfOp RwfAdd (mkVc [0; 0; 0] 0) "3"); ("a", mkRwfOp RwfAdd (mkVc [0; 0; 0] 1) "5");
   ("a", mkRwfOp RwfUpdate (mkVc [0; 0; 0] 2) "2"); ("b", mkRwfOp RwfAdd (mkVc [0; 0; 0] 0) "1.5");
   ("a", mkRwfOp RwfRem (mkVc [0; 0; 1] 2) "")].

Lemma rwfzset_scores_witness :
  ∃ w (m : gmap sds double), deliver_all (rpq_message "q" <$> rpq_example) (init_server 3 1 (mkZconf 1 64) [7]) = inr w ∧
    (∀ ele, rpq_shows (ops_of ele (dhist rpq_example)) (m !! ele)) ∧
    (∀ ele, ask ["rwfzscore"; "q"; ele] w = inr [match m !! ele with Some d => RDouble d | None => RNull end]).
Proof.
  destruct (rwfzset_scores "q" 3 1 (mkZconf 1 64) [7] rpq_example) as (w & m & Hd & Hs & Ha & _).
  - done.
  - apply (bool_decide_unpack _). vm_compute. exact I.
  - exists w, m. split; [exact Hd|]. split; [exact Hs|exact Ha].
Defined.

(** *** Convergence *)

(** The scores of a history can be computed in any order: increments in force
    have exact sums, and no score is NaN. *)
Definition rpq_exact (hist : list (sds * rwf_op sds)) : Prop :=
  ∀ ele, let l := ops_of ele (dhist hist) in
    adds_unique l ∧ exact_sums (incs (force l)) ∧
    ∀ innate, add_value d0 l innate → isnan (rpq_score l innate) = false.

Lemma rpq_inv_converge n i1 i2 hist1 hist2 s1 s2 ele :
  rwfz_inv (_vc_new n i1) (dhist hist1) s1 → rwfz_inv (_vc_new n i2) (dhist hist2) s2 →
  Forall (rpq_op_ok n) hist1 → hist1 ≡ₚ hist2 → rpq_exact hist1 →
  same_score (default ∅ s1.2 !! ele) (default ∅ s2.2 !! ele).
Proof.
  intros Hinv1 Hinv2 Hh Hp Hex. destruct (Hex ele) as (Hu & Hsum & Hnan).
  pose proof (rpq_inv_shows n i1 hist1 s1 ele Hinv1 Hh) as (innate & Hadd & _).
  destruct (Hinv1 ele) as [He1 Hvis1], (Hinv2 ele) as [He2 Hvis2].
  set (e1 := default _ (s1.1 !! ele)) in *. set (e2 := default _ (s2.1 !! ele)) in *.
  assert (Forall (rwf_wf (_vc_new n i1)) (ops_of ele (dhist hist1))) as Hwf by (apply ops_of_Forall; by apply dhist_wf).
  destruct (rwfz_state_converge (_vc_new n i1) (_vc_new n i2) (ops_of ele (dhist hist1)) (ops_of ele (dhist hist2)))
    as (Hpid & _ & _ & Hval); [done|by apply rwf_wf_ok|done|apply ops_of_perm; unfold dhist; by rewrite Hp|].
  rewrite (rwf_live_force _ _ Hwf) in Hval. specialize (Hval Hsum). rewrite <- He1, <- He2 in Hpid, Hval.
  simpl in Hpid, Hval. injection Hval as Hi Ha.
  assert (rwfz_score e1 = rwfz_score e2) as Hsc by (unfold rwfz_score; by rewrite Hi, Ha).
  assert (isnan (rwfz_score e1) = false) as Hn1.
  { rewrite rwfz_state_split, (rwf_live_force _ _ Hwf) in He1. injection He1 as _ Hi1 Ha1.
    unfold rwfz_score. rewrite Ha1. apply (Hnan (zf_innate e1)). rewrite Hi1. by apply rwf_state_add_value. }
  unfold vis_ok, EXISTS in Hvis1, Hvis2. rewrite <- Hpid, <- Hsc in Hvis2.
  destruct (negb (pid (zf_header e1) =? PID_NEXIST)).
  - destruct (Hvis1 Hn1) as (a & -> & Ha1), (Hvis2 Hn1) as (b & -> & Hb1). simpl. congruence.
  - by rewrite Hvis1, Hvis2.
Qed.

(** C13: Replicas of a priority queue converge.  Two servers that have received
    the same operations, each in its own order, where every server adds an
    element at most once between removes and increments have exact sums and
    no score is NaN, give the same replies to [rwfzscore] for every element
    and to [rwfzmax], up to doubles that compare equal. *)
Theorem rwfzset_convergence key n i1 conf1 rnd1 i2 conf2 rnd2 hist1 hist2 :
  n ≠ 0 → Forall (rpq_op_ok n) hist1 → hist1 ≡ₚ hist2 → rpq_exact hist1 →
  ∃ w1 w2, deliver_all (rpq_message key <$> hist1) (init_server n i1 conf1 rnd1) = inr w1 ∧
    deliver_all (rpq_message key <$> hist2) (init_server n i2 conf2 rnd2) = inr w2 ∧
    (∀ ele, ∃ r1 r2, ask ["rwfzscore"; key; ele] w1 = inr [r1] ∧
      ask ["rwfzscore"; key; ele] w2 = inr [r2] ∧ same_reply r1 r2) ∧
    ∃ rs1 rs2, ask ["rwfzmax"; key] w1 = inr rs1 ∧ ask ["rwfzmax"; key] w2 = inr rs2 ∧
      Forall2 same_reply rs1 rs2.
Proof.
  intros Hn Hh1 Hp Hex. assert (Forall (rpq_op_ok n) hist2) as Hh2 by (by rewrite <- Hp).
  destruct (rpq_run n i1 key conf1 rnd1 hist1 Hn Hh1) as (w1 & Hd1 & _ & _ & ptrs1 & Ms1 & o1 & C1 & Hinv1).
  destruct (rpq_run n i2 key conf2 rnd2 hist2 Hn Hh2) as (w2 & Hd2 & _ & _ & ptrs2 & Ms2 & o2 & C2 & Hinv2).
  assert (∀ ele, same_score (default ∅ o1 !! ele) (default ∅ o2 !! ele)) as Hs.
  { intros ele. exact (rpq_inv_converge n i1 i2 hist1 hist2 (Ms1, o1) (Ms2, o2) ele Hinv1 Hinv2 Hh1 Hp Hex). }
  exists w1, w2. split; [done|]. split; [done|].
  apply (same_replies _ w1 w2 key ptrs1 ptrs2 Ms1 Ms2 o1 o2 "rwfzscore" "rwfzmax" C1 C2); try done.
  - intros ele. by eexists _, _, 3.
  - by eexists _, _, 2.
Qed.

Lemma rwfzset_convergence_witness :
  let hist := take 3 rpq_example in
  ∃ w1 w2, deliver_all (rpq_message "q" <$> hist) (init_server 3 0 (mkZconf 128 64) []) = inr w1 ∧
    deliver_all (rpq_message "q" <$> reverse hist) (init_server 3 1 (mkZconf 0 64) [1]) = inr w2 ∧
    ∀ ele, ∃ r1 r2, ask ["rwfzscore"; "q"; ele] w1 = inr [r1] ∧
      ask ["rwfzscore"; "q"; ele] w2 = inr [r2] ∧ same_reply r1 r2.
Proof.
  intros hist.
  destruct (rwfzset_convergence "q" 3 0 (mkZconf 128 64) [] 1 (mkZconf 0 64) [1] hist (reverse hist))
    as (w1 & w2 & Hd1 & Hd2 & Hs & _).
  - done.
  - apply (bool_decide_unpack _). vm_compute. exact I.
  - symmetry. apply reverse_Permutation.
  - intros ele. destruct (decide (ele = "a")) as [->|Hne].
    + split_and!.
      * apply (bool_decide_unpack _). vm_compute. exact I.
      * change (incs (force (ops_of "a" (dhist hist)))) with [dofZ 2].
        intros l Hl. by apply Permutation_singleton_l in Hl as ->.
      * intros innate [[-> _]|(op & [Hin _] & _ & -> & _)]; [vm_compute; reflexivity|].
        apply elem_of_cons in Hin as [->|Hin]; [vm_compute; reflexivity|].
        apply elem_of_cons in Hin as [->|Hin]; [vm_compute; reflexivity|].
        apply elem_of_cons in Hin as [->|Hin]; [vm_compute; reflexivity|]. by apply elem_of_nil in Hin.
    + assert (ops_of ele (dhist hist) = []) as ->.
      { unfold ops_of, dhist, hist. simpl. rewrite !filter_cons, filter_nil. simpl. by rewrite !decide_False. }
      split_and!; [by intros op1 op2 ?%elem_of_nil|intros l Hl; apply Permutation_nil_l in Hl; by rewrite <- Hl|].
      intros innate [[-> _]|(op & [Hin _] & _)]; [reflexivity|]. by apply elem_of_nil in Hin.
  - exists w1, w2. split; [exact Hd1|]. split; [exact Hd2|exact Hs].
Defined.

(** Rounding breaks convergence.  Three increments in force, 1e16, 1 and
    -1e16, delivered in two orders leave two servers with different scores
    for the element: without exact sums the replicas diverge for good. *)
Theorem rwfzset_rounding_diverges :
  let op s i := ("a", mkRwfOp RwfUpdate (mkVc [0; 0; 0] i) s) in
  let hist1 := [op "1e16" 0; op "1" 1; op "-1e16" 2] in
  let hist2 := [op "1e16" 0; op "-1e16" 2; op "1" 1] in
  let read hist := match deliver_all (rpq_message "q" <$> hist) (init_server 3 0 (mkZconf 128 64) []) with
                   | inl f => inl f
                   | inr w => ask ["rwfzscore"; "q"; "a"] w
                   end in
  Forall (rpq_op_ok 3) hist1 ∧ hist1 ≡ₚ hist2 ∧
  read hist1 = inr [RDouble (dofZ 0)] ∧ read hist2 = inr [RDouble (dofZ 1)].
Proof.
  intros op hist1 hist2 read. split; [apply (bool_decide_unpack _); vm_compute; exact I|].
  split; [apply Permutation_skip, Permutation_swap|]. split; vm_compute; reflexivity.
Qed.
