(* ===== verification/OsetNet.v ===== *)
(** * Replicated add-win sets

    What clients read from the replicas of an add-win set, as a function of
    the adds and removes delivered to them. *)

From S2P Require Import Prelude.
From S2P Require Import Sds.
From S2P Require Import VectorClock.
From S2P Require Import LamportClock.
From S2P Require Import Double.
From S2P Require Import Skiplist.
From S2P Require Import Zset.
From S2P Require Import Server.
From S2P Require Import Container.
From S2P Require Import TagSet.
From S2P Require Import Oset.
From S2P Require Import OsetRep.
From S2P Require Import P2p.
From S2P Require Import Replicas.

#[local] Open Scope Z_scope.

(** ** Messages *)

Definition oset_message (key : sds) (p : sds * os_op) : list sds :=
  match p.2 with
  | OsAdd t => ["osadd"; key; p.1; lcToSds t]
  | OsRem ts => "osrem" :: key :: p.1 :: (lcToSds <$> ts)
  end.

(** Elements are integers; tags are small enough to be compared. *)
Definition oset_op_ok (p : sds * os_op) : Prop := os_op_ok p.2 ∧ is_Some (string2ll p.1).

#[global] Instance oset_op_ok_dec p : Decision (oset_op_ok p).
Proof. unfold oset_op_ok. apply _. Defined.

Definition oset_prepare (op : os_op) : command :=
  match op with OsAdd _ => osadd_prepare | OsRem _ => osrem_prepare end.

Lemma oset_message_accepts key p :
  accepts (oset_message key p) (crdt_command (oset_prepare p.2) (os_effect p.2)).
Proof.
  unfold oset_message. destruct (p.2) as [t|ts]; eexists _, _, (-3); (split; [done|]; split; [reflexivity|]); [done|].
  cbn [length]. change (0 <? -3) with false. simpl andb. rewrite orb_false_l. apply Z.ltb_ge. lia.
Qed.

Lemma oset_message_msg key p : oset_op_ok p → os_msg p.2 key p.1 (oset_message key p).
Proof. intros [_ Hi]. unfold oset_message. destruct p as [ele [t|ts]]; by constructor. Qed.

(** ** The interface *)

Lemma oset_counters_init : oset_counters 0 (∅, None).
Proof. intros ele. simpl. rewrite lookup_empty. simpl. lia. Qed.

Lemma oset_step key hist p (w : server) r ptrs Ms o :
  cont ORI_SET_TABLE_SUFFIX w key ptrs Ms o → rargv (w_client w) = Some r → r_args r = oset_message key p →
  oset_inv hist (Ms, o) ∧ oset_counters (Z.of_nat (length hist)) (Ms, o) → Forall oset_op_ok (hist ++ [p]) →
  ∃ w' ptrs' s', os_effect p.2 w = Done () w' ∧ cont ORI_SET_TABLE_SUFFIX w' key ptrs' s'.1 s'.2 ∧
    steps ORI_SET_TABLE_SUFFIX key w ptrs w' ptrs' ∧
    oset_inv (hist ++ [p]) s' ∧ oset_counters (Z.of_nat (length (hist ++ [p]))) s'.
Proof.
  intros C Hr Hargs [Hinv Hcnt] Hall. rewrite Forall_app, Forall_singleton in Hall. destruct Hall as [Hh Hp].
  destruct (os_effect_run p.2 key p.1 (oset_message key p) hist w ptrs Ms o r)
    as (w1 & ptrs1 & s' & Heff & C1 & S1 & Hinv1 & Hcnt1);
    [done|done|done|by apply oset_message_msg|done|apply Hp|].
  exists w1, ptrs1, s'. split_and!; try done; [by destruct p|].
  intros ele. specialize (Hcnt1 _ Hcnt ele). rewrite length_app. simpl. lia.
Qed.

#[global] Instance oset_replicated : Replicated ose (sds * os_op) := {|
  r_suffix := ORI_SET_TABLE_SUFFIX;
  r_suffix_ne := _;
  r_message := oset_message;
  r_ok _ := Forall oset_op_ok;
  r_ok_app _ hist hist' H := proj1 (proj1 (Forall_app _ hist hist') H);
  r_inv _ hist s := oset_inv hist s ∧ oset_counters (Z.of_nat (length hist)) s;
  r_init _ := conj oset_inv_init oset_counters_init;
  r_prepare p := oset_prepare p.2;
  r_effect p := os_effect p.2;
  r_accepts := oset_message_accepts;
  r_step := oset_step
|}.

Abbreviation oset_replica := (replica (A := ose) (H := sds * os_op)).

Lemma oset_run n i key conf rnd hist :
  n ≠ 0 → Forall oset_op_ok hist →
  ∃ w, deliver_all (oset_message key <$> hist) (init_server n i conf rnd) = inr w ∧ oset_replica n i key hist w.
Proof. exact (@replica_run _ _ _ oset_replicated n i key conf rnd hist). Qed.

(** ** Reading *)

(** An element is in the set while some tag of it is added and not removed. *)
Definition present (l : list os_op) : Prop := ∃ t, added l t ∧ ¬ removed l t.

Lemma oset_inv_present hist s ele :
  oset_inv hist s → is_Some (default ∅ s.2 !! ele) ↔ present (ops_of ele hist).
Proof.
  intros [Hinv _]. destruct (Hinv ele) as [[_ Haset _ _] Hvis]. unfold os_vis in Hvis. rewrite Hvis. clear Hvis.
  unfold present. setoid_rewrite <- Haset. destruct (os_aset _) as [|a aset].
  - split; [done|]. by intros (t & ?%elem_of_nil).
  - split; [|done]. intros _. exists (osa_t a). by left.
Qed.

Lemma present_perm l1 l2 : l1 ≡ₚ l2 → present l1 ↔ present l2.
Proof. intros Hp. unfold present, added, removed. setoid_rewrite Hp. done. Qed.

Lemma oset_contains n i key hist w ele :
  oset_replica n i key hist w →
  ∃ b, ask ["oscontains"; key; ele] w = inr [if decide (hist = []) then RNull else RBool b] ∧
    (b = true ↔ present (ops_of ele hist)).
Proof.
  intros (_ & _ & ptrs & Ms & o & C & Hinv & _).
  exists (bool_decide (is_Some (default ∅ o !! ele))). split.
  - rewrite (contains_reply _ w key ptrs Ms o ele "oscontains" C) by (by eexists _, _, 3).
    destruct Hinv as [_ Hex]. simpl in Hex. destruct o; simpl; case_decide; try done; (exfalso; naive_solver).
  - rewrite bool_decide_eq_true. exact (oset_inv_present hist (Ms, o) ele Hinv).
Qed.

Lemma oset_size n i key hist w :
  oset_replica n i key hist w →
  ∃ m : gmap sds double,
    ask ["ossize"; key] w = inr [if decide (hist = []) then REmptyArray else RInt (Z.of_nat (size m))] ∧
    ∀ ele, ele ∈ dom m ↔ present (ops_of ele hist).
Proof.
  intros (_ & _ & ptrs & Ms & o & C & Hinv & _). exists (default ∅ o). split.
  - rewrite (size_reply _ w key ptrs Ms o "ossize" C) by (by eexists _, _, 2).
    destruct Hinv as [_ Hex]. simpl in Hex. destruct o; simpl; case_decide; try done; (exfalso; naive_solver).
  - intros ele. rewrite elem_of_dom. exact (oset_inv_present hist (Ms, o) ele Hinv).
Qed.

(** Replicas that have processed the same operations answer alike. *)
Lemma oset_same key n i1 i2 hist1 hist2 w1 w2 :
  oset_replica n i1 key hist1 w1 → oset_replica n i2 key hist2 w2 → hist1 ≡ₚ hist2 →
  (∀ ele, ask ["oscontains"; key; ele] w1 = ask ["oscontains"; key; ele] w2) ∧
  ask ["ossize"; key] w1 = ask ["ossize"; key] w2.
Proof.
  intros Hw1 Hw2 Hp. assert (hist1 = [] ↔ hist2 = []) as Hnil.
  { split; intros ->; [by apply Permutation_nil_l in Hp|by apply Permutation_nil_r in Hp]. }
  assert (∀ ele, present (ops_of ele hist1) ↔ present (ops_of ele hist2)) as Hpr.
  { intros ele. by apply present_perm, ops_of_perm. }
  split.
  - intros ele. destruct (oset_contains n i1 key hist1 w1 ele Hw1) as (b1 & -> & Hb1).
    destruct (oset_contains n i2 key hist2 w2 ele Hw2) as (b2 & -> & Hb2).
    rewrite (decide_ext _ _ _ _ Hnil). assert (b1 = b2) as ->; [|done].
    apply eq_bool_prop_intro. by rewrite !Is_true_true, Hb1, Hb2.
  - destruct (oset_size n i1 key hist1 w1 Hw1) as (m1 & -> & Hm1). destruct (oset_size n i2 key hist2 w2 Hw2) as (m2 & -> & Hm2).
    rewrite (decide_ext _ _ _ _ Hnil). assert (dom m1 = dom m2) as Hdom.
    { apply set_eq. intros ele. by rewrite Hm1, Hm2. }
    by rewrite <- !size_dom, Hdom.
Qed.

(** ** Properties *)

(** C18: What a client reads from a replicated add-win set of integers.  A
    server that receives adds and removes in any order, all of them of elements
    that are decimal integers of 64 bits and with tags in range, processes them
    without fault (no dangling [exist] pointer, no unset value), and answers
    [oscontains] with yes exactly for the elements that have a tag some add
    brought and no remove named.  For an element that is not an integer [osadd]
    reads an unset variable ([osadd_reads_unset]). *)
Theorem oset_members key n i conf rnd hist ele :
  n ≠ 0 → Forall oset_op_ok hist →
  ∃ w b, deliver_all (oset_message key <$> hist) (init_server n i conf rnd) = inr w ∧
    ask ["oscontains"; key; ele] w = inr [if decide (hist = []) then RNull else RBool b] ∧
    (b = true ↔ present (ops_of ele hist)).
Proof.
  intros Hn Hh. destruct (oset_run n i key conf rnd hist Hn Hh) as (w & Hd & Hw).
  destruct (oset_contains n i key hist w ele Hw) as (b & Hask & Hb). by exists w, b.
Qed.

(** Servers 0 and 1 add 5 concurrently; server 0 removes what it has seen. *)
Definition oset_example : list (sds * os_op) :=
  [("5", OsAdd (mkLc 0 0)); ("5", OsRem [mkLc 0 0]); ("5", OsAdd (mkLc 0 1)); ("7", OsAdd (mkLc 0 2))].

Lemma oset_members_witness :
  ∃ w b, deliver_all (oset_message "s" <$> oset_example) (init_server 3 2 (mkZconf 1 64) [5; 70000]) = inr w ∧
    ask ["oscontains"; "s"; "5"] w = inr [RBool b] ∧ (b = true ↔ present (ops_of "5" oset_example)).
Proof.
  apply (oset_members "s" 3 2 (mkZconf 1 64) [5; 70000] oset_example "5"); [done|].
  apply (bool_decide_unpack _). vm_compute. exact I.
Defined.

(** C19: Replicas of an add-win set of integers converge.  Two servers that
    have received the same adds and removes of integer elements, each in its own
    order (a remove may even arrive before the add it removes), give the same
    replies to [oscontains] for every element and to [ossize]. *)
Theorem oset_convergence key n i1 conf1 rnd1 i2 conf2 rnd2 hist1 hist2 :
  n ≠ 0 → Forall oset_op_ok hist1 → hist1 ≡ₚ hist2 →
  ∃ w1 w2, deliver_all (oset_message key <$> hist1) (init_server n i1 conf1 rnd1) = inr w1 ∧
    deliver_all (oset_message key <$> hist2) (init_server n i2 conf2 rnd2) = inr w2 ∧
    (∀ ele, ask ["oscontains"; key; ele] w1 = ask ["oscontains"; key; ele] w2) ∧
    ask ["ossize"; key] w1 = ask ["ossize"; key] w2.
Proof.
  intros Hn Hh1 Hp. assert (Forall oset_op_ok hist2) as Hh2 by (by rewrite <- Hp).
  destruct (oset_run n i1 key conf1 rnd1 hist1 Hn Hh1) as (w1 & Hd1 & Hw1).
  destruct (oset_run n i2 key conf2 rnd2 hist2 Hn Hh2) as (w2 & Hd2 & Hw2).
  exists w1, w2. split; [done|]. split; [done|]. by eapply oset_same.
Qed.

Lemma oset_convergence_witness :
  ∃ w1 w2, deliver_all (oset_message "s" <$> oset_example) (init_server 3 1 (mkZconf 128 64) []) = inr w1 ∧
    deliver_all (oset_message "s" <$> reverse oset_example) (init_server 3 2 (mkZconf 0 64) [1; 70000]) = inr w2 ∧
    (∀ ele, ask ["oscontains"; "s"; ele] w1 = ask ["oscontains"; "s"; ele] w2) ∧
    ask ["ossize"; "s"] w1 = ask ["ossize"; "s"] w2.
Proof.
  apply (oset_convergence "s" 3 1 (mkZconf 128 64) [] 2 (mkZconf 0 64) [1; 70000] oset_example (reverse oset_example)).
  - done.
  - apply (bool_decide_unpack _). vm_compute. exact I.
  - symmetry. apply reverse_Permutation.
Defined.
