(* ===== verification/OsetSys.v ===== *)
(** * The add-win set as a system

    Clients add and remove integer elements at any server of a network; the
    prepare phases draw the tags, the links carry them, and the servers agree
    when nothing is left on the links. *)

From S2P Require Import Prelude.
From S2P Require Import Sds.
From S2P Require Import VectorClock.
From S2P Require Import LamportClock.
From S2P Require Import Double.
From S2P Require Import Skiplist.
From S2P Require Import Zset.
From S2P Require Import Server.
From S2P Require Import Container.
From S2P Require Import TagSet.
From S2P Require Import Oset.
From S2P Require Import OsetRep.
From S2P Require Import P2p.
From S2P Require Import Replicas.
From S2P Require Import Network.
From S2P Require Import OsetNet.

#[local] Open Scope Z_scope.

(** ** Issued operations *)

(** Tags of a system of [n] servers with counters up to [b]. *)
Definition tag_issued (n b : Z) (t : lc) : Prop := 0 ≤ lx t ≤ b ∧ 0 ≤ lid t < n.

Definition oset_issued (n b : Z) (p : sds * os_op) : Prop :=
  is_Some (string2ll p.1) ∧
  match p.2 with OsAdd t => tag_issued n b t | OsRem ts => Forall (tag_issued n b) ts end.

(** Half of the range of [int], for differences of counters to fit. *)
Definition tag_limit : Z := 2^30 - 1.

Lemma tag_issued_mono n b b' t : b ≤ b' → tag_issued n b t → tag_issued n b' t.
Proof. unfold tag_issued. lia. Qed.

Lemma oset_issued_mono n b b' p : b ≤ b' → oset_issued n b p → oset_issued n b' p.
Proof.
  intros Hb [Hi Hp]. split; [done|]. destruct (p.2) as [t|ts]; [by eapply tag_issued_mono|].
  eapply Forall_impl; [exact Hp|]. intros t. by apply tag_issued_mono.
Qed.

Lemma tag_issued_ok n b t : n ≤ 100 → b ≤ tag_limit → tag_issued n b t → lc_ok t.
Proof. unfold tag_issued, lc_ok, tag_limit. lia. Qed.

Lemma oset_issued_ok n b p : 1 ≤ n ≤ 100 → b ≤ tag_limit → oset_issued n b p → oset_op_ok p.
Proof.
  intros Hn Hb [Hi Hp]. split; [|done]. destruct (p.2) as [t|ts]; simpl; [eapply (tag_issued_ok n b); [lia|done|done]|].
  eapply Forall_impl; [exact Hp|]. intros t. apply (tag_issued_ok n b); [lia|done].
Qed.

(** Client commands on the set [key]. *)
Inductive oset_request (key : sds) : list sds → Prop :=
  | oset_request_add ele : is_Some (string2ll ele) → oset_request key ["osadd"; key; ele]
  | oset_request_rem ele : is_Some (string2ll ele) → oset_request key ["osrem"; key; ele].

(** An element has no more tags than operations. *)
Lemma added_length ele (hist : list (sds * os_op)) ts :
  NoDup ts → (∀ t, t ∈ ts → added (ops_of ele hist) t) → (length ts ≤ length hist)%nat.
Proof.
  intros Hnd Hadd. rewrite <- (length_fmap OsAdd ts). etrans; [apply (submseteq_length _ (ops_of ele hist)), NoDup_submseteq|].
  - apply NoDup_fmap_2; [by intros ?? [= ->]|done].
  - intros x (t & -> & Ht)%list_elem_of_fmap. by apply Hadd.
  - unfold ops_of. rewrite length_fmap. apply length_filter.
Qed.

(** ** The prepare phases *)

Section prepare.
Context (key : sds) (n i b : Z) (hist : list (sds * os_op)).
Context (Hn : 1 ≤ n ≤ 100) (Hi : 0 ≤ i < n) (Hb : 0 ≤ b < tag_limit) (Hh : Forall (oset_issued n b) hist).
Context (Hlen : Z.of_nat (length hist) ≤ b).
Implicit Types (w : server) (Ms : gmap sds ose).

Abbreviation ocont := (cont (A := ose) ORI_SET_TABLE_SUFFIX).
Abbreviation oset_prepared eff := (prepared (A := ose) n i key hist (λ p, oset_issued n (b + 1) p ∧ os_effect p.2 = eff)).

Lemma oset_issued_snoc p : oset_issued n (b + 1) p → Forall oset_op_ok (hist ++ [p]).
Proof.
  intros Hp. apply Forall_app. split; [|apply Forall_singleton, (oset_issued_ok n (b + 1)); [done|lia|done]].
  eapply Forall_impl; [exact Hh|]. intros q. apply (oset_issued_ok n b); [done|lia].
Qed.

(** Metadata with the same sets and any counter. *)
Lemma os_inv_counter v l e c : os_inv v l e → os_inv v l (mkOse c (os_exist e) (os_aset e) (os_rset e)).
Proof using Type. intros [[] ? ? ?]. by split; [split|..]. Qed.

Lemma oset_inv_counter Ms o ele c :
  oset_inv hist (Ms, o) → let e := default oseNew (Ms !! ele) in
  oset_inv hist (<[ele := mkOse c (os_exist e) (os_aset e) (os_rset e)]> Ms, o).
Proof using Type.
  intros [Hinv Hex] e. split; [|done]. intros ele'. specialize (Hinv ele'). simpl in *.
  destruct (decide (ele = ele')) as [<-|Hne]; [rewrite lookup_insert_eq|by rewrite lookup_insert_ne].
  destruct Hinv as [H1 H2]. split; [by apply os_inv_counter|done].
Qed.

Lemma oset_counters_store k Ms o ele e' :
  oset_counters k (Ms, o) → 0 ≤ os_current e' ≤ k → oset_counters k (<[ele := e']> Ms, o).
Proof using Type.
  intros Hk He ele'. simpl. destruct (decide (ele = ele')) as [<-|Hne]; [by rewrite lookup_insert_eq|].
  rewrite lookup_insert_ne by done. apply Hk.
Qed.

Lemma oset_replica_touch w w' ptrs ptrs' Ms o ele :
  oset_replica n i key hist w → oset_inv hist (Ms, o) → oset_counters (Z.of_nat (length hist)) (Ms, o) →
  ocont w' key ptrs' (<[ele := default oseNew (Ms !! ele)]> Ms) o →
  steps ORI_SET_TABLE_SUFFIX key w ptrs w' ptrs' → oset_replica n i key hist w'.
Proof using Type.
  intros (Hc & Hid & _) Hinv Hcnt C S. destruct (steps_client _ _ _ _ _ _ S) as (_ & Hc1 & Hid1 & _).
  split_and!; [congruence..|]. eexists ptrs', _, o. split; [exact C|]. split.
  - pose proof (oset_inv_counter Ms o ele (os_current (default oseNew (Ms !! ele))) Hinv) as H. simpl in H.
    by destruct (default oseNew (Ms !! ele)).
  - apply oset_counters_store; [done|]. apply (Hcnt ele).
Qed.

(** The counter has moved on, then the effect phase adds the tag. *)
Lemma osadd_issue ele w ptrs Ms o :
  let args := ["osadd"; key; ele] in let e := default oseNew (Ms !! ele) in
  let t := mkLc (os_current e) i in
  is_Some (string2ll ele) → w_p2p_count w = n → w_p2p_id w = i → w_client w = new_client false args →
  oset_inv hist (Ms, o) → oset_counters (Z.of_nat (length hist)) (Ms, o) →
  ocont w key ptrs (<[ele := mkOse (wrap32 (os_current e + 1)) (os_exist e) (os_aset e) (os_rset e)]> Ms) o →
  oset_prepared osadd_effect args (RARGV_ADD_SDS (lcToSds t) w).
Proof.
  intros args e t Hint Hc Hid Hcl Hinv Hcnt C. rewrite (RARGV_ADD_SDS_run w args _ Hcl).
  set (p := (ele, OsAdd t)). change (args ++ [lcToSds t]) with (oset_message key p).
  pose proof (Hcnt ele) as Hcur. simpl in Hcur. fold e in Hcur.
  assert (oset_issued n (b + 1) p) as Hp by (split; [done|]; unfold tag_issued; simpl; lia).
  eexists. right. set (cap := Z.of_nat _ + _). set (c := mkClient args (Some (mkRargs (oset_message key p) cap)) false false [ROk]).
  destruct (os_effect_run (OsAdd t) key ele (oset_message key p) hist (set_client c w) ptrs
    (<[ele := mkOse (wrap32 (os_current e + 1)) (os_exist e) (os_aset e) (os_rset e)]> Ms) o (mkRargs (oset_message key p) cap))
    as (w2 & ptrs2 & s2 & Heff & C2 & S2 & Hinv2 & Hcnt2).
  - by apply cont_set_client.
  - done.
  - done.
  - by apply (oset_message_msg key p), (oset_issued_ok n (b + 1)); [|lia|].
  - by apply oset_inv_counter.
  - eapply (tag_issued_ok n (b + 1)); [lia|lia|apply Hp].
  - destruct (steps_client _ _ _ _ _ _ S2) as (_ & Hc2 & Hid2 & _ & Hcl2). simpl in Hc2, Hid2, Hcl2.
    exists p, cap, w2. split_and!; [done..|]. split_and!; [congruence..|].
    exists ptrs2, s2.1, s2.2. split; [done|]. split; [by destruct s2|]. rewrite length_app. simpl.
    assert (oset_counters (Z.of_nat (length hist + 1)) s2); [|by destruct s2]. apply Hcnt2, oset_counters_store.
    + intros ele'. specialize (Hcnt ele'). simpl in *. lia.
    + simpl. rewrite wrap32_id by (unfold int32, INT_MIN, INT_MAX, tag_limit in *; lia). lia.
Qed.

Lemma osadd_prepare_run ele w :
  let args := ["osadd"; key; ele] in
  is_Some (string2ll ele) → oset_replica n i key hist w → w_client w = new_client false args →
  oset_prepared osadd_effect args (osadd_prepare w).
Proof.
  intros args Hint Hw Hcl. pose proof Hw as (Hc & Hid & ptrs & Ms & o & C & Hinv & Hcnt). unfold osadd_prepare.
  mstep (CHECK_ARGC_run 3 w args [] Hcl ltac:(simpl; lia)).
  mstep (CHECK_CONTAINER_TYPE_run _ w key ptrs Ms o args [] C Hcl eq_refl).
  mstep (arg_spec w 1 key ltac:(by rewrite Hcl)). mstep (arg_spec w 2 ele ltac:(by rewrite Hcl)).
  destruct (rehHTGet_create _ w key ptrs Ms o ele (λ _, oseNew) C) as (w1 & l & ptrs1 & Hget & Hl & C1 & S1); [done|].
  unfold GET_OSE. mstep Hget. erewrite bind_Done by done. set (e := default oseNew (Ms !! ele)) in *.
  mstep (load_spec _ w1 key ptrs1 _ o ele l e C1 Hl (lookup_insert_eq _ _ _)).
  destruct (steps_client _ _ _ _ _ _ S1) as (_ & Hc1 & Hid1 & _ & Hcl1). rewrite Hcl in Hcl1.
  destruct (os_LOOKUP e).
  { rewrite (reply_return _ w1 args [] Hcl1). apply prepared_reject. by eapply (oset_replica_touch w w1). }
  erewrite bind_Done by done. cbv beta zeta.
  destruct (store_spec _ w1 key ptrs1 _ o ele l (mkOse (wrap32 (os_current e + 1)) (os_exist e) (os_aset e) (os_rset e)) C1 Hl)
    as (w2 & Hst & C2 & S2). mstep Hst. rewrite insert_insert_eq in C2.
  destruct (steps_client _ _ _ _ _ _ S2) as (_ & Hc2 & Hid2 & _ & Hcl2). rewrite Hcl1 in Hcl2.
  unfold _lc_new. replace (w_p2p_id w1) with i by congruence. eapply osadd_issue; [done|congruence|congruence|done..|exact C2].
Qed.

Lemma osrem_prepare_run ele w :
  let args := ["osrem"; key; ele] in
  is_Some (string2ll ele) → oset_replica n i key hist w → w_client w = new_client false args →
  oset_prepared osrem_effect args (osrem_prepare w).
Proof.
  intros args Hint Hw Hcl. pose proof Hw as (Hc & Hid & ptrs & Ms & o & C & Hinv & Hcnt). unfold osrem_prepare.
  mstep (CHECK_ARGC_run 3 w args [] Hcl ltac:(simpl; lia)).
  mstep (CHECK_CONTAINER_TYPE_run _ w key ptrs Ms o args [] C Hcl eq_refl).
  mstep (arg_spec w 1 key ltac:(by rewrite Hcl)). mstep (arg_spec w 2 ele ltac:(by rewrite Hcl)).
  unfold GET_OSE. mstep (rehHTGet_find _ w key ptrs Ms o ele (λ _, oseNew) C).
  destruct (ptrs !! ele) as [l|] eqn:Hl.
  2: { rewrite (reply_return _ w args [] Hcl). by apply prepared_reject. }
  destruct (cont_ptr _ _ _ _ _ _ _ _ C Hl) as (_ & e & He & _).
  mstep (load_spec _ w key ptrs Ms o ele l e C Hl He). destruct (os_LOOKUP e) eqn:Hlk.
  2: { rewrite (reply_return _ w args [] Hcl). by apply prepared_reject. }
  apply os_LOOKUP_spec in Hlk. set (ts := osa_t <$> os_aset e).
  destruct (proj1 Hinv ele) as [[Hshape Haset _ _] _]. simpl in Hshape, Haset. rewrite He in Hshape, Haset. simpl in Hshape, Haset.
  assert (Z.of_nat (length ts) ≤ b) as Hts.
  { pose proof (added_length ele hist ts (os_tags _ _ Hshape)) as H. transitivity (Z.of_nat (length hist)); [|done]. apply Nat2Z.inj_le, H.
    by intros t [? _]%Haset. }
  destruct (RARGV_ADD_TAGS_start ts w args [] Hcl) as (cap & -> & _);
    [unfold ts; by destruct (os_aset e)|unfold tag_limit, INT_MAX in *; simpl length; lia|].
  change (args ++ (lcToSds <$> ts)) with (r_message key (ele, OsRem ts)).
  assert (oset_issued n (b + 1) (ele, OsRem ts)) as Hp.
  { split; [done|]. apply Forall_forall. intros t [Hadd _]%Haset. unfold added in Hadd.
    assert (Forall (oset_issued n b) [(ele, OsAdd t)]) as Ho.
    { apply Forall_singleton. apply (proj1 (Forall_forall _ _) Hh). unfold ops_of in Hadd.
      apply list_elem_of_fmap in Hadd as ([? ?] & Heq & [Hfst Hin]%list_elem_of_filter). simpl in *. by subst. }
    apply Forall_singleton in Ho as [_ Ho]. simpl in Ho. eapply tag_issued_mono; [|exact Ho]. lia. }
  apply prepared_issue; [done|done|by apply oset_issued_snoc].
Qed.
End prepare.

(** ** The interface *)

Lemma oset_commands key n i hist (w : server) b args :
  1 ≤ n ≤ 100 → 0 ≤ i < n → 0 ≤ b < tag_limit → oset_replica n i key hist w → Forall (oset_issued n b) hist →
  Z.of_nat (length hist) ≤ b → oset_request key args →
  ∃ w', (request false args w = inr (w', None) ∧ oset_replica n i key hist w') ∨
    ∃ p, request false args w = inr (w', Some (r_message key p)) ∧
      oset_replica n i key (hist ++ [p]) w' ∧ oset_issued n (b + 1) p.
Proof.
  intros Hn Hi Hb Hw Hh Hlen Hreq. set (w0 := set_client (new_client false args) w).
  assert (oset_replica n i key hist w0) as Hw0 by (by apply replica_set_client).
  destruct Hreq as [ele Hint|ele Hint].
  - destruct (prepared_request n i key hist _ ["osadd"; key; ele] osadd_prepare osadd_effect w ltac:(lia) Hw
      ltac:(by eexists _, _, (-3)) (osadd_prepare_run key n i b hist Hn Hi Hb Hh Hlen ele w0 Hint Hw0 eq_refl) (λ p H, proj2 H))
      as (w' & [?|(p & ? & ? & ? & _)]); exists w'; [by left|right; by exists p].
  - destruct (prepared_request n i key hist _ ["osrem"; key; ele] osrem_prepare osrem_effect w ltac:(lia) Hw
      ltac:(by eexists _, _, (-3)) (osrem_prepare_run key n i b hist Hn Hi Hb Hh Hlen ele w0 Hint Hw0 eq_refl) (λ p H, proj2 H))
      as (w' & [?|(p & ? & ? & ? & _)]); exists w'; [by left|right; by exists p].
Qed.

#[global] Instance oset_issued_class : Issued ose (sds * os_op) := {|
  i_ok := oset_issued;
  i_limit := tag_limit;
  i_mono := oset_issued_mono;
  i_r_ok n b hist Hn Hb H := Forall_impl _ _ _ H (λ p, oset_issued_ok n b p Hn Hb);
  i_request := oset_request;
  i_client := oset_commands
|}.

(** ** Properties *)

Abbreviation oset_event key n := (event_ok (A := ose) (H := sds * os_op) key n).

(** C2: The add-win set as a whole system.  Servers run [osadd] and [osrem]
    commands of clients on the integer elements of one set and deliver each
    other's messages, in any interleaving that keeps the order of each link.
    No server ever faults; from every state reached, deliveries alone empty
    the links; and where the links are empty, all servers answer [oscontains]
    alike for every element, and [ossize]. *)
Theorem oset_system key n conf evs r :
  (1 ≤ n ≤ 100)%nat → Z.of_nat (length evs) ≤ tag_limit → Forall (oset_event key n) evs →
  net_run evs (init_net n conf) = Some r →
  ∃ N, r = inr N ∧
    (quiet n N → ∀ i j wi wj, n_servers N !! i = Some wi → n_servers N !! j = Some wj →
      (∀ ele, ask ["oscontains"; key; ele] wi = ask ["oscontains"; key; ele] wj) ∧
      ask ["ossize"; key] wi = ask ["ossize"; key] wj) ∧
    ∃ evs' N', Forall (λ ev, ∃ i j, ev = EDeliver i j) evs' ∧ net_run evs' N = Some (inr N') ∧ quiet n N'.
Proof.
  intros Hn Hlen Hev Hrun.
  destruct (network_run (Issued0 := oset_issued_class) key n Hn conf evs r Hlen Hev Hrun) as (N & -> & Hq & evs' & N' & _ & Hdel & Hrun' & Hquiet).
  exists N. split; [done|]. split; [|by exists evs', N'].
  intros Hquiet0 i j wi wj Hwi Hwj. destruct (Hq Hquiet0 i j wi wj Hwi Hwj) as (hi & hj & H1 & H2 & Hp & _).
  by eapply (oset_same key).
Qed.

(** Both servers add 5, the first removes it before the add of the second
    arrives. *)
Definition oset_events : list event :=
  [EClient 0 ["osadd"; "s"; "5"]; EClient 1 ["osadd"; "s"; "5"]; EClient 0 ["osrem"; "s"; "5"]; EDeliver 0 1;
   EDeliver 1 0].

Lemma oset_system_witness :
  ∃ r N, net_run oset_events (init_net 2 (mkZconf 128 64)) = Some r ∧ r = inr N ∧
    ∃ evs' N', Forall (λ ev, ∃ i j, ev = EDeliver i j) evs' ∧ net_run evs' N = Some (inr N') ∧ quiet 2 N'.
Proof.
  destruct (net_run oset_events (init_net 2 (mkZconf 128 64))) as [r|] eqn:Hr; [|exfalso; vm_compute in Hr; discriminate].
  destruct (oset_system "s" 2 (mkZconf 128 64) oset_events r) as (N & HN & _ & Hdrain).
  - lia.
  - vm_compute. discriminate.
  - repeat constructor; by eexists.
  - exact Hr.
  - exists r, N. split; [reflexivity|]. split; [exact HN|exact Hdrain].
Defined.
