(* ===== verification/OzsetNet.v ===== *)
(** * Replicated add-win priority queues

    What clients read from the replicas of an add-win priority queue, as a
    function of the adds, increments and removes delivered to them. *)

From S2P Require Import Prelude.
From S2P Require Import Sds.
From S2P Require Import VectorClock.
From S2P Require Import LamportClock.
From S2P Require Import Double.
From S2P Require Import DoubleAdd.
From S2P Require Import Entries.
From S2P Require Import Skiplist.
From S2P Require Import Zset.
From S2P Require Import Server.
From S2P Require Import Container.
From S2P Require Import TagSet.
From S2P Require Import Ozset.
From S2P Require Import OzsetRep.
From S2P Require Import P2p.
From S2P Require Import Replicas.

#[local] Open Scope Z_scope.

(** ** Messages *)

(** Values travel as the strings that clients sent. *)
Definition oz_read (op : oz_op sds) : ozop :=
  match op with
  | OzAdd t s => OzAdd t (default d0 (string2d s))
  | OzInc ts s => OzInc ts (default d0 (string2d s))
  | OzRem ts => OzRem ts
  end.

Definition oz_hist (hist : list (sds * oz_op sds)) : list (sds * ozop) := (λ p, (p.1, oz_read p.2)) <$> hist.

Definition oz_message (key : sds) (p : sds * oz_op sds) : list sds :=
  match p.2 with
  | OzAdd t s => ["ozadd"; key; p.1; s; lcToSds t]
  | OzInc ts s => "ozincrby" :: key :: p.1 :: s :: (lcToSds <$> ts)
  | OzRem ts => "ozrem" :: key :: p.1 :: (lcToSds <$> ts)
  end.

Definition oz_reads (p : sds * oz_op sds) : Prop :=
  match p.2 with OzAdd _ s | OzInc _ s => is_Some (string2d s) | OzRem _ => True end.

#[global] Instance oz_reads_dec p : Decision (oz_reads p).
Proof. unfold oz_reads. destruct (p.2); apply _. Defined.

Definition ozq_ok (hist : list (sds * oz_op sds)) : Prop := Forall oz_reads hist ∧ oz_ok (oz_hist hist).

#[global] Instance ozq_ok_dec hist : Decision (ozq_ok hist).
Proof. unfold ozq_ok. apply _. Defined.

Lemma ozq_ok_app hist hist' : ozq_ok (hist ++ hist') → ozq_ok hist.
Proof. intros [[H1 _]%Forall_app H2]. split; [done|]. unfold oz_hist in H2. rewrite fmap_app in H2. by eapply oz_ok_app. Qed.

Definition oz_prepare (op : oz_op sds) : command :=
  match op with OzAdd _ _ => ozadd_prepare | OzInc _ _ => ozincrby_prepare | OzRem _ => ozrem_prepare end.

Lemma oz_message_accepts key p :
  accepts (oz_message key p) (crdt_command (oz_prepare p.2) (oz_effect p.2)).
Proof.
  unfold oz_message. destruct (p.2) as [t s|ts s|ts]; [eexists _, _, (-4)|eexists _, _, (-4)|eexists _, _, (-3)];
    (split; [done|]; split; [reflexivity|]); [done|..]; cbn [length]; simpl andb; rewrite orb_false_l; apply Z.ltb_ge; lia.
Qed.

Lemma oz_message_msg key p : oz_reads p → oz_msg (oz_read p.2) key p.1 (oz_message key p).
Proof.
  unfold oz_message, oz_reads. destruct p as [ele [t s|ts s|ts]]; simpl; [| |by constructor]; intros [v Hv]; rewrite Hv; by constructor.
Qed.

(** ** The interface *)

Lemma oz_step key hist p (w : server) r ptrs Ms o :
  cont ORI_RPQ_TABLE_SUFFIX w key ptrs Ms o → rargv (w_client w) = Some r → r_args r = oz_message key p →
  oz_inv (oz_hist hist) (Ms, o) → ozq_ok (hist ++ [p]) →
  ∃ w' ptrs' s', oz_effect p.2 w = Done () w' ∧ cont ORI_RPQ_TABLE_SUFFIX w' key ptrs' s'.1 s'.2 ∧
    steps ORI_RPQ_TABLE_SUFFIX key w ptrs w' ptrs' ∧ oz_inv (oz_hist (hist ++ [p])) s'.
Proof.
  intros C Hr Hargs Hinv [[_ Hp%Forall_inv]%Forall_app Hok]. unfold oz_hist in Hok |- *. rewrite fmap_app in Hok |- *.
  destruct (oz_effect_run (oz_read p.2) key p.1 (oz_message key p) (oz_hist hist) w ptrs Ms o r) as (w1 & ptrs1 & s' & Heff & C1 & S1 & Hinv1);
    [done|done|done|by apply oz_message_msg|done|done|].
  exists w1, ptrs1, s'. split_and!; [|done..]. rewrite <- Heff. by destruct (p.2).
Qed.

#[global] Instance ozset_replicated : Replicated oze (sds * oz_op sds) := {|
  r_suffix := ORI_RPQ_TABLE_SUFFIX;
  r_suffix_ne := _;
  r_message := oz_message;
  r_ok _ := ozq_ok;
  r_ok_app _ := ozq_ok_app;
  r_inv _ hist := oz_inv (oz_hist hist);
  r_init _ := oz_inv_init;
  r_prepare p := oz_prepare p.2;
  r_effect p := oz_effect p.2;
  r_accepts := oz_message_accepts;
  r_step := oz_step
|}.

Abbreviation oz_replica := (replica (A := oze) (H := sds * oz_op sds)).

Lemma ozq_run n i key conf rnd hist :
  n ≠ 0 → ozq_ok hist →
  ∃ w, deliver_all (oz_message key <$> hist) (init_server n i conf rnd) = inr w ∧ oz_replica n i key hist w.
Proof. exact (@replica_run _ _ _ ozset_replicated n i key conf rnd hist). Qed.

(** ** Reading *)

Section reading.
Implicit Types (l : list ozop).

(** The live add whose value counts: the one of the greatest tag. *)
Definition oz_top l (t : lc) : Prop := oz_live l t ∧ ∀ t', oz_live l t' → ¬ tag_lt t t'.

(** The live add whose increments count: the one whose increments have the
    greatest sum of magnitudes, and of those the one of the greatest tag. *)
Definition oz_heaviest l (u : lc) : Prop :=
  oz_live l u ∧ ∀ t', oz_live l t' → ¬ acq_lt (weight (oz_incs l u)) u (weight (oz_incs l t')) t'.

Definition oz_total l (v : double) (u : lc) : double := dadd v (dsum (oz_incs l u)).

(** What the sorted set holds for an element after the operations [l]. *)
Definition oz_shows l (o : option double) : Prop :=
  ((∀ t, ¬ oz_live l t) → o = None) ∧
  ((∃ t, oz_live l t) → ∃ t v u, oz_top l t ∧ OzAdd t v ∈ l ∧ oz_heaviest l u ∧
    (isnan (oz_total l v u) = false → ∃ d, o = Some d ∧ dkey d = dkey (oz_total l v u))).

Lemma heaviest_entry l e :
  oz_elem l e → oz_aset e ≠ [] → ∃ m, m ∈ oz_aset e ∧ ∀ b, b ∈ oz_aset e → ¬ ase_lt m b.
Proof.
  intros [S _ _] Hne. pose proof (max_loop_spec acquired_lt (λ x y, ase_lt x y) (λ x, x ∈ oz_aset e) None (oz_aset e)
    ltac:(intros x y Hx Hy; apply acquired_lt_spec; (by eapply zs_nonneg) || (by eapply zs_lc_ok)) ltac:(intros x; apply acq_lt_irrefl)
    ltac:(intros x y z; apply acq_lt_trans) ltac:(intros x y z; apply ase_lt_neg) ltac:(by intros x [?|?])) as M.
  destruct (max_loop _ _ _) as [m|]; [|by destruct M]. destruct M as [[?|Hm] Hmax]; [done|]. exists m. split; [done|].
  intros b Hb. apply Hmax. by right.
Qed.

(** An entry without weight has no increment to count. *)
Lemma weightless_inc l e a : oz_elem l e → a ∈ oz_aset e → weightless a → oza_inc a = d0.
Proof.
  intros [S _ _] Ha Hw. destruct (zs_entry _ _ _ _ _ S a Ha) as (_ & -> & Hc). apply weight_zero; [apply S|]. by rewrite <- Hc.
Qed.

(** The pointer leads to the increments that count. *)
Lemma acquired_inc l e i oa m :
  oz_elem l e → oz_points e i oa → m ∈ oz_aset e → (∀ b, b ∈ oz_aset e → ¬ ase_lt m b) →
  match oa with Some a => oza_inc a | None => d0 end = oza_inc m.
Proof.
  intros E (_ & _ & Hq & Hin) Hm Hmax. pose proof E as [S _ Hn]. destruct oa as [a|]; simpl in Hq.
  - specialize (Hin a eq_refl). destruct (zs_acquired _ _ _ _ _ S _ Hq) as (a' & Ha' & Haddr & Hle).
    assert (a' = a) as -> by (by eapply zs_same_addr).
    destruct (acq_lt_total (oza_count a) (oza_t a) (oza_count m) (oza_t m)) as [Hlt|[[_ Ht]|Hgt]].
    + pose proof (Hle m Hm Hlt) as Hw. rewrite (weightless_inc l e m E Hm Hw). apply (weightless_inc l e a E Hin).
      pose proof (zs_nonneg _ _ _ _ _ S a Hin) as Hnn. unfold weightless in *. destruct (nonneg_key _ Hnn) as [?|Hk]; [done|].
      unfold acq_lt in Hlt. rewrite Hw in Hlt. destruct Hlt as [Hlt|[? _]]; [|done].
      exfalso. by apply (key_lt_irrefl (0, 0, 0)), (key_lt_trans _ (dkey (oza_count a))).
    + by rewrite (zs_same _ _ _ _ _ S a m).
    + by apply Hmax in Hgt.
  - symmetry. apply (weightless_inc l e m E Hm). by apply Hn.
Qed.

Lemma oz_elem_shows l e o : oz_elem l e → oz_vis e o → oz_shows l o.
Proof.
  intros E [Hv1 Hv2]. pose proof E as [S _ _]. split.
  - intros Hn. by apply Hv1, (zs_empty _ _ _ _ _ S).
  - intros [t0 Ht0]. assert (oz_aset e ≠ []) as Hne by (rewrite (zs_empty _ _ _ _ _ S); intros Hn; by apply Hn in Ht0).
    destruct (oz_elem_score l e E Hne) as (i & oa & Hpt & _), (heaviest_entry l e E Hne) as (m & Hm & Hmax).
    assert (∀ t', oz_live l t' → ∃ b, b ∈ oz_aset e ∧ oza_t b = t') as Hlive.
    { intros t' Ht'. apply (zs_aset _ _ _ _ _ S) in Ht'. apply list_elem_of_fmap in Ht' as (b & -> & Hb). by exists b. }
    destruct Hpt as (Hi & Hin & Hrest). destruct (zs_entry _ _ _ _ _ S i Hin) as ((v & Hv & Hx) & _).
    destruct (zs_entry _ _ _ _ _ S m Hm) as (_ & Hinc & Hw).
    exists (oza_t i), v, (oza_t m). split; [|split; [exact Hv|split]].
    + split; [by eapply zs_live|]. intros t' (b & Hb & <-)%Hlive. destruct (zs_innate _ _ _ _ _ S _ Hi) as (i' & Hi' & Haddr & Hgt).
      assert (i' = i) as -> by (by eapply zs_same_addr). by apply Hgt.
    + split; [by eapply zs_live|]. intros t' (b & Hb & <-)%Hlive. rewrite <- Hw. destruct (zs_entry _ _ _ _ _ S b Hb) as (_ & _ & <-). by apply Hmax.
    + specialize (Hv2 i oa). unfold points_score in Hv2. rewrite Hx, (acquired_inc l e i oa m) in Hv2 by done. rewrite Hinc in Hv2.
      by apply Hv2.
Qed.
End reading.

Lemma ozq_replica_reads n i key hist w :
  oz_replica n i key hist w →
  ∃ m : gmap sds double, (∀ ele, oz_shows (ops_of ele (oz_hist hist)) (m !! ele)) ∧
    (∀ ele, ask ["ozscore"; key; ele] w = inr [match m !! ele with Some d => RDouble d | None => RNull end]) ∧
    ((m = ∅ ∧ ask ["ozmax"; key] w = inr [REmptyArray]) ∨
     ∃ p, ask ["ozmax"; key] w = inr [RArrayLen 2; RBulk p.1; RDouble p.2] ∧
       m !! p.1 = Some p.2 ∧ ∀ e s, m !! e = Some s → e ≠ p.1 → plt (s, e) (p.2, p.1)).
Proof.
  intros (_ & _ & ptrs & Ms & o & C & Hinv). exists (default ∅ o). split_and!.
  - intros ele. destruct (Hinv ele) as [E Hv]. by eapply oz_elem_shows.
  - intros ele. by rewrite (score_reply _ w key ptrs Ms o ele "ozscore" C) by (by eexists _, _, 3).
  - apply (max_reply _ w key ptrs Ms o "ozmax" C). by eexists _, _, 2.
Qed.

(** ** Properties *)

(** C14: What a client reads from a replicated add-win priority queue.  A
    server that receives adds, increments and removes, each increment after
    the adds whose tags it names and otherwise in any order, processes them
    without fault.  [ozscore] answers nil for an element all of whose added
    tags are removed.  Otherwise it answers the value of the live add of the
    greatest tag, plus the increments, in order of arrival, of the live add
    whose increments have the greatest sum of magnitudes (the greatest tag
    among those of equal sum).  [ozmax] answers an element whose entry is
    greatest among those shown.  A score that is not a number is not
    specified. *)
Theorem ozset_scores key n i conf rnd hist :
  n ≠ 0 → ozq_ok hist →
  ∃ w (m : gmap sds double), deliver_all (oz_message key <$> hist) (init_server n i conf rnd) = inr w ∧
    (∀ ele, oz_shows (ops_of ele (oz_hist hist)) (m !! ele)) ∧
    (∀ ele, ask ["ozscore"; key; ele] w = inr [match m !! ele with Some d => RDouble d | None => RNull end]) ∧
    ((m = ∅ ∧ ask ["ozmax"; key] w = inr [REmptyArray]) ∨
     ∃ p, ask ["ozmax"; key] w = inr [RArrayLen 2; RBulk p.1; RDouble p.2] ∧
       m !! p.1 = Some p.2 ∧ ∀ e s, m !! e = Some s → e ≠ p.1 → plt (s, e) (p.2, p.1)).
Proof.
  intros Hn Hh. destruct (ozq_run n i key conf rnd hist Hn Hh) as (w & Hd & Hw).
  destruct (ozq_replica_reads n i key hist w Hw) as (m & Hm). by exists w, m.
Qed.

(** Servers 0 and 1 add a concurrently; server 2 has seen the first add and
    decrements it twice, server 1 has seen both and increments both, and later
    increments its own; server 0 removes its own add, and adds b. *)
Definition ozq_example : list (sds * oz_op sds) :=
  [("a", OzAdd (mkLc 0 0) "3"); ("a", OzAdd (mkLc 0 1) "5"); ("a", OzInc [mkLc 0 0] "-2"); ("a", OzInc [mkLc 0 0] "-4");
   ("a", OzInc [mkLc 0 0; mkLc 0 1] "1"); ("b", OzAdd (mkLc 0 0) "1.5"); ("a", OzRem [mkLc 0 0]);
   ("a", OzInc [mkLc 0 1] "2")].

(** The same operations, the remove first. *)
Definition ozq_example' : list (sds * oz_op sds) :=
  [("a", OzRem [mkLc 0 0]); ("b", OzAdd (mkLc 0 0) "1.5"); ("a", OzAdd (mkLc 0 1) "5"); ("a", OzAdd (mkLc 0 0) "3");
   ("a", OzInc [mkLc 0 1] "2"); ("a", OzInc [mkLc 0 0; mkLc 0 1] "1"); ("a", OzInc [mkLc 0 0] "-4"); ("a", OzInc [mkLc 0 0] "-2")].

Lemma ozset_scores_witness :
  ∃ w (m : gmap sds double), deliver_all (oz_message "q" <$> ozq_example) (init_server 3 1 (mkZconf 1 64) [7]) = inr w ∧
    (∀ ele, oz_shows (ops_of ele (oz_hist ozq_example)) (m !! ele)) ∧
    (∀ ele, ask ["ozscore"; "q"; ele] w = inr [match m !! ele with Some d => RDouble d | None => RNull end]).
Proof.
  destruct (ozset_scores "q" 3 1 (mkZconf 1 64) [7] ozq_example) as (w & m & Hd & Hs & Ha & _).
  - done.
  - apply (bool_decide_unpack _). vm_compute. exact I.
  - exists w, m. split; [exact Hd|]. split; [exact Hs|exact Ha].
Defined.

(** *** Convergence *)

(** The increments of a live add, and their magnitudes, have the same sum in
    any order. *)
Definition oz_exact_sums (l : list ozop) : Prop :=
  ∀ t, oz_live l t → exact_sums (oz_incs l t) ∧ exact_sums (dabs <$> oz_incs l t).

(** The scores that count are numbers. *)
Definition oz_numbers (l : list ozop) : Prop :=
  ∀ t v u, oz_top l t → OzAdd t v ∈ l → oz_heaviest l u → isnan (oz_total l v u) = false.

Lemma oz_live_or l : (∃ t, oz_live l t) ∨ ∀ t, ¬ oz_live l t.
Proof.
  assert (Decision (Exists (λ op : ozop, match op with OzAdd t _ => ¬ oz_removed l t | _ => False end) l)) as Hdec.
  { apply Exists_dec. intros []; apply _. }
  destruct Hdec as [He|Hn].
  - left. apply Exists_exists in He as ([t v|?|?] & Hin & Ht); [|done..]. exists t. split; [by exists v|done].
  - right. intros t [[v Hin] Ht]. apply Hn, Exists_exists. by exists (OzAdd t v).
Qed.

Section perm.
Context (l1 l2 : list ozop) (Hperm : l1 ≡ₚ l2).

Lemma oz_live_perm t : oz_live l1 t ↔ oz_live l2 t.
Proof using Hperm. unfold oz_live, oz_added, oz_removed. by setoid_rewrite Hperm. Qed.

Lemma oz_incs_perm t : oz_incs l1 t ≡ₚ oz_incs l2 t.
Proof using Hperm. unfold oz_incs. by rewrite Hperm. Qed.

Context (Hex : oz_exact_sums l1).

Lemma oz_sums_perm t : oz_live l1 t → dsum (oz_incs l2 t) = dsum (oz_incs l1 t) ∧ weight (oz_incs l2 t) = weight (oz_incs l1 t).
Proof using Hperm Hex.
  intros [H1 H2]%Hex. split; symmetry; [apply H1, oz_incs_perm|]. apply H2. by rewrite oz_incs_perm.
Qed.

Lemma oz_top_perm t : oz_top l1 t ↔ oz_top l2 t.
Proof using Hperm. unfold oz_top. by setoid_rewrite oz_live_perm. Qed.

Lemma oz_heaviest_perm u : oz_heaviest l2 u → oz_heaviest l1 u.
Proof using Hperm Hex.
  intros [Hu Hmax]. apply oz_live_perm in Hu. split; [done|]. intros t' Ht' Hlt. apply (Hmax t'); [by apply oz_live_perm|].
  by rewrite (proj2 (oz_sums_perm u Hu)), (proj2 (oz_sums_perm t' Ht')).
Qed.

Lemma oz_top_unique t t' : oz_top l1 t → oz_top l1 t' → t = t'.
Proof using Type. intros [H1 M1] [H2 M2]. destruct (tag_total t t') as [?|[?|?]]; [by destruct (M1 t')|done|by destruct (M2 t)]. Qed.

Lemma oz_heaviest_unique u u' : oz_heaviest l1 u → oz_heaviest l1 u' → u = u'.
Proof using Type.
  intros [H1 M1] [H2 M2]. destruct (acq_lt_total (weight (oz_incs l1 u)) u (weight (oz_incs l1 u')) u') as [?|[[_ ?]|?]];
    [by destruct (M1 u')|done|by destruct (M2 u)].
Qed.

Lemma oz_shows_same o1 o2 : oz_good l1 → oz_numbers l1 → oz_shows l1 o1 → oz_shows l2 o2 → same_score o1 o2.
Proof using Hperm Hex.
  intros Hg Hnum [N1 Y1] [N2 Y2]. destruct (oz_live_or l1) as [[t0 Ht0]|Hn].
  - destruct (Y1 (ex_intro _ t0 Ht0)) as (t & v & u & Ht & Hv & Hu & H1).
    destruct Y2 as (t' & v' & u' & Ht' & Hv' & Hu' & H2); [exists t0; by apply oz_live_perm|].
    apply oz_top_perm in Ht'. apply oz_heaviest_perm in Hu'. rewrite <- Hperm in Hv'.
    rewrite (oz_top_unique t' t Ht' Ht) in Hv'. rewrite (og_agree _ Hg t v' v Hv' Hv), (oz_heaviest_unique u' u Hu' Hu) in H2.
    assert (oz_total l2 v u = oz_total l1 v u) as Heq by (unfold oz_total; f_equal; by apply oz_sums_perm, Hu). rewrite Heq in H2.
    pose proof (Hnum t v u Ht Hv Hu) as Hnan. destruct (H1 Hnan) as (d1 & -> & Hd1), (H2 Hnan) as (d2 & -> & Hd2). simpl. congruence.
  - rewrite N1, N2; [done| |done]. intros t. by rewrite <- oz_live_perm.
Qed.
End perm.

(** C15: Replicas of an add-win priority queue converge.  Two servers that
    have received the same adds, increments and removes, in orders in which
    increments follow the adds whose tags they name, give the same replies to
    [ozscore] for every element and to [ozmax], up to doubles that compare
    equal, where the increments of each live add and their magnitudes have
    exact sums and the scores are numbers. *)
Theorem ozset_convergence key n i1 conf1 rnd1 i2 conf2 rnd2 hist1 hist2 :
  n ≠ 0 → ozq_ok hist1 → ozq_ok hist2 → hist1 ≡ₚ hist2 →
  (∀ ele, oz_exact_sums (ops_of ele (oz_hist hist1)) ∧ oz_numbers (ops_of ele (oz_hist hist1))) →
  ∃ w1 w2, deliver_all (oz_message key <$> hist1) (init_server n i1 conf1 rnd1) = inr w1 ∧
    deliver_all (oz_message key <$> hist2) (init_server n i2 conf2 rnd2) = inr w2 ∧
    (∀ ele, ∃ r1 r2, ask ["ozscore"; key; ele] w1 = inr [r1] ∧
      ask ["ozscore"; key; ele] w2 = inr [r2] ∧ same_reply r1 r2) ∧
    ∃ rs1 rs2, ask ["ozmax"; key] w1 = inr rs1 ∧ ask ["ozmax"; key] w2 = inr rs2 ∧
      Forall2 same_reply rs1 rs2.
Proof.
  intros Hn Hh1 Hh2 Hp Hex.
  destruct (ozq_run n i1 key conf1 rnd1 hist1 Hn Hh1) as (w1 & Hd1 & _ & _ & ptrs1 & Ms1 & o1 & C1 & Hinv1).
  destruct (ozq_run n i2 key conf2 rnd2 hist2 Hn Hh2) as (w2 & Hd2 & _ & _ & ptrs2 & Ms2 & o2 & C2 & Hinv2).
  exists w1, w2. split; [done|]. split; [done|].
  apply (same_replies _ w1 w2 key ptrs1 ptrs2 Ms1 Ms2 o1 o2 "ozscore" "ozmax" C1 C2).
  - intros ele. destruct (Hinv1 ele) as [E1 V1], (Hinv2 ele) as [E2 V2], (Hex ele) as [Hs Hnum].
    eapply oz_shows_same; [|exact Hs|by apply oz_ok_good, Hh1|exact Hnum|by eapply oz_elem_shows|by eapply oz_elem_shows].
    apply ops_of_perm. unfold oz_hist. by rewrite Hp.
  - intros ele. by eexists _, _, 3.
  - by eexists _, _, 2.
Qed.

Lemma ozq_example_live ele t :
  oz_live (ops_of ele (oz_hist ozq_example)) t → (ele = "a" ∧ t = mkLc 0 1) ∨ (ele = "b" ∧ t = mkLc 0 0).
Proof.
  intros [[v Hv] Hr]. apply elem_of_ops_of in Hv. unfold ozq_example, oz_hist in Hv. simpl in Hv.
  repeat (apply elem_of_cons in Hv as [Hv|Hv]; [try discriminate Hv|]); [| | |by apply elem_of_nil in Hv].
  - exfalso. injection Hv as -> -> _. apply Hr. exists [mkLc 0 0]. split; [|by left]. apply (bool_decide_unpack _). vm_compute. exact I.
  - injection Hv as -> -> _. by left.
  - injection Hv as -> -> _. by right.
Qed.

Lemma ozq_example_value ele t v v' :
  OzAdd t v ∈ ops_of ele (oz_hist ozq_example) → OzAdd t v' ∈ ops_of ele (oz_hist ozq_example) → v = v'.
Proof.
  assert (oz_ok (oz_hist ozq_example)) as Hok by (apply (bool_decide_unpack _); vm_compute; exact I).
  by apply (og_agree _ (oz_ok_good _ ele Hok)).
Qed.

Lemma ozset_convergence_witness :
  ∃ w1 w2, deliver_all (oz_message "q" <$> ozq_example) (init_server 3 0 (mkZconf 128 64) []) = inr w1 ∧
    deliver_all (oz_message "q" <$> ozq_example') (init_server 3 1 (mkZconf 0 64) [1]) = inr w2 ∧
    ∀ ele, ∃ r1 r2, ask ["ozscore"; "q"; ele] w1 = inr [r1] ∧
      ask ["ozscore"; "q"; ele] w2 = inr [r2] ∧ same_reply r1 r2.
Proof.
  destruct (ozset_convergence "q" 3 0 (mkZconf 128 64) [] 1 (mkZconf 0 64) [1] ozq_example ozq_example')
    as (w1 & w2 & Hd1 & Hd2 & Hs & _).
  - done.
  - apply (bool_decide_unpack _). vm_compute. exact I.
  - apply (bool_decide_unpack _). vm_compute. exact I.
  - unfold ozq_example, ozq_example'. solve_Permutation.
  - intros ele. split.
    + intros t [[-> ->]|[-> ->]]%ozq_example_live; split; intros l' Hl'.
      * change (oz_incs _ _) with [dofZ 1; dofZ 2] in Hl' |- *. apply Permutation_length_2_inv in Hl' as [->| ->]; vm_compute; reflexivity.
      * change (dabs <$> oz_incs _ _) with [dofZ 1; dofZ 2] in Hl' |- *. apply Permutation_length_2_inv in Hl' as [->| ->]; vm_compute; reflexivity.
      * change (oz_incs _ _) with ([] : list double) in Hl' |- *. by apply Permutation_nil_l in Hl' as ->.
      * change (dabs <$> oz_incs _ _) with ([] : list double) in Hl' |- *. by apply Permutation_nil_l in Hl' as ->.
    + intros t v u [Ht _] Hv [Hu _]. apply ozq_example_live in Hu as [[-> ->]|[-> ->]]; 
        apply ozq_example_live in Ht as [[? ->]|[? ->]]; try done.
      * rewrite (ozq_example_value "a" _ v (dofZ 5) Hv) by (apply (bool_decide_unpack _); vm_compute; exact I). vm_compute. reflexivity.
      * rewrite (ozq_example_value "b" _ v (default d0 (string2d "1.5")) Hv) by (apply (bool_decide_unpack _); vm_compute; exact I).
        vm_compute. reflexivity.
  - exists w1, w2. split; [exact Hd1|]. split; [exact Hd2|exact Hs].
Defined.
