(* ===== verification/RzsetNet.v ===== *)
(** * Replicated remove-win priority queues

    What clients read from the replicas of a remove-win priority queue, as a
    function of the operations delivered to them, in whatever order. *)

From S2P Require Import Prelude.
From S2P Require Import Sds.
From S2P Require Import VectorClock.
From S2P Require Import Double.
From S2P Require Import Entries.
From S2P Require Import Skiplist.
From S2P Require Import Zset.
From S2P Require Import Server.
From S2P Require Import Container.
From S2P Require Import RemoveWin.
From S2P Require Import Causal.
From S2P Require Import RemoveWinRep.
From S2P Require Import Rzset.
From S2P Require Import RzsetRep.
From S2P Require Import P2p.
From S2P Require Import Replicas.

#[local] Open Scope Z_scope.
#[local] Open Scope crdt_scope.

(** ** Messages *)

(** The argument of an operation is the string the client sent. *)
Abbreviation rzq_op := (cmd rz_cmd_type sds).

Definition rzq_cmd (op : rzq_op) : rz_cmd :=
  mkCmd (cmd_type op)
    (match cmd_type op with RZREM => d0 | _ => default d0 (string2d (cmd_value op)) end) (cmd_t op).

Definition rzq_hist (hist : list (sds * rzq_op)) : list (sds * rz_cmd) := (λ p, (p.1, rzq_cmd p.2)) <$> hist.

Definition rzq_message (key : sds) (p : sds * rzq_op) : list sds :=
  let t := default "" (vcToSds (cmd_t p.2)) in
  match cmd_type p.2 with
  | RZADD => ["rzadd"; key; p.1; cmd_value p.2; t]
  | RZINCBY => ["rzincrby"; key; p.1; cmd_value p.2; t]
  | RZREM => ["rzrem"; key; p.1; t]
  end.

(** Operations of a system of [n] servers. *)
Definition rzq_op_ok (n : Z) (p : sds * rzq_op) : Prop :=
  clock_ok cmd_t n p.2 ∧ vc_wire_ok (cmd_t p.2) ∧
  (cmd_type p.2 = RZREM ∨ is_Some (string2d (cmd_value p.2))).

#[global] Instance rzq_op_ok_dec n p : Decision (rzq_op_ok n p).
Proof. unfold rzq_op_ok, clock_ok, int32_clock. apply _. Defined.

(** The operations of a server on an element are ordered. *)
Definition rzq_ok (n : Z) (hist : list (sds * rzq_op)) : Prop :=
  Forall (rzq_op_ok n) hist ∧
  Forall (λ p, Forall (λ q, p.1 = q.1 → vid (cmd_t p.2) = vid (cmd_t q.2) →
    cmd_t p.2 ≤ᵥ cmd_t q.2 ∨ cmd_t q.2 ≤ᵥ cmd_t p.2) hist) hist.

#[global] Instance rzq_ok_dec n hist : Decision (rzq_ok n hist).
Proof. unfold rzq_ok. apply _. Defined.

Lemma rzq_ok_sub n h1 h2 : h1 ⊆ h2 → rzq_ok n h2 → rzq_ok n h1.
Proof.
  intros Hs [H1 H2]. rewrite !Forall_forall in H1, H2. split.
  - apply Forall_forall. intros p Hp. by apply H1, Hs.
  - apply Forall_forall. intros p Hp. apply Forall_forall. intros q Hq.
    specialize (H2 p (Hs _ Hp)). rewrite Forall_forall in H2. by apply H2, Hs.
Qed.

Lemma rzq_ok_app n h1 h2 : rzq_ok n (h1 ++ h2) → rzq_ok n h1.
Proof. apply rzq_ok_sub. intros p Hp. apply elem_of_app. by left. Qed.

Lemma rzq_ok_good n hist : rzq_ok n hist → rz_good n (rzq_hist hist).
Proof.
  intros [H1 H2] ele.
  assert (∀ x, x ∈ ops_of ele (rzq_hist hist) → ∃ y, (ele, y) ∈ hist ∧ x = rzq_cmd y) as Hof.
  { intros x Hx. apply elem_of_ops_of in Hx. unfold rzq_hist in Hx. apply list_elem_of_fmap in Hx as ([? y] & [= -> ->] & Hy).
    by exists y. }
  rewrite !Forall_forall in H1, H2. split.
  - apply Forall_forall. intros x (y & Hy & ->)%Hof. by destruct (H1 _ Hy) as [? _].
  - intros x1 x2 (y1 & Hy1 & ->)%Hof (y2 & Hy2 & ->)%Hof. specialize (H2 _ Hy1). rewrite Forall_forall in H2.
    by apply (H2 _ Hy2).
Qed.

Definition rzq_prepare (k : rz_cmd_type) : command :=
  match k with RZADD => rzadd_prepare | RZINCBY => rzincrby_prepare | RZREM => rzrem_prepare end.

Lemma rzq_message_accepts key p :
  accepts (rzq_message key p) (crdt_command (rzq_prepare (cmd_type p.2)) (rz_effect_of (cmd_type p.2))).
Proof.
  unfold rzq_message. destruct (cmd_type p.2); [eexists _, _, (-4)|eexists _, _, (-4)|eexists _, _, (-3)];
    (split; [done|]; split; [reflexivity|done]).
Qed.

Lemma rzq_message_msg key n p : rzq_op_ok n p → rz_msg (rzq_cmd p.2) key p.1 (rzq_message key p).
Proof.
  destruct p as [ele [k s t]]. intros (_ & Hw & Harg). simpl in *. unfold rzq_message, rzq_cmd. simpl.
  destruct (vcToSds_roundtrip t Hw) as (st & -> & Hs). simpl.
  destruct k; simpl; [| |by constructor]; (destruct Harg as [?|[v Hv]]; [done|]; rewrite Hv; by constructor).
Qed.

(** ** The interface *)

Lemma rzq_op_ok_pos n p : rzq_op_ok n p → 0 < n.
Proof. intros [(_ & ? & _) _]. lia. Qed.

Lemma rzq_step key hist p (w : server) r ptrs Ms o :
  cont RW_RPQ_TABLE_SUFFIX w key ptrs Ms o → rargv (w_client w) = Some r → r_args r = rzq_message key p →
  rz_inv (vc_new w) (rzq_hist hist) (Ms, o) → rzq_ok (w_p2p_count w) (hist ++ [p]) →
  ∃ w' ptrs' s', rz_effect_of (cmd_type p.2) w = Done () w' ∧ cont RW_RPQ_TABLE_SUFFIX w' key ptrs' s'.1 s'.2 ∧
    steps RW_RPQ_TABLE_SUFFIX key w ptrs w' ptrs' ∧ rz_inv (vc_new w) (rzq_hist (hist ++ [p])) s'.
Proof.
  intros C Hr Hargs Hinv Hok. pose proof (proj1 Hok) as Hp. rewrite Forall_app, Forall_singleton in Hp. destruct Hp as [_ Hp].
  pose proof (rzq_op_ok_pos _ _ Hp) as Hpos. assert (rzq_hist (hist ++ [p]) = rzq_hist hist ++ [(p.1, rzq_cmd p.2)]) as Hh.
  { unfold rzq_hist. by rewrite fmap_app. }
  destruct (rz_effect_run (rzq_cmd p.2) key p.1 (rzq_message key p) (rzq_hist hist) w ptrs Ms o r) as (w1 & ptrs1 & s' & Heff & C1 & S1 & Hinv1).
  - done.
  - done.
  - done.
  - by eapply rzq_message_msg.
  - done.
  - apply int32_vc_new.
  - unfold vc_new. rewrite vsize_vc_new by lia. rewrite <- Hh. by apply rzq_ok_good.
  - exists w1, ptrs1, s'. split_and!; try done. by rewrite Hh.
Qed.

#[global] Instance rzset_replicated : Replicated rze (sds * rzq_op) := {|
  r_suffix := RW_RPQ_TABLE_SUFFIX;
  r_suffix_ne := _;
  r_message := rzq_message;
  r_ok := rzq_ok;
  r_ok_app := rzq_ok_app;
  r_inv c hist := rz_inv c (rzq_hist hist);
  r_init := rz_inv_init;
  r_prepare p := rzq_prepare (cmd_type p.2);
  r_effect p := rz_effect_of (cmd_type p.2);
  r_accepts := rzq_message_accepts;
  r_step := rzq_step
|}.

Abbreviation rzq_replica := (replica (A := rze) (H := sds * rzq_op)).

Lemma rzq_run n i key conf rnd hist :
  n ≠ 0 → rzq_ok n hist →
  ∃ w, deliver_all (rzq_message key <$> hist) (init_server n i conf rnd) = inr w ∧ rzq_replica n i key hist w.
Proof. exact (@replica_run _ _ _ rzset_replicated n i key conf rnd hist). Qed.

(** ** Reading *)

(** The score of an element whose live add of the greatest server id is [m]. *)
Definition rzq_score (L : list rz_cmd) (m : rz_cmd) : double :=
  dadd (cmd_value m) (foldl dadd d0 (rz_incs L m)).

Abbreviation rz_present := (rw_present rz_kind).
Abbreviation rz_top := (rw_top rz_kind).

(** What the sorted set holds for an element after the operations [L]. *)
Definition rzq_shows (L : list rz_cmd) (o : option double) : Prop :=
  (¬ rz_present L → o = None) ∧
  (rz_present L → ∃ m, rz_top L m ∧
    (isnan (rzq_score L m) = false → ∃ d, o = Some d ∧ dkey d = dkey (rzq_score L m))).

Lemma rz_st_shows ele L s m : rz_st ele L s (Some m) → rzq_shows L (m !! ele).
Proof.
  intros (Hsh & m' & [= <-] & Hvis). unfold rz_vis in Hvis. pose proof (rw_LOOKUP_spec _ _ _ _ Hsh) as Hl.
  rewrite <- rw_present_spec in Hl. split.
  - intros Hn. destruct (rw_LOOKUP s); [|done]. exfalso. by apply Hn, Hl.
  - intros Hp. rewrite (proj2 Hl Hp) in Hvis.
    destruct (rz_lookup_value L s Hsh) as (a & x & Ha & Htop & _ & Hval); [by apply Hl|].
    destruct Hvis as (a' & Ha' & Hshow). rewrite Ha in Ha'. injection Ha' as <-. exists x. split; [done|].
    unfold rz_entry_score in Hshow. rewrite Hval in Hshow. exact Hshow.
Qed.

(** The operations an element has applied. *)
Definition rzq_applied (n : Z) (D L : list rz_cmd) : Prop :=
  causal cmd_t (_vc_new n 0) L ∧
  ∃ Q, L ++ Q ≡ₚ D ∧ Forall (λ x, ¬ causally_next (join_of cmd_t (_vc_new n 0) L) (cmd_t x)) Q.

Lemma rzq_inv_shows n i hist s ele :
  rz_inv (_vc_new n i) (rzq_hist hist) s →
  ∃ L, rzq_applied n (ops_of ele (rzq_hist hist)) L ∧ rzq_shows L (default ∅ s.2 !! ele).
Proof.
  intros Hinv. destruct (Hinv ele) as [[L [Hp Hc Hcur Hst]] Hstuck]. exists L.
  split; [split|by eapply rz_st_shows].
  - by eapply causal_owner; [|exact Hc].
  - eexists. split; [exact Hp|]. eapply Forall_impl; [exact Hstuck|]. simpl. intros x Hx Hn. apply Hx. rewrite Hcur.
    eapply causally_next_owner; [|exact Hn]. by apply vector_join_of.
Qed.

(** Nothing of a causally complete history is left waiting. *)
Lemma rzq_applied_all n D L :
  0 ≤ n → rw_good n D → complete cmd_t (_vc_new n 0) D → rzq_applied n D L → L ≡ₚ D.
Proof.
  intros Hn [Hok _] (l' & Hl' & Hc') (Hc & Q & Hp & Hq). destruct Q as [|q Q]; [by rewrite <- Hp, app_nil_r|]. exfalso.
  assert (EqDecision rz_cmd) as Heq by solve_decision.
  destruct (complete_ready cmd_t (_vc_new n 0) L (q :: Q)) as (x & Hx & Hnext); [|by exists l'; split; [rewrite Hl', Hp|]|done..|].
  - rewrite vsize_vc_new by done. by rewrite Hp.
  - by apply (proj1 (Forall_forall _ _) Hq x Hx).
Qed.

Lemma rzq_replica_reads n i key hist w :
  rzq_replica n i key hist w →
  ∃ m : gmap sds double,
    (∀ ele, ∃ L, rzq_applied n (ops_of ele (rzq_hist hist)) L ∧ rzq_shows L (m !! ele)) ∧
    (∀ ele, ask ["rzscore"; key; ele] w = inr [match m !! ele with Some d => RDouble d | None => RNull end]) ∧
    ((m = ∅ ∧ ask ["rzmax"; key] w = inr [REmptyArray]) ∨
     ∃ p, ask ["rzmax"; key] w = inr [RArrayLen 2; RBulk p.1; RDouble p.2] ∧
       m !! p.1 = Some p.2 ∧ ∀ e s, m !! e = Some s → e ≠ p.1 → plt (s, e) (p.2, p.1)).
Proof.
  intros (_ & _ & ptrs & Ms & o & C & Hinv). exists (default ∅ o). split_and!.
  - intros ele. exact (rzq_inv_shows n i hist (Ms, o) ele Hinv).
  - intros ele. by rewrite (score_reply _ w key ptrs Ms o ele "rzscore" C) by (by eexists _, _, 3).
  - apply (max_reply _ w key ptrs Ms o "rzmax" C). by eexists _, _, 2.
Qed.

(** ** Properties *)

(** C5: What a client reads from a replicated remove-win priority queue.  A
    server that receives operations in any order processes them without
    fault.  For every element some of the operations received, [L], have been
    applied, in causal order, and none of those still waiting could be applied.
    [rzscore] answers nil unless the element was added in [L] and every remove
    in [L] was seen by an add; then it answers the value of the live add of
    the greatest server id plus the increments in [L] that have seen that add.
    [rzmax] answers an element whose entry is greatest among those shown.  A
    score that is not a number is not specified. *)
Theorem rzset_scores key n i conf rnd hist :
  n ≠ 0 → rzq_ok n hist →
  ∃ w (m : gmap sds double), deliver_all (rzq_message key <$> hist) (init_server n i conf rnd) = inr w ∧
    (∀ ele, ∃ L, rzq_applied n (ops_of ele (rzq_hist hist)) L ∧ rzq_shows L (m !! ele)) ∧
    (∀ ele, ask ["rzscore"; key; ele] w = inr [match m !! ele with Some d => RDouble d | None => RNull end]) ∧
    ((m = ∅ ∧ ask ["rzmax"; key] w = inr [REmptyArray]) ∨
     ∃ p, ask ["rzmax"; key] w = inr [RArrayLen 2; RBulk p.1; RDouble p.2] ∧
       m !! p.1 = Some p.2 ∧ ∀ e s, m !! e = Some s → e ≠ p.1 → plt (s, e) (p.2, p.1)).
Proof.
  intros Hn Hh. destruct (rzq_run n i key conf rnd hist Hn Hh) as (w & Hd & Hw).
  destruct (rzq_replica_reads n i key hist w Hw) as (m & Hm). by exists w, m.
Qed.

(** Server 0 adds a, server 1 sees that and increments it, server 2 adds it
    concurrently, server 1 removes what it has seen, server 0 sees everything
    and adds it again. *)
Definition rzq_example : list (sds * rzq_op) :=
  [("a", mkCmd RZADD "3" (mkVc [1; 0; 0] 0)); ("a", mkCmd RZINCBY "2" (mkVc [1; 1; 0] 1));
   ("a", mkCmd RZADD "5" (mkVc [0; 0; 1] 2)); ("a", mkCmd RZREM "" (mkVc [1; 2; 0] 1));
   ("a", mkCmd RZADD "7" (mkVc [2; 2; 1] 0)); ("b", mkCmd RZADD "1.5" (mkVc [0; 1; 0] 1))].

Lemma rzset_scores_witness :
  ∃ w (m : gmap sds double),
    deliver_all (rzq_message "q" <$> reverse rzq_example) (init_server 3 1 (mkZconf 1 64) [7]) = inr w ∧
    (∀ ele, ∃ L, rzq_applied 3 (ops_of ele (rzq_hist (reverse rzq_example))) L ∧ rzq_shows L (m !! ele)) ∧
    (∀ ele, ask ["rzscore"; "q"; ele] w = inr [match m !! ele with Some d => RDouble d | None => RNull end]).
Proof.
  destruct (rzset_scores "q" 3 1 (mkZconf 1 64) [7] (reverse rzq_example)) as (w & m & Hd & Hs & Ha & _).
  - done.
  - apply (bool_decide_unpack _). vm_compute. exact I.
  - exists w, m. split; [exact Hd|]. split; [exact Hs|exact Ha].
Defined.

(** *** Convergence *)

(** Every operation received on an element can be applied after others
    received. *)
Definition rzq_complete (n : Z) (hist : list (sds * rzq_op)) : Prop :=
  ∀ ele, complete cmd_t (_vc_new n 0) (ops_of ele (rzq_hist hist)).

Lemma rzq_good_pos n hist : rzq_ok n hist → hist ≠ [] → 0 ≤ n.
Proof.
  intros [Hok _] Hne. destruct hist as [|p hist]; [done|]. apply Forall_cons in Hok as [Hp _].
  pose proof (rzq_op_ok_pos _ _ Hp). lia.
Qed.

Lemma rzq_all_applied n hist ele L :
  rzq_ok n hist → rzq_complete n hist → rzq_applied n (ops_of ele (rzq_hist hist)) L →
  L ≡ₚ ops_of ele (rzq_hist hist).
Proof.
  intros Hok Hc HL. destruct (decide (hist = [])) as [->|Hne].
  - destruct HL as (_ & Q & Hp & _). apply Permutation_nil_r in Hp. by apply app_eq_nil in Hp as [-> _].
  - eapply rzq_applied_all; [by eapply rzq_good_pos|by apply rzq_ok_good|apply Hc|done].
Qed.

(** The scores can be computed in any order. *)
Definition rzq_exact (hist : list (sds * rzq_op)) : Prop :=
  ∀ ele m, let l := ops_of ele (rzq_hist hist) in
    rz_top l m → exact_sums (rz_incs l m) ∧ isnan (rzq_score l m) = false.

Lemma rz_incs_perm L1 L2 m : L1 ≡ₚ L2 → rz_incs L1 m ≡ₚ rz_incs L2 m.
Proof. intros Hp. unfold rz_incs. by rewrite Hp. Qed.

(** Two orders of application of the same operations show the same score. *)
Lemma rzq_shows_same n D L1 L2 o1 o2 :
  0 ≤ n → rw_good n D → L1 ≡ₚ D → L2 ≡ₚ D → causal cmd_t (_vc_new n 0) L2 →
  (∀ m, rz_top D m → exact_sums (rz_incs D m) ∧ isnan (rzq_score D m) = false) →
  rzq_shows L1 o1 → rzq_shows L2 o2 → same_score o1 o2.
Proof.
  intros Hn Hg HL1 HL2 Hc Hex [Hn1 Hy1] [Hn2 Hy2].
  assert (rz_present L1 ↔ rz_present L2) as Hiff by (apply rw_present_perm; by rewrite HL1, HL2).
  assert (Decision (rz_present L1)) as Hdec.
  { refine (cast_if (decide (live rz_kind L1 ≠ [] ∧ open_rems rz_kind L1 = []))); by rewrite rw_present_spec. }
  destruct (decide (rz_present L1)) as [Hpr|Hnp].
  - destruct (Hy1 Hpr) as (m1 & Ht1 & Hs1), (Hy2 (proj1 Hiff Hpr)) as (m2 & Ht2 & Hs2).
    assert (rz_top D m1 ∧ rz_top L2 m1) as [HtD Ht12].
    { split; [by apply (rw_top_perm _ L1 D)|]. apply (rw_top_perm _ L1 L2); [by rewrite HL1, HL2|done]. }
    assert (m1 = m2) as <-.
    { eapply (rw_top_unique rz_kind (_vc_new n 0) n L2); [|by apply vsize_vc_new|done..].
      eapply rw_good_sub; [|exact Hg]. intros x Hx. by rewrite <- HL2. }
    destruct (Hex m1 HtD) as [Hsum Hnan].
    assert (∀ L, L ≡ₚ D → rzq_score L m1 = rzq_score D m1) as Heq.
    { intros L HL. unfold rzq_score. f_equal. symmetry. by apply Hsum, rz_incs_perm. }
    rewrite (Heq L1 HL1) in Hs1. rewrite (Heq L2 HL2) in Hs2.
    destruct (Hs1 Hnan) as (d1 & -> & Hd1), (Hs2 Hnan) as (d2 & -> & Hd2). simpl. congruence.
  - rewrite Hn1, Hn2; [done|by rewrite <- Hiff|done].
Qed.

Lemma rzq_inv_converge n i1 i2 hist1 hist2 s1 s2 ele :
  rz_inv (_vc_new n i1) (rzq_hist hist1) s1 → rz_inv (_vc_new n i2) (rzq_hist hist2) s2 →
  rzq_ok n hist1 → hist1 ≡ₚ hist2 → rzq_complete n hist1 → rzq_exact hist1 →
  same_score (default ∅ s1.2 !! ele) (default ∅ s2.2 !! ele).
Proof.
  intros Hinv1 Hinv2 Hok Hp Hcomp Hex.
  destruct (rzq_inv_shows n i1 hist1 s1 ele Hinv1) as (L1 & HL1 & Hs1).
  destruct (rzq_inv_shows n i2 hist2 s2 ele Hinv2) as (L2 & HL2 & Hs2).
  assert (ops_of ele (rzq_hist hist1) ≡ₚ ops_of ele (rzq_hist hist2)) as HD.
  { apply ops_of_perm. unfold rzq_hist. by rewrite Hp. }
  assert (rzq_applied n (ops_of ele (rzq_hist hist1)) L2) as HL2'.
  { destruct HL2 as (Hc & Q & HQ & Hst). split; [done|]. exists Q. by rewrite HD. }
  destruct (decide (hist1 = [])) as [->|Hne].
  { apply (rzq_all_applied n [] ele L1) in HL1; [|done..]. apply (rzq_all_applied n [] ele L2) in HL2'; [|done..].
    apply Permutation_nil_r in HL1, HL2'. subst.
    assert (¬ rz_present ([] : list rz_cmd)) as Hnp by (by intros [(? & ?%elem_of_nil & _) _]).
    rewrite (proj1 Hs1 Hnp), (proj1 Hs2 Hnp). done. }
  apply (rzq_shows_same n (ops_of ele (rzq_hist hist1)) L1 L2); [by eapply rzq_good_pos|by apply rzq_ok_good|..].
  - by apply rzq_all_applied with n.
  - by apply rzq_all_applied with n.
  - by destruct HL2'.
  - intros m. apply Hex.
  - done.
  - done.
Qed.

(** The unready commands of an element, in its struct. *)
Definition rz_queue (key ele : sds) (w : server) : list rz_cmd :=
  match w_db w !! (key +:+ RW_RPQ_TABLE_SUFFIX) with
  | Some (OHash h) =>
      match h !! ele with
      | Some (HPtr l) => match w_heap w !! l with Some (CRze e) => e_ops e | _ => [] end
      | _ => []
      end
  | _ => []
  end.

Lemma rz_queue_cont w key ptrs Ms o c ele :
  cont RW_RPQ_TABLE_SUFFIX w key ptrs Ms o → rz_queue key ele w = e_ops (default (rzeNew c) (Ms !! ele)).
Proof.
  intros C. unfold rz_queue. pose proof (c_dom _ _ _ _ _ _ C ele) as Hd.
  destruct (c_hash _ _ _ _ _ _ C) as [Hh|[Hh ->]]; unfold hkey in Hh; rewrite Hh.
  - rewrite lookup_fmap. destruct (ptrs !! ele) as [l|] eqn:Hl; simpl.
    + destruct (Ms !! ele) as [x|] eqn:Hm; [|by discriminate (proj2 Hd eq_refl)]. by rewrite (c_heap _ _ _ _ _ _ C ele l x Hl Hm).
    + by rewrite (proj1 Hd eq_refl).
  - by rewrite (proj1 Hd (lookup_empty _)).
Qed.

Lemma rzq_queue_empty n i key hist ptrs Ms o (w : server) ele :
  rzq_ok n hist → rzq_complete n hist → cont RW_RPQ_TABLE_SUFFIX w key ptrs Ms o → rz_inv (_vc_new n i) (rzq_hist hist) (Ms, o) →
  rz_queue key ele w = [].
Proof.
  intros Hok Hc C Hinv. rewrite (rz_queue_cont w key ptrs Ms o (_vc_new n i) ele C).
  destruct (Hinv ele) as [[L [Hp Hcau Hcur Hst]] Hstuck]. cbn [fst] in *.
  assert (L ≡ₚ ops_of ele (rzq_hist hist)) as HL.
  { eapply rzq_all_applied; [done|done|]. split; [by eapply causal_owner; [|exact Hcau]|]. eexists. split; [exact Hp|].
    eapply Forall_impl; [exact Hstuck|]. simpl. intros x Hx Hn. apply Hx. rewrite Hcur.
    eapply causally_next_owner; [|exact Hn]. by apply vector_join_of. }
  apply Permutation_length in HL, Hp. rewrite length_app in Hp. apply length_zero_iff_nil. lia.
Qed.

(** C6: The queue of unready commands loses nothing.  A server that has received
    a causally complete set of operations (one whose operations on each element
    can be applied in some order), in any order of arrival, has no command left
    in the queue of any element, and has applied every one of them: what it
    answers is determined by all of the operations received. *)
Theorem rzset_complete key n i conf rnd hist :
  n ≠ 0 → rzq_ok n hist → rzq_complete n hist →
  ∃ w (m : gmap sds double), deliver_all (rzq_message key <$> hist) (init_server n i conf rnd) = inr w ∧
    ∀ ele, rz_queue key ele w = [] ∧ (∃ L, L ≡ₚ ops_of ele (rzq_hist hist) ∧ rzq_shows L (m !! ele)) ∧
      ask ["rzscore"; key; ele] w = inr [match m !! ele with Some d => RDouble d | None => RNull end].
Proof.
  intros Hn Hh Hc. destruct (rzq_run n i key conf rnd hist Hn Hh) as (w & Hd & Hw).
  destruct (rzq_replica_reads n i key hist w Hw) as (m & Hm & Hask & _). exists w, m. split; [done|].
  intros ele. split; [|split; [|done]].
  - destruct Hw as (_ & _ & ptrs & Ms & o & C & Hinv). exact (rzq_queue_empty n i key hist ptrs Ms o w ele Hh Hc C Hinv).
  - destruct (Hm ele) as (L & HL & Hs). exists L. split; [by eapply rzq_all_applied|done].
Qed.

Lemma rzq_example_complete hist : hist ≡ₚ rzq_example → rzq_complete 3 hist.
Proof.
  intros Hp ele. exists (ops_of ele (rzq_hist rzq_example)). split; [apply ops_of_perm; unfold rzq_hist; by rewrite Hp|].
  destruct (decide (ele = "a")) as [->|Ha]; [apply (bool_decide_unpack _); vm_compute; exact I|].
  destruct (decide (ele = "b")) as [->|Hb]; [apply (bool_decide_unpack _); vm_compute; exact I|].
  unfold ops_of, rzq_hist, rzq_example. simpl. rewrite !filter_cons, filter_nil. simpl. rewrite !decide_False by done. constructor.
Qed.

Lemma rzset_complete_witness :
  ∃ w (m : gmap sds double),
    deliver_all (rzq_message "q" <$> reverse rzq_example) (init_server 3 1 (mkZconf 1 64) [7]) = inr w ∧
    ∀ ele, rz_queue "q" ele w = [] ∧ (∃ L, L ≡ₚ ops_of ele (rzq_hist (reverse rzq_example)) ∧ rzq_shows L (m !! ele)) ∧
      ask ["rzscore"; "q"; ele] w = inr [match m !! ele with Some d => RDouble d | None => RNull end].
Proof.
  apply (rzset_complete "q" 3 1 (mkZconf 1 64) [7] (reverse rzq_example)); [done| |].
  - apply (bool_decide_unpack _). vm_compute. exact I.
  - apply rzq_example_complete, reverse_Permutation.
Defined.

(** C7: Replicas of a remove-win priority queue converge.  Two servers that
    have received the same causally complete set of operations, each in its
    own order, out of causal order included, give the same replies
    to [rzscore] for every element and to [rzmax], up to doubles that compare
    equal, where the increments of the add that counts have exact sums and
    its score is a number. *)
Theorem rzset_convergence key n i1 conf1 rnd1 i2 conf2 rnd2 hist1 hist2 :
  n ≠ 0 → rzq_ok n hist1 → hist1 ≡ₚ hist2 → rzq_complete n hist1 → rzq_exact hist1 →
  ∃ w1 w2, deliver_all (rzq_message key <$> hist1) (init_server n i1 conf1 rnd1) = inr w1 ∧
    deliver_all (rzq_message key <$> hist2) (init_server n i2 conf2 rnd2) = inr w2 ∧
    (∀ ele, ∃ r1 r2, ask ["rzscore"; key; ele] w1 = inr [r1] ∧
      ask ["rzscore"; key; ele] w2 = inr [r2] ∧ same_reply r1 r2) ∧
    ∃ rs1 rs2, ask ["rzmax"; key] w1 = inr rs1 ∧ ask ["rzmax"; key] w2 = inr rs2 ∧
      Forall2 same_reply rs1 rs2.
Proof.
  intros Hn Hh1 Hp Hcomp Hex.
  assert (rzq_ok n hist2) as Hh2 by (eapply rzq_ok_sub; [|exact Hh1]; intros x; by rewrite Hp).
  destruct (rzq_run n i1 key conf1 rnd1 hist1 Hn Hh1) as (w1 & Hd1 & _ & _ & ptrs1 & Ms1 & o1 & C1 & Hinv1).
  destruct (rzq_run n i2 key conf2 rnd2 hist2 Hn Hh2) as (w2 & Hd2 & _ & _ & ptrs2 & Ms2 & o2 & C2 & Hinv2).
  exists w1, w2. split; [done|]. split; [done|].
  apply (same_replies _ w1 w2 key ptrs1 ptrs2 Ms1 Ms2 o1 o2 "rzscore" "rzmax" C1 C2).
  - intros ele. exact (rzq_inv_converge n i1 i2 hist1 hist2 (Ms1, o1) (Ms2, o2) ele Hinv1 Hinv2 Hh1 Hp Hcomp Hex).
  - intros ele. by eexists _, _, 3.
  - by eexists _, _, 2.
Qed.

Lemma rzset_convergence_witness :
  let hist := rzq_example in
  ∃ w1 w2, deliver_all (rzq_message "q" <$> hist) (init_server 3 0 (mkZconf 128 64) []) = inr w1 ∧
    deliver_all (rzq_message "q" <$> reverse hist) (init_server 3 1 (mkZconf 0 64) [1]) = inr w2 ∧
    ∀ ele, ∃ r1 r2, ask ["rzscore"; "q"; ele] w1 = inr [r1] ∧
      ask ["rzscore"; "q"; ele] w2 = inr [r2] ∧ same_reply r1 r2.
Proof.
  intros hist.
  destruct (rzset_convergence "q" 3 0 (mkZconf 128 64) [] 1 (mkZconf 0 64) [1] hist (reverse hist))
    as (w1 & w2 & Hd1 & Hd2 & Hs & _).
  - done.
  - apply (bool_decide_unpack _). vm_compute. exact I.
  - symmetry. apply reverse_Permutation.
  - by apply rzq_example_complete.
  - intros ele m l Htop. destruct Htop as [Hm _]. unfold l in *. clear l.
    destruct (decide (ele = "a")) as [->|Ha]; [|destruct (decide (ele = "b")) as [->|Hb]].
    + change (live rz_kind (ops_of "a" (rzq_hist hist))) with [mkCmd RZADD (dofZ 7) (mkVc [2; 2; 1] 0)] in Hm.
      apply list_elem_of_singleton in Hm as ->. split; [|vm_compute; reflexivity].
      intros l' Hl'. change (rz_incs _ _) with ([] : list double) in Hl' |- *. by apply Permutation_nil_l in Hl' as ->.
    + assert (m = rzq_cmd (mkCmd RZADD "1.5" (mkVc [0; 1; 0] 1))) as ->.
      { apply list_elem_of_singleton. exact Hm. }
      split; [|vm_compute; reflexivity].
      intros l' Hl'. change (rz_incs _ _) with ([] : list double) in Hl' |- *. by apply Permutation_nil_l in Hl' as ->.
    + exfalso. revert Hm. unfold ops_of, rzq_hist, hist, rzq_example. simpl. rewrite !filter_cons, filter_nil. simpl.
      rewrite !decide_False by done. by intros ?%elem_of_nil.
  - exists w1, w2. split; [exact Hd1|]. split; [exact Hd2|exact Hs].
Defined.
