(* ===== verification/RwflistNet.v ===== *)
(** * Replicated Remove-Win-framework lists

    What clients read from the replicas of a list, as a function of the
    operations delivered to them. *)

From stdpp Require Import sorting.
From S2P Require Import Prelude.
From S2P Require Import Sds.
From S2P Require Import VectorClock.
From S2P Require Import LamportClock.
From S2P Require Import Skiplist.
From S2P Require Import Zset.
From S2P Require Import Server.
From S2P Require Import Container.
From S2P Require Import Rwf.
From S2P Require Import ListBasics.
From S2P Require Import Leid.
From S2P Require Import ListChain.
From S2P Require Import Rwflist.
From S2P Require Import RwflistRep.
From S2P Require Import RwflistInv.
From S2P Require Import P2p.
From S2P Require Import Replicas.

#[local] Open Scope Z_scope.
#[local] Open Scope crdt_scope.

(** ** Delivery *)

Definition list_prepare (k : rwf_kind) : command :=
  match k with RwfAdd => rwflinsert_prepare | RwfUpdate => rwflupdate_prepare | RwfRem => rwflrem_prepare end.

Lemma list_message_accepts n idof textof key p :
  list_op_ok n idof textof p → accepts (list_message key p) (crdt_command (list_prepare (op_kind p.2)) (rwfl_effect (op_kind p.2))).
Proof.
  intros (_ & _ & _ & Hfit). unfold list_message. destruct (op_kind p.2), (op_arg p.2); try done;
    [eexists _, _, (-9)|eexists _, _, (-5)|eexists _, _, (-3)]; (split; [done|]; split; [reflexivity|done]).
Qed.

Section replica.
Context (n i : Z) (idof : sds → leid) (textof : sds → sds) (key : sds).
Implicit Types (w : server) (hist : list list_item).

(** A server that has processed the history [hist] of the list [key]. *)
Definition list_replica hist w : Prop :=
  w_p2p_count w = n ∧ w_p2p_id w = i ∧ list_at idof textof w key hist.

Lemma list_at_client hist w c : list_at idof textof w key hist → list_at idof textof (set_client c w) key hist.
Proof using Type.
  intros (Ms & len & ch & (ptrs & hd & C & Hch) & Hinv). exists Ms, len, ch. split; [|done].
  exists ptrs, hd. split; [|done]. by destruct C.
Qed.

Lemma list_replica_init conf rnd : list_replica [] (init_server n i conf rnd).
Proof using Type.
  split_and!; [done..|]. exists ∅, None, []. split; [|apply list_inv_init].
  exists ∅, None. split; [|done]. split; try done. exists ∅. split_and!; try done. right. split; [apply lookup_empty|done].
Qed.

Lemma list_deliver hist p w :
  n ≠ 0 → list_replica hist w → list_ok n idof textof (hist ++ [p]) →
  ∃ w', deliver (list_message key p) w = inr w' ∧ list_replica (hist ++ [p]) w'.
Proof using Type.
  intros Hn (Hcnt & Hid & Hat) Hh. pose proof (list_ok_snoc _ _ _ _ _ Hh) as (_ & Hp & _).
  set (args := list_message key p). set (w0 := set_client (link_client args) w).
  destruct (list_at_client hist w (link_client args) Hat) as (Ms & len & ch & Hrep & Hinv).
  destruct (list_step idof textof w0 key hist Ms len ch (mkRargs args (Z.of_nat (length args))) Hrep Hinv eq_refl p) as (w1 & Heff & Hsc & Hat1);
    [by rewrite <- Hcnt in Hh|done|].
  exists (set_client (new_client true args) w1). destruct (same_client_at w0 w1 Hsc) as (_ & Hid1 & Hcnt1). split.
  - eapply deliver_effect_client; [by eapply list_message_accepts|by rewrite Hcnt|exact Heff|]. exact (f_equal snd Hsc).
  - split_and!; [simpl; by rewrite Hcnt1|simpl; by rewrite Hid1|]. by apply list_at_client.
Qed.

Lemma list_run conf rnd hist :
  n ≠ 0 → list_ok n idof textof hist →
  ∃ w, deliver_all (list_message key <$> hist) (init_server n i conf rnd) = inr w ∧ list_replica hist w.
Proof using Type.
  intros Hn. induction hist as [|p hist IH] using rev_ind; intros Hh; [eexists; split; [done|apply list_replica_init]|].
  pose proof (list_ok_snoc _ _ _ _ _ Hh) as (Hh' & _). destruct (IH Hh') as (w & Hd & Hw).
  destruct (list_deliver hist p w Hn Hw Hh) as (w' & Hd' & Hw'). exists w'. split; [|done].
  rewrite fmap_app. simpl. rewrite deliver_all_app, Hd. simpl. by rewrite Hd'.
Qed.

(** ** Reading *)

(** The items a reader gets for an element. *)
Definition elem_reply (e : sds) (v : list_prop → Z) : list reply :=
  [RArrayLen 6; RBulk e; RBulk (textof e); RBulk (fmt_d (v Pfont)); RBulk (fmt_d (v Psize)); RBulk (fmt_d (v Pcolor));
   RBulk (fmt_d (v Pbold + 2 * v Pitalic + 4 * v Punderline))].

Lemma reply_element_said args rs w e a (v : list_prop → Z) :
  attrs_ok a → (∀ p, get_attr p a = Some (v p)) →
  reply_element (Some e) (Some (textof e)) a (said args rs w) = Done () (said args (rs ++ elem_reply e v) w).
Proof using Type.
  intros Ha Hv. pose proof (Hv Pfont) as Hf. pose proof (Hv Psize) as Hs. pose proof (Hv Pcolor) as Hc.
  pose proof (Hv Pbold) as Hb. pose proof (Hv Pitalic) as Hi. pose proof (Hv Punderline) as Hu.
  pose proof (property_bits a Ha) as Hp. destruct a as [f z c pr]. cbn in Hf, Hs, Hc, Hb, Hi, Hu, Hp. subst f z c.
  injection Hb as Hb. injection Hi as Hi. injection Hu as Hu. rewrite Hb, Hi, Hu in Hp. unfold elem_reply. rewrite <- Hp.
  unfold said, reply_element, addReply, mbind, M_bind. simpl. by rewrite <- !app_assoc.
Qed.

Lemma said_lcont args rs w ptrs Ms hd len :
  lcont (A := rwfle) w key ptrs Ms hd len → lcont (said args rs w) key ptrs Ms hd len.
Proof using Type. intros []. by split. Qed.

(** The walk over the chain replies the elements that exist. *)
Lemma reply_chain_said args fuel o c rs w ptrs (Ms : gmap sds rwfle) hd len (val : sds → list_prop → Z) (ex : sds → bool) :
  lcont w key ptrs Ms hd len → seg ptrs Ms o c None → (length c ≤ fuel)%nat →
  (∀ e x, e ∈ c → Ms !! e = Some x → exists_now x = ex e ∧ lf_oid x = Some e ∧ lf_content x = Some (textof e) ∧ attrs_ok (lf_attrs x) ∧
    (ex e = true → ∀ p, get_attr p (lf_attrs x) = Some (val e p))) →
  lf_reply_chain fuel o (said args rs w)
    = Done () (said args (rs ++ mjoin ((λ e, elem_reply e (val e)) <$> filter (λ e, ex e = true) c)) w).
Proof using Type.
  intros C. revert fuel o rs. induction c as [|e c IH]; intros fuel o rs Hs Hf Hx; simpl in Hs.
  { subst o. rewrite filter_nil. simpl. rewrite app_nil_r. by destruct fuel. }
  destruct Hs as (l & x & -> & Hl & Hxe & Hs). destruct fuel as [|fuel]; [simpl in Hf; lia|]. cbn [lf_reply_chain].
  mstep (lload_spec (said args rs w) key ptrs Ms hd len e l x (said_lcont _ _ _ _ _ _ _ C) Hl Hxe).
  destruct (Hx e x ltac:(by left) Hxe) as (Hex & Ho & Ht & Ha & Hv). rewrite filter_cons. unfold exists_now in Hex. rewrite Hex, Ho, Ht.
  assert (∀ rs', lf_reply_chain fuel (lf_next x) (said args rs' w)
    = Done () (said args (rs' ++ mjoin ((λ e, elem_reply e (val e)) <$> filter (λ e, ex e = true) c)) w)) as Hrest.
  { intros rs'. apply IH; [done|simpl in Hf; lia|]. intros e' x' He'. apply Hx. by right. }
  destruct (ex e).
  - rewrite decide_True by done. mstep (reply_element_said args rs w e (lf_attrs x) (val e) Ha (Hv eq_refl)). rewrite Hrest. simpl.
    by rewrite <- app_assoc.
  - rewrite decide_False by done. rewrite (bind_Done (mret ()) _ _ () _ eq_refl). apply Hrest.
Qed.

(** A list that is not there. *)
Lemma empty_ask conf rnd :
  ask ["rwfllist"; key] (init_server n i conf rnd) = inr [REmptyArray] ∧ ask ["rwfllen"; key] (init_server n i conf rnd) = inr [RZero].
Proof using Type.
  split; [eapply (ask_run _ rwfllistCommand)|eapply (ask_run _ rwfllenCommand)]; try (by eexists _, _, 2); left;
    unfold rwfllistCommand, rwfllenCommand, lenCommand, lookupKey, mbind, M_bind; simpl; by rewrite lookup_empty.
Qed.

(** The value of a property after [hist]. *)
Definition value_of hist (e : sds) (p : list_prop) : Z :=
  default 0 (get_stamp p (rwf_state no_values on_insert on_update (_vc_new n i) (ops_of e hist)).2).2.

Definition live_in hist (e : sds) : Prop := ∃ op, in_force (ops_of e hist) op ∧ op_kind op = RwfAdd.

Lemma ops_fit hist e : list_ok n idof textof hist → Forall arg_fits (ops_of e hist).
Proof using Type.
  intros [Hops _]. apply ops_of_Forall. eapply Forall_impl; [exact Hops|]. intros p (_ & _ & _ & Hfit) Hk. rewrite Hk in Hfit.
  destruct (op_arg p.2) as [j| |]; [by exists j|done..].
Qed.

Lemma value_spec hist e p : list_ok n idof textof hist → live_in hist e → prop_value p (ops_of e hist) (value_of hist e p).
Proof using Type.
  intros Hh Hlive. destruct (reg_value p (_vc_new n i) (ops_of e hist)) as (_ & v & Hv & Hp); [by eapply ops_wf|by apply ops_fit|done|].
  unfold value_of. by rewrite Hv.
Qed.

(** The attributes of a struct that stands for operations with an insert in
    force. *)
Lemma struct_value hist e x p :
  list_ok n idof textof hist → live_in hist e →
  lview x = rwf_state no_values on_insert on_update (_vc_new n i) (ops_of e hist) → get_attr p (lf_attrs x) = Some (value_of hist e p).
Proof using Type.
  intros Hh Hlive Hview. destruct (reg_value p (_vc_new n i) (ops_of e hist)) as (Hpid & v & Hv & _); [by eapply ops_wf|by apply ops_fit|done|].
  unfold value_of. rewrite Hv. rewrite <- Hview in Hpid, Hv. rewrite get_lview in Hv. simpl in Hv, Hpid. unfold shown_value in Hv.
  destruct (get_stamp p (lf_stamps x)); [done|]. by rewrite (proj2 (Z.leb_le _ _) Hpid) in Hv.
Qed.

(** The elements a reader gets, in order. *)
Definition list_reply hist (es : list sds) : list reply :=
  RArrayLen (Z.of_nat (length es)) :: mjoin ((λ e, elem_reply e (value_of hist e)) <$> es).

Lemma hist_key hist w :
  list_replica hist w → hist ≠ [] → ∃ ptrs Ms hd len ch (h : gmap sds hval),
    lcont w key ptrs Ms hd len ∧ chained ptrs Ms hd ch ∧ list_inv idof textof (_vc_new n i) i hist Ms len ch ∧
    w_db w !! key = Some (OHash h) ∧ h !! ("head" : sds) = HPtr <$> hd ∧ h !! ("length" : sds) = HInt <$> len.
Proof using Type.
  intros (Hcnt & Hid & Ms & len & ch & (ptrs & hd & C & Hch) & Hinv) Hne. unfold vc_new in Hinv. rewrite Hcnt, Hid in Hinv.
  destruct hist as [|[e op] hist]; [done|].
  assert (Ms !! e ≠ None) as He.
  { rewrite (li_dom _ _ _ _ _ _ _ _ Hinv). unfold ops_of. rewrite filter_cons, decide_True by done. done. }
  rewrite <- (l_dom _ _ _ _ _ _ C) in He. destruct (ptrs !! e) as [l|] eqn:Hl; [|done].
  destruct (lcont_key _ _ _ _ _ _ _ _ C Hl) as (h & Hk & _ & Hh & Hn). by exists ptrs, Ms, hd, len, ch, h.
Qed.

(** The two read commands on a list in the keyspace. *)
Lemma len_ask w (h : gmap sds hval) len :
  w_db w !! key = Some (OHash h) → h !! ("length" : sds) = HInt <$> len → ask ["rwfllen"; key] w = inr [RInt (default 0 len)].
Proof using Type.
  intros Hk Hlen. eapply (ask_run _ rwfllenCommand); [by eexists _, _, 2|left].
  unfold rwfllenCommand, lenCommand, lookupKey, getLen, hashTypeGetValueObject, mbind, M_bind. simpl. rewrite Hk. simpl. rewrite Hk, Hlen.
  by destruct len.
Qed.

Lemma list_ask w (h : gmap sds hval) len hd ptrs Ms ch rs :
  w_db w !! key = Some (OHash h) → h !! ("length" : sds) = HInt <$> len → h !! ("head" : sds) = HPtr <$> hd →
  lcont (A := rwfle) w key ptrs Ms hd len → chained ptrs Ms hd ch → NoDup ch →
  (∀ fuel args rs0, (length ch ≤ fuel)%nat → lf_reply_chain fuel hd (said args rs0 w) = Done () (said args (rs0 ++ rs) w)) →
  ask ["rwfllist"; key] w = inr (RArrayLen (default 0 len) :: rs).
Proof using Type.
  intros Hk Hlen Hhd C Hch Hnd Hrun. eapply (ask_run _ rwfllistCommand); [by eexists _, _, 2|left].
  pose proof (seg_length w key ptrs Ms hd len hd ch None C Hnd Hch) as Hfuel.
  unfold rwfllistCommand. erewrite (bind_Done (arg 1)) by done.
  erewrite (bind_Done (lookupKey key)) by (unfold lookupKey; simpl; by rewrite Hk). cbv beta iota.
  erewrite (bind_Done (getLen key) _ _ (default 0 len)).
  2: { unfold getLen, hashTypeGetValueObject, mbind, M_bind. simpl. rewrite Hk, Hlen. by destruct len. }
  erewrite (bind_Done (addReply _)) by done. erewrite (bind_Done (getHead key) _ _ hd).
  2: { unfold getHead, hashTypeGetValueObject, mbind, M_bind. simpl. rewrite Hk, Hhd. by destruct hd. }
  erewrite (bind_Done lf_heap_fuel) by done. apply (Hrun _ ["rwfllist"; key] [RArrayLen (default 0 len)]). simpl. lia.
Qed.

Lemma list_read hist w :
  list_replica hist w → list_ok n idof textof hist → hist ≠ [] →
  ∃ es, ask ["rwfllist"; key] w = inr (list_reply hist es) ∧ ask ["rwfllen"; key] w = inr [RInt (Z.of_nat (length es))] ∧
    StronglySorted (below idof) es ∧ ∀ e, e ∈ es ↔ live_in hist e.
Proof using Type.
  intros Hw Hh Hne. destruct (hist_key hist w Hw Hne) as (ptrs & Ms & hd & len & ch & h & C & Hch & Hinv & Hk & Hhd & Hlen).
  pose proof (li_sorted _ _ _ _ _ _ _ _ Hinv) as Hsort.
  assert (∀ e, exists_now (default (rwfleNew (_vc_new n i) i) (Ms !! e)) = true ↔ live_in hist e) as Hlive.
  { intros e. unfold exists_now, live_in. rewrite <- (exists_in_force n idof textof (_vc_new n i)) by done.
    by rewrite <- (li_view _ _ _ _ _ _ _ _ Hinv). }
  pose proof (li_len _ _ _ _ _ _ _ _ Hinv) as Hl. exists (shown (_vc_new n i) i Ms ch). unfold list_reply. rewrite <- Hl. split_and!.
  - eapply list_ask; [done..|by eapply sorted_nodup|]. intros fuel args rs0 Hf. eapply reply_chain_said; [done..|].
    intros e x Hin Hx. pose proof (li_place _ _ _ _ _ _ _ _ Hinv e) as Hpl. pose proof (li_ok _ _ _ _ _ _ _ _ Hinv e) as [Ha _].
    pose proof (li_view _ _ _ _ _ _ _ _ Hinv e) as Hv. pose proof (Hlive e) as Hle.
    unfold placed_as in Hpl. rewrite decide_True in Hpl by (by apply (li_members _ _ _ _ _ _ _ _ Hinv)). rewrite Hx in *. simpl in *.
    injection Hpl as -> _ ->. split_and!; try done. intros He p. eapply struct_value; [done|by apply Hle|done].
  - by eapply len_ask.
  - by apply sorted_filter.
  - intros e. unfold shown. rewrite list_elem_of_filter, Hlive. split; [by intros []|]. intros He. split; [done|].
    apply (li_members _ _ _ _ _ _ _ _ Hinv). destruct He as (op & [Hin _] & Hkop). apply Exists_exists. by exists op.
Qed.
End replica.

(** ** Convergence *)

(** A server inserts an element at most once with a clock, and updates of a
    property with the same stamp agree. *)
Definition writes_ok (hist : list list_item) : Prop :=
  Forall (λ p, Forall (λ q, p.1 = q.1 →
    (op_kind p.2 = RwfAdd → op_kind q.2 = RwfAdd → op_t p.2 = op_t q.2 → op_arg p.2 = op_arg q.2) ∧
    (op_kind p.2 = RwfUpdate → op_kind q.2 = RwfUpdate → upd_compat (op_arg p.2) (op_arg q.2))) hist) hist.

#[global] Instance upd_compat_dec a b : Decision (upd_compat a b).
Proof. destruct a, b; simpl; apply _. Defined.

#[global] Instance writes_ok_dec hist : Decision (writes_ok hist).
Proof. unfold writes_ok. apply _. Defined.

Lemma writes_ops hist e :
  writes_ok hist → adds_unique (ops_of e hist) ∧ updates_compat upd_compat (ops_of e hist).
Proof.
  intros H. assert (∀ op1 op2, op1 ∈ ops_of e hist → op2 ∈ ops_of e hist →
    (op_kind op1 = RwfAdd → op_kind op2 = RwfAdd → op_t op1 = op_t op2 → op_arg op1 = op_arg op2) ∧
    (op_kind op1 = RwfUpdate → op_kind op2 = RwfUpdate → upd_compat (op_arg op1) (op_arg op2))) as Hall.
  { intros op1 op2 H1%elem_of_ops_of H2%elem_of_ops_of. pose proof (proj1 (Forall_forall _ _) H _ H1) as Hp.
    exact (proj1 (Forall_forall _ _) Hp _ H2 eq_refl). }
  split; intros op1 op2 H1 H2; by apply Hall.
Qed.

Lemma value_converge n i1 i2 idof textof hist1 hist2 e p :
  list_ok n idof textof hist1 → writes_ok hist1 → hist1 ≡ₚ hist2 → value_of n i1 hist1 e p = value_of n i2 hist2 e p.
Proof.
  intros Hh Hw Hp. unfold value_of. destruct (writes_ops hist1 e Hw) as [Hu Hc].
  destruct (rwf_state_converge upd_compat no_values on_insert on_update (_vc_new n i1) (_vc_new n i2) (ops_of e hist1) (ops_of e hist2)) as (_ & _ & ->);
    [done|by eapply rwf_wf_ok, ops_wf|done|done|by apply ops_of_perm|done].
Qed.

Lemma live_in_perm hist1 hist2 e : hist1 ≡ₚ hist2 → live_in hist1 e ↔ live_in hist2 e.
Proof.
  intros Hp. unfold live_in. split; intros (op & Hf & Hk); exists op; (split; [|done]);
    (eapply in_force_perm; [apply ops_of_perm|exact Hf]); [done|by symmetry].
Qed.

(** Server 0 inserts the elements a and b; server 1 inserts c at the front,
    sets the size of a and removes b. *)
Definition example_id (e : sds) : leid :=
  if String.eqb e "a" then [mkPos 100 0 0] else if String.eqb e "b" then [mkPos 200 0 1] else [mkPos 50 1 0].

Definition example_text (e : sds) : sds := if String.eqb e "a" then "first" else if String.eqb e "b" then "second" else "third".

Definition example_insert (prev e : sds) (k : Z) : list_item :=
  (e, mkRwfOp RwfAdd (mkVc [0; 0; 0] k) (LAdd (mkIns prev (example_text e) 1 12 0 5 (example_id e)))).

Definition list_example : list list_item :=
  [example_insert "null" "a" 0; example_insert "a" "b" 0; example_insert "null" "c" 1;
   ("a", mkRwfOp RwfUpdate (mkVc [0; 0; 0] 1) (LUpd "size" (mkLc 1 1) 20)); ("b", mkRwfOp RwfRem (mkVc [0; 1; 0] 1) LRem)].

(** The same operations as another server receives them. *)
Definition list_example' : list list_item :=
  [example_insert "null" "c" 1; ("b", mkRwfOp RwfRem (mkVc [0; 1; 0] 1) LRem); example_insert "a" "b" 0;
   example_insert "null" "a" 0; ("a", mkRwfOp RwfUpdate (mkVc [0; 0; 0] 1) (LUpd "size" (mkLc 1 1) 20))].

Lemma list_example_ok : list_ok 3 example_id example_text list_example ∧ list_ok 3 example_id example_text list_example'.
Proof. split; apply (bool_decide_unpack _); vm_compute; exact I. Qed.

(** ** Properties *)

(** C11: The chain of a replicated list.  A server that receives inserts,
    updates and removes of a list processes them without fault, and in its memory
    the pointers from [head] go exactly once through every element ever inserted,
    removed ones included, in the order of the identifiers, whatever the order
    of the inserts was.  The history is one that the type is meant for
    ([list_ok]): all inserts of an element carry the same identifier, of 1 to
    1024 positions, and the same text; different elements have different
    identifiers; no element and no predecessor has one of the names head,
    current, length and ops; the element that an insert names as its predecessor,
    if it is inserted at all, has a lower identifier; an update comes after an
    insert of its element with the same clock; clocks and numbers fit their
    formats, and there are fewer than 2^31 - 1 operations. *)
Theorem rwflist_chain key n i conf rnd idof textof hist :
  n ≠ 0 → list_ok n idof textof hist → hist ≠ [] →
  ∃ w (h : gmap sds hval) ptrs (Ms : gmap sds rwfle) hd ch,
    deliver_all (list_message key <$> hist) (init_server n i conf rnd) = inr w ∧
    w_db w !! key = Some (OHash h) ∧ h !! ("head" : sds) = HPtr <$> hd ∧
    (∀ e l x, ptrs !! e = Some l → Ms !! e = Some x → w_heap w !! l = Some (to_cell x)) ∧
    chained ptrs Ms hd ch ∧ StronglySorted (below idof) ch ∧
    (∀ e, e ∈ ch ↔ inserted (ops_of e hist)) ∧
    (∀ e x, e ∈ ch → Ms !! e = Some x → ident x = (Some e, Some (idof e), Some (textof e))).
Proof.
  intros Hn Hh Hne. destruct (list_run n i idof textof key conf rnd hist Hn Hh) as (w & Hd & Hw).
  destruct (hist_key n i idof textof key hist w Hw Hne) as (ptrs & Ms & hd & len & ch & h & C & Hch & Hinv & Hk & Hhd & _).
  exists w, h, ptrs, Ms, hd, ch. split_and!; [done|done|done|exact (l_heap _ _ _ _ _ _ C)|done|apply Hinv|apply Hinv|].
  intros e x He Hx. pose proof (li_place _ _ _ _ _ _ _ _ Hinv e) as Hpl. unfold placed_as in Hpl. rewrite Hx in Hpl.
  by rewrite decide_True in Hpl by (by apply (li_members _ _ _ _ _ _ _ _ Hinv)).
Qed.

Lemma rwflist_chain_witness :
  ∃ w (h : gmap sds hval) ptrs (Ms : gmap sds rwfle) hd ch,
    deliver_all (list_message "l" <$> list_example) (init_server 3 2 (mkZconf 128 64) []) = inr w ∧
    w_db w !! ("l" : sds) = Some (OHash h) ∧ h !! ("head" : sds) = HPtr <$> hd ∧
    (∀ e l x, ptrs !! e = Some l → Ms !! e = Some x → w_heap w !! l = Some (to_cell x)) ∧
    chained ptrs Ms hd ch ∧ StronglySorted (below example_id) ch ∧
    (∀ e, e ∈ ch ↔ inserted (ops_of e list_example)) ∧
    (∀ e x, e ∈ ch → Ms !! e = Some x → ident x = (Some e, Some (example_id e), Some (example_text e))).
Proof. by apply (rwflist_chain "l" 3 2 (mkZconf 128 64) [] example_id example_text list_example); [|apply list_example_ok|]. Defined.

(** C9: What a client reads from a replicated list.  After any history that is
    not empty and satisfies [list_ok] (one identifier and one text for each
    element, different ones for different elements, no element or predecessor
    named head, current, length or ops, predecessors with lower identifiers,
    updates after an insert of their element with the same clock), [rwfllist]
    announces as many elements as it sends, [rwfllen] gives that number, the
    elements are those with an insert in force and come in the order of their
    identifiers, and each property has the value of the last update in force or,
    without one, of the insert in force from the server with the greatest
    id. *)
Theorem rwflist_reply key n i conf rnd idof textof hist :
  n ≠ 0 → list_ok n idof textof hist → hist ≠ [] →
  ∃ w es (val : sds → list_prop → Z),
    deliver_all (list_message key <$> hist) (init_server n i conf rnd) = inr w ∧
    ask ["rwfllist"; key] w
      = inr (RArrayLen (Z.of_nat (length es)) :: mjoin ((λ e, elem_reply textof e (val e)) <$> es)) ∧
    ask ["rwfllen"; key] w = inr [RInt (Z.of_nat (length es))] ∧
    StronglySorted (below idof) es ∧
    (∀ e, e ∈ es ↔ live_in hist e) ∧ ∀ e p, e ∈ es → prop_value p (ops_of e hist) (val e p).
Proof.
  intros Hn Hh Hne. destruct (list_run n i idof textof key conf rnd hist Hn Hh) as (w & Hd & Hw).
  destruct (list_read n i idof textof key hist w Hw Hh Hne) as (es & Hl & Hlen & Hsort & Hin).
  exists w, es, (value_of n i hist). split_and!; try done. intros e p He. eapply value_spec; [done|by apply Hin].
Qed.

Lemma rwflist_reply_witness :
  ∃ w es (val : sds → list_prop → Z),
    deliver_all (list_message "l" <$> list_example) (init_server 3 2 (mkZconf 128 64) []) = inr w ∧
    ask ["rwfllist"; "l"] w
      = inr (RArrayLen (Z.of_nat (length es)) :: mjoin ((λ e, elem_reply example_text e (val e)) <$> es)) ∧
    ask ["rwfllen"; "l"] w = inr [RInt (Z.of_nat (length es))] ∧
    StronglySorted (below example_id) es ∧
    (∀ e, e ∈ es ↔ live_in list_example e) ∧ ∀ e p, e ∈ es → prop_value p (ops_of e list_example) (val e p).
Proof. by apply (rwflist_reply "l" 3 2 (mkZconf 128 64) [] example_id example_text list_example); [|apply list_example_ok|]. Defined.

(** C8: Replicas of a list converge.  Two servers that have received the same
    operations, each in an order of its own, reply the same elements in the same
    order with the same properties, and the same length.  Both orders satisfy
    [list_ok]: one identifier and one text for each element, different ones for
    different elements, no element or predecessor named head, current, length or
    ops, predecessors with lower identifiers, and updates after an insert of
    their element with the same clock.  A server does not insert an element twice
    with one clock and different arguments, and updates of a property of an
    element with the same stamp agree ([writes_ok]). *)
Theorem rwflist_convergence key n i1 conf1 rnd1 i2 conf2 rnd2 idof textof hist1 hist2 :
  n ≠ 0 → list_ok n idof textof hist1 → list_ok n idof textof hist2 → writes_ok hist1 → hist1 ≡ₚ hist2 →
  ∃ w1 w2, deliver_all (list_message key <$> hist1) (init_server n i1 conf1 rnd1) = inr w1 ∧
    deliver_all (list_message key <$> hist2) (init_server n i2 conf2 rnd2) = inr w2 ∧
    ask ["rwfllist"; key] w1 = ask ["rwfllist"; key] w2 ∧ ask ["rwfllen"; key] w1 = ask ["rwfllen"; key] w2.
Proof.
  intros Hn Hh1 Hh2 Hwr Hp. destruct (decide (hist1 = [])) as [->|Hne1].
  { apply Permutation_nil_l in Hp as <-. eexists _, _. split; [done|]. split; [done|].
    destruct (empty_ask n i1 key conf1 rnd1) as [-> ->]. by destruct (empty_ask n i2 key conf2 rnd2) as [-> ->]. }
  assert (hist2 ≠ []) as Hne2 by (intros ->; by apply Permutation_nil_r in Hp).
  destruct (list_run n i1 idof textof key conf1 rnd1 hist1 Hn Hh1) as (w1 & Hd1 & Hw1).
  destruct (list_run n i2 idof textof key conf2 rnd2 hist2 Hn Hh2) as (w2 & Hd2 & Hw2).
  destruct (list_read n i1 idof textof key hist1 w1 Hw1 Hh1 Hne1) as (es1 & Hl1 & Hlen1 & Hsort1 & Hin1).
  destruct (list_read n i2 idof textof key hist2 w2 Hw2 Hh2 Hne2) as (es2 & Hl2 & Hlen2 & Hsort2 & Hin2).
  assert (es1 = es2) as <- by (eapply sorted_same; [done..|]; intros e; rewrite Hin1, Hin2; by apply live_in_perm).
  exists w1, w2. split_and!; [done..| |by rewrite Hlen1, Hlen2]. rewrite Hl1, Hl2. unfold list_reply. do 3 f_equal.
  apply list_fmap_ext. intros k e _. unfold elem_reply.
  by rewrite !(value_converge n i1 i2 idof textof hist1 hist2 e _ Hh1 Hwr Hp).
Qed.

Lemma rwflist_convergence_witness :
  ∃ w1 w2, deliver_all (list_message "l" <$> list_example) (init_server 3 1 (mkZconf 128 64) []) = inr w1 ∧
    deliver_all (list_message "l" <$> list_example') (init_server 3 2 (mkZconf 128 64) []) = inr w2 ∧
    ask ["rwfllist"; "l"] w1 = ask ["rwfllist"; "l"] w2 ∧ ask ["rwfllen"; "l"] w1 = ask ["rwfllen"; "l"] w2.
Proof.
  apply (rwflist_convergence "l" 3 1 (mkZconf 128 64) [] 2 (mkZconf 128 64) [] example_id example_text list_example list_example').
  - done.
  - apply list_example_ok.
  - apply list_example_ok.
  - apply (bool_decide_unpack _). vm_compute. exact I.
  - unfold list_example, list_example'. solve_Permutation.
Defined.
