(* ===== verification/RlistNet.v ===== *)
(** * Replicated remove-win lists

    What clients read from a replica of a remove-win list, as a function of
    the operations delivered to it, in whatever order. *)

From stdpp Require Import sorting.
From S2P Require Import Prelude.
From S2P Require Import Sds.
From S2P Require Import VectorClock.
From S2P Require Import Skiplist.
From S2P Require Import Zset.
From S2P Require Import Server.
From S2P Require Import Container.
From S2P Require Import RemoveWin.
From S2P Require Import Causal.
From S2P Require Import RemoveWinRep.
From S2P Require Import ListBasics.
From S2P Require Import Leid.
From S2P Require Import ListChain.
From S2P Require Import Rlist.
From S2P Require Import P2p.
From S2P Require Import RlistRep.
From S2P Require Import RlistInv.
From S2P Require Import Replicas.

#[local] Open Scope Z_scope.
#[local] Open Scope crdt_scope.

(** ** Delivery *)

Definition rl_prepare (k : rl_cmd_type) : command :=
  match k with RLADD => rlinsert_prepare | RLUPDATE => rlupdate_prepare | RLREM => rlrem_prepare end.

Lemma rl_message_accepts n idof textof key p :
  rl_op_ok n idof textof p → accepts (rl_message key p) (crdt_command (rl_prepare (cmd_type p.2)) (rl_effect (cmd_type p.2))).
Proof.
  intros Hfit%rl_op_fits. unfold rl_fits in Hfit. unfold rl_message, rl_argv. destruct (cmd_type p.2), (cmd_value p.2); try done;
    [eexists _, _, (-9)|eexists _, _, (-5)|eexists _, _, (-3)]; (split; [done|]; split; [reflexivity|done]).
Qed.

(** The operations a list has applied. *)
Definition rl_applied (n : Z) (hist L : list rl_item) : Prop :=
  causal rl_clk (_vc_new n 0) L ∧
  ∃ Q, L ++ Q ≡ₚ hist ∧ Forall (λ p, ¬ causally_next (join_of rl_clk (_vc_new n 0) L) (cmd_t p.2)) Q.

Section replica.
Context (n i : Z) (idof : sds → leid) (textof : sds → sds) (key : sds).
Implicit Types (w : server) (hist L : list rl_item).

Definition rl_replica hist L w : Prop := w_p2p_count w = n ∧ w_p2p_id w = i ∧ rl_at idof textof key w hist L.

Lemma rl_at_client hist L w c : rl_at idof textof key w hist L → rl_at idof textof key (set_client c w) hist L.
Proof using Type.
  intros (Q & oc & oo & Ms & len & ch & Hp & Hc & Hst & Hne & R & Hinv). exists Q, oc, oo, Ms, len, ch. split_and!; try done.
  by apply rl_state_client.
Qed.

Lemma rl_replica_init conf rnd : rl_replica [] [] (init_server n i conf rnd).
Proof using Type.
  split_and!; [done..|]. exists [], None, None, ∅, None, []. split_and!; [done|constructor|constructor|done| |apply rl_inv_init].
  exists ∅, None. split; [|done]. split; [|by split; unfold hash_field; simpl; rewrite ?lookup_empty].
  split; try done. exists ∅. split_and!; try done. right. split; [apply lookup_empty|done].
Qed.

Lemma rl_deliver hist L p w :
  0 < n → rl_replica hist L w → rl_ok n idof textof (hist ++ [p]) →
  ∃ w' L', deliver (rl_message key p) w = inr w' ∧ rl_replica (hist ++ [p]) L' w'.
Proof using Type.
  intros Hn (Hcnt & Hid & Hat) Hh. set (args := rl_message key p). set (w0 := set_client (link_client args) w).
  destruct (rl_effect_run idof textof n key w0 hist p (mkRargs args (Z.of_nat (length args))) Hcnt Hn Hh eq_refl eq_refl L) as (w1 & L' & Heff & Hsc & Hat1);
    [by apply rl_at_client|].
  exists (set_client (new_client true args) w1), L'. destruct (same_client_at w0 w1 Hsc) as (_ & Hid1 & Hcnt1). split.
  - eapply deliver_effect_client; [eapply rl_message_accepts, rl_p_ok, Hh|rewrite Hcnt; lia|exact Heff|]. exact (f_equal snd Hsc).
  - split_and!; [simpl; by rewrite Hcnt1|simpl; by rewrite Hid1|]. by apply rl_at_client.
Qed.

Lemma rl_run conf rnd hist :
  0 < n → rl_ok n idof textof hist →
  ∃ w L, deliver_all (rl_message key <$> hist) (init_server n i conf rnd) = inr w ∧ rl_replica hist L w.
Proof using Type.
  intros Hn. induction hist as [|p hist IH] using rev_ind; intros Hh; [eexists _, []; split; [done|apply rl_replica_init]|].
  destruct IH as (w & L & Hd & Hw); [eapply rl_ok_sub; [|exact Hh]; by apply submseteq_inserts_r|].
  destruct (rl_deliver hist L p w Hn Hw Hh) as (w' & L' & Hd' & Hw'). exists w', L'. split; [|done].
  rewrite fmap_app. simpl. rewrite deliver_all_app, Hd. simpl. by rewrite Hd'.
Qed.

(** ** Reading *)

(** The items a reader gets for an element. *)
Definition rl_elem_reply (e : sds) (a : attrs) : list reply :=
  [RArrayLen 6; RBulk e; RBulk (textof e); RBulk (fmt_d (default 0 (at_font a))); RBulk (fmt_d (default 0 (at_size a)));
   RBulk (fmt_d (default 0 (at_color a))); RBulk (fmt_d (at_property a))].

(** All properties of an entry are set. *)
Definition attrs_set (a : attrs) : Prop := is_Some (at_font a) ∧ is_Some (at_size a) ∧ is_Some (at_color a).

Lemma set_attr_set p z a : attrs_set a → attrs_set (set_attr p z a).
Proof using Type. intros (? & ? & ?). by destruct p. Qed.

Lemma rl_pay_set l x : attrs_set (rl_attrs (rl_pay l x)).
Proof using Type.
  induction l as [|u l IH] using rev_ind; [unfold rl_pay, rl_first; simpl; destruct (cmd_value x); split_and!; by eexists|].
  rewrite rl_pay_snoc. unfold rl_touch, rl_update_entry. repeat case_match; try done. simpl. by apply set_attr_set.
Qed.

Lemma rl_reply_said args rs w e a :
  attrs_set a → reply_element (Some e) (Some (textof e)) a (said args rs w) = Done () (said args (rs ++ rl_elem_reply e a) w).
Proof using Type.
  intros ([f Hf] & [z Hz] & [c Hc]). unfold said, reply_element, addReply, mbind, M_bind, rl_elem_reply. rewrite Hf, Hz, Hc. simpl. by rewrite <- !app_assoc.
Qed.

Lemma rl_said_lcont args rs w ptrs Ms hd len : lcont (A := rle) w key ptrs Ms hd len → lcont (said args rs w) key ptrs Ms hd len.
Proof using Type. intros []. by split. Qed.

(** The walk over the chain replies the elements that are shown. *)
Lemma rl_chain_said args fuel o c rs w ptrs (Ms : gmap sds rle) hd len (val : sds → attrs) :
  lcont w key ptrs Ms hd len → seg ptrs Ms o c None → (length c ≤ fuel)%nat →
  (∀ e x, e ∈ c → Ms !! e = Some x → rl_oid x = Some e ∧ rl_content x = Some (textof e) ∧
    (rl_shown x = true → ∃ a, rw_value (rl_sets x) = Some a ∧ rl_attrs (a_val a) = val e ∧ attrs_set (val e))) →
  rl_reply_chain fuel o (said args rs w)
    = Done () (said args (rs ++ mjoin ((λ e, rl_elem_reply e (val e)) <$> rl_visible Ms c)) w).
Proof using Type.
  intros C. revert fuel o rs. induction c as [|e c IH]; intros fuel o rs Hs Hf Hx; simpl in Hs.
  { subst o. unfold rl_visible. rewrite filter_nil. simpl. rewrite app_nil_r. by destruct fuel. }
  destruct Hs as (l & x & -> & Hl & Hxe & Hs). destruct fuel as [|fuel]; [simpl in Hf; lia|]. cbn [rl_reply_chain].
  mstep (lload_spec (said args rs w) key ptrs Ms hd len e l x (rl_said_lcont _ _ _ _ _ _ _ C) Hl Hxe).
  destruct (Hx e x ltac:(by left) Hxe) as (Ho & Ht & Hv). unfold rl_visible. rewrite filter_cons, Hxe, Ho, Ht. simpl. fold (rl_visible Ms c). fold (rl_shown x).
  assert (∀ rs', rl_reply_chain fuel (rl_next x) (said args rs' w)
    = Done () (said args (rs' ++ mjoin ((λ e, rl_elem_reply e (val e)) <$> rl_visible Ms c)) w)) as Hrest.
  { intros rs'. apply IH; [done|simpl in Hf; lia|]. intros e' x' He'. apply Hx. by right. }
  destruct (rl_shown x).
  - destruct (Hv eq_refl) as (a & Ha & Hat & Hset). rewrite decide_True by done. erewrite bind_Done.
    2: { rewrite Ha. erewrite (bind_Done (orfault NullDeref (Some a)) _ _ a) by done. rewrite Hat. by apply rl_reply_said. }
    rewrite Hrest. simpl. by rewrite <- app_assoc.
  - rewrite decide_False by done. rewrite (bind_Done (mret ()) _ _ () _ eq_refl). apply Hrest.
Qed.

(** What the entry that counts carries. *)
Lemma rl_value_attrs l s :
  rw_shape rl_kind rl_pay l s → rw_LOOKUP s = true →
  ∃ a m, rw_value s = Some a ∧ rw_top rl_kind l m ∧ rl_attrs (a_val a) = rl_attrs (rl_pay l m).
Proof using Type.
  intros Hsh Hl. apply (rw_LOOKUP_spec _ _ _ _ Hsh) in Hl as [Hl _]. destruct (rw_value_spec rl_kind rl_pay l s Hsh Hl) as (a & m & Ha & Hm & _ & Hv).
  exists a, m. by rewrite Hv.
Qed.

(** The two read commands on a list in the keyspace. *)
Lemma rl_len_ask w (h : gmap sds hval) len :
  w_db w !! key = Some (OHash h) → h !! ("length" : sds) = HInt <$> len → ask ["rllen"; key] w = inr [RInt (default 0 len)].
Proof using Type.
  intros Hk Hlen. eapply (ask_run _ rllenCommand); [by eexists _, _, 2|left].
  unfold rllenCommand, lenCommand, lookupKey, getLen, hashTypeGetValueObject, mbind, M_bind. simpl. rewrite Hk. simpl. rewrite Hk, Hlen.
  by destruct len.
Qed.

Lemma rl_list_ask w (h : gmap sds hval) len hd ptrs Ms ch rs :
  w_db w !! key = Some (OHash h) → h !! ("length" : sds) = HInt <$> len → h !! ("head" : sds) = HPtr <$> hd →
  lcont (A := rle) w key ptrs Ms hd len → chained ptrs Ms hd ch → NoDup ch →
  (∀ fuel args rs0, (length ch ≤ fuel)%nat → rl_reply_chain fuel hd (said args rs0 w) = Done () (said args (rs0 ++ rs) w)) →
  ask ["rllist"; key] w = inr (RArrayLen (default 0 len) :: rs).
Proof using Type.
  intros Hk Hlen Hhd C Hch Hnd Hrun. eapply (ask_run _ rllistCommand); [by eexists _, _, 2|left].
  pose proof (seg_length w key ptrs Ms hd len hd ch None C Hnd Hch) as Hfuel.
  unfold rllistCommand. erewrite (bind_Done (arg 1)) by done.
  erewrite (bind_Done (lookupKey key)) by (unfold lookupKey; simpl; by rewrite Hk). cbv beta iota.
  erewrite (bind_Done (getLen key) _ _ (default 0 len)).
  2: { unfold getLen, hashTypeGetValueObject, mbind, M_bind. simpl. rewrite Hk, Hlen. by destruct len. }
  erewrite (bind_Done (addReply _)) by done. erewrite (bind_Done (getHead key) _ _ hd).
  2: { unfold getHead, hashTypeGetValueObject, mbind, M_bind. simpl. rewrite Hk, Hhd. by destruct hd. }
  erewrite (bind_Done heap_fuel) by done. apply (Hrun _ ["rllist"; key] [RArrayLen (default 0 len)]). simpl. lia.
Qed.

Lemma rl_hash w ptrs Ms hd len lc oo c ops :
  rl_rep w key ptrs Ms hd len (Some lc) oo c ops →
  ∃ h : gmap sds hval, w_db w !! key = Some (OHash h) ∧ h !! ("head" : sds) = HPtr <$> hd ∧ h !! ("length" : sds) = HInt <$> len.
Proof using Type.
  intros [C S]. destruct (hash_of _ _ _ _ (sd_current _ _ _ _ _ _ S)) as (h' & Hk' & _).
  destruct (l_hash _ _ _ _ _ _ C) as (h & [Hk|[Hk _]] & _ & Hh & Hl); [|congruence]. by exists h.
Qed.

Lemma rl_read hist L w :
  rl_replica hist L w → hist ≠ [] →
  ∃ es (val : sds → attrs),
    ask ["rllist"; key] w = inr (RArrayLen (Z.of_nat (length es)) :: mjoin ((λ e, rl_elem_reply e (val e)) <$> es)) ∧
    ask ["rllen"; key] w = inr [RInt (Z.of_nat (length es))] ∧ StronglySorted (below idof) es ∧
    (∀ e, e ∈ es ↔ rw_present rl_kind (ops_of e L)) ∧
    ∀ e, e ∈ es → ∃ m, rw_top rl_kind (ops_of e L) m ∧ val e = rl_attrs (rl_pay (ops_of e L) m).
Proof using Type.
  intros (_ & _ & Q & oc & oo & Ms & len & ch & _ & _ & _ & Hoc & (ptrs & hd & R & Hch) & Hinv) Hne. destruct (Hoc Hne) as [lc ->].
  destruct (rl_hash _ _ _ _ _ _ _ _ _ R) as (h & Hk & Hh & Hl).
  set (val e := match rw_value (rl_sets (default rleNew (Ms !! e))) with Some a => rl_attrs (a_val a) | None => mkAttrs None None None 0 end).
  assert (∀ e, rl_shown (default rleNew (Ms !! e)) = true → ∃ a m, rw_value (rl_sets (default rleNew (Ms !! e))) = Some a ∧
    rw_top rl_kind (ops_of e L) m ∧ rl_attrs (a_val a) = val e ∧ val e = rl_attrs (rl_pay (ops_of e L) m)) as Hval.
  { intros e He. destruct (rl_value_attrs _ _ (ri_sets _ _ _ _ _ _ Hinv e) He) as (a & m & Ha & Hm & Hat). exists a, m. unfold val. by rewrite Ha. }
  pose proof (ri_len _ _ _ _ _ _ Hinv) as Hlen. exists (rl_visible Ms ch), val. rewrite <- Hlen. split_and!.
  - eapply rl_list_ask; [done..|apply R|done|by eapply sorted_nodup, Hinv|]. intros fuel args rs0 Hf. eapply rl_chain_said; [apply R|done..|].
    intros e x Hin Hx. pose proof (ri_place _ _ _ _ _ _ Hinv e) as Hpl. unfold rl_placed_as in Hpl.
    rewrite decide_True in Hpl by (by apply (ri_members _ _ _ _ _ _ Hinv)). specialize (Hval e). rewrite Hx in Hpl, Hval. simpl in Hpl, Hval.
    injection Hpl as -> _ ->. split_and!; [done..|]. intros He. destruct (Hval He) as (a & m & Ha & _ & Hat & Hv). exists a. split_and!; [done..|].
    rewrite Hv. apply rl_pay_set.
  - by eapply rl_len_ask.
  - apply sorted_filter, Hinv.
  - intros e. unfold rl_visible. rewrite list_elem_of_filter, rw_present_spec.
    assert (rl_shown (default rleNew (Ms !! e)) = true ↔ live rl_kind (ops_of e L) ≠ [] ∧ open_rems rl_kind (ops_of e L) = []) as <-.
    { apply (rw_LOOKUP_spec _ _ _ _ (ri_sets _ _ _ _ _ _ Hinv e)). }
    split; [by intros []|]. intros He. split; [done|]. by eapply rl_shown_inserted.
  - intros e [He _]%list_elem_of_filter. destruct (Hval e He) as (a & m & _ & Hm & _ & Hv). by exists m.
Qed.

Lemma rl_replica_applied hist L w : rl_replica hist L w → rl_applied n hist L.
Proof using Type.
  intros (Hcnt & Hid & Q & oc & oo & Ms & len & ch & Hp & Hc & Hst & _). unfold vc_new in *. rewrite Hcnt, Hid in *. split.
  - by eapply causal_owner; [|exact Hc].
  - exists Q. split; [done|]. eapply Forall_impl; [exact Hst|]. simpl. intros p Hx Hn. apply Hx.
    eapply causally_next_owner; [|exact Hn]. by apply vector_join_of.
Qed.

(** Nothing of a causally complete history is left waiting. *)
Lemma rl_applied_all hist L :
  0 < n → rl_ok n idof textof hist → rl_applied n hist L → complete rl_clk (_vc_new n 0) hist → L ≡ₚ hist.
Proof using Type.
  intros Hn Hok (Hc & Q & Hp & Hq) Hcomp. destruct Q as [|q Q]; [by rewrite <- Hp, app_nil_r|]. exfalso.
  destruct (complete_ready rl_clk (_vc_new n 0) L (q :: Q)) as (x & Hx & Hnext); [| |done..|].
  - rewrite Hp, vsize_vc_new by lia. destruct Hok as (H & _). eapply Forall_impl; [exact H|]. by intros p [? _].
  - destruct Hcomp as (l' & Hl' & Hc'). exists l'. split; [by etrans|done].
  - by apply (proj1 (Forall_forall _ _) Hq x Hx).
Qed.
End replica.

(** ** Properties *)

(** Server 0 inserts a and then b after it; server 1 sees a, inserts c at the
    front and sets the size of a; server 2 sees what server 0 did and removes
    b. *)
Definition rl_example_id (e : sds) : leid :=
  if String.eqb e "a" then [mkPos 100 0 0] else if String.eqb e "b" then [mkPos 200 0 1] else [mkPos 50 1 0].

Definition rl_example_text (e : sds) : sds := if String.eqb e "a" then "first" else if String.eqb e "b" then "second" else "third".

Definition rl_example_insert (prev e : sds) (t : vc) : rl_item :=
  (e, mkCmd RLADD (RAdd (mkIns prev (rl_example_text e) 1 12 0 5 (rl_example_id e))) t).

Definition rl_example : list rl_item :=
  [rl_example_insert "null" "a" (mkVc [1; 0; 0] 0); rl_example_insert "a" "b" (mkVc [2; 0; 0] 0);
   rl_example_insert "null" "c" (mkVc [1; 1; 0] 1); ("a", mkCmd RLUPDATE (RUpd "size" 20) (mkVc [1; 2; 0] 1));
   ("b", mkCmd RLREM RRem (mkVc [2; 0; 1] 2))].

(** C10: What a client reads from a replicated remove-win list.  A server that
    receives inserts, updates and removes of a list in any order processes them
    without fault, when they satisfy [rl_ok]: all inserts of an element carry the
    same identifier, of 1 to 1024 positions, and the same text; different elements
    have different identifiers; no element and no predecessor has one of the names
    head, current, length and ops; the element that an insert names as its
    predecessor, if it is inserted at all, has a lower identifier; the operations
    of a server have ordered clocks; and there are fewer than 2^31 - 1 of
    them.  Some of the operations, [L], have been applied, in causal order, and
    none of those still waiting could be applied; when the operations received
    are causally complete, all of them have been applied.  [rllist] announces as
    many elements as it sends and [rllen] gives that number; the elements are
    those inserted in [L] all of whose removes in [L] were seen by an insert, and
    they come in the order of their identifiers; the properties of an element are
    those of its live insert from the server of the greatest id, changed by the
    updates in [L] in order of application. *)
Theorem rlist_reply key n i conf rnd idof textof hist :
  0 < n → rl_ok n idof textof hist → hist ≠ [] →
  ∃ w L es (val : sds → attrs),
    deliver_all (rl_message key <$> hist) (init_server n i conf rnd) = inr w ∧
    rl_applied n hist L ∧ (complete rl_clk (_vc_new n 0) hist → L ≡ₚ hist) ∧
    ask ["rllist"; key] w
      = inr (RArrayLen (Z.of_nat (length es)) :: mjoin ((λ e, rl_elem_reply textof e (val e)) <$> es)) ∧
    ask ["rllen"; key] w = inr [RInt (Z.of_nat (length es))] ∧
    StronglySorted (below idof) es ∧ (∀ e, e ∈ es ↔ rw_present rl_kind (ops_of e L)) ∧
    ∀ e, e ∈ es → ∃ m, rw_top rl_kind (ops_of e L) m ∧ val e = rl_attrs (rl_pay (ops_of e L) m).
Proof.
  intros Hn Hok Hne. destruct (rl_run n i idof textof key conf rnd hist Hn Hok) as (w & L & Hd & Hw).
  destruct (rl_read n i idof textof key hist L w Hw Hne) as (es & val & H). exists w, L, es, val.
  pose proof (rl_replica_applied _ _ _ _ _ _ _ _ Hw) as Hap. split; [done|]. split; [done|]. split; [|done].
  by eapply rl_applied_all.
Qed.

Lemma rlist_reply_witness :
  ∃ w L es (val : sds → attrs),
    deliver_all (rl_message "l" <$> reverse rl_example) (init_server 3 1 (mkZconf 128 64) []) = inr w ∧ L ≡ₚ reverse rl_example ∧
    ask ["rllist"; "l"] w
      = inr (RArrayLen (Z.of_nat (length es)) :: mjoin ((λ e, rl_elem_reply rl_example_text e (val e)) <$> es)) ∧
    StronglySorted (below rl_example_id) es ∧ (∀ e, e ∈ es ↔ rw_present rl_kind (ops_of e L)).
Proof.
  destruct (rlist_reply "l" 3 1 (mkZconf 128 64) [] rl_example_id rl_example_text (reverse rl_example))
    as (w & L & es & val & Hd & _ & Hall & Hl & _ & Hs & Hin & _).
  - lia.
  - apply (bool_decide_unpack _). vm_compute. exact I.
  - done.
  - exists w, L, es, val. split; [exact Hd|]. split; [|exact (conj Hl (conj Hs Hin))].
    apply Hall. exists rl_example. split; [symmetry; apply reverse_Permutation|]. apply (bool_decide_unpack _). vm_compute. exact I.
Defined.
